(* ===== verification/_CoqProject ===== *)
-Q . S2P
Prelude.v
Time.v
Flow.v
Config.v
TcpState.v
Cells.v
Chunks.v
Ledger.v
Track.v
Reassembler.v
Buffered.v
BTree.v
Ooo.v
Runs.v
Pieces.v
Segment.v
SegmentFacts.v
SegmentProps.v
SegmentTerm.v
SegmentStream.v
Http2Error.v
Huffman.v
Hpack.v
HpackEncode.v
Http2Frame.v
Text.v
ParserKind.v
Parser.v
ParserProps.v
Http2Stream.v
Http2StreamFacts.v
Http2Props.v
Http1.v
Http1Engine.v
Http1Session.v
Http1Proxy.v
Http1Scan.v
Http1Facts.v
Http1Chunk.v
Http1Drain.v
Http1Passive.v
Http1Relay.v
Http1Framing.v
Http1Chunked.v
Http1Exchange.v
Packet.v
Welford.v
Event.v
SessionCore.v
DatagramCore.v
CoreFacts.v
CoreProps.v
Lru.v
Tracker.v
TrackerFacts.v
TrackerMask.v
TrackerProps.v
Layers.v
IpFragment.v
Dedup.v
Mergeable.v
Sketches.v
Factory.v
StreamState.v
FlowDriver.v
SessionEngine.v
SessionDriver.v
StreamFacts.v
DriverSession.v
DriverFacts.v
DriverEvents.v
DriverProps.v
EngineProps.v
Window.v
RollingRate.v
Bucketed.v
Indexed.v
Http2Session.v
SlotQueue.v
TypedDriver.v
