(* ===== verification/Prelude.v ===== *)
(** * flowscope: passive flow and session tracking, verified

    flowscope turns captured packets into flows, byte streams and protocol
    messages.  This library models the parts that decide what its users
    see and proves what they promise.

    ** How the program fits together

    A capture source yields [PacketView]s (view.rs); an extractor reads the
    flow key and transport header ([Extracted], extractor.rs); the
    [FlowTracker] (tracker.rs) keeps one entry per flow in an LRU table,
    runs the TCP state machine (tcp_state.rs, history.rs), keeps the
    statistics (event.rs, correlate/welford.rs) and emits [FlowEvent]s.  Per
    flow and side a [Reassembler] (reassembler.rs, segment_reassembler.rs)
    turns TCP segments into an in-order byte stream with the holes it had to
    give up on marked; the [FlowDriver] (flow_driver.rs) owns a tracker and
    the reassemblers of its flows, feeds every TCP packet to its side,
    accounts for their memory and merges their diagnostics into the events.
    The session layer (session/) hands the streams and datagrams to message
    parsers: an [Engine] drives the flow driver and dispatches what it
    releases to a core, which keeps one parser per flow, probing a signature
    first where it has one, and reports messages, stops and closes.  The
    typed [Driver] (driver/) puts any number of cores behind one engine,
    each with a queue of its own for its readers.
    Protocol parsers consume the streams; HTTP/1.x (http/) and HTTP/2
    (http2/) are modelled here.  One HTTP/1.x engine (http/engine.rs) frames
    messages for a passive front-end that observes (session.rs,
    exchange.rs) and an inline one that forwards (proxy.rs, access.rs).
    Beside this spine are IP fragment reassembly (ip_fragment.rs), header
    slices (layers/), loopback deduplication (dedup.rs), and mergeable
    sketches, windowed counters and tables with a time to live (correlate/).

    ** Files, and the source each one models

    - [Prelude]: record update, machine integers, slices, results, bytes,
      automation ([zlia], [zb], [case_if], hint databases [u32], [zlist]).
    - [Time] (timestamp.rs), [Flow] and [Config] (the enumerations of
      event.rs and extractor.rs, [FlowTrackerConfig]), [TcpState]
      (tcp_state.rs, history.rs).
    - Reassembly.  [Cells] and [Ledger]: the specification, a stream as a
      list of cells, each a byte or missing.  [Chunks]: [StreamChunks], the
      ready buffer with its marks.  [Track]: the position of a side, the
      extension of sequence numbers to offsets, skipped ranges, evidence of
      loss, resynchronisation.  [Reassembler]: the trait as a class, and
      sessions ([Event], [run]) for any implementation.  [Buffered]:
      [BufferedReassembler].  [BTree] (ordered maps as sorted lists), [Ooo]
      (the out-of-order set), [Runs] and [Pieces] (its invariant and the
      overlap policies), [Segment] ([SegmentBufferReassembler]),
      [SegmentFacts] (its invariant), [SegmentProps], [SegmentTerm],
      [SegmentStream] (its theorems, and what it can hold).
    - HTTP/2.  [Http2Error] (error.rs), [Huffman] (huffman.rs), [Hpack]
      (hpack.rs), [HpackEncode] (hpack_encode.rs), [Http2Frame] (frame.rs),
      [Text] (string and number helpers), [Http2Stream] (stream.rs),
      [Http2StreamFacts] and [Http2Props] (its invariant and theorems),
      [Http2Session] (session.rs, the parser as a session parser, and
      grpc.rs).
    - HTTP/1.x.  [Http1] (types.rs, poison.rs and the framing rules of
      engine.rs), [Http1Engine] (the rest of engine.rs), [Http1Session]
      (session.rs, exchange.rs), [Http1Proxy] (proxy.rs, access.rs).
      [Http1Scan]: what the delimiter scans find.  [Http1Facts]: the
      invariant of the engine and what a step consumes and reports.
      [Http1Chunk]: later bytes do not change a step.  [Http1Drain]: the
      polling loops, and an instance of the httparse interface for the
      examples.  The theorems are in [Http1Passive],
      [Http1Relay], [Http1Framing], [Http1Chunked] and [Http1Exchange].
    - The tracker.  [Packet] (view.rs, extractor.rs), [Welford], [Event]
      (event.rs), [Lru] (the interface of the LRU table and a list that
      satisfies it), [Tracker] (tracker.rs), [TrackerFacts] and
      [TrackerMask] (invariant, ledger, suppression), [TrackerProps].
    - The flow driver.  [Factory] (the diagnostics and factory traits of
      reassembler.rs as classes with laws, and the built-in factories),
      [StreamState] (slots, counters and the path of a TCP packet through
      the stream state of its flow, [feed_tcp]), [FlowDriver] (every
      operation of flow_driver.rs).  [StreamFacts] and [DriverFacts]: any
      property the reassembler contract preserves holds of every live
      reassembler of a driver, and the memory pool is exact.
      [DriverSession]: sessions of calls with what went in and came out.
      [DriverEvents]: the events of an owned tracker and of the driver.
      [DriverProps]: the theorems.
    - The session layer.  [ParserKind] (parser_kind.rs), [Parser]
      (session/mod.rs: the parser traits as classes, the accumulating and
      per-datagram parsers), [SessionCore] and [DatagramCore]
      (session/core.rs), [SessionEngine] (session/engine.rs, over any
      [Dispatch]), [SessionDriver] (session/driver.rs: the cores as
      dispatches, the two drivers).  [CoreFacts]: the machine of one flow,
      and the core as a family of them.  The theorems are in
      [ParserProps], [CoreProps] (the cores and probing) and [EngineProps]
      (what the engine asks of a dispatch, and that it keeps the state of
      live flows only).
    - The typed driver.  [SlotQueue] (driver/slot.rs, driver/broadcast.rs:
      the handles on the queues of messages, over an interface of the
      crossbeam queue), [TypedDriver] (driver/typed.rs,
      driver/typed_slot.rs: slots of any parser type behind one engine,
      the driver, its builder, and the theorems).
    - [Layers] (layers/eth.rs, ip.rs, transport.rs, tunnel.rs, kind.rs),
      [IpFragment] (ip_fragment.rs), [Dedup] (dedup.rs).
    - Sketches.  [Mergeable] (the contract as a class with laws, and double
      hashing), [Sketches] (count_min.rs, bloom.rs, counting_bloom.rs,
      hyperloglog.rs, topk.rs under correlate/, and the contract used).
    - Windows and tables.  [Window] (buckets of time and queues of them),
      [RollingRate] (rolling_rate.rs), [Bucketed] (bucketed.rs, set.rs),
      [Indexed] (indexed.rs, flow_state_map.rs, neighbor_table.rs,
      first_seen.rs, xbits.rs, burst.rs), each with its theorems.

    Records and fields keep the names of the Rust structs and fields, each
    method is the definition of the same name in a module named after the
    type; a method with [&mut self] takes the state last and returns it.  A
    definition without a Rust namesake is a loop body or a block of a longer
    function and sits next to the definition that uses it.

    ** What is proved

    - Reassembly: every byte handed to a consumer was on the wire at its
      place, what is missing is accounted for exactly, and a stream whose
      segments all arrive within the deadline is reconstructed exactly from
      any order, repetition and overlap ([SegmentStream], [SegmentProps],
      [Buffered]); overlaps are resolved as the policy says ([Pieces]);
      memory stays within the budgets; a stop is final; flushing leaves
      nothing; recursion and loops end.
    - HTTP/2: HPACK encoder and decoder stay in step over a connection,
      field lists survive framing and parsing, everything a peer controls is
      bounded, failure is final, the parser makes progress ([Http2Props]); a
      session with room for a preface reports the same of a stream however
      it is cut ([Http2Session]).
    - HTTP/1.x: messages do not depend on how the stream is cut
      ([Http1Passive]); the inline front-end hands on exactly the bytes it
      accepted but for those of a closed direction, and a drained one that
      still parses accepts more ([Http1Relay]); what the
      strict policy lets through is framed alike by every recipient, and an
      authority is in normal form ([Http1Framing]); chunked bodies decode to
      what was encoded ([Http1Chunked]); every request is in exactly one
      exchange, or was cut short by the end of its stream ([Http1Exchange]).
    - Tracker: the table and its counters stay consistent over any calls,
      the events are an exact account of the flows while the gates are open
      and no flow is given up, sweeps end exactly the idle flows, shedding
      events is only a filter.
    - Flow driver ([DriverProps]): for any reassembler that keeps its
      contract, what a consumer hears of a side is what that side's
      segments carried and a drained side is complete; the driver never
      panics, keeps no stream state of a flow that is gone, its memory pool
      is exactly what the live reassemblers were charged, a releasing cap
      is enforced at every segment, and with the gates open its events are
      the tracker's exact account with diagnostics merged in.
    - Session layer: with parsers that share no state a core is a family of
      independent flow machines, and what it says of a flow is a word of a
      small language; probing is transparent within its budget, and the log
      is a front part of each side, cut just where the budget ends, and the
      size of the rest ([CoreProps]); an
      accumulating parser reports the frames of the stream under any cut
      ([ParserProps]); a driver never panics and keeps neither stream nor
      parser of a flow that is gone ([EngineProps]).
    - Typed driver: parsers registered together do not disturb each other,
      events and messages can be put back in the order they happened in, no
      state of a flow that is gone is kept ([TypedDriver]); each reader gets
      every message once and in order ([SlotQueue]).
    - Fragments, headers, deduplication: datagrams are reassembled in any
      order, among others while there is room, and never from foreign bytes, extension chains and options are
      read exactly, duplicates are the ones the window defines.
    - Sketches: one-sided errors and exact characterisations under any
      sharding; the sketches of the parts of a stream, united in any order,
      are the sketch of the whole; what the contract alone gives.
    - Windows and tables: a rolling rate of integers reports the values
      recorded since its window began, loses none to its cap and stays as small as documented
      ([RollingRate]); counters and sets never over-report and are exact
      within their capacity ([Bucketed]); a bounded table only
      forgets, and with room is the unbounded one ([Indexed]).
    - Defects and divergences from the documentation are theorems on
      concrete inputs next to the properties they limit.

    ** Recursion and fuel

    Recursion that is not structural takes fuel, always computed from the
    data, never assumed.  [feed] and [missing] recurse at most three deep
    ([segment_recursion_bounded], [buffered_terminates]); the loops over held
    pieces take one step per piece ([segment_loops_exit]); the HTTP/2 frame
    loop takes one step per buffered byte, and a frame has nine; the
    extension walk takes nine steps for at most eight headers
    ([ipv6_extensions_bounded]).  A poll of the HTTP/1.x engine goes round
    at most twice ([poll_eq]); the loops over polls take the fuel [work],
    a bound on the steps a direction can make on the bytes it holds that
    every step lowers ([poll_progress]); the frame drain takes one round per
    buffered byte ([drain_frames]); the adapter's feed loop takes one round
    per byte, and each round but the last accepts one.

    ** Idealisations

    Stream offsets, byte and event counters and capacities are exact
    integers: the code's 64-bit additions do not overflow below 2^63 (bounds
    appear as hypotheses where a theorem needs them), while sequence numbers,
    casts, saturating and wrapping operations are modelled at their width.
    Durations are nanoseconds without the panic at the end of the range of
    [Duration].  [HashMap]s are finite maps, with the iteration order as a
    parameter where it shows; [BTreeMap]s are sorted lists; [bytes::Bytes]
    and slices are lists.  The memory charged for a deque of out-of-order
    pieces is that of an allocator that gives the capacity asked for (the
    standard library promises at least that much).  Floating point is IEEE binary64, computed.
    Metrics and tracing calls (obs.rs) have no effect on the state and are
    omitted.  The extractor, hash functions, the LRU table, the queue of the
    crossbeam crate and the head parser of the httparse crate are parameters
    or interfaces: they are the owner's or third-party code.

    ** Not modelled

    The floating-point estimators of correlate/ (they use exponentials and
    logarithms of the platform), HTTP/1.x fingerprints and replay (ja4h.rs,
    pcap_iter.rs), the other application parsers (dns/, tls/, smb/, modbus/,
    dnp3/, ftp/, smtp/ and so on: independent parsers behind the interface of
    [Parser], some written by hand and some over third-party crates), the
    extractors and the layer stack, which delegate to the etherparse crate,
    detection and enrichment, which are heuristics over the events, and
    export and capture, which are I/O. *)

From Stdlib Require Export ZArith Lia.
From Stdlib Require String Strings.Byte.
Export String.StringSyntax.
Delimit Scope string_scope with string.
From stdpp Require Export base tactics numbers option list.
Open Scope Z_scope.

(** ** Record update

    [r <| f := v |>] is Rust's [r.f = v] (the other fields are kept) and
    [r <| f ::= g |>] is [r.f = g(r.f)].  A record opts in with an [Eta]
    instance, its eta expansion. *)

Class Eta (R : Type) := mk_eta { eta_of : R -> R }.
Class Upd {R T : Type} (p : R -> T) := upd : (T -> T) -> R -> R.
#[global] Hint Opaque Upd : typeclass_instances.
#[global] Arguments mk_eta {R} _.
#[global] Arguments upd {_ _} _ {_} _ _.

Ltac solve_upd :=
  match goal with
  | |- @Upd ?R ?T ?p =>
      let e := eval hnf in (@eta_of R _) in
      lazymatch eval pattern p in e with
      | (fun _ => ?b) _ => fail "not a field"
      | ?g _ =>
          let u := eval cbv beta in (fun (h : T -> T) => g (fun r => h (p r))) in
          exact u
      end
  end.
#[export] Hint Extern 1 (Upd _) => solve_upd : typeclass_instances.

Declare Scope record_scope.
Delimit Scope record_scope with rec.
Notation "r <| p := v |>" := (upd p (fun _ => v) r)
  (at level 12, left associativity, p at level 9) : record_scope.
Notation "r <| p ::= f |>" := (upd p f r)
  (at level 12, left associativity, p at level 9) : record_scope.
Open Scope record_scope.
Ltac unfold_upd := cbv [upd] in *.

(** ** Machine integers

    A [uN] value is a [Z]; the cast [x as uN] keeps the low [N] bits.
    [x as i32] reads the low 32 bits as a two's complement number. *)

Definition u8 (x : Z) : Z := x mod 2 ^ 8.
Definition u16 (x : Z) : Z := x mod 2 ^ 16.
Definition u32 (x : Z) : Z := x mod 2 ^ 32.
Definition u64 (x : Z) : Z := x mod 2 ^ 64.
Definition i32 (x : Z) : Z :=
  let y := u32 x in if y <? 2 ^ 31 then y else y - 2 ^ 32.

(** [x as i64]. *)
Definition i64 (x : Z) : Z :=
  let y := u64 x in if y <? 2 ^ 63 then y else y - 2 ^ 64.
Definition I64_MAX : Z := 2 ^ 63 - 1.

Definition U8_MAX : Z := 2 ^ 8 - 1.
Definition U16_MAX : Z := 2 ^ 16 - 1.
Definition U32_MAX : Z := 2 ^ 32 - 1.
Definition U64_MAX : Z := 2 ^ 64 - 1.

#[global] Arguments U8_MAX : simpl never.
#[global] Arguments U16_MAX : simpl never.
#[global] Arguments U32_MAX : simpl never.
#[global] Arguments U64_MAX : simpl never.

(** [saturating_add] / [saturating_sub] / [saturating_mul] on [u64]
    ([usize] is 64 bits wide) and [saturating_add] on [u32]. *)
Definition sat_add (a b : Z) : Z := Z.min U64_MAX (a + b).
Definition sat_sub (a b : Z) : Z := Z.max 0 (a - b).
Definition sat_mul (a b : Z) : Z := Z.min U64_MAX (a * b).
Definition sat_add32 (a b : Z) : Z := Z.min U32_MAX (a + b).

(** [wrapping_add] / [wrapping_sub] on [u32]. *)
Definition wadd32 (a b : Z) : Z := u32 (a + b).
Definition wsub32 (a b : Z) : Z := u32 (a - b).

Lemma u32_range x : 0 <= u32 x < 2 ^ 32.
Proof. unfold u32. apply Z.mod_pos_bound. lia. Qed.

Lemma u32_idem x : u32 (u32 x) = u32 x.
Proof. unfold u32. apply Z.mod_mod. lia. Qed.

Lemma u32_small x : 0 <= x < 2 ^ 32 -> u32 x = x.
Proof. apply Z.mod_small. Qed.

Lemma u32_add_l x y : u32 (u32 x + y) = u32 (x + y).
Proof. apply Zplus_mod_idemp_l. Qed.

Lemma u32_add_r x y : u32 (x + u32 y) = u32 (x + y).
Proof. apply Zplus_mod_idemp_r. Qed.

Lemma u32_sub_l x y : u32 (u32 x - y) = u32 (x - y).
Proof. apply Zminus_mod_idemp_l. Qed.

Lemma u32_sub_r x y : u32 (x - u32 y) = u32 (x - y).
Proof. apply Zminus_mod_idemp_r. Qed.

Lemma u32_sub_modulus x : u32 (x - 2 ^ 32) = u32 x.
Proof. unfold u32. rewrite <- (Z_mod_plus_full x (-1) (2 ^ 32)). f_equal. Qed.

Lemma i32_congr x : u32 (i32 x) = u32 x.
Proof.
  unfold i32. case_match; [apply u32_idem|].
  by rewrite u32_sub_modulus, u32_idem.
Qed.

Lemma u32_add_i32 a x : u32 (a + i32 x) = u32 (a + x).
Proof. by rewrite <- u32_add_r, i32_congr, u32_add_r. Qed.

Lemma i32_range x : - 2 ^ 31 <= i32 x < 2 ^ 31.
Proof.
  unfold i32. pose proof (u32_range x). destruct (Z.ltb_spec (u32 x) (2 ^ 31)); lia.
Qed.

Lemma i32_of_small x : - 2 ^ 31 <= x < 2 ^ 31 -> i32 (u32 x) = x.
Proof.
  intros Hx. unfold i32. rewrite u32_idem.
  destruct (Z.ltb_spec x 0) as [Hn|Hn].
  - assert (u32 x = x + 2 ^ 32) as ->.
    { unfold u32. rewrite <- (Z_mod_plus_full x 1). apply Z.mod_small. lia. }
    destruct (Z.ltb_spec (x + 2 ^ 32) (2 ^ 31)); lia.
  - rewrite u32_small by lia. destruct (Z.ltb_spec x (2 ^ 31)); lia.
Qed.

Lemma i64_small x : 0 <= x <= I64_MAX -> i64 x = x.
Proof.
  unfold i64, u64, I64_MAX. intros. rewrite Z.mod_small by lia.
  destruct (Z.ltb_spec x (2 ^ 63)); lia.
Qed.

Create Rewrite HintDb u32.
#[export] Hint Rewrite u32_idem u32_add_l u32_add_r u32_sub_l u32_sub_r i32_congr : u32.

(** Equalities between 32-bit expressions: either ring arithmetic under
    the cast, or linear arithmetic over the quotients. *)
Ltac u32_lia :=
  unfold wadd32, wsub32, u32; change (2 ^ 32) with 4294967296;
  Z.to_euclidean_division_equations; lia.
Ltac u32_eq :=
  autorewrite with u32; try reflexivity;
  first [ match goal with |- u32 ?x = u32 ?y => replace x with y by lia; reflexivity end
        | u32_lia ].

(** ** Slices

    Rust indexes slices with [usize]; the helpers below take [Z]
    positions.  [ztake n l] is [&l[..n]], [zdrop n l] is [&l[n..]] and
    [zslice a b l] is [&l[a..b]] (in range in every use). *)

Definition zlen {A} (l : list A) : Z := Z.of_nat (length l).
Definition ztake {A} (n : Z) (l : list A) : list A := take (Z.to_nat n) l.
Definition zdrop {A} (n : Z) (l : list A) : list A := drop (Z.to_nat n) l.
Definition zslice {A} (a b : Z) (l : list A) : list A := ztake (b - a) (zdrop a l).

#[global] Arguments zlen : simpl never.
#[global] Arguments ztake : simpl never.
#[global] Arguments zdrop : simpl never.

Section slices.
Context {A : Type}.
Implicit Types l k : list A.

Lemma zlen_nonneg l : 0 <= zlen l.
Proof. unfold zlen. lia. Qed.
Lemma zlen_nil : zlen (@nil A) = 0.
Proof. reflexivity. Qed.
Lemma zlen_cons x l : zlen (x :: l) = 1 + zlen l.
Proof. unfold zlen. cbn [length]. lia. Qed.
Lemma zlen_app l k : zlen (l ++ k) = zlen l + zlen k.
Proof. unfold zlen. rewrite length_app. lia. Qed.
Lemma zlen_zero l : zlen l = 0 -> l = [].
Proof. destruct l; [done|]. rewrite zlen_cons. pose proof (zlen_nonneg l). lia. Qed.
Lemma zlen_pos l : l <> [] -> 0 < zlen l.
Proof. destruct l; [done|]. rewrite zlen_cons. pose proof (zlen_nonneg l). lia. Qed.
Lemma zlen_ztake n l : zlen (ztake n l) = Z.min (Z.max 0 n) (zlen l).
Proof. unfold zlen, ztake. rewrite length_take. lia. Qed.
Lemma zlen_zdrop n l : zlen (zdrop n l) = Z.max 0 (zlen l - Z.max 0 n).
Proof. unfold zlen, zdrop. rewrite length_drop. lia. Qed.
Lemma zlen_fmap {B} (f : A -> B) l : zlen (f <$> l) = zlen l.
Proof. unfold zlen. by rewrite length_fmap. Qed.
Lemma zlen_replicate n (x : A) : zlen (replicate (Z.to_nat n) x) = Z.max 0 n.
Proof. unfold zlen. rewrite length_replicate. lia. Qed.

Lemma ztake_nil n : ztake n (@nil A) = [].
Proof. apply take_nil. Qed.
Lemma zdrop_nil n : zdrop n (@nil A) = [].
Proof. apply drop_nil. Qed.
Lemma ztake_0 n l : n <= 0 -> ztake n l = [].
Proof. intros. unfold ztake. by replace (Z.to_nat n) with 0%nat by lia. Qed.
Lemma zdrop_0 n l : n <= 0 -> zdrop n l = l.
Proof. intros. unfold zdrop. by replace (Z.to_nat n) with 0%nat by lia. Qed.
Lemma ztake_ge n l : zlen l <= n -> ztake n l = l.
Proof. unfold zlen. intros. apply take_ge. lia. Qed.
Lemma zdrop_ge n l : zlen l <= n -> zdrop n l = [].
Proof. unfold zlen. intros. apply drop_ge. lia. Qed.
Lemma ztake_zdrop n l : ztake n l ++ zdrop n l = l.
Proof. apply take_drop. Qed.
Lemma zdrop_zdrop n m l : 0 <= n -> 0 <= m -> zdrop n (zdrop m l) = zdrop (m + n) l.
Proof. intros. unfold zdrop. rewrite drop_drop. f_equal. lia. Qed.
Lemma ztake_app_le n l k : n <= zlen l -> ztake n (l ++ k) = ztake n l.
Proof. unfold zlen. intros. apply take_app_le. lia. Qed.
Lemma ztake_app_ge n l k : zlen l <= n -> ztake n (l ++ k) = l ++ ztake (n - zlen l) k.
Proof.
  unfold zlen, ztake. intros. rewrite take_app_ge by lia. do 2 f_equal. lia.
Qed.
Lemma zdrop_app_le n l k : n <= zlen l -> zdrop n (l ++ k) = zdrop n l ++ k.
Proof. unfold zlen. intros. apply drop_app_le. lia. Qed.
Lemma zdrop_app_ge n l k : zlen l <= n -> zdrop n (l ++ k) = zdrop (n - zlen l) k.
Proof. unfold zlen, zdrop. intros. rewrite drop_app_ge by lia. f_equal. lia. Qed.
Lemma zdrop_cons n x l : 0 < n -> zdrop n (x :: l) = zdrop (n - 1) l.
Proof.
  intros. unfold zdrop. by replace (Z.to_nat n) with (S (Z.to_nat (n - 1))) by lia.
Qed.
Lemma ztake_cons n x l : 0 < n -> ztake n (x :: l) = x :: ztake (n - 1) l.
Proof.
  intros. unfold ztake. by replace (Z.to_nat n) with (S (Z.to_nat (n - 1))) by lia.
Qed.
Lemma lookup_zdrop n l i : 0 <= n -> zdrop n l !! i = l !! (Z.to_nat n + i)%nat.
Proof. intros. apply lookup_drop. Qed.
Lemma lookup_ztake_Some n l i x :
  ztake n l !! i = Some x -> l !! i = Some x /\ Z.of_nat i < n.
Proof. unfold ztake. intros [? ?]%lookup_take_Some. split; [done|lia]. Qed.
End slices.

Create Rewrite HintDb zlist.
#[export] Hint Rewrite @zlen_nil @zlen_cons @zlen_app @zlen_ztake @zlen_zdrop
  @zlen_fmap @zlen_replicate : zlist.
#[export] Hint Rewrite @ztake_nil @zdrop_nil : zlist.

(** Normalises every [zlen] in sight, adds the non-negativity facts of
    the ones that remain, and calls [lia]. *)
Ltac zlen_facts :=
  repeat match goal with
  | |- context [zlen ?l] =>
      lazymatch goal with H : 0 <= zlen l |- _ => fail | _ => pose proof (zlen_nonneg l) end
  | _ : context [zlen ?l] |- _ =>
      lazymatch goal with H : 0 <= zlen l |- _ => fail | _ => pose proof (zlen_nonneg l) end
  end.
Ltac zlia := autorewrite with zlist in *; zlen_facts; lia.

(** ** Case analysis on the tests the code makes *)

(** Turns the integer comparisons in hypotheses and goal into
    propositions. *)
Ltac zb :=
  repeat match goal with
  | H : (_ <? _) = true |- _ => apply Z.ltb_lt in H
  | H : (_ <? _) = false |- _ => apply Z.ltb_ge in H
  | H : (_ <=? _) = true |- _ => apply Z.leb_le in H
  | H : (_ <=? _) = false |- _ => apply Z.leb_gt in H
  | H : (_ =? _) = true |- _ => apply Z.eqb_eq in H
  | H : (_ =? _) = false |- _ => apply Z.eqb_neq in H
  | H : (_ && _)%bool = true |- _ => apply andb_true_iff in H as [? ?]
  | H : (_ || _)%bool = false |- _ => apply orb_false_iff in H as [? ?]
  | H : negb _ = true |- _ => apply negb_true_iff in H
  | H : negb _ = false |- _ => apply negb_false_iff in H
  end.

(** Splits the first [if] or [match] of the goal and normalises the
    tests. *)
Ltac split_if := case_match; zb; try done.

(** Splits a boolean conditional of the goal ([case_match] would also take
    tuple patterns apart). *)
Ltac case_if :=
  match goal with
  | |- context [if ?b then _ else _] =>
      lazymatch type of b with bool => destruct b eqn:? end
  end; zb.

(** ** Fallible code

    [Result<A, E>]; [let? p := e in k] is Rust's [let p = e?; k]. *)

Inductive result (E A : Type) := Ok (a : A) | Err (e : E).
#[global] Arguments Ok {E A} a.
#[global] Arguments Err {E A} e.

Definition rbind {E A B} (r : result E A) (k : A -> result E B) : result E B :=
  match r with Ok a => k a | Err e => Err e end.
Notation "'let?' p := e 'in' k" := (rbind e (fun p => k))
  (at level 200, p pattern, e at level 200, k at level 200) : Z_scope.

Lemma rbind_Ok {E A B} (r : result E A) (k : A -> result E B) b :
  rbind r k = Ok b -> exists a, r = Ok a /\ k a = Ok b.
Proof. destruct r; [eauto|done]. Qed.

(** A loop over a slice whose body may return early with [Err]. *)
Fixpoint rfold {E A S} (f : S -> A -> result E S) (s : S) (l : list A) : result E S :=
  match l with [] => Ok s | a :: l => let? s := f s a in rfold f s l end.

Lemma rfold_app {E A S} (f : S -> A -> result E S) l k : forall s,
  rfold f s (l ++ k) = let? s := rfold f s l in rfold f s k.
Proof. induction l as [|a l IH]; intros s; cbn; [done|]. destruct (f s a); cbn; [apply IH|done]. Qed.

(** ** Bytes *)

Definition is_byte (b : Z) : Prop := 0 <= b < 256.
(** A byte string literal, [b"..."]. *)
Definition bstr (s : String.string) : list Z :=
  (fun b => Z.of_N (Byte.to_N b)) <$> String.list_byte_of_string s.
#[global] Arguments bstr s%_string.

(** [Option::is_some_and]. *)
Definition is_some_and {A} (f : A -> bool) (o : option A) : bool :=
  match o with Some a => f a | None => false end.
(** [Option::is_none_or]. *)
Definition is_none_or {A} (f : A -> bool) (o : option A) : bool :=
  match o with Some a => f a | None => true end.
Definition is_some {A} (o : option A) : bool :=
  match o with Some _ => true | None => false end.
Definition is_none {A} (o : option A) : bool := negb (is_some o).
(** [o.get_or_insert(v)], the resulting option. *)
Definition get_or_insert {A} (v : A) (o : option A) : option A :=
  match o with Some a => Some a | None => Some v end.
Definition is_nil {A} (l : list A) : bool :=
  match l with [] => true | _ => false end.

Lemma is_nil_spec {A} (l : list A) : is_nil l = true <-> l = [].
Proof. by destruct l. Qed.

Lemma is_nil_false {A} (l : list A) : is_nil l = false <-> l <> [].
Proof. by destruct l. Qed.
