(* ===== verification/Time.v ===== *)
(** * Timestamps and durations (src/src/timestamp.rs)

    A [Duration] of the Rust standard library is a non-negative count of
    nanoseconds and is modelled by that count; [SystemTime] is a (possibly
    negative) count of nanoseconds since the epoch.  Conversions through
    [f64] and the optional [chrono] interop are not modelled. *)

From S2P Require Import Prelude.

Definition NANOS : Z := 1000000000.
Definition from_secs (s : Z) : Z := s * NANOS.
Definition from_millis (ms : Z) : Z := ms * 1000000.

Module Timestamp.

Record t := mk { sec : Z; nsec : Z }.

#[global] Instance eq_dec : EqDecision t.
Proof. solve_decision. Defined.

(** Field ranges of a [Timestamp] value: two [u32]. *)
Definition wf (ts : t) : Prop :=
  0 <= sec ts <= U32_MAX /\ 0 <= nsec ts <= U32_MAX.

Definition default : t := mk 0 0.
Definition MAX : t := mk U32_MAX 999999999.

Definition to_duration (ts : t) : Z := sec ts * NANOS + nsec ts.
Definition to_system_time (ts : t) : Z := 0 + to_duration ts.
Definition saturating_sub (a b : t) : Z := Z.max 0 (to_duration a - to_duration b).

(** Derived [Ord]: lexicographic on the fields. *)
Definition leb (a b : t) : bool :=
  (sec a <? sec b) || ((sec a =? sec b) && (nsec a <=? nsec b)).
(** [Ord::max] returns its second argument on equality. *)
Definition max (a b : t) : t := if leb a b then b else a.

Definition from_system_time (st : Z) : t :=
  let dur := if st <? 0 then 0 else st in
  let secs := dur / NANOS in
  mk (if secs <=? U32_MAX then secs else U32_MAX) (dur mod NANOS).

(** [i32] division truncates, [u32] division rounds down. *)
Definition civil_from_days (days : Z) : Z * Z * Z :=
  let z := days + 719468 in
  let era := Z.quot (if 0 <=? z then z else z - 146096) 146097 in
  let doe := u32 (z - era * 146097) in
  let yoe := (doe - doe / 1460 + doe / 36524 - doe / 146096) / 365 in
  let y := yoe + era * 400 in
  let doy := doe - (365 * yoe + yoe / 4 - yoe / 100) in
  let mp := (5 * doy + 2) / 153 in
  let d := doy - (153 * mp + 2) / 5 + 1 in
  let m := if mp <? 10 then mp + 3 else mp - 9 in
  let y := y + (if m <=? 2 then 1 else 0) in
  (y, m, d).

(** Decimal formatting with zero padding to [w] characters ([{x:0w}]);
    twenty digits hold every [u64]. *)
Fixpoint digits (fuel : nat) (x : Z) : list Z :=
  match fuel with
  | O => []
  | S k => if x <? 10 then [48 + x] else digits k (x / 10) ++ [48 + x mod 10]
  end.
Definition fmt0 (w : Z) (x : Z) : list Z :=
  let ds := digits 20 x in
  replicate (Z.to_nat (w - zlen ds)) 48 ++ ds.

(** ASCII: '-' 45, 'T' 84, ':' 58, '.' 46, 'Z' 90. *)
Definition write_iso8601 (ts : t) : list Z :=
  let days := i32 (sec ts / 86400) in
  let secs_of_day := sec ts mod 86400 in
  let '(y, m, d) := civil_from_days days in
  let h := secs_of_day / 3600 in
  let mi := secs_of_day mod 3600 / 60 in
  let s := secs_of_day mod 60 in
  fmt0 4 y ++ [45] ++ fmt0 2 m ++ [45] ++ fmt0 2 d ++ [84] ++
  fmt0 2 h ++ [58] ++ fmt0 2 mi ++ [58] ++ fmt0 2 s ++ [46] ++
  fmt0 9 (nsec ts) ++ [90].

(** ** The calendar the conversion is checked against *)

Definition leap (y : Z) : bool :=
  (y mod 4 =? 0) && (negb (y mod 100 =? 0) || (y mod 400 =? 0)).
Definition month_len (y m : Z) : Z :=
  if m =? 2 then (if leap y then 29 else 28)
  else if (m =? 4) || (m =? 6) || (m =? 9) || (m =? 11) then 30 else 31.
Definition next_day (c : Z * Z * Z) : Z * Z * Z :=
  let '(y, m, d) := c in
  if d <? month_len y m then (y, m, d + 1)
  else if m <? 12 then (y, m + 1, 1) else (y + 1, 1, 1).

(** The date [n] days after 1 January 1970, one day at a time. *)
Fixpoint date_after (n : nat) : Z * Z * Z :=
  match n with O => (1970, 1, 1) | S k => next_day (date_after k) end.

End Timestamp.

(** ** Facts *)

Module TimestampFacts.
Import Timestamp.

Lemma saturating_sub_nonneg a b : 0 <= saturating_sub a b.
Proof. unfold saturating_sub. lia. Qed.

Lemma saturating_sub_self a : saturating_sub a a = 0.
Proof. unfold saturating_sub. lia. Qed.

Lemma max_cases a b : max a b = a \/ max a b = b.
Proof. unfold max. case_match; auto. Qed.

Lemma max_same a : max a a = a.
Proof. destruct (max_cases a a); done. Qed.

Lemma saturating_sub_default_max a : saturating_sub a (max default a) = 0 \/
  max default a = default.
Proof. unfold max. case_match; [left; apply saturating_sub_self | auto]. Qed.

(** Checks the date of every day in [0, n], walking the calendar once. *)
Fixpoint check_days (n : nat) (days : Z) (c : Z * Z * Z) : bool :=
  match n with
  | O => true
  | S k => bool_decide (civil_from_days days = c) && check_days k (days + 1) (next_day c)
  end.

Lemma check_days_sound n : forall k days,
  check_days n days (date_after k) = true -> days = Z.of_nat k ->
  forall j, (j < n)%nat ->
    civil_from_days (Z.of_nat (k + j)) = date_after (k + j).
Proof.
  induction n as [|n IH]; intros k days Hc Hd j Hj; [lia|].
  cbn [check_days] in Hc. apply andb_true_iff in Hc as [H1 H2].
  apply bool_decide_eq_true in H1. destruct j as [|j].
  - rewrite Nat.add_0_r, <- Hd. done.
  - replace (k + S j)%nat with (S k + j)%nat by lia.
    apply (IH (S k) (days + 1)); [done|lia|lia].
Qed.

Lemma fmt0_small w x : 0 <= x < 10 -> fmt0 w x = replicate (Z.to_nat (w - 1)) 48 ++ [48 + x].
Proof.
  intros H. unfold fmt0. cbn [digits]. destruct (Z.ltb_spec x 10); [|lia]. done.
Qed.

(** [w] digits are enough below [10 ^ w]. *)
Lemma digits_len fuel : forall w x,
  (0 < w <= fuel)%nat -> 0 <= x < 10 ^ Z.of_nat w -> 1 <= zlen (digits fuel x) <= Z.of_nat w.
Proof.
  induction fuel as [|fuel IH]; intros w x Hw Hx; [lia|]. cbn [digits].
  destruct (Z.ltb_spec x 10); [zlia|].
  destruct w as [|[|w]]; [lia| change (Z.of_nat 1) with 1 in Hx; lia |].
  assert (0 <= x / 10 < 10 ^ Z.of_nat (S w)).
  { split; [apply Z.div_pos; lia|]. apply Z.div_lt_upper_bound; [lia|].
    replace (Z.of_nat (S (S w))) with (1 + Z.of_nat (S w)) in Hx by lia.
    rewrite Z.pow_add_r in Hx by lia. lia. }
  specialize (IH (S w) (x / 10) ltac:(lia) ltac:(lia)). zlia.
Qed.

Lemma fmt0_len w x :
  0 < w <= 20 -> 0 <= x < 10 ^ w -> zlen (fmt0 w x) = w.
Proof.
  intros Hw Hx. pose proof (digits_len 20 (Z.to_nat w) x ltac:(lia)) as H.
  rewrite Z2Nat.id in H by lia. specialize (H Hx). unfold fmt0. zlia.
Qed.
End TimestampFacts.

(** ** Properties *)

Module TimestampProps.
Import Timestamp TimestampFacts.

(** The day count of any [u32] timestamp is converted to the date
    reached by stepping the Gregorian calendar one day at a time. *)
Theorem civil_from_days_correct n :
  Z.of_nat n <= U32_MAX / 86400 -> civil_from_days (Z.of_nat n) = date_after n.
Proof.
  intros Hn. apply (check_days_sound (Z.to_nat 49711) 0 0); [|done|].
  - vm_compute. reflexivity.
  - change (U32_MAX / 86400) with 49710 in Hn. lia.
Qed.

Lemma civil_from_days_correct_witness :
  civil_from_days (Z.of_nat 789) = date_after 789.
Proof. apply civil_from_days_correct. vm_compute. discriminate. Defined.

End TimestampProps.
