(* ===== verification/Flow.v ===== *)
(** * The flow vocabulary (src/src/event.rs, src/src/extractor.rs)

    The enumerations and small records every other component speaks:
    sides, orientations, lifecycle states, TCP flags and the policies of
    the reassemblers. *)

From S2P Require Import Prelude.

Inductive FlowSide := Initiator | Responder.
Inductive Orientation := Forward | Reverse.
Inductive L4Proto := Tcp | Udp | Icmp | IcmpV6 | Sctp | Other (n : Z).
Inductive FlowState :=
  | SynSent | SynReceived | Established | FinWait | ClosingTcp
  | Active | Closed | Reset_ | Aborted.
Inductive EndReason :=
  | Fin | Rst | IdleTimeout | Evicted | BufferOverflow | ParseError | ParserDone | ForceClosed
  | StreamGap.
Inductive OverflowPolicy := SlidingWindow | DropFlow.
Inductive ReassemblyStop := Overflow | Memcap.
Inductive TcpOverlapPolicy := First | Last | LowerSeq | HigherSeq.

#[export] Instance FlowSide_eq_dec : EqDecision FlowSide.
Proof. solve_decision. Defined.
#[export] Instance Orientation_eq_dec : EqDecision Orientation.
Proof. solve_decision. Defined.
#[export] Instance L4Proto_eq_dec : EqDecision L4Proto.
Proof. solve_decision. Defined.
#[export] Instance FlowState_eq_dec : EqDecision FlowState.
Proof. solve_decision. Defined.
#[export] Instance EndReason_eq_dec : EqDecision EndReason.
Proof. solve_decision. Defined.
#[export] Instance OverflowPolicy_eq_dec : EqDecision OverflowPolicy.
Proof. solve_decision. Defined.
#[export] Instance ReassemblyStop_eq_dec : EqDecision ReassemblyStop.
Proof. solve_decision. Defined.
#[export] Instance TcpOverlapPolicy_eq_dec : EqDecision TcpOverlapPolicy.
Proof. solve_decision. Defined.

(** [FlowSide::opposite], [Orientation::flipped]. *)
Definition opposite (s : FlowSide) : FlowSide :=
  match s with Initiator => Responder | Responder => Initiator end.
Definition flipped (o : Orientation) : Orientation :=
  match o with Forward => Reverse | Reverse => Forward end.

Definition is_terminal (s : FlowState) : bool :=
  match s with Closed | Reset_ | Aborted => true | _ => false end.

(** [bitflags! TcpFlags: u8]. *)
Module TcpFlags.
Definition FIN : Z := 1.
Definition SYN : Z := 2.
Definition RST : Z := 4.
Definition PSH : Z := 8.
Definition ACK : Z := 16.
Definition URG : Z := 32.
Definition ECE : Z := 64.
Definition CWR : Z := 128.
Definition contains (f g : Z) : bool := Z.land f g =? g.
End TcpFlags.

(** A parsed TCP header, as the extractors report it. *)
Module TcpInfo.
Record t := mk {
  flags : Z; seq : Z; ack : Z;
  payload_offset : Z; payload_len : Z; window : Z; wire_payload_len : Z }.
#[global] Instance eta : Eta t := mk_eta (fun i =>
  mk (flags i) (seq i) (ack i) (payload_offset i) (payload_len i) (window i)
     (wire_payload_len i)).
Definition is_truncated (i : t) : bool := payload_len i <? wire_payload_len i.
Definition wire_len (i : t) : Z := Z.max (wire_payload_len i) (payload_len i).
End TcpInfo.
