(* ===== verification/Config.v ===== *)
(** * Tracker configuration (src/src/tracker.rs, [FlowTrackerConfig])

    The settings every component reads, with the defaults of the code. *)

From S2P Require Import Prelude Time Flow.

Module MemcapPolicy.
Inductive t := Ignore | DropFlow | DropPacket | PassThrough.
End MemcapPolicy.

(** [bitflags! EventMask: u8]. *)
Module EventMask.
Definition STARTED : Z := Z.shiftl 1 0.
Definition PACKET : Z := Z.shiftl 1 1.
Definition ESTABLISHED : Z := Z.shiftl 1 2.
Definition STATE_CHANGE : Z := Z.shiftl 1 3.
Definition ENDED : Z := Z.shiftl 1 4.
Definition FLOW_ANOMALY : Z := Z.shiftl 1 5.
Definition TRACKER_ANOMALY : Z := Z.shiftl 1 6.
Definition TICK : Z := Z.shiftl 1 7.
Definition empty : Z := 0.
Definition contains (m v : Z) : bool := Z.land m v =? v.
End EventMask.

Module FlowTrackerConfig.
Record t := mk {
  idle_timeout_tcp : Z;
  idle_timeout_udp : Z;
  idle_timeout_other : Z;
  max_flows : Z;
  initial_capacity : Z;
  sweep_interval : Z;
  max_reassembler_buffer : option Z;
  overflow_policy : OverflowPolicy;
  reassembler_high_watermark_pct : option Z;
  flow_tick_interval : option Z;
  auto_sweep_interval : option Z;
  tcp_overlap_policy : TcpOverlapPolicy;
  reassembly_ooo_buffer : Z;
  reassembly_ooo_deadline : Z;
  reassembly_max_ahead : Z;
  reassembly_ack_grace : Z;
  reassembly_memcap : option Z;
  reassembly_memcap_policy : MemcapPolicy.t;
  active_idle_threshold : option Z;
  suppress_events : Z;
  infer_tcp_initiator : bool;
  emit_packet_source_idx : bool }.
#[global] Instance eta : Eta t := mk_eta (fun c => mk
  (idle_timeout_tcp c) (idle_timeout_udp c) (idle_timeout_other c) (max_flows c)
  (initial_capacity c) (sweep_interval c) (max_reassembler_buffer c) (overflow_policy c)
  (reassembler_high_watermark_pct c) (flow_tick_interval c) (auto_sweep_interval c)
  (tcp_overlap_policy c) (reassembly_ooo_buffer c) (reassembly_ooo_deadline c)
  (reassembly_max_ahead c) (reassembly_ack_grace c) (reassembly_memcap c)
  (reassembly_memcap_policy c) (active_idle_threshold c) (suppress_events c)
  (infer_tcp_initiator c) (emit_packet_source_idx c)).


Definition default : t := {|
  idle_timeout_tcp := from_secs 300;
  idle_timeout_udp := from_secs 60;
  idle_timeout_other := from_secs 30;
  max_flows := 100000;
  initial_capacity := 1024;
  sweep_interval := from_secs 1;
  max_reassembler_buffer := Some (1024 * 1024);
  overflow_policy := SlidingWindow;
  reassembler_high_watermark_pct := None;
  flow_tick_interval := None;
  auto_sweep_interval := None;
  tcp_overlap_policy := First;
  reassembly_ooo_buffer := 256 * 1024;
  reassembly_ooo_deadline := from_secs 1;
  reassembly_max_ahead := 1024 * 1024;
  reassembly_ack_grace := from_millis 10;
  reassembly_memcap := None;
  reassembly_memcap_policy := MemcapPolicy.Ignore;
  active_idle_threshold := Some (from_secs 1);
  suppress_events := EventMask.empty;
  infer_tcp_initiator := false;
  emit_packet_source_idx := false |}.
End FlowTrackerConfig.
