(* ===== verification/TcpState.v ===== *)
(** * TCP lifecycle (src/src/tcp_state.rs, src/src/history.rs)

    [transition] is the flag-driven state machine; [step] is its use by
    the tracker, which also remembers which sides have sent a FIN
    (src/src/tracker.rs, "TCP state machine").  [push_for_flags] is the
    bounded Zeek-style history string. *)

From S2P Require Import Prelude Flow.

(** ** The state machine *)

Record Transition := { state : FlowState; became_established : bool }.

Definition next_state (st : FlowState) (flags : Z) (side : FlowSide)
    (other_side_fin : bool) : FlowState :=
  match st, side with
  | Active, Initiator =>
      if TcpFlags.contains flags TcpFlags.SYN then SynSent else st
  | SynSent, Responder =>
      if TcpFlags.contains flags (Z.lor TcpFlags.SYN TcpFlags.ACK) then SynReceived else st
  | SynReceived, Initiator =>
      if TcpFlags.contains flags TcpFlags.ACK then Established else st
  | Established, _ =>
      if TcpFlags.contains flags TcpFlags.FIN then FinWait else st
  | FinWait, _ =>
      if TcpFlags.contains flags TcpFlags.FIN && other_side_fin then ClosingTcp else st
  | ClosingTcp, _ =>
      if TcpFlags.contains flags TcpFlags.ACK then Closed else st
  | _, _ => st
  end.

Definition transition (st : FlowState) (flags : Z) (side : FlowSide)
    (other_side_fin : bool) : Transition :=
  if TcpFlags.contains flags TcpFlags.RST
  then {| state := Reset_; became_established := false |}
  else
    let new_state := next_state st flags side other_side_fin in
    {| state := new_state;
       became_established := negb (bool_decide (st = Established))
                             && bool_decide (new_state = Established) |}.

(** The part of a tracked flow the machine runs on. *)
Module Conn.
Record t := mk { st : FlowState; fin_initiator : bool; fin_responder : bool }.
Definition new : t := mk Active false false.

Definition step (c : t) (flags : Z) (side : FlowSide) : t * Transition :=
  let other_side_fin :=
    match side with Initiator => fin_responder c | Responder => fin_initiator c end in
  let fin := TcpFlags.contains flags TcpFlags.FIN in
  let fi := match side with Initiator => fin || fin_initiator c | Responder => fin_initiator c end in
  let fr := match side with Responder => fin || fin_responder c | Initiator => fin_responder c end in
  let trans := transition (st c) flags side other_side_fin in
  (mk (state trans) fi fr, trans).

(** The flow a packet sequence leads to, and the [became_established]
    verdicts along the way. *)
Fixpoint run (c : t) (pkts : list (Z * FlowSide)) : t * list bool :=
  match pkts with
  | [] => (c, [])
  | (flags, side) :: rest =>
      let '(c', tr) := step c flags side in
      let '(c'', bs) := run c' rest in
      (c'', became_established tr :: bs)
  end.

(** One packet, as a relation; [reachable] is what a new flow can
    become. *)
Inductive steps : t -> t -> Prop :=
  | steps_refl c : steps c c
  | steps_next c flags side c' : steps (step c flags side).1 c' -> steps c c'.
Definition reachable (c : t) : Prop := steps new c.
End Conn.

(** ** History string *)

Definition HISTORY_CAP : Z := 16.

(** ASCII: S 83, s 115, F 70, f 102, R 82, r 114, D 68, d 100. *)
Definition chars_for_flags (flags : Z) (side : FlowSide) (has_payload : bool) : list Z :=
  let upper := bool_decide (side = Initiator) in
  (if TcpFlags.contains flags TcpFlags.SYN then [if upper then 83 else 115] else []) ++
  (if TcpFlags.contains flags TcpFlags.FIN then [if upper then 70 else 102] else []) ++
  (if TcpFlags.contains flags TcpFlags.RST then [if upper then 82 else 114] else []) ++
  (if has_payload then [if upper then 68 else 100] else []).

(** [ArrayString::<16>::try_push]: fails when the buffer is full (every
    character pushed is one byte long). *)
Definition try_push (h : list Z) (c : Z) : option (list Z) :=
  if zlen h <? HISTORY_CAP then Some (h ++ [c]) else None.

Fixpoint push_all (h : list Z) (cs : list Z) : list Z :=
  match cs with
  | [] => h
  | c :: rest => match try_push h c with Some h' => push_all h' rest | None => h end
  end.

Definition push_for_flags (h : list Z) (flags : Z) (side : FlowSide) (has_payload : bool)
    : list Z :=
  push_all h (chars_for_flags flags side has_payload).

Definition history_of (pkts : list (Z * FlowSide * bool)) : list Z :=
  fold_left (fun h '(f, s, p) => push_for_flags h f s p) pkts [].

(** ** Lemmas *)

(** Progress of the handshake and of the close. *)
Definition rank (s : FlowState) : Z :=
  match s with
  | Active => 0 | SynSent => 1 | SynReceived => 2 | Established => 3
  | FinWait => 4 | ClosingTcp => 5 | Closed => 6 | Aborted => 6 | Reset_ => 7
  end.

Lemma next_state_rank s f sd o : rank s <= rank (next_state s f sd o).
Proof. destruct s, sd; cbn; repeat case_match; cbn; lia. Qed.

Lemma transition_rank s f sd o : rank s <= rank (state (transition s f sd o)).
Proof.
  unfold transition. case_match; [destruct s; cbn; lia | apply next_state_rank].
Qed.

(** [became_established] marks exactly the move from [SynReceived]. *)
Lemma became_established_rank s f sd o :
  became_established (transition s f sd o) = true ->
  rank s < rank Established /\ state (transition s f sd o) = Established.
Proof.
  unfold transition. case_match; [done|]. cbn.
  intros [Hs%negb_true_iff Hn]%andb_true_iff.
  apply bool_decide_eq_false in Hs. apply bool_decide_eq_true in Hn.
  split; [|done]. pose proof (next_state_rank s f sd o). rewrite Hn in H0.
  destruct s; cbn in *; try lia; congruence.
Qed.

Lemma step_rank c f sd : rank (Conn.st c) <= rank (Conn.st (Conn.step c f sd).1).
Proof. apply transition_rank. Qed.

Lemma step_became c f sd :
  became_established (Conn.step c f sd).2 = true ->
  rank (Conn.st c) < rank Established /\ Conn.st (Conn.step c f sd).1 = Established.
Proof. apply became_established_rank. Qed.

Lemma conn_run_cons c f sd pkts :
  (Conn.run c ((f, sd) :: pkts)).2 =
  became_established (Conn.step c f sd).2 :: (Conn.run (Conn.step c f sd).1 pkts).2.
Proof. cbn [Conn.run]. destruct (Conn.step c f sd) as [c' tr]. cbn. by destruct (Conn.run c' pkts). Qed.

Lemma run_after_established pkts : forall c,
  rank Established <= rank (Conn.st c) -> Forall (eq false) (Conn.run c pkts).2.
Proof.
  induction pkts as [|[f sd] pkts IH]; intros c Hc; [constructor|].
  rewrite conn_run_cons. pose proof (step_rank c f sd). constructor; [|apply IH; lia].
  destruct (became_established _) eqn:Hb; [|done]. apply step_became in Hb as [Hb _]. lia.
Qed.

Lemma filter_true_false bs : Forall (eq false) bs -> filter (eq true) bs = [].
Proof. induction 1 as [|b bs <- Hf IH]; [done|]. by rewrite filter_cons_False. Qed.

(** The close is only ever reached after a FIN of each side. *)
Definition close_needs_both_fins (c : Conn.t) : Prop :=
  (Conn.st c = FinWait -> Conn.fin_initiator c || Conn.fin_responder c = true) /\
  (Conn.st c = ClosingTcp \/ Conn.st c = Closed ->
   Conn.fin_initiator c = true /\ Conn.fin_responder c = true).

Lemma close_step c f sd :
  close_needs_both_fins c -> close_needs_both_fins (Conn.step c f sd).1.
Proof.
  unfold close_needs_both_fins, Conn.step, transition. cbn.
  destruct (TcpFlags.contains f TcpFlags.RST); [cbn; split; naive_solver|].
  destruct (TcpFlags.contains f TcpFlags.FIN) eqn:HF, c as [[] [] []], sd;
    cbn; rewrite ?HF; cbn; repeat case_match; naive_solver.
Qed.

Lemma close_steps c c' : Conn.steps c c' -> close_needs_both_fins c -> close_needs_both_fins c'.
Proof. induction 1; eauto using close_step. Qed.

Lemma push_all_take cs : forall h,
  zlen h <= HISTORY_CAP -> push_all h cs = ztake HISTORY_CAP (h ++ cs).
Proof.
  induction cs as [|c cs IH]; intros h Hh; cbn [push_all].
  - rewrite app_nil_r, ztake_ge; done.
  - unfold try_push. destruct (Z.ltb_spec (zlen h) HISTORY_CAP).
    + rewrite IH by zlia. by rewrite <- app_assoc.
    + rewrite ztake_app_ge by lia. rewrite ztake_0 by lia. by rewrite app_nil_r.
Qed.

Lemma push_for_flags_take h f s p :
  zlen h <= HISTORY_CAP ->
  push_for_flags h f s p = ztake HISTORY_CAP (h ++ chars_for_flags f s p).
Proof. apply push_all_take. Qed.

Lemma history_fold_take pkts : forall h,
  zlen h <= HISTORY_CAP ->
  fold_left (fun h '(f, s, p) => push_for_flags h f s p) pkts h =
  ztake HISTORY_CAP (h ++ concat ((fun '(f, s, p) => chars_for_flags f s p) <$> pkts)).
Proof.
  induction pkts as [|[[f s] p] pkts IH]; intros h Hh; cbn.
  - rewrite app_nil_r, ztake_ge; done.
  - rewrite push_for_flags_take by done.
    rewrite IH by (unfold HISTORY_CAP in *; zlia).
    destruct (Z.le_gt_cases (zlen (h ++ chars_for_flags f s p)) HISTORY_CAP).
    + rewrite (ztake_ge _ (h ++ chars_for_flags f s p)) by done. by rewrite <- app_assoc.
    + rewrite ztake_app_ge by (unfold HISTORY_CAP in *; zlia).
      rewrite (ztake_0 (HISTORY_CAP - _)) by (unfold HISTORY_CAP in *; zlia).
      rewrite app_nil_r, app_assoc. by rewrite (ztake_app_le _ (h ++ chars_for_flags f s p)) by lia.
Qed.

(** ** Properties *)

(** A tracked flow reaches [ClosingTcp] or [Closed] only after both
    sides have sent a FIN, so a retransmitted FIN of the side that closed
    first never closes a flow. *)
Theorem closed_needs_both_fins c :
  Conn.reachable c -> Conn.st c = ClosingTcp \/ Conn.st c = Closed ->
  Conn.fin_initiator c = true /\ Conn.fin_responder c = true.
Proof.
  intros Hr Hs. apply (close_steps _ _ Hr); [|done].
  split; cbn; [done|naive_solver].
Qed.

Lemma closed_needs_both_fins_witness :
  let c := (Conn.run Conn.new [(2, Initiator); (18, Responder); (16, Initiator);
              (17, Initiator); (17, Responder); (16, Initiator)]).1 in
  Conn.st c = Closed /\ Conn.fin_initiator c = true /\ Conn.fin_responder c = true.
Proof.
  split; [reflexivity|]. apply closed_needs_both_fins; [|right; reflexivity].
  unfold Conn.reachable.
  apply (Conn.steps_next _ 2 Initiator), (Conn.steps_next _ 18 Responder),
    (Conn.steps_next _ 16 Initiator), (Conn.steps_next _ 17 Initiator),
    (Conn.steps_next _ 17 Responder), (Conn.steps_next _ 16 Initiator), Conn.steps_refl.
Defined.

(** Over any packet sequence a flow becomes established at most
    once, and its lifecycle rank never decreases. *)
Theorem established_once pkts :
  (length (filter (eq true) (Conn.run Conn.new pkts).2) <= 1)%nat /\
  forall c f sd, rank (Conn.st c) <= rank (Conn.st (Conn.step c f sd).1).
Proof.
  split; [|intros; apply step_rank].
  generalize Conn.new. induction pkts as [|[f sd] pkts IH]; intros c; [cbn; lia|].
  rewrite conn_run_cons, filter_cons. case_decide as Hb; [|apply IH].
  apply symmetry, step_became in Hb as [_ He].
  rewrite filter_true_false; [cbn; lia|].
  apply run_after_established. rewrite He. reflexivity.
Qed.

(** The stored history is the concatenation of every packet's
    characters cut to the 16-character capacity. *)
Theorem history_is_truncated_log pkts :
  history_of pkts =
  ztake HISTORY_CAP (concat ((fun '(f, s, p) => chars_for_flags f s p) <$> pkts)).
Proof. unfold history_of. rewrite history_fold_take; [done|vm_compute; discriminate]. Qed.
