(* ===== verification/Cells.v ===== *)
(** * Abstract byte streams

    The specification side of TCP reassembly.  One direction of a stream,
    as a passive observer knows it, is a list of cells: the byte at that
    stream offset, or [None] when it is missing.  [cells_at P base cs]
    says every known byte of [cs], the first cell of which is stream
    offset [base], satisfies [P offset byte]. *)

From S2P Require Import Prelude.

Definition data_cells (bs : list Z) : list (option Z) := Some <$> bs.
Definition gap_cells (n : Z) : list (option Z) := replicate (Z.to_nat n) None.

(** How many cells are missing. *)
Definition n_missing (cs : list (option Z)) : Z := zlen (filter (eq None) cs).

Definition cells_at (P : Z -> Z -> Prop) (base : Z) (cs : list (option Z)) : Prop :=
  forall i b, cs !! i = Some (Some b) -> P (base + Z.of_nat i) b.
Definition bytes_at (P : Z -> Z -> Prop) (off : Z) (bs : list Z) : Prop :=
  forall i b, bs !! i = Some b -> P (off + Z.of_nat i) b.

(** [blurs c c']: [c'] is [c] with some bytes forgotten. *)
Definition blurs (c c' : list (option Z)) : Prop :=
  Forall2 (fun x y => y = x \/ y = None) c c'.

#[export] Instance blurs_refl : Reflexive blurs.
Proof. intros c. induction c; constructor; auto. Qed.

#[export] Instance blurs_trans : Transitive blurs.
Proof.
  intros c1 c2 c3 H12. revert c3. induction H12 as [|x y c1 c2 Hxy H12 IH]; intros c3 H23.
  - by inversion H23.
  - inversion H23 as [|? z ? c3' Hyz H23']; subst. constructor; [naive_solver|by apply IH].
Qed.

#[export] Instance blurs_app : Proper (blurs ==> blurs ==> blurs) app.
Proof. intros a a' Ha b b' Hb. by apply Forall2_app. Qed.

Lemma blurs_gap cs : blurs cs (gap_cells (zlen cs)).
Proof.
  unfold gap_cells, zlen. rewrite Nat2Z.id. induction cs; constructor; auto.
Qed.

Lemma blurs_zlen c c' : blurs c c' -> zlen c' = zlen c.
Proof. intros H%Forall2_length. unfold zlen. lia. Qed.

Lemma zlen_data bs : zlen (data_cells bs) = zlen bs.
Proof. apply zlen_fmap. Qed.
Lemma zlen_gap n : zlen (gap_cells n) = Z.max 0 n.
Proof. apply zlen_replicate. Qed.
#[export] Hint Rewrite zlen_data zlen_gap : zlist.

Lemma data_cells_app a b : data_cells (a ++ b) = data_cells a ++ data_cells b.
Proof. apply fmap_app. Qed.
Lemma gap_cells_nil n : n <= 0 -> gap_cells n = [].
Proof. intros. unfold gap_cells. by replace (Z.to_nat n) with 0%nat by lia. Qed.
Lemma gap_cells_add a b : 0 <= a -> 0 <= b -> gap_cells (a + b) = gap_cells a ++ gap_cells b.
Proof. intros. unfold gap_cells. by rewrite Z2Nat.inj_add, replicate_add. Qed.

Lemma missing_app a b : n_missing (a ++ b) = n_missing a + n_missing b.
Proof. unfold n_missing. rewrite filter_app. apply zlen_app. Qed.
Lemma missing_data bs : n_missing (data_cells bs) = 0.
Proof.
  unfold n_missing, data_cells. induction bs as [|b bs IH]; [done|].
  by rewrite fmap_cons, filter_cons_False.
Qed.
Lemma missing_gap n : n_missing (gap_cells n) = Z.max 0 n.
Proof.
  unfold n_missing, gap_cells.
  assert (forall k, filter (eq None) (replicate k (@None Z)) = replicate k None) as ->.
  { induction k as [|k IH]; [done|]. cbn [replicate]. by rewrite filter_cons_True, IH. }
  apply zlen_replicate.
Qed.
#[export] Hint Rewrite missing_app missing_data missing_gap : zlist.

Section at_lemmas.
Context (P : Z -> Z -> Prop).

Lemma cells_at_nil base : cells_at P base [].
Proof. intros i b. by rewrite lookup_nil. Qed.

Lemma cells_at_app base a b :
  cells_at P base (a ++ b) <-> cells_at P base a /\ cells_at P (base + zlen a) b.
Proof.
  split.
  - intros H. split; intros i x Hi.
    + apply H. by apply lookup_app_l_Some.
    + replace (base + zlen a + Z.of_nat i) with (base + Z.of_nat (length a + i))
        by (unfold zlen; lia).
      apply H. by rewrite lookup_app_r, Nat.add_comm, Nat.add_sub by lia.
  - intros [Ha Hb] i x Hi. apply lookup_app_Some in Hi as [Hi|[Hl Hi]]; [by apply Ha|].
    replace (base + Z.of_nat i) with (base + zlen a + Z.of_nat (i - length a))
      by (unfold zlen; lia). by apply Hb.
Qed.

Lemma cells_at_gap base n : cells_at P base (gap_cells n).
Proof. intros i b Hi. by apply lookup_replicate in Hi as [? _]. Qed.

Lemma cells_at_data base bs : cells_at P base (data_cells bs) <-> bytes_at P base bs.
Proof.
  unfold cells_at, bytes_at, data_cells. split; intros H i b.
  - intros Hi. apply H. by rewrite list_lookup_fmap, Hi.
  - rewrite list_lookup_fmap. intros (x & Hx & ?)%fmap_Some. naive_solver.
Qed.

Lemma cells_at_blurs base c c' : blurs c c' -> cells_at P base c -> cells_at P base c'.
Proof.
  intros Hb H i b Hi. destruct (Forall2_lookup_r _ _ _ _ _ Hb Hi) as (x & Hx & [<-|?]); [|done].
  by apply H.
Qed.

Lemma bytes_at_nil off : bytes_at P off [].
Proof. intros i b. by rewrite lookup_nil. Qed.

Lemma bytes_at_app off a b :
  bytes_at P off (a ++ b) <-> bytes_at P off a /\ bytes_at P (off + zlen a) b.
Proof. rewrite <- !cells_at_data, data_cells_app, cells_at_app, zlen_data. done. Qed.

Lemma bytes_at_zdrop off n bs :
  0 <= n -> bytes_at P off bs -> bytes_at P (off + n) (zdrop n bs).
Proof.
  intros Hn H i b. rewrite lookup_zdrop by done. intros Hi%H.
  replace (off + n + Z.of_nat i) with (off + Z.of_nat (Z.to_nat n + i)) by lia. done.
Qed.

Lemma bytes_at_ztake off n bs : bytes_at P off bs -> bytes_at P off (ztake n bs).
Proof. intros H i b [Hi _]%lookup_ztake_Some. by apply H. Qed.
End at_lemmas.

Lemma bytes_at_impl (P Q : Z -> Z -> Prop) off bs :
  (forall o b, P o b -> Q o b) -> bytes_at P off bs -> bytes_at Q off bs.
Proof. intros HPQ H i b Hi. by apply HPQ, H. Qed.

Create HintDb cells.
#[export] Hint Resolve cells_at_nil cells_at_gap bytes_at_nil bytes_at_zdrop bytes_at_ztake : cells.
