(* ===== verification/Chunks.v ===== *)
(** * Reassembled output (src/src/reassembler.rs, [StreamChunks])

    In-order bytes, the gap markers between them and an optional stop.
    [content] is the abstract stream ([Cells]) a value stands for; the
    lemmas give each operation's effect on it. *)

From S2P Require Import Prelude Flow Cells.

Module GapMark.
Record t := mk { at_ : Z; len : Z }.
#[global] Instance eta : Eta t := mk_eta (fun g => mk (at_ g) (len g)).
#[global] Instance eq_dec : EqDecision t.
Proof. solve_decision. Defined.
End GapMark.

(** One element of a walk. *)
Inductive Chunk := Data (bs : list Z) | Gap (n : Z).

Module StreamChunks.
Import GapMark.

Record t := mk { bytes : list Z; gaps : list GapMark.t; stop : option ReassemblyStop }.
#[global] Instance eta : Eta t := mk_eta (fun s => mk (bytes s) (gaps s) (stop s)).
#[global] Instance eq_dec : EqDecision t.
Proof. solve_decision. Defined.

Definition new : t := mk [] [] None.
Definition clear (s : t) : t := new.
Definition is_empty (s : t) : bool := is_nil (bytes s) && is_nil (gaps s) && is_none (stop s).
Definition len (s : t) : Z := zlen (bytes s).
Definition push_data (data : list Z) (s : t) : t := s <| bytes ::= fun b => b ++ data |>.
Definition push_owned (data : list Z) (s : t) : t :=
  if is_nil (bytes s) then s <| bytes := data |> else push_data data s.
Definition is_empty_data (s : t) : bool := is_nil (bytes s).

(** [match gaps.last_mut() { Some(last) if last.at == at => last.len =
    last.len.saturating_add(len), _ => gaps.push(GapMark { at, len }) }]. *)
Fixpoint push_mark (gs : list GapMark.t) (at' len' : Z) : list GapMark.t :=
  match gs with
  | [] => [GapMark.mk at' len']
  | [g] => if at_ g =? at' then [g <| GapMark.len ::= fun n => sat_add n len' |>]
           else [g; GapMark.mk at' len']
  | g :: gs' => g :: push_mark gs' at' len'
  end.

Definition push_gap (n : Z) (s : t) : t :=
  if n =? 0 then s
  else s <| gaps ::= fun gs => push_mark gs (zlen (bytes s)) n |>.
Definition set_stop (r : ReassemblyStop) (s : t) : t := s <| stop ::= get_or_insert r |>.
Definition gap_count (s : t) : Z := zlen (gaps s).
Definition gap_bytes (s : t) : Z := foldr (fun g n => GapMark.len g + n) 0 (gaps s).

(** The iterator: its position in the bytes and the next marker. *)
Record Chunks := { pos : Z; gap_idx : Z }.
Definition next (s : t) (it : Chunks) : option (Chunk * Chunks) :=
  let g := gaps s !! Z.to_nat (gap_idx it) in
  if is_some_and (fun g => at_ g =? pos it) g
  then match g with
       | Some g => Some (Gap (GapMark.len g), {| pos := pos it; gap_idx := gap_idx it + 1 |})
       | None => None
       end
  else if zlen (bytes s) <=? pos it then None
  else
    let end_ := match g with
                | Some g => Z.min (at_ g) (zlen (bytes s))
                | None => zlen (bytes s)
                end in
    Some (Data (zslice (pos it) end_ (bytes s)), {| pos := end_; gap_idx := gap_idx it |}).

(** [collect] runs the iterator at most [fuel] times; a walk has at most
    one data chunk per gap marker and one after the last. *)
Fixpoint collect (fuel : nat) (s : t) (it : Chunks) : list Chunk :=
  match fuel with
  | O => []
  | S k => match next s it with Some (c, it') => c :: collect k s it' | None => [] end
  end.
Definition iter_fuel (s : t) : nat := 2 * length (gaps s) + 2.
Definition iter (s : t) : list Chunk := collect (iter_fuel s) s {| pos := 0; gap_idx := 0 |}.

(** [append(&mut self, other)]: the new [self]; [other] becomes [new]
    (its stop is taken too). *)
Definition append (s other : t) : t :=
  let s' :=
    if is_nil (bytes s) && is_nil (gaps s)
    then s <| bytes := bytes other |> <| gaps := gaps other |>
    else
      let base := zlen (bytes s) in
      s <| gaps := fold_left (fun gs g => push_mark gs (base + at_ g) (GapMark.len g))
                             (gaps other) (gaps s) |>
        <| bytes ::= fun b => b ++ bytes other |> in
  match stop other with Some r => set_stop r s' | None => s' end.

(** [retain_mut]: the surviving markers and the accumulated [front]. *)
Definition drop_front (n : Z) (s : t) : t :=
  let n := Z.min n (zlen (bytes s)) in
  if n =? 0 then s
  else
    let front := fold_left (fun f g => if at_ g <=? n then sat_add f (GapMark.len g) else f)
                           (gaps s) n in
    let kept := (fun g => g <| at_ ::= fun a => a - n |>) <$>
                filter (fun g => n < at_ g) (gaps s) in
    s <| bytes ::= zdrop n |> <| gaps := GapMark.mk 0 front :: kept |>.

Definition take_bytes (s : t) : list Z * t := (bytes s, new).
Definition release (s : t) : t := s <| bytes := [] |> <| gaps := [] |>.

(** ** Meaning *)

(** The stream a value stands for, from data position [p] on. *)
Fixpoint cells (p : Z) (gs : list GapMark.t) (bs : list Z) : list (option Z) :=
  match gs with
  | [] => data_cells bs
  | g :: gs' =>
      data_cells (ztake (at_ g - p) bs) ++ gap_cells (GapMark.len g) ++
      cells (at_ g) gs' (zdrop (at_ g - p) bs)
  end.
Definition content (s : t) : list (option Z) := cells 0 (gaps s) (bytes s).
Definition chunk_cells (c : Chunk) : list (option Z) :=
  match c with Data bs => data_cells bs | Gap n => gap_cells n end.

(** Markers strictly ordered, inside the data, not empty. *)
Fixpoint marks_wf (lo hi : Z) (gs : list GapMark.t) : Prop :=
  match gs with
  | [] => lo <= hi + 1
  | g :: gs' => lo <= at_ g <= hi /\ 0 < GapMark.len g /\ marks_wf (at_ g + 1) hi gs'
  end.
Definition wf (s : t) : Prop := marks_wf 0 (zlen (bytes s)) (gaps s).
End StreamChunks.

(** ** Lemmas *)

Module StreamChunksFacts.
Import GapMark StreamChunks.

Definition shift (d : Z) (g : GapMark.t) : GapMark.t := GapMark.mk (at_ g + d) (GapMark.len g).

Lemma marks_wf_weaken lo lo' hi hi' gs :
  lo' <= lo -> hi <= hi' -> marks_wf lo hi gs -> marks_wf lo' hi' gs.
Proof.
  revert lo lo'. induction gs as [|g gs IH]; cbn; intros lo lo' Hl Hh H; [lia|].
  destruct H as (Ha & Hp & H). split_and!; [lia|lia|lia|]. by apply (IH (at_ g + 1)).
Qed.

Lemma marks_wf_hi lo hi gs : marks_wf lo hi gs -> lo <= hi + 1.
Proof. destruct gs; cbn; lia. Qed.

Lemma marks_wf_app lo hi gs hs :
  marks_wf lo hi (gs ++ hs) -> marks_wf lo hi gs.
Proof.
  revert lo. induction gs as [|g gs IH]; cbn; intros lo H; [by apply marks_wf_hi in H|].
  naive_solver.
Qed.

Lemma marks_wf_app_intro lo mid hi gs hs :
  marks_wf lo mid gs -> marks_wf (mid + 1) hi hs -> marks_wf lo hi (gs ++ hs).
Proof.
  revert lo. induction gs as [|g gs IH]; cbn; intros lo Hg Hh.
  - by apply (marks_wf_weaken (mid + 1) _ hi).
  - pose proof (marks_wf_hi _ _ _ Hh) as Hm. destruct Hg as (? & ? & Hg).
    pose proof (marks_wf_hi _ _ _ Hg). split_and!; [lia..|]. by apply IH.
Qed.

(** Every marker of [hs] is at [lo] or later. *)
Definition from (lo : Z) (hs : list GapMark.t) : Prop :=
  match hs with [] => True | h :: _ => lo <= at_ h end.

Lemma marks_wf_from lo hi gs : marks_wf lo hi gs -> from lo gs.
Proof. destruct gs; cbn; [done|lia]. Qed.

(** Markers and bytes followed by others that start where the bytes
    end. *)
Lemma cells_app p gs hs bs bs' :
  marks_wf p (p + zlen bs) gs -> from (p + zlen bs) hs ->
  cells p (gs ++ hs) (bs ++ bs') = cells p gs bs ++ cells (p + zlen bs) hs bs'.
Proof.
  revert p bs. induction gs as [|g gs IH]; cbn [app cells marks_wf]; intros p bs Hg Hh.
  - destruct hs as [|h hs]; cbn; [apply data_cells_app|]. cbn in Hh.
    rewrite ztake_app_ge, zdrop_app_ge by lia. rewrite data_cells_app, <- app_assoc.
    by replace (at_ h - p - zlen bs) with (at_ h - (p + zlen bs)) by lia.
  - destruct Hg as (Ha & Hp & Hg).
    assert (at_ g + zlen (zdrop (at_ g - p) bs) = p + zlen bs) as Hz by zlia.
    rewrite ztake_app_le, zdrop_app_le by lia. rewrite IH, Hz.
    + by rewrite <- !app_assoc.
    + rewrite Hz. by apply (marks_wf_weaken (at_ g + 1) _ (p + zlen bs)); [lia|lia|].
    + by rewrite Hz.
Qed.

Lemma cells_shift d p gs bs : cells (p + d) (shift d <$> gs) bs = cells p gs bs.
Proof.
  revert p bs. induction gs as [|g gs IH]; intros p bs; [done|]. cbn.
  replace (at_ g + d - (p + d)) with (at_ g - p) by lia. by rewrite IH.
Qed.

Lemma marks_wf_shift d lo hi gs :
  marks_wf lo hi gs -> marks_wf (lo + d) (hi + d) (shift d <$> gs).
Proof.
  revert lo. induction gs as [|g gs IH]; cbn; intros lo H; [lia|].
  destruct H as (? & ? & H). split_and!; [lia..|].
  replace (at_ g + d + 1) with (at_ g + 1 + d) by lia. by apply IH.
Qed.

Lemma cells_zlen p gs bs :
  marks_wf p (p + zlen bs) gs ->
  zlen (cells p gs bs) = zlen bs + foldr (fun g n => GapMark.len g + n) 0 gs /\
  n_missing (cells p gs bs) = foldr (fun g n => GapMark.len g + n) 0 gs.
Proof.
  revert p bs. induction gs as [|g gs IH]; cbn; intros p bs H; [split; zlia|].
  destruct H as (Ha & Hp & H).
  destruct (IH (at_ g) (zdrop (at_ g - p) bs)) as [IH1 IH2].
  { apply (marks_wf_weaken (at_ g + 1) _ (p + zlen bs)); [lia|zlia|done]. }
  autorewrite with zlist. rewrite IH1, IH2. split; zlia.
Qed.

Lemma sum_nonneg lo hi gs :
  marks_wf lo hi gs -> 0 <= foldr (fun g n => GapMark.len g + n) 0 gs.
Proof. revert lo. induction gs as [|g gs IH]; cbn; intros lo H; [lia|]. destruct H as (_ & ? & H%IH). lia. Qed.

(** [push_mark] either merges with the last marker or appends. *)
Lemma push_mark_cases gs a n :
  (push_mark gs a n = gs ++ [GapMark.mk a n] /\ forall g, last gs = Some g -> at_ g <> a) \/
  (exists gs0 g, gs = gs0 ++ [g] /\ at_ g = a /\
     push_mark gs a n = gs0 ++ [GapMark.mk a (sat_add (GapMark.len g) n)]).
Proof.
  induction gs as [|g gs IH]; [left; done|].
  destruct gs as [|g' gs].
  - cbn. destruct (Z.eqb_spec (at_ g) a) as [Ha|Hne].
    + right. exists [], g. split_and!; [done|done|]. cbn. by rewrite <- Ha.
    + left. split; [done|]. naive_solver.
  - change (push_mark (g :: g' :: gs) a n) with (g :: push_mark (g' :: gs) a n).
    destruct IH as [[-> Hl]|(gs0 & g0 & -> & Ha & ->)].
    + left. split; [done|]. intros x Hx. apply Hl. by rewrite last_cons_cons in Hx.
    + right. by exists (g :: gs0), g0.
Qed.

Lemma marks_wf_snoc lo hi gs g :
  marks_wf lo hi (gs ++ [g]) -> marks_wf lo (at_ g - 1) gs /\ at_ g <= hi /\ 0 < GapMark.len g.
Proof.
  revert lo. induction gs as [|h gs IH]; cbn; intros lo H; [lia|].
  destruct H as (? & ? & H). destruct (IH _ H) as (H' & ? & ?).
  split; [|done]. pose proof (marks_wf_hi _ _ _ H'). split_and!; [lia..|done].
Qed.

Lemma marks_wf_last lo hi gs : marks_wf lo hi gs ->
  (forall g, last gs = Some g -> at_ g <> hi) -> lo <= hi -> marks_wf lo (hi - 1) gs.
Proof.
  destruct gs as [|g0 gs _] using rev_ind; intros H Hl Hlo; [cbn; lia|].
  apply marks_wf_snoc in H as (H & Hle & Hp). specialize (Hl g0). rewrite last_snoc in Hl.
  specialize (Hl eq_refl). pose proof (marks_wf_hi _ _ _ H).
  apply (marks_wf_app_intro _ (at_ g0 - 1)); [done|]. cbn. lia.
Qed.

(** Recording [n] missing bytes at the end of the data. *)
Lemma push_mark_spec p gs bs n :
  marks_wf p (p + zlen bs) gs -> 0 < n ->
  foldr (fun g n => GapMark.len g + n) 0 gs + n <= U64_MAX ->
  marks_wf p (p + zlen bs) (push_mark gs (p + zlen bs) n) /\
  cells p (push_mark gs (p + zlen bs) n) bs = cells p gs bs ++ gap_cells n.
Proof.
  intros H Hn Hs.
  destruct (push_mark_cases gs (p + zlen bs) n) as [[-> Hl]|(gs0 & g & -> & Ha & ->)].
  - split.
    + apply (marks_wf_app_intro _ (p + zlen bs - 1)); [|cbn; lia].
      apply marks_wf_last; [done|done|]. zlia.
    + pose proof (cells_app p gs [GapMark.mk (p + zlen bs) n] bs [] H) as E.
      rewrite app_nil_r in E. rewrite E by (cbn; lia). cbn.
      by rewrite ztake_nil, zdrop_nil, app_nil_r.
  - apply marks_wf_snoc in H as (H & Hle & Hp).
    assert (H' : marks_wf p (p + zlen bs) gs0).
    { apply (marks_wf_weaken p _ (at_ g - 1)); [lia|lia|done]. }
    assert (foldr (fun g n => GapMark.len g + n) 0 (gs0 ++ [g]) =
            foldr (fun g n => GapMark.len g + n) 0 gs0 + GapMark.len g) as Es.
    { clear. induction gs0 as [|x gs0 IH]; cbn; lia. }
    rewrite Es in Hs. pose proof (sum_nonneg _ _ _ H').
    assert (sat_add (GapMark.len g) n = GapMark.len g + n) as -> by (unfold sat_add; lia).
    split.
    + apply (marks_wf_app_intro _ (p + zlen bs - 1)); [|cbn; lia].
      by rewrite <- Ha.
    + pose proof (cells_app p gs0 [GapMark.mk (p + zlen bs) (GapMark.len g + n)] bs [] H') as E1.
      pose proof (cells_app p gs0 [g] bs [] H') as E2.
      rewrite app_nil_r in E1, E2. rewrite E1, E2 by (cbn; lia). cbn.
      rewrite !ztake_nil, !zdrop_nil, gap_cells_add by lia. cbn.
      by rewrite !app_nil_r, <- !app_assoc.
Qed.

(** *** Operations *)

Lemma content_zlen s : wf s -> zlen (content s) = len s + gap_bytes s.
Proof. intros H. apply (cells_zlen 0 _ (bytes s) H). Qed.

Lemma content_missing s : wf s -> n_missing (content s) = gap_bytes s.
Proof. intros H. apply (cells_zlen 0 _ (bytes s) H). Qed.

Lemma gap_bytes_nonneg s : wf s -> 0 <= gap_bytes s.
Proof. apply sum_nonneg. Qed.

Lemma new_wf : wf new.
Proof. cbn. zlia. Qed.

Lemma push_data_spec d s : wf s ->
  wf (push_data d s) /\ content (push_data d s) = content s ++ data_cells d.
Proof.
  unfold wf, content, push_data. cbn. intros H. split.
  - apply (marks_wf_weaken 0 _ (zlen (bytes s))); [lia|zlia|done].
  - pose proof (cells_app 0 (gaps s) [] (bytes s) d H I) as E.
    rewrite app_nil_r in E. by rewrite E.
Qed.

Lemma push_owned_data d s : push_owned d s = push_data d s.
Proof.
  unfold push_owned, push_data. destruct s as [[|b bs] gs st]; reflexivity.
Qed.

Lemma push_gap_spec n s : wf s -> 0 <= n -> gap_bytes s + n <= U64_MAX ->
  wf (push_gap n s) /\ content (push_gap n s) = content s ++ gap_cells n.
Proof.
  unfold wf, content, push_gap. intros H Hn Hs. destruct (Z.eqb_spec n 0) as [->|Hne].
  - by rewrite gap_cells_nil, app_nil_r by lia.
  - apply (push_mark_spec 0 (gaps s) (bytes s) n); [done|lia|done].
Qed.

Lemma cells_split p n gs bs :
  marks_wf p (p + zlen bs) gs -> p <= n <= p + zlen bs ->
  exists pre, cells p gs bs = pre ++ cells n (filter (fun g => n < at_ g) gs) (zdrop (n - p) bs) /\
    zlen pre = n - p + foldr (fun g s => (if at_ g <=? n then GapMark.len g else 0) + s) 0 gs.
Proof.
  revert p bs. induction gs as [|g gs IH]; cbn [cells marks_wf foldr]; intros p bs H Hn.
  - exists (data_cells (ztake (n - p) bs)). rewrite filter_nil. cbn [cells]. split; [|zlia].
    by rewrite <- data_cells_app, ztake_zdrop.
  - destruct H as (Ha & Hp & H).
    assert (marks_wf (at_ g) (at_ g + zlen (zdrop (at_ g - p) bs)) gs) as H'.
    { apply (marks_wf_weaken (at_ g + 1) _ (p + zlen bs)); [lia|zlia|done]. }
    destruct (Z.leb_spec (at_ g) n).
    + rewrite filter_cons_False by lia.
      destruct (IH (at_ g) (zdrop (at_ g - p) bs) H' ltac:(zlia)) as (pre & -> & Hz).
      exists (data_cells (ztake (at_ g - p) bs) ++ gap_cells (GapMark.len g) ++ pre).
      rewrite <- !app_assoc, zdrop_zdrop by lia.
      replace (at_ g - p + (n - at_ g)) with (n - p) by lia. split; [done|]. zlia.
    + rewrite filter_cons_True by lia. exists (data_cells (ztake (n - p) bs)).
      assert (filter (fun g => n < at_ g) gs = gs /\
        foldr (fun g s => (if at_ g <=? n then GapMark.len g else 0) + s) 0 gs = 0) as [-> ->].
      { clear -H H0. assert (n < at_ g + 1) as Hlt by lia. revert H Hlt.
        generalize (at_ g + 1) (p + zlen bs). clear. induction gs as [|g gs IH]; [done|].
        cbn [marks_wf foldr]. intros lo hi (Ha & _ & H) Hlt. rewrite filter_cons_True by lia.
        destruct (Z.leb_spec (at_ g) n); [lia|].
        destruct (IH _ _ H ltac:(lia)) as [-> ->]. split; [done|lia]. }
      cbn [cells]. split; [|zlia]. rewrite !zdrop_zdrop by lia.
      replace (n - p + (at_ g - n)) with (at_ g - p) by lia. rewrite !app_assoc. do 2 f_equal.
      rewrite <- data_cells_app. f_equal.
      rewrite <- (ztake_zdrop (n - p) (ztake (at_ g - p) bs)). unfold ztake, zdrop.
      rewrite take_take, skipn_firstn_comm. f_equal; f_equal; lia.
Qed.

Lemma marks_wf_filter n lo hi gs : marks_wf lo hi gs -> n <= hi ->
  marks_wf (n + 1) hi (filter (fun g => n < at_ g) gs).
Proof.
  revert lo. induction gs as [|g gs IH]; cbn [marks_wf]; intros lo H Hn.
  - rewrite filter_nil. cbn. lia.
  - destruct H as (? & ? & H). rewrite filter_cons. case_decide; [|by apply (IH (at_ g + 1))].
    cbn. split_and!; [lia..|].
    apply (marks_wf_weaken (Z.max n (at_ g) + 1) _ hi); [lia|lia|].
    replace (Z.max n (at_ g)) with (at_ g) by lia.
    assert (forall x, x <= at_ g -> forall l, marks_wf (at_ g + 1) hi l ->
      filter (fun g => x < at_ g) l = l) as E.
    { clear. intros x Hx l. assert (x < at_ g + 1) as Hlt by lia. clear Hx. revert Hlt.
      generalize (at_ g + 1). induction l as [|h l IHl]; [done|]. cbn [marks_wf].
      intros z Hz (? & _ & Hl). rewrite filter_cons_True by lia.
      by rewrite (IHl (at_ h + 1)) by (done || lia). }
    by rewrite E by (done || lia).
Qed.

Lemma fold_front_marks n gs f :
  0 <= f -> Forall (fun g => 0 <= GapMark.len g) gs ->
  f + foldr (fun g s => (if at_ g <=? n then GapMark.len g else 0) + s) 0 gs <= U64_MAX ->
  fold_left (fun f g => if at_ g <=? n then sat_add f (GapMark.len g) else f) gs f =
  f + foldr (fun g s => (if at_ g <=? n then GapMark.len g else 0) + s) 0 gs.
Proof.
  intros Hf Hg. revert f Hf. induction Hg as [|g gs Hg Hgs IH]; cbn; intros f Hf Hs; [lia|].
  assert (0 <= foldr (fun g s => (if at_ g <=? n then GapMark.len g else 0) + s) 0 gs).
  { clear -Hgs. induction Hgs; cbn; [lia|]. case_match; lia. }
  rewrite IH; case_match; unfold sat_add in *; lia.
Qed.

Lemma marks_wf_lens lo hi gs : marks_wf lo hi gs -> Forall (fun g => 0 <= GapMark.len g) gs.
Proof.
  revert lo. induction gs as [|g gs IH]; intros lo H; constructor; destruct H as (?&?&?);
    [lia|by eapply IH].
Qed.

Lemma front_nonneg n gs : Forall (fun g => 0 <= GapMark.len g) gs ->
  0 <= foldr (fun g s => (if at_ g <=? n then GapMark.len g else 0) + s) 0 gs.
Proof. induction 1; cbn; [lia|]. case_match; lia. Qed.

(** Dropping the first [n] bytes forgets them in place. *)
Lemma drop_front_spec n s : wf s -> 0 <= n -> zlen (content s) <= U64_MAX ->
  wf (drop_front n s) /\ blurs (content s) (content (drop_front n s)) /\
  n_missing (content (drop_front n s)) = n_missing (content s) + Z.min n (len s) /\
  len (drop_front n s) = len s - Z.min n (len s).
Proof.
  intros H Hn Hs. pose proof (content_zlen s H) as Hz. unfold len in Hz. revert Hz.
  unfold drop_front, wf, content, len in *. set (m := Z.min n (zlen (bytes s))). intros Hz.
  destruct (Z.eqb_spec m 0) as [Hm|Hm].
  { split_and!; [done|done|lia|lia]. }
  destruct (cells_split 0 m (gaps s) (bytes s) H ltac:(zlia)) as (pre & E & Hpre).
  rewrite Z.sub_0_r in E, Hpre.
  set (kept := filter (fun g => m < at_ g) (gaps s)) in *. cbn.
  assert (zlen pre + zlen (cells m kept (zdrop m (bytes s))) = zlen (cells 0 (gaps s) (bytes s))) as Ez.
  { rewrite E. zlia. }
  rewrite fold_front_marks by (try eapply marks_wf_lens; try eassumption; zlia).
  rewrite <- Hpre.
  assert (marks_wf (m + 1) (zlen (bytes s)) kept) as Hk by (eapply marks_wf_filter; [done|lia]).
  match goal with |- context [?f <$> kept] =>
    assert (f <$> kept = shift (- m) <$> kept) as -> end.
  { apply list_fmap_ext. intros _ g _. reflexivity. }
  pose proof (marks_wf_shift (- m) _ _ _ Hk) as Hk'.
  replace (m + 1 + - m) with 1 in Hk' by lia.
  replace (zlen (bytes s) + - m) with (zlen (zdrop m (bytes s))) in Hk' by zlia.
  pose proof (cells_shift (- m) m kept (zdrop m (bytes s))) as Es.
  replace (m + - m) with 0 in Es by lia. rewrite (zdrop_0 (0 - 0)), ztake_0, Es by lia.
  pose proof (front_nonneg m (gaps s) (marks_wf_lens _ _ _ H)).
  split_and!; [lia|zlia|zlia|done| | |zlia].
  - rewrite E. rewrite app_assoc; apply blurs_app; [apply blurs_gap|done].
  - destruct (cells_zlen 0 _ _ H) as [E1 E2].
    destruct (cells_zlen m kept (zdrop m (bytes s))) as [E3 E4].
    { apply (marks_wf_weaken (m + 1) _ (zlen (bytes s))); [lia|zlia|done]. }
    rewrite missing_app, missing_app, missing_data, missing_gap. zlia.
Qed.

Notation sum_lens gs := (foldr (fun g n => GapMark.len g + n) 0 gs).

Lemma push_mark_sum gs a n :
  0 <= n -> Forall (fun g => 0 <= GapMark.len g) gs -> sum_lens gs + n <= U64_MAX ->
  sum_lens (push_mark gs a n) = sum_lens gs + n.
Proof.
  assert (forall l r, sum_lens (l ++ r) = sum_lens l + sum_lens r) as Eapp.
  { clear. intros l r. induction l as [|x l IH]; cbn; lia. }
  intros Hn Hg Hs. destruct (push_mark_cases gs a n) as [[-> _]|(gs0 & g & -> & _ & ->)].
  - rewrite Eapp. cbn. lia.
  - rewrite !Eapp in *. cbn in *. apply Forall_app in Hg as [Hg _].
    assert (0 <= sum_lens gs0) by (clear -Hg; induction Hg; cbn; lia).
    unfold sat_add. rewrite Z.min_r; lia.
Qed.

(** Re-recording the markers of a second value behind the first. *)
Lemma append_marks p gs bs q hs bs' d :
  marks_wf p (p + zlen bs) gs -> marks_wf q (q + zlen bs') hs -> d + q = p + zlen bs ->
  sum_lens gs + sum_lens hs <= U64_MAX ->
  let gs' := fold_left (fun gs g => push_mark gs (d + at_ g) (GapMark.len g)) hs gs in
  marks_wf p (p + zlen bs + zlen bs') gs' /\
  cells p gs' (bs ++ bs') = cells p gs bs ++ cells q hs bs'.
Proof.
  revert gs bs q bs'. induction hs as [|h hs IH]; intros gs bs q bs' Hg Hh Hd Hs; cbn -[zlen].
  - split; [by apply (marks_wf_weaken p _ (p + zlen bs)); [lia|zlia|]|].
    rewrite <- (app_nil_r gs) at 1. by rewrite cells_app.
  - cbn in Hh, Hs. destruct Hh as (Ha & Hp & Hh). pose proof (sum_nonneg _ _ _ Hh).
    set (mid := ztake (at_ h - q) bs'). set (rest := zdrop (at_ h - q) bs').
    assert (zlen mid = at_ h - q) as Hm by (unfold mid; zlia).
    assert (zlen rest = zlen bs' - (at_ h - q)) as Hr by (unfold rest; zlia).
    assert (marks_wf p (p + zlen (bs ++ mid)) gs) as Hg'.
    { apply (marks_wf_weaken p _ (p + zlen bs)); [lia|zlia|done]. }
    destruct (push_mark_spec p gs (bs ++ mid) (GapMark.len h) Hg' Hp ltac:(lia)) as [Hw Hc].
    assert (p + zlen (bs ++ mid) = d + at_ h) as E by zlia. rewrite E in Hw, Hc.
    pose proof (push_mark_sum gs (d + at_ h) (GapMark.len h) ltac:(lia)
                  (marks_wf_lens _ _ _ Hg) ltac:(lia)) as Hsum.
    destruct (IH (push_mark gs (d + at_ h) (GapMark.len h)) (bs ++ mid) (at_ h) rest)
      as [IHw IHc].
    + by rewrite E.
    + apply (marks_wf_weaken (at_ h + 1) _ (q + zlen bs')); [lia|lia|done].
    + zlia.
    + rewrite Hsum. lia.
    + assert (bs ++ bs' = (bs ++ mid) ++ rest) as Eb.
      { unfold mid, rest. by rewrite <- app_assoc, ztake_zdrop. }
      split; [eapply marks_wf_weaken; [done| |exact IHw]; zlia|].
      rewrite Eb, IHc, Hc. rewrite <- (app_nil_r gs) at 1.
      rewrite cells_app by done. cbn. by rewrite <- !app_assoc.
Qed.

Lemma set_stop_content r s : content (set_stop r s) = content s.
Proof. reflexivity. Qed.
Lemma set_stop_wf r s : wf (set_stop r s) <-> wf s.
Proof. reflexivity. Qed.

(** Appending concatenates the streams, whichever branch runs. *)
Lemma append_spec s o : wf s -> wf o -> gap_bytes s + gap_bytes o <= U64_MAX ->
  wf (append s o) /\ content (append s o) = content s ++ content o.
Proof.
  intros Hs Ho Hsum. unfold append.
  set (s' := if is_nil (bytes s) && is_nil (gaps s) then _ else _).
  assert (wf s' /\ content s' = content s ++ content o) as Hs'.
  { subst s'. destruct s as [bs gs st], o as [bo go so]. unfold wf, content, gap_bytes in *.
    cbn in *. destruct (is_nil bs && is_nil gs) eqn:Hn; cbn.
    - apply andb_true_iff in Hn as [->%is_nil_spec ->%is_nil_spec]. done.
    - destruct (append_marks 0 gs bs 0 go bo (zlen bs)) as [Hw Hc]; [done|done|lia|done|].
      split; [|done]. eapply marks_wf_weaken; [reflexivity| |exact Hw]. zlia. }
  destruct (stop o); [|done]. by rewrite set_stop_content, set_stop_wf.
Qed.

(** *** The iterator *)

(** Steps the iterator still needs. *)
Definition walk_need (s : t) (p : Z) (gs : list GapMark.t) : Z :=
  2 * zlen gs + (if p <? zlen (bytes s) then 1 else 0) -
  (if is_some_and (fun g => at_ g =? p) (head gs) then 1 else 0).

Lemma collect_spec s (k : nat) gs it :
  let p := pos it in
  gaps s = take (Z.to_nat (gap_idx it)) (gaps s) ++ gs -> 0 <= gap_idx it <= zlen (gaps s) ->
  0 <= p -> marks_wf p (zlen (bytes s)) gs -> p <= zlen (bytes s) ->
  walk_need s p gs <= Z.of_nat k ->
  flat_map chunk_cells (collect k s it) = cells p gs (zdrop p (bytes s)).
Proof.
  pose proof (zlen_nonneg (bytes s)) as Hnn.
  revert gs it. induction k as [|k IH]; intros gs [p gi]; cbn [pos gap_idx]; intros E Hi Hp Hw Hb Hk.
  { unfold walk_need in Hk. destruct gs as [|g gs]; cbn in Hk; [|rewrite zlen_cons in Hk; zlen_facts; repeat case_match; lia].
    destruct (Z.ltb_spec p (zlen (bytes s))); [zlia|]. by rewrite zdrop_ge by lia. }
  assert (gaps s !! Z.to_nat gi = head gs) as Hl.
  { rewrite E at 1. rewrite lookup_app_r by (rewrite length_take; lia).
    rewrite length_take. unfold zlen in Hi.
    replace (Z.to_nat gi - _)%nat with 0%nat by lia. by destruct gs. }
  cbn [collect]. unfold next. cbn [pos gap_idx]. rewrite Hl.
  destruct gs as [|g gs]; cbn [head is_some_and].
  - destruct (Z.leb_spec (zlen (bytes s)) p).
    + cbn. by rewrite zdrop_ge by lia.
    + cbn [flat_map chunk_cells cells].
      rewrite (IH []); cbn -[decide]; rewrite ?(zdrop_ge (zlen (bytes s))), ?app_nil_r by lia; try done; try lia.
      * unfold zslice. by rewrite ztake_ge by zlia.
      * by rewrite app_nil_r in E.
      * unfold walk_need in *. cbn in *. rewrite Z.ltb_irrefl. zb; repeat case_match; zb; zlia.
  - cbn in Hw. destruct Hw as (Ha & Hn & Hw). destruct (Z.eqb_spec (at_ g) p) as [Hg|Hg].
    + assert (gi < zlen (gaps s)) as Hlt.
      { unfold zlen. apply lookup_lt_Some in Hl. lia. }
      cbn [flat_map chunk_cells cells]. rewrite (IH gs); cbn [pos gap_idx].
      * by rewrite Hg, Z.sub_diag, ztake_0, (zdrop_0 0) by lia.
      * rewrite E at 1. replace (Z.to_nat (gi + 1)) with (S (Z.to_nat gi)) by lia.
        rewrite (take_S_r _ _ _ Hl), <- app_assoc. done.
      * lia.
      * lia.
      * by apply (marks_wf_weaken (at_ g + 1) _ (zlen (bytes s))); [lia|lia|].
      * done.
      * unfold walk_need in *. cbn in Hk. rewrite (proj2 (Z.eqb_eq _ _) Hg) in Hk.
        autorewrite with zlist in Hk. repeat case_match; zb; lia.
    + destruct (Z.leb_spec (zlen (bytes s)) p); [lia|].
      cbn [flat_map chunk_cells]. rewrite Z.min_l by lia. rewrite (IH (g :: gs)); cbn [pos gap_idx].
      * cbn [cells]. unfold zslice. rewrite Z.sub_diag, (ztake_0 0), (zdrop_0 0), zdrop_zdrop by lia.
        by replace (p + (at_ g - p)) with (at_ g) by lia.
      * done.
      * lia.
      * lia.
      * cbn. split_and!; [lia..|done].
      * lia.
      * unfold walk_need in *. cbn in *. rewrite Z.eqb_refl. rewrite (proj2 (Z.eqb_neq _ _) Hg) in Hk.
        repeat case_match; zb; zlia.
Qed.

(** The chunks of a walk, concatenated, are the stream. *)
Lemma iter_spec s : wf s -> flat_map chunk_cells (iter s) = content s.
Proof.
  intros H. unfold iter, content. pose proof (zlen_nonneg (gaps s)).
  pose proof (zlen_nonneg (bytes s)). rewrite (collect_spec s _ (gaps s)); cbn -[decide]; try done; try lia.
  unfold iter_fuel, walk_need, zlen. repeat case_match; lia.
Qed.

(** *** Lengths and emptiness *)

Lemma is_empty_push_data bs s : bs <> [] -> is_empty (push_data bs s) = false.
Proof. destruct s as [[|] gs st], bs; done. Qed.
Lemma is_empty_push_data_l bs s : is_empty s = false -> is_empty (push_data bs s) = false.
Proof. destruct s as [[|] gs st], bs; done. Qed.
Lemma push_mark_ne gs a n : push_mark gs a n <> [].
Proof. destruct gs as [|g [|]]; cbn; [done|case_match; done|done]. Qed.
Lemma is_empty_gaps s : StreamChunks.gaps s <> [] -> is_empty s = false.
Proof. destruct s as [[|] [|] st]; done. Qed.
Lemma is_empty_push_gap n s : n <> 0 -> is_empty (push_gap n s) = false.
Proof.
  unfold push_gap. intros Hn%Z.eqb_neq. rewrite Hn. apply is_empty_gaps, push_mark_ne.
Qed.
Lemma is_empty_push_gap_l n s : is_empty s = false -> is_empty (push_gap n s) = false.
Proof.
  destruct (Z.eq_dec n 0) as [->|Hn]; [done|]. intros _. by apply is_empty_push_gap.
Qed.
Lemma len_push_gap n s : len (push_gap n s) = len s.
Proof. unfold push_gap. by case_if. Qed.
Lemma len_drop_front n s : 0 <= n -> len (drop_front n s) = len s - Z.min n (len s).
Proof. intros. unfold drop_front, len. case_if; [lia|]. cbn. zlia. Qed.
Lemma len_push_data bs s : len (push_data bs s) = len s + zlen bs.
Proof. unfold len, push_data. cbn. zlia. Qed.

End StreamChunksFacts.

(** Clients reason by the lemmas above. *)
#[global] Arguments StreamChunks.push_data : simpl never.
#[global] Arguments StreamChunks.push_gap : simpl never.
#[global] Arguments StreamChunks.drop_front : simpl never.
#[global] Arguments StreamChunks.append : simpl never.
#[global] Arguments StreamChunks.set_stop : simpl never.
#[global] Arguments StreamChunks.content : simpl never.
#[global] Arguments StreamChunks.is_empty : simpl never.
#[global] Arguments StreamChunks.len : simpl never.
#[global] Arguments StreamChunks.push_owned : simpl never.
