(* ===== verification/Ledger.v ===== *)
(** * The ledger of one direction

    What a reassembler owes its consumer.  [d] is what was already handed
    out, [r] the chunks ready to be drained, [next] the stream position and
    [lost] the number of bytes reported as lost.  While the side is live,
    [d] and [r] together hold exactly the stream up to [next], every known
    byte satisfies [P] at its offset, and the missing ones are exactly the
    [lost] ones.  After a stop the output is a prefix.  Both reassemblers
    maintain it, so the lemmas are stated once here. *)

From S2P Require Import Prelude Flow Cells Chunks.
Import StreamChunks StreamChunksFacts.

Definition ledger (P : Z -> Z -> Prop) (d : list (option Z)) (r : StreamChunks.t)
    (next : Z) (live : bool) (lost : Z) : Prop :=
  0 <= next /\
  (next <= U64_MAX ->
   StreamChunks.wf r /\ cells_at P 0 (d ++ content r) /\ zlen (d ++ content r) <= next /\
   (live = true -> zlen (d ++ content r) = next /\ n_missing (d ++ content r) = lost)).

Section ledger.
Context (P : Z -> Z -> Prop) (d : list (option Z)).

Lemma ledger_init : ledger P [] StreamChunks.new 0 true 0.
Proof.
  split; [lia|]. intros _. split_and!; [apply new_wf|apply cells_at_nil|done|done].
Qed.

Lemma ledger_gap r next live lost n :
  ledger P d r next live lost -> 0 <= n ->
  ledger P d (push_gap n r) (next + n) live (lost + n).
Proof.
  intros [H0 H] Hn. split; [lia|]. intros Hm.
  destruct H as (Hw & Hc & Hl & He); [lia|].
  pose proof (content_zlen r Hw) as Hz. pose proof (zlen_nonneg d). rewrite zlen_app in Hl.
  pose proof (zlen_nonneg (bytes r)). unfold len in Hz.
  destruct (push_gap_spec n r Hw Hn ltac:(lia)) as [Hw' ->]. rewrite app_assoc.
  split_and!; [done| |zlia|].
  - apply cells_at_app. split; [done|apply cells_at_gap].
  - intros Hlive. destruct (He Hlive). autorewrite with zlist in *. lia.
Qed.

Lemma ledger_data r next live lost bs :
  ledger P d r next live lost -> live = true -> bytes_at P next bs ->
  ledger P d (push_data bs r) (next + zlen bs) true lost.
Proof.
  intros [H0 H] Hlive Hb. pose proof (zlen_nonneg bs). split; [lia|]. intros Hm.
  destruct H as (Hw & Hc & Hl & He); [lia|]. destruct (He Hlive) as [E1 E2].
  destruct (push_data_spec bs r Hw) as [Hw' ->]. rewrite app_assoc.
  split_and!; [done| |zlia|].
  - apply cells_at_app. split; [done|]. by rewrite Z.add_0_l, E1, cells_at_data.
  - intros _. autorewrite with zlist in *. lia.
Qed.

Lemma ledger_drop_front r next live lost n :
  ledger P d r next live lost -> 0 <= n ->
  ledger P d (drop_front n r) next live (lost + Z.min n (len r)).
Proof.
  intros [H0 H] Hn. split; [done|]. intros Hm. destruct H as (Hw & Hc & Hl & He); [done|].
  pose proof (zlen_nonneg d). pose proof Hl as Hl'. rewrite zlen_app in Hl'.
  destruct (drop_front_spec n r Hw Hn ltac:(lia)) as (Hw' & Hb & Hmiss & _).
  pose proof (blurs_zlen _ _ Hb) as Hz.
  split_and!; [done| |by rewrite zlen_app, Hz, <- zlen_app|].
  - apply (cells_at_blurs _ _ (d ++ content r)); [by apply blurs_app|done].
  - intros Hlive. destruct (He Hlive). autorewrite with zlist in *. lia.
Qed.

(** A stopped side: the position may move on without output. *)
Lemma ledger_stop r next live lost next' lost' :
  ledger P d r next live lost -> next <= next' -> ledger P d r next' false lost'.
Proof.
  intros [H0 H] Hn. split; [lia|]. intros Hm. destruct H as (Hw & Hc & Hl & _); [lia|].
  split_and!; [done|done|lia|done].
Qed.

Lemma ledger_clear r next live lost lost' :
  ledger P d r next live lost -> ledger P d StreamChunks.new next false lost'.
Proof.
  intros [H0 H]. split; [lia|]. intros Hm. destruct H as (Hw & Hc & Hl & _); [lia|].
  rewrite app_nil_r. apply cells_at_app in Hc as [Hc _]. rewrite zlen_app in Hl.
  split_and!; [apply new_wf|done|zlia|done].
Qed.

Lemma ledger_drain r next live lost :
  ledger P d r next live lost -> ledger P (d ++ content r) StreamChunks.new next live lost.
Proof.
  intros [H0 H]. split; [done|]. intros Hm. rewrite app_nil_r.
  destruct (H Hm) as (_ & H'). split; [apply new_wf|done].
Qed.

(** Bytes handed out directly while nothing is ready. *)
Lemma ledger_direct r next lost bs :
  ledger P d r next true lost -> StreamChunks.is_empty r = true -> bytes_at P next bs ->
  ledger P (d ++ data_cells bs) r (next + zlen bs) true lost.
Proof.
  intros HL He Hb. pose proof (ledger_data _ _ _ _ bs HL eq_refl Hb) as [? H].
  split; [done|]. intros Hm. destruct HL as [_ HL]. specialize (H Hm).
  destruct HL as (Hw & _); [pose proof (zlen_nonneg bs); lia|].
  destruct (push_data_spec bs r Hw) as [_ E]. rewrite E in H.
  assert (content r = []) as Hr.
  { destruct r as [[|] [|] st]; done. }
  rewrite Hr in *. rewrite app_nil_r. cbn in H. split; [done|]. apply H.
Qed.
End ledger.
