(* ===== verification/Track.v ===== *)
(** * Stream positions (src/src/reassembler.rs, [Track])

    The bookkeeping both built-in reassemblers share: the mapping between
    32-bit sequence numbers and stream offsets, the one out-of-window
    candidate, what ACKs and FINs prove was sent, and the recently skipped
    holes.  Offsets are integers: the code's [u64] / [i64] arithmetic on
    them is exact while a stream is shorter than 2^63 bytes. *)

From S2P Require Import Prelude Time Flow Cells.

Definition DEFAULT_MAX_AHEAD : Z := 1024 * 1024.
Definition DEFAULT_ACK_GRACE : Z := from_millis 10.
Definition DEFAULT_REORDER_DEADLINE : Z := from_secs 1.
Definition SKIPPED_HISTORY : Z := 8.

Module Candidate.
Record t := mk { off : Z; data : list Z; ts : Timestamp.t; missing : Z }.
#[global] Instance eta : Eta t := mk_eta (fun c => mk (off c) (data c) (ts c) (missing c)).
Definition end_ (c : t) : Z := off c + zlen (data c) + missing c.
(** [size_of::<Candidate>()] on a 64-bit target; [data] is made by
    [to_vec], so its capacity is its length. *)
Definition size_of : Z := 48.
Definition heap (c : option t) : Z :=
  match c with Some c => size_of + zlen (data c) | None => 0 end.
End Candidate.

Inductive FarOutcome := Held | Resync (c : Candidate.t).

(** Settings of a reassembler. *)
Module StreamRules.
Record t := mk { max_ahead : Z; ack_grace : Z; deadline : Z }.
#[global] Instance eta : Eta t := mk_eta (fun r => mk (max_ahead r) (ack_grace r) (deadline r)).
Definition default : t := mk DEFAULT_MAX_AHEAD DEFAULT_ACK_GRACE DEFAULT_REORDER_DEADLINE.
End StreamRules.

Module Track.
Import Candidate.

Record t := mk {
  anchored : bool;
  next_seq : Z;
  next_off : Z;
  evidence_off : Z;
  evidence_since : option Timestamp.t;
  fin_off : option Z;
  oow : option Candidate.t;
  skipped : list (Z * Z);
  skipped_len : Z;
  skipped_head : Z;
  last_progress : Timestamp.t;
  out_of_window : Z;
  origin_resets : Z }.
#[global] Instance eta : Eta t := mk_eta (fun k =>
  mk (anchored k) (next_seq k) (next_off k) (evidence_off k) (evidence_since k) (fin_off k)
     (oow k) (skipped k) (skipped_len k) (skipped_head k) (last_progress k)
     (out_of_window k) (origin_resets k)).

Definition default : t :=
  mk false 0 0 0 None None None (replicate (Z.to_nat SKIPPED_HISTORY) (0, 0)) 0 0
     Timestamp.default 0 0.

Definition anchor (seq : Z) (now : Timestamp.t) (k : t) : t :=
  if anchored k then k
  else k <| anchored := true |> <| next_seq := seq |> <| last_progress := now |>.

Definition seq_of (k : t) (o : Z) : Z := wadd32 (next_seq k) (u32 (o - next_off k)).
Definition offset_of (k : t) (seq : Z) : Z := next_off k + i32 (wsub32 seq (next_seq k)).

Definition advance_to (o : Z) (now : Timestamp.t) (k : t) : t :=
  if o <=? next_off k then k
  else
    let delta := o - next_off k in
    let k := k <| next_off := o |>
               <| next_seq ::= fun s => wadd32 s (u32 delta) |>
               <| last_progress ::= fun p => Timestamp.max p now |> in
    if evidence_off k <=? next_off k then k <| evidence_since := None |> else k.

Definition record_skip (from to : Z) (k : t) : t :=
  let i := (skipped_head k + skipped_len k) mod SKIPPED_HISTORY in
  let k := k <| skipped ::= fun l => <[Z.to_nat i := (from, to)]> l |> in
  if skipped_len k <? SKIPPED_HISTORY then k <| skipped_len ::= Z.add 1 |>
  else k <| skipped_head ::= fun h => (h + 1) mod SKIPPED_HISTORY |>.

Definition in_skipped (k : t) (start end_ : Z) : bool :=
  existsb (fun i =>
    match skipped k !! Z.to_nat ((skipped_head k + Z.of_nat i) mod SKIPPED_HISTORY) with
    | Some (f, t) => (start <? t) && (f <? end_)
    | None => false
    end) (seq 0 (Z.to_nat (skipped_len k))).

(** Both return the outcome and the new bookkeeping. *)
Definition far_ahead (o : Z) (payload : list Z) (now : Timestamp.t) (max_ahead : Z) (k : t)
    : FarOutcome * t :=
  let held := fun k : t =>
    (Held, k <| out_of_window ::= Z.add 1 |> <| oow := Some (Candidate.mk o payload now 0) |>) in
  match oow k with
  | Some c =>
      if Z.abs (o - off c) <=? max_ahead
      then (Resync c, k <| out_of_window ::= fun n => n - 1 |>
                        <| origin_resets ::= Z.add 1 |> <| oow := None |>)
      else held k
  | None => held k
  end.

Definition extend_stray (start len : Z) (now : Timestamp.t) (k : t) : bool * t :=
  match oow k with
  | Some c =>
      if bool_decide (ts c = now) && (end_ c =? start)
      then (true, k <| oow := Some (c <| missing ::= fun m => sat_add m len |>) |>)
      else (false, k)
  | None => (false, k)
  end.

Definition far_missing (start len : Z) (now : Timestamp.t) (max_ahead : Z) (k : t)
    : option Candidate.t * t :=
  let '(extended, k) := extend_stray start len now k in
  if extended then (None, k)
  else
    match far_ahead start [] now max_ahead k with
    | (Resync c, k) => (Some c, k)
    | (Held, k) => (None, (extend_stray start len now k).2)
    end.

Definition evidence (seq : Z) (now : Timestamp.t) (max_ahead : Z) (k : t)
    : option Candidate.t * t :=
  if negb (anchored k) then (None, k)
  else
    let o := offset_of k seq in
    if o <=? next_off k then (None, k)
    else
      let o := match fin_off k with Some fin => Z.min o fin | None => o end in
      if o <=? next_off k then (None, k)
      else if max_ahead <? o - next_off k then
        match oow k with
        | Some c =>
            if off c <=? o
            then (Some c, k <| out_of_window ::= fun n => n - 1 |>
                            <| origin_resets ::= Z.add 1 |> <| oow := None |>)
            else (None, k)
        | None => (None, k)
        end
      else
        let k := if evidence_off k <? o then k <| evidence_off := o |> else k in
        (None, if next_off k <? evidence_off k
               then k <| evidence_since ::= get_or_insert now |> else k).

Definition fin (seq : Z) (now : Timestamp.t) (max_ahead : Z) (k : t)
    : option Candidate.t * t :=
  if negb (anchored k) then (None, k)
  else
    let o := offset_of k seq in
    if o <? next_off k then (None, k)
    else
      let k := k <| fin_off := Some o |> in
      let k := if o <? evidence_off k then k <| evidence_off := o |> else k in
      evidence seq now max_ahead k.

Definition evidence_due (k : t) (now : Timestamp.t) (grace : Z) : option Z :=
  match evidence_since k with
  | None => None
  | Some since =>
      if (next_off k <? evidence_off k) && (grace <=? Timestamp.saturating_sub now since)
      then Some (evidence_off k) else None
  end.

Definition evidence_frontier (k : t) : option Z :=
  if next_off k <? evidence_off k then Some (evidence_off k) else None.

Definition expire_stray (now : Timestamp.t) (max_age : Z) (k : t) : t :=
  if is_some_and (fun c => max_age <? Timestamp.saturating_sub now (ts c)) (oow k)
  then k <| oow := None |> else k.

Definition drop_stray (k : t) : t := k <| oow := None |>.
Definition heap_bytes (k : t) : Z := heap (oow k).

End Track.

(** ** Lemmas *)

Module TrackFacts.
Import Track.

(** The sequence number of stream offset 0. *)
Definition isn (k : t) : Z := u32 (next_seq k - next_off k).

Lemma seq_of_isn k o : seq_of k o = u32 (isn k + o).
Proof. unfold seq_of, isn, wadd32. u32_eq. Qed.

(** [offset_of] finds the offset nearest the stream position with the
    given sequence number. *)
Lemma offset_of_seq k seq : u32 (isn k + offset_of k seq) = u32 seq.
Proof.
  unfold isn, offset_of, wsub32. rewrite u32_add_l, Z.add_assoc, u32_add_i32. u32_eq.
Qed.

(** *** Forward motion *)

Section advance.
Context (o : Z) (now : Timestamp.t) (k : t).

Lemma advance_next_off : next_off (advance_to o now k) = Z.max (next_off k) o.
Proof. unfold advance_to. repeat case_match; zb; cbn in *; lia. Qed.

Lemma advance_isn : isn (advance_to o now k) = isn k.
Proof.
  unfold advance_to, isn, wadd32. repeat case_match; [done|cbn; u32_eq..].
Qed.

Lemma advance_same :
  anchored (advance_to o now k) = anchored k /\ oow (advance_to o now k) = oow k /\
  out_of_window (advance_to o now k) = out_of_window k /\
  fin_off (advance_to o now k) = fin_off k /\
  evidence_off (advance_to o now k) = evidence_off k /\
  origin_resets (advance_to o now k) = origin_resets k.
Proof. unfold advance_to. by repeat case_match. Qed.
End advance.

Lemma record_skip_same f e k :
  record_skip f e k = k <| skipped := skipped (record_skip f e k) |>
    <| skipped_len := skipped_len (record_skip f e k) |>
    <| skipped_head := skipped_head (record_skip f e k) |>.
Proof. unfold record_skip. by case_match. Qed.

(** *** Provenance

    [wire s b]: byte [b] was seen on the wire at sequence number [s].
    [at_seq i o b] is the same for stream offset [o] of a stream that
    starts at sequence number [i]. *)

Section provenance.
Context (wire : Z -> Z -> Prop).

Definition at_seq (i o b : Z) : Prop := wire (u32 (i + o)) b.
Definition seg_ok (seq : Z) (bs : list Z) : Prop :=
  bytes_at (fun s b => wire (u32 s) b) seq bs.
Definition cand_ok (i : Z) (c : Candidate.t) : Prop :=
  0 <= Candidate.off c /\ 0 <= Candidate.missing c /\
  bytes_at (at_seq i) (Candidate.off c) (Candidate.data c).

Lemma seg_ok_nil seq : seg_ok seq [].
Proof. apply bytes_at_nil. Qed.
Lemma seg_ok_cons seq b bs : wire (u32 seq) b -> seg_ok (seq + 1) bs -> seg_ok seq (b :: bs).
Proof.
  intros Hb Hs [|i] x; cbn; [intros [= <-]; by rewrite Z.add_0_r|]. intros Hi%Hs.
  by replace (seq + Z.of_nat (S i)) with (seq + 1 + Z.of_nat i) by lia.
Qed.

(** Well-formed bookkeeping: a held stray was counted, and nothing
    moved before the stream was anchored. *)
Record ok (k : t) : Prop := {
  ok_pos : 0 <= next_off k;
  ok_new : anchored k = false -> next_off k = 0 /\ evidence_off k <= 0;
  ok_count : 0 <= out_of_window k;
  ok_oow : forall c, oow k = Some c ->
    anchored k = true /\ cand_ok (isn k) c /\ 1 <= out_of_window k }.

(** The position is untouched. *)
Definition same_pos (k k' : t) : Prop :=
  next_off k' = next_off k /\ next_seq k' = next_seq k /\ anchored k' = anchored k.

Lemma same_pos_isn k k' : same_pos k k' -> isn k' = isn k.
Proof. unfold isn. intros (-> & -> & _). done. Qed.

Lemma seg_ok_at k seq bs : seg_ok seq bs -> bytes_at (at_seq (isn k)) (offset_of k seq) bs.
Proof.
  unfold at_seq. intros H i b Hi%H.
  by rewrite Z.add_assoc, <- u32_add_l, offset_of_seq, u32_add_l.
Qed.

Lemma bytes_at_u64 i o bs : bytes_at (at_seq i) o bs -> bytes_at (at_seq i) (u64 o) bs.
Proof.
  unfold at_seq. intros H j b Hj%H. replace (u32 (i + (u64 o + Z.of_nat j)))
    with (u32 (i + (o + Z.of_nat j))); [done|].
  unfold u64. change (2 ^ 64) with 18446744073709551616. u32_eq.
Qed.

Lemma default_ok : ok default.
Proof. by split. Qed.

Lemma anchor_ok seq now k : ok k -> ok (anchor seq now k).
Proof.
  unfold anchor. destruct (anchored k) eqn:Ha; [done|]. intros [H1 H2 H3 H4].
  split; cbn; [done|done|done|]. intros c Hc. by destruct (H4 c Hc) as [? _]; congruence.
Qed.

Lemma anchor_same seq now k :
  anchored (anchor seq now k) = true /\ next_off (anchor seq now k) = next_off k /\
  (anchored k = true -> anchor seq now k = k) /\ oow (anchor seq now k) = oow k.
Proof. unfold anchor. by destruct (anchored k) eqn:?. Qed.

Lemma advance_ok o now k : ok k -> anchored k = true -> ok (advance_to o now k).
Proof.
  intros [H1 H2 H3 H4] Ha. destruct (advance_same o now k) as (E1 & E2 & E3 & _).
  split; rewrite ?advance_next_off, ?E1, ?E2, ?E3, ?advance_isn.
  - lia.
  - congruence.
  - done.
  - done.
Qed.

Lemma record_skip_ok f e k :
  ok k -> ok (record_skip f e k) /\ same_pos k (record_skip f e k) /\
          oow (record_skip f e k) = oow k.
Proof.
  rewrite (record_skip_same f e k). intros [H1 H2 H3 H4].
  split; [|split; [repeat split|done]]. by split.
Qed.

Lemma drop_stray_ok k : ok k -> ok (drop_stray k) /\ same_pos k (drop_stray k).
Proof. intros [H1 H2 H3 H4]. split; [by split | repeat split]. Qed.

Lemma expire_stray_ok now a k :
  ok k -> ok (expire_stray now a k) /\ same_pos k (expire_stray now a k).
Proof.
  unfold expire_stray. case_match; [apply drop_stray_ok|]. intros; split; [done|repeat split].
Qed.

(** What taking the held candidate leaves behind. *)
Lemma take_oow_ok k c : ok k -> oow k = Some c ->
  let k' := k <| out_of_window ::= fun n => n - 1 |>
              <| origin_resets ::= Z.add 1 |> <| oow := None |> in
  ok k' /\ same_pos k k' /\ cand_ok (isn k) c /\ anchored k = true.
Proof.
  intros [H1 H2 H3 H4] Hc. destruct (H4 c Hc) as (? & ? & ?).
  split_and!; [|repeat split|done..]. split; cbn; [done|done|lia|done].
Qed.

Lemma far_ahead_ok o bs now m k : ok k -> anchored k = true -> 0 <= o ->
  bytes_at (at_seq (isn k)) o bs ->
  let '(r, k') := far_ahead o bs now m k in
  ok k' /\ same_pos k k' /\
  match r with Held => True | Resync c => cand_ok (isn k) c /\ oow k' = None end.
Proof.
  intros Hk Ha Ho Hb.
  assert (ok (k <| out_of_window ::= Z.add 1 |> <| oow := Some (Candidate.mk o bs now 0) |>))
    as Hh.
  { destruct Hk as [H1 H2 H3 H4]. split; cbn; [done|done|lia|]. intros c [= <-].
    split_and!; [done|by split_and!|lia]. }
  unfold far_ahead. destruct (oow k) as [c|] eqn:Hc; [case_if|].
  - destruct (take_oow_ok k c Hk Hc) as (? & ? & ? & _). cbv iota beta; by split_and!.
  - cbv iota beta; by split_and!.
  - cbv iota beta; by split_and!.
Qed.

Lemma extend_stray_ok s l now k : ok k -> 0 <= l ->
  ok (extend_stray s l now k).2 /\ same_pos k (extend_stray s l now k).2.
Proof.
  intros Hk Hl. unfold extend_stray. destruct (oow k) as [c|] eqn:Hc; [|done].
  case_if; [|done]. cbn. split; [|done]. destruct Hk as [H1 H2 H3 H4].
  split; cbn; [done..|]. intros c' [= <-].
  destruct (H4 c Hc) as (Hd & (? & ? & ?) & ?). split_and!; [done| |done].
  unfold cand_ok. cbn. split_and!; [done|unfold sat_add, U64_MAX; lia|done].
Qed.

Lemma far_missing_ok s l now m k : ok k -> anchored k = true -> 0 <= s -> 0 <= l ->
  let '(r, k') := far_missing s l now m k in
  ok k' /\ same_pos k k' /\ (forall c, r = Some c -> cand_ok (isn k) c /\ oow k' = None).
Proof.
  intros Hk Ha Hs Hl. unfold far_missing.
  pose proof (extend_stray_ok s l now k Hk Hl) as (Hk1 & Hp1).
  destruct (extend_stray s l now k) as [e k1]. cbn in Hk1, Hp1.
  destruct e; [split_and!; [done|done|]; done|].
  assert (anchored k1 = true) as Ha1 by (destruct Hp1 as (_ & _ & ->); done).
  pose proof (far_ahead_ok s [] now m k1 Hk1 Ha1 Hs ltac:(apply bytes_at_nil)) as H.
  destruct (far_ahead s [] now m k1) as [[|c] k2].
  - destruct H as (Hk2 & Hp2 & _). destruct (extend_stray_ok s l now k2 Hk2 Hl) as [? Hp3].
    split_and!; [done| |done]. unfold same_pos in *. intuition congruence.
  - destruct H as (Hk2 & Hp2 & Hc & Hn). rewrite (same_pos_isn _ _ Hp1) in Hc.
    split_and!; [done|unfold same_pos in *; intuition congruence|].
    intros c' [= <-]. done.
Qed.

Lemma evidence_ok s now m k : ok k ->
  let '(r, k') := evidence s now m k in
  ok k' /\ same_pos k k' /\
  (forall c, r = Some c -> cand_ok (isn k) c /\ oow k' = None /\ anchored k = true).
Proof.
  intros Hk. unfold evidence.
  destruct (anchored k) eqn:Ha; [|done]. cbn [negb].
  case_if; [done|]. set (o := match fin_off k with Some _ => _ | None => _ end).
  case_if; [done|]. case_if.
  - destruct (oow k) as [c|] eqn:Hc; [|done]. case_if; [|done].
    destruct (take_oow_ok k c Hk Hc) as (? & ? & ? & ?). split_and!; [done|done|].
    intros c' [= <-]. done.
  - assert (forall k' : t, next_off k' = next_off k -> next_seq k' = next_seq k ->
      anchored k' = anchored k -> oow k' = oow k -> out_of_window k' = out_of_window k ->
      ok k' /\ same_pos k k' /\ (forall c, None = Some c -> cand_ok (isn k) c /\ oow k' = None /\ anchored k = true))
      as Hf.
    { intros k' E1 E2 E3 E4 E5. split_and!; [|done|done]. destruct Hk as [H1 H2 H3 H4].
      split; rewrite ?E1, ?E3, ?E4, ?E5; unfold isn; rewrite ?E1, ?E2; (done || congruence). }
    rewrite Ha in Hf. repeat case_if; by apply Hf.
Qed.

Lemma fin_ok s now m k : ok k ->
  let '(r, k') := fin s now m k in
  ok k' /\ same_pos k k' /\
  (forall c, r = Some c -> cand_ok (isn k) c /\ oow k' = None /\ anchored k = true).
Proof.
  intros Hk. unfold fin. destruct (anchored k) eqn:Ha; [|done]. cbn [negb].
  case_if; [done|]. match goal with |- context [evidence s now m ?k1] =>
    assert (ok k1 /\ same_pos k k1) as [Hk1 Hp1] end.
  { case_if; (split; [|done]); destruct Hk as [H1 H2 H3 H4]; split; cbn; (done || congruence). }
  match goal with |- context [evidence s now m ?k1] =>
    pose proof (evidence_ok s now m k1 Hk1) as H'; destruct (evidence s now m k1) as [r k2] end.
  destruct H' as (? & ? & Hc). rewrite (same_pos_isn _ _ Hp1) in Hc.
  split_and!; [done|unfold same_pos in *; intuition congruence|intros c Hcc; destruct (Hc c Hcc) as (? & ? & _); done].
Qed.
End provenance.

End TrackFacts.

(** Clients reason by the lemmas above. *)
#[global] Arguments Track.anchor : simpl never.
#[global] Arguments Track.advance_to : simpl never.
#[global] Arguments Track.record_skip : simpl never.
#[global] Arguments Track.drop_stray : simpl never.
#[global] Arguments Track.expire_stray : simpl never.
