(* ===== verification/Reassembler.v ===== *)
(** * The reassembler interface (src/src/reassembler.rs, trait [Reassembler])

    [Reassembler] is the trait: the operations the flow driver calls and
    the counters it reads.  [deliver] is one driver call together with the
    stream cells it hands to the consumer, and [run] a whole session.
    [ReassemblerLaws] is what an implementation promises; the theorems on
    sessions are proved from it and hold for every implementation. *)

From S2P Require Import Prelude Time Flow Cells Chunks Track.
Import TrackFacts.

Inductive SegmentOutcome := Buffered | Passthrough (skip : Z).

Class Reassembler (R : Type) := {
  segment : Z -> list Z -> Timestamp.t -> R -> R;
  segment_into : Z -> list Z -> Timestamp.t -> R -> R * SegmentOutcome;
  set_origin : Z -> R -> R;
  peer_ack : Z -> Timestamp.t -> R -> R;
  fin_seen : Z -> Timestamp.t -> R -> R;
  missing_bytes : Z -> Z -> Timestamp.t -> R -> R;
  drain_into : R -> StreamChunks.t -> R * StreamChunks.t;
  flush_pending : R -> R;
  advance_time : Timestamp.t -> R -> R;
  release : R -> R;
  gap_bytes : R -> Z;
  bytes_dropped_oversize : R -> Z;
  stop_reason : R -> option ReassemblyStop;
  bytes_in_flight : R -> Z;
  current_bytes : R -> Z }.

(** One call of the driver. *)
Inductive Event :=
  | Segment (seq : Z) (payload : list Z) (ts : Timestamp.t)
  | SegmentInto (seq : Z) (payload : list Z) (ts : Timestamp.t)
  | SetOrigin (seq : Z)
  | PeerAck (ack : Z) (ts : Timestamp.t)
  | FinSeen (end_ : Z) (ts : Timestamp.t)
  | Missing (seq len : Z) (ts : Timestamp.t)
  | Drain
  | FlushPending
  | AdvanceTime (now : Timestamp.t)
  | Release.

(** Every byte the event carries was seen on the wire at its sequence
    number. *)
Definition event_ok (wire : Z -> Z -> Prop) (e : Event) : Prop :=
  match e with
  | Segment s p _ | SegmentInto s p _ => seg_ok wire s p
  | Missing _ n _ => 0 <= n
  | _ => True
  end.

Section sessions.
Context {R : Type} `{Reassembler R}.

(** The state after an event and the cells the consumer receives: a
    passed-through tail of the payload, or what a drain moves out. *)
Definition deliver (r : R) (e : Event) : R * list (option Z) :=
  match e with
  | Segment s p t => (segment s p t r, [])
  | SegmentInto s p t =>
      let '(r', o) := segment_into s p t r in
      (r', match o with Passthrough k => data_cells (zdrop k p) | Buffered => [] end)
  | SetOrigin s => (set_origin s r, [])
  | PeerAck a t => (peer_ack a t r, [])
  | FinSeen s t => (fin_seen s t r, [])
  | Missing s n t => (missing_bytes s n t r, [])
  | Drain =>
      let '(r', out) := drain_into r StreamChunks.new in (r', StreamChunks.content out)
  | FlushPending => (flush_pending r, [])
  | AdvanceTime t => (advance_time t r, [])
  | Release => (release r, [])
  end.

Fixpoint run (r : R) (es : list Event) : R * list (option Z) :=
  match es with
  | [] => (r, [])
  | e :: rest =>
      let '(r', d) := deliver r e in
      let '(r'', d') := run r' rest in (r'', d ++ d')
  end.
End sessions.

Class ReassemblerLaws (R : Type) `{Reassembler R} := {
  position : R -> Z;
  origin : R -> Z;
  sound : (Z -> Z -> Prop) -> list (option Z) -> R -> Prop;
  law_step wire d r e : event_ok wire e -> sound wire d r ->
    sound wire (d ++ (deliver r e).2) (deliver r e).1;
  law_prefix wire d r : sound wire d r -> position r <= U64_MAX ->
    cells_at (at_seq wire (origin r)) 0 d /\ zlen d <= position r;
  law_complete wire d r : sound wire d r -> position r <= U64_MAX -> stop_reason r = None ->
    let out := (deliver r Drain).2 in
    zlen (d ++ out) = position r /\ n_missing (d ++ out) = gap_bytes r + bytes_dropped_oversize r }.

(** ** Lemmas *)

Section session_lemmas.
Context {R : Type} `{ReassemblerLaws R}.

Lemma run_cons r e es :
  run r (e :: es) = ((run (deliver r e).1 es).1, (deliver r e).2 ++ (run (deliver r e).1 es).2).
Proof. cbn. destruct (deliver r e) as [r' d]. cbn. by destruct (run r' es). Qed.

Lemma run_app r es fs :
  run r (es ++ fs) = ((run (run r es).1 fs).1, (run r es).2 ++ (run (run r es).1 fs).2).
Proof.
  revert r. induction es as [|e es IH]; intros r.
  - cbn [app run fst snd]. by destruct (run r fs).
  - cbn [app]. rewrite !run_cons, IH. cbn. by rewrite app_assoc.
Qed.

Lemma run_sound wire es : forall d r,
  Forall (event_ok wire) es -> sound wire d r -> sound wire (d ++ (run r es).2) (run r es).1.
Proof.
  induction es as [|e es IH]; intros d r He Hs; [by rewrite app_nil_r|].
  inversion He as [|? ? Hev Hes]; subst. rewrite run_cons. cbn [fst snd]. rewrite app_assoc.
  apply IH; [done|]. by apply law_step.
Qed.

(** What any session delivers is on the wire at the right place. *)
Lemma run_prefix wire r es :
  sound wire [] r -> Forall (event_ok wire) es -> position (run r es).1 <= U64_MAX ->
  cells_at (at_seq wire (origin (run r es).1)) 0 (run r es).2 /\
  zlen (run r es).2 <= position (run r es).1.
Proof. intros Hs He Hp. apply law_prefix; [|done]. by apply (run_sound wire es []). Qed.

(** A drained live session has delivered the whole stream so far. *)
Lemma run_drained wire r es :
  sound wire [] r -> Forall (event_ok wire) es -> position (run r es).1 <= U64_MAX ->
  stop_reason (run r es).1 = None ->
  let d := (run r (es ++ [Drain])).2 in
  zlen d = position (run r es).1 /\
  n_missing d = gap_bytes (run r es).1 + bytes_dropped_oversize (run r es).1.
Proof.
  intros Hs He Hp Hst. cbn zeta. rewrite run_app, run_cons. cbn [run fst snd].
  rewrite app_nil_r. eapply law_complete; [|done|done]. by apply (run_sound wire es []).
Qed.

End session_lemmas.

(** A side on which every call leaves the stop reason and the position
    alone, and hands out at most what was ready. *)
Section stopped.
Context {R : Type} `{Reassembler R} (I : R -> Prop) (ready : R -> list (option Z)) (pos : R -> Z).

Definition inert (r : R) (e : Event) : Prop :=
  let r' := (deliver r e).1 in
  stop_reason r' = stop_reason r /\ pos r' = pos r /\
  ((deliver r e).2 = [] /\ (ready r' = ready r \/ ready r' = []) \/
   (deliver r e).2 = ready r /\ ready r' = []) /\ I r'.

Lemma run_stopped st :
  (forall e r, I r -> stop_reason r = Some st -> inert r e) ->
  forall es r, I r -> stop_reason r = Some st ->
  ((run r es).2 = [] \/ (run r es).2 = ready r) /\
  stop_reason (run r es).1 = Some st /\ pos (run r es).1 = pos r.
Proof.
  intros Hi. induction es as [|e es IH]; intros r Hr Hst; [cbn; auto|].
  assert (run r (e :: es) =
    ((run (deliver r e).1 es).1, (deliver r e).2 ++ (run (deliver r e).1 es).2)) as ->.
  { cbn. destruct (deliver r e) as [r' d]. cbn. by destruct (run r' es). }
  cbn [fst snd]. destruct (Hi e r Hr Hst) as (H1 & H2 & H3 & Hr'). rewrite Hst in H1.
  destruct (IH _ Hr' H1) as (I1 & I2 & I3). split_and!; [|done|congruence].
  destruct H3 as [[-> [E|E]]|[-> E]]; cbn [app]; [by rewrite <- E| |].
  - rewrite E in I1. left. by destruct I1.
  - rewrite E in I1. right. destruct I1 as [->| ->]; by rewrite app_nil_r.
Qed.
End stopped.
