(* ===== verification/Buffered.v ===== *)
(** * The single-slot reassembler (src/src/reassembler.rs, [BufferedReassembler])

    Holds at most one out-of-order segment.  The recursive calls of [feed]
    and [missing] and the loop of [missing] are run with fuel; the facts
    below prove the fuel is never exhausted.  The cast [as u64] of an offset
    is written out only where the offset may be negative.  [on_duplicate], a hook the
    built-in reassemblers leave empty, has no counterpart. *)

From S2P Require Import Prelude Time Flow Cells Chunks Ledger Track Reassembler.

Module BufferedReassembler.
Import Track.

Record t := mk {
  ready : StreamChunks.t;
  track : Track.t;
  rules : StreamRules.t;
  reorder : option Candidate.t;
  dropped_segments : Z;
  gaps : Z;
  gap_bytes : Z;
  ack_confirmed_gaps : Z;
  bytes_dropped_oversize : Z;
  max_buffer : option Z;
  overflow_policy : OverflowPolicy;
  stop : option ReassemblyStop;
  high_watermark : Z;
  high_watermark_threshold_pct : option Z;
  above_threshold : bool;
  high_watermark_crossings : Z;
  retransmits : Z }.
#[global] Instance eta : Eta t := mk_eta (fun r =>
  mk (ready r) (track r) (rules r) (reorder r) (dropped_segments r) (gaps r) (gap_bytes r)
     (ack_confirmed_gaps r) (bytes_dropped_oversize r) (max_buffer r) (overflow_policy r)
     (stop r) (high_watermark r) (high_watermark_threshold_pct r) (above_threshold r)
     (high_watermark_crossings r) (retransmits r)).

Definition new : t :=
  mk StreamChunks.new Track.default StreamRules.default None 0 0 0 0 0 None SlidingWindow None
     0 None false 0 0.

Definition with_max_buffer (n : Z) (r : t) : t := r <| max_buffer := Some n |>.
Definition with_overflow_policy (p : OverflowPolicy) (r : t) : t := r <| overflow_policy := p |>.
Definition clamp (lo hi x : Z) : Z := Z.min hi (Z.max lo x).
Definition with_high_watermark_threshold (pct : Z) (r : t) : t :=
  r <| high_watermark_threshold_pct := Some (clamp 1 100 pct) |>.
Definition with_max_ahead (n : Z) (r : t) : t :=
  r <| rules ::= fun u => u <| StreamRules.max_ahead := n |> |>.
Definition with_ack_grace (d : Z) (r : t) : t :=
  r <| rules ::= fun u => u <| StreamRules.ack_grace := d |> |>.
Definition with_reorder_deadline (d : Z) (r : t) : t :=
  r <| rules ::= fun u => u <| StreamRules.deadline := d |> |>.

Definition take (r : t) : list Z * t :=
  let '(bs, rd) := StreamChunks.take_bytes (ready r) in
  (bs, r <| above_threshold := false |> <| ready := rd |>).
Definition buffered_len (r : t) : Z := StreamChunks.len (ready r).
Definition is_stopped (r : t) : bool := is_some (stop r).

Definition trigger (cap pct : Z) : Z := sat_mul cap pct / 100.

Definition update_watermark (r : t) : t :=
  let len := StreamChunks.len (ready r) in
  let r := if high_watermark r <? len then r <| high_watermark := len |> else r in
  match high_watermark_threshold_pct r, max_buffer r with
  | Some pct, Some cap =>
      if trigger cap pct <=? len then
        if negb (above_threshold r)
        then r <| above_threshold := true |> <| high_watermark_crossings ::= fun n => sat_add n 1 |>
        else r
      else r <| above_threshold := false |>
  | _, _ => r
  end.

Definition note_passthrough (len : Z) (r : t) : t :=
  let r := r <| high_watermark ::= fun h => Z.max h len |> in
  let r :=
    match high_watermark_threshold_pct r, max_buffer r with
    | Some pct, Some cap =>
        if trigger cap pct <=? len
        then r <| high_watermark_crossings ::= fun n => sat_add n 1 |> else r
    | _, _ => r
    end in
  r <| above_threshold := false |>.

Definition append_with_cap (payload : list Z) (r : t) : t :=
  if is_some (stop r) || is_nil payload then r
  else
    match max_buffer r with
    | None => update_watermark (r <| ready ::= StreamChunks.push_data payload |>)
    | Some cap =>
        let projected := StreamChunks.len (ready r) + zlen payload in
        if projected <=? cap
        then update_watermark (r <| ready ::= StreamChunks.push_data payload |>)
        else
          match overflow_policy r with
          | DropFlow =>
              r <| bytes_dropped_oversize ::= Z.add (zlen payload) |>
                <| stop := Some Overflow |> <| reorder := None |> <| track ::= drop_stray |>
          | SlidingWindow =>
              let to_drop := projected - cap in
              let buffered := StreamChunks.len (ready r) in
              update_watermark
                (if buffered <=? to_drop then
                   let extra := sat_sub (zlen payload) cap in
                   r <| bytes_dropped_oversize ::= Z.add buffered |>
                     <| ready ::= StreamChunks.drop_front buffered |>
                     <| bytes_dropped_oversize ::= Z.add extra |>
                     <| ready ::= StreamChunks.push_gap extra |>
                     <| ready ::= StreamChunks.push_data (zdrop extra payload) |>
                 else
                   r <| bytes_dropped_oversize ::= Z.add to_drop |>
                     <| ready ::= StreamChunks.drop_front to_drop |>
                     <| ready ::= StreamChunks.push_data payload |>)
          end
    end.

Definition skip_to (to : Z) (now : Timestamp.t) (r : t) : t :=
  let from := next_off (track r) in
  if to <=? from then r
  else
    let missing := to - from in
    r <| gaps ::= Z.add 1 |> <| gap_bytes ::= Z.add missing |>
      <| track ::= record_skip from to |>
      <| ready ::= StreamChunks.push_gap missing |>
      <| track ::= advance_to to now |>.

Definition deliver_at (o : Z) (data : list Z) (now : Timestamp.t) (r : t) : t :=
  let next := next_off (track r) in
  let end_ := o + zlen data in
  if end_ <=? next then r
  else
    let skip := sat_sub next o in
    append_with_cap (zdrop skip data) (r <| track ::= advance_to end_ now |>).

Definition release_reorder (now : Timestamp.t) (r : t) : t :=
  match reorder r with
  | Some c =>
      deliver_at (Candidate.off c) (Candidate.data c) now
        (skip_to (Candidate.off c) now (r <| reorder := None |>))
  | None => r
  end.

Definition try_reorder (now : Timestamp.t) (r : t) : t :=
  match reorder r with
  | Some c =>
      if Candidate.off c <=? next_off (track r)
      then deliver_at (Candidate.off c) (Candidate.data c) now (r <| reorder := None |>)
      else r
  | None => r
  end.

Definition resync (c : Candidate.t) (now : Timestamp.t) (r : t) : t :=
  let r := release_reorder now r in
  let r := skip_to (Candidate.off c) now r in
  let r := deliver_at (Candidate.off c) (Candidate.data c) now r in
  if is_none (stop r) then skip_to (Candidate.end_ c) now r else r.

Definition check_timers (now : Timestamp.t) (r : t) : t :=
  if is_some (stop r) then r
  else
    let r :=
      match evidence_due (track r) now (StreamRules.ack_grace (rules r)) with
      | Some frontier =>
          match reorder r with
          | Some c =>
              if Candidate.off c <=? frontier
              then release_reorder now (r <| ack_confirmed_gaps ::= Z.add 1 |>) else r
          | None => skip_to frontier now (r <| ack_confirmed_gaps ::= Z.add 1 |>)
          end
      | None => r
      end in
    let r :=
      if is_some_and (fun c => StreamRules.deadline (rules r) <?
                               Timestamp.saturating_sub now (Candidate.ts c)) (reorder r)
      then release_reorder now r else r in
    r <| track ::= expire_stray now (StreamRules.deadline (rules r) * 4) |>.

(** The recursion depth is at most the number of held candidates. *)
Fixpoint feed_fuel (fuel : nat) (seq : Z) (payload : list Z) (now : Timestamp.t) (pass : bool)
    (r : t) : t * SegmentOutcome :=
  match fuel with
  | O => (r, Buffered)
  | S fuel =>
      if is_nil payload || is_some (stop r) then (r, Buffered)
      else
        let r := r <| track ::= anchor seq now |> in
        let start := offset_of (track r) seq in
        let end_ := start + zlen payload in
        let next := next_off (track r) in
        let max_ahead := i64 (StreamRules.max_ahead (rules r)) in
        if max_ahead <? start - next then
          match far_ahead (u64 start) payload now (StreamRules.max_ahead (rules r)) (track r) with
          | (Resync c, k) =>
              feed_fuel fuel seq payload now false (resync c now (r <| track := k |>))
          | (Held, k) => (r <| track := k |>, Buffered)
          end
        else if end_ <=? next then
          let r :=
            if end_ <? next - max_ahead
            then r <| track ::= fun k => k <| out_of_window ::= Z.add 1 |> |>
            else if (0 <=? start) && in_skipped (track r) start end_
            then r <| dropped_segments ::= Z.add 1 |>
            else r <| retransmits ::= Z.add 1 |> in
          (check_timers now r, Buffered)
        else
          let '(r, skip) :=
            if start <? next then (r <| retransmits ::= Z.add 1 |>, next - start) else (r, 0) in
          if next <? start then
            if is_some (reorder r)
            then feed_fuel fuel seq payload now false (release_reorder now r)
            else
              (check_timers now
                 (r <| reorder := Some (Candidate.mk start payload now 0) |>
                    <| track ::= fun k => k <| last_progress := now |> |>), Buffered)
          else
            let len := zlen payload - skip in
            if pass && StreamChunks.is_empty (ready r) && is_none (reorder r)
               && is_none_or (fun cap => len <=? cap) (max_buffer r)
            then (note_passthrough len (r <| track ::= advance_to end_ now |>),
                  Passthrough skip)
            else
              let r := r <| track ::= advance_to end_ now |> in
              let r := append_with_cap (zdrop skip payload) r in
              (check_timers now (try_reorder now r), Buffered)
  end.
Definition feed := feed_fuel 3.
#[global] Arguments feed : simpl never.

Definition segment (seq : Z) (payload : list Z) (now : Timestamp.t) (r : t) : t :=
  (feed seq payload now false r).1.
Definition segment_into (seq : Z) (payload : list Z) (now : Timestamp.t) (r : t)
    : t * SegmentOutcome :=
  feed seq payload now true r.

Definition set_origin (seq : Z) (r : t) : t :=
  r <| track ::= anchor seq Timestamp.default |>.

Definition peer_ack (ack : Z) (now : Timestamp.t) (r : t) : t :=
  if is_some (stop r) then r
  else
    let '(c, k) := evidence (wsub32 ack 1) now (StreamRules.max_ahead (rules r)) (track r) in
    let r := r <| track := k |> in
    let r := match c with Some c => resync c now r | None => r end in
    check_timers now r.

Definition fin_seen (end_ : Z) (now : Timestamp.t) (r : t) : t :=
  if is_some (stop r) then r
  else
    let '(c, k) := fin end_ now (StreamRules.max_ahead (rules r)) (track r) in
    let r := r <| track := k |> in
    match c with Some c => resync c now r | None => r end.

(** [while self.stop.is_none() && self.track.next_off < end]. *)
Fixpoint skip_cut (fuel : nat) (end_ : Z) (now : Timestamp.t) (r : t) : t :=
  match fuel with
  | O => r
  | S fuel =>
      if is_none (stop r) && (next_off (track r) <? end_) then
        let to := match reorder r with Some c => Z.min (Candidate.off c) end_ | None => end_ end in
        skip_cut fuel end_ now (try_reorder now (skip_to to now r))
      else r
  end.

Fixpoint missing_fuel (fuel : nat) (seq len : Z) (now : Timestamp.t) (r : t) : t :=
  match fuel with
  | O => r
  | S fuel =>
      if is_some (stop r) || (len =? 0) then r
      else
        let r := r <| track ::= anchor seq now |> in
        let start := offset_of (track r) seq in
        let end_ := start + len in
        if end_ <=? next_off (track r) then r
        else if i64 (StreamRules.max_ahead (rules r)) <? start - next_off (track r) then
          let '(c, k) := far_missing (u64 start) len now (StreamRules.max_ahead (rules r)) (track r) in
          let r := r <| track := k |> in
          match c with
          | Some c => missing_fuel fuel seq len now (resync c now r)
          | None => check_timers now r
          end
        else if start <=? next_off (track r) then
          check_timers now (skip_cut 3 end_ now r)
        else
          let '(c, k) :=
            evidence (wadd32 seq len) now (StreamRules.max_ahead (rules r)) (track r) in
          let r := r <| track := k |> in
          let r := match c with Some c => resync c now r | None => r end in
          check_timers now r
  end.
Definition missing := missing_fuel 2.
#[global] Arguments missing : simpl never.

Definition drain_into (r : t) (out : StreamChunks.t) : t * StreamChunks.t :=
  let out := StreamChunks.append out (ready r) in
  (r <| above_threshold := false |> <| ready := StreamChunks.new |>,
   match stop r with Some st => StreamChunks.set_stop st out | None => out end).

Definition flush_pending (r : t) : t :=
  if is_some (stop r) then r
  else
    let now := last_progress (track r) in
    let r := release_reorder now r in
    let r :=
      match evidence_frontier (track r) with
      | Some frontier => skip_to frontier now (r <| ack_confirmed_gaps ::= Z.add 1 |>)
      | None => r
      end in
    r <| track ::= drop_stray |>.

Definition advance_time (now : Timestamp.t) (r : t) : t := check_timers now r.

Definition release (r : t) : t :=
  r <| ready ::= StreamChunks.clear |> <| ready ::= StreamChunks.release |>
    <| reorder := None |> <| track ::= drop_stray |> <| stop ::= get_or_insert Memcap |>.

Definition high_watermark_threshold (r : t) : option (Z * Z) :=
  match max_buffer r, high_watermark_threshold_pct r with
  | Some cap, Some pct => Some (cap, pct)
  | _, _ => None
  end.

Definition current_bytes (r : t) : Z :=
  StreamChunks.len (ready r) + Candidate.heap (reorder r) + heap_bytes (track r).

#[global] Instance reassembler : Reassembler t := {
  Reassembler.segment := segment;
  Reassembler.segment_into := segment_into;
  Reassembler.set_origin := set_origin;
  Reassembler.peer_ack := peer_ack;
  Reassembler.fin_seen := fin_seen;
  Reassembler.missing_bytes := missing;
  Reassembler.drain_into := drain_into;
  Reassembler.flush_pending := flush_pending;
  Reassembler.advance_time := advance_time;
  Reassembler.release := release;
  Reassembler.gap_bytes := gap_bytes;
  Reassembler.bytes_dropped_oversize := bytes_dropped_oversize;
  Reassembler.stop_reason := stop;
  Reassembler.bytes_in_flight := buffered_len;
  Reassembler.current_bytes := current_bytes }.
End BufferedReassembler.

(** ** Lemmas *)

Module BufferedFacts.
Import Track TrackFacts StreamChunks StreamChunksFacts BufferedReassembler.

(** A reassembler as its factory hands it out: only the settings differ
    from [new]. *)
Definition fresh (r : t) : Prop :=
  ready r = StreamChunks.new /\ track r = Track.default /\ reorder r = None /\
  gap_bytes r = 0 /\ bytes_dropped_oversize r = 0 /\ stop r = None /\
  above_threshold r = false.

(** Without [pass] nothing is passed through. *)
Lemma feed_buffered fuel : forall seq payload now r r' o,
  feed_fuel fuel seq payload now false r = (r', o) -> o = Buffered.
Proof.
  induction fuel as [|fuel IH]; intros seq payload now r r' o; cbn [feed_fuel andb]; [naive_solver|].
  case_if; [naive_solver|]. cbv zeta. case_if.
  - destruct (far_ahead _ _ _ _ _) as [[|c] k]; [naive_solver|apply IH].
  - case_if; [naive_solver|]. destruct (if _ <? _ then (_, _) else _) as [r2 k].
    case_if; [|naive_solver]. case_if; [apply IH|naive_solver].
Qed.

Section invariant.
Context (wire : Z -> Z -> Prop) (mb : option Z).
Notation P r := (at_seq wire (isn (track r))).

(** [n] is the offset the output has reached; it is the stream
    position except inside [deliver_at]. *)
Record inv_at (d : list (option Z)) (n : Z) (r : t) : Prop := {
  i_track : ok wire (track r);
  i_reorder : forall c, reorder r = Some c ->
    anchored (track r) = true /\ cand_ok wire (isn (track r)) c;
  i_ledger : ledger (P r) d (ready r) n (is_none (stop r))
               (gap_bytes r + bytes_dropped_oversize r);
  i_cap_set : max_buffer r = mb;
  i_cap : forall cap, mb = Some cap -> 0 <= cap /\ len (ready r) <= cap;
  i_above : stop r = None -> above_threshold r = true -> is_empty (ready r) = false }.
Definition inv (d : list (option Z)) (r : t) : Prop := inv_at d (next_off (track r)) r.

(** The watermark touches no other field. *)
Lemma update_watermark_same r : let r' := update_watermark r in
  r' = r <| high_watermark := high_watermark r' |> <| above_threshold := above_threshold r' |>
         <| high_watermark_crossings := high_watermark_crossings r' |>.
Proof.
  unfold update_watermark. cbv zeta. destruct (_ <? _), r; cbn; repeat case_match; try reflexivity.
Qed.

Lemma update_watermark_inv d n r :
  is_empty (ready r) = false -> inv_at d n r -> inv_at d n (update_watermark r).
Proof.
  intros He [H1 H2 H3 H4 H5 H6].
  rewrite update_watermark_same. by split.
Qed.

Lemma push_inv d n payload r :
  inv_at d n r -> stop r = None -> payload <> [] -> bytes_at (P r) n payload ->
  (forall cap, mb = Some cap -> len (ready r) + zlen payload <= cap) ->
  inv_at d (n + zlen payload) (update_watermark (r <| ready ::= push_data payload |>)).
Proof.
  intros [H1 H2 H3 H4 H5 H6] Hst Hn Hb Hc.
  apply update_watermark_inv; [by apply is_empty_push_data|]. rewrite Hst in H3.
  split; cbn; rewrite ?Hst; [done|done|by eapply ledger_data|done| |].
  - intros cap Hcap. destruct (H5 _ Hcap). rewrite len_push_data. split; [done|by apply Hc].
  - intros _ _. by apply is_empty_push_data.
Qed.

(** The two sliding-window branches. *)
Lemma slide_all_inv d n payload r cap :
  inv_at d n r -> stop r = None -> payload <> [] -> bytes_at (P r) n payload ->
  mb = Some cap ->
  let extra := sat_sub (zlen payload) cap in
  inv_at d (n + zlen payload) (update_watermark
    (r <| bytes_dropped_oversize ::= Z.add (len (ready r)) |>
       <| ready ::= drop_front (len (ready r)) |>
       <| bytes_dropped_oversize ::= Z.add extra |>
       <| ready ::= push_gap extra |>
       <| ready ::= push_data (zdrop extra payload) |>)).
Proof.
  intros [H1 H2 H3 H4 H5 H6] Hst Hn Hb Hcap extra. destruct (H5 _ Hcap).
  assert (0 <= extra) as He by (unfold extra, sat_sub; lia).
  assert (forall s, is_empty (push_data (zdrop extra payload) (push_gap extra s)) = false) as Hne.
  { intros s. destruct (Z.eq_dec extra 0) as [->|Hx].
    - rewrite zdrop_0 by lia. by apply is_empty_push_data.
    - by apply is_empty_push_data_l, is_empty_push_gap. }
  apply update_watermark_inv; [apply Hne|].
  pose proof (zlen_nonneg (bytes (ready r))) as Hl0.
  split; cbn; [done|done| |done| |intros; apply Hne].
  - rewrite Hst in *. cbn in *. apply (ledger_drop_front _ _ _ _ _ _ (len (ready r))) in H3; [|done].
    apply (ledger_gap _ _ _ _ _ _ extra) in H3; [|done].
    apply (ledger_data _ _ _ _ _ _ (zdrop extra payload)) in H3; [|done|by apply bytes_at_zdrop].
    assert (extra <= zlen payload) by (unfold extra, sat_sub; pose proof (zlen_nonneg payload); lia).
    replace (n + zlen payload) with (n + extra + zlen (zdrop extra payload)) by zlia.
    unfold len in *. replace (gap_bytes r + _) with
      (gap_bytes r + bytes_dropped_oversize r + zlen (bytes (ready r)) `min` zlen (bytes (ready r)) + extra)
      by lia. done.
  - intros c Hc. simplify_eq. split; [done|]. rewrite len_push_data, len_push_gap, len_drop_front by done.
    unfold len, extra, sat_sub in *. zlia.
Qed.

Lemma append_inv d n payload r :
  inv_at d n r -> bytes_at (P r) n payload ->
  inv_at d (n + zlen payload) (append_with_cap payload r).
Proof.
  intros Hr Hb. pose proof Hr as [H1 H2 H3 H4 H5 H6]. pose proof (zlen_nonneg payload).
  unfold append_with_cap. destruct (stop r) as [st|] eqn:Hst; cbn [is_some orb].
  { split; [done..| |done|done|congruence]. rewrite Hst in *. by eapply ledger_stop; [done|lia]. }
  destruct (is_nil payload) eqn:Hn.
  { apply is_nil_spec in Hn as ->. by rewrite Z.add_0_r. }
  apply is_nil_false in Hn. 
  pose proof (eq_sym H4) as Hmb. destruct (max_buffer r) as [cap|] eqn:Hm;
    [|apply push_inv; try done; congruence].
  destruct (H5 _ Hmb). case_if.
  { apply push_inv; try done. intros c Hc. congruence. }
  destruct (overflow_policy r).
  - case_if; [by apply slide_all_inv|].
    assert (0 <= len (ready r) + zlen payload - cap) as Hd by lia.
    apply update_watermark_inv; [by apply is_empty_push_data|].
    split; cbn; [done|done| |congruence| |intros _ _; by apply is_empty_push_data].
    + rewrite Hst in *. pose proof (ledger_drop_front _ _ _ _ _ _ _ H3 Hd) as H3'.
      apply (ledger_data _ _ _ _ _ _ payload) in H3'; [|done|done].
      rewrite Z.min_l in H3' by lia. replace (gap_bytes r + _) with (gap_bytes r +
        bytes_dropped_oversize r + (len (ready r) + zlen payload - cap)) by lia. done.
    + intros c Hc. simplify_eq. split; [done|]. rewrite len_push_data, len_drop_front by done. lia.
  - destruct (drop_stray_ok wire _ H1) as [Hk1 Hp]. split; cbn; [done|done| |congruence|done|done].
    rewrite (same_pos_isn _ _ Hp). by eapply ledger_stop; [done|lia].
Qed.

Lemma update_watermark_frame r : let r' := update_watermark r in
  track r' = track r /\ reorder r' = reorder r /\ gap_bytes r' = gap_bytes r /\
  rules r' = rules r /\ stop r' = stop r.
Proof. unfold update_watermark. cbv zeta. by repeat case_match. Qed.

(** What [append_with_cap] leaves alone. *)
Lemma append_frame payload r : let r' := append_with_cap payload r in
  (track r' = track r \/ track r' = drop_stray (track r) /\ is_some (stop r') = true) /\
  (reorder r' = reorder r \/ reorder r' = None /\ is_some (stop r') = true) /\
  gap_bytes r' = gap_bytes r /\ rules r' = rules r /\ (is_some (stop r) = true -> r' = r) .
Proof.
  unfold append_with_cap. destruct (is_some (stop r)) eqn:Hst; cbn [orb].
  { repeat split; auto. }
  repeat case_match; try match goal with |- context [update_watermark ?x] =>
    destruct (update_watermark_frame x) as (-> & -> & -> & -> & ->) end;
    cbn; rewrite ?Hst; split_and!; auto; done.
Qed.

Lemma append_pos payload r : next_off (track (append_with_cap payload r)) = next_off (track r) /\
  anchored (track (append_with_cap payload r)) = anchored (track r) /\
  isn (track (append_with_cap payload r)) = isn (track r).
Proof.
  by destruct (append_frame payload r) as ([-> |[-> _]] & _).
Qed.

(** Book-keeping changes of the position record. *)
Lemma set_track_inv d n r k :
  inv_at d n r -> ok wire k -> same_pos (track r) k -> inv_at d n (r <| track := k |>).
Proof.
  intros [H1 H2 H3 H4 H5 H6] Hk Hp. pose proof (same_pos_isn _ _ Hp) as Hi.
  destruct Hp as (_ & _ & Ha). split; cbn; rewrite ?Hi, ?Ha; done.
Qed.

Lemma set_track_inv' d r k :
  inv d r -> ok wire k -> same_pos (track r) k -> inv d (r <| track := k |>).
Proof. intros Hr Hk Hp. unfold inv. cbn. rewrite (proj1 Hp). by apply set_track_inv. Qed.

Lemma advance_inv d n r o now :
  inv_at d n r -> anchored (track r) = true -> inv_at d n (r <| track ::= advance_to o now |>).
Proof.
  intros [H1 H2 H3 H4 H5 H6] Ha. split; cbn; rewrite ?advance_isn; try done.
  - by apply advance_ok.
  - destruct (advance_same o now (track r)) as (-> & _). done.
Qed.

Lemma skip_to_inv d to now r :
  inv d r -> anchored (track r) = true ->
  inv d (skip_to to now r) /\ anchored (track (skip_to to now r)) = true /\
  next_off (track (skip_to to now r)) = Z.max (next_off (track r)) to.
Proof.
  intros Hr Ha. unfold skip_to. case_if; [split_and!; [done|done|lia]|].
  pose proof Hr as [H1 H2 H3 H4 H5 H6]. set (n := next_off (track r)) in *.
  destruct (record_skip_ok wire n to _ H1) as (Hk & Hp & _).
  assert (inv_at d to (r <| gaps ::= Z.add 1 |> <| gap_bytes ::= Z.add (to - n) |>
    <| track ::= record_skip n to |> <| ready ::= push_gap (to - n) |>)) as Hi.
  { pose proof (same_pos_isn _ _ Hp) as Hi. split; cbn; rewrite ?Hi; try done.
    - intros c Hc. destruct (H2 c Hc). destruct Hp as (_ & _ & ->). done.
    - replace to with (n + (to - n)) at 2 by lia.
      replace (to - n + _ + _) with (gap_bytes r + bytes_dropped_oversize r + (to - n)) by lia.
      apply ledger_gap; [done|lia].
    - intros c Hc. rewrite len_push_gap. by apply H5.
    - intros Hst Hab. apply is_empty_push_gap_l. exact (H6 Hst Hab). }
  assert (anchored (record_skip n to (track r)) = true) as Ha' by by destruct Hp as (_ & _ & ->).
  assert (next_off (record_skip n to (track r)) = n) as Hn by apply Hp.
  split_and!; cbn.
  - apply (advance_inv _ _ _ to now) in Hi; [|done]. unfold inv. cbn.
    rewrite advance_next_off, Hn, Z.max_r by lia. done.
  - destruct (advance_same to now (record_skip n to (track r))) as (-> & _). done.
  - by rewrite advance_next_off, Hn.
Qed.

Lemma deliver_at_inv d o bs now r :
  inv d r -> anchored (track r) = true -> bytes_at (P r) o bs -> o <= next_off (track r) ->
  let r' := deliver_at o bs now r in
  inv d r' /\ anchored (track r') = true /\ isn (track r') = isn (track r) /\
  next_off (track r') = Z.max (next_off (track r)) (o + zlen bs).
Proof.
  intros Hr Ha Hb Ho. unfold deliver_at. case_if; [cbn; split_and!; [done|done|done|lia]|].
  set (n := next_off (track r)) in *. set (k := sat_sub n o).
  assert (k = n - o) as Hk by (unfold k, sat_sub; lia).
  destruct (append_pos (zdrop k bs) (r <| track ::= advance_to (o + zlen bs) now |>))
    as (En & Ea & Ei).
  cbn in En, Ea, Ei. rewrite advance_isn in Ei. rewrite advance_next_off in En.
  destruct (advance_same (o + zlen bs) now (track r)) as (Eaa & _). rewrite Eaa in Ea.
  cbv zeta. split_and!; [|by rewrite Ea|done|done].
  unfold inv. rewrite En. fold n. rewrite Z.max_r by lia.
  replace (o + zlen bs) with (n + zlen (zdrop k bs)) at 1 by zlia.
  apply append_inv; [by apply advance_inv|]. cbn. rewrite advance_isn.
  replace n with (o + k) by lia. apply bytes_at_zdrop; [lia|done].
Qed.

(** The postcondition of an operation: the invariant, and motion
    forward only. *)
Definition moved (d : list (option Z)) (r r' : t) : Prop :=
  inv d r' /\ anchored (track r') = anchored (track r) /\ isn (track r') = isn (track r) /\
  next_off (track r) <= next_off (track r').

Lemma skip_to_isn to now r : isn (track (skip_to to now r)) = isn (track r).
Proof.
  unfold skip_to. case_if; [done|]. cbn. rewrite advance_isn, record_skip_same. done.
Qed.

Lemma skip_to_moved d to now r :
  inv d r -> anchored (track r) = true -> moved d r (skip_to to now r).
Proof.
  intros Hr Ha. destruct (skip_to_inv d to now r Hr Ha) as (? & ? & ?).
  split_and!; [done|congruence|apply skip_to_isn|lia].
Qed.

Lemma moved_trans d r r' r'' : moved d r r' -> moved d r' r'' -> moved d r r''.
Proof. unfold moved. intros (? & ? & ? & ?) (? & ? & ? & ?). split_and!; [done|congruence|congruence|lia]. Qed.

Lemma drop_reorder_inv d r : inv d r -> inv d (r <| reorder := None |>).
Proof. intros [H1 H2 H3 H4 H5 H6]. by split. Qed.

(** A candidate delivered after skipping what is in front of it. *)
Lemma skip_deliver_moved d c now r :
  inv d r -> anchored (track r) = true -> cand_ok wire (isn (track r)) c ->
  moved d r (deliver_at (Candidate.off c) (Candidate.data c) now
               (skip_to (Candidate.off c) now r)).
Proof.
  intros Hr Ha (_ & _ & Hc).
  destruct (skip_to_inv d (Candidate.off c) now r Hr Ha) as (Hi & Ha' & Hn).
  pose proof (skip_to_isn (Candidate.off c) now r) as He.
  destruct (deliver_at_inv d (Candidate.off c) (Candidate.data c) now _ Hi Ha'
    ltac:(by rewrite He) ltac:(lia)) as (? & ? & ? & ?).
  split_and!; [done|congruence|congruence|lia].
Qed.

Lemma release_reorder_moved d now r :
  inv d r -> anchored (track r) = true -> moved d r (release_reorder now r).
Proof.
  intros Hr Ha. unfold release_reorder. destruct (reorder r) as [c|] eqn:Hc.
  - destruct (i_reorder _ _ _ Hr c Hc) as [_ Hok].
    exact (skip_deliver_moved d c now _ (drop_reorder_inv d r Hr) Ha Hok).
  - split_and!; [done|done|done|lia].
Qed.

Lemma try_reorder_moved d now r :
  inv d r -> anchored (track r) = true -> moved d r (try_reorder now r).
Proof.
  intros Hr Ha. unfold try_reorder. destruct (reorder r) as [c|] eqn:Hc;
    [|split_and!; [done|done|done|lia]].
  case_if; [|split_and!; [done|done|done|lia]].
  destruct (i_reorder _ _ _ Hr c Hc) as [_ (_ & _ & Hok)].
  destruct (deliver_at_inv d (Candidate.off c) (Candidate.data c) now (r <| reorder := None |>))
    as (? & ? & ? & Hn); [by apply drop_reorder_inv|done|done|done|].
  cbn in Hn. split_and!; [done|congruence|done|lia].
Qed.

Lemma resync_moved d c now r :
  inv d r -> anchored (track r) = true -> cand_ok wire (isn (track r)) c ->
  moved d r (resync c now r).
Proof.
  intros Hr Ha Hc. unfold resync.
  pose proof (release_reorder_moved d now r Hr Ha) as H1. pose proof H1 as (Hi & Ha' & He & _).
  pose proof (skip_deliver_moved d c now _ Hi ltac:(congruence) ltac:(by rewrite He)) as H2.
  rewrite Ha in Ha'. pose proof H2 as (Hi2 & Ha2 & _). rewrite Ha' in Ha2. pose proof (moved_trans _ _ _ _ H1 H2).
  case_if; [|done]. eapply moved_trans; [done|]. by apply skip_to_moved.
Qed.

Lemma moved_refl d r : inv d r -> moved d r r.
Proof. intros. split_and!; [done|done|done|lia]. Qed.

Lemma set_track_moved d r k :
  inv d r -> ok wire k -> same_pos (track r) k -> moved d r (r <| track := k |>).
Proof.
  intros Hr Hk Hp. split; [by apply set_track_inv'|]. cbn. rewrite (same_pos_isn _ _ Hp).
  destruct Hp as (-> & _ & ->). split_and!; [done|done|lia].
Qed.

Lemma count_ack_inv d r : inv d r -> inv d (r <| ack_confirmed_gaps ::= Z.add 1 |>).
Proof. intros [H1 H2 H3 H4 H5 H6]. by split. Qed.

Lemma frontier_anchored d r o : inv d r -> next_off (track r) < evidence_off (track r) ->
  evidence_off (track r) = o -> anchored (track r) = true.
Proof.
  intros Hr Hlt _. destruct (anchored (track r)) eqn:Ha; [done|].
  destruct (ok_new _ _ (i_track _ _ _ Hr) Ha). lia.
Qed.

(** The first deadline: a hole the peer acknowledged. *)
Definition ack_timer (now : Timestamp.t) (r : t) : t :=
  match evidence_due (track r) now (StreamRules.ack_grace (rules r)) with
  | Some frontier =>
      match reorder r with
      | Some c =>
          if Candidate.off c <=? frontier
          then release_reorder now (r <| ack_confirmed_gaps ::= Z.add 1 |>) else r
      | None => skip_to frontier now (r <| ack_confirmed_gaps ::= Z.add 1 |>)
      end
  | None => r
  end.

Lemma ack_timer_moved d now r : inv d r -> moved d r (ack_timer now r).
Proof.
  intros Hr. pose proof (count_ack_inv d r Hr) as Hr'. unfold ack_timer, evidence_due.
  destruct (evidence_since (track r)) as [since|]; [|by apply moved_refl].
  case_if; [|by apply moved_refl].
  assert (anchored (track r) = true) as Ha by by eapply frontier_anchored.
  destruct (reorder r) as [c|].
  - case_if; [|by apply moved_refl]. exact (release_reorder_moved d now _ Hr' Ha).
  - exact (skip_to_moved d _ now _ Hr' Ha).
Qed.

Lemma check_timers_moved d now r : inv d r -> moved d r (check_timers now r).
Proof.
  intros Hr. unfold check_timers. case_if; [by apply moved_refl|]. fold (ack_timer now r).
  pose proof (ack_timer_moved d now r Hr) as H1. pose proof H1 as (Hr1 & _).
  set (r1 := ack_timer now r) in *. cbv zeta.
  set (r2 := if is_some_and _ (reorder r1) then _ else r1).
  assert (moved d r1 r2) as H2.
  { unfold r2. case_if; [|by apply moved_refl]. apply release_reorder_moved; [done|].
    destruct (reorder r1) as [c|] eqn:Hc; [|done]. by destruct (i_reorder _ _ _ Hr1 c Hc). }
  pose proof H2 as (Hr2 & _). eapply moved_trans; [exact H1|]. eapply moved_trans; [exact H2|].
  destruct (expire_stray_ok wire now (StreamRules.deadline (rules r2) * 4) _ (i_track _ _ _ Hr2)).
  by apply set_track_moved.
Qed.

Lemma anchor_inv d seq now r :
  inv d r -> inv d (r <| track ::= anchor seq now |>).
Proof.
  intros Hr. destruct (anchored (track r)) eqn:Ha.
  { unfold anchor. destruct r, track0. cbn in *. by subst. }
  pose proof Hr as [H1 H2 H3 H4 H5 H6]. destruct (ok_new _ _ H1 Ha) as [Hn He].
  destruct (anchor_same seq now (track r)) as (Ea & En & _ & Eo).
  unfold inv. cbn. rewrite En. split; cbn; rewrite ?En, ?Ea; try done.
  - by apply anchor_ok.
  - intros c Hc. destruct (H2 c Hc). congruence.
  - destruct H3 as [? H3]. split; [done|]. intros _. destruct H3 as (Hw & _ & Hl & Hlive);
      [by rewrite Hn|].
    split_and!; [done| |done|done]. rewrite Hn in Hl.
    assert (d ++ content (ready r) = []) as ->.
    { apply zlen_zero. pose proof (zlen_nonneg (d ++ content (ready r))). lia. }
    apply cells_at_nil.
Qed.

Definition outcome_cells (payload : list Z) (o : SegmentOutcome) : list (option Z) :=
  match o with Passthrough k => data_cells (zdrop k payload) | Buffered => [] end.

(** Counter updates. *)
Lemma retransmits_inv d r : inv d r -> inv d (r <| retransmits ::= Z.add 1 |>).
Proof. intros [H1 H2 H3 H4 H5 H6]. by split. Qed.
Lemma dropped_inv d r : inv d r -> inv d (r <| dropped_segments ::= Z.add 1 |>).
Proof. intros [H1 H2 H3 H4 H5 H6]. by split. Qed.
Lemma out_of_window_inv d r :
  inv d r -> inv d (r <| track ::= fun k => k <| out_of_window ::= Z.add 1 |> |>).
Proof.
  intros Hr. apply (set_track_inv' d r (track r <| out_of_window ::= Z.add 1 |>)); [done| |done].
  destruct (i_track _ _ _ Hr) as [T1 T2 T3 T4]. split; cbn; [done|done|lia|].
  intros c Hc. destruct (T4 c Hc) as (? & ? & ?). split_and!; [done|done|lia].
Qed.

Lemma note_passthrough_same n r : let r' := note_passthrough n r in
  r' = r <| high_watermark := high_watermark r' |> <| above_threshold := false |>
         <| high_watermark_crossings := high_watermark_crossings r' |>.
Proof. unfold note_passthrough. destruct r. cbn. by repeat case_match. Qed.

(** The in-order branch. *)
Lemma in_order_inv d payload k e now pass r :
  inv d r -> anchored (track r) = true -> stop r = None ->
  let n := next_off (track r) in
  bytes_at (P r) n (zdrop k payload) -> e = n + zlen (zdrop k payload) -> n <= e ->
  let '(r', o) :=
    if pass && is_empty (ready r) && is_none (reorder r)
       && is_none_or (fun cap => zlen payload - k <=? cap) (max_buffer r)
    then (note_passthrough (zlen payload - k) (r <| track ::= advance_to e now |>), Passthrough k)
    else (check_timers now (try_reorder now (append_with_cap (zdrop k payload)
            (r <| track ::= advance_to e now |>))), Buffered) in
  inv (d ++ outcome_cells payload o) r' /\ isn (track r') = isn (track r).
Proof.
  intros Hr Ha Hst n Hb He Hle.
  pose proof (advance_inv d n r e now Hr Ha) as Hi.
  destruct (advance_same e now (track r)) as (Eaa & _). rewrite Ha in Eaa.
  assert (next_off (advance_to e now (track r)) = e) as Hn.
  { rewrite advance_next_off. fold n. lia. }
  case_if.
  - zb. rewrite note_passthrough_same. cbn [outcome_cells].
    destruct Hi as [T1 T2 T3 T4 T5 T6]. split; [|cbn; by rewrite advance_isn].
    unfold inv. cbn. rewrite Hn. split; cbn in *; try done.
    rewrite Hst, He in *. apply ledger_direct; try done. by rewrite advance_isn.
  - cbn [outcome_cells]. rewrite app_nil_r.
    set (r0 := r <| track ::= advance_to e now |>) in *.
    destruct (append_pos (zdrop k payload) r0) as (E1 & E2 & E3).
    assert (inv d (append_with_cap (zdrop k payload) r0)) as H1.
    { assert (next_off (track r0) = n + zlen (zdrop k payload)) as En by (unfold r0; cbn; lia).
      unfold inv. rewrite E1, En. apply append_inv; [done|]. unfold r0. cbn. by rewrite advance_isn. }
    destruct (try_reorder_moved d now _ H1 ltac:(by rewrite E2)) as (H2 & _ & I2 & _).
    destruct (check_timers_moved d now _ H2) as (H3 & _ & I3 & _).
    split; [done|]. rewrite I3, I2, E3. unfold r0. cbn. by rewrite advance_isn.
Qed.

Lemma feed_inv fuel : forall seq payload now pass d r,
  inv d r -> seg_ok wire seq payload ->
  let '(r', o) := feed_fuel fuel seq payload now pass r in
  inv (d ++ outcome_cells payload o) r'.
Proof.
  induction fuel as [|fuel IH]; intros seq payload now pass d r Hr0 Hs; cbn [feed_fuel];
    [by rewrite app_nil_r|].
  destruct (is_nil payload || is_some (stop r)) eqn:Hskip; [by rewrite app_nil_r|]. zb.
  pose proof (anchor_inv d seq now r Hr0) as Hr.
  assert (anchored (anchor seq now (track r)) = true) as Ha by apply anchor_same.
  change (stop r) with (stop (r <| track ::= anchor seq now |>)) in *.
  change (anchored (track (r <| track ::= anchor seq now |>)) = true) in Ha.
  set (r1 := r <| track ::= anchor seq now |>) in *. clearbody r1. clear r Hr0. cbv zeta.
  set (start := offset_of (track r1) seq).
  pose proof (seg_ok_at wire (track r1) seq payload Hs) as Hb. fold start in Hb.
  destruct (stop r1) eqn:Hst; [done|]. pose proof (ok_pos _ _ (i_track _ _ _ Hr)) as Hpos.
  case_if; [|case_if; [|destruct (if start <? _ then _ else _) as [r2 k] eqn:Hk; case_if]].
  - pose proof (far_ahead_ok wire (u64 start) payload now (StreamRules.max_ahead (rules r1)) _
      (i_track _ _ _ Hr) Ha ltac:(apply Z.mod_pos_bound; lia) ltac:(by apply bytes_at_u64)) as Hf.
    destruct (far_ahead _ _ _ _ _) as [[|c] kk]; destruct Hf as (Hk & Hp & Hc).
    + rewrite app_nil_r. by apply set_track_inv'.
    + apply IH; [|done]. destruct Hc as [Hc _].
      apply resync_moved; [by apply set_track_inv'| |].
      * cbn. by destruct Hp as (_ & _ & ->).
      * cbn. by rewrite (same_pos_isn _ _ Hp).
  - rewrite app_nil_r. apply check_timers_moved. case_if; [by apply out_of_window_inv|].
    case_if; [by apply dropped_inv|by apply retransmits_inv].
  - case_if.
    + apply IH; [|done]. apply release_reorder_moved; [|].
      * destruct (start <? _); simplify_eq; [by apply retransmits_inv|done].
      * destruct (start <? _); by simplify_eq.
    + rewrite app_nil_r. apply check_timers_moved.
      destruct (Z.ltb_spec start (next_off (track r1))); simplify_eq; [lia|].
      pose proof Hr as [T1 T2 T3 T4 T5 T6]. destruct T1 as [U1 U2 U3 U4].
      split; cbn; try done. intros c [= <-]. split; [done|]. split_and!; [cbn; lia|done|done].
  - assert (k = next_off (track r1) - start /\ inv d r2 /\ track r2 = track r1 /\ stop r2 = None /\
      max_buffer r2 = max_buffer r1 /\ ready r2 = ready r1 /\ reorder r2 = reorder r1)
      as (-> & Hr2 & Et & Est & _ & _ & _).
    { destruct (Z.ltb_spec start (next_off (track r1))); simplify_eq;
        split_and!; try done; [by apply retransmits_inv|lia]. }
    assert (bytes_at (P r2) (next_off (track r2)) (zdrop (next_off (track r1) - start) payload)) as Hb2.
    { rewrite Et. replace (next_off (track r1)) with (start + (next_off (track r1) - start)) at 1 by lia.
      by apply bytes_at_zdrop; [lia|]. }
    pose proof (in_order_inv d payload (next_off (track r1) - start) (start + zlen payload) now pass r2
      Hr2 ltac:(by rewrite Et) Est Hb2 ltac:(rewrite Et; zlia) ltac:(rewrite Et; lia)) as Hf.
    match type of Hf with let '(_, _) := ?x in _ => destruct x as [r' o] end. apply Hf.
Qed.

Lemma resync_opt_inv d c now k r :
  inv d r -> ok wire k -> same_pos (track r) k ->
  (forall c', c = Some c' -> cand_ok wire (isn (track r)) c' /\ anchored (track r) = true) ->
  inv d (match c with Some c => resync c now (r <| track := k |>)
                    | None => r <| track := k |> end).
Proof.
  intros Hr Hk Hp Hc. pose proof (set_track_inv' d r k Hr Hk Hp) as Hi.
  destruct c as [c|]; [|done]. destruct (Hc c eq_refl) as [Hok Ha].
  apply resync_moved; [done| |]; cbn; [by destruct Hp as (_ & _ & ->)|].
  by rewrite (same_pos_isn _ _ Hp).
Qed.

Lemma peer_ack_inv d ack now r : inv d r -> inv d (peer_ack ack now r).
Proof.
  intros Hr. unfold peer_ack. case_if; [done|].
  pose proof (evidence_ok wire (wsub32 ack 1) now (StreamRules.max_ahead (rules r)) _
    (i_track _ _ _ Hr)) as He.
  destruct (evidence _ _ _ _) as [c k]. destruct He as (Hk & Hp & Hc).
  apply check_timers_moved. apply resync_opt_inv; [done..|]. intros c' Hc'. destruct (Hc _ Hc') as (? & _ & ?). done.
Qed.

Lemma fin_seen_inv d s now r : inv d r -> inv d (fin_seen s now r).
Proof.
  intros Hr. unfold fin_seen. case_if; [done|].
  pose proof (fin_ok wire s now (StreamRules.max_ahead (rules r)) _ (i_track _ _ _ Hr)) as He.
  destruct (fin _ _ _ _) as [c k]. destruct He as (Hk & Hp & Hc).
  apply resync_opt_inv; [done..|]. intros c' Hc'. destruct (Hc _ Hc') as (? & _ & ?). done.
Qed.

Lemma skip_cut_moved fuel d e now : forall r,
  inv d r -> anchored (track r) = true -> moved d r (skip_cut fuel e now r).
Proof.
  induction fuel as [|fuel IH]; intros r Hr Ha; cbn [skip_cut]; [by apply moved_refl|].
  case_if; [|by apply moved_refl]. set (to := match reorder r with Some _ => _ | None => _ end).
  pose proof (skip_to_moved d to now r Hr Ha) as H1. pose proof H1 as (Hi1 & Ha1 & _).
  rewrite Ha in Ha1. pose proof (try_reorder_moved d now _ Hi1 Ha1) as H2.
  pose proof H2 as (Hi2 & Ha2 & _). eapply moved_trans; [exact H1|].
  eapply moved_trans; [exact H2|]. apply IH; [done|congruence].
Qed.

Lemma missing_inv fuel : forall d s n now r,
  inv d r -> 0 <= n -> inv d (missing_fuel fuel s n now r).
Proof.
  induction fuel as [|fuel IH]; intros d s n now r Hr0 Hn; cbn [missing_fuel]; [done|].
  case_if; [done|]. pose proof (anchor_inv d s now r Hr0) as Hr.
  assert (anchored (track (r <| track ::= anchor s now |>)) = true) as Ha by apply anchor_same.
  set (r1 := r <| track ::= anchor s now |>) in *. clearbody r1. cbv zeta.
  case_if; [done|]. case_if; [|case_if].
  - pose proof (far_missing_ok wire (u64 (offset_of (track r1) s)) n now
      (StreamRules.max_ahead (rules r1)) _ (i_track _ _ _ Hr) Ha
      ltac:(apply Z.mod_pos_bound; lia) Hn) as Hf.
    destruct (far_missing _ _ _ _ _) as [c k]. destruct Hf as (Hk & Hp & Hc).
    pose proof (resync_opt_inv d c now k r1 Hr Hk Hp) as Hi.
    destruct c as [c|].
    + apply IH; [|done]. apply Hi. intros c' Hc'. split; [by apply Hc|done].
    + apply check_timers_moved. by apply Hi.
  - apply check_timers_moved. by apply skip_cut_moved.
  - pose proof (evidence_ok wire (wadd32 s n) now (StreamRules.max_ahead (rules r1)) _
      (i_track _ _ _ Hr)) as He.
    destruct (evidence _ _ _ _) as [c k]. destruct He as (Hk & Hp & Hc).
    apply check_timers_moved. apply resync_opt_inv; [done..|].
    intros c' Hc'. destruct (Hc _ Hc') as (? & _ & ?). done.
Qed.

Lemma flush_inv d r : inv d r -> inv d (flush_pending r).
Proof.
  intros Hr. unfold flush_pending. case_if; [done|]. set (now := last_progress (track r)).
  assert (inv d (release_reorder now r)) as H1.
  { destruct (reorder r) as [c|] eqn:Hc.
    - apply release_reorder_moved; [done|]. by destruct (i_reorder _ _ _ Hr c Hc).
    - unfold release_reorder. by rewrite Hc. }
  set (r1 := release_reorder now r) in *. cbv zeta.
  set (r2 := match evidence_frontier _ with Some _ => _ | None => _ end).
  assert (inv d r2) as H2.
  { unfold r2, evidence_frontier. case_if; [|done].
    pose proof (count_ack_inv d r1 H1) as Hc.
    refine (proj1 (skip_to_moved d _ now _ Hc _)). by eapply (frontier_anchored d r1). }
  destruct (drop_stray_ok wire _ (i_track _ _ _ H2)) as [Hk Hp]. by apply set_track_inv'.
Qed.

Lemma release_inv d r : inv d r -> inv d (release r).
Proof.
  intros Hr. destruct (drop_stray_ok wire _ (i_track _ _ _ Hr)) as [Hk Hp].
  pose proof (same_pos_isn _ _ Hp) as Hi. destruct Hr as [H1 H2 H3 H4 H5 H6].
  unfold inv, release. split; cbn; try done.
  - replace (is_none (get_or_insert Memcap (stop r))) with false by by destruct (stop r).
    eapply ledger_clear. exact H3.
  - intros cap Hc. destruct (H5 cap Hc). done.
  - by destruct (stop r).
Qed.

Lemma drain_inv d r : inv d r ->
  let '(r', out) := drain_into r StreamChunks.new in
  inv (d ++ content out) r' /\ content out = content (ready r).
Proof.
  intros [H1 H2 H3 H4 H5 H6]. unfold drain_into. cbv zeta.
  assert (content match stop r with
    | Some st => set_stop st (append StreamChunks.new (ready r))
    | None => append StreamChunks.new (ready r) end = content (ready r)) as E.
  { transitivity (content (append StreamChunks.new (ready r))); [by destruct (stop r)|].
    unfold append. cbn. by destruct (StreamChunks.stop (ready r)). }
  rewrite E. split; [|done]. unfold inv. split; cbn; try done.
  - by apply ledger_drain.
  - intros cap Hc. destruct (H5 cap Hc). done.
Qed.

(** Every driver call preserves the invariant. *)
Lemma deliver_inv d r e : event_ok wire e -> inv d r ->
  inv (d ++ (deliver r e).2) (deliver r e).1.
Proof.
  intros He Hr. destruct e; cbn in *; rewrite ?app_nil_r.
  - pose proof (feed_inv 3 seq payload ts false d r Hr He) as H.
    unfold BufferedReassembler.segment, feed in *.
    destruct (feed_fuel 3 seq payload ts false r) as [r' o] eqn:E.
    apply feed_buffered in E as ->. by rewrite app_nil_r in H.
  - pose proof (feed_inv 3 seq payload ts true d r Hr He) as H.
    unfold BufferedReassembler.segment_into, feed in *.
    destruct (feed_fuel 3 seq payload ts true r) as [r' o]. by destruct o.
  - by apply anchor_inv.
  - by apply peer_ack_inv.
  - by apply fin_seen_inv.
  - by apply missing_inv.
  - pose proof (drain_inv d r Hr) as H. exact (proj1 H).
  - by apply flush_inv.
  - by apply check_timers_moved.
  - by apply release_inv.
Qed.

Lemma fresh_inv r : fresh r -> max_buffer r = mb -> (forall cap, mb = Some cap -> 0 <= cap) ->
  inv [] r.
Proof.
  intros (E1 & E2 & E3 & E4 & E5 & E6 & E7) Hm Hc. unfold inv. rewrite E2.
  split; rewrite ?E1, ?E2, ?E3, ?E4, ?E5, ?E6, ?E7; try done.
  - intros cap Hcap. split; [by apply Hc|]. by apply Hc.
Qed.
End invariant.

#[global] Program Instance laws : ReassemblerLaws BufferedReassembler.t := {
  position r := next_off (track r);
  origin r := isn (track r);
  sound wire d r := exists mb, inv wire mb d r }.
Next Obligation. intros wire d r e He (mb & Hr). exists mb. by apply deliver_inv. Qed.
Next Obligation.
  intros wire d r (mb & Hr) Hp. destruct (i_ledger _ _ _ _ _ Hr) as [_ H].
  destruct (H Hp) as (_ & Hc & Hl & _). apply cells_at_app in Hc as [Hc _].
  split; [done|]. rewrite zlen_app in Hl. zlen_facts. lia.
Qed.
Next Obligation.
  intros wire d r (mb & Hr) Hp Hst. cbn in Hst |- *.
  pose proof (drain_inv wire mb d r Hr) as [_ E]. destruct (i_ledger _ _ _ _ _ Hr) as [_ H].
  destruct (H Hp) as (_ & _ & _ & Hl). rewrite Hst in Hl. specialize (Hl eq_refl).
  rewrite E. done.
Qed.

(** ** Fuel *)

(** No operation of the output path creates a candidate. *)
Definition shrinks (r r' : t) : Prop :=
  (oow (track r') = oow (track r) \/ oow (track r') = None) /\
  (reorder r' = reorder r \/ reorder r' = None).

Lemma shrinks_refl r : shrinks r r.
Proof. split; auto. Qed.

Lemma shrinks_trans r r' r'' : shrinks r r' -> shrinks r' r'' -> shrinks r r''.
Proof. unfold shrinks. intros [[->| ->] [->| ->]] [[->| ->] [->| ->]]; auto. Qed.

Lemma shrinks_skip_to to now r : shrinks r (skip_to to now r).
Proof.
  unfold skip_to. case_if; [apply shrinks_refl|]. split; [left|by left]. cbn.
  destruct (advance_same to now (record_skip (next_off (track r)) to (track r))) as (_ & -> & _).
  by rewrite record_skip_same.
Qed.

Lemma shrinks_append bs r : shrinks r (append_with_cap bs r).
Proof.
  destruct (append_frame bs r) as ([E|[E _]] & [Er|[Er _]] & _); split; rewrite ?E, ?Er; auto.
Qed.

Lemma shrinks_deliver_at o bs now r : shrinks r (deliver_at o bs now r).
Proof.
  unfold deliver_at. case_if; [apply shrinks_refl|].
  eapply shrinks_trans; [|apply shrinks_append]. split; [left|by left]. cbn.
  by destruct (advance_same (o + zlen bs) now (track r)) as (_ & -> & _).
Qed.

Lemma release_reorder_empties now r :
  shrinks r (release_reorder now r) /\ reorder (release_reorder now r) = None.
Proof.
  unfold release_reorder. destruct (reorder r) as [c|] eqn:Hc; [|by split; [apply shrinks_refl|]].
  set (r0 := r <| reorder := None |>).
  assert (shrinks r0 (deliver_at (Candidate.off c) (Candidate.data c) now
                        (skip_to (Candidate.off c) now r0))) as [H1 H2].
  { eapply shrinks_trans; [apply shrinks_skip_to|apply shrinks_deliver_at]. }
  split; [split; [done|]|]; destruct H2 as [-> | ->]; auto.
Qed.

Lemma resync_empties c now r :
  shrinks r (resync c now r) /\ reorder (resync c now r) = None.
Proof.
  unfold resync. destruct (release_reorder_empties now r) as [H1 H2].
  set (r1 := release_reorder now r) in *.
  assert (shrinks r1 (deliver_at (Candidate.off c) (Candidate.data c) now
                        (skip_to (Candidate.off c) now r1))) as H3.
  { eapply shrinks_trans; [apply shrinks_skip_to|apply shrinks_deliver_at]. }
  cbv zeta. set (r2 := deliver_at _ _ _ _) in *.
  assert (shrinks r1 (if is_none (stop r2) then skip_to (Candidate.end_ c) now r2 else r2)) as H4.
  { case_if; [|done]. eapply shrinks_trans; [done|apply shrinks_skip_to]. }
  split; [by eapply shrinks_trans|]. destruct H4 as [_ [-> | ->]]; auto.
Qed.

(** How many candidates are held: the depth of [feed]'s recursion. *)
Definition held (r : t) : nat :=
  ((if is_some (oow (track r)) then 1 else 0) + (if is_some (reorder r) then 1 else 0))%nat.

Lemma held_shrinks r r' : shrinks r r' -> (held r' <= held r)%nat.
Proof.
  unfold shrinks, held. intros [[-> | ->] [-> | ->]]; cbn;
    destruct (oow (track r)), (reorder r); cbn; lia.
Qed.

Lemma far_ahead_oow o bs now m k :
  match far_ahead o bs now m k with
  | (Resync _, k') => is_some (oow k) = true /\ oow k' = None
  | (Held, _) => True
  end.
Proof. unfold far_ahead. destruct (oow k); [|done]. by case_if. Qed.

Lemma feed_enough f1 : forall f2 seq payload now pass r,
  (held r < f1)%nat -> (held r < f2)%nat ->
  feed_fuel f1 seq payload now pass r = feed_fuel f2 seq payload now pass r.
Proof.
  induction f1 as [|f1 IH]; intros [|f2] seq payload now pass r0 H1 H2; try lia.
  cbn [feed_fuel]. case_if; [done|].
  assert (held (r0 <| track ::= anchor seq now |>) = held r0) as Hh.
  { unfold held. cbn. by destruct (anchor_same seq now (track r0)) as (_ & _ & _ & ->). }
  rewrite <- Hh in *. set (r := r0 <| track ::= anchor seq now |>) in *. clearbody r. cbv zeta.
  case_if.
  - pose proof (far_ahead_oow (u64 (offset_of (track r) seq)) payload now
      (StreamRules.max_ahead (rules r)) (track r)) as Hf.
    destruct (far_ahead _ _ _ _ _) as [[|c] k]; [done|]. destruct Hf as [Ho Hk].
    assert (held (resync c now (r <| track := k |>)) < held r)%nat as Hd.
    { destruct (resync_empties c now (r <| track := k |>)) as [[[E|E] _] Er]; unfold held;
        rewrite E, Er, Ho; cbn; rewrite ?Hk; cbn; lia. }
    apply IH; lia.
  - case_if; [done|]. destruct (if _ <? _ then (_, _) else _) as [r2 k] eqn:E.
    case_if; [|done]. destruct (is_some (reorder r2)) eqn:Hro; [|done].
    assert (held r2 = held r) as Hr2 by (destruct (_ <? _); by simplify_eq).
    destruct (release_reorder_empties now r2) as [[Ho _] Er].
    assert (held (release_reorder now r2) < held r2)%nat as Hd.
    { unfold held. rewrite Er, Hro. destruct Ho as [-> | ->], (oow (track r2)); cbn; lia. }
    apply IH; lia.
Qed.

Lemma skip_to_next to now r :
  next_off (track (skip_to to now r)) = Z.max (next_off (track r)) to.
Proof.
  unfold skip_to. case_if; [lia|]. cbn. rewrite advance_next_off, record_skip_same. done.
Qed.

Lemma deliver_at_next o bs now r :
  next_off (track (deliver_at o bs now r)) = Z.max (next_off (track r)) (o + zlen bs).
Proof.
  unfold deliver_at. case_if; [lia|].
  destruct (append_pos (zdrop (sat_sub (next_off (track r)) o) bs)
    (r <| track ::= advance_to (o + zlen bs) now |>)) as (-> & _). cbn. apply advance_next_off.
Qed.

Lemma try_reorder_next now r :
  next_off (track r) <= next_off (track (try_reorder now r)) /\
  (forall c, reorder (try_reorder now r) = Some c ->
     reorder r = Some c /\ next_off (track r) < Candidate.off c).
Proof.
  unfold try_reorder. destruct (reorder r) as [c|] eqn:Hc; [|rewrite Hc; split; [lia|done]].
  case_if.
  - rewrite deliver_at_next. cbn. split; [lia|]. intros c'.
    destruct (shrinks_deliver_at (Candidate.off c) (Candidate.data c) now (r <| reorder := None |>))
      as [_ [-> | ->]]; done.
  - split; [lia|]. rewrite Hc. intros c' [= <-]. done.
Qed.

(** The loop of [missing] leaves with its exit condition. *)
Lemma skip_cut_exit e now r :
  let r' := skip_cut 3 e now r in stop r' <> None \/ e <= next_off (track r').
Proof.
  assert (forall n r, (n = 0%nat -> e <= next_off (track r)) ->
    (n = 1%nat -> reorder r = None \/ e <= next_off (track r)) -> (n < 3)%nat ->
    let r' := skip_cut n e now r in stop r' <> None \/ e <= next_off (track r')) as H.
  { clear r. induction n as [|n IH]; intros r H0 H1 Hn; cbn [skip_cut]; [right; auto|].
    case_if; cycle 1.
    { apply andb_false_iff in Heqb as [Hs|Hs]; [left|right; by zb].
      intros E. by rewrite E in Hs. }
    zb. set (to := match reorder r with Some _ => _ | None => _ end).
    pose proof (skip_to_next to now r) as E1.
    destruct (try_reorder_next now (skip_to to now r)) as [E2 E3].
    destruct (shrinks_skip_to to now r) as [_ Hsk].
    assert (forall c, reorder (try_reorder now (skip_to to now r)) = Some c ->
      e <= next_off (track (try_reorder now (skip_to to now r)))) as Hro.
    { intros c Hc. destruct (E3 c Hc) as [Hc' Hlt]. destruct Hsk as [Hsk|Hsk]; [|congruence].
      assert (to = Z.min (Candidate.off c) e) as Hto by (unfold to; rewrite <- Hsk, Hc'; done). lia. }
    apply IH; [|intros _|lia].
    - intros ->. destruct (H1 eq_refl) as [Hn'|?]; [|lia].
      assert (to = e) as Hto by (unfold to; by rewrite Hn'). lia.
    - destruct (reorder (try_reorder _ _)) as [c|]; [right; by eapply Hro|by left]. }
  change (skip_cut 3 e now r) with (if is_none (stop r) && (next_off (track r) <? e) then
    skip_cut 2 e now (try_reorder now (skip_to (match reorder r with Some c =>
      Z.min (Candidate.off c) e | None => e end) now r)) else r). cbv zeta.
  case_if; [apply H; lia|]. apply andb_false_iff in Heqb as [Hs|Hs]; [left|right; by zb].
  intros E. by rewrite E in Hs.
Qed.

Lemma extend_stray_none s n now k : oow k = None -> extend_stray s n now k = (false, k).
Proof. unfold extend_stray. by intros ->. Qed.

Lemma far_missing_oow s n now m k :
  match far_missing s n now m k with
  | (Some _, k') => is_some (oow k) = true /\ oow k' = None
  | (None, _) => True
  end.
Proof.
  unfold far_missing. destruct (extend_stray s n now k) as [e k1] eqn:E.
  destruct e; [done|]. pose proof (far_ahead_oow s [] now m k1) as H.
  destruct (far_ahead s [] now m k1) as [[|c] k2]; [done|].
  assert (k1 = k) as -> by (unfold extend_stray in E; destruct (oow k); [destruct (_ && _)|]; by simplify_eq).
  done.
Qed.

Lemma missing_enough f1 : forall f2 s n now r,
  ((if is_some (oow (track r)) then 1 else 0) < f1)%nat ->
  ((if is_some (oow (track r)) then 1 else 0) < f2)%nat ->
  missing_fuel f1 s n now r = missing_fuel f2 s n now r.
Proof.
  induction f1 as [|f1 IH]; intros [|f2] s n now r0 H1 H2; try lia.
  cbn [missing_fuel]. case_if; [done|].
  assert (oow (track (r0 <| track ::= anchor s now |>)) = oow (track r0)) as Hh by apply anchor_same.
  rewrite <- Hh in *. set (r := r0 <| track ::= anchor s now |>) in *. clearbody r. cbv zeta.
  case_if; [done|]. case_if; [|done].
  pose proof (far_missing_oow (u64 (offset_of (track r) s)) n now
      (StreamRules.max_ahead (rules r)) (track r)) as Hf.
  destruct (far_missing _ _ _ _ _) as [[c|] k]; [|done]. destruct Hf as [Ho Hk].
  destruct (resync_empties c now (r <| track := k |>)) as [[E _] _]. cbn in E. rewrite Hk in E.
  assert (oow (track (resync c now (r <| track := k |>))) = None) as E' by (destruct E; done).
  rewrite Ho in H1, H2. apply IH; rewrite E'; cbn; lia.
Qed.
End BufferedFacts.

(** ** Properties *)

Module BufferedProps.
Import Track TrackFacts StreamChunks StreamChunksFacts BufferedReassembler BufferedFacts.

Lemma fresh_sound wire r : fresh r -> (forall cap, max_buffer r = Some cap -> 0 <= cap) ->
  sound wire [] r.
Proof. intros Hf Hc. exists (max_buffer r). by apply fresh_inv. Qed.

Lemma run_inv wire mb es : forall d r, Forall (event_ok wire) es -> inv wire mb d r ->
  inv wire mb (d ++ (run r es).2) (run r es).1.
Proof.
  induction es as [|e es IH]; intros d r He Hr; [by rewrite app_nil_r|].
  inversion He; subst. rewrite run_cons. cbn [fst snd]. rewrite app_assoc.
  apply IH; [done|]. by apply deliver_inv.
Qed.

(** C3: for any session of a fresh [BufferedReassembler] fed bytes that
    were on the wire at their sequence numbers, every byte handed to the
    consumer is the wire byte of its stream offset; and while the side is
    live, draining it has delivered exactly the stream up to its position,
    with [gap_bytes + bytes_dropped_oversize] cells missing. *)
Theorem buffered_session_sound wire r es :
  fresh r -> (forall cap, max_buffer r = Some cap -> 0 <= cap) ->
  Forall (event_ok wire) es -> next_off (track (run r es).1) <= U64_MAX ->
  cells_at (at_seq wire (isn (track (run r es).1))) 0 (run r es).2 /\
  (stop (run r es).1 = None ->
   let d := (run r (es ++ [Drain])).2 in
   zlen d = next_off (track (run r es).1) /\
   n_missing d = gap_bytes (run r es).1 + bytes_dropped_oversize (run r es).1).
Proof.
  intros Hf Hc He Hp. pose proof (fresh_sound wire r Hf Hc) as Hs. split.
  - by apply (run_prefix wire r es Hs He Hp).
  - intros Hst. exact (run_drained wire r es Hs He Hp Hst).
Qed.

Definition ts0 : Timestamp.t := Timestamp.mk 1 0.
(** A hole at offset 3, skipped when a second segment arrives behind it. *)
Definition demo : list Event :=
  [SetOrigin 100; Segment 100 [1; 2; 3] ts0; Segment 105 [6; 7] ts0; Segment 109 [10] ts0;
   Drain; Segment 107 [8; 9] ts0].
Definition demo_wire (s b : Z) : Prop := b = s - 99.

Lemma buffered_session_sound_witness :
  (run new (demo ++ [Drain])).2 =
    [Some 1; Some 2; Some 3; None; None; Some 6; Some 7; Some 8; Some 9; Some 10] /\
  n_missing (run new (demo ++ [Drain])).2 = 2.
Proof.
  split; [vm_compute; reflexivity|].
  destruct (buffered_session_sound demo_wire new demo) as [_ H].
  - repeat split.
  - intros cap [=].
  - repeat (apply Forall_cons; split; [cbn [event_ok]; try exact I;
      repeat (apply seg_ok_cons; [reflexivity|]); apply seg_ok_nil|]). apply Forall_nil. exact I.
  - vm_compute. discriminate.
  - rewrite (proj2 (H eq_refl)). reflexivity.
Defined.

(** With a buffer cap, no session ever holds more undrained bytes
    than the cap, whatever the overflow policy. *)
Theorem buffered_cap_respected r es cap :
  fresh r -> max_buffer r = Some cap -> 0 <= cap ->
  Forall (event_ok (fun _ _ => True)) es ->
  bytes_in_flight (run r es).1 <= cap /\ max_buffer (run r es).1 = Some cap.
Proof.
  intros Hf Hm Hc He.
  assert (inv (fun _ _ => True) (Some cap) [] r) as Hr by (apply fresh_inv; naive_solver).
  pose proof (run_inv _ _ es [] r He Hr) as [_ _ _ H4 H5 _]. split; [|done].
  by destruct (H5 cap eq_refl).
Qed.

Lemma buffered_cap_respected_witness :
  let r := with_max_buffer 4 new in
  let es := [Segment 0 [1; 2; 3] ts0; Segment 3 [4; 5; 6] ts0; Segment 6 [7; 8; 9; 10; 11] ts0] in
  bytes_in_flight (run r es).1 <= 4 /\ content (ready (run r es).1) =
    [None; None; None; None; None; None; None; Some 8; Some 9; Some 10; Some 11].
Proof.
  cbv zeta. split; [|vm_compute; reflexivity].
  apply (buffered_cap_respected _ _ 4); [repeat split|reflexivity|lia|].
  repeat (apply Forall_cons; split; [intros ? ? _; exact I|]). apply Forall_nil. exact I.
Defined.

(** The recursion of [feed] and [missing] and the loop of [missing]
    end: more fuel changes nothing, and the loop leaves with its exit
    condition true. *)
Theorem buffered_terminates :
  (forall n seq p now pass r, (3 <= n)%nat -> feed_fuel n seq p now pass r = feed seq p now pass r) /\
  (forall n seq len now r, (2 <= n)%nat ->
     missing_fuel n seq len now r = BufferedReassembler.missing seq len now r) /\
  (forall e now r, stop (skip_cut 3 e now r) <> None \/ e <= next_off (track (skip_cut 3 e now r))).
Proof.
  split_and!.
  - intros n seq p now pass r Hn. apply feed_enough; unfold held; repeat case_match; lia.
  - intros n seq len now r Hn. apply missing_enough; case_match; lia.
  - intros. apply skip_cut_exit.
Qed.

Lemma is_empty_new s : is_empty s = true -> s = StreamChunks.new.
Proof. by destruct s as [[|] [|] [|]]. Qed.

(** From below the threshold, both watermark updates record the same. *)
Lemma update_watermark_eq r : above_threshold r = false -> exists a,
  update_watermark r = note_passthrough (StreamChunks.len (ready r)) r <| above_threshold := a |>.
Proof.
  unfold update_watermark, note_passthrough. generalize (StreamChunks.len (ready r)) as n.
  intros n. destruct r as [rd k u ro ds g gb ag bd mbf pol st hw pct ab cr rt]. unfold_upd. cbn. intros ->.
  assert ((if hw <? n then n else hw) = Z.max hw n) as E.
  { destruct (Z.ltb_spec hw n); lia. }
  exists (match pct, mbf with Some p, Some cap => trigger cap p <=? n | _, _ => false end).
  revert E. destruct (hw <? n); cbn; intros <-; destruct pct as [p|], mbf as [cap|]; try reflexivity;
    cbn; by destruct (trigger cap p <=? n).
Qed.

Lemma note_ready n x r :
  note_passthrough n r <| ready := x |> = note_passthrough n (r <| ready := x |>).
Proof. unfold note_passthrough. destruct r as [? ? ? ? ? ? ? ? ? [|] ? ? ? [|]]; cbn; try done. by case_if. Qed.

Lemma drain_note n a r : stop r = None ->
  drain_into (note_passthrough n r <| above_threshold := a |>) StreamChunks.new =
    (note_passthrough n r <| ready := StreamChunks.new |>, append StreamChunks.new (ready r)).
Proof.
  unfold note_passthrough, drain_into. destruct r as [? ? ? ? ? ? ? ? ? [|] ? ? ? [|]]; cbn; intros ->; try done.
  by case_if.
Qed.

(** Buffering one in-order segment and draining it at once. *)
Lemma push_and_drain r bs :
  stop r = None -> bs <> [] -> ready r = StreamChunks.new -> above_threshold r = false ->
  (forall cap, max_buffer r = Some cap -> zlen bs <= cap) ->
  drain_into (append_with_cap bs r) StreamChunks.new =
    (note_passthrough (zlen bs) r, push_data bs StreamChunks.new).
Proof.
  intros Hst Hb Hr Ha Hc.
  assert (append_with_cap bs r = update_watermark (r <| ready ::= push_data bs |>)) as ->.
  { unfold append_with_cap. apply is_nil_false in Hb as ->. rewrite Hst. cbn [is_some orb].
    destruct (max_buffer r) as [cap|]; [|done]. rewrite Hr.
    change (StreamChunks.len StreamChunks.new) with 0. specialize (Hc cap eq_refl).
    by rewrite (proj2 (Z.leb_le (0 + zlen bs) cap)) by lia. }
  set (r' := r <| ready ::= push_data bs |>).
  destruct (update_watermark_eq r' Ha) as [a ->].
  assert (ready r' = push_data bs StreamChunks.new) as Hr' by (unfold r'; cbn; by rewrite Hr).
  rewrite Hr'. change (StreamChunks.len (push_data bs StreamChunks.new)) with (zlen bs).
  rewrite drain_note by (unfold r'; cbn; exact Hst). rewrite Hr', note_ready. do 2 f_equal. unfold r'. destruct r. cbn in *. by subst.
Qed.

Lemma pass_branch r bs now :
  stop r = None -> bs <> [] -> is_empty (ready r) = true -> reorder r = None ->
  above_threshold r = false -> (forall cap, max_buffer r = Some cap -> zlen bs <= cap) ->
  let r2 := try_reorder now (append_with_cap bs r) in
  drain_into r2 StreamChunks.new = (note_passthrough (zlen bs) r, push_data bs StreamChunks.new).
Proof.
  intros Hst Hb Hr Hro Ha Hc. cbv zeta. unfold try_reorder.
  destruct (shrinks_append bs r) as [_ Hs]. rewrite Hro in Hs.
  assert (reorder (append_with_cap bs r) = None) as -> by (destruct Hs; done).
  apply push_and_drain; try done. by apply is_empty_new.
Qed.

Lemma passthrough_inv fuel wire mb d r seq payload now r1 skip :
  inv wire mb d r -> feed_fuel (S fuel) seq payload now true r = (r1, Passthrough skip) ->
  exists r2 out, (feed_fuel (S fuel) seq payload now false r).1 = check_timers now r2 /\
    drain_into r2 StreamChunks.new = (r1, out) /\ content out = data_cells (zdrop skip payload).
Proof.
  intros Hr0 E. pose proof (anchor_inv wire mb d seq now r Hr0) as Hr.
  cbn [feed_fuel] in E |- *.
  destruct (is_nil payload || is_some (stop r)) eqn:Hskip; [done|]. zb.
  apply is_nil_false in H. set (r' := r <| track ::= anchor seq now |>) in *.
  assert (stop r' = None) as Hst by (change (stop r') with (stop r); by destruct (stop r)).
  clearbody r'. cbv zeta in *. destruct (i64 _ <? _).
  { destruct (far_ahead _ _ _ _ _) as [[|c] k]; [done|]. by apply feed_buffered in E. }
  destruct (_ <=? _) eqn:Hend; [done|]. zb. set (start := offset_of (track r') seq) in *.
  destruct (if start <? _ then _ else _) as [r2 k] eqn:Hk.
  destruct (_ <? start) eqn:Hsn; [case_if; [by apply feed_buffered in E|done]|].
  assert (inv wire mb d r2 /\ stop r2 = None /\ 0 <= k < zlen payload) as (Hr2 & Hst2 & Hk2).
  { destruct (Z.ltb_spec start (next_off (track r'))); simplify_eq; zb; zlen_facts;
      split_and!; try done; try lia; first [by apply retransmits_inv | by apply zlen_pos]. }
  cbn [andb] in E |- *.
  destruct (_ && _) eqn:Hc in E; [|done]. simplify_eq. zb.
  set (r3 := r2 <| track ::= advance_to (start + zlen payload) now |>).
  pose proof (pass_branch r3 (zdrop skip payload) now Hst2) as Hp. cbv zeta in Hp.
  replace (zlen (zdrop skip payload)) with (zlen payload - skip) in Hp by zlia.
  eexists _, _. split; [reflexivity|]. split; [apply Hp|by cbn].
  - intros Hn. apply (f_equal zlen) in Hn. revert Hn. zlia.
  - done.
  - change (reorder r2 = None). by destruct (reorder r2).
  - change (above_threshold r2 = false). destruct (above_threshold r2) eqn:Ha; [|done].
    pose proof (i_above _ _ _ _ _ Hr2 Hst2 Ha). congruence.
  - change (forall cap, max_buffer r2 = Some cap -> zlen payload - skip <= cap).
    intros cap Hm. rewrite Hm in *. cbn in *. by zb.
Qed.

(** Handing an in-order segment straight to the consumer is
    buffering it and draining at once: same bytes, same counters, peak
    and threshold crossings included; only the timers are left to the
    next call. *)
Theorem passthrough_is_buffer_and_drain r es seq payload now r1 skip :
  fresh r -> (forall cap, max_buffer r = Some cap -> 0 <= cap) ->
  Forall (event_ok (fun _ _ => True)) es ->
  segment_into seq payload now (run r es).1 = (r1, Passthrough skip) ->
  exists r2 out, segment seq payload now (run r es).1 = check_timers now r2 /\
    drain_into r2 StreamChunks.new = (r1, out) /\ content out = data_cells (zdrop skip payload).
Proof.
  intros Hf Hc He. pose proof (fresh_inv (fun _ _ => True) _ r Hf eq_refl Hc) as Hr.
  pose proof (run_inv _ _ es [] r He Hr) as Hi. exact (passthrough_inv 2 _ _ _ _ _ _ _ _ _ Hi).
Qed.

Lemma passthrough_is_buffer_and_drain_witness :
  let r := with_high_watermark_threshold 50 (with_max_buffer 4 new) in
  exists r2 out,
    segment 12 [3; 4; 5] ts0 (run r [SegmentInto 10 [1; 2; 3] ts0]).1 = check_timers ts0 r2 /\
    drain_into r2 StreamChunks.new =
      ((segment_into 12 [3; 4; 5] ts0 (run r [SegmentInto 10 [1; 2; 3] ts0]).1).1, out) /\
    content out = data_cells (zdrop 1 [3; 4; 5]).
Proof.
  apply (passthrough_is_buffer_and_drain _ [SegmentInto 10 [1; 2; 3] ts0] 12 [3; 4; 5] ts0 _ 1).
  - repeat split.
  - intros cap [= <-]. lia.
  - apply Forall_cons; split; [intros ? ? _; exact I|apply Forall_nil; exact I].
  - vm_compute. reflexivity.
Defined.

(** A stop is final: whatever happens next, the consumer receives
    at most what was ready when the side stopped, and the stream position
    does not move. *)
Theorem buffered_stop_is_final r es st :
  stop r = Some st ->
  ((run r es).2 = [] \/ (run r es).2 = content (ready r)) /\
  stop (run r es).1 = Some st /\ next_off (track (run r es).1) = next_off (track r).
Proof.
  refine (run_stopped (R := t) (fun _ => True) (fun r => content (ready r)) (fun r => next_off (track r))
    st _ es r I). clear.
  intros e r _ Hst. cbn in Hst.
  assert (forall p seq now pass, feed seq p now pass r = (r, Buffered)) as Hf.
  { intros. unfold feed. cbn [feed_fuel]. by rewrite Hst, orb_true_r. }
  unfold inert. destruct e; cbn; unfold BufferedReassembler.segment, BufferedReassembler.segment_into,
    BufferedReassembler.peer_ack, BufferedReassembler.fin_seen, BufferedReassembler.flush_pending,
    BufferedReassembler.advance_time, check_timers, BufferedReassembler.missing; rewrite ?Hf, ?Hst; cbn;
    rewrite ?Hst; cbn; try (split_and!; auto; fail).
  - destruct (anchor_same seq Timestamp.default (track r)) as (_ & -> & _). split_and!; auto.
  - split_and!; [done|done|right|done]. unfold append. cbn. split; [|done].
    by destruct (StreamChunks.stop (ready r)).
Qed.

Lemma buffered_stop_is_final_witness :
  let r := (run (with_overflow_policy DropFlow (with_max_buffer 2 new))
             [Segment 0 [1; 2] ts0; Segment 2 [3] ts0]).1 in
  stop r = Some Overflow /\
  ((run r [Segment 3 [4] ts0; Drain; Segment 2 [3] ts0]).2 = [] \/
   (run r [Segment 3 [4] ts0; Drain; Segment 2 [3] ts0]).2 = content (ready r)).
Proof.
  cbv zeta. split; [vm_compute; reflexivity|].
  apply (buffered_stop_is_final _ _ Overflow). vm_compute. reflexivity.
Defined.
End BufferedProps.
