(* ===== verification/BTree.v ===== *)
(** * Ordered maps keyed by stream offset

    The Rust standard library's [BTreeMap<u64, V>], as the sorted
    association list it iterates over, with the operations the
    reassembler uses. *)

From S2P Require Import Prelude.

Module BTreeMap.
Section ops.
Context {V : Type}.
Notation t := (list (Z * V)).
Implicit Types (m : t) (k : Z).

Fixpoint get k m : option V :=
  match m with
  | [] => None
  | (k', v) :: m' => if k' =? k then Some v else get k m'
  end.
Fixpoint insert k (v : V) m : t :=
  match m with
  | [] => [(k, v)]
  | (k', v') :: m' =>
      if k <? k' then (k, v) :: m
      else if k =? k' then (k, v) :: m'
      else (k', v') :: insert k v m'
  end.
Definition remove k m : t := filter (fun p => p.1 <> k) m.
(** [first_key_value], [range(..k).next_back()],
    [range(..=k).next_back()] and the keys of [range(a..b)]. *)
Definition first m : option (Z * V) := head m.
Definition last_before k m : option (Z * V) := last (filter (fun p => p.1 < k) m).
Definition last_upto k m : option (Z * V) := last (filter (fun p => p.1 <= k) m).
Definition keys_in (a b : Z) m : list Z := fst <$> filter (fun p => a <= p.1 < b) m.

Fixpoint sorted (lo : Z) m : Prop :=
  match m with [] => True | (k, _) :: m' => lo < k /\ sorted k m' end.

(** ** Lemmas *)

Lemma sorted_weaken lo lo' m : lo' <= lo -> sorted lo m -> sorted lo' m.
Proof. destruct m as [|[k v] m]; cbn; [done|]. intros ? [? ?]. split; [lia|done]. Qed.

Lemma sorted_bound lo m p : sorted lo m -> p ∈ m -> lo < p.1.
Proof.
  revert lo. induction m as [|[k v] m IH]; cbn; intros lo Hs Hp; [by apply not_elem_of_nil in Hp|].
  destruct Hs as [Hk Hs]. apply elem_of_cons in Hp as [->|Hp]; [done|].
  specialize (IH k Hs Hp). lia.
Qed.

Lemma sorted_app lo l r :
  sorted lo (l ++ r) <-> sorted lo l /\ match last l with Some p => sorted p.1 r | None => sorted lo r end.
Proof.
  revert lo. induction l as [|[k v] l IH]; intros lo; [by cbn; tauto|].
  cbn [app sorted]. rewrite IH. destruct l as [|p l]; [cbn; tauto|].
  rewrite last_cons_cons. destruct (last (p :: l)) eqn:E; [tauto|].
  by apply last_None in E.
Qed.

Lemma filter_all (P : Z * V -> Prop) `{forall x, Decision (P x)} m :
  Forall P m -> filter P m = m.
Proof. induction 1 as [|x m Hx Hm IH]; [done|]. by rewrite filter_cons_True, IH. Qed.
Lemma filter_none (P : Z * V -> Prop) `{forall x, Decision (P x)} m :
  Forall (fun x => ~ P x) m -> filter P m = [].
Proof. induction 1 as [|x m Hx Hm IH]; [done|]. by rewrite filter_cons_False. Qed.

Lemma get_app_r l k r : Forall (fun p => p.1 <> k) l -> get k (l ++ r) = get k r.
Proof.
  induction 1 as [|[k' v] l Hk Hl IH]; [done|]. cbn in *.
  by rewrite (proj2 (Z.eqb_neq _ _) Hk).
Qed.

Lemma insert_app_r l k v r : Forall (fun p => p.1 < k) l -> insert k v (l ++ r) = l ++ insert k v r.
Proof.
  induction 1 as [|[k' v'] l Hk Hl IH]; [done|]. cbn in *.
  destruct (Z.ltb_spec k k'); [lia|]. destruct (Z.eqb_spec k k'); [lia|]. by rewrite IH.
Qed.

Lemma insert_head k v r : Forall (fun p => k < p.1) r -> insert k v r = (k, v) :: r.
Proof.
  destruct 1 as [|[k' v'] r Hk Hr]; [done|]. cbn in *. destruct (Z.ltb_spec k k'); [done|lia].
Qed.

Lemma remove_app k l r : remove k (l ++ r) = remove k l ++ remove k r.
Proof. apply filter_app. Qed.
Lemma remove_absent k l : Forall (fun p => p.1 <> k) l -> remove k l = l.
Proof. apply filter_all. Qed.

(** [next_back] of a filtered range is its greatest key. *)
Lemma last_filter_spec (P : Z * V -> Prop) `{forall x, Decision (P x)} lo m :
  sorted lo m ->
  match last (filter P m) with
  | Some p => p ∈ m /\ P p /\ forall q, q ∈ m -> P q -> q.1 <= p.1
  | None => forall q, q ∈ m -> ~ P q
  end.
Proof.
  revert lo. induction m as [|[k v] m IH]; intros lo Hs.
  { cbn. intros q Hq. by apply not_elem_of_nil in Hq. }
  destruct Hs as [Hk Hs]. specialize (IH k Hs). rewrite filter_cons.
  assert (forall p, p ∈ m -> k < p.1) as Hlt by (intros p Hp; by apply (sorted_bound k m)).
  case_decide as HP.
  - destruct (filter P m) as [|x l] eqn:Hf.
    + cbn in IH |- *. split_and!; [apply list_elem_of_here|done|].
      intros q [->|Hq]%elem_of_cons Pq; [cbn; lia|]. by destruct (IH q Hq).
    + rewrite last_cons_cons. destruct (last (x :: l)) as [p|] eqn:Hl.
      * destruct IH as (Hin & Pp & Hmax). split_and!; [by apply list_elem_of_further|done|].
        intros q [->|Hq]%elem_of_cons Pq; [cbn; specialize (Hlt p Hin); lia|by apply Hmax].
      * by apply last_None in Hl.
  - destruct (last (filter P m)) as [p|].
    + destruct IH as (Hin & Pp & Hmax). split_and!; [by apply list_elem_of_further|done|].
      intros q [->|Hq]%elem_of_cons Pq; [done|by apply Hmax].
    + intros q [->|Hq]%elem_of_cons; [done|by apply IH].
Qed.
End ops.
End BTreeMap.
