(* ===== verification/Ooo.v ===== *)
(** * Out-of-order data (src/src/segment_reassembler.rs, [Ooo] and [absorb])

    Disjoint, non-adjacent pieces keyed by stream offset, the provenance
    runs of the sequence-based overlap policies, and [absorb], which adds a
    segment: it resolves overlaps with the policy and coalesces the pieces
    it touches into one. *)

From S2P Require Import Prelude Flow BTree.
Import BTreeMap.

Definition PIECE_OVERHEAD : Z := 64.
Definition RUN_OVERHEAD : Z := 32.

(** A [VecDeque<u8>]: its bytes and its capacity.  The standard library
    promises at least the capacity asked for; the model is of an allocator
    that gives exactly that. *)
Module Deque.
Record t := mk { data : list Z; capacity : Z }.
#[global] Instance eta : Eta t := mk_eta (fun d => mk (data d) (capacity d)).
Definition len (d : t) : Z := zlen (data d).
Definition with_capacity (n : Z) : t := mk [] n.
Definition reserve_exact (n : Z) (d : t) : t := d <| capacity ::= Z.max (len d + n) |>.
End Deque.

(** Does a segment starting at [seg] win a byte supplied by the segment
    starting at [existing]? *)
Definition new_wins (policy : TcpOverlapPolicy) (seg : Z) (existing : option Z) : bool :=
  match policy with
  | Last => true
  | LowerSeq => is_some_and (fun e => seg <? e) existing
  | HigherSeq => is_some_and (fun e => e <? seg) existing
  | First => false
  end.

Definition is_seq_policy (p : TcpOverlapPolicy) : bool :=
  match p with LowerSeq | HigherSeq => true | _ => false end.

Module Ooo.
Record t := mk {
  pieces : list (Z * Deque.t);
  runs : list (Z * (Z * Z));
  bytes : Z;
  capacity : Z;
  arrivals : Z }.
#[global] Instance eta : Eta t :=
  mk_eta (fun o => mk (pieces o) (runs o) (bytes o) (capacity o) (arrivals o)).
Definition default : t := mk [] [] 0 0 0.

Definition charged (o : t) : Z :=
  capacity o + zlen (pieces o) * PIECE_OVERHEAD + zlen (runs o) * RUN_OVERHEAD.
Definition first_start (o : t) : option Z := fst <$> first (pieces o).

(** ** Provenance runs *)

Definition cut_runs (start end_ : Z) (rs : list (Z * (Z * Z))) : list (Z * (Z * Z)) :=
  let rs :=
    match last_before start rs with
    | Some (s, (e, seg)) =>
        if start <? e then
          let rs := insert s (start, seg) rs in
          if end_ <? e then insert end_ (e, seg) rs else rs
        else rs
    | None => rs
    end in
  fold_left (fun rs s =>
    match get s rs with
    | Some (e, seg) =>
        let rs := remove s rs in
        if end_ <? e then insert end_ (e, seg) rs else rs
    | None => rs
    end) (keys_in start end_ rs) rs.

Definition set_runs (start end_ seg : Z) (rs : list (Z * (Z * Z))) : list (Z * (Z * Z)) :=
  if end_ <=? start then rs else insert start (end_, seg) (cut_runs start end_ rs).

Definition seg_of (rs : list (Z * (Z * Z))) (off : Z) : option Z :=
  match last_upto off rs with
  | Some (_, (e, seg)) => if off <? e then Some seg else None
  | None => None
  end.

Definition run_end (rs : list (Z * (Z * Z))) (off : Z) : Z :=
  match last_upto off rs with
  | Some (_, (e, _)) => Z.max e (off + 1)
  | None => off + 1
  end.

(** ** [absorb] *)

Fixpoint take_while {A} (f : A -> bool) (l : list A) : list A :=
  match l with [] => [] | x :: l' => if f x then x :: take_while f l' else [] end.

(** Keys of the pieces overlapping or touching [start, end_). *)
Definition hits (start end_ : Z) (ps : list (Z * Deque.t)) : list Z :=
  rev (fst <$> take_while (fun p => start <=? p.1 + Deque.len p.2)
                 (rev (filter (fun p => p.1 <= end_) ps))).

(** [while at < o_end]: the parts of an overlap the new segment wins.
    A step advances by at least one, so [o_end - at] steps suffice. *)
Fixpoint win_ranges (fuel : nat) (policy : TcpOverlapPolicy) (rs : list (Z * (Z * Z)))
    (start at_ o_end : Z) : list (Z * Z) :=
  match fuel with
  | O => []
  | S fuel =>
      if at_ <? o_end then
        let seq_policy := is_seq_policy policy in
        let e := if seq_policy then Z.min (run_end rs at_) o_end else o_end in
        let existing := if seq_policy then seg_of rs at_ else None in
        (if new_wins policy start existing then [(at_, e)] else []) ++
        win_ranges fuel policy rs start e o_end
      else []
  end.

(** One hit piece: whether it overlaps, whether the bytes differ, and
    the ranges to overwrite. *)
Definition resolve (policy : TcpOverlapPolicy) (rs : list (Z * (Z * Z)))
    (start : Z) (payload : list Z) (s : Z) (d : Deque.t) : bool * bool * list (Z * Z) :=
  let e := s + Deque.len d in
  let o_start := Z.max start s in
  let o_end := Z.min (start + zlen payload) e in
  if o_end <=? o_start then (false, false, [])
  else
    let old := zslice (o_start - s) (o_end - s) (Deque.data d) in
    let new := zslice (o_start - start) (o_end - start) payload in
    (true, negb (bool_decide (old = new)),
     win_ranges (Z.to_nat (o_end - o_start)) policy rs start o_start o_end).

(** [d[(off - s)] = payload[(off - start)]] for [off] in [a..b]. *)
Definition overwrite (start : Z) (payload : list Z) (s a b : Z) (d : Deque.t) : Deque.t :=
  d <| Deque.data ::= fun l =>
         ztake (a - s) l ++ zslice (a - start) (b - start) payload ++ zdrop (b - s) l |>.

Definition write (seq_policy : bool) (start : Z) (payload : list Z)
    (st : list (Z * Deque.t) * list (Z * (Z * Z))) (ab : Z * Z)
    : list (Z * Deque.t) * list (Z * (Z * Z)) :=
  let '(ps, rs) := st in
  let '(a, b) := ab in
  match last_upto a ps with
  | Some (s, d) =>
      (insert s (overwrite start payload s a b d) ps,
       if seq_policy then set_runs a b start rs else rs)
  | None => (ps, rs)
  end.

(** The union in stream order: [(lo, hi, Some i)] is existing piece [i],
    [(lo, hi, None)] new bytes. *)
Fixpoint fill (cursor union_end : Z) (i : nat) (parts : list (Z * Deque.t))
    : list (Z * Z * option nat) :=
  match parts with
  | [] => if cursor <? union_end then [(cursor, union_end, None)] else []
  | (s, d) :: parts' =>
      (if cursor <? s then [(cursor, s, None)] else []) ++
      (s, s + Deque.len d, Some i) :: fill (s + Deque.len d) union_end (S i) parts'
  end.

(** [max_by_key] keeps the last of equal maxima. *)
Fixpoint largest (i : nat) (best : option (nat * Z)) (parts : list (Z * Deque.t)) : option nat :=
  match parts with
  | [] => fst <$> best
  | (_, d) :: parts' =>
      largest (S i)
        (match best with
         | Some (j, n) => if n <=? Deque.len d then Some (i, Deque.len d) else Some (j, n)
         | None => Some (i, Deque.len d)
         end) parts'
  end.

(** [fill.iter().position(|f| f.2 == Some(i))]. *)
Fixpoint position (i : nat) (fs : list (Z * Z * option nat)) : nat :=
  match fs with
  | [] => 0
  | f :: fs' => if bool_decide (f.2 = Some i) then 0 else S (position i fs')
  end.

Definition fill_len (f : Z * Z * option nat) : Z := f.1.2 - f.1.1.
Definition fill_bytes (parts : list (Z * Deque.t)) (start : Z) (payload : list Z)
    (f : Z * Z * option nat) : list Z :=
  match f.2 with
  | Some i => match parts !! i with Some (_, d) => Deque.data d | None => [] end
  | None => zslice (f.1.1 - start) (f.1.2 - start) payload
  end.
Definition is_new (f : Z * Z * option nat) : bool := is_none f.2.
Definition new_runs (seq_policy : bool) (start : Z) (rs : list (Z * (Z * Z)))
    (f : Z * Z * option nat) : list (Z * (Z * Z)) :=
  if is_new f && seq_policy then set_runs f.1.1 f.1.2 start rs else rs.

Definition zsum (l : list Z) : Z := foldr Z.add 0 l.

(** The second half of [absorb]: the hit pieces [parts] (already taken
    out of [o]) and the new bytes they do not cover become one piece.
    The largest part is the base; it is grown once, and what precedes and
    follows it in the union is pushed to its front and back. *)
Definition coalesce (policy : TcpOverlapPolicy) (max_ooo_buffer : Z) (start : Z)
    (payload : list Z) (parts : list (Z * Deque.t)) (o : t) : t :=
  let end_ := start + zlen payload in
  let union_start := match head parts with Some (s, _) => Z.min s start | None => start end in
  let union_end :=
    match last parts with Some (s, d) => Z.max (s + Deque.len d) end_ | None => end_ end in
  let base_idx := largest 0 None parts in
  let fs := fill union_start union_end 0 parts in
  let base_pos := match base_idx with Some i => position i fs | None => 0%nat end in
  let base :=
    match base_idx with
    | Some i => match parts !! i with Some (_, d) => d | None => Deque.with_capacity 0 end
    | None => Deque.with_capacity (zlen payload)
    end in
  let incoming :=
    zsum (fill_len <$> filter (fun f => is_none base_idx || negb (bool_decide (f.2 = base_idx))) fs) in
  let need := Deque.len base + incoming in
  let base :=
    if Deque.capacity base <? need then
      let others := charged o in
      let room := sat_sub max_ooo_buffer (others + PIECE_OVERHEAD) in
      let target := Z.max (Z.min (Deque.capacity base * 2) room) need in
      Deque.reserve_exact (target - Deque.len base) base
    else base in
  let before := rev (take base_pos fs) in
  let after := drop (if is_some base_idx then S base_pos else 0) fs in
  let data := fold_left (fun l f => fill_bytes parts start payload f ++ l) before (Deque.data base) in
  let data := fold_left (fun l f => l ++ fill_bytes parts start payload f) after data in
  let added := zsum (fill_len <$> filter is_new (before ++ after)) in
  let rs := fold_left (new_runs (is_seq_policy policy) start) (before ++ after) (runs o) in
  o <| runs := rs |> <| bytes ::= Z.add added |>
    <| capacity ::= Z.add (Deque.capacity base) |>
    <| pieces ::= insert union_start (base <| Deque.data := data |>) |>.

(** The new state, whether the segment overlapped held data and whether
    it differed from it. *)
Definition absorb (policy : TcpOverlapPolicy) (max_ooo_buffer : Z) (start : Z)
    (payload : list Z) (o : t) : t * bool * bool :=
  let o := o <| arrivals ::= fun n => sat_add32 n 1 |> in
  let hit := hits start (start + zlen payload) (pieces o) in
  let verdicts :=
    omap (fun s => resolve policy (runs o) start payload s <$> get s (pieces o)) hit in
  let overlapped := existsb (fun v => v.1.1) verdicts in
  let divergent := existsb (fun v => v.1.2) verdicts in
  let writes := concat (snd <$> verdicts) in
  let '(ps, rs) :=
    fold_left (write (is_seq_policy policy) start payload) writes (pieces o, runs o) in
  let parts := omap (fun s => pair s <$> get s ps) hit in
  let o := o <| pieces := fold_left (fun ps s => remove s ps) hit ps |> <| runs := rs |>
             <| capacity ::= fun c => c - zsum ((fun p => Deque.capacity p.2) <$> parts) |> in
  (coalesce policy max_ooo_buffer start payload parts o, overlapped, divergent).

End Ooo.
