(* ===== verification/Runs.v ===== *)
(** * Provenance runs are an interval map

    [set_runs] and [cut_runs] ([Ooo]) read back through [seg_of]:
    [run_at] is the naive lookup in a list of disjoint intervals, and each
    operation has its pointwise effect on it. *)

From S2P Require Import Prelude Flow BTree Ooo.
Import BTreeMap Ooo.

Notation run := (Z * (Z * Z))%type.

Fixpoint run_at (rs : list run) (o : Z) : option Z :=
  match rs with
  | [] => None
  | (s, (e, g)) :: rs' => if (s <=? o) && (o <? e) then Some g else run_at rs' o
  end.

(** Sorted, disjoint, non-empty intervals starting at [lo] or later. *)
Fixpoint runs_wf (lo : Z) (rs : list run) : Prop :=
  match rs with
  | [] => True
  | (s, (e, _)) :: rs' => lo <= s /\ s < e /\ runs_wf e rs'
  end.

Lemma runs_wf_weaken lo lo' rs : lo' <= lo -> runs_wf lo rs -> runs_wf lo' rs.
Proof. destruct rs as [|[s [e g]] rs]; cbn; [done|]. intros ? (? & ? & ?). split_and!; [lia|lia|done]. Qed.

Lemma run_at_before lo rs o : runs_wf lo rs -> o < lo -> run_at rs o = None.
Proof.
  revert lo. induction rs as [|[s [e g]] rs IH]; intros lo H Ho; [done|]. destruct H as (? & ? & H). cbn.
  destruct (Z.leb_spec s o); [lia|]. cbn. apply (IH e); [done|lia].
Qed.

Lemma runs_wf_sorted lo rs : runs_wf lo rs -> sorted (lo - 1) rs.
Proof.
  revert lo. induction rs as [|[s [e g]] rs IH]; intros lo H; [done|]. destruct H as (? & ? & H).
  split; [lia|]. apply (sorted_weaken (e - 1)); [lia|]. by apply IH.
Qed.

Lemma runs_wf_elem lo rs s e g : runs_wf lo rs -> (s, (e, g)) ∈ rs -> lo <= s /\ s < e.
Proof.
  revert lo. induction rs as [|[s' [e' g']] rs IH]; intros lo H Hin; [by apply not_elem_of_nil in Hin|].
  destruct H as (? & ? & H). apply elem_of_cons in Hin as [E|Hin]; [by simplify_eq|].
  destruct (IH _ H Hin). lia.
Qed.

(** A run of the list is what [run_at] finds inside it. *)
Lemma run_at_elem lo rs s e g o :
  runs_wf lo rs -> (s, (e, g)) ∈ rs -> s <= o < e -> run_at rs o = Some g.
Proof.
  revert lo. induction rs as [|[s' [e' g']] rs IH]; intros lo H Hin Ho; [by apply not_elem_of_nil in Hin|].
  destruct H as (? & ? & H). apply elem_of_cons in Hin as [E|Hin]; cbn.
  - simplify_eq. destruct (Z.leb_spec s' o), (Z.ltb_spec o e'); cbn; (done || lia).
  - destruct (runs_wf_elem _ _ _ _ _ H Hin).
    destruct (Z.leb_spec s' o), (Z.ltb_spec o e'); cbn; try lia; by apply (IH e').
Qed.

Lemma run_at_Some rs o g :
  run_at rs o = Some g -> exists s e, (s, (e, g)) ∈ rs /\ s <= o < e.
Proof.
  induction rs as [|[s [e g']] rs IH]; cbn; [done|]. case_if.
  - intros [= ->]. exists s, e. split; [apply list_elem_of_here|lia].
  - intros (s' & e' & Hin & Ho)%IH. exists s', e'. split; [by apply list_elem_of_further|done].
Qed.

Lemma get_elem {V} k v (m : list (Z * V)) : get k m = Some v -> (k, v) ∈ m.
Proof.
  induction m as [|[k' v'] m IH]; cbn; [done|]. destruct (Z.eqb_spec k' k) as [->|].
  - intros [= ->]. apply list_elem_of_here.
  - intros H%IH. by apply list_elem_of_further.
Qed.

Lemma elem_get {V} lo k v (m : list (Z * V)) : sorted lo m -> (k, v) ∈ m -> get k m = Some v.
Proof.
  revert lo. induction m as [|[k' v'] m IH]; intros lo Hs Hin; [by apply not_elem_of_nil in Hin|].
  destruct Hs as [? Hs]. cbn. apply elem_of_cons in Hin as [E|Hin].
  - simplify_eq. by rewrite Z.eqb_refl.
  - pose proof (sorted_bound _ _ _ Hs Hin). cbn in *.
    destruct (Z.eqb_spec k' k); [lia|]. by apply (IH k').
Qed.

(** Removing a run clears its interval. *)
Lemma remove_run lo rs s e g :
  runs_wf lo rs -> get s rs = Some (e, g) ->
  runs_wf lo (remove s rs) /\
  (forall o, run_at (remove s rs) o = if (s <=? o) && (o <? e) then None else run_at rs o).
Proof.
  revert lo. induction rs as [|[s' [e' g']] rs IH]; intros lo H Hg; [done|]. destruct H as (? & ? & H).
  cbn in Hg. destruct (Z.eqb_spec s' s) as [->|Hne].
  - simplify_eq. unfold remove. rewrite filter_cons_False by (cbn; lia).
    rewrite filter_all; cycle 1.
    { apply Forall_forall. intros [s'' [e'' g'']] Hin. destruct (runs_wf_elem _ _ _ _ _ H Hin). cbn. lia. }
    split; [by apply (runs_wf_weaken e); [lia|]|]. intros o. cbn.
    destruct (Z.leb_spec s o), (Z.ltb_spec o e); cbn; try done.
    by apply (run_at_before e).
  - destruct (IH e' H Hg) as [Hw Hr]. unfold remove in *. rewrite filter_cons_True by done. cbn.
    split; [done|]. intros o. rewrite Hr. apply get_elem in Hg.
    destruct (runs_wf_elem _ _ _ _ _ H Hg).
    destruct (Z.leb_spec s' o), (Z.ltb_spec o e'), (Z.leb_spec s o), (Z.ltb_spec o e);
      cbn; (done || lia).
Qed.

(** Inserting a run into a free interval. *)
Lemma insert_run lo rs k e g :
  runs_wf lo rs -> lo <= k -> k < e -> (forall o, k <= o < e -> run_at rs o = None) ->
  runs_wf lo (insert k (e, g) rs) /\
  (forall o, run_at (insert k (e, g) rs) o = if (k <=? o) && (o <? e) then Some g else run_at rs o).
Proof.
  revert lo. induction rs as [|[s' [e' g']] rs IH]; intros lo H Hlo Hk Hfree; [done|].
  destruct H as (H1 & H2 & H). cbn [insert].
  assert (e <= s' \/ e' <= k) as Hdis.
  { destruct (Z.le_gt_cases e s') as [|Hlt]; [by left|]. right.
    destruct (Z.le_gt_cases e' k); [done|]. specialize (Hfree (Z.max k s') ltac:(lia)). cbn in Hfree.
    destruct (Z.leb_spec s' (Z.max k s')), (Z.ltb_spec (Z.max k s') e'); try lia; done. }
  destruct (Z.ltb_spec k s'); [|destruct (Z.eqb_spec k s'); [lia|]].
  - cbn. split_and!; [lia|lia|lia|lia|done|done].
  - destruct (IH e' H ltac:(lia) Hk) as [Hw Hr].
    { intros o Ho. specialize (Hfree o Ho). cbn in Hfree.
      destruct (Z.leb_spec s' o), (Z.ltb_spec o e'); cbn in Hfree; try done; lia. }
    cbn. split_and!; [done|done|done|]. intros o. rewrite Hr.
    destruct (Z.leb_spec s' o), (Z.ltb_spec o e'), (Z.leb_spec k o), (Z.ltb_spec o e);
      cbn; (done || lia).
Qed.

Lemma insert_remove {V} lo k (v : V) m : sorted lo m -> insert k v (remove k m) = insert k v m.
Proof.
  revert lo. induction m as [|[k' v'] m IH]; intros lo Hs; [done|]. destruct Hs as [? Hs].
  unfold remove in *. rewrite filter_cons. cbn [fst]. cbn [insert].
  destruct (decide (k' <> k)) as [Hne|He%dec_stable].
  - cbn [insert]. rewrite (IH k' Hs).
    destruct (Z.ltb_spec k k'); [|by destruct (Z.eqb_spec k k'); [lia|]].
    rewrite filter_all; [done|]. apply Forall_forall. intros p Hp.
    pose proof (sorted_bound _ _ _ Hs Hp). lia.
  - subst k'. rewrite Z.ltb_irrefl, Z.eqb_refl.
    assert (Forall (fun p => k < p.1) m) as Hall.
    { apply Forall_forall. intros p Hp. by apply (sorted_bound k m). }
    rewrite filter_all by (eapply Forall_impl; [exact Hall|]; cbn; lia).
    by apply insert_head.
Qed.

Lemma runs_wf_disjoint lo rs s e g s' e' g' :
  runs_wf lo rs -> (s, (e, g)) ∈ rs -> (s', (e', g')) ∈ rs -> s' < s -> e' <= s.
Proof.
  revert lo. induction rs as [|[s0 [e0 g0]] rs IH]; intros lo H H1 H2 Hlt; [by apply not_elem_of_nil in H1|].
  destruct H as (? & ? & H). apply elem_of_cons in H1. apply elem_of_cons in H2.
  destruct H1 as [E1|H1], H2 as [E2|H2]; simplify_eq; try lia.
  - destruct (runs_wf_elem _ _ _ _ _ H H2). lia.
  - by destruct (runs_wf_elem _ _ _ _ _ H H1).
  - by apply (IH e0).
Qed.

Lemma runs_wf_key lo rs s e g e' g' :
  runs_wf lo rs -> (s, (e, g)) ∈ rs -> (s, (e', g')) ∈ rs -> e = e' /\ g = g'.
Proof.
  intros H H1 H2. pose proof (runs_wf_sorted _ _ H) as Hs.
  pose proof (elem_get _ _ _ _ Hs H1). pose proof (elem_get _ _ _ _ Hs H2). by simplify_eq.
Qed.

(** [seg_of] is the naive lookup. *)
Lemma seg_of_run_at lo rs o : runs_wf lo rs -> seg_of rs o = run_at rs o.
Proof.
  intros H. unfold seg_of, last_upto.
  pose proof (last_filter_spec (fun p => p.1 <= o) _ _ (runs_wf_sorted _ _ H)) as Hl.
  destruct (last _) as [[s [e g]]|].
  - destruct Hl as (Hin & Hs & Hmax). cbn in Hs. destruct (Z.ltb_spec o e).
    + symmetry. apply (run_at_elem _ _ _ _ _ _ H Hin). lia.
    + symmetry. destruct (run_at rs o) as [g'|] eqn:E; [|done].
      apply run_at_Some in E as (s' & e' & Hin' & Ho).
      specialize (Hmax _ Hin' (proj1 Ho)). cbn in Hmax.
      destruct (Z.eq_dec s' s) as [->|Hne].
      * destruct (runs_wf_key _ _ _ _ _ _ _ H Hin Hin'). lia.
      * pose proof (runs_wf_disjoint _ _ _ _ _ _ _ _ H Hin Hin' ltac:(lia)). lia.
  - symmetry. destruct (run_at rs o) as [g'|] eqn:E; [|done].
    apply run_at_Some in E as (s' & e' & Hin' & Ho). by destruct (Hl _ Hin' (proj1 Ho)).
Qed.

(** The provenance is constant up to [run_end]. *)
Lemma run_end_spec lo rs o : runs_wf lo rs ->
  o < run_end rs o /\ forall o', o <= o' < run_end rs o -> run_at rs o' = run_at rs o.
Proof.
  intros H. unfold run_end, last_upto.
  pose proof (last_filter_spec (fun p => p.1 <= o) _ _ (runs_wf_sorted _ _ H)) as Hl.
  destruct (last _) as [[s [e g]]|].
  - destruct Hl as (Hin & Hs & _). cbn in Hs. split; [lia|]. intros o' Ho'.
    destruct (Z.lt_ge_cases o e).
    + rewrite (run_at_elem _ _ _ _ _ o' H Hin), (run_at_elem _ _ _ _ _ o H Hin) by lia. done.
    + by replace o' with o by lia.
  - split; [lia|]. intros o' Ho'. by replace o' with o by lia.
Qed.

Definition inside (a b o : Z) : bool := (a <=? o) && (o <? b).

(** A run loses its part from [x] on. *)
Lemma shrink_run lo rs s e g x :
  runs_wf lo rs -> (s, (e, g)) ∈ rs -> s < x < e ->
  runs_wf lo (insert s (x, g) rs) /\
  (forall o, run_at (insert s (x, g) rs) o = if inside x e o then None else run_at rs o).
Proof.
  intros H Hin Hx. pose proof (runs_wf_sorted _ _ H) as Hs.
  destruct (runs_wf_elem _ _ _ _ _ H Hin). rewrite <- (insert_remove _ _ _ _ Hs).
  destruct (remove_run _ _ _ _ _ H (elem_get _ _ _ _ Hs Hin)) as [Hw Hr].
  destruct (insert_run lo (remove s rs) s x g Hw) as [Hw' Hr']; [lia|lia| |].
  { intros o Ho. rewrite Hr. destruct (Z.leb_spec s o), (Z.ltb_spec o e); cbn; (done || lia). }
  split; [done|]. intros o. rewrite Hr', Hr. unfold inside.
  destruct (Z.leb_spec s o), (Z.ltb_spec o x), (Z.ltb_spec o e), (Z.leb_spec x o); cbn; try done; try lia.
  symmetry. apply (run_at_elem _ _ _ _ _ _ H Hin). lia.
Qed.

(** The first step of [cut_runs]: the run reaching in from the left. *)
Definition cut_left (a b : Z) (rs : list run) : list run :=
  match last_before a rs with
  | Some (s, (e, seg)) =>
      if a <? e then
        let rs := insert s (a, seg) rs in
        if b <? e then insert b (e, seg) rs else rs
      else rs
  | None => rs
  end.

Lemma cut_left_spec lo a b rs : runs_wf lo rs -> a < b ->
  let rs' := cut_left a b rs in
  runs_wf lo rs' /\
  (forall o, inside a b o = false -> run_at rs' o = run_at rs o) /\
  (forall s e g, (s, (e, g)) ∈ rs' -> s < a -> e <= a).
Proof.
  intros H Hab. unfold cut_left, last_before.
  pose proof (last_filter_spec (fun p => p.1 < a) _ _ (runs_wf_sorted _ _ H)) as Hl.
  destruct (last _) as [[s [e g]]|]; cycle 1.
  { split_and!; [done|done|]. intros s e g Hin Hs. by destruct (Hl _ Hin Hs). }
  destruct Hl as (Hin & Hs & Hmax). cbn in Hs. destruct (Z.ltb_spec a e) as [Hae|Hae]; cycle 1.
  { split_and!; [done|done|]. intros s' e' g' Hin' Hs'. specialize (Hmax _ Hin' Hs'). cbn in Hmax.
    destruct (Z.eq_dec s' s) as [->|]; [by destruct (runs_wf_key _ _ _ _ _ _ _ H Hin Hin'); lia|].
    pose proof (runs_wf_disjoint _ _ _ _ _ _ _ _ H Hin Hin' ltac:(lia)). lia. }
  destruct (shrink_run lo rs s e g a H Hin ltac:(lia)) as [Hw Hr]. cbv zeta.
  destruct (runs_wf_elem _ _ _ _ _ H Hin).
  set (rs1 := insert s (a, g) rs) in *.
  assert (forall s' e' g', (s', (e', g')) ∈ rs1 -> s' < a -> e' <= a) as Hleft.
  { intros s' e' g' Hin' Hs'. destruct (Z.le_gt_cases e' a) as [|Hgt]; [done|].
    pose proof (run_at_elem _ _ _ _ _ a Hw Hin' ltac:(lia)) as Ha. rewrite Hr in Ha. revert Ha.
    unfold inside. destruct (Z.leb_spec a a), (Z.ltb_spec a e); cbn; (done || lia). }
  destruct (Z.ltb_spec b e); cycle 1.
  { split_and!; [done| |done]. intros o. rewrite Hr. unfold inside.
    destruct (Z.leb_spec a o), (Z.ltb_spec o b), (Z.ltb_spec o e); cbn; (done || lia). }
  destruct (insert_run lo rs1 b e g Hw) as [Hw' Hr']; [lia|lia| |].
  { intros o Ho. rewrite Hr. unfold inside. destruct (Z.leb_spec a o), (Z.ltb_spec o e); cbn; (done || lia). }
  split_and!; [done| |].
  - intros o. rewrite Hr', Hr. unfold inside.
    destruct (Z.leb_spec a o), (Z.ltb_spec o b), (Z.leb_spec b o), (Z.ltb_spec o e); cbn; try done; try lia.
    intros _. symmetry. apply (run_at_elem _ _ _ _ _ _ H Hin). lia.
  - intros s' e' g' Hin' Hs'. destruct (Z.le_gt_cases e' a) as [|Hgt]; [done|].
    pose proof (run_at_elem _ _ _ _ _ a Hw' Hin' ltac:(lia)) as Ha. rewrite Hr', Hr in Ha. revert Ha.
    unfold inside.
    destruct (Z.leb_spec b a), (Z.ltb_spec a e), (Z.leb_spec a a); cbn; (done || lia).
Qed.

Definition cut_one (b : Z) (rs : list run) (s : Z) : list run :=
  match get s rs with
  | Some (e, seg) =>
      let rs := remove s rs in if b <? e then insert b (e, seg) rs else rs
  | None => rs
  end.

Lemma elem_insert {V} k (v : V) m x : x ∈ insert k v m -> x = (k, v) \/ x ∈ m.
Proof.
  induction m as [|[k' v'] m IH]; cbn.
  - intros Hx%list_elem_of_singleton. by left.
  - case_if; [intros Hx%elem_of_cons; naive_solver|]. case_if.
    + intros [Hx|Hx]%elem_of_cons; [by left|]. right. by apply list_elem_of_further.
    + intros [->|Hx]%elem_of_cons; [right; apply list_elem_of_here|].
      destruct (IH Hx) as [|Hm]; [by left|right; by apply list_elem_of_further].
Qed.

Lemma cut_one_spec lo a b rs s : runs_wf lo rs -> a <= s < b ->
  let rs' := cut_one b rs s in
  runs_wf lo rs' /\
  (forall o, inside a b o = false -> run_at rs' o = run_at rs o) /\
  (forall x, x ∈ rs' -> x ∈ rs /\ x.1 <> s \/ x.1 = b).
Proof.
  intros H Hs. unfold cut_one. destruct (get s rs) as [[e g]|] eqn:Hg; cycle 1.
  { cbv zeta. split_and!; [done|done|]. intros [s' [e g]] Hin. left. split; [done|]. cbn. intros ->.
    by rewrite (elem_get _ _ _ _ (runs_wf_sorted _ _ H) Hin) in Hg. }
  pose proof (get_elem _ _ _ Hg) as Hin. destruct (runs_wf_elem _ _ _ _ _ H Hin).
  destruct (remove_run lo rs s e g H Hg) as [Hw Hr]. cbv zeta.
  assert (forall x, x ∈ remove s rs -> x ∈ rs /\ x.1 <> s) as Hrem.
  { intros x Hx. apply list_elem_of_filter in Hx. tauto. }
  destruct (Z.ltb_spec b e); cycle 1.
  { split_and!; [done| |auto]. intros o. rewrite Hr. unfold inside.
    destruct (Z.leb_spec a o), (Z.ltb_spec o b), (Z.leb_spec s o), (Z.ltb_spec o e); cbn; (done || lia). }
  destruct (insert_run lo (remove s rs) b e g Hw) as [Hw' Hr']; [lia|lia| |].
  { intros o Ho. rewrite Hr. destruct (Z.leb_spec s o), (Z.ltb_spec o e); cbn; (done || lia). }
  split_and!; [done| |].
  - intros o. rewrite Hr', Hr. unfold inside.
    destruct (Z.leb_spec a o), (Z.ltb_spec o b), (Z.leb_spec b o), (Z.leb_spec s o), (Z.ltb_spec o e);
      cbn; try done; try lia;
    intros _; symmetry; apply (run_at_elem _ _ _ _ _ _ H Hin); lia.
  - intros x [->|Hx]%elem_insert; [by right|auto].
Qed.

Lemma cut_rest lo a b ks : forall rs, runs_wf lo rs -> Forall (fun s => a <= s < b) ks ->
  (forall s e g, (s, (e, g)) ∈ rs -> s < a -> e <= a) ->
  (forall x, x ∈ rs -> a <= x.1 < b -> x.1 ∈ ks) ->
  let rs' := fold_left (cut_one b) ks rs in
  runs_wf lo rs' /\ forall o, run_at rs' o = if inside a b o then None else run_at rs o.
Proof.
  induction ks as [|s ks IH]; intros rs H Hks Hleft Hcov; cbn.
  - split; [done|]. intros o. destruct (inside a b o) eqn:Ho; [|done]. unfold inside in Ho. zb.
    destruct (run_at rs o) eqn:E; [|done]. apply run_at_Some in E as (s & e & Hin & Hs).
    destruct (Z.lt_ge_cases s a).
    + specialize (Hleft _ _ _ Hin). lia.
    + specialize (Hcov _ Hin). cbn in Hcov. specialize (Hcov ltac:(lia)). by apply not_elem_of_nil in Hcov.
  - inversion Hks as [|? ? Hs Hks']; subst.
    destruct (cut_one_spec lo a b rs s H Hs) as (Hw & Hout & Hin).
    destruct (IH (cut_one b rs s) Hw Hks') as [Hw' Hr'].
    + intros s' e' g' Hel Hlt. destruct (Hin _ Hel) as [[Hel' _]|E]; [by eapply Hleft|cbn in E; lia].
    + intros x Hx Hr. destruct (Hin _ Hx) as [[Hel' Hne]|E]; [|lia].
      specialize (Hcov x Hel' Hr). apply elem_of_cons in Hcov as [E|]; [congruence|done].
    + split; [done|]. intros o. rewrite Hr'. destruct (inside a b o) eqn:E; [done|by apply Hout].
Qed.

(** Cutting clears exactly the range. *)
Lemma cut_runs_spec lo a b rs : runs_wf lo rs -> a < b ->
  runs_wf lo (cut_runs a b rs) /\
  forall o, run_at (cut_runs a b rs) o = if inside a b o then None else run_at rs o.
Proof.
  intros H Hab. change (cut_runs a b rs) with
    (fold_left (cut_one b) (keys_in a b (cut_left a b rs)) (cut_left a b rs)).
  destruct (cut_left_spec lo a b rs H Hab) as (Hw & Hout & Hleft).
  destruct (cut_rest lo a b (keys_in a b (cut_left a b rs)) (cut_left a b rs) Hw) as [Hw' Hr'].
  - unfold keys_in. apply Forall_fmap, Forall_forall. intros x Hx. apply list_elem_of_filter in Hx.
    cbn. tauto.
  - done.
  - intros x Hx Hr. unfold keys_in. apply list_elem_of_fmap. exists x. split; [done|].
    by apply list_elem_of_filter.
  - split; [done|]. intros o. rewrite Hr'. destruct (inside a b o) eqn:E; [done|by apply Hout].
Qed.

Lemma set_runs_spec lo a b g rs : runs_wf lo rs -> lo <= a ->
  runs_wf lo (set_runs a b g rs) /\
  forall o, run_at (set_runs a b g rs) o = if inside a b o then Some g else run_at rs o.
Proof.
  intros H Hlo. unfold set_runs. destruct (Z.leb_spec b a).
  { split; [done|]. intros o. unfold inside.
    destruct (Z.leb_spec a o), (Z.ltb_spec o b); cbn; (done || lia). }
  destruct (cut_runs_spec lo a b rs H ltac:(lia)) as [Hw Hr].
  destruct (insert_run lo (cut_runs a b rs) a b g Hw Hlo) as [Hw' Hr']; [lia| |].
  { intros o Ho. rewrite Hr. unfold inside. destruct (Z.leb_spec a o), (Z.ltb_spec o b); cbn; (done || lia). }
  split; [done|]. intros o. rewrite Hr', Hr. fold (inside a b o). by destruct (inside a b o).
Qed.

(** Cutting adds at most one run. *)
Lemma insert_len {V} k (v : V) m : zlen (insert k v m) <= zlen m + 1.
Proof. induction m as [|[k' v'] m IH]; cbn; [zlia|]. repeat case_if; zlia. Qed.

Lemma insert_len_mem {V} lo k (v v' : V) m :
  sorted lo m -> (k, v') ∈ m -> zlen (insert k v m) = zlen m.
Proof.
  revert lo. induction m as [|[k0 v0] m IH]; intros lo Hs Hin; [by apply not_elem_of_nil in Hin|].
  destruct Hs as [? Hs]. cbn. apply elem_of_cons in Hin as [E|Hin].
  - simplify_eq. rewrite Z.ltb_irrefl, Z.eqb_refl. zlia.
  - pose proof (sorted_bound _ _ _ Hs Hin). cbn in *.
    destruct (Z.ltb_spec k k0); [lia|]. destruct (Z.eqb_spec k k0); [lia|].
    autorewrite with zlist. by rewrite (IH k0).
Qed.

Lemma remove_len_mem {V} k (v : V) m : (k, v) ∈ m -> zlen (remove k m) < zlen m.
Proof.
  intros Hin. unfold remove, zlen. apply inj_lt. induction m as [|[k' v'] m IH];
    [by apply not_elem_of_nil in Hin|]. rewrite filter_cons. apply elem_of_cons in Hin as [E|Hin].
  - simplify_eq. cbn. rewrite decide_False by auto. pose proof (length_filter (fun p => p.1 <> k') m). lia.
  - specialize (IH Hin). case_decide; cbn in *; lia.
Qed.

Lemma cut_one_len b rs s : zlen (cut_one b rs s) <= zlen rs.
Proof.
  unfold cut_one. destruct (get s rs) as [[e g]|] eqn:Hg; [|lia]. cbv zeta.
  pose proof (remove_len_mem _ _ _ (get_elem _ _ _ Hg)).
  case_if; [|lia]. pose proof (insert_len b (e, g) (remove s rs)). lia.
Qed.

Lemma cut_runs_len lo a b rs : runs_wf lo rs -> zlen (cut_runs a b rs) <= zlen rs + 1.
Proof.
  intros H. change (cut_runs a b rs) with
    (fold_left (cut_one b) (keys_in a b (cut_left a b rs)) (cut_left a b rs)).
  assert (forall ks rs, zlen (fold_left (cut_one b) ks rs) <= zlen rs) as Hf.
  { induction ks as [|s ks IH]; intros r; cbn; [lia|]. specialize (IH (cut_one b r s)).
    pose proof (cut_one_len b r s). lia. }
  specialize (Hf (keys_in a b (cut_left a b rs)) (cut_left a b rs)).
  assert (zlen (cut_left a b rs) <= zlen rs + 1); [|lia].
  unfold cut_left, last_before.
  pose proof (last_filter_spec (fun p => p.1 < a) _ _ (runs_wf_sorted _ _ H)) as Hl.
  destruct (last _) as [[s [e g]]|]; [|lia]. destruct Hl as (Hin & _).
  pose proof (insert_len_mem _ s (a, g) _ _ (runs_wf_sorted _ _ H) Hin) as E.
  case_if; [|lia]. cbv zeta. case_if; [|lia].
  pose proof (insert_len b (e, g) (insert s (a, g) rs)). lia.
Qed.
