(* ===== verification/Pieces.v ===== *)
(** * What [absorb] does to the out-of-order data

    [byte_at] reads a list of pieces as a partial map from stream offsets
    to bytes.  [absorb_spec] gives the effect of [absorb] on that map, on
    the provenance and on the accounting, for every overlap policy. *)

From S2P Require Import Prelude Flow BTree Ooo Runs.
Import BTreeMap Ooo.

Notation piece := (Z * Deque.t)%type.
Definition piece_end (p : piece) : Z := p.1 + Deque.len p.2.

(** Sorted, disjoint, non-adjacent, non-empty pieces within their
    capacity, the first starting after [lo]. *)
Fixpoint pieces_wf (lo : Z) (ps : list piece) : Prop :=
  match ps with
  | [] => True
  | p :: ps' =>
      lo < p.1 /\ 0 < Deque.len p.2 <= Deque.capacity p.2 /\ pieces_wf (piece_end p) ps'
  end.

Definition at_piece (p : piece) (o : Z) : option Z :=
  if p.1 <=? o then Deque.data p.2 !! Z.to_nat (o - p.1) else None.
Fixpoint byte_at (ps : list piece) (o : Z) : option Z :=
  match ps with
  | [] => None
  | p :: ps' => match at_piece p o with Some b => Some b | None => byte_at ps' o end
  end.

Lemma at_piece_Some p o b : at_piece p o = Some b -> p.1 <= o < piece_end p.
Proof.
  unfold at_piece, piece_end, Deque.len, zlen. case_if; [|done].
  intros H%lookup_lt_Some. lia.
Qed.

Lemma at_piece_in p o : p.1 <= o < piece_end p -> exists b, at_piece p o = Some b.
Proof.
  unfold at_piece, piece_end, Deque.len, zlen. intros H. destruct (Z.leb_spec p.1 o); [|lia].
  apply lookup_lt_is_Some. lia.
Qed.

Lemma at_piece_out p o : ~ (p.1 <= o < piece_end p) -> at_piece p o = None.
Proof. intros H. destruct (at_piece p o) eqn:E; [|done]. by apply at_piece_Some in E. Qed.

Lemma byte_at_app l r o :
  byte_at (l ++ r) o = match byte_at l o with Some b => Some b | None => byte_at r o end.
Proof. induction l as [|p l IH]; cbn; [done|]. rewrite IH. by destruct (at_piece p o). Qed.

Lemma byte_at_None ps o : Forall (fun p => ~ (p.1 <= o < piece_end p)) ps -> byte_at ps o = None.
Proof. induction 1 as [|p ps Hp Hps IH]; cbn; [done|]. by rewrite at_piece_out. Qed.

Lemma byte_at_Some ps o b : byte_at ps o = Some b -> exists p, p ∈ ps /\ p.1 <= o < piece_end p.
Proof.
  induction ps as [|p ps IH]; cbn; [done|]. destruct (at_piece p o) eqn:E.
  - intros _. exists p. split; [apply list_elem_of_here|by eapply at_piece_Some].
  - intros (q & Hq & Ho)%IH. exists q. split; [by apply list_elem_of_further|done].
Qed.

Lemma byte_at_in ps o p : p ∈ ps -> p.1 <= o < piece_end p -> byte_at ps o <> None.
Proof.
  intros Hp Ho. induction ps as [|q ps IH]; [by apply not_elem_of_nil in Hp|]. cbn.
  apply elem_of_cons in Hp as [->|Hp].
  - by destruct (at_piece_in q o Ho) as [b ->].
  - destruct (at_piece q o); [done|by apply IH].
Qed.

(** ** Well-formedness *)

Lemma pieces_wf_weaken lo lo' ps : lo' <= lo -> pieces_wf lo ps -> pieces_wf lo' ps.
Proof. destruct ps as [|p ps]; cbn; [done|]. intros ? (? & ? & ?). split_and!; [lia|lia..|done]. Qed.

Lemma pieces_wf_elem lo ps p : pieces_wf lo ps -> p ∈ ps ->
  lo < p.1 /\ 0 < Deque.len p.2 <= Deque.capacity p.2.
Proof.
  revert lo. induction ps as [|q ps IH]; intros lo H Hp; [by apply not_elem_of_nil in Hp|].
  destruct H as (? & ? & H). apply elem_of_cons in Hp as [->|Hp]; [done|].
  destruct (IH _ H Hp). unfold piece_end in *. lia.
Qed.

Lemma pieces_wf_sorted lo ps : pieces_wf lo ps -> sorted lo ps.
Proof.
  revert lo. induction ps as [|[s d] ps IH]; intros lo H; [done|]. destruct H as (? & ? & H).
  split; [done|]. apply (sorted_weaken (piece_end (s, d))); [unfold piece_end; cbn in *; lia|].
  by apply IH.
Qed.

Lemma pieces_wf_app lo l r : pieces_wf lo (l ++ r) <->
  pieces_wf lo l /\ pieces_wf (match last l with Some p => piece_end p | None => lo end) r.
Proof.
  revert lo. induction l as [|p l IH]; intros lo; [cbn; tauto|]. cbn [app pieces_wf]. rewrite IH.
  destruct l as [|q l]; [cbn; tauto|]. rewrite last_cons_cons.
  destruct (last (q :: l)) eqn:E; [tauto|]. by apply last_None in E.
Qed.

Lemma pieces_wf_ends lo hi l : pieces_wf lo l -> lo <= hi -> Forall (fun p => piece_end p <= hi) l ->
  match last l with Some p => piece_end p | None => lo end <= hi.
Proof.
  intros _ Hlo Hl. destruct (last l) as [p|] eqn:E; [|done].
  apply last_Some_elem_of in E. rewrite Forall_forall in Hl. by apply Hl.
Qed.

(** Every byte held is after [lo]. *)
Lemma byte_at_lo lo ps o b : pieces_wf lo ps -> byte_at ps o = Some b -> lo < o.
Proof.
  intros H (p & Hp & Ho)%byte_at_Some. destruct (pieces_wf_elem _ _ _ H Hp). lia.
Qed.

(** What coalescing and overwriting keep. *)
Definition shape (ps : list piece) : list (Z * Z * Z) :=
  (fun p => (p.1, Deque.len p.2, Deque.capacity p.2)) <$> ps.

Lemma pieces_wf_shape ps ps' lo : shape ps = shape ps' -> pieces_wf lo ps -> pieces_wf lo ps'.
Proof.
  revert ps' lo. induction ps as [|p ps IH]; intros [|p' ps'] lo E H; try done.
  unfold shape in E. cbn in E. injection E as E1 E2 E3 E. destruct H as (? & ? & H). cbn.
  rewrite <- E1, <- E2, <- E3. split_and!; [done|lia|lia|].
  replace (piece_end p') with (piece_end p) by (unfold piece_end; lia). by apply IH.
Qed.

(** ** The pieces a segment touches *)

Definition before (x : Z) : list piece -> Prop := Forall (fun p => piece_end p < x).
Definition after (x : Z) : list piece -> Prop := Forall (fun p => x < p.1).
Definition touching (a b : Z) : list piece -> Prop := Forall (fun p => p.1 <= b /\ a <= piece_end p).

Lemma pieces_wf_after lo ps x : pieces_wf lo ps -> x <= lo -> after x ps.
Proof.
  intros H Hx. apply Forall_forall. intros p Hp. destruct (pieces_wf_elem _ _ _ H Hp). lia.
Qed.

Lemma split_pieces lo a b ps : pieces_wf lo ps -> a <= b ->
  exists l m r, ps = l ++ m ++ r /\ before a l /\ touching a b m /\ after b r.
Proof.
  revert lo. induction ps as [|p ps IH]; intros lo H Hab.
  { exists [], [], []. split_and!; constructor. }
  destruct H as (? & ? & H). destruct (IH _ H Hab) as (l & m & r & -> & Hl & Hm & Hr).
  destruct (Z.lt_ge_cases (piece_end p) a) as [Hp|Hp].
  { exists (p :: l), m, r. split_and!; [done|by constructor|done|done]. }
  assert (l = []) as ->.
  { destruct l as [|q l]; [done|]. inversion Hl as [|? ? Hq _]; subst. destruct H as (? & ? & _).
    unfold piece_end in *. lia. }
  destruct (Z.le_gt_cases p.1 b).
  { exists [], (p :: m), r. split_and!; [done|done|by constructor|done]. }
  assert (m = []) as ->.
  { destruct m as [|q m]; [done|]. inversion Hm as [|? ? Hq _]; subst. destruct H as (? & ? & _).
    unfold piece_end in *. lia. }
  exists [], [], (p :: r). split_and!; [done|done|done|]. by constructor.
Qed.

Lemma take_while_app {A} (f : A -> bool) l r :
  Forall (fun x => f x = true) l -> Forall (fun x => f x = false) r -> take_while f (l ++ r) = l.
Proof.
  intros Hl Hr. induction Hl as [|x l Hx Hl IH]; cbn.
  - destruct Hr as [|y r Hy Hr]; [done|]. cbn. by rewrite Hy.
  - by rewrite Hx, IH.
Qed.

Lemma hits_spec lo a b l m r : pieces_wf lo (l ++ m ++ r) -> a <= b ->
  before a l -> touching a b m -> after b r -> hits a b (l ++ m ++ r) = fst <$> m.
Proof.
  intros H Hab Hl Hm Hr. unfold hits.
  assert (filter (fun p => p.1 <= b) (l ++ m ++ r) = l ++ m) as ->.
  { rewrite !filter_app, (filter_none _ r), app_nil_r.
    - rewrite !filter_all; [done| |].
      + eapply Forall_impl; [exact Hm|]. cbn. lia.
      + apply Forall_forall. intros p Hp. unfold before in Hl. rewrite Forall_forall in Hl.
        specialize (Hl p Hp). destruct (pieces_wf_elem _ _ p H); [apply elem_of_app; by left|].
        unfold piece_end in *. lia.
    - eapply Forall_impl; [exact Hr|]. cbn. lia. }
  rewrite rev_app_distr, take_while_app.
  - change (fst <$> rev m) with (map fst (rev m)). by rewrite map_rev, rev_involutive.
  - apply Forall_rev. eapply Forall_impl; [exact Hm|]. cbn. intros p Hp. apply Z.leb_le.
    unfold piece_end in *. lia.
  - apply Forall_rev. eapply Forall_impl; [exact Hl|]. cbn. intros p Hp. apply Z.leb_gt. exact Hp.
Qed.

Lemma omap_hits {A} (f : Z -> Deque.t -> A) ps m :
  Forall (fun p => get p.1 ps = Some p.2) m ->
  omap (fun s => f s <$> get s ps) (fst <$> m) = (fun p => f p.1 p.2) <$> m.
Proof.
  induction 1 as [|p m Hp Hm IH]; [done|]. rewrite fmap_cons. cbn.
  rewrite Hp. cbn. by f_equal.
Qed.

Lemma get_pieces lo ps m : pieces_wf lo ps -> (forall p, p ∈ m -> p ∈ ps) ->
  Forall (fun p => get p.1 ps = Some p.2) m.
Proof.
  intros H Hm. apply Forall_forall. intros p Hp. apply (elem_get lo).
  - by apply pieces_wf_sorted.
  - rewrite <- surjective_pairing. by apply Hm.
Qed.

Lemma mid_in {A} (l m r : list A) x : x ∈ m -> x ∈ l ++ m ++ r.
Proof. intros. apply elem_of_app. right. apply elem_of_app. by left. Qed.

(** Removing the hits leaves the other pieces. *)
Lemma remove_hits lo l m r : pieces_wf lo (l ++ m ++ r) ->
  fold_left (fun ps s => remove s ps) (fst <$> m) (l ++ m ++ r) = l ++ r.
Proof.
  revert l. induction m as [|p m IH]; intros l H; [done|]. cbn [fold_left fmap list_fmap].
  assert (remove p.1 (l ++ (p :: m) ++ r) = l ++ m ++ r) as ->.
  { pose proof (pieces_wf_sorted _ _ H) as Hs. apply sorted_app in Hs as [Hs1 Hs2].
    rewrite remove_app, remove_absent.
    - f_equal. unfold remove. cbn [app]. rewrite filter_cons_False by (intros Hn; by apply Hn).
      apply filter_all. apply Forall_forall. intros q Hq.
      assert (sorted p.1 (m ++ r)) as Hs3.
      { destruct p. cbn in Hs2 |- *. destruct (last l); tauto. }
      pose proof (sorted_bound _ _ _ Hs3 Hq). lia.
    - apply Forall_forall. intros q Hq.
      assert (match last l with Some x => x.1 | None => lo end < p.1).
      { destruct p. cbn in Hs2 |- *. destruct (last l); tauto. }
      assert (q.1 <= match last l with Some x => x.1 | None => lo end); [|lia].
      clear -Hq Hs1. revert lo Hs1. induction l as [|x l IH]; intros lo Hs; [by apply not_elem_of_nil in Hq|].
      destruct x as [k v], Hs as [Hk Hs]. destruct l as [|y l].
      + apply list_elem_of_singleton in Hq as ->. cbn. lia.
      + rewrite last_cons_cons. apply elem_of_cons in Hq as [->|Hq].
        * destruct (last (y :: l)) eqn:E; [|by apply last_None in E].
          apply last_Some_elem_of in E. pose proof (sorted_bound _ _ _ Hs E). cbn. lia.
        * specialize (IH Hq k Hs). destruct (last (y :: l)) eqn:E; [done|by apply last_None in E]. }
  apply IH. clear IH. apply pieces_wf_app in H as [H1 H2]. apply pieces_wf_app. split; [done|].
  destruct H2 as (? & ? & H2). eapply pieces_wf_weaken; [|exact H2].
  assert (p.1 < piece_end p) by (unfold piece_end; lia). lia.
Qed.

Lemma last_end_max lo l q : pieces_wf lo l -> q ∈ l ->
  piece_end q <= match last l with Some p => piece_end p | None => lo end.
Proof.
  revert lo. induction l as [|x l IH]; intros lo Hl Hq; [by apply not_elem_of_nil in Hq|].
  destruct Hl as (? & ? & Hl). destruct l as [|y l].
  - apply list_elem_of_singleton in Hq as ->. cbn. lia.
  - rewrite last_cons_cons. destruct (last (y :: l)) eqn:E; [|by apply last_None in E].
    apply elem_of_cons in Hq as [->|Hq]; [|by apply (IH (piece_end x))].
    apply last_Some_elem_of in E. destruct (pieces_wf_elem _ _ _ Hl E). unfold piece_end at 2. lia.
Qed.

(** ** Overwriting *)

Lemma overwrite_spec start payload p a b :
  p.1 <= a -> a < b -> b <= piece_end p -> start <= a -> b <= start + zlen payload ->
  let d := overwrite start payload p.1 a b p.2 in
  Deque.len d = Deque.len p.2 /\ Deque.capacity d = Deque.capacity p.2 /\
  forall o, at_piece (p.1, d) o = if inside a b o then payload !! Z.to_nat (o - start) else at_piece p o.
Proof.
  intros H1 H2 H3 H4 H5. unfold overwrite, piece_end, Deque.len in *. cbv zeta. cbn.
  set (L := Deque.data p.2) in *.
  assert (zlen (ztake (a - p.1) L) = a - p.1) as E1 by zlia.
  assert (zlen (zslice (a - start) (b - start) payload) = b - a) as E2 by (unfold zslice; zlia).
  assert (zlen (zdrop (b - p.1) L) = zlen L - (b - p.1)) as E3 by zlia.
  assert (length (ztake (a - p.1) L) = Z.to_nat (a - p.1)) as N1 by (unfold zlen in E1; lia).
  assert (length (zslice (a - start) (b - start) payload) = Z.to_nat (b - a)) as N2
    by (unfold zlen in E2; lia).
  split_and!; [rewrite !zlen_app; lia|done|]. intros o. unfold at_piece. cbn. fold L.
  unfold inside. destruct (Z.leb_spec p.1 o), (Z.leb_spec a o), (Z.ltb_spec o b); cbn; try lia; try done.
  - rewrite lookup_app_r, lookup_app_l by lia. rewrite N1. unfold zslice, ztake, zdrop.
    rewrite lookup_take_lt, lookup_drop by lia. f_equal. lia.
  - rewrite !lookup_app_r by lia. rewrite N1, N2. unfold zdrop. rewrite lookup_drop. f_equal. lia.
  - rewrite lookup_app_l by lia. unfold ztake. apply lookup_take_lt. lia.
Qed.

Lemma last_upto_piece lo l p r a : pieces_wf lo (l ++ p :: r) -> p.1 <= a < piece_end p ->
  last_upto a (l ++ p :: r) = Some p.
Proof.
  intros H Ha. unfold last_upto. apply pieces_wf_app in H as [H1 (_ & _ & H2)].
  rewrite filter_app, filter_cons_True by lia.
  rewrite (filter_none _ r); cycle 1.
  { apply Forall_forall. intros q Hq. destruct (pieces_wf_elem _ _ _ H2 Hq). lia. }
  apply last_snoc.
Qed.

Lemma insert_replace lo l p r d : pieces_wf lo (l ++ p :: r) ->
  insert p.1 d (l ++ p :: r) = l ++ (p.1, d) :: r.
Proof.
  intros H. pose proof (pieces_wf_sorted _ _ H) as Hs. clear H.
  revert lo Hs. induction l as [|[k v] l IH]; intros lo Hs; cbn.
  - destruct p as [s v]. cbn. by rewrite Z.ltb_irrefl, Z.eqb_refl.
  - destruct Hs as [? Hs]. pose proof (sorted_bound k _ p Hs ltac:(apply elem_of_app; right; apply list_elem_of_here)).
    destruct (Z.ltb_spec p.1 k); [lia|]. destruct (Z.eqb_spec p.1 k); [lia|]. by rewrite (IH k).
Qed.

(** The range [ab] lies in a piece and in the new segment. *)
Definition in_range (start : Z) (payload : list Z) (ps : list piece) (ab : Z * Z) : Prop :=
  start <= ab.1 /\ ab.1 < ab.2 /\ ab.2 <= start + zlen payload /\
  exists s n c, (s, n, c) ∈ shape ps /\ s <= ab.1 /\ ab.2 <= s + n.

Definition written (W : list (Z * Z)) (o : Z) : bool := existsb (fun ab => inside ab.1 ab.2 o) W.

Lemma write_spec lo sq start payload ps rs ab :
  pieces_wf lo ps -> in_range start payload ps ab -> runs_wf lo rs -> lo <= start ->
  let '(ps', rs') := write sq start payload (ps, rs) ab in
  shape ps' = shape ps /\
  (forall o, byte_at ps' o = if inside ab.1 ab.2 o then payload !! Z.to_nat (o - start) else byte_at ps o) /\
  runs_wf lo rs' /\
  (forall o, run_at rs' o = if sq && inside ab.1 ab.2 o then Some start else run_at rs o).
Proof.
  destruct ab as [a b]. intros H (Ha & Hab & Hb & s & n & c & Hin & Hs & Hn) Hr Hlo. cbn [fst snd] in *.
  apply list_elem_of_fmap in Hin as (p & E & Hp). simplify_eq. apply list_elem_of_split in Hp as (l & r & ->).
  unfold write. rewrite (last_upto_piece lo) by (try done; unfold piece_end; lia).
  destruct p as [s d]. cbn [fst snd] in *.
  destruct (overwrite_spec start payload (s, d) a b) as (E1 & E2 & E3); cbn; try done.
  cbn [fst snd] in E1, E2, E3. set (d' := overwrite start payload s a b d) in *.
  change (insert s d' (l ++ (s, d) :: r)) with (insert (s, d).1 d' (l ++ (s, d) :: r)).
  rewrite (insert_replace lo l (s, d) r d' H). split_and!.
  - unfold shape. rewrite !fmap_app, !fmap_cons. cbn [fst snd]. by rewrite E1, E2.
  - intros o. rewrite !byte_at_app. cbn. rewrite E3. destruct (inside a b o) eqn:Ho; [|done].
    unfold inside in Ho. zb. apply pieces_wf_app in H as [Hl Hpr].
    rewrite (byte_at_None l); cycle 1.
    { apply Forall_forall. intros q Hq Hoq.
      pose proof (last_end_max _ _ _ Hl Hq).
      destruct Hpr as (? & _). cbn in *. lia. }
    destruct (lookup_lt_is_Some_2 payload (Z.to_nat (o - start))) as [x ->]; [unfold zlen in Hb; lia|done].
  - destruct sq; [|done]. by apply set_runs_spec; [|lia].
  - intros o. destruct sq; cbn [andb]; [|done].
    destruct (set_runs_spec lo a b start rs Hr ltac:(lia)) as [_ ->]. done.
Qed.

Lemma writes_spec lo sq start payload W : forall ps rs,
  pieces_wf lo ps -> Forall (in_range start payload ps) W -> runs_wf lo rs -> lo <= start ->
  let '(ps', rs') := fold_left (write sq start payload) W (ps, rs) in
  shape ps' = shape ps /\
  (forall o, byte_at ps' o = if written W o then payload !! Z.to_nat (o - start) else byte_at ps o) /\
  runs_wf lo rs' /\
  (forall o, run_at rs' o = if sq && written W o then Some start else run_at rs o).
Proof.
  induction W as [|ab W IH]; intros ps rs H HW Hr Hlo; [cbn; rewrite andb_false_r; done|].
  inversion HW as [|? ? Hab HW']; subst. cbn [fold_left].
  pose proof (write_spec lo sq start payload ps rs ab H Hab Hr Hlo) as Hw.
  destruct (write sq start payload (ps, rs) ab) as [ps1 rs1]. destruct Hw as (S1 & B1 & R1 & G1).
  specialize (IH ps1 rs1). destruct (fold_left _ W _) as [ps2 rs2].
  destruct IH as (S2 & B2 & R2 & G2); [by eapply pieces_wf_shape| |done|done|].
  - eapply Forall_impl; [exact HW'|]. unfold in_range. intros x. by rewrite S1.
  - split_and!; [congruence| |done|].
    + intros o. cbn [written existsb]. fold (written W o). rewrite B2, B1.
      by destruct (inside ab.1 ab.2 o), (written W o).
    + intros o. cbn [written existsb]. fold (written W o). rewrite G2, G1.
      by destruct sq, (inside ab.1 ab.2 o), (written W o).
Qed.

(** ** Which bytes the new segment wins *)

(** The supplier of a held byte, as the policy sees it. *)
Definition prov (policy : TcpOverlapPolicy) (rs : list run) (o : Z) : option Z :=
  if is_seq_policy policy then run_at rs o else None.

Lemma written_app W1 W2 o : written (W1 ++ W2) o = written W1 o || written W2 o.
Proof. apply existsb_app. Qed.

Lemma inside_split a b c o : a <= b <= c -> inside a c o = inside a b o || inside b c o.
Proof.
  intros. unfold inside.
  destruct (Z.leb_spec a o), (Z.ltb_spec o c), (Z.ltb_spec o b), (Z.leb_spec b o); cbn; (done || lia).
Qed.

Lemma win_ranges_spec lo policy rs start fuel : forall at_ o_end,
  runs_wf lo rs -> (Z.to_nat (o_end - at_) <= fuel)%nat ->
  Forall (fun ab => at_ <= ab.1 /\ ab.1 < ab.2 /\ ab.2 <= o_end)
    (win_ranges fuel policy rs start at_ o_end) /\
  forall o, written (win_ranges fuel policy rs start at_ o_end) o =
    inside at_ o_end o && new_wins policy start (prov policy rs o).
Proof.
  induction fuel as [|fuel IH]; intros at_ o_end H Hf; cbn [win_ranges].
  - split; [constructor|]. intros o. unfold inside. cbn.
    destruct (Z.leb_spec at_ o), (Z.ltb_spec o o_end); cbn; (done || lia).
  - destruct (Z.ltb_spec at_ o_end); cycle 1.
    { split; [constructor|]. intros o. unfold inside. cbn.
      destruct (Z.leb_spec at_ o), (Z.ltb_spec o o_end); cbn; (done || lia). }
    cbv zeta. set (e := if is_seq_policy policy then _ else o_end).
    assert (at_ < e <= o_end /\ forall o, inside at_ e o = true -> prov policy rs o = prov policy rs at_)
      as [He Hprov].
    { unfold e, prov. destruct (is_seq_policy policy); [|split; [lia|done]].
      destruct (run_end_spec lo rs at_ H) as [? Hre]. split; [lia|]. intros o Ho. unfold inside in Ho. zb.
      apply Hre. lia. }
    destruct (IH e o_end H ltac:(lia)) as [HF HW].
    rewrite (seg_of_run_at lo) by done. fold (prov policy rs at_).
    split.
    + apply Forall_app. split.
      * case_if; [|constructor]. constructor; [cbn; lia|constructor].
      * eapply Forall_impl; [exact HF|]. cbn. lia.
    + intros o. rewrite written_app, HW, (inside_split at_ e o_end) by lia.
      destruct (inside at_ e o) eqn:Ho.
      * rewrite (Hprov o Ho).
        assert (inside e o_end o = false) as -> by (unfold inside in *; zb; destruct (Z.leb_spec e o); [lia|done]).
        cbn [orb andb]. rewrite orb_false_r. case_if; [|done]. cbn. by rewrite Ho.
      * cbn [orb]. assert (written (if new_wins policy start (prov policy rs at_) then [(at_, e)] else []) o = false)
          as ->; [|done]. case_if; [|done]. cbn. by rewrite Ho.
Qed.

(** The writes of one hit piece. *)
Lemma resolve_spec lo policy rs start payload p :
  runs_wf lo rs ->
  let '(ov, _, W) := resolve policy rs start payload p.1 p.2 in
  let e := start + zlen payload in
  ov = (Z.max start p.1 <? Z.min e (piece_end p)) /\
  Forall (fun ab => Z.max start p.1 <= ab.1 /\ ab.1 < ab.2 /\ ab.2 <= Z.min e (piece_end p)) W /\
  forall o, written W o =
    inside start e o && inside p.1 (piece_end p) o && new_wins policy start (prov policy rs o).
Proof.
  intros H. unfold resolve. cbv zeta. fold (piece_end p).
  set (a := Z.max start p.1). set (b := Z.min _ _).
  assert (forall o, inside start (start + zlen payload) o && inside p.1 (piece_end p) o = inside a b o) as Hi.
  { intros o. unfold inside, a, b.
    destruct (Z.leb_spec start o), (Z.ltb_spec o (start + zlen payload)), (Z.leb_spec p.1 o),
      (Z.ltb_spec o (piece_end p)), (Z.leb_spec (Z.max start p.1) o),
      (Z.ltb_spec o (Z.min (start + zlen payload) (piece_end p))); cbn; (done || lia). }
  destruct (Z.leb_spec b a).
  - split_and!; [symmetry; apply Z.ltb_ge; lia|constructor|]. intros o. rewrite Hi. cbn.
    unfold inside. destruct (Z.leb_spec a o), (Z.ltb_spec o b); cbn; (done || lia).
  - destruct (win_ranges_spec lo policy rs start (Z.to_nat (b - a)) a b H ltac:(lia)) as [HF HW].
    split_and!; [symmetry; apply Z.ltb_lt; lia|done|]. intros o. by rewrite HW, Hi.
Qed.

Lemma all_writes lo policy rs start payload l m r :
  runs_wf lo rs -> pieces_wf lo (l ++ m ++ r) ->
  before start l -> touching start (start + zlen payload) m -> after (start + zlen payload) r ->
  let W := concat (snd <$> ((fun p => resolve policy rs start payload p.1 p.2) <$> m)) in
  let ps := l ++ m ++ r in
  Forall (in_range start payload ps) W /\
  forall o, written W o =
    inside start (start + zlen payload) o && is_some (byte_at ps o) &&
    new_wins policy start (prov policy rs o).
Proof.
  intros Hr H Hl Hm Haf. cbv zeta. set (e := start + zlen payload) in *.
  assert (forall o, inside start e o = true ->
    is_some (byte_at (l ++ m ++ r) o) = existsb (fun p => inside p.1 (piece_end p) o) m) as Hmid.
  { intros o Ho. unfold inside in Ho. zb. rewrite !byte_at_app, (byte_at_None l), (byte_at_None r).
    - destruct (byte_at m o) eqn:E.
      + apply byte_at_Some in E as (p & Hp & Hpo). symmetry. apply existsb_exists.
        exists p. split; [by apply list_elem_of_In|]. unfold inside.
        destruct (Z.leb_spec p.1 o), (Z.ltb_spec o (piece_end p)); cbn; (done || lia).
      + cbn. symmetry. apply not_true_iff_false. intros (p & Hp & Hpo)%existsb_exists.
        apply list_elem_of_In in Hp. unfold inside in Hpo. zb. by apply (byte_at_in m o p).
    - eapply Forall_impl; [exact Haf|]. cbn. lia.
    - eapply Forall_impl; [exact Hl|]. cbn. lia. }
  assert (forall m', (forall p, p ∈ m' -> p ∈ l ++ m ++ r) ->
    let W := concat (snd <$> ((fun p => resolve policy rs start payload p.1 p.2) <$> m')) in
    Forall (in_range start payload (l ++ m ++ r)) W /\
    forall o, written W o = inside start e o && existsb (fun p => inside p.1 (piece_end p) o) m' &&
      new_wins policy start (prov policy rs o)) as Hall.
  { clear Hm. induction m' as [|p m' IH]; intros Hin.
    - cbn. split; [constructor|]. intros o. by rewrite andb_false_r.
    - rewrite fmap_cons.
      pose proof (resolve_spec lo policy rs start payload p Hr) as Hres.
      destruct (resolve _ _ _ _ _ _) as [[ov dv] W]. destruct Hres as (_ & HF & HW).
      destruct IH as [IHF IHW]; [intros q Hq; apply Hin; by apply list_elem_of_further|].
      cbv zeta. rewrite fmap_cons. cbn [concat snd existsb]. split.
      + apply Forall_app. split; [|done]. eapply Forall_impl; [exact HF|]. intros [a b] (? & ? & ?). unfold in_range. cbn [fst snd] in *.
        split_and!; [lia|lia|fold e; lia|]. exists p.1, (Deque.len p.2), (Deque.capacity p.2).
        split; [|unfold piece_end in *; cbn; lia]. apply list_elem_of_fmap. exists p. split; [done|].
        apply Hin, list_elem_of_here.
      + intros o. rewrite written_app, HW, IHW. fold e.
        destruct (inside start e o), (inside p.1 (piece_end p) o), (existsb _ m'),
          (new_wins policy start (prov policy rs o)); done. }
  destruct (Hall m) as [HF HW]; [intros; by apply mid_in|]. split; [done|]. intros o. rewrite HW.
  destruct (inside start e o) eqn:Ho; [|done]. cbn [andb]. by rewrite Hmid.
Qed.

(** ** Coalescing *)

(** [l] spells [F] on [lo, hi). *)
Definition spells (l : list Z) (lo hi : Z) (F : Z -> option Z) : Prop :=
  zlen l = hi - lo /\ forall o, lo <= o < hi -> l !! Z.to_nat (o - lo) = F o.

Lemma spells_nil lo F : spells [] lo lo F.
Proof. split; [unfold zlen; cbn; lia|]. lia. Qed.

Lemma spells_app l1 l2 lo mid hi F :
  spells l1 lo mid F -> spells l2 mid hi F -> spells (l1 ++ l2) lo hi F.
Proof.
  intros [H1 F1] [H2 F2]. pose proof (zlen_nonneg l1). split; [zlia|]. intros o Ho.
  assert (length l1 = Z.to_nat (mid - lo)) as E by (unfold zlen in H1; lia).
  destruct (Z.lt_ge_cases o mid).
  - rewrite lookup_app_l by lia. apply F1. lia.
  - rewrite lookup_app_r by lia. rewrite <- F2 by (unfold zlen in *; lia). f_equal. lia.
Qed.

Lemma spells_piece p F : (forall o, p.1 <= o < piece_end p -> F o = at_piece p o) ->
  spells (Deque.data p.2) p.1 (piece_end p) F.
Proof.
  intros H. split; [unfold piece_end, Deque.len; lia|]. intros o Ho. rewrite H by done.
  unfold at_piece. destruct (Z.leb_spec p.1 o); [done|lia].
Qed.

Lemma spells_slice start payload lo hi F :
  start <= lo <= hi -> hi <= start + zlen payload ->
  (forall o, lo <= o < hi -> F o = payload !! Z.to_nat (o - start)) ->
  spells (zslice (lo - start) (hi - start) payload) lo hi F.
Proof.
  intros H1 H2 H. split; [unfold zslice; zlia|]. intros o Ho. rewrite H by done.
  unfold zslice, ztake, zdrop. rewrite lookup_take_lt, lookup_drop by lia. f_equal. lia.
Qed.

Lemma zsum_app a b : zsum (a ++ b) = zsum a + zsum b.
Proof. unfold zsum. induction a as [|x a IH]; cbn; lia. Qed.

Definition news_sum (fs : list (Z * Z * option nat)) : Z := zsum (fill_len <$> filter is_new fs).

Lemma news_sum_cons f fs : news_sum (f :: fs) = (if is_new f then fill_len f else 0) + news_sum fs.
Proof. unfold news_sum. rewrite filter_cons. case_decide as H; by destruct (is_new f). Qed.

Lemma news_sum_app fs gs : news_sum (fs ++ gs) = news_sum fs + news_sum gs.
Proof. unfold news_sum. by rewrite filter_app, fmap_app, zsum_app. Qed.

#[local] Arguments news_sum : simpl never.
Lemma zsum_cons x l : zsum (x :: l) = x + zsum l.
Proof. done. Qed.

(** Pieces [ps] behind [cursor], the first [i] of [M] being before it. *)
Section filling.
Context (M : list piece) (start : Z) (payload : list Z) (F : Z -> option Z).
Notation e := (start + zlen payload).
Context (Fpiece : forall p o, p ∈ M -> p.1 <= o < piece_end p -> F o = at_piece p o).
Context (Fnew : forall o, start <= o < e -> Forall (fun p => ~ (p.1 <= o < piece_end p)) M ->
  F o = payload !! Z.to_nat (o - start)).

Definition union_end_from (cursor : Z) (ps : list piece) : Z :=
  match last ps with Some p => Z.max (piece_end p) e | None => Z.max cursor e end.

Lemma union_end_cons cursor p ps :
  union_end_from cursor (p :: ps) = union_end_from (piece_end p) ps.
Proof.
  unfold union_end_from. destruct ps as [|q ps]; [done|]. rewrite last_cons_cons.
  destruct (last (q :: ps)) eqn:E; [done|]. by apply last_None in E.
Qed.

Lemma fill_spec ps : forall pre cursor lo,
  M = pre ++ ps -> Forall (fun p => piece_end p <= cursor) pre ->
  pieces_wf lo ps -> Forall (fun p => p.1 <= e) ps ->
  match ps with p :: _ => cursor <= p.1 | [] => True end ->
  start <= cursor \/ match ps with p :: _ => cursor = p.1 /\ start <= piece_end p | [] => False end ->
  let ue := union_end_from cursor ps in
  let fs := fill cursor ue (length pre) ps in
  cursor <= ue /\
  spells (concat (fill_bytes M start payload <$> fs)) cursor ue F /\
  news_sum fs + zsum ((fun p => Deque.len p.2) <$> ps) = ue - cursor /\
  zsum (fill_len <$> fs) = ue - cursor /\
  (forall f, f ∈ fs -> is_new f = true -> start <= f.1.1 /\ f.1.1 < f.1.2 /\ f.1.2 <= e) /\
  (forall o, existsb (fun f => is_new f && inside f.1.1 f.1.2 o) fs =
     inside cursor ue o && negb (existsb (fun p => inside p.1 (piece_end p) o) ps)).
Proof.
  induction ps as [|p ps IH]; intros pre cursor lo EM Hpre H He Hc Hs.
  - destruct Hs as [Hs|[]]. cbn [fill union_end_from last]. unfold union_end_from. cbn [last].
    destruct (Z.ltb_spec cursor (Z.max cursor e)) as [Hlt|Hge].
    + replace (Z.max cursor e) with e in * by lia.
      cbn. rewrite app_nil_r. split_and!; try lia.
      * unfold fill_bytes. cbn [fst snd]. apply spells_slice; [lia|lia|]. intros o Ho. apply Fnew; [lia|].
        rewrite EM, app_nil_r. eapply Forall_impl; [exact Hpre|]. cbn. lia.
      * rewrite news_sum_cons. unfold news_sum, zsum, fill_len. cbn. lia.
      * unfold zsum, fill_len. cbn. lia.
      * intros f Hf%list_elem_of_singleton _. subst. cbn. lia.
      * intros o. rewrite !andb_true_r, orb_false_r. done.
    + replace (Z.max cursor e) with cursor by lia. cbn.
      split_and!; try (unfold news_sum, zsum; cbn; lia).
      * apply spells_nil.
      * intros f Hf. by apply not_elem_of_nil in Hf.
      * intros o. unfold inside. destruct (Z.leb_spec cursor o), (Z.ltb_spec o cursor); cbn; (done || lia).
  - destruct H as (Hlo & Hlen & H). inversion He as [|? ? Hpe He']; subst.
    assert (p.1 < piece_end p) as Hpp by (unfold piece_end; lia).
    assert (start <= piece_end p) as Hsp by (destruct Hs as [|[_ ?]]; lia).
    destruct (IH (pre ++ [p]) (piece_end p) (piece_end p)) as (I0 & I1 & I2 & I3 & I4 & I5).
    { by rewrite <- app_assoc. }
    { apply Forall_app. split; [eapply Forall_impl; [exact Hpre|cbn; lia]|]. by constructor. }
    { done. } { done. }
    { destruct ps as [|q ps]; [done|]. destruct H as (? & _). lia. }
    { by left. }
    cbv zeta. rewrite union_end_cons.
    rewrite length_app in *. cbn [length] in *. replace (length pre + 1)%nat with (S (length pre)) in * by lia.
    set (ue := union_end_from (piece_end p) ps) in *.
    set (fs := fill (piece_end p) ue (S (length pre)) ps) in *.
    destruct p as [s d]. cbn [fst snd fill] in *. change (s + Deque.len d) with (piece_end (s, d)). fold fs.
    set (hole := if cursor <? s then [(cursor, s, @None nat)] else []).
    assert (spells (concat (fill_bytes (pre ++ (s, d) :: ps) start payload <$> hole)) cursor s F /\
      news_sum hole = s - cursor /\
      zsum (fill_len <$> hole) = s - cursor /\
      (forall f, f ∈ hole -> is_new f = true -> start <= f.1.1 /\ f.1.1 < f.1.2 /\ f.1.2 <= e) /\
      (forall o, existsb (fun f => is_new f && inside f.1.1 f.1.2 o) hole = inside cursor s o))
      as (J1 & J2 & J3 & J4 & J5).
    { unfold hole. destruct (Z.ltb_spec cursor s) as [Hlt|Hge].
      - assert (start <= cursor) as Hsc by (destruct Hs as [|[? _]]; lia).
        rewrite news_sum_cons. cbn. rewrite app_nil_r. unfold news_sum, zsum, fill_len. cbn.
        split_and!; try lia.
        + unfold fill_bytes. cbn [fst snd]. apply spells_slice; [lia|lia|]. intros o Ho.
          apply Fnew; [lia|]. apply Forall_app. split.
          * eapply Forall_impl; [exact Hpre|]. cbn. lia.
          * constructor; [cbn; lia|]. apply Forall_forall. intros q Hq.
            destruct (pieces_wf_elem _ _ _ H Hq). lia.
        + intros f Hf%list_elem_of_singleton _. subst. cbn. lia.
        + intros o. by rewrite orb_false_r.
      - cbn. replace s with cursor by lia.
        split_and!; try (unfold news_sum, zsum; cbn; lia); [apply spells_nil|..].
        + intros f Hf. by apply not_elem_of_nil in Hf.
        + intros o. unfold inside. destruct (Z.leb_spec cursor o), (Z.ltb_spec o cursor); cbn; (done || lia). }
    assert (spells (fill_bytes (pre ++ (s, d) :: ps) start payload (s, piece_end (s, d), Some (length pre)))
      s (piece_end (s, d)) F) as J6.
    { unfold fill_bytes. cbn [fst snd]. rewrite lookup_app_r, Nat.sub_diag by lia. cbn.
      apply (spells_piece (s, d)). intros o Ho. apply Fpiece; [|done].
      apply elem_of_app. right. apply list_elem_of_here. }
    split_and!.
    + lia.
    + rewrite fmap_app, concat_app, fmap_cons. cbn [concat].
      eapply spells_app; [exact J1|]. by eapply spells_app; [exact J6|].
    + rewrite news_sum_app, J2, news_sum_cons, fmap_cons, zsum_cons. cbn [is_new is_none is_some negb snd].
      assert (piece_end (s, d) = s + Deque.len d) by done. cbn [fst snd]. lia.
    + rewrite fmap_app, zsum_app, fmap_cons, J3, zsum_cons, I3. unfold fill_len. cbn. lia.
    + intros f [Hf|Hf]%elem_of_app; [by apply J4|]. apply elem_of_cons in Hf as [->|Hf]; [done|by apply I4].
    + intros o. rewrite existsb_app, J5. cbn [existsb is_new is_none is_some negb snd andb orb]. rewrite I5.
      assert (forall x, inside s (piece_end (s, d)) o = true ->
        existsb (fun p => inside p.1 (piece_end p) o) ps = x -> x = false) as Hdis.
      { intros x Ho <-. apply not_true_iff_false. intros (q & Hq & Hqo)%existsb_exists.
        apply list_elem_of_In in Hq. destruct (pieces_wf_elem _ _ _ H Hq).
        unfold inside in *. zb. lia. }
      rewrite (inside_split cursor s ue), (inside_split s (piece_end (s, d)) ue) by lia.
      assert (forall a b c, inside a b o = true -> b <= c -> forall d, inside c d o = false) as Hsep.
      { intros a b c Ho Hbc d'. unfold inside in *. zb. destruct (Z.leb_spec c o); [lia|done]. }
      assert (forall x, inside cursor s o = true ->
        existsb (fun p => inside p.1 (piece_end p) o) ps = x -> x = false) as Hdis2.
      { intros x Ho <-. apply not_true_iff_false. intros (q & Hq & Hqo)%existsb_exists.
        apply list_elem_of_In in Hq. destruct (pieces_wf_elem _ _ _ H Hq).
        unfold inside in *. zb. lia. }
      cbn [fst snd]. destruct (inside cursor s o) eqn:A1.
      * rewrite (Hsep _ _ s A1) by lia. rewrite (Hsep _ _ (piece_end (s, d)) A1) by lia. cbn.
        by rewrite (Hdis2 _ eq_refl eq_refl).
      * cbn. destruct (inside s (piece_end (s, d)) o) eqn:A2; cbn.
        -- by rewrite (Hsep _ _ (piece_end (s, d)) A2) by lia.
        -- done.
Qed.
End filling.

(** ** The coalesced piece *)

Lemma largest_spec parts : forall i best j, largest i best parts = Some j ->
  (exists n, best = Some (j, n)) \/ (i <= j < i + length parts)%nat.
Proof.
  induction parts as [|[s d] parts IH]; intros i best j; cbn [largest].
  - destruct best as [[j' n]|]; [|done]. cbn. intros [= ->]. eauto.
  - intros [[n Hn]|Hr]%IH; [|right; cbn; lia].
    destruct best as [[j' n']|]; [destruct (n' <=? Deque.len d)|]; simplify_eq; eauto; right; cbn; lia.
Qed.

Lemma largest_None parts : forall i best, largest i best parts = None -> best = None /\ parts = [].
Proof.
  induction parts as [|[s d] parts IH]; intros i best; cbn [largest].
  - by destruct best.
  - intros [Hb _]%IH. destruct best as [[j' n']|]; [by destruct (n' <=? Deque.len d)|done].
Qed.

Lemma fill_index ps : forall c ue i f k, f ∈ fill c ue i ps -> f.2 = Some k -> (i <= k)%nat.
Proof.
  induction ps as [|[s d] ps IH]; intros c ue i f k Hf Hk; cbn [fill] in Hf.
  - destruct (c <? ue); [apply list_elem_of_singleton in Hf; by subst|].
    by apply not_elem_of_nil in Hf.
  - apply elem_of_app in Hf as [Hf|Hf].
    + destruct (c <? s); [apply list_elem_of_singleton in Hf; by subst|by apply not_elem_of_nil in Hf].
    + apply elem_of_cons in Hf as [->|Hf]; [cbn in Hk; simplify_eq; lia|].
      specialize (IH _ _ _ _ _ Hf Hk). lia.
Qed.

(** Part [j] appears exactly once in the union. *)
Lemma fill_split ps : forall c ue i j s d, ps !! j = Some (s, d) ->
  exists pre post, fill c ue i ps = pre ++ (s, s + Deque.len d, Some (i + j)%nat) :: post /\
    Forall (fun f => f.2 <> Some (i + j)%nat) pre /\ Forall (fun f => f.2 <> Some (i + j)%nat) post.
Proof.
  induction ps as [|[s0 d0] ps IH]; intros c ue i j s d Hj; [done|]. cbn [fill].
  set (hole := if c <? s0 then [(c, s0, @None nat)] else []).
  assert (forall k, Forall (fun f => f.2 <> Some k) hole) as Hhole.
  { intros k. unfold hole. case_if; [|constructor]. constructor; [done|constructor]. }
  destruct j as [|j].
  - cbn in Hj. simplify_eq. rewrite Nat.add_0_r. exists hole, (fill (s + Deque.len d) ue (S i) ps).
    split_and!; [done|apply Hhole|]. apply Forall_forall. intros f Hf Hk.
    pose proof (fill_index _ _ _ _ _ _ Hf Hk). lia.
  - destruct (IH (s0 + Deque.len d0) ue (S i) j s d Hj) as (pre & post & -> & Hpre & Hpost).
    replace (S i + j)%nat with (i + S j)%nat in * by lia.
    exists (hole ++ (s0, s0 + Deque.len d0, Some i) :: pre), post. rewrite <- app_assoc.
    split_and!; [done| |done]. apply Forall_app. split; [apply Hhole|].
    constructor; [cbn; intros [= ]; lia|done].
Qed.

Lemma position_spec k pre f post : f.2 = Some k -> Forall (fun f => f.2 <> Some k) pre ->
  position k (pre ++ f :: post) = length pre.
Proof.
  intros Hf. induction 1 as [|g pre Hg Hpre IH]; cbn.
  - by rewrite bool_decide_eq_true_2.
  - by rewrite bool_decide_eq_false_2, IH.
Qed.

Lemma fold_front {A} (g : A -> list Z) l b :
  fold_left (fun acc f => g f ++ acc) (rev l) b = concat (g <$> l) ++ b.
Proof.
  revert b. induction l as [|x l IH]; intros b; [done|]. cbn [rev]. rewrite fold_left_app. cbn.
  by rewrite IH, app_assoc.
Qed.

Lemma fold_back {A} (g : A -> list Z) l b :
  fold_left (fun acc f => acc ++ g f) l b = b ++ concat (g <$> l).
Proof.
  revert b. induction l as [|x l IH]; intros b; cbn; [by rewrite app_nil_r|]. by rewrite IH, app_assoc.
Qed.

Lemma new_runs_fold lo sq start fs : forall rs, runs_wf lo rs -> lo <= start ->
  (forall f, f ∈ fs -> is_new f = true -> start <= f.1.1) ->
  let rs' := fold_left (new_runs sq start) fs rs in
  runs_wf lo rs' /\ forall o, run_at rs' o =
    if sq && existsb (fun f => is_new f && inside f.1.1 f.1.2 o) fs then Some start else run_at rs o.
Proof.
  induction fs as [|f fs IH]; intros rs Hr Hlo Hf; cbn.
  { split; [done|]. intros. by rewrite andb_false_r. }
  assert (runs_wf lo (new_runs sq start rs f) /\ forall o, run_at (new_runs sq start rs f) o =
    if sq && (is_new f && inside f.1.1 f.1.2 o) then Some start else run_at rs o) as [Hw Hn].
  { unfold new_runs. destruct (is_new f) eqn:En; cbn; [|split; [done|by intros; rewrite andb_false_r]].
    destruct sq; cbn; [|done]. apply set_runs_spec; [done|].
    specialize (Hf f (list_elem_of_here _ _) En). lia. }
  destruct (IH _ Hw Hlo) as [Hw' Hr']; [intros g Hg; apply Hf; by apply list_elem_of_further|].
  split; [done|]. intros o. rewrite Hr', Hn.
  by destruct sq, (is_new f && inside f.1.1 f.1.2 o), (existsb _ fs).
Qed.

Lemma zsum_filter_ne (fs pre post : list (Z * Z * option nat)) x k :
  fs = pre ++ x :: post -> x.2 = Some k ->
  Forall (fun f => f.2 <> Some k) pre -> Forall (fun f => f.2 <> Some k) post ->
  filter (fun f => is_none (Some k) || negb (bool_decide (f.2 = Some k))) fs = pre ++ post.
Proof.
  intros -> Hx Hpre Hpost. rewrite filter_app, filter_cons_False.
  - f_equal.
    + clear -Hpre. induction Hpre as [|f l Hf Hl IH]; [done|].
      rewrite filter_cons_True, IH; [done|]. cbn. by rewrite bool_decide_eq_false_2.
    + clear -Hpost. induction Hpost as [|f l Hf Hl IH]; [done|].
      rewrite filter_cons_True, IH; [done|]. cbn. by rewrite bool_decide_eq_false_2.
  - cbn. rewrite Hx, bool_decide_eq_true_2 by done. by intros [].
Qed.

(** The capacity after growing the base to [need]. *)
Lemma grown_capacity (base : Deque.t) need room :
  Deque.len base <= Deque.capacity base -> Deque.len base <= need ->
  let d := if Deque.capacity base <? need
           then Deque.reserve_exact (Z.max (Z.min (Deque.capacity base * 2) room) need - Deque.len base) base
           else base in
  Deque.data d = Deque.data base /\ need <= Deque.capacity d /\
  Deque.capacity d <= Z.max (Deque.capacity base) (2 * need).
Proof.
  intros Hb Hn. assert (0 <= Deque.len base) by apply zlen_nonneg.
  cbv zeta. case_if; [|split_and!; [done|lia|lia]].
  unfold Deque.reserve_exact. cbn. split_and!; [done|lia|lia].
Qed.

Definition union_start (start : Z) (M : list piece) : Z :=
  match head M with Some p => Z.min p.1 start | None => start end.
Definition union_end (e : Z) (M : list piece) : Z :=
  match last M with Some p => Z.max (piece_end p) e | None => e end.

(** What the union reads: held bytes first, then the payload's. *)
Definition merged (M : list piece) (start : Z) (payload : list Z) (o : Z) : option Z :=
  match byte_at M o with Some b => Some b | None => payload !! Z.to_nat (o - start) end.

Definition lens (ps : list piece) : Z := zsum ((fun p => Deque.len p.2) <$> ps).
Definition caps (ps : list piece) : Z := zsum ((fun p => Deque.capacity p.2) <$> ps).

Lemma union_cover a e M o : touching a e M -> union_start a M <= o < union_end e M ->
  a <= o < e \/ exists p, p ∈ M /\ p.1 <= o < piece_end p.
Proof.
  unfold union_start, union_end, touching. rewrite Forall_forall. intros Ht Ho.
  destruct (Z.lt_ge_cases o a); [|destruct (Z.lt_ge_cases o e); [by left|]]; right.
  - destruct M as [|p M]; cbn in Ho; [lia|]. exists p. destruct (Ht p (list_elem_of_here _ _)).
    split; [apply list_elem_of_here|lia].
  - destruct (last M) as [p|] eqn:E; [|lia]. apply last_Some_elem_of in E as Hp.
    exists p. destruct (Ht p Hp). split; [done|lia].
Qed.

#[global] Arguments lens : simpl never.
#[global] Arguments caps : simpl never.

(** The union, ready to be split at the base. *)
Lemma union_fill lo M start payload :
  0 < zlen payload -> pieces_wf lo M -> touching start (start + zlen payload) M ->
  let us := union_start start M in
  let ue := union_end (start + zlen payload) M in
  let fs := fill us ue 0 M in
  us <= start /\ start + zlen payload <= ue /\
  spells (concat (fill_bytes M start payload <$> fs)) us ue (merged M start payload) /\
  news_sum fs + lens M = ue - us /\ zsum (fill_len <$> fs) = ue - us /\
  (forall f, f ∈ fs -> is_new f = true -> start <= f.1.1) /\
  (forall o, existsb (fun f => is_new f && inside f.1.1 f.1.2 o) fs =
     inside start (start + zlen payload) o && is_none (byte_at M o)).
Proof.
  intros Hp H Ht. cbv zeta. set (us := union_start start M). set (ue := union_end _ M).
  assert (us <= start) as Hus by (unfold us, union_start; destruct (head M); lia).
  assert (start + zlen payload <= ue) as Hue by (unfold ue, union_end; destruct (last M); lia).
  assert (union_end_from start payload us M = ue) as Eue.
  { unfold union_end_from, ue, union_end. destruct (last M); [done|]. lia. }
  destruct (fill_spec M start payload (merged M start payload)) with (ps := M) (pre := @nil piece)
    (cursor := us) (lo := lo) as (_ & I1 & I2 & I3 & I4 & I5); try done.
  - intros p o Hpm Hpo. unfold merged. destruct (byte_at M o) as [b|] eqn:E.
    + (* the piece found is the one containing [o] *)
      clear -H Hpm Hpo E. revert lo H. induction M as [|q M IH]; intros lo H; [by apply not_elem_of_nil in Hpm|].
      destruct H as (? & ? & H). cbn in E. apply elem_of_cons in Hpm as [->|Hpm].
      * destruct (at_piece_in q o Hpo) as [x Hx]. by rewrite Hx in *.
      * destruct (at_piece q o) eqn:Eq; [|by eapply IH].
        apply at_piece_Some in Eq. destruct (pieces_wf_elem _ _ _ H Hpm). lia.
    + by apply (byte_at_in M o p) in E.
  - intros o Ho Hn. unfold merged. by rewrite byte_at_None.
  - eapply Forall_impl; [exact Ht|]. cbn. lia.
  - unfold us, union_start. destruct M as [|p M]; [done|]. cbn. lia.
  - unfold us, union_start. destruct M as [|p M]; cbn; [left; lia|]. inversion Ht as [|? ? Hpt _]; subst.
    destruct (Z.le_gt_cases p.1 start); [right; lia|left; lia].
  - cbn [length] in *. rewrite Eue in *.
    split_and!; [done|done|done|done|done| |].
    + intros f Hf Hn. by destruct (I4 f Hf Hn).
    + intros o. rewrite I5. destruct (existsb (fun p => inside p.1 (piece_end p) o) M) eqn:Ex.
      * apply existsb_exists in Ex as (p & Hpm & Hpo). apply list_elem_of_In in Hpm. unfold inside in Hpo. zb.
        destruct (byte_at M o) eqn:E; [by rewrite !andb_false_r|].
        by apply (byte_at_in M o p) in E.
      * assert (byte_at M o = None) as ->.
        { destruct (byte_at M o) eqn:E; [|done]. apply byte_at_Some in E as (p & Hpm & Hpo).
          assert (existsb (fun p => inside p.1 (piece_end p) o) M = true); [|congruence].
          apply existsb_exists. exists p. split; [by apply list_elem_of_In|]. unfold inside.
          destruct (Z.leb_spec p.1 o), (Z.ltb_spec o (piece_end p)); cbn; (done || lia). }
        cbn. rewrite !andb_true_r. unfold inside.
        assert (us <= o < ue -> start <= o < start + zlen payload) as Hin.
        { intros Ho. destruct (union_cover _ _ M o Ht Ho) as [|(p & Hpm & Hpo)]; [done|].
          assert (existsb (fun p => inside p.1 (piece_end p) o) M = true); [|congruence].
          apply existsb_exists. exists p. split; [by apply list_elem_of_In|]. unfold inside.
          destruct (Z.leb_spec p.1 o), (Z.ltb_spec o (piece_end p)); cbn; (done || lia). }
        destruct (Z.leb_spec us o), (Z.ltb_spec o ue), (Z.leb_spec start o), (Z.ltb_spec o (start + zlen payload));
          cbn; (done || lia).
Qed.

Lemma largest_some p M : exists j q, largest 0 None (p :: M) = Some j /\ (p :: M) !! j = Some q.
Proof.
  destruct (largest 0 None (p :: M)) as [j|] eqn:E; [|by apply largest_None in E as [_ ?]].
  exists j. apply largest_spec in E as [[? ?]|Hj]; [done|].
  destruct (lookup_lt_is_Some_2 (p :: M) j) as [q Hq]; [lia|]. by exists q.
Qed.

Lemma lens_nonneg lo M : pieces_wf lo M -> 0 <= lens M /\ lens M <= caps M.
Proof.
  revert lo. induction M as [|p M IH]; intros lo H; [done|]. destruct H as (? & ? & H).
  destruct (IH _ H). unfold lens, caps in *. rewrite !fmap_cons, !zsum_cons. lia.
Qed.

Lemma news_sum_rev fs : news_sum (rev fs) = news_sum fs.
Proof.
  induction fs as [|f fs IH]; [done|]. cbn [rev]. rewrite news_sum_app, IH, !news_sum_cons.
  unfold news_sum at 2. cbn. unfold zsum. cbn. lia.
Qed.

Lemma existsb_rev {A} (g : A -> bool) l : existsb g (rev l) = existsb g l.
Proof.
  induction l as [|x l IH]; [done|]. cbn [rev]. rewrite existsb_app, IH. cbn.
  by destruct (g x), (existsb g l).
Qed.

Lemma filter_no_base (fs : list (Z * Z * option nat)) bi : bi = None ->
  filter (fun f => is_none bi || negb (bool_decide (f.2 = bi))) fs = fs.
Proof. intros ->. induction fs as [|f fs IH]; [done|]. by rewrite filter_cons_True, IH. Qed.

(** The one piece that replaces the parts. *)
Lemma coalesce_spec lo policy mx start payload M o :
  0 < zlen payload -> pieces_wf lo M -> touching start (start + zlen payload) M ->
  runs_wf lo (runs o) -> lo <= start ->
  let us := union_start start M in
  let ue := union_end (start + zlen payload) M in
  exists D cap rs,
    coalesce policy mx start payload M o =
      o <| runs := rs |> <| bytes ::= Z.add (ue - us - lens M) |>
        <| capacity ::= Z.add cap |> <| pieces ::= insert us (Deque.mk D cap) |> /\
    spells D us ue (merged M start payload) /\ zlen D <= cap /\
    (Forall (fun p => Deque.capacity p.2 <= 2 * Deque.len p.2) M -> cap <= 2 * zlen D) /\
    runs_wf lo rs /\
    (forall x, run_at rs x =
       if is_seq_policy policy && (inside start (start + zlen payload) x && is_none (byte_at M x))
       then Some start else run_at (runs o) x).
Proof.
  intros Hp H Ht Hr Hlo. cbv zeta.
  destruct (union_fill lo M start payload Hp H Ht) as (U1 & U2 & U3 & U4 & U5 & U6 & U7).
  set (us := union_start start M) in *. set (ue := union_end _ M) in *.
  set (fs := fill us ue 0 M) in *. set (G := fill_bytes M start payload) in *.
  assert (us = match head M with Some (s, _) => Z.min s start | None => start end) as Eus.
  { unfold us, union_start. destruct M as [|[s d] M]; done. }
  assert (ue = match last M with Some (s, d) => Z.max (s + Deque.len d) (start + zlen payload)
                            | None => start + zlen payload end) as Eue.
  { unfold ue, union_end. destruct (last M) as [[s d]|]; done. }
  unfold coalesce. rewrite <- Eus, <- Eue. fold fs.
  assert (M = [] \/ exists p M0, M = p :: M0) as [->|(p & M0 & EM)] by (destruct M; eauto).
  - change (largest 0 None []) with (@None nat). cbn [is_some]. rewrite take_0, drop_0. cbn [rev app].
    set (e := start + zlen payload) in *.
    assert (us = start) as -> by done. assert (ue = e) as -> by done.
    assert (fs = [(start, e, None)]) as -> by (unfold fs; cbn; by destruct (Z.ltb_spec start e); [|lia]).
    rewrite (filter_no_base _ None eq_refl).
    assert (zsum (fill_len <$> [(start, e, @None nat)]) = zlen payload) as ->
      by (unfold zsum, fill_len; cbn; lia).
    change (Deque.len (Deque.with_capacity (zlen payload))) with 0.
    cbn [Deque.capacity Deque.with_capacity]. rewrite Z.add_0_l, Z.ltb_irrefl.
    fold (news_sum [(start, e, @None nat)]).
    assert (news_sum [(start, e, @None nat)] = zlen payload) as ->.
    { rewrite news_sum_cons. unfold news_sum, zsum, fill_len. cbn. lia. }
    cbn [fold_left Deque.data app]. unfold G, fill_bytes at 1. cbn [fst snd].
    rewrite Z.sub_diag. unfold zslice at 1.
    assert (ztake (e - start - 0) (zdrop 0 payload) = payload) as ->.
    { rewrite zdrop_0 by lia. apply ztake_ge. lia. }
    destruct (new_runs_fold lo (is_seq_policy policy) start [(start, e, @None nat)] (runs o) Hr Hlo)
      as [R1 R2]; [intros f Hf%list_elem_of_singleton _; subst; cbn; lia|].
    cbn [fold_left] in R1, R2.
    exists payload, (zlen payload), (new_runs (is_seq_policy policy) start (runs o) (start, e, None)).
    split_and!; [|split; [lia|]|lia|lia|done|].
    + replace (e - start - lens []) with (zlen payload) by (unfold lens, zsum; cbn; lia). reflexivity.
    + intros x Hx. unfold merged. done.
    + intros x. rewrite R2. cbn. by rewrite orb_false_r, andb_true_r.
  - destruct (largest_some p M0) as (j & [s d] & Hj & Hq). rewrite <- EM in Hj, Hq.
    rewrite Hj, Hq. cbn [is_some].
    destruct (fill_split M us ue 0 j s d Hq) as (pre & post & Efs & Hpre & Hpost). fold fs in Efs.
    clearbody fs. cbn [Nat.add] in Efs, Hpre, Hpost.
    assert (position j fs = length pre) as Epos by (rewrite Efs; by apply position_spec).
    rewrite Epos.
    assert (take (length pre) fs = pre) as -> by by rewrite Efs, take_app_length.
    assert (drop (S (length pre)) fs = post) as ->.
    { rewrite Efs. change (pre ++ ?x :: post) with (pre ++ [(s, s + Deque.len d, Some j)] ++ post).
      rewrite app_assoc. apply drop_app_length'. rewrite length_app. cbn. lia. }
    rewrite (zsum_filter_ne fs pre post _ j Efs eq_refl Hpre Hpost).
    rewrite fold_front, fold_back.
    assert (0 < Deque.len d <= Deque.capacity d) as Hd.
    { destruct (pieces_wf_elem _ _ (s, d) H) as [_ ?]; [by eapply list_elem_of_lookup_2|done]. }
    set (inc := zsum (fill_len <$> pre ++ post)).
    assert (Deque.len d + inc = ue - us) as Hneed.
    { rewrite <- U5, Efs, !fmap_app, fmap_cons, !zsum_app, zsum_cons. unfold inc.
      rewrite fmap_app, zsum_app. unfold fill_len at 4. cbn. lia. }
    rewrite Efs, fmap_app, concat_app, fmap_cons in U3. cbn [concat] in U3.
    assert (G (s, s + Deque.len d, Some j) = Deque.data d) as HG by (unfold G, fill_bytes; cbn; by rewrite Hq).
    rewrite HG in U3. pose proof (proj1 U3) as HlD. autorewrite with zlist in HlD.
    fold (Deque.len d) in HlD.
    assert (Deque.len d <= ue - us) by (zlen_facts; lia).
    match goal with |- context [if _ then Deque.reserve_exact (Z.max (Z.min _ ?room) _ - _) _ else _] =>
      destruct (grown_capacity d (Deque.len d + inc) room) as (C1 & C2 & C3); [lia|lia|] end.
    set (base := if Deque.capacity d <? Deque.len d + inc then _ else d) in *.
    rewrite <- C1 in U3.
    destruct (new_runs_fold lo (is_seq_policy policy) start (rev pre ++ post) (runs o) Hr Hlo) as [R1 R2].
    { intros f Hf. apply U6. rewrite Efs. apply elem_of_app. apply elem_of_app in Hf as [Hf|Hf].
      - left. apply list_elem_of_In. apply in_rev. by apply list_elem_of_In.
      - right. by apply list_elem_of_further. }
    exists (concat (G <$> pre) ++ Deque.data base ++ concat (G <$> post)), (Deque.capacity base),
      (fold_left (new_runs (is_seq_policy policy) start) (rev pre ++ post) (runs o)).
    apply proj1 in U3 as HlD'.
    split_and!; [|done|rewrite HlD'; lia| |done|].
    + rewrite <- app_assoc.
      assert (zsum (fill_len <$> filter is_new (rev pre ++ post)) = ue - us - lens M) as ->.
      { fold (news_sum (rev pre ++ post)). rewrite news_sum_app, news_sum_rev.
        rewrite Efs, news_sum_app, news_sum_cons in U4. cbn [is_new is_none is_some negb snd] in U4. lia. }
      reflexivity.
    + intros Hcap. rewrite HlD'. rewrite Forall_forall in Hcap.
      specialize (Hcap (s, d) ltac:(by eapply list_elem_of_lookup_2)). cbn in Hcap. lia.
    + intros x. rewrite R2. f_equal. rewrite existsb_app, existsb_rev, <- U7, Efs, existsb_app. cbn [existsb is_new is_none is_some negb snd andb orb].
      done.
Qed.

(** ** The whole of [absorb] *)

Lemma shape_app_inv ps l m r : shape ps = shape (l ++ m ++ r) ->
  exists l' m' r', ps = l' ++ m' ++ r' /\ shape l' = shape l /\ shape m' = shape m /\ shape r' = shape r.
Proof.
  unfold shape. rewrite !fmap_app. intros (l' & x & El & Ex & ->)%fmap_app_inv.
  symmetry in Ex. apply fmap_app_inv in Ex as (m' & r' & Em & Er & ->). by exists l', m', r'.
Qed.

Lemma shape_keys ps ps' : shape ps = shape ps' -> fst <$> ps = fst <$> ps'.
Proof.
  intros E. assert (fst <$> (fst <$> shape ps) = fst <$> (fst <$> shape ps')) as E' by by rewrite E.
  unfold shape in E'. by rewrite <- !list_fmap_compose in E'.
Qed.

Lemma shape_Forall (P : Z -> Z -> Z -> Prop) ps ps' : shape ps = shape ps' ->
  Forall (fun p => P p.1 (Deque.len p.2) (Deque.capacity p.2)) ps ->
  Forall (fun p => P p.1 (Deque.len p.2) (Deque.capacity p.2)) ps'.
Proof.
  revert ps'. induction ps as [|p ps IH]; intros [|p' ps'] E H; try done.
  unfold shape in E. cbn in E. injection E as E1 E2 E3 E. inversion H; subst.
  constructor; [by rewrite <- E1, <- E2, <- E3|by apply IH].
Qed.

Lemma shape_lens ps ps' : shape ps = shape ps' -> lens ps = lens ps' /\ caps ps = caps ps'.
Proof.
  revert ps'. induction ps as [|p ps IH]; intros [|p' ps'] E; try done.
  unfold shape in E. cbn in E. injection E as E1 E2 E3 E. destruct (IH ps' E) as [L C].
  unfold lens, caps in *. rewrite !fmap_cons, !zsum_cons, L, C, E2, E3. done.
Qed.

Lemma lens_app l r : lens (l ++ r) = lens l + lens r.
Proof. unfold lens. by rewrite fmap_app, zsum_app. Qed.
Lemma caps_app l r : caps (l ++ r) = caps l + caps r.
Proof. unfold caps. by rewrite fmap_app, zsum_app. Qed.
Lemma lens_cons p l : lens (p :: l) = Deque.len p.2 + lens l.
Proof. done. Qed.
Lemma caps_cons p l : caps (p :: l) = Deque.capacity p.2 + caps l.
Proof. done. Qed.

Lemma pieces_wf_from lo x r : pieces_wf lo r -> after x r -> pieces_wf x r.
Proof. destruct r as [|p r]; [done|]. cbn. intros (? & ? & ?) Ha. inversion Ha; subst. done. Qed.

(** Around the union. *)
Lemma union_around lo a e l m r : pieces_wf lo (l ++ m ++ r) -> a < e ->
  before a l -> touching a e m -> after e r ->
  let us := union_start a m in
  let ue := union_end e m in
  before us l /\ after ue r /\ us <= a /\ e <= ue /\
  Forall (fun p => us <= p.1 /\ piece_end p <= ue) m.
Proof.
  intros H Hae Hl Hm Hr. cbv zeta. apply pieces_wf_app in H as [Hwl H]. apply pieces_wf_app in H as [Hwm Hwr].
  split_and!.
  - unfold union_start. destruct m as [|p m]; [done|]. cbn. destruct Hwm as (Hp & _).
    apply Forall_forall. intros q Hq. pose proof (last_end_max _ _ _ Hwl Hq).
    unfold before in Hl. rewrite Forall_forall in Hl. specialize (Hl q Hq). lia.
  - unfold union_end. destruct (last m) as [p|] eqn:E; [|done].
    apply Forall_forall. intros q Hq. destruct (pieces_wf_elem _ _ _ Hwr Hq) as [? _].
    unfold after in Hr. rewrite Forall_forall in Hr. specialize (Hr q Hq). lia.
  - unfold union_start. destruct (head m); lia.
  - unfold union_end. destruct (last m); lia.
  - apply Forall_forall. intros q Hq. split.
    + unfold union_start. destruct m as [|p m]; [by apply not_elem_of_nil in Hq|]. cbn.
      destruct Hwm as (? & ? & Hwm). apply elem_of_cons in Hq as [->|Hq]; [lia|].
      destruct (pieces_wf_elem _ _ _ Hwm Hq). unfold piece_end in *. lia.
    + unfold union_end. pose proof (last_end_max _ _ _ Hwm Hq) as Hle.
      destruct (last m) eqn:E; [lia|]. apply last_None in E as ->. by apply not_elem_of_nil in Hq.
Qed.

(** Putting the union back between the other pieces. *)
Lemma insert_union lo l r us ue d :
  pieces_wf lo l -> before us l -> pieces_wf ue r -> lo < us -> us < ue ->
  Deque.len d = ue - us -> ue - us <= Deque.capacity d ->
  insert us d (l ++ r) = l ++ (us, d) :: r /\ pieces_wf lo (l ++ (us, d) :: r).
Proof.
  intros Hl Hb Hr Hlo Hu Hd Hc. split.
  - rewrite insert_app_r.
    + f_equal. apply insert_head. apply Forall_forall. intros p Hp.
      destruct (pieces_wf_elem _ _ _ Hr Hp). lia.
    + apply Forall_forall. intros p Hp. destruct (pieces_wf_elem _ _ _ Hl Hp).
      unfold before in Hb. rewrite Forall_forall in Hb. specialize (Hb p Hp). unfold piece_end in Hb. lia.
  - apply pieces_wf_app. split; [done|]. cbn. split_and!; [|lia|lia|].
    + destruct (last l) as [p|] eqn:E; [|done]. apply last_Some_elem_of in E.
      unfold before in Hb. rewrite Forall_forall in Hb. by apply Hb.
    + unfold piece_end. cbn. by replace (us + Deque.len d) with ue by lia.
Qed.

Lemma at_union us ue D cap F o : spells D us ue F ->
  at_piece (us, Deque.mk D cap) o = if inside us ue o then F o else None.
Proof.
  intros [Hl HF]. unfold at_piece, inside. cbn.
  destruct (Z.leb_spec us o), (Z.ltb_spec o ue); cbn; try done.
  - apply HF. lia.
  - apply lookup_ge_None. unfold zlen in Hl. lia.
Qed.

Record ooo_wf (lo : Z) (o : Ooo.t) : Prop := {
  w_pieces : pieces_wf lo (pieces o);
  w_runs : runs_wf lo (runs o);
  w_bytes : bytes o = lens (pieces o);
  w_capacity : capacity o = caps (pieces o);
  w_tight : Forall (fun p => Deque.capacity p.2 <= 2 * Deque.len p.2) (pieces o) }.

(** The byte the policy keeps where held data and new data meet. *)
Definition wins (policy : TcpOverlapPolicy) (rs : list run) (start x : Z) : bool :=
  new_wins policy start (prov policy rs x).

(** What [absorb] keeps at offset [x]. *)
Definition absorbed (policy : TcpOverlapPolicy) (ps : list piece) (rs : list run)
    (start : Z) (payload : list Z) (x : Z) : option Z :=
  if inside start (start + zlen payload) x
     && (is_none (byte_at ps x) || wins policy rs start x)
  then payload !! Z.to_nat (x - start) else byte_at ps x.

Lemma payload_in start (payload : list Z) x : inside start (start + zlen payload) x = true ->
  exists b, payload !! Z.to_nat (x - start) = Some b.
Proof. unfold inside, zlen. intros H. zb. apply lookup_lt_is_Some_2. lia. Qed.

(** After the overlaps are resolved: the pieces left of, inside and right
    of the union, and what the union reads. *)
Lemma absorb_pieces lo policy start payload ps rs l m r l' m' r' W :
  0 < zlen payload -> pieces_wf lo (l ++ m ++ r) -> ps = l ++ m ++ r ->
  before start l -> touching start (start + zlen payload) m -> after (start + zlen payload) r ->
  shape l' = shape l -> shape m' = shape m -> shape r' = shape r ->
  (forall x, written W x = inside start (start + zlen payload) x && is_some (byte_at ps x) && wins policy rs start x) ->
  (forall x, byte_at (l' ++ m' ++ r') x = if written W x then payload !! Z.to_nat (x - start) else byte_at ps x) ->
  (forall D cap x, spells D (union_start start m') (union_end (start + zlen payload) m') (merged m' start payload) ->
     byte_at (l' ++ (union_start start m', Deque.mk D cap) :: r') x = absorbed policy ps rs start payload x) /\
  (forall x, inside start (start + zlen payload) x = true -> is_none (byte_at m' x) = is_none (byte_at ps x)).
Proof.
  intros Hp H Eps Hl Hm Hr Sl Sm Sr HW HB. set (e := start + zlen payload) in *.
  assert (before start l' /\ touching start e m' /\ after e r' /\ pieces_wf lo (l' ++ m' ++ r'))
    as (Hl' & Hm' & Hr' & H').
  { split_and!.
    - by apply (shape_Forall (fun s n _ => s + n < start) l).
    - by apply (shape_Forall (fun s n _ => s <= e /\ start <= s + n) m).
    - by apply (shape_Forall (fun s _ _ => e < s) r).
    - apply (pieces_wf_shape (l ++ m ++ r)); [|done]. unfold shape in *. rewrite !fmap_app. congruence. }
  destruct (union_around lo start e l' m' r' H' ltac:(lia) Hl' Hm' Hr') as (A1 & A2 & A3 & A4 & A5).
  set (us := union_start start m') in *. set (ue := union_end e m') in *.
  assert (forall x, inside us ue x = true -> byte_at l' x = None /\ byte_at r' x = None) as Hout.
  { intros x Hx. unfold inside in Hx. zb. split; apply byte_at_None.
    - eapply Forall_impl; [exact A1|]. cbn. lia.
    - eapply Forall_impl; [exact A2|]. cbn. lia. }
  assert (forall x, inside us ue x = true -> byte_at (l' ++ m' ++ r') x = byte_at m' x) as Hmid.
  { intros x Hx. destruct (Hout x Hx) as [E1 E2]. rewrite !byte_at_app, E1, E2. by destruct (byte_at m' x). }
  assert (forall x, inside start e x = true -> inside us ue x = true) as Hsub.
  { unfold inside. intros x Hx. zb. destruct (Z.leb_spec us x), (Z.ltb_spec x ue); cbn; (done || lia). }
  assert (forall x, inside start e x = true -> is_none (byte_at m' x) = is_none (byte_at ps x)) as Hnone.
  { intros x Hx. rewrite <- Hmid by auto. rewrite HB, HW, Hx. cbn [andb].
    destruct (byte_at ps x), (wins policy rs start x); cbn; try done.
    by destruct (payload_in start payload x Hx) as [b ->]. }
  split; [|done]. intros D cap x HD. rewrite byte_at_app. cbn [byte_at].
  rewrite (at_union us ue D cap _ x HD). unfold absorbed. fold e.
  destruct (inside us ue x) eqn:Hx.
  - destruct (Hout x Hx) as [-> E2]. unfold merged.
    assert (byte_at m' x = if written W x then payload !! Z.to_nat (x - start) else byte_at ps x) as Em
      by by rewrite <- Hmid, HB.
    destruct (inside start e x) eqn:Hin; cbn [andb].
    + destruct (payload_in start payload x Hin) as [b Hb].
      rewrite Em, HW, Hin, Hb. cbn [andb].
      destruct (byte_at ps x), (wins policy rs start x); cbn; done.
    + rewrite HW, Hin in Em. cbn [andb] in Em. rewrite Em.
      destruct (byte_at ps x) eqn:Ex; [done|].
      destruct (union_cover start e m' x Hm') as [Hse|(p & Hpm & Hpx)].
      * unfold inside in Hx. zb. fold us ue. lia.
      * unfold inside in Hin. destruct (Z.leb_spec start x), (Z.ltb_spec x e); cbn in Hin; (done || lia).
      * exfalso. by apply (byte_at_in m' x p).
  - assert (inside start e x = false) as Hin.
    { destruct (inside start e x) eqn:E; [|done]. rewrite (Hsub x E) in Hx. done. }
    rewrite Hin. cbn [andb]. transitivity (byte_at (l' ++ m' ++ r') x).
    + rewrite !byte_at_app. rewrite (byte_at_None m'); [done|].
      eapply Forall_impl; [exact A5|]. cbn. intros p Hpp Hpx.
      unfold inside in Hx. destruct (Z.leb_spec us x), (Z.ltb_spec x ue); cbn in Hx; (done || lia).
    + by rewrite HB, HW, Hin.
Qed.

Lemma last_end_min lo l : pieces_wf lo l ->
  lo <= match last l with Some p => piece_end p | None => lo end.
Proof.
  intros H. destruct (last l) as [p|] eqn:E; [|done]. apply last_Some_elem_of in E.
  destruct (pieces_wf_elem _ _ _ H E). unfold piece_end. lia.
Qed.

Lemma absorb_spec lo policy mx start payload o :
  0 < zlen payload -> ooo_wf lo o -> lo < start ->
  let '(o', overlapped, _) := absorb policy mx start payload o in
  ooo_wf lo o' /\
  (forall x, byte_at (pieces o') x = absorbed policy (pieces o) (runs o) start payload x) /\
  (forall x, run_at (runs o') x =
     if is_seq_policy policy && (inside start (start + zlen payload) x
          && (is_none (byte_at (pieces o) x) || wins policy (runs o) start x))
     then Some start else run_at (runs o) x) /\
  arrivals o' = sat_add32 (arrivals o) 1.
Proof.
  intros Hp [W1 W2 W3 W4 W5] Hlo. unfold absorb. set (e := start + zlen payload) in *.
  destruct (split_pieces lo start e (pieces o) W1 ltac:(lia)) as (l & m & r & Eps & Hl & Hm & Hr).
  change (pieces (o <| arrivals ::= fun n => sat_add32 n 1 |>)) with (pieces o).
  change (runs (o <| arrivals ::= fun n => sat_add32 n 1 |>)) with (runs o).
  rewrite Eps in W1. cbv zeta.
  assert (hits start e (pieces o) = fst <$> m) as -> by (rewrite Eps; by eapply hits_spec; [|lia|..]).
  assert (omap (fun s => resolve policy (runs o) start payload s <$> get s (pieces o)) (fst <$> m) =
    (fun p => resolve policy (runs o) start payload p.1 p.2) <$> m) as ->.
  { apply omap_hits. rewrite Eps. eapply get_pieces; [done|]. intros p Hpm. by apply mid_in. }
  destruct (all_writes lo policy (runs o) start payload l m r W2 W1 Hl Hm Hr) as [HF HW].
  set (W := concat (snd <$> _)) in *. rewrite <- Eps in HF, HW.
  pose proof (writes_spec lo (is_seq_policy policy) start payload W (pieces o) (runs o)
    ltac:(by rewrite Eps) HF W2 ltac:(lia)) as HWS.
  destruct (fold_left _ W _) as [ps' rs']. destruct HWS as (S1 & B1 & R1 & G1).
  rewrite Eps in S1. apply shape_app_inv in S1 as (l' & m' & r' & -> & Sl & Sm & Sr).
  assert (pieces_wf lo (l' ++ m' ++ r')) as W1'.
  { apply (pieces_wf_shape (l ++ m ++ r)); [|done]. unfold shape in *. rewrite !fmap_app. congruence. }
  rewrite <- (shape_keys _ _ Sm).
  assert (omap (fun s => pair s <$> get s (l' ++ m' ++ r')) (fst <$> m') = m') as ->.
  { rewrite (omap_hits pair).
    - rewrite <- (list_fmap_id m') at 2. apply list_fmap_ext. intros ? [] ?. done.
    - eapply get_pieces; [done|]. intros p Hpm. by apply mid_in. }
  rewrite (remove_hits lo) by done.
  destruct (absorb_pieces lo policy start payload (pieces o) (runs o) l m r l' m' r' W Hp W1 Eps Hl Hm Hr
    Sl Sm Sr HW B1) as [HB Hnone].
  assert (touching start e m') as Hm' by by apply (shape_Forall (fun s n _ => s <= e /\ start <= s + n) m).
  assert (before start l') as Hl' by by apply (shape_Forall (fun s n _ => s + n < start) l).
  assert (after e r') as Hr' by by apply (shape_Forall (fun s _ _ => e < s) r).
  destruct (union_around lo start e l' m' r' W1' ltac:(lia) Hl' Hm' Hr') as (A1 & A2 & A3 & A4 & A5).
  apply pieces_wf_app in W1' as [Wl W1']. apply pieces_wf_app in W1' as [Wm Wr].
  match goal with |- context [coalesce policy mx start payload m' ?o1] => set (o2 := o1) end.
  destruct (coalesce_spec lo policy mx start payload m' o2 Hp) as (D & cap & rs & Ec & HD & Hc1 & Hc2 & HR1 & HR2).
  { eapply pieces_wf_weaken; [|exact Wm]. by apply last_end_min. }
  { done. } { done. } { lia. }
  fold e in Ec, HD, HR2. rewrite Ec.
  set (us := union_start start m') in *. set (ue := union_end e m') in *.
  pose proof (proj1 HD) as HlD.
  destruct (insert_union lo l' r' us ue (Deque.mk D cap) Wl A1) as [Ei Wn].
  { eapply pieces_wf_from; [exact Wr|done]. }
  { unfold us, union_start. pose proof (last_end_min _ _ Wl). destruct m' as [|p m0]; [done|].
    destruct Wm as (? & _). cbn. lia. }
  { lia. } { done. } { cbn. lia. }
  destruct (shape_lens _ _ Sl) as [L1 C1], (shape_lens _ _ Sm) as [L2 C2], (shape_lens _ _ Sr) as [L3 C3].
  rewrite Eps, !lens_app in W3. rewrite Eps, !caps_app in W4.
  assert (Forall (fun p => Deque.capacity p.2 <= 2 * Deque.len p.2) (l' ++ m' ++ r')) as W5'.
  { apply (shape_Forall (fun _ n c => c <= 2 * n) (l ++ m ++ r)); [|by rewrite <- Eps].
    unfold shape in *. rewrite !fmap_app. congruence. }
  rewrite !Forall_app in W5'. destruct W5' as (T1 & T2 & T3).
  split_and!.
  - split; cbn.
    + rewrite Ei. done.
    + done.
    + rewrite Ei, lens_app, lens_cons. unfold Deque.len at 1. cbn. lia.
    + rewrite Ei, caps_app, caps_cons. cbn. fold (caps m'). lia.
    + rewrite Ei. apply Forall_app. split; [done|]. constructor; [|done].
      unfold Deque.len. cbn. auto.
  - intros x. cbn. rewrite Ei. by apply HB.
  - intros x. cbn. rewrite HR2. unfold o2. cbn. rewrite G1, HW. fold e.
    destruct (inside start e x) eqn:Hx; cbn [andb]; [|by rewrite andb_false_r].
    rewrite Hnone by done. fold (wins policy (runs o) start x).
    by destruct (is_seq_policy policy), (byte_at (pieces o) x), (wins policy (runs o) start x).
  - done.
Qed.

(** ** Overlap policies as a contest *)

Definition covers (s : Z * list Z) (x : Z) : bool := inside s.1 (s.1 + zlen s.2) x.

(** Byte by byte: a segment takes an uncovered offset, and a covered one
    when the policy prefers it to the segment holding it. *)
Definition contest (policy : TcpOverlapPolicy) (x : Z) (holder : option (Z * list Z))
    (s : Z * list Z) : option (Z * list Z) :=
  if covers s x then
    match holder with
    | None => Some s
    | Some h =>
        if new_wins policy s.1 (if is_seq_policy policy then Some h.1 else None) then Some s else Some h
    end
  else holder.
Definition winner (policy : TcpOverlapPolicy) (segs : list (Z * list Z)) (x : Z)
    : option (Z * list Z) := fold_left (contest policy x) segs None.

Definition absorb_all (policy : TcpOverlapPolicy) (mx : Z) (segs : list (Z * list Z)) (o : Ooo.t)
    : Ooo.t := fold_left (fun o s => (absorb policy mx s.1 s.2 o).1.1) segs o.

(** The held bytes are those of the contest's winners. *)
Definition holds (policy : TcpOverlapPolicy) (o : Ooo.t) (w : Z -> option (Z * list Z)) : Prop :=
  forall x,
    byte_at (pieces o) x = w x ≫= (fun s => s.2 !! Z.to_nat (x - s.1)) /\
    (is_seq_policy policy = true -> run_at (runs o) x = fst <$> w x) /\
    (forall s, w x = Some s -> covers s x = true).

Lemma absorb_holds lo policy mx s o w :
  0 < zlen s.2 -> lo < s.1 -> ooo_wf lo o -> holds policy o w ->
  let o' := (absorb policy mx s.1 s.2 o).1.1 in
  ooo_wf lo o' /\ holds policy o' (fun x => contest policy x (w x) s).
Proof.
  intros Hp Hlo Hw Hh. pose proof (absorb_spec lo policy mx s.1 s.2 o Hp Hw Hlo) as H.
  destruct (absorb policy mx s.1 s.2 o) as [[o' ov] dv]. destruct H as (Hw' & HB & HR & _).
  split; [done|]. intros x. cbn [fst]. rewrite HB, HR. unfold absorbed, contest, covers, wins, prov.
  destruct (Hh x) as (E1 & E2 & E3). rewrite E1.
  destruct (inside s.1 (s.1 + zlen s.2) x) eqn:Hin; cbn [andb]; [|by rewrite andb_false_r].
  destruct (payload_in _ _ _ Hin) as [b Hb]. rewrite Hb.
  destruct (w x) as [h|] eqn:Hwx; cbn [mbind option_bind fmap option_fmap option_map] in *.
  - destruct (payload_in _ _ _ (E3 h eq_refl)) as [b' Hb']. rewrite Hb'. cbn [is_none is_some negb orb].
    destruct (is_seq_policy policy) eqn:Hsq.
    + rewrite (E2 eq_refl). cbn [andb].
      destruct (new_wins policy s.1 (Some h.1)); cbn; rewrite ?Hb, ?Hb'; cbn;
        (split_and!; [done|by intros|]); intros s' [= <-]; solve [done | by apply E3].
    + cbn [andb]. destruct (new_wins policy s.1 None); cbn; rewrite ?Hb, ?Hb'; cbn;
        (split_and!; [done|by intros|]); intros s' [= <-]; solve [done | by apply E3].
  - cbn. rewrite Hb. split_and!; [done|by intros ->|]. intros s' [= <-]. done.
Qed.

Lemma absorb_all_holds lo policy mx segs : forall o w,
  Forall (fun s => 0 < zlen s.2 /\ lo < s.1) segs -> ooo_wf lo o -> holds policy o w ->
  ooo_wf lo (absorb_all policy mx segs o) /\
  holds policy (absorb_all policy mx segs o) (fun x => fold_left (contest policy x) segs (w x)).
Proof.
  induction segs as [|s segs IH]; intros o w Hs Hw Hh; [done|]. inversion Hs as [|? ? [Hp Hlo] Hs']; subst.
  destruct (absorb_holds lo policy mx s o w Hp Hlo Hw Hh) as [Hw' Hh']. by apply IH.
Qed.

Lemma default_wf lo : ooo_wf lo Ooo.default.
Proof. by split. Qed.

(** Who wins, policy by policy. *)
Lemma contest_first_keeps segs x w : fold_left (contest First x) segs (Some w) = Some w.
Proof. induction segs as [|s segs IH]; [done|]. cbn. unfold contest at 2. case_if; cbn; apply IH. Qed.

Lemma winner_first segs x : winner First segs x = find (fun s => covers s x) segs.
Proof.
  unfold winner. induction segs as [|s segs IH]; [done|]. cbn.
  unfold contest at 2. destruct (covers s x); [apply contest_first_keeps|apply IH].
Qed.

Lemma winner_snoc policy segs s x :
  winner policy (segs ++ [s]) x = contest policy x (winner policy segs x) s.
Proof. unfold winner. by rewrite fold_left_app. Qed.

Lemma winner_last segs x : winner Last segs x = last (filter (fun s => covers s x = true) segs).
Proof.
  induction segs as [|s segs IH] using rev_ind; [done|].
  rewrite winner_snoc, filter_app, IH. unfold contest.
  destruct (covers s x) eqn:E; rewrite filter_cons, filter_nil.
  - rewrite decide_True by done. rewrite last_snoc. by destruct (last _).
  - rewrite decide_False by congruence. by rewrite app_nil_r.
Qed.

(** What a policy promises about the segment whose byte an offset keeps. *)
Definition preferred (policy : TcpOverlapPolicy) (segs : list (Z * list Z)) (x : Z)
    (s : Z * list Z) : Prop :=
  match policy with
  | First => find (fun s => covers s x) segs = Some s
  | Last => last (filter (fun s => covers s x = true) segs) = Some s
  | LowerSeq => s ∈ segs /\ forall s', s' ∈ segs -> covers s' x = true -> s.1 <= s'.1
  | HigherSeq => s ∈ segs /\ forall s', s' ∈ segs -> covers s' x = true -> s'.1 <= s.1
  end.

Lemma winner_seq policy segs x : is_seq_policy policy = true ->
  match winner policy segs x with
  | Some s => covers s x = true /\ preferred policy segs x s
  | None => forall s, s ∈ segs -> covers s x = false
  end.
Proof.
  intros Hp. induction segs as [|s segs IH] using rev_ind; [by intros s ?%not_elem_of_nil|].
  rewrite winner_snoc. unfold contest. destruct (covers s x) eqn:Hc.
  - destruct (winner policy segs x) as [h|]; [destruct IH as [H1 H2]|];
      destruct policy; try done; cbn in *; try case_if;
      split_and?; try done; try (rewrite elem_of_app, ?list_elem_of_singleton; tauto);
      intros s' [Hs' | ->%list_elem_of_singleton]%elem_of_app Hs'c; zb; try lia;
      try (specialize (IH s' Hs'); congruence);
      destruct H2 as [H2 H3]; specialize (H3 s' Hs' Hs'c); lia.
  - destruct (winner policy segs x) as [h|]; [destruct IH as [H1 H2]; split; [done|]|].
    + destruct policy; try done; cbn in *; destruct H2 as [H2 H3]; (split; [rewrite elem_of_app; tauto|]);
        intros s' [Hs' | ->%list_elem_of_singleton]%elem_of_app Hs'c; solve [auto | congruence].
    + intros s' [Hs' | ->%list_elem_of_singleton]%elem_of_app; auto.
Qed.

Lemma winner_covers policy segs x :
  match winner policy segs x with
  | Some s => covers s x = true /\ preferred policy segs x s
  | None => forall s, s ∈ segs -> covers s x = false
  end.
Proof.
  destruct policy; try (by apply winner_seq).
  - rewrite winner_first. cbn. destruct (find _ segs) as [s|] eqn:E.
    + split; [by apply find_some in E as [_ E]|done].
    + intros s Hs%list_elem_of_In. exact (find_none _ _ E s Hs).
  - rewrite winner_last. cbn. destruct (last _) as [s|] eqn:E.
    + split; [|done]. apply last_Some_elem_of in E. by apply list_elem_of_filter in E as [E _].
    + apply last_None in E. intros s Hs. destruct (covers s x) eqn:Hc; [|done].
      assert (s ∈ filter (fun s => covers s x = true) segs) as H by (by apply list_elem_of_filter).
      rewrite E in H. by apply not_elem_of_nil in H.
Qed.

(** C31: whatever segments arrive out of order, in whatever order and
    however they overlap, the set holds exactly the offsets some segment
    covers, and each offset keeps the byte of the segment the policy prefers:
    the first to arrive, the last to arrive, or the one that starts lowest or
    highest. *)
Theorem overlaps_resolved policy mx segs x
    (Hsegs : Forall (fun s => 0 < zlen s.2 /\ 0 < s.1) segs) :
  match byte_at (pieces (absorb_all policy mx segs Ooo.default)) x with
  | Some b => exists s, covers s x = true /\ preferred policy segs x s /\
                s.2 !! Z.to_nat (x - s.1) = Some b
  | None => forall s, s ∈ segs -> covers s x = false
  end.
Proof.
  destruct (absorb_all_holds 0 policy mx segs Ooo.default (fun _ => None) Hsegs (default_wf 0)) as [_ H];
    [done|].
  destruct (H x) as (-> & _ & H3). fold (winner policy segs x) in *.
  pose proof (winner_covers policy segs x) as Hw.
  destruct (winner policy segs x) as [s|]; cbn in *; [|done].
  destruct Hw as [Hc Hp]. destruct (payload_in _ _ _ Hc) as [b Hb]. rewrite Hb. eauto.
Qed.

Lemma overlaps_resolved_witness :
  byte_at (pieces (absorb_all Last 4096 [(5, [1; 2; 3]); (6, [8; 9])] Ooo.default)) 6 = Some 8 /\
  match byte_at (pieces (absorb_all Last 4096 [(5, [1; 2; 3]); (6, [8; 9])] Ooo.default)) 6 with
  | Some b => exists s, covers s 6 = true /\ preferred Last [(5, [1; 2; 3]); (6, [8; 9])] 6 s /\
                s.2 !! Z.to_nat (6 - s.1) = Some b
  | None => forall s, s ∈ [(5, [1; 2; 3]); (6, [8; 9])] -> covers s 6 = false
  end.
Proof. split; [by vm_compute|]. apply overlaps_resolved. by repeat constructor. Defined.
