(* ===== verification/Segment.v ===== *)
(** * The segment-buffering reassembler (src/src/segment_reassembler.rs, [SegmentBufferReassembler])

    Holds any number of out-of-order pieces within a byte budget, and fills
    holes with late data.  The loops run with one unit of fuel per held
    piece, and the recursion of [feed] and [missing] with fuel; the facts
    below prove that the fuel is not exhausted when the reordering window
    is below 2^63 (the code casts it to [i64]).  [on_duplicate], a hook
    left empty, has no counterpart. *)

From S2P Require Import Prelude Time Flow Cells Chunks Ledger Track Reassembler BTree Ooo Runs Pieces.

Definition DEFAULT_OOO_BUFFER : Z := 256 * 1024.
Definition DEFAULT_OOO_DEADLINE : Z := DEFAULT_REORDER_DEADLINE.

Module SegmentBufferReassembler.
Import Track.

Record t := mk {
  ready : StreamChunks.t;
  track : Track.t;
  rules : StreamRules.t;
  ooo : option Ooo.t;
  max_buffer : option Z;
  max_ooo_buffer : Z;
  overflow_policy : OverflowPolicy;
  overlap_policy : TcpOverlapPolicy;
  high_watermark_threshold_pct : option Z;
  holes_filled : Z;
  gaps : Z;
  gap_bytes : Z;
  ack_confirmed_gaps : Z;
  dropped_segments : Z;
  retransmits : Z;
  rexmit_inconsistencies : Z;
  bytes_dropped_oversize : Z;
  high_watermark : Z;
  above_threshold : bool;
  high_watermark_crossings : Z;
  stop : option ReassemblyStop }.
#[global] Instance eta : Eta t := mk_eta (fun r =>
  mk (ready r) (track r) (rules r) (ooo r) (max_buffer r) (max_ooo_buffer r) (overflow_policy r)
     (overlap_policy r) (high_watermark_threshold_pct r) (holes_filled r) (gaps r) (gap_bytes r)
     (ack_confirmed_gaps r) (dropped_segments r) (retransmits r) (rexmit_inconsistencies r)
     (bytes_dropped_oversize r) (high_watermark r) (above_threshold r)
     (high_watermark_crossings r) (stop r)).

Definition new : t :=
  mk StreamChunks.new Track.default
     (StreamRules.default <| StreamRules.deadline := DEFAULT_OOO_DEADLINE |>)
     None None DEFAULT_OOO_BUFFER SlidingWindow First None 0 0 0 0 0 0 0 0 0 false 0 None.

Definition with_max_buffer (n : Z) (r : t) : t := r <| max_buffer := Some n |>.
Definition with_max_ooo_buffer (n : Z) (r : t) : t := r <| max_ooo_buffer := n |>.
Definition with_ooo_deadline (d : Z) (r : t) : t :=
  r <| rules ::= fun u => u <| StreamRules.deadline := d |> |>.
Definition with_max_ahead (n : Z) (r : t) : t :=
  r <| rules ::= fun u => u <| StreamRules.max_ahead := n |> |>.
Definition with_ack_grace (d : Z) (r : t) : t :=
  r <| rules ::= fun u => u <| StreamRules.ack_grace := d |> |>.
Definition with_overflow_policy (p : OverflowPolicy) (r : t) : t := r <| overflow_policy := p |>.
Definition with_tcp_overlap_policy (p : TcpOverlapPolicy) (r : t) : t := r <| overlap_policy := p |>.
Definition with_high_watermark_threshold (pct : Z) (r : t) : t :=
  r <| high_watermark_threshold_pct := Some (Z.min 100 (Z.max 1 pct)) |>.

Definition take (r : t) : list Z * t :=
  let '(bs, rd) := StreamChunks.take_bytes (ready r) in
  (bs, r <| above_threshold := false |> <| ready := rd |>).
Definition buffered_ooo_bytes (r : t) : Z :=
  match ooo r with Some o => Ooo.bytes o | None => 0 end.
Definition ooo_pieces (r : t) : Z :=
  match ooo r with Some o => zlen (Ooo.pieces o) | None => 0 end.
Definition first_start (r : t) : option Z := ooo r ≫= Ooo.first_start.

Definition update_watermark (r : t) : t :=
  let len := StreamChunks.len (ready r) + buffered_ooo_bytes r in
  let r := if high_watermark r <? len then r <| high_watermark := len |> else r in
  match high_watermark_threshold_pct r, max_buffer r with
  | Some pct, Some cap =>
      let trigger := sat_mul cap pct / 100 in
      if trigger <=? StreamChunks.len (ready r) then
        if negb (above_threshold r)
        then r <| above_threshold := true |> <| high_watermark_crossings ::= fun n => sat_add n 1 |>
        else r
      else r <| above_threshold := false |>
  | _, _ => r
  end.

Definition note_passthrough (len : Z) (r : t) : t :=
  let r := r <| high_watermark ::= fun h => Z.max h len |> in
  let r :=
    match high_watermark_threshold_pct r, max_buffer r with
    | Some pct, Some cap =>
        if sat_mul cap pct / 100 <=? len
        then r <| high_watermark_crossings ::= fun n => sat_add n 1 |> else r
    | _, _ => r
    end in
  r <| above_threshold := false |>.

Definition append_ready (bytes : list Z) (r : t) : t :=
  if is_some (stop r) || is_nil bytes then r
  else
    let push := fun r => update_watermark (r <| ready ::= StreamChunks.push_data bytes |>) in
    match max_buffer r with
    | Some cap =>
        if cap <? StreamChunks.len (ready r) + zlen bytes then
          match overflow_policy r with
          | SlidingWindow =>
              let drop_n := Z.min (StreamChunks.len (ready r) + zlen bytes - cap)
                                  (StreamChunks.len (ready r)) in
              let r := r <| bytes_dropped_oversize ::= Z.add drop_n |>
                         <| ready ::= StreamChunks.drop_front drop_n |> in
              if cap <? zlen bytes then
                let extra := zlen bytes - cap in
                update_watermark
                  (r <| bytes_dropped_oversize ::= Z.add extra |>
                     <| ready ::= StreamChunks.push_gap extra |>
                     <| ready ::= StreamChunks.push_data (zdrop extra bytes) |>)
              else push r
          | DropFlow =>
              r <| bytes_dropped_oversize ::= Z.add (zlen bytes) |>
                <| stop := Some Overflow |> <| ooo := None |> <| track ::= drop_stray |>
          end
        else push r
    | None => push r
    end.

Definition append_ready_owned (bytes : list Z) (r : t) : t :=
  let fits := is_none_or (fun cap => StreamChunks.len (ready r) + zlen bytes <=? cap) (max_buffer r) in
  if fits && is_none (stop r) && StreamChunks.is_empty_data (ready r)
  then update_watermark (r <| ready ::= StreamChunks.push_owned bytes |>)
  else append_ready bytes r.

Definition skip_to (to : Z) (ts : Timestamp.t) (r : t) : t :=
  let from := next_off (track r) in
  if to <=? from then r
  else
    let missing := to - from in
    r <| gaps ::= Z.add 1 |> <| gap_bytes ::= Z.add missing |>
      <| track ::= record_skip from to |>
      <| ready ::= StreamChunks.push_gap missing |>
      <| track ::= advance_to to ts |>.

(** The new state and whether a piece was delivered. *)
Definition deliver_first (ts : Timestamp.t) (r : t) : t * bool :=
  let next := next_off (track r) in
  match ooo r with
  | None => (r, false)
  | Some o =>
      match BTreeMap.first (Ooo.pieces o) with
      | None => (r, false)
      | Some (start, data) =>
          if next <? start then (r, false)
          else
            let end_ := start + Deque.len data in
            let o := o <| Ooo.pieces ::= BTreeMap.remove start |>
                       <| Ooo.bytes ::= fun n => n - Deque.len data |>
                       <| Ooo.capacity ::= fun n => n - Deque.capacity data |>
                       <| Ooo.runs ::= Ooo.cut_runs start end_ |>
                       <| Ooo.arrivals := 0 |> in
            let r := r <| ooo := if is_nil (Ooo.pieces o) then None else Some o |> in
            (if next <? end_ then
               append_ready_owned (zdrop (next - start) (Deque.data data))
                 (r <| track ::= advance_to end_ ts |>)
             else r, true)
      end
  end.

Definition skip_to_first (ts : Timestamp.t) (r : t) : t :=
  match first_start r with
  | Some first => (deliver_first ts (skip_to first ts r)).1
  | None => r
  end.

(** Every iteration of a loop below removes a piece. *)
Definition n_pieces (r : t) : nat :=
  match ooo r with Some o => length (Ooo.pieces o) | None => 0 end.

(** [while cond { self.skip_to_first(ts); }]. *)
Fixpoint skip_while (fuel : nat) (cond : t -> bool) (ts : Timestamp.t) (r : t) : t :=
  match fuel with
  | O => r
  | S fuel => if cond r then skip_while fuel cond ts (skip_to_first ts r) else r
  end.

(** [while self.deliver_first(ts) {}]. *)
Fixpoint deliver_loop (fuel : nat) (ts : Timestamp.t) (r : t) : t :=
  match fuel with
  | O => r
  | S fuel => let '(r, more) := deliver_first ts r in if more then deliver_loop fuel ts r else r
  end.
Definition deliver_all (ts : Timestamp.t) (r : t) : t := deliver_loop (S (n_pieces r)) ts r.

Definition holding (r : t) : bool := is_none (stop r) && is_some (ooo r).
Definition flush_ooo (ts : Timestamp.t) (r : t) : t :=
  skip_while (S (n_pieces r)) holding ts r.

Definition over_budget (r : t) : bool :=
  is_none (stop r) && is_some_and (fun o => max_ooo_buffer r <? Ooo.charged o) (ooo r).
Definition enforce_ooo_cap (ts : Timestamp.t) (r : t) : t :=
  skip_while (S (n_pieces r)) over_budget ts r.

Definition behind (frontier : Z) (r : t) : bool :=
  is_some_and (fun f => f <=? frontier) (first_start r) && is_none (stop r).

Definition check_timers (now : Timestamp.t) (r : t) : t :=
  if is_some (stop r) then r
  else
    let r :=
      match evidence_due (track r) now (StreamRules.ack_grace (rules r)) with
      | Some frontier =>
          match first_start r with
          | Some first =>
              if first <=? frontier
              then skip_while (S (n_pieces r)) (behind frontier) now
                     (r <| ack_confirmed_gaps ::= Z.add 1 |>)
              else r
          | None => skip_to frontier now (r <| ack_confirmed_gaps ::= Z.add 1 |>)
          end
      | None => r
      end in
    let r :=
      match ooo r with
      | Some o =>
          let stalled := Timestamp.saturating_sub now (last_progress (track r)) in
          let first := from_option id U64_MAX (Ooo.first_start o) in
          let corroborated :=
            (2 <=? Ooo.arrivals o) || (2 <=? zlen (Ooo.pieces o))
            || is_some_and (fun f => first <=? f) (evidence_frontier (track r)) in
          let deadline := StreamRules.deadline (rules r) in
          if (corroborated && (deadline <? stalled)) || (deadline * 4 <? stalled)
          then skip_to_first now r else r
      | None => r
      end in
    r <| track ::= expire_stray now (StreamRules.deadline (rules r) * 4) |>.

Definition absorb (start : Z) (payload : list Z) (r : t) : t :=
  let o := from_option id Ooo.default (ooo r) in
  let '(o, overlapped, divergent) :=
    Ooo.absorb (overlap_policy r) (max_ooo_buffer r) start payload o in
  let r := r <| ooo := Some o |> in
  let r := if divergent : bool then r <| rexmit_inconsistencies ::= fun n => sat_add n 1 |> else r in
  if overlapped : bool then r <| retransmits ::= Z.add 1 |> else r.

(** [resync], given the [feed] it calls back. *)
Definition resync_with (feed : Z -> list Z -> Timestamp.t -> t -> t)
    (c : Candidate.t) (ts : Timestamp.t) (r : t) : t :=
  let r := flush_ooo ts r in
  let r := skip_to (Candidate.off c) ts r in
  let seq := seq_of (track r) (Candidate.off c) in
  let r := feed seq (Candidate.data c) ts r in
  if is_none (stop r) then skip_to (Candidate.end_ c) ts r else r.

(** The last branch of [feed]: data beyond a hole, or filling one. *)
Definition feed_ooo (start next : Z) (data : list Z) (ts : Timestamp.t) (r : t) : t :=
  let was_blocked := is_some (ooo r) in
  let r := if was_blocked then r else r <| track ::= fun k => k <| last_progress := ts |> |> in
  let r := absorb start data r in
  let r := if (start =? next) && was_blocked then r <| holes_filled ::= Z.add 1 |> else r in
  let r := deliver_all ts r in
  let r := enforce_ooo_cap ts r in
  check_timers ts (update_watermark r).

Fixpoint feed_fuel (fuel : nat) (seq : Z) (payload : list Z) (ts : Timestamp.t) (pass : bool)
    (r : t) : t * SegmentOutcome :=
  match fuel with
  | O => (r, Buffered)
  | S fuel =>
      if is_some (stop r) || is_nil payload then (r, Buffered)
      else
        let r := r <| track ::= anchor seq ts |> in
        let start := offset_of (track r) seq in
        let end_ := start + zlen payload in
        let next := next_off (track r) in
        let max_ahead := i64 (StreamRules.max_ahead (rules r)) in
        if max_ahead <? start - next then
          match far_ahead (u64 start) payload ts (StreamRules.max_ahead (rules r)) (track r) with
          | (Resync c, k) =>
              let feed := fun seq data ts r => (feed_fuel fuel seq data ts false r).1 in
              feed_fuel fuel seq payload ts false (resync_with feed c ts (r <| track := k |>))
          | (Held, k) => (r <| track := k |>, Buffered)
          end
        else if end_ <=? next then
          let r :=
            if end_ <? next - max_ahead
            then r <| track ::= fun k => k <| out_of_window ::= Z.add 1 |> |>
            else if (0 <=? start) && in_skipped (track r) start end_
            then r <| dropped_segments ::= Z.add 1 |>
            else r <| retransmits ::= Z.add 1 |> in
          (check_timers ts r, Buffered)
        else
          let '(r, skip) :=
            if start <? next then (r <| retransmits ::= Z.add 1 |>, next - start) else (r, 0) in
          let start := Z.max start next in
          let data := zdrop skip payload in
          if is_none (ooo r) && (start =? next) then
            let r := r <| track ::= advance_to (start + zlen data) ts |> in
            if pass && StreamChunks.is_empty (ready r)
               && is_none_or (fun cap => zlen data <=? cap) (max_buffer r)
            then (note_passthrough (zlen data) r, Passthrough skip)
            else (check_timers ts (append_ready data r), Buffered)
          else (feed_ooo start next data ts r, Buffered)
  end.
Definition feed := feed_fuel 3.
#[global] Arguments feed : simpl never.

Definition segment (seq : Z) (payload : list Z) (ts : Timestamp.t) (r : t) : t :=
  (feed seq payload ts false r).1.
Definition segment_into (seq : Z) (payload : list Z) (ts : Timestamp.t) (r : t)
    : t * SegmentOutcome := feed seq payload ts true r.
Definition resync := resync_with segment.

Definition set_origin (seq : Z) (r : t) : t :=
  r <| track ::= anchor seq Timestamp.default |>.

Definition peer_ack (ack : Z) (ts : Timestamp.t) (r : t) : t :=
  if is_some (stop r) then r
  else
    let '(c, k) := evidence (wsub32 ack 1) ts (StreamRules.max_ahead (rules r)) (track r) in
    let r := r <| track := k |> in
    check_timers ts (match c with Some c => resync c ts r | None => r end).

Definition fin_seen (end_ : Z) (ts : Timestamp.t) (r : t) : t :=
  if is_some (stop r) then r
  else
    let '(c, k) := fin end_ ts (StreamRules.max_ahead (rules r)) (track r) in
    let r := r <| track := k |> in
    match c with Some c => resync c ts r | None => r end.

(** [while self.stop.is_none() && self.track.next_off < end]: an
    iteration reaches [end] or delivers a piece. *)
Fixpoint skip_cut (fuel : nat) (end_ : Z) (ts : Timestamp.t) (r : t) : t :=
  match fuel with
  | O => r
  | S fuel =>
      if is_none (stop r) && (next_off (track r) <? end_) then
        let to := match first_start r with Some f => Z.min f end_ | None => end_ end in
        skip_cut fuel end_ ts (deliver_all ts (skip_to to ts r))
      else r
  end.

Fixpoint missing_fuel (fuel : nat) (seq len : Z) (ts : Timestamp.t) (r : t) : t :=
  match fuel with
  | O => r
  | S fuel =>
      if is_some (stop r) || (len =? 0) then r
      else
        let r := r <| track ::= anchor seq ts |> in
        let start := offset_of (track r) seq in
        let end_ := start + len in
        if end_ <=? next_off (track r) then r
        else if i64 (StreamRules.max_ahead (rules r)) <? start - next_off (track r) then
          let '(c, k) := far_missing (u64 start) len ts (StreamRules.max_ahead (rules r)) (track r) in
          let r := r <| track := k |> in
          match c with
          | Some c => missing_fuel fuel seq len ts (resync c ts r)
          | None => check_timers ts r
          end
        else if start <=? next_off (track r) then
          check_timers ts (update_watermark (skip_cut (S (S (n_pieces r))) end_ ts r))
        else
          let '(c, k) :=
            evidence (wadd32 seq len) ts (StreamRules.max_ahead (rules r)) (track r) in
          let r := r <| track := k |> in
          check_timers ts (match c with Some c => resync c ts r | None => r end)
  end.
Definition missing := missing_fuel 3.
#[global] Arguments missing : simpl never.

Definition drain_into (r : t) (out : StreamChunks.t) : t * StreamChunks.t :=
  let out := StreamChunks.append out (ready r) in
  (r <| above_threshold := false |> <| ready := StreamChunks.new |>,
   match stop r with Some st => StreamChunks.set_stop st out | None => out end).

Definition flush_pending (r : t) : t :=
  let ts := last_progress (track r) in
  let r := flush_ooo ts r in
  let r :=
    if is_none (stop r) then
      match evidence_frontier (track r) with
      | Some frontier => skip_to frontier ts (r <| ack_confirmed_gaps ::= Z.add 1 |>)
      | None => r
      end
    else r in
  r <| track ::= drop_stray |>.

Definition advance_time (now : Timestamp.t) (r : t) : t := check_timers now r.

Definition release (r : t) : t :=
  r <| ready ::= StreamChunks.clear |> <| ready ::= StreamChunks.release |>
    <| ooo := None |> <| track ::= drop_stray |> <| stop ::= get_or_insert Memcap |>.

Definition bytes_in_flight (r : t) : Z := StreamChunks.len (ready r) + buffered_ooo_bytes r.
Definition high_watermark_threshold (r : t) : option (Z * Z) :=
  match max_buffer r, high_watermark_threshold_pct r with
  | Some cap, Some pct => Some (cap, pct)
  | _, _ => None
  end.
Definition current_bytes (r : t) : Z :=
  let ooo := match ooo r with Some o => Ooo.charged o | None => 0 end in
  StreamChunks.len (ready r) + ooo + heap_bytes (track r).

#[global] Instance reassembler : Reassembler t := {
  Reassembler.segment := segment;
  Reassembler.segment_into := segment_into;
  Reassembler.set_origin := set_origin;
  Reassembler.peer_ack := peer_ack;
  Reassembler.fin_seen := fin_seen;
  Reassembler.missing_bytes := missing;
  Reassembler.drain_into := drain_into;
  Reassembler.flush_pending := flush_pending;
  Reassembler.advance_time := advance_time;
  Reassembler.release := release;
  Reassembler.gap_bytes := gap_bytes;
  Reassembler.bytes_dropped_oversize := bytes_dropped_oversize;
  Reassembler.stop_reason := stop;
  Reassembler.bytes_in_flight := bytes_in_flight;
  Reassembler.current_bytes := current_bytes }.
End SegmentBufferReassembler.
