(* ===== verification/SegmentFacts.v ===== *)
(** * Facts on the segment-buffering reassembler

    The invariant of [Segment.v] and its preservation by every operation,
    the termination of its loops, and the [ReassemblerLaws] instance. *)

From S2P Require Import Prelude Time Flow Cells Chunks Ledger Track BTree Ooo Runs Pieces Reassembler Segment.
Import Track TrackFacts StreamChunks StreamChunksFacts SegmentBufferReassembler.

(** These are reasoned about by their lemmas. *)
#[local] Arguments Ooo.cut_runs : simpl never.
#[local] Arguments Ooo.set_runs : simpl never.
#[local] Arguments Ooo.absorb : simpl never.
#[local] Arguments BTreeMap.remove : simpl never.

(** ** Removing the first piece *)

(** What is left of the out-of-order data. *)
Definition rest_of (o : Ooo.t) (p : piece) : Ooo.t :=
  o <| Ooo.pieces ::= BTreeMap.remove p.1 |>
    <| Ooo.bytes ::= fun n => n - Deque.len p.2 |>
    <| Ooo.capacity ::= fun n => n - Deque.capacity p.2 |>
    <| Ooo.runs ::= Ooo.cut_runs p.1 (piece_end p) |>
    <| Ooo.arrivals := 0 |>.

Lemma remove_head lo p ps : pieces_wf lo (p :: ps) -> BTreeMap.remove p.1 (p :: ps) = ps.
Proof.
  intros (? & ? & H). unfold BTreeMap.remove. rewrite filter_cons_False by (intros Hn; by apply Hn).
  apply BTreeMap.filter_all. apply Forall_forall. intros q Hq. destruct (pieces_wf_elem _ _ _ H Hq).
  unfold piece_end in *. lia.
Qed.

Lemma rest_spec lo o p ps : ooo_wf lo o -> Ooo.pieces o = p :: ps ->
  let o' := rest_of o p in
  Ooo.pieces o' = ps /\ ooo_wf lo o' /\ pieces_wf (piece_end p) ps /\
  Ooo.charged o' < Ooo.charged o /\
  (forall x b, byte_at ps x = Some b -> byte_at (p :: ps) x = Some b).
Proof.
  intros [W1 W2 W3 W4 W5] E. rewrite E in *. pose proof (remove_head _ _ _ W1) as Hr.
  pose proof W1 as (Hlo & Hd & Hps).
  assert (p.1 < piece_end p) as Hlt by (unfold piece_end; lia).
  destruct (cut_runs_spec lo p.1 (piece_end p) (Ooo.runs o) W2 Hlt) as [Hcr _].
  pose proof (cut_runs_len lo p.1 (piece_end p) (Ooo.runs o) W2) as Hcl.
  inversion W5 as [|? ? _ W5']; subst. rewrite lens_cons in W3. rewrite caps_cons in W4.
  cbv zeta. split_and!; cbn; rewrite ?E, ?Hr.
  - done.
  - split; cbn; rewrite ?E, ?Hr; [|done|lia|lia|done].
    eapply pieces_wf_weaken; [|exact Hps]. lia.
  - done.
  - unfold Ooo.charged, PIECE_OVERHEAD, RUN_OVERHEAD, rest_of. cbn. rewrite ?E, ?Hr, zlen_cons. lia.
  - intros x b Hx. pose proof (byte_at_lo _ _ _ _ Hps Hx) as Hxl. rewrite at_piece_out by lia. done.
Qed.

(** ** The invariant *)

Definition Settings : Type :=
  option Z * Z * OverflowPolicy * TcpOverlapPolicy * StreamRules.t.
Definition settings (r : t) : Settings :=
  (max_buffer r, max_ooo_buffer r, overflow_policy r, overlap_policy r, rules r).

Section invariant.
Context (wire : Z -> Z -> Prop) (st : Settings).
Notation P r := (at_seq wire (isn (track r))).

(** Held data: well formed, not empty, and as seen on the wire. *)
Definition ooo_ok (i : Z) (o : Ooo.t) : Prop :=
  (exists lo, ooo_wf lo o) /\ Ooo.pieces o <> [] /\
  forall x b, byte_at (Ooo.pieces o) x = Some b -> at_seq wire i x b.

(** [n] is the offset the output has reached. *)
Record winv_at (d : list (option Z)) (n : Z) (r : t) : Prop := {
  i_track : ok wire (track r);
  i_ooo : forall o, ooo r = Some o -> anchored (track r) = true /\ ooo_ok (isn (track r)) o;
  i_ledger : ledger (P r) d (ready r) n (is_none (stop r)) (gap_bytes r + bytes_dropped_oversize r);
  i_settings : settings r = st;
  i_cap : forall cap, max_buffer r = Some cap -> 0 <= cap /\ len (ready r) <= cap;
  i_stop : is_some (stop r) = true -> ooo r = None }.
Definition winv (d : list (option Z)) (r : t) : Prop := winv_at d (next_off (track r)) r.

(** The held data is within its budget. *)
Definition in_budget (r : t) : Prop :=
  forall o, ooo r = Some o -> Ooo.charged o <= max_ooo_buffer r.

Definition inv (d : list (option Z)) (r : t) : Prop := winv d r /\ in_budget r.

(** An operation may only move forward. *)
Definition moved (d : list (option Z)) (r r' : t) : Prop :=
  winv d r' /\ anchored (track r') = anchored (track r) /\ isn (track r') = isn (track r) /\
  next_off (track r) <= next_off (track r').

Lemma seg_moved_refl d r : winv d r -> moved d r r.
Proof. intros. split_and!; [done..|lia]. Qed.
Lemma seg_moved_trans d r r' r'' : moved d r r' -> moved d r' r'' -> moved d r r''.
Proof.
  intros (? & ? & ? & ?) (? & ? & ? & ?). split_and!; [done|congruence|congruence|lia].
Qed.

(** The watermark touches no other field. *)
Lemma seg_update_watermark_same r : let r' := update_watermark r in
  r' = r <| high_watermark := high_watermark r' |> <| above_threshold := above_threshold r' |>
         <| high_watermark_crossings := high_watermark_crossings r' |>.
Proof.
  unfold update_watermark. cbv zeta. destruct (_ <? _), r; cbn; repeat case_match; try reflexivity.
Qed.
Lemma update_watermark_winv d n r : winv_at d n r -> winv_at d n (update_watermark r).
Proof. intros [H1 H2 H3 H4 H5 H6]. rewrite seg_update_watermark_same. by split. Qed.
Lemma seg_note_passthrough_same n r : let r' := note_passthrough n r in
  r' = r <| high_watermark := high_watermark r' |> <| above_threshold := false |>
         <| high_watermark_crossings := high_watermark_crossings r' |>.
Proof. unfold note_passthrough. destruct r. cbn. by repeat case_match. Qed.

(** ** The ready buffer *)

Lemma push_winv d n bs r :
  winv_at d n r -> stop r = None -> bytes_at (P r) n bs ->
  (forall cap, max_buffer r = Some cap -> len (ready r) + zlen bs <= cap) ->
  winv_at d (n + zlen bs) (r <| ready ::= push_data bs |>).
Proof.
  intros [H1 H2 H3 H4 H5 H6] Hst Hb Hc. split; cbn; try done.
  - rewrite Hst in *. by apply (ledger_data _ _ _ _ true).
  - intros cap Hm. destruct (H5 cap Hm). rewrite len_push_data. auto.
Qed.

Lemma drop_winv d n k r :
  winv_at d n r -> 0 <= k <= len (ready r) ->
  winv_at d n (r <| bytes_dropped_oversize ::= Z.add k |> <| ready ::= drop_front k |>).
Proof.
  intros [H1 H2 H3 H4 H5 H6] Hk. split; cbn; try done.
  - apply (ledger_drop_front _ _ _ _ _ _ k) in H3; [|lia]. rewrite Z.min_l in H3 by lia.
    replace (gap_bytes r + (k + _)) with (gap_bytes r + bytes_dropped_oversize r + k) by lia. done.
  - intros cap Hm. destruct (H5 cap Hm). rewrite len_drop_front by lia. lia.
Qed.

Lemma cut_winv d n k r :
  winv_at d n r -> 0 <= k ->
  winv_at d (n + k) (r <| bytes_dropped_oversize ::= Z.add k |> <| ready ::= push_gap k |>).
Proof.
  intros [H1 H2 H3 H4 H5 H6] Hk. split; cbn; try done.
  - replace (gap_bytes r + (k + _)) with (gap_bytes r + bytes_dropped_oversize r + k) by lia.
    by apply ledger_gap.
  - intros cap Hm. rewrite len_push_gap. auto.
Qed.

(** The flow is dropped. *)
Lemma stopped_winv d n m k r :
  winv_at d n r -> n <= m ->
  winv_at d m (r <| bytes_dropped_oversize ::= Z.add k |> <| stop := Some Overflow |>
                 <| ooo := None |> <| track ::= drop_stray |>).
Proof.
  intros [H1 H2 H3 H4 H5 H6] Hm. destruct (drop_stray_ok wire _ H1) as [Hk Hp].
  split; cbn; try done. rewrite (same_pos_isn _ _ Hp). by eapply ledger_stop.
Qed.

Lemma append_ready_winv d n bs r :
  winv_at d n r -> bytes_at (P r) n bs -> winv_at d (n + zlen bs) (append_ready bs r).
Proof.
  intros Hr Hb. pose proof Hr as [H1 H2 H3 H4 H5 H6]. pose proof (zlen_nonneg bs).
  unfold append_ready. destruct (stop r) as [s|] eqn:Hst; cbn [is_some orb].
  { split; try done; rewrite Hst in *; [by eapply ledger_stop; [done|lia]|done]. }
  destruct (is_nil bs) eqn:Hn; [apply is_nil_spec in Hn as ->; by rewrite Z.add_0_r|].
  destruct (max_buffer r) as [cap|] eqn:Hm; cbv zeta;
    [|apply update_watermark_winv, push_winv; try done; congruence].
  destruct (H5 _ eq_refl). case_if.
  2: { apply update_watermark_winv, push_winv; try done. intros c Hc. simplify_eq. lia. }
  destruct (overflow_policy r); [|apply stopped_winv with n; [done|lia]].
  set (k := Z.min _ _). pose proof (zlen_nonneg (bytes (ready r))).
  assert (0 <= k <= len (ready r)) as Hk by (unfold k, len in *; lia).
  pose proof (drop_winv d n k r Hr Hk) as Hr1.
  set (r1 := r <| bytes_dropped_oversize ::= Z.add k |> <| ready ::= drop_front k |>) in *.
  assert (len (ready r1) = len (ready r) - k) as Hl by (unfold r1; cbn; rewrite len_drop_front; lia).
  case_if.
  - set (x := zlen bs - cap). pose proof (cut_winv d n x r1 Hr1 ltac:(lia)) as Hr2.
    set (r2 := r1 <| bytes_dropped_oversize ::= Z.add x |> <| ready ::= push_gap x |>) in *.
    assert (len (ready r2) = len (ready r1)) as Hl2 by (unfold r2; cbn; apply len_push_gap).
    apply update_watermark_winv. replace (n + zlen bs) with (n + x + zlen (zdrop x bs)) by zlia.
    apply push_winv; [done|done|by apply bytes_at_zdrop; [lia|]|].
    intros c Hc. cbn in Hc. rewrite Hm in Hc. injection Hc as <-. rewrite Hl2, Hl. unfold k. zlia.
  - apply update_watermark_winv. apply push_winv; [done..|].
    intros c Hc. cbn in Hc. rewrite Hm in Hc. injection Hc as <-. rewrite Hl. unfold k. lia.
Qed.

Lemma append_ready_owned_eq bs r : bs <> [] -> append_ready_owned bs r = append_ready bs r.
Proof.
  intros Hn. unfold append_ready_owned. case_if; [|done]. zb. unfold append_ready.
  assert (r <| ready ::= push_owned bs |> = r <| ready ::= push_data bs |>) as ->
    by (change (r <| ready := push_owned bs (ready r) |> = r <| ready ::= push_data bs |>); by rewrite push_owned_data).
  destruct (stop r); [done|]. destruct bs as [|b bs]; [done|]. cbn [is_nil orb is_some].
  destruct (max_buffer r) as [cap|]; [|done]. cbn in *. cbv zeta. case_if; [zb; lia|done].
Qed.

Lemma seg_update_watermark_frame r : let r' := update_watermark r in
  track r' = track r /\ ooo r' = ooo r /\ stop r' = stop r /\ settings r' = settings r.
Proof. cbv zeta. by rewrite seg_update_watermark_same. Qed.

(** Appending changes the position record only by dropping the stray,
    and the held data only when it stops. *)
Lemma append_ready_frame bs r : let r' := append_ready bs r in
  (track r' = track r /\ ooo r' = ooo r /\ stop r' = stop r \/
   track r' = drop_stray (track r) /\ ooo r' = None /\ stop r' <> None) /\
  settings r' = settings r.
Proof.
  assert (forall r0, let r' := update_watermark r0 in
    track r0 = track r -> ooo r0 = ooo r -> stop r0 = stop r -> settings r0 = settings r ->
    (track r' = track r /\ ooo r' = ooo r /\ stop r' = stop r \/
     track r' = drop_stray (track r) /\ ooo r' = None /\ stop r' <> None) /\
    settings r' = settings r) as Hw.
  { intros r0. destruct (seg_update_watermark_frame r0) as (E1 & E2 & E3 & E4). cbv zeta.
    rewrite E1, E2, E3, E4. auto. }
  cbv zeta in Hw. unfold append_ready. case_if; [auto|]. cbv zeta.
  destruct (max_buffer r); [case_if; [destruct (overflow_policy r); [case_if|]|]|];
    try (by apply Hw). split; [right; by split_and!|done].
Qed.

Lemma append_ready_pos bs r :
  next_off (track (append_ready bs r)) = next_off (track r) /\
  anchored (track (append_ready bs r)) = anchored (track r) /\
  isn (track (append_ready bs r)) = isn (track r).
Proof. by destruct (append_ready_frame bs r) as [[(-> & _)|(-> & _)] _]. Qed.

(** ** Moving forward *)

Lemma set_track_winv d n r k :
  winv_at d n r -> ok wire k -> same_pos (track r) k -> winv_at d n (r <| track := k |>).
Proof.
  intros [H1 H2 H3 H4 H5 H6] Hk Hp. pose proof (same_pos_isn _ _ Hp) as Hi.
  destruct Hp as (_ & _ & Ha). split; cbn; rewrite ?Hi, ?Ha; done.
Qed.

Lemma seg_set_track_moved d r k :
  winv d r -> ok wire k -> same_pos (track r) k -> moved d r (r <| track := k |>).
Proof.
  intros Hr Hk Hp. unfold moved, winv. cbn. rewrite (same_pos_isn _ _ Hp).
  pose proof (set_track_winv d _ r k Hr Hk Hp). destruct Hp as (-> & _ & ->). split_and!; [done..|lia].
Qed.

Lemma advance_winv d n r o now :
  winv_at d n r -> anchored (track r) = true -> winv_at d n (r <| track ::= advance_to o now |>).
Proof.
  intros [H1 H2 H3 H4 H5 H6] Ha. split; cbn; rewrite ?advance_isn; try done.
  - by apply advance_ok.
  - destruct (advance_same o now (track r)) as (-> & _). done.
Qed.

Lemma skip_to_spec d to now r :
  winv d r -> anchored (track r) = true ->
  moved d r (skip_to to now r) /\ next_off (track (skip_to to now r)) = Z.max (next_off (track r)) to /\
  ooo (skip_to to now r) = ooo r /\ stop (skip_to to now r) = stop r.
Proof.
  intros Hr Ha. unfold skip_to. case_if; [split_and!; [by apply seg_moved_refl|lia|done..]|].
  pose proof Hr as [H1 H2 H3 H4 H5 H6]. set (n := next_off (track r)) in *.
  destruct (record_skip_ok wire n to _ H1) as (Hk & Hp & _).
  pose proof (same_pos_isn _ _ Hp) as Hi. destruct Hp as (Hn & _ & Ha'). rewrite Ha in Ha'.
  set (r1 := r <| gaps ::= Z.add 1 |> <| gap_bytes ::= Z.add (to - n) |>
    <| track ::= record_skip n to |> <| ready ::= push_gap (to - n) |>).
  assert (winv_at d to r1) as H.
  { split; cbn; rewrite ?Hi; try done.
    - intros o Ho. destruct (H2 o Ho). done.
    - replace to with (n + (to - n)) at 2 by lia.
      replace (to - n + _ + _) with (gap_bytes r + bytes_dropped_oversize r + (to - n)) by lia.
      apply ledger_gap; [done|lia].
    - intros cap Hc. rewrite len_push_gap. by apply H5. }
  apply (advance_winv _ _ _ to now) in H; [|done].
  destruct (advance_same to now (track r1)) as (E & _).
  assert (next_off (track (r1 <| track ::= advance_to to now |>)) = to) as En.
  { cbn. rewrite advance_next_off, Hn. fold n. lia. }
  split_and!; [|rewrite En; lia|done|done].
  split_and!; [unfold winv; by rewrite En| |cbn; by rewrite advance_isn|rewrite En; fold n; lia].
  change (anchored (advance_to to now (track r1)) = anchored (track r)). rewrite E. cbn. congruence.
Qed.

(** Delivering the first piece: from a state with data held. *)
Lemma deliver_first_spec d now r o p ps :
  winv d r -> ooo r = Some o -> Ooo.pieces o = p :: ps -> p.1 <= next_off (track r) ->
  exists r', deliver_first now r = (r', true) /\ moved d r r' /\
    next_off (track r') = Z.max (next_off (track r)) (piece_end p) /\
    (stop r' = stop r /\ ooo r' = (if is_nil ps then None else Some (rest_of o p)) \/ ooo r' = None).
Proof.
  intros Hr Ho Ep Hn. pose proof Hr as [H1 H2 H3 H4 H5 H6].
  destruct (H2 o Ho) as [Ha ([lo Hw] & _ & HP)].
  destruct (rest_spec lo o p ps Hw Ep) as (Er & Hw' & _ & _ & Hsub).
  unfold deliver_first. rewrite Ho, Ep. destruct p as [s q]. cbn [BTreeMap.first head fst snd] in *.
  destruct (Z.ltb_spec (next_off (track r)) s); [lia|]. cbv zeta.
  change (o <| Ooo.pieces ::= _ |> <| Ooo.bytes ::= _ |> <| Ooo.capacity ::= _ |>
            <| Ooo.runs ::= _ |> <| Ooo.arrivals := 0 |>) with (rest_of o (s, q)).
  rewrite Er. set (e := s + Deque.len q). assert (piece_end (s, q) = e) as Ee by done.
  set (r1 := r <| ooo := if is_nil ps then None else Some (rest_of o (s, q)) |>).
  assert (winv d r1) as Hr1.
  { split; cbn; try done.
    - destruct ps as [|p' ps]; cbn; [done|]. intros o' [= <-]. split; [done|]. split_and!; [by exists lo| |].
      + change (Ooo.pieces (rest_of o (s, q)) <> []). by rewrite Er.
      + intros x b. change (byte_at (Ooo.pieces (rest_of o (s, q))) x = Some b -> at_seq wire (isn (track r)) x b).
        rewrite Er. intros Hx. apply HP. rewrite Ep. by apply Hsub.
    - intros Hs. specialize (H6 Hs). congruence. }
  eexists. split; [reflexivity|]. rewrite Ee. case_if.
  2: { split_and!; [split_and!; [done..|cbn; lia]|cbn; lia|left; by split]. }
  set (bs := zdrop (next_off (track r) - s) (Deque.data q)).
  assert (zlen bs = e - next_off (track r)) as Hl by (unfold bs, e, Deque.len in *; zlia).
  assert (bs <> []) as Hne by (intros E; rewrite E in Hl; unfold zlen in Hl; cbn in Hl; lia).
  rewrite append_ready_owned_eq by done.
  pose proof (advance_winv d _ _ e now Hr1 Ha) as Hr2.
  assert (bytes_at (P r1) (next_off (track r)) bs) as Hb.
  { intros i b Hi. apply HP. rewrite Ep. cbn. unfold at_piece. cbn [fst snd].
    unfold bs, zdrop in Hi. rewrite lookup_drop in Hi.
    destruct (Z.leb_spec s (next_off (track r) + Z.of_nat i)); [|lia].
    replace (Z.to_nat _) with (Z.to_nat (next_off (track r) - s) + i)%nat by lia. by rewrite Hi. }
  apply (append_ready_winv d _ bs) in Hr2; [|cbn; by rewrite advance_isn].
  change (next_off (track r1)) with (next_off (track r)) in Hr2.
  replace (next_off (track r) + zlen bs) with e in Hr2 by lia.
  set (r2 := r1 <| track ::= advance_to e now |>) in *.
  destruct (append_ready_pos bs r2) as (P1 & P2 & P3).
  destruct (advance_same e now (track r)) as (E & _).
  assert (next_off (track r2) = e) as En by (unfold r2; cbn; rewrite advance_next_off; lia).
  split_and!.
  - split_and!; [unfold winv; by rewrite P1, En| | |rewrite P1, En; lia].
    + rewrite P2. exact E.
    + rewrite P3. unfold r2. cbn. apply advance_isn.
  - rewrite P1, En. lia.
  - destruct (append_ready_frame bs r2) as [[(_ & -> & ->)|(_ & -> & _)] _]; [left; by split|by right].
Qed.

(** ** The loops *)

(** An operation that only delivers: it moves forward and does not add
    to the held data. *)
Definition lighter (r r' : t) : Prop :=
  (n_pieces r' <= n_pieces r)%nat /\
  forall o', ooo r' = Some o' -> exists o, ooo r = Some o /\ Ooo.charged o' <= Ooo.charged o.
Definition settled (d : list (option Z)) (r r' : t) : Prop := moved d r r' /\ lighter r r'.

Lemma lighter_refl r : lighter r r.
Proof. split; [done|]. intros o Ho. exists o. split; [done|lia]. Qed.
Lemma lighter_trans r r' r'' : lighter r r' -> lighter r' r'' -> lighter r r''.
Proof.
  intros [N1 H1] [N2 H2]. split; [lia|]. intros o'' (o' & (o & Ho & Hl)%H1 & Hl')%H2.
  exists o. split; [done|lia].
Qed.
Lemma same_ooo_lighter r r' : ooo r' = ooo r -> lighter r r'.
Proof. unfold lighter, n_pieces. intros ->. split; [done|]. intros o Ho. exists o. split; [done|lia]. Qed.

Lemma settled_refl d r : winv d r -> settled d r r.
Proof. split; [by apply seg_moved_refl|apply lighter_refl]. Qed.
Lemma settled_trans d r r' r'' : settled d r r' -> settled d r' r'' -> settled d r r''.
Proof. intros [M1 L1] [M2 L2]. split; [by eapply seg_moved_trans|by eapply lighter_trans]. Qed.
Lemma settled_winv d r r' : settled d r r' -> winv d r'.
Proof. intros [[? _] _]. done. Qed.
Lemma settled_anchored d r r' : settled d r r' -> anchored (track r') = anchored (track r).
Proof. intros [(_ & ? & _) _]. done. Qed.
Lemma settled_inv d r r' : inv d r -> settled d r r' -> inv d r'.
Proof.
  intros [Hr Hb] [[Hr' _] [_ Hl]]. split; [done|]. intros o' (o & Ho & Hle)%Hl.
  pose proof (i_settings _ _ _ Hr) as E1. pose proof (i_settings _ _ _ Hr') as E2.
  unfold settings in *. specialize (Hb o Ho). assert (max_ooo_buffer r' = max_ooo_buffer r) by congruence. lia.
Qed.

(** What is held, with its first piece. *)
Lemma held_cases d r : winv d r ->
  match ooo r with
  | Some o => anchored (track r) = true /\ exists p ps, Ooo.pieces o = p :: ps /\
                first_start r = Some p.1 /\ n_pieces r = S (length ps) /\ exists lo, ooo_wf lo o
  | None => first_start r = None /\ n_pieces r = 0%nat
  end.
Proof.
  intros Hr. unfold first_start, n_pieces. destruct (ooo r) as [o|] eqn:Ho; [|done].
  destruct (i_ooo _ _ _ Hr o Ho) as [Ha (Hw & Hne & _)]. split; [done|].
  destruct (Ooo.pieces o) as [|p ps] eqn:Ep; [done|]. exists p, ps. cbn. unfold Ooo.first_start. by rewrite Ep.
Qed.

Lemma deliver_first_cases d now r : winv d r ->
  (exists r', deliver_first now r = (r', true) /\ settled d r r' /\ (n_pieces r' < n_pieces r)%nat) \/
  (deliver_first now r = (r, false) /\ forall f, first_start r = Some f -> next_off (track r) < f).
Proof.
  intros Hr. pose proof (held_cases d r Hr) as Hc. destruct (ooo r) as [o|] eqn:Ho.
  - destruct Hc as (Ha & p & ps & Ep & Ef & En & lo & Hw).
    destruct (Z.le_gt_cases p.1 (next_off (track r))) as [Hle|Hgt].
    + left. destruct (deliver_first_spec d now r o p ps Hr Ho Ep Hle) as (r' & E & Hm & _ & Hoo).
      exists r'. split; [done|]. destruct (rest_spec lo o p ps Hw Ep) as (Er & _ & _ & Hch & _).
      assert (ooo r' = None \/ (ooo r' = Some (rest_of o p) /\ ps <> [])) as Hoo'.
      { destruct Hoo as [[_ Eoo]|Eoo]; rewrite Eoo; [|by left]. destruct ps; [by left|by right]. }
      assert (n_pieces r' < n_pieces r)%nat as Hn.
      { rewrite En. unfold n_pieces. destruct Hoo' as [-> |[-> _]]; [lia|]. rewrite Er. lia. }
      split; [|done]. split; [done|]. split; [lia|]. intros o' Ho'.
      destruct Hoo' as [E'|[E' _]]; [congruence|]. exists o. split; [done|].
      assert (o' = rest_of o p) as -> by congruence. lia.
    + right. unfold deliver_first. rewrite Ho, Ep. cbn. destruct p as [s q]. cbn in *.
      destruct (Z.ltb_spec (next_off (track r)) s); [|lia]. split; [done|].
      intros f Hf. simplify_eq. done.
  - right. destruct Hc as [Ef _]. unfold deliver_first. rewrite Ho. split; [done|]. by rewrite Ef.
Qed.

Lemma deliver_loop_spec d now fuel : forall r, winv d r -> (n_pieces r < fuel)%nat ->
  settled d r (deliver_loop fuel now r) /\
  forall f, first_start (deliver_loop fuel now r) = Some f ->
    next_off (track (deliver_loop fuel now r)) < f.
Proof.
  induction fuel as [|fuel IH]; intros r Hr Hf; [lia|]. cbn [deliver_loop].
  destruct (deliver_first_cases d now r Hr) as [(r' & -> & Hs & Hn)|[-> Hn]].
  - destruct (IH r' (settled_winv _ _ _ Hs) ltac:(lia)) as [Hs' Hx]. split; [|done].
    by eapply settled_trans.
  - split; [by apply settled_refl|done].
Qed.

Lemma skip_to_settled d to now r : winv d r -> anchored (track r) = true -> settled d r (skip_to to now r).
Proof.
  intros Hr Ha. destruct (skip_to_spec d to now r Hr Ha) as (? & _ & ? & _).
  split; [done|by apply same_ooo_lighter].
Qed.

Lemma skip_to_first_spec d now r : winv d r -> is_some (ooo r) = true ->
  settled d r (skip_to_first now r) /\ (n_pieces (skip_to_first now r) < n_pieces r)%nat.
Proof.
  intros Hr Ho. pose proof (held_cases d r Hr) as Hc. destruct (ooo r) as [o|] eqn:Eo; [|done].
  destruct Hc as (Ha & p & ps & Ep & Ef & En & _). unfold skip_to_first. rewrite Ef.
  destruct (skip_to_spec d p.1 now r Hr Ha) as (Hm & Hn & Eo' & _).
  pose proof (skip_to_settled d p.1 now r Hr Ha) as Hs1. set (r1 := skip_to p.1 now r) in *.
  assert (first_start r1 = first_start r) as Ef1 by (unfold first_start; by rewrite Eo').
  assert (n_pieces r1 = n_pieces r) as En1 by (unfold n_pieces; by rewrite Eo').
  destruct (deliver_first_cases d now r1 (settled_winv _ _ _ Hs1)) as [(r' & -> & Hs & Hlt)|[_ Hx]].
  - cbn. split; [by eapply settled_trans|lia].
  - specialize (Hx p.1). rewrite Ef1 in Hx. specialize (Hx Ef). lia.
Qed.

Lemma skip_while_spec d now cond fuel :
  (forall r, cond r = true -> is_some (ooo r) = true) ->
  forall r, winv d r -> (n_pieces r < fuel)%nat ->
  settled d r (skip_while fuel cond now r) /\ cond (skip_while fuel cond now r) = false.
Proof.
  intros Hc. induction fuel as [|fuel IH]; intros r Hr Hf; [lia|]. cbn [skip_while].
  destruct (cond r) eqn:E; [|split; [by apply settled_refl|done]].
  destruct (skip_to_first_spec d now r Hr (Hc r E)) as [Hs Hn].
  destruct (IH _ (settled_winv _ _ _ Hs) ltac:(lia)) as [Hs' Hx]. split; [|done].
  by eapply settled_trans.
Qed.

(** ** Timers *)

Lemma set_track_settled d r k :
  winv d r -> ok wire k -> same_pos (track r) k -> settled d r (r <| track := k |>).
Proof. intros. split; [by apply seg_set_track_moved|by apply same_ooo_lighter]. Qed.

(** Only counters, watermarks and the like differ. *)
Definition same_core (r r' : t) : Prop :=
  ready r' = ready r /\ track r' = track r /\ ooo r' = ooo r /\ stop r' = stop r /\
  gap_bytes r' = gap_bytes r /\ bytes_dropped_oversize r' = bytes_dropped_oversize r /\
  settings r' = settings r.

Lemma same_core_settled d r r' : winv d r -> same_core r r' -> settled d r r'.
Proof.
  intros [H1 H2 H3 H4 H5 H6] (E1 & E2 & E3 & E4 & E5 & E6 & E7).
  assert (max_buffer r' = max_buffer r) as E8 by (unfold settings in E7; congruence).
  split; [|by apply same_ooo_lighter]. unfold moved, winv. rewrite E2. split_and!; [|done|done|lia].
  split; rewrite ?E1, ?E2, ?E3, ?E4, ?E5, ?E6, ?E7, ?E8; done.
Qed.

Lemma update_watermark_core r : same_core r (update_watermark r).
Proof. rewrite seg_update_watermark_same. by split_and!. Qed.

Lemma seg_frontier_anchored d n r : winv_at d n r -> next_off (track r) < evidence_off (track r) ->
  anchored (track r) = true.
Proof.
  intros Hr Hlt. destruct (anchored (track r)) eqn:Ha; [done|].
  destruct (ok_new _ _ (i_track _ _ _ Hr) Ha). lia.
Qed.

(** The first deadline: a hole the peer acknowledged. *)
Definition ack_timer (now : Timestamp.t) (r : t) : t :=
  match evidence_due (track r) now (StreamRules.ack_grace (rules r)) with
  | Some frontier =>
      match first_start r with
      | Some first =>
          if first <=? frontier
          then skip_while (S (n_pieces r)) (behind frontier) now
                 (r <| ack_confirmed_gaps ::= Z.add 1 |>)
          else r
      | None => skip_to frontier now (r <| ack_confirmed_gaps ::= Z.add 1 |>)
      end
  | None => r
  end.
(** The second: a hole open for too long. *)
Definition stall_timer (now : Timestamp.t) (r : t) : t :=
  match ooo r with
  | Some o =>
      let stalled := Timestamp.saturating_sub now (last_progress (track r)) in
      let first := from_option id U64_MAX (Ooo.first_start o) in
      let corroborated :=
        (2 <=? Ooo.arrivals o) || (2 <=? zlen (Ooo.pieces o))
        || is_some_and (fun f => first <=? f) (evidence_frontier (track r)) in
      let deadline := StreamRules.deadline (rules r) in
      if (corroborated && (deadline <? stalled)) || (deadline * 4 <? stalled)
      then skip_to_first now r else r
  | None => r
  end.

Lemma behind_holds f r : behind f r = true -> is_some (ooo r) = true.
Proof. unfold behind, first_start. destruct (ooo r); [done|]. cbn. done. Qed.
Lemma over_budget_holds r : over_budget r = true -> is_some (ooo r) = true.
Proof. unfold over_budget. destruct (ooo r); [done|]. by rewrite andb_false_r. Qed.
Lemma holding_holds r : holding r = true -> is_some (ooo r) = true.
Proof. unfold holding. by intros [_ ?]%andb_true_iff. Qed.

Lemma ack_timer_settled d now r : winv d r -> settled d r (ack_timer now r).
Proof.
  intros Hr. assert (same_core r (r <| ack_confirmed_gaps ::= Z.add 1 |>)) as Hc by by split_and!.
  pose proof (same_core_settled d _ _ Hr Hc) as Hs. pose proof (settled_winv _ _ _ Hs) as Hr'.
  unfold ack_timer, evidence_due. destruct (evidence_since (track r)); [|by apply settled_refl].
  case_if; [|by apply settled_refl]. destruct (first_start r).
  - case_if; [|by apply settled_refl]. eapply settled_trans; [exact Hs|].
    by apply skip_while_spec; [apply behind_holds|exact Hr'|unfold n_pieces; cbn; lia].
  - eapply settled_trans; [exact Hs|]. apply skip_to_settled; [exact Hr'|].
    by eapply (seg_frontier_anchored d).
Qed.

Lemma stall_timer_settled d now r : winv d r -> settled d r (stall_timer now r).
Proof.
  intros Hr. unfold stall_timer. destruct (ooo r) eqn:Ho; [|by apply settled_refl]. cbv zeta.
  case_if; [|by apply settled_refl]. apply skip_to_first_spec; [done|by rewrite Ho].
Qed.

Lemma check_timers_settled d now r : winv d r -> settled d r (check_timers now r).
Proof.
  intros Hr. unfold check_timers. case_if; [by apply settled_refl|]. fold (ack_timer now r).
  pose proof (ack_timer_settled d now r Hr) as H1. set (r1 := ack_timer now r) in *.
  fold (stall_timer now r1). pose proof (stall_timer_settled d now r1 (settled_winv _ _ _ H1)) as H2.
  set (r2 := stall_timer now r1) in *. eapply settled_trans; [exact H1|]. eapply settled_trans; [exact H2|].
  pose proof (settled_winv _ _ _ H2) as Hr2.
  destruct (expire_stray_ok wire now (StreamRules.deadline (rules r2) * 4) _ (i_track _ _ _ Hr2)).
  by apply set_track_settled.
Qed.

Lemma flush_ooo_settled d now r : winv d r ->
  settled d r (flush_ooo now r) /\ ooo (flush_ooo now r) = None.
Proof.
  intros Hr. destruct (skip_while_spec d now holding (S (n_pieces r)) holding_holds r Hr) as [Hs Hc]; [lia|].
  split; [exact Hs|]. fold (flush_ooo now r) in *. unfold holding in Hc.
  pose proof (i_stop _ _ _ (settled_winv _ _ _ Hs)) as Hstop.
  destruct (stop (flush_ooo now r)); [by apply Hstop|]. by destruct (ooo _).
Qed.

(** ** Out-of-order data *)

Lemma absorb_frame start bs r : let r' := absorb start bs r in
  ready r' = ready r /\ track r' = track r /\ stop r' = stop r /\ gap_bytes r' = gap_bytes r /\
  bytes_dropped_oversize r' = bytes_dropped_oversize r /\ settings r' = settings r /\
  ooo r' = Some (Ooo.absorb (overlap_policy r) (max_ooo_buffer r) start bs
                   (from_option id Ooo.default (ooo r))).1.1.
Proof.
  unfold absorb. destruct (Ooo.absorb _ _ _ _ _) as [[o ov] dv]. cbn. by destruct ov, dv.
Qed.

Lemma ooo_wf_weaken lo lo' o : lo' <= lo -> ooo_wf lo o -> ooo_wf lo' o.
Proof.
  intros H [W1 W2 W3 W4 W5]. split; [by eapply pieces_wf_weaken|by eapply runs_wf_weaken|done..].
Qed.

Lemma absorb_ooo_ok i o policy mx start bs :
  (ooo_ok i o \/ o = Ooo.default) -> bs <> [] -> bytes_at (at_seq wire i) start bs ->
  ooo_ok i (Ooo.absorb policy mx start bs o).1.1.
Proof.
  intros Ho Hne Hb. assert (0 < zlen bs) as Hp.
  { destruct bs; [done|]. rewrite zlen_cons. pose proof (zlen_nonneg bs). lia. }
  assert (exists lo, lo < start /\ ooo_wf lo o) as (lo & Hlo & Hw).
  { destruct Ho as [([lo Hw] & _)| ->].
    - exists (Z.min lo (start - 1)). split; [lia|]. eapply ooo_wf_weaken; [|done]. lia.
    - exists (start - 1). split; [lia|apply default_wf]. }
  assert (forall x b, byte_at (Ooo.pieces o) x = Some b -> at_seq wire i x b) as HP.
  { destruct Ho as [(_ & _ & HP)| ->]; [done|]. done. }
  pose proof (absorb_spec lo policy mx start bs o Hp Hw Hlo) as H.
  destruct (Ooo.absorb policy mx start bs o) as [[o' ov] dv]. destruct H as (Hw' & HB & _). cbn.
  assert (forall x b, inside start (start + zlen bs) x = true -> bs !! Z.to_nat (x - start) = Some b ->
    at_seq wire i x b) as HN.
  { intros x b Hx Hl. specialize (Hb _ _ Hl). unfold inside in Hx. zb.
    by replace (start + Z.of_nat (Z.to_nat (x - start))) with x in Hb by lia. }
  split_and!; [by exists lo| |].
  - intros E. specialize (HB start). rewrite E in HB. unfold absorbed in HB. cbn in HB.
    assert (inside start (start + zlen bs) start = true) as Hin by (unfold inside; zb; lia).
    destruct (payload_in _ _ _ Hin) as [b Hb']. rewrite Hin, Hb' in HB.
    destruct (byte_at (Ooo.pieces o) start); [|done]. by destruct (wins _ _ _ _).
  - intros x b. rewrite HB. unfold absorbed.
    destruct (inside start (start + zlen bs) x) eqn:Hin; [|by apply HP]. cbn [andb].
    destruct (is_none _ || _); intros Hx; [by apply HN|by apply HP].
Qed.

Lemma ooo_ok_lo i o : ooo_ok i o -> exists lo, ooo_wf lo o.
Proof. by intros (? & _). Qed.

Lemma absorb_moved d start bs r :
  winv d r -> anchored (track r) = true -> stop r = None -> bs <> [] ->
  bytes_at (P r) start bs -> moved d r (absorb start bs r).
Proof.
  intros Hr Ha Hst Hne Hb. destruct (absorb_frame start bs r) as (E1 & E2 & E3 & E4 & E5 & E6 & E7).
  pose proof Hr as [H1 H2 H3 H4 H5 H6]. unfold moved, winv. rewrite E2. split_and!; [|done|done|lia].
  assert (max_buffer (absorb start bs r) = max_buffer r) as E8 by (unfold settings in E6; congruence).
  split; rewrite ?E1, ?E2, ?E3, ?E4, ?E5, ?E6, ?E8; try done.
  - rewrite E7. intros o [= <-]. split; [done|]. apply absorb_ooo_ok; [|done|done].
    destruct (ooo r) as [o|] eqn:Eo; [left; by apply H2|by right].
  - by rewrite Hst.
Qed.

Lemma enforce_ooo_cap_spec d now r : winv d r ->
  settled d r (enforce_ooo_cap now r) /\ in_budget (enforce_ooo_cap now r).
Proof.
  intros Hr. destruct (skip_while_spec d now over_budget (S (n_pieces r)) over_budget_holds r Hr)
    as [Hs Hc]; [lia|]. fold (enforce_ooo_cap now r) in *. split; [done|].
  pose proof (i_stop _ _ _ (settled_winv _ _ _ Hs)) as Hstop. intros o Ho.
  unfold over_budget in Hc. rewrite Ho in *. destruct (stop (enforce_ooo_cap now r)).
  - by specialize (Hstop eq_refl).
  - apply Z.ltb_ge. exact Hc.
Qed.

Lemma progress_moved d ts r : winv d r ->
  moved d r (r <| track ::= fun k => k <| last_progress := ts |> |>).
Proof.
  intros Hr. apply (seg_set_track_moved d r (track r <| last_progress := ts |>)); [done| |done].
  destruct (i_track _ _ _ Hr) as [T1 T2 T3 T4]. by split.
Qed.

Lemma feed_ooo_inv d start next bs ts r :
  winv d r -> anchored (track r) = true -> stop r = None -> bs <> [] ->
  bytes_at (P r) start bs ->
  inv d (feed_ooo start next bs ts r) /\ moved d r (feed_ooo start next bs ts r).
Proof.
  intros Hr Ha Hst Hne Hb. unfold feed_ooo. cbv zeta.
  set (r1 := if is_some (ooo r) then r else _).
  assert (moved d r r1 /\ stop r1 = None /\ isn (track r1) = isn (track r) /\ anchored (track r1) = true)
    as (M1 & S1 & I1 & A1).
  { unfold r1. case_if; [split_and!; [by apply seg_moved_refl|done..]|]. split_and!; [by apply progress_moved|done..]. }
  assert (moved d r1 (absorb start bs r1)) as M2.
  { apply absorb_moved; [apply M1|done|done|done|by rewrite I1]. }
  set (r2 := absorb start bs r1) in *.
  set (r3 := if (start =? next) && is_some (ooo r) then _ else r2).
  assert (same_core r2 r3) as Hc3 by (unfold r3; case_if; by split_and!).
  pose proof (same_core_settled d r2 r3 (proj1 M2) Hc3) as [M3 _].
  destruct (deliver_loop_spec d ts (S (n_pieces r3)) r3 (proj1 M3)) as [[M4 _] _]; [lia|].
  fold (deliver_all ts r3) in *. set (r4 := deliver_all ts r3) in *.
  destruct (enforce_ooo_cap_spec d ts r4 (proj1 M4)) as [S5 B5]. set (r5 := enforce_ooo_cap ts r4) in *.
  pose proof (same_core_settled d _ _ (settled_winv _ _ _ S5) (update_watermark_core r5)) as S6.
  pose proof (check_timers_settled d ts _ (settled_winv _ _ _ S6)) as S7.
  pose proof (settled_trans _ _ _ _ S6 S7) as S67. split.
  - eapply settled_inv; [|exact S67]. split; [apply S5|done].
  - repeat (eapply seg_moved_trans; [eassumption|]). eapply seg_moved_trans; [apply S5|]. apply S67.
Qed.

(** ** [feed] *)

Definition outcome_cells (payload : list Z) (o : SegmentOutcome) : list (option Z) :=
  match o with Passthrough k => data_cells (zdrop k payload) | Buffered => [] end.

Lemma seg_feed_buffered fuel : forall seq payload now r r' o,
  feed_fuel fuel seq payload now false r = (r', o) -> o = Buffered.
Proof.
  induction fuel as [|fuel IH]; intros seq payload now r r' o; cbn [feed_fuel andb]; [naive_solver|].
  case_if; [naive_solver|]. cbv zeta. case_if.
  - destruct (far_ahead _ _ _ _ _) as [[|c] k]; [naive_solver|apply IH].
  - case_if; [naive_solver|]. destruct (if _ <? _ then (_, _) else _) as [r2 k].
    case_if; naive_solver.
Qed.

Lemma anchor_winv d seq now r : winv d r -> winv d (r <| track ::= anchor seq now |>).
Proof.
  intros Hr. destruct (anchored (track r)) eqn:Ha.
  { unfold anchor. destruct r, track0. cbn in *. by subst. }
  pose proof Hr as [H1 H2 H3 H4 H5 H6]. destruct (ok_new _ _ H1 Ha) as [Hn He].
  destruct (anchor_same seq now (track r)) as (Ea & En & _ & Eo).
  unfold winv. cbn. rewrite En. split; cbn; rewrite ?En, ?Ea; try done.
  - by apply anchor_ok.
  - intros o Ho. destruct (H2 o Ho). congruence.
  - destruct H3 as [? H3]. split; [done|]. intros _. destruct H3 as (Hw & _ & Hl & Hlive);
      [by rewrite Hn|].
    split_and!; [done| |done|done]. rewrite Hn in Hl.
    assert (d ++ content (ready r) = []) as ->.
    { apply zlen_zero. pose proof (zlen_nonneg (d ++ content (ready r))). lia. }
    apply cells_at_nil.
Qed.
Lemma seg_anchor_inv d seq now r : inv d r -> inv d (r <| track ::= anchor seq now |>).
Proof. intros [Hr Hb]. split; [by apply anchor_winv|done]. Qed.

Lemma duplicate_settled d r m start end_ : winv d r ->
  settled d r
    (if end_ <? next_off (track r) - m
     then r <| track ::= fun k => k <| out_of_window ::= Z.add 1 |> |>
     else if (0 <=? start) && in_skipped (track r) start end_
     then r <| dropped_segments ::= Z.add 1 |>
     else r <| retransmits ::= Z.add 1 |>).
Proof.
  intros Hr. case_if; [|case_if; apply same_core_settled; done || by split_and!].
  apply (set_track_settled d r (track r <| out_of_window ::= Z.add 1 |>)); [done| |done].
  destruct (i_track _ _ _ Hr) as [T1 T2 T3 T4]. split; cbn; [done|done|lia|].
  intros c Hc. destruct (T4 c Hc) as (? & ? & ?). split_and!; [done|done|lia].
Qed.

(** An operation on well-formed states within budget. *)
Definition stepped (d : list (option Z)) (r r' : t) : Prop := inv d r' /\ moved d r r'.

Lemma settled_stepped d r r' : inv d r -> settled d r r' -> stepped d r r'.
Proof. intros Hr Hs. split; [by eapply settled_inv|by destruct Hs]. Qed.
Lemma stepped_trans d r r' r'' : stepped d r r' -> stepped d r' r'' -> stepped d r r''.
Proof. intros [_ M1] [H2 M2]. split; [done|by eapply seg_moved_trans]. Qed.
Lemma stepped_refl d r : inv d r -> stepped d r r.
Proof. intros Hr. split; [done|]. apply seg_moved_refl, Hr. Qed.
Lemma stepped_anchored d r r' : stepped d r r' -> anchored (track r) = true -> anchored (track r') = true.
Proof. intros [_ (_ & -> & _)]. done. Qed.

Lemma seq_of_ok k c : cand_ok wire (isn k) c -> seg_ok wire (seq_of k (Candidate.off c)) (Candidate.data c).
Proof.
  intros (_ & _ & H) i b Hi%H. unfold at_seq in Hi. rewrite seq_of_isn, u32_add_l.
  by rewrite Z.add_assoc in Hi.
Qed.

Lemma resync_stepped feed d c ts r :
  (forall seq bs ts r, inv d r -> anchored (track r) = true -> seg_ok wire seq bs ->
     stepped d r (feed seq bs ts r)) ->
  inv d r -> anchored (track r) = true -> cand_ok wire (isn (track r)) c ->
  stepped d r (resync_with feed c ts r).
Proof.
  intros Hf Hr Ha Hc. unfold resync_with. cbv zeta.
  pose proof (settled_stepped d _ _ Hr (proj1 (flush_ooo_settled d ts r (proj1 Hr)))) as S1.
  set (r1 := flush_ooo ts r) in *. pose proof S1 as [Hr1 _]. pose proof (stepped_anchored _ _ _ S1 Ha) as A1.
  pose proof (settled_stepped d _ _ Hr1 (skip_to_settled d (Candidate.off c) ts r1 (proj1 Hr1) A1)) as S2.
  set (r2 := skip_to (Candidate.off c) ts r1) in *.
  pose proof S2 as [Hr2 _]. pose proof (stepped_anchored _ _ _ S2 A1) as A2.
  pose proof (stepped_trans _ _ _ _ S1 S2) as S12. pose proof S12 as [_ (_ & _ & I & _)].
  rewrite <- I in Hc.
  pose proof (Hf (seq_of (track r2) (Candidate.off c)) (Candidate.data c) ts r2 Hr2 A2 (seq_of_ok _ _ Hc)) as S3.
  set (r3 := feed _ _ _ r2) in *. pose proof (stepped_trans _ _ _ _ S12 S3) as S123.
  case_if; [|done]. eapply stepped_trans; [exact S123|]. apply settled_stepped; [apply S3|].
  apply skip_to_settled; [apply S3|]. by apply (stepped_anchored d r2).
Qed.

(** The in-order branch. *)
Lemma advance_isn' e ts r : isn (track (r <| track ::= advance_to e ts |>)) = isn (track r).
Proof. cbn. apply advance_isn. Qed.

Lemma append_step d bs ts r :
  inv d r -> anchored (track r) = true -> bytes_at (P r) (next_off (track r)) bs ->
  let r1 := r <| track ::= advance_to (next_off (track r) + zlen bs) ts |> in
  stepped d r (check_timers ts (append_ready bs r1)).
Proof.
  intros [Hr Hbud] Ha Hb r1. pose proof (zlen_nonneg bs).
  pose proof (advance_winv d _ _ (next_off (track r) + zlen bs) ts Hr Ha) as Hr1.
  apply (append_ready_winv d _ bs) in Hr1; [|by rewrite advance_isn'].
  fold r1 in Hr1. destruct (append_ready_pos bs r1) as (E1 & E2 & E3).
  assert (next_off (track r1) = next_off (track r) + zlen bs) as En.
  { unfold r1. cbn. rewrite advance_next_off. lia. }
  destruct (advance_same (next_off (track r) + zlen bs) ts (track r)) as (Ea & _).
  assert (moved d r (append_ready bs r1)) as M.
  { split_and!.
    - unfold winv. by rewrite E1, En.
    - rewrite E2. exact Ea.
    - rewrite E3. apply advance_isn'.
    - rewrite E1, En. lia. }
  assert (in_budget (append_ready bs r1)) as B.
  { destruct (append_ready_frame bs r1) as [Ho Es]. intros o Hoo.
    destruct Ho as [(_ & Eo & _)|(_ & Eo & _)]; [|congruence]. rewrite Eo in Hoo.
    assert (max_ooo_buffer (append_ready bs r1) = max_ooo_buffer r1) as -> by (unfold settings in Es; congruence).
    by apply Hbud. }
  destruct M as [Mw Mr]. pose proof (conj Mw B : inv d (append_ready bs r1)) as Hi.
  eapply stepped_trans; [split; [exact Hi|split; [exact Mw|exact Mr]]|].
  apply settled_stepped; [done|]. by apply check_timers_settled.
Qed.

Lemma pass_inv d bs ts r :
  inv d r -> anchored (track r) = true -> stop r = None -> is_empty (ready r) = true ->
  bytes_at (P r) (next_off (track r)) bs ->
  let r1 := r <| track ::= advance_to (next_off (track r) + zlen bs) ts |> in
  inv (d ++ data_cells bs) (note_passthrough (zlen bs) r1).
Proof.
  intros [Hr Hbud] Ha Hst He Hb r1. pose proof (zlen_nonneg bs).
  pose proof (advance_winv d _ _ (next_off (track r) + zlen bs) ts Hr Ha) as Hr1. fold r1 in Hr1.
  assert (next_off (track r1) = next_off (track r) + zlen bs) as En.
  { unfold r1. cbn. rewrite advance_next_off. lia. }
  destruct Hr1 as [H1 H2 H3 H4 H5 H6]. rewrite seg_note_passthrough_same. split; [|done].
  unfold winv. change (track (r1 <| _ := _ |> <| _ := _ |> <| _ := _ |>)) with (track r1).
  rewrite En. split; cbn -[track r1]; try done.
  change (stop r1) with (stop r) in *. rewrite Hst in *.
  apply ledger_direct; [exact H3|done|]. 
  change (bytes_at (at_seq wire (isn (advance_to (next_off (track r) + zlen bs) ts (track r))))
    (next_off (track r)) bs). by rewrite advance_isn.
Qed.

(** The head already delivered is cut off. *)
Lemma head_trim start next r r2 k :
  (if start <? next then (r <| retransmits ::= Z.add 1 |>, next - start) else (r, 0)) = (r2, k) ->
  k = Z.max 0 (next - start) /\ same_core r r2.
Proof. destruct (Z.ltb_spec start next); intros; simplify_eq; (split; [lia|by split_and!]). Qed.

Lemma seg_feed_inv fuel : forall seq payload ts pass d r,
  inv d r -> seg_ok wire seq payload ->
  let '(r', o) := feed_fuel fuel seq payload ts pass r in
  inv (d ++ outcome_cells payload o) r' /\
  (pass = false -> anchored (track r) = true -> moved d r r').
Proof.
  induction fuel as [|fuel IH]; intros seq payload ts pass d r Hr0 Hs; cbn [feed_fuel].
  { rewrite app_nil_r. split; [done|]. intros. apply seg_moved_refl, Hr0. }
  destruct (is_some (stop r) || is_nil payload) eqn:Hskip.
  { rewrite app_nil_r. split; [done|]. intros. apply seg_moved_refl, Hr0. }
  zb. pose proof (seg_anchor_inv d seq ts r Hr0) as Hr.
  assert (anchored (anchor seq ts (track r)) = true) as Ha by apply anchor_same.
  assert (anchored (track r) = true -> r <| track ::= anchor seq ts |> = r) as Hsame.
  { intros E. unfold anchor. destruct r, track0. cbn in *. by subst. }
  change (anchored (track (r <| track ::= anchor seq ts |>)) = true) in Ha.
  change (stop r) with (stop (r <| track ::= anchor seq ts |>)) in *.
  set (r1 := r <| track ::= anchor seq ts |>) in *.
  assert (forall o r', o = Buffered -> stepped d r1 r' -> inv (d ++ outcome_cells payload o) r' /\
    (pass = false -> anchored (track r) = true -> moved d r r')) as Hout.
  { intros o r' -> [Hi Hm]. rewrite app_nil_r. split; [done|]. intros _ E. by rewrite (Hsame E) in Hm. }
  clearbody r1. clear Hsame Hr0. cbv zeta. set (start := offset_of (track r1) seq).
  pose proof (seg_ok_at wire (track r1) seq payload Hs) as Hb. fold start in Hb.
  destruct (stop r1) eqn:Hst; [done|]. pose proof (ok_pos _ _ (i_track _ _ _ (proj1 Hr))) as Hpos.
  case_if; [|case_if; [|destruct (if start <? _ then _ else _) as [r2 k] eqn:Hk; case_if]].
  - pose proof (far_ahead_ok wire (u64 start) payload ts (StreamRules.max_ahead (rules r1)) _
      (i_track _ _ _ (proj1 Hr)) Ha ltac:(apply Z.mod_pos_bound; lia) ltac:(by apply bytes_at_u64)) as Hf.
    destruct (far_ahead _ _ _ _ _) as [[|c] kk]; destruct Hf as (Hk & Hp & Hc).
    + apply Hout; [done|]. apply settled_stepped; [done|]. by apply set_track_settled; [apply Hr|..].
    + assert (stepped d r1 (resync_with (fun seq data ts r => (feed_fuel fuel seq data ts false r).1)
        c ts (r1 <| track := kk |>))) as S.
      { pose proof (settled_stepped d _ _ Hr (set_track_settled d r1 kk (proj1 Hr) Hk Hp)) as S1.
        eapply stepped_trans; [exact S1|]. apply resync_stepped; [|apply S1| |].
        - intros seq' bs ts' r' Hi Ha' Hs'. pose proof (IH seq' bs ts' false d r' Hi Hs') as HI.
          destruct (feed_fuel fuel seq' bs ts' false r') as [r'' o] eqn:E.
          apply seg_feed_buffered in E as ->. cbn in HI. rewrite app_nil_r in HI. split; [apply HI|by apply HI].
        - cbn. by destruct Hp as (_ & _ & ->).
        - cbn. by rewrite (same_pos_isn _ _ Hp); apply Hc. }
      set (r2 := resync_with _ c ts _) in *.
      pose proof (IH seq payload ts false d r2 (proj1 S) Hs) as HI.
      destruct (feed_fuel fuel seq payload ts false r2) as [r3 o] eqn:E.
      apply seg_feed_buffered in E as ->. destruct HI as [I1 I2]. cbn in I1. rewrite app_nil_r in I1.
      apply Hout; [done|]. eapply stepped_trans; [exact S|]. split; [done|]. apply I2; [done|].
      by apply (stepped_anchored d r1).
  - apply Hout; [done|]. pose proof (duplicate_settled d r1 (i64 (StreamRules.max_ahead (rules r1))) start
      (start + zlen payload) (proj1 Hr)) as S. apply settled_stepped; [done|].
    eapply settled_trans; [exact S|]. apply check_timers_settled. apply S.
  - assert (k = Z.max 0 (next_off (track r1) - start) /\ same_core r1 r2) as [-> Hcore] by
      (by apply (head_trim _ _ r1 r2 _ Hk)).
    pose proof (settled_stepped d _ _ Hr (same_core_settled d r1 r2 (proj1 Hr) Hcore)) as S2.
    pose proof Hcore as (Erd & Etr & Eo & Est & _). set (k := Z.max 0 _) in *.
    assert (Z.max start (next_off (track r1)) = next_off (track r1)) as Emax by (zb; lia).
    assert (bytes_at (P r2) (next_off (track r2)) (zdrop k payload)) as Hb2.
    { rewrite Etr. replace (next_off (track r1)) with (start + k) at 1 by (zb; lia).
      apply bytes_at_zdrop; [lia|done]. }
    rewrite Emax. rewrite <- Etr. case_if.
    + zb. subst pass. split; [|done]. cbn [outcome_cells].
      apply pass_inv; [apply S2|by rewrite Etr|by rewrite Est|done|done].
    + apply Hout; [done|]. eapply stepped_trans; [exact S2|].
      apply append_step; [apply S2|by rewrite Etr|done].
  - assert (k = Z.max 0 (next_off (track r1) - start) /\ same_core r1 r2) as [-> Hcore] by
      (by apply (head_trim _ _ r1 r2 _ Hk)).
    pose proof (settled_stepped d _ _ Hr (same_core_settled d r1 r2 (proj1 Hr) Hcore)) as S2.
    pose proof Hcore as (Erd & Etr & Eo & Est & _). set (k := Z.max 0 _) in *.
    apply Hout; [done|]. eapply stepped_trans; [exact S2|]. destruct S2 as [[Hr2 _] _].
    apply feed_ooo_inv; [done|by rewrite Etr|by rewrite Est| |].
    + intros E. assert (zlen (zdrop k payload) = zlen payload - k) as E0 by zlia.
      rewrite E in E0. change (zlen []) with 0 in E0. assert (payload <> []) as Hnp%zlen_pos by (by apply is_nil_false).
      lia.
    + rewrite Etr. replace (Z.max start (next_off (track r1))) with (start + k) by lia.
      apply bytes_at_zdrop; [lia|done].
Qed.

(** ** The other operations *)

Lemma segment_stepped d seq bs ts r :
  inv d r -> anchored (track r) = true -> seg_ok wire seq bs -> stepped d r (segment seq bs ts r).
Proof.
  intros Hr Ha Hs. pose proof (seg_feed_inv 3 seq bs ts false d r Hr Hs) as H.
  unfold segment, feed. destruct (feed_fuel 3 seq bs ts false r) as [r' o] eqn:E.
  apply seg_feed_buffered in E as ->. cbn in H. rewrite app_nil_r in H. split; [apply H|by apply H].
Qed.

Lemma seg_resync_opt_inv d c now k r :
  inv d r -> ok wire k -> same_pos (track r) k ->
  (forall c', c = Some c' -> cand_ok wire (isn (track r)) c' /\ anchored (track r) = true) ->
  inv d (match c with Some c => resync c now (r <| track := k |>) | None => r <| track := k |> end).
Proof.
  intros Hr Hk Hp Hc.
  pose proof (settled_stepped d _ _ Hr (set_track_settled d r k (proj1 Hr) Hk Hp)) as [Hi _].
  destruct c as [c|]; [|done]. destruct (Hc c eq_refl) as [Hok Ha].
  refine (proj1 (resync_stepped segment d c now _ _ Hi _ _)).
  - intros. by apply segment_stepped.
  - cbn. by destruct Hp as (_ & _ & ->).
  - cbn. by rewrite (same_pos_isn _ _ Hp).
Qed.

Lemma check_timers_inv d now r : inv d r -> inv d (check_timers now r).
Proof. intros Hr. eapply settled_inv; [exact Hr|]. apply check_timers_settled, Hr. Qed.

Lemma seg_peer_ack_inv d ack now r : inv d r -> inv d (peer_ack ack now r).
Proof.
  intros Hr. unfold peer_ack. case_if; [done|].
  pose proof (evidence_ok wire (wsub32 ack 1) now (StreamRules.max_ahead (rules r)) _
    (i_track _ _ _ (proj1 Hr))) as He.
  destruct (evidence _ _ _ _) as [c k]. destruct He as (Hk & Hp & Hc).
  apply check_timers_inv, seg_resync_opt_inv; [done..|].
  intros c' Hc'. destruct (Hc _ Hc') as (? & _ & ?). done.
Qed.

Lemma seg_fin_seen_inv d s now r : inv d r -> inv d (fin_seen s now r).
Proof.
  intros Hr. unfold fin_seen. case_if; [done|].
  pose proof (fin_ok wire s now (StreamRules.max_ahead (rules r)) _ (i_track _ _ _ (proj1 Hr))) as He.
  destruct (fin _ _ _ _) as [c k]. destruct He as (Hk & Hp & Hc).
  apply seg_resync_opt_inv; [done..|]. intros c' Hc'. destruct (Hc _ Hc') as (? & _ & ?). done.
Qed.

Lemma deliver_all_settled d now r : winv d r -> settled d r (deliver_all now r).
Proof. intros Hr. apply deliver_loop_spec; [done|lia]. Qed.

Lemma deliver_all_progress d now r f : winv d r -> first_start r = Some f ->
  f <= next_off (track r) -> (n_pieces (deliver_all now r) < n_pieces r)%nat.
Proof.
  intros Hr Hf Hle. unfold deliver_all. cbn [deliver_loop].
  destruct (deliver_first_cases d now r Hr) as [(r' & -> & Hs & Hn)|[_ Hx]].
  - destruct (deliver_loop_spec d now (n_pieces r) r' (settled_winv _ _ _ Hs) Hn) as [[_ [Hl _]] _]. lia.
  - specialize (Hx f Hf). lia.
Qed.

Lemma skip_cut_spec d e now fuel : forall r,
  winv d r -> anchored (track r) = true -> (S (n_pieces r) < fuel)%nat ->
  settled d r (skip_cut fuel e now r) /\
  (stop (skip_cut fuel e now r) = None -> e <= next_off (track (skip_cut fuel e now r))).
Proof.
  induction fuel as [|fuel IH]; intros r Hr Ha Hf; [lia|]. cbn [skip_cut].
  destruct (is_none (stop r) && (next_off (track r) <? e)) eqn:Hc.
  2: { split; [by apply settled_refl|]. intros Hst. rewrite Hst in Hc. cbn in Hc. zb. lia. }
  zb. set (to := match first_start r with Some _ => _ | None => _ end).
  destruct (skip_to_spec d to now r Hr Ha) as (Hm & Hn & Eo & Es).
  pose proof (skip_to_settled d to now r Hr Ha) as S1. set (r1 := skip_to to now r) in *.
  pose proof (settled_winv _ _ _ S1) as Hr1.
  pose proof (deliver_all_settled d now r1 Hr1) as S2.
  assert (first_start r1 = first_start r) as Ef by (unfold first_start; by rewrite Eo).
  assert (n_pieces r1 = n_pieces r) as Enp by (unfold n_pieces; by rewrite Eo).
  pose proof (settled_trans _ _ _ _ S1 S2) as S12. pose proof (settled_winv _ _ _ S12) as Hr2.
  pose proof (settled_anchored _ _ _ S12) as Ha2. rewrite Ha in Ha2.
  assert (e <= next_off (track (deliver_all now r1)) \/ (n_pieces (deliver_all now r1) < n_pieces r)%nat)
    as Hp.
  { destruct S2 as [(_ & _ & _ & Hle) _]. destruct (first_start r) as [f|] eqn:E; [|left; lia].
    destruct (Z.le_gt_cases f e); [|left; lia]. right. rewrite <- Enp.
    apply (deliver_all_progress d now r1 f Hr1); [done|lia]. }
  destruct Hp as [Hp|Hp].
  - destruct fuel as [|fuel]; [lia|]. cbn [skip_cut].
    replace (next_off (track (deliver_all now r1)) <? e) with false by (symmetry; by apply Z.ltb_ge).
    by rewrite andb_false_r.
  - destruct (IH _ Hr2 Ha2 ltac:(lia)) as [S3 Hx]. split; [|done]. by eapply settled_trans.
Qed.

Lemma seg_missing_inv fuel : forall d s n now r,
  inv d r -> 0 <= n -> inv d (missing_fuel fuel s n now r).
Proof.
  induction fuel as [|fuel IH]; intros d s n now r Hr0 Hn; cbn [missing_fuel]; [done|].
  case_if; [done|]. pose proof (seg_anchor_inv d s now r Hr0) as Hr.
  assert (anchored (track (r <| track ::= anchor s now |>)) = true) as Ha by apply anchor_same.
  set (r1 := r <| track ::= anchor s now |>) in *. clearbody r1. cbv zeta.
  case_if; [done|]. case_if; [|case_if].
  - pose proof (far_missing_ok wire (u64 (offset_of (track r1) s)) n now
      (StreamRules.max_ahead (rules r1)) _ (i_track _ _ _ (proj1 Hr)) Ha
      ltac:(apply Z.mod_pos_bound; lia) Hn) as Hf.
    destruct (far_missing _ _ _ _ _) as [c k]. destruct Hf as (Hk & Hp & Hc).
    pose proof (seg_resync_opt_inv d c now k r1 Hr Hk Hp) as Hi.
    destruct c as [c|].
    + apply IH; [|done]. apply Hi. intros c' Hc'. split; [by apply Hc|done].
    + apply check_timers_inv. by apply Hi.
  - destruct (skip_cut_spec d (offset_of (track r1) s + n) now (S (S (n_pieces r1))) r1 (proj1 Hr) Ha)
      as [S1 _]; [lia|].
    apply check_timers_inv. eapply settled_inv; [exact Hr|]. eapply settled_trans; [exact S1|].
    apply same_core_settled; [apply S1|apply update_watermark_core].
  - pose proof (evidence_ok wire (wadd32 s n) now (StreamRules.max_ahead (rules r1)) _
      (i_track _ _ _ (proj1 Hr))) as He.
    destruct (evidence _ _ _ _) as [c k]. destruct He as (Hk & Hp & Hc).
    apply check_timers_inv, seg_resync_opt_inv; [done..|].
    intros c' Hc'. destruct (Hc _ Hc') as (? & _ & ?). done.
Qed.

Lemma seg_flush_inv d r : inv d r -> inv d (flush_pending r).
Proof.
  intros Hr. unfold flush_pending. set (ts := last_progress (track r)). cbv zeta.
  destruct (flush_ooo_settled d ts r (proj1 Hr)) as [S1 _].
  pose proof (settled_stepped d _ _ Hr S1) as [Hr1 _]. set (r1 := flush_ooo ts r) in *.
  set (r2 := if is_none (stop r1) then _ else r1).
  assert (inv d r2) as Hr2.
  { unfold r2, evidence_frontier. case_if; [|done]. case_if; [|done].
    assert (same_core r1 (r1 <| ack_confirmed_gaps ::= Z.add 1 |>)) as Hc by by split_and!.
    pose proof (settled_stepped d _ _ Hr1 (same_core_settled d _ _ (proj1 Hr1) Hc)) as [Hr3 _].
    eapply settled_inv; [exact Hr3|]. apply skip_to_settled; [apply Hr3|].
    by eapply (seg_frontier_anchored d _ r1); [apply Hr1|]. }
  destruct (drop_stray_ok wire _ (i_track _ _ _ (proj1 Hr2))) as [Hk Hp].
  eapply settled_inv; [exact Hr2|]. by apply set_track_settled; [apply Hr2|..].
Qed.

Lemma seg_release_inv d r : inv d r -> inv d (release r).
Proof.
  intros [Hr _]. split; [|by intros o].
  destruct (drop_stray_ok wire _ (i_track _ _ _ Hr)) as [Hk Hp].
  pose proof (same_pos_isn _ _ Hp) as Hi. destruct Hr as [H1 H2 H3 H4 H5 H6].
  unfold winv, release. split; cbn; try done.
  - replace (is_none (get_or_insert Memcap (stop r))) with false by by destruct (stop r).
    eapply ledger_clear. exact H3.
  - intros cap Hc. destruct (H5 cap Hc). done.
Qed.

Lemma seg_drain_inv d r : inv d r ->
  let '(r', out) := drain_into r StreamChunks.new in
  inv (d ++ content out) r' /\ content out = content (ready r).
Proof.
  intros [[H1 H2 H3 H4 H5 H6] Hb]. unfold drain_into. cbv zeta.
  assert (content match stop r with
    | Some st => set_stop st (append StreamChunks.new (ready r))
    | None => append StreamChunks.new (ready r) end = content (ready r)) as E.
  { transitivity (content (append StreamChunks.new (ready r))); [by destruct (stop r)|].
    unfold append. cbn. by destruct (StreamChunks.stop (ready r)). }
  rewrite E. split; [|done]. split; [|done]. unfold winv. split; cbn; try done.
  - by apply ledger_drain.
  - intros cap Hc. destruct (H5 cap Hc). done.
Qed.

(** Every driver call preserves the invariant. *)
Lemma seg_deliver_inv d r e : event_ok wire e -> inv d r ->
  inv (d ++ (deliver r e).2) (deliver r e).1.
Proof.
  intros He Hr. destruct e; cbn in *; rewrite ?app_nil_r.
  - pose proof (seg_feed_inv 3 seq payload ts false d r Hr He) as H.
    unfold SegmentBufferReassembler.segment, feed in *.
    destruct (feed_fuel 3 seq payload ts false r) as [r' o] eqn:E.
    apply seg_feed_buffered in E as ->. cbn in H. rewrite app_nil_r in H. apply H.
  - pose proof (seg_feed_inv 3 seq payload ts true d r Hr He) as H.
    unfold SegmentBufferReassembler.segment_into, feed in *.
    destruct (feed_fuel 3 seq payload ts true r) as [r' o]. destruct H as [H _]. by destruct o.
  - by apply seg_anchor_inv.
  - by apply seg_peer_ack_inv.
  - by apply seg_fin_seen_inv.
  - by apply seg_missing_inv.
  - pose proof (seg_drain_inv d r Hr) as H. exact (proj1 H).
  - by apply seg_flush_inv.
  - by apply check_timers_inv.
  - by apply seg_release_inv.
Qed.
End invariant.

(** ** Calls that do nothing, or little *)

Lemma flush_none ts r : ooo r = None -> flush_ooo ts r = r.
Proof. intros H. unfold flush_ooo. cbn [skip_while]. unfold holding. by rewrite H, andb_false_r. Qed.

Lemma skip_noop to ts r : to <= next_off (track r) -> skip_to to ts r = r.
Proof. intros H. unfold skip_to. by apply Z.leb_le in H as ->. Qed.

Lemma anchored_same seq ts r : anchored (track r) = true -> r <| track ::= anchor seq ts |> = r.
Proof. intros Ha. unfold anchor. destruct r as [? []]. cbn in *. by subst. Qed.

Lemma skip_to_same to ts r : let r' := skip_to to ts r in
  ooo r' = ooo r /\ evidence_off (track r') = evidence_off (track r) /\
  next_off (track r') = Z.max (next_off (track r)) to /\ stop r' = stop r.
Proof.
  unfold skip_to. cbv zeta. case_if; [split_and!; lia || done|]. cbn.
  destruct (advance_same to ts (record_skip (next_off (track r)) to (track r))) as (_ & _ & _ & _ & E & _).
  rewrite E, advance_next_off, record_skip_same. by split_and!.
Qed.

(** A reassembler as its factory hands it out: only the settings differ
    from [new]. *)
Definition fresh (r : t) : Prop :=
  ready r = StreamChunks.new /\ track r = Track.default /\ ooo r = None /\
  gap_bytes r = 0 /\ bytes_dropped_oversize r = 0 /\ stop r = None /\
  forall cap, max_buffer r = Some cap -> 0 <= cap.

Lemma seg_fresh_inv wire r : fresh r -> inv wire (settings r) [] r.
Proof.
  intros (E1 & E2 & E3 & E4 & E5 & E6 & E7). split; [|intros o; congruence].
  unfold winv. split; rewrite ?E1, ?E2, ?E3, ?E4, ?E5, ?E6.
  - apply default_ok.
  - done.
  - apply ledger_init.
  - done.
  - intros cap Hc. split; [by apply E7|]. exact (E7 cap Hc).
  - done.
Qed.

#[export] Program Instance laws : ReassemblerLaws SegmentBufferReassembler.t := {
  position r := next_off (track r);
  origin r := isn (track r);
  sound wire d r := exists st, inv wire st d r }.
Next Obligation. intros wire d r e He (st & Hr). exists st. by apply seg_deliver_inv. Qed.
Next Obligation.
  intros wire d r (st & Hr & _) Hp. destruct (i_ledger _ _ _ _ _ Hr) as [_ H].
  destruct (H Hp) as (_ & Hc & Hl & _). apply cells_at_app in Hc as [Hc _].
  split; [done|]. rewrite zlen_app in Hl. zlen_facts. lia.
Qed.
Next Obligation.
  intros wire d r (st & Hr & Hb) Hp Hst. cbn in Hst |- *.
  pose proof (seg_drain_inv wire st d r (conj Hr Hb)) as [_ E]. destruct (i_ledger _ _ _ _ _ Hr) as [_ H].
  destruct (H Hp) as (_ & _ & _ & Hl). rewrite Hst in Hl. specialize (Hl eq_refl).
  rewrite E. done.
Qed.

(** ** Sessions *)

Lemma seg_run_inv wire st es : forall d r, Forall (event_ok wire) es -> inv wire st d r ->
  inv wire st (d ++ (run r es).2) (run r es).1.
Proof.
  induction es as [|e es IH]; intros d r He Hr; [by rewrite app_nil_r|].
  inversion He; subst. rewrite run_cons. cbn [fst snd]. rewrite app_assoc.
  apply IH; [done|]. by apply seg_deliver_inv.
Qed.

Lemma seg_fresh_sound wire r : fresh r -> sound wire [] r.
Proof. intros Hf. exists (settings r). by apply seg_fresh_inv. Qed.
