(* ===== verification/SegmentProps.v ===== *)
(** * Properties of the segment-buffering reassembler *)

From S2P Require Import Prelude Time Flow Cells Chunks Ledger Track BTree Ooo Runs Pieces Reassembler Segment SegmentFacts.
Import Track TrackFacts StreamChunks StreamChunksFacts SegmentBufferReassembler.

(** C2: any session of a fresh [SegmentBufferReassembler], whatever
    arrives in whatever order, hands its consumer only bytes that were on
    the wire at their place in the stream; and a drained live session has
    delivered the whole stream up to its position, missing exactly
    [gap_bytes + bytes_dropped_oversize] bytes. *)
Theorem segment_session_sound wire r es :
  fresh r -> Forall (event_ok wire) es -> next_off (track (run r es).1) <= U64_MAX ->
  cells_at (at_seq wire (isn (track (run r es).1))) 0 (run r es).2 /\
  (stop (run r es).1 = None ->
   let d := (run r (es ++ [Drain])).2 in
   zlen d = next_off (track (run r es).1) /\
   n_missing d = gap_bytes (run r es).1 + bytes_dropped_oversize (run r es).1).
Proof.
  intros Hf He Hp. pose proof (seg_fresh_sound wire r Hf) as Hs. split.
  - by apply (run_prefix wire r es Hs He Hp).
  - intros Hst. exact (run_drained wire r es Hs He Hp Hst).
Qed.

Definition ts0 : Timestamp.t := Timestamp.mk 1 0.
(** Three pieces behind a hole, the hole filled, then a hole that the
    flush gives up on. *)
Definition demo : list Event :=
  [SetOrigin 100; Segment 104 [5; 6] ts0; Segment 107 [8] ts0; Segment 106 [7] ts0; Drain;
   Segment 100 [1; 2; 3; 4] ts0; Segment 110 [11; 12] ts0; FlushPending].
Definition demo_wire (s b : Z) : Prop := b = s - 99.

Lemma segment_session_sound_witness :
  (run new (demo ++ [Drain])).2 =
    [Some 1; Some 2; Some 3; Some 4; Some 5; Some 6; Some 7; Some 8; None; None; Some 11; Some 12] /\
  n_missing (run new (demo ++ [Drain])).2 = 2.
Proof.
  split; [vm_compute; reflexivity|].
  destruct (segment_session_sound demo_wire new demo) as [_ H].
  - repeat split. intros cap [=].
  - repeat (apply Forall_cons; split; [cbn [event_ok]; try exact I;
      repeat (apply seg_ok_cons; [reflexivity|]); apply seg_ok_nil|]). apply Forall_nil. exact I.
  - vm_compute. discriminate.
  - rewrite (proj2 (H eq_refl)). reflexivity.
Defined.

(** C33: no session makes a reassembler hold more than its two budgets:
    with a [max_buffer] set, the undrained in-order bytes stay within it;
    the out-of-order pieces, their bookkeeping and spare capacity included,
    stay within [max_ooo_buffer]; and [current_bytes], what the memory pool
    is told, is at most the two together and the bytes of the one segment
    beyond the window that may be remembered as a resynchronisation
    candidate.  A buffer's capacity is taken to be what was asked for. *)
Theorem segment_memory_bounded r es cap :
  fresh r -> max_buffer r = Some cap -> 0 <= max_ooo_buffer r ->
  Forall (event_ok (fun _ _ => True)) es ->
  let r' := (run r es).1 in
  len (ready r') <= cap /\
  (forall o, ooo r' = Some o -> Ooo.charged o <= max_ooo_buffer r) /\
  current_bytes r' <= cap + max_ooo_buffer r + Candidate.heap (oow (track r')).
Proof.
  intros Hf Hm Ho He. pose proof (seg_fresh_inv (fun _ _ => True) r Hf) as Hr.
  pose proof (seg_run_inv _ _ es [] r He Hr) as Hi. intros r'. fold r' in Hi. clearbody r'.
  destruct Hi as [[_ _ _ H4 H5 _] Hb].
  unfold settings in H4. assert (max_buffer r' = Some cap) as Hm' by congruence.
  assert (max_ooo_buffer r' = max_ooo_buffer r) as Hb' by congruence.
  unfold in_budget in Hb. rewrite Hb' in Hb. destruct (H5 cap Hm'). split; [done|]. split; [done|].
  unfold current_bytes, heap_bytes. destruct (ooo r') as [o|]; [specialize (Hb o eq_refl)|]; lia.
Qed.

Definition budget_demo : t := with_max_ooo_buffer 200 (with_max_buffer 8 new).
Definition budget_events : list Event :=
  [SetOrigin 0; Segment 2 [3; 4; 5] ts0; Segment 7 [8] ts0; Segment 10 [11; 12; 13; 14; 15; 16] ts0].

Lemma segment_memory_bounded_witness :
  gaps (run budget_demo budget_events).1 = 1 /\ len (ready (run budget_demo budget_events).1) <= 8.
Proof.
  split; [vm_compute; reflexivity|].
  assert (fresh budget_demo) as Hf by (repeat split; intros cap [= <-]; lia).
  assert (Forall (event_ok (fun _ _ => True)) budget_events) as He.
  { repeat (apply Forall_cons; split; [try exact I; intros ? ? _; exact I|]). apply Forall_nil. exact I. }
  assert (0 <= max_ooo_buffer budget_demo) as Ho by (vm_compute; discriminate).
  exact (proj1 (segment_memory_bounded budget_demo budget_events 8 Hf eq_refl Ho He)).
Defined.

(** ** Stopping *)

Lemma feed_stopped fuel r st seq p ts pass :
  stop r = Some st -> feed_fuel fuel seq p ts pass r = (r, Buffered).
Proof. intros Hst. destruct fuel; [done|]. cbn [feed_fuel]. by rewrite Hst. Qed.

Lemma flush_stopped r st : stop r = Some st -> flush_pending r = r <| track ::= drop_stray |>.
Proof.
  intros Hst. unfold flush_pending, flush_ooo. cbn [skip_while]. unfold holding. rewrite Hst.
  cbn [is_none is_some negb andb]. by rewrite Hst.
Qed.

Lemma deliver_stopped r e st : stop r = Some st ->
  deliver r e =
    match e with
    | SetOrigin s => (set_origin s r, [])
    | Drain => ((drain_into r StreamChunks.new).1, content (drain_into r StreamChunks.new).2)
    | FlushPending => (r <| track ::= drop_stray |>, [])
    | Release => (release r, [])
    | _ => (r, [])
    end.
Proof.
  intros Hst. destruct e; unfold deliver;
    cbn [Reassembler.segment Reassembler.segment_into Reassembler.set_origin Reassembler.peer_ack
      Reassembler.fin_seen Reassembler.missing_bytes Reassembler.drain_into Reassembler.flush_pending
      Reassembler.advance_time Reassembler.release reassembler].
  - unfold segment, feed. by rewrite (feed_stopped _ _ st).
  - unfold segment_into, feed. by rewrite (feed_stopped _ _ st).
  - done.
  - unfold peer_ack. by rewrite Hst.
  - unfold fin_seen. by rewrite Hst.
  - unfold missing. cbn [missing_fuel]. by rewrite Hst.
  - by destruct (drain_into r StreamChunks.new).
  - by rewrite (flush_stopped _ st).
  - unfold advance_time, check_timers. by rewrite Hst.
  - done.
Qed.

(** C34: a stop is final: whatever happens next, the consumer receives at
    most what was ready when the side stopped, and the stream position does
    not move. *)
Theorem segment_stop_is_final wire es0 r0 es st :
  fresh r0 -> Forall (event_ok wire) es0 ->
  let r := (run r0 es0).1 in
  stop r = Some st ->
  ((run r es).2 = [] \/ (run r es).2 = content (ready r)) /\
  stop (run r es).1 = Some st /\ next_off (track (run r es).1) = next_off (track r).
Proof.
  intros Hf He. pose proof (seg_run_inv wire _ es0 [] r0 He (seg_fresh_inv wire r0 Hf)) as [Hi _].
  intros r. fold r in Hi. clearbody r. intros Hst.
  assert (ooo r = None) as Ho by (apply (i_stop _ _ _ _ _ Hi); by rewrite Hst).
  refine (run_stopped (R := t) (fun r => ooo r = None) (fun r => content (ready r))
    (fun r => next_off (track r)) st _ es r Ho Hst). clear.
  intros e r Ho Hst. pose proof (deliver_stopped r e st Hst) as E. unfold inert. rewrite E.
  cbn in Hst. destruct e; cbn [fst snd]; try (split_and!; auto; fail).
  - destruct (anchor_same seq Timestamp.default (track r)) as (_ & En & _).
    split_and!; [done|exact En|by left; split; [|left]|done].
  - split_and!; [done|done|right; split; [|done]|done].
    unfold drain_into, append. cbn. rewrite Hst. by destruct (StreamChunks.stop (ready r)).
  - split_and!; [cbn; by rewrite Hst|done|by left; split; [|right]|done].
Qed.

Definition dropping : t := with_overflow_policy DropFlow (with_max_buffer 2 new).

Lemma segment_stop_is_final_witness :
  let r := (run dropping [Segment 0 [1; 2] ts0; Segment 4 [5] ts0; Segment 2 [3] ts0]).1 in
  stop r = Some Overflow /\
  ((run r [Segment 3 [4] ts0; Drain; FlushPending; Drain]).2 = [] \/
   (run r [Segment 3 [4] ts0; Drain; FlushPending; Drain]).2 = content (ready r)).
Proof.
  cbv zeta. split; [vm_compute; reflexivity|].
  refine (proj1 (segment_stop_is_final (fun _ _ => True) _ dropping _ Overflow _ _ _)).
  - repeat split. intros cap [= <-]. lia.
  - repeat (apply Forall_cons; split; [intros ? ? _; exact I|]). apply Forall_nil. exact I.
  - vm_compute. reflexivity.
Defined.

(** ** Flushing *)

(** Flushing leaves nothing behind: no out-of-order data, no stray
    and, while the side is live, no hole known to have been sent; the
    memory still held is the ready buffer. *)
Theorem segment_flush_leaves_nothing r es :
  fresh r -> Forall (event_ok (fun _ _ => True)) es ->
  let r' := flush_pending (run r es).1 in
  ooo r' = None /\ oow (track r') = None /\ current_bytes r' = len (ready r') /\
  (stop r' = None -> evidence_off (track r') <= next_off (track r')).
Proof.
  intros Hf He.
  pose proof (seg_run_inv _ _ es [] r He (seg_fresh_inv (fun _ _ => True) r Hf)) as [Hi _].
  set (r0 := (run r es).1) in *. clearbody r0. set (ts := last_progress (track r0)).
  destruct (flush_ooo_settled _ _ _ ts r0 Hi) as [S1 Ho].
  assert (exists r2, flush_pending r0 = r2 <| track ::= drop_stray |> /\ ooo r2 = None /\
    (stop r2 = None -> evidence_off (track r2) <= next_off (track r2))) as (r2 & E & Hoo & Hev).
  { eexists. split; [reflexivity|]. fold ts. set (r1 := flush_ooo ts r0) in *.
    destruct (stop r1) eqn:Hst; cbn [is_none is_some negb].
    - split; [done|]. congruence.
    - unfold evidence_frontier. case_if; [|split; [done|lia]].
      set (r1' := r1 <| ack_confirmed_gaps ::= Z.add 1 |>).
      destruct (skip_to_same (evidence_off (track r1)) ts r1') as (E1 & E2 & E3 & _).
      rewrite E1, E2, E3. split; [exact Ho|]. intros _. unfold r1'. cbn. lia. }
  cbv zeta. rewrite E. split_and!; [exact Hoo|done| |exact Hev].
  change (len (ready r2) + match ooo r2 with Some o => Ooo.charged o | None => 0 end + 0 = len (ready r2)).
  rewrite Hoo. lia.
Qed.

Lemma segment_flush_leaves_nothing_witness :
  let r := (run new [SetOrigin 0; Segment 4 [5; 6] ts0; Segment 9 [10] ts0; PeerAck 21 ts0]).1 in
  current_bytes r = 131 /\ content (ready (flush_pending r)) = replicate 4 None ++ [Some 5; Some 6] ++
    replicate 3 None ++ [Some 10] ++ replicate 10 None /\ ooo (flush_pending r) = None.
Proof.
  cbv zeta. split_and!; [vm_compute; reflexivity..|].
  refine (proj1 (segment_flush_leaves_nothing new _ _ _)).
  - repeat split. intros cap [=].
  - repeat (apply Forall_cons; split; [try exact I; intros ? ? _; exact I|]). apply Forall_nil. exact I.
Defined.

(** ** The reordering window

    [feed] casts the window to [i64], so a window of 2^63 or more is
    negative there, while [far_ahead] compares with it unsigned.  With a
    window of 2^63 every segment counts as far ahead, even the next
    in-order one, and the candidate that [resync] feeds back is held
    again: the recursion has no end. *)

Definition wide : t := with_max_ahead (2 ^ 63) new.
(** One in-order segment held as a stray, the position [o] before or just
    after it. *)
Definition stray : Candidate.t := Candidate.mk 0 [1] ts0 0.
Definition looping (o : Z) (r : t) : Prop :=
  stop r = None /\ ooo r = None /\ StreamRules.max_ahead (rules r) = 2 ^ 63 /\
  anchored (track r) = true /\ next_seq (track r) = 10 + o /\ next_off (track r) = o /\
  (o = 0 \/ o = 1).

Definition retaken (r : t) : t :=
  r <| track ::= fun k => k <| out_of_window ::= fun n => n - 1 |>
        <| origin_resets ::= Z.add 1 |> <| oow := None |> |>.
Definition reheld (r : t) : t :=
  r <| track ::= fun k => k <| out_of_window ::= Z.add 1 |> <| oow := Some stray |> |>.

Lemma wide_far k seq : i64 (2 ^ 63) <? offset_of k seq - next_off k = true.
Proof.
  apply Z.ltb_lt. unfold offset_of. pose proof (i32_range (wsub32 seq (next_seq k))).
  change (i64 (2 ^ 63)) with (- 2 ^ 63). lia.
Qed.

Lemma held_again m o r : looping o r -> oow (track r) = None ->
  feed_fuel (S m) 10 [1] ts0 false r = (reheld r, Buffered).
Proof.
  intros (H1 & H2 & H3 & H4 & H5 & H6 & Hc) Ho. cbn [feed_fuel]. rewrite H1. cbn [is_some is_nil orb].
  rewrite anchored_same by done. cbv zeta. rewrite H3, wide_far.
  unfold far_ahead. rewrite Ho. unfold offset_of. rewrite H5, H6.
  destruct Hc as [-> | ->]; reflexivity.
Qed.

Lemma looping_unfold n o pass r : looping o r -> oow (track r) = Some stray ->
  feed_fuel (S n) 11 [2] ts0 pass r =
    let r2 := (feed_fuel n 10 [1] ts0 false (retaken r)).1 in
    feed_fuel n 11 [2] ts0 false (if is_none (stop r2) then skip_to 1 ts0 r2 else r2).
Proof.
  intros (H1 & H2 & H3 & H4 & H5 & H6 & Hc) Ho. cbn [feed_fuel]. rewrite H1. cbn [is_some is_nil orb].
  rewrite anchored_same by done. cbv zeta. rewrite H3, wide_far.
  unfold far_ahead. rewrite Ho. unfold offset_of. rewrite H5, H6.
  replace (Z.abs (u64 (o + i32 (wsub32 11 (10 + o))) - Candidate.off stray) <=? 2 ^ 63) with true
    by (by destruct Hc as [-> | ->]).
  cbv iota. change (r <| track := _ |>) with (retaken r). unfold resync_with. cbv zeta.
  rewrite flush_none by exact H2. rewrite skip_noop.
  2: { change (0 <= next_off (track r)). lia. }
  assert (seq_of (track (retaken r)) (Candidate.off stray) = 10) as ->; [|done].
  unfold seq_of. change (next_off (track (retaken r))) with (next_off (track r)).
  change (next_seq (track (retaken r))) with (next_seq (track r)). rewrite H5, H6.
  by destruct Hc as [-> | ->].
Qed.

Lemma looping_skip o r : looping o r ->
  let r' := skip_to 1 ts0 r in
  looping 1 r' /\ oow (track r') = oow (track r) /\ origin_resets (track r') = origin_resets (track r).
Proof.
  intros (H1 & H2 & H3 & H4 & H5 & H6 & [-> | ->]); cbv zeta.
  2: { rewrite skip_noop by lia. split; [unfold looping; auto 10|done]. }
  unfold looping. destruct r as [rd k ru oo mb mo op ov pct hf g gb ag ds rt ri bd hw ab cr st].
  destruct k as [an ns no ev es fo oc sk sl sh lp ow orr]. cbn in *. subst.
  unfold skip_to, record_skip, advance_to. cbn. destruct (sl <? SKIPPED_HISTORY); cbn; case_if; cbn;
    split_and!; auto.
Qed.

Lemma looping_counts n : forall o pass r, looping o r -> oow (track r) = Some stray ->
  origin_resets (track (feed_fuel n 11 [2] ts0 pass r).1) = Z.of_nat n + origin_resets (track r).
Proof.
  induction n as [|[|m] IH]; intros o pass r H Ho; [done|..]; pose proof H as (H1 & _);
    rewrite (looping_unfold _ o) by done; cbv zeta.
  - cbn [feed_fuel fst]. change (stop (retaken r)) with (stop r). rewrite H1. cbn [is_none is_some negb].
    destruct (looping_skip o (retaken r) H) as (_ & _ & ->).
    change (origin_resets (track (retaken r))) with (1 + origin_resets (track r)). lia.
  - rewrite (held_again _ o) by done. cbn [fst]. change (stop (reheld (retaken r))) with (stop r).
    rewrite H1. cbn [is_none is_some negb].
    destruct (looping_skip o (reheld (retaken r)) H) as (Hl & El & Er).
    rewrite (IH 1), Er by done.
    change (origin_resets (track (reheld (retaken r)))) with (1 + origin_resets (track r)). lia.
Qed.

(** A defect.  With the window set to 2^63, the second in-order
    segment of a stream never returns from [feed]: every level of the
    recursion resynchronises once more, so whatever depth is granted, all of
    it is used. *)
Theorem window_overflow_recurs_forever n :
  let r := (run wide [SetOrigin 10; Segment 10 [1] ts0]).1 in
  origin_resets (track (feed_fuel n 11 [2] ts0 true r).1) = Z.of_nat n.
Proof.
  cbv zeta. rewrite (looping_counts n 0).
  - rewrite Z.add_comm. reflexivity.
  - unfold looping. split_and!; try (vm_compute; reflexivity). by left.
  - vm_compute. reflexivity.
Qed.
