(* ===== verification/SegmentTerm.v ===== *)
(** * Termination of the segment-buffering reassembler, and what it holds

    [feed] and [missing] call themselves again after a resynchronisation,
    and [resync] calls [feed].  With a window below 2^63 the recursion is at
    most three deep, which is the fuel [Segment.v] grants.

    The two caps bound the ready and the out-of-order bytes; the one segment
    that may be held beyond the window ([Track.oow]) is a copy of a payload
    the reassembler was given.  So [current_bytes], which the flow driver
    accounts for, is bounded by the caps and the longest payload. *)

From S2P Require Import Prelude Time Flow Cells Chunks Ledger Track BTree Ooo Runs Pieces Reassembler Segment SegmentFacts.
Import Track TrackFacts StreamChunks StreamChunksFacts SegmentBufferReassembler.

(** ** Only the far branch holds a stray

    The other steps keep any property of the stray that its absence has. *)
Class Absent (Q : option Candidate.t -> Prop) : Prop := absent : Q None.
Definition stray (Q : option Candidate.t -> Prop) (r : t) : Prop := Q (oow (track r)).
Notation no_stray := (stray (fun o => o = None)).
#[export] Instance none_absent : Absent (fun o => o = None).
Proof. done. Qed.

Section strays.
Context {Q : option Candidate.t -> Prop} `{!Absent Q}.

Lemma skip_to_no_stray to ts r : stray Q r -> stray Q (skip_to to ts r).
Proof.
  unfold stray, skip_to. case_if; [done|]. cbn.
  destruct (advance_same to ts (record_skip (next_off (track r)) to (track r))) as (_ & -> & _).
  by rewrite record_skip_same.
Qed.

Lemma advance_no_stray o ts r : stray Q r -> stray Q (r <| track ::= advance_to o ts |>).
Proof. unfold stray. cbn. destruct (advance_same o ts (track r)) as (_ & -> & _). done. Qed.

Lemma append_no_stray bs r : stray Q r -> stray Q (append_ready bs r).
Proof. unfold stray. by destruct (append_ready_frame bs r) as [[(-> & _)|(-> & _)] _]. Qed.

Lemma append_owned_no_stray bs r : stray Q r -> stray Q (append_ready_owned bs r).
Proof.
  intros H. unfold append_ready_owned. case_if; [|by apply append_no_stray].
  unfold stray. destruct (seg_update_watermark_frame (r <| ready ::= push_owned bs |>)) as [-> _]. done.
Qed.

Lemma deliver_first_no_stray ts r : stray Q r -> stray Q (deliver_first ts r).1.
Proof.
  intros H. unfold deliver_first. destruct (ooo r); [|done]. destruct (BTreeMap.first _) as [[s d]|]; [|done].
  case_if; [done|]. cbv zeta. case_if; [|done]. cbn [fst].
  apply append_owned_no_stray, advance_no_stray. exact H.
Qed.

Lemma skip_to_first_no_stray ts r : stray Q r -> stray Q (skip_to_first ts r).
Proof.
  intros H. unfold skip_to_first. destruct (first_start r); [|done].
  by apply deliver_first_no_stray, skip_to_no_stray.
Qed.

Lemma skip_while_no_stray fuel cond ts : forall r, stray Q r -> stray Q (skip_while fuel cond ts r).
Proof.
  induction fuel as [|fuel IH]; intros r H; [done|]. cbn [skip_while]. case_if; [|done].
  by apply IH, skip_to_first_no_stray.
Qed.

Lemma deliver_loop_no_stray fuel ts : forall r, stray Q r -> stray Q (deliver_loop fuel ts r).
Proof.
  induction fuel as [|fuel IH]; intros r H; [done|]. cbn [deliver_loop].
  pose proof (deliver_first_no_stray ts r H) as H'. destruct (deliver_first ts r) as [r' [|]]; [by apply IH|done].
Qed.

Lemma check_timers_no_stray ts r : stray Q r -> stray Q (check_timers ts r).
Proof.
  intros H. unfold check_timers. case_if; [done|]. fold (ack_timer ts r). fold (stall_timer ts (ack_timer ts r)).
  assert (stray Q (ack_timer ts r)) as H1.
  { unfold ack_timer. destruct (evidence_due _ _ _); [|done]. destruct (first_start r).
    - case_if; [|done]. by apply skip_while_no_stray.
    - by apply skip_to_no_stray. }
  assert (stray Q (stall_timer ts (ack_timer ts r))) as H2.
  { unfold stall_timer. destruct (ooo _); [|done]. cbv zeta. case_if; [|done]. by apply skip_to_first_no_stray. }
  unfold stray in *. cbn. unfold expire_stray. case_if; [apply absent|exact H2].
Qed.

Lemma absorb_no_stray start bs r : stray Q r -> stray Q (absorb start bs r).
Proof. unfold stray. by destruct (absorb_frame start bs r) as (_ & -> & _). Qed.

Lemma feed_ooo_no_stray start next bs ts r : stray Q r -> stray Q (feed_ooo start next bs ts r).
Proof.
  intros H. unfold feed_ooo. cbv zeta. apply check_timers_no_stray.
  unfold stray. rewrite (proj1 (seg_update_watermark_frame _)).
  apply skip_while_no_stray, deliver_loop_no_stray.
  assert (stray Q (absorb start bs (if is_some (ooo r) then r else
    r <| track ::= fun k => k <| last_progress := ts |> |>))) as Ha.
  { apply absorb_no_stray. by case_if. }
  by case_if.
Qed.
End strays.

(** What [feed] leaves when it finds no stray: none, or the segment
    itself, which was beyond the window. *)
Lemma feed_strays n seq bs ts pass r :
  no_stray r ->
  let r' := (feed_fuel (S n) seq bs ts pass r).1 in
  no_stray r' \/
  ooo r' = ooo r /\ same_pos (anchor seq ts (track r)) (track r') /\
  i64 (StreamRules.max_ahead (rules r)) < offset_of (track r') seq - next_off (track r').
Proof.
  intros H. cbn [feed_fuel]. destruct (is_some (stop r) || is_nil bs); [by left|]. cbv zeta.
  assert (no_stray (r <| track ::= anchor seq ts |>)) as Hns.
  { unfold stray. cbn. destruct (anchor_same seq ts (track r)) as (_ & _ & _ & ->). done. }
  change (rules r) with (rules (r <| track ::= anchor seq ts |>)).
  change (ooo r) with (ooo (r <| track ::= anchor seq ts |>)).
  change (anchor seq ts (track r)) with (track (r <| track ::= anchor seq ts |>)).
  set (r1 := r <| track ::= anchor seq ts |>) in *. clearbody r1. clear H r.
  destruct (i64 _ <? _) eqn:Hfar.
  - zb. unfold far_ahead. rewrite Hns. cbn [fst]. right. cbn. split_and!; [done|done|assumption].
  - left. destruct (_ <=? _).
    { apply (check_timers_no_stray (Q := fun o => o = None)); repeat case_if; exact Hns. }
    destruct (if _ <? _ then (_, _) else _) as [r2 k] eqn:Hk.
    assert (no_stray r2) as H2 by (destruct (_ <? _) in Hk; by simplify_eq).
    destruct (is_none _ && _); [case_if; cbn [fst]|by apply feed_ooo_no_stray].
    + rewrite seg_note_passthrough_same. by apply (advance_no_stray (Q := fun o => o = None) _ _ r2).
    + by apply check_timers_no_stray, append_no_stray, advance_no_stray.
Qed.

(** Without a stray the recursion is one deep. *)
Lemma feed_one_deep n m seq bs ts pass r :
  no_stray r -> feed_fuel (S n) seq bs ts pass r = feed_fuel (S m) seq bs ts pass r.
Proof.
  intros H. cbn [feed_fuel]. destruct (is_some (stop r) || is_nil bs); [done|]. cbv zeta.
  destruct (i64 _ <? _); [|done].
  assert (no_stray (r <| track ::= anchor seq ts |>)) as Hns.
  { unfold stray. cbn. destruct (anchor_same seq ts (track r)) as (_ & _ & _ & ->). done. }
  unfold far_ahead. by rewrite Hns.
Qed.

Lemma resync_one_deep n m c ts r :
  no_stray r ->
  resync_with (fun seq bs ts r => (feed_fuel (S n) seq bs ts false r).1) c ts r =
  resync_with (fun seq bs ts r => (feed_fuel (S m) seq bs ts false r).1) c ts r.
Proof.
  intros H. unfold resync_with. cbv zeta.
  assert (no_stray (skip_to (Candidate.off c) ts (flush_ooo ts r))) as Hns
    by (by apply skip_to_no_stray, skip_while_no_stray).
  by rewrite (feed_one_deep n m).
Qed.

(** ** A second resynchronisation leaves no stray *)

Lemma offset_of_seq_of k : offset_of k (seq_of k (next_off k)) = next_off k.
Proof.
  unfold offset_of, seq_of. rewrite Z.sub_diag.
  assert (wsub32 (wadd32 (next_seq k) (u32 0)) (next_seq k) = 0) as ->; [|by rewrite Z.add_0_r].
  unfold wsub32, wadd32. change (u32 0) with 0. rewrite Z.add_0_r, u32_sub_l, Z.sub_diag. done.
Qed.

Lemma resync_ahead n c ts r :
  no_stray r -> ooo r = None -> anchored (track r) = true -> next_off (track r) < Candidate.off c ->
  0 <= i64 (StreamRules.max_ahead (rules r)) ->
  no_stray (resync_with (fun seq bs ts r => (feed_fuel (S n) seq bs ts false r).1) c ts r).
Proof.
  intros Hns Ho Ha Hlt Hm. unfold resync_with. cbv zeta. rewrite flush_none by done.
  destruct (skip_to_same (Candidate.off c) ts r) as (_ & _ & En & _). rewrite Z.max_r in En by lia.
  pose proof (skip_to_no_stray (Candidate.off c) ts r Hns) as Hns1.
  assert (rules (skip_to (Candidate.off c) ts r) = rules r) as Er by (unfold skip_to; by case_if).
  assert (anchored (track (skip_to (Candidate.off c) ts r)) = true) as Ha1.
  { unfold skip_to. case_if; [done|]. cbn.
    destruct (advance_same (Candidate.off c) ts (record_skip (next_off (track r)) (Candidate.off c) (track r)))
      as (-> & _). by rewrite record_skip_same. }
  set (r1 := skip_to (Candidate.off c) ts r) in *. clearbody r1.
  set (s := seq_of (track r1) (Candidate.off c)).
  assert (no_stray (feed_fuel (S n) s (Candidate.data c) ts false r1).1) as Hns2.
  { destruct (feed_strays n s (Candidate.data c) ts false r1 Hns1) as [?|(_ & Hp & Hfar)]; [done|].
    exfalso. destruct (anchor_same s ts (track r1)) as (_ & _ & Hsame & _). rewrite (Hsame Ha1) in Hp.
    destruct Hp as (E1 & E2 & _). unfold offset_of in Hfar. rewrite E1, E2 in Hfar.
    fold (offset_of (track r1) s) in Hfar. unfold s in Hfar. rewrite <- En, offset_of_seq_of, Er in Hfar. lia. }
  destruct (is_none _); [|done]. by apply skip_to_no_stray.
Qed.

(** The far branch, when the candidate corroborates the segment. *)
Lemma far_resync r seq bs ts c k :
  0 <= StreamRules.max_ahead (rules r) <= I64_MAX -> 0 <= next_off (track r) ->
  next_off (track r) + 2 ^ 31 <= U64_MAX ->
  i64 (StreamRules.max_ahead (rules r)) < offset_of (track r) seq - next_off (track r) ->
  far_ahead (u64 (offset_of (track r) seq)) bs ts (StreamRules.max_ahead (rules r)) (track r) = (Resync c, k) ->
  next_off (track r) < Candidate.off c /\ oow k = None /\ same_pos (track r) k.
Proof.
  intros Hm Hn0 Hn Hfar Hf. rewrite i64_small in Hfar by (unfold I64_MAX in *; lia).
  pose proof (i32_range (wsub32 seq (next_seq (track r)))) as Hr. unfold offset_of in *.
  set (start := next_off (track r) + i32 (wsub32 seq (next_seq (track r)))) in *.
  assert (u64 start = start) as Eu.
  { unfold u64. apply Z.mod_small. unfold U64_MAX in Hn. unfold start in *. lia. }
  unfold far_ahead in Hf. rewrite Eu in Hf. destruct (oow (track r)) as [c'|]; [|done].
  destruct (Z.leb_spec (Z.abs (start - Candidate.off c')) (StreamRules.max_ahead (rules r))); [|done].
  simplify_eq. split_and!; [lia|done|done..].
Qed.

(** Either the fuel left does not matter, or the call resynchronises. *)
Lemma feed_cases seq bs ts pass r :
  anchored (track r) = true ->
  (forall n m, feed_fuel (S n) seq bs ts pass r = feed_fuel (S m) seq bs ts pass r) \/
  exists c k,
    far_ahead (u64 (offset_of (track r) seq)) bs ts (StreamRules.max_ahead (rules r)) (track r) = (Resync c, k) /\
    i64 (StreamRules.max_ahead (rules r)) < offset_of (track r) seq - next_off (track r) /\
    forall n, feed_fuel (S n) seq bs ts pass r =
      feed_fuel n seq bs ts false
        (resync_with (fun seq bs ts r => (feed_fuel n seq bs ts false r).1) c ts (r <| track := k |>)).
Proof.
  intros Ha. pose proof (anchored_same seq ts r Ha) as E.
  destruct (is_some (stop r) || is_nil bs) eqn:Hst.
  { left. intros n m. cbn [feed_fuel]. by rewrite Hst. }
  destruct (i64 (StreamRules.max_ahead (rules r)) <? offset_of (track r) seq - next_off (track r)) eqn:Hfar.
  - destruct (far_ahead (u64 (offset_of (track r) seq)) bs ts (StreamRules.max_ahead (rules r)) (track r))
      as [[|c] k] eqn:Hf.
    + left. intros n m. cbn [feed_fuel]. rewrite Hst, E. cbv zeta. by rewrite Hfar, Hf.
    + right. exists c, k. split_and!; [done|by apply Z.ltb_lt|]. intros n. cbn [feed_fuel].
      rewrite Hst, E. cbv zeta. by rewrite Hfar, Hf.
  - left. intros n m. cbn [feed_fuel]. rewrite Hst, E. cbv zeta. by rewrite Hfar.
Qed.

Lemma feed_two_deep n seq bs ts r :
  ooo r = None -> anchored (track r) = true -> 0 <= StreamRules.max_ahead (rules r) <= I64_MAX ->
  0 <= next_off (track r) -> next_off (track r) + 2 ^ 31 <= U64_MAX ->
  feed_fuel (S (S n)) seq bs ts false r = feed_fuel 2 seq bs ts false r.
Proof.
  intros Ho Ha Hm Hn0 Hn. destruct (feed_cases seq bs ts false r Ha) as [E|(c & k & Hf & Hfar & E)]; [apply E|].
  rewrite !E. destruct (far_resync r seq bs ts c k Hm Hn0 Hn Hfar Hf) as (Hlt & Hk & Hp).
  rewrite (resync_one_deep n 0) by exact Hk. apply feed_one_deep. apply resync_ahead; try done.
  - cbn. by destruct Hp as (_ & _ & ->).
  - cbn. by destruct Hp as (-> & _).
  - cbn. rewrite i64_small by (unfold I64_MAX in *; lia). lia.
Qed.

(** After any resynchronisation. *)
Lemma resync_then wire st d n c ts r :
  no_stray r -> winv wire st d r ->
  let r' := resync_with (fun seq bs ts r => (feed_fuel (S n) seq bs ts false r).1) c ts r in
  no_stray r' \/ ooo r' = None.
Proof.
  intros Hns Hi. unfold resync_with. cbv zeta.
  destruct (flush_ooo_settled _ _ _ ts r Hi) as [_ Ho].
  destruct (skip_to_same (Candidate.off c) ts (flush_ooo ts r)) as (Eo & _).
  assert (no_stray (skip_to (Candidate.off c) ts (flush_ooo ts r))) as Hns1
    by (by apply skip_to_no_stray, skip_while_no_stray).
  set (r1 := skip_to (Candidate.off c) ts _) in *. rewrite Ho in Eo.
  destruct (feed_strays n (seq_of (track r1) (Candidate.off c)) (Candidate.data c) ts false r1 Hns1) as [H|(H & _)].
  - left. destruct (is_none _); [by apply skip_to_no_stray|done].
  - right. destruct (is_none _); [|congruence].
    destruct (skip_to_same (Candidate.end_ c) ts (feed_fuel (S n) (seq_of (track r1) (Candidate.off c))
      (Candidate.data c) ts false r1).1) as (-> & _). congruence.
Qed.

Lemma seg_ok_any seq bs : seg_ok (fun _ _ => True) seq bs.
Proof. by intros i b. Qed.

Lemma feed_stepped wire st d n seq bs ts r :
  inv wire st d r -> anchored (track r) = true -> seg_ok wire seq bs ->
  stepped wire st d r (feed_fuel n seq bs ts false r).1.
Proof.
  intros Hr Ha Hs. pose proof (seg_feed_inv wire st n seq bs ts false d r Hr Hs) as H.
  destruct (feed_fuel n seq bs ts false r) as [r' o] eqn:E.
  apply (seg_feed_buffered wire) in E as ->. cbn in H. rewrite app_nil_r in H.
  destruct H as [H1 H2]. split; [exact H1|by apply H2].
Qed.

Definition any_wire (s b : Z) : Prop := True.

Lemma feed_three_deep st d n seq bs ts pass r :
  inv any_wire st d r -> 0 <= StreamRules.max_ahead (rules r) <= I64_MAX ->
  next_off (track (feed seq bs ts pass r).1) + 2 ^ 31 <= U64_MAX ->
  feed_fuel (S (S (S n))) seq bs ts pass r = feed seq bs ts pass r.
Proof.
  intros Hr Hm Hb. unfold feed in *. destruct (oow (track r)) as [c0|] eqn:Hoow; [|by apply feed_one_deep].
  destruct (ok_oow _ _ (i_track _ _ _ _ _ (proj1 Hr)) c0 Hoow) as (Ha & _).
  destruct (feed_cases seq bs ts pass r Ha) as [E|(c & k & Hf & Hfar & E)]; [apply E|].
  rewrite !E in *. pose proof (far_ahead_ok any_wire (u64 (offset_of (track r) seq)) bs ts
    (StreamRules.max_ahead (rules r)) _ (i_track _ _ _ _ _ (proj1 Hr)) Ha) as Hfa.
  rewrite Hf in Hfa. destruct Hfa as (Hk & Hp & Hc & Hns); [apply Z.mod_pos_bound; lia|by intros i b|].
  rewrite (resync_one_deep (S n) 1) by exact Hns.
  pose proof (settled_stepped any_wire st d _ _ Hr (set_track_settled any_wire st d r k (proj1 Hr) Hk Hp)) as S1.
  set (r1 := r <| track := k |>) in *. pose proof S1 as [Hr1 _].
  assert (anchored (track r1) = true) as Ha1 by (unfold r1; cbn; by destruct Hp as (_ & _ & ->)).
  assert (stepped any_wire st d r1 (resync_with (fun seq bs ts r => (feed_fuel 2 seq bs ts false r).1) c ts r1)) as S2.
  { apply resync_stepped; [|done|done|unfold r1; cbn; by rewrite (same_pos_isn _ _ Hp)].
    intros. by apply feed_stepped. }
  destruct (resync_then any_wire st d 1 c ts r1 Hns (proj1 Hr1)) as [H2|H2]; cbv zeta in H2.
  { by apply feed_one_deep. }
  set (r2 := resync_with _ c ts r1) in *. pose proof (stepped_anchored _ _ _ _ _ S2 Ha1) as Ha2.
  pose proof S2 as [Hr2 _].
  destruct (feed_stepped any_wire st d 2 seq bs ts r2 Hr2 Ha2 ltac:(by intros i b)) as [_ (_ & _ & _ & Hle)].
  assert (rules r2 = rules r) as Er.
  { pose proof (i_settings _ _ _ _ _ (proj1 Hr)) as E1. pose proof (i_settings _ _ _ _ _ (proj1 Hr2)) as E2.
    unfold settings in *. congruence. }
  apply feed_two_deep; [done|done|by rewrite Er| |lia].
  apply (ok_pos any_wire). apply (i_track _ _ _ _ _ (proj1 Hr2)).
Qed.

(** ** [missing] *)

Lemma resync_opt_stepped wire st d c now k r :
  inv wire st d r -> ok wire k -> same_pos (track r) k -> anchored (track r) = true ->
  (forall c', c = Some c' -> cand_ok wire (isn (track r)) c') ->
  stepped wire st d r
    (match c with Some c => resync c now (r <| track := k |>) | None => r <| track := k |> end).
Proof.
  intros Hr Hk Hp Ha Hc.
  pose proof (settled_stepped wire st d _ _ Hr (set_track_settled wire st d r k (proj1 Hr) Hk Hp)) as S1.
  destruct c as [c|]; [|done]. eapply stepped_trans; [exact S1|].
  apply resync_stepped; [intros; by apply segment_stepped|apply S1| |].
  - cbn. by destruct Hp as (_ & _ & ->).
  - cbn. by rewrite (same_pos_isn _ _ Hp); apply Hc.
Qed.

Lemma timers_stepped wire st d now r r' :
  stepped wire st d r r' -> stepped wire st d r (check_timers now r').
Proof.
  intros S. eapply stepped_trans; [exact S|]. apply settled_stepped; [apply S|].
  by apply check_timers_settled, S.
Qed.

Lemma missing_stepped wire st d s n now fuel : forall r,
  inv wire st d r -> anchored (track r) = true -> 0 <= n ->
  stepped wire st d r (missing_fuel fuel s n now r).
Proof.
  induction fuel as [|fuel IH]; intros r Hr Ha Hn; cbn [missing_fuel]; [by apply stepped_refl|].
  destruct (is_some (stop r) || (n =? 0)); [by apply stepped_refl|]. rewrite anchored_same by done.
  cbv zeta. destruct (_ <=? next_off (track r)); [by apply stepped_refl|].
  destruct (i64 _ <? _); [|destruct (_ <=? _)].
  - pose proof (far_missing_ok wire (u64 (offset_of (track r) s)) n now
      (StreamRules.max_ahead (rules r)) _ (i_track _ _ _ _ _ (proj1 Hr)) Ha
      ltac:(apply Z.mod_pos_bound; lia) Hn) as Hf.
    destruct (far_missing _ _ _ _ _) as [c k]. destruct Hf as (Hk & Hp & Hc).
    pose proof (resync_opt_stepped wire st d c now k r Hr Hk Hp Ha) as S1.
    destruct c as [c|]; [|apply timers_stepped, S1; done].
    assert (stepped wire st d r (resync c now (r <| track := k |>))) as S2 by (apply S1; intros c' Hc'; by apply Hc).
    eapply stepped_trans; [exact S2|].
    exact (IH _ (proj1 S2) (stepped_anchored _ _ _ _ _ S2 Ha) Hn).
  - destruct (skip_cut_spec wire st d (offset_of (track r) s + n) now (S (S (n_pieces r))) r (proj1 Hr) Ha)
      as [S1 _]; [lia|].
    apply timers_stepped, settled_stepped; [done|]. eapply settled_trans; [exact S1|].
    apply same_core_settled; [apply S1|apply update_watermark_core].
  - pose proof (evidence_ok wire (wadd32 s n) now (StreamRules.max_ahead (rules r)) _
      (i_track _ _ _ _ _ (proj1 Hr))) as He.
    destruct (evidence _ _ _ _) as [c k]. destruct He as (Hk & Hp & Hc).
    apply timers_stepped, resync_opt_stepped; [done..|]. intros c' Hc'. by destruct (Hc _ Hc') as (? & _).
Qed.

Lemma far_missing_stray s l now mx k c k' : far_missing s l now mx k = (Some c, k') ->
  far_ahead s [] now mx k = (Resync c, k').
Proof.
  unfold far_missing, extend_stray. destruct (oow k) as [c0|] eqn:E.
  - destruct (_ && _); [done|]. destruct (far_ahead s [] now mx k) as [[|c1] k1]; intros; by simplify_eq.
  - destruct (far_ahead s [] now mx k) as [[|c1] k1]; intros; by simplify_eq.
Qed.

Lemma missing_cases s n now r :
  anchored (track r) = true ->
  (forall a b, missing_fuel (S a) s n now r = missing_fuel (S b) s n now r) \/
  exists c k,
    far_ahead (u64 (offset_of (track r) s)) [] now (StreamRules.max_ahead (rules r)) (track r) = (Resync c, k) /\
    i64 (StreamRules.max_ahead (rules r)) < offset_of (track r) s - next_off (track r) /\
    forall a, missing_fuel (S a) s n now r = missing_fuel a s n now (resync c now (r <| track := k |>)).
Proof.
  intros Ha. pose proof (anchored_same s now r Ha) as E.
  destruct (is_some (stop r) || (n =? 0)) eqn:Hst; [left; intros; cbn [missing_fuel]; by rewrite Hst|].
  destruct (offset_of (track r) s + n <=? next_off (track r)) eqn:He;
    [left; intros; cbn [missing_fuel]; rewrite Hst, E; cbv zeta; by rewrite He|].
  destruct (i64 (StreamRules.max_ahead (rules r)) <? offset_of (track r) s - next_off (track r)) eqn:Hfar;
    [|left; intros; cbn [missing_fuel]; rewrite Hst, E; cbv zeta; by rewrite He, Hfar].
  destruct (far_missing (u64 (offset_of (track r) s)) n now (StreamRules.max_ahead (rules r)) (track r))
    as [[c|] k] eqn:Hf.
  - right. exists c, k. split_and!; [by eapply far_missing_stray|by apply Z.ltb_lt|].
    intros a. cbn [missing_fuel]. rewrite Hst, E. cbv zeta. by rewrite He, Hfar, Hf.
  - left. intros. cbn [missing_fuel]. rewrite Hst, E. cbv zeta. by rewrite He, Hfar, Hf.
Qed.

Lemma missing_one_deep a b s n now r :
  no_stray r -> missing_fuel (S a) s n now r = missing_fuel (S b) s n now r.
Proof.
  intros Hns. cbn [missing_fuel]. destruct (is_some (stop r) || (n =? 0)); [done|]. cbv zeta.
  destruct (_ <=? next_off _); [done|]. destruct (i64 _ <? _); [|done].
  destruct (far_missing _ _ _ _ _) as [[c|] k] eqn:Hf; [|done]. apply far_missing_stray in Hf.
  unfold far_ahead in Hf. cbn in Hf. destruct (anchor_same s now (track r)) as (_ & _ & _ & E).
  by rewrite E, Hns in Hf.
Qed.

Lemma missing_two_deep a s n now r :
  ooo r = None -> anchored (track r) = true -> 0 <= StreamRules.max_ahead (rules r) <= I64_MAX ->
  0 <= next_off (track r) -> next_off (track r) + 2 ^ 31 <= U64_MAX ->
  missing_fuel (S (S a)) s n now r = missing_fuel 2 s n now r.
Proof.
  intros Ho Ha Hm Hn0 Hn. destruct (missing_cases s n now r Ha) as [E|(c & k & Hf & Hfar & E)]; [apply E|].
  rewrite !E. destruct (far_resync r s [] now c k Hm Hn0 Hn Hfar Hf) as (Hlt & Hk & Hp).
  apply missing_one_deep. apply (resync_ahead 2); try done.
  - cbn. by destruct Hp as (_ & _ & ->).
  - cbn. by destruct Hp as (-> & _).
  - cbn. rewrite i64_small by (unfold I64_MAX in *; lia). lia.
Qed.

Lemma far_resync_stepped d st r s bs now c k :
  inv any_wire st d r -> anchored (track r) = true ->
  far_ahead (u64 (offset_of (track r) s)) bs now (StreamRules.max_ahead (rules r)) (track r) = (Resync c, k) ->
  oow k = None /\ inv any_wire st d (r <| track := k |>) /\
  stepped any_wire st d r (resync c now (r <| track := k |>)).
Proof.
  intros Hr Ha Hf. pose proof (far_ahead_ok any_wire (u64 (offset_of (track r) s)) bs now
    (StreamRules.max_ahead (rules r)) _ (i_track _ _ _ _ _ (proj1 Hr)) Ha) as Hfa.
  rewrite Hf in Hfa. destruct Hfa as (Hk & Hp & Hc & Hns); [apply Z.mod_pos_bound; lia|by intros i b|].
  split; [done|]. split.
  - refine (proj1 (settled_stepped any_wire st d _ _ Hr _)). by apply set_track_settled; [apply Hr|..].
  - apply (resync_opt_stepped any_wire st d (Some c) now k r Hr Hk Hp Ha). by intros c' [= <-].
Qed.

Lemma missing_three_deep st d a s n now r :
  inv any_wire st d r -> 0 <= StreamRules.max_ahead (rules r) <= I64_MAX -> 0 <= n ->
  next_off (track (missing s n now r)) + 2 ^ 31 <= U64_MAX ->
  missing_fuel (S (S (S a))) s n now r = missing s n now r.
Proof.
  intros Hr Hm Hn Hb. unfold missing in *. destruct (oow (track r)) as [c0|] eqn:Hoow; [|by apply missing_one_deep].
  destruct (ok_oow _ _ (i_track _ _ _ _ _ (proj1 Hr)) c0 Hoow) as (Ha & _).
  destruct (missing_cases s n now r Ha) as [E|(c & k & Hf & Hfar & E)]; [apply E|].
  rewrite !E in *. destruct (far_resync_stepped d st r s [] now c k Hr Ha Hf) as (Hns & Hr1 & S2).
  pose proof (resync_then any_wire st d 2 c now (r <| track := k |>) Hns (proj1 Hr1)) as H2. cbv zeta in H2.
  change (resync_with _ c now (r <| track := k |>)) with (resync c now (r <| track := k |>)) in H2.
  set (r2 := resync c now (r <| track := k |>)) in *. clearbody r2.
  destruct H2 as [H2|H2]; [by apply missing_one_deep|].
  pose proof (stepped_anchored _ _ _ _ _ S2 Ha) as Ha2. pose proof S2 as [Hr2 _].
  destruct (missing_stepped any_wire st d s n now 2 r2 Hr2 Ha2 Hn) as [_ (_ & _ & _ & Hle)].
  assert (rules r2 = rules r) as Er.
  { pose proof (i_settings _ _ _ _ _ (proj1 Hr)) as E1. pose proof (i_settings _ _ _ _ _ (proj1 Hr2)) as E2.
    unfold settings in *. congruence. }
  apply missing_two_deep; [done|done|by rewrite Er| |lia].
  apply (ok_pos any_wire). apply (i_track _ _ _ _ _ (proj1 Hr2)).
Qed.

(** ** The theorem *)

(** C40: with a window below 2^63 (the code casts it to [i64]) and a
    stream shorter than 2^64 - 2^31 bytes, the recursion of [feed] and
    [missing] is at most three deep from any reachable state: more fuel
    changes nothing. *)
Theorem segment_recursion_bounded r0 es n seq payload len ts pass :
  fresh r0 -> 0 <= StreamRules.max_ahead (rules r0) <= I64_MAX -> Forall (event_ok any_wire) es ->
  (3 <= n)%nat -> 0 <= len ->
  let r := (run r0 es).1 in
  (next_off (track (feed seq payload ts pass r).1) + 2 ^ 31 <= U64_MAX ->
   feed_fuel n seq payload ts pass r = feed seq payload ts pass r) /\
  (next_off (track (missing seq len ts r)) + 2 ^ 31 <= U64_MAX ->
   missing_fuel n seq len ts r = missing seq len ts r).
Proof.
  intros Hf Hm He Hn Hl r.
  assert (inv any_wire (settings r0) ([] ++ (run r0 es).2) r) as Hr.
  { apply seg_run_inv; [done|]. by apply seg_fresh_inv. }
  assert (rules r = rules r0) as Er.
  { pose proof (i_settings _ _ _ _ _ (proj1 Hr)) as E. unfold settings in E. congruence. }
  destruct n as [|[|[|n]]]; [lia..|]. split; intros Hb.
  - eapply feed_three_deep; [exact Hr|by rewrite Er|done].
  - eapply missing_three_deep; [exact Hr|by rewrite Er|done|done].
Qed.

Lemma segment_recursion_bounded_witness :
  let r := (run new [SetOrigin 0; Segment 3000000 [1] (Timestamp.mk 1 0)]).1 in
  origin_resets (track (feed 3000001 [2] (Timestamp.mk 1 0) true r).1) = 1 /\
  feed_fuel 50 3000001 [2] (Timestamp.mk 1 0) true r = feed 3000001 [2] (Timestamp.mk 1 0) true r.
Proof.
  cbv zeta. split; [vm_compute; reflexivity|].
  refine (proj1 (segment_recursion_bounded new _ 50 3000001 [2] 0 (Timestamp.mk 1 0) true _ _ _ _ _) _).
  - repeat split. intros cap [=].
  - split; vm_compute; discriminate.
  - repeat (apply Forall_cons; split; [try exact I; intros ? ? _; exact I|]). apply Forall_nil. exact I.
  - lia.
  - lia.
  - vm_compute. discriminate.
Defined.

(** From any reachable state each loop stops because its condition
    failed, with one step of fuel per held piece: [while deliver_first]
    with nothing left at the position, [flush_ooo] with nothing held (or the
    side stopped), [enforce_ooo_cap] within budget, the loop of
    [check_timers] past the frontier, and the one of [missing] past the cut
    bytes. *)
Theorem segment_loops_exit r0 es ts frontier end_ :
  fresh r0 -> Forall (event_ok any_wire) es ->
  let r := (run r0 es).1 in
  (forall f, first_start (deliver_all ts r) = Some f -> next_off (track (deliver_all ts r)) < f) /\
  holding (flush_ooo ts r) = false /\
  over_budget (enforce_ooo_cap ts r) = false /\
  behind frontier (skip_while (S (n_pieces r)) (behind frontier) ts r) = false /\
  let r' := skip_cut (S (S (n_pieces r))) end_ ts r in
  anchored (track r) = true -> stop r' = None -> end_ <= next_off (track r').
Proof.
  intros Hf He r.
  assert (winv any_wire (settings r0) ([] ++ (run r0 es).2) r) as Hr.
  { apply seg_run_inv; [done|]. by apply seg_fresh_inv. }
  clearbody r. split_and!.
  - apply (deliver_loop_spec _ _ _ ts (S (n_pieces r)) r Hr). lia.
  - apply (skip_while_spec _ _ _ ts holding (S (n_pieces r)) holding_holds r Hr). lia.
  - apply (skip_while_spec _ _ _ ts over_budget (S (n_pieces r)) over_budget_holds r Hr). lia.
  - apply (skip_while_spec _ _ _ ts (behind frontier) (S (n_pieces r)) (behind_holds frontier) r Hr). lia.
  - intros r' Ha. apply (skip_cut_spec _ _ _ end_ ts _ r Hr Ha). lia.
Qed.

Definition three_holes : list Event :=
  [SetOrigin 0; Segment 2 [1] (Timestamp.mk 1 0); Segment 4 [1; 2] (Timestamp.mk 1 0);
   Segment 8 [1] (Timestamp.mk 1 0)].

Lemma segment_loops_exit_witness :
  n_pieces (run new three_holes).1 = 3%nat /\
  holding (flush_ooo (Timestamp.mk 2 0) (run new three_holes).1) = false.
Proof.
  split; [vm_compute; reflexivity|].
  assert (fresh new) as Hf by (repeat split; intros cap [=]).
  assert (Forall (event_ok any_wire) three_holes) as He.
  { repeat (apply Forall_cons; split; [try exact I; intros ? ? _; exact I|]). apply Forall_nil. exact I. }
  exact (proj1 (proj2 (segment_loops_exit new three_holes (Timestamp.mk 2 0) 0 0 Hf He))).
Defined.

(** ** What it holds *)
Section heap.
Context (L : Z) (L_nonneg : 0 <= L).
Definition small (o : option Candidate.t) : Prop := Candidate.heap o <= Candidate.size_of + L.
#[local] Instance small_absent : Absent small.
Proof. unfold Absent, small, Candidate.size_of. cbn. lia. Qed.
Notation P := (stray small).
Notation fits bs := (zlen bs <= L).
Lemma small_fits c : small (Some c) <-> fits (Candidate.data c).
Proof. unfold small. cbn. lia. Qed.

Lemma far_ahead_small o bs now m k : fits bs -> small (oow k) ->
  let '(out, k') := far_ahead o bs now m k in
  small (oow k') /\ match out with Resync c => fits (Candidate.data c) | Held => True end.
Proof.
  intros Hb Hk. unfold far_ahead. destruct (oow k) as [c|]; [case_if|]; cbv beta iota zeta; split;
    first [done|apply absent|by apply small_fits].
Qed.
Lemma extend_stray_small start len now k : small (oow k) -> small (oow (extend_stray start len now k).2).
Proof. unfold extend_stray. destruct (oow k) as [c|] eqn:E; intros Hk; [case_if|]; cbn; rewrite ?E; exact Hk. Qed.
Lemma far_missing_small start len now m k : small (oow k) ->
  let '(c, k') := far_missing start len now m k in
  small (oow k') /\ forall c', c = Some c' -> fits (Candidate.data c').
Proof.
  intros Hk. unfold far_missing. apply (extend_stray_small start len now) in Hk.
  destruct (extend_stray start len now k) as [e k1]. cbn in Hk. destruct e; [done|].
  pose proof (far_ahead_small start [] now m k1 L_nonneg Hk) as Hf.
  destruct (far_ahead start [] now m k1) as [[|c] k2]; destruct Hf as [Hk2 Hc].
  - split; [by apply extend_stray_small|done].
  - split; [done|]. by intros ? [= <-].
Qed.
Lemma evidence_small s now m k : small (oow k) ->
  let '(c, k') := evidence s now m k in
  small (oow k') /\ forall c', c = Some c' -> fits (Candidate.data c').
Proof.
  intros Hk. unfold evidence. cbv zeta. case_if; [done|]. case_if; [done|]. case_if; [done|]. case_if.
  - destruct (oow k) as [c|] eqn:E; [|by rewrite E in *]. case_if; [|by rewrite E].
    split; [apply absent|]. intros ? [= <-]. by apply small_fits.
  - split; [|done]. by repeat case_if.
Qed.
Lemma fin_small s now m k : small (oow k) ->
  let '(c, k') := fin s now m k in small (oow k') /\ forall c', c = Some c' -> fits (Candidate.data c').
Proof.
  intros Hk. unfold fin. case_if; [done|]. cbv zeta. case_if; [done|]. apply evidence_small. by case_if.
Qed.

Lemma resync_small (feed : Z -> list Z -> Timestamp.t -> t -> t) c ts r :
  (forall s p t r, fits p -> P r -> P (feed s p t r)) -> fits (Candidate.data c) -> P r -> P (resync_with feed c ts r).
Proof.
  intros Hfeed Hc Hr. unfold resync_with. cbv zeta.
  assert (P (skip_to (Candidate.off c) ts (flush_ooo ts r))) as H1 by by apply skip_to_no_stray, skip_while_no_stray.
  apply (Hfeed (seq_of (track (skip_to (Candidate.off c) ts (flush_ooo ts r))) (Candidate.off c))
    (Candidate.data c) ts) in H1; [|done]. case_if; [by apply skip_to_no_stray|done].
Qed.

Lemma anchor_small seq ts r : P r -> P (r <| track ::= anchor seq ts |>).
Proof. unfold stray. cbn. destruct (anchor_same seq ts (track r)) as (_ & _ & _ & ->). done. Qed.

Lemma feed_small fuel : forall seq bs ts pass r, fits bs -> P r -> P (feed_fuel fuel seq bs ts pass r).1.
Proof.
  induction fuel as [|fuel IH]; intros seq bs ts pass r Hb Hr; [done|]. cbn [feed_fuel].
  destruct (is_some (stop r) || is_nil bs); [done|]. cbv zeta.
  apply (anchor_small seq ts) in Hr. set (r1 := r <| track ::= anchor seq ts |>) in *. clearbody r1. clear r.
  destruct (i64 _ <? _).
  - pose proof (far_ahead_small (u64 (offset_of (track r1) seq)) bs ts (StreamRules.max_ahead (rules r1)) (track r1) Hb Hr) as Hf.
    destruct (far_ahead _ _ _ _ _) as [[|c] k]; destruct Hf as [Hk Hc]; [done|].
    apply IH; [done|]. apply resync_small; [|done|exact Hk]. intros s p t r Hp Hr'. by apply IH.
  - destruct (_ <=? _).
    { cbn [fst]. apply check_timers_no_stray. by repeat case_if. }
    destruct (if _ <? _ then (_, _) else _) as [r2 k] eqn:Hk.
    assert (P r2) as H2 by (destruct (_ <? _) in Hk; by simplify_eq).
    destruct (is_none _ && _); [case_if; cbn [fst]|by apply feed_ooo_no_stray].
    + rewrite seg_note_passthrough_same. by apply (advance_no_stray (Q := small) _ _ r2).
    + by apply check_timers_no_stray, append_no_stray, advance_no_stray.
Qed.
Lemma resync_feed_small c ts r : fits (Candidate.data c) -> P r -> P (resync c ts r).
Proof. intros Hc. apply resync_small; [|done]. intros s p t r' Hp Hr'. by apply feed_small. Qed.
(** A resynchronisation that an acknowledgement or a loss may cause. *)
Lemma maybe_resync_small (o : option Candidate.t) k ts r :
  small (oow k) /\ (forall c, o = Some c -> fits (Candidate.data c)) ->
  let r := r <| track := k |> in P (match o with Some c => resync c ts r | None => r end).
Proof. intros [Hk Hc]. destruct o as [c|]; [|exact Hk]. apply resync_feed_small; [by apply Hc|exact Hk]. Qed.

Lemma update_watermark_small r : P r -> P (update_watermark r).
Proof. unfold stray. by destruct (seg_update_watermark_frame r) as [-> _]. Qed.
Lemma skip_cut_small fuel e ts : forall r, P r -> P (skip_cut fuel e ts r).
Proof.
  induction fuel as [|fuel IH]; intros r Hr; [done|]. cbn [skip_cut]. case_if; [|done]. cbv zeta.
  by apply IH, deliver_loop_no_stray, skip_to_no_stray.
Qed.
Lemma missing_small fuel seq len ts : forall r, P r -> P (missing_fuel fuel seq len ts r).
Proof.
  induction fuel as [|fuel IH]; intros r Hr; [done|]. cbn [missing_fuel].
  destruct (is_some (stop r) || (len =? 0)); [done|]. cbv zeta.
  apply (anchor_small seq ts) in Hr. set (r1 := r <| track ::= anchor seq ts |>) in *. clearbody r1. clear r.
  case_if; [done|]. case_if; [|case_if].
  - pose proof (far_missing_small (u64 (offset_of (track r1) seq)) len ts (StreamRules.max_ahead (rules r1)) (track r1) Hr) as Hf.
    destruct (far_missing _ _ _ _ _) as [[c|] k]; destruct Hf as [Hk Hc].
    + apply IH, resync_feed_small; [by apply Hc|exact Hk].
    + by apply check_timers_no_stray.
  - by apply check_timers_no_stray, update_watermark_small, skip_cut_small.
  - pose proof (evidence_small (wadd32 seq len) ts (StreamRules.max_ahead (rules r1)) (track r1) Hr) as He.
    destruct (evidence _ _ _ _) as [c k]. by apply check_timers_no_stray, maybe_resync_small.
Qed.

Definition payload_fits (e : Event) : Prop :=
  match e with Segment _ p _ | SegmentInto _ p _ => fits p | _ => True end.
Lemma deliver_small r e : payload_fits e -> P r -> P (deliver r e).1.
Proof.
  intros He Hr. destruct e; cbn in He |- *.
  - by apply feed_small.
  - pose proof (feed_small 3 seq payload ts true r He Hr) as Hf.
    unfold SegmentBufferReassembler.segment_into, feed. by destruct (feed_fuel 3 seq payload ts true r).
  - by apply anchor_small.
  - unfold SegmentBufferReassembler.peer_ack. case_if; [done|].
    pose proof (evidence_small (wsub32 ack 1) ts (StreamRules.max_ahead (rules r)) (track r) Hr) as Hv.
    destruct (evidence _ _ _ _) as [c k]. by apply check_timers_no_stray, maybe_resync_small.
  - unfold SegmentBufferReassembler.fin_seen. case_if; [done|].
    pose proof (fin_small end_ ts (StreamRules.max_ahead (rules r)) (track r) Hr) as Hv.
    destruct (fin _ _ _ _) as [c k]. by apply maybe_resync_small.
  - by apply missing_small.
  - exact Hr.
  - apply absent.
  - by apply check_timers_no_stray.
  - apply absent.
Qed.

(** All a reassembler with these caps can hold. *)
Lemma size_bounded wire st d r cap : inv wire st d r -> P r ->
  max_buffer r = Some cap -> 0 <= max_ooo_buffer r ->
  0 <= current_bytes r <= cap + max_ooo_buffer r + (Candidate.size_of + L).
Proof.
  intros [Hi Hb] Hs Hm Ho. destruct (i_cap _ _ _ _ _ Hi cap Hm) as [Hc Hl].
  assert (0 <= Candidate.heap (oow (track r)) <= Candidate.size_of + L) as Hh.
  { split; [|exact Hs]. unfold Candidate.size_of. destruct (oow (track r)) as [c|]; cbn; [|done]. pose proof (zlen_nonneg (Candidate.data c)). unfold Candidate.size_of. lia. }
  assert (0 <= len (ready r)) by apply zlen_nonneg.
  unfold current_bytes, heap_bytes. destruct (ooo r) as [o|] eqn:E; [|lia]. specialize (Hb o E).
  destruct (i_ooo _ _ _ _ _ Hi o E) as (_ & (lo & Hw) & _). destruct Hw as [W1 _ _ W4 _].
  apply lens_nonneg in W1. pose proof (zlen_nonneg (Ooo.pieces o)). pose proof (zlen_nonneg (Ooo.runs o)).
  unfold Ooo.charged, PIECE_OVERHEAD, RUN_OVERHEAD in *. lia.
Qed.
End heap.
