(* ===== verification/SegmentStream.v ===== *)
(** * Reconstruction of a stream from segments in any order

    A stream of at most [max_ahead] bytes is cut into segments that arrive
    in any order, repeated and overlapping, none lost for longer than the
    deadline.  With room for what may be held out of order, the
    [SegmentBufferReassembler] hands its consumer exactly the stream. *)

From S2P Require Import Prelude Time Flow Cells Chunks Ledger Track BTree Ooo Runs Pieces Reassembler Segment SegmentFacts.
Import Track TrackFacts StreamChunks StreamChunksFacts SegmentBufferReassembler.

Definition held (r : t) : list piece := match ooo r with Some o => Ooo.pieces o | None => [] end.
Definition held_runs (r : t) : list Runs.run := match ooo r with Some o => Ooo.runs o | None => [] end.

(** ** What bounds the held data *)

Lemma lens_bound lo hi ps : forall l, pieces_wf l ps ->
  (forall x b, byte_at ps x = Some b -> lo <= x < hi) ->
  zlen ps <= lens ps /\ lens ps <= Z.max 0 (hi - Z.max (l + 1) lo).
Proof.
  induction ps as [|p ps IH]; intros l Hw Hin; [unfold lens, Ooo.zsum, zlen; cbn; lia|].
  pose proof Hw as (Hlo & Hd & Hps). rewrite lens_cons, zlen_cons.
  assert (forall x, p.1 <= x < piece_end p -> lo <= x < hi) as Hp.
  { intros x Hx. destruct (at_piece_in p x Hx) as [b Hb]. apply (Hin x b). cbn. by rewrite Hb. }
  pose proof (Hp p.1) as H1. pose proof (Hp (piece_end p - 1)) as H2. unfold piece_end in *.
  destruct (IH _ Hps) as [I1 I2]; [|lia].
  intros x b Hx. apply (Hin x b). cbn. pose proof (byte_at_lo _ _ _ _ Hps Hx).
  by rewrite at_piece_out by (unfold piece_end; lia).
Qed.

Lemma runs_bound lo hi rs : forall l, runs_wf l rs ->
  (forall x g, run_at rs x = Some g -> lo <= x < hi) -> zlen rs <= Z.max 0 (hi - Z.max l lo).
Proof.
  induction rs as [|[s [e g]] rs IH]; intros l Hw Hin; [unfold zlen; cbn; lia|].
  rewrite zlen_cons. pose proof Hw as (Hl & Hse & Hrs).
  assert (lo <= s < hi) as Hs by (apply (Hin s g); eapply run_at_elem; [exact Hw|apply list_elem_of_here|lia]).
  assert (lo <= e - 1 < hi) as He by (apply (Hin (e - 1) g); eapply run_at_elem; [exact Hw|apply list_elem_of_here|lia]).
  assert (zlen rs <= Z.max 0 (hi - Z.max e lo)) as Hz; [|lia].
  apply IH; [done|]. intros x g' Hx. apply (Hin x g').
  apply run_at_Some in Hx as (s' & e' & Hin' & Hx').
  eapply run_at_elem; [exact Hw|by apply list_elem_of_further|done].
Qed.

(** A byte of payload costs at most 98 bytes: its own and as much spare
    capacity, a piece and a run. *)
Lemma charged_bound hi lo o : ooo_wf lo o ->
  (forall x b, byte_at (Ooo.pieces o) x = Some b -> 0 <= x < hi) ->
  (forall x g, run_at (Ooo.runs o) x = Some g -> 0 <= x < hi) ->
  0 <= hi -> Ooo.charged o <= 98 * hi.
Proof.
  intros [W1 W2 W3 W4 W5] Hb Hr Hhi. unfold Ooo.charged, PIECE_OVERHEAD, RUN_OVERHEAD.
  destruct (lens_bound 0 hi _ lo W1 Hb) as [L1 L2]. pose proof (runs_bound 0 hi _ lo W2 Hr) as L3.
  assert (caps (Ooo.pieces o) <= 2 * lens (Ooo.pieces o)) as L4.
  { clear - W5. induction W5 as [|p ps Hp Hps IH]; [unfold caps, lens, Ooo.zsum; cbn; lia|].
    rewrite caps_cons, lens_cons. lia. }
  lia.
Qed.

(** ** The calm state *)

Section stream.
Context (data : list Z) (i : Z) (T : Timestamp.t -> Prop) (r0 : t).
Notation N := (zlen data).

(** The bytes of the stream, at their sequence numbers. *)
Definition on_wire (s b : Z) : Prop :=
  exists o, 0 <= o < N /\ s = u32 (i + o) /\ data !! Z.to_nat o = Some b.

(** [got] is what has arrived.  Nothing is lost, and nothing is waited
    for except the holes. *)
Record calm (got : Z -> Prop) (r : t) : Prop := {
  k_anchored : anchored (track r) = true;
  k_isn : isn (track r) = u32 i;
  k_stop : stop r = None;
  k_oow : oow (track r) = None;
  k_since : evidence_since (track r) = None;
  k_time : ooo r <> None -> T (last_progress (track r));
  k_next : next_off (track r) <= N;
  k_bytes : forall x b, byte_at (held r) x = Some b -> 0 <= x < N;
  k_runs : forall x g, run_at (held_runs r) x = Some g -> 0 <= x < N;
  k_got : forall x, got x -> x < next_off (track r) \/ byte_at (held r) x <> None;
  k_lost : gap_bytes r + bytes_dropped_oversize r = 0 }.

Definition ahead (r : t) : Prop := forall f, first_start r = Some f -> next_off (track r) < f.

(** Any two packet times are within the deadline, the window covers the
    stream, and both budgets have room for it. *)
Record roomy : Prop := {
  m_short : N < 2 ^ 31;
  m_window : N <= StreamRules.max_ahead (rules r0) <= I64_MAX;
  m_near : forall a b, T a -> T b -> Timestamp.saturating_sub a b <= StreamRules.deadline (rules r0);
  m_deadline : 0 <= StreamRules.deadline (rules r0);
  m_buffer : forall cap, max_buffer r0 = Some cap -> N <= cap;
  m_ooo : 98 * N <= max_ooo_buffer r0 }.
Context (Hroom : roomy).
Notation st := (settings r0).

Lemma calm_core got r r' : calm got r -> same_core r r' -> calm got r'.
Proof.
  intros [K1 K2 K3 K4 K5 K6 K7 K8 K9 K10 K11] (E1 & E2 & E3 & E4 & E5 & E6 & E7).
  unfold held, held_runs in *. split; unfold held, held_runs; rewrite ?E2, ?E3, ?E4, ?E5, ?E6; done.
Qed.

Lemma settings_rules wire d r : winv wire st d r ->
  rules r = rules r0 /\ max_buffer r = max_buffer r0 /\ max_ooo_buffer r = max_ooo_buffer r0.
Proof. intros Hr. pose proof (i_settings _ _ _ _ _ Hr) as E. unfold settings in E. split_and!; congruence. Qed.

Lemma timers_idle wire d got ts r :
  winv wire st d r -> calm got r -> T ts -> check_timers ts r = r.
Proof.
  intros Hr K Ht. destruct (settings_rules _ _ _ Hr) as (Er & _). unfold check_timers.
  rewrite (k_stop _ _ K). cbn [is_some]. unfold evidence_due. rewrite (k_since _ _ K).
  assert (forall k, oow k = None -> expire_stray ts (StreamRules.deadline (rules r) * 4) k = k) as He.
  { intros k Hk. unfold expire_stray. by rewrite Hk. }
  assert (r <| track ::= expire_stray ts (StreamRules.deadline (rules r) * 4) |> = r) as Hsame.
  { change (r <| track := expire_stray ts (StreamRules.deadline (rules r) * 4) (track r) |> = r).
    rewrite He by apply K. by destruct r. }
  destruct (ooo r) as [o|] eqn:Ho.
  - assert (Timestamp.saturating_sub ts (last_progress (track r)) <= StreamRules.deadline (rules r)) as Hs.
    { rewrite Er. apply (m_near Hroom); [done|]. apply (k_time _ _ K). by rewrite Ho. }
    assert (0 <= StreamRules.deadline (rules r)) as Hd by (rewrite Er; apply (m_deadline Hroom)).
    cbv zeta. rewrite (proj2 (Z.ltb_ge (StreamRules.deadline (rules r)) _) Hs), andb_false_r.
    rewrite (proj2 (Z.ltb_ge (StreamRules.deadline (rules r) * 4) _)) by lia. cbn [orb].
    exact Hsame.
  - exact Hsame.
Qed.

(** What is ready fits: the whole stream would. *)
Lemma ready_len wire d r : winv wire st d r -> stop r = None -> next_off (track r) <= N ->
  len (ready r) <= next_off (track r).
Proof.
  intros Hr Hst Hn. destruct (i_ledger _ _ _ _ _ Hr) as [_ H]. pose proof (m_short Hroom).
  destruct H as (Hw & _ & _ & Hl); [unfold U64_MAX; lia|]. rewrite Hst in Hl. destruct (Hl eq_refl) as [El _].
  rewrite zlen_app, (content_zlen _ Hw) in El. pose proof (gap_bytes_nonneg _ Hw). pose proof (zlen_nonneg d). lia.
Qed.

Lemma append_fits bs r : stop r = None -> bs <> [] ->
  (forall cap, max_buffer r = Some cap -> len (ready r) + zlen bs <= cap) ->
  append_ready bs r = update_watermark (r <| ready ::= push_data bs |>).
Proof.
  intros Hst Hb Hc. unfold append_ready. rewrite Hst. apply is_nil_false in Hb as ->. cbn [is_some orb].
  cbv zeta. destruct (max_buffer r) as [cap|]; [|done].
  by rewrite (proj2 (Z.ltb_ge cap _) (Hc cap eq_refl)).
Qed.

(** Moving forward over delivered bytes. *)
Lemma advance_since o ts k : evidence_since k = None -> evidence_since (advance_to o ts k) = None.
Proof. intros H. unfold advance_to. repeat case_if; done. Qed.

Lemma advance_progress o ts k :
  last_progress (advance_to o ts k) = last_progress k \/ last_progress (advance_to o ts k) = ts.
Proof.
  unfold advance_to. case_if; [by left|]. case_if; cbn; destruct (TimestampFacts.max_cases (last_progress k) ts); auto.
Qed.

Lemma append_calm_frame bs r :
  stop r = None -> bs <> [] ->
  (forall cap, max_buffer r = Some cap -> len (ready r) + zlen bs <= cap) ->
  let r' := append_ready bs r in
  track r' = track r /\ ooo r' = ooo r /\ stop r' = None /\
  gap_bytes r' + bytes_dropped_oversize r' = gap_bytes r + bytes_dropped_oversize r.
Proof.
  intros Hst Hb Hc. cbv zeta. rewrite append_fits by done.
  destruct (update_watermark_core (r <| ready ::= push_data bs |>)) as (_ & -> & -> & -> & -> & -> & _).
  by split_and!.
Qed.

Lemma budget_fits wire d (bs : list Z) r e :
  winv wire st d r -> stop r = None -> next_off (track r) <= N -> e <= N ->
  zlen bs = e - next_off (track r) ->
  forall cap, max_buffer r = Some cap -> len (ready r) + zlen bs <= cap.
Proof.
  intros Hr Hst Hn He Hl cap Hc. pose proof (ready_len _ _ _ Hr Hst Hn).
  destruct (settings_rules _ _ _ Hr) as (_ & E & _). rewrite E in Hc.
  pose proof (m_buffer Hroom cap Hc). lia.
Qed.

(** ** Delivering *)

Lemma deliver_first_calm wire d got ts r :
  winv wire st d r -> calm got r -> T ts -> calm got (deliver_first ts r).1.
Proof.
  intros Hr K Ht. destruct (ooo r) as [o|] eqn:Ho.
  2: { unfold deliver_first. by rewrite Ho. }
  destruct (i_ooo _ _ _ _ _ Hr o Ho) as [Ha ([lo Hw] & Hne & _)].
  destruct (Ooo.pieces o) as [|[s q] ps] eqn:Ep; [done|].
  destruct (rest_spec lo o (s, q) ps Hw Ep) as (Er & Hw' & Hps & _ & Hsub).
  pose proof Hw as [W1 W2 _ _ _]. rewrite Ep in W1. destruct W1 as (_ & [Hq _] & _). cbn [fst snd] in Hq.
  unfold deliver_first. rewrite Ho, Ep. cbn [BTreeMap.first head].
  destruct (Z.ltb_spec (next_off (track r)) s); [done|].
  destruct K as [K1 K2 K3 K4 K5 K6 K7 K8 K9 K10 K11]. unfold held, held_runs in *. rewrite Ho in *.
  rewrite Ep in K8, K10.
  cbv zeta. change (o <| Ooo.pieces ::= _ |> <| Ooo.bytes ::= _ |> <| Ooo.capacity ::= _ |>
            <| Ooo.runs ::= _ |> <| Ooo.arrivals := 0 |>) with (rest_of o (s, q)).
  rewrite Er. set (e := s + Deque.len q). assert (piece_end (s, q) = e) as Ee by done. rewrite Ee in *.
  set (r1 := r <| ooo := if is_nil ps then None else Some (rest_of o (s, q)) |>).
  assert (forall x, s <= x < e -> 0 <= x < N) as Hin.
  { intros x Hx. destruct (at_piece_in (s, q) x) as [b Hb]; [unfold piece_end; cbn; lia|].
    apply (K8 x b). cbn. by rewrite Hb. }
  assert (byte_at (held r1) = byte_at ps /\ (forall x g, run_at (held_runs r1) x = Some g -> 0 <= x < N)) as [B1 B2].
  { unfold held, held_runs, r1. cbn. destruct ps as [|p' ps']; cbn [is_nil]; [done|].
    rewrite Er. split; [done|]. intros x g. cbn [Ooo.runs rest_of].
    destruct (cut_runs_spec lo s e (Ooo.runs o) W2) as [_ Hc]; [lia|].
    change (run_at (Ooo.cut_runs s e (Ooo.runs o)) x = Some g -> 0 <= x < N).
    rewrite Hc. case_if; [done|]. apply K9. }
  assert (forall x b, byte_at ps x = Some b -> 0 <= x < N) as B3 by (intros x b Hx; by eapply K8, Hsub).
  assert (forall x, got x -> x < Z.max (next_off (track r)) e \/ byte_at ps x <> None) as B4.
  { intros x Hx. destruct (K10 x Hx) as [Hl|Hb]; [left; lia|]. cbn in Hb.
    destruct (at_piece (s, q) x) eqn:E; [|by right]. apply at_piece_Some in E. cbn in E. left. unfold piece_end in E. cbn in E. lia. }
  assert (T (last_progress (track r))) as K6' by by apply K6.
  destruct (Z.ltb_spec (next_off (track r)) e); cbn [fst].
  2: { split; rewrite ?B1; try done. intros x Hx.
    destruct (B4 x Hx) as [Hl|Hb]; [left; cbn|by right]. lia. }
  set (bs := zdrop (next_off (track r) - s) (Deque.data q)).
  assert (zlen bs = e - next_off (track r)) as Hl by (unfold bs, e, Deque.len in *; zlia).
  assert (bs <> []) as Hbs by (intros E; rewrite E in Hl; unfold zlen in Hl; cbn in Hl; lia).
  rewrite append_ready_owned_eq by done.
  assert (0 <= e - 1 < N) as HeN by (apply Hin; lia).
  destruct (append_calm_frame bs (r1 <| track ::= advance_to e ts |>)) as (E1 & E2 & E3 & E4); [done|done| |].
  { exact (budget_fits wire d bs r e Hr K3 K7 ltac:(lia) Hl). }
  destruct (advance_same e ts (track r)) as (A1 & A2 & _).
  split; unfold held, held_runs; rewrite ?E1, ?E2, ?E4; cbn -[advance_to];
    rewrite ?advance_isn, ?advance_next_off, ?A1, ?A2; try done.
  - by apply advance_since.
  - intros _. by destruct (advance_progress e ts (track r)) as [->| ->].
  - lia.
  - intros x b. change (byte_at (held r1) x = Some b -> 0 <= x < N). rewrite B1. apply B3.
  - intros x Hx. change (x < Z.max (next_off (track r)) e \/ byte_at (held r1) x <> None). rewrite B1. by apply B4.
Qed.

Lemma deliver_all_calm wire d got ts r :
  winv wire st d r -> calm got r -> T ts ->
  winv wire st d (deliver_all ts r) /\ calm got (deliver_all ts r) /\ ahead (deliver_all ts r).
Proof.
  intros Hr K Ht. destruct (deliver_loop_spec wire st d ts (S (n_pieces r)) r Hr) as [[[H1 _] _] H2]; [lia|].
  fold (deliver_all ts r) in H1, H2. split_and!; [done| |exact H2]. clear H1 H2. unfold deliver_all.
  generalize (S (n_pieces r)). intros n. revert r Hr K. induction n as [|n IH]; intros r Hr K; [done|].
  cbn [deliver_loop]. pose proof (deliver_first_calm wire d got ts r Hr K Ht) as K'.
  destruct (deliver_first_cases wire st d ts r Hr) as [(r' & E & Hs & _)|[E _]]; rewrite E in *; [|done].
  apply IH; [by eapply settled_winv|done].
Qed.

(** ** Holding *)

Definition also (got : Z -> Prop) (a b : Z) (x : Z) : Prop := got x \/ a <= x < b.

Lemma absorb_calm wire d got start bs r :
  winv wire st d r -> calm got r -> T (last_progress (track r)) ->
  bs <> [] -> 0 <= start -> start + zlen bs <= N ->
  calm (also got start (start + zlen bs)) (absorb start bs r).
Proof.
  intros Hr K Ht Hne H0 HN. destruct (absorb_frame start bs r) as (E1 & E2 & E3 & E4 & E5 & _ & E7).
  apply zlen_pos in Hne.
  set (o := from_option id Ooo.default (ooo r)) in *.
  assert (Ooo.pieces o = held r /\ Ooo.runs o = held_runs r) as [P1 P2].
  { unfold o, held, held_runs. by destruct (ooo r). }
  assert (exists lo, lo < start /\ ooo_wf lo o) as (lo & Hlo & Hw).
  { unfold o. destruct (ooo r) as [o'|] eqn:Eo.
    - destruct (i_ooo _ _ _ _ _ Hr o' Eo) as [_ ([lo Hw] & _)]. exists (Z.min lo (start - 1)).
      split; [lia|]. eapply ooo_wf_weaken; [|done]. lia.
    - exists (start - 1). split; [lia|apply default_wf]. }
  pose proof (absorb_spec lo (overlap_policy r) (max_ooo_buffer r) start bs o Hne Hw Hlo) as H.
  destruct (Ooo.absorb _ _ start bs o) as [[o' ov] dv]. cbn [fst] in E7.
  destruct H as (_ & HB & HR & _). rewrite P1, P2 in *.
  assert (forall x, byte_at (Ooo.pieces o') x <> None <->
    byte_at (held r) x <> None \/ start <= x < start + zlen bs) as HI.
  { intros x. rewrite HB. unfold absorbed. destruct (inside start (start + zlen bs) x) eqn:Hin.
    - destruct (payload_in _ _ _ Hin) as [b ->]. unfold inside in Hin. zb. cbn [andb].
      destruct (byte_at (held r) x); [|cbn [is_none is_some negb orb]; intuition (done || lia)].
      cbn [is_none is_some negb orb]. destruct (wins _ _ _ _); intuition (done || lia).
    - unfold inside in Hin. zb. cbn [andb]. intuition lia. }
  destruct K as [K1 K2 K3 K4 K5 K6 K7 K8 K9 K10 K11].
  assert (held (absorb start bs r) = Ooo.pieces o') as EH by (unfold held; by rewrite E7).
  assert (held_runs (absorb start bs r) = Ooo.runs o') as ER by (unfold held_runs; by rewrite E7).
  split; rewrite ?EH, ?ER, ?E2, ?E3, ?E4, ?E5; try done.
  - intros x b Hx. destruct (proj1 (HI x)) as [Hb|Hb]; [congruence| |lia].
    destruct (byte_at (held r) x) eqn:E; [by apply (K8 x z)|done].
  - intros x g. rewrite HR. case_if; [|apply K9]. unfold inside in *. zb. lia.
  - intros x [Hx|Hx]; [destruct (K10 x Hx); [by left|]|]; right; apply HI; auto.
Qed.

(** Nothing is given up: all of the stream would fit. *)
Lemma enforce_calm wire d got ts r :
  winv wire st d r -> calm got r -> enforce_ooo_cap ts r = r.
Proof.
  intros Hr K. unfold enforce_ooo_cap. cbn [skip_while].
  assert (over_budget r = false) as ->; [|done]. unfold over_budget.
  destruct (ooo r) as [o|] eqn:Ho; [|by rewrite andb_false_r].
  destruct (i_ooo _ _ _ _ _ Hr o Ho) as [_ ([lo Hw] & _)]. cbn [is_some_and].
  rewrite (proj2 (Z.ltb_ge (max_ooo_buffer r) _)); [by rewrite andb_false_r|].
  destruct (settings_rules _ _ _ Hr) as (_ & _ & ->). pose proof (m_ooo Hroom).
  pose proof (k_bytes _ _ K) as K8. pose proof (k_runs _ _ K) as K9. unfold held, held_runs in *. rewrite Ho in *.
  pose proof (charged_bound N lo o Hw K8 K9 (zlen_nonneg data)). lia.
Qed.

Lemma core_winv wire d r r' : winv wire st d r -> same_core r r' -> winv wire st d r'.
Proof. intros Hr Hc. apply (same_core_settled wire st d r r' Hr Hc). Qed.

Lemma core_ahead r r' : same_core r r' -> ahead r -> ahead r'.
Proof. unfold ahead, first_start. by intros (_ & -> & -> & _). Qed.

Lemma feed_ooo_calm wire d got start next bs ts r :
  winv wire st d r -> calm got r -> T ts -> bytes_at (at_seq wire (isn (track r))) start bs ->
  bs <> [] -> 0 <= start -> start + zlen bs <= N ->
  calm (also got start (start + zlen bs)) (feed_ooo start next bs ts r) /\
  ahead (feed_ooo start next bs ts r).
Proof.
  intros Hr K Ht Hb Hne H0 HN. unfold feed_ooo. cbv zeta.
  set (r1 := if is_some (ooo r) then r else _).
  assert (winv wire st d r1 /\ calm got r1 /\ T (last_progress (track r1)) /\ isn (track r1) = isn (track r))
    as (W1 & K1 & T1 & I1).
  { unfold r1. destruct (ooo r) eqn:Ho; cbn [is_some].
    - split_and!; [done..| |done]. apply (k_time _ _ K). congruence.
    - split_and!; [by apply progress_moved| |done..]. destruct K. by split; try done. }
  clearbody r1.
  assert (winv wire st d (absorb start bs r1)) as W2.
  { apply absorb_moved; [done|apply (k_anchored _ _ K1)|apply (k_stop _ _ K1)|done|by rewrite I1]. }
  pose proof (absorb_calm wire d got start bs r1 W1 K1 T1 Hne H0 HN) as K2.
  set (r2 := absorb start bs r1) in *.
  set (r3 := if (start =? next) && is_some (ooo r) then _ else r2).
  assert (same_core r2 r3) as C3 by (unfold r3; case_if; by split_and!).
  pose proof (core_winv _ _ _ _ W2 C3) as W3. pose proof (calm_core _ _ _ K2 C3) as K3.
  destruct (deliver_all_calm wire d _ ts r3 W3 K3 Ht) as (W4 & K4 & A4). set (r4 := deliver_all ts r3) in *.
  rewrite (enforce_calm wire d _ ts r4 W4 K4). pose proof (update_watermark_core r4) as C5.
  rewrite (timers_idle wire d _ ts _ (core_winv _ _ _ _ W4 C5) (calm_core _ _ _ K4 C5) Ht).
  split; [by eapply calm_core|by eapply core_ahead].
Qed.

(** ** A segment *)

Lemma offset_exact k o : isn k = u32 i -> - 2 ^ 31 < o - next_off k < 2 ^ 31 ->
  offset_of k (u32 (i + o)) = o.
Proof.
  intros Hi Ho. pose proof (offset_of_seq k (u32 (i + o))) as E. rewrite Hi in E.
  assert (- 2 ^ 31 <= offset_of k (u32 (i + o)) - next_off k < 2 ^ 31) as Hr.
  { unfold offset_of. replace (next_off k + _ - next_off k) with (i32 (wsub32 (u32 (i + o)) (next_seq k))) by lia.
    apply i32_range. }
  set (x := offset_of k (u32 (i + o))) in *. clearbody x. unfold u32 in E.
  rewrite !Zplus_mod_idemp_l, Z.mod_mod in E by done.
  assert (((i + x) - (i + o)) mod 2 ^ 32 = 0) as E' by (rewrite Zminus_mod, E, Z.sub_diag; done).
  apply Z.mod_divide in E'; [|done]. destruct E' as [q E']. lia.
Qed.

(** A segment of the stream: [payload] is what lies at offset [o]. *)
Definition part (o : Z) (payload : list Z) : Prop :=
  0 <= o /\ o + zlen payload <= N /\
  forall j b, payload !! j = Some b -> data !! (Z.to_nat o + j)%nat = Some b.

Lemma part_wire o payload : part o payload -> seg_ok on_wire (u32 (i + o)) payload.
Proof.
  intros (H0 & HN & H) j b Hj. pose proof (lookup_lt_Some _ _ _ Hj). exists (o + Z.of_nat j).
  split_and!; [unfold zlen in *; lia|unfold zlen in *; lia| |].
  - by rewrite u32_add_l, Z.add_assoc.
  - rewrite Z2Nat.inj_add, Nat2Z.id by lia. by apply H.
Qed.

Lemma calm_more (got got' : Z -> Prop) r :
  (forall x, got' x -> got x \/ x < next_off (track r)) -> calm got r -> calm got' r.
Proof.
  intros H [K1 K2 K3 K4 K5 K6 K7 K8 K9 K10 K11]. split; try done.
  intros x [Hx|Hx]%H; [by apply K10|by left].
Qed.

Lemma ahead_none r : ooo r = None -> ahead r.
Proof. unfold ahead, first_start. by intros ->. Qed.

(** Data at the head of the stream, with nothing held. *)
Lemma append_calm d got bs ts r :
  winv on_wire st d r -> calm got r -> ooo r = None -> bs <> [] -> T ts ->
  next_off (track r) + zlen bs <= N ->
  bytes_at (at_seq on_wire (isn (track r))) (next_off (track r)) bs ->
  let e := next_off (track r) + zlen bs in
  let r1 := r <| track ::= advance_to e ts |> in
  calm (also got (next_off (track r)) e) r1 /\ ahead r1 /\
  let r' := check_timers ts (append_ready bs r1) in
  calm (also got (next_off (track r)) e) r' /\ ahead r'.
Proof.
  intros Hr K Ho Hne Ht HN Hb e r1. pose proof (k_stop _ _ K) as Hst.
  pose proof (zlen_pos bs Hne) as Hpos.
  pose proof (budget_fits on_wire d bs r e Hr Hst (k_next _ _ K) HN ltac:(unfold e; lia)) as Hfit.
  destruct (append_calm_frame bs r1 Hst Hne Hfit) as (E1 & E2 & E3 & E4).
  pose proof (advance_winv on_wire st d (next_off (track r)) r e ts Hr (k_anchored _ _ K)) as Hr1. fold r1 in Hr1.
  assert (next_off (track r1) = e) as En by (unfold r1, e; cbn -[advance_to]; rewrite advance_next_off; lia).
  assert (winv on_wire st d (append_ready bs r1)) as Hr2.
  { unfold winv. rewrite E1, En. apply append_ready_winv; [done|].
    unfold r1. cbn -[advance_to]. by rewrite advance_isn. }
  destruct (advance_same e ts (track r)) as (A1 & A2 & _).
  assert (forall r', track r' = track r1 -> ooo r' = ooo r1 -> stop r' = None ->
    gap_bytes r' + bytes_dropped_oversize r' = gap_bytes r + bytes_dropped_oversize r ->
    calm (also got (next_off (track r)) e) r' /\ ahead r') as Hk.
  { intros r' F1 F2 F3 F4. change (ooo r1) with (ooo r) in F2. rewrite Ho in F2.
    split; [|by apply ahead_none]. destruct K as [K1 K2 K3 K4 K5 K6 K7 K8 K9 K10 K11].
    unfold held, held_runs in *. rewrite Ho in *.
    split; unfold held, held_runs; rewrite ?F2, ?F1, ?F3, ?F4, ?En; try done.
    - unfold r1. cbn -[advance_to]. by rewrite A1.
    - unfold r1. cbn -[advance_to]. by rewrite advance_isn.
    - unfold r1. cbn -[advance_to]. by rewrite A2.
    - unfold r1. cbn -[advance_to]. by apply advance_since.
    - intros x [Hx|Hx]; left; [destruct (K10 x Hx); [unfold e; lia|done]|lia]. }
  destruct (Hk r1 eq_refl eq_refl Hst eq_refl) as [Hk1 Ha1].
  destruct (Hk (append_ready bs r1) E1 E2 E3 E4) as [Hk2 Ha2].
  split_and!; [done|done|..]; cbv zeta; by rewrite (timers_idle on_wire d _ ts _ Hr2 Hk2 Ht).
Qed.

Lemma note_core n r : same_core r (note_passthrough n r).
Proof. rewrite seg_note_passthrough_same. by split_and!. Qed.

Lemma feed_calm n d got o payload ts pass r :
  inv on_wire st d r -> calm got r -> ahead r -> T ts -> part o payload ->
  let r' := (feed_fuel (S n) (u32 (i + o)) payload ts pass r).1 in
  calm (also got o (o + zlen payload)) r' /\ ahead r'.
Proof.
  intros [Hr _] K Ha Ht Hp. pose proof (part_wire _ _ Hp) as Hw. destruct Hp as (H0 & HN & _).
  cbn [feed_fuel]. rewrite (k_stop _ _ K). cbn [is_some orb].
  destruct (is_nil payload) eqn:Hnil.
  { cbn [fst]. split; [|done]. eapply calm_more; [|exact K]. intros x [Hx|Hx]; [by left|].
    destruct payload; [|done]. unfold zlen in Hx. cbn in Hx. lia. }
  apply is_nil_false in Hnil. pose proof (zlen_pos payload Hnil) as Hpos.
  assert (r <| track ::= anchor (u32 (i + o)) ts |> = r) as ->.
  { pose proof (k_anchored _ _ K) as E. unfold anchor. destruct r, track0. cbn in *. by subst. }
  pose proof (ok_pos _ _ (i_track _ _ _ _ _ Hr)) as Hn0. pose proof (k_next _ _ K) as HnN.
  pose proof (m_short Hroom) as Hshort. destruct (m_window Hroom) as [Hwin HwinU].
  destruct (settings_rules _ _ _ Hr) as (Er & _).
  pose proof (seg_ok_at on_wire (track r) _ _ Hw) as Hb.
  assert (offset_of (track r) (u32 (i + o)) = o) as Eo by (apply offset_exact; [apply K|lia]).
  rewrite Eo in *. cbv zeta. rewrite Er.
  rewrite i64_small by lia. set (m := StreamRules.max_ahead (rules r0)) in *.
  rewrite (proj2 (Z.ltb_ge m _)) by lia. destruct (Z.leb_spec (o + zlen payload) (next_off (track r))).
  { rewrite (proj2 (Z.ltb_ge (o + zlen payload) _)) by lia. cbn [fst].
    set (r2 := if _ && _ then _ else _). assert (same_core r r2) as C by (unfold r2; case_if; by split_and!).
    rewrite (timers_idle on_wire d got ts r2 (core_winv _ _ _ _ Hr C) (calm_core _ _ _ K C) Ht).
    split; [|by eapply core_ahead]. eapply calm_more; [|by eapply calm_core].
    destruct C as (_ & -> & _). intros x [Hx|Hx]; [by left|right; lia]. }
  destruct (if o <? next_off (track r) then _ else _) as [r2 k] eqn:Hk.
  destruct (head_trim _ _ _ _ _ Hk) as [-> C]. clear Hk.
  pose proof (core_winv _ _ _ _ Hr C) as W2. pose proof (calm_core _ _ _ K C) as K2.
  destruct C as (_ & Etr & _). rewrite <- Etr in *. set (next := next_off (track r2)) in *.
  set (bs := zdrop (Z.max 0 (next - o)) payload).
  assert (zlen bs = o + zlen payload - Z.max o next) as Hl by (unfold bs; zlia).
  assert (bs <> []) as Hbs by (intros E; rewrite E in Hl; unfold zlen at 1 in Hl; cbn in Hl; lia).
  assert (bytes_at (at_seq on_wire (isn (track r2))) (Z.max o next) bs) as Hb2.
  { replace (Z.max o next) with (o + Z.max 0 (next - o)) by lia. by apply bytes_at_zdrop; [lia|]. }
  set (got2 := also got o next).
  assert (calm got2 r2) as K3 by (eapply calm_more; [|exact K2]; unfold got2, also; fold next; intuition lia).
  assert (forall r', calm (also got2 (Z.max o next) (o + zlen payload)) r' ->
    calm (also got o (o + zlen payload)) r') as Hmore.
  { intros r'. apply calm_more. unfold got2, also. intros x [Hx|Hx]; [auto|left].
    destruct (Z.le_gt_cases next x); [right; lia|left; right; lia]. }
  destruct (is_none (ooo r2) && (Z.max o next =? next)) eqn:Hhead.
  - apply andb_true_iff in Hhead as [Ho Hon]. apply Z.eqb_eq in Hon. rewrite Hon in *.
    assert (ooo r2 = None) as Ho2 by (by destruct (ooo r2)).
    destruct (append_calm d got2 bs ts r2 W2 K3 Ho2 Hbs Ht ltac:(fold next; lia) Hb2) as (Q1 & Q2 & Q3 & Q4).
    fold next in Q1, Q2, Q3, Q4. replace (next + zlen bs) with (o + zlen payload) in * by lia.
    set (r3 := r2 <| track ::= _ |>) in *. pose proof (note_core (zlen bs) r3) as C3.
    case_if; cbn [fst]; (split; [apply Hmore|]).
    + exact (calm_core _ _ _ Q1 C3).
    + exact (core_ahead _ _ C3 Q2).
    + exact Q3.
    + exact Q4.
  - cbn [fst]. destruct (feed_ooo_calm on_wire d got2 (Z.max o next) next bs ts r2) as [Q1 Q2]; try done; [lia|lia|].
    split; [|done]. apply Hmore. by replace (o + zlen payload) with (Z.max o next + zlen bs) by lia.
Qed.

(** ** Sessions *)

(** Segments of the stream at packet times in [T], and drains. *)
Definition stream_event (e : Event) : Prop :=
  match e with
  | Segment s p t | SegmentInto s p t => exists o, part o p /\ s = u32 (i + o) /\ T t
  | Drain => True
  | _ => False
  end.
Definition arrived (x : Z) (e : Event) : Prop :=
  match e with
  | Segment s p _ | SegmentInto s p _ => exists o, part o p /\ s = u32 (i + o) /\ o <= x < o + zlen p
  | _ => False
  end.

Lemma place_unique o o' : u32 (i + o) = u32 (i + o') -> 0 <= o < N -> 0 <= o' < N -> o = o'.
Proof.
  intros E Ho Ho'. pose proof (m_short Hroom). unfold u32 in E.
  assert (((i + o) - (i + o')) mod 2 ^ 32 = 0) as E' by (rewrite Zminus_mod, E, Z.sub_diag; done).
  apply Z.mod_divide in E'; [|done]. destruct E' as [q E']. lia.
Qed.

Lemma stream_event_ok e : stream_event e -> event_ok on_wire e.
Proof. destruct e; cbn; try done; intros (o & Hp & -> & _); by apply part_wire. Qed.

Lemma event_calm d got r e :
  stream_event e -> inv on_wire st d r -> calm got r -> ahead r ->
  calm (fun x => got x \/ arrived x e) (deliver r e).1 /\ ahead (deliver r e).1.
Proof.
  intros He Hr K Ha.
  assert (forall s p t pass, (exists o, part o p /\ s = u32 (i + o) /\ T t) ->
    let r' := (feed s p t pass r).1 in
    calm (fun x => got x \/ exists o, part o p /\ s = u32 (i + o) /\ o <= x < o + zlen p) r' /\ ahead r') as Hf.
  { intros s p t pass (o & Hp & -> & Ht). destruct (feed_calm 2 d got o p t pass r Hr K Ha Ht Hp) as [Q1 Q2].
    split; [|exact Q2]. eapply calm_more; [|exact Q1]. unfold also. intros x [Hx|(o' & Hp' & E & Hx)]; [auto|].
    left. right. destruct Hp as (? & ? & _), Hp' as (? & ? & _). by rewrite (place_unique o o' E) by lia. }
  destruct e; try done.
  - exact (Hf _ _ _ false He).
  - pose proof (Hf _ _ _ true He) as H. cbn. unfold segment_into. by destruct (feed _ _ _ _ _).
  - cbn. split; [|exact Ha]. eapply calm_more; [|by destruct K as [K1 K2 K3 K4 K5 K6 K7 K8 K9 K10 K11]].
    cbn. intros x [Hx|[]]. by left.
Qed.

Lemma run_calm es : forall d got r, Forall stream_event es -> inv on_wire st d r -> calm got r -> ahead r ->
  calm (fun x => got x \/ Exists (arrived x) es) (run r es).1 /\ ahead (run r es).1.
Proof.
  induction es as [|e es IH]; intros d got r He Hr K Ha.
  { split; [|done]. eapply calm_more; [|exact K]. intros x [Hx|Hx]; [by left|by apply Exists_nil in Hx]. }
  inversion He as [|? ? He1 He2]; subst. rewrite run_cons. cbn [fst].
  destruct (event_calm d got r e He1 Hr K Ha) as [K' Ha'].
  pose proof (seg_deliver_inv on_wire st d r e (stream_event_ok e He1) Hr) as Hr'.
  destruct (IH _ _ _ He2 Hr' K' Ha') as [Q1 Q2]. split; [|exact Q2]. eapply calm_more; [|exact Q1].
  intros x [Hx|[Hx|Hx]%Exists_cons]; auto.
Qed.

(** The whole stream has been delivered once every byte arrived. *)
Lemma calm_done r : calm (fun x => 0 <= x < N) r -> ahead r -> 0 <= next_off (track r) ->
  (forall o, ooo r = Some o -> exists lo, ooo_wf lo o) -> next_off (track r) = N.
Proof.
  intros K Ha H0 Hw. pose proof (k_next _ _ K) as HN.
  destruct (Z.eq_dec (next_off (track r)) N) as [|Hne]; [done|].
  destruct (k_got _ _ K (next_off (track r))) as [?|Hb]; [lia|lia|].
  unfold held, ahead, first_start, Ooo.first_start in *. destruct (ooo r) as [o|]; [|done].
  destruct (Hw o eq_refl) as [lo [W _ _ _ _]]. cbn in Ha. destruct (Ooo.pieces o) as [|p ps]; [done|].
  destruct (byte_at (p :: ps) (next_off (track r))) as [b|] eqn:E; [|done].
  apply byte_at_Some in E as (q & Hq & Hx). specialize (Ha p.1 eq_refl).
  apply elem_of_cons in Hq as [->|Hq]; [lia|]. destruct W as (_ & _ & W).
  destruct (pieces_wf_elem _ _ _ W Hq). unfold piece_end in *. pose proof (zlen_nonneg (Deque.data p.2)).
  unfold Deque.len in *. lia.
Qed.
End stream.

Lemma cells_exact (data : list Z) (d : list (option Z)) : zlen d = zlen data -> n_missing d = 0 ->
  (forall j b, d !! j = Some (Some b) -> data !! j = Some b) -> d = data_cells data.
Proof.
  intros Hl Hm Hd. apply list_eq. intros j. unfold data_cells. rewrite list_lookup_fmap.
  unfold zlen in Hl. destruct (d !! j) as [[b|]|] eqn:E.
  - by rewrite (Hd j b E).
  - exfalso. apply list_elem_of_lookup_2 in E. assert (None ∈ filter (eq None) d) as H by by apply list_elem_of_filter.
    unfold n_missing, zlen in Hm. destruct (filter (eq None) d); [by apply not_elem_of_nil in H|cbn in Hm; lia].
  - apply lookup_ge_None in E. rewrite (proj2 (lookup_ge_None data j)) by lia. done.
Qed.

(** ** Properties *)

(** C1: whatever the order, the repetitions and the overlaps in which
    the segments of a stream arrive, and whenever the consumer drains, the
    reassembler hands out exactly the bytes of the stream, in order, once
    every byte has arrived: nothing is given up while packet times stay
    within the reorder deadline of one another, the acceptance window
    covers the stream and the budgets have room for it. *)
Theorem segment_reconstructs_stream data i T r0 es :
  fresh r0 -> roomy data T r0 -> Forall (stream_event data i T) es ->
  (forall x, 0 <= x < zlen data -> Exists (arrived data i x) es) ->
  (run r0 (SetOrigin i :: es ++ [Drain])).2 = data_cells data.
Proof.
  intros Hf Hroom He Hall. pose proof (seg_fresh_inv (on_wire data i) r0 Hf) as H0.
  pose proof (seg_deliver_inv _ _ _ r0 (SetOrigin i) I H0) as H1. rewrite run_cons. cbn [deliver fst snd app] in *.
  set (r1 := Reassembler.set_origin i r0) in *. destruct Hf as (E1 & E2 & E3 & E4 & E5 & E6 & E7).
  assert (track r1 = anchor i Timestamp.default (track r0)) as Et by done. rewrite E2 in Et.
  assert (calm data i T (fun _ => False) r1) as K1.
  { split; unfold held, held_runs; rewrite ?Et; change (ooo r1) with (ooo r0); rewrite ?E3; try done.
    - unfold isn. cbn. by rewrite Z.sub_0_r.
    - apply zlen_nonneg.
    - change (gap_bytes r0 + bytes_dropped_oversize r0 = 0). lia. }
  destruct (run_calm data i T r0 Hroom es _ _ r1 He H1 K1 (ahead_none r1 E3)) as [K Ha].
  assert (Forall (event_ok (on_wire data i)) es) as Hok by (eapply Forall_impl; [exact He|apply stream_event_ok]).
  pose proof (seg_run_inv _ _ es [] r1 Hok H1) as [Hw _].
  apply (calm_more data i T _ (fun x => 0 <= x < zlen data)) in K; [|intros x Hx; left; right; by apply Hall].
  pose proof (ok_pos _ _ (i_track _ _ _ _ _ Hw)) as Hn0.
  assert (next_off (track (run r1 es).1) = zlen data) as Hn.
  { apply (calm_done data i T _ K Ha Hn0). intros o Ho. by destruct (i_ooo _ _ _ _ _ Hw o Ho) as [_ [? _]]. }
  pose proof (m_short _ _ _ Hroom) as Hs.
  assert (sound (on_wire data i) [] r1) as Hsound by by exists (settings r0).
  assert (position (run r1 es).1 <= U64_MAX) as Hp by (change (next_off (track (run r1 es).1) <= U64_MAX); rewrite Hn; unfold U64_MAX; lia).
  destruct (run_drained _ r1 es Hsound Hok Hp (k_stop _ _ _ _ _ K)) as [Hlen Hmiss].
  assert (position (run r1 (es ++ [Drain])).1 <= U64_MAX) as Hp'.
  { rewrite run_app. exact Hp. }
  destruct (run_prefix (on_wire data i) r1 (es ++ [Drain]) Hsound) as [Hc _]; [apply Forall_app; split; [done|by repeat constructor]|done|].
  cbn zeta in Hmiss, Hlen. set (d := (run r1 (es ++ [Drain])).2) in *.
  assert (zlen d = zlen data) as Hld by (etrans; [exact Hlen|exact Hn]).
  apply cells_exact; [exact Hld| |].
  - rewrite Hmiss. exact (k_lost _ _ _ _ _ K).
  - intros j b Hj. pose proof (lookup_lt_Some _ _ _ Hj). destruct (Hc j b Hj) as (o & Ho & Eo & Hb).
    assert (origin (run r1 (es ++ [Drain])).1 = u32 i) as Ei by (rewrite run_app; exact (k_isn _ _ _ _ _ K)).
    rewrite Ei, Z.add_0_l, u32_add_l in Eo.
    apply (place_unique data i T r0 Hroom) in Eo; [|unfold zlen in *; lia|done]. subst o. by rewrite Nat2Z.id in Hb.
Qed.

Lemma part_app pre payload post : part (pre ++ payload ++ post) (zlen pre) payload.
Proof.
  split_and!; [apply zlen_nonneg|pose proof (zlen_nonneg post); zlia|]. intros j b Hj. unfold zlen. rewrite Nat2Z.id.
  rewrite lookup_app_r by lia. rewrite Nat.add_comm, Nat.add_sub. by apply lookup_app_l_Some.
Qed.

Definition stream_demo : list Z := [10; 11; 12; 13; 14; 15; 16; 17].
Definition stream_demo_origin : Z := 2 ^ 32 - 4.
Definition stream_demo_at (t : Timestamp.t) : Prop := t = Timestamp.mk 7 0 \/ t = Timestamp.mk 7 500.
Definition stream_demo_events : list Event :=
  [SegmentInto 2 [16; 17] (Timestamp.mk 7 500); Segment (2 ^ 32 - 2) [12; 13; 14] (Timestamp.mk 7 0);
   Drain; SegmentInto (2 ^ 32 - 4) [10; 11; 12] (Timestamp.mk 7 500);
   Segment (2 ^ 32 - 1) [13; 14; 15] (Timestamp.mk 7 0)].

Lemma segment_reconstructs_stream_witness :
  (run new (SetOrigin stream_demo_origin :: stream_demo_events ++ [Drain])).2 = data_cells stream_demo.
Proof.
  apply (segment_reconstructs_stream stream_demo stream_demo_origin stream_demo_at new stream_demo_events).
  - repeat split. intros cap [=].
  - split; [vm_compute; done|vm_compute; done| |vm_compute; done|intros cap [=]|vm_compute; done].
    intros a b [->| ->] [->| ->]; vm_compute; done.
  - repeat (apply Forall_cons; split); [exists 6|exists 2|exact I|exists 0|exists 3|by apply Forall_nil];
      (split; [|split; [vm_compute; reflexivity|unfold stream_demo_at; auto]]).
    + exact (part_app [10; 11; 12; 13; 14; 15] [16; 17] []).
    + exact (part_app [10; 11] [12; 13; 14] [15; 16; 17]).
    + exact (part_app [] [10; 11; 12] [13; 14; 15; 16; 17]).
    + exact (part_app [10; 11; 12] [13; 14; 15] [16; 17]).
  - intros x Hx. assert (0 <= x < 3 \/ 2 <= x < 5 \/ 3 <= x < 6 \/ 6 <= x < 8) as Hc
      by (unfold zlen in Hx; cbn in Hx; lia).
    clear Hx. unfold stream_demo_events. rewrite !Exists_cons.
    destruct Hc as [Hc|[Hc|[Hc|Hc]]]; [do 3 right; left; exists 0|right; left; exists 2|do 4 right; left; exists 3|left; exists 6];
      (split; [|split; [vm_compute; reflexivity|unfold zlen; cbn; lia]]).
    + exact (part_app [] [10; 11; 12] [13; 14; 15; 16; 17]).
    + exact (part_app [10; 11] [12; 13; 14] [15; 16; 17]).
    + exact (part_app [10; 11; 12] [13; 14; 15] [16; 17]).
    + exact (part_app [10; 11; 12; 13; 14; 15] [16; 17] []).
Defined.
