(* ===== verification/Http2Error.v ===== *)
(** * HTTP/2 errors (src/src/http2/error.rs)

    Why the parser gave up on a connection. *)

From Stdlib Require Import String.
From S2P Require Import Prelude.

Module Http2Error.
Inductive t :=
  | BadPreface
  | FrameTooLarge
  | MalformedFrame
  | InterleavedContinuation
  | UnexpectedContinuation
  | HeaderListTooLong
  | TooManyStreams
  | BufferOverflow
  | HpackInvalidIndex
  | HpackTruncated
  | HpackIntegerOverflow
  | HpackTableSizeExceeded
  | HuffmanInvalid
  | InvalidHeaderField
  | InvalidStreamId.
#[global] Instance eq_dec : EqDecision t.
Proof. solve_decision. Defined.

Definition as_str (e : t) : string :=
  match e with
  | BadPreface => "bad-preface"
  | FrameTooLarge => "frame-too-large"
  | MalformedFrame => "malformed-frame"
  | InterleavedContinuation => "interleaved-continuation"
  | UnexpectedContinuation => "unexpected-continuation"
  | HeaderListTooLong => "header-list-too-long"
  | TooManyStreams => "too-many-streams"
  | BufferOverflow => "buffer-overflow"
  | HpackInvalidIndex => "hpack-invalid-index"
  | HpackTruncated => "hpack-truncated"
  | HpackIntegerOverflow => "hpack-integer-overflow"
  | HpackTableSizeExceeded => "hpack-table-size-exceeded"
  | HuffmanInvalid => "huffman-invalid"
  | InvalidHeaderField => "invalid-header-field"
  | InvalidStreamId => "invalid-stream-id"
  end%string.
End Http2Error.
