(* ===== verification/Huffman.v ===== *)
(** * HPACK Huffman coding (src/src/http2/huffman.rs)

    [decode] matches the code table a bit at a time; [encode_into]
    shifts codes through a 64-bit accumulator.  The theorems say that each
    undoes the other and that no two inputs decode to the same string. *)

From S2P Require Import Prelude Http2Error.

Module Huffman.
(** Code and bit length per symbol; the last is the end-of-string mark. *)
Definition CODES : list (Z * Z) := [
  (8184, 13); (8388568, 23); (268435426, 28); (268435427, 28); (268435428, 28);
  (268435429, 28); (268435430, 28); (268435431, 28); (268435432, 28); (16777194, 24);
  (1073741820, 30); (268435433, 28); (268435434, 28); (1073741821, 30); (268435435, 28);
  (268435436, 28); (268435437, 28); (268435438, 28); (268435439, 28); (268435440, 28);
  (268435441, 28); (268435442, 28); (1073741822, 30); (268435443, 28); (268435444, 28);
  (268435445, 28); (268435446, 28); (268435447, 28); (268435448, 28); (268435449, 28);
  (268435450, 28); (268435451, 28); (20, 6); (1016, 10); (1017, 10); (4090, 12); (8185, 13);
  (21, 6); (248, 8); (2042, 11); (1018, 10); (1019, 10); (249, 8); (2043, 11); (250, 8);
  (22, 6); (23, 6); (24, 6); (0, 5); (1, 5); (2, 5); (25, 6); (26, 6); (27, 6); (28, 6);
  (29, 6); (30, 6); (31, 6); (92, 7); (251, 8); (32764, 15); (32, 6); (4091, 12); (1020, 10);
  (8186, 13); (33, 6); (93, 7); (94, 7); (95, 7); (96, 7); (97, 7); (98, 7); (99, 7); (100, 7);
  (101, 7); (102, 7); (103, 7); (104, 7); (105, 7); (106, 7); (107, 7); (108, 7); (109, 7);
  (110, 7); (111, 7); (112, 7); (113, 7); (114, 7); (252, 8); (115, 7); (253, 8); (8187, 13);
  (524272, 19); (8188, 13); (16380, 14); (34, 6); (32765, 15); (3, 5); (35, 6); (4, 5);
  (36, 6); (5, 5); (37, 6); (38, 6); (39, 6); (6, 5); (116, 7); (117, 7); (40, 6); (41, 6);
  (42, 6); (7, 5); (43, 6); (118, 7); (44, 6); (8, 5); (9, 5); (45, 6); (119, 7); (120, 7);
  (121, 7); (122, 7); (123, 7); (32766, 15); (2044, 11); (16381, 14); (8189, 13);
  (268435452, 28); (1048550, 20); (4194258, 22); (1048551, 20); (1048552, 20); (4194259, 22);
  (4194260, 22); (4194261, 22); (8388569, 23); (4194262, 22); (8388570, 23); (8388571, 23);
  (8388572, 23); (8388573, 23); (8388574, 23); (16777195, 24); (8388575, 23); (16777196, 24);
  (16777197, 24); (4194263, 22); (8388576, 23); (16777198, 24); (8388577, 23); (8388578, 23);
  (8388579, 23); (8388580, 23); (2097116, 21); (4194264, 22); (8388581, 23); (4194265, 22);
  (8388582, 23); (8388583, 23); (16777199, 24); (4194266, 22); (2097117, 21); (1048553, 20);
  (4194267, 22); (4194268, 22); (8388584, 23); (8388585, 23); (2097118, 21); (8388586, 23);
  (4194269, 22); (4194270, 22); (16777200, 24); (2097119, 21); (4194271, 22); (8388587, 23);
  (8388588, 23); (2097120, 21); (2097121, 21); (4194272, 22); (2097122, 21); (8388589, 23);
  (4194273, 22); (8388590, 23); (8388591, 23); (1048554, 20); (4194274, 22); (4194275, 22);
  (4194276, 22); (8388592, 23); (4194277, 22); (4194278, 22); (8388593, 23); (67108832, 26);
  (67108833, 26); (1048555, 20); (524273, 19); (4194279, 22); (8388594, 23); (4194280, 22);
  (33554412, 25); (67108834, 26); (67108835, 26); (67108836, 26); (134217694, 27);
  (134217695, 27); (67108837, 26); (16777201, 24); (33554413, 25); (524274, 19); (2097123, 21);
  (67108838, 26); (134217696, 27); (134217697, 27); (67108839, 26); (134217698, 27);
  (16777202, 24); (2097124, 21); (2097125, 21); (67108840, 26); (67108841, 26);
  (268435453, 28); (134217699, 27); (134217700, 27); (134217701, 27); (1048556, 20);
  (16777203, 24); (1048557, 20); (2097126, 21); (4194281, 22); (2097127, 21); (2097128, 21);
  (8388595, 23); (4194282, 22); (4194283, 22); (33554414, 25); (33554415, 25); (16777204, 24);
  (16777205, 24); (67108842, 26); (8388596, 23); (67108843, 26); (134217702, 27);
  (67108844, 26); (67108845, 26); (134217703, 27); (134217704, 27); (134217705, 27);
  (134217706, 27); (134217707, 27); (268435454, 28); (134217708, 27); (134217709, 27);
  (134217710, 27); (134217711, 27); (134217712, 27); (67108846, 26); (1073741823, 30)].
Definition EOS : Z := 256.

(** [CODES.iter().position(|&(c, l)| l == len && c == code)]. *)
Fixpoint position (i : Z) (codes : list (Z * Z)) (code len : Z) : option Z :=
  match codes with
  | [] => None
  | (c, l) :: codes => if (l =? len) && (c =? code) then Some i else position (i + 1) codes code len
  end.
Definition lookup (code len : Z) : option Z := position 0 CODES code len.

(** The output so far, the partial code and how many bits it holds. *)
Definition State : Type := list Z * Z * Z.

Definition push_bit (st : State) (bit : Z) : result Http2Error.t State :=
  let '(out, code, len) := st in
  let code := Z.lor (u32 (Z.shiftl code 1)) bit in
  let len := len + 1 in
  if 30 <? len then Err Http2Error.HuffmanInvalid
  else
    match lookup code len with
    | Some sym =>
        if sym =? EOS then Err Http2Error.HuffmanInvalid else Ok (out ++ [u8 sym], 0, 0)
    | None => Ok (out, code, len)
    end.

Definition push_byte (st : State) (byte : Z) : result Http2Error.t State :=
  rfold (fun st bit => push_bit st (Z.land (Z.shiftr byte bit) 1)) st [7; 6; 5; 4; 3; 2; 1; 0].

Definition decode (input : list Z) : result Http2Error.t (list Z) :=
  let? (out, code, len) := rfold push_byte ([], 0, 0) input in
  if 7 <? len then Err Http2Error.HuffmanInvalid
  else if (0 <? len) && negb (code =? Z.shiftl 1 len - 1) then Err Http2Error.HuffmanInvalid
  else Ok out.

(** [CODES[b as usize]]. *)
Definition code_of (b : Z) : Z * Z := nth (Z.to_nat b) CODES (0, 0).

Definition encoded_len (input : list Z) : Z :=
  (foldr Z.add 0 ((fun b => (code_of b).2) <$> input) + 7) / 8.

(** [while bits >= 8 { bits -= 8; out.push((acc >> bits) as u8) }]: one
    round per whole byte. *)
Fixpoint flush (fuel : nat) (acc : Z) (out : list Z) (bits : Z) : list Z * Z :=
  match fuel with
  | O => (out, bits)
  | S fuel =>
      if 8 <=? bits then flush fuel acc (out ++ [u8 (Z.shiftr acc (bits - 8))]) (bits - 8)
      else (out, bits)
  end.

Definition put (st : list Z * Z * Z) (b : Z) : list Z * Z * Z :=
  let '(out, acc, bits) := st in
  let '(code, len) := code_of b in
  let acc := Z.lor (u64 (Z.shiftl acc len)) code in
  let bits := bits + len in
  let '(out, bits) := flush (S (Z.to_nat (bits / 8))) acc out bits in
  (out, acc, bits).

Definition encode_into (out input : list Z) : list Z :=
  let '(out, acc, bits) := fold_left put input (out, 0, 0) in
  if 0 <? bits then
    let pad := 8 - bits in
    out ++ [u8 (Z.lor (u64 (Z.shiftl acc pad)) (Z.shiftl 1 pad - 1))]
  else out.

End Huffman.

(** ** Bit strings *)

Module Bits.
(** The low [n] bits of [v], most significant first. *)
Fixpoint bits_of (n : nat) (v : Z) : list bool :=
  match n with O => [] | S n => Z.testbit v (Z.of_nat n) :: bits_of n v end.

Lemma length_bits_of n v : length (bits_of n v) = n.
Proof. induction n; cbn; congruence. Qed.

Lemma bits_of_ext n v w :
  (forall i, 0 <= i < Z.of_nat n -> Z.testbit v i = Z.testbit w i) -> bits_of n v = bits_of n w.
Proof.
  induction n as [|n IH]; intros H; cbn; [done|]. rewrite (H (Z.of_nat n)) by lia.
  f_equal. apply IH. intros i Hi. apply H. lia.
Qed.

Lemma bits_of_add n m v : bits_of (n + m) v = bits_of n (Z.shiftr v (Z.of_nat m)) ++ bits_of m v.
Proof.
  induction n as [|n IH]; cbn; [done|]. rewrite IH. f_equal.
  rewrite Z.shiftr_spec by lia. f_equal. lia.
Qed.

Lemma bits_of_mod n k v : Z.of_nat n <= k -> bits_of n (v mod 2 ^ k) = bits_of n v.
Proof. intros H. apply bits_of_ext. intros i Hi. rewrite Z.mod_pow2_bits_low; [done|lia]. Qed.

Lemma bits_of_inj n v w : 0 <= v < 2 ^ Z.of_nat n -> 0 <= w < 2 ^ Z.of_nat n ->
  bits_of n v = bits_of n w -> v = w.
Proof.
  intros Hv Hw H. assert (forall i, 0 <= i < Z.of_nat n -> Z.testbit v i = Z.testbit w i) as Hi.
  { clear Hv Hw. induction n as [|n IH]; intros i Hi; [lia|]. cbn in H. injection H as H0 H.
    destruct (Z.eq_dec i (Z.of_nat n)) as [->|]; [done|]. apply IH; [done|lia]. }
  rewrite <- (Z.mod_small v _ Hv), <- (Z.mod_small w _ Hw). apply Z.bits_inj'. intros i H0.
  destruct (Z.lt_ge_cases i (Z.of_nat n)).
  - rewrite !Z.mod_pow2_bits_low by lia. apply Hi. lia.
  - rewrite !Z.mod_pow2_bits_high by lia. done.
Qed.

(** Shifting [m] bits in at the bottom. *)
Lemma bits_of_shift n m v c : 0 <= c < 2 ^ Z.of_nat m ->
  bits_of (n + m) (Z.lor (Z.shiftl v (Z.of_nat m)) c) = bits_of n v ++ bits_of m c.
Proof.
  intros Hc. rewrite bits_of_add. f_equal; apply bits_of_ext; intros i Hi.
  - rewrite Z.shiftr_spec, Z.lor_spec, Z.shiftl_spec by lia.
    replace (i + Z.of_nat m - Z.of_nat m) with i by lia.
    rewrite <- (Z.mod_small c _ Hc), Z.mod_pow2_bits_high by lia. apply orb_false_r.
  - rewrite Z.lor_spec, Z.shiftl_spec_low by lia. done.
Qed.

Definition byte_bits (bs : list Z) : list bool := concat (bits_of 8 <$> bs).

Lemma byte_bits_app a b : byte_bits (a ++ b) = byte_bits a ++ byte_bits b.
Proof. unfold byte_bits. by rewrite fmap_app, concat_app. Qed.
Lemma byte_bits_one b : byte_bits [b] = bits_of 8 b.
Proof. unfold byte_bits. cbn [fmap list_fmap concat]. apply app_nil_r. Qed.
Lemma length_byte_bits bs : Z.of_nat (length (byte_bits bs)) = 8 * zlen bs.
Proof.
  unfold byte_bits. induction bs as [|b bs IH]; [done|].
  rewrite fmap_cons. cbn [concat]. rewrite length_app, length_bits_of, zlen_cons. lia.
Qed.

Lemma byte_bits_inj a : forall b, Forall is_byte a -> Forall is_byte b -> byte_bits a = byte_bits b -> a = b.
Proof.
  unfold byte_bits. induction a as [|x a IH]; intros [|y b] Ha Hb H; try done.
  inversion Ha; inversion Hb; subst. rewrite !fmap_cons in H. cbn [concat] in H.
  apply app_inj_1 in H as [E1 E2]; [|by rewrite !length_bits_of].
  f_equal; [|by apply IH]. by apply (bits_of_inj 8).
Qed.

Lemma ones_bits n : bits_of n (Z.shiftl 1 (Z.of_nat n) - 1) = replicate n true.
Proof.
  rewrite Z.shiftl_1_l. assert (2 ^ Z.of_nat n - 1 = Z.ones (Z.of_nat n)) as -> by (rewrite Z.ones_equiv; lia).
  assert (forall k, (k <= n)%nat -> bits_of k (Z.ones (Z.of_nat n)) = replicate k true) as H; [|by apply H].
  induction k as [|k IH]; intros Hk; cbn; [done|]. rewrite Z.ones_spec_low by lia. f_equal. apply IH. lia.
Qed.
End Bits.

Module HuffmanFacts.
Import Huffman Bits.

Definition sym_bits (s : Z) : list bool := bits_of (Z.to_nat (code_of s).2) (code_of s).1.
Definition code_bits (bs : list Z) : list bool := concat (sym_bits <$> bs).

Lemma code_bits_app a b : code_bits (a ++ b) = code_bits a ++ code_bits b.
Proof. unfold code_bits. by rewrite fmap_app, concat_app. Qed.
Lemma code_bits_one s : code_bits [s] = sym_bits s.
Proof. unfold code_bits. cbn [fmap list_fmap concat]. apply app_nil_r. Qed.

(** ** The table

    Facts checked by computation over its 257 entries. *)

Lemma symbols_forall (P : Z -> Prop) : Forall P (Z.of_nat <$> List.seq 0 257) -> forall s, 0 <= s < 257 -> P s.
Proof.
  intros H s Hs. rewrite Forall_fmap, Forall_forall in H. rewrite <- (Z2Nat.id s) by lia. apply H.
  apply elem_of_seq. lia.
Qed.

Lemma code_range s : 0 <= s < 257 -> 5 <= (code_of s).2 <= 30 /\ 0 <= (code_of s).1 < 2 ^ (code_of s).2.
Proof.
  revert s. apply symbols_forall.
  assert (forallb (fun s => let '(c, l) := code_of s in
    (5 <=? l) && (l <=? 30) && (0 <=? c) && (c <? 2 ^ l)) (Z.of_nat <$> List.seq 0 257) = true) as H
    by (vm_compute; reflexivity).
  rewrite forallb_forall in H. apply Forall_forall. intros s Hs. apply list_elem_of_In, H in Hs.
  destruct (code_of s) as [c l]. cbn. zb. lia.
Qed.

Definition push_bits (st : State) (bs : list bool) : result Http2Error.t State :=
  rfold (fun st b => push_bit st (Z.b2z b)) st bs.

Lemma push_bits_app st a b : push_bits st (a ++ b) = let? st := push_bits st a in push_bits st b.
Proof. apply rfold_app. Qed.

Lemma push_byte_bits st b : push_byte st b = push_bits st (bits_of 8 b).
Proof.
  unfold push_byte, push_bits. assert (forall n, 0 <= n -> Z.land (Z.shiftr b n) 1 = Z.b2z (Z.testbit b n)) as E.
  { intros n Hn. change 1 with (Z.ones 1). rewrite Z.land_ones by lia. rewrite Z.testbit_spec', Z.shiftr_div_pow2 by lia. done. }
  cbn [bits_of rfold]. rewrite !E by lia. reflexivity.
Qed.

Lemma decode_bits input : rfold push_byte ([], 0, 0) input = push_bits ([], 0, 0) (byte_bits input).
Proof.
  generalize (([], 0, 0) : State). induction input as [|b input IH]; intros st; [done|].
  change (b :: input) with ([b] ++ input). rewrite byte_bits_app, byte_bits_one, push_bits_app.
  cbn [app rfold]. rewrite push_byte_bits. destruct (push_bits st _); cbn; [apply IH|done].
Qed.

(** What was already decoded plays no part. *)
Definition prepend (pre : list Z) (r : result Http2Error.t State) : result Http2Error.t State :=
  match r with Ok (out, code, len) => Ok (pre ++ out, code, len) | Err e => Err e end.

Lemma push_bit_prepend pre out code len b :
  push_bit (pre ++ out, code, len) b = prepend pre (push_bit (out, code, len) b).
Proof.
  unfold push_bit. case_if; [done|]. destruct (lookup _ _); [|done]. case_if; [done|].
  cbn. by rewrite app_assoc.
Qed.

Lemma push_bits_prepend pre bs : forall out code len,
  push_bits (pre ++ out, code, len) bs = prepend pre (push_bits (out, code, len) bs).
Proof.
  induction bs as [|b bs IH]; intros out code len; [done|]. unfold push_bits. cbn [rfold].
  rewrite push_bit_prepend. destruct (push_bit _ _) as [[[out' code'] len']|e]; cbn; [apply IH|done].
Qed.

(** The code of a symbol decodes to it: no proper prefix of it is a code. *)
Lemma push_symbol out s : 0 <= s < 256 -> push_bits (out, 0, 0) (sym_bits s) = Ok (out ++ [s], 0, 0).
Proof.
  intros Hs. rewrite <- (app_nil_r out) at 1. rewrite push_bits_prepend.
  assert (push_bits ([], 0, 0) (sym_bits s) = Ok ([s], 0, 0)) as ->; [|done].
  assert (forallb (fun s => match push_bits ([], 0, 0) (sym_bits s) with
    | Ok ([s'], 0, 0) => s' =? s | _ => false end) (Z.of_nat <$> List.seq 0 256) = true) as H
    by (vm_compute; reflexivity).
  rewrite forallb_forall in H. specialize (H s).
  destruct (push_bits ([], 0, 0) (sym_bits s)) as [[[[|s' [|]] [| |]] [| |]]|];
    (rewrite <- list_elem_of_In in H; assert (s ∈ Z.of_nat <$> List.seq 0 256) as Hin by
      (apply list_elem_of_fmap; exists (Z.to_nat s); split; [lia|apply elem_of_seq; lia]);
     specialize (H Hin); try done).
  apply Z.eqb_eq in H as ->. done.
Qed.

Lemma push_code out bs : Forall is_byte bs -> push_bits (out, 0, 0) (code_bits bs) = Ok (out ++ bs, 0, 0).
Proof.
  intros H. revert out. induction H as [|b bs Hb H IH]; intros out; [by rewrite app_nil_r|].
  change (b :: bs) with ([b] ++ bs). rewrite code_bits_app, code_bits_one, push_bits_app.
  rewrite (push_symbol out b Hb). cbn [rbind]. rewrite IH. by rewrite <- app_assoc.
Qed.

Lemma push_padding out k : (k < 8)%nat ->
  push_bits (out, 0, 0) (replicate k true) = Ok (out, Z.shiftl 1 (Z.of_nat k) - 1, Z.of_nat k).
Proof.
  intros Hk. rewrite <- (app_nil_r out) at 1. rewrite push_bits_prepend.
  assert (push_bits ([], 0, 0) (replicate k true) = Ok ([], Z.shiftl 1 (Z.of_nat k) - 1, Z.of_nat k)) as ->;
    [|cbn; by rewrite app_nil_r].
  assert (k = 0 \/ k = 1 \/ k = 2 \/ k = 3 \/ k = 4 \/ k = 5 \/ k = 6 \/ k = 7)%nat as Hc by lia.
  repeat destruct Hc as [->|Hc]; [..|subst k]; vm_compute; reflexivity.
Qed.

(** ** The encoder *)

Lemma u8_byte x : is_byte (u8 x).
Proof. unfold is_byte, u8. change 256 with (2 ^ 8). apply Z.mod_pos_bound. lia. Qed.

Lemma bits_of_u8 x : bits_of 8 (u8 x) = bits_of 8 x.
Proof. apply bits_of_mod. lia. Qed.

Lemma flush_spec fuel acc : forall out bits, 0 <= bits < 8 * Z.of_nat fuel ->
  let '(out', bits') := flush fuel acc out bits in
  byte_bits out' ++ bits_of (Z.to_nat bits') acc = byte_bits out ++ bits_of (Z.to_nat bits) acc /\
  0 <= bits' < 8 /\ (Forall is_byte out -> Forall is_byte out').
Proof.
  induction fuel as [|fuel IH]; intros out bits Hb; cbn [flush]; [lia|]. case_if; [|split_and!; [done|lia|lia|done]].
  specialize (IH (out ++ [u8 (Z.shiftr acc (bits - 8))]) (bits - 8) ltac:(lia)).
  destruct (flush _ _ _ _) as [out' bits']. destruct IH as (E & Hr & Hf). split_and!; [|lia|lia|].
  - rewrite E, byte_bits_app, byte_bits_one, bits_of_u8, <- app_assoc. f_equal.
    replace (Z.to_nat bits) with (8 + Z.to_nat (bits - 8))%nat by lia. rewrite bits_of_add.
    by rewrite Z2Nat.id by lia.
  - intros Ho. apply Hf, Forall_app. split; [done|]. by repeat constructor; apply u8_byte.
Qed.

Definition carried (st : list Z * Z * Z) (c : list bool) : Prop :=
  let '(out, acc, bits) := st in
  byte_bits out ++ bits_of (Z.to_nat bits) acc = c /\ 0 <= bits < 8 /\ Forall is_byte out.

Lemma put_spec st c b : carried st c -> is_byte b -> carried (put st b) (c ++ sym_bits b).
Proof.
  destruct st as [[out acc] bits]. intros (E & Hb & Ho) Hs. unfold put, sym_bits.
  destruct (code_range b) as [Hl Hc]; [unfold is_byte in *; lia|].
  destruct (code_of b) as [code len]. cbn [fst snd] in *.
  set (acc' := Z.lor (u64 (Z.shiftl acc len)) code).
  assert (bits_of (Z.to_nat (bits + len)) acc' = bits_of (Z.to_nat bits) acc ++ bits_of (Z.to_nat len) code) as E'.
  { rewrite <- (bits_of_shift (Z.to_nat bits) (Z.to_nat len) acc code) by (rewrite Z2Nat.id; lia).
    rewrite Z2Nat.inj_add, Z2Nat.id by lia. apply bits_of_ext. intros i Hi. unfold acc'.
    rewrite !Z.lor_spec. unfold u64. rewrite Z.mod_pow2_bits_low by lia. done. }
  pose proof (flush_spec (S (Z.to_nat ((bits + len) / 8))) acc' out (bits + len)) as Hf.
  destruct (flush _ _ _ _) as [out' bits'].
  destruct Hf as (E1 & Hr & Hf); [Z.to_euclidean_division_equations; lia|].
  split_and!; [|lia|lia|by apply Hf]. rewrite E1, E', <- E. by rewrite app_assoc.
Qed.

Lemma puts_spec bs : forall st c, carried st c -> Forall is_byte bs ->
  carried (fold_left put bs st) (c ++ code_bits bs).
Proof.
  induction bs as [|b bs IH]; intros st c Hc Hb; cbn [fold_left]; [by rewrite app_nil_r|].
  inversion Hb; subst. change (b :: bs) with ([b] ++ bs). rewrite code_bits_app, code_bits_one, app_assoc.
  apply IH; [|done]. by apply put_spec.
Qed.

(** What the encoder writes: the codes, then ones up to a whole byte. *)
Lemma encode_into_bits out bs : Forall is_byte out -> Forall is_byte bs ->
  exists k, (k < 8)%nat /\ byte_bits (encode_into out bs) = byte_bits out ++ code_bits bs ++ replicate k true /\
    Forall is_byte (encode_into out bs).
Proof.
  intros Ho Hb. assert (carried (out, 0, 0) (byte_bits out)) as H0.
  { split_and!; [by rewrite app_nil_r|lia|lia|done]. }
  pose proof (puts_spec bs _ _ H0 Hb) as H. unfold encode_into.
  destruct (fold_left put bs (out, 0, 0)) as [[out' acc] bits]. destruct H as (E & Hr & Hf).
  case_if.
  - exists (Z.to_nat (8 - bits)). split; [lia|]. split.
    + rewrite byte_bits_app, byte_bits_one, bits_of_u8, app_assoc, <- E, <- app_assoc. f_equal.
      rewrite <- ones_bits, <- bits_of_shift; rewrite Z2Nat.id by lia.
      * replace (Z.to_nat bits + Z.to_nat (8 - bits))%nat with 8%nat by lia.
        apply bits_of_ext. intros i Hi. rewrite !Z.lor_spec. unfold u64. by rewrite Z.mod_pow2_bits_low by lia.
      * rewrite Z.shiftl_1_l. pose proof (Z.pow_pos_nonneg 2 (8 - bits)). lia.
    + apply Forall_app. split; [done|]. by repeat constructor; apply u8_byte.
  - exists 0%nat. split; [lia|]. replace bits with 0 in E by lia. cbn [bits_of] in E.
    rewrite app_nil_r in E. cbn [replicate]. by rewrite app_nil_r.
Qed.

Lemma length_code_bits bs : Forall is_byte bs ->
  Z.of_nat (length (code_bits bs)) = foldr Z.add 0 ((fun b => (code_of b).2) <$> bs).
Proof.
  unfold code_bits. induction 1 as [|b bs Hb H IH]; [done|]. rewrite !fmap_cons. cbn [concat foldr].
  rewrite length_app. unfold sym_bits at 1. rewrite length_bits_of.
  destruct (code_range b); [unfold is_byte in *; lia|]. lia.
Qed.

(** ** What a successful decode consumed *)

Definition consumed (st : State) (c : list bool) : Prop :=
  let '(out, code, len) := st in
  c = code_bits out ++ bits_of (Z.to_nat len) code /\ 0 <= len /\ 0 <= code < 2 ^ len /\
  Forall is_byte out.

Lemma code_position_spec codes code len : forall i s, position i codes code len = Some s ->
  i <= s < i + zlen codes /\ codes !! Z.to_nat (s - i) = Some (code, len).
Proof.
  induction codes as [|[c l] codes IH]; intros i s; cbn [position]; [done|]. case_if.
  - intros [= <-]. rewrite zlen_cons. pose proof (zlen_nonneg codes). subst.
    split; [lia|]. by replace (Z.to_nat (i - i)) with 0%nat by lia.
  - intros [H1 H2]%IH. rewrite zlen_cons. split; [lia|].
    by replace (Z.to_nat (s - i)) with (S (Z.to_nat (s - (i + 1)))) by lia.
Qed.

Lemma lookup_spec code len s : lookup code len = Some s -> 0 <= s < 257 /\ code_of s = (code, len).
Proof.
  intros [Hr Hl]%code_position_spec. change (zlen CODES) with 257 in Hr. split; [lia|].
  rewrite Z.sub_0_r in Hl. unfold code_of. by rewrite (nth_lookup_Some _ _ _ _ Hl).
Qed.

Lemma push_bit_inv st st' c b : consumed st c -> push_bit st (Z.b2z b) = Ok st' -> consumed st' (c ++ [b]).
Proof.
  destruct st as [[out code] len]. intros (-> & Hl & Hc & Ho). unfold push_bit. case_if; [done|].
  assert (2 ^ len < 2 ^ 30) as Hs by (apply Z.pow_lt_mono_r; lia).
  rewrite u32_small by (rewrite Z.shiftl_mul_pow2 by lia; lia).
  set (code' := Z.lor (Z.shiftl code 1) (Z.b2z b)).
  assert (bits_of (Z.to_nat (len + 1)) code' = bits_of (Z.to_nat len) code ++ [b]) as Eb.
  { replace (Z.to_nat (len + 1)) with (Z.to_nat len + 1)%nat by lia. unfold code'.
    etrans; [apply (bits_of_shift (Z.to_nat len) 1 code (Z.b2z b)); destruct b; cbn; lia|by destruct b]. }
  assert (code' = 2 * code + Z.b2z b) as Ec.
  { unfold code'. rewrite <- Z.add_nocarry_lor; [rewrite Z.shiftl_mul_pow2; lia|].
    apply Z.bits_inj'. intros n Hn. rewrite Z.land_spec, Z.bits_0.
    destruct (Z.eq_dec n 0) as [->|]; [by rewrite Z.shiftl_spec_low by lia|].
    destruct b; cbn [Z.b2z]; [|by rewrite Z.bits_0, andb_false_r].
    rewrite (Z.bits_above_log2 1 n) by (cbn; lia). apply andb_false_r. }
  assert (0 <= code' < 2 ^ (len + 1)) as Hc'.
  { rewrite Z.pow_add_r by lia. destruct b; cbn [Z.b2z] in Ec; lia. }
  destruct (lookup code' (len + 1)) as [s|] eqn:E.
  - apply lookup_spec in E as [Hs' E]. case_if; [done|]. intros [= <-]. unfold EOS in *.
    assert (u8 s = s) as -> by (apply Z.mod_small; lia). split_and!; try done.
    + rewrite code_bits_app, code_bits_one. unfold sym_bits. rewrite E. cbn [fst snd].
      rewrite Eb. cbn. by rewrite app_nil_r, <- app_assoc.
    + apply Forall_app. split; [done|]. repeat constructor; lia.
  - intros [= <-]. split_and!; [by rewrite Eb, app_assoc|lia|lia|lia|done].
Qed.

Lemma push_bits_inv bs : forall st st' c, consumed st c -> push_bits st bs = Ok st' -> consumed st' (c ++ bs).
Proof.
  induction bs as [|b bs IH]; intros st st' c Hc H; unfold push_bits in H; cbn [rfold] in H.
  - injection H as <-. by rewrite app_nil_r.
  - apply rbind_Ok in H as (st1 & H1 & H2). change (b :: bs) with ([b] ++ bs). rewrite app_assoc.
    eapply IH; [|exact H2]. by eapply push_bit_inv.
Qed.

Lemma decode_inv input s : decode input = Ok s ->
  exists k, (k < 8)%nat /\ byte_bits input = code_bits s ++ replicate k true /\ Forall is_byte s.
Proof.
  unfold decode. rewrite decode_bits. intros ([[out code] len] & H & Hk)%rbind_Ok.
  assert (consumed ([], 0, 0) []) as H0 by (split_and!; try done).
  destruct (push_bits_inv _ _ _ _ H0 H) as (E & Hl & Hc & Ho). cbn [app] in E.
  revert Hk. case_if; [done|]. case_if; [done|]. intros [= <-].
  exists (Z.to_nat len). split_and!; [lia| |done]. rewrite E. f_equal. rewrite <- ones_bits, Z2Nat.id by lia.
  destruct (Z.ltb_spec 0 len); cbn [andb] in *; zb; [congruence|]. by replace len with 0 by lia.
Qed.

Lemma padding_unique (a b : list bool) j k n : (j < 8)%nat -> (k < 8)%nat ->
  Z.of_nat (length (a ++ replicate j true)) = 8 * n -> length a = length b ->
  (exists m, Z.of_nat (length (b ++ replicate k true)) = 8 * m) -> j = k.
Proof. intros Hj Hk E Hl [m E']. rewrite length_app, length_replicate in *. lia. Qed.

Lemma encode_bits bs : Forall is_byte bs ->
  exists k, (k < 8)%nat /\ byte_bits (encode_into [] bs) = code_bits bs ++ replicate k true /\
    Forall is_byte (encode_into [] bs).
Proof. intros Hb. exact (encode_into_bits [] bs (Forall_nil_2 _) Hb). Qed.

Lemma encode_unique k out bs : (k < 8)%nat -> Forall is_byte out -> Forall is_byte bs ->
  byte_bits out = code_bits bs ++ replicate k true -> encode_into [] bs = out.
Proof.
  intros Hk Ho Hb E. destruct (encode_bits bs Hb) as (j & Hj & E' & Hf).
  assert (j = k) as ->.
  { apply (padding_unique (code_bits bs) (code_bits bs) j k (zlen (encode_into [] bs))); try done.
    - rewrite <- length_byte_bits. by rewrite E'.
    - exists (zlen out). by rewrite <- length_byte_bits, E. }
  apply byte_bits_inj; [done|done|]. by rewrite E', E.
Qed.

Lemma encode_into_app out bs : Forall is_byte out -> Forall is_byte bs ->
  encode_into out bs = out ++ encode_into [] bs.
Proof.
  intros Ho Hb. destruct (encode_into_bits out bs) as (j & Hj & E & Hf); [done|done|].
  destruct (encode_bits bs Hb) as (k & Hk & E' & Hf').
  apply byte_bits_inj; [done|by apply Forall_app|]. rewrite byte_bits_app, E, E'.
  cut (j = k); [by intros ->|].
  pose proof (length_byte_bits (encode_into out bs)) as L1. pose proof (length_byte_bits (encode_into [] bs)) as L2.
  pose proof (length_byte_bits out) as L3. rewrite E in L1. rewrite E' in L2.
  rewrite !length_app, !length_replicate in L1. rewrite !length_app, length_replicate in L2. lia.
Qed.

Lemma encoded_len_spec bs : Forall is_byte bs -> zlen (encode_into [] bs) = encoded_len bs.
Proof.
  intros Hb. destruct (encode_bits bs Hb) as (k & Hk & E & _).
  pose proof (length_byte_bits (encode_into [] bs)) as L. rewrite E, !length_app, length_replicate in L.
  unfold encoded_len. rewrite <- length_code_bits by done.
  set (n := zlen _) in *. set (c := length (code_bits bs)) in *. clearbody n c.
  Z.to_euclidean_division_equations. lia.
Qed.

Lemma decode_encode bs : Forall is_byte bs -> decode (encode_into [] bs) = Ok bs.
Proof.
  intros Hb. destruct (encode_bits bs Hb) as (k & Hk & E & _).
  unfold decode. rewrite decode_bits, E, push_bits_app, (push_code [] bs Hb). cbn [app rbind].
  rewrite push_padding by done. cbn [rbind]. rewrite (proj2 (Z.ltb_ge 7 _)) by lia.
  by rewrite Z.eqb_refl, andb_false_r.
Qed.
End HuffmanFacts.

(** ** Properties *)

Module HuffmanProps.
Import Huffman HuffmanFacts.

(** A string of any bytes survives Huffman coding: the decoder
    recovers exactly what the encoder was given, the encoding has the length
    announced for it, and what was already written is left alone. *)
Theorem huffman_roundtrip out bs : Forall is_byte out -> Forall is_byte bs ->
  exists code, encode_into out bs = out ++ code /\ zlen code = encoded_len bs /\
    Forall is_byte code /\ decode code = Ok bs.
Proof.
  intros Ho Hb. exists (encode_into [] bs). split_and!.
  - by apply encode_into_app.
  - by apply encoded_len_spec.
  - by destruct (encode_bits bs Hb) as (k & _ & _ & Hf).
  - by apply decode_encode.
Qed.

Lemma huffman_roundtrip_witness :
  exists code, encode_into [1] (bstr "www.example.com") = [1] ++ code /\ zlen code = 12 /\
    decode code = Ok (bstr "www.example.com").
Proof.
  assert (Forall is_byte [1] /\ Forall is_byte (bstr "www.example.com")) as [H1 H2] by
    (split; repeat (apply Forall_cons; split; [split; vm_compute; congruence|]); by apply Forall_nil).
  destruct (huffman_roundtrip [1] (bstr "www.example.com") H1 H2) as (c & E1 & E2 & _ & E3).
  exists c. split; [exact E1|]. split; [rewrite E2; vm_compute; reflexivity|exact E3].
Defined.

(** The decoder accepts one encoding of each string only, the
    encoder's: bytes cannot be smuggled in the padding, and every other
    input is refused. *)
Theorem huffman_canonical input bs : Forall is_byte input ->
  decode input = Ok bs -> Forall is_byte bs /\ encode_into [] bs = input.
Proof.
  intros Hi (k & Hk & E & Hb)%decode_inv. split; [done|]. by apply (encode_unique k).
Qed.

Lemma huffman_canonical_witness :
  decode [100; 2] = Ok (bstr "302") /\ encode_into [] (bstr "302") = [100; 2].
Proof.
  split; [vm_compute; reflexivity|].
  assert (Forall is_byte [100; 2]) as H by
    (repeat (apply Forall_cons; split; [split; vm_compute; congruence|]); by apply Forall_nil).
  refine (proj2 (huffman_canonical [100; 2] (bstr "302") H _)). vm_compute. reflexivity.
Defined.
End HuffmanProps.
