(* ===== verification/Hpack.v ===== *)
(** * HPACK decompression (src/src/http2/hpack.rs)

    The static table, the dynamic table shared by both directions
    ([DynamicTable]), and the decoder.  A decoding error leaves the table
    as the fields before it left it, so [decode] returns the table next to
    its result.  [usize] is 64 bits wide: the [usize::try_from] of a [u64]
    cannot fail. *)

From S2P Require Import Prelude Http2Error Huffman.

Definition Field : Type := list Z * list Z.

Definition ENTRY_OVERHEAD : Z := 32.
Definition MAX_FIELDS_PER_BLOCK : Z := 256.

Definition STATIC_TABLE : list Field := [
  (bstr ":authority", bstr "");
  (bstr ":method", bstr "GET");
  (bstr ":method", bstr "POST");
  (bstr ":path", bstr "/");
  (bstr ":path", bstr "/index.html");
  (bstr ":scheme", bstr "http");
  (bstr ":scheme", bstr "https");
  (bstr ":status", bstr "200");
  (bstr ":status", bstr "204");
  (bstr ":status", bstr "206");
  (bstr ":status", bstr "304");
  (bstr ":status", bstr "400");
  (bstr ":status", bstr "404");
  (bstr ":status", bstr "500");
  (bstr "accept-charset", bstr "");
  (bstr "accept-encoding", bstr "gzip, deflate");
  (bstr "accept-language", bstr "");
  (bstr "accept-ranges", bstr "");
  (bstr "accept", bstr "");
  (bstr "access-control-allow-origin", bstr "");
  (bstr "age", bstr "");
  (bstr "allow", bstr "");
  (bstr "authorization", bstr "");
  (bstr "cache-control", bstr "");
  (bstr "content-disposition", bstr "");
  (bstr "content-encoding", bstr "");
  (bstr "content-language", bstr "");
  (bstr "content-length", bstr "");
  (bstr "content-location", bstr "");
  (bstr "content-range", bstr "");
  (bstr "content-type", bstr "");
  (bstr "cookie", bstr "");
  (bstr "date", bstr "");
  (bstr "etag", bstr "");
  (bstr "expect", bstr "");
  (bstr "expires", bstr "");
  (bstr "from", bstr "");
  (bstr "host", bstr "");
  (bstr "if-match", bstr "");
  (bstr "if-modified-since", bstr "");
  (bstr "if-none-match", bstr "");
  (bstr "if-range", bstr "");
  (bstr "if-unmodified-since", bstr "");
  (bstr "last-modified", bstr "");
  (bstr "link", bstr "");
  (bstr "location", bstr "");
  (bstr "max-forwards", bstr "");
  (bstr "proxy-authenticate", bstr "");
  (bstr "proxy-authorization", bstr "");
  (bstr "range", bstr "");
  (bstr "referer", bstr "");
  (bstr "refresh", bstr "");
  (bstr "retry-after", bstr "");
  (bstr "server", bstr "");
  (bstr "set-cookie", bstr "");
  (bstr "strict-transport-security", bstr "");
  (bstr "transfer-encoding", bstr "");
  (bstr "user-agent", bstr "");
  (bstr "vary", bstr "");
  (bstr "via", bstr "");
  (bstr "www-authenticate", bstr "")].

Definition entry_size (name value : list Z) : Z := zlen name + zlen value + ENTRY_OVERHEAD.

Module DynamicTable.
(** [entries] has the newest first. *)
Record t := mk { entries : list Field; size : Z; max_size : Z; hard_max_size : Z }.
#[global] Instance eta : Eta t := mk_eta (fun r =>
  mk (entries r) (size r) (max_size r) (hard_max_size r)).

Definition new (max_size hard_max_size : Z) : t :=
  mk [] 0 (Z.min max_size hard_max_size) hard_max_size.

Definition get (i : Z) (r : t) : option Field := entries r !! Z.to_nat i.

(** [while self.size > self.max_size]: a round removes an entry or
    resets the size. *)
Fixpoint evict_loop (fuel : nat) (r : t) : t :=
  match fuel with
  | O => r
  | S fuel =>
      if max_size r <? size r then
        match last (entries r) with
        | Some (n, v) =>
            evict_loop fuel (r <| entries ::= fun l => take (length l - 1) l |>
                               <| size ::= fun s => sat_sub s (entry_size n v) |>)
        | None => r <| size := 0 |>
        end
      else r
  end.
Definition evict (r : t) : t := evict_loop (S (length (entries r))) r.

Definition set_max_size (n : Z) (r : t) : t :=
  evict (r <| max_size := Z.min n (hard_max_size r) |>).

Definition insert (name value : list Z) (r : t) : t :=
  let sz := entry_size name value in
  if max_size r <? sz then r <| entries := [] |> <| size := 0 |>
  else evict (r <| size ::= Z.add sz |> <| entries ::= cons (name, value) |>).
End DynamicTable.

(** ** Integers and strings *)

(** The continuation bytes of an integer. *)
Fixpoint decode_cont (buf : list Z) (shift value : Z) : result Http2Error.t (Z * list Z) :=
  match buf with
  | [] => Err Http2Error.HpackTruncated
  | b :: buf =>
      if 63 <=? shift then Err Http2Error.HpackIntegerOverflow
      else
        let value := value + u64 (Z.shiftl (Z.land b 0x7f) shift) in
        if U64_MAX <? value then Err Http2Error.HpackIntegerOverflow
        else if Z.land b 0x80 =? 0 then Ok (value, buf)
        else decode_cont buf (shift + 7) value
  end.

Definition decode_int (buf : list Z) (prefix : Z) : result Http2Error.t (Z * list Z) :=
  match buf with
  | [] => Err Http2Error.HpackTruncated
  | first :: rest =>
      let mask := Z.shiftl 1 prefix - 1 in
      let value := Z.land first mask in
      if value <? mask then Ok (value, rest) else decode_cont rest 0 value
  end.

Definition decode_string (buf : list Z) : result Http2Error.t (list Z * list Z) :=
  match buf with
  | [] => Err Http2Error.HpackTruncated
  | first :: _ =>
      let huffman := negb (Z.land first 0x80 =? 0) in
      let? (len, rest) := decode_int buf 7 in
      if zlen rest <? len then Err Http2Error.HpackTruncated
      else
        let raw := ztake len rest in
        let tail := zdrop len rest in
        let? out := if huffman then Huffman.decode raw else Ok raw in
        Ok (out, tail)
  end.

(** ** The decoder *)

Module HpackDecoder.
Import DynamicTable.

Definition new (max_size hard_max_size : Z) : DynamicTable.t :=
  DynamicTable.new max_size hard_max_size.
Definition set_max_size (n : Z) (table : DynamicTable.t) : DynamicTable.t :=
  DynamicTable.set_max_size n table.

Definition resolve (table : DynamicTable.t) (idx : Z) : result Http2Error.t Field :=
  if idx =? 0 then Err Http2Error.HpackInvalidIndex
  else if idx <=? zlen STATIC_TABLE then Ok (nth (Z.to_nat (idx - 1)) STATIC_TABLE ([], []))
  else
    match get (idx - zlen STATIC_TABLE - 1) table with
    | Some f => Ok f
    | None => Err Http2Error.HpackInvalidIndex
    end.

Definition decode_literal (table : DynamicTable.t) (buf : list Z) (prefix : Z)
    : result Http2Error.t (list Z * list Z * list Z) :=
  let? (idx, rest) := decode_int buf prefix in
  let? (name, rest) :=
    if idx =? 0 then decode_string rest
    else let? f := resolve table idx in Ok (f.1, rest) in
  let? (value, rest) := decode_string rest in
  Ok (name, value, rest).

(** One round of [decode]: the fields it adds, the rest of the block and
    the table. *)
Definition decode_one (table : DynamicTable.t) (first : Z) (buf : list Z)
    : result Http2Error.t (list Field * list Z * DynamicTable.t) :=
  if negb (Z.land first 0x80 =? 0) then
    let? (idx, rest) := decode_int buf 7 in
    let? f := resolve table idx in
    Ok ([f], rest, table)
  else if negb (Z.land first 0x40 =? 0) then
    let? (name, value, rest) := decode_literal table buf 6 in
    Ok ([(name, value)], rest, insert name value table)
  else if negb (Z.land first 0x20 =? 0) then
    let? (n, rest) := decode_int buf 5 in
    if hard_max_size table <? n then Err Http2Error.HpackTableSizeExceeded
    else Ok ([], rest, set_max_size n table)
  else
    let? (name, value, rest) := decode_literal table buf 4 in
    Ok ([(name, value)], rest, table).

(** Every round consumes a byte. *)
Fixpoint decode_loop (fuel : nat) (table : DynamicTable.t) (out : list Field) (buf : list Z)
    : result Http2Error.t (list Field) * DynamicTable.t :=
  match fuel, buf with
  | O, _ | _, [] => (Ok out, table)
  | S fuel, first :: _ =>
      if MAX_FIELDS_PER_BLOCK <=? zlen out then (Err Http2Error.HeaderListTooLong, table)
      else
        match decode_one table first buf with
        | Ok (fs, rest, table) => decode_loop fuel table (out ++ fs) rest
        | Err e => (Err e, table)
        end
  end.
Definition decode (table : DynamicTable.t) (buf : list Z)
    : result Http2Error.t (list Field) * DynamicTable.t :=
  decode_loop (length buf) table [] buf.
End HpackDecoder.

(** ** The dynamic table *)

Module HpackFacts.
Import DynamicTable.

Definition total (es : list Field) : Z := foldr (fun f n => entry_size f.1 f.2 + n) 0 es.

Lemma entry_size_pos f : 32 <= entry_size f.1 f.2.
Proof. unfold entry_size, ENTRY_OVERHEAD. zlia. Qed.
Lemma total_cons f es : total (f :: es) = entry_size f.1 f.2 + total es.
Proof. reflexivity. Qed.
Lemma total_app a b : total (a ++ b) = total a + total b.
Proof. induction a as [|f a IH]; [done|]. cbn [app]. rewrite !total_cons. lia. Qed.
Lemma total_len es : 32 * zlen es <= total es.
Proof.
  induction es as [|f es IH]; [done|]. rewrite zlen_cons, total_cons. pose proof (entry_size_pos f). lia.
Qed.

(** The accounted size is the size of the entries and within both limits. *)
Record table_ok (r : t) : Prop := {
  to_size : size r = total (entries r);
  to_max : size r <= max_size r;
  to_hard : 0 <= max_size r <= hard_max_size r }.

(** The longest prefix that fits a budget. *)
Fixpoint fit (budget : Z) (es : list Field) : list Field :=
  match es with
  | [] => []
  | f :: es => let sz := entry_size f.1 f.2 in if sz <=? budget then f :: fit (budget - sz) es else []
  end.

Lemma fit_all b es : total es <= b -> fit b es = es.
Proof.
  revert b. induction es as [|f es IH]; intros b H; [done|]. rewrite total_cons in H. cbn [fit].
  pose proof (total_len es). zlen_facts. destruct (Z.leb_spec (entry_size f.1 f.2) b); [|lia].
  f_equal. apply IH. lia.
Qed.

Lemma fit_drop_last b es f : b < total (es ++ [f]) -> fit b (es ++ [f]) = fit b es.
Proof.
  revert b. induction es as [|g es IH]; intros b H; cbn [app fit].
  - cbn in H. destruct (Z.leb_spec (entry_size f.1 f.2) b); [lia|done].
  - case_if; [|done]. f_equal. apply IH. cbn [app] in H. rewrite total_cons in H. lia.
Qed.

Lemma fit_mono b c es es' : b <= c -> es `prefix_of` es' -> fit b es `prefix_of` fit c es'.
Proof.
  revert b c es'. induction es as [|f es IH]; intros b c es' Hb [k ->]; [apply prefix_nil|].
  cbn [app fit]. destruct (Z.leb_spec (entry_size f.1 f.2) b); [|apply prefix_nil].
  destruct (Z.leb_spec (entry_size f.1 f.2) c); [|lia]. apply prefix_cons. apply IH; [lia|by exists k].
Qed.

Lemma fit_total b es : 0 <= b -> total (fit b es) <= b.
Proof.
  revert b. induction es as [|f es IH]; intros b Hb; [done|]. cbn [fit]. case_if; [|done].
  rewrite total_cons. specialize (IH (b - entry_size f.1 f.2) ltac:(lia)). lia.
Qed.

Lemma exists_last_dec {A} (l : list A) : l = [] \/ exists k x, l = k ++ [x].
Proof. induction l as [|x k _] using rev_ind; [by left|right; by exists k, x]. Qed.

Lemma evict_loop_spec fuel : forall r, (length (entries r) < fuel)%nat -> 0 <= max_size r ->
  size r = total (entries r) ->
  evict_loop fuel r = r <| entries := fit (max_size r) (entries r) |>
                        <| size := total (fit (max_size r) (entries r)) |>.
Proof.
  induction fuel as [|fuel IH]; intros r Hf Hm Hs; [lia|]. cbn [evict_loop]. case_if.
  - destruct (exists_last_dec (entries r)) as [E|(es & f & E)].
    { rewrite E in Hs. change (total []) with 0 in Hs. lia. }
    rewrite E, last_snoc. destruct f as [n v]. rewrite E in Hs, Hf. rewrite length_app in Hf. cbn in Hf.
    rewrite IH; cbn -[total fit]; rewrite ?E, ?length_app, ?Nat.add_sub, ?take_app_length; try done.
    + rewrite fit_drop_last; [done|]. rewrite <- Hs. lia.
    + cbn. lia.
    + unfold sat_sub. rewrite Hs, total_app, total_cons. change (total []) with 0. cbn [fst snd].
      pose proof (total_len es). zlen_facts. lia.
  - rewrite fit_all by lia. destruct r. cbn in *. by subst.
Qed.

Lemma evict_spec r : 0 <= max_size r -> size r = total (entries r) ->
  evict r = r <| entries := fit (max_size r) (entries r) |> <| size := total (fit (max_size r) (entries r)) |>.
Proof. intros. apply evict_loop_spec; [lia|done|done]. Qed.

Lemma evict_ok r : 0 <= max_size r <= hard_max_size r -> size r = total (entries r) -> table_ok (evict r).
Proof.
  intros Hm Hs. rewrite evict_spec by (done || lia). split; [done|apply fit_total; cbn; lia|done].
Qed.

Lemma new_ok m h : 0 <= m -> 0 <= h -> table_ok (new m h).
Proof. intros. split; cbn; lia. Qed.

Lemma set_max_size_ok n r : 0 <= n -> table_ok r -> table_ok (set_max_size n r).
Proof. intros Hn [H1 H2 H3]. apply evict_ok; cbn; [lia|done]. Qed.

Lemma set_max_size_frame n r : 0 <= n -> table_ok r ->
  entries (set_max_size n r) = fit (Z.min n (hard_max_size r)) (entries r) /\
  max_size (set_max_size n r) = Z.min n (hard_max_size r) /\
  hard_max_size (set_max_size n r) = hard_max_size r.
Proof. intros Hn [H1 H2 H3]. unfold set_max_size. by rewrite evict_spec by (cbn; lia || done). Qed.

Lemma insert_ok n v r : table_ok r -> table_ok (insert n v r).
Proof.
  intros [H1 H2 H3]. unfold insert. case_if; [split; cbn; lia|].
  apply evict_ok; cbn -[total]; [lia|]. rewrite total_cons, H1. done.
Qed.

Lemma insert_frame n v r : table_ok r ->
  entries (insert n v r) = fit (max_size r) ((n, v) :: entries r) /\
  max_size (insert n v r) = max_size r /\ hard_max_size (insert n v r) = hard_max_size r.
Proof.
  intros [H1 H2 H3]. unfold insert. cbn [fit fst snd]. case_if.
  - destruct (Z.leb_spec (entry_size n v) (max_size r)); [lia|done].
  - rewrite evict_spec by (cbn -[total]; rewrite ?total_cons, ?H1; lia || done). cbn.
    destruct (Z.leb_spec (entry_size n v) (max_size r)); [done|lia].
Qed.

(** ** The decoder *)

Lemma decode_cont_rest buf : forall shift v0 v rest, decode_cont buf shift v0 = Ok (v, rest) ->
  (length rest < length buf)%nat /\ (0 <= v0 -> v0 <= v).
Proof.
  induction buf as [|b buf IH]; intros shift v0 v rest; cbn [decode_cont]; [done|].
  case_if; [done|]. case_if; [done|].
  assert (0 <= u64 (Z.shiftl (Z.land b 127) shift)) by (apply Z.mod_pos_bound; lia).
  case_if; [intros [= <- <-]; cbn; lia|]. intros [H1 H2]%IH. cbn. lia.
Qed.

Lemma decode_int_rest buf p v rest : 0 <= p -> decode_int buf p = Ok (v, rest) ->
  (length rest < length buf)%nat /\ 0 <= v.
Proof.
  intros Hp. unfold decode_int. destruct buf as [|first buf]; [done|]. cbv zeta.
  assert (0 <= Z.land first (Z.shiftl 1 p - 1)) as Hv.
  { rewrite Z.shiftl_1_l. assert (2 ^ p - 1 = Z.ones p) as -> by (rewrite Z.ones_equiv; lia).
    rewrite Z.land_ones by lia. apply Z.mod_pos_bound. lia. }
  case_if; [intros [= <- <-]; cbn; lia|]. intros [H1 H2]%decode_cont_rest. cbn. lia.
Qed.

Lemma decode_string_rest buf s rest : decode_string buf = Ok (s, rest) -> (length rest < length buf)%nat.
Proof.
  unfold decode_string. destruct buf as [|first buf]; [done|]. cbv zeta.
  intros ([len r] & Hi & H)%rbind_Ok. apply decode_int_rest in Hi as [Hi _]; [|lia].
  revert H. case_if; [done|]. intros (out & _ & [= <- <-])%rbind_Ok.
  unfold zdrop. rewrite length_drop. lia.
Qed.

Lemma decode_literal_rest table buf p n v rest : 0 <= p ->
  HpackDecoder.decode_literal table buf p = Ok (n, v, rest) -> (length rest < length buf)%nat.
Proof.
  intros Hp. unfold HpackDecoder.decode_literal. intros ([idx r] & Hi & H)%rbind_Ok.
  apply decode_int_rest in Hi as [Hi _]; [|done]. apply rbind_Ok in H as ([n' r'] & Hn & H).
  apply rbind_Ok in H as ([v' r''] & Hv & [= <- <- <-]). apply decode_string_rest in Hv.
  revert Hn. case_if; [intros Hn%decode_string_rest; lia|]. intros (f & _ & [= <- <-])%rbind_Ok. lia.
Qed.

(** A round of the decoder makes progress and keeps the table within its
    limits. *)
Lemma decode_one_ok table first buf fs rest table' : table_ok table ->
  HpackDecoder.decode_one table first buf = Ok (fs, rest, table') ->
  (length rest < length buf)%nat /\ table_ok table' /\ hard_max_size table' = hard_max_size table /\
  zlen fs <= 1.
Proof.
  intros Ht. unfold HpackDecoder.decode_one. repeat case_if.
  - intros ([idx r] & Hi & (f & _ & [= <- <- <-])%rbind_Ok)%rbind_Ok.
    apply decode_int_rest in Hi as [Hi _]; [|lia]. split_and!; done.
  - intros ([[n v] r] & Hl & [= <- <- <-])%rbind_Ok. apply decode_literal_rest in Hl; [|lia].
    split_and!; [done|by apply insert_ok|by apply insert_frame|done].
  - intros ([n r] & Hi & H)%rbind_Ok. apply decode_int_rest in Hi as [Hi Hn]; [|lia].
    revert H. case_if; [done|]. intros [= <- <- <-].
    split_and!; [done|by apply set_max_size_ok|by apply set_max_size_frame|done].
  - intros ([[n v] r] & Hl & [= <- <- <-])%rbind_Ok. apply decode_literal_rest in Hl; [|lia]. done.
Qed.

Lemma decode_loop_ok fuel : forall table out buf, table_ok table -> zlen out <= MAX_FIELDS_PER_BLOCK ->
  let '(r, table') := HpackDecoder.decode_loop fuel table out buf in
  table_ok table' /\ hard_max_size table' = hard_max_size table /\
  match r with Ok fs => zlen fs <= MAX_FIELDS_PER_BLOCK | Err _ => True end.
Proof.
  induction fuel as [|fuel IH]; intros table out buf Ht Ho; cbn [HpackDecoder.decode_loop]; [done|].
  destruct buf as [|first buf]; [done|]. case_if; [done|].
  destruct (HpackDecoder.decode_one table first (first :: buf)) as [[[fs rest] table1]|e] eqn:E; [|done].
  apply decode_one_ok in E as (_ & Ht1 & Hh & Hfs); [|done].
  specialize (IH table1 (out ++ fs) rest Ht1 ltac:(rewrite zlen_app; lia)).
  destruct (HpackDecoder.decode_loop fuel table1 (out ++ fs) rest) as [r table']. by rewrite <- Hh.
Qed.

Lemma decode_ok table buf : table_ok table ->
  let '(r, table') := HpackDecoder.decode table buf in
  table_ok table' /\ hard_max_size table' = hard_max_size table /\
  match r with Ok fs => zlen fs <= MAX_FIELDS_PER_BLOCK | Err _ => True end.
Proof. intros Ht. by apply decode_loop_ok. Qed.

(** The fuel is enough: more does not change the result. *)
Lemma decode_loop_fuel : forall fuel fuel' table out buf, table_ok table ->
  (length buf <= fuel)%nat -> (length buf <= fuel')%nat ->
  HpackDecoder.decode_loop fuel table out buf = HpackDecoder.decode_loop fuel' table out buf.
Proof.
  induction fuel as [|fuel IH]; intros fuel' table out buf Ht H H'.
  - destruct buf; [|cbn in H; lia]. by destruct fuel'.
  - destruct buf as [|first buf]; [by destruct fuel'|]. destruct fuel' as [|fuel']; [cbn in H'; lia|].
    cbn [HpackDecoder.decode_loop]. case_if; [done|].
    destruct (HpackDecoder.decode_one table first (first :: buf)) as [[[fs rest] table1]|e] eqn:E; [|done].
    apply decode_one_ok in E as (Hr & Ht1 & _); [|done]. cbn in *. apply IH; [done|lia|lia].
Qed.

Definition decode_rest (table : DynamicTable.t) (out : list Field) (buf : list Z) :=
  HpackDecoder.decode_loop (length buf) table out buf.

Lemma decode_rest_cons table out first buf : table_ok table -> zlen out < MAX_FIELDS_PER_BLOCK ->
  decode_rest table out (first :: buf) =
    match HpackDecoder.decode_one table first (first :: buf) with
    | Ok (fs, rest, table) => decode_rest table (out ++ fs) rest
    | Err e => (Err e, table)
    end.
Proof.
  intros Ht Ho. unfold decode_rest. cbn [length HpackDecoder.decode_loop].
  rewrite (proj2 (Z.leb_gt MAX_FIELDS_PER_BLOCK _)) by done.
  destruct (HpackDecoder.decode_one table first (first :: buf)) as [[[fs rest] table1]|e] eqn:E; [|done].
  apply decode_one_ok in E as (Hr & Ht1 & _); [|done]. cbn in Hr. apply decode_loop_fuel; [done|lia|lia].
Qed.
End HpackFacts.
