(* ===== verification/HpackEncode.v ===== *)
(** * HPACK compression (src/src/http2/hpack_encode.rs)

    The encoder for one direction of one connection.  Its table models the
    one the peer's decoder has; the theorems say that the decoder of
    [Hpack] recovers every block the encoder produces, in order, and that
    a refused block leaves the encoder as it was. *)

From S2P Require Import Prelude Http2Error Huffman Hpack.

Inductive HeaderSensitivity := Indexable | NotIndexed | Sensitive.
#[global] Instance sensitivity_eq_dec : EqDecision HeaderSensitivity.
Proof. solve_decision. Defined.

Inductive HuffmanPolicy := WhenSmaller | Never.
#[global] Instance huffman_policy_eq_dec : EqDecision HuffmanPolicy.
Proof. solve_decision. Defined.

Definition SensitivityFn : Type := list Z -> list Z -> HeaderSensitivity.

Definition default_sensitivity : SensitivityFn := fun name _ =>
  if bool_decide (name ∈ [bstr "authorization"; bstr "proxy-authorization"; bstr "cookie"; bstr "set-cookie"])
  then Sensitive
  else if bool_decide (name ∈ [bstr ":path"; bstr "date"; bstr "etag"; bstr "if-none-match";
       bstr "last-modified"; bstr "content-length"; bstr "x-request-id"; bstr "traceparent"])
  then NotIndexed
  else Indexable.

Inductive Match := Full (i : Z) | Name (i : Z) | NoMatch.

(** One of the two scans of [find]: a full match, or the first index
    whose name matches. *)
Fixpoint scan (i : Z) (es : list Field) (name value : list Z) (name_only : option Z)
    : Z + option Z :=
  match es with
  | [] => inr name_only
  | (n, v) :: es =>
      if bool_decide (n = name) then
        if bool_decide (v = value) then inl i
        else scan (i + 1) es name value (get_or_insert i name_only)
      else scan (i + 1) es name value name_only
  end.

Definition find (table : DynamicTable.t) (name value : list Z) : Match :=
  match scan 1 STATIC_TABLE name value None with
  | inl i => Full i
  | inr name_only =>
      match scan (zlen STATIC_TABLE + 1) (DynamicTable.entries table) name value name_only with
      | inl i => Full i
      | inr name_only => from_option Name NoMatch name_only
      end
  end.

(** ** Integers and strings *)

(** [while rest >= 128]: a [u64] has at most ten 7-bit groups. *)
Fixpoint encode_groups (fuel : nat) (rest : Z) : list Z :=
  match fuel with
  | O => []
  | S fuel =>
      if 128 <=? rest then Z.lor (Z.land (u8 rest) 0x7f) 0x80 :: encode_groups fuel (Z.shiftr rest 7)
      else [u8 rest]
  end.

Definition encode_int (out : list Z) (value prefix_bits flags : Z) : list Z :=
  let mask := Z.shiftl 1 prefix_bits - 1 in
  if value <? mask then out ++ [Z.lor flags (u8 value)]
  else out ++ [Z.lor flags (u8 mask)] ++ encode_groups 10 (value - mask).

Definition encode_string (out s : list Z) (policy : HuffmanPolicy) : list Z :=
  let raw := encode_int out (zlen s) 7 0x00 ++ s in
  match policy with
  | WhenSmaller =>
      let n := Huffman.encoded_len s in
      if n <? zlen s then Huffman.encode_into (encode_int out n 7 0x80) s else raw
  | Never => raw
  end.

(** ** Validity *)

Definition PSEUDO : list (list Z) :=
  [bstr ":method"; bstr ":scheme"; bstr ":authority"; bstr ":path"; bstr ":status"; bstr ":protocol"].
Definition FORBIDDEN : list (list Z) :=
  [bstr "connection"; bstr "keep-alive"; bstr "proxy-connection"; bstr "transfer-encoding"; bstr "upgrade"].

Definition is_ascii_lowercase (b : Z) : bool := (97 <=? b) && (b <=? 122).
Definition is_ascii_digit (b : Z) : bool := (48 <=? b) && (b <=? 57).
Definition name_byte_ok (i : nat) (b : Z) : bool :=
  is_ascii_lowercase b || is_ascii_digit b
  || bool_decide (b ∈ bstr "!#$%&'*+-.^_`|~")
  || (bool_decide (i = 0%nat) && (b =? 58)).

(** The result is the new value of [seen_regular]. *)
Definition validate_field (name value : list Z) (seen_regular : bool) : result Http2Error.t bool :=
  match name with
  | [] => Err Http2Error.InvalidHeaderField
  | first :: _ =>
      let is_pseudo := first =? 58 in
      let? seen_regular :=
        if is_pseudo then
          if negb (bool_decide (name ∈ PSEUDO)) then Err Http2Error.InvalidHeaderField
          else if seen_regular then Err Http2Error.InvalidHeaderField
          else Ok seen_regular
        else if bool_decide (name ∈ FORBIDDEN) then Err Http2Error.InvalidHeaderField
        else if bool_decide (name = bstr "te") && negb (bool_decide (value = bstr "trailers"))
        then Err Http2Error.InvalidHeaderField
        else Ok true in
      if negb (forallb (fun p => name_byte_ok p.1 p.2) (imap pair name))
      then Err Http2Error.InvalidHeaderField
      else if existsb (fun b => (b =? 0) || (b =? 13) || (b =? 10)) value
      then Err Http2Error.InvalidHeaderField
      else
        let blank := fun b => (b =? 32) || (b =? 9) in
        match head value, last value with
        | Some first, Some last =>
            if blank first || blank last then Err Http2Error.InvalidHeaderField else Ok seen_regular
        | _, _ => Ok seen_regular
        end
  end.

Definition max_encoded_len (name value : list Z) : Z := 4 + 5 + zlen name + 5 + zlen value.

(** ** The encoder *)

Definition DEFAULT_TABLE_SIZE : Z := 4096.

Module HpackEncoder.
Record t := mk {
  table : DynamicTable.t;
  signalled_size : Z;
  target_size : Z;
  min_since_signal : Z;
  huffman : HuffmanPolicy;
  sensitivity : SensitivityFn;
  max_block_bytes : Z }.
#[global] Instance eta : Eta t := mk_eta (fun r =>
  mk (table r) (signalled_size r) (target_size r) (min_since_signal r) (huffman r)
     (sensitivity r) (max_block_bytes r)).

Definition new : t :=
  mk (DynamicTable.new DEFAULT_TABLE_SIZE DEFAULT_TABLE_SIZE)
     DEFAULT_TABLE_SIZE DEFAULT_TABLE_SIZE DEFAULT_TABLE_SIZE WhenSmaller default_sensitivity (64 * 1024).

Definition with_max_table_size (n : Z) (r : t) : t :=
  r <| table := DynamicTable.new (Z.min n (DynamicTable.max_size (table r))) n |>
    <| target_size ::= fun x => Z.min x n |>
    <| signalled_size ::= fun x => Z.min x n |>
    <| min_since_signal ::= fun x => Z.min x n |>.
Definition with_huffman (policy : HuffmanPolicy) (r : t) : t := r <| huffman := policy |>.
Definition with_sensitivity (f : SensitivityFn) (r : t) : t := r <| sensitivity := f |>.
Definition with_max_block_bytes (n : Z) (r : t) : t := r <| max_block_bytes := n |>.

Definition set_peer_max_table_size (n : Z) (r : t) : t :=
  let effective := Z.min n (DynamicTable.hard_max_size (table r)) in
  r <| min_since_signal ::= fun x => Z.min x effective |> <| target_size := effective |>.

(** The encoder and what it appends to the block. *)
Definition signal (n : Z) (st : t * list Z) : t * list Z :=
  let '(r, out) := st in
  (r <| table ::= DynamicTable.set_max_size n |> <| signalled_size := n |>, encode_int out n 5 0x20).

Definition emit_size_updates (st : t * list Z) : t * list Z :=
  let st := if min_since_signal st.1 <? signalled_size st.1 then signal (min_since_signal st.1) st else st in
  let st := if target_size st.1 =? signalled_size st.1 then st else signal (target_size st.1) st in
  (st.1 <| min_since_signal := signalled_size st.1 |>, st.2).

Definition encode_field (st : t * list Z) (f : Field) : t * list Z :=
  let '(r, out) := st in
  let '(name, value) := f in
  let sens := sensitivity r name value in
  let m := find (table r) name value in
  let full :=
    match m with
    | Full i => if (i <=? zlen STATIC_TABLE) || negb (bool_decide (sens = Sensitive)) then Some i else None
    | _ => None
    end in
  match full with
  | Some i => (r, encode_int out i 7 0x80)
  | None =>
      let name_idx := match m with Full i | Name i => i | NoMatch => 0 end in
      let indexable := bool_decide (sens = Indexable)
                       && (entry_size name value * 2 <=? DynamicTable.max_size (table r)) in
      let '(prefix, flags) :=
        if indexable then (6, 0x40)
        else match sens with Sensitive => (4, 0x10) | _ => (4, 0x00) end in
      let out := encode_int out name_idx prefix flags in
      let out := if name_idx =? 0 then encode_string out name (huffman r) else out in
      let out := encode_string out value (huffman r) in
      (if indexable then r <| table ::= DynamicTable.insert name value |> else r, out)
  end.

(** The checks that come first: the bound on the block, or an error. *)
Definition check_fields (fields : list Field) : result Http2Error.t Z :=
  let? (_, bound) :=
    rfold (fun (st : bool * Z) (f : Field) =>
      let? seen := validate_field f.1 f.2 st.1 in
      Ok (seen, sat_add st.2 (max_encoded_len f.1 f.2))) (false, 8) fields in
  Ok bound.

Definition encode_into (fields : list Field) (out : list Z) (r : t) : result Http2Error.t (t * list Z) :=
  if MAX_FIELDS_PER_BLOCK <? zlen fields then Err Http2Error.HeaderListTooLong
  else
    let? bound := check_fields fields in
    if max_block_bytes r <? bound then Err Http2Error.HeaderListTooLong
    else Ok (fold_left encode_field fields (emit_size_updates (r, out))).

Definition encode (fields : list Field) (r : t) : result Http2Error.t (t * list Z) :=
  encode_into fields [] r.
End HpackEncoder.

(** ** Lemmas *)

Module HpackEncodeFacts.
Import DynamicTable HpackFacts HuffmanFacts.

(** *** Integers *)

Lemma below_forall (n : nat) (P : Z -> bool) : forallb P (Z.of_nat <$> List.seq 0 n) = true ->
  forall x, 0 <= x < Z.of_nat n -> P x = true.
Proof.
  intros H x Hx. rewrite forallb_forall in H. apply H, list_elem_of_In, list_elem_of_fmap.
  exists (Z.to_nat x). split; [lia|]. apply elem_of_seq. lia.
Qed.

Lemma low7 x : 0 <= x < 128 ->
  Z.land (Z.lor x 128) 127 = x /\ Z.land (Z.lor x 128) 128 = 128 /\ Z.land x 127 = x /\ Z.land x 128 = 0 /\
  0 <= Z.lor x 128 < 256.
Proof.
  intros Hx. pose proof (below_forall 128 (fun x => (Z.land (Z.lor x 128) 127 =? x) && (Z.land (Z.lor x 128) 128 =? 128)
    && (Z.land x 127 =? x) && (Z.land x 128 =? 0) && (0 <=? Z.lor x 128) && (Z.lor x 128 <? 256))) as H.
  specialize (H ltac:(vm_compute; reflexivity) x Hx). cbv beta in H. zb. by split_and!.
Qed.

Lemma group_byte x : Z.land (u8 x) 127 = x mod 128.
Proof.
  unfold u8. change 127 with (Z.ones 7). rewrite Z.land_ones by lia.
  change (2 ^ 8) with 256. change (2 ^ 7) with 128. Z.to_euclidean_division_equations. lia.
Qed.

Lemma groups_decode fuel : forall rest shift v0 tail,
  0 <= rest < 128 ^ Z.of_nat (S fuel) -> (1 <= rest \/ shift = 0) -> 0 <= shift -> 0 <= v0 ->
  rest * 2 ^ shift < 2 ^ 63 -> v0 + rest * 2 ^ shift <= U64_MAX ->
  decode_cont (encode_groups (S fuel) rest ++ tail) shift v0 = Ok (v0 + rest * 2 ^ shift, tail) /\
  Forall is_byte (encode_groups (S fuel) rest).
Proof.
  induction fuel as [|fuel IH]; intros rest shift v0 tail Hr Hs Hs0 Hv Hb HU;
    (assert (0 < 2 ^ shift) as Hp by (apply Z.pow_pos_nonneg; lia));
    (assert (shift < 63) as Hs63 by (destruct Hs as [Hs| ->]; [apply (Z.pow_lt_mono_r_iff 2); nia|lia]));
    remember (128 <=? rest) as big eqn:Hbig; symmetry in Hbig.
  - zb. destruct big; zb; [change (128 ^ Z.of_nat 1) with 128 in Hr; lia|].
    cbn [encode_groups]. rewrite (proj2 (Z.leb_gt 128 rest)) by lia. cbn [app decode_cont].
    assert (u8 rest = rest) as -> by (apply Z.mod_small; lia). destruct (low7 rest) as (_ & _ & E3 & E4 & _); [lia|].
    rewrite (proj2 (Z.leb_gt 63 shift)) by lia. rewrite E3, E4, Z.shiftl_mul_pow2 by lia.
    assert (u64 (rest * 2 ^ shift) = rest * 2 ^ shift) as -> by (apply Z.mod_small; nia).
    cbv zeta. rewrite (proj2 (Z.ltb_ge U64_MAX _)) by lia. split; [done|]. repeat constructor; lia.
  - remember (S fuel) as f. cbn [encode_groups]. rewrite Hbig. destruct big; zb.
    + cbn [app decode_cont]. rewrite group_byte. set (x := rest mod 128).
      assert (0 <= x < 128) as Hx by (apply Z.mod_pos_bound; lia).
      destruct (low7 x Hx) as (E1 & E2 & _ & _ & E5).
      rewrite (proj2 (Z.leb_gt 63 shift)) by lia. rewrite E1, E2, Z.shiftl_mul_pow2 by lia.
      pose proof (Z.div_mod rest 128 ltac:(lia)) as Hd. fold x in Hd.
      assert (0 <= x * 2 ^ shift <= rest * 2 ^ shift) as Hxr by nia.
      assert (u64 (x * 2 ^ shift) = x * 2 ^ shift) as -> by (apply Z.mod_small; lia).
      cbv zeta. rewrite (proj2 (Z.ltb_ge U64_MAX _)) by lia. cbn [Z.eqb]. subst f.
      rewrite Z.shiftr_div_pow2 by lia. change (2 ^ 7) with 128.
      assert (2 ^ (shift + 7) = 2 ^ shift * 128) as E7 by (rewrite Z.pow_add_r by lia; done).
      assert (0 <= rest / 128 < 128 ^ Z.of_nat (S fuel)) as A1.
      { rewrite Nat2Z.inj_succ, Z.pow_succ_r in Hr by lia. split; [apply Z.div_pos; lia|].
        apply Z.div_lt_upper_bound; lia. }
      assert (1 <= rest / 128) as A2 by (apply Z.div_le_lower_bound; lia).
      assert (rest / 128 * 2 ^ (shift + 7) = rest * 2 ^ shift - x * 2 ^ shift) as A3 by (rewrite E7; nia).
      destruct (IH (rest / 128) (shift + 7) (v0 + x * 2 ^ shift) tail A1 (or_introl A2)) as [-> Hf];
        [lia|lia|rewrite A3; lia|rewrite A3; lia|].
      rewrite A3. split; [do 2 f_equal; lia|]. constructor; [unfold is_byte; lia|done].
    + cbn [app decode_cont].
      assert (u8 rest = rest) as -> by (apply Z.mod_small; lia). destruct (low7 rest) as (_ & _ & E3 & E4 & _); [lia|].
      rewrite (proj2 (Z.leb_gt 63 shift)) by lia. rewrite E3, E4, Z.shiftl_mul_pow2 by lia.
      assert (u64 (rest * 2 ^ shift) = rest * 2 ^ shift) as -> by (apply Z.mod_small; nia).
      cbv zeta. rewrite (proj2 (Z.ltb_ge U64_MAX _)) by lia. split; [done|]. repeat constructor; lia.
Qed.

(** The representations of RFC 7541, section 6: prefix size and flags. *)
Definition REPRESENTATIONS : list (Z * Z) := [(7, 0x80); (7, 0); (6, 0x40); (5, 0x20); (4, 0x10); (4, 0)].
Ltac rep := repeat split; unfold REPRESENTATIONS; repeat first [apply list_elem_of_here | apply list_elem_of_further].

Lemma first_byte p f x : (p, f) ∈ REPRESENTATIONS -> 0 <= x < 2 ^ p ->
  let b := Z.lor f (u8 x) in
  is_byte b /\ Z.land b (Z.shiftl 1 p - 1) = x /\
  Forall (fun k => 2 ^ p <= k -> Z.land b k = Z.land f k) [128; 64; 32].
Proof.
  intros Hin Hx b.
  assert (forallb (fun pf => let '(p, f) := pf in forallb (fun x => let b := Z.lor f (u8 x) in
    (0 <=? b) && (b <? 256) && (Z.land b (Z.shiftl 1 p - 1) =? x) &&
    forallb (fun k => (k <? 2 ^ p) || (Z.land b k =? Z.land f k)) [128; 64; 32])
    (Z.of_nat <$> List.seq 0 (Z.to_nat (2 ^ p)))) REPRESENTATIONS = true) as H by (vm_compute; reflexivity).
  rewrite forallb_forall in H. apply list_elem_of_In, H in Hin.
  pose proof (below_forall _ _ Hin x) as Hb. cbv beta zeta in Hb. fold b in Hb.
  specialize (Hb ltac:(lia)). apply andb_true_iff in Hb as [Hb Hk]. zb.
  split_and!; [unfold is_byte; lia..|done|]. rewrite forallb_forall in Hk. apply Forall_forall.
  intros k Hk' Hpk. apply list_elem_of_In, Hk in Hk'. apply orb_true_iff in Hk' as [Hk'|Hk']; zb; [lia|done].
Qed.

Lemma encode_int_app out value p f : encode_int out value p f = out ++ encode_int [] value p f.
Proof. unfold encode_int. by case_if. Qed.

Lemma mask_range p f : (p, f) ∈ REPRESENTATIONS -> 4 <= p <= 7 /\ Z.shiftl 1 p - 1 = 2 ^ p - 1 /\ 15 <= 2 ^ p - 1 < 128.
Proof.
  intros H. unfold REPRESENTATIONS in H.
  repeat (apply elem_of_cons in H as [[= -> ->]|H]; [split_and!; (lia || reflexivity)|]).
  by apply not_elem_of_nil in H.
Qed.

(** An encoded integer decodes to itself, and its first byte carries the
    flags. *)
Lemma encode_int_spec value p f tail : (p, f) ∈ REPRESENTATIONS -> 0 <= value < 2 ^ 63 ->
  exists b code, encode_int [] value p f = b :: code /\ is_byte b /\ Forall is_byte code /\
    Forall (fun k => 2 ^ p <= k -> Z.land b k = Z.land f k) [128; 64; 32] /\
    decode_int (b :: code ++ tail) p = Ok (value, tail).
Proof.
  intros Hin Hv. destruct (mask_range p f Hin) as (Hp & Em & Hm). unfold encode_int. rewrite Em.
  destruct (Z.ltb_spec value (2 ^ p - 1)).
  - destruct (first_byte p f value Hin) as (H1 & H2 & H3); [lia|]. cbn [app].
    eexists _, []. split; [reflexivity|]. split_and!; [exact H1|by apply Forall_nil|exact H3|].
    unfold decode_int. cbn [app]. rewrite H2, Em. by rewrite (proj2 (Z.ltb_lt value _)).
  - destruct (first_byte p f (2 ^ p - 1) Hin) as (H1 & H2 & H3); [lia|]. cbn [app].
    destruct (groups_decode 9 (value - (2 ^ p - 1)) 0 (2 ^ p - 1) tail) as [Hd Hf];
      try (change (128 ^ Z.of_nat 10) with (2 ^ 70)); rewrite ?Z.pow_0_r; [split; [lia|]|by right|lia|lia|lia|unfold U64_MAX; lia|].
    { assert (2 ^ 63 < 2 ^ 70) by (apply Z.pow_lt_mono_r; lia). lia. }
    eexists _, _. split; [reflexivity|]. split_and!; [exact H1|exact Hf|exact H3|].
    unfold decode_int. rewrite H2, Em. rewrite Z.ltb_irrefl, Hd. rewrite Z.pow_0_r. do 2 f_equal. lia.
Qed.

Lemma encode_int_bytes value p f : (p, f) ∈ REPRESENTATIONS -> 0 <= value < 2 ^ 63 -> Forall is_byte (encode_int [] value p f).
Proof.
  intros Hin Hv. destruct (encode_int_spec value p f [] Hin Hv) as (b & code & -> & H1 & H2 & _). by constructor.
Qed.

(** *** Strings *)

Definition shape_ok (s : list Z) : Prop := Forall is_byte s /\ zlen s < 2 ^ 56.

Lemma encoded_len_range s : Forall is_byte s -> 0 <= Huffman.encoded_len s.
Proof. intros H. rewrite <- encoded_len_spec by done. apply zlen_nonneg. Qed.

Lemma encode_string_app out s policy : Forall is_byte out -> shape_ok s ->
  encode_string out s policy = out ++ encode_string [] s policy.
Proof.
  intros Ho [Hs Hl]. unfold encode_string. cbv zeta. pose proof (encoded_len_range s Hs).
  pose proof (encode_int_app out (Huffman.encoded_len s) 7 128) as E.
  assert (encode_int out (zlen s) 7 0 ++ s = out ++ encode_int [] (zlen s) 7 0 ++ s) as Hraw.
  { rewrite (encode_int_app out). by rewrite <- app_assoc. }
  destruct policy; [|exact Hraw]. destruct (Z.ltb_spec (Huffman.encoded_len s) (zlen s)); [|exact Hraw].
  assert (Forall is_byte (encode_int [] (Huffman.encoded_len s) 7 128)) as Hi by (apply encode_int_bytes; [rep|lia]).
  rewrite (encode_into_app (encode_int out _ _ _)), (encode_into_app (encode_int [] _ _ _)), E, <- app_assoc; try done.
  rewrite E. by apply Forall_app.
Qed.

Lemma encode_string_spec s policy tail : shape_ok s ->
  Forall is_byte (encode_string [] s policy) /\
  decode_string (encode_string [] s policy ++ tail) = Ok (s, tail).
Proof.
  intros [Hs Hl]. pose proof (encoded_len_range s Hs) as He. pose proof (zlen_nonneg s).
  assert ((7, 0) ∈ REPRESENTATIONS /\ (7, 128) ∈ REPRESENTATIONS) as [R0 R1] by rep.
  assert (Forall is_byte (encode_int [] (zlen s) 7 0 ++ s) /\
    decode_string ((encode_int [] (zlen s) 7 0 ++ s) ++ tail) = Ok (s, tail)) as Hraw.
  { destruct (encode_int_spec (zlen s) 7 0 (s ++ tail) R0) as (b & code & E & Hb & Hc & Hk & Hd); [lia|].
    rewrite E. split; [by apply Forall_app; split; [constructor|]|]. cbn [app]. rewrite <- app_assoc.
    unfold decode_string. rewrite Hd. cbn [rbind]. rewrite (proj2 (Z.ltb_ge _ _)) by zlia.
    rewrite ztake_app_le, ztake_ge, zdrop_app_ge, Z.sub_diag, zdrop_0 by lia.
    inversion Hk as [|? ? Hk1 _]; subst. rewrite Hk1 by done. done. }
  unfold encode_string. destruct policy; [|exact Hraw]. cbv zeta.
  destruct (Z.ltb_spec (Huffman.encoded_len s) (zlen s)); [|exact Hraw].
  set (n := Huffman.encoded_len s) in *.
  assert (Forall is_byte (encode_int [] n 7 128)) as Hi by (apply encode_int_bytes; [done|lia]).
  rewrite encode_into_app by done. pose proof (encoded_len_spec s Hs) as Hn. pose proof (decode_encode s Hs) as Hde.
  destruct (encode_bits s Hs) as (k & _ & _ & Hf). set (code := Huffman.encode_into [] s) in *.
  split; [by apply Forall_app|]. rewrite <- app_assoc.
  destruct (encode_int_spec n 7 128 (code ++ tail) R1) as (b & c & E & Hb & Hc & Hk & Hd); [lia|].
  rewrite E. cbn [app]. unfold decode_string. rewrite Hd. cbn [rbind]. rewrite (proj2 (Z.ltb_ge _ _)) by zlia.
  fold n in Hn. rewrite ztake_app_le, ztake_ge, zdrop_app_ge, Hn, Z.sub_diag, zdrop_0 by lia.
  inversion Hk as [|? ? Hk1 _]; subst. rewrite Hk1 by done. cbn. by rewrite Hde.
Qed.

(** *** The index space *)

Lemma scan_spec name value es : forall i no,
  match scan i es name value no with
  | inl j => exists k, es !! k = Some (name, value) /\ j = i + Z.of_nat k
  | inr (Some j) => no = Some j \/ exists k v, es !! k = Some (name, v) /\ j = i + Z.of_nat k
  | inr None => True
  end.
Proof.
  induction es as [|[n v] es IH]; intros i no; cbn [scan]; [destruct no; [by left|done]|].
  repeat case_bool_decide; subst.
  - exists 0%nat. split; [done|lia].
  - specialize (IH (i + 1) (get_or_insert i no)). destruct (scan _ _ _ _ _) as [j|[j|]]; [| |done].
    + destruct IH as (k & Hk & ->). exists (S k). split; [done|lia].
    + destruct IH as [IH|(k & v' & Hk & ->)]; [|right; exists (S k), v'; split; [done|lia]].
      destruct no; cbn in IH; [by left|]. injection IH as <-. right. exists 0%nat, v. split; [done|lia].
  - specialize (IH (i + 1) no). destruct (scan _ _ _ _ _) as [j|[j|]]; [| |done].
    + destruct IH as (k & Hk & ->). exists (S k). split; [done|lia].
    + destruct IH as [IH|(k & v' & Hk & ->)]; [by left|right; exists (S k), v'; split; [done|lia]].
Qed.

Lemma lookup_zlen {A} (l : list A) k x : l !! k = Some x -> Z.of_nat k < zlen l.
Proof. intros H%lookup_lt_Some. unfold zlen. lia. Qed.

Lemma resolve_static td k f : STATIC_TABLE !! k = Some f -> HpackDecoder.resolve td (1 + Z.of_nat k) = Ok f.
Proof.
  intros Hk. pose proof (lookup_zlen STATIC_TABLE k f Hk) as Hl. unfold HpackDecoder.resolve.
  destruct (Z.eqb_spec (1 + Z.of_nat k) 0); [lia|]. destruct (Z.leb_spec (1 + Z.of_nat k) (zlen STATIC_TABLE)); [|lia].
  replace (1 + Z.of_nat k - 1) with (Z.of_nat k) by lia. rewrite Nat2Z.id. by rewrite (nth_lookup_Some _ _ _ _ Hk).
Qed.

Lemma resolve_dynamic td k f : entries td !! k = Some f ->
  HpackDecoder.resolve td (zlen STATIC_TABLE + 1 + Z.of_nat k) = Ok f.
Proof.
  intros Hk. unfold HpackDecoder.resolve. pose proof (zlen_nonneg STATIC_TABLE).
  destruct (Z.eqb_spec (zlen STATIC_TABLE + 1 + Z.of_nat k) 0); [lia|].
  destruct (Z.leb_spec (zlen STATIC_TABLE + 1 + Z.of_nat k) (zlen STATIC_TABLE)); [lia|]. unfold get.
  replace (Z.to_nat _) with k by lia. by rewrite Hk.
Qed.

(** What [find] returns resolves, on any decoder that holds at least the
    encoder's entries. *)
Lemma find_spec te td name value : entries te `prefix_of` entries td ->
  match find te name value with
  | Full i => 0 < i <= zlen STATIC_TABLE + zlen (entries te) /\ HpackDecoder.resolve td i = Ok (name, value)
  | Name i => 0 < i <= zlen STATIC_TABLE + zlen (entries te) /\ exists v, HpackDecoder.resolve td i = Ok (name, v)
  | NoMatch => True
  end.
Proof.
  intros Hp. unfold find. pose proof (scan_spec name value STATIC_TABLE 1 None) as Hs.
  destruct (scan 1 _ _ _ _) as [j|no].
  { destruct Hs as (k & Hk & ->). pose proof (lookup_zlen STATIC_TABLE k _ Hk). pose proof (zlen_nonneg (entries te)).
    split; [lia|by apply resolve_static]. }
  pose proof (scan_spec name value (entries te) (zlen STATIC_TABLE + 1) no) as Hd. pose proof (zlen_nonneg STATIC_TABLE).
  destruct (scan (zlen STATIC_TABLE + 1) _ _ _ _) as [j|[j|]]; [| |done].
  - destruct Hd as (k & Hk & ->). pose proof (lookup_zlen (entries te) k _ Hk).
    split; [lia|]. by eapply resolve_dynamic, prefix_lookup_Some.
  - destruct Hd as [->|(k & v & Hk & ->)].
    + destruct Hs as [?|(k & v & Hk & ->)]; [done|]. pose proof (lookup_zlen STATIC_TABLE k _ Hk).
      pose proof (zlen_nonneg (entries te)). split; [lia|]. exists v. by apply resolve_static.
    + pose proof (lookup_zlen (entries te) k _ Hk). split; [lia|]. exists v.
      by eapply resolve_dynamic, prefix_lookup_Some.
Qed.

(** *** Encoder and decoder in step *)

Import HpackEncoder.

(** The decoder holds what the encoder believes it to hold, perhaps with
    older entries behind it. *)
Record in_step (r : HpackEncoder.t) (td : DynamicTable.t) : Prop := {
  is_prefix : entries (table r) `prefix_of` entries td;
  is_te : table_ok (table r);
  is_td : table_ok td;
  is_max : max_size (table r) <= max_size td;
  is_hard : hard_max_size (table r) <= hard_max_size td;
  is_small : hard_max_size (table r) < 2 ^ 56;
  is_signalled : signalled_size r = max_size (table r);
  is_target : 0 <= target_size r <= hard_max_size (table r);
  is_min : 0 <= min_since_signal r <= hard_max_size (table r) }.

Lemma insert_step n v r td : in_step r td ->
  in_step (r <| table ::= insert n v |>) (insert n v td).
Proof.
  intros [H1 H2 H3 H4 H5 H6 H7 H8 H9].
  destruct (insert_frame n v _ H2) as (E1 & E2 & E3). destruct (insert_frame n v _ H3) as (F1 & F2 & F3).
  split; cbn -[insert]; rewrite ?E1, ?E2, ?E3, ?F1, ?F2, ?F3; try done; try by apply insert_ok.
  apply fit_mono; [done|]. by apply prefix_cons.
Qed.

(** A size update reaches the decoder. *)
Lemma signal_step n r td : in_step r td -> 0 <= n <= hard_max_size (table r) ->
  in_step (signal n (r, [])).1 (DynamicTable.set_max_size n td) /\ max_size (DynamicTable.set_max_size n td) = n.
Proof.
  intros [H1 H2 H3 H4 H5 H6 H7 H8 H9] Hn.
  destruct (set_max_size_frame n _ (proj1 Hn) H2) as (E1 & E2 & E3).
  destruct (set_max_size_frame n _ (proj1 Hn) H3) as (F1 & F2 & F3).
  split; [|rewrite F2; lia].
  split; cbn -[DynamicTable.set_max_size]; rewrite ?E1, ?E2, ?E3, ?F1, ?F2, ?F3; try done; try lia; try (apply set_max_size_ok; [lia|done]).
  apply fit_mono; [lia|done].
Qed.

(** *** One field *)

(** The literal representations. *)
Definition literal_code (p f idx : Z) (name value : list Z) (policy : HuffmanPolicy) : list Z :=
  encode_int [] idx p f ++ (if idx =? 0 then encode_string [] name policy else []) ++
  encode_string [] value policy.

Definition names (td : DynamicTable.t) (idx : Z) (name : list Z) : Prop :=
  0 <= idx < 2 ^ 63 /\ (0 < idx -> exists v, HpackDecoder.resolve td idx = Ok (name, v)).

Lemma literal_spec td p f idx name value policy tail :
  (p, f) ∈ REPRESENTATIONS -> names td idx name -> shape_ok name -> shape_ok value ->
  Forall is_byte (literal_code p f idx name value policy) /\
  exists first rest, literal_code p f idx name value policy ++ tail = first :: rest /\
    Forall (fun k => 2 ^ p <= k -> Z.land first k = Z.land f k) [128; 64; 32] /\
    HpackDecoder.decode_literal td (first :: rest) p = Ok (name, value, tail).
Proof.
  intros Hin [Hidx Hres] Hn Hv. unfold literal_code.
  set (ns := if idx =? 0 then encode_string [] name policy else []).
  destruct (encode_string_spec value policy tail Hv) as [Bv Dv].
  assert (Forall is_byte ns) as Bn.
  { unfold ns. case_if; [|by apply Forall_nil]. by apply (encode_string_spec name policy []). }
  destruct (encode_int_spec idx p f (ns ++ encode_string [] value policy ++ tail) Hin Hidx) as (b & code & E & Hb & Hc & Hk & Hd).
  rewrite E. split; [apply Forall_app; split; [by constructor|by apply Forall_app]|].
  eexists b, _. split; [cbn [app]; rewrite <- !app_assoc; reflexivity|]. split; [done|].
  unfold HpackDecoder.decode_literal. rewrite Hd. cbn [rbind]. unfold ns.
  destruct (Z.eqb_spec idx 0) as [->|Hne].
  - rewrite (proj2 (encode_string_spec name policy _ Hn)). cbn [rbind]. by rewrite Dv.
  - destruct Hres as [v Hr]; [lia|]. rewrite Hr. cbn [rbind fst app]. by rewrite Dv.
Qed.

(** What [encode_field] appends, and the decoder's side of it. *)
Definition field_step (r : HpackEncoder.t) (td : DynamicTable.t) (f : Field) (st : HpackEncoder.t * list Z)
    (out : list Z) : Prop :=
  exists code, st.2 = out ++ code /\ Forall is_byte code /\
  exists td', in_step st.1 td' /\ max_block_bytes st.1 = max_block_bytes r /\
  forall tail, exists first rest, code ++ tail = first :: rest /\
    HpackDecoder.decode_one td first (first :: rest) = Ok ([f], tail, td').

Lemma field_literal r td p f idx name value out :
  in_step r td -> (p, f) ∈ REPRESENTATIONS -> names td idx name -> shape_ok name -> shape_ok value ->
  Forall is_byte out ->
  let out' := encode_int out idx p f in
  let out' := if idx =? 0 then encode_string out' name (huffman r) else out' in
  encode_string out' value (huffman r) = out ++ literal_code p f idx name value (huffman r).
Proof.
  intros Hs Hin [Hidx _] Hn Hv Ho. cbv zeta. rewrite (encode_int_app out). unfold literal_code.
  assert (Forall is_byte (encode_int [] idx p f)) as Hi by by apply encode_int_bytes.
  assert (Forall is_byte (out ++ encode_int [] idx p f)) as Hoi by by apply Forall_app.
  case_if.
  - rewrite encode_string_app; [|rewrite encode_string_app by done; apply Forall_app; split; [done|]|done].
    + rewrite (encode_string_app (out ++ _)) by done. by rewrite <- !app_assoc.
    + by apply (encode_string_spec name (huffman r) []).
  - rewrite encode_string_app by done. by rewrite <- app_assoc.
Qed.

Lemma encode_field_spec r td name value out :
  in_step r td -> shape_ok name -> shape_ok value -> Forall is_byte out ->
  field_step r td (name, value) (encode_field (r, out) (name, value)) out.
Proof.
  intros Hs Hn Hv Ho. pose proof (find_spec (table r) td name value (is_prefix _ _ Hs)) as Hf.
  assert (zlen STATIC_TABLE = 61) as E61 by reflexivity.
  assert (zlen (entries (table r)) < 2 ^ 56) as Hlen.
  { destruct (is_te _ _ Hs) as [T1 T2 T3]. pose proof (total_len (entries (table r))). pose proof (is_small _ _ Hs).
    zlen_facts. lia. }
  unfold encode_field. set (m := find (table r) name value) in *. cbv zeta.
  set (full := match m with Full i => _ | _ => None end). assert (forall i, full = Some i -> m = Full i) as Hfull.
  { unfold full. destruct m; [|done..]. case_match; congruence. }
  destruct full as [i|] eqn:Efull.
  - rewrite (Hfull i eq_refl) in Hf.
    destruct Hf as [Hi Hr]. exists (encode_int [] i 7 128). cbn [fst snd].
    split; [by rewrite encode_int_app|]. split; [apply encode_int_bytes; [rep|lia]|].
    exists td. split; [done|]. split; [done|]. intros tail.
    destruct (encode_int_spec i 7 128 tail) as (b & code & -> & _ & _ & Hk & Hd); [rep|lia|].
    exists b, (code ++ tail). split; [done|]. unfold HpackDecoder.decode_one.
    inversion Hk as [|? ? Hk1 _]; subst. rewrite Hk1 by done. cbn [Z.land Pos.land Z.eqb negb].
    rewrite Hd. cbn [rbind]. by rewrite Hr.
  - set (idx := match m with Full i | Name i => i | NoMatch => 0 end).
    assert (names td idx name) as Hidx.
    { unfold names, idx. destruct m as [i|i|]; [destruct Hf as [Hi Hr]|destruct Hf as [Hi Hr]|]; split; try lia; eauto. }
    clear Hf. destruct (bool_decide _ && _) eqn:Eidx.
    + exists (literal_code 6 64 idx name value (huffman r)). cbn [fst snd].
      split; [by apply (field_literal r td); try done; rep|].
      split; [by apply (literal_spec td 6 64 idx name value (huffman r) []); try done; rep|].
      exists (insert name value td). split; [by apply insert_step|]. split; [done|]. intros tail.
      destruct (literal_spec td 6 64 idx name value (huffman r) tail) as (_ & b & rest & E & Hk & Hd); try done; [rep|].
      exists b, rest. split; [done|]. unfold HpackDecoder.decode_one.
      inversion Hk as [|? ? Hk1 Hk2]; subst. inversion Hk2 as [|? ? Hk3 _]; subst. rewrite Hk1, Hk3 by done.
      cbn [Z.land Pos.land Z.eqb negb]. by rewrite Hd.
    + set (f := match sensitivity r name value with Sensitive => 16 | _ => 0 end).
      assert ((match sensitivity r name value with Sensitive => (4, 16) | _ => (4, 0) end) = (4, f)) as ->
        by (unfold f; by destruct (sensitivity r name value)).
      assert ((4, f) ∈ REPRESENTATIONS) as Hrep by (unfold f; destruct (sensitivity r name value); rep).
      exists (literal_code 4 f idx name value (huffman r)). cbn [fst snd].
      split; [by apply (field_literal r td)|].
      split; [by apply (literal_spec td 4 f idx name value (huffman r) [])|].
      exists td. split; [done|]. split; [done|]. intros tail.
      destruct (literal_spec td 4 f idx name value (huffman r) tail) as (_ & b & rest & E & Hk & Hd); try done.
      exists b, rest. split; [done|]. unfold HpackDecoder.decode_one.
      inversion Hk as [|? ? Hk1 Hk2]; subst. inversion Hk2 as [|? ? Hk3 Hk4]; subst. inversion Hk4 as [|? ? Hk5 _]; subst.
      rewrite Hk1, Hk3, Hk5 by done. assert (Z.land f 128 = 0 /\ Z.land f 64 = 0 /\ Z.land f 32 = 0) as (-> & -> & ->)
        by (unfold f; by destruct (sensitivity r name value)).
      cbn [Z.eqb negb]. by rewrite Hd.
Qed.

(** *** A block *)

Definition update_step (td : DynamicTable.t) (st : HpackEncoder.t * list Z) (st' : HpackEncoder.t * list Z) : Prop :=
  exists code td', st'.2 = st.2 ++ code /\ Forall is_byte code /\ in_step st'.1 td' /\
    max_block_bytes st'.1 = max_block_bytes st.1 /\
    forall tail, decode_rest td [] (code ++ tail) = decode_rest td' [] tail.

Lemma update_step_refl td st : in_step st.1 td -> update_step td st st.
Proof. intros H. exists [], td. rewrite app_nil_r. by split_and!. Qed.

Lemma signal_update n td st : in_step st.1 td -> 0 <= n <= hard_max_size (table st.1) ->
  update_step td st (signal n st).
Proof.
  destruct st as [r out]. cbn [fst]. intros Hs Hn. pose proof (is_small _ _ Hs). pose proof (is_hard _ _ Hs).
  exists (encode_int [] n 5 32), (DynamicTable.set_max_size n td). cbn [signal fst snd].
  split; [apply encode_int_app|]. split; [apply encode_int_bytes; [rep|lia]|].
  split; [by apply (signal_step n r td)|]. split; [done|]. intros tail.
  destruct (encode_int_spec n 5 32 tail) as (b & code & -> & _ & _ & Hk & Hd); [rep|lia|].
  cbn [app]. rewrite decode_rest_cons; [|apply Hs|done]. unfold HpackDecoder.decode_one.
  inversion Hk as [|? ? Hk1 Hk2]; subst. inversion Hk2 as [|? ? Hk3 Hk4]; subst. inversion Hk4 as [|? ? Hk5 _]; subst.
  rewrite Hk1, Hk3, Hk5 by done. cbn [Z.land Pos.land Z.eqb negb]. rewrite Hd. cbn [rbind].
  rewrite (proj2 (Z.ltb_ge _ n)) by lia. done.
Qed.

Lemma emit_update td st : in_step st.1 td -> update_step td st (emit_size_updates st).
Proof.
  intros Hs. unfold emit_size_updates.
  set (st1 := if min_since_signal st.1 <? signalled_size st.1 then _ else st).
  assert (update_step td st st1 /\ target_size st1.1 = target_size st.1) as [U1 Et].
  { unfold st1. case_if; [|split; [by apply update_step_refl|done]].
    split; [by apply signal_update; [|apply (is_min _ _ Hs)]|by destruct st]. }
  destruct U1 as (c1 & td1 & E1 & B1 & S1 & M1 & D1).
  set (st2 := if target_size st1.1 =? signalled_size st1.1 then st1 else _).
  assert (update_step td1 st1 st2) as (c2 & td2 & E2 & B2 & S2 & M2 & D2).
  { unfold st2. case_if; [by apply update_step_refl|]. apply signal_update; [done|apply (is_target _ _ S1)]. }
  exists (c1 ++ c2), td2. cbn [fst snd]. split; [by rewrite E2, E1, app_assoc|].
  split; [by apply Forall_app|]. split_and!.
  - destruct S2 as [H1 H2 H3 H4 H5 H6 H7 H8 H9]. split; try done. cbn. rewrite H7. destruct H2. lia.
  - cbn. congruence.
  - intros tail. rewrite <- app_assoc, D1. apply D2.
Qed.

Lemma encode_field_step td st f :
  in_step st.1 td -> shape_ok f.1 -> shape_ok f.2 -> Forall is_byte st.2 ->
  field_step st.1 td f (encode_field st f) st.2.
Proof. destruct st as [r out], f as [name value]. apply encode_field_spec. Qed.

Definition fields_step (td : DynamicTable.t) (done fields : list Field) (st st' : HpackEncoder.t * list Z) : Prop :=
  exists code td', st'.2 = st.2 ++ code /\ Forall is_byte code /\ in_step st'.1 td' /\
    max_block_bytes st'.1 = max_block_bytes st.1 /\
    forall tail, decode_rest td done (code ++ tail) = decode_rest td' (done ++ fields) tail.

Lemma field_step_fields td done f st st' :
  in_step st.1 td -> zlen done < MAX_FIELDS_PER_BLOCK ->
  field_step st.1 td f st' st.2 -> fields_step td done [f] st st'.
Proof.
  intros Hs Hl (c & E & B & td1 & S1 & M1 & D1). exists c, td1. split; [done|]. split; [done|].
  split; [done|]. split; [done|]. intros tail. destruct (D1 tail) as (b & rest & -> & Hd).
  rewrite decode_rest_cons; [|exact (is_td _ _ Hs)|done]. by rewrite Hd.
Qed.

Lemma fields_step_trans td done fs gs st st1 st2 :
  fields_step td done fs st st1 ->
  (forall td1, in_step st1.1 td1 -> fields_step td1 (done ++ fs) gs st1 st2) ->
  fields_step td done (fs ++ gs) st st2.
Proof.
  intros (c1 & td1 & E1 & B1 & S1 & M1 & D1) H. destruct (H td1 S1) as (c2 & td2 & E2 & B2 & S2 & M2 & D2).
  exists (c1 ++ c2), td2. split; [by rewrite E2, E1, app_assoc|]. split; [by apply Forall_app|].
  split; [done|]. split; [congruence|]. intros tail. by rewrite <- app_assoc, D1, D2, app_assoc.
Qed.

Lemma encode_fields_spec fields : forall st td done,
  in_step st.1 td -> Forall (fun f : Field => shape_ok f.1 /\ shape_ok f.2) fields -> Forall is_byte st.2 ->
  zlen done + zlen fields <= MAX_FIELDS_PER_BLOCK ->
  fields_step td done fields st (fold_left encode_field fields st).
Proof.
  induction fields as [|f fields IH]; intros st td done Hs Hf Ho Hl.
  - exists [], td. rewrite !app_nil_r. by split_and!.
  - inversion Hf as [|? ? [Hn Hv] Hf']; subst. rewrite zlen_cons in Hl. pose proof (zlen_nonneg fields).
    pose proof (encode_field_step td st f Hs Hn Hv Ho) as Hstep.
    pose proof Hstep as (c & E & B & _).
    change (f :: fields) with ([f] ++ fields). rewrite fold_left_app.
    change (fold_left encode_field [f] st) with (encode_field st f).
    apply (fields_step_trans td done [f] fields st (encode_field st f)).
    + apply field_step_fields; [done|lia|done].
    + intros td1 S1. apply IH; [done|done|rewrite E; by apply Forall_app|]. rewrite zlen_app.
      change (zlen [f]) with 1. lia.
Qed.

Definition field_bytes (f : Field) : Prop := Forall is_byte f.1 /\ Forall is_byte f.2.

Fixpoint bound_sum (fs : list Field) : Z :=
  match fs with [] => 0 | f :: fs => max_encoded_len f.1 f.2 + bound_sum fs end.

Lemma bound_sum_nonneg fs : 0 <= bound_sum fs.
Proof. induction fs as [|f fs IH]; cbn [bound_sum]; [lia|]. unfold max_encoded_len. zlen_facts. lia. Qed.

Lemma check_fields_bound fields : forall seen b seen' b',
  rfold (fun (st : bool * Z) (f : Field) =>
      let? seen := validate_field f.1 f.2 st.1 in
      Ok (seen, sat_add st.2 (max_encoded_len f.1 f.2))) (seen, b) fields = Ok (seen', b') ->
  b' < U64_MAX -> b' = b + bound_sum fields.
Proof.
  induction fields as [|f fields IH]; intros seen b seen' b'; cbn [rfold bound_sum].
  - intros [= <- <-]. lia.
  - intros ([seen1 b1] & (seen2 & _ & [= <- <-])%rbind_Ok & H)%rbind_Ok Hb.
    pose proof (IH _ _ _ _ H Hb) as E. cbn [snd] in E. unfold sat_add in E.
    pose proof (bound_sum_nonneg fields). lia.
Qed.

Lemma bound_shapes fields n : bound_sum fields <= n ->
  Forall (fun f : Field => zlen f.1 <= n /\ zlen f.2 <= n) fields.
Proof.
  revert n. induction fields as [|f fields IH]; intros n H; cbn [bound_sum] in H; [by apply Forall_nil|].
  pose proof (bound_sum_nonneg fields). unfold max_encoded_len in H. zlen_facts.
  apply Forall_cons. split; [lia|]. apply IH. lia.
Qed.

Lemma encode_into_spec r td fields r' out block :
  in_step r td -> max_block_bytes r < 2 ^ 56 -> Forall field_bytes fields -> Forall is_byte out ->
  encode_into fields out r = Ok (r', block) ->
  exists code td', block = out ++ code /\ Forall is_byte code /\ HpackDecoder.decode td code = (Ok fields, td') /\
    in_step r' td' /\ max_block_bytes r' = max_block_bytes r.
Proof.
  intros Hs Hm Hf Ho. unfold encode_into. case_if; [done|]. intros (bound & Hb & H)%rbind_Ok.
  revert H. case_if; [done|]. intros [= Hst]. unfold check_fields in Hb.
  apply rbind_Ok in Hb as ([seen bound'] & Hb & [= ->]).
  apply check_fields_bound in Hb; [|unfold U64_MAX; lia].
  assert (Forall (fun f : Field => shape_ok f.1 /\ shape_ok f.2) fields) as Hsh.
  { pose proof (bound_shapes fields (bound - 8) ltac:(lia)) as Hz. apply Forall_forall. intros f Hin.
    pose proof (proj1 (Forall_forall _ _) Hz f Hin) as [? ?]. pose proof (proj1 (Forall_forall _ _) Hf f Hin) as [? ?].
    unfold shape_ok. split; (split; [done|lia]). }
  destruct (emit_update td (r, out) Hs) as (c1 & td1 & E1 & B1 & S1 & M1 & D1).
  destruct (emit_size_updates (r, out)) as [r1 out1]. cbn [fst snd] in *. subst out1.
  destruct (encode_fields_spec fields (r1, out ++ c1) td1 [] S1 Hsh) as (c2 & td2 & E2 & B2 & S2 & M2 & D2).
  { by apply Forall_app. } { zlia. }
  rewrite Hst in E2, S2, M2. cbn [fst snd] in *.
  exists (c1 ++ c2), td2. split; [by rewrite E2, app_assoc|]. split; [by apply Forall_app|].
  split; [|split; [done|congruence]]. change (decode_rest td [] (c1 ++ c2) = (Ok fields, td2)).
  rewrite D1. specialize (D2 []). rewrite app_nil_r in D2. rewrite D2. by destruct fields.
Qed.

(** *** How long a block is *)

Lemma groups_len k : forall fuel rest, (0 < k <= fuel)%nat -> 0 <= rest < 128 ^ Z.of_nat k ->
  zlen (encode_groups fuel rest) <= Z.of_nat k.
Proof.
  induction k as [|k IH]; intros fuel rest Hk Hr; [lia|]. destruct fuel as [|fuel]; [lia|].
  cbn [encode_groups]. case_if; [|unfold zlen; cbn; lia]. rewrite zlen_cons.
  destruct k as [|k]; [change (128 ^ Z.of_nat 1) with 128 in Hr; lia|].
  assert (zlen (encode_groups fuel (Z.shiftr rest 7)) <= Z.of_nat (S k)); [|lia].
  apply IH; [lia|]. rewrite Z.shiftr_div_pow2 by lia. change (2 ^ 7) with 128.
  rewrite (Nat2Z.inj_succ (S k)), Z.pow_succ_r in Hr by lia.
  split; [apply Z.div_pos; lia|apply Z.div_lt_upper_bound; lia].
Qed.

Lemma encode_int_len k value p f : (p, f) ∈ REPRESENTATIONS -> (0 < k <= 10)%nat ->
  0 <= value < 128 ^ Z.of_nat k -> zlen (encode_int [] value p f) <= 1 + Z.of_nat k.
Proof.
  intros Hin Hk Hv. destruct (mask_range p f Hin) as (Hp & Em & Hm). unfold encode_int. rewrite Em.
  case_if; cbn [app]; rewrite zlen_cons; [unfold zlen; cbn; lia|].
  pose proof (groups_len k 10 (value - (2 ^ p - 1)) Hk ltac:(lia)). lia.
Qed.

Lemma encode_string_len s policy : shape_ok s -> zlen s < 2 ^ 28 -> zlen (encode_string [] s policy) <= 5 + zlen s.
Proof.
  intros [Hs _] Hl. pose proof (encoded_len_range s Hs). zlen_facts.
  assert (zlen (encode_int [] (zlen s) 7 0 ++ s) <= 5 + zlen s) as Hraw.
  { rewrite zlen_app. pose proof (encode_int_len 4 (zlen s) 7 0 ltac:(rep) ltac:(lia)) as H'.
    change (128 ^ Z.of_nat 4) with (2 ^ 28) in H'. specialize (H' ltac:(lia)). lia. }
  unfold encode_string. destruct policy; [|exact Hraw]. cbv zeta. case_if; [|exact Hraw].
  pose proof (encode_int_len 4 (Huffman.encoded_len s) 7 128 ltac:(rep) ltac:(lia)) as H'.
  change (128 ^ Z.of_nat 4) with (2 ^ 28) in H'. specialize (H' ltac:(lia)).
  rewrite encode_into_app; [|apply encode_int_bytes; [rep|lia]|done].
  rewrite zlen_app, encoded_len_spec by done. lia.
Qed.

Lemma encode_field_len st f td : in_step st.1 td -> hard_max_size (table st.1) <= 2 ^ 20 ->
  shape_ok f.1 -> shape_ok f.2 -> zlen f.1 < 2 ^ 28 -> zlen f.2 < 2 ^ 28 -> Forall is_byte st.2 ->
  zlen (encode_field st f).2 <= zlen st.2 + max_encoded_len f.1 f.2 /\
  hard_max_size (table (encode_field st f).1) = hard_max_size (table st.1).
Proof.
  destruct st as [r out], f as [name value]. cbn [fst snd]. intros Hs Hh Hn Hv Ln Lv Ho.
  pose proof (find_spec (table r) td name value (is_prefix _ _ Hs)) as Hf.
  assert (zlen (entries (table r)) <= 2 ^ 20) as Hlen.
  { destruct (is_te _ _ Hs) as [T1 T2 T3]. pose proof (total_len (entries (table r))). zlen_facts. lia. }
  change (zlen STATIC_TABLE) with 61 in Hf. unfold encode_field. set (m := find (table r) name value) in *. cbv zeta.
  assert (forall i p f, (p, f) ∈ REPRESENTATIONS -> 0 <= i <= 61 + 2 ^ 20 -> zlen (encode_int [] i p f) <= 4) as Hint.
  { intros i p f Hin Hi. pose proof (encode_int_len 3 i p f Hin ltac:(lia)) as H'.
    change (128 ^ Z.of_nat 3) with (2 ^ 21) in H'. specialize (H' ltac:(lia)). lia. }
  pose proof (zlen_nonneg name). pose proof (zlen_nonneg value).
  set (full := match m with Full i => _ | _ => None end).
  assert (forall i, full = Some i -> m = Full i) as Hfull.
  { unfold full. destruct m; [|done..]. case_match; congruence. }
  destruct full as [i|].
  - rewrite (Hfull i eq_refl) in Hf. split; [|done]. cbn [fst snd]. rewrite encode_int_app, zlen_app.
    pose proof (Hint i 7 128 ltac:(rep) ltac:(lia)). unfold max_encoded_len. lia.
  - set (idx := match m with Full i | Name i => i | NoMatch => 0 end).
    assert (0 <= idx <= 61 + 2 ^ 20) as Hi by (unfold idx; destruct m; lia).
    assert (forall p f, (p, f) ∈ REPRESENTATIONS ->
      zlen (encode_string (if idx =? 0 then encode_string (encode_int out idx p f) name (huffman r)
              else encode_int out idx p f) value (huffman r)) <= zlen out + max_encoded_len name value) as Hlit.
    { intros p f Hin.
      assert (names td idx name) as Hidx.
      { unfold names, idx. destruct m as [i|i|]; [destruct Hf as [_ Hr]|destruct Hf as [_ Hr]|]; split; try (fold idx; lia); eauto; lia. }
      pose proof (field_literal r td p f idx name value out Hs Hin Hidx Hn Hv Ho) as E. cbv zeta in E. rewrite E.
      unfold literal_code. rewrite !zlen_app. pose proof (Hint idx p f Hin Hi).
      pose proof (encode_string_len value (huffman r) Hv Lv). pose proof (encode_string_len name (huffman r) Hn Ln).
      unfold max_encoded_len. case_if; [lia|]. rewrite zlen_nil. lia. }
    destruct (bool_decide _ && _).
    + split; [apply Hlit; rep|]. cbn [fst]. apply insert_frame, Hs.
    + destruct (sensitivity r name value); (split; [apply Hlit; rep|done]).
Qed.

Lemma signal_len n st td : in_step st.1 td -> 0 <= n <= hard_max_size (table st.1) ->
  hard_max_size (table st.1) <= 2 ^ 20 ->
  zlen (signal n st).2 <= zlen st.2 + 4 /\ hard_max_size (table (signal n st).1) = hard_max_size (table st.1).
Proof.
  destruct st as [r out]. intros Hs Hn Hh. cbn [signal fst snd] in *. rewrite encode_int_app, zlen_app.
  pose proof (encode_int_len 3 n 5 32 ltac:(rep) ltac:(lia)) as H'.
  change (128 ^ Z.of_nat 3) with (2 ^ 21) in H'. specialize (H' ltac:(lia)). split; [lia|].
  apply (set_max_size_frame n (table r)); [lia|apply Hs].
Qed.

Lemma emit_len st td : in_step st.1 td -> hard_max_size (table st.1) <= 2 ^ 20 ->
  zlen (emit_size_updates st).2 <= zlen st.2 + 8 /\
  hard_max_size (table (emit_size_updates st).1) = hard_max_size (table st.1).
Proof.
  intros Hs Hh. unfold emit_size_updates.
  set (st1 := if min_since_signal st.1 <? signalled_size st.1 then _ else st).
  assert (zlen st1.2 <= zlen st.2 + 4 /\ hard_max_size (table st1.1) = hard_max_size (table st.1) /\
    exists td1, in_step st1.1 td1) as (L1 & E1 & td1 & S1).
  { unfold st1. case_if; [|split; [lia|split; [done|by exists td]]].
    destruct (signal_len (min_since_signal st.1) st td Hs (is_min _ _ Hs) Hh) as [? ?].
    split; [done|]. split; [done|]. eexists. destruct st as [r out].
    exact (proj1 (signal_step _ r td Hs (is_min _ _ Hs))). }
  cbn [fst snd]. case_if; [split; [lia|done]|].
  destruct (signal_len (target_size st1.1) st1 td1 S1 (is_target _ _ S1)) as [L2 E2]; [lia|].
  split; [lia|]. change (hard_max_size (table (signal (target_size st1.1) st1).1) = hard_max_size (table st.1)). congruence.
Qed.

Lemma encode_fields_len fields : forall st td,
  in_step st.1 td -> hard_max_size (table st.1) <= 2 ^ 20 -> Forall is_byte st.2 ->
  Forall (fun f : Field => shape_ok f.1 /\ shape_ok f.2) fields ->
  Forall (fun f : Field => zlen f.1 < 2 ^ 28 /\ zlen f.2 < 2 ^ 28) fields ->
  zlen (fold_left encode_field fields st).2 <= zlen st.2 + bound_sum fields.
Proof.
  induction fields as [|f fields IH]; intros st td Hs Hh Ho Hf Hl; cbn [fold_left bound_sum]; [lia|].
  inversion Hf as [|? ? [Hn Hv] Hf']; subst. inversion Hl as [|? ? [Ln Lv] Hl']; subst.
  destruct (encode_field_len st f td Hs Hh Hn Hv Ln Lv Ho) as [L E].
  destruct (encode_field_step td st f Hs Hn Hv Ho) as (c & Ec & B & td1 & S1 & _).
  assert (zlen (fold_left encode_field fields (encode_field st f)).2 <= zlen (encode_field st f).2 + bound_sum fields) as H.
  { apply (IH _ td1); [done|lia|rewrite Ec; by apply Forall_app|done|done]. }
  lia.
Qed.

(** *** What is refused *)

(** Names that may be sent: lower-case tokens, a colon only in front. *)
Definition legal_name (name : list Z) : Prop :=
  name <> [] /\ forall i b, name !! i = Some b -> name_byte_ok i b = true.
(** Values that cannot end a line or a field early. *)
Definition legal_value (value : list Z) : Prop :=
  Forall (fun b => b <> 0 /\ b <> 13 /\ b <> 10) value /\
  (forall b, head value = Some b \/ last value = Some b -> b <> 32 /\ b <> 9).
Definition is_pseudo (name : list Z) : Prop := head name = Some 58.

Lemma validate_field_spec name value seen seen' : validate_field name value seen = Ok seen' ->
  legal_name name /\ legal_value value /\
  (is_pseudo name /\ seen = false /\ seen' = false /\ name ∈ PSEUDO \/
   ~ is_pseudo name /\ seen' = true /\ name ∉ FORBIDDEN /\ (name = bstr "te" -> value = bstr "trailers")).
Proof.
  unfold validate_field. destruct name as [|first name0]; [done|]. set (name := first :: name0). cbv zeta.
  intros (seen1 & H1 & H)%rbind_Ok. revert H. case_if; [done|]. case_if; [done|]. intros H.
  assert (legal_value value /\ seen1 = seen') as [Hv <-].
  { assert (Forall (fun b => b <> 0 /\ b <> 13 /\ b <> 10) value) as Hlines.
    { apply Forall_forall. intros b Hb. match goal with He : existsb _ value = false |- _ =>
        rewrite <- not_true_iff_false, existsb_exists in He; destruct (decide (b = 0 \/ b = 13 \/ b = 10)) as [Hc|Hc]; [|lia];
        exfalso; apply He; exists b; split; [by apply list_elem_of_In|]; destruct Hc as [Hc|[Hc|Hc]]; subst b; reflexivity end. }
    destruct value as [|v vs].
    { injection H as <-. split; [split; [done|]|done]. by intros c [Hc|Hc]. }
    revert H. cbn [head]. destruct (last (v :: vs)) as [w|] eqn:El; [|by apply last_None in El].
    case_if; [done|]. intros [= <-]. split; [|done]. split; [done|].
    repeat match goal with Hb : (_ || _) = false |- _ => apply orb_false_iff in Hb as [? ?] end. zb.
    intros c [Hc|Hc]; [|rewrite El in Hc]; by injection Hc as <-. }
  split; [|split; [done|]].
  - split; [done|]. intros i b Hi. match goal with Hb : forallb _ _ = true |- _ => rewrite forallb_forall in Hb;
      apply (Hb (i, b)) end. apply list_elem_of_In, list_elem_of_lookup. exists i. by rewrite list_lookup_imap, Hi.
  - revert H1. unfold is_pseudo. change (head name) with (Some first). destruct (Z.eqb_spec first 58) as [->|Hne].
    + case_bool_decide; cbn [negb]; [|done]. destruct seen; [done|]. intros [= <-]. left. done.
    + case_bool_decide; [done|]. case_if; [done|]. intros [= <-]. right.
      split; [congruence|]. split; [done|]. split; [done|]. intros E.
      rewrite (bool_decide_eq_true_2 _ E) in *. cbn [andb] in *.
      match goal with Hb : negb _ = false |- _ => apply negb_false_iff in Hb; by apply bool_decide_eq_true in Hb end.
Qed.

Lemma check_fields_spec fields : forall seen b seen' b',
  rfold (fun (st : bool * Z) (f : Field) =>
      let? seen := validate_field f.1 f.2 st.1 in
      Ok (seen, sat_add st.2 (max_encoded_len f.1 f.2))) (seen, b) fields = Ok (seen', b') ->
  Forall (fun f : Field => legal_name f.1 /\ legal_value f.2) fields /\
  exists pseudo regular, fields = pseudo ++ regular /\
    Forall (fun f : Field => is_pseudo f.1 /\ f.1 ∈ PSEUDO) pseudo /\ (seen = true -> pseudo = []) /\
    Forall (fun f : Field => ~ is_pseudo f.1 /\ f.1 ∉ FORBIDDEN /\ (f.1 = bstr "te" -> f.2 = bstr "trailers")) regular.
Proof.
  induction fields as [|f fields IH]; intros seen b seen' b'; cbn [rfold].
  - intros _. split; [by apply Forall_nil|]. exists [], []. by split_and!.
  - intros ([seen1 b1] & (seen2 & Hv & [= <- <-])%rbind_Ok & H)%rbind_Ok. cbn [fst snd] in *.
    apply validate_field_spec in Hv as (Hn & Hval & Hkind). destruct (IH _ _ _ _ H) as (Hall & ps & rs & -> & Hp & Hseen & Hr).
    split; [by constructor|]. destruct Hkind as [(P1 & -> & -> & P2)|(R1 & -> & R2)].
    + exists (f :: ps), rs. split; [done|]. split; [by constructor|]. by split.
    + rewrite Hseen by done. exists [], (f :: rs). split; [done|]. split; [by apply Forall_nil|]. split; [done|].
      by constructor.
Qed.
End HpackEncodeFacts.

(** ** Properties *)

Module HpackProps.
Import HpackEncoder HpackFacts HpackEncodeFacts.

(** What a connection asks of its encoder: blocks, and the table sizes the
    peer announces. *)
Inductive Call := Block (fields : list Field) | PeerTableSize (n : Z).
Definition call_ok (c : Call) : Prop :=
  match c with Block fields => Forall field_bytes fields | PeerTableSize n => 0 <= n end.

(** The accepted field lists with the blocks sent for them.  A refused
    one sends nothing and leaves the encoder alone. *)
Fixpoint session (r : HpackEncoder.t) (cs : list Call) : list (list Field * list Z) :=
  match cs with
  | [] => []
  | Block fields :: cs =>
      match encode fields r with
      | Ok (r, block) => (fields, block) :: session r cs
      | Err _ => session r cs
      end
  | PeerTableSize n :: cs => session (set_peer_max_table_size n r) cs
  end.

Fixpoint decode_blocks (td : DynamicTable.t) (blocks : list (list Z)) : list (result Http2Error.t (list Field)) :=
  match blocks with
  | [] => []
  | b :: blocks => let '(res, td) := HpackDecoder.decode td b in res :: decode_blocks td blocks
  end.

(** An encoder as its builder methods make it. *)
Definition configured (n k : Z) (policy : HuffmanPolicy) (f : SensitivityFn) : HpackEncoder.t :=
  with_max_block_bytes k (with_sensitivity f (with_huffman policy (with_max_table_size n new))).

Lemma configured_in_step n h k policy f : 0 <= n <= h -> n < 2 ^ 56 ->
  in_step (configured n k policy f) (HpackDecoder.new DEFAULT_TABLE_SIZE h).
Proof.
  intros Hn Hs. split; cbn -[Z.min]; unfold DEFAULT_TABLE_SIZE; try lia; [by exists []|split; cbn -[Z.min]; lia..].
Qed.

Lemma session_decodes cs : forall r td, in_step r td -> max_block_bytes r < 2 ^ 56 -> Forall call_ok cs ->
  decode_blocks td (session r cs).*2 = Ok <$> (session r cs).*1.
Proof.
  induction cs as [|[fields|n] cs IH]; intros r td Hs Hm Hc; inversion Hc; subst; cbn [session]; [done| |].
  - destruct (encode fields r) as [[r' block]|e] eqn:E; [|by apply IH].
    destruct (encode_into_spec r td fields r' [] block Hs Hm ltac:(done) ltac:(by apply Forall_nil) E)
      as (code & td' & -> & _ & Hd & Hs' & Hm').
    cbn [fmap list_fmap fst snd decode_blocks app]. rewrite Hd. f_equal. apply IH; [done|congruence|done].
  - apply IH; [|done|done]. destruct Hs as [H1' H2' H3' H4' H5' H6' H7' H8' H9'].
    destruct H2' as [T1 T2 T3]. cbn in *. split; cbn; done || lia.
Qed.

(** C28: encoder and decoder stay in step over a whole connection: the
    decoder recovers every block the encoder sends, in order, whatever
    fields were refused in between, however often the peer changes its
    table size, and whatever gets evicted, Huffman-coded or left out of
    the table.  The encoder's table is within the hard cap of the decoder's
    ([n <= h]), and sizes and bytes are machine values. *)
Theorem hpack_session_roundtrip n h k policy f cs :
  0 <= n <= h -> n < 2 ^ 56 -> k < 2 ^ 56 -> Forall call_ok cs ->
  let sent := session (configured n k policy f) cs in
  decode_blocks (HpackDecoder.new DEFAULT_TABLE_SIZE h) sent.*2 = Ok <$> sent.*1.
Proof.
  intros Hn Hs Hk Hc. apply session_decodes; [by apply configured_in_step|done|done].
Qed.

Definition request (path : list Z) : list Field :=
  [(bstr ":method", bstr "GET"); (bstr ":path", path); (bstr "x-trace", bstr "one-trace-id");
   (bstr "cookie", bstr "a=b")].
(** Two requests around a smaller table and a refused block. *)
Definition demo_calls : list Call :=
  [Block (request (bstr "/a")); Block [(bstr "Upper", bstr "x")]; PeerTableSize 64;
   Block (request (bstr "/b")); PeerTableSize 4096; Block (request (bstr "/b"))].

Lemma bytes_ok (s : list Z) : forallb (fun b => (0 <=? b) && (b <? 256)) s = true -> Forall is_byte s.
Proof.
  intros H. apply Forall_forall. intros b Hb. rewrite forallb_forall in H. apply list_elem_of_In, H in Hb. zb. done.
Qed.

Lemma hpack_session_roundtrip_witness :
  let sent := session (configured 4096 65536 WhenSmaller default_sensitivity) demo_calls in
  sent.*1 = [request (bstr "/a"); request (bstr "/b"); request (bstr "/b")] /\
  decode_blocks (HpackDecoder.new DEFAULT_TABLE_SIZE 65536) sent.*2 = Ok <$> sent.*1.
Proof.
  assert (Forall call_ok demo_calls) as Hc.
  { repeat (apply Forall_cons; split; [cbn [call_ok]; try lia;
      repeat (apply Forall_cons; split; [split; apply bytes_ok; vm_compute; reflexivity|]); by apply Forall_nil|]).
    by apply Forall_nil. }
  split; [vm_compute; reflexivity|].
  apply (hpack_session_roundtrip 4096 65536 65536 WhenSmaller default_sensitivity demo_calls); [lia|lia|lia|exact Hc].
Defined.

(** The decoder's table stays within its hard limit, and no block
    yields more than 256 fields, whatever bytes are decoded and whatever
    table sizes are announced; the accounted size is exactly that of the
    entries. *)
Theorem hpack_decoder_bounded m h (blocks : list (Z + list Z)) :
  0 <= m -> 0 <= h -> Forall (fun b => match b with inl n => 0 <= n | inr _ => True end) blocks ->
  let td := fold_left (fun td b => match b with
                         | inl n => HpackDecoder.set_max_size n td
                         | inr b => (HpackDecoder.decode td b).2 end) blocks (HpackDecoder.new m h) in
  DynamicTable.size td = total (DynamicTable.entries td) /\
  32 * zlen (DynamicTable.entries td) <= DynamicTable.size td <= h /\
  forall b fs, (HpackDecoder.decode td b).1 = Ok fs -> zlen fs <= MAX_FIELDS_PER_BLOCK.
Proof.
  intros Hm Hh Hb td.
  assert (table_ok td /\ DynamicTable.hard_max_size td = h) as [Ht Hd].
  { assert (table_ok (HpackDecoder.new m h) /\ DynamicTable.hard_max_size (HpackDecoder.new m h) = h) as H0
      by (split; [by apply new_ok|done]).
    revert H0. unfold td. generalize (HpackDecoder.new m h). clear td. induction blocks as [|b blocks IH]; intros td0 [H1 H2]; [done|].
    inversion Hb as [|? ? Hb1 Hb2]; subst. cbn [fold_left]. apply IH; [done|]. destruct b as [n|b].
    - split; [by apply set_max_size_ok|by apply set_max_size_frame].
    - pose proof (decode_ok td0 b H1) as Hok. destruct (HpackDecoder.decode td0 b) as [r td1]. split; apply Hok. }
  clearbody td. pose proof Ht as [T1 T2 T3]. pose proof (total_len (DynamicTable.entries td)).
  split; [done|]. split; [lia|]. intros b fs E. pose proof (decode_ok td b Ht) as Hok.
  destruct (HpackDecoder.decode td b) as [r td1]. cbn in E. subst r. apply Hok.
Qed.

Lemma hpack_decoder_bounded_witness :
  32 * zlen (DynamicTable.entries (HpackDecoder.decode (HpackDecoder.new 64 64) [0x40; 1; 97; 1; 98]).2) <= 64.
Proof.
  assert (Forall (fun b : Z + list Z => match b with inl n => 0 <= n | inr _ => True end) [inr [0x40; 1; 97; 1; 98]]) as H
    by (repeat constructor).
  pose proof (proj1 (proj2 (hpack_decoder_bounded 64 64 [inr [0x40; 1; 97; 1; 98]] ltac:(lia) ltac:(lia) H))) as Hb.
  cbn [fold_left] in Hb. lia.
Defined.

(** A block the encoder accepts holds only fields that may be
    sent: lower-case token names, values that cannot end a line or carry
    blanks at their ends, known pseudo-headers before everything else and
    none of the connection-specific fields; and it is no longer than the
    configured cap. *)
Theorem hpack_block_legal n h k policy f fields r block :
  0 <= n <= 2 ^ 20 -> n <= h -> k <= 2 ^ 28 -> Forall field_bytes fields ->
  encode fields (configured n k policy f) = Ok (r, block) ->
  Forall (fun f : Field => legal_name f.1 /\ legal_value f.2) fields /\
  (exists pseudo regular, fields = pseudo ++ regular /\
    Forall (fun f : Field => is_pseudo f.1 /\ f.1 ∈ PSEUDO) pseudo /\
    Forall (fun f : Field => ~ is_pseudo f.1 /\ f.1 ∉ FORBIDDEN /\ (f.1 = bstr "te" -> f.2 = bstr "trailers")) regular) /\
  zlen block <= k.
Proof.
  intros Hn Hh Hk Hf. set (e := configured n k policy f).
  pose proof (configured_in_step n h k policy f ltac:(lia) ltac:(lia)) as Hs. fold e in Hs.
  assert (DynamicTable.hard_max_size (table e) = n) as Hhard by done.
  assert (max_block_bytes e = k) as Hblk by done. clearbody e.
  unfold encode, encode_into. case_if; [done|]. intros (bound & Hb & H)%rbind_Ok.
  revert H. case_if; [done|]. intros [= Hst]. unfold check_fields in Hb.
  apply rbind_Ok in Hb as ([seen bound'] & Hb & [= ->]).
  destruct (check_fields_spec _ _ _ _ _ Hb) as (Hlegal & ps & rs & E & Hp & _ & Hr).
  split; [done|]. split; [by exists ps, rs|].
  apply check_fields_bound in Hb; [|unfold U64_MAX; lia].
  pose proof (bound_shapes fields (bound - 8) ltac:(lia)) as Hz.
  destruct (emit_len (e, []) _ Hs) as [L1 H1]; [cbn; lia|].
  destruct (emit_update _ (e, []) Hs) as (c1 & td1 & E1 & B1 & S1 & _).
  set (st := emit_size_updates (e, [])) in *. cbn [fst snd app] in *.
  assert (zlen (fold_left encode_field fields st).2 <= zlen st.2 + bound_sum fields) as L2.
  { apply (encode_fields_len fields st td1); [done|lia|by rewrite E1| |].
    - apply Forall_forall. intros g Hin. pose proof (proj1 (Forall_forall _ _) Hz g Hin) as [? ?].
      pose proof (proj1 (Forall_forall _ _) Hf g Hin) as [? ?]. unfold shape_ok. split; (split; [done|lia]).
    - eapply Forall_impl; [exact Hz|]. cbn. intros g [? ?]. lia. }
  rewrite Hst in L2. cbn [snd] in L2. change (zlen (@nil Z)) with 0 in L1. lia.
Qed.

Lemma hpack_block_legal_witness :
  match encode (request (bstr "/a")) (configured 4096 65536 WhenSmaller default_sensitivity) with
  | Ok (_, block) => zlen block <= 65536
  | Err _ => False
  end.
Proof.
  destruct (encode (request (bstr "/a")) (configured 4096 65536 WhenSmaller default_sensitivity)) as [[r block]|e] eqn:E.
  - assert (Forall field_bytes (request (bstr "/a"))) as Hf.
    { repeat (apply Forall_cons; split; [split; apply bytes_ok; vm_compute; reflexivity|]); by apply Forall_nil. }
    exact (proj2 (proj2 (hpack_block_legal 4096 4096 65536 WhenSmaller default_sensitivity _ r block
      ltac:(lia) ltac:(lia) ltac:(lia) Hf E))).
  - vm_compute in E. discriminate.
Defined.
End HpackProps.
