(* ===== verification/Http2Frame.v ===== *)
(** * HTTP/2 frames (src/src/http2/frame.rs)

    The frame header, the parts of a payload that are stripped, the
    [SETTINGS] payload, and the writer of [HEADERS] / [CONTINUATION]
    sequences.  Payload slices are lists: sharing of the buffer behind a
    [Bytes] is not observable. *)

From S2P Require Import Prelude Http2Error.

Definition PREFACE : list Z :=
  bstr "PRI * HTTP/2.0" ++ [13; 10; 13; 10] ++ bstr "SM" ++ [13; 10; 13; 10].
Definition FRAME_HEADER_LEN : Z := 9.

Module FrameKind.
Inductive t :=
  | Data | Headers | Priority | RstStream | Settings | PushPromise | Ping | GoAway | WindowUpdate
  | Continuation | Unknown (b : Z).
#[global] Instance eq_dec : EqDecision t.
Proof. solve_decision. Defined.

Definition from_byte (b : Z) : t :=
  match b with
  | 0x0 => Data
  | 0x1 => Headers
  | 0x2 => Priority
  | 0x3 => RstStream
  | 0x4 => Settings
  | 0x5 => PushPromise
  | 0x6 => Ping
  | 0x7 => GoAway
  | 0x8 => WindowUpdate
  | 0x9 => Continuation
  | other => Unknown other
  end.
End FrameKind.

Module flags.
Definition END_STREAM : Z := 0x1.
Definition ACK : Z := 0x1.
Definition END_HEADERS : Z := 0x4.
Definition PADDED : Z := 0x8.
Definition PRIORITY : Z := 0x20.
End flags.

Module Frame.
Record t := mk {
  kind : FrameKind.t;
  flags : Z;
  stream_id : Z;
  payload : list Z;
  promised_stream_id : option Z }.
Definition has (f : t) (flag : Z) : bool := negb (Z.land (flags f) flag =? 0).
End Frame.

(** [buf[i]], in range in every use. *)
Definition at_ (buf : list Z) (i : nat) : Z := nth i buf 0.

(** [u32::from_be_bytes] and the shifts it stands for. *)
Definition be32 (a b c d : Z) : Z :=
  Z.lor (Z.lor (Z.lor (Z.shiftl a 24) (Z.shiftl b 16)) (Z.shiftl c 8)) d.

Definition peek_frame_len (buf : list Z) (max_frame_size : Z) : result Http2Error.t (option Z) :=
  if zlen buf <? FRAME_HEADER_LEN then Ok None
  else
    let length := Z.lor (Z.lor (Z.shiftl (at_ buf 0) 16) (Z.shiftl (at_ buf 1) 8)) (at_ buf 2) in
    if max_frame_size <? length then Err Http2Error.FrameTooLarge
    else
      let total := FRAME_HEADER_LEN + length in
      if zlen buf <? total then Ok None else Ok (Some total).

(** The payload without its padding. *)
Definition strip_padding (kind : FrameKind.t) (flags : Z) (payload : list Z) : result Http2Error.t (list Z) :=
  if bool_decide (kind ∈ [FrameKind.Data; FrameKind.Headers; FrameKind.PushPromise])
     && negb (Z.land flags flags.PADDED =? 0)
  then
    match payload with
    | [] => Err Http2Error.MalformedFrame
    | pad_len :: _ =>
        if zlen payload <? pad_len + 1 then Err Http2Error.MalformedFrame
        else Ok (zslice 1 (zlen payload - pad_len) payload)
    end
  else Ok payload.

Definition strip_priority (kind : FrameKind.t) (flags : Z) (payload : list Z) : result Http2Error.t (list Z) :=
  if bool_decide (kind = FrameKind.Headers) && negb (Z.land flags flags.PRIORITY =? 0) then
    if zlen payload <? 5 then Err Http2Error.MalformedFrame else Ok (zdrop 5 payload)
  else Ok payload.

Definition strip_promised (kind : FrameKind.t) (payload : list Z)
    : result Http2Error.t (option Z * list Z) :=
  if bool_decide (kind = FrameKind.PushPromise) then
    if zlen payload <? 4 then Err Http2Error.MalformedFrame
    else
      Ok (Some (Z.land (be32 (at_ payload 0) (at_ payload 1) (at_ payload 2) (at_ payload 3)) 0x7fffffff),
          zdrop 4 payload)
  else Ok (None, payload).

Definition parse_frame (buf : list Z) (max_frame_size : Z)
    : result Http2Error.t (option (Frame.t * Z)) :=
  let? total := peek_frame_len buf max_frame_size in
  match total with
  | None => Ok None
  | Some total =>
      let kind := FrameKind.from_byte (at_ buf 3) in
      let flags := at_ buf 4 in
      let stream_id := Z.land (be32 (at_ buf 5) (at_ buf 6) (at_ buf 7) (at_ buf 8)) 0x7fffffff in
      let? payload := strip_padding kind flags (zslice FRAME_HEADER_LEN total buf) in
      let? payload := strip_priority kind flags payload in
      let? (promised_stream_id, payload) := strip_promised kind payload in
      Ok (Some (Frame.mk kind flags stream_id payload promised_stream_id, total))
  end.

(** ** Writing *)

Definition frame_bytes (kind fl stream_id : Z) (part : list Z) : list Z :=
  let len := u32 (zlen part) in
  [u8 (Z.shiftr len 16); u8 (Z.shiftr len 8); u8 len; kind; fl] ++
  [u8 (Z.shiftr stream_id 24); u8 (Z.shiftr stream_id 16); u8 (Z.shiftr stream_id 8); u8 stream_id] ++
  part.

(** One frame per chunk, and one for an empty block. *)
Fixpoint write_loop (fuel : nat) (stream_id chunk : Z) (end_stream first : bool) (block out : list Z) : list Z :=
  match fuel with
  | O => out
  | S fuel =>
      let part := ztake chunk block in
      let rest := zdrop chunk block in
      let last := is_nil rest in
      let kind := if first then 0x1 else 0x9 in
      let fl := if last then flags.END_HEADERS else 0 in
      let fl := if first && end_stream then Z.lor fl flags.END_STREAM else fl in
      let out := out ++ frame_bytes kind fl stream_id part in
      if last then out else write_loop fuel stream_id chunk end_stream false rest out
  end.

Definition clamp (x lo hi : Z) : Z := Z.max lo (Z.min x hi).

Definition write_headers (stream_id : Z) (block : list Z) (end_stream : bool) (max_frame_size : Z)
    : result Http2Error.t (list Z) :=
  if (stream_id =? 0) || (0x7fffffff <? stream_id) then Err Http2Error.InvalidStreamId
  else
    let chunk := clamp max_frame_size 16384 16777215 in
    Ok (write_loop (S (length block)) stream_id chunk end_stream true block []).

(** ** Settings *)

Module Settings.
Record t := mk {
  header_table_size : option Z;
  max_frame_size : option Z;
  max_header_list_size : option Z }.
#[global] Instance eta : Eta t := mk_eta (fun s =>
  mk (header_table_size s) (max_frame_size s) (max_header_list_size s)).
Definition default : t := mk None None None.

(** One 6-octet entry. *)
Definition apply (s : t) (id value : Z) : t :=
  match id with
  | 0x1 => s <| header_table_size := Some value |>
  | 0x5 => s <| max_frame_size := Some value |>
  | 0x6 => s <| max_header_list_size := Some value |>
  | _ => s
  end.
End Settings.

Fixpoint settings_entries (s : Settings.t) (payload : list Z) : Settings.t :=
  match payload with
  | a :: b :: c :: d :: e :: f :: payload =>
      settings_entries (Settings.apply s (Z.lor (Z.shiftl a 8) b) (be32 c d e f)) payload
  | _ => s
  end.

Definition parse_settings (payload : list Z) : result Http2Error.t Settings.t :=
  if zlen payload mod 6 =? 0 then Ok (settings_entries Settings.default payload)
  else Err Http2Error.MalformedFrame.

(** ** Lemmas *)

Module FrameFacts.

Definition frame_length (buf : list Z) : Z :=
  Z.lor (Z.lor (Z.shiftl (at_ buf 0) 16) (Z.shiftl (at_ buf 1) 8)) (at_ buf 2).

Lemma at_app a b i : (i < length a)%nat -> at_ (a ++ b) i = at_ a i.
Proof. intros H. unfold at_. by apply app_nth1. Qed.

Lemma at_ztake n l i : Z.of_nat i < n -> at_ (ztake n l) i = at_ l i.
Proof.
  intros H. unfold at_, ztake. rewrite !nth_lookup. destruct (decide (i < length l)%nat).
  - by rewrite lookup_take_lt by lia.
  - rewrite !lookup_ge_None_2; [done|lia|rewrite length_take; lia].
Qed.

Lemma frame_length_app a b : 9 <= zlen a -> frame_length (a ++ b) = frame_length a.
Proof. intros H. unfold zlen in H. unfold frame_length. by rewrite !at_app by lia. Qed.

(** The three results of the peek. *)
Inductive peeked (buf : list Z) (max : Z) : result Http2Error.t (option Z) -> Prop :=
  | peek_short : zlen buf < 9 -> peeked buf max (Ok None)
  | peek_large : 9 <= zlen buf -> max < frame_length buf -> peeked buf max (Err Http2Error.FrameTooLarge)
  | peek_part : 9 <= zlen buf -> frame_length buf <= max -> zlen buf < 9 + frame_length buf ->
      peeked buf max (Ok None)
  | peek_whole : 9 <= zlen buf -> frame_length buf <= max -> 9 + frame_length buf <= zlen buf ->
      peeked buf max (Ok (Some (9 + frame_length buf))).

Lemma peek_spec buf max : peeked buf max (peek_frame_len buf max).
Proof.
  unfold peek_frame_len. change FRAME_HEADER_LEN with 9. case_if; [by apply peek_short|].
  fold (frame_length buf). case_if; [by apply peek_large|]. case_if; [by apply peek_part|by apply peek_whole].
Qed.

(** More bytes do not change a verdict already reached. *)
Lemma peek_app_whole buf b max total : peek_frame_len buf max = Ok (Some total) ->
  peek_frame_len (buf ++ b) max = Ok (Some total) /\ total <= zlen buf.
Proof.
  intros E. pose proof (peek_spec buf max) as H. rewrite E in H. inversion H as [| | |H1 H2 H3 H4]; subst.
  pose proof (peek_spec (buf ++ b) max) as H'. pose proof (frame_length_app buf b H1) as El.
  pose proof (zlen_nonneg b). split; [|lia].
  inversion H' as [Hs|Hs Hl|Hs Hl Hp|Hs Hl Hp HE]; rewrite ?zlen_app, ?El in *; (done || lia).
Qed.

Lemma peek_app_err buf b max e : peek_frame_len buf max = Err e -> peek_frame_len (buf ++ b) max = Err e.
Proof.
  intros E. pose proof (peek_spec buf max) as H. rewrite E in H. inversion H as [|H1 H2| |]; subst.
  pose proof (peek_spec (buf ++ b) max) as H'. pose proof (frame_length_app buf b H1) as El. pose proof (zlen_nonneg b).
  inversion H' as [Hs|Hs Hl|Hs Hl Hp|Hs Hl Hp HE]; rewrite ?zlen_app, ?El in *; (done || lia).
Qed.

Lemma frame_length_nonneg buf : Forall is_byte buf -> 0 <= frame_length buf.
Proof.
  intros H. assert (forall i, 0 <= at_ buf i) as Ha.
  { intros i. unfold at_. rewrite nth_lookup. destruct (buf !! i) eqn:E; [|cbn; lia].
    apply (Forall_lookup_1 _ _ _ _ H) in E. unfold is_byte in E. cbn. lia. }
  unfold frame_length. rewrite !Z.lor_nonneg, !Z.shiftl_nonneg. auto.
Qed.

(** *** Reading what was written *)

Lemma be_split n x : 0 <= x < 2 ^ 32 -> 0 <= n ->
  Z.lor (Z.shiftl (u8 (Z.shiftr x n)) n) (x mod 2 ^ n) = x mod 2 ^ (n + 8).
Proof.
  intros Hx Hn. apply Z.bits_inj'. intros i Hi. rewrite Z.lor_spec, Z.shiftl_spec by lia. unfold u8.
  destruct (Z.lt_ge_cases i n).
  - rewrite (Z.testbit_neg_r _ (i - n)) by lia. by rewrite !Z.mod_pow2_bits_low by lia.
  - rewrite (Z.mod_pow2_bits_high x n i) by lia. rewrite orb_false_r.
    destruct (Z.lt_ge_cases i (n + 8)).
    + rewrite !Z.mod_pow2_bits_low by lia. rewrite Z.shiftr_spec by lia. f_equal. lia.
    + by rewrite !Z.mod_pow2_bits_high by lia.
Qed.

Lemma be_bytes3 x : 0 <= x < 2 ^ 24 ->
  Z.lor (Z.lor (Z.shiftl (u8 (Z.shiftr x 16)) 16) (Z.shiftl (u8 (Z.shiftr x 8)) 8)) (u8 x) = x.
Proof.
  intros Hx. rewrite <- Z.lor_assoc. change (u8 x) with (x mod 2 ^ 8).
  rewrite (be_split 8) by lia. change (8 + 8) with 16. rewrite (be_split 16) by lia. apply Z.mod_small. lia.
Qed.

Lemma be_bytes4 x : 0 <= x < 2 ^ 31 ->
  Z.land (be32 (u8 (Z.shiftr x 24)) (u8 (Z.shiftr x 16)) (u8 (Z.shiftr x 8)) (u8 x)) 0x7fffffff = x.
Proof.
  intros Hx. unfold be32. rewrite <- !Z.lor_assoc. change (u8 x) with (x mod 2 ^ 8).
  rewrite (be_split 8), (be_split 16), (be_split 24) by lia.
  change 0x7fffffff with (Z.ones 31). rewrite Z.land_ones by lia. rewrite Z.mod_mod_divide; [apply Z.mod_small; lia|].
  exists 2. done.
Qed.

Lemma parse_frame_bytes kind fl id part tail max :
  is_byte kind -> is_byte fl -> 0 <= id < 2 ^ 31 -> zlen part <= max -> zlen part < 2 ^ 24 ->
  (kind = 1 \/ kind = 9) -> Z.land fl flags.PADDED = 0 -> Z.land fl flags.PRIORITY = 0 ->
  peek_frame_len (frame_bytes kind fl id part ++ tail) max = Ok (Some (9 + zlen part)) /\
  zlen (frame_bytes kind fl id part) = 9 + zlen part /\
  parse_frame (frame_bytes kind fl id part) max =
    Ok (Some (Frame.mk (FrameKind.from_byte kind) fl id part None, 9 + zlen part)).
Proof.
  intros Hk Hf Hid Hmax Hlen Hkind Hpad Hprio. pose proof (zlen_nonneg part).
  assert (zlen (frame_bytes kind fl id part) = 9 + zlen part) as El.
  { unfold frame_bytes. rewrite !zlen_app. unfold zlen. cbn. lia. }
  assert (frame_length (frame_bytes kind fl id part) = zlen part) as Ef.
  { unfold frame_length, frame_bytes, at_. cbn [app nth]. rewrite u32_small by lia. by apply be_bytes3. }
  assert (forall t, peek_frame_len (frame_bytes kind fl id part ++ t) max = Ok (Some (9 + zlen part))) as Hpeek.
  { intros t. pose proof (peek_spec (frame_bytes kind fl id part ++ t) max) as H'. pose proof (zlen_nonneg t).
    pose proof (frame_length_app (frame_bytes kind fl id part) t ltac:(lia)) as Efa. rewrite Ef in Efa.
    assert (zlen (frame_bytes kind fl id part ++ t) = 9 + zlen part + zlen t) as Ez by (rewrite zlen_app; lia).
    generalize dependent (frame_bytes kind fl id part ++ t). intros x H' Efa Ez.
    inversion H' as [Hs|Hs Hl|Hs Hl Hp|Hs Hl Hp HE]; [lia..|]. by rewrite Efa. }
  split; [apply Hpeek|]. split; [done|]. unfold parse_frame. specialize (Hpeek []). rewrite app_nil_r in Hpeek.
  rewrite Hpeek. cbn [rbind].
  assert (zslice FRAME_HEADER_LEN (9 + zlen part) (frame_bytes kind fl id part) = part) as ->.
  { unfold zslice, frame_bytes, FRAME_HEADER_LEN. rewrite app_assoc, zdrop_app_ge, zdrop_0 by (unfold zlen; cbn; lia).
    apply ztake_ge. lia. }
  unfold strip_padding, strip_priority, strip_promised.
  change (at_ (frame_bytes kind fl id part) 3) with kind. change (at_ (frame_bytes kind fl id part) 4) with fl.
  rewrite Hpad, Hprio. cbn [Z.eqb negb]. rewrite !andb_false_r. cbn [rbind].
  rewrite bool_decide_eq_false_2 by (destruct Hkind; by subst). cbn [rbind].
  do 4 f_equal. unfold frame_bytes, at_. cbn [app nth]. by apply be_bytes4.
Qed.
End FrameFacts.
