(* ===== verification/Text.v ===== *)
(** * Text (the parts of Rust's [str] the parsers use)

    Byte strings with the operations of [std]: UTF-8 validation, decimal
    parsing, ASCII case and blanks, splitting. *)

From S2P Require Import Prelude.

(** A continuation byte. *)
Definition cont (b : Z) : bool := (128 <=? b) && (b <=? 191).

(** [std::str::from_utf8(s).is_ok()]: the well-formed sequences of the
    Unicode standard, table 3-7. *)
Fixpoint utf8_valid (s : list Z) : bool :=
  match s with
  | [] => true
  | a :: s1 =>
      if a <? 128 then utf8_valid s1
      else
        match s1 with
        | [] => false
        | b :: s2 =>
            if (194 <=? a) && (a <=? 223) then cont b && utf8_valid s2
            else
              match s2 with
              | [] => false
              | c :: s3 =>
                  let lo := if a =? 224 then 160 else 128 in
                  let hi := if a =? 237 then 159 else 191 in
                  if (224 <=? a) && (a <=? 239) then
                    (lo <=? b) && (b <=? hi) && cont c && utf8_valid s3
                  else
                    match s3 with
                    | [] => false
                    | d :: s4 =>
                        let lo := if a =? 240 then 144 else 128 in
                        let hi := if a =? 244 then 143 else 191 in
                        (240 <=? a) && (a <=? 244) && (lo <=? b) && (b <=? hi)
                        && cont c && cont d && utf8_valid s4
                    end
              end
        end
  end.

Definition is_digit (b : Z) : bool := (48 <=? b) && (b <=? 57).
Definition is_upper (b : Z) : bool := (65 <=? b) && (b <=? 90).
Definition is_lower (b : Z) : bool := (97 <=? b) && (b <=? 122).
Definition is_alpha (b : Z) : bool := is_upper b || is_lower b.
Definition to_lower (b : Z) : Z := if is_upper b then b + 32 else b.
Definition to_upper (b : Z) : Z := if is_lower b then b - 32 else b.
(** [eq_ignore_ascii_case]. *)
Definition eq_ignore_case (a b : list Z) : bool := bool_decide (to_lower <$> a = to_lower <$> b).

(** The digits of a number of type [uN], [N] bits wide. *)
Fixpoint parse_digits (max n : Z) (s : list Z) : option Z :=
  match s with
  | [] => Some n
  | d :: s =>
      if is_digit d then
        let n := n * 10 + (d - 48) in if max <? n then None else parse_digits max n s
      else None
  end.
(** [s.parse::<uN>()]: an optional plus sign, then digits. *)
Definition parse_uint (max : Z) (s : list Z) : option Z :=
  match s with
  | [] | [43] | [45] => None
  | 43 :: s => parse_digits max 0 s
  | _ => parse_digits max 0 s
  end.

(** [u8::is_ascii_whitespace]. *)
Definition is_ascii_ws (b : Z) : bool := (b =? 32) || (b =? 9) || (b =? 10) || (b =? 12) || (b =? 13).

Fixpoint drop_while (f : Z -> bool) (s : list Z) : list Z :=
  match s with [] => [] | b :: s' => if f b then drop_while f s' else s end.
Definition drop_while_end (f : Z -> bool) (s : list Z) : list Z := rev (drop_while f (rev s)).
Definition trim_by (f : Z -> bool) (s : list Z) : list Z := drop_while_end f (drop_while f s).

(** [s.strip_prefix(p)]. *)
Fixpoint strip_prefix (p s : list Z) : option (list Z) :=
  match p, s with
  | [], s => Some s
  | a :: p, b :: s => if a =? b then strip_prefix p s else None
  | _, _ => None
  end.
Definition starts_with (p s : list Z) : bool := is_some (strip_prefix p s).

(** [s.split_once(c)] for a one-byte separator. *)
Fixpoint split_once (c : Z) (s : list Z) : option (list Z * list Z) :=
  match s with
  | [] => None
  | b :: s => if b =? c then Some ([], s) else (fun p => (b :: p.1, p.2)) <$> split_once c s
  end.

(** [s.split(c)]: the pieces between the separators, one at least. *)
Fixpoint split (c : Z) (s : list Z) : list (list Z) :=
  match s with
  | [] => [[]]
  | b :: s =>
      let pieces := split c s in
      if b =? c then [] :: pieces
      else match pieces with p :: ps => (b :: p) :: ps | [] => [[b]] end
  end.

(** [memchr]: the first index of a byte. *)
Fixpoint index_of (c : Z) (s : list Z) : option nat :=
  match s with
  | [] => None
  | b :: s => if b =? c then Some 0%nat else S <$> index_of c s
  end.

(** ** Lemmas *)

Lemma strip_prefix_spec p s r : strip_prefix p s = Some r <-> s = p ++ r.
Proof.
  revert s. induction p as [|a p IH]; intros s; cbn; [split; [by intros [= ->]|by intros ->]|].
  destruct s as [|b s]; [split; done|]. destruct (Z.eqb_spec a b) as [->|Hne].
  - rewrite IH. split; [by intros ->|by intros [= ->]].
  - split; [done|by intros [= -> _]].
Qed.

Lemma split_once_spec c s a b : split_once c s = Some (a, b) <-> s = a ++ c :: b /\ c ∉ a.
Proof.
  revert a b. induction s as [|x s IH]; intros a b; cbn.
  { split; [done|]. intros [H _]. by destruct a. }
  destruct (Z.eqb_spec x c) as [->|Hne].
  - split.
    + intros [= <- <-]. split; [done|]. apply not_elem_of_nil.
    + intros [H Ha]. destruct a as [|y a]; [by injection H as <-|].
      injection H as <- _. exfalso. apply Ha, list_elem_of_here.
  - rewrite fmap_Some. split.
    + intros ([a' b'] & [-> Ha]%IH & [= -> ->]). split; [done|]. intros [?|?]%elem_of_cons; done.
    + intros [H Ha]. destruct a as [|y a]; [by injection H|]. injection H as -> ->. exists (a, b).
      split; [|done]. apply IH. split; [done|]. intros Hc. apply Ha. by apply list_elem_of_further.
Qed.

Lemma parse_digits_range max n s v : 0 <= n <= max -> parse_digits max n s = Some v -> 0 <= v <= max.
Proof.
  revert n. induction s as [|d s IH]; intros n Hn; cbn; [by intros [= <-]|].
  destruct (is_digit d) eqn:Hd; [|done]. unfold is_digit in Hd. cbv zeta. case_if; [done|]. zb. apply IH. lia.
Qed.

Lemma parse_uint_range max s v : 0 <= max -> parse_uint max s = Some v -> 0 <= v <= max.
Proof.
  intros Hm. unfold parse_uint. repeat case_match; try done; apply parse_digits_range; lia.
Qed.
