(* ===== verification/ParserKind.v ===== *)
(** * Parser identities (src/src/parser_kind.rs)

    [ParserKind] pairs every built-in variant with its slug in one table;
    [as_str] and [from_slug] both read it. *)

From S2P Require Import Prelude.

Module ParserKind.
Inductive t :=
  | Http1 | Http2 | Tls | TlsHandshake | DnsUdp | DnsTcp | Icmp | Ssh | Ntp | Ssdp | Tftp | Mdns | NetbiosNs
  | Ftp | Smtp | WireGuard | Modbus | Stun | Rdp | Snmp | Radius | Dhcp | Quic | Smb | Ldap | Kerberos | Dnp3
  | Other (slug : list Z)
  | Unspecified.
#[global] Instance eq_dec : EqDecision t.
Proof. solve_decision. Defined.

Definition SLUGS : list (t * list Z) :=
  [(Http1, bstr "http/1"); (Http2, bstr "http/2"); (Tls, bstr "tls"); (TlsHandshake, bstr "tls-handshake");
   (DnsUdp, bstr "dns-udp"); (DnsTcp, bstr "dns-tcp"); (Icmp, bstr "icmp"); (Ssh, bstr "ssh"); (Ntp, bstr "ntp");
   (Ssdp, bstr "ssdp"); (Tftp, bstr "tftp"); (Mdns, bstr "mdns"); (NetbiosNs, bstr "netbios-ns");
   (Ftp, bstr "ftp"); (Smtp, bstr "smtp"); (WireGuard, bstr "wireguard"); (Modbus, bstr "modbus");
   (Stun, bstr "stun"); (Rdp, bstr "rdp"); (Snmp, bstr "snmp"); (Radius, bstr "radius"); (Dhcp, bstr "dhcp");
   (Quic, bstr "quic"); (Smb, bstr "smb"); (Ldap, bstr "ldap"); (Kerberos, bstr "kerberos"); (Dnp3, bstr "dnp3")].

Definition as_str (k : t) : list Z :=
  match k with
  | Other s => s
  | Unspecified => []
  | _ => match List.find (fun e => bool_decide (e.1 = k)) SLUGS with Some e => e.2 | None => [] end
  end.
Definition from_slug (s : list Z) : t :=
  match List.find (fun e => bool_decide (e.2 = s)) SLUGS with Some e => e.1 | None => Unspecified end.
End ParserKind.

(** A parser registered on a typed driver: its registration index. *)
Module SlotId.
Definition t : Type := Z.
Definition index (s : t) : Z := s.
End SlotId.

Module ParserKindProps.
Import ParserKind.

(** A slug parses back to its kind, except for a downstream label, which
    cannot be rebuilt, and is distinct from every other slug. *)
Lemma slug_roundtrip k : (forall s, k <> Other s) -> from_slug (as_str k) = k.
Proof. intros N. destruct k; try reflexivity. by destruct (N slug). Qed.
Lemma slugs_distinct k k' :
  (forall s, k <> Other s) -> (forall s, k' <> Other s) -> as_str k = as_str k' -> k = k'.
Proof. intros N N' E. by rewrite <- (slug_roundtrip k N), E, slug_roundtrip. Qed.
Lemma from_slug_unknown s : ~ (exists k, In (k, s) SLUGS) -> from_slug s = Unspecified.
Proof.
  intros N. unfold from_slug. destruct (List.find _ SLUGS) as [e|] eqn:E; [|done]. exfalso. apply N.
  apply find_some in E as [I E]. apply bool_decide_eq_true in E. exists e.1. by destruct e; simpl in *; subst.
Qed.
End ParserKindProps.
