(* ===== verification/Parser.v ===== *)
(** * Message parsers (src/src/session/mod.rs)

    The traits of stream and datagram parsers and of their factories, as
    classes, and the ready-made parsers over a [parse_one] function.  A
    callback that pushes messages to [out] returns the list it pushed. *)

From S2P Require Import Prelude Time Flow Text ParserKind.

(** ** Labels *)
Module FlowSide.
Definition as_str (s : FlowSide) : list Z :=
  match s with Initiator => bstr "initiator" | Responder => bstr "responder" end.
End FlowSide.
Module ReassemblyStop.
Definition as_str (s : ReassemblyStop) : list Z :=
  match s with Overflow => bstr "overflow" | Memcap => bstr "memcap" end.
End ReassemblyStop.

(** ** The traits *)
Inductive GapResponse := Continue | StopSide | Stop.

Class SessionParser (P M : Type) := {
  feed_initiator : list Z -> Timestamp.t -> P -> P * list M;
  feed_responder : list Z -> Timestamp.t -> P -> P * list M;
  fin_initiator : P -> P * list M;
  fin_responder : P -> P * list M;
  rst_initiator : P -> P;
  rst_responder : P -> P;
  on_tick : Timestamp.t -> P -> P * list M;
  on_gap : FlowSide -> Z -> Timestamp.t -> P -> P * list M * GapResponse;
  is_poisoned : P -> bool;
  poison_reason : P -> option (list Z);
  is_done : P -> bool;
  parser_kind : P -> ParserKind.t }.
#[global] Hint Mode SessionParser ! - : typeclass_instances.

(** The trait's default methods. *)
Module SessionParserDefaults.
Definition fin {P M} (p : P) : P * list M := (p, []).
Definition rst {P} (p : P) : P := p.
Definition on_tick {P M} (now : Timestamp.t) (p : P) : P * list M := (p, []).
Definition on_gap {P M} (side : FlowSide) (missing : Z) (ts : Timestamp.t) (p : P) : P * list M * GapResponse :=
  (p, [], StopSide).
Definition is_poisoned {P} (p : P) : bool := false.
Definition poison_reason {P} (p : P) : option (list Z) := None.
Definition is_done {P} (p : P) : bool := false.
Definition parser_kind {P} (p : P) : ParserKind.t := ParserKind.Unspecified.
End SessionParserDefaults.

Class SessionParserFactory (K F P : Type) := new_parser : K -> F -> F * P.
#[global] Hint Mode SessionParserFactory - ! - : typeclass_instances.

(** A set of transports, as its bits. *)
Module Transports.
Definition UDP : Z := 1.
Definition ICMP : Z := 2.
Definition ICMPV6 : Z := 4.
Definition SCTP : Z := 8.
Definition OTHER : Z := 16.
Definition ICMP_ANY : Z := Z.lor ICMP ICMPV6.
Definition contains (s bit : Z) : bool := Z.land s bit =? bit.
Definition admits (s : Z) (l4 : option L4Proto) : bool :=
  match l4 with
  | Some Udp => contains s UDP
  | Some Icmp => contains s ICMP
  | Some IcmpV6 => contains s ICMPV6
  | Some Sctp => contains s SCTP
  | Some Tcp => false
  | _ => contains s OTHER
  end.
End Transports.

Class DatagramParser (P M : Type) := {
  parse : list Z -> FlowSide -> Timestamp.t -> P -> P * list M;
  dg_on_tick : Timestamp.t -> P -> P * list M;
  dg_is_poisoned : P -> bool;
  dg_poison_reason : P -> option (list Z);
  dg_is_done : P -> bool;
  dg_parser_kind : P -> ParserKind.t;
  dg_transports : P -> Z }.
#[global] Hint Mode DatagramParser ! - : typeclass_instances.
Class DatagramParserFactory (K F P : Type) := {
  new_datagram_parser : K -> F -> F * P;
  transports : F -> Z }.
#[global] Hint Mode DatagramParserFactory - ! - : typeclass_instances.

(** [Clone::clone], where it is not the identity. *)
Class Clone (P : Type) := clone : P -> P.
Module TemplateFactory.
Record t {P : Type} := mk { template : P }.
#[global] Arguments t : clear implicits.
#[global] Arguments mk {P}.
#[global] Instance session_factory {K P} `{Clone P} : SessionParserFactory K (t P) P :=
  fun _ f => (f, clone (template f)).
#[global] Instance datagram_factory {K P M} `{Clone P} `{DatagramParser P M} : DatagramParserFactory K (t P) P :=
  { new_datagram_parser _ f := (f, clone (template f)); transports f := dg_transports (template f) }.
End TemplateFactory.

(** ** Accumulate, parse, drain *)
Definition DEFAULT_FRAME_DRAIN_MAX_BUFFER : Z := 64 * 1024.
Inductive FrameDrainError := BufferFull | ZeroByteAdvance.

Module BufferedFrameDrain.
Section drain.
Context {M : Type}.
Record t := mk { buf : list Z; out : list M; max_buffer : Z; poisoned : option FrameDrainError }.
#[global] Instance eta : Eta t := mk_eta (fun d => mk (buf d) (out d) (max_buffer d) (poisoned d)).

Definition with_max_buffer (max_buffer : Z) : t := mk [] [] max_buffer None.
Definition new : t := with_max_buffer DEFAULT_FRAME_DRAIN_MAX_BUFFER.
#[global] Instance clone : Clone t := fun d => mk [] [] (max_buffer d) None.

Definition extend (bytes : list Z) (d : t) : t * result FrameDrainError unit :=
  match poisoned d with
  | Some e => (d, Err e)
  | None =>
      if max_buffer d <? sat_add (zlen (buf d)) (zlen bytes) then
        let room := sat_sub (max_buffer d) (zlen (buf d)) in
        (d <| buf ::= fun b => b ++ ztake (Z.min room (zlen bytes)) bytes |> <| poisoned := Some BufferFull |>,
         Err BufferFull)
      else (d <| buf ::= fun b => b ++ bytes |>, Ok tt)
  end.

(** A round drops a byte at least, or poisons: see [drain_frames] of ParserProps. *)
Fixpoint drain_fuel (fuel : nat) (parse_one : list Z -> option (M * Z)) (d : t) : t :=
  match fuel with
  | O => d
  | S fuel =>
      match poisoned d with
      | Some _ => d
      | None =>
          match parse_one (buf d) with
          | Some (msg, n) =>
              let d := d <| out ::= fun o => o ++ [msg] |> in
              if n =? 0 then d <| poisoned := Some ZeroByteAdvance |>
              else
                drain_fuel fuel parse_one
                  (if zlen (buf d) <=? n then d <| buf := [] |> else d <| buf ::= zdrop n |>)
          | None => d
          end
      end
  end.
Definition drain_with (parse_one : list Z -> option (M * Z)) (d : t) : t :=
  drain_fuel (S (length (buf d))) parse_one d.

Definition take_messages (d : t) : t * list M := (d <| out := [] |>, out d).
Definition buffered_len (d : t) : Z := zlen (buf d).
Definition is_poisoned (d : t) : bool := is_some (poisoned d).
Definition poison_reason (d : t) : option FrameDrainError := poisoned d.
End drain.
#[global] Arguments t : clear implicits.
End BufferedFrameDrain.

Module AccumulatingSessionParser.
Section parser.
Context {M : Type}.
Record t := mk {
  kind : ParserKind.t; parse_one : list Z -> option (M * Z); max_buffer : Z;
  init : BufferedFrameDrain.t M; resp : BufferedFrameDrain.t M }.
#[global] Instance eta : Eta t := mk_eta (fun p => mk (kind p) (parse_one p) (max_buffer p) (init p) (resp p)).
Definition with_max_buffer (kind : ParserKind.t) (parse_one : list Z -> option (M * Z)) (max_buffer : Z) : t :=
  mk kind parse_one max_buffer (BufferedFrameDrain.with_max_buffer max_buffer)
    (BufferedFrameDrain.with_max_buffer max_buffer).
Definition new (kind : ParserKind.t) (parse_one : list Z -> option (M * Z)) : t :=
  with_max_buffer kind parse_one DEFAULT_FRAME_DRAIN_MAX_BUFFER.
#[global] Instance clone : Clone t := fun p => with_max_buffer (kind p) (parse_one p) (max_buffer p).

(** The body of [feed_initiator] and [feed_responder]. *)
Definition feed (parse_one : list Z -> option (M * Z)) (bytes : list Z) (d : BufferedFrameDrain.t M)
    : BufferedFrameDrain.t M * list M :=
  match BufferedFrameDrain.extend bytes d with
  | (d, Err _) => BufferedFrameDrain.take_messages d
  | (d, Ok _) => BufferedFrameDrain.take_messages (BufferedFrameDrain.drain_with parse_one d)
  end.
Definition feed_initiator (bytes : list Z) (p : t) : t * list M :=
  let (d, out) := feed (parse_one p) bytes (init p) in (p <| init := d |>, out).
Definition feed_responder (bytes : list Z) (p : t) : t * list M :=
  let (d, out) := feed (parse_one p) bytes (resp p) in (p <| resp := d |>, out).
Definition is_poisoned (p : t) : bool :=
  BufferedFrameDrain.is_poisoned (init p) || BufferedFrameDrain.is_poisoned (resp p).
Definition poison_reason (p : t) : option (list Z) :=
  (fun err => match err with
              | BufferFull => bstr "buffer cap exceeded"
              | ZeroByteAdvance => bstr "parse_one returned zero-byte advance"
              end) <$>
    match BufferedFrameDrain.poison_reason (init p) with
    | Some e => Some e
    | None => BufferedFrameDrain.poison_reason (resp p)
    end.
#[global] Instance session_parser : SessionParser t M := {
  Parser.feed_initiator bytes _ p := feed_initiator bytes p;
  Parser.feed_responder bytes _ p := feed_responder bytes p;
  fin_initiator := SessionParserDefaults.fin; fin_responder := SessionParserDefaults.fin;
  rst_initiator := SessionParserDefaults.rst; rst_responder := SessionParserDefaults.rst;
  on_tick := SessionParserDefaults.on_tick; on_gap := SessionParserDefaults.on_gap;
  Parser.is_poisoned := is_poisoned; Parser.poison_reason := poison_reason;
  is_done := SessionParserDefaults.is_done; parser_kind := kind }.
End parser.
#[global] Arguments t : clear implicits.
End AccumulatingSessionParser.

Module PerDatagramParser.
Section parser.
Context {M : Type}.
Record t := mk { kind : ParserKind.t; parse_one : list Z -> option M }.
Definition new (kind : ParserKind.t) (parse_one : list Z -> option M) : t := mk kind parse_one.
#[global] Instance clone : Clone t := fun p => p.
#[global] Instance datagram_parser : DatagramParser t M := {
  parse payload _ _ p := (p, match parse_one p payload with Some msg => [msg] | None => [] end);
  dg_on_tick := SessionParserDefaults.on_tick; dg_is_poisoned := SessionParserDefaults.is_poisoned;
  dg_poison_reason := SessionParserDefaults.poison_reason; dg_is_done := SessionParserDefaults.is_done;
  dg_parser_kind := kind; dg_transports _ := Transports.UDP }.
End parser.
#[global] Arguments t : clear implicits.
End PerDatagramParser.

(** ** Gap recovery *)

(** The flag, and the part of [bytes] to parse. *)
Definition skip_partial_line (pending : bool) (bytes : list Z) : bool * list Z :=
  if negb pending then (false, bytes)
  else
    match index_of 10 bytes with
    | Some p => (false, drop (S p) bytes)
    | None => (true, [])
    end.
Definition resync_frames (pending : bool) (buf : list Z) (keep : Z) (find : list Z -> option Z) : bool * list Z :=
  if negb pending then (false, buf)
  else
    match find buf with
    | Some at_ => (false, zdrop at_ buf)
    | None => (true, zdrop (sat_sub (zlen buf) keep) buf)
    end.
