(* ===== verification/ParserProps.v ===== *)
(** * The accumulating parser under any cut (src/src/session/mod.rs)

    A parser built from a [parse_one] function that recognises frames
    reports the frames of the stream, however it was cut into pieces; and it
    poisons itself exactly when a piece does not fit behind the bytes that
    are still unparsed. *)

From S2P Require Import Prelude Time Flow Text ParserKind Parser.
Import BufferedFrameDrain.

Section framing.
Context {M : Type}.
Variable parse_one : list Z -> option (M * Z).

(** [parse_one] takes a frame off the front, and bytes behind the frame do
    not matter. *)
Definition framing : Prop := forall b m n, parse_one b = Some (m, n) ->
  0 < n <= zlen b /\ forall c, parse_one (b ++ c) = Some (m, n).

(** The frames at the front of [b], and the rest. *)
Fixpoint frames_fuel (fuel : nat) (b : list Z) : list M * list Z :=
  match fuel with
  | O => ([], b)
  | S fuel =>
      match parse_one b with
      | Some (m, n) => let (ms, rest) := frames_fuel fuel (zdrop n b) in (m :: ms, rest)
      | None => ([], b)
      end
  end.
Definition frames (b : list Z) : list M * list Z := frames_fuel (S (length b)) b.

Hypothesis F : framing.

Lemma zdrop_shorter (n : Z) (b : list Z) : 0 < n <= zlen b -> (length (zdrop n b) < length b)%nat.
Proof. intros N. unfold zdrop. rewrite length_drop. unfold zlen in N. lia. Qed.

Lemma frames_fuel_more j : forall k b, (length b < j)%nat -> (length b < k)%nat -> frames_fuel j b = frames_fuel k b.
Proof.
  induction j as [|j IH]; intros [|k] b Lj Lk; try lia. cbn [frames_fuel].
  destruct (parse_one b) as [[m n]|] eqn:P; [|done]. apply F in P as [P _]. apply zdrop_shorter in P.
  by rewrite (IH k) by lia.
Qed.
Lemma frames_eq b : frames b =
  match parse_one b with
  | Some (m, n) => let (ms, rest) := frames (zdrop n b) in (m :: ms, rest)
  | None => ([], b)
  end.
Proof.
  unfold frames at 1. cbn [frames_fuel]. destruct (parse_one b) as [[m n]|] eqn:P; [|done].
  apply F in P as [P _]. apply zdrop_shorter in P. by rewrite (frames_fuel_more _ (S (length (zdrop n b)))) by lia.
Qed.
Lemma frames_app c : forall b, frames (b ++ c) =
  let (ms, rest) := frames b in let (ms', rest') := frames (rest ++ c) in (ms ++ ms', rest').
Proof.
  intros b. remember (length b) as k eqn:E. revert b E. induction k as [k IH] using lt_wf_ind. intros b ->.
  rewrite (frames_eq b). destruct (parse_one b) as [[m n]|] eqn:P; [|by destruct (frames (b ++ c))].
  pose proof P as Q. apply F in Q as [N Q]. rewrite (frames_eq (b ++ c)), Q, zdrop_app_le by lia.
  rewrite (IH _ (zdrop_shorter n b N) (zdrop n b) eq_refl).
  destruct (frames (zdrop n b)) as [ms rest]. by destruct (frames (rest ++ c)).
Qed.

(** The drain loop reaches the rest: its fuel is enough. *)
Lemma drain_frames j : forall d : t M, poisoned d = None -> (length (buf d) < j)%nat ->
  drain_fuel j parse_one d = mk (frames (buf d)).2 (out d ++ (frames (buf d)).1) (max_buffer d) None.
Proof.
  induction j as [|j IH]; intros [b o mx p]; cbn [poisoned buf out max_buffer]; intros -> L; [lia|].
  cbn [drain_fuel poisoned buf out]. rewrite frames_eq. destruct (parse_one b) as [[m n]|] eqn:P.
  2: { cbn. by rewrite app_nil_r. }
  apply F in P as [N _]. pose proof (zdrop_shorter n b N) as L'.
  rewrite (proj2 (Z.eqb_neq n 0)) by lia.
  match goal with |- drain_fuel _ _ ?d = _ => replace d with (mk (zdrop n b) (o ++ [m]) mx None) end.
  - rewrite IH; [|done|cbn [buf]; lia]. cbn [buf out max_buffer]. destruct (frames (zdrop n b)) as [ms rest]. cbn. by rewrite <- app_assoc.
  - cbn [buf out max_buffer poisoned]. case_if; [|done]. zb. f_equal. unfold zdrop. rewrite drop_ge; [done|]. cbn in *. unfold zlen in *. lia.
Qed.

(** *** Pieces *)
Notation parser := (AccumulatingSessionParser.t M).
Definition drain_of (side : FlowSide) (p : parser) : t M :=
  match side with Initiator => AccumulatingSessionParser.init p | Responder => AccumulatingSessionParser.resp p end.
(** The segments of one side, fed one by one. *)
Fixpoint feed_all (side : FlowSide) (pieces : list (list Z)) (p : parser) : parser * list M :=
  match pieces with
  | [] => (p, [])
  | b :: pieces =>
      let (p, out) := match side with
                      | Initiator => AccumulatingSessionParser.feed_initiator b p
                      | Responder => AccumulatingSessionParser.feed_responder b p
                      end in
      let (p, out') := feed_all side pieces p in (p, out ++ out')
  end.
(** The first piece that does not fit behind what is unparsed. *)
Definition overflows (mx : Z) (pieces : list (list Z)) : Prop := exists a b c,
  pieces = a ++ b :: c /\ mx < zlen (frames (concat a)).2 + zlen b.

Lemma feed_fits b (d : t M) : 0 <= max_buffer d < U64_MAX -> poisoned d = None -> out d = [] ->
  AccumulatingSessionParser.feed parse_one b d =
    if max_buffer d <? zlen (buf d) + zlen b
    then (mk (buf d ++ ztake (Z.min (sat_sub (max_buffer d) (zlen (buf d))) (zlen b)) b) [] (max_buffer d) (Some BufferFull), [])
    else let (ms, rest) := frames (buf d ++ b) in (mk rest [] (max_buffer d) None, ms).
Proof.
  destruct d as [bf o mx p]. cbn -[U64_MAX zlen frames]. intros Hm -> ->. unfold AccumulatingSessionParser.feed, extend.
  cbn [poisoned max_buffer buf].
  assert ((mx <? sat_add (zlen bf) (zlen b)) = (mx <? zlen bf + zlen b)) as -> by (apply eq_true_iff_eq; rewrite !Z.ltb_lt; unfold sat_add; lia).
  case_if; [done|]. unfold drain_with. rewrite drain_frames; [|done|cbn; lia]. cbn -[frames]. by destruct (frames (bf ++ b)).
Qed.
Lemma feed_poisoned b (d : t M) e : poisoned d = Some e -> out d = [] ->
  AccumulatingSessionParser.feed parse_one b d = (d, []).
Proof.
  destruct d as [bf o mx p]. cbn. intros -> ->. reflexivity.
Qed.

Definition after (mx : Z) (pieces : list (list Z)) (d : t M) (ms : list M) : Prop :=
  max_buffer d = mx /\ out d = [] /\
  match poisoned d with
  | None => ~ overflows mx pieces /\ (ms, buf d) = frames (concat pieces)
  | Some e => e = BufferFull /\ overflows mx pieces
  end.
Lemma overflows_snoc mx pieces b :
  overflows mx (pieces ++ [b]) <-> overflows mx pieces \/ mx < zlen (frames (concat pieces)).2 + zlen b.
Proof.
  split.
  - intros (x & y & z & E & O). destruct z as [|z0 z _] using rev_ind.
    + apply app_inj_tail in E as [-> ->]. by right.
    + left. rewrite app_comm_cons, app_assoc in E. apply app_inj_tail in E as [-> _]. by exists x, y, z.
  - intros [(x & y & z & -> & O)|O]; [|by exists pieces, b, []]. exists x, y, (z ++ [b]). by rewrite <- app_assoc.
Qed.
Lemma after_feed mx pieces b d ms : 0 <= mx < U64_MAX -> after mx pieces d ms ->
  let (d', ms') := AccumulatingSessionParser.feed parse_one b d in after mx (pieces ++ [b]) d' (ms ++ ms').
Proof.
  intros Hm (Em & Eo & A). destruct (poisoned d) as [e|] eqn:Ep.
  - rewrite (feed_poisoned b d e Ep Eo). split_and!; [done|done|]. rewrite Ep. rewrite overflows_snoc. tauto.
  - destruct A as [N A]. rewrite feed_fits by (rewrite ?Em; done). rewrite Em.
    pose proof (overflows_snoc mx pieces b) as S. rewrite <- A in S. cbn [snd] in S. case_if; zb.
    + split_and!; cbn; [done|done|]. rewrite S. split; [done|]. by right.
    + pose proof (frames_app b (concat pieces)) as G. rewrite <- A in G. destruct (frames (buf d ++ b)) as [ms' rest].
      split_and!; cbn; [done|done|]. rewrite S, concat_app. cbn. rewrite app_nil_r. split; [|done]. intros [?|?]; [done|lia].
Qed.
End framing.
#[global] Arguments frames {M}.

(** C13: a parser over a [parse_one] function that recognises frames
    reports the same messages however the stream of a side is cut: as long
    as it is not poisoned they are the frames of the whole stream, and the
    bytes it holds are what is left behind the last one.  It is poisoned
    exactly when some piece does not fit in [max_buffer] behind the bytes
    that were unparsed when it came, never by a frame, and for good. *)
Theorem accumulating_any_cut {M} (parse_one : list Z -> option (M * Z)) kind mx side pieces :
  framing parse_one -> 0 <= mx < U64_MAX ->
  let (p, ms) := feed_all side pieces (AccumulatingSessionParser.with_max_buffer kind parse_one mx) in
  (AccumulatingSessionParser.is_poisoned p = false ->
     (ms, buf (drain_of side p)) = frames parse_one (concat pieces)) /\
  (AccumulatingSessionParser.is_poisoned p = true <-> overflows parse_one mx pieces) /\
  (AccumulatingSessionParser.is_poisoned p = true ->
     AccumulatingSessionParser.poison_reason p = Some (bstr "buffer cap exceeded")).
Proof.
  intros F Hm.
  set (ok := fun done p ms => after parse_one mx done (drain_of side p) ms /\ AccumulatingSessionParser.parse_one p = parse_one /\
    poisoned (drain_of (opposite side) p) = None).
  assert (forall pieces done p ms, ok done p ms -> let (p', ms') := feed_all side pieces p in ok (done ++ pieces) p' (ms ++ ms')) as G.
  { clear pieces. induction pieces as [|b pieces IH]; intros dn p ms Hok; cbn [feed_all]; [by rewrite !app_nil_r|].
    destruct Hok as (A & Ep & Eo). apply (after_feed _ F _ _ b _ _ Hm) in A.
    assert (let (p', ms') := match side with Initiator => AccumulatingSessionParser.feed_initiator b p
      | Responder => AccumulatingSessionParser.feed_responder b p end in ok (dn ++ [b]) p' (ms ++ ms')) as B.
    { unfold AccumulatingSessionParser.feed_initiator, AccumulatingSessionParser.feed_responder.
      destruct side; cbn in A, Eo |- *; rewrite Ep; by destruct (AccumulatingSessionParser.feed parse_one b _) as [d ms']. }
    destruct (match side with Initiator => _ | Responder => _ end) as [p1 ms1].
    specialize (IH _ _ _ B). destruct (feed_all side pieces p1) as [p2 ms2]. by rewrite <- !app_assoc in IH. }
  specialize (G pieces [] (AccumulatingSessionParser.with_max_buffer kind parse_one mx) []).
  destruct (feed_all side pieces _) as [p ms]. cbn [app] in G.
  destruct G as ((_ & _ & A) & _ & Eo).
  { split_and!; [|done|by destruct side].
    assert (after parse_one mx [] (with_max_buffer mx) []) as A0; [|by destruct side].
    split_and!; [done|done|]. cbn [poisoned with_max_buffer]. split; [intros (x & y & z & E & _); by destruct x|].
    rewrite (frames_eq _ F). cbn. destruct (parse_one []) as [[m n]|] eqn:P; [|done]. apply F in P as [N _]. unfold zlen in N. simpl in N. lia. }
  assert (AccumulatingSessionParser.is_poisoned p = is_some (poisoned (drain_of side p))) as E.
  { unfold AccumulatingSessionParser.is_poisoned, is_poisoned. destruct side; cbn in *; rewrite Eo; [by rewrite orb_false_r|done]. }
  rewrite E. destruct (poisoned (drain_of side p)) as [e|] eqn:Ed; cbn.
  - destruct A as [-> O]. split_and!; [done|done|]. intros _. unfold AccumulatingSessionParser.poison_reason, poison_reason.
    destruct side; cbn in Ed, Eo |- *; rewrite ?Eo, Ed; done.
  - destruct A as [N A]. by split_and!.
Qed.

(** A length-prefixed protocol: one byte of length, then the body. *)
Definition one_line (b : list Z) : option (list Z * Z) :=
  match b with
  | n :: body => if (0 <=? n) && (n <=? zlen body) then Some (ztake n body, n + 1) else None
  | [] => None
  end.
Lemma one_line_framing : framing one_line.
Proof.
  intros [|n body] m k; [done|]. unfold one_line. destruct (_ && _) eqn:T; [|done]. apply andb_true_iff in T as [T1 T2]. zb.
  intros [= <- <-]. split; [zlia|]. intros c. cbn [app]. rewrite zlen_app, (proj2 (Z.leb_le 0 n)), (proj2 (Z.leb_le n (zlen body + zlen c))) by zlia.
  cbn. by rewrite ztake_app_le by lia.
Qed.
Lemma accumulating_any_cut_witness :
  let (p, ms) := feed_all Responder [[2; 7]; [8; 1]; [9; 3; 5]]
    (AccumulatingSessionParser.with_max_buffer ParserKind.Unspecified one_line 4) in
  ms = [[7; 8]; [9]] /\ buf (drain_of Responder p) = [3; 5].
Proof.
  pose proof (accumulating_any_cut one_line ParserKind.Unspecified 4 Responder [[2; 7]; [8; 1]; [9; 3; 5]]
    one_line_framing ltac:(done)) as A.
  destruct (feed_all _ _ _) as [p ms] eqn:E. vm_compute in E. injection E as <- <-.
  destruct A as (A & _). by specialize (A eq_refl).
Defined.

(** [extend] is documented to keep what fits so that a consumer can use it;
    nothing of it is parsed: a piece of complete frames longer than the
    buffer gives no message. *)
Example poisoned_unparsed :
  snd (feed_all Initiator [[1; 7; 1; 8; 1; 9]] (AccumulatingSessionParser.with_max_buffer ParserKind.Unspecified one_line 4)) = []
  /\ snd (feed_all Initiator [[1; 7; 1]; [8; 1; 9]] (AccumulatingSessionParser.with_max_buffer ParserKind.Unspecified one_line 4))
     = [[7]; [8]; [9]].
Proof. by vm_compute. Qed.
(** A function that takes a frame from no bytes makes the drain loop go
    round without end: whatever the fuel, it is used up. *)
Lemma empty_frame_loops {M} (parse_one : list Z -> option (M * Z)) m n j :
  parse_one [] = Some (m, n) -> 0 < n -> out (drain_fuel j parse_one (with_max_buffer 0)) = replicate j m.
Proof.
  intros P N. assert (forall o, out (drain_fuel j parse_one (mk [] o 0 None)) = o ++ replicate j m) as G; [|apply (G [])].
  induction j as [|j IH]; intros o; [by rewrite app_nil_r|]. cbn [drain_fuel poisoned buf].
  rewrite P, (proj2 (Z.eqb_neq n 0)) by lia.
  set (d := if zlen _ <=? n then _ else _).
  assert (d = mk [] (o ++ [m]) 0 None) as ->; [|rewrite IH; by rewrite <- app_assoc].
  unfold d. rewrite (proj2 (Z.leb_le _ n)); [done|]. unfold zlen. simpl. lia.
Qed.
