(* ===== verification/Http2Stream.v ===== *)
(** * The HTTP/2 parser (src/src/http2/stream.rs)

    [Http2Parser]: bytes are pushed per direction, frames are cut from
    the buffers, field blocks are assembled and decoded, and events are
    queued.  A function that can fail returns the state it failed in next
    to the error, since [fail] keeps parts of it. *)

From stdpp Require Import gmap.
From S2P Require Import Prelude Flow Text Http2Error Hpack Http2Frame.

(** The value of the first field of that name. *)
Definition find_field (name : list Z) (fields : list Field) : option (list Z) :=
  (fun p : nat * Field => p.2.2) <$> list_find (fun f : Field => f.1 = name) fields.

Module StreamHead.
Record t := mk { stream_id : Z; dir : FlowSide; fields : list Field; end_stream : bool }.

Definition field (name : list Z) (h : t) : option (list Z) := find_field name (fields h).
Definition field_str (name : list Z) (h : t) : option (list Z) :=
  v ← field name h; if utf8_valid v then Some v else None.
Definition method := field_str (bstr ":method").
Definition path := field_str (bstr ":path").
Definition authority := field_str (bstr ":authority").
Definition scheme := field_str (bstr ":scheme").
Definition status (h : t) : option Z := field_str (bstr ":status") h ≫= parse_uint U16_MAX.
Definition content_type := field_str (bstr "content-type").
End StreamHead.

Inductive Http2Event :=
  | Head (h : StreamHead.t)
  | Body (stream_id : Z) (dir : FlowSide) (data : list Z)
  | Trailers (stream_id : Z) (dir : FlowSide) (fields : list Field)
  | End_ (stream_id : Z) (dir : FlowSide)
  | StreamReset (stream_id error_code : Z)
  | GoAway (last_stream_id error_code : Z)
  | Settings_ (dir : FlowSide) (header_table_size max_frame_size : option Z).

Module Http2Config.
Record t := mk {
  max_frame_size : Z;
  max_header_block_bytes : Z;
  max_hpack_table_bytes : Z;
  max_concurrent_streams : Z;
  max_buffered_bytes : Z;
  require_preface : bool }.
#[global] Instance eta : Eta t := mk_eta (fun c =>
  mk (max_frame_size c) (max_header_block_bytes c) (max_hpack_table_bytes c)
     (max_concurrent_streams c) (max_buffered_bytes c) (require_preface c)).

Definition with_max_frame_size (n : Z) (c : t) : t := c <| max_frame_size := n |>.
Definition with_max_header_block_bytes (n : Z) (c : t) : t := c <| max_header_block_bytes := n |>.
Definition with_max_hpack_table_bytes (n : Z) (c : t) : t := c <| max_hpack_table_bytes := n |>.
Definition with_max_concurrent_streams (n : Z) (c : t) : t := c <| max_concurrent_streams := n |>.
Definition with_max_buffered_bytes (n : Z) (c : t) : t := c <| max_buffered_bytes := n |>.
Definition with_require_preface (yes : bool) (c : t) : t := c <| require_preface := yes |>.

Definition effective_max_frame_size (c : t) : Z :=
  let by_buffer := sat_sub (max_buffered_bytes c) FRAME_HEADER_LEN in
  Z.min (Z.min by_buffer U32_MAX) (max_frame_size c).

Definition default : t := mk (1024 * 1024) (64 * 1024) (64 * 1024) 256 (1024 * 1024) true.
End Http2Config.

Module PartialBlock.
Record t := mk { continuation_stream : Z; describes_stream : Z; bytes : list Z; end_stream : bool }.
#[global] Instance eta : Eta t := mk_eta (fun p =>
  mk (continuation_stream p) (describes_stream p) (bytes p) (end_stream p)).
End PartialBlock.

Module StreamState.
Record t := mk { head_seen_request : bool; head_seen_response : bool }.
#[global] Instance eta : Eta t := mk_eta (fun s => mk (head_seen_request s) (head_seen_response s)).
Definition default : t := mk false false.
(** The new state and whether a head had been seen. *)
Definition mark_head (dir : FlowSide) (s : t) : t * bool :=
  match dir with
  | Initiator => (s <| head_seen_request := true |>, head_seen_request s)
  | Responder => (s <| head_seen_response := true |>, head_seen_response s)
  end.
End StreamState.

Module Preface.
Inductive t := Required | Optional | Seen.
#[global] Instance eq_dec : EqDecision t.
Proof. solve_decision. Defined.
End Preface.

Module DirState.
Record t := mk {
  buf : list Z;
  hpack : DynamicTable.t;
  partial : option PartialBlock.t;
  max_frame_size : Z;
  preface : Preface.t;
  done : bool }.
#[global] Instance eta : Eta t := mk_eta (fun d =>
  mk (buf d) (hpack d) (partial d) (max_frame_size d) (preface d) (done d)).
Definition new (cfg : Http2Config.t) (preface : Preface.t) : t :=
  mk [] (HpackDecoder.new 4096 (Http2Config.max_hpack_table_bytes cfg)) None
     (Http2Config.effective_max_frame_size cfg) preface false.
End DirState.

Module Http2Parser.
Import Http2Config.
Record t := mk {
  config : Http2Config.t;
  request : DirState.t;
  response : DirState.t;
  streams : gmap Z StreamState.t;
  events : list Http2Event;
  error : option Http2Error.t }.
#[global] Instance eta : Eta t := mk_eta (fun p =>
  mk (config p) (request p) (response p) (streams p) (events p) (error p)).

Definition with_config (c : Http2Config.t) : t :=
  let initiator := if require_preface c then Preface.Required else Preface.Optional in
  mk c (DirState.new c initiator) (DirState.new c Preface.Seen) ∅ [] None.
Definition new : t := with_config Http2Config.default.

Definition dir_mut (dir : FlowSide) (f : DirState.t -> DirState.t) (p : t) : t :=
  match dir with Initiator => p <| request ::= f |> | Responder => p <| response ::= f |> end.
Definition dir (d : FlowSide) (p : t) : DirState.t :=
  match d with Initiator => request p | Responder => response p end.
Definition push_event (e : Http2Event) (p : t) : t := p <| events ::= fun es => es ++ [e] |>.

(** A step that may fail, and the state it leaves either way. *)
Definition Outcome : Type := t * option Http2Error.t.
Definition then_ (o : Outcome) (k : t -> Outcome) : Outcome :=
  match o with (p, None) => k p | (p, Some e) => (p, Some e) end.

Definition fail (e : Http2Error.t) (p : t) : t :=
  p <| error ::= get_or_insert e |>
    <| request ::= fun d => d <| DirState.done := true |> |>
    <| response ::= fun d => d <| DirState.done := true |> |>
    <| request ::= fun d => d <| DirState.buf := [] |> |>
    <| response ::= fun d => d <| DirState.buf := [] |> |>
    <| streams := ∅ |>.

Definition finish_stream (stream_id : Z) (dir : FlowSide) (p : t) : t :=
  let p := push_event (End_ stream_id dir) p in
  match dir with Responder => p <| streams ::= delete stream_id |> | Initiator => p end.

Definition complete_block (side : FlowSide) (stream_id : Z) (block : list Z) (end_stream : bool) (p : t)
    : Outcome :=
  let '(res, table) := HpackDecoder.decode (DirState.hpack (dir side p)) block in
  let p := dir_mut side (fun d => d <| DirState.hpack := table |>) p in
  match res with
  | Err e => (p, Some e)
  | Ok fields =>
      let known := is_some (streams p !! stream_id) in
      if negb known && (max_concurrent_streams (config p) <=? Z.of_nat (size (streams p)))
      then (p, Some Http2Error.TooManyStreams)
      else
        let state := from_option id StreamState.default (streams p !! stream_id) in
        let '(state, is_trailers) := StreamState.mark_head side state in
        let p := p <| streams ::= <[stream_id := state]> |> in
        let p :=
          push_event (if is_trailers : bool then Trailers stream_id side fields
                      else Head (StreamHead.mk stream_id side fields end_stream)) p in
        (if end_stream then finish_stream stream_id side p else p, None)
  end.

Definition begin_block (side : FlowSide) (f : Frame.t) (p : t) : Outcome :=
  if max_header_block_bytes (config p) <? zlen (Frame.payload f) then (p, Some Http2Error.HeaderListTooLong)
  else
    let describes_stream := from_option id (Frame.stream_id f) (Frame.promised_stream_id f) in
    let end_stream := is_none (Frame.promised_stream_id f) && Frame.has f flags.END_STREAM in
    if Frame.has f flags.END_HEADERS then complete_block side describes_stream (Frame.payload f) end_stream p
    else
      (dir_mut side (fun d => d <| DirState.partial := Some
         (PartialBlock.mk (Frame.stream_id f) describes_stream (Frame.payload f) end_stream) |>) p, None).

Definition continue_block (side : FlowSide) (f : Frame.t) (p : t) : Outcome :=
  let cap := max_header_block_bytes (config p) in
  match DirState.partial (dir side p) with
  | None => (p, Some Http2Error.UnexpectedContinuation)
  | Some partial =>
      if cap <? zlen (PartialBlock.bytes partial) + zlen (Frame.payload f)
      then (p, Some Http2Error.HeaderListTooLong)
      else
        let partial := partial <| PartialBlock.bytes ::= fun b => b ++ Frame.payload f |> in
        if negb (Frame.has f flags.END_HEADERS)
        then (dir_mut side (fun d => d <| DirState.partial := Some partial |>) p, None)
        else
          complete_block side (PartialBlock.describes_stream partial) (PartialBlock.bytes partial)
            (PartialBlock.end_stream partial)
            (dir_mut side (fun d => d <| DirState.partial := None |>) p)
  end.

Definition handle_data (side : FlowSide) (f : Frame.t) (p : t) : t :=
  let p := if is_nil (Frame.payload f) then p
           else push_event (Body (Frame.stream_id f) side (Frame.payload f)) p in
  if Frame.has f flags.END_STREAM then finish_stream (Frame.stream_id f) side p else p.

Definition handle_settings (side : FlowSide) (f : Frame.t) (p : t) : Outcome :=
  if Frame.has f flags.ACK then (p, None)
  else
    match parse_settings (Frame.payload f) with
    | Err e => (p, Some e)
    | Ok s =>
        let target := opposite side in
        let p :=
          match Settings.header_table_size s with
          | Some n =>
              let hard := max_hpack_table_bytes (config p) in
              dir_mut target (fun d => d <| DirState.hpack ::= HpackDecoder.set_max_size (Z.min n hard) |>) p
          | None => p
          end in
        let p :=
          match Settings.max_frame_size s with
          | Some n =>
              let ceiling := effective_max_frame_size (config p) in
              dir_mut target (fun d => d <| DirState.max_frame_size := Z.min n ceiling |>) p
          | None => p
          end in
        (if is_some (Settings.header_table_size s) || is_some (Settings.max_frame_size s)
         then push_event (Settings_ side (Settings.header_table_size s) (Settings.max_frame_size s)) p
         else p, None)
    end.

Definition handle_rst (f : Frame.t) (p : t) : Outcome :=
  let b := at_ (Frame.payload f) in
  if zlen (Frame.payload f) <? 4 then (p, Some Http2Error.MalformedFrame)
  else
    let p := p <| streams ::= delete (Frame.stream_id f) |> in
    (push_event (StreamReset (Frame.stream_id f) (be32 (b 0%nat) (b 1%nat) (b 2%nat) (b 3%nat))) p, None).

Definition handle_goaway (f : Frame.t) (p : t) : Outcome :=
  let b := at_ (Frame.payload f) in
  if zlen (Frame.payload f) <? 8 then (p, Some Http2Error.MalformedFrame)
  else
    let last := Z.land (be32 (b 0%nat) (b 1%nat) (b 2%nat) (b 3%nat)) 0x7fffffff in
    (push_event (GoAway last (be32 (b 4%nat) (b 5%nat) (b 6%nat) (b 7%nat))) p, None).

Definition handle_frame (side : FlowSide) (f : Frame.t) (p : t) : Outcome :=
  let interleaved :=
    match DirState.partial (dir side p) with
    | Some open =>
        negb (bool_decide (Frame.kind f = FrameKind.Continuation))
        || negb (Frame.stream_id f =? PartialBlock.continuation_stream open)
    | None => false
    end in
  if interleaved then (p, Some Http2Error.InterleavedContinuation)
  else
    match Frame.kind f with
    | FrameKind.Headers | FrameKind.PushPromise => begin_block side f p
    | FrameKind.Continuation => continue_block side f p
    | FrameKind.Data => (handle_data side f p, None)
    | FrameKind.Settings => handle_settings side f p
    | FrameKind.RstStream => handle_rst f p
    | FrameKind.GoAway => handle_goaway f p
    | FrameKind.WindowUpdate | FrameKind.Priority | FrameKind.Ping | FrameKind.Unknown _ => (p, None)
    end.

(** [None]: wait for more bytes. *)
Definition open_preface (side : FlowSide) (p : t) : result Http2Error.t (option t) :=
  match side, DirState.preface (request p) with
  | Initiator, (Preface.Required | Preface.Optional) =>
      let buf := DirState.buf (request p) in
      let n := Z.min (zlen buf) (zlen PREFACE) in
      let seen := fun d => d <| DirState.preface := Preface.Seen |> in
      if bool_decide (ztake n buf = ztake n PREFACE) then
        if zlen buf <? zlen PREFACE then Ok None
        else
          Ok (Some (p <| request ::= fun d => d <| DirState.buf ::= zdrop (zlen PREFACE) |> |>
                      <| request ::= seen |>))
      else if bool_decide (DirState.preface (request p) = Preface.Required) then Err Http2Error.BadPreface
      else Ok (Some (p <| request ::= seen |>))
  | _, _ => Ok (Some p)
  end.

(** A round takes one frame, of nine bytes at least, off the buffer. *)
Fixpoint frames (fuel : nat) (side : FlowSide) (p : t) : Outcome :=
  match fuel with
  | O => (p, None)
  | S fuel =>
      let max := DirState.max_frame_size (dir side p) in
      match peek_frame_len (DirState.buf (dir side p)) max with
      | Err e => (p, Some e)
      | Ok None => (p, None)
      | Ok (Some total) =>
          let raw := ztake total (DirState.buf (dir side p)) in
          let p := dir_mut side (fun d => d <| DirState.buf ::= zdrop total |>) p in
          match parse_frame raw max with
          | Err e => (p, Some e)
          | Ok None => (p, None)
          | Ok (Some (f, _)) => then_ (handle_frame side f p) (frames fuel side)
          end
      end
  end.

Definition drive_inner (side : FlowSide) (p : t) : Outcome :=
  match open_preface side p with
  | Err e => (p, Some e)
  | Ok None => (p, None)
  | Ok (Some p) => frames (S (length (DirState.buf (dir side p)))) side p
  end.

Definition drive (side : FlowSide) (p : t) : t :=
  match drive_inner side p with (p, None) => p | (p, Some e) => fail e p end.

(** The new state and the number of bytes accepted. *)
Definition push (side : FlowSide) (data : list Z) (p : t) : t * Z :=
  if is_some (error p) || DirState.done (dir side p) then (p, 0)
  else
    let room := sat_sub (max_buffered_bytes (config p)) (zlen (DirState.buf (dir side p))) in
    if room =? 0 then (fail Http2Error.BufferOverflow p, 0)
    else
      let take := Z.min room (zlen data) in
      if 0 <? take then
        (drive side (dir_mut side (fun d => d <| DirState.buf ::= fun b => b ++ ztake take data |>) p), take)
      else (p, take).

Definition next_event (p : t) : t * option Http2Event :=
  match events p with [] => (p, None) | e :: es => (p <| events := es |>, Some e) end.
Definition is_failed (p : t) : bool := is_some (error p).
Definition buffered (side : FlowSide) (p : t) : Z := zlen (DirState.buf (dir side p)).
Definition tracked_streams (p : t) : Z := Z.of_nat (size (streams p)).
Definition max_frame_size (side : FlowSide) (p : t) : Z := DirState.max_frame_size (dir side p).

Definition fin (side : FlowSide) (p : t) : t :=
  dir_mut side (fun d => d <| DirState.done := true |> <| DirState.buf := [] |> <| DirState.partial := None |>) p.
Definition is_finished (side : FlowSide) (p : t) : bool := DirState.done (dir side p).
Definition is_done (p : t) : bool := DirState.done (request p) && DirState.done (response p).
End Http2Parser.
