(* ===== verification/Http2StreamFacts.v ===== *)
(** * Lemmas on the HTTP/2 parser

    The invariant every call keeps, what the frame handlers leave alone,
    and the equations by which a driven buffer is read frame by frame. *)

From stdpp Require Import gmap.
From S2P Require Import Prelude Flow Http2Error Hpack Http2Frame Http2Stream.
Import Http2Parser HpackFacts FrameFacts.

(** ** What a frame handler may touch *)

(** More bytes at the end of a buffer. *)
Definition more (s : FlowSide) (b : list Z) : t -> t :=
  dir_mut s (fun d => d <| DirState.buf ::= fun x => x ++ b |>).
Definition lift (g : t -> t) (o : Outcome) : Outcome := (g o.1, o.2).

Lemma complete_more s b side id block e p :
  complete_block side id block e (more s b p) = lift (more s b) (complete_block side id block e p).
Proof.
  destruct p as [c [b1 h1 pa1 m1 pr1 d1] [b2 h2 pa2 m2 pr2 d2] st ev er]. unfold complete_block, lift, more.
  destruct s, side; cbn -[HpackDecoder.decode].
  all: destruct (HpackDecoder.decode _ block) as [[fs|err] table]; [|done]; case_if; [done|].
  all: destruct (st !! id) as [[[|] [|]]|], e; reflexivity.
Qed.

Lemma handle_more s b side f p : handle_frame side f (more s b p) = lift (more s b) (handle_frame side f p).
Proof.
  unfold handle_frame.
  assert (DirState.partial (dir side (more s b p)) = DirState.partial (dir side p)) as Epa by by destruct s, side, p.
  assert (config (more s b p) = config p) as Ec by by destruct s, p.
  rewrite Epa. case_if; [done|]. destruct (Frame.kind f); try done.
  - unfold lift, handle_data. cbn [fst snd]. f_equal. destruct s, side, p; repeat case_if; done.
  - unfold begin_block. rewrite Ec. case_if; [done|]. cbv zeta. case_if; [apply complete_more|].
    unfold lift. cbn [fst snd]. f_equal. by destruct s, side, p.
  - unfold handle_rst. cbv zeta. case_if; [done|]. by destruct s, p.
  - unfold handle_settings. case_if; [done|]. destruct (parse_settings _) as [[[h|] [m|] l]|]; [..|done];
      unfold lift; cbn [fst snd]; f_equal; destruct s, side, p; done.
  - unfold begin_block. rewrite Ec. case_if; [done|]. cbv zeta. case_if; [apply complete_more|].
    unfold lift. cbn [fst snd]. f_equal. by destruct s, side, p.
  - unfold handle_goaway. cbv zeta. case_if; [done|]. by destruct s, p.
  - unfold continue_block. rewrite Epa, Ec. destruct (DirState.partial (dir side p)) as [pb|]; [|done].
    case_if; [done|]. cbv zeta. case_if.
    + unfold lift. cbn [fst snd]. f_equal. by destruct s, side, p.
    + rewrite <- complete_more. f_equal. by destruct s, side, p.
Qed.

(** Buffers, flags, the configuration and the error are not a frame
    handler's business. *)
Definition same_io (p p' : t) : Prop :=
  config p' = config p /\ error p' = error p /\
  forall s, DirState.buf (dir s p') = DirState.buf (dir s p) /\ DirState.done (dir s p') = DirState.done (dir s p) /\
            DirState.preface (dir s p') = DirState.preface (dir s p).

Lemma same_io_refl p : same_io p p.
Proof. done. Qed.
Lemma same_io_trans p p' p'' : same_io p p' -> same_io p' p'' -> same_io p p''.
Proof.
  intros (A1 & A2 & A3) (B1 & B2 & B3). split; [congruence|]. split; [congruence|].
  intros s. destruct (A3 s) as (-> & -> & ->) || destruct (B3 s) as (-> & -> & ->). apply A3.
Qed.

Lemma push_event_io e p : same_io p (push_event e p).
Proof. split; [done|split; [done|by intros []]]. Qed.
Lemma streams_io f p : same_io p (p <| streams ::= f |>).
Proof. split; [done|split; [done|by intros []]]. Qed.
Lemma finish_io id side p : same_io p (finish_stream id side p).
Proof.
  unfold finish_stream. destruct side; [apply push_event_io|].
  eapply same_io_trans; [apply push_event_io|apply streams_io].
Qed.
Lemma hpack_io side f p : same_io p (dir_mut side (fun d => d <| DirState.hpack ::= f |>) p).
Proof. destruct side; (split; [done|split; [done|by intros []]]). Qed.
Lemma partial_io side x p : same_io p (dir_mut side (fun d => d <| DirState.partial := x |>) p).
Proof. destruct side; (split; [done|split; [done|by intros []]]). Qed.
Lemma frame_size_io side n p : same_io p (dir_mut side (fun d => d <| DirState.max_frame_size := n |>) p).
Proof. destruct side; (split; [done|split; [done|by intros []]]). Qed.

Lemma complete_io side id block e p : same_io p (complete_block side id block e p).1.
Proof.
  unfold complete_block. destruct (HpackDecoder.decode _ _) as [[fs|err] table].
  2: { apply (hpack_io side (fun _ => table)). }
  set (p1 := dir_mut side _ p). assert (same_io p p1) as H1 by apply (hpack_io side (fun _ => table)).
  cbv zeta. case_if; [done|]. destruct (StreamState.mark_head _ _) as [st tr]. cbn [fst].
  eapply same_io_trans; [exact H1|]. eapply same_io_trans; [apply (streams_io (<[id:=st]>))|].
  eapply same_io_trans; [apply push_event_io|]. case_if; [apply finish_io|apply same_io_refl].
Qed.

Lemma handle_io side f p : same_io p (handle_frame side f p).1.
Proof.
  unfold handle_frame. case_if; [apply same_io_refl|]. destruct (Frame.kind f); try apply same_io_refl.
  - cbn [fst]. unfold handle_data. cbv zeta. eapply same_io_trans.
    2: { case_if; [apply finish_io|apply same_io_refl]. }
    case_if; [apply same_io_refl|apply push_event_io].
  - unfold begin_block. case_if; [apply same_io_refl|]. cbv zeta. case_if; [apply complete_io|apply partial_io].
  - unfold handle_rst. cbv zeta. case_if; [apply same_io_refl|].
    eapply same_io_trans; [apply (streams_io (delete (Frame.stream_id f)))|apply push_event_io].
  - unfold handle_settings. case_if; [apply same_io_refl|]. destruct (parse_settings _) as [s|]; [|apply same_io_refl].
    cbv zeta. cbn [fst]. eapply same_io_trans; [|case_if; [apply push_event_io|apply same_io_refl]].
    eapply same_io_trans; [|destruct (Settings.max_frame_size s); [apply frame_size_io|apply same_io_refl]].
    destruct (Settings.header_table_size s); [|apply same_io_refl]. apply hpack_io.
  - unfold begin_block. case_if; [apply same_io_refl|]. cbv zeta. case_if; [apply complete_io|apply partial_io].
  - unfold handle_goaway. cbv zeta. case_if; [apply same_io_refl|]. apply push_event_io.
  - unfold continue_block. destruct (DirState.partial _); [|apply same_io_refl]. cbv zeta.
    case_if; [apply same_io_refl|]. case_if; [apply partial_io|].
    eapply same_io_trans; [apply partial_io|apply complete_io].
Qed.

(** ** Reading a buffer *)

Definition buf_of (side : FlowSide) (p : t) : list Z := DirState.buf (dir side p).
Definition cut (side : FlowSide) (n : Z) : t -> t :=
  dir_mut side (fun d => d <| DirState.buf ::= zdrop n |>).
Definition frames_all (side : FlowSide) (p : t) : Outcome := frames (S (length (buf_of side p))) side p.

Lemma buf_cut side n p : buf_of side (cut side n p) = zdrop n (buf_of side p).
Proof. by destruct side. Qed.
Lemma buf_more side b p : buf_of side (more side b p) = buf_of side p ++ b.
Proof. by destruct side. Qed.
Lemma cut_more side n b p : n <= zlen (buf_of side p) -> cut side n (more side b p) = more side b (cut side n p).
Proof.
  intros H. unfold cut, more, buf_of in *. destruct side, p as [c [] [] st ev er]; cbn in *;
    unfold upd; cbn; by rewrite zdrop_app_le.
Qed.
Lemma handle_buf side f p : buf_of side (handle_frame side f p).1 = buf_of side p.
Proof. apply (handle_io side f p). Qed.

Definition one_frame (side : FlowSide) (k : t -> Outcome) (p : t) : Outcome :=
  let max := DirState.max_frame_size (dir side p) in
  match peek_frame_len (buf_of side p) max with
  | Err e => (p, Some e)
  | Ok None => (p, None)
  | Ok (Some total) =>
      match parse_frame (ztake total (buf_of side p)) max with
      | Err e => (cut side total p, Some e)
      | Ok None => (cut side total p, None)
      | Ok (Some (f, _)) => then_ (handle_frame side f (cut side total p)) k
      end
  end.

Lemma frames_S fuel side p : frames (S fuel) side p = one_frame side (frames fuel side) p.
Proof. reflexivity. Qed.

Lemma whole_range buf max total : Forall is_byte buf -> peek_frame_len buf max = Ok (Some total) ->
  9 <= total <= zlen buf.
Proof.
  intros Hb E. pose proof (peek_spec buf max) as H. rewrite E in H. inversion H; subst.
  pose proof (frame_length_nonneg buf Hb). lia.
Qed.

Lemma cut_bytes side n p : Forall is_byte (buf_of side p) -> Forall is_byte (buf_of side (cut side n p)).
Proof. intros H. rewrite buf_cut. by apply Forall_drop. Qed.

Lemma frames_fuel side n : forall m p, Forall is_byte (buf_of side p) ->
  (length (buf_of side p) < n)%nat -> (length (buf_of side p) < m)%nat ->
  frames n side p = frames m side p.
Proof.
  induction n as [|n IH]; intros m p Hb Hn Hm; [lia|]. destruct m as [|m]; [lia|].
  rewrite !frames_S. unfold one_frame. destruct (peek_frame_len _ _) as [[total|]|e] eqn:E; try done.
  apply whole_range in E; [|done]. destruct (parse_frame _ _) as [[[f u]|]|e]; try done.
  pose proof (handle_buf side f (cut side total p)) as Eb. pose proof (cut_bytes side total p Hb) as Hb'.
  destruct (handle_frame side f (cut side total p)) as [p' [e|]]; [done|]. cbn [then_ fst] in *.
  rewrite <- Eb in Hb'. apply IH; [done|rewrite Eb, buf_cut..]; unfold zdrop; rewrite length_drop; unfold zlen in E; lia.
Qed.

Lemma frames_all_eq side p : Forall is_byte (buf_of side p) ->
  frames_all side p = one_frame side (frames_all side) p.
Proof.
  intros Hb. unfold frames_all at 1. rewrite frames_S. unfold one_frame.
  destruct (peek_frame_len _ _) as [[total|]|e] eqn:E; try done.
  apply whole_range in E; [|done]. destruct (parse_frame _ _) as [[[f u]|]|e]; try done.
  pose proof (handle_buf side f (cut side total p)) as Eb. pose proof (cut_bytes side total p Hb) as Hb'.
  destruct (handle_frame side f (cut side total p)) as [p' [e|]]; [done|]. cbn [then_ fst] in *.
  rewrite <- Eb in Hb'. unfold frames_all. apply frames_fuel; [done|rewrite Eb, buf_cut..];
    unfold zdrop; rewrite ?length_drop; unfold zlen in E; lia.
Qed.

(** A frame that is whole parses, well or not. *)
Lemma parse_whole buf max total : Forall is_byte buf -> peek_frame_len buf max = Ok (Some total) ->
  parse_frame (ztake total buf) max <> Ok None.
Proof.
  intros Hb E. pose proof (whole_range _ _ _ Hb E) as Hr. pose proof (peek_spec buf max) as H. rewrite E in H.
  inversion H as [| | |H1 H2 H3 H4]. clear H. rewrite H4.
  assert (frame_length (ztake total buf) = frame_length buf) as El
    by (unfold frame_length; by rewrite !at_ztake by lia).
  assert (peek_frame_len (ztake total buf) max = Ok (Some total)) as Ep.
  { pose proof (peek_spec (ztake total buf) max) as H'. assert (zlen (ztake total buf) = total) as Ez by zlia.
    generalize dependent (ztake total buf). intros x El H' Ez.
    inversion H' as [Hs|Hs Hl|Hs Hl Hp|Hs Hl Hp HE]; [lia..|]. do 2 f_equal. lia. }
  unfold parse_frame. rewrite Ep. cbn [rbind].
  destruct (strip_padding _ _ _) as [x|]; [|done]. cbn [rbind]. destruct (strip_priority _ _ _) as [y|]; [|done]. cbn [rbind].
  by destruct (strip_promised _ _) as [[]|].
Qed.

(** A buffer read in two parts. *)
Lemma frames_more side b : forall n p, (length (buf_of side p) <= n)%nat ->
  Forall is_byte (buf_of side p) -> Forall is_byte b ->
  frames_all side (more side b p) =
    match frames_all side p with
    | (p', None) => frames_all side (more side b p')
    | (p', Some e) => (more side b p', Some e)
    end.
Proof.
  induction n as [|n IH]; intros p Hn Hb Hbb.
  - rewrite (frames_all_eq side p Hb). unfold one_frame.
    pose proof (peek_spec (buf_of side p) (DirState.max_frame_size (dir side p))) as H.
    assert (zlen (buf_of side p) = 0) as H0 by (unfold zlen; lia). inversion H; [done|lia..].
  - assert (DirState.max_frame_size (dir side (more side b p)) = DirState.max_frame_size (dir side p)) as Em by by destruct side.
    rewrite (frames_all_eq side p Hb). unfold one_frame.
    destruct (peek_frame_len (buf_of side p) _) as [[total|]|e] eqn:E; [|done|].
    + destruct (peek_app_whole _ b _ _ E) as [E' Hle]. pose proof (whole_range _ _ _ Hb E) as Hr.
      rewrite (frames_all_eq side (more side b p)) by (rewrite buf_more; by apply Forall_app). unfold one_frame.
      rewrite Em, buf_more, E', ztake_app_le, cut_more by lia.
      destruct (parse_frame _ _) as [[[f u]|]|e] eqn:Epf; [| |done].
      * rewrite handle_more. pose proof (handle_buf side f (cut side total p)) as Eb. pose proof (cut_bytes side total p Hb) as Hb'.
        destruct (handle_frame side f (cut side total p)) as [p' [e|]]; [done|]. cbn [then_ lift fst snd] in *.
        rewrite <- Eb in Hb'. apply IH; [|done|done]. rewrite Eb, buf_cut. unfold zdrop. rewrite length_drop. unfold zlen in Hr. lia.
      * exfalso. by apply (parse_whole _ _ _ Hb E) in Epf.
    + rewrite (frames_all_eq side (more side b p)) by (rewrite buf_more; by apply Forall_app). unfold one_frame.
      rewrite Em, buf_more. by rewrite (peek_app_err _ b _ _ E).
Qed.

(** ** Driving *)

(** Everything but what reading a buffer changes. *)
Definition same_but_buf (p p' : t) : Prop :=
  config p' = config p /\ error p' = error p /\
  forall s, DirState.done (dir s p') = DirState.done (dir s p) /\ DirState.preface (dir s p') = DirState.preface (dir s p).

Lemma io_but_buf p p' : same_io p p' -> same_but_buf p p'.
Proof. intros (H1 & H2 & H3). split; [done|]. split; [done|]. intros s. split; apply H3. Qed.
Lemma cut_but_buf side n p : same_but_buf p (cut side n p).
Proof. destruct side; (split; [done|split; [done|by intros []]]). Qed.
Lemma more_but_buf side b p : same_but_buf p (more side b p).
Proof. destruct side; (split; [done|split; [done|by intros []]]). Qed.
Lemma but_buf_trans p p' p'' : same_but_buf p p' -> same_but_buf p' p'' -> same_but_buf p p''.
Proof.
  intros (A1 & A2 & A3) (B1 & B2 & B3). split; [congruence|]. split; [congruence|].
  intros s. destruct (A3 s), (B3 s). split; congruence.
Qed.

Lemma frames_but_buf n side : forall p, same_but_buf p (frames n side p).1.
Proof.
  induction n as [|n IH]; intros p; [done|]. rewrite frames_S. unfold one_frame.
  destruct (peek_frame_len _ _) as [[total|]|e]; try done.
  destruct (parse_frame _ _) as [[[f u]|]|e]; [|apply cut_but_buf..].
  pose proof (io_but_buf _ _ (handle_io side f (cut side total p))) as H.
  destruct (handle_frame side f (cut side total p)) as [p' [e|]]; cbn [then_ fst] in *;
    (eapply but_buf_trans; [apply (cut_but_buf side total)|]); [done|].
  eapply but_buf_trans; [exact H|apply IH].
Qed.

Definition settled_preface (side : FlowSide) (p : t) : Prop :=
  side = Initiator -> DirState.preface (request p) = Preface.Seen.

Lemma open_settled side p : settled_preface side p -> open_preface side p = Ok (Some p).
Proof. intros H. unfold open_preface. destruct side; [|done]. by rewrite (H eq_refl). Qed.

Lemma settled_but_buf side p p' : same_but_buf p p' -> settled_preface side p -> settled_preface side p'.
Proof. intros (_ & _ & H) Hs E. destruct (H Initiator) as [_ Hp]. cbn in Hp. rewrite Hp. by apply Hs. Qed.

Lemma prefix_more n (x b y : list Z) : zlen x <= zlen y -> n = Z.min (zlen x) (zlen y) ->
  ztake n x <> ztake n y -> forall m, n <= m -> ztake m (x ++ b) <> ztake m y.
Proof.
  intros Hl -> Hne m Hm E. apply Hne. rewrite Z.min_l in * by lia.
  apply (f_equal (ztake (zlen x))) in E. unfold ztake in *. rewrite !take_take in E.
  rewrite !Nat.min_l in E by (unfold zlen in *; lia). rewrite take_app_le in E by (unfold zlen; lia). done.
Qed.

Lemma open_more side b p :
  match open_preface side p with
  | Ok None => True
  | Ok (Some p') => open_preface side (more side b p) = Ok (Some (more side b p')) /\ settled_preface side p' /\
      config p' = config p /\ error p' = error p /\ zlen (buf_of side p') <= zlen (buf_of side p) /\
      (Forall is_byte (buf_of side p) -> Forall is_byte (buf_of side p')) /\
      (forall s, DirState.done (dir s p') = DirState.done (dir s p)) /\ (buf_of (opposite side) p' = buf_of (opposite side) p)
  | Err e => open_preface side (more side b p) = Err e
  end.
Proof.
  unfold open_preface, settled_preface. destruct side; [|by split_and!].
  change (request (more Initiator b p)) with ((request p) <| DirState.buf ::= fun x => x ++ b |>).
  change (DirState.preface ((request p) <| DirState.buf ::= fun x => x ++ b |>)) with (DirState.preface (request p)).
  change (DirState.buf ((request p) <| DirState.buf ::= fun x => x ++ b |>)) with (DirState.buf (request p) ++ b).
  change (buf_of Initiator p) with (DirState.buf (request p)).
  assert (zlen PREFACE = 24) as E24 by reflexivity. rewrite E24. set (buf := DirState.buf (request p)).
  pose proof (zlen_nonneg buf). pose proof (zlen_nonneg b).
  assert (zlen (buf ++ b) = zlen buf + zlen b) as Eapp by apply zlen_app.
  destruct (DirState.preface (request p)) eqn:Epre; [| |by split_and!].
  all: case_bool_decide as Heq; [case_if; [done|]|].
  - assert (Z.min (zlen (buf ++ b)) 24 = 24) as -> by lia. rewrite Z.min_r in Heq by lia.
    rewrite ztake_app_le by lia. rewrite bool_decide_eq_true_2 by done. rewrite (proj2 (Z.ltb_ge _ 24)) by lia.
    split_and!; try done.
    + do 2 f_equal. destruct p as [c [] [] st ev er]. unfold more, dir_mut, upd. cbn in *. by rewrite zdrop_app_le by (unfold buf in *; lia).
    + change (zlen (zdrop 24 buf) <= zlen buf). zlia.
    + intros Hb. by apply Forall_drop.
    + by intros [].
  - rewrite (bool_decide_eq_false_2 (ztake _ (buf ++ b) = _)); [done|].
    destruct (Z.le_gt_cases (zlen buf) 24).
    + eapply prefix_more; [rewrite E24; lia|by rewrite E24|done|lia].
    + rewrite Z.min_r in * by lia. by rewrite ztake_app_le by lia.
  - assert (Z.min (zlen (buf ++ b)) 24 = 24) as -> by lia. rewrite Z.min_r in Heq by lia.
    rewrite ztake_app_le by lia. rewrite bool_decide_eq_true_2 by done. rewrite (proj2 (Z.ltb_ge _ 24)) by lia.
    split_and!; try done.
    + do 2 f_equal. destruct p as [c [] [] st ev er]. unfold more, dir_mut, upd. cbn in *. by rewrite zdrop_app_le by (unfold buf in *; lia).
    + change (zlen (zdrop 24 buf) <= zlen buf). zlia.
    + intros Hb. by apply Forall_drop.
    + by intros [].
  - rewrite (bool_decide_eq_false_2 (ztake _ (buf ++ b) = _)).
    2: { destruct (Z.le_gt_cases (zlen buf) 24).
      + eapply prefix_more; [rewrite E24; lia|by rewrite E24|done|lia].
      + rewrite Z.min_r in * by lia. by rewrite ztake_app_le by lia. }
    cbn [bool_decide]. split_and!; try done; by intros [].
Qed.

Lemma drive_more side b p : Forall is_byte (buf_of side p) -> Forall is_byte b ->
  drive_inner side (more side b p) =
    match drive_inner side p with
    | (p', None) => drive_inner side (more side b p')
    | (p', Some e) => (more side b p', Some e)
    end.
Proof.
  intros Hb Hbb. unfold drive_inner at 1 2. pose proof (open_more side b p) as Ho.
  destruct (open_preface side p) as [[p'|]|e]; [| |by rewrite Ho].
  - destruct Ho as (-> & Hs & _ & _ & _ & Hbytes & _). specialize (Hbytes Hb).
    change (frames_all side (more side b p') =
      match frames_all side p' with
      | (q, None) => drive_inner side (more side b q)
      | (q, Some e) => (more side b q, Some e)
      end).
    rewrite (frames_more side b _ p' (le_n _) Hbytes Hbb).
    pose proof (frames_but_buf (S (length (buf_of side p'))) side p') as Hf. fold (frames_all side p') in Hf.
    destruct (frames_all side p') as [p'' [e|]]; [done|].
    unfold drive_inner. rewrite open_settled; [done|].
    eapply settled_but_buf; [apply more_but_buf|]. by eapply settled_but_buf.
  - done.
Qed.

(** ** The invariant *)

Section invariant.
Context (c : Http2Config.t).

Record dir_ok (d : DirState.t) : Prop := {
  d_table : table_ok (DirState.hpack d);
  d_hard : DynamicTable.hard_max_size (DirState.hpack d) = Http2Config.max_hpack_table_bytes c;
  d_frame : DirState.max_frame_size d <= Http2Config.effective_max_frame_size c;
  d_partial : forall pb, DirState.partial d = Some pb ->
    zlen (PartialBlock.bytes pb) <= Http2Config.max_header_block_bytes c }.

(** Within the caps, whether or not parsing goes on. *)
Record good (p : t) : Prop := {
  g_config : config p = c;
  g_dirs : forall s, dir_ok (dir s p);
  g_bytes : forall s, Forall is_byte (buf_of s p);
  g_streams : Z.of_nat (size (streams p)) <= Http2Config.max_concurrent_streams c }.

Lemma good_dir_mut side g p : good p -> (forall d, dir_ok d -> dir_ok (g d)) ->
  (Forall is_byte (buf_of side p) -> Forall is_byte (DirState.buf (g (dir side p)))) -> good (dir_mut side g p).
Proof.
  intros [H1 H2 H3 H4] Hg Hb. pose proof (H2 side) as Hs. pose proof (Hg _ Hs). specialize (Hb (H3 side)).
  split; [by destruct side|..|by destruct side].
  - intros s. pose proof (H2 s). by destruct side, s.
  - intros s. pose proof (H3 s). by destruct side, s.
Qed.

Lemma good_event e p : good p -> good (push_event e p).
Proof. intros [H1 H2 H3 H4]. split; [done|intros s; apply (H2 s)|intros s; apply (H3 s)|done]. Qed.

Lemma delete_size {A} i (m : gmap Z A) : (size (delete i m) <= size m)%nat.
Proof. destruct (m !! i) as [x|] eqn:E; [|by rewrite delete_id]. rewrite map_size_delete, E. lia. Qed.

Lemma good_delete id p : good p -> good (p <| streams ::= delete id |>).
Proof.
  intros [H1 H2 H3 H4]. split; [done|intros s; apply (H2 s)|intros s; apply (H3 s)|]. cbn. pose proof (delete_size id (streams p)). lia.
Qed.

Lemma good_finish id side p : good p -> good (finish_stream id side p).
Proof. intros H. unfold finish_stream. destruct side; [by apply good_event|]. by apply good_delete, good_event. Qed.

Lemma good_hpack side table p : good p -> table_ok table ->
  DynamicTable.hard_max_size table = Http2Config.max_hpack_table_bytes c ->
  good (dir_mut side (fun d => d <| DirState.hpack := table |>) p).
Proof. intros H Ht Hh. apply good_dir_mut; [done| |done]. intros d [D1 D2 D3 D4]. by split. Qed.

Lemma good_complete side id block e p : good p -> good (complete_block side id block e p).1.
Proof.
  intros H. unfold complete_block. pose proof (g_dirs _ H side) as [D1 D2 D3 D4].
  pose proof (decode_ok _ block D1) as Hd. destruct (HpackDecoder.decode _ _) as [[fs|err] table].
  2: { destruct Hd as (T1 & T2 & _). apply good_hpack; [done|done|congruence]. }
  destruct Hd as (T1 & T2 & _). cbv zeta.
  assert (good (dir_mut side (fun d => d <| DirState.hpack := table |>) p)) as H1 by (apply good_hpack; [done|done|congruence]).
  set (p1 := dir_mut side _ p) in *. pose proof (g_config _ H1) as Ec. rewrite Ec.
  destruct (negb _ && _) eqn:Efull; [done|]. destruct (StreamState.mark_head _ _) as [stt tr]. cbn [fst].
  assert (good (p1 <| streams ::= <[id := stt]> |>)) as H2.
  { pose proof H1 as [G1 G2 G3 G4]. split; [done|by intros s; apply (G2 s)|by intros s; apply (G3 s)|].
    change (Z.of_nat (size (<[id := stt]> (streams p1))) <= Http2Config.max_concurrent_streams c).
    destruct (streams p1 !! id) as [x|] eqn:E.
    - rewrite map_size_insert, E. cbn. lia.
    - rewrite map_size_insert, E. cbn [is_some negb andb] in Efull. zb. lia. }
  case_if; [apply good_finish|]; by apply good_event.
Qed.

Lemma good_partial side x p : good p ->
  (forall pb, x = Some pb -> zlen (PartialBlock.bytes pb) <= Http2Config.max_header_block_bytes c) ->
  good (dir_mut side (fun d => d <| DirState.partial := x |>) p).
Proof. intros H Hx. apply good_dir_mut; [done| |done]. intros d [D1 D2 D3 D4]. by split. Qed.

Lemma be32_nonneg l : Forall is_byte l -> forall i j k m, 0 <= be32 (at_ l i) (at_ l j) (at_ l k) (at_ l m).
Proof.
  intros H. assert (forall i, 0 <= at_ l i) as Ha.
  { intros i. unfold at_. rewrite nth_lookup. destruct (l !! i) eqn:E; [|cbn; lia].
    apply (Forall_lookup_1 _ _ _ _ H) in E. unfold is_byte in E. cbn. lia. }
  intros. unfold be32. rewrite !Z.lor_nonneg, !Z.shiftl_nonneg. auto.
Qed.

Definition setting_ok (o : option Z) : Prop := forall n, o = Some n -> 0 <= n.

Lemma settings_ok payload : forall s, Forall is_byte payload -> setting_ok (Settings.header_table_size s) ->
  setting_ok (Settings.header_table_size (settings_entries s payload)).
Proof.
  induction payload as [payload IH] using (well_founded_induction (Wf_nat.well_founded_ltof _ (@length Z))).
  intros s Hb Hs. destruct payload as [|a [|b [|d [|e [|f [|g payload]]]]]]; try done. cbn [settings_entries].
  apply IH; [unfold Wf_nat.ltof; cbn; lia|by apply (Forall_drop _ 6) in Hb|].
  pose proof (be32_nonneg [a; b; d; e; f; g]) as Hn. assert (Forall is_byte [a; b; d; e; f; g]) as H6 by (by apply (Forall_take _ 6) in Hb).
  specialize (Hn H6 2%nat 3%nat 4%nat 5%nat). unfold at_ in Hn. cbn [nth] in Hn.
  generalize dependent (be32 d e f g). intros v Hv. unfold Settings.apply.
  repeat case_match; try done. by intros n [= <-].
Qed.

Lemma good_settings side f p : good p -> Forall is_byte (Frame.payload f) -> 0 <= Http2Config.max_hpack_table_bytes c ->
  good (handle_settings side f p).1.
Proof.
  intros H Hb Hc. unfold handle_settings. case_if; [done|]. unfold parse_settings. case_if; [|done].
  pose proof (settings_ok (Frame.payload f) Settings.default Hb ltac:(done)) as Hn.
  set (s := settings_entries _ _) in *. cbv zeta. cbn [fst]. rewrite (g_config _ H).
  set (p1 := match Settings.header_table_size s with Some n => _ | None => p end).
  assert (good p1) as H1.
  { unfold p1. destruct (Settings.header_table_size s) as [n|]; [|done]. specialize (Hn n eq_refl).
    apply good_dir_mut; [done| |done]. intros d [D1 D2 D3 D4].
    destruct (set_max_size_frame (Z.min n (Http2Config.max_hpack_table_bytes c)) (DirState.hpack d)) as (_ & _ & E); [lia|done|].
    split; [apply set_max_size_ok; [lia|done]|exact (eq_trans E D2)|done|done]. }
  set (p2 := match Settings.max_frame_size s with Some n => _ | None => p1 end).
  assert (good p2) as H2.
  { unfold p2. destruct (Settings.max_frame_size s) as [n|]; [|done]. rewrite (g_config _ H1).
    apply good_dir_mut; [done| |done]. intros d [D1 D2 D3 D4]. split; try done. cbn. lia. }
  case_if; [by apply good_event|done].
Qed.

Lemma good_handle side f p : good p -> Forall is_byte (Frame.payload f) -> 0 <= Http2Config.max_hpack_table_bytes c ->
  good (handle_frame side f p).1.
Proof.
  intros H Hb Hc. unfold handle_frame. case_if; [done|].
  assert (good (begin_block side f p).1) as Hbegin.
  { unfold begin_block. rewrite (g_config _ H). case_if; [done|]. cbv zeta. case_if; [by apply good_complete|].
    cbn [fst]. apply good_partial; [done|]. intros pb [= <-]. done. }
  destruct (Frame.kind f); try done.
  - cbn [fst]. unfold handle_data. cbv zeta. set (p1 := if is_nil _ then p else _).
    assert (good p1) by (unfold p1; case_if; [done|by apply good_event]). case_if; [by apply good_finish|done].
  - unfold handle_rst. cbv zeta. case_if; [done|]. by apply good_event, good_delete.
  - by apply good_settings.
  - unfold handle_goaway. cbv zeta. case_if; [done|]. by apply good_event.
  - unfold continue_block. destruct (DirState.partial _) as [pb|] eqn:Epb; [|done]. rewrite (g_config _ H). cbv zeta.
    case_if; [done|]. case_if.
    + cbn [fst]. apply good_partial; [done|]. intros pb' [= <-]. cbn. rewrite zlen_app. lia.
    + apply good_complete, good_partial; [done|]. done.
Qed.

Lemma parse_bytes buf max f u : Forall is_byte buf -> parse_frame buf max = Ok (Some (f, u)) ->
  Forall is_byte (Frame.payload f).
Proof.
  intros Hb. unfold parse_frame. intros (total & _ & H)%rbind_Ok. destruct total as [total|]; [|done].
  apply rbind_Ok in H as (x & Hx & H). apply rbind_Ok in H as (y & Hy & H). apply rbind_Ok in H as ([pr z] & Hz & [= <- <-]).
  cbn. assert (Forall is_byte (zslice FRAME_HEADER_LEN total buf)) as H0 by by apply Forall_take, Forall_drop.
  assert (Forall is_byte x) as H1.
  { unfold strip_padding in Hx. revert Hx. case_if; [|by intros [= <-]]. destruct (zslice _ _ _) as [|a l]; [done|].
    case_if; [done|]. intros [= <-]. by apply Forall_take, Forall_drop. }
  assert (Forall is_byte y) as H2.
  { unfold strip_priority in Hy. revert Hy. case_if; [|by intros [= <-]]. case_if; [done|]. intros [= <-]. by apply Forall_drop. }
  unfold strip_promised in Hz. revert Hz. case_if; [|by intros [= <- <-]]. case_if; [done|]. intros [= <- <-]. by apply Forall_drop.
Qed.

Context (Hcap : 0 <= Http2Config.max_hpack_table_bytes c).

Lemma good_cut side n p : good p -> good (cut side n p).
Proof.
  intros H. apply good_dir_mut; [done| |intros Hb; by apply Forall_drop]. intros d [D1 D2 D3 D4]. by split.
Qed.

Lemma good_frames side n : forall p, good p -> good (frames n side p).1.
Proof.
  induction n as [|n IH]; intros p H; [done|]. rewrite frames_S. unfold one_frame.
  destruct (peek_frame_len _ _) as [[total|]|e]; try done.
  destruct (parse_frame _ _) as [[[f u]|]|e] eqn:E; [|by apply good_cut..].
  assert (Forall is_byte (Frame.payload f)) as Hb.
  { eapply parse_bytes; [|exact E]. by apply Forall_take, (g_bytes _ H). }
  pose proof (good_handle side f _ (good_cut side total p H) Hb Hcap) as H1.
  destruct (handle_frame side f (cut side total p)) as [p' [e|]]; cbn [then_ fst] in *; [done|by apply IH].
Qed.

Lemma frames_len side n : forall p s, zlen (buf_of s (frames n side p).1) <= zlen (buf_of s p).
Proof.
  induction n as [|n IH]; intros p s; [done|]. rewrite frames_S. unfold one_frame.
  destruct (peek_frame_len _ _) as [[total|]|e]; try done.
  assert (zlen (buf_of s (cut side total p)) <= zlen (buf_of s p)) as Hcut.
  { unfold buf_of, cut. destruct side, s; cbn; zlia. }
  destruct (parse_frame _ _) as [[[f u]|]|e]; try done.
  destruct (handle_io side f (cut side total p)) as (_ & _ & Hio). destruct (Hio s) as (Hb & _).
  destruct (handle_frame side f (cut side total p)) as [p' [e|]]; cbn [then_ fst] in *.
  - unfold buf_of in *. by rewrite Hb.
  - etrans; [apply IH|]. unfold buf_of in *. by rewrite Hb.
Qed.

(** What is left over is less than a frame. *)
Lemma frames_rest side n : forall p p', good p -> (length (buf_of side p) < n)%nat ->
  frames n side p = (p', None) ->
  zlen (buf_of side p') < 9 + Z.max 0 (Http2Config.effective_max_frame_size c).
Proof.
  induction n as [|n IH]; intros p p' H Hn; [lia|]. rewrite frames_S. unfold one_frame.
  pose proof (peek_spec (buf_of side p) (DirState.max_frame_size (dir side p))) as Hp.
  pose proof (d_frame _ (g_dirs _ H side)).
  destruct (peek_frame_len (buf_of side p) _) as [[total|]|e] eqn:E; [| |done].
  - pose proof (whole_range _ _ _ (g_bytes _ H side) E) as Hr.
    destruct (parse_frame _ _) as [[[f u]|]|e] eqn:Ef; [| |done].
    + assert (Forall is_byte (Frame.payload f)) as Hb.
      { eapply parse_bytes; [|exact Ef]. by apply Forall_take, (g_bytes _ H). }
      pose proof (good_handle side f _ (good_cut side total p H) Hb Hcap) as H1.
      pose proof (handle_buf side f (cut side total p)) as Eb.
      destruct (handle_frame side f (cut side total p)) as [p1 [e|]]; cbn [then_ fst] in *; [done|].
      apply IH; [done|]. rewrite Eb, buf_cut. unfold zdrop. rewrite length_drop. unfold zlen in Hr. lia.
    + by apply (parse_whole _ _ _ (g_bytes _ H side)) in E.
  - intros [= <-]. inversion Hp; lia.
Qed.

(** *** Calls *)

Lemma good_open side p p' : good p -> open_preface side p = Ok (Some p') -> good p'.
Proof.
  intros H E. pose proof (open_more side [] p) as Ho. rewrite E in Ho. unfold open_preface in E.
  assert (forall d, dir_ok d -> dir_ok (d <| DirState.preface := Preface.Seen |>)) as Hs by (intros d [D1 D2 D3 D4]; by split).
  destruct side; [|congruence]. destruct (DirState.preface (request p)); [| |congruence];
    (revert E; case_bool_decide; [case_if; [done|]; intros [= <-]|case_bool_decide; [done|]; intros [= <-]]).
  all: try (apply (good_dir_mut Initiator); [done|done|done]).
  all: apply (good_dir_mut Initiator); [|done|done];
    apply (good_dir_mut Initiator (fun d => d <| DirState.buf ::= zdrop (zlen PREFACE) |>)); [done|by intros d [D1 D2 D3 D4]|];
    intros Hb; by apply Forall_drop.
Qed.

Lemma good_drive side p : good p -> good (drive_inner side p).1.
Proof.
  intros H. unfold drive_inner. destruct (open_preface side p) as [[p'|]|e] eqn:E; try done.
  apply good_frames. by eapply good_open.
Qed.

Lemma good_fail e p : good p -> good (fail e p).
Proof.
  intros [H1 H2 H3 H4]. assert (forall d, dir_ok d -> dir_ok (d <| DirState.done := true |>)) as Hd
    by (intros d [D1 D2 D3 D4]; by split).
  assert (forall d, dir_ok d -> dir_ok (d <| DirState.buf := [] |>)) as Hb by (intros d [D1 D2 D3 D4]; by split).
  split; [done| | |cbn; rewrite map_size_empty; lia].
  - intros s. destruct s; [exact (Hb _ (Hd _ (H2 Initiator)))|exact (Hb _ (Hd _ (H2 Responder)))].
  - intros s. by destruct s; apply Forall_nil.
Qed.

(** Between calls: what is buffered is less than a frame and less than
    the cap; a failed parser holds nothing. *)
Record steady (p : t) : Prop := {
  s_good : good p;
  s_fits : forall s, zlen (buf_of s p) <= Z.max 0 (Http2Config.max_buffered_bytes c);
  s_live : error p = None -> forall s, DirState.done (dir s p) = false ->
    zlen (buf_of s p) < Z.max 24 (9 + Http2Config.effective_max_frame_size c);
  s_failed : error p <> None -> (forall s, DirState.done (dir s p) = true /\ buf_of s p = []) /\ streams p = ∅ }.

Lemma fail_state e p : error (fail e p) = get_or_insert e (error p) /\
  (forall s, DirState.done (dir s (fail e p)) = true /\ buf_of s (fail e p) = []) /\ streams (fail e p) = ∅.
Proof. split; [done|]. split; [by intros []|done]. Qed.

Lemma steady_fail e p : good p -> steady (fail e p).
Proof.
  intros H. destruct (fail_state e p) as (E1 & E2 & E3). split; [by apply good_fail| | |done].
  - intros s. destruct (E2 s) as [_ ->]. change (zlen (@nil Z)) with 0. lia.
  - intros En. rewrite E1 in En. by destruct (error p).
Qed.

Lemma steady_with_config : 0 <= Http2Config.max_concurrent_streams c -> steady (with_config c).
Proof.
  intros Hs. assert (forall pr, dir_ok (DirState.new c pr)) as Hd by (intros pr; split; [by apply new_ok|done|cbn; lia|done]).
  split; [split| | |done].
  - done.
  - intros []; apply Hd.
  - intros []; by apply Forall_nil.
  - cbn. rewrite map_size_empty. lia.
  - intros []; change (zlen (@nil Z)) with 0; cbn; unfold zlen; cbn; lia.
  - intros _ []; cbn; unfold zlen; cbn; lia.
Qed.

Lemma drive_rest side p p' : good p -> drive_inner side p = (p', None) ->
  error p' = error p /\ (forall s, DirState.done (dir s p') = DirState.done (dir s p)) /\
  (forall s, zlen (buf_of s p') <= zlen (buf_of s p)) /\
  zlen (buf_of side p') < Z.max 24 (9 + Http2Config.effective_max_frame_size c).
Proof.
  intros H. unfold drive_inner. pose proof (open_more side [] p) as Ho.
  destruct (open_preface side p) as [[p1|]|e] eqn:E; [| |done].
  - destruct Ho as (_ & _ & _ & He & Hl & _ & Hd & Hopp). intros Hf. pose proof (good_open side p p1 H E) as H1.
    pose proof (frames_rest side _ p1 p' H1 (le_n _) Hf) as Hr.
    pose proof (frames_but_buf (S (length (buf_of side p1))) side p1) as (_ & F2 & F3).
    pose proof (frames_len side (S (length (buf_of side p1))) p1) as F4.
    change (frames (S (length (buf_of side p1))) side p1 = (p', None)) in Hf. rewrite Hf in F2, F3, F4. cbn [fst] in *.
    split; [congruence|]. split; [|split; [|lia]].
    + intros s. destruct (F3 s) as [-> _]. apply Hd.
    + intros s. etrans; [apply F4|]. destruct side, s; cbn in Hopp; try done; by rewrite Hopp.
  - intros [= <-]. split_and!; try done. unfold open_preface in E. destruct side; [|done].
    destruct (DirState.preface (request p)); [| |done];
      (revert E; case_bool_decide; [case_if; [|done]|case_bool_decide; done]);
      intros _; change (zlen PREFACE) with 24 in *; unfold buf_of; cbn; lia.
Qed.

Lemma good_more side b p : good p -> Forall is_byte b -> good (more side b p).
Proof.
  intros H Hb. apply good_dir_mut; [done|by intros d [D1 D2 D3 D4]|].
  intros Hs. cbn. by apply Forall_app.
Qed.

Lemma len_more side b s p :
  zlen (buf_of s (more side b p)) = zlen (buf_of s p) + (if decide (s = side) then zlen b else 0).
Proof. unfold buf_of, more. case_decide; destruct side, s; try done; cbn; zlia. Qed.

Lemma steady_push side data p : steady p -> Forall is_byte data -> steady (push side data p).1.
Proof.
  intros [G F L E] Hb. unfold push.
  destruct (is_some (error p) || DirState.done (dir side p)) eqn:Hst; [by split|].
  apply orb_false_iff in Hst as [Her Hdn]. cbv zeta. rewrite (g_config _ G).
  assert (error p = None) as En by by destruct (error p). specialize (L En).
  case_if; [cbn [fst]; by apply steady_fail|].
  set (take := Z.min _ (zlen data)). case_if; [|by split]. cbn [fst].
  fold (more side (ztake take data) p). pose proof (good_more side (ztake take data) p G ltac:(by apply Forall_take)) as G1.
  pose proof (more_but_buf side (ztake take data) p) as (M1 & M2 & M3).
  pose proof (len_more side (ztake take data)) as Hlen.
  assert (zlen (ztake take data) = take) as Et by (unfold take in *; zlia).
  unfold drive. pose proof (good_drive side _ G1) as G2.
  destruct (drive_inner side (more side (ztake take data) p)) as [p' [e|]] eqn:Ed; cbn [fst] in G2; [by apply steady_fail|].
  destruct (drive_rest side _ p' G1 Ed) as (R1 & R2 & R3 & R4). split; [done| | |].
  - intros s. pose proof (R3 s) as Hs. rewrite Hlen in Hs. specialize (F s). case_decide; [|lia]. subst s.
    unfold take, sat_sub, buf_of in *. lia.
  - intros _ s Hds. destruct (decide (s = side)) as [->|Hne]; [done|].
    pose proof (R3 s) as Hs. rewrite Hlen, decide_False in Hs by done.
    assert (DirState.done (dir s p) = false) as Hd0 by (rewrite <- Hds, R2; symmetry; apply M3). specialize (L s Hd0). lia.
  - intros Hx. rewrite R1, M2 in Hx. congruence.
Qed.

Lemma steady_next p : steady p -> steady (next_event p).1.
Proof.
  intros [[G1 G2 G3 G4] F L E]. unfold next_event. destruct (events p); [by split|]. cbn [fst].
  split; [split| | |]; try done; try (intros s; apply (G2 s)); try (intros s; apply (G3 s));
    try (intros s; apply (F s)); try exact L; exact E.
Qed.

Lemma steady_fin side p : steady p -> steady (fin side p).
Proof.
  intros [G F L E]. split.
  - apply good_dir_mut; [done| |intros _; apply Forall_nil; done]. intros d [D1 D2 D3 D4]. by split.
  - intros s. specialize (F s). destruct (decide (s = side)) as [->|Hne].
    + assert (buf_of side (fin side p) = []) as -> by by destruct side. change (zlen (@nil Z)) with 0. lia.
    + assert (buf_of s (fin side p) = buf_of s p) as -> by (destruct s, side; done). done.
  - assert (error (fin side p) = error p) as -> by by destruct side. intros En s Hd. destruct (decide (s = side)) as [->|Hne].
    + by destruct side.
    + assert (buf_of s (fin side p) = buf_of s p /\ DirState.done (dir s (fin side p)) = DirState.done (dir s p)) as [-> Hd']
        by (destruct s, side; done). apply L; [done|congruence].
  - assert (error (fin side p) = error p /\ streams (fin side p) = streams p) as [-> ->] by by destruct side.
    intros Hx. destruct (E Hx) as [Es ->]. split; [|done]. intros s. destruct (decide (s = side)) as [->|Hne]; [by destruct side|].
    specialize (Es s). destruct s, side; done.
Qed.
End invariant.

(** ** Sessions *)

Inductive Call := Push (side : FlowSide) (data : list Z) | NextEvent | FinCall (side : FlowSide).
Definition call_ok (e : Call) : Prop := match e with Push _ data => Forall is_byte data | _ => True end.

(** The state after a call, the bytes it accepted and the event it
    handed out. *)
Definition do_call (p : t) (e : Call) : t * (Z * option Http2Event) :=
  match e with
  | Push side data => let '(p, n) := push side data p in (p, (n, None))
  | NextEvent => let '(p, ev) := next_event p in (p, (0, ev))
  | FinCall side => (fin side p, (0, None))
  end.
Fixpoint calls (p : t) (es : list Call) : t * list (Z * option Http2Event) :=
  match es with
  | [] => (p, [])
  | e :: es => let '(p, out) := do_call p e in let '(p, outs) := calls p es in (p, out :: outs)
  end.

Lemma calls_cons p e es : calls p (e :: es) =
  ((calls (do_call p e).1 es).1, (do_call p e).2 :: (calls (do_call p e).1 es).2).
Proof. cbn [calls]. destruct (do_call p e) as [p1 out]. cbn. by destruct (calls p1 es). Qed.

Lemma steady_calls c es : 0 <= Http2Config.max_hpack_table_bytes c -> forall p, steady c p -> Forall call_ok es ->
  steady c (calls p es).1.
Proof.
  intros Hc. induction es as [|e es IH]; intros p Hp He; [done|]. inversion He as [|? ? H1 H2]; subst.
  rewrite calls_cons. cbn [fst]. apply IH; [|done]. destruct e as [side data| |side]; cbn [do_call].
  - pose proof (steady_push c Hc side data p Hp H1) as H. by destruct (push side data p).
  - pose proof (steady_next c p Hp) as H. by destruct (next_event p).
  - by apply steady_fin.
Qed.
