(* ===== verification/Http2Props.v ===== *)
(** * What the HTTP/2 parser promises

    Bounds on everything a peer can make it hold, finality of a failure,
    progress, independence from how the bytes are cut into segments, and
    the round trip from an encoded header list to the event reported. *)

From stdpp Require Import gmap.
From S2P Require Import Prelude Flow Http2Error Huffman Hpack HpackEncode Http2Frame Http2Stream Http2StreamFacts.
Import Http2Parser HpackFacts HpackEncodeFacts FrameFacts.

Definition config_ok (c : Http2Config.t) : Prop :=
  0 <= Http2Config.max_hpack_table_bytes c /\ 0 <= Http2Config.max_concurrent_streams c /\
  0 <= Http2Config.max_buffered_bytes c.

Lemma steady_session c es : config_ok c -> Forall call_ok es -> steady c (calls (with_config c) es).1.
Proof. intros (H1 & H2 & _) He. apply steady_calls; [done| |done]. by apply steady_with_config. Qed.

(** Whatever a peer sends, in whatever pieces, the parser stays
    within its caps: buffered bytes, the field block being assembled, the
    HPACK tables, the tracked streams and the accepted frame size. *)
Theorem http2_parser_bounded c es : config_ok c -> Forall call_ok es ->
  let p := (calls (with_config c) es).1 in
  tracked_streams p <= Http2Config.max_concurrent_streams c /\
  forall side,
    buffered side p <= Http2Config.max_buffered_bytes c /\
    max_frame_size side p <= Http2Config.effective_max_frame_size c /\
    DynamicTable.size (DirState.hpack (dir side p)) <= Http2Config.max_hpack_table_bytes c /\
    forall pb, DirState.partial (dir side p) = Some pb ->
      zlen (PartialBlock.bytes pb) <= Http2Config.max_header_block_bytes c.
Proof.
  intros Hc He. pose proof (steady_session c es Hc He) as Hs. cbv zeta. set (p := (calls (with_config c) es).1) in *.
  clearbody p. destruct Hs as [[G1 G2 G3 G4] F _ _], Hc as (_ & _ & Hb). split; [exact G4|]. intros side.
  destruct (G2 side) as [D1 D2 D3 D4]. specialize (F side). unfold buffered, buf_of in *.
  split; [lia|]. split; [done|]. split; [|done]. destruct D1. lia.
Qed.

(** A connection cut short by an oversized frame. *)
Definition small : Http2Config.t :=
  Http2Config.with_require_preface false (Http2Config.with_max_buffered_bytes 64 Http2Config.default).
Definition demo_calls : list Call :=
  [Push Initiator [0; 0; 1; 1; 5; 0; 0; 0; 1; 0x82]; NextEvent; Push Initiator [0; 1; 0; 0; 0; 0; 0; 0; 1];
   Push Initiator [1; 2; 3]].

Lemma demo_ok : Forall call_ok demo_calls.
Proof. repeat (apply Forall_cons; split; [cbn [call_ok]; try exact I; apply HpackProps.bytes_ok; reflexivity|]). by apply Forall_nil. Qed.
Lemma small_ok : config_ok small.
Proof. split_and!; vm_compute; discriminate. Qed.

Lemma http2_parser_bounded_witness :
  tracked_streams (calls (with_config small) (firstn 1 demo_calls)).1 = 1 /\
  tracked_streams (calls (with_config small) demo_calls).1 <= 256.
Proof.
  split; [vm_compute; reflexivity|].
  exact (proj1 (http2_parser_bounded small demo_calls small_ok demo_ok)).
Defined.

(** A failure is final: the first error is kept, nothing more is
    accepted, the events already queued are handed out and no other. *)
Theorem http2_failure_final p e es' : error p = Some e ->
  let '(p', outs) := calls p es' in
  error p' = Some e /\ Forall (fun o : Z * option Http2Event => o.1 = 0) outs /\
  omap snd outs ++ events p' = events p.
Proof.
  revert p. induction es' as [|x es' IH]; intros p Hp; [done|].
  rewrite calls_cons. assert (error (do_call p x).1 = Some e /\ (do_call p x).2.1 = 0 /\
    omap snd [(do_call p x).2] ++ events (do_call p x).1 = events p) as (E1 & E2 & E3).
  { destruct x as [side data| |side]; cbn [do_call].
    - unfold push. rewrite Hp. done.
    - unfold next_event. destruct (events p) as [|ev evs] eqn:Ev; [cbn; by rewrite Ev|done].
    - by destruct side. }
  specialize (IH _ E1). destruct (calls (do_call p x).1 es') as [p' outs]. destruct IH as (I1 & I2 & I3).
  cbn [fst snd]. split; [done|]. split; [by constructor|].
  change ((do_call p x).2 :: outs) with ([(do_call p x).2] ++ outs). rewrite omap_app, <- app_assoc, I3. done.
Qed.

Lemma http2_failure_final_witness :
  error (calls (with_config small) demo_calls).1 = Some Http2Error.FrameTooLarge /\
  error (calls (calls (with_config small) demo_calls).1 [Push Responder [1]; NextEvent]).1 = Some Http2Error.FrameTooLarge.
Proof.
  assert (error (calls (with_config small) demo_calls).1 = Some Http2Error.FrameTooLarge) as E by (vm_compute; reflexivity).
  split; [exact E|].
  pose proof (http2_failure_final _ _ [Push Responder [1]; NextEvent] E) as H.
  destruct (calls (calls (with_config small) demo_calls).1 [Push Responder [1]; NextEvent]) as [p' outs].
  exact (proj1 H).
Defined.

(** The parser never sits on a full buffer in silence: with a
    buffer of 24 bytes or more, a call that offers bytes to a direction
    that is neither failed nor finished accepts some of them. *)
Theorem http2_push_progress c es side data :
  config_ok c -> 24 <= Http2Config.max_buffered_bytes c -> Forall call_ok es ->
  let p := (calls (with_config c) es).1 in
  data <> [] -> is_failed p = false -> is_finished side p = false ->
  0 < (push side data p).2 <= zlen data.
Proof.
  intros Hc H24 He p Hd Hf Hfin. pose proof (steady_session c es Hc He) as [G F L _]. fold p in G, F, L. clearbody p.
  unfold is_failed, is_finished in *. unfold push. rewrite Hf, Hfin. cbn [orb]. cbv zeta.
  assert (error p = None) as En by by destruct (error p). specialize (L En side Hfin).
  rewrite (g_config _ _ G). apply zlen_pos in Hd. unfold buf_of in L.
  assert (0 < sat_sub (Http2Config.max_buffered_bytes c) (zlen (DirState.buf (dir side p)))) as Hr.
  { unfold Http2Config.effective_max_frame_size, sat_sub in *. change FRAME_HEADER_LEN with 9 in L. lia. }
  case_if; [lia|]. case_if; cbn [snd]; lia.
Qed.

Lemma http2_push_progress_witness :
  (push Initiator (replicate 100 0) (calls (with_config small) (firstn 1 demo_calls)).1).2 = 64 /\
  0 < (push Initiator (replicate 100 0) (calls (with_config small) (firstn 1 demo_calls)).1).2.
Proof.
  split; [vm_compute; reflexivity|].
  assert (24 <= Http2Config.max_buffered_bytes small) as H24 by (vm_compute; discriminate).
  refine (proj1 (http2_push_progress small (firstn 1 demo_calls) Initiator (replicate 100 0) small_ok H24 _ _ _ _));
    [apply (Forall_take _ 1), demo_ok|discriminate|vm_compute; reflexivity|vm_compute; reflexivity].
Defined.

(** How a direction's bytes are cut into segments does not matter:
    while they fit the buffer, offering them in two pieces leaves the parser
    as offering them at once does. *)
Theorem http2_chunking c es side a b :
  config_ok c -> Forall call_ok es -> Forall is_byte a -> Forall is_byte b -> b <> [] ->
  let p := (calls (with_config c) es).1 in
  buffered side p + zlen (a ++ b) <= Http2Config.max_buffered_bytes c ->
  (push side b (push side a p).1).1 = (push side (a ++ b) p).1.
Proof.
  intros Hc He Ha Hb Hne p Hroom. pose proof (steady_session c es Hc He) as [G F L _]. fold p in G, F, L. clearbody p.
  unfold buffered in Hroom. apply zlen_pos in Hne. rewrite zlen_app in Hroom. pose proof (zlen_nonneg a).
  destruct (is_some (error p) || DirState.done (dir side p)) eqn:Hst.
  { assert (forall d, push side d p = (p, 0)) as Hp by (intros d; unfold push; by rewrite Hst). by rewrite !Hp. }
  pose proof (zlen_nonneg (DirState.buf (dir side p))) as Hb0.
  assert (forall q d, config q = c -> is_some (error q) || DirState.done (dir side q) = false ->
    zlen (buf_of side q) + zlen d <= Http2Config.max_buffered_bytes c -> 0 < zlen d ->
    (push side d q).1 = drive side (more side d q)) as Hpush.
  { intros q d Eq Eq' Hq Hd. unfold push. rewrite Eq'. cbv zeta. rewrite Eq. unfold buf_of in Hq. unfold sat_sub.
    case_if; [pose proof (zlen_nonneg (DirState.buf (dir side q))); lia|]. rewrite Z.min_r by lia.
    rewrite (proj2 (Z.ltb_lt 0 _)) by lia. cbn [fst]. by rewrite ztake_ge by lia. }
  pose proof (g_config _ _ G) as Ec.
  rewrite (Hpush p (a ++ b) Ec Hst) by (unfold buf_of; rewrite ?zlen_app; lia).
  destruct (Z.eq_dec (zlen a) 0) as [E0|E0].
  { apply zlen_zero in E0. subst a. cbn [app].
    assert ((push side [] p).1 = p) as ->.
    { unfold push. rewrite Hst. cbv zeta. rewrite Ec. unfold sat_sub. case_if; [lia|].
      change (zlen (@nil Z)) with 0. rewrite Z.min_r by lia. done. }
    apply Hpush; [done|done|unfold buf_of; lia|lia]. }
  rewrite (Hpush p a Ec Hst) by (unfold buf_of; lia).
  assert (more side (a ++ b) p = more side b (more side a p)) as ->.
  { unfold more, dir_mut, upd. destruct side; cbn; by rewrite app_assoc. }
  pose proof (good_more c side a p G Ha) as G1.
  unfold drive at 2. rewrite (drive_more side b (more side a p) (g_bytes _ _ G1 side) Hb).
  unfold drive. pose proof (good_drive c (proj1 Hc) side _ G1) as G2.
  destruct (drive_inner side (more side a p)) as [p' [e|]] eqn:Ed.
  - assert ((push side b (fail e p')).1 = fail e p') as ->.
    { unfold push. assert (is_some (error (fail e p')) = true) as -> by (cbn; by destruct (error p')). done. }
    unfold fail, more. by destruct side.
  - destruct (drive_rest c (proj1 Hc) side _ p' G1 Ed) as (R1 & R2 & R3 & _). cbn [fst] in G2.
    specialize (R3 side). rewrite len_more, decide_True in R3 by done.
    change (zlen (buf_of side p')) with (zlen (buf_of side p')) in R3. unfold buf_of at 2 in R3.
    rewrite (Hpush p' b (g_config _ _ G2)); [|..|lia].
    + unfold drive. by destruct (drive_inner side (more side b p')) as [? [?|]].
    + rewrite R1, R2. assert (error (more side a p) = error p) as -> by by destruct side.
      assert (DirState.done (dir side (more side a p)) = DirState.done (dir side p)) as -> by by destruct side. done.
    + lia.
Qed.

Lemma http2_chunking_witness :
  (push Initiator [0; 0; 0; 1; 0x82] (push Initiator [0; 0; 1; 1; 5] (with_config small)).1).1 =
  (push Initiator ([0; 0; 1; 1; 5] ++ [0; 0; 0; 1; 0x82]) (with_config small)).1.
Proof.
  apply (http2_chunking small [] Initiator [0; 0; 1; 1; 5] [0; 0; 0; 1; 0x82] small_ok);
    [by apply Forall_nil|apply HpackProps.bytes_ok; reflexivity|apply HpackProps.bytes_ok; reflexivity|discriminate|].
  vm_compute. discriminate.
Defined.

(** ** Header lists, end to end *)

(** The frames that follow the first. *)
Lemma write_loop_out fuel id chunk es first : forall block out,
  write_loop fuel id chunk es first block out = out ++ write_loop fuel id chunk es first block [].
Proof.
  revert first. induction fuel as [|fuel IH]; intros first block out; cbn [write_loop]; [by rewrite app_nil_r|].
  cbv zeta. cbn [app]. case_if; [done|]. rewrite IH, (IH _ _ (frame_bytes _ _ _ _)). by rewrite app_assoc.
Qed.

(** A direction ready to be read, its buffer holding [wire]. *)
Record reading (side : FlowSide) (partial : option PartialBlock.t) (wire : list Z) (p : t) : Prop := {
  r_buf : buf_of side p = wire;
  r_partial : DirState.partial (dir side p) = partial }.

Definition frame_flags (first es last : bool) : Z :=
  let fl := if last then flags.END_HEADERS else 0 in if first && es then Z.lor fl flags.END_STREAM else fl.

Lemma flags_facts first es last : let fl := frame_flags first es last in
  is_byte fl /\ Z.land fl flags.PADDED = 0 /\ Z.land fl flags.PRIORITY = 0 /\
  negb (Z.land fl flags.END_HEADERS =? 0) = last /\ negb (Z.land fl flags.END_STREAM =? 0) = first && es.
Proof. by destruct first, es, last. Qed.

Section roundtrip.
Context (side : FlowSide) (id chunk : Z) (es : bool).
Context (Hid : 0 < id < 2 ^ 31) (Hchunk : 0 < chunk < 2 ^ 24).

(** One written frame is read back as one frame. *)
Lemma read_frame kind first last part tail p : kind = 1 \/ kind = 9 -> zlen part <= chunk ->
  chunk <= DirState.max_frame_size (dir side p) -> Forall is_byte part -> Forall is_byte tail ->
  buf_of side p = frame_bytes kind (frame_flags first es last) id part ++ tail ->
  frames_all side p =
    then_ (handle_frame side (Frame.mk (FrameKind.from_byte kind) (frame_flags first es last) id part None)
             (cut side (9 + zlen part) p)) (frames_all side) /\
  buf_of side (cut side (9 + zlen part) p) = tail.
Proof.
  intros Hk Hp Hm Bp Bt Hb. destruct (flags_facts first es last) as (F1 & F2 & F3 & _).
  assert (is_byte kind) as Bk by (unfold is_byte; lia).
  destruct (parse_frame_bytes kind (frame_flags first es last) id part tail (DirState.max_frame_size (dir side p)))
    as (P1 & P2 & P3); try done; try lia.
  assert (Forall is_byte (frame_bytes kind (frame_flags first es last) id part)) as Bf.
  { unfold frame_bytes. repeat (apply Forall_cons; split; [done || apply HuffmanFacts.u8_byte|]). done. }
  split.
  - rewrite frames_all_eq by (rewrite Hb; by apply Forall_app). unfold one_frame. rewrite Hb, P1.
    rewrite ztake_app_le, ztake_ge by lia. by rewrite P3.
  - rewrite buf_cut, Hb, zdrop_app_ge by lia. rewrite P2, Z.sub_diag. by apply zdrop_0.
Qed.

Lemma cut_fields n p : DirState.max_frame_size (dir side (cut side n p)) = DirState.max_frame_size (dir side p) /\
  DirState.partial (dir side (cut side n p)) = DirState.partial (dir side p) /\ config (cut side n p) = config p.
Proof. by destruct side. Qed.

Lemma frame_bytes_ok kind first last part : kind = 1 \/ kind = 9 -> Forall is_byte part ->
  Forall is_byte (frame_bytes kind (frame_flags first es last) id part).
Proof.
  intros Hk Hp. assert (is_byte kind) as Bk by (unfold is_byte; lia). destruct (flags_facts first es last) as (F1 & _).
  unfold frame_bytes. repeat (apply Forall_cons; split; [done || apply HuffmanFacts.u8_byte|]). done.
Qed.

Lemma write_bytes fuel : forall first block, Forall is_byte block ->
  Forall is_byte (write_loop fuel id chunk es first block []).
Proof.
  induction fuel as [|fuel IH]; intros first block Hb; cbn [write_loop]; [by apply Forall_nil|]. cbv zeta. cbn [app].
  assert (Forall is_byte (frame_bytes (if first then 1 else 9) (frame_flags first es (is_nil (zdrop chunk block))) id (ztake chunk block))) as Hf.
  { apply frame_bytes_ok; [destruct first; auto|by apply Forall_take]. }
  case_if; [done|]. rewrite write_loop_out. apply Forall_app. split; [done|]. by apply IH, Forall_drop.
Qed.

(** The parser once the block is whole. *)
Definition finished_block (p : t) : t :=
  dir_mut side (fun d => d <| DirState.partial := None |> <| DirState.buf := [] |>) p.

Lemma frames_empty p : buf_of side p = [] -> frames_all side p = (p, None).
Proof. intros Hb. rewrite frames_all_eq by (rewrite Hb; by apply Forall_nil). unfold one_frame. by rewrite Hb. Qed.

Lemma then_done o : buf_of side o.1 = [] -> then_ o (frames_all side) = o.
Proof. destruct o as [p [e|]]; [done|]. apply frames_empty. Qed.

(** The continuations of a block whose start is already held. *)
Lemma read_continuations fuel : forall block acc p e,
  (length block < fuel)%nat -> Forall is_byte block ->
  chunk <= DirState.max_frame_size (dir side p) ->
  zlen acc + zlen block <= Http2Config.max_header_block_bytes (config p) ->
  reading side (Some (PartialBlock.mk id id acc e)) (write_loop fuel id chunk es false block []) p ->
  frames_all side p = complete_block side id (acc ++ block) e (finished_block p).
Proof.
  induction fuel as [|fuel IH]; intros block acc p e Hf Hb Hm Hcap [Rb Rp]; [lia|].
  cbn [write_loop] in Rb. cbv zeta in Rb. cbn [app] in Rb.
  set (part := ztake chunk block) in *. set (rest := zdrop chunk block) in *. set (last := is_nil rest) in *.
  assert (block = part ++ rest) as Eb by (symmetry; apply ztake_zdrop).
  assert (zlen part + zlen rest = zlen block) as El by (by rewrite Eb, zlen_app).
  assert (zlen part <= chunk) as Hpc by (unfold part; zlia).
  assert (Forall is_byte part /\ Forall is_byte rest) as [Bp Br] by (rewrite Eb in Hb; by apply Forall_app).
  set (tail := if last then [] else write_loop fuel id chunk es false rest []).
  assert (Forall is_byte tail) as Bt by (unfold tail; destruct last; [by apply Forall_nil|by apply write_bytes]).
  assert (buf_of side p = frame_bytes 9 (frame_flags false es last) id part ++ tail) as Rb'.
  { rewrite Rb. unfold tail. destruct last; [by rewrite app_nil_r|]. by rewrite write_loop_out. }
  destruct (read_frame 9 false last part tail p) as [-> Et]; try done; [by right|].
  destruct (flags_facts false es last) as (_ & _ & _ & F4 & _).
  destruct (cut_fields (9 + zlen part) p) as (C1 & C2 & C3). pose proof (zlen_nonneg rest).
  unfold handle_frame. rewrite C2, Rp. cbn [Frame.kind FrameKind.from_byte Frame.stream_id PartialBlock.continuation_stream].
  rewrite bool_decide_eq_true_2, Z.eqb_refl by done. cbn [negb orb]. unfold continue_block. rewrite C2, Rp, C3.
  cbn [Frame.payload PartialBlock.bytes]. rewrite (proj2 (Z.ltb_ge _ _)) by lia. cbv zeta. unfold Frame.has. cbn [Frame.flags].
  rewrite F4. unfold last in *. destruct (is_nil rest) eqn:Erest; cbn [negb].
  - apply is_nil_spec in Erest. rewrite Erest, app_nil_r in Eb. rewrite <- Eb in *.
    cbn [PartialBlock.describes_stream PartialBlock.bytes PartialBlock.end_stream].
    assert (dir_mut side (fun d => d <| DirState.partial := None |>) (cut side (9 + zlen block) p) = finished_block p) as ->.
    { unfold finished_block, cut, dir_mut, buf_of, upd in *. destruct side; cbn in *; by rewrite Et. }
    apply then_done. pose proof (complete_io side id (acc ++ block) e (finished_block p)) as (_ & _ & Hio).
    destruct (Hio side) as [E _]. unfold buf_of. rewrite E. unfold finished_block. by destruct side.
  - cbn [then_]. set (pb := PartialBlock.mk id id acc e <| PartialBlock.bytes ::= fun b => b ++ part |>).
    set (p1 := dir_mut side (fun d => d <| DirState.partial := Some pb |>) (cut side (9 + zlen part) p)).
    assert (finished_block p1 = finished_block p) as <-.
    { unfold finished_block, p1, cut, dir_mut, upd. by destruct side. }
    rewrite (IH rest (acc ++ part) p1 e); [by rewrite Eb, app_assoc|..].
    + assert (0 < zlen part) as Hpp.
      { assert (block <> []) as Hne%zlen_pos by (intros ->; unfold rest in Erest; by rewrite zdrop_nil in Erest). unfold part; zlia. }
      unfold zlen in *. lia.
    + done.
    + unfold p1. by destruct side.
    + assert (config p1 = config p) as -> by (unfold p1; by destruct side). rewrite zlen_app. lia.
    + split; [|unfold p1; by destruct side].
      assert (buf_of side p1 = buf_of side (cut side (9 + zlen part) p)) as -> by (unfold p1; by destruct side).
      rewrite Et. done.
Qed.

(** A whole written block, from an empty parser. *)
Lemma read_block block p : Forall is_byte block -> chunk <= DirState.max_frame_size (dir side p) ->
  zlen block <= Http2Config.max_header_block_bytes (config p) ->
  reading side None (write_loop (S (length block)) id chunk es true block []) p ->
  frames_all side p = complete_block side id block es (finished_block p).
Proof.
  intros Hb Hm Hcap [Rb Rp]. cbn [write_loop] in Rb. cbv zeta in Rb. cbn [app] in Rb.
  set (part := ztake chunk block) in *. set (rest := zdrop chunk block) in *. set (last := is_nil rest) in *.
  assert (block = part ++ rest) as Eb by (symmetry; apply ztake_zdrop).
  assert (zlen part + zlen rest = zlen block) as El by (by rewrite Eb, zlen_app).
  assert (zlen part <= chunk) as Hpc by (unfold part; zlia).
  assert (Forall is_byte part /\ Forall is_byte rest) as [Bp Br] by (rewrite Eb in Hb; by apply Forall_app).
  set (tail := if last then [] else write_loop (length block) id chunk es false rest []).
  assert (Forall is_byte tail) as Bt by (unfold tail; destruct last; [by apply Forall_nil|by apply write_bytes]).
  assert (buf_of side p = frame_bytes 1 (frame_flags true es last) id part ++ tail) as Rb'.
  { rewrite Rb. unfold tail. destruct last; [by rewrite app_nil_r|]. by rewrite write_loop_out. }
  destruct (read_frame 1 true last part tail p) as [-> Et]; try done; [by left|].
  destruct (flags_facts true es last) as (_ & _ & _ & F4 & F5).
  destruct (cut_fields (9 + zlen part) p) as (C1 & C2 & C3). pose proof (zlen_nonneg rest).
  unfold handle_frame. rewrite C2, Rp. cbn [Frame.kind FrameKind.from_byte]. unfold begin_block. rewrite C3.
  cbn [Frame.payload Frame.promised_stream_id Frame.stream_id from_option is_none is_some negb andb].
  rewrite (proj2 (Z.ltb_ge _ _)) by lia. cbv zeta. unfold Frame.has. cbn [Frame.flags]. rewrite F4, F5.
  change (true && es) with es. unfold last in *. destruct (is_nil rest) eqn:Erest.
  - apply is_nil_spec in Erest. rewrite Erest, app_nil_r in Eb. rewrite <- Eb in *.
    assert (cut side (9 + zlen block) p = finished_block p) as ->.
    { unfold finished_block, cut, dir_mut, buf_of, upd in *. destruct side, p as [? [] [] ? ? ?]; cbn in *; by rewrite Et, Rp. }
    apply then_done. pose proof (complete_io side id block es (finished_block p)) as (_ & _ & Hio).
    destruct (Hio side) as [E _]. unfold buf_of. rewrite E. unfold finished_block. by destruct side.
  - cbn [then_]. set (p1 := dir_mut side _ (cut side (9 + zlen part) p)).
    assert (finished_block p1 = finished_block p) as <-.
    { unfold finished_block, p1, cut, dir_mut, upd. by destruct side. }
    rewrite (read_continuations (length block) rest part p1 es); [by rewrite <- Eb|..].
    + assert (0 < zlen part) as Hpp.
      { assert (block <> []) as Hne%zlen_pos by (intros ->; unfold rest in Erest; by rewrite zdrop_nil in Erest). unfold part; zlia. }
      unfold zlen in *. lia.
    + done.
    + unfold p1. by destruct side.
    + assert (config p1 = config p) as -> by (unfold p1; by destruct side). lia.
    + split; [|unfold p1; by destruct side].
      assert (buf_of side p1 = buf_of side (cut side (9 + zlen part) p)) as -> by (unfold p1; by destruct side).
      rewrite Et. done.
Qed.
End roundtrip.

Lemma frame_bytes_len kind fl id part : zlen (frame_bytes kind fl id part) = 9 + zlen part.
Proof. unfold frame_bytes. rewrite !zlen_app. unfold zlen. cbn. lia. Qed.

(** What one field block on a live stream reports. *)
Definition seen_head (side : FlowSide) (id : Z) (p : t) : bool :=
  (StreamState.mark_head side (from_option Datatypes.id StreamState.default (streams p !! id))).2.
Definition block_events (side : FlowSide) (id : Z) (fields : list Field) (es : bool) (p : t) : list Http2Event :=
  (if seen_head side id p then Trailers id side fields else Head (StreamHead.mk id side fields es)) ::
  (if es then [End_ id side] else []).

Lemma complete_ok side id block es p fields table :
  HpackDecoder.decode (DirState.hpack (dir side p)) block = (Ok fields, table) ->
  is_some (streams p !! id) = true \/ tracked_streams p < Http2Config.max_concurrent_streams (config p) ->
  exists p', complete_block side id block es p = (p', None) /\
    events p' = events p ++ block_events side id fields es p /\ DirState.hpack (dir side p') = table /\
    error p' = error p.
Proof.
  intros Hd Hroom. unfold complete_block. rewrite Hd. cbv zeta.
  set (p1 := dir_mut side (fun d => d <| DirState.hpack := table |>) p).
  assert (streams p1 = streams p /\ config p1 = config p /\ events p1 = events p /\ error p1 = error p /\
    DirState.hpack (dir side p1) = table) as (E1 & E2 & E3 & E4 & E5) by by destruct side.
  rewrite E1, E2. unfold tracked_streams in Hroom.
  assert (negb (is_some (streams p !! id)) && (Http2Config.max_concurrent_streams (config p) <=? Z.of_nat (size (streams p))) = false) as ->.
  { destruct Hroom as [->|H]; [done|]. rewrite (proj2 (Z.leb_gt _ _)) by lia. by rewrite andb_false_r. }
  unfold block_events, seen_head. destruct (StreamState.mark_head _ _) as [st tr]. cbn [snd].
  eexists. split; [reflexivity|]. destruct es; cbn -[p1];
    [unfold finish_stream; destruct side; cbn -[p1]|]; rewrite ?E3, ?E4; split_and!; try done; by rewrite <- app_assoc.
Qed.

(** C30: from fields to event: a header list that the encoder accepts and
    the writer frames, in however many CONTINUATION frames, is reported by
    the parser at the far end as exactly one head (or trailers) with the same
    fields in the same order, and both dynamic tables are in step for the
    next one.  This is for a block the far end takes: within its
    [max_header_block_bytes], in frames no longer than its [max_frame_size],
    all of them pushed at once into an empty buffer of that size or more, by
    a parser that has neither failed nor finished, is past the preface, is
    inside no header block, and knows the stream or has room for one more. *)
Theorem http2_headers_roundtrip p side r fields r' block id es mfs wire :
  in_step r (DirState.hpack (dir side p)) -> HpackEncoder.max_block_bytes r < 2 ^ 56 ->
  Forall field_bytes fields -> HpackEncoder.encode fields r = Ok (r', block) ->
  0 <= id -> write_headers id block es mfs = Ok wire ->
  error p = None -> is_finished side p = false -> settled_preface side p ->
  reading side None [] p ->
  clamp mfs 16384 16777215 <= max_frame_size side p ->
  zlen wire <= Http2Config.max_buffered_bytes (config p) ->
  zlen block <= Http2Config.max_header_block_bytes (config p) ->
  is_some (streams p !! id) = true \/ tracked_streams p < Http2Config.max_concurrent_streams (config p) ->
  let p' := (push side wire p).1 in
  (push side wire p).2 = zlen wire /\ error p' = None /\
  events p' = events p ++ block_events side id fields es p /\
  in_step r' (DirState.hpack (dir side p')).
Proof.
  intros Hs Hm Hf He Hid Hw Herr Hfin Hpre [Rb Rp] Hmfs Hbuf Hcap Hroom.
  destruct (encode_into_spec r _ fields r' [] block Hs Hm Hf ltac:(by apply Forall_nil) He) as (code & td' & -> & Bc & Hd & Hs' & _).
  cbn [app] in *. unfold write_headers in Hw. revert Hw. destruct ((id =? 0) || (2147483647 <? id)) eqn:Hrange; [done|].
  apply orb_false_iff in Hrange as [Hr1 Hr2]. zb. intros Hw.
  set (chunk := clamp mfs 16384 16777215) in *. assert (0 < chunk < 2 ^ 24) as Hchunk by (unfold chunk, clamp; lia).
  assert (write_loop (S (length code)) id chunk es true code [] = wire) as Hwire by congruence. clear Hw.
  assert (Forall is_byte wire) as Bw by (rewrite <- Hwire; apply write_bytes; done || lia).
  assert (0 < zlen wire) as Hwpos.
  { rewrite <- Hwire. cbn [write_loop]. cbv zeta. cbn [app]. case_if; [|rewrite write_loop_out, zlen_app];
      rewrite frame_bytes_len; zlen_facts; lia. }
  unfold push. unfold is_finished in Hfin. rewrite Herr, Hfin. cbn [is_some orb]. cbv zeta.
  unfold buf_of in Rb. rewrite Rb. change (zlen (@nil Z)) with 0. unfold sat_sub.
  case_if; [lia|]. rewrite Z.min_r by lia. rewrite (proj2 (Z.ltb_lt 0 _)) by lia. cbn [fst snd].
  rewrite ztake_ge by lia. fold (more side wire p). split; [done|].
  set (p0 := more side wire p).
  assert (DirState.partial (dir side p0) = None /\ config p0 = config p /\ streams p0 = streams p /\ events p0 = events p /\
    error p0 = error p /\ DirState.hpack (dir side p0) = DirState.hpack (dir side p) /\
    DirState.max_frame_size (dir side p0) = DirState.max_frame_size (dir side p)) as (E1 & E2 & E3 & E4 & E5 & E6 & E7).
  { unfold p0. by destruct side. }
  assert (buf_of side p0 = wire) as E8 by (unfold p0; rewrite buf_more; unfold buf_of; by rewrite Rb).
  unfold drive, drive_inner. rewrite open_settled by (eapply settled_but_buf; [apply more_but_buf|done]).
  change (frames (S (length (DirState.buf (dir side p0)))) side p0) with (frames_all side p0).
  rewrite (read_block side id chunk es ltac:(lia) Hchunk code p0); try done; [|by rewrite E7|by rewrite E2|by split; rewrite ?Hwire].
  destruct (complete_ok side id code es (finished_block side p0) fields td') as (p' & -> & F1 & F2 & F3).
  { assert (DirState.hpack (dir side (finished_block side p0)) = DirState.hpack (dir side p)) as -> by (unfold finished_block; destruct side; exact E6). exact Hd. }
  { unfold tracked_streams in *. unfold finished_block. destruct side; cbn -[p0]; by rewrite E3, E2. }
  split; [rewrite F3; unfold finished_block; destruct side; cbn -[p0]; congruence|].
  split; [|by rewrite F2]. rewrite F1. unfold finished_block, block_events, seen_head. destruct side; cbn -[p0]; by rewrite E4, E3.
Qed.

(** A response written by the encoder and read by a fresh parser. *)
Definition demo_fields : list Field :=
  [(bstr ":status", bstr "200"); (bstr "content-type", bstr "text/plain"); (bstr "x-note", bstr "a note")].
Definition demo_encoder : HpackEncoder.t :=
  HpackProps.configured 4096 65536 WhenSmaller default_sensitivity.
Definition demo_encoded : HpackEncoder.t * list Z :=
  match HpackEncoder.encode demo_fields demo_encoder with Ok rb => rb | Err _ => (demo_encoder, []) end.
Definition demo_wire : list Z :=
  match write_headers 1 demo_encoded.2 true 16384 with Ok w => w | Err _ => [] end.

Lemma http2_headers_roundtrip_witness :
  zlen demo_wire = 31 /\
  events (push Responder demo_wire new).1 =
    [Head (StreamHead.mk 1 Responder demo_fields true); End_ 1 Responder].
Proof.
  split; [vm_compute; reflexivity|].
  assert (in_step demo_encoder (DirState.hpack (dir Responder new))) as Hs
    by (apply (HpackProps.configured_in_step 4096 65536); lia).
  assert (Forall field_bytes demo_fields) as Hf.
  { repeat (apply Forall_cons; split; [split; apply HpackProps.bytes_ok; vm_compute; reflexivity|]). by apply Forall_nil. }
  assert (HpackEncoder.encode demo_fields demo_encoder = Ok (demo_encoded.1, demo_encoded.2)) as He by (vm_compute; reflexivity).
  assert (write_headers 1 demo_encoded.2 true 16384 = Ok demo_wire) as Hw by (vm_compute; reflexivity).
  assert (HpackEncoder.max_block_bytes demo_encoder < 2 ^ 56) as Hm by (vm_compute; reflexivity).
  assert (clamp 16384 16384 16777215 <= max_frame_size Responder new) as Hc by (vm_compute; discriminate).
  assert (zlen demo_wire <= Http2Config.max_buffered_bytes (config new)) as Hb by (vm_compute; discriminate).
  assert (zlen demo_encoded.2 <= Http2Config.max_header_block_bytes (config new)) as Hh by (vm_compute; discriminate).
  assert (tracked_streams new < Http2Config.max_concurrent_streams (config new)) as Ht by (vm_compute; reflexivity).
  assert (settled_preface Responder new) as Hp by done.
  pose proof (http2_headers_roundtrip new Responder demo_encoder demo_fields demo_encoded.1 demo_encoded.2 1 true 16384 demo_wire
    Hs Hm Hf He ltac:(lia) Hw eq_refl eq_refl Hp (Build_reading Responder None [] new eq_refl eq_refl) Hc Hb Hh (or_intror Ht)) as H.
  exact (proj1 (proj2 (proj2 H))).
Defined.

(** ** Where the events differ from their description *)

(** A PUSH_PROMISE on stream 1 that reserves stream 2, then the response
    on stream 2. *)
Definition promise_then_response : list Z :=
  [0; 0; 5; 5; 4; 0; 0; 0; 1; 0; 0; 0; 2; 0x82] ++ [0; 0; 1; 1; 4; 0; 0; 0; 2; 0x88].

(** The response to a promised request is reported as trailers: the
    promise counts as the responder's head of the promised stream, so the
    head that follows is taken for a second block. *)
Theorem http2_promised_response_is_trailers :
  events (push Responder promise_then_response new).1 =
    [Head (StreamHead.mk 2 Responder [(bstr ":method", bstr "GET")] false);
     Trailers 2 Responder [(bstr ":status", bstr "200")]].
Proof. vm_compute. reflexivity. Qed.

(** A 103 response head, then the final one. *)
Definition early_hints : list Z :=
  [0; 0; 5; 1; 4; 0; 0; 0; 1; 0x48; 3; 49; 48; 51] ++ [0; 0; 1; 1; 4; 0; 0; 0; 1; 0x88].

(** After an informational response the final response head is
    reported as trailers, although no DATA came before it. *)
Theorem http2_final_head_after_1xx_is_trailers :
  events (push Responder early_hints new).1 =
    [Head (StreamHead.mk 1 Responder [(bstr ":status", bstr "103")] false);
     Trailers 1 Responder [(bstr ":status", bstr "200")]].
Proof. vm_compute. reflexivity. Qed.

(** An empty push returns zero although the parser is neither
    failed nor finished. *)
Theorem http2_empty_push_returns_zero side :
  (push side [] new).2 = 0 /\ is_failed (push side [] new).1 = false /\
  is_finished side (push side [] new).1 = false.
Proof. by destruct side. Qed.
