(* ===== verification/Http1.v ===== *)
(** * HTTP/1.x messages and framing (src/src/http/types.rs, poison.rs, engine.rs)

    The message types and their accessors, the RFC 9112 framing rules with
    the smuggling policies, and the authority of a request.  Byte strings
    are lists; a refcounted view of the buffer is the bytes it shows. *)

From S2P Require Import Prelude Flow Text.

(** ** Types *)
Inductive HttpVersion := Http1_0 | Http1_1.
#[global] Instance http_version_eq_dec : EqDecision HttpVersion.
Proof. solve_decision. Defined.
Module BodyFraming.
Inductive t := None_ | ContentLength (n : Z) | Chunked | UntilClose.
#[global] Instance eq_dec : EqDecision t.
Proof. solve_decision. Defined.
End BodyFraming.
Module SmugglingPolicy.
Inductive t := Strict | Normalize | Observe.
#[global] Instance eq_dec : EqDecision t.
Proof. solve_decision. Defined.
End SmugglingPolicy.
Inductive Normalization := StrippedContentLength | CollapsedContentLength.
#[global] Instance normalization_eq_dec : EqDecision Normalization.
Proof. solve_decision. Defined.
Inductive SwitchKind := ConnectTunnel | Upgrade (protocol : list Z) | Http2PriorKnowledge.
#[global] Instance switch_kind_eq_dec : EqDecision SwitchKind.
Proof. solve_decision. Defined.

Module HttpPoison.
Inductive t :=
  | HeadOverflow | ChunkLineOverflow | TrailerOverflow | PipelineOverflow | InvalidChunkSize
  | MalformedChunkTerminator | MalformedHead | ContentLengthWithTransferEncoding
  | ConflictingContentLength | InvalidContentLength | NonFinalChunked | UnknownTransferCoding
  | DuplicateTransferEncoding | ObsFold | BareCr | DuplicateHost | NonAsciiAuthority
  | UnexpectedResponse.
#[global] Instance eq_dec : EqDecision t.
Proof. solve_decision. Defined.

Definition as_str (p : t) : list Z :=
  match p with
  | HeadOverflow => bstr "head-overflow"
  | ChunkLineOverflow => bstr "chunk-line-overflow"
  | TrailerOverflow => bstr "trailer-overflow"
  | PipelineOverflow => bstr "pipeline-overflow"
  | InvalidChunkSize => bstr "invalid-chunk-size"
  | MalformedChunkTerminator => bstr "malformed-chunk-terminator"
  | MalformedHead => bstr "malformed-head"
  | ContentLengthWithTransferEncoding => bstr "content-length-with-transfer-encoding"
  | ConflictingContentLength => bstr "conflicting-content-length"
  | InvalidContentLength => bstr "invalid-content-length"
  | NonFinalChunked => bstr "non-final-chunked"
  | UnknownTransferCoding => bstr "unknown-transfer-coding"
  | DuplicateTransferEncoding => bstr "duplicate-transfer-encoding"
  | ObsFold => bstr "obs-fold"
  | BareCr => bstr "bare-cr"
  | DuplicateHost => bstr "duplicate-host"
  | NonAsciiAuthority => bstr "non-ascii-authority"
  | UnexpectedResponse => bstr "unexpected-response"
  end.
Definition implies_client_fault (p : t) : option bool :=
  match p with
  | DuplicateHost | NonAsciiAuthority => Some true
  | UnexpectedResponse => Some false
  | _ => None
  end.
End HttpPoison.
Import HttpPoison SmugglingPolicy.

Definition Header : Type := list Z * list Z.

(** ** Header lookup *)
Definition named (name : list Z) (h : Header) : bool := eq_ignore_case h.1 name.
Definition header_lookup (headers : list Header) (name : list Z) : list (list Z) :=
  snd <$> List.filter (named name) headers.
Definition header (name : list Z) (headers : list Header) : option (list Z) := head (header_lookup headers name).
Definition header_value (headers : list Header) (name : list Z) : option (list Z) := header name headers.
Definition header_str (name : list Z) (headers : list Header) : option (list Z) :=
  v ← header name headers; if utf8_valid v then Some v else None.

(** The UTF-8 encodings of the white space characters. *)
Definition white_space : list (list Z) :=
  [[9]; [10]; [11]; [12]; [13]; [32]; [194; 133]; [194; 160]; [225; 154; 128]; [226; 128; 128]; [226; 128; 129];
   [226; 128; 130]; [226; 128; 131]; [226; 128; 132]; [226; 128; 133]; [226; 128; 134]; [226; 128; 135];
   [226; 128; 136]; [226; 128; 137]; [226; 128; 138]; [226; 128; 168]; [226; 128; 169]; [226; 128; 175];
   [226; 129; 159]; [227; 128; 128]].
Fixpoint first_some {A B} (f : A -> option B) (l : list A) : option B :=
  match l with
  | [] => None
  | a :: l => match f a with Some b => Some b | None => first_some f l end
  end.
Fixpoint trim_start (fuel : nat) (chars : list (list Z)) (s : list Z) : list Z :=
  match fuel with
  | O => s
  | S fuel =>
      match first_some (fun c => strip_prefix c s) chars with
      | Some s => trim_start fuel chars s
      | None => s
      end
  end.
(** [str::trim]. *)
Definition str_trim (s : list Z) : list Z :=
  let s := trim_start (length s) white_space s in
  rev (trim_start (length s) (List.map (@rev Z) white_space) (rev s)).
(** [header_str("content-length").and_then(|v| v.trim().parse().ok())]. *)
Definition content_length (headers : list Header) : option Z :=
  v ← header_str (bstr "content-length") headers; parse_uint U64_MAX (str_trim v).
Definition from_utf8 (s : list Z) : option (list Z) := if utf8_valid s then Some s else None.

Definition trim_ascii : list Z -> list Z := trim_by is_ascii_ws.
(** [v.split(|&b| b == b',').map(|t| t.trim_ascii())]. *)
Definition list_items (v : list Z) : list (list Z) := trim_ascii <$> split 44 v.

(** ** Framing rules *)

(** [line.iter().all(u8::is_ascii_digit)], then [parse::<u64>()]. *)
Definition parse_decimal (s : list Z) : option Z :=
  if is_nil s || negb (forallb is_digit s) then None else parse_digits U64_MAX 0 s.

Definition hex_value (b : Z) : option Z :=
  if is_digit b then Some (b - 48)
  else if (97 <=? b) && (b <=? 102) then Some (b - 87)
  else if (65 <=? b) && (b <=? 70) then Some (b - 55)
  else None.
Fixpoint hex_digits (n : Z) (s : list Z) : option Z :=
  match s with
  | [] => Some n
  | d :: s =>
      match hex_value d with
      | Some v => let n := n * 16 + v in if U64_MAX <? n then None else hex_digits n s
      | None => None
      end
  end.
(** [u64::from_str_radix(s, 16)]: an optional plus sign, then digits. *)
Definition parse_hex (s : list Z) : option Z :=
  if is_nil s || negb (utf8_valid s) then None
  else
    match s with
    | [43] | [45] => None
    | 43 :: s => hex_digits 0 s
    | _ => hex_digits 0 s
    end.

Definition is_chunked (coding : list Z) : bool := eq_ignore_case coding (bstr "chunked").

(** The codings a list of [Transfer-Encoding] values names. *)
Definition codings_of (values : list (list Z)) : list (list Z) :=
  List.filter (fun t => negb (is_nil t)) (concat (list_items <$> values)).
Fixpoint check_codings (codings : list (list Z)) : result HttpPoison.t unit :=
  match codings with
  | [] => Ok tt
  | coding :: rest =>
      if negb (is_chunked coding) && negb (eq_ignore_case coding (bstr "identity"))
      then Err UnknownTransferCoding
      else if is_chunked coding && negb (is_nil rest) then Err NonFinalChunked
      else check_codings rest
  end.
Definition resolve_te (observe : bool) (values : list (list Z)) : result HttpPoison.t bool :=
  if is_nil values then Ok false
  else if (1 <? zlen values) && negb observe then Err DuplicateTransferEncoding
  else
    let codings := codings_of values in
    let chunked := is_some_and is_chunked (last codings) in
    if negb observe then
      let? _ := check_codings codings in
      if negb chunked then Err NonFinalChunked else Ok chunked
    else Ok (existsb is_chunked codings).

(** The numbers of the [Content-Length] values. *)
Fixpoint parse_lengths (observe : bool) (items : list (list Z)) : result HttpPoison.t (list Z) :=
  match items with
  | [] => Ok []
  | t :: items =>
      if is_nil t then parse_lengths observe items
      else
        match parse_decimal t with
        | Some n => let? ns := parse_lengths observe items in Ok (n :: ns)
        | None => if observe then parse_lengths observe items else Err InvalidContentLength
        end
  end.
Definition resolve_cl (observe chunked : bool) (values : list (list Z))
    : result HttpPoison.t (option Z * list Normalization) :=
  let? lengths := parse_lengths observe (concat (list_items <$> values)) in
  match lengths with
  | [] =>
      if negb (is_nil values) && negb observe && negb chunked
      then Err InvalidContentLength else Ok (None, [])
  | first :: _ =>
      if existsb (fun n => negb (n =? first)) lengths
      then if negb observe then Err ConflictingContentLength else Ok (Some first, [])
      else Ok (Some first, if 1 <? zlen lengths then [CollapsedContentLength] else [])
  end.

(** Chunked or not, the content length, the normalizations. *)
Definition framing_headers (headers : list Header) (policy : SmugglingPolicy.t)
    : result HttpPoison.t (bool * option Z * list Normalization) :=
  let observe := bool_decide (policy = Observe) in
  let? chunked := resolve_te observe (header_lookup headers (bstr "transfer-encoding")) in
  let? (content_length, applied) :=
    resolve_cl observe chunked (header_lookup headers (bstr "content-length")) in
  if chunked && is_some content_length then
    match policy with
    | Strict => Err ContentLengthWithTransferEncoding
    | Normalize => Ok (true, None, applied ++ [StrippedContentLength])
    | Observe => Ok (true, None, applied)
    end
  else Ok (chunked, content_length, applied).

Definition request_framing (headers : list Header) (policy : SmugglingPolicy.t)
    : result HttpPoison.t (BodyFraming.t * list Normalization) :=
  let? (te, cl, applied) := framing_headers headers policy in
  if te : bool then Ok (BodyFraming.Chunked, applied)
  else
    match cl with
    | Some n => if n =? 0 then Ok (BodyFraming.None_, applied) else Ok (BodyFraming.ContentLength n, applied)
    | None => Ok (BodyFraming.None_, applied)
    end.

Definition response_framing (status : Z) (request_was_head : bool) (headers : list Header)
    (policy : SmugglingPolicy.t) : result HttpPoison.t (BodyFraming.t * list Normalization) :=
  if request_was_head || ((100 <=? status) && (status <=? 199)) || (status =? 204) || (status =? 304)
  then Ok (BodyFraming.None_, [])
  else
    let? (te, cl, applied) := framing_headers headers policy in
    if te : bool then Ok (BodyFraming.Chunked, applied)
    else
      match cl with
      | Some n => if n =? 0 then Ok (BodyFraming.None_, applied) else Ok (BodyFraming.ContentLength n, applied)
      | None => Ok (BodyFraming.UntilClose, applied)
      end.

(** [i] is the index of the next byte. *)
Fixpoint check_from (i : Z) (head : list Z) : result HttpPoison.t unit :=
  match head with
  | [] => Ok tt
  | b :: rest =>
      if b =? 13 then
        match rest with
        | 10 :: rest =>
            if (0 <? i) && match rest with c :: _ :: _ => (c =? 32) || (c =? 9) | _ => false end
            then Err ObsFold else check_from (i + 2) rest
        | _ => Err BareCr
        end
      else check_from (i + 1) rest
  end.
Definition check_head_bytes (head : list Z) : result HttpPoison.t unit := check_from 0 head.

Definition check_single_host (headers : list Header) : result HttpPoison.t unit :=
  if 1 <? zlen (header_lookup headers (bstr "host")) then Err DuplicateHost else Ok tt.

(** ** The authority of a request *)
Module Authority.
Record t := mk { raw : list Z; host : list Z; port : option Z }.
End Authority.

Definition is_ascii (s : list Z) : bool := forallb (fun b => b <? 128) s.
Definition is_alphanumeric (b : Z) : bool := is_alpha b || is_digit b.
(** [target.windows(3).position(|w| w == b"://")]. *)
Fixpoint find_scheme (s : list Z) : option (list Z * list Z) :=
  match s with
  | [] => None
  | b :: s' =>
      match strip_prefix (bstr "://") s with
      | Some rest => Some ([], rest)
      | None => (fun p => (b :: p.1, p.2)) <$> find_scheme s'
      end
  end.
Fixpoint take_authority (s : list Z) : list Z :=
  match s with
  | [] => []
  | b :: s => if (b =? 47) || (b =? 63) || (b =? 35) then [] else b :: take_authority s
  end.
Definition absolute_form_authority (target : list Z) : option (list Z) :=
  match find_scheme target with
  | Some (scheme, rest) =>
      if is_nil scheme || existsb (fun b => negb (is_alphanumeric b)) scheme
      then None else Some (take_authority rest)
  | None => None
  end.
(** [s.rsplit_once(c)]: at the last separator. *)
Definition rsplit_once (c : Z) (s : list Z) : option (list Z * list Z) :=
  (fun p => (rev p.2, rev p.1)) <$> split_once c (rev s).
Definition lowercase (s : list Z) : list Z := to_lower <$> s.

Definition parse_authority (raw : list Z) : result HttpPoison.t Authority.t :=
  if negb (is_ascii raw) then Err NonAsciiAuthority
  else
    let s := match rsplit_once 64 raw with Some (_, after) => after | None => raw end in
    match strip_prefix (bstr "[") s with
    | Some rest =>
        match split_once 93 rest with
        | None => Err NonAsciiAuthority
        | Some (inside, after) =>
            match strip_prefix (bstr ":") after with
            | Some p =>
                if is_nil p then Err NonAsciiAuthority
                else match parse_uint U16_MAX p with
                     | Some port => Ok (Authority.mk raw (lowercase inside) (Some port))
                     | None => Err NonAsciiAuthority
                     end
            | None => Ok (Authority.mk raw (lowercase inside) None)
            end
        end
    | None =>
        match rsplit_once 58 s with
        | Some (h, p) =>
            if negb (is_nil p) then
              if forallb is_digit p then
                match parse_uint U16_MAX p with
                | Some port => Ok (Authority.mk raw (lowercase h) (Some port))
                | None => Err NonAsciiAuthority
                end
              else Err NonAsciiAuthority
            else Ok (Authority.mk raw (lowercase s) None)
        | None => Ok (Authority.mk raw (lowercase s) None)
        end
    end.

(** The tokens of a list field. *)
Definition is_ows (b : Z) : bool := (b =? 32) || (b =? 9).
Definition split_list_tokens (value : list Z) : list (list Z) :=
  List.filter (fun t => negb (is_nil t))
    (trim_by is_ows <$> List.filter utf8_valid (split 44 value)).

Definition status_class_of (status : Z) : option Z :=
  let cls := status / 100 in if (1 <=? cls) && (cls <=? 5) then Some cls else None.

Module HttpRequest.
Record t := mk {
  method : list Z; path : list Z; version : HttpVersion; headers : list Header; body : list Z }.
Definition method_str (r : t) : option (list Z) := from_utf8 (method r).
Definition path_str (r : t) : option (list Z) := from_utf8 (path r).
Definition host (r : t) : option (list Z) := header_str (bstr "host") (headers r).
Definition user_agent (r : t) : option (list Z) := header_str (bstr "user-agent") (headers r).
Definition cookie (r : t) : option (list Z) := header_str (bstr "cookie") (headers r).
Definition referer (r : t) : option (list Z) := header_str (bstr "referer") (headers r).
Definition accept (r : t) : option (list Z) := header_str (bstr "accept") (headers r).
Definition content_type (r : t) : option (list Z) := header_str (bstr "content-type") (headers r).
End HttpRequest.
Module HttpResponse.
Record t := mk {
  status : Z; reason : list Z; version : HttpVersion; headers : list Header; body : list Z }.
Definition reason_str (r : t) : option (list Z) := from_utf8 (reason r).
Definition content_type (r : t) : option (list Z) := header_str (bstr "content-type") (headers r).
Definition set_cookie (r : t) : list (list Z) :=
  List.filter utf8_valid (header_lookup (headers r) (bstr "set-cookie")).
Definition status_class (r : t) : option Z := status_class_of (status r).
Definition is_success (r : t) : bool := bool_decide (status_class r = Some 2).
Definition is_redirect (r : t) : bool := bool_decide (status_class r = Some 3).
Definition is_client_error (r : t) : bool := bool_decide (status_class r = Some 4).
Definition is_server_error (r : t) : bool := bool_decide (status_class r = Some 5).
End HttpResponse.

Module RequestHead.
Record t := mk {
  method : list Z; path : list Z; version : HttpVersion; headers : list Header;
  framing : BodyFraming.t; applied : list Normalization; raw : list Z }.

Definition authority (h : t) : result HttpPoison.t Authority.t :=
  let hosts := header_lookup (headers h) (bstr "host") in
  if 1 <? zlen hosts then Err DuplicateHost
  else
    parse_authority
      match absolute_form_authority (path h) with
      | Some a => a
      | None => match hosts with v :: _ => v | [] => [] end
      end.
Definition upgrade_protocols (h : t) : list (list Z) :=
  let named_in_connection :=
    existsb (fun t => eq_ignore_case t (bstr "upgrade"))
      (concat (split_list_tokens <$> header_lookup (headers h) (bstr "connection"))) in
  List.filter (fun _ => named_in_connection)
    (concat (split_list_tokens <$> header_lookup (headers h) (bstr "upgrade"))).
Definition is_websocket_upgrade (h : t) : bool :=
  bool_decide (method h = bstr "GET")
  && existsb (fun t => eq_ignore_case t (bstr "websocket")) (upgrade_protocols h)
  && is_some (header (bstr "sec-websocket-key") (headers h))
  && is_some (header (bstr "sec-websocket-version") (headers h)).
End RequestHead.
Module ResponseHead.
Record t := mk {
  status : Z; reason : list Z; version : HttpVersion; headers : list Header;
  framing : BodyFraming.t; interim : bool; applied : list Normalization; raw : list Z }.
Definition status_class (h : t) : option Z := status_class_of (status h).
Definition is_success (h : t) : bool := bool_decide (status_class h = Some 2).
End ResponseHead.

Module HttpConfig.
Record t := mk { max_buffer : Z; max_headers : Z }.
Definition default : t := mk (1024 * 1024) 64.
End HttpConfig.
