(* ===== verification/Http1Engine.v ===== *)
(** * The HTTP/1.x streaming engine (src/src/http/engine.rs)

    Two directions, each a buffer and a state, the requests that await a
    response and the switch still to report.  [poll] advances one step;
    it returns the engine and [Ok (Some event)], [Ok None] (more bytes are
    needed) or the error of a direction that lost framing.

    The start line and the fields are parsed by the [httparse] crate: a
    parameter, [Httparse].  What it finds are sub-slices of the head, given
    by their offset and length; [span_of] and [into_head] use them as the
    code does. *)

From S2P Require Import Prelude Flow Text Http1.
Import HttpPoison SmugglingPolicy.

Inductive Dir := Request | Response.
#[global] Instance dir_eq_dec : EqDecision Dir.
Proof. solve_decision. Defined.

Module EngineLimits.
Record t := mk {
  max_head_bytes : Z; max_headers : Z; max_chunk_line_bytes : Z; max_trailer_bytes : Z;
  max_pipelined : Z; policy : SmugglingPolicy.t }.
#[global] Instance eta : Eta t := mk_eta (fun l =>
  mk (max_head_bytes l) (max_headers l) (max_chunk_line_bytes l) (max_trailer_bytes l)
    (max_pipelined l) (policy l)).
Definition default : t := mk (64 * 1024) 64 1024 (8 * 1024) 64 Strict.
End EngineLimits.

Module Head.
Record t := mk {
  dir : Dir; method : list Z; path : list Z; status : Z; reason : list Z; version : HttpVersion;
  headers : list Header; framing : BodyFraming.t; interim : bool; applied : list Normalization;
  raw : list Z }.
#[global] Instance eta : Eta t := mk_eta (fun h =>
  mk (dir h) (method h) (path h) (status h) (reason h) (version h) (headers h) (framing h)
    (interim h) (applied h) (raw h)).
End Head.

Module EngineEvent.
Inductive t :=
  | Head (h : Head.t)
  | Body (decoded raw : list Z)
  | Trailers (fields : list Header) (raw : list Z)
  | End_
  | Switch (k : SwitchKind).
End EngineEvent.

Module ChunkState.
Inductive t := Size | Data (remaining : Z) | DataCrlf | Trailer.
End ChunkState.
Module BodyState.
Inductive t := Length (remaining : Z) | Chunked (c : ChunkState.t) | UntilClose.
End BodyState.
Module DirState.
Inductive t := Head | Body (b : BodyState.t) | Tunnel | Closed | Desynced | Resync.
End DirState.
Import ChunkState BodyState DirState.

Module ReqCtx.
Record t := mk { is_head : bool; is_connect : bool }.
End ReqCtx.

(** [Error::buffer_overflow], [Error::parse]. *)
Inductive EngineError := BufferOverflow (n : Z) | ParseFailed (reason : list Z).

(** ** Scanning *)
Definition byte_at (buf : list Z) (i : Z) : option Z := if i <? 0 then None else buf !! Z.to_nat i.
(** [buf[i] == b]. *)
Definition byte_is (buf : list Z) (i b : Z) : bool := bool_decide (byte_at buf i = Some b).

(** [buf[from..].windows(2).position(|w| w == b"\r\n")]. *)
Fixpoint position_crlf (s : list Z) : option Z :=
  match s with
  | [] => None
  | a :: rest =>
      match rest with
      | b :: _ => if (a =? 13) && (b =? 10) then Some 0 else Z.succ <$> position_crlf rest
      | [] => None
      end
  end.
Definition find_crlf_from (buf : list Z) (from : Z) : option Z :=
  if zlen buf <=? from then None else (fun p => p + from) <$> position_crlf (zdrop from buf).

(** The head ends with the line feed at [i]. *)
Definition blank_at (buf : list Z) (i : Z) : bool :=
  byte_is buf i 10
  && ((1 <=? i) && byte_is buf (i - 1) 10
      || (3 <=? i) && byte_is buf (i - 1) 13 && byte_is buf (i - 2) 10 && byte_is buf (i - 3) 13).
(** [rest] is [buf] from [i] on. *)
Fixpoint blank_from (buf : list Z) (i : Z) (rest : list Z) : option Z :=
  match rest with
  | [] => None
  | _ :: rest => if blank_at buf i then Some (i + 1) else blank_from buf (i + 1) rest
  end.
(** The length of the head, and the new resume point. *)
Definition scan_blank_line (buf : list Z) (scanned : Z) : option Z * Z :=
  let start := sat_sub scanned 3 in
  match blank_from buf start (zdrop start buf) with
  | Some n => (Some n, n)
  | None => (None, zlen buf)
  end.
Definition scan_crlf (buf : list Z) (scanned : Z) : option Z * Z :=
  match find_crlf_from buf (sat_sub scanned 1) with
  | Some pos => (Some pos, pos)
  | None => (None, zlen buf)
  end.

(** The lines of a trailer section from [pos] on; each has at least two bytes. *)
Fixpoint trailer_end_from (fuel : nat) (buf : list Z) (pos : Z) : option Z :=
  match fuel with
  | O => None
  | S fuel =>
      match find_crlf_from buf pos with
      | Some eol => if eol =? pos then Some (eol + 2) else trailer_end_from fuel buf (eol + 2)
      | None => None
      end
  end.
Definition scan_trailer_end (buf : list Z) : option Z * Z :=
  match find_crlf_from buf 0 with
  | None => (None, zlen buf)
  | Some first =>
      match trailer_end_from (S (length buf)) buf (first + 2) with
      | Some n => (Some n, 0)
      | None => (None, zlen buf)
      end
  end.

(** [iter().take_while(f).count()]. *)
Fixpoint count_while (f : Z -> bool) (s : list Z) : Z :=
  match s with
  | [] => 0
  | b :: s => if f b then 1 + count_while f s else 0
  end.
Fixpoint trailer_fields_from (fuel : nat) (block : list Z) (pos : Z) : list Header :=
  match fuel with
  | O => []
  | S fuel =>
      if zlen block <=? pos then []
      else
        match find_crlf_from block pos with
        | None => []
        | Some eol =>
            if eol =? pos then []
            else
              let line := zslice pos eol block in
              match index_of 58 line with
              | Some colon =>
                  let value := zdrop (Z.of_nat colon + 1) line in
                  let trimmed := zlen value - count_while is_ascii_ws (rev value) in
                  let lead := count_while is_ows value in
                  [(ztake (Z.of_nat colon) line, zslice lead (Z.max trimmed lead) value)]
              | None => []
              end ++ trailer_fields_from fuel block (eol + 2)
        end
  end.
Definition parse_trailer_fields (block : list Z) : list Header :=
  trailer_fields_from (S (length block)) block
    match find_crlf_from block 0 with Some eol => eol + 2 | None => 0 end.

Definition METHODS : list (list Z) :=
  bstr <$> ["GET "; "POST "; "PUT "; "DELETE "; "HEAD "; "OPTIONS "; "PATCH "; "CONNECT "; "TRACE "]%string.
Definition looks_like_head (dir : Dir) (line : list Z) : bool :=
  match dir with
  | Request => existsb (fun m => starts_with m line) METHODS
  | Response => starts_with (bstr "HTTP/1.") line
  end.

Definition H2_PREFACE : list Z :=
  bstr "PRI * HTTP/2.0" ++ [13; 10; 13; 10] ++ bstr "SM" ++ [13; 10; 13; 10].
Module PrefaceMatch.
Inductive t := Yes | Partial | No.
End PrefaceMatch.
Definition preface_match (buf : list Z) : PrefaceMatch.t :=
  let n := Z.min (zlen buf) (zlen H2_PREFACE) in
  if negb (bool_decide (ztake n buf = ztake n H2_PREFACE)) then PrefaceMatch.No
  else if zlen H2_PREFACE <=? zlen buf then PrefaceMatch.Yes else PrefaceMatch.Partial.

(** ** Head parsing *)
Definition Span : Type := Z * Z.
Module Httparse.
Inductive Status := Complete | Partial | Failed.
Record Req := mk_req {
  req_status : Status; req_method : option Span; req_path : option Span; req_version : option Z;
  req_headers : list (Span * Span) }.
Record Resp := mk_resp {
  resp_status : Status; resp_code : option Z; resp_reason : option Span; resp_version : option Z;
  resp_headers : list (Span * Span) }.
(** [httparse::Request::parse], [httparse::Response::parse] with that many header slots. *)
Class Httparse := {
  parse_request : Z -> list Z -> Req;
  parse_response : Z -> list Z -> Resp }.
End Httparse.
Import Httparse.

Inductive HeadError :=
  | IncompleteHead | HttparseFailed | MissingMethod | MissingPath | MissingStatus | MissingVersion
  | UnknownVersion (v : Z).

Module HeadOffsets.
Record t := mk {
  method : Span; path : Span; status : Z; reason : Span; version : HttpVersion;
  headers : list (Span * Span) }.
Definition cut (region : list Z) (s : Span) : list Z :=
  if s.2 =? 0 then [] else zslice s.1 (s.1 + s.2) region.
Definition into_head (o : t) (dir : Dir) (region raw : list Z) : Head.t :=
  Head.mk dir (cut region (method o)) (cut region (path o)) (status o) (cut region (reason o)) (version o)
    ((fun p => (cut region p.1, cut region p.2)) <$> headers o) BodyFraming.None_ false [] raw.
End HeadOffsets.

Definition span_of (base : list Z) (sub : Span) : Span := (Z.min sub.1 (zlen base), sub.2).
Definition version_of (v : option Z) : result HeadError HttpVersion :=
  match v with
  | None => Err MissingVersion
  | Some v => if v =? 0 then Ok Http1_0 else if v =? 1 then Ok Http1_1 else Err (UnknownVersion v)
  end.
Fixpoint header_spans (head : list Z) (hs : list (Span * Span)) : list (Span * Span) :=
  match hs with
  | [] => []
  | h :: hs =>
      if h.1.2 =? 0 then [] else (span_of head h.1, span_of head h.2) :: header_spans head hs
  end.
Definition HEADER_STACK_SLOTS : Z := 64.
Definition slots (max_headers : Z) : Z :=
  if max_headers <=? HEADER_STACK_SLOTS then Z.max max_headers 1 else max_headers.
Definition ok_or {A E} (e : E) (o : option A) : result E A :=
  match o with Some a => Ok a | None => Err e end.
Definition complete (s : Status) : result HeadError unit :=
  match s with Complete => Ok tt | Partial => Err IncompleteHead | Failed => Err HttparseFailed end.

Section engine.
Context `{Httparse}.

Definition parse_head_offsets (head : list Z) (dir : Dir) (max_headers : Z) : result HeadError HeadOffsets.t :=
  match dir with
  | Request =>
      let req := parse_request (slots max_headers) head in
      let? _ := complete (req_status req) in
      let? method := ok_or MissingMethod (req_method req) in
      let? path := ok_or MissingPath (req_path req) in
      let? version := version_of (req_version req) in
      Ok (HeadOffsets.mk (span_of head method) (span_of head path) 0 (0, 0) version
            (header_spans head (req_headers req)))
  | Response =>
      let resp := parse_response (slots max_headers) head in
      let? _ := complete (resp_status resp) in
      let? status := ok_or MissingStatus (resp_code resp) in
      let reason := match resp_reason resp with Some r => r | None => (0, 0) end in
      let? version := version_of (resp_version resp) in
      Ok (HeadOffsets.mk (0, 0) (0, 0) status (if reason.2 =? 0 then (0, 0) else span_of head reason) version
            (header_spans head (resp_headers resp)))
  end.
End engine.

Definition has_token (h : Head.t) (name want : list Z) : bool :=
  existsb (fun v => existsb (fun t => eq_ignore_case t want) (list_items v)) (header_lookup (Head.headers h) name).
Definition signals_close (h : Head.t) : bool :=
  if has_token h (bstr "connection") (bstr "close") then true
  else bool_decide (Head.version h = Http1_0) && negb (has_token h (bstr "connection") (bstr "keep-alive")).

Definition body_state (framing : BodyFraming.t) : DirState.t :=
  match framing with
  | BodyFraming.None_ => Body (Length 0)
  | BodyFraming.ContentLength n => Body (Length n)
  | BodyFraming.Chunked => Body (Chunked Size)
  | BodyFraming.UntilClose => Body UntilClose
  end.

(** ** A direction *)
Module DirMachine.
Record t := mk {
  buf : list Z; state : DirState.t; poison : option HttpPoison.t; close_after_message : bool; scanned : Z }.
#[global] Instance eta : Eta t := mk_eta (fun m =>
  mk (buf m) (state m) (poison m) (close_after_message m) (scanned m)).
Definition new : t := mk [] Head None false 0.
Definition reset (m : t) : t :=
  m <| buf := [] |> <| state := Head |> <| poison := None |> <| close_after_message := false |> <| scanned := 0 |>.
Definition take (m : t) (n : Z) : t * list Z :=
  (m <| scanned ::= fun s => sat_sub s n |> <| buf ::= zdrop n |>, ztake n (buf m)).
(** [Engine::desync]. *)
Definition desync (m : t) (reason : HttpPoison.t) : t * EngineError :=
  (m <| state := Desynced |> <| poison := Some reason |> <| buf := [] |> <| scanned := 0 |>,
   match reason with
   | HeadOverflow | ChunkLineOverflow | TrailerOverflow => BufferOverflow 0
   | other => ParseFailed (as_str other)
   end).
End DirMachine.

Inductive Progress := Event (e : EngineEvent.t) | NeedMore | Again.

(** ** The engine *)
Module Engine.
Record t := mk {
  limits : EngineLimits.t; request : DirMachine.t; response : DirMachine.t; pending : list ReqCtx.t;
  pending_switch : option SwitchKind }.
#[global] Instance eta : Eta t := mk_eta (fun e =>
  mk (limits e) (request e) (response e) (pending e) (pending_switch e)).
Definition new (limits : EngineLimits.t) : t := mk limits DirMachine.new DirMachine.new [] None.
Definition dir (e : t) (d : Dir) : DirMachine.t :=
  match d with Request => request e | Response => response e end.
Definition dir_mut (d : Dir) (f : DirMachine.t -> DirMachine.t) (e : t) : t :=
  match d with Request => e <| request ::= f |> | Response => e <| response ::= f |> end.
Definition set_dir (d : Dir) (m : DirMachine.t) : t -> t := dir_mut d (fun _ => m).
Definition state_of (e : t) (d : Dir) : DirState.t := DirMachine.state (dir e d).

Definition can_consume (e : t) (d : Dir) : bool :=
  match state_of e d with Head | Body _ | Resync => true | _ => false end.
Definition push (e : t) (d : Dir) (bytes : list Z) : t :=
  if is_nil bytes || negb (can_consume e d) then e
  else dir_mut d (fun m => m <| DirMachine.buf ::= fun b => b ++ bytes |>) e.
Definition resync (e : t) (d : Dir) : t :=
  match state_of e d with
  | Tunnel | Closed => e
  | _ =>
      dir_mut d (fun m => m <| DirMachine.buf := [] |> <| DirMachine.scanned := 0 |> <| DirMachine.poison := None |>
        <| DirMachine.close_after_message := false |> <| DirMachine.state := Resync |>) e
  end.

(** The first of [0] and the indices after a line feed where a head may start. *)
Fixpoint head_start (d : Dir) (i : Z) (rest : list Z) : option Z :=
  match rest with
  | [] => None
  | b :: rest =>
      if (b =? 10) && looks_like_head d rest then Some (i + 1) else head_start d (i + 1) rest
  end.
Definition first_head (d : Dir) (buf : list Z) : option Z :=
  if looks_like_head d buf then Some 0 else head_start d 0 buf.
(** [buf.iter().rposition(|b| *b == b'\n').map_or(0, |p| p + 1)]. *)
Definition after_last_lf (buf : list Z) : Z := zlen buf - count_while (fun b => negb (b =? 10)) (rev buf).
Definition find_head (e : t) (d : Dir) : t * bool :=
  let m := dir e d in
  let buf := DirMachine.buf m in
  match first_head d buf with
  | Some i =>
      (set_dir d (m <| DirMachine.buf ::= zdrop i |> <| DirMachine.scanned := 0 |> <| DirMachine.state := Head |>) e, true)
  | None =>
      let rest := zdrop (after_last_lf buf) buf in
      (set_dir d (m <| DirMachine.buf := if 64 <? zlen rest then [] else rest |>) e, false)
  end.

Definition is_desynced (e : t) (d : Dir) : bool := match state_of e d with Desynced => true | _ => false end.
Definition is_closed (e : t) (d : Dir) : bool := match state_of e d with Closed => true | _ => false end.
Definition is_tunnelled (e : t) : bool := match state_of e Request with Tunnel => true | _ => false end.
Definition poison (e : t) (d : Dir) : option HttpPoison.t := DirMachine.poison (dir e d).
Definition buffered (e : t) (d : Dir) : Z := zlen (DirMachine.buf (dir e d)).
Definition reset (e : t) (d : Dir) : t :=
  let e := dir_mut d DirMachine.reset e in
  if bool_decide (d = Request) then e <| pending := [] |> else e.

Definition switch_to_tunnel (e : t) : t :=
  let tunnel m := m <| DirMachine.state := Tunnel |> in
  e <| request ::= tunnel |> <| response ::= tunnel |> <| pending := [] |>.
Definition take_residue (e : t) (d : Dir) : t * list Z :=
  if negb (is_tunnelled e) then (e, [])
  else
    let (m, bytes) := DirMachine.take (dir e d) (buffered e d) in (set_dir d m e, bytes).

Definition fin (e : t) (d : Dir) : t * option EngineEvent.t :=
  let m := dir e d in
  match DirMachine.state m with
  | Body UntilClose =>
      let (m, raw) := DirMachine.take (m <| DirMachine.state := Closed |>) (zlen (DirMachine.buf m)) in
      (set_dir d m e, Some (EngineEvent.Body raw raw))
  | Desynced | Tunnel => (e, None)
  | _ => (set_dir d (m <| DirMachine.state := Closed |>) e, None)
  end.

(** The result of a step: [desync] and return the error, or go on. *)
Definition fail {A} (e : t) (d : Dir) (m : DirMachine.t) (reason : HttpPoison.t) : t * result EngineError A :=
  let (m, err) := DirMachine.desync m reason in (set_dir d m e, Err err).
Definition emit {A} (e : t) (a : A) : t * result EngineError A := (e, Ok a).

Definition mem_status (lo hi s : Z) : bool := (lo <=? s) && (s <=? hi).
Definition finish_response_head (e : t) (head : Head.t) (wants_close : bool)
    : t * result EngineError (option EngineEvent.t) :=
  let status := Head.status head in
  let framed framing interim := head <| Head.framing := framing |> <| Head.interim := interim |> in
  let respond s e := dir_mut Response (fun m => m <| DirMachine.state := s |>) e in
  if status =? 101 then
    let protocol := match header_value (Head.headers head) (bstr "upgrade") with Some v => v | None => [] end in
    let e := respond (Body (Length 0))
      (e <| pending ::= tail |> <| pending_switch := Some (Upgrade protocol) |>) in
    emit e (Some (EngineEvent.Head (framed BodyFraming.None_ false)))
  else if mem_status 100 199 status then
    emit (respond Head e) (Some (EngineEvent.Head (framed BodyFraming.None_ true)))
  else
    let ctx := List.hd_error (pending e) in
    let e := e <| pending ::= tail |> in
    if is_none ctx && negb (bool_decide (EngineLimits.policy (limits e) = Observe))
    then fail e Response (response e) UnexpectedResponse
    else if is_some_and ReqCtx.is_connect ctx && mem_status 200 299 status then
      emit (respond (Body (Length 0)) (e <| pending_switch := Some ConnectTunnel |>))
        (Some (EngineEvent.Head (framed BodyFraming.None_ false)))
    else
      match response_framing status (is_some_and ReqCtx.is_head ctx) (Head.headers head)
              (EngineLimits.policy (limits e)) with
      | Err reason => fail e Response (response e) reason
      | Ok (framing, applied) =>
          let e := dir_mut Response (fun m => m <| DirMachine.close_after_message := wants_close |>
            <| DirMachine.state := body_state framing |>) e in
          emit e (Some (EngineEvent.Head (framed framing false <| Head.applied := applied |>)))
      end.

Section poll.
Context `{Httparse}.

Definition poll_head (e : t) (d : Dir) : t * result EngineError (option EngineEvent.t) :=
  let limits := limits e in
  let m := dir e d in
  match (if bool_decide (d = Request) then preface_match (DirMachine.buf m) else PrefaceMatch.No) with
  | PrefaceMatch.Yes => emit (switch_to_tunnel e) (Some (EngineEvent.Switch Http2PriorKnowledge))
  | PrefaceMatch.Partial => emit e None
  | PrefaceMatch.No =>
      let buf := DirMachine.buf m in
      let (found, scanned) := scan_blank_line buf (DirMachine.scanned m) in
      let m := m <| DirMachine.scanned := scanned |> in
      match found with
      | None =>
          if EngineLimits.max_head_bytes limits <? zlen buf then fail e d m HeadOverflow
          else emit (set_dir d m e) None
      | Some hlen =>
          if EngineLimits.max_head_bytes limits <? hlen then fail e d m HeadOverflow
          else
            match (if bool_decide (EngineLimits.policy limits = Observe) then Ok tt
                   else check_head_bytes (ztake hlen buf)) with
            | Err reason => fail e d m reason
            | Ok _ =>
                match parse_head_offsets (ztake hlen buf) d (EngineLimits.max_headers limits) with
                | Err _ => fail e d m MalformedHead
                | Ok parts =>
                    let (m, raw) := DirMachine.take m hlen in
                    let e := set_dir d m e in
                    let head := HeadOffsets.into_head parts d raw raw in
                    let wants_close := signals_close head in
                    match d with
                    | Request =>
                        match (if bool_decide (EngineLimits.policy limits = Observe) then Ok tt
                               else check_single_host (Head.headers head)) with
                        | Err reason => fail e d m reason
                        | Ok _ =>
                            match request_framing (Head.headers head) (EngineLimits.policy limits) with
                            | Err reason => fail e d m reason
                            | Ok (framing, applied) =>
                                if EngineLimits.max_pipelined limits <=? zlen (pending e)
                                then fail e d m PipelineOverflow
                                else
                                  let ctx := ReqCtx.mk (eq_ignore_case (Head.method head) (bstr "HEAD"))
                                               (eq_ignore_case (Head.method head) (bstr "CONNECT")) in
                                  let head := head <| Head.framing := framing |> <| Head.applied := applied |> in
                                  let m := m <| DirMachine.close_after_message := wants_close |>
                                             <| DirMachine.state := body_state framing |> in
                                  emit (set_dir d m (e <| pending ::= fun p => p ++ [ctx] |>)) (Some (EngineEvent.Head head))
                            end
                        end
                    | Response => finish_response_head e head wants_close
                    end
                end
            end
      end
  end.

Definition poll_chunked (e : t) (d : Dir) (cs : ChunkState.t) : t * result EngineError Progress :=
  let limits := limits e in
  let m := dir e d in
  let buf := DirMachine.buf m in
  match cs with
  | Size =>
      let (found, scanned) := scan_crlf buf (DirMachine.scanned m) in
      let m := m <| DirMachine.scanned := scanned |> in
      match found with
      | None =>
          if EngineLimits.max_chunk_line_bytes limits <? zlen buf then fail e d m ChunkLineOverflow
          else emit (set_dir d m e) NeedMore
      | Some eol =>
          if EngineLimits.max_chunk_line_bytes limits <? eol then fail e d m ChunkLineOverflow
          else
            let line := ztake eol buf in
            let hex := match index_of 59 line with Some n => take n line | None => line end in
            match parse_hex (trim_ascii hex) with
            | None => fail e d m InvalidChunkSize
            | Some size =>
                if size =? 0 then
                  emit (set_dir d (m <| DirMachine.state := Body (Chunked Trailer) |>) e) Again
                else
                  let (m, raw) := DirMachine.take m (eol + 2) in
                  emit (set_dir d (m <| DirMachine.state := Body (Chunked (Data size)) |>) e)
                    (Event (EngineEvent.Body [] raw))
            end
      end
  | Data remaining =>
      let take := Z.min remaining (zlen buf) in
      if take =? 0 then emit e NeedMore
      else
        let (m, raw) := DirMachine.take m take in
        let left_ := remaining - take in
        let m := m <| DirMachine.state := Body (Chunked (if left_ =? 0 then DataCrlf else Data left_)) |> in
        emit (set_dir d m e) (Event (EngineEvent.Body raw raw))
  | DataCrlf =>
      if zlen buf <? 2 then emit e NeedMore
      else if negb (bool_decide (ztake 2 buf = [13; 10])) then fail e d m MalformedChunkTerminator
      else
        let (m, raw) := DirMachine.take m 2 in
        emit (set_dir d (m <| DirMachine.state := Body (Chunked Size) |>) e) (Event (EngineEvent.Body [] raw))
  | Trailer =>
      let (found, scanned) := scan_trailer_end buf in
      let m := m <| DirMachine.scanned := scanned |> in
      match found with
      | None =>
          if EngineLimits.max_trailer_bytes limits <? zlen buf then fail e d m TrailerOverflow
          else emit (set_dir d m e) NeedMore
      | Some end_ =>
          if EngineLimits.max_trailer_bytes limits <? end_ then fail e d m TrailerOverflow
          else
            let (m, raw) := DirMachine.take m end_ in
            emit (set_dir d (m <| DirMachine.state := Body (Length 0) |>) e)
              (Event (EngineEvent.Trailers (parse_trailer_fields raw) raw))
      end
  end.

Definition poll_body (e : t) (d : Dir) (body : BodyState.t) : t * result EngineError Progress :=
  let m := dir e d in
  match body with
  | Length remaining =>
      if remaining =? 0 then
        match pending_switch e with
        | Some kind => emit (switch_to_tunnel (e <| pending_switch := None |>)) (Event (EngineEvent.Switch kind))
        | None =>
            let s := if DirMachine.close_after_message m then Closed else Head in
            emit (set_dir d (m <| DirMachine.state := s |>) e) (Event EngineEvent.End_)
        end
      else
        let take := Z.min remaining (zlen (DirMachine.buf m)) in
        if take =? 0 then emit e NeedMore
        else
          let (m, raw) := DirMachine.take m take in
          emit (set_dir d (m <| DirMachine.state := Body (Length (remaining - take)) |>) e)
            (Event (EngineEvent.Body raw raw))
  | UntilClose =>
      let n := zlen (DirMachine.buf m) in
      if n =? 0 then emit e NeedMore
      else
        let (m, raw) := DirMachine.take m n in
        emit (set_dir d m e) (Event (EngineEvent.Body raw raw))
  | Chunked cs => poll_chunked e d cs
  end.

(** The loop of [poll] goes round at most twice: [poll_eq]. *)
Fixpoint poll_fuel (fuel : nat) (e : t) (d : Dir) : t * result EngineError (option EngineEvent.t) :=
  match fuel with
  | O => emit e None
  | S fuel =>
      match state_of e d with
      | Desynced | Closed | Tunnel => emit e None
      | Resync => let (e, found) := find_head e d in if found then poll_fuel fuel e d else emit e None
      | Head => poll_head e d
      | Body body =>
          match poll_body e d body with
          | (e, Err err) => (e, Err err)
          | (e, Ok (Event ev)) => emit e (Some ev)
          | (e, Ok NeedMore) => emit e None
          | (e, Ok Again) => poll_fuel fuel e d
          end
      end
  end.
Definition poll : t -> Dir -> t * result EngineError (option EngineEvent.t) := poll_fuel 2.
End poll.
End Engine.
