(* ===== verification/Http1Session.v ===== *)
(** * The passive HTTP/1.x front-ends (src/src/http/session.rs, exchange.rs)

    [HttpParser] aggregates the engine's events into one message per
    request or response; [HttpExchangeParser] pairs them.  Both implement
    the session parser's callbacks: what a callback pushes to [out] is the
    list it returns. *)

From S2P Require Import Prelude Time Flow Text ParserKind Parser Http1 Http1Engine.
Import SmugglingPolicy.

Inductive HttpMessage :=
  | MRequest (r : HttpRequest.t)
  | MResponse (r : HttpResponse.t).
Definition to_dir (side : FlowSide) : Dir :=
  match side with Initiator => Request | Responder => Response end.
Definition to_side (d : Dir) : FlowSide :=
  match d with Request => Initiator | Response => Responder end.

Module Partial.
Record t := mk { head : Head.t; body : list Z; overflowed : bool }.
#[global] Instance eta : Eta t := mk_eta (fun p => mk (head p) (body p) (overflowed p)).
(** The [EngineEvent::Body] arm of [absorb]. *)
Definition add (max_buffer : Z) (decoded : list Z) (p : t) : t :=
  if max_buffer <? zlen (body p) + zlen decoded then p <| overflowed := true |> <| body := [] |>
  else if overflowed p then p
  else p <| body ::= fun b => b ++ decoded |>.
Definition finish (p : t) : HttpMessage :=
  let head := head p in
  match Head.dir head with
  | Request =>
      MRequest (HttpRequest.mk (Head.method head) (Head.path head) (Head.version head) (Head.headers head) (body p))
  | Response =>
      MResponse (HttpResponse.mk (Head.status head) (Head.reason head) (Head.version head) (Head.headers head) (body p))
  end.
End Partial.

(** Steps a direction can still make on the bytes it holds; more than any
    loop over [poll] makes: [Http1Facts.poll_progress]. *)
Definition work (e : Engine.t) (d : Dir) : nat :=
  3 * length (DirMachine.buf (Engine.dir e d)) +
  match Engine.state_of e d with
  | DirState.Tunnel | DirState.Closed | DirState.Desynced => 0
  | DirState.Head | DirState.Body (BodyState.Chunked ChunkState.Trailer) => 1
  | _ => 2
  end.

Module HttpParser.
Record t := mk { engine : Engine.t; config : HttpConfig.t; request : option Partial.t; response : option Partial.t }.
#[global] Instance eta : Eta t := mk_eta (fun p => mk (engine p) (config p) (request p) (response p)).

Definition with_config (config : HttpConfig.t) : t :=
  let limits := EngineLimits.default <| EngineLimits.max_head_bytes := HttpConfig.max_buffer config |>
    <| EngineLimits.max_headers := HttpConfig.max_headers config |> <| EngineLimits.policy := Observe |> in
  mk (Engine.new limits) config None None.
Definition default : t := with_config HttpConfig.default.

Definition partial (p : t) (d : Dir) : option Partial.t :=
  match d with Request => request p | Response => response p end.
Definition partial_mut (d : Dir) (f : option Partial.t -> option Partial.t) (p : t) : t :=
  match d with Request => p <| request ::= f |> | Response => p <| response ::= f |> end.

Definition absorb (p : t) (d : Dir) (ev : EngineEvent.t) : t * list HttpMessage :=
  let max_buffer := HttpConfig.max_buffer (config p) in
  match ev with
  | EngineEvent.Head head => (partial_mut d (fun _ => Some (Partial.mk head [] false)) p, [])
  | EngineEvent.Body decoded _ =>
      (partial_mut d (fmap (Partial.add max_buffer decoded)) p, [])
  | EngineEvent.Trailers fields _ =>
      (partial_mut d (fmap (fun q => q <| Partial.head ::= fun h => h <| Head.headers ::= fun hs => hs ++ fields |> |>)) p, [])
  | EngineEvent.End_ =>
      (partial_mut d (fun _ => None) p, match partial p d with Some q => [Partial.finish q] | None => [] end)
  | EngineEvent.Switch _ => (p <| request := None |> <| response := None |>, [])
  end.

Section parser.
Context `{Httparse.Httparse}.

Fixpoint drain_fuel (fuel : nat) (p : t) (d : Dir) : t * list HttpMessage :=
  match fuel with
  | O => (p, [])
  | S fuel =>
      let (e, r) := Engine.poll (engine p) d in
      let p := p <| engine := e |> in
      match r with
      | Ok (Some ev) =>
          let (p, out) := absorb p d ev in
          let (p, out') := drain_fuel fuel p d in (p, out ++ out')
      | Ok None => (p, [])
      | Err _ => (partial_mut d (fun _ => None) p, [])
      end
  end.
Definition drain (p : t) (d : Dir) : t * list HttpMessage := drain_fuel (S (work (engine p) d)) p d.

Definition finish_at_eof (p : t) (d : Dir) : t * list HttpMessage :=
  let (e, ev) := Engine.fin (engine p) d in
  let p := p <| engine := e |> in
  let (p, out) := match ev with Some ev => absorb p d ev | None => (p, []) end in
  (partial_mut d (fun _ => None) p, out ++ match partial p d with Some q => [Partial.finish q] | None => [] end).

Definition feed (p : t) (d : Dir) (bytes : list Z) : t * list HttpMessage :=
  if is_nil bytes then (p, []) else drain (p <| engine ::= fun e => Engine.push e d bytes |>) d.
Definition feed_initiator (p : t) : list Z -> t * list HttpMessage := feed p Request.
Definition feed_responder (p : t) : list Z -> t * list HttpMessage := feed p Response.
Definition fin_initiator (p : t) : t * list HttpMessage := finish_at_eof p Request.
Definition fin_responder (p : t) : t * list HttpMessage := finish_at_eof p Response.
Definition on_gap (p : t) (side : FlowSide) : t * GapResponse :=
  let d := to_dir side in
  if Engine.is_tunnelled (engine p) then (p, StopSide)
  else (partial_mut d (fun _ => None) (p <| engine ::= fun e => Engine.resync e d |>), Continue).
Definition rst (p : t) (d : Dir) : t :=
  partial_mut d (fun _ => None) (p <| engine ::= fun e => Engine.reset e d |>).
Definition rst_initiator (p : t) : t := rst p Request.
Definition rst_responder (p : t) : t := rst p Response.
End parser.
End HttpParser.

(** ** Exchanges *)
Inductive HttpOutcome := Completed | NoResponse | Reset.
#[global] Instance http_outcome_eq_dec : EqDecision HttpOutcome.
Proof. solve_decision. Defined.
Module HttpExchange.
Record t := mk {
  request : HttpRequest.t; response : option HttpResponse.t; elapsed : option Z; request_ts : Timestamp.t;
  response_ts : option Timestamp.t; outcome : HttpOutcome }.
Definition status_class (x : t) : option Z := r ← response x; HttpResponse.status_class r.
Definition is_success (x : t) : bool := bool_decide (status_class x = Some 2).
Definition is_error (x : t) : bool :=
  match status_class x with Some c => (c =? 4) || (c =? 5) | None => false end.
End HttpExchange.

Module HttpExchangeParser.
Record t := mk {
  inner : HttpParser.t; pending : list (HttpRequest.t * Timestamp.t); reset : list (HttpRequest.t * Timestamp.t) }.
#[global] Instance eta : Eta t := mk_eta (fun p => mk (inner p) (pending p) (reset p)).
Definition new : t := mk HttpParser.default [] [].
Definition with_config (config : HttpConfig.t) : t := mk (HttpParser.with_config config) [] [].

(** The requests among the messages, stamped. *)
Definition requests (ts : Timestamp.t) (msgs : list HttpMessage) : list (HttpRequest.t * Timestamp.t) :=
  omap (fun m => match m with MRequest r => Some (r, ts) | MResponse _ => None end) msgs.
(** Each response takes the oldest request; one without a request is dropped. *)
Fixpoint pair_up (ts : option Timestamp.t) (pending : list (HttpRequest.t * Timestamp.t)) (msgs : list HttpMessage)
    : list (HttpRequest.t * Timestamp.t) * list HttpExchange.t :=
  match msgs with
  | [] => (pending, [])
  | MResponse resp :: msgs =>
      match pending with
      | (req, req_ts) :: pending =>
          let x := HttpExchange.mk req (Some resp) ((fun ts => Timestamp.saturating_sub ts req_ts) <$> ts) req_ts ts
                     Completed in
          let (pending, out) := pair_up ts pending msgs in (pending, x :: out)
      | [] => pair_up ts [] msgs
      end
  | MRequest _ :: msgs => pair_up ts pending msgs
  end.
Definition unanswered (o : HttpOutcome) (p : HttpRequest.t * Timestamp.t) : HttpExchange.t :=
  HttpExchange.mk p.1 None None p.2 None o.

Section parser.
Context `{Httparse.Httparse}.
Definition feed_initiator (p : t) (bytes : list Z) (ts : Timestamp.t) : t * list HttpExchange.t :=
  let (i, msgs) := HttpParser.feed_initiator (inner p) bytes in
  (p <| inner := i |> <| pending ::= fun q => q ++ requests ts msgs |>, []).
Definition feed_responder (p : t) (bytes : list Z) (ts : Timestamp.t) : t * list HttpExchange.t :=
  let (i, msgs) := HttpParser.feed_responder (inner p) bytes in
  let (q, out) := pair_up (Some ts) (pending p) msgs in
  (p <| inner := i |> <| pending := q |>, out).
Definition fin_initiator (p : t) : t * list HttpExchange.t :=
  (p <| inner := fst (HttpParser.fin_initiator (inner p)) |>, []).
Definition fin_responder (p : t) : t * list HttpExchange.t :=
  let (i, msgs) := HttpParser.fin_responder (inner p) in
  let (q, out) := pair_up None (pending p) msgs in
  (p <| inner := i |> <| pending := [] |> <| reset := [] |>,
   out ++ (unanswered Reset <$> reset p) ++ (unanswered NoResponse <$> q)).
Definition reset_pending (p : t) : t := p <| reset ::= fun r => r ++ pending p |> <| pending := [] |>.
Definition rst_initiator : t -> t := reset_pending.
Definition rst_responder : t -> t := reset_pending.
Definition on_gap (p : t) : t * GapResponse := (p, Stop).
End parser.
End HttpExchangeParser.
