(* ===== verification/Http1Proxy.v ===== *)
(** * The inline HTTP/1.x front-end (src/src/http/proxy.rs, access.rs)

    [HttpProxyParser] bounds what a direction holds and hands the engine's
    events on; [HttpProxySession] is the same as a session parser;
    [HttpAccessLog] derives records from the events.  Metrics are not
    modelled. *)

From S2P Require Import Prelude Flow Text Http1 Http1Engine Http1Session.

Module HttpEvent.
Inductive t :=
  | RequestHead (h : RequestHead.t)
  | ResponseHead (h : ResponseHead.t)
  | Body (dir : FlowSide) (data raw : list Z)
  | Trailers (dir : FlowSide) (trailers : list Header) (raw : list Z)
  | End_ (dir : FlowSide)
  | SwitchProtocols (kind : SwitchKind).
End HttpEvent.

Definition convert (d : Dir) (ev : EngineEvent.t) : HttpEvent.t :=
  let side := to_side d in
  match ev with
  | EngineEvent.Head h =>
      match d with
      | Request =>
          HttpEvent.RequestHead (RequestHead.mk (Head.method h) (Head.path h) (Head.version h) (Head.headers h)
            (Head.framing h) (Head.applied h) (Head.raw h))
      | Response =>
          HttpEvent.ResponseHead (ResponseHead.mk (Head.status h) (Head.reason h) (Head.version h) (Head.headers h)
            (Head.framing h) (Head.interim h) (Head.applied h) (Head.raw h))
      end
  | EngineEvent.Body decoded raw => HttpEvent.Body side decoded raw
  | EngineEvent.Trailers fields raw => HttpEvent.Trailers side fields raw
  | EngineEvent.End_ => HttpEvent.End_ side
  | EngineEvent.Switch kind => HttpEvent.SwitchProtocols kind
  end.

Module HttpProxyConfig.
Record t := mk {
  max_head_bytes : Z; max_headers : Z; max_chunk_line_bytes : Z; max_trailer_bytes : Z; max_pipelined : Z;
  smuggling : SmugglingPolicy.t; max_buffered_bytes : Z }.
Definition default : t := mk (64 * 1024) 128 256 (8 * 1024) 64 SmugglingPolicy.Strict (256 * 1024).
Definition limits (c : t) : EngineLimits.t :=
  EngineLimits.mk (max_head_bytes c) (max_headers c) (max_chunk_line_bytes c) (max_trailer_bytes c)
    (max_pipelined c) (smuggling c).
End HttpProxyConfig.

Module HttpProxyParser.
Record t := mk { engine : Engine.t; config : HttpProxyConfig.t }.
#[global] Instance eta : Eta t := mk_eta (fun p => mk (engine p) (config p)).
Definition with_config (config : HttpProxyConfig.t) : t := mk (Engine.new (HttpProxyConfig.limits config)) config.
Definition new : t := with_config HttpProxyConfig.default.

Definition is_poisoned (p : t) : bool :=
  Engine.is_desynced (engine p) Request || Engine.is_desynced (engine p) Response.
Definition is_tunnelled (p : t) : bool := Engine.is_tunnelled (engine p).
Definition poison (p : t) : option HttpPoison.t :=
  match Engine.poison (engine p) Request with Some r => Some r | None => Engine.poison (engine p) Response end.
Definition poison_reason (p : t) : option (list Z) := HttpPoison.as_str <$> poison p.
Definition is_done (p : t) : bool :=
  if Engine.is_tunnelled (engine p) then true
  else Engine.is_closed (engine p) Request && Engine.is_closed (engine p) Response.
Definition buffered (p : t) (side : FlowSide) : Z := Engine.buffered (engine p) (to_dir side).

(** The parser and how many bytes were accepted. *)
Definition push (p : t) (side : FlowSide) (data : list Z) : t * Z :=
  if is_poisoned p || Engine.is_tunnelled (engine p) then (p, 0)
  else
    let d := to_dir side in
    let room := sat_sub (HttpProxyConfig.max_buffered_bytes (config p)) (Engine.buffered (engine p) d) in
    let take := Z.min room (zlen data) in
    (if 0 <? take then p <| engine ::= fun e => Engine.push e d (ztake take data) |> else p, take).
Definition fin (p : t) (side : FlowSide) : t := p <| engine ::= fun e => fst (Engine.fin e (to_dir side)) |>.
Definition take_tunnel_residue (p : t) (side : FlowSide) : t * list Z :=
  let (e, bytes) := Engine.take_residue (engine p) (to_dir side) in (p <| engine := e |>, bytes).

Section parser.
Context `{Httparse.Httparse}.

Fixpoint next_in (dirs : list Dir) (p : t) : t * option HttpEvent.t :=
  match dirs with
  | [] => (p, None)
  | d :: dirs =>
      let (e, r) := Engine.poll (engine p) d in
      let p := p <| engine := e |> in
      match r with
      | Ok (Some ev) => (p, Some (convert d ev))
      | Ok None | Err _ => next_in dirs p
      end
  end.
Definition next_event : t -> t * option HttpEvent.t := next_in [Request; Response].

(** [while let Some(ev) = self.inner.next_event() { out.push(ev) }]. *)
Fixpoint events_fuel (fuel : nat) (p : t) : t * list HttpEvent.t :=
  match fuel with
  | O => (p, [])
  | S fuel =>
      match next_event p with
      | (p, Some ev) => let (p, out) := events_fuel fuel p in (p, ev :: out)
      | (p, None) => (p, [])
      end
  end.
Definition events (p : t) : t * list HttpEvent.t :=
  events_fuel (S (work (engine p) Request + work (engine p) Response)) p.
End parser.
End HttpProxyParser.

Module HttpProxySession.
Record t := mk { inner : HttpProxyParser.t }.
Definition new : t := mk HttpProxyParser.new.
Definition with_config (config : HttpProxyConfig.t) : t := mk (HttpProxyParser.with_config config).
Section session.
Context `{Httparse.Httparse}.

(** Every round but the last accepts at least one byte. *)
Fixpoint feed_fuel (fuel : nat) (p : HttpProxyParser.t) (side : FlowSide) (data : list Z)
    : HttpProxyParser.t * list HttpEvent.t :=
  match fuel with
  | O => (p, [])
  | S fuel =>
      let (p, accepted) := HttpProxyParser.push p side data in
      let (p, out) := HttpProxyParser.events p in
      if (accepted =? 0) || (accepted =? zlen data) then (p, out)
      else let (p, out') := feed_fuel fuel p side (zdrop accepted data) in (p, out ++ out')
  end.
Definition feed (s : t) (side : FlowSide) (bytes : list Z) : t * list HttpEvent.t :=
  if is_nil bytes then (s, [])
  else let (p, out) := feed_fuel (S (length bytes)) (inner s) side bytes in (mk p, out).
Definition feed_initiator (s : t) : list Z -> t * list HttpEvent.t := feed s Initiator.
Definition feed_responder (s : t) : list Z -> t * list HttpEvent.t := feed s Responder.
Definition fin (s : t) (side : FlowSide) : t * list HttpEvent.t :=
  let (p, out) := HttpProxyParser.events (HttpProxyParser.fin (inner s) side) in (mk p, out).
Definition rst (s : t) : t := mk (HttpProxyParser.with_config (HttpProxyParser.config (inner s))).
Definition is_poisoned (s : t) : bool := HttpProxyParser.is_poisoned (inner s).
Definition poison_reason (s : t) : option (list Z) := HttpProxyParser.poison_reason (inner s).
Definition is_done (s : t) : bool := HttpProxyParser.is_done (inner s).
End session.
End HttpProxySession.

(** ** Access log *)
Module HttpAccessOutcome.
Inductive t := Completed | NoResponse | Refused (reason : HttpPoison.t) | Switched.
End HttpAccessOutcome.
Module HttpAccessRecord.
Record t := mk {
  method : list Z; path : list Z; authority : option (list Z); version : HttpVersion; status : option Z;
  request_body_bytes : Z; response_body_bytes : Z; outcome : HttpAccessOutcome.t }.
Definition method_str (r : t) : option (list Z) := from_utf8 (method r).
Definition path_str (r : t) : option (list Z) := from_utf8 (path r).
Definition status_class (r : t) : option Z := s ← status r; status_class_of s.
End HttpAccessRecord.

Module Pending.
Record t := mk {
  method : list Z; path : list Z; authority : option (list Z); version : HttpVersion; body_bytes : Z;
  complete : bool }.
#[global] Instance eta : Eta t := mk_eta (fun p =>
  mk (method p) (path p) (authority p) (version p) (body_bytes p) (complete p)).
Definition of_head (h : RequestHead.t) : t :=
  mk (RequestHead.method h) (RequestHead.path h)
    match RequestHead.authority h with Ok a => Some (Authority.host a) | Err _ => None end
    (RequestHead.version h) 0 false.
(** [iter_mut().find(|p| !p.complete)], updated. *)
Fixpoint update_open (f : t -> t) (l : list t) : list t :=
  match l with
  | [] => []
  | p :: l => if complete p then p :: update_open f l else f p :: l
  end.
Definition update_front (f : t -> t) (l : list t) : list t :=
  match l with [] => [] | p :: l => f p :: l end.
End Pending.

Module HttpAccessLog.
Record t := mk { pending : list Pending.t; response_bytes : Z; status : option Z; switched : bool }.
#[global] Instance eta : Eta t := mk_eta (fun l => mk (pending l) (response_bytes l) (status l) (switched l)).
Definition new : t := mk [] 0 None false.

Definition record (l : t) (p : Pending.t) (outcome : HttpAccessOutcome.t) : HttpAccessRecord.t :=
  let completed := match outcome with HttpAccessOutcome.Completed => true | _ => false end in
  HttpAccessRecord.mk (Pending.method p) (Pending.path p) (Pending.authority p) (Pending.version p)
    (if completed then status l else None) (Pending.body_bytes p) (if completed then response_bytes l else 0) outcome.

Definition count_bytes (l : t) (side : FlowSide) (raw : list Z) : t :=
  match side with
  | Initiator => l <| pending ::= Pending.update_open (fun p => p <| Pending.body_bytes ::= fun n => n + zlen raw |>) |>
  | Responder => l <| response_bytes ::= fun n => n + zlen raw |>
  end.
Definition mark_complete (p : Pending.t) : Pending.t := p <| Pending.complete := true |>.
Definition observe (l : t) (event : HttpEvent.t) : t * list HttpAccessRecord.t :=
  match event with
  | HttpEvent.RequestHead head => (l <| pending ::= fun q => q ++ [Pending.of_head head] |>, [])
  | HttpEvent.ResponseHead head =>
      (if negb (ResponseHead.interim head) then
         l <| response_bytes := 0 |> <| pending ::= Pending.update_front mark_complete |>
           <| status := Some (ResponseHead.status head) |>
       else l, [])
  | HttpEvent.Body side _ raw | HttpEvent.Trailers side _ raw => (count_bytes l side raw, [])
  | HttpEvent.End_ Initiator => (l <| pending ::= Pending.update_open mark_complete |>, [])
  | HttpEvent.End_ Responder =>
      (l <| pending ::= tail |> <| response_bytes := 0 |> <| status := None |>,
       match pending l with p :: _ => [record l p HttpAccessOutcome.Completed] | [] => [] end)
  | HttpEvent.SwitchProtocols _ => (l <| switched := true |>, [])
  end.

Definition finish (l : t) (poison : option HttpPoison.t) : t * list HttpAccessRecord.t :=
  let outcome :=
    match poison with
    | Some reason => HttpAccessOutcome.Refused reason
    | None => if switched l then HttpAccessOutcome.Switched else HttpAccessOutcome.NoResponse
    end in
  (new,
   ((fun p => record l p outcome) <$> pending l)
   ++ if is_nil (pending l) && is_some poison
      then [record l (Pending.mk [] [] None Http1_1 0 true) outcome] else []).
End HttpAccessLog.
