(* ===== verification/Http1Scan.v ===== *)
(** * What the scanners of the HTTP/1.x engine find

    Each finds the first place of its kind, whatever its resume point, and
    bytes that arrive later do not change a place already found. *)

From S2P Require Import Prelude Text Http1 Http1Engine.

(** [n] is the first index from [lo] on, below [hi], where [P] holds. *)
Definition First (P : Z -> bool) (lo hi n : Z) : Prop :=
  lo <= n < hi /\ P n = true /\ forall j, lo <= j < n -> P j = false.

Lemma First_unique P lo hi hi' n n' : First P lo hi n -> First P lo hi' n' -> n = n'.
Proof.
  intros (Q1 & Q2 & Q3) (Q4 & Q5 & Q6).
  destruct (Z.lt_trichotomy n n') as [L|[E|L]]; [|done|].
  - by rewrite Q6 in Q2 by lia.
  - by rewrite Q3 in Q5 by lia.
Qed.
Lemma First_lo P lo lo' hi n :
  lo <= lo' -> (forall j, lo <= j < lo' -> P j = false) -> First P lo hi n <-> First P lo' hi n.
Proof.
  intros L N. split; intros (Q1 & Q2 & Q3); split_and!; try lia; try done.
  - destruct (Z.lt_ge_cases n lo'); [by rewrite N in Q2 by lia|lia].
  - intros j Hj; apply Q3; lia.
  - intros j Hj; destruct (Z.lt_ge_cases j lo'); [apply N|apply Q3]; lia.
Qed.

(** A search that returns the first place, or nothing when there is none. *)
Definition Finds (P : Z -> bool) (lo hi : Z) (r : option Z) : Prop :=
  match r with Some n => First P lo hi n | None => forall j, lo <= j < hi -> P j = false end.
Lemma Finds_unique P lo hi r r' : Finds P lo hi r -> Finds P lo hi r' -> r = r'.
Proof.
  destruct r as [n|], r' as [n'|]; simpl; intros A B; [|exfalso..|done].
  - f_equal. eapply First_unique; eassumption.
  - destruct A as (Q1 & Q2 & _). by rewrite B in Q2 by lia.
  - destruct B as (Q1 & Q2 & _). by rewrite A in Q2 by lia.
Qed.
Lemma Finds_lo P lo lo' hi r :
  lo <= lo' -> (forall j, lo <= j < lo' -> P j = false) -> Finds P lo' hi r -> Finds P lo hi r.
Proof.
  intros L N. destruct r as [n|]; simpl.
  - intros Q. by apply (First_lo P lo lo').
  - intros Q j Hj. destruct (Z.lt_ge_cases j lo'); [apply N|apply Q]; lia.
Qed.
Lemma Finds_more P P' lo hi hi' r n :
  hi <= hi' -> (forall j, lo <= j < hi -> P' j = P j) -> Finds P lo hi (Some n) -> Finds P' lo hi' r -> r = Some n.
Proof.
  intros L N (Q1 & Q2 & Q3) F. apply (Finds_unique P' lo hi'); [done|].
  split_and!; [lia..|by rewrite N by lia|intros j Hj; rewrite N by lia; apply Q3; lia].
Qed.
(** What is found later lies beyond what was searched. *)
Lemma Finds_later P P' lo hi hi' n :
  (forall j, lo <= j < hi -> P' j = P j) -> Finds P lo hi None -> Finds P' lo hi' (Some n) -> hi <= n.
Proof.
  intros N F (Q1 & Q2 & _). destruct (Z.lt_ge_cases n hi); [|lia].
  rewrite N in Q2 by lia. by rewrite F in Q2 by lia.
Qed.

Lemma fmap_pred_inj (a b : option Z) : Z.pred <$> a = Z.pred <$> b -> a = b.
Proof. destruct a, b; intros E; simplify_eq/=; f_equal; lia. Qed.

(** ** Bytes *)
Lemma byte_at_prefix buf b i : i < zlen buf -> byte_at (buf ++ b) i = byte_at buf i.
Proof.
  intros L. unfold byte_at. case_if; [done|].
  apply lookup_app_l. unfold zlen in L. lia.
Qed.
Lemma byte_is_app buf b i v : i < zlen buf -> byte_is (buf ++ b) i v = byte_is buf i v.
Proof. intros L. unfold byte_is. by rewrite byte_at_prefix. Qed.
Lemma byte_is_range buf i v : byte_is buf i v = true -> 0 <= i < zlen buf.
Proof.
  unfold byte_is, byte_at. intros E%bool_decide_eq_true. revert E. case_if; [done|].
  intros Q%lookup_lt_Some. unfold zlen. lia.
Qed.
Lemma byte_at_zdrop buf k i : 0 <= k -> 0 <= i -> byte_at (zdrop k buf) i = byte_at buf (k + i).
Proof.
  intros L1 L2. unfold byte_at.
  case_if; [lia|]. case_if; [lia|]. rewrite lookup_zdrop by done. f_equal. lia.
Qed.
Lemma byte_is_zdrop buf k i v : 0 <= k -> 0 <= i -> byte_is (zdrop k buf) i v = byte_is buf (k + i) v.
Proof. intros L1 L2. unfold byte_is. by rewrite byte_at_zdrop. Qed.

(** ** The blank line *)
Lemma blank_at_app buf b i : i < zlen buf -> blank_at (buf ++ b) i = blank_at buf i.
Proof. intros L. unfold blank_at. by rewrite !byte_is_app by lia. Qed.

Lemma blank_from_finds buf : forall rest i, 0 <= i -> rest = zdrop i buf ->
  Finds (blank_at buf) i (zlen buf) (Z.pred <$> blank_from buf i rest).
Proof.
  induction rest as [|x rest IH]; intros i Hi E; cbn [blank_from].
  - intros j Hj. assert (zlen (zdrop i buf) = 0) by (by rewrite <- E). zlia.
  - assert (Hl : zlen (x :: rest) = zlen (zdrop i buf)) by by rewrite E.
    rewrite zlen_cons, zlen_zdrop in Hl. pose proof (zlen_nonneg rest).
    case_if.
    + simpl. replace (Z.pred (i + 1)) with i by lia. split_and!; [lia..|done|intros; lia].
    + apply (Finds_lo _ _ (i + 1)); [lia| |].
      * intros j Hj. replace j with i by lia. done.
      * apply IH; [lia|]. by rewrite <- (zdrop_zdrop 1 i), <- E by lia.
Qed.
Lemma scan_blank_finds buf s : 0 <= s -> (forall j, 0 <= j < s -> blank_at buf j = false) ->
  Finds (blank_at buf) 0 (zlen buf) (Z.pred <$> fst (scan_blank_line buf s)).
Proof.
  intros L N. unfold scan_blank_line.
  apply (Finds_lo _ _ (sat_sub s 3)); [unfold sat_sub; lia|intros j Hj; apply N; unfold sat_sub in Hj; lia|].
  pose proof (blank_from_finds buf (zdrop (sat_sub s 3) buf) (sat_sub s 3)) as F.
  destruct (blank_from _ _ _); apply F; unfold sat_sub; lia || done.
Qed.
Lemma scan_blank_snd buf s : snd (scan_blank_line buf s) = default (zlen buf) (fst (scan_blank_line buf s)).
Proof. unfold scan_blank_line. by destruct (blank_from _ _ _). Qed.
Lemma scan_blank_resume buf s :
  0 <= s -> (forall j, 0 <= j < s -> blank_at buf j = false) -> scan_blank_line buf s = scan_blank_line buf 0.
Proof.
  intros L N.
  assert (E : fst (scan_blank_line buf s) = fst (scan_blank_line buf 0)).
  { apply fmap_pred_inj.
    eapply Finds_unique; apply scan_blank_finds; auto; lia. }
  apply injective_projections; [done|]. by rewrite !scan_blank_snd, E.
Qed.
Lemma scan_blank_finds0 buf : Finds (blank_at buf) 0 (zlen buf) (Z.pred <$> fst (scan_blank_line buf 0)).
Proof. apply scan_blank_finds; [lia|intros; lia]. Qed.
Lemma scan_blank_range buf n : fst (scan_blank_line buf 0) = Some n -> 2 <= n <= zlen buf.
Proof.
  intros E. pose proof (scan_blank_finds0 buf) as F. rewrite E in F. simpl in F.
  destruct F as (Q1 & Q2 & _). split; [|lia].
  unfold blank_at in Q2. destruct (Z.leb_spec 1 (Z.pred n)); [lia|].
  destruct (Z.leb_spec 3 (Z.pred n)); [lia|]. simpl in Q2. by rewrite andb_false_r in Q2.
Qed.
(** A head found stays found; one found later ends beyond the bytes searched. *)
Lemma scan_blank_app buf b n : fst (scan_blank_line buf 0) = Some n -> fst (scan_blank_line (buf ++ b) 0) = Some n.
Proof.
  intros E. apply fmap_pred_inj.
  pose proof (scan_blank_finds0 buf) as F. rewrite E in F.
  apply (Finds_more (blank_at buf) (blank_at (buf ++ b)) 0 (zlen buf) (zlen (buf ++ b))); [zlia|intros j Hj; apply blank_at_app; lia|exact F|apply scan_blank_finds0].
Qed.
Lemma scan_blank_later buf b n :
  fst (scan_blank_line buf 0) = None -> fst (scan_blank_line (buf ++ b) 0) = Some n -> zlen buf < n.
Proof.
  intros E E'. pose proof (scan_blank_finds0 buf) as F. pose proof (scan_blank_finds0 (buf ++ b)) as F'.
  rewrite E in F. rewrite E' in F'.
  assert (zlen buf <= Z.pred n); [|lia].
  apply (Finds_later (blank_at buf) (blank_at (buf ++ b)) 0 (zlen buf) (zlen (buf ++ b))); [|exact F|exact F']. intros j Hj. apply blank_at_app. lia.
Qed.

(** ** CRLF *)
Definition crlf_at (buf : list Z) (i : Z) : bool := byte_is buf i 13 && byte_is buf (i + 1) 10.
Lemma crlf_at_app buf b i : i + 1 < zlen buf -> crlf_at (buf ++ b) i = crlf_at buf i.
Proof. intros L. unfold crlf_at. by rewrite !byte_is_app by lia. Qed.
Lemma crlf_at_range buf i : crlf_at buf i = true -> 0 <= i /\ i + 1 < zlen buf.
Proof. intros [Q1%byte_is_range Q2%byte_is_range]%andb_prop. lia. Qed.
Lemma byte_is_cons_0 a s v : byte_is (a :: s) 0 v = (a =? v).
Proof. unfold byte_is, byte_at. simpl. destruct (Z.eqb_spec a v); [subst; by rewrite bool_decide_true|]. rewrite bool_decide_false; congruence. Qed.
Lemma byte_is_cons_S a s i v : 0 <= i -> byte_is (a :: s) (i + 1) v = byte_is s i v.
Proof.
  intros L. unfold byte_is, byte_at. destruct (Z.ltb_spec (i + 1) 0), (Z.ltb_spec i 0); [lia..|].
  by replace (Z.to_nat (i + 1)) with (S (Z.to_nat i)) by lia.
Qed.

(** CRLF pairs below [zlen buf - 1], where both bytes are there. *)
Lemma position_crlf_finds s : Finds (crlf_at s) 0 (zlen s - 1) (position_crlf s).
Proof.
  induction s as [|a s IH]; [intros j Hj; unfold zlen in Hj; simpl in Hj; lia|].
  destruct s as [|b s]; [intros j Hj; unfold zlen in Hj; simpl in Hj; lia|].
  change (position_crlf (a :: b :: s)) with
    (if (a =? 13) && (b =? 10) then Some 0 else Z.succ <$> position_crlf (b :: s)).
  assert (E0 : crlf_at (a :: b :: s) 0 = (a =? 13) && (b =? 10)).
  { unfold crlf_at. rewrite byte_is_cons_0, byte_is_cons_S by lia. by rewrite byte_is_cons_0. }
  assert (ES : forall j, 0 <= j -> crlf_at (a :: b :: s) (j + 1) = crlf_at (b :: s) j).
  { intros j Hj. unfold crlf_at. by rewrite !byte_is_cons_S by lia. }
  pose proof (zlen_nonneg s). rewrite !zlen_cons in *.
  destruct (_ && _) eqn:E.
  - split_and!; [lia..|by rewrite E0|intros; lia].
  - destruct (position_crlf (b :: s)) as [n|].
    + destruct IH as (Q1 & Q2 & Q3). simpl. unfold First, Z.succ. split_and!; [lia..|by rewrite ES by lia|].
      intros j Hj. destruct (Z.eq_dec j 0) as [->|]; [by rewrite E0|].
      replace j with (j - 1 + 1) by lia. rewrite ES by lia. apply Q3. lia.
    + intros j Hj. destruct (Z.eq_dec j 0) as [->|]; [by rewrite E0|].
      replace j with (j - 1 + 1) by lia. rewrite ES by lia. apply IH. lia.
Qed.
Lemma crlf_at_zdrop buf k i : 0 <= k -> 0 <= i -> crlf_at (zdrop k buf) i = crlf_at buf (k + i).
Proof. intros L1 L2. unfold crlf_at. rewrite !byte_is_zdrop by lia. by rewrite Z.add_assoc. Qed.
Lemma find_crlf_finds buf from : 0 <= from -> Finds (crlf_at buf) from (zlen buf - 1) (find_crlf_from buf from).
Proof.
  intros L. unfold find_crlf_from. destruct (Z.leb_spec (zlen buf) from); [intros j Hj; lia|].
  pose proof (position_crlf_finds (zdrop from buf)) as F. rewrite zlen_zdrop in F.
  destruct (position_crlf _) as [p|].
  - destruct F as (Q1 & Q2 & Q3). simpl. unfold First. split_and!; [lia..| |].
    + rewrite crlf_at_zdrop in Q2 by lia. by rewrite Z.add_comm.
    + intros j Hj. replace j with (from + (j - from)) by lia. rewrite <- crlf_at_zdrop by lia. apply Q3. lia.
  - intros j Hj. replace j with (from + (j - from)) by lia. rewrite <- crlf_at_zdrop by lia. apply F. lia.
Qed.
Lemma find_crlf_range buf from n : 0 <= from -> find_crlf_from buf from = Some n -> from <= n /\ n + 2 <= zlen buf.
Proof. intros L E. pose proof (find_crlf_finds buf from L) as F. rewrite E in F. destruct F as (Q & _). lia. Qed.
Lemma find_crlf_app buf b from n :
  0 <= from -> find_crlf_from buf from = Some n -> find_crlf_from (buf ++ b) from = Some n.
Proof.
  intros L E. pose proof (find_crlf_finds buf from L) as F. rewrite E in F.
  apply (Finds_more (crlf_at buf) (crlf_at (buf ++ b)) from (zlen buf - 1) (zlen (buf ++ b) - 1)); [zlia|intros j Hj; apply crlf_at_app; lia|exact F|by apply find_crlf_finds].
Qed.
Lemma find_crlf_later buf b from n :
  0 <= from -> find_crlf_from buf from = None -> find_crlf_from (buf ++ b) from = Some n -> zlen buf - 1 <= n.
Proof.
  intros L E E'. pose proof (find_crlf_finds buf from L) as F. pose proof (find_crlf_finds (buf ++ b) from L) as F'.
  rewrite E in F. rewrite E' in F'.
  apply (Finds_later (crlf_at buf) (crlf_at (buf ++ b)) from (zlen buf - 1) (zlen (buf ++ b) - 1)); [|exact F|exact F']. intros j Hj. apply crlf_at_app. lia.
Qed.

Lemma scan_crlf_snd buf s : snd (scan_crlf buf s) = default (zlen buf) (fst (scan_crlf buf s)).
Proof. unfold scan_crlf. by destruct (find_crlf_from _ _). Qed.
Lemma scan_crlf_fst buf : fst (scan_crlf buf 0) = find_crlf_from buf 0.
Proof. unfold scan_crlf, sat_sub. simpl. by destruct (find_crlf_from _ _). Qed.
Lemma scan_crlf_resume buf s :
  0 <= s -> (forall j, 0 <= j < s - 1 -> crlf_at buf j = false) -> scan_crlf buf s = scan_crlf buf 0.
Proof.
  intros L N.
  assert (E : fst (scan_crlf buf s) = fst (scan_crlf buf 0)).
  { rewrite scan_crlf_fst. eapply Finds_unique; [|apply find_crlf_finds; lia].
    apply (Finds_lo _ _ (sat_sub s 1)); [unfold sat_sub; lia|intros j Hj; apply N; unfold sat_sub in Hj; lia|].
    pose proof (find_crlf_finds buf (sat_sub s 1)) as F. unfold scan_crlf.
    destruct (find_crlf_from _ _); apply F; unfold sat_sub; lia. }
  apply injective_projections; [done|]. by rewrite !scan_crlf_snd, E.
Qed.

(** ** The trailer section *)
Lemma trailer_end_range f : forall buf pos n,
  0 <= pos -> trailer_end_from f buf pos = Some n -> pos + 2 <= n <= zlen buf.
Proof.
  induction f as [|f IH]; intros buf pos n L; cbn [trailer_end_from]; [done|].
  destruct (find_crlf_from buf pos) as [eol|] eqn:E; [|done].
  apply find_crlf_range in E; [|done]. case_if.
  - intros [= <-]. lia.
  - intros Q%IH; lia.
Qed.
Lemma trailer_end_app f : forall f' buf b pos n,
  0 <= pos -> (f <= f')%nat -> trailer_end_from f buf pos = Some n -> trailer_end_from f' (buf ++ b) pos = Some n.
Proof.
  induction f as [|f IH]; intros f' buf b pos n L Lf; [done|].
  destruct f' as [|f']; [lia|]. cbn [trailer_end_from].
  destruct (find_crlf_from buf pos) as [eol|] eqn:E; [|done].
  rewrite (find_crlf_app _ _ _ _ L E). apply find_crlf_range in E; [|done].
  case_if; [done|]. apply IH; lia.
Qed.
Lemma trailer_end_back f : forall buf b pos n,
  0 <= pos -> n <= zlen buf -> trailer_end_from f (buf ++ b) pos = Some n -> trailer_end_from f buf pos = Some n.
Proof.
  induction f as [|f IH]; intros buf b pos n L Ln; cbn [trailer_end_from]; [done|].
  destruct (find_crlf_from (buf ++ b) pos) as [eol|] eqn:E; [|done]. intros Q.
  assert (eol + 2 <= n).
  { revert Q. case_if; [intros [= <-]; lia|]. intros Q%trailer_end_range; [lia|].
    apply find_crlf_range in E; lia. }
  assert (E' : find_crlf_from buf pos = Some eol).
  { destruct (find_crlf_from buf pos) as [k|] eqn:E'; [rewrite (find_crlf_app _ _ _ _ L E') in E; congruence|].
    pose proof (find_crlf_later _ _ _ _ L E' E). lia. }
  rewrite E'. apply find_crlf_range in E; [|done]. revert Q. case_if; [done|]. apply IH; lia.
Qed.
Lemma trailer_end_fuel f : forall f' buf pos n,
  0 <= pos -> zlen buf - pos < Z.of_nat f' -> trailer_end_from f buf pos = Some n -> trailer_end_from f' buf pos = Some n.
Proof.
  induction f as [|f IH]; intros f' buf pos n L Lf; [done|]. intros Q.
  pose proof (trailer_end_range _ _ _ _ L Q). destruct f' as [|f']; [lia|]. revert Q. cbn [trailer_end_from].
  destruct (find_crlf_from buf pos) as [eol|] eqn:E; [|done].
  apply find_crlf_range in E; [|done]. case_if; [done|]. apply IH; lia.
Qed.

Lemma scan_trailer_snd buf : snd (scan_trailer_end buf) = if is_some (fst (scan_trailer_end buf)) then 0 else zlen buf.
Proof. unfold scan_trailer_end. repeat case_match; simplify_eq/=; done. Qed.
Lemma scan_trailer_range buf n : fst (scan_trailer_end buf) = Some n -> 4 <= n <= zlen buf.
Proof.
  unfold scan_trailer_end. destruct (find_crlf_from buf 0) as [first|] eqn:E; [|done].
  apply find_crlf_range in E; [|lia]. destruct (trailer_end_from _ _ _) as [k|] eqn:Q; [|done].
  apply trailer_end_range in Q; [|lia]. intros [= <-]. lia.
Qed.
Lemma scan_trailer_app buf b n : fst (scan_trailer_end buf) = Some n -> fst (scan_trailer_end (buf ++ b)) = Some n.
Proof.
  unfold scan_trailer_end. destruct (find_crlf_from buf 0) as [first|] eqn:E; [|done].
  rewrite (find_crlf_app _ _ _ _ (Z.le_refl 0) E). apply find_crlf_range in E; [|lia].
  destruct (trailer_end_from (S (length buf)) _ _) as [k|] eqn:Q; [|done]. intros [= <-].
  erewrite trailer_end_app; [done|lia| |exact Q]. rewrite length_app. lia.
Qed.
Lemma scan_trailer_later buf b n :
  fst (scan_trailer_end buf) = None -> fst (scan_trailer_end (buf ++ b)) = Some n -> zlen buf < n.
Proof.
  unfold scan_trailer_end. destruct (find_crlf_from (buf ++ b) 0) as [first|] eqn:E; [|done].
  destruct (trailer_end_from _ (buf ++ b) _) as [k|] eqn:Q; [|done]. intros N [= <-].
  pose proof (find_crlf_range _ _ _ (Z.le_refl 0) E). pose proof (trailer_end_range _ _ (first + 2) _ ltac:(lia) Q).
  destruct (find_crlf_from buf 0) as [first'|] eqn:E'.
  - rewrite (find_crlf_app _ _ _ _ (Z.le_refl 0) E') in E. simplify_eq.
    destruct (Z.lt_ge_cases (zlen buf) k); [done|].
    apply trailer_end_back in Q; [|lia..].
    apply (trailer_end_fuel _ (S (length buf))) in Q; [by rewrite Q in N|lia|unfold zlen; lia].
  - pose proof (find_crlf_later _ _ _ _ (Z.le_refl 0) E' E). lia.
Qed.

(** ** The HTTP/2 preface *)
Lemma preface_app buf b : preface_match buf <> PrefaceMatch.Partial -> preface_match (buf ++ b) = preface_match buf.
Proof.
  unfold preface_match. set (p := H2_PREFACE). pose proof (zlen_nonneg b). pose proof (zlen_nonneg p).
  assert (E1 : forall n, n <= zlen buf -> ztake n (buf ++ b) = ztake n buf) by (intros; by apply ztake_app_le).
  destruct (bool_decide (ztake _ buf = _)) eqn:E; cbn [negb].
  - destruct (Z.leb_spec (zlen p) (zlen buf)); [|done]. intros _.
    rewrite zlen_app. rewrite Z.min_r in * by lia. rewrite E1 by lia. rewrite E. cbn [negb].
    by destruct (Z.leb_spec (zlen p) (zlen buf + zlen b)); [|lia].
  - intros _. apply bool_decide_eq_false in E. rewrite bool_decide_false; [done|]. intros E'. apply E.
    set (n := Z.min (zlen buf) (zlen p)) in *. set (n' := Z.min (zlen (buf ++ b)) (zlen p)) in *.
    assert (n <= n') by (unfold n, n'; zlia).
    apply (f_equal (ztake n)) in E'. unfold ztake in E'. rewrite !take_take in E'.
    replace (Z.to_nat n `min` Z.to_nat n')%nat with (Z.to_nat n) in E' by lia.
    rewrite <- (E1 n) by (unfold n; lia). done.
Qed.
