(* ===== verification/Http1Facts.v ===== *)
(** * Steps of the HTTP/1.x engine

    The invariant of the engine, what one [poll] consumes and reports, and
    that it makes progress. *)

From S2P Require Import Prelude Flow Text Http1 Http1Engine Http1Scan Http1Session.
Import HttpPoison SmugglingPolicy ChunkState BodyState DirState.
Import Engine.

(** The bytes an event stands for on the wire. *)
Definition raw_of (ev : EngineEvent.t) : list Z :=
  match ev with
  | EngineEvent.Head h => Head.raw h
  | EngineEvent.Body _ raw | EngineEvent.Trailers _ raw => raw
  | EngineEvent.End_ | EngineEvent.Switch _ => []
  end.
(** Bytes that arrive on a direction. *)
Definition ext (d : Dir) (b : list Z) (e : t) : t :=
  dir_mut d (fun m => m <| DirMachine.buf ::= fun x => x ++ b |>) e.

(** ** Directions *)
Lemma dir_dir_mut d f e : dir (dir_mut d f e) d = f (dir e d).
Proof. by destruct d. Qed.
Lemma dir_dir_mut_ne d d' f e : d <> d' -> dir (dir_mut d f e) d' = dir e d'.
Proof. by destruct d, d'. Qed.
Lemma dir_set d m e : dir (set_dir d m e) d = m.
Proof. by destruct d. Qed.
Lemma set_set d m m' e : set_dir d m (set_dir d m' e) = set_dir d m e.
Proof. by destruct d, e. Qed.
Lemma set_self d e : set_dir d (dir e d) e = e.
Proof. by destruct d, e. Qed.
Lemma limits_set d m e : limits (set_dir d m e) = limits e.
Proof. by destruct d. Qed.
Lemma pending_set d m e : pending (set_dir d m e) = pending e.
Proof. by destruct d. Qed.
Lemma switch_set d m e : pending_switch (set_dir d m e) = pending_switch e.
Proof. by destruct d. Qed.
Lemma push_ext e d b : can_consume e d = true -> push e d b = ext d b e.
Proof.
  intros C. unfold push. rewrite C. destruct b; [|done].
  unfold ext. destruct d, e as [? [] [] ? ?]; simpl; unfold_upd; simpl; by rewrite app_nil_r.
Qed.
Lemma push_not e d b : can_consume e d = false -> push e d b = e.
Proof. intros C. unfold push. rewrite C. simpl. by rewrite orb_true_r. Qed.

(** ** The invariant *)

(** The resume point only covers places where nothing ends; counts are [u64]. *)
Definition resumable (m : DirMachine.t) : Prop :=
  match DirMachine.state m with
  | Head => forall j, 0 <= j < DirMachine.scanned m -> blank_at (DirMachine.buf m) j = false
  | Body (Chunked Size) => forall j, 0 <= j < DirMachine.scanned m - 1 -> crlf_at (DirMachine.buf m) j = false
  | Body (Chunked (Data n)) => DirMachine.scanned m = 0 /\ 0 < n <= U64_MAX
  | Body (Length n) => DirMachine.scanned m = 0 /\ 0 <= n <= U64_MAX
  | Body (Chunked Trailer) | Tunnel | Closed => True
  | Desynced => DirMachine.buf m = [] /\ is_some (DirMachine.poison m) = true
  | Body (Chunked DataCrlf) | Body UntilClose | Resync => DirMachine.scanned m = 0
  end.
Definition machine_ok (m : DirMachine.t) : Prop :=
  0 <= DirMachine.scanned m <= zlen (DirMachine.buf m) /\ resumable m.
Definition engine_ok (e : t) : Prop :=
  machine_ok (request e) /\ machine_ok (response e)
  /\ zlen (pending e) <= Z.max 0 (EngineLimits.max_pipelined (limits e)).

Lemma ok_dir e d : engine_ok e -> machine_ok (dir e d).
Proof. by intros (Q1 & Q2 & _); destruct d. Qed.
Lemma ok_set e d m : engine_ok e -> machine_ok m -> engine_ok (set_dir d m e).
Proof. intros (Q1 & Q2 & Q3) Q; destruct d; split_and!; done. Qed.
Lemma ok_mut e d f : engine_ok e -> machine_ok (f (dir e d)) -> engine_ok (dir_mut d f e).
Proof. intros (Q1 & Q2 & Q3) Q; destruct d; split_and!; done. Qed.

Lemma machine_new_ok : machine_ok DirMachine.new.
Proof. split; [done|]. intros j Hj. simpl in Hj. lia. Qed.
Lemma desync_ok m r : machine_ok (fst (DirMachine.desync m r)).
Proof. done. Qed.
Lemma push_ok e d b : engine_ok e -> engine_ok (push e d b).
Proof.
  intros I. destruct (can_consume e d) eqn:C; [|by rewrite push_not].
  rewrite push_ext by done. apply ok_mut; [done|].
  pose proof (ok_dir e d I) as (Q1 & Q2). unfold can_consume, state_of in C.
  destruct (dir e d) as [bf st po cl sc]. unfold machine_ok, resumable in *. unfold_upd. simpl in *.
  split; [zlia|]. destruct st as [|[?|[| | |]|]| | | |]; try done; intros j Hj.
  - rewrite blank_at_app by lia. auto.
  - rewrite crlf_at_app by lia. auto.
Qed.
Lemma reset_ok e d : engine_ok e -> engine_ok (reset e d).
Proof.
  intros (Q1 & Q2 & Q3). unfold reset. pose proof machine_new_ok as (_ & N).
  destruct d; simpl; unfold engine_ok, machine_ok; simpl; split_and!; try done; try apply Q1; try apply Q2.
  rewrite zlen_nil. lia.
Qed.
Lemma resync_ok e d : engine_ok e -> engine_ok (resync e d).
Proof. intros I. unfold resync. by case_match; try done; apply ok_mut. Qed.

(** ** Taking bytes *)
Lemma sat_sub_all a b : a <= b -> sat_sub a b = 0.
Proof. unfold sat_sub. lia. Qed.
Lemma parse_hex_range s n : parse_hex s = Some n -> 0 <= n <= U64_MAX.
Proof.
  assert (G : forall s n v, 0 <= n <= U64_MAX -> hex_digits n s = Some v -> 0 <= v <= U64_MAX).
  { induction s0 as [|d s0 IH]; intros k v Hk; simpl; [by intros [= <-]|].
    destruct (hex_value d) as [h|] eqn:E; [|done]. case_if; [done|]. apply IH.
    unfold hex_value, is_digit in E. repeat case_match; zb; simplify_eq; lia. }
  unfold parse_hex. case_if; [done|].
  assert (0 <= 0 <= U64_MAX) by (unfold U64_MAX; lia).
  repeat case_match; try done; by apply G.
Qed.
Lemma parse_decimal_range s n : parse_decimal s = Some n -> 0 <= n <= U64_MAX.
Proof. unfold parse_decimal. case_if; [done|]. apply parse_digits_range. unfold U64_MAX. lia. Qed.

(** ** Framing *)
Lemma parse_lengths_range observe items ns :
  parse_lengths observe items = Ok ns -> Forall (fun n => 0 <= n <= U64_MAX) ns.
Proof.
  revert ns. induction items as [|t items IH]; intros ns; simpl; [intros [= <-]; constructor|].
  case_if; [apply IH|]. destruct (parse_decimal t) as [n|] eqn:E.
  - apply parse_decimal_range in E. intros (l & Q & [= <-])%rbind_Ok. constructor; [done|]. by apply IH.
  - case_if; [apply IH|done].
Qed.
Lemma resolve_cl_range observe chunked values cl applied n :
  resolve_cl observe chunked values = Ok (cl, applied) -> cl = Some n -> 0 <= n <= U64_MAX.
Proof.
  unfold resolve_cl. intros (ns & Q & R)%rbind_Ok E. apply parse_lengths_range in Q.
  destruct Q as [|k ns Hk _]; [by repeat case_match; simplify_eq|]. by repeat case_match; simplify_eq.
Qed.
Lemma framing_headers_range hs policy te cl applied n :
  framing_headers hs policy = Ok (te, cl, applied) -> cl = Some n -> 0 <= n <= U64_MAX.
Proof.
  unfold framing_headers. intros (c & _ & R)%rbind_Ok E. apply rbind_Ok in R as ([k l] & Q & R).
  apply (resolve_cl_range _ _ _ _ _ n) in Q; [done|]. by repeat case_match; simplify_eq.
Qed.

(** Where a freshly framed body starts: nothing scanned, a [u64] count. *)
Definition framing_ok (f : BodyFraming.t) : Prop :=
  match f with BodyFraming.ContentLength n => 0 < n <= U64_MAX | _ => True end.
Lemma body_state_ok f m :
  framing_ok f -> DirMachine.state m = body_state f -> DirMachine.scanned m = 0 -> machine_ok m.
Proof.
  intros F S E. unfold machine_ok, resumable. rewrite S, E. pose proof (zlen_nonneg (DirMachine.buf m)).
  split; [lia|]. destruct f; simpl in *; try done; try (split; [done|]); try (intros; lia); unfold U64_MAX; lia.
Qed.
Lemma request_framing_ok hs policy f applied : request_framing hs policy = Ok (f, applied) -> framing_ok f.
Proof.
  unfold request_framing. intros ([[te cl] a] & Q & R)%rbind_Ok.
  pose proof (fun n => framing_headers_range _ _ _ _ _ n Q) as G.
  destruct te; [by simplify_eq|]. destruct cl as [n|]; [|by simplify_eq].
  specialize (G n eq_refl). revert R. by case_if; intros [= <- _]; simpl; [|lia].
Qed.
Lemma response_framing_ok status h hs policy f applied :
  response_framing status h hs policy = Ok (f, applied) -> framing_ok f.
Proof.
  unfold response_framing. case_if; [by intros [= <- _]|]. intros ([[te cl] a] & Q & R)%rbind_Ok.
  pose proof (fun n => framing_headers_range _ _ _ _ _ n Q) as G.
  destruct te; [by simplify_eq|]. destruct cl as [n|]; [|by simplify_eq].
  specialize (G n eq_refl). revert R. by case_if; intros [= <- _]; simpl; [|lia].
Qed.

(** ** One poll *)
Section poll.
Context `{Httparse.Httparse}.

Lemma again_trailer e d body e' :
  poll_body e d body = (e', Ok Again) -> state_of e' d = Body (Chunked Trailer).
Proof.
  unfold poll_body, poll_chunked, emit, fail.
  repeat case_match; intros P; simplify_eq/=; unfold state_of; by rewrite dir_set.
Qed.
(** [poll] is its loop: after a resynchronisation, and after the last
    chunk-size line, it goes round again. *)
Theorem poll_eq e d :
  poll e d =
  match state_of e d with
  | Desynced | Closed | Tunnel => emit e None
  | Resync => let (e, found) := find_head e d in if found then poll e d else emit e None
  | Head => poll_head e d
  | Body body =>
      match poll_body e d body with
      | (e, Err err) => (e, Err err)
      | (e, Ok (Event ev)) => emit e (Some ev)
      | (e, Ok NeedMore) => emit e None
      | (e, Ok Again) => poll e d
      end
  end.
Proof.
  unfold poll. cbn [poll_fuel]. destruct (state_of e d) as [|body| | | |] eqn:S; try done.
  - destruct (poll_body e d body) as [e1 [[ev| |]|err]] eqn:P; try done.
    rewrite (again_trailer _ _ _ _ P). cbv iota.
    destruct (poll_body e1 d (Chunked Trailer)) as [e2 [[ev| |]|err]] eqn:P2; try done.
    exfalso. revert P2. unfold poll_body, poll_chunked, emit, fail. repeat case_match; intros P2; simplify_eq/=.
  - destruct (find_head e d) as [e1 []] eqn:F; [|done].
    assert (S1 : state_of e1 d = Head).
    { revert F. unfold find_head. case_match; intros F; simplify_eq/=; unfold state_of; by rewrite dir_set. }
    by rewrite S1.
Qed.

(** What a step does: wait (only the resume point moves), emit an event
    whose bytes leave the buffer, or fail. *)
Definition waits (e : t) (d : Dir) (e' : t) : Prop :=
  exists m, e' = set_dir d m e /\ DirMachine.buf m = DirMachine.buf (dir e d)
  /\ DirMachine.poison m = DirMachine.poison (dir e d) /\ engine_ok e' /\ (work e' d <= work e d)%nat.
Definition emits (e : t) (d : Dir) (e' : t) (ev : EngineEvent.t) : Prop :=
  DirMachine.buf (dir e d) = raw_of ev ++ DirMachine.buf (dir e' d)
  /\ engine_ok e' /\ limits e' = limits e /\ (work e' d < work e d)%nat
  /\ poison e' d = poison e d
  /\ forall d', d' <> d -> dir e' d' = dir e d' \/ dir e' d' = dir e d' <| DirMachine.state := Tunnel |>.
Definition fails (e : t) (d : Dir) (e' : t) (err : EngineError) : Prop :=
  engine_ok e' /\ limits e' = limits e /\ (forall d', d' <> d -> dir e' d' = dir e d')
  /\ exists m reason, DirMachine.desync m reason = (dir e' d, err).
Definition steps (e : t) (d : Dir) (p : t * result EngineError (option EngineEvent.t)) : Prop :=
  match p.2 with
  | Ok None => waits e d p.1
  | Ok (Some ev) => emits e d p.1 ev
  | Err err => fails e d p.1 err
  end.

(** Engines that differ on one direction only, and hold no more requests. *)
Definition near (e : t) (d : Dir) (e1 : t) : Prop :=
  limits e1 = limits e /\ zlen (pending e1) <= Z.max (zlen (pending e)) (EngineLimits.max_pipelined (limits e))
  /\ forall d', d' <> d -> dir e1 d' = dir e d'.
Lemma near_refl e d : near e d e.
Proof. split_and!; [done|lia|done]. Qed.
Lemma near_set e d m : near e d (set_dir d m e).
Proof. split_and!; [apply limits_set|rewrite pending_set; lia|intros; by apply dir_dir_mut_ne]. Qed.
Lemma near_ok e d e1 m : engine_ok e -> near e d e1 -> machine_ok m -> engine_ok (set_dir d m e1).
Proof.
  intros (Q1 & Q2 & Q3) (N1 & N2 & N3) M. unfold engine_ok. rewrite limits_set, pending_set, N1.
  split_and!; [..|lia]; destruct d; simpl; try done.
  - change (machine_ok (dir e1 Request)). by rewrite N3.
  - change (machine_ok (dir e1 Response)). by rewrite N3.
Qed.
Lemma fail_steps e d e1 m reason : engine_ok e -> near e d e1 -> steps e d (fail e1 d m reason).
Proof.
  intros I N. pose proof N as (N1 & N2 & N3). unfold steps, fail. simpl. split_and!.
  - by apply (near_ok e).
  - by rewrite limits_set.
  - intros d' D. unfold set_dir. rewrite dir_dir_mut_ne by done. by apply N3.
  - exists m, reason. by rewrite dir_set.
Qed.
Lemma wait_waits e d s :
  engine_ok e -> machine_ok (dir e d <| DirMachine.scanned := s |>) ->
  waits e d (set_dir d (dir e d <| DirMachine.scanned := s |>) e).
Proof.
  intros I M. eexists. split_and!; [done..|by apply ok_set|]. unfold work, state_of. by rewrite dir_set.
Qed.
Lemma self_waits e d : engine_ok e -> waits e d e.
Proof. intros I. exists (dir e d). by rewrite set_self. Qed.
Lemma switch_ok e : engine_ok e -> engine_ok (switch_to_tunnel e).
Proof.
  intros (Q1 & Q2 & Q3). unfold switch_to_tunnel. split_and!; simpl.
  - split; [apply Q1|done].
  - split; [apply Q2|done].
  - rewrite zlen_nil. lia.
Qed.
Lemma switch_emits e e0 d k :
  engine_ok e0 -> limits e0 = limits e -> request e0 = request e -> response e0 = response e ->
  (state_of e d = Head \/ exists b, state_of e d = Body b) ->
  emits e d (switch_to_tunnel e0) (EngineEvent.Switch k).
Proof.
  intros I L Q1 Q2 S.
  assert (D : forall d', dir (switch_to_tunnel e0) d' = dir e d' <| DirMachine.state := Tunnel |>).
  { intros []; simpl; congruence. }
  split_and!; [by rewrite D|by apply switch_ok|done| |unfold poison; by rewrite D|].
  - unfold work at 1, state_of at 1. rewrite D. simpl. unfold work.
    destruct S as [->|[b ->]]; [lia|]. destruct b as [|[]|]; lia.
  - intros d' _. by right.
Qed.
#[local] Hint Resolve near_refl near_set fail_steps : http1.

(** A direction whose machine moved on, [n] bytes taken. *)
Lemma take_work e d m n :
  1 <= n <= zlen (DirMachine.buf (dir e d)) -> DirMachine.buf m = zdrop n (DirMachine.buf (dir e d)) ->
  (work (set_dir d m e) d < work e d)%nat.
Proof.
  intros L B. unfold work, state_of. rewrite dir_set, B.
  assert (length (zdrop n (DirMachine.buf (dir e d))) + 1 <= length (DirMachine.buf (dir e d)))%nat.
  { pose proof (zlen_zdrop n (DirMachine.buf (dir e d))) as Q. unfold zlen in *. lia. }
  destruct (DirMachine.state m) as [|[?|[]|]| | | |]; lia.
Qed.
Lemma moved_emits e d e1 m n ev :
  engine_ok e -> near e d e1 -> 0 <= n <= zlen (DirMachine.buf (dir e d)) ->
  DirMachine.buf m = zdrop n (DirMachine.buf (dir e d)) -> raw_of ev = ztake n (DirMachine.buf (dir e d)) ->
  machine_ok m -> DirMachine.poison m = poison e d -> (work (set_dir d m e) d < work e d)%nat ->
  emits e d (set_dir d m e1) ev.
Proof.
  intros I N L B R M P W. pose proof N as (N1 & N2 & N3). split_and!.
  - by rewrite R, dir_set, B, ztake_zdrop.
  - by apply (near_ok e).
  - by rewrite limits_set.
  - revert W. unfold work, state_of. by rewrite !dir_set.
  - unfold poison at 1. by rewrite dir_set.
  - intros d' D. left. unfold set_dir. rewrite !dir_dir_mut_ne by done. by rewrite N3.
Qed.
Lemma take_emits e d e1 m n ev :
  engine_ok e -> near e d e1 -> 1 <= n <= zlen (DirMachine.buf (dir e d)) ->
  DirMachine.buf m = zdrop n (DirMachine.buf (dir e d)) -> raw_of ev = ztake n (DirMachine.buf (dir e d)) ->
  DirMachine.poison m = poison e d -> machine_ok m -> emits e d (set_dir d m e1) ev.
Proof. intros I N L B R P M. apply (moved_emits e d e1 m n); try done; [lia|]. by apply (take_work e d m n). Qed.

Lemma zlen_tail {A} (l : list A) : zlen (tail l) <= zlen l.
Proof. destruct l; simpl; zlia. Qed.
Lemma respond_steps e m0 head n close :
  engine_ok e -> 1 <= n <= zlen (DirMachine.buf (response e)) ->
  DirMachine.buf m0 = zdrop n (DirMachine.buf (response e)) -> Head.raw head = ztake n (DirMachine.buf (response e)) ->
  DirMachine.scanned m0 = 0 -> DirMachine.poison m0 = poison e Response ->
  steps e Response (finish_response_head (set_dir Response m0 e) head close).
Proof.
  intros I L B R S P. unfold finish_response_head. set (e1 := set_dir Response m0 e).
  assert (N1 : near e Response e1) by apply near_set.
  assert (N2 : near e Response (e1 <| pending ::= tail |>)).
  { destruct N1 as (Q1 & Q2 & Q3). split_and!; [done| |done]. simpl. pose proof (zlen_tail (pending e)).
    change (pending (set_dir Response m0 e)) with (pending e) in *. simpl in *. lia. }
  assert (G : forall e2 f h m1, near e Response e2 -> framing_ok f -> Head.raw h = Head.raw head ->
    DirMachine.buf m1 = DirMachine.buf m0 -> DirMachine.scanned m1 = 0 -> DirMachine.state m1 = body_state f ->
    DirMachine.poison m1 = DirMachine.poison m0 -> emits e Response (set_dir Response m1 e2) (EngineEvent.Head h)).
  { intros e2 f h m1 N F Rh B1 S1 St P1. apply (take_emits _ _ _ _ n); try done.
    - by rewrite B1.
    - simpl. by rewrite Rh.
    - by rewrite P1.
    - by apply (body_state_ok f). }
  case_match; [|case_match].
  - apply (G (e1 <| pending ::= tail |> <| pending_switch := _ |>) BodyFraming.None_ _
      (m0 <| DirMachine.state := Body (Length 0) |>)); done.
  - apply (take_emits e Response e1 (m0 <| DirMachine.state := Head |>) n); try done.
    split; simpl; [rewrite S; apply conj; [lia|apply zlen_nonneg]|]. intros j Hj. simpl in Hj. lia.
  - destruct (_ && _); [by auto with http1|]. destruct (_ && _).
    + by apply (G (e1 <| pending ::= tail |> <| pending_switch := _ |>) BodyFraming.None_ _
        (m0 <| DirMachine.state := Body (Length 0) |>)).
    + destruct (response_framing _ _ _ _) as [[f applied]|reason] eqn:F; [|by auto with http1].
      apply response_framing_ok in F.
      by apply (G (e1 <| pending ::= tail |>) f _
        (m0 <| DirMachine.close_after_message := close |> <| DirMachine.state := body_state f |>)).
Qed.

Lemma into_head_raw o d region raw : Head.raw (HeadOffsets.into_head o d region raw) = raw.
Proof. done. Qed.
Lemma head_scan e d :
  engine_ok e -> state_of e d = Head ->
  scan_blank_line (DirMachine.buf (dir e d)) (DirMachine.scanned (dir e d)) = scan_blank_line (DirMachine.buf (dir e d)) 0.
Proof.
  intros I S. pose proof (ok_dir e d I) as (Q1 & Q2). unfold resumable in Q2. unfold state_of in S. rewrite S in Q2.
  apply scan_blank_resume; [lia|done].
Qed.
Lemma scanned_all_ok e d :
  engine_ok e -> state_of e d = Head -> fst (scan_blank_line (DirMachine.buf (dir e d)) 0) = None ->
  machine_ok (dir e d <| DirMachine.scanned := zlen (DirMachine.buf (dir e d)) |>).
Proof.
  intros I S F. unfold state_of in S. split; [simpl; pose proof (zlen_nonneg (DirMachine.buf (dir e d))); lia|].
  unfold resumable. simpl. rewrite S. pose proof (scan_blank_finds0 (DirMachine.buf (dir e d))) as G.
  rewrite F in G. exact G.
Qed.

Lemma poll_head_steps e d : engine_ok e -> state_of e d = Head -> steps e d (poll_head e d).
Proof.
  intros I S. unfold poll_head. destruct (if bool_decide _ then _ else _).
  - apply (switch_emits e e); auto.
  - by apply self_waits.
  - rewrite head_scan by done. pose proof (scan_blank_snd (DirMachine.buf (dir e d)) 0) as Sn.
    pose proof (scanned_all_ok e d I S) as A. pose proof (scan_blank_range (DirMachine.buf (dir e d))) as G.
    destruct (scan_blank_line _ _) as [found sc]. simpl in Sn, A, G. subst sc. destruct found as [hlen|]; simpl.
    2:{ case_if; [by auto with http1|]. apply wait_waits; auto. }
    specialize (G hlen eq_refl). case_if; [by auto with http1|].
    destruct (if bool_decide _ then _ else check_head_bytes _); [|by auto with http1].
    destruct (parse_head_offsets _ _ _) as [parts|]; [|by auto with http1].
    set (m := dir e d <| DirMachine.scanned := hlen |> <| DirMachine.scanned ::= _ |> <| DirMachine.buf ::= _ |>).
    assert (Sm : DirMachine.scanned m = 0) by (simpl; by apply sat_sub_all).
    destruct d.
    + destruct (if bool_decide _ then _ else check_single_host _); [|by auto with http1].
      destruct (request_framing _ _) as [[f applied]|reason] eqn:F; [|by auto with http1].
      destruct (Z.leb_spec (EngineLimits.max_pipelined (limits e)) (zlen (pending (set_dir Request m e))));
        [by auto with http1|].
      apply request_framing_ok in F.
      apply (take_emits _ _ _ _ hlen); try done; [|lia|by apply (body_state_ok f)].
      split_and!; [done| |by intros []]. simpl. rewrite zlen_app. change (zlen [_]) with 1.
      change (pending (set_dir Request m e)) with (pending e) in *. lia.
    + apply (respond_steps _ _ _ hlen); try done. simpl in *. lia.
Qed.

(** ** Body steps *)
Definition body_steps (e : t) (d : Dir) (p : t * result EngineError Progress) : Prop :=
  match p.2 with
  | Ok (Event ev) => emits e d p.1 ev
  | Ok NeedMore => waits e d p.1
  | Ok Again =>
      exists s, p.1 = set_dir d (dir e d <| DirMachine.scanned := s |> <| DirMachine.state := Body (Chunked Trailer) |>) e
      /\ 0 <= s <= zlen (DirMachine.buf (dir e d)) /\ state_of e d = Body (Chunked Size)
  | Err err => fails e d p.1 err
  end.
Lemma fail_body_steps e d e1 m reason : engine_ok e -> near e d e1 -> body_steps e d (fail e1 d m reason).
Proof. apply fail_steps. Qed.

Lemma size_scan e d :
  engine_ok e -> state_of e d = Body (Chunked Size) ->
  scan_crlf (DirMachine.buf (dir e d)) (DirMachine.scanned (dir e d)) = scan_crlf (DirMachine.buf (dir e d)) 0.
Proof.
  intros I S. pose proof (ok_dir e d I) as (Q1 & Q2). unfold resumable in Q2. unfold state_of in S. rewrite S in Q2.
  apply scan_crlf_resume; [lia|done].
Qed.
Lemma size_waits e d :
  engine_ok e -> state_of e d = Body (Chunked Size) -> fst (scan_crlf (DirMachine.buf (dir e d)) 0) = None ->
  machine_ok (dir e d <| DirMachine.scanned := zlen (DirMachine.buf (dir e d)) |>).
Proof.
  intros I S F. unfold state_of in S. split; [simpl; pose proof (zlen_nonneg (DirMachine.buf (dir e d))); lia|].
  unfold resumable. simpl. rewrite S. rewrite scan_crlf_fst in F.
  pose proof (find_crlf_finds (DirMachine.buf (dir e d)) 0 (Z.le_refl 0)) as G. rewrite F in G. exact G.
Qed.

Lemma poll_chunked_steps e d cs :
  engine_ok e -> state_of e d = Body (Chunked cs) -> body_steps e d (poll_chunked e d cs).
Proof.
  intros I S. pose proof (ok_dir e d I) as (Q1 & Q2). unfold resumable in Q2.
  unfold poll_chunked. destruct cs as [|remaining| |].
  - rewrite size_scan by done. pose proof (scan_crlf_snd (DirMachine.buf (dir e d)) 0) as Sn.
    pose proof (size_waits e d I S) as A.
    pose proof (find_crlf_range (DirMachine.buf (dir e d)) 0) as G. rewrite <- scan_crlf_fst in G.
    destruct (scan_crlf _ _) as [found sc]. simpl in Sn, A, G. subst sc. destruct found as [eol|]; simpl.
    2:{ case_if; [by apply fail_body_steps; auto with http1|]. apply wait_waits; auto. }
    specialize (G eol (Z.le_refl 0) eq_refl). case_if; [by apply fail_body_steps; auto with http1|].
    destruct (parse_hex _) as [size|] eqn:P; [|by apply fail_body_steps; auto with http1].
    apply parse_hex_range in P. case_if.
    + exists eol. split_and!; [done|lia|lia|done].
    + apply (take_emits _ _ _ _ (eol + 2)); [done|auto with http1|lia|done|done|done|].
      split; simpl; [rewrite sat_sub_all by lia; split; [lia|apply zlen_nonneg]|].
      unfold resumable. simpl. split; [apply sat_sub_all|]; lia.
  - unfold state_of in S. rewrite S in Q2. pose proof (zlen_nonneg (DirMachine.buf (dir e d))).
    case_if; [by apply self_waits|].
    apply (take_emits _ _ _ _ (Z.min remaining (zlen (DirMachine.buf (dir e d))))); [done|auto with http1|lia|done|done|done|].
    destruct Q2 as (Q2 & Q3). split; simpl; [rewrite Q2, sat_sub_all by lia; split; [lia|apply zlen_nonneg]|].
    unfold resumable. simpl. rewrite Q2. case_if; [apply sat_sub_all; lia|]. split; [apply sat_sub_all|]; lia.
  - unfold state_of in S. rewrite S in Q2.
    destruct (Z.ltb_spec (zlen (DirMachine.buf (dir e d))) 2); [by apply self_waits|].
    destruct (bool_decide _); [|by apply fail_body_steps; auto with http1].
    cbn [negb]. apply (take_emits _ _ _ _ 2); [done|auto with http1|lia|done|done|done|].
    split; simpl; [rewrite Q2, sat_sub_all by lia; split; [lia|apply zlen_nonneg]|].
    unfold resumable. simpl. rewrite Q2. intros j Hj. unfold sat_sub in Hj. lia.
  - pose proof (scan_trailer_snd (DirMachine.buf (dir e d))) as Sn.
    pose proof (scan_trailer_range (DirMachine.buf (dir e d))) as G.
    destruct (scan_trailer_end _) as [found sc]. simpl in Sn, G. subst sc. destruct found as [n|]; simpl.
    + specialize (G n eq_refl). case_if; [by apply fail_body_steps; auto with http1|].
      apply (take_emits _ _ _ _ n); [done|auto with http1|lia|done|done|done|].
      split; simpl; [rewrite sat_sub_all by lia; split; [lia|apply zlen_nonneg]|].
      unfold resumable. simpl. split; [apply sat_sub_all; lia|unfold U64_MAX; lia].
    + case_if; [by apply fail_body_steps; auto with http1|]. apply wait_waits; [done|].
      unfold state_of in S. split; [simpl; pose proof (zlen_nonneg (DirMachine.buf (dir e d))); lia|].
      unfold resumable. simpl. by rewrite S.
Qed.

Lemma poll_body_steps e d b : engine_ok e -> state_of e d = Body b -> body_steps e d (poll_body e d b).
Proof.
  intros I S. pose proof (ok_dir e d I) as (Q1 & Q2). pose proof (zlen_nonneg (DirMachine.buf (dir e d))).
  unfold poll_body. destruct b as [remaining|cs|]; [|by apply poll_chunked_steps|].
  - unfold resumable in Q2. pose proof S as S'. unfold state_of in S'. rewrite S' in Q2. destruct Q2 as (Q2 & Q3).
    case_if; [|case_if; [by apply self_waits|]].
    + destruct (pending_switch e) as [k|].
      * change (emits e d (switch_to_tunnel (e <| pending_switch := None |>)) (EngineEvent.Switch k)).
        apply switch_emits; eauto.
      * eapply (moved_emits e d e _ 0); 
          [done|apply near_refl|lia|by rewrite zdrop_0 by lia|by rewrite ztake_0 by lia| |done|].
        -- destruct (DirMachine.close_after_message _); split; simpl; rewrite ?Q2; try lia; [done|].
           intros j Hj. simpl in Hj. lia.
        -- unfold work. rewrite S. unfold state_of. rewrite dir_set. simpl. destruct (DirMachine.close_after_message _); simpl; lia.
    + apply (take_emits _ _ _ _ (Z.min remaining (zlen (DirMachine.buf (dir e d))))); [done|auto with http1|lia|done|done|done|].
      split; simpl; [rewrite Q2, sat_sub_all by lia; split; [lia|apply zlen_nonneg]|].
      unfold resumable. simpl. rewrite Q2. split; [apply sat_sub_all|]; lia.
  - unfold resumable in Q2. unfold state_of in S. rewrite S in Q2. case_if; [by apply self_waits|].
    apply (take_emits _ _ _ _ (zlen (DirMachine.buf (dir e d)))); [done|auto with http1|lia|done|done|done|].
    split; simpl; [rewrite Q2, sat_sub_all by lia; split; [lia|apply zlen_nonneg]|].
    unfold resumable. simpl. rewrite S, Q2. by apply sat_sub_all.
Qed.

(** The last chunk-size line, seen again as a trailer. *)
Definition to_trailer (d : Dir) (s : Z) (e : t) : t :=
  set_dir d (dir e d <| DirMachine.scanned := s |> <| DirMachine.state := Body (Chunked Trailer) |>) e.
Lemma trailer_poll_eq e d : state_of e d = Body (Chunked Trailer) -> poll e d =
  match poll_chunked e d Trailer with
  | (e, Err err) => (e, Err err)
  | (e, Ok (Event ev)) => emit e (Some ev)
  | (e, Ok _) => emit e None
  end.
Proof.
  intros S. rewrite poll_eq, S. cbv iota. change (poll_body e d (Chunked Trailer)) with (poll_chunked e d Trailer).
  destruct (poll_chunked e d Trailer) as [e1 [[ev| |]|err]] eqn:P; try done.
  exfalso. revert P. unfold poll_chunked, emit, fail. repeat case_match; intros P; simplify_eq/=.
Qed.
Lemma trailer_steps e d : engine_ok e -> state_of e d = Body (Chunked Trailer) -> steps e d (poll e d).
Proof.
  intros I S. rewrite trailer_poll_eq by done. pose proof (poll_chunked_steps e d Trailer I S) as G.
  destruct (poll_chunked e d Trailer) as [e1 [[ev| |]|err]]; try exact G.
  destruct G as (s & _ & _ & S'). congruence.
Qed.
Lemma to_trailer_steps e d s :
  engine_ok e -> 0 <= s <= zlen (DirMachine.buf (dir e d)) -> state_of e d = Body (Chunked Size) ->
  steps e d (poll (to_trailer d s e) d).
Proof.
  intros I L S. assert (I1 : engine_ok (to_trailer d s e)) by by apply ok_set.
  assert (S1 : state_of (to_trailer d s e) d = Body (Chunked Trailer)) by (unfold state_of, to_trailer; by rewrite dir_set).
  assert (W : (work (to_trailer d s e) d < work e d)%nat).
  { unfold work. rewrite S, S1. unfold to_trailer. rewrite dir_set. simpl. lia. }
  assert (N : near e d (to_trailer d s e)) by apply near_set. destruct N as (N1 & N2 & N3).
  pose proof (trailer_steps _ _ I1 S1) as G. unfold steps in *.
  destruct (poll (to_trailer d s e) d) as [e1 [[ev|]|err]]; simpl in *.
  - destruct G as (G1 & G2 & G3 & G4 & G5 & G6). unfold to_trailer in G1 at 1. rewrite dir_set in G1. simpl in G1.
    unfold to_trailer, poison in G5. rewrite dir_set in G5.
    split_and!; [done..|congruence|lia|done|]. intros d' D. rewrite <- (N3 d' D). by apply G6.
  - destruct G as (m & -> & G1 & G2 & G3 & G4). exists m. unfold to_trailer in *. rewrite set_set in *.
    rewrite dir_set in G1, G2. simpl in *. split_and!; [done..|]. lia.
  - destruct G as (G1 & G2 & G3 & G4). split_and!; [done|congruence| |done]. intros d' D. by rewrite G3, N3.
Qed.
Theorem poll_steps e d : engine_ok e -> state_of e d <> Resync -> steps e d (poll e d).
Proof.
  intros I R. rewrite poll_eq. destruct (state_of e d) as [|body| | | |] eqn:S; try (by apply self_waits).
  - by apply poll_head_steps.
  - pose proof (poll_body_steps e d body I S) as G.
    destruct (poll_body e d body) as [e1 [[ev| |]|err]]; try exact G.
    destruct G as (s & E & L & S'). simpl in E. subst e1. by apply to_trailer_steps.
  - done.
Qed.

(** ** Resynchronising *)
Lemma zlen_zdrop_le {A} n (l : list A) : zlen (zdrop n l) <= zlen l.
Proof. pose proof (zlen_nonneg l). zlia. Qed.
Lemma length_zdrop_le {A} n (l : list A) : (length (zdrop n l) <= length l)%nat.
Proof. pose proof (zlen_zdrop_le n l). unfold zlen in *. lia. Qed.
Lemma resync_machine_ok (m : DirMachine.t) : DirMachine.state m = Resync -> DirMachine.scanned m = 0 -> machine_ok m.
Proof.
  intros S E. unfold machine_ok, resumable. rewrite S, E. split; [|done]. pose proof (zlen_nonneg (DirMachine.buf m)). lia.
Qed.
Lemma find_head_ok e d :
  engine_ok e -> state_of e d = Resync ->
  engine_ok (fst (find_head e d)) /\ limits (fst (find_head e d)) = limits e
  /\ (work (fst (find_head e d)) d <= work e d)%nat
  /\ state_of (fst (find_head e d)) d = (if snd (find_head e d) then Head else Resync).
Proof.
  intros I S. pose proof (ok_dir e d I) as (Q1 & Q2). unfold resumable in Q2. pose proof S as S'. unfold state_of in S'.
  rewrite S' in Q2. unfold find_head. destruct (first_head d _) as [i|]; cbn [fst snd]; split_and!;
    try apply limits_set; try (unfold state_of; rewrite dir_set; done).
  - apply ok_set; [done|]. split; simpl; [split; [lia|apply zlen_nonneg]|]. intros j Hj. simpl in Hj. lia.
  - unfold work. rewrite S. unfold state_of. rewrite dir_set. simpl.
    pose proof (length_zdrop_le i (DirMachine.buf (dir e d))). lia.
  - apply ok_set; [done|]. by apply resync_machine_ok.
  - unfold work. rewrite S. unfold state_of. rewrite dir_set. simpl. rewrite S'.
    pose proof (length_zdrop_le (after_last_lf (DirMachine.buf (dir e d))) (DirMachine.buf (dir e d))).
    case_if; simpl; lia.
Qed.
(** A poll in any state keeps the invariant, and an event is progress. *)
Theorem poll_progress e d :
  engine_ok e ->
  engine_ok (fst (poll e d)) /\ limits (fst (poll e d)) = limits e
  /\ forall ev, snd (poll e d) = Ok (Some ev) -> (work (fst (poll e d)) d < work e d)%nat.
Proof.
  intros I.
  assert (G : forall e, engine_ok e -> state_of e d <> Resync ->
    engine_ok (fst (poll e d)) /\ limits (fst (poll e d)) = limits e
    /\ forall ev, snd (poll e d) = Ok (Some ev) -> (work (fst (poll e d)) d < work e d)%nat).
  { clear. intros e I R. pose proof (poll_steps e d I R) as S.
    destruct (poll e d) as [e1 [[ev|]|err]]; cbn [fst snd].
    - destruct S as (_ & I1 & L & W & _). split_and!; [done..|]. by intros ev' [= <-].
    - destruct S as (m & E & _ & _ & I1 & _). split_and!; [done| |done]. simpl in E. subst e1. apply limits_set.
    - by destruct S as (I1 & L & _). }
  destruct (state_of e d) eqn:S; try (apply G; [done|by rewrite S]).
  rewrite poll_eq, S. pose proof (find_head_ok e d I S) as (F1 & F2 & F3 & F4).
  destruct (find_head e d) as [e1 found]. cbn [fst snd] in *. destruct found; [|by split_and!].
  destruct (G e1) as (G1 & G2 & G3); [done|by rewrite F4|]. split_and!; [done|congruence|].
  intros ev E. specialize (G3 ev E). lia.
Qed.
End poll.
