(* ===== verification/Http1Chunk.v ===== *)
(** * Bytes that arrive later (src/src/http/engine.rs)

    A step of the engine does not depend on the bytes behind it, except
    for how many body bytes it hands over.  So cutting the stream in other
    places changes neither the messages nor the state they leave. *)

From S2P Require Import Prelude Flow Text Http1 Http1Engine Http1Scan Http1Session Http1Facts.
Import HttpPoison SmugglingPolicy ChunkState BodyState DirState.
Import Engine.

Definition mext (b : list Z) (m : DirMachine.t) : DirMachine.t := m <| DirMachine.buf ::= fun x => x ++ b |>.
Lemma dir_ext d b e : dir (ext d b e) d = mext b (dir e d).
Proof. by destruct d. Qed.
Lemma set_ext d b m e : set_dir d m (ext d b e) = set_dir d m e.
Proof. by destruct d. Qed.
Lemma ext_set d b m e : ext d b (set_dir d m e) = set_dir d (mext b m) e.
Proof. by destruct d. Qed.
Lemma ext_ext d a b e : ext d b (ext d a e) = ext d (a ++ b) e.
Proof. destruct d, e as [l [bq sq pq cq nq] [br sr pr cr nr] p s]; unfold ext; unfold_upd; simpl; unfold_upd; simpl; by rewrite app_assoc. Qed.
Lemma limits_ext d b e : limits (ext d b e) = limits e.
Proof. by destruct d. Qed.
Lemma pending_ext d b e : pending (ext d b e) = pending e.
Proof. by destruct d. Qed.
Lemma switch_ext d b e : pending_switch (ext d b e) = pending_switch e.
Proof. by destruct d. Qed.
Lemma state_ext d b e d' : state_of (ext d b e) d' = state_of e d'.
Proof. by destruct d, d'. Qed.
Lemma tunnel_ext d b e : switch_to_tunnel (ext d b e) = ext d b (switch_to_tunnel e).
Proof. by destruct d. Qed.
Lemma fail_ext {A} e d b m reason : fail (A := A) (ext d b e) d m reason = fail e d m reason.
Proof. unfold fail. simpl. by rewrite set_ext. Qed.
Lemma fail_mext {A} e d b m reason : fail (A := A) e d (mext b m) reason = fail e d m reason.
Proof. done. Qed.
Lemma take_mext b m n :
  0 <= n <= zlen (DirMachine.buf m) ->
  DirMachine.take (mext b m) n = (mext b (fst (DirMachine.take m n)), snd (DirMachine.take m n)).
Proof.
  intros L. unfold DirMachine.take, mext. destruct m as [bf st po cl sc]. unfold_upd. simpl in *.
  by rewrite ztake_app_le, zdrop_app_le by lia.
Qed.
Lemma scanned_mext b m s : mext b m <| DirMachine.scanned := s |> = mext b (m <| DirMachine.scanned := s |>).
Proof. done. Qed.

Section chunk.
Context `{Httparse.Httparse}.

Lemma ok_ext e d b : engine_ok e -> can_consume e d = true -> engine_ok (ext d b e).
Proof. intros I C. rewrite <- push_ext by done. by apply push_ok. Qed.

Lemma finish_response_ext e b head close :
  finish_response_head (ext Response b e) head close =
  match finish_response_head e head close with
  | (e', Ok a) => (ext Response b e', Ok a)
  | (e', Err err) => (e', Err err)
  end.
Proof.
  unfold finish_response_head, emit. case_match; [done|]. case_match; [done|].
  rewrite pending_ext. change (limits (ext Response b e <| pending ::= tail |>)) with (limits e).
  change (limits (ext Response b e <| pending ::= tail |> <| pending_switch := _ |>)) with (limits e).
  simpl. repeat case_match; done.
Qed.
Lemma fail_set {A} e d b m m' reason : fail (A := A) (set_dir d m' e) d (mext b m) reason = fail (set_dir d m' e) d m reason.
Proof. done. Qed.

Lemma poll_head_ext e d b :
  engine_ok e -> state_of e d = Head ->
  match poll_head e d with
  | (e', Ok (Some ev)) => poll_head (ext d b e) d = (ext d b e', Ok (Some ev))
  | (e', Ok None) => True
  | (e', Err err) => poll_head (ext d b e) d = (e', Err err)
  end.
Proof.
  intros I S.
  assert (I' : engine_ok (ext d b e)) by (apply ok_ext; [done|unfold can_consume; by rewrite S]).
  assert (S' : state_of (ext d b e) d = Head) by by rewrite state_ext.
  pose proof (head_scan _ d I' S') as Sc. unfold poll_head. rewrite Sc, head_scan by done. clear Sc.
  rewrite dir_ext, limits_ext. set (m := dir e d).
  change (DirMachine.buf (mext b m)) with (DirMachine.buf m ++ b).
  assert (P : (if bool_decide (d = Request) then preface_match (DirMachine.buf m) else PrefaceMatch.No) <> PrefaceMatch.Partial ->
    (if bool_decide (d = Request) then preface_match (DirMachine.buf m ++ b) else PrefaceMatch.No)
    = (if bool_decide (d = Request) then preface_match (DirMachine.buf m) else PrefaceMatch.No)).
  { case_match; [apply preface_app|done]. }
  destruct (if bool_decide (d = Request) then preface_match (DirMachine.buf m) else PrefaceMatch.No).
  - rewrite P by done. by rewrite tunnel_ext.
  - done.
  - rewrite P by done. clear P.
    pose proof (scan_blank_app (DirMachine.buf m) b) as A. pose proof (scan_blank_later (DirMachine.buf m) b) as Lt.
    pose proof (scan_blank_snd (DirMachine.buf m) 0) as Sn. pose proof (scan_blank_snd (DirMachine.buf m ++ b) 0) as Sn'.
    pose proof (scan_blank_range (DirMachine.buf m)) as R.
    destruct (scan_blank_line (DirMachine.buf m) 0) as [found sc].
    destruct (scan_blank_line (DirMachine.buf m ++ b) 0) as [found' sc']. cbn [fst snd] in *.
    destruct found as [hlen|].
    2:{ case_if; [|done]. pose proof (zlen_nonneg b). destruct found' as [hlen|]; case_if; try (by rewrite fail_ext).
        - specialize (Lt hlen eq_refl eq_refl). lia.
        - rewrite zlen_app in *. lia. }
    specialize (A hlen eq_refl). specialize (R hlen eq_refl). subst found' sc sc'. cbn [default].
    rewrite scanned_mext. case_if; [by rewrite fail_ext, fail_mext|].
    rewrite ztake_app_le by lia.
    destruct (if bool_decide _ then _ else check_head_bytes _); [|by rewrite fail_ext, fail_mext].
    destruct (parse_head_offsets _ _ _) as [parts|]; [|by rewrite fail_ext, fail_mext].
    rewrite take_mext by (simpl; lia).
    destruct (DirMachine.take _ hlen) as [m1 raw]. cbn [fst snd]. rewrite set_ext, <- ext_set.
    destruct d.
    + destruct (if bool_decide _ then _ else check_single_host _); [|by rewrite fail_ext, fail_mext].
      destruct (request_framing _ _) as [[f applied]|reason] eqn:F; [|by rewrite fail_ext, fail_mext].
      rewrite pending_ext. case_if; [by rewrite fail_ext, fail_mext|]. done.
    + rewrite finish_response_ext. by destruct (finish_response_head _ _ _) as [e1 [[|]|]].
Qed.

(** Waiting again, with more bytes, is the same as having waited. *)
Definition rescanned (d : Dir) (s : Z) (e : t) : t := set_dir d (dir e d <| DirMachine.scanned := s |>) e.
Lemma ext_rescanned d b s e : ext d b (rescanned d s e) = rescanned d s (ext d b e).
Proof. by destruct d, e. Qed.
Lemma fail_rescanned {A} d s e m reason : fail (A := A) (rescanned d s e) d m reason = fail e d m reason.
Proof. unfold fail, rescanned. simpl. by rewrite set_set. Qed.

Lemma poll_head_waits e d e' :
  engine_ok e -> state_of e d = Head -> poll_head e d = (e', Ok None) ->
  e' = e \/ e' = rescanned d (zlen (DirMachine.buf (dir e d))) e /\
             (if bool_decide (d = Request) then preface_match (DirMachine.buf (dir e d)) else PrefaceMatch.No) = PrefaceMatch.No.
Proof.
  intros I S. unfold poll_head. destruct (if bool_decide (d = Request) then preface_match _ else _); [done|by intros [= <-]; left|].
  rewrite head_scan by done. pose proof (scan_blank_snd (DirMachine.buf (dir e d)) 0) as Sn.
  destruct (scan_blank_line _ _) as [[hlen|] sc]; cbn [fst snd default] in Sn; subst sc.
  - unfold finish_response_head, fail, emit. intros Q. exfalso. repeat case_match; simplify_eq/=.
  - case_if; [done|]. intros [= <-]. by right.
Qed.
Lemma poll_head_rescanned e d s :
  engine_ok e -> engine_ok (rescanned d s e) -> state_of e d = Head ->
  (if bool_decide (d = Request) then preface_match (DirMachine.buf (dir e d)) else PrefaceMatch.No) = PrefaceMatch.No ->
  poll_head (rescanned d s e) d = poll_head e d.
Proof.
  intros I I' S P.
  assert (S' : state_of (rescanned d s e) d = Head) by (unfold state_of, rescanned; by rewrite dir_set).
  pose proof (head_scan _ d I' S') as Sc. unfold poll_head. rewrite Sc, head_scan by done. clear Sc.
  assert (D : dir (rescanned d s e) d = dir e d <| DirMachine.scanned := s |>) by apply dir_set.
  rewrite D. change (DirMachine.buf (dir e d <| DirMachine.scanned := s |>)) with (DirMachine.buf (dir e d)).
  rewrite P. assert (L : limits (rescanned d s e) = limits e) by apply limits_set. rewrite L.
  destruct (scan_blank_line _ _) as [found sc].
  change (dir e d <| DirMachine.scanned := s |> <| DirMachine.scanned := sc |>) with (dir e d <| DirMachine.scanned := sc |>).
  assert (G : forall m, set_dir d m (rescanned d s e) = set_dir d m e) by (intros; apply set_set).
  destruct found as [hlen|]; [|by rewrite fail_rescanned, G].
  rewrite !fail_rescanned. case_if; [done|].
  destruct (if bool_decide _ then _ else check_head_bytes _); [|by rewrite ?fail_rescanned].
  destruct (parse_head_offsets _ _ _); [|by rewrite ?fail_rescanned].
  destruct (DirMachine.take _ hlen) as [m1 raw]. by rewrite G.
Qed.

(** A poll that waits, when more bytes arrive. *)
Lemma poll_head_later e d b e' :
  engine_ok e -> state_of e d = Head -> poll_head e d = (e', Ok None) ->
  poll_head (ext d b e') d = poll_head (ext d b e) d /\ state_of e' d = Head.
Proof.
  intros I S Q. pose proof (poll_head_steps e d I S) as W. rewrite Q in W. destruct W as (_ & _ & _ & _ & I' & _).
  destruct (poll_head_waits _ _ _ I S Q) as [->|(-> & P)]; [done|].
  assert (S' : state_of (rescanned d (zlen (DirMachine.buf (dir e d))) e) d = Head)
    by (unfold state_of, rescanned; by rewrite dir_set).
  split; [|done]. rewrite ext_rescanned. apply poll_head_rescanned.
  - apply ok_ext; [done|]. unfold can_consume. by rewrite S.
  - rewrite <- ext_rescanned. apply ok_ext; [done|]. unfold can_consume. by rewrite S'.
  - by rewrite state_ext.
  - rewrite dir_ext. change (DirMachine.buf (mext b (dir e d))) with (DirMachine.buf (dir e d) ++ b).
    destruct (bool_decide _); [|done]. rewrite preface_app; congruence.
Qed.

(** ** Bodies *)

(** All there is, then some of what comes, is some of both. *)
Lemma take_join m b k :
  DirMachine.scanned m = 0 -> 0 <= k <= zlen b ->
  DirMachine.take (mext b (fst (DirMachine.take m (zlen (DirMachine.buf m))))) k
    = (m <| DirMachine.buf := zdrop k b |>, ztake k b)
  /\ DirMachine.take (mext b m) (zlen (DirMachine.buf m) + k)
    = (m <| DirMachine.buf := zdrop k b |>, DirMachine.buf m ++ ztake k b).
Proof.
  destruct m as [bf st po cl sc]. simpl. intros -> L. pose proof (zlen_nonneg bf).
  unfold DirMachine.take, mext. unfold_upd. simpl. rewrite (zdrop_ge (zlen bf) bf) by lia. simpl.
  rewrite (zdrop_app_ge _ bf), (ztake_app_ge _ bf) by lia. replace (zlen bf + k - zlen bf) with k by lia.
  rewrite (sat_sub_all 0 (zlen bf)), sat_sub_all, (sat_sub_all 0) by lia. done.
Qed.
Lemma buf_take_all m : DirMachine.buf (fst (DirMachine.take m (zlen (DirMachine.buf m)))) = [].
Proof. simpl. by rewrite zdrop_ge by lia. Qed.

(** A step that handed over all the body bytes there were. *)
Definition partial_body (e : t) (d : Dir) (body : BodyState.t) (e' : t) (ev : EngineEvent.t) : Prop :=
  exists raw body', ev = EngineEvent.Body raw raw /\ DirMachine.buf (dir e' d) = [] /\ state_of e' d = Body body'
  /\ poll_body e' d body' = (e', Ok NeedMore)
  /\ forall b, b <> [] -> exists e2 y,
       poll_body (ext d b e) d body = (e2, Ok (Event (EngineEvent.Body (raw ++ y) (raw ++ y))))
       /\ poll_body (ext d b e') d body' = (e2, Ok (Event (EngineEvent.Body y y))).

(** The direction hands over [n] bytes and goes on in state [st]. *)
Definition handed (d : Dir) (m : DirMachine.t) (n : Z) (st : DirState.t) (e : t) : t * result EngineError Progress :=
  let (m, raw) := DirMachine.take m n in
  emit (set_dir d (m <| DirMachine.state := st |>) e) (Event (EngineEvent.Body raw raw)).
Lemma handed_partial e d body body' :
  let m := dir e d in
  let n := zlen (DirMachine.buf m) in
  let m' := fst (DirMachine.take m n) <| DirMachine.state := Body body' |> in
  DirMachine.scanned m = 0 -> poll_body e d body = handed d m n (Body body') e ->
  poll_body (set_dir d m' e) d body' = (set_dir d m' e, Ok NeedMore) ->
  (forall b, 0 < zlen b -> exists k st, 0 < k <= zlen b
     /\ poll_body (ext d b e) d body = handed d (mext b m) (n + k) st (ext d b e)
     /\ poll_body (set_dir d (mext b m') e) d body' = handed d (mext b m') k st e) ->
  exists e' ev, poll_body e d body = (e', Ok (Event ev)) /\ partial_body e d body e' ev.
Proof.
  intros m n m' Sc P W J. exists (set_dir d m' e), (EngineEvent.Body (DirMachine.buf m) (DirMachine.buf m)).
  assert (R : ztake n (DirMachine.buf m) = DirMachine.buf m) by (apply ztake_ge; unfold n; lia).
  split; [rewrite P; unfold handed; simpl; by rewrite R|].
  exists (DirMachine.buf m), body'. unfold state_of. rewrite dir_set. split_and!; [done|apply buf_take_all|done|done|].
  intros b Nb%zlen_pos. destruct (J b Nb) as (k & st & L & J1 & J2).
  destruct (take_join m b k Sc ltac:(lia)) as [T1 T2]. fold n in T1, T2. rewrite ext_set, J1, J2. unfold handed. rewrite T2.
  change (DirMachine.take (mext b m') k) with
    (fst (DirMachine.take (mext b (fst (DirMachine.take m n))) k) <| DirMachine.state := Body body' |>,
     snd (DirMachine.take (mext b (fst (DirMachine.take m n))) k)).
  rewrite T1. cbn [fst snd]. rewrite set_ext. do 2 eexists. done.
Qed.
Lemma buf_all m st : DirMachine.buf (fst (DirMachine.take m (zlen (DirMachine.buf m))) <| DirMachine.state := st |>) = [].
Proof. apply buf_take_all. Qed.
Lemma buf_mext m b : DirMachine.buf (mext b m) = DirMachine.buf m ++ b.
Proof. done. Qed.
Lemma buf_mext_all m st b :
  DirMachine.buf (mext b (fst (DirMachine.take m (zlen (DirMachine.buf m))) <| DirMachine.state := st |>)) = b.
Proof. by rewrite buf_mext, buf_all. Qed.
Ltac eqbs := repeat match goal with |- context [Z.eqb ?x 0] => rewrite (proj2 (Z.eqb_neq x 0)) by lia end.

Lemma length_partial e d r :
  DirMachine.scanned (dir e d) = 0 -> 0 < zlen (DirMachine.buf (dir e d)) < r ->
  exists e' ev, poll_body e d (Length r) = (e', Ok (Event ev)) /\ partial_body e d (Length r) e' ev.
Proof.
  intros Sc L. apply (handed_partial e d _ (Length (r - zlen (DirMachine.buf (dir e d))))); [done|..].
  - unfold poll_body. rewrite Z.min_r by lia. by eqbs.
  - unfold poll_body. rewrite dir_set, buf_all. rewrite Z.min_r by (change (zlen []) with 0; lia). by eqbs.
  - intros b Lb. set (n := zlen (DirMachine.buf (dir e d))) in *. exists (Z.min (r - n) (zlen b)), (Body (Length (r - n - Z.min (r - n) (zlen b)))).
    split_and!; [lia|lia|..].
    + unfold poll_body. rewrite dir_ext, buf_mext, zlen_app. fold n.
      replace (Z.min r (n + zlen b)) with (n + Z.min (r - n) (zlen b)) by lia. eqbs.
      by replace (r - (n + Z.min (r - n) (zlen b))) with (r - n - Z.min (r - n) (zlen b)) by lia.
    + unfold poll_body. rewrite dir_set, buf_mext_all. eqbs. unfold handed.
      destruct (DirMachine.take _ _). by rewrite set_set.
Qed.
Lemma until_close_partial e d :
  DirMachine.scanned (dir e d) = 0 -> state_of e d = Body UntilClose -> 0 < zlen (DirMachine.buf (dir e d)) ->
  exists e' ev, poll_body e d UntilClose = (e', Ok (Event ev)) /\ partial_body e d UntilClose e' ev.
Proof.
  intros Sc S L.
  assert (G : forall m n b e0, DirMachine.state m = Body UntilClose ->
    handed d (mext b m) n (Body UntilClose) e0 =
    let (m, raw) := DirMachine.take (mext b m) n in emit (set_dir d m e0) (Event (EngineEvent.Body raw raw))).
  { intros [bf st po cl sc] n b e0 St. simpl in St. subst st. done. }
  apply (handed_partial e d _ UntilClose); [done|..].
  - unfold poll_body. eqbs. unfold handed, state_of in *. destruct (dir e d) as [bf st po cl sc]. simpl in *. by subst st.
  - unfold poll_body. by rewrite dir_set, buf_all.
  - intros b Lb. exists (zlen b), (Body UntilClose). split_and!; [lia|lia|..].
    + unfold poll_body. rewrite dir_ext, buf_mext, zlen_app. eqbs. by rewrite G.
    + unfold poll_body. rewrite dir_set, buf_mext_all. eqbs. rewrite G by done.
      destruct (DirMachine.take _ _). by rewrite set_set.
Qed.
Lemma data_partial e d r :
  DirMachine.scanned (dir e d) = 0 -> 0 < zlen (DirMachine.buf (dir e d)) < r ->
  exists e' ev, poll_body e d (Chunked (Data r)) = (e', Ok (Event ev)) /\ partial_body e d (Chunked (Data r)) e' ev.
Proof.
  intros Sc L. apply (handed_partial e d _ (Chunked (Data (r - zlen (DirMachine.buf (dir e d)))))); [done|..].
  - unfold poll_body, poll_chunked. rewrite Z.min_r by lia. by eqbs.
  - unfold poll_body, poll_chunked. rewrite dir_set, buf_all. by rewrite Z.min_r by (change (zlen []) with 0; lia).
  - intros b Lb. set (n := zlen (DirMachine.buf (dir e d))) in *. set (k := Z.min (r - n) (zlen b)).
    exists k, (Body (Chunked (if r - n - k =? 0 then DataCrlf else Data (r - n - k)))).
    split_and!; [lia|lia|..].
    + unfold poll_body, poll_chunked. rewrite dir_ext, buf_mext, zlen_app. fold n.
      replace (Z.min r (n + zlen b)) with (n + k) by lia. rewrite (proj2 (Z.eqb_neq (n + k) 0)) by lia.
      by replace (r - (n + k)) with (r - n - k) by lia.
    + unfold poll_body, poll_chunked. rewrite dir_set, buf_mext_all. fold n. fold k.
      rewrite (proj2 (Z.eqb_neq k 0)) by lia. unfold handed. destruct (DirMachine.take _ _). by rewrite set_set.
Qed.

(** What more bytes leave of a body step. *)
Definition body_fixed (e : t) (d : Dir) (body : BodyState.t) (b : list Z) : Prop :=
  match poll_body e d body with
  | (e', Ok (Event ev)) => poll_body (ext d b e) d body = (ext d b e', Ok (Event ev)) \/ partial_body e d body e' ev
  | (e', Ok Again) => poll_body (ext d b e) d body = (ext d b e', Ok Again)
  | (e', Ok NeedMore) => True
  | (e', Err err) => poll_body (ext d b e) d body = (e', Err err) \/ poison e' d = Some ChunkLineOverflow
  end.
Lemma dir_rescanned d s e : dir (rescanned d s e) d = dir e d <| DirMachine.scanned := s |>.
Proof. apply dir_set. Qed.
Lemma set_rescanned d s m e : set_dir d m (rescanned d s e) = set_dir d m e.
Proof. apply set_set. Qed.
Lemma limits_rescanned d s e : limits (rescanned d s e) = limits e.
Proof. apply limits_set. Qed.
Lemma state_rescanned d s e : state_of (rescanned d s e) d = state_of e d.
Proof. unfold state_of. by rewrite dir_rescanned. Qed.

Lemma poll_size_rescanned e d s :
  engine_ok e -> engine_ok (rescanned d s e) -> state_of e d = Body (Chunked Size) ->
  poll_chunked (rescanned d s e) d Size = poll_chunked e d Size.
Proof.
  intros I I' S. assert (S' : state_of (rescanned d s e) d = Body (Chunked Size)) by by rewrite state_rescanned.
  pose proof (size_scan _ d I' S') as Sc. unfold poll_chunked. rewrite Sc, size_scan by done. clear Sc.
  rewrite dir_rescanned, limits_rescanned.
  change (DirMachine.buf (dir e d <| DirMachine.scanned := s |>)) with (DirMachine.buf (dir e d)).
  destruct (scan_crlf _ _) as [found sc].
  change (dir e d <| DirMachine.scanned := s |> <| DirMachine.scanned := sc |>) with (dir e d <| DirMachine.scanned := sc |>).
  destruct found as [eol|]; rewrite ?fail_rescanned, ?set_rescanned; [|done].
  case_if; [done|]. destruct (parse_hex _); [|done]. case_if; [done|].
  destruct (DirMachine.take _ _). by rewrite set_rescanned.
Qed.
Lemma poll_trailer_rescanned e d s : poll_chunked (rescanned d s e) d Trailer = poll_chunked e d Trailer.
Proof.
  unfold poll_chunked. rewrite dir_rescanned, limits_rescanned.
  change (DirMachine.buf (dir e d <| DirMachine.scanned := s |>)) with (DirMachine.buf (dir e d)).
  destruct (scan_trailer_end _) as [found sc].
  change (dir e d <| DirMachine.scanned := s |> <| DirMachine.scanned := sc |>) with (dir e d <| DirMachine.scanned := sc |>).
  destruct found as [eol|]; rewrite ?fail_rescanned, ?set_rescanned; [|done].
  case_if; [done|]. destruct (DirMachine.take _ _). by rewrite set_rescanned.
Qed.
Lemma poll_body_waits e d body e' :
  poll_body e d body = (e', Ok NeedMore) ->
  e' = e \/ (body = Chunked Size \/ body = Chunked Trailer) /\ exists s, e' = rescanned d s e.
Proof.
  unfold poll_body, poll_chunked, emit, fail. intros Q.
  repeat case_match; simplify_eq/=; try (by left); right; (split; [auto|]); eexists; done.
Qed.
Lemma poll_body_later e d b body e' :
  engine_ok e -> state_of e d = Body body -> poll_body e d body = (e', Ok NeedMore) ->
  poll_body (ext d b e') d body = poll_body (ext d b e) d body /\ state_of e' d = Body body.
Proof.
  intros I S Q. pose proof (poll_body_steps e d body I S) as W. rewrite Q in W. destruct W as (_ & _ & _ & _ & I' & _).
  destruct (poll_body_waits _ _ _ _ Q) as [->|(B & s & ->)]; [done|]. rewrite state_rescanned. split; [|done].
  assert (C : can_consume (rescanned d s e) d = true) by (unfold can_consume; by rewrite state_rescanned, S).
  assert (C' : can_consume e d = true) by (unfold can_consume; by rewrite S).
  rewrite ext_rescanned. destruct B as [->| ->]; unfold poll_body.
  - apply poll_size_rescanned; [by apply ok_ext| |by rewrite state_ext]. rewrite <- ext_rescanned. by apply ok_ext.
  - apply poll_trailer_rescanned.
Qed.

Lemma poll_size_ext e d b :
  engine_ok e -> state_of e d = Body (Chunked Size) -> body_fixed e d (Chunked Size) b.
Proof.
  intros I S.
  assert (I' : engine_ok (ext d b e)) by (apply ok_ext; [done|unfold can_consume; by rewrite S]).
  assert (S' : state_of (ext d b e) d = Body (Chunked Size)) by by rewrite state_ext.
  pose proof (size_scan _ d I' S') as Sc. unfold body_fixed, poll_body, poll_chunked.
  rewrite Sc, size_scan by done. clear Sc. rewrite dir_ext, limits_ext, buf_mext. set (m := dir e d).
  pose proof (scan_crlf_fst (DirMachine.buf m)) as E. pose proof (scan_crlf_fst (DirMachine.buf m ++ b)) as E'.
  pose proof (scan_crlf_snd (DirMachine.buf m) 0) as Sn. pose proof (scan_crlf_snd (DirMachine.buf m ++ b) 0) as Sn'.
  pose proof (fun n => find_crlf_app (DirMachine.buf m) b 0 n (Z.le_refl 0)) as A.
  pose proof (fun n => find_crlf_range (DirMachine.buf m) 0 n (Z.le_refl 0)) as R.
  destruct (scan_crlf (DirMachine.buf m) 0) as [found sc] eqn:F.
  destruct (scan_crlf (DirMachine.buf m ++ b) 0) as [found' sc'] eqn:F'. cbn [fst snd] in *. subst found found' sc sc'.
  destruct (find_crlf_from (DirMachine.buf m) 0) as [eol|] eqn:Q.
  2:{ case_if; [|done]. right. unfold poison. simpl. by rewrite dir_set. }
  rewrite (A eol eq_refl). specialize (R eol eq_refl). cbn [default]. rewrite scanned_mext.
  case_if; [left; by rewrite fail_ext, fail_mext|]. rewrite ztake_app_le by lia.
  destruct (parse_hex _) as [size|]; [|left; by rewrite fail_ext, fail_mext].
  case_if; [unfold emit; by rewrite set_ext, ext_set|].
  rewrite take_mext by (simpl; lia). destruct (DirMachine.take _ _) as [m1 raw]. cbn [fst snd]. left. unfold emit.
  by rewrite set_ext, ext_set.
Qed.
Lemma poll_trailer_ext e d b :
  engine_ok e -> state_of e d = Body (Chunked Trailer) -> body_fixed e d (Chunked Trailer) b.
Proof.
  intros I S. unfold body_fixed, poll_body, poll_chunked. rewrite dir_ext, limits_ext, buf_mext. set (m := dir e d).
  pose proof (scan_trailer_app (DirMachine.buf m) b) as A. pose proof (scan_trailer_range (DirMachine.buf m)) as R.
  pose proof (scan_trailer_later (DirMachine.buf m) b) as Lt.
  pose proof (scan_trailer_snd (DirMachine.buf m)) as Sn. pose proof (scan_trailer_snd (DirMachine.buf m ++ b)) as Sn'.
  pose proof (zlen_nonneg b).
  destruct (scan_trailer_end (DirMachine.buf m)) as [found sc].
  destruct (scan_trailer_end (DirMachine.buf m ++ b)) as [found' sc']. cbn [fst snd] in *. subst sc sc'.
  destruct found as [n|].
  - specialize (A n eq_refl). specialize (R n eq_refl). subst found'. cbn [is_some]. rewrite scanned_mext.
    case_if; [left; by rewrite fail_ext, fail_mext|].
    rewrite take_mext by (simpl; lia). destruct (DirMachine.take _ _) as [m1 raw]. cbn [fst snd]. left. unfold emit.
    by rewrite set_ext, ext_set.
  - case_if; [|done]. left. rewrite scanned_mext, fail_ext, fail_mext. rewrite zlen_app.
    destruct found' as [n|]; case_if; try done; [|lia]. specialize (Lt n eq_refl eq_refl). lia.
Qed.
Lemma poll_body_ext e d b body : engine_ok e -> state_of e d = Body body -> body_fixed e d body b.
Proof.
  intros I S. pose proof (ok_dir e d I) as (_ & Q). unfold resumable in Q. pose proof S as S'. unfold state_of in S'.
  rewrite S' in Q. pose proof (zlen_nonneg (DirMachine.buf (dir e d))) as Ln.
  destruct body as [r|[|r| |]|].
  - destruct Q as (Sc & Q). destruct (Z.eq_dec r 0) as [->|Hr].
    { unfold body_fixed, poll_body. simpl. rewrite switch_ext. destruct (pending_switch e); left; unfold emit.
      - by destruct d.
      - by rewrite set_ext, ext_set, dir_ext. }
    destruct (Z.eq_dec (zlen (DirMachine.buf (dir e d))) 0) as [Z0|].
    { unfold body_fixed, poll_body. rewrite Z0, (proj2 (Z.eqb_neq r 0)) by lia. by rewrite Z.min_r by lia. }
    destruct (Z.lt_ge_cases (zlen (DirMachine.buf (dir e d))) r).
    { destruct (length_partial e d r Sc) as (e' & ev & E & G); [lia|]. unfold body_fixed. rewrite E. by right. }
    unfold body_fixed, poll_body. rewrite dir_ext, buf_mext. rewrite !Z.min_l by zlia. eqbs.
    rewrite take_mext by lia. destruct (DirMachine.take _ _) as [m1 raw]. cbn [fst snd]. left. unfold emit.
    by rewrite set_ext, ext_set.
  - by apply poll_size_ext.
  - destruct Q as (Sc & Q).
    destruct (Z.eq_dec (zlen (DirMachine.buf (dir e d))) 0) as [Z0|].
    { unfold body_fixed, poll_body, poll_chunked. rewrite Z0. by rewrite Z.min_r by lia. }
    destruct (Z.lt_ge_cases (zlen (DirMachine.buf (dir e d))) r).
    { destruct (data_partial e d r Sc) as (e' & ev & E & G); [lia|]. unfold body_fixed. rewrite E. by right. }
    unfold body_fixed, poll_body, poll_chunked. rewrite dir_ext, buf_mext. rewrite !Z.min_l by zlia.
    rewrite (proj2 (Z.eqb_neq r 0)) by lia.
    rewrite take_mext by lia. destruct (DirMachine.take _ _) as [m1 raw]. cbn [fst snd]. left. unfold emit.
    by rewrite set_ext, ext_set.
  - unfold body_fixed, poll_body, poll_chunked. rewrite dir_ext, buf_mext.
    destruct (Z.ltb_spec (zlen (DirMachine.buf (dir e d))) 2); [done|].
    destruct (Z.ltb_spec (zlen (DirMachine.buf (dir e d) ++ b)) 2); [zlia|].
    rewrite ztake_app_le by lia. destruct (negb _); [left; by rewrite fail_ext, fail_mext|].
    rewrite take_mext by lia. destruct (DirMachine.take _ _) as [m1 raw]. cbn [fst snd]. left. unfold emit.
    by rewrite set_ext, ext_set.
  - by apply poll_trailer_ext.
  - destruct (Z.eq_dec (zlen (DirMachine.buf (dir e d))) 0) as [Z0|].
    { unfold body_fixed, poll_body. by rewrite Z0. }
    destruct (until_close_partial e d Q S) as (e' & ev & E & G); [lia|]. unfold body_fixed. rewrite E. by right.
Qed.

(** ** Polls *)
Definition partial_event (e : t) (d : Dir) (e' : t) (ev : EngineEvent.t) : Prop :=
  exists raw, ev = EngineEvent.Body raw raw /\ poll e' d = (e', Ok None) /\ can_consume e' d = true
  /\ forall b, b <> [] -> exists e2 y,
       poll (ext d b e) d = (e2, Ok (Some (EngineEvent.Body (raw ++ y) (raw ++ y))))
       /\ poll (ext d b e') d = (e2, Ok (Some (EngineEvent.Body y y))).
Definition poll_stable (e : t) (d : Dir) (b : list Z) : Prop :=
  match poll e d with
  | (e', Ok (Some ev)) => poll (ext d b e) d = (ext d b e', Ok (Some ev)) \/ partial_event e d e' ev
  | (e', Ok None) =>
      can_consume e d = true -> poll (ext d b e') d = poll (ext d b e) d /\ can_consume e' d = true /\ state_of e' d <> Resync
  | (e', Err err) => poll (ext d b e) d = (e', Err err) \/ poison e' d = Some ChunkLineOverflow
  end.

Lemma poll_body_state e d body : state_of e d = Body body -> poll e d =
  match poll_body e d body with
  | (e, Err err) => (e, Err err)
  | (e, Ok (Event ev)) => emit e (Some ev)
  | (e, Ok NeedMore) => emit e None
  | (e, Ok Again) => poll e d
  end.
Proof. intros S. by rewrite poll_eq, S. Qed.
Lemma partial_body_event e d body e' ev :
  state_of e d = Body body -> partial_body e d body e' ev -> partial_event e d e' ev.
Proof.
  intros S (raw & body' & -> & _ & S' & W & J). exists raw. split_and!; [done| | |].
  - by rewrite (poll_body_state _ _ body'), W.
  - unfold can_consume. by rewrite S'.
  - intros b Nb. destruct (J b Nb) as (e2 & y & J1 & J2). exists e2, y.
    rewrite (poll_body_state _ _ body), (poll_body_state _ _ body') by by rewrite state_ext. by rewrite J1, J2.
Qed.
(** Stability of a poll that takes body steps only. *)
Lemma body_poll_stable e d body b :
  engine_ok e -> state_of e d = Body body -> (forall e', poll_body e d body <> (e', Ok Again)) -> poll_stable e d b.
Proof.
  intros I S N. unfold poll_stable. rewrite (poll_body_state _ _ body S), (poll_body_state (ext d b e) _ body) by by rewrite state_ext.
  pose proof (poll_body_ext e d b body I S) as F. pose proof (fun e' => poll_body_later e d b body e' I S) as W.
  unfold body_fixed in F. destruct (poll_body e d body) as [e1 [[ev| |]|err]].
  - destruct F as [->|F]; [by left|]. right. by apply (partial_body_event _ _ body).
  - intros _. destruct (W e1 eq_refl) as (W1 & S1). rewrite (poll_body_state _ _ body) by by rewrite state_ext.
    rewrite W1. split_and!; [done|unfold can_consume; by rewrite S1|by rewrite S1].
  - by destruct (N e1).
  - destruct F as [->|F]; [by left|by right].
Qed.

Theorem poll_ext e d b : engine_ok e -> state_of e d <> Resync -> poll_stable e d b.
Proof.
  intros I R. destruct (state_of e d) as [|body| | | |] eqn:S; try done.
  - unfold poll_stable. rewrite (poll_eq e), (poll_eq (ext d b e)), state_ext, S.
    pose proof (poll_head_ext e d b I S) as F. pose proof (fun e' => poll_head_later e d b e' I S) as W.
    destruct (poll_head e d) as [e1 [[ev|]|err]]; [by left| |by left].
    intros _. destruct (W e1 eq_refl) as (W1 & S1). rewrite poll_eq, state_ext, S1, W1.
    split_and!; [done|unfold can_consume; by rewrite S1|done].
  - destruct (poll_body e d body) as [e1 [[ev| |]|err]] eqn:P;
      try (by apply (body_poll_stable _ _ body); [..|rewrite P]).
    pose proof (poll_body_ext e d b body I S) as F. unfold body_fixed in F. rewrite P in F.
    pose proof (poll_body_steps e d body I S) as G. rewrite P in G. destruct G as (s & E & L & S1). simpl in E.
    change (set_dir _ _ _) with (to_trailer d s e) in E. subst e1.
    assert (S2 : state_of (to_trailer d s e) d = Body (Chunked Trailer)) by (unfold state_of, to_trailer; by rewrite dir_set).
    assert (I2 : engine_ok (to_trailer d s e)) by by apply ok_set.
    assert (Q : poll_stable (to_trailer d s e) d b).
    { apply (body_poll_stable _ _ (Chunked Trailer)); [done..|].
      intros e' Q. pose proof (poll_body_steps _ _ _ I2 S2) as G. rewrite Q in G. destruct G as (? & _ & _ & G). congruence. }
    assert (E1 : poll e d = poll (to_trailer d s e) d) by by rewrite (poll_body_state _ _ body S), P.
    assert (E2 : poll (ext d b e) d = poll (ext d b (to_trailer d s e)) d).
    { rewrite (poll_body_state (ext d b e) _ body) by by rewrite state_ext. by rewrite F. }
    unfold poll_stable, partial_event in *. rewrite E1.
    destruct (poll (to_trailer d s e) d) as [e2 [[ev|]|err]].
    + destruct Q as [Q|(raw & Q1 & Q2 & Q3 & Q4)]; [left; congruence|right]. exists raw. split_and!; [done..|].
      intros b' Nb. assert (F' : poll (ext d b' e) d = poll (ext d b' (to_trailer d s e)) d).
      { pose proof (poll_body_ext e d b' body I S) as F'. unfold body_fixed in F'. rewrite P in F'.
        rewrite (poll_body_state (ext d b' e) _ body) by by rewrite state_ext. by rewrite F'. }
      rewrite F'. by apply Q4.
    + intros _. rewrite E2. apply Q. unfold can_consume. by rewrite S2.
    + by rewrite E2.
  - unfold poll_stable. rewrite (poll_eq e), S. simpl. unfold can_consume. by rewrite S.
  - unfold poll_stable. rewrite (poll_eq e), S. simpl. unfold can_consume. by rewrite S.
  - unfold poll_stable. rewrite (poll_eq e), S. simpl. unfold can_consume. by rewrite S.
Qed.
End chunk.
