(* ===== verification/Http1Drain.v ===== *)
(** * Draining the HTTP/1.x engine

    The front-ends poll until nothing is ready.  The loop ends, and what it
    reports does not depend on how the bytes were cut. *)

From S2P Require Import Prelude Flow Text Http1 Http1Engine Http1Scan Http1Session Http1Facts Http1Chunk.
Import HttpPoison SmugglingPolicy ChunkState BodyState DirState.
Import Engine.

(** A direction past HTTP: what its buffer holds no longer matters to it. *)
Definition settled (d : Dir) (e : t) : t :=
  if can_consume e d then e
  else dir_mut d (fun m => m <| DirMachine.buf := [] |> <| DirMachine.scanned := 0 |>) e.

(** The same events, one body step cut in two. *)
Inductive Resplit : list EngineEvent.t -> list EngineEvent.t -> Prop :=
  | resplit_refl l : Resplit l l
  | resplit_cons ev l l' : Resplit l l' -> Resplit (ev :: l) (ev :: l')
  | resplit_join x y l :
      Resplit (EngineEvent.Body x x :: EngineEvent.Body y y :: l) (EngineEvent.Body (x ++ y) (x ++ y) :: l).

Section drain.
Context `{Httparse.Httparse}.

(** Polling [d] from [e] reports the events, fails or not, and leaves an engine. *)
Inductive drains (d : Dir) : t -> list EngineEvent.t -> bool -> t -> Prop :=
  | drains_none e e' : poll e d = (e', Ok None) -> drains d e [] false e'
  | drains_err e e' err : poll e d = (e', Err err) -> drains d e [] true e'
  | drains_more e e1 ev evs failed e' :
      poll e d = (e1, Ok (Some ev)) -> drains d e1 evs failed e' -> drains d e (ev :: evs) failed e'.

Lemma drains_det d e evs f e' : drains d e evs f e' ->
  forall evs2 f2 e2, drains d e evs2 f2 e2 -> evs2 = evs /\ f2 = f /\ e2 = e'.
Proof.
  induction 1 as [e e' P|e e' err P|e e1 ev evs f e' P D IH]; intros evs2 f2 e2 D2;
    inversion D2 as [? ? P2|? ? ? P2|? ? ? ? ? ? P2 D3]; subst; rewrite P in P2; simplify_eq; [done..|].
  by apply IH in D3 as (-> & -> & ->).
Qed.
(** Only [resync] leads to [Resync]. *)
Lemma body_state_not_resync f : body_state f <> Resync.
Proof. by destruct f. Qed.
Lemma poll_head_not_resync e d e' r : state_of e d = Head -> poll_head e d = (e', r) -> state_of e' d <> Resync.
Proof.
  intros S. unfold poll_head, finish_response_head, fail, DirMachine.desync, DirMachine.take, emit. pose proof body_state_not_resync as B.
  destruct d; intros P; repeat case_match; simplify_eq/=; unfold state_of in *; simpl in *; congruence || apply B.
Qed.
Lemma poll_body_not_resync e d body e' r :
  state_of e d = Body body -> poll_body e d body = (e', r) -> state_of e' d <> Resync.
Proof.
  intros S. unfold poll_body, poll_chunked, fail, DirMachine.desync, DirMachine.take, emit.
  destruct d; intros P; repeat case_match; simplify_eq/=; unfold state_of in *; simpl in *; repeat case_match; congruence.
Qed.
Lemma poll_not_resync e d e' r : state_of e d <> Resync -> poll e d = (e', r) -> state_of e' d <> Resync.
Proof.
  intros R P. rewrite poll_eq in P. destruct (state_of e d) as [|body| | | |] eqn:S; try (unfold emit in P; congruence).
  - by apply poll_head_not_resync in P.
  - destruct (poll_body e d body) as [e1 [[ev| |]|err]] eqn:Q;
      try (apply (poll_body_not_resync _ _ _ _ _ S) in Q; unfold emit in P; by simplify_eq).
    apply again_trailer in Q. rewrite trailer_poll_eq in P by done.
    destruct (poll_chunked e1 d Trailer) as [e2 [[ev| |]|err]] eqn:Q2;
      apply (poll_body_not_resync _ _ (Chunked Trailer) _ _ Q) in Q2; unfold emit in P; by simplify_eq.
Qed.

(** Draining ends. *)
Lemma drains_total e d : engine_ok e -> exists evs failed e', drains d e evs failed e'.
Proof.
  remember (work e d) as n. revert e Heqn. induction n as [n IH] using lt_wf_ind. intros e -> I.
  pose proof (poll_progress e d I) as (I1 & _ & W). destruct (poll e d) as [e1 [[ev|]|err]] eqn:P; cbn [fst snd] in *.
  - destruct (IH _ (W ev eq_refl) e1 eq_refl I1) as (evs & f & e' & D).
    exists (ev :: evs), f, e'. by eapply drains_more.
  - exists [], false, e1. by apply drains_none.
  - exists [], true, e1. by eapply drains_err.
Qed.
Lemma drains_engine_ok d e evs f e' :
  drains d e evs f e' -> engine_ok e -> engine_ok e' /\ limits e' = limits e /\ (length evs <= work e d)%nat.
Proof.
  induction 1 as [e e' P|e e' err P|e e1 ev evs f e' P D IH]; intros I;
    pose proof (poll_progress e d I) as (I1 & L1 & W); rewrite P in I1, L1, W; cbn [fst snd length] in *.
  - split_and!; [done..|lia].
  - split_and!; [done..|lia].
  - destruct (IH I1) as (I2 & L2 & W2). specialize (W ev eq_refl). split_and!; [done|congruence|lia].
Qed.
Lemma drains_not_resync d e evs f e' :
  drains d e evs f e' -> state_of e d <> Resync -> state_of e' d <> Resync.
Proof.
  induction 1 as [e e' P|e e' err P|e e1 ev evs f e' P D IH]; intros R;
    pose proof (poll_not_resync _ _ _ _ R P); auto.
Qed.

(** A direction that no longer parses reports nothing. *)
Lemma poll_idle e d : can_consume e d = false -> poll e d = (e, Ok None).
Proof. intros C. rewrite poll_eq. unfold can_consume in C. by destruct (state_of e d). Qed.
Lemma drains_idle e d evs f e' : can_consume e d = false -> drains d e evs f e' -> evs = [] /\ f = false /\ e' = e.
Proof.
  intros C D. pose proof (poll_idle e d C) as P.
  inversion D as [? ? P2|? ? ? P2|? ? ? ? ? ? P2]; subst; rewrite P in P2; by simplify_eq.
Qed.
Lemma can_consume_ext e d b : can_consume (ext d b e) d = can_consume e d.
Proof. unfold can_consume. by rewrite state_ext. Qed.
Lemma settled_ext e d b : can_consume e d = false -> settled d (ext d b e) = settled d e.
Proof. intros C. unfold settled. rewrite can_consume_ext, C. by destruct d. Qed.
Lemma desync_idle e d m reason err : DirMachine.desync m reason = (dir e d, err) -> can_consume e d = false.
Proof. intros E. unfold can_consume, state_of. inversion E. done. Qed.

(** Draining, then draining what comes next, is draining all of it. *)
Theorem drains_app d e evs1 f1 e1 :
  drains d e evs1 f1 e1 -> forall b evs2 f2 e2,
  engine_ok e -> state_of e d <> Resync -> b <> [] ->
  drains d (push e1 d b) evs2 f2 e2 -> poison e2 d <> Some ChunkLineOverflow ->
  exists evs3 e3, drains d (ext d b e) evs3 (f1 || f2) e3 /\ settled d e3 = settled d e2
    /\ Resplit (evs1 ++ evs2) evs3.
Proof.
  induction 1 as [e e' P|e e' err P|e e1 ev evs f e' P D IH]; intros b evs2 f2 e2 I R Nb D2 NP;
    pose proof (poll_ext e d b I R) as X; unfold poll_stable in X; rewrite P in X.
  - destruct (can_consume e d) eqn:C.
    + destruct (X eq_refl) as (X1 & C' & _). rewrite push_ext in D2 by done.
      exists evs2, e2. split_and!; [|done|apply resplit_refl].
      inversion D2; subst; rewrite X1 in *; by econstructor.
    + pose proof (poll_idle e d C) as Q. rewrite P in Q. simplify_eq. rewrite push_not in D2 by done.
      apply drains_idle in D2 as (-> & -> & ->); [|done].
      exists [], (ext d b e). split_and!; [|by apply settled_ext|apply resplit_refl].
      apply drains_none, poll_idle. by rewrite can_consume_ext.
  - pose proof (poll_steps e d I R) as S. rewrite P in S. destruct S as (_ & _ & _ & m & reason & S).
    assert (C : can_consume e' d = false) by by apply desync_idle in S.
    rewrite push_not in D2 by done. apply drains_idle in D2 as (-> & -> & ->); [|done].
    destruct X as [X|X]; [|done]. exists [], e'. split_and!; [by eapply drains_err|done|apply resplit_refl].
  - destruct X as [X|(raw & -> & Q & C & J)].
    + pose proof (poll_steps e d I R) as S. rewrite P in S. destruct S as (_ & I1 & _).
      destruct (IH b evs2 f2 e2) as (evs3 & e3 & D3 & E3 & R3); [done|by apply poll_not_resync in P|done..|].
      exists (ev :: evs3), e3. split_and!; [by eapply drains_more|done|by apply resplit_cons].
    + assert (evs = [] /\ f = false /\ e' = e1) as (-> & -> & ->).
      { inversion D as [? ? P2|? ? ? P2|? ? ? ? ? ? P2]; subst; rewrite Q in P2; by simplify_eq. }
      rewrite push_ext in D2 by done. destruct (J b Nb) as (e4 & y & J1 & J2).
      inversion D2 as [? ? P2|? ? ? P2|? e5 ? evs4 ? ? P2 D4]; subst; rewrite J2 in P2; simplify_eq.
      exists (EngineEvent.Body (raw ++ y) (raw ++ y) :: evs4), e2.
      split_and!; [by eapply drains_more|done|apply resplit_join].
Qed.
End drain.

(** ** A start line and header parser for the examples

    The [httparse] crate is a parameter of the HTTP/1.x engine.  This is a
    small parser of that interface, with which the examples and witnesses
    run the engine on concrete bytes; nothing is proved of it. *)
Import Httparse.

Fixpoint field_spans (fuel : nat) (head : list Z) (pos : Z) : list (Span * Span) :=
  match fuel with
  | O => []
  | S fuel =>
      match find_crlf_from head pos with
      | None => []
      | Some eol =>
          match index_of 58 (zslice pos eol head) with
          | None => []
          | Some n =>
              let value := pos + Z.of_nat n + 1 in
              let value := value + count_while is_ows (zslice value eol head) in
              ((pos, Z.of_nat n), (value, eol - value)) :: field_spans fuel head (eol + 2)
          end
      end
  end.
(** The words of the first line, and where the fields start. *)
Definition start_line (head : list Z) : option (Span * Span * Span * Z) :=
  eol ← find_crlf_from head 0;
  a ← index_of 32 (ztake eol head);
  let i := Z.of_nat a + 1 in
  b ← index_of 32 (zslice i eol head);
  let j := i + Z.of_nat b + 1 in
  Some ((0, i - 1), (i, Z.of_nat b), (j, eol - j), eol + 2).
Definition version_at (head : list Z) (s : Span) : option Z :=
  (fun b => b - 48) <$> byte_at head (s.1 + 7).
Definition sample_request (slots : Z) (head : list Z) : Req :=
  match start_line head with
  | Some (m, p, v, pos) =>
      let hs := field_spans (length head) head pos in
      if slots <? zlen hs then mk_req Failed None None None []
      else mk_req Complete (Some m) (Some p) (version_at head v) hs
  | None => mk_req Failed None None None []
  end.
Definition sample_response (slots : Z) (head : list Z) : Resp :=
  match start_line head with
  | Some (v, s, r, pos) =>
      let hs := field_spans (length head) head pos in
      if slots <? zlen hs then mk_resp Failed None None None []
      else mk_resp Complete (parse_decimal (zslice s.1 (s.1 + s.2) head)) (Some r) (version_at head v) hs
  | None => mk_resp Failed None None None []
  end.
#[export] Instance sample : Httparse := { parse_request := sample_request; parse_response := sample_response }.

Definition crlf : list Z := [13; 10].
(** Lines, each ended by CRLF. *)
Definition wire (lines : list (list Z)) : list Z := concat ((fun l => l ++ crlf) <$> lines).

Example sample_get :
  let e := Engine.push (Engine.new EngineLimits.default) Request
    (wire [bstr "GET /a HTTP/1.1"; bstr "Host: x"; bstr "Content-Length: 3"; []] ++ bstr "abcGET") in
  match Engine.poll e Request with
  | (e, Ok (Some (EngineEvent.Head h))) =>
      Head.method h = bstr "GET" /\ Head.path h = bstr "/a" /\ Head.framing h = BodyFraming.ContentLength 3
      /\ Head.headers h = [(bstr "Host", bstr "x"); (bstr "Content-Length", bstr "3")]
      /\ snd (Engine.poll e Request) = Ok (Some (EngineEvent.Body (bstr "abc") (bstr "abc")))
  | _ => False
  end.
Proof. vm_compute. done. Qed.
