(* ===== verification/Http1Passive.v ===== *)
(** * The passive front-end under any cut (src/src/http/session.rs)

    [HttpParser] reports the same messages, and is left in the same state,
    however the stream was cut into segments. *)

From S2P Require Import Prelude Flow Text Http1 Http1Engine Http1Scan Http1Session Http1Facts Http1Chunk Http1Drain.
Import HttpPoison SmugglingPolicy ChunkState BodyState DirState Engine.

(** ** Invariant *)
Definition partial_ok (max : Z) (q : option Partial.t) : Prop :=
  forall x, q = Some x -> (Partial.overflowed x = true -> Partial.body x = []) /\ zlen (Partial.body x) <= Z.max 0 max.
Definition parser_ok (p : HttpParser.t) : Prop :=
  engine_ok (HttpParser.engine p)
  /\ forall d, partial_ok (HttpConfig.max_buffer (HttpParser.config p)) (HttpParser.partial p d).

(** What the events of [d] make of the parser. *)
Fixpoint absorb_all (p : HttpParser.t) (d : Dir) (evs : list EngineEvent.t) : HttpParser.t * list HttpMessage :=
  match evs with
  | [] => (p, [])
  | ev :: evs =>
      let (p, out) := HttpParser.absorb p d ev in
      let (p, out') := absorb_all p d evs in (p, out ++ out')
  end.

Lemma partial_mut_eq p d f : HttpParser.partial (HttpParser.partial_mut d f p) d = f (HttpParser.partial p d).
Proof. by destruct d. Qed.
Lemma partial_mut_ne p d d' f : d' <> d -> HttpParser.partial (HttpParser.partial_mut d f p) d' = HttpParser.partial p d'.
Proof. by destruct d, d'. Qed.
Lemma partial_mut_ok p d f :
  parser_ok p -> partial_ok (HttpConfig.max_buffer (HttpParser.config p)) (f (HttpParser.partial p d)) ->
  parser_ok (HttpParser.partial_mut d f p).
Proof.
  intros (I & Q) F. split; [by destruct d|]. intros d'.
  replace (HttpParser.config (HttpParser.partial_mut d f p)) with (HttpParser.config p) by by destruct d.
  destruct (decide (d' = d)) as [->|N]; [by rewrite partial_mut_eq|rewrite partial_mut_ne by done; apply Q].
Qed.
Lemma partial_none_ok m : partial_ok m None.
Proof. done. Qed.
Lemma engine_mut_ok p e : parser_ok p -> engine_ok e -> parser_ok (p <| HttpParser.engine := e |>).
Proof. by intros (_ & Q) I. Qed.

Lemma absorb_ok p d ev : parser_ok p -> parser_ok (fst (HttpParser.absorb p d ev)).
Proof.
  intros I. pose proof (proj2 I d) as Q. destruct ev; simpl.
  - apply partial_mut_ok; [done|]. intros x [= <-]. simpl. rewrite zlen_nil. split; [done|lia].
  - apply partial_mut_ok; [done|]. intros x E. apply fmap_Some in E as (y & E & ->). destruct (Q y E) as (Q1 & Q2).
    unfold Partial.add. case_if; [simpl; rewrite zlen_nil; split; [done|lia]|]. destruct (Partial.overflowed y) eqn:O; [by rewrite O|].
    simpl. rewrite O. split; [done|]. zlia.
  - apply partial_mut_ok; [done|]. intros x E. apply fmap_Some in E as (y & E & ->). by apply (Q y E).
  - by apply partial_mut_ok.
  - destruct I as (I & _). split; [done|intros []; apply partial_none_ok].
Qed.
Lemma absorb_engine p d ev e :
  HttpParser.absorb (p <| HttpParser.engine := e |>) d ev =
  (fst (HttpParser.absorb p d ev) <| HttpParser.engine := e |>, snd (HttpParser.absorb p d ev)).
Proof. by destruct d, ev. Qed.
Lemma absorb_all_engine p d evs e :
  absorb_all (p <| HttpParser.engine := e |>) d evs =
  (fst (absorb_all p d evs) <| HttpParser.engine := e |>, snd (absorb_all p d evs)).
Proof.
  revert p. induction evs as [|ev evs IH]; intros p; [done|]. cbn [absorb_all].
  rewrite absorb_engine. destruct (HttpParser.absorb p d ev) as [q out]. cbn [fst snd].
  rewrite IH. by destruct (absorb_all q d evs).
Qed.
Lemma absorb_all_app p d evs evs' :
  absorb_all p d (evs ++ evs') =
  (fst (absorb_all (fst (absorb_all p d evs)) d evs'),
   snd (absorb_all p d evs) ++ snd (absorb_all (fst (absorb_all p d evs)) d evs')).
Proof.
  revert p. induction evs as [|ev evs IH]; intros p; cbn [absorb_all app]; [simpl; by destruct (absorb_all p d evs')|].
  destruct (HttpParser.absorb p d ev) as [q out]. rewrite IH. destruct (absorb_all q d evs) as [r out']. cbn [fst snd].
  by rewrite app_assoc.
Qed.

(** Two body steps make of a message what their concatenation makes of it. *)
Lemma add_join m x y q :
  (Partial.overflowed q = true -> Partial.body q = []) ->
  Partial.add m y (Partial.add m x q) = Partial.add m (x ++ y) q.
Proof.
  destruct q as [h b o]. simpl. intros P. pose proof (zlen_nonneg x). pose proof (zlen_nonneg y).
  unfold Partial.add. unfold_upd. simpl. rewrite zlen_app. destruct (Z.ltb_spec m (zlen b + zlen x)).
  - simpl. destruct (Z.ltb_spec m (zlen b + (zlen x + zlen y))); [|lia]. by case_if.
  - destruct o; simpl.
    + rewrite P by done. rewrite zlen_nil. repeat case_if; done.
    + rewrite zlen_app, Z.add_assoc. case_if; [done|]. by rewrite app_assoc.
Qed.
Lemma absorb_join p d x y :
  parser_ok p ->
  HttpParser.absorb (fst (HttpParser.absorb p d (EngineEvent.Body x x))) d (EngineEvent.Body y y)
  = HttpParser.absorb p d (EngineEvent.Body (x ++ y) (x ++ y)).
Proof.
  intros (_ & Q). specialize (Q d). set (m := HttpConfig.max_buffer (HttpParser.config p)) in *.
  assert (E : Partial.add m y <$> (Partial.add m x <$> HttpParser.partial p d) = Partial.add m (x ++ y) <$> HttpParser.partial p d).
  { destruct (HttpParser.partial p d) as [q|] eqn:E; [|done]. simpl. f_equal. apply add_join. by apply (Q q). }
  unfold HttpParser.absorb. cbn [fst]. f_equal. destruct d; simpl in *; unfold_upd; simpl; fold m; by rewrite E.
Qed.
Lemma absorb_resplit d evs evs' : Resplit evs evs' -> forall p, parser_ok p -> absorb_all p d evs = absorb_all p d evs'.
Proof.
  induction 1 as [|ev l l' R IH|x y l]; intros p I; [done|..]; cbn [absorb_all].
  - pose proof (absorb_ok p d ev I). destruct (HttpParser.absorb p d ev) as [q out]. by rewrite IH.
  - rewrite <- absorb_join by done.
    destruct (HttpParser.absorb p d (EngineEvent.Body x x)) as [q out] eqn:E1. cbn [fst].
    destruct (HttpParser.absorb q d (EngineEvent.Body y y)) as [r out'] eqn:E2.
    assert (out = []) as -> by (unfold HttpParser.absorb in E1; by simplify_eq).
    by destruct (absorb_all r d l).
Qed.

Section passive.
Context `{Httparse.Httparse}.

(** ** A drain *)
Definition finish (failed : bool) (d : Dir) (p : HttpParser.t) : HttpParser.t :=
  if failed then HttpParser.partial_mut d (fun _ => None) p else p.
Lemma drain_fuel_spec d e evs f e' :
  drains d e evs f e' -> forall n p, (length evs < n)%nat -> HttpParser.engine p = e ->
  HttpParser.drain_fuel n p d =
  (finish f d (fst (absorb_all p d evs) <| HttpParser.engine := e' |>), snd (absorb_all p d evs)).
Proof.
  induction 1 as [e e' P|e e' err P|e e1 ev evs f e' P D IH]; intros n p L E; (destruct n as [|n]; [simpl in L; lia|]);
    cbn [HttpParser.drain_fuel]; rewrite E, P; [done..|]. cbn [absorb_all length] in *.
  rewrite absorb_engine. destruct (HttpParser.absorb p d ev) as [q out]. cbn [fst snd].
  rewrite IH by (done || lia). rewrite absorb_all_engine. by destruct (absorb_all q d evs).
Qed.
Lemma drains_failed d e evs f e' :
  drains d e evs f e' -> engine_ok e -> state_of e d <> Resync -> f = true -> can_consume e' d = false.
Proof.
  induction 1 as [e e' P|e e' err P|e e1 ev evs f e' P D IH]; intros I R F; [done|..];
    pose proof (poll_steps e d I R) as S; rewrite P in S.
  - destruct S as (_ & _ & _ & m & reason & S). by apply desync_idle in S.
  - destruct S as (_ & I1 & _). apply IH; [done|by apply poll_not_resync in P|done].
Qed.
(** [drain] is what the events of the direction make of the parser. *)
Lemma drain_spec p d :
  parser_ok p ->
  exists evs f e', drains d (HttpParser.engine p) evs f e' /\
  HttpParser.drain p d =
  (finish f d (fst (absorb_all p d evs) <| HttpParser.engine := e' |>), snd (absorb_all p d evs)).
Proof.
  intros (I & _). destruct (drains_total _ d I) as (evs & f & e' & D). exists evs, f, e'. split; [done|].
  apply (drain_fuel_spec _ _ _ _ _ D); [|done]. pose proof (drains_engine_ok _ _ _ _ _ D I). lia.
Qed.
Lemma absorb_all_ok p d evs : parser_ok p -> parser_ok (fst (absorb_all p d evs)).
Proof.
  revert p. induction evs as [|ev evs IH]; intros p I; [done|]. cbn [absorb_all].
  pose proof (absorb_ok p d ev I) as J. destruct (HttpParser.absorb p d ev) as [q out]. specialize (IH q J).
  by destruct (absorb_all q d evs).
Qed.
Lemma finish_ok f d p : parser_ok p -> parser_ok (finish f d p).
Proof. destruct f; [|done]. intros I. by apply partial_mut_ok. Qed.
Lemma engine_finish f d p : HttpParser.engine (finish f d p) = HttpParser.engine p.
Proof. destruct f; [|done]. by destruct d. Qed.
Lemma feed_nil p d : HttpParser.feed p d [] = (p, []).
Proof. done. Qed.
Lemma push_not_resync e d b : state_of e d <> Resync -> state_of (push e d b) d <> Resync.
Proof. intros R. destruct (can_consume e d) eqn:C; [rewrite push_ext by done; by rewrite state_ext|by rewrite push_not]. Qed.
Lemma feed_spec p d b :
  parser_ok p -> b <> [] ->
  exists evs f e', drains d (push (HttpParser.engine p) d b) evs f e'
  /\ HttpParser.feed p d b = (finish f d (fst (absorb_all p d evs) <| HttpParser.engine := e' |>), snd (absorb_all p d evs))
  /\ parser_ok (fst (HttpParser.feed p d b)).
Proof.
  intros I Nb. unfold HttpParser.feed. destruct b as [|x b]; [done|]. cbn [is_nil]. set (b' := x :: b) in *.
  change (p <| HttpParser.engine ::= fun e => push e d b' |>) with (p <| HttpParser.engine := push (HttpParser.engine p) d b' |>).
  pose proof I as (I1 & _). pose proof (push_ok _ d b' I1) as I2.
  destruct (drain_spec (p <| HttpParser.engine := push (HttpParser.engine p) d b' |>) d) as (evs & f & e' & D & E);
    [by apply engine_mut_ok|]. exists evs, f, e'. destruct (drains_engine_ok _ _ _ _ _ D I2) as (I3 & _).
  rewrite E, absorb_all_engine. split_and!; [done..|]. cbn [fst]. apply finish_ok.
  apply (engine_mut_ok (fst (absorb_all p d evs))); [by apply absorb_all_ok|done].
Qed.
Lemma feed_ok p d b : parser_ok p -> parser_ok (fst (HttpParser.feed p d b)).
Proof. intros I. destruct (decide (b = [])) as [->|Nb]; [done|]. by destruct (feed_spec p d b I Nb) as (evs & f & e' & _ & _ & Q). Qed.
Lemma feed_not_resync p d b :
  parser_ok p -> state_of (HttpParser.engine p) d <> Resync -> state_of (HttpParser.engine (fst (HttpParser.feed p d b))) d <> Resync.
Proof.
  intros I R. destruct (decide (b = [])) as [->|Nb]; [done|]. destruct (feed_spec p d b I Nb) as (evs & f & e' & D & E & _).
  rewrite E. cbn [fst]. rewrite engine_finish. apply (drains_not_resync _ _ _ _ _ D). by apply push_not_resync.
Qed.

(** ** Segments *)
Definition quiet (d : Dir) (p : HttpParser.t) : HttpParser.t := p <| HttpParser.engine ::= settled d |>.
Fixpoint feeds (p : HttpParser.t) (d : Dir) (segs : list (list Z)) : HttpParser.t * list HttpMessage :=
  match segs with
  | [] => (p, [])
  | b :: segs =>
      let (p, out) := HttpParser.feed p d b in
      let (p, out') := feeds p d segs in (p, out ++ out')
  end.

Lemma feed_idle p d b : can_consume (HttpParser.engine p) d = false -> HttpParser.feed p d b = (p, []).
Proof.
  intros C. unfold HttpParser.feed, HttpParser.drain. case_if; [done|].
  change (p <| HttpParser.engine ::= fun e => push e d b |>) with (p <| HttpParser.engine := push (HttpParser.engine p) d b |>).
  rewrite push_not by done. cbn [HttpParser.drain_fuel].
  change (HttpParser.engine (p <| HttpParser.engine := HttpParser.engine p |>)) with (HttpParser.engine p).
  rewrite poll_idle by done. by destruct p.
Qed.
Lemma feed_app p d a b :
  parser_ok p -> state_of (HttpParser.engine p) d <> Resync ->
  poison (HttpParser.engine (fst (HttpParser.feed (fst (HttpParser.feed p d a)) d b))) d <> Some ChunkLineOverflow ->
  snd (HttpParser.feed p d (a ++ b))
    = snd (HttpParser.feed p d a) ++ snd (HttpParser.feed (fst (HttpParser.feed p d a)) d b)
  /\ quiet d (fst (HttpParser.feed p d (a ++ b))) = quiet d (fst (HttpParser.feed (fst (HttpParser.feed p d a)) d b)).
Proof.
  intros I R NP. destruct (decide (a = [])) as [->|Na]; [done|].
  destruct (decide (b = [])) as [->|Nb]; [rewrite app_nil_r; simpl; by rewrite app_nil_r|].
  destruct (can_consume (HttpParser.engine p) d) eqn:C.
  2:{ by rewrite !feed_idle by done. }
  pose proof I as (I1 & _).
  destruct (feed_spec p d a I Na) as (evs1 & f1 & e1 & D1 & E1 & I2). revert NP I2. rewrite E1. cbn [fst snd].
  set (q := fst (absorb_all p d evs1)). set (p1 := finish f1 d (q <| HttpParser.engine := e1 |>)). intros NP I2.
  assert (Ee : HttpParser.engine p1 = e1) by apply engine_finish.
  destruct (feed_spec p1 d b I2 Nb) as (evs2 & f2 & e2 & D2 & E2 & I3).
  revert NP. rewrite E2. cbn [fst snd]. rewrite engine_finish. cbn [HttpParser.engine]. intros NP.
  rewrite Ee in D2.
  destruct (drains_app _ _ _ _ _ D1 b evs2 f2 e2 (push_ok _ _ _ I1) (push_not_resync _ _ _ R) Nb D2 NP)
    as (evs3 & e3 & D3 & S3 & R3).
  assert (Ep : ext d b (push (HttpParser.engine p) d a) = push (HttpParser.engine p) d (a ++ b)).
  { rewrite !push_ext by done. apply ext_ext. }
  rewrite Ep in D3.
  destruct (feed_spec p d (a ++ b) I) as (evs & f & e' & D & E & _); [by destruct a|].
  destruct (drains_det _ _ _ _ _ D3 _ _ _ D) as (-> & -> & ->). rewrite E. cbn [fst snd].
  rewrite <- (absorb_resplit _ _ _ R3 p I), absorb_all_app. cbn [fst snd]. fold q.
  destruct f1.
  - pose proof (drains_failed _ _ _ _ _ D1 (push_ok _ _ _ I1) (push_not_resync _ _ _ R) eq_refl) as C1.
    rewrite push_not in D2 by done. apply drains_idle in D2 as (-> & -> & ->); [|done].
    cbn [orb absorb_all fst snd finish]. rewrite !app_nil_r. split; [done|].
    unfold quiet, p1. cbn [finish]. destruct d; unfold_upd; simpl; by rewrite S3.
  - cbn [orb]. unfold p1. cbn [finish]. rewrite absorb_all_engine. cbn [fst snd]. split; [done|].
    unfold quiet. destruct f2; cbn [finish]; [destruct d|]; unfold_upd; simpl; by rewrite S3.
Qed.

Lemma settled_poison d e : poison (settled d e) d = poison e d.
Proof. unfold settled. case_if; [done|]. by destruct d. Qed.
Lemma quiet_poison d p p' : quiet d p = quiet d p' -> poison (HttpParser.engine p) d = poison (HttpParser.engine p') d.
Proof.
  intros E. apply (f_equal HttpParser.engine) in E. simpl in E.
  by rewrite <- (settled_poison d (HttpParser.engine p)), E, settled_poison.
Qed.

(** C18: fed to one direction of a passive HTTP parser in any segments, a
    stream gives the same messages and the same state as in one piece: the
    parser's state is the same but for bytes that a closed or switched
    direction never reads.  The one exception the code makes is a cut
    inside a chunk-size line that poisons the direction, so it is excluded,
    and so is a direction that is looking for a message head after a gap. *)
Theorem http_messages_any_cut p d segs :
  parser_ok p -> state_of (HttpParser.engine p) d <> Resync ->
  poison (HttpParser.engine (fst (feeds p d segs))) d <> Some ChunkLineOverflow ->
  snd (HttpParser.feed p d (concat segs)) = snd (feeds p d segs)
  /\ quiet d (fst (HttpParser.feed p d (concat segs))) = quiet d (fst (feeds p d segs)).
Proof.
  revert p. induction segs as [|a segs IH]; intros p I R NP; [done|]. cbn [feeds concat] in *.
  specialize (IH _ (feed_ok p d a I) (feed_not_resync p d a I R)).
  pose proof (feed_app p d a (concat segs) I R) as A.
  destruct (HttpParser.feed p d a) as [p1 out1]. cbn [fst snd] in *.
  destruct (feeds p1 d segs) as [p2 out2]. cbn [fst snd] in *. destruct (IH NP) as (IH1 & IH2).
  rewrite <- IH1, <- IH2. apply A. by rewrite (quiet_poison _ _ _ IH2).
Qed.

(** ** Callbacks keep the invariant *)
Lemma with_config_ok c : parser_ok (HttpParser.with_config c).
Proof.
  split; [|intros []; apply partial_none_ok]. split_and!; try apply machine_new_ok. simpl. rewrite zlen_nil. lia.
Qed.
Lemma engine_fin_ok e d : engine_ok e -> engine_ok (fst (fin e d)).
Proof.
  intros I. pose proof (ok_dir e d I) as (Q1 & _). pose proof (zlen_nonneg (DirMachine.buf (dir e d))).
  assert (G : machine_ok (dir e d <| DirMachine.state := Closed |>)) by by split.
  unfold fin. destruct (DirMachine.state (dir e d)) as [|[| |]| | | |]; try done; try by apply ok_set.
  apply ok_set; [done|]. split; [|done]. simpl. rewrite zdrop_ge by lia. change (zlen []) with 0. unfold sat_sub. lia.
Qed.
Lemma finish_at_eof_ok p d : parser_ok p -> parser_ok (fst (HttpParser.finish_at_eof p d)).
Proof.
  intros I. unfold HttpParser.finish_at_eof. pose proof (engine_fin_ok _ d (proj1 I)) as F.
  destruct (fin _ d) as [e [ev|]]; cbn [fst] in F; pose proof (engine_mut_ok p e I F) as J.
  - pose proof (absorb_ok _ d ev J) as K. destruct (HttpParser.absorb _ d ev) as [q out]. cbn [fst] in *.
    by apply partial_mut_ok.
  - cbn [fst]. by apply partial_mut_ok.
Qed.
Inductive Callback := CFeed (d : Dir) (b : list Z) | CFin (d : Dir) | CGap (side : FlowSide) | CRst (d : Dir).
Definition callback (p : HttpParser.t) (c : Callback) : HttpParser.t :=
  match c with
  | CFeed d b => fst (HttpParser.feed p d b)
  | CFin d => fst (HttpParser.finish_at_eof p d)
  | CGap side => fst (HttpParser.on_gap p side)
  | CRst d => HttpParser.rst p d
  end.
Theorem http_parser_invariant c cbs : parser_ok (fold_left callback cbs (HttpParser.with_config c)).
Proof.
  assert (G : forall p, parser_ok p -> parser_ok (fold_left callback cbs p)); [|apply G, with_config_ok].
  induction cbs as [|k cbs IH]; intros p I; simpl; [done|]. apply IH. destruct k as [d b|d|side|d]; simpl.
  - by apply feed_ok.
  - by apply finish_at_eof_ok.
  - unfold HttpParser.on_gap. case_if; [done|]. cbn [fst]. apply partial_mut_ok; [|done].
    apply (engine_mut_ok p (resync (HttpParser.engine p) (to_dir side)) I). apply resync_ok, I.
  - apply partial_mut_ok; [|done]. apply (engine_mut_ok p (reset (HttpParser.engine p) d) I). apply reset_ok, I.
Qed.
End passive.

(** A chunked request, cut inside its head, its chunk-size line and its data. *)
Definition cut_request : list (list Z) :=
  [wire [bstr "POST /u HTTP/1.1"; bstr "Host: x"] ++ bstr "Transfer-Enc";
   bstr "oding: chunked" ++ crlf ++ crlf ++ bstr "5"; crlf ++ bstr "he"; bstr "llo" ++ crlf;
   bstr "0" ++ crlf ++ bstr "A: b" ++ crlf; crlf ++ bstr "GET / HTTP/1.1" ++ crlf; crlf].
Example cut_request_messages :
  snd (feeds HttpParser.default Request cut_request) =
  [MRequest (HttpRequest.mk (bstr "POST") (bstr "/u") Http1_1
     [(bstr "Host", bstr "x"); (bstr "Transfer-Encoding", bstr "chunked"); (bstr "A", bstr "b")] (bstr "hello"));
   MRequest (HttpRequest.mk (bstr "GET") (bstr "/") Http1_1 [] [])].
Proof. vm_compute. done. Qed.
Lemma http_messages_any_cut_witness :
  snd (HttpParser.feed HttpParser.default Request (concat cut_request)) = snd (feeds HttpParser.default Request cut_request)
  /\ quiet Request (fst (HttpParser.feed HttpParser.default Request (concat cut_request)))
     = quiet Request (fst (feeds HttpParser.default Request cut_request)).
Proof.
  apply (http_messages_any_cut HttpParser.default Request cut_request).
  - apply with_config_ok.
  - vm_compute. discriminate.
  - vm_compute. discriminate.
Defined.
