(* ===== verification/Http1Relay.v ===== *)
(** * What the inline front-end forwards (src/src/http/proxy.rs)

    The wire bytes of the events partition the bytes accepted; what is held
    is bounded; and a parser that has been drained takes more bytes. *)

From S2P Require Import Prelude Flow Text Http1 Http1Engine Http1Scan Http1Session Http1Proxy Http1Facts Http1Chunk Http1Drain.
Import HttpPoison SmugglingPolicy ChunkState BodyState DirState Engine.

(** A direction of an engine that never lost track of a gap, with the bytes
    it was given and those it has handed on: the rest is what it holds,
    unless the direction is poisoned and holds nothing any more. *)
Definition accounts (e : t) (d : Dir) (given handed : list Z) : Prop :=
  state_of e d <> Resync /\
  match poison e d with
  | None => given = handed ++ DirMachine.buf (dir e d)
  | Some _ => can_consume e d = false /\ DirMachine.buf (dir e d) = [] /\ exists lost, given = handed ++ lost
  end.
Definition raw_ok (r : result EngineError (option EngineEvent.t)) : list Z :=
  match r with Ok (Some ev) => raw_of ev | _ => [] end.
Definition eqd (d d' : Dir) : bool := bool_decide (d = d').

Section relay.
Context `{Httparse.Httparse}.

Lemma tunnel_accounts e e' d given handed :
  accounts e d given handed -> dir e' d = dir e d <| DirMachine.state := Tunnel |> -> accounts e' d given handed.
Proof.
  intros (R & A) E. unfold accounts, can_consume, state_of, poison in *. rewrite E. split; [done|]. simpl.
  destruct (DirMachine.poison _); [|done]. by destruct A as (_ & A).
Qed.
Lemma same_accounts e e' d given handed : accounts e d given handed -> dir e' d = dir e d -> accounts e' d given handed.
Proof. intros A E. unfold accounts, can_consume, state_of, poison in *. by rewrite E. Qed.

(** What a poll of [d] does to the other direction. *)
Lemma poll_other e d d' :
  engine_ok e -> state_of e d <> Resync -> d' <> d ->
  dir (fst (poll e d)) d' = dir e d' \/ dir (fst (poll e d)) d' = dir e d' <| DirMachine.state := Tunnel |>.
Proof.
  intros I R N. pose proof (poll_steps e d I R) as S. destruct (poll e d) as [e1 [[ev|]|err]]; cbn [fst] in *.
  - destruct S as (_ & _ & _ & _ & _ & S). by apply S.
  - destruct S as (m & E & _). simpl in E. subst e1. left. by apply dir_dir_mut_ne.
  - destruct S as (_ & _ & S & _). left. by apply S.
Qed.
Lemma poll_accounts_same e d given handed :
  engine_ok e -> accounts e d given handed ->
  accounts (fst (poll e d)) d given (handed ++ raw_ok (snd (poll e d))).
Proof.
  intros I A. destruct (can_consume e d) eqn:C.
  2:{ rewrite poll_idle by done. simpl. by rewrite app_nil_r. }
  destruct A as (R & A). assert (P : poison e d = None) by (destruct (poison e d); [by destruct A as (A & _); congruence|done]).
  rewrite P in A. pose proof (poll_steps e d I R) as S.
  destruct (poll e d) as [e1 r] eqn:Q. pose proof (poll_not_resync _ _ _ _ R Q). split; [done|].
  destruct r as [[ev|]|err]; cbn [fst snd raw_ok] in *.
  - destruct S as (B & _ & _ & _ & P1 & _). simpl in *. rewrite P1, P. by rewrite A, B, app_assoc.
  - destruct S as (m & E & B & P1 & _). simpl in E. subst e1. unfold poison. rewrite dir_set, P1.
    change (DirMachine.poison (dir e d)) with (poison e d). by rewrite P, B, app_nil_r.
  - destruct S as (_ & _ & _ & m & reason & S). pose proof (desync_idle _ _ _ _ _ S) as C1.
    inversion S as [[E Er]]. unfold poison. rewrite <- E. simpl. split_and!; [done|done|].
    exists (DirMachine.buf (dir e d)). by rewrite app_nil_r.
Qed.
Lemma poll_accounts e d d' given handed :
  engine_ok e -> state_of e d <> Resync -> accounts e d' given handed ->
  accounts (fst (poll e d)) d' given (handed ++ (if eqd d d' then raw_ok (snd (poll e d)) else [])).
Proof.
  intros I R A. unfold eqd. case_bool_decide as E; [subst d'; by apply poll_accounts_same|]. rewrite app_nil_r.
  destruct (poll_other e d d' I R); [done|..]; [by eapply same_accounts|by eapply tunnel_accounts].
Qed.

Lemma poll_opens e d d' : engine_ok e -> state_of e d <> Resync ->
  can_consume (fst (poll e d)) d' = true -> can_consume e d' = true.
Proof.
  intros I R C. destruct (can_consume e d') eqn:C'; [done|]. destruct (decide (d' = d)) as [->|N].
  - rewrite poll_idle in C by done. simpl in C. congruence.
  - unfold can_consume, state_of in *. destruct (poll_other e d d' I R N) as [E|E]; rewrite E in C; simpl in C; congruence.
Qed.

(** ** Operations on the parser *)
Inductive Op := Push (side : FlowSide) (data : list Z) | Next | Residue (side : FlowSide).
(** The parser; per direction, the bytes it reported as accepted, those of
    them that came while the direction still parsed, and those handed on. *)
Record Relay := mk_relay {
  parser : HttpProxyParser.t; accepted : Dir -> list Z; given : Dir -> list Z; handed : Dir -> list Z }.
Definition note (d : Dir) (bytes : list Z) (f : Dir -> list Z) : Dir -> list Z :=
  fun d' => f d' ++ (if eqd d d' then bytes else []).
(** The direction and wire bytes of an event. *)
Definition event_raw (ev : HttpEvent.t) : option (Dir * list Z) :=
  match ev with
  | HttpEvent.RequestHead h => Some (Request, RequestHead.raw h)
  | HttpEvent.ResponseHead h => Some (Response, ResponseHead.raw h)
  | HttpEvent.Body side _ raw | HttpEvent.Trailers side _ raw => Some (to_dir side, raw)
  | HttpEvent.End_ _ | HttpEvent.SwitchProtocols _ => None
  end.
Definition step (r : Relay) (op : Op) : Relay :=
  match op with
  | Push side data =>
      let d := to_dir side in
      let (p, n) := HttpProxyParser.push (parser r) side data in
      let taken := if can_consume (HttpProxyParser.engine (parser r)) d then ztake n data else [] in
      mk_relay p (note d (ztake n data) (accepted r)) (note d taken (given r)) (handed r)
  | Next =>
      let (p, ev) := HttpProxyParser.next_event (parser r) in
      mk_relay p (accepted r) (given r)
        match ev ≫= event_raw with Some (d, raw) => note d raw (handed r) | None => handed r end
  | Residue side =>
      let (p, bytes) := HttpProxyParser.take_tunnel_residue (parser r) side in
      mk_relay p (accepted r) (given r) (note (to_dir side) bytes (handed r))
  end.
Definition start (c : HttpProxyConfig.t) : Relay := mk_relay (HttpProxyParser.with_config c) (fun _ => []) (fun _ => []) (fun _ => []).
Definition relay (c : HttpProxyConfig.t) (ops : list Op) : Relay := fold_left step ops (start c).

Definition relay_ok (r : Relay) : Prop :=
  let e := HttpProxyParser.engine (parser r) in
  engine_ok e /\ limits e = HttpProxyConfig.limits (HttpProxyParser.config (parser r))
  /\ (forall d, accounts e d (given r d) (handed r d))
  /\ (forall d, buffered e d <= Z.max 0 (HttpProxyConfig.max_buffered_bytes (HttpProxyParser.config (parser r)))).
(** What came after the direction's last message. *)
Definition late_ok (r : Relay) : Prop := forall d, exists late,
  accepted r d = given r d ++ late /\ (can_consume (HttpProxyParser.engine (parser r)) d = true -> late = []).
Lemma start_ok c : relay_ok (start c).
Proof.
  split_and!.
  - split_and!; try apply machine_new_ok. simpl. rewrite zlen_nil. lia.
  - done.
  - by intros [].
  - intros []; unfold buffered; simpl; rewrite zlen_nil; lia.
Qed.

Lemma poll_buffered e d d' :
  engine_ok e -> state_of e d <> Resync -> buffered (fst (poll e d)) d' <= buffered e d'.
Proof.
  intros I R. unfold buffered. destruct (decide (d' = d)) as [->|N].
  - pose proof (poll_steps e d I R) as S. destruct (poll e d) as [e1 [[ev|]|err]]; cbn [fst] in *.
    + destruct S as (B & _). rewrite B, zlen_app. pose proof (zlen_nonneg (raw_of ev)). simpl in *. lia.
    + destruct S as (m & E & B & _). simpl in E. subst e1. rewrite dir_set, B. lia.
    + destruct S as (_ & _ & _ & m & reason & S). inversion S as [[E Er]]. simpl. pose proof (zlen_nonneg (DirMachine.buf (dir e d))).
      rewrite zlen_nil. lia.
  - destruct (poll_other e d d' I R N) as [->| ->]; simpl; lia.
Qed.
(** The wire bytes of an event, on a direction. *)
Definition on_dir (d : Dir) (ev : option HttpEvent.t) : list Z :=
  match ev ≫= event_raw with Some (d0, raw) => if eqd d0 d then raw else [] | None => [] end.
Lemma on_dir_convert d d' ev : on_dir d' (Some (convert d ev)) = if eqd d d' then raw_of ev else [].
Proof. unfold on_dir. destruct ev, d; simpl; try done; by destruct (eqd _ d'). Qed.

Lemma next_in_spec dirs p g h :
  let e := HttpProxyParser.engine p in
  engine_ok e -> (forall d, accounts e d (g d) (h d)) ->
  let e' := HttpProxyParser.engine (fst (HttpProxyParser.next_in dirs p)) in
  engine_ok e' /\ limits e' = limits e
  /\ HttpProxyParser.config (fst (HttpProxyParser.next_in dirs p)) = HttpProxyParser.config p
  /\ (forall d, accounts e' d (g d) (h d ++ on_dir d (snd (HttpProxyParser.next_in dirs p))))
  /\ (forall d, buffered e' d <= buffered e d)
  /\ (forall d, can_consume e' d = true -> can_consume e d = true).
Proof.
  revert p h. induction dirs as [|d dirs IH]; intros p h e I A; cbn [HttpProxyParser.next_in].
  { simpl. split_and!; try done. intros d. by rewrite app_nil_r. }
  assert (R : state_of e d <> Resync) by apply (A d).
  pose proof (poll_progress e d I) as (I1 & L1 & _). pose proof (fun d' => poll_accounts e d d' (g d') (h d') I R (A d')) as A1.
  pose proof (fun d' => poll_buffered e d d' I R) as B1. pose proof (fun d' => poll_opens e d d' I R) as O1.
  fold e. destruct (poll e d) as [e1 r]. cbn [fst snd] in *.
  assert (G : raw_ok r = [] -> forall d', accounts e1 d' (g d') (h d')).
  { intros E d'. specialize (A1 d'). rewrite E in A1. destruct (eqd d d'); by rewrite app_nil_r in A1. }
  destruct r as [[ev|]|err].
  - cbn [fst snd]. split_and!; try done. intros d'. rewrite on_dir_convert. apply A1.
  - pose proof (IH (p <| HttpProxyParser.engine := e1 |>) h) as Q. simpl in Q.
    destruct (Q I1 (G eq_refl)) as (Q1 & Q2 & Q3 & Q4 & Q5 & Q6).
    split_and!; [done|congruence|done|done| |by auto]. intros d'. specialize (Q5 d'). specialize (B1 d'). lia.
  - pose proof (IH (p <| HttpProxyParser.engine := e1 |>) h) as Q. simpl in Q.
    destruct (Q I1 (G eq_refl)) as (Q1 & Q2 & Q3 & Q4 & Q5 & Q6).
    split_and!; [done|congruence|done|done| |by auto]. intros d'. specialize (Q5 d'). specialize (B1 d'). lia.
Qed.

Lemma note_at d b f d' : note d b f d' = f d' ++ (if eqd d d' then b else []).
Proof. done. Qed.
Lemma eqd_refl d : eqd d d = true.
Proof. by apply bool_decide_eq_true. Qed.
Lemma eqd_ne d d' : d' <> d -> eqd d d' = false.
Proof. intros N. apply bool_decide_eq_false. congruence. Qed.

Lemma accounts_other e e' d d' b g h :
  d' <> d -> accounts e d' (g d') (h d') -> dir e' d' = dir e d' -> accounts e' d' (note d b g d') (h d').
Proof. intros N A E. rewrite note_at, eqd_ne, app_nil_r by done. by eapply same_accounts. Qed.
Lemma push_step_ok r side data : relay_ok r -> relay_ok (step r (Push side data)).
Proof.
  intros (I & L & A & B). unfold step, HttpProxyParser.push. set (p := parser r) in *.
  set (e := HttpProxyParser.engine p) in *. set (d := to_dir side).
  case_if.
  { split_and!; simpl; try done. intros d'. rewrite note_at.
    replace (if can_consume e d then ztake 0 data else []) with (@nil Z) by (by destruct (can_consume e d); rewrite ?ztake_0 by lia).
    destruct (eqd d d'); by rewrite app_nil_r. }
  set (n := Z.min _ (zlen data)). set (e' := if 0 <? n then push e d (ztake n data) else e).
  pose proof (zlen_nonneg data). assert (Ln : 0 <= n <= zlen data) by (unfold n, sat_sub; lia).
  assert (Ee : HttpProxyParser.engine (if 0 <? n then p <| HttpProxyParser.engine ::= fun e0 => push e0 d (ztake n data) |> else p) = e')
    by (unfold e'; by case_if).
  assert (Ec : HttpProxyParser.config (if 0 <? n then p <| HttpProxyParser.engine ::= fun e0 => push e0 d (ztake n data) |> else p)
    = HttpProxyParser.config p) by by case_if.
  destruct (can_consume e d) eqn:C.
  - assert (E' : e' = ext d (ztake n data) e).
    { unfold e'. rewrite push_ext by done. case_if; [done|]. rewrite ztake_0 by lia. rewrite <- push_ext by done. done. }
    split_and!; cbn [parser given handed]; rewrite ?Ee, ?Ec, ?E'.
    + by apply ok_ext.
    + by rewrite limits_ext.
    + intros d'. destruct (decide (d' = d)) as [->|N]; [|apply (accounts_other e); [done..|by apply dir_dir_mut_ne]].
      rewrite note_at, eqd_refl. destruct (A d) as (R & A'). split; [by rewrite state_ext|].
      unfold poison in *. rewrite dir_ext. simpl. destruct (DirMachine.poison (dir e d)); [by destruct A'; congruence|].
      by rewrite A', app_assoc.
    + intros d'. unfold buffered. destruct (decide (d' = d)) as [->|N].
      * rewrite dir_ext, buf_mext. specialize (B d). unfold buffered in B. rewrite zlen_app, zlen_ztake.
        unfold n, sat_sub, buffered. pose proof (zlen_nonneg (DirMachine.buf (dir e d))). fold e in B |- *. fold p in B |- *. lia.
      * unfold ext. rewrite dir_dir_mut_ne by done. apply B.
  - assert (E' : e' = e) by (unfold e'; rewrite push_not by done; by case_if).
    split_and!; cbn [parser given handed]; rewrite ?Ee, ?Ec, ?E'; try done.
    intros d'. rewrite note_at. destruct (eqd d d'); by rewrite app_nil_r.
Qed.

Lemma take_all_ok m : machine_ok m -> machine_ok (fst (DirMachine.take m (zlen (DirMachine.buf m)))).
Proof.
  destruct m as [bf st po cl sc]. unfold machine_ok, resumable, DirMachine.take. unfold_upd. simpl. intros (Q1 & Q2).
  rewrite zdrop_ge by lia. rewrite sat_sub_all by lia. split; [unfold zlen; simpl; lia|].
  destruct st as [|[|[]|]| | | |]; try done; try (intros; lia); (split; [done|]); apply Q2.
Qed.
Lemma residue_step_ok r side : relay_ok r -> relay_ok (step r (Residue side)).
Proof.
  intros (I & L & A & B). unfold step, HttpProxyParser.take_tunnel_residue, take_residue. set (p := parser r) in *.
  set (e := HttpProxyParser.engine p) in *. set (d := to_dir side). case_if.
  { split_and!; try done. intros d'. cbn [parser given handed]. rewrite note_at. simpl.
    destruct (eqd d d'); rewrite app_nil_r; apply A. }
  pose proof (take_all_ok _ (ok_dir e d I)) as T. unfold buffered. set (n := zlen (DirMachine.buf (dir e d))) in *.
  assert (Tb : DirMachine.take (dir e d) n = (fst (DirMachine.take (dir e d) n), DirMachine.buf (dir e d))).
  { apply injective_projections; [done|]. simpl. apply ztake_ge. unfold n. lia. }
  rewrite Tb. set (m := fst (DirMachine.take (dir e d) n)) in *. cbn [parser given handed].
  assert (Bm : DirMachine.buf m = []) by apply buf_take_all.
  split_and!; simpl.
  - by apply ok_set.
  - by rewrite limits_set.
  - intros d'. destruct (decide (d' = d)) as [->|N].
    + rewrite note_at, eqd_refl. specialize (A d). unfold accounts, can_consume, state_of, poison in *.
      rewrite dir_set. change (DirMachine.state m) with (DirMachine.state (dir e d)).
      change (DirMachine.poison m) with (DirMachine.poison (dir e d)). rewrite Bm. destruct A as (A1 & A2).
      split; [done|]. destruct (DirMachine.poison _); [|by rewrite app_nil_r].
      destruct A2 as (A2 & -> & A3). by rewrite app_nil_r.
    + rewrite note_at, eqd_ne, app_nil_r by done. eapply same_accounts; [apply A|by apply dir_dir_mut_ne].
  - intros d'. unfold buffered. destruct (decide (d' = d)) as [->|N].
    + rewrite dir_set, Bm. unfold zlen. simpl. lia.
    + unfold set_dir. rewrite dir_dir_mut_ne by done. apply B.
Qed.
Lemma next_step_ok r : relay_ok r -> relay_ok (step r Next).
Proof.
  intros (I & L & A & B). destruct (next_in_spec [Request; Response] (parser r) (given r) (handed r) I A) as (I1 & L1 & C1 & A1 & B1 & _).
  unfold step, HttpProxyParser.next_event. destruct (HttpProxyParser.next_in _ _) as [p ev]. cbn [fst snd] in *.
  split_and!; simpl; [done|by rewrite L1, C1| |intros d; rewrite C1; specialize (B d); specialize (B1 d); simpl in *; lia].
  intros d. specialize (A1 d). unfold on_dir in A1. destruct (ev ≫= event_raw) as [[d0 raw]|]; [done|].
  by rewrite app_nil_r in A1.
Qed.
Lemma step_config r op : HttpProxyParser.config (parser (step r op)) = HttpProxyParser.config (parser r).
Proof.
  destruct op as [side data| |side]; unfold step.
  - unfold HttpProxyParser.push. destruct (_ || _); [done|]. by destruct (0 <? _).
  - unfold HttpProxyParser.next_event, HttpProxyParser.next_in.
    by repeat case_match; simplify_eq/=.
  - unfold HttpProxyParser.take_tunnel_residue. by destruct (take_residue _ _).
Qed.
Lemma relay_config c ops : HttpProxyParser.config (parser (relay c ops)) = c.
Proof.
  assert (G : forall r, HttpProxyParser.config (parser (fold_left step ops r)) = HttpProxyParser.config (parser r)); [|apply G].
  induction ops as [|op ops IH]; intros r; [done|]. simpl. by rewrite IH, step_config.
Qed.
Lemma step_late r op : relay_ok r -> late_ok r -> late_ok (step r op).
Proof.
  intros (I & _ & A & _) L d. destruct (L d) as (late & E & O). destruct op as [side data| |side]; unfold step.
  - unfold HttpProxyParser.push. set (e := HttpProxyParser.engine (parser r)) in *. set (d0 := to_dir side).
    case_if; [|set (n := Z.min _ _)]; cbn [parser accepted given]; rewrite !note_at, E; fold e.
    { exists late. rewrite !ztake_0 by lia. split; [|done]. destruct (can_consume e d0), (eqd d0 d); by rewrite !app_nil_r. }
    destruct (decide (d = d0)) as [->|N].
    + rewrite !eqd_refl. destruct (can_consume e d0) eqn:C.
      * rewrite (O eq_refl), !app_nil_r. exists []. split; [by rewrite app_nil_r|done].
      * exists (late ++ ztake n data). rewrite app_nil_r, <- app_assoc. split; [done|]. intros X. exfalso. revert X.
        case_if; [|fold e; congruence]. unfold_upd. simpl. fold e. rewrite push_not by done. congruence.
    + rewrite !eqd_ne, !app_nil_r by done. exists late. split; [done|]. intros X. apply O. revert X.
      case_if; [|done]. unfold_upd. simpl. fold e. unfold push. case_if; [done|].
      unfold can_consume, state_of. by rewrite dir_dir_mut_ne.
  - destruct (next_in_spec [Request; Response] (parser r) (given r) (handed r) I A) as (_ & _ & _ & _ & _ & C1).
    unfold HttpProxyParser.next_event. destruct (HttpProxyParser.next_in _ _) as [p ev]. cbn [fst] in C1.
    exists late. cbn [parser accepted given]. split; [done|]. auto.
  - unfold HttpProxyParser.take_tunnel_residue, take_residue. case_if; [by exists late|].
    destruct (DirMachine.take _ _) as [m bytes] eqn:T. exists late. cbn [parser accepted given]. split; [done|]. intros X. apply O. revert X.
    unfold_upd. simpl. unfold can_consume, state_of. destruct (decide (d = to_dir side)) as [->|N].
    + rewrite dir_set. unfold DirMachine.take in T. injection T as <- _. done.
    + unfold set_dir. by rewrite dir_dir_mut_ne.
Qed.
Lemma relay_run_ok c ops : relay_ok (relay c ops).
Proof.
  unfold relay. pose proof (start_ok c) as I. revert I. generalize (start c). induction ops as [|op ops IH]; intros r I; [done|].
  simpl. apply IH. destruct op; [by apply push_step_ok|by apply next_step_ok|by apply residue_step_ok].
Qed.

Lemma relay_run_late c ops : late_ok (relay c ops).
Proof.
  assert (G : relay_ok (relay c ops) /\ late_ok (relay c ops)); [|apply G]. unfold relay.
  assert (S : relay_ok (start c) /\ late_ok (start c)) by (split; [apply start_ok|by intros []; exists []]).
  revert S. generalize (start c). induction ops as [|op ops IH]; intros r [S L]; [done|].
  apply IH. split; [destruct op; [by apply push_step_ok|by apply next_step_ok|by apply residue_step_ok]|by apply step_late].
Qed.

(** C19: over any pushes, event drains and residue splices, the wire
    bytes an inline parser hands on are those it accepted while the direction
    still parsed, in order, without one lost, changed or repeated: with what
    the direction still holds they are all of them, unless the direction is
    poisoned (then they are the first of them), and after a switch the
    residue is the last of them.  What [push] reports as accepted beyond
    these came after the direction's last message (a direction closed by
    [Connection: close] takes bytes and drops them).  A direction never holds
    more than [max_buffered_bytes]. *)
Theorem relay_partition c ops d :
  let r := relay c ops in
  let e := HttpProxyParser.engine (parser r) in
  (exists late, accepted r d = given r d ++ late /\ (can_consume e d = true -> late = []))
  /\ (exists rest, given r d = handed r d ++ rest)
  /\ (poison e d = None -> given r d = handed r d ++ DirMachine.buf (dir e d))
  /\ (poison e d = None -> is_tunnelled e = true ->
      given (step r (Residue (to_side d))) d = handed (step r (Residue (to_side d))) d)
  /\ buffered e d <= Z.max 0 (HttpProxyConfig.max_buffered_bytes c).
Proof.
  intros r e. pose proof (relay_run_ok c ops) as I. fold r in I.
  assert (C : HttpProxyParser.config (parser r) = c) by apply relay_config.
  pose proof (residue_step_ok r (to_side d) I) as (_ & _ & A' & _). destruct I as (I & _ & A & B).
  destruct (A d) as (_ & A1). fold e in A1. rewrite C in B. split_and!; [apply relay_run_late| | | |apply B].
  - destruct (poison e d); [by destruct A1 as (_ & _ & A1)|by eexists].
  - intros P. by rewrite P in A1.
  - intros P T. rewrite P in A1. simpl. unfold HttpProxyParser.take_tunnel_residue, take_residue. fold e. rewrite T. simpl.
    assert (to_dir (to_side d) = d) as -> by by destruct d.
    rewrite note_at, eqd_refl, A1. f_equal. symmetry. apply ztake_ge. unfold buffered. lia.
Qed.

(** ** Progress *)

(** A direction that waits holds no more than what the caps allow. *)
Definition room (l : EngineLimits.t) : Z :=
  Z.max 24 (Z.max (EngineLimits.max_head_bytes l) (Z.max (EngineLimits.max_chunk_line_bytes l) (EngineLimits.max_trailer_bytes l))).
Lemma preface_partial_short buf : preface_match buf = PrefaceMatch.Partial -> zlen buf < 24.
Proof.
  unfold preface_match. change (zlen H2_PREFACE) with 24. case_if; [done|]. by destruct (Z.leb_spec 24 (zlen buf)).
Qed.
Lemma head_waits_bound e d e' :
  engine_ok e -> state_of e d = Head -> poll_head e d = (e', Ok None) -> zlen (DirMachine.buf (dir e d)) <= room (limits e).
Proof.
  intros I S. unfold poll_head, room. destruct (if bool_decide (d = Request) then _ else _) eqn:P; [done|..].
  - intros _. destruct (bool_decide _); [|done]. apply preface_partial_short in P. lia.
  - destruct (scan_blank_line _ _) as [[hlen|] sc].
    + intros Q. exfalso. revert Q. unfold finish_response_head, fail, emit. intros Q. repeat case_match; simplify_eq/=.
    + case_if; [done|]. lia.
Qed.
Lemma body_waits_bound e d body e' :
  engine_ok e -> state_of e d = Body body -> poll_body e d body = (e', Ok NeedMore) ->
  zlen (DirMachine.buf (dir e d)) <= room (limits e).
Proof.
  intros I S. pose proof (ok_dir e d I) as (_ & Q). unfold resumable in Q. unfold state_of in S. rewrite S in Q.
  pose proof (zlen_nonneg (DirMachine.buf (dir e d))). unfold poll_body, poll_chunked, room, emit, fail.
  intros E. repeat case_match; simplify_eq/=; zb; lia.
Qed.
Lemma poll_waits_bound e d e' :
  engine_ok e -> state_of e d <> Resync -> poll e d = (e', Ok None) -> can_consume e d = true ->
  buffered e' d <= room (limits e).
Proof.
  intros I R P C. pose proof (poll_steps e d I R) as W. rewrite P in W. destruct W as (m & Em & B & _). simpl in Em.
  assert (E : buffered e' d = zlen (DirMachine.buf (dir e d))) by (subst e'; unfold buffered; by rewrite dir_set, B).
  rewrite E. rewrite poll_eq in P. unfold can_consume in C. destruct (state_of e d) as [|body| | | |] eqn:S; try done.
  - by apply head_waits_bound in P.
  - destruct (poll_body e d body) as [e1 [[ev| |]|err]] eqn:Q; try done.
    + by apply (body_waits_bound _ _ _ e1) in Q.
    + pose proof (poll_body_steps e d body I S) as G. rewrite Q in G. destruct G as (s & E1 & L & _). simpl in E1.
      pose proof (again_trailer _ _ _ _ Q) as S1.
      assert (I1 : engine_ok e1) by (subst e1; by apply ok_set).
      rewrite trailer_poll_eq in P by done. destruct (poll_chunked e1 d Trailer) as [e2 [[ev| |]|err]] eqn:Q2; try done.
      * apply (body_waits_bound _ _ (Chunked Trailer) _ I1 S1) in Q2. revert Q2. subst e1.
        by rewrite dir_set, limits_set.
      * pose proof (poll_body_steps e1 d (Chunked Trailer) I1 S1) as G.
        change (poll_body e1 d (Chunked Trailer)) with (poll_chunked e1 d Trailer) in G. rewrite Q2 in G.
        destruct G as (? & _ & _ & G). congruence.
Qed.

(** The events loop ends: each event is progress, and none is lost. *)
Definition total_work (e : t) : nat := work e Request + work e Response.
Lemma work_dir e e' d : dir e' d = dir e d -> work e' d = work e d.
Proof. intros E. unfold work, state_of. by rewrite E. Qed.
Lemma work_tunnel e e' d : dir e' d = dir e d <| DirMachine.state := Tunnel |> -> (work e' d <= work e d)%nat.
Proof. intros E. unfold work, state_of. rewrite E. simpl. lia. Qed.
Lemma poll_work e d :
  engine_ok e -> state_of e d <> Resync ->
  (forall d', work (fst (poll e d)) d' <= work e d')%nat
  /\ (forall ev, snd (poll e d) = Ok (Some ev) -> work (fst (poll e d)) d < work e d)%nat.
Proof.
  intros I R. split; [|apply poll_progress, I]. intros d'. destruct (decide (d' = d)) as [->|N].
  - pose proof (poll_steps e d I R) as S. destruct (poll e d) as [e1 [[ev|]|err]]; cbn [fst] in *.
    + destruct S as (_ & _ & _ & W & _). simpl in W. lia.
    + by destruct S as (m & _ & _ & _ & _ & W).
    + destruct S as (_ & _ & _ & m & reason & S). inversion S as [[E Er]]. unfold work, state_of. simpl. rewrite <- E. simpl. lia.
  - destruct (poll_other e d d' I R N) as [E|E]; [by rewrite (work_dir _ _ _ E)|by apply work_tunnel].
Qed.
Definition steady (e : t) : Prop := engine_ok e /\ forall d, state_of e d <> Resync.
Lemma poll_steady e d : steady e -> steady (fst (poll e d)).
Proof.
  intros (I & R). split; [by apply poll_progress|]. intros d'. destruct (decide (d' = d)) as [->|N].
  - destruct (poll e d) as [e1 r] eqn:P. by apply poll_not_resync in P.
  - destruct (poll_other e d d' I (R d) N) as [E|E]; unfold state_of; rewrite E; [apply R|done].
Qed.
Lemma next_in_work dirs p :
  steady (HttpProxyParser.engine p) ->
  let q := fst (HttpProxyParser.next_in dirs p) in
  steady (HttpProxyParser.engine q) /\ limits (HttpProxyParser.engine q) = limits (HttpProxyParser.engine p)
  /\ (total_work (HttpProxyParser.engine q) <= total_work (HttpProxyParser.engine p))%nat
  /\ (snd (HttpProxyParser.next_in dirs p) <> None -> total_work (HttpProxyParser.engine q) < total_work (HttpProxyParser.engine p))%nat.
Proof.
  revert p. induction dirs as [|d dirs IH]; intros p I; [done|]. cbn [HttpProxyParser.next_in].
  pose proof (poll_steady _ d I) as I1. destruct I as (I & R).
  pose proof (poll_work _ d I (R d)) as (W1 & W2). pose proof (proj1 (proj2 (poll_progress _ d I))) as L1.
  destruct (poll (HttpProxyParser.engine p) d) as [e1 r]. cbn [fst snd] in *.
  pose proof (IH (p <| HttpProxyParser.engine := e1 |>)) as Q. simpl in Q. specialize (Q I1). destruct Q as (Q1 & Q0 & Q2 & Q3).
  pose proof (W1 Request). pose proof (W1 Response). unfold total_work in *.
  destruct r as [[ev|]|err]; cbn [fst snd].
  - specialize (W2 ev eq_refl). simpl. split_and!; [done|done|lia|]. intros _. destruct d; lia.
  - split_and!; [done|congruence|simpl in *; lia|]. intros N. specialize (Q3 N). simpl in *. lia.
  - split_and!; [done|congruence|simpl in *; lia|]. intros N. specialize (Q3 N). simpl in *. lia.
Qed.
Lemma events_complete p :
  steady (HttpProxyParser.engine p) -> exists q, HttpProxyParser.next_event q = (fst (HttpProxyParser.events p), None)
  /\ steady (HttpProxyParser.engine q) /\ limits (HttpProxyParser.engine q) = limits (HttpProxyParser.engine p).
Proof.
  unfold HttpProxyParser.events. intros I.
  assert (G : forall n p, (total_work (HttpProxyParser.engine p) < n)%nat -> steady (HttpProxyParser.engine p) ->
    exists q, HttpProxyParser.next_event q = (fst (HttpProxyParser.events_fuel n p), None) /\ steady (HttpProxyParser.engine q)
    /\ limits (HttpProxyParser.engine q) = limits (HttpProxyParser.engine p)).
  { clear. induction n as [|n IH]; intros p L I; [lia|]. cbn [HttpProxyParser.events_fuel].
    pose proof (next_in_work [Request; Response] p I) as (I1 & L1 & _ & W). fold (HttpProxyParser.next_event p) in *.
    destruct (HttpProxyParser.next_event p) as [p1 [ev|]] eqn:E; cbn [fst snd] in *.
    - destruct (IH p1) as (q & Q1 & Q2 & Q3); [specialize (W ltac:(done)); lia|done|]. exists q.
      destruct (HttpProxyParser.events_fuel n p1). split_and!; [done..|congruence].
    - by exists p. }
  apply G; [unfold total_work; lia|done].
Qed.

Lemma relay_steady r : relay_ok r -> steady (HttpProxyParser.engine (parser r)).
Proof. intros (I & _ & A & _). split; [done|]. intros d. apply (A d). Qed.
Lemma idle_stays e d d' : can_consume e d' = false -> steady e -> can_consume (fst (poll e d)) d' = false.
Proof.
  intros C (I & R). destruct (decide (d' = d)) as [->|N]; [by rewrite poll_idle|].
  unfold can_consume, state_of in *. by destruct (poll_other e d d' I (R d) N) as [->| ->].
Qed.
(** One direction, through one round of [next_event] that reports nothing. *)
Lemma round_bound e d e' :
  steady e -> fst (poll e d) = e' -> (forall ev, snd (poll e d) <> Ok (Some ev)) -> can_consume e' d = true ->
  buffered e' d <= room (limits e).
Proof.
  intros (I & R) E N C. destruct (can_consume e d) eqn:C0.
  2:{ rewrite <- E, poll_idle in C by done. simpl in C. congruence. }
  pose proof (poll_steps e d I (R d)) as S. destruct (poll e d) as [e1 [[ev|]|err]] eqn:P; cbn [fst snd] in *; subst e'.
  - by destruct (N ev).
  - by apply (poll_waits_bound e d).
  - destruct S as (_ & _ & _ & m & reason & S). apply desync_idle in S. simpl in S. congruence.
Qed.
Lemma drained_bound q p d :
  steady (HttpProxyParser.engine q) -> HttpProxyParser.next_event q = (p, None) ->
  can_consume (HttpProxyParser.engine p) d = true ->
  buffered (HttpProxyParser.engine p) d <= room (limits (HttpProxyParser.engine q)).
Proof.
  set (e := HttpProxyParser.engine q). intros I E C.
  pose proof (poll_steady e Request I) as I1. unfold HttpProxyParser.next_event, HttpProxyParser.next_in in E. fold e in E.
  pose proof (fun d' => poll_buffered (fst (poll e Request)) Response d' (proj1 I1) (proj2 I1 Response)) as B2.
  pose proof (idle_stays (fst (poll e Request)) Response Request) as S2.
  pose proof (proj1 (proj2 (poll_progress e Request (proj1 I)))) as L1.
  pose proof (round_bound e Request _ I eq_refl) as B1.
  destruct (poll e Request) as [e1 r1]. cbn [fst snd] in *.
  pose proof (round_bound e1 Response _ I1 eq_refl) as B3. rewrite L1 in B3.
  destruct (poll e1 Response) as [e2 r2] eqn:P2. cbn [fst snd] in *.
  assert (N1 : forall ev, r1 <> Ok (Some ev)) by (intros ev ->; by simplify_eq).
  assert (Ep : HttpProxyParser.engine p = e2 /\ forall ev, r2 <> Ok (Some ev)).
  { destruct r1 as [[ev|]|err]; [by destruct (N1 ev)|..];
      change (HttpProxyParser.engine (q <| HttpProxyParser.engine := e1 |>)) with e1 in E; rewrite P2 in E;
      by destruct r2 as [[ev|]|err']; simplify_eq. }
  destruct Ep as (Ep & N2). rewrite Ep in *. destruct d; [|by apply B3].
  destruct (can_consume e1 Request) eqn:C1; [|by rewrite S2 in C].
  specialize (B1 N1 eq_refl). specialize (B2 Request). lia.
Qed.
Lemma events_config p : HttpProxyParser.config (fst (HttpProxyParser.events p)) = HttpProxyParser.config p.
Proof.
  unfold HttpProxyParser.events. generalize (S (work (HttpProxyParser.engine p) Request + work (HttpProxyParser.engine p) Response)).
  intros n. revert p. induction n as [|n IH]; intros p; [done|]. cbn [HttpProxyParser.events_fuel].
  pose proof (step_config (mk_relay p (fun _ => []) (fun _ => []) (fun _ => [])) Next) as C. simpl in C.
  destruct (HttpProxyParser.next_event p) as [p1 [ev|]]; simpl in C; [|done]. specialize (IH p1).
  destruct (HttpProxyParser.events_fuel n p1). simpl in *. congruence.
Qed.
(** C21: an inline parser whose events have been drained, and which is
    neither poisoned nor tunnelled, always takes more bytes of a direction
    that still parses: as many as are offered, or at least what
    [max_buffered_bytes] leaves above the largest cap on unparsed data (and
    the 24 bytes of an HTTP/2 preface).  So
    with [max_buffered_bytes] above the caps a direction never stalls before
    its last message is over: until then a zero means that the connection is
    poisoned or tunnelled.  (One closed by [Connection: close] may be full
    for good: [closed_direction_full].) *)
Theorem drained_parser_accepts c ops side data :
  let p := fst (HttpProxyParser.events (parser (relay c ops))) in
  HttpProxyParser.is_poisoned p = false -> HttpProxyParser.is_tunnelled p = false ->
  can_consume (HttpProxyParser.engine p) (to_dir side) = true ->
  Z.min (zlen data) (HttpProxyConfig.max_buffered_bytes c - room (HttpProxyConfig.limits c))
    <= snd (HttpProxyParser.push p side data).
Proof.
  intros p NP NT C. pose proof (relay_run_ok c ops) as I. pose proof (relay_steady _ I) as St.
  destruct I as (_ & L & _). rewrite relay_config in L.
  destruct (events_complete _ St) as (q & Q & Sq & Lq). fold p in Q.
  unfold HttpProxyParser.push. unfold HttpProxyParser.is_tunnelled in NT. rewrite NP, NT. simpl.
  pose proof (drained_bound q p (to_dir side) Sq Q C) as B. rewrite Lq, L in B.
  assert (Cc : HttpProxyParser.config p = c) by (unfold p; by rewrite events_config, relay_config).
  rewrite Cc. unfold sat_sub. lia.
Qed.
End relay.

(** A request and its response, then the switch to a tunnel. *)
Notation connect_ops :=
  [Push Initiator (wire [bstr "CONNECT h:443 HTTP/1.1"; bstr "Host: h"; []]); Next; Next;
   Push Responder (wire [bstr "HTTP/1.1 200 OK"; []] ++ bstr "early"); Next; Next; Next] (only parsing).
Lemma relay_partition_witness :
  given (step (relay HttpProxyConfig.default connect_ops) (Residue Responder)) Response
  = handed (step (relay HttpProxyConfig.default connect_ops) (Residue Responder)) Response.
Proof.
  apply (relay_partition HttpProxyConfig.default connect_ops Response); vm_compute; reflexivity.
Defined.
Notation stalled_ops :=
  [Push Initiator (wire [bstr "POST /a HTTP/1.1"; bstr "Host: h"; bstr "Content-Length: 9"; []] ++ bstr "abc"); Next] (only parsing).
Lemma drained_parser_accepts_witness :
  Z.min (zlen (bstr "defghi")) (HttpProxyConfig.max_buffered_bytes HttpProxyConfig.default
      - room (HttpProxyConfig.limits HttpProxyConfig.default))
    <= snd (HttpProxyParser.push (fst (HttpProxyParser.events (parser (relay HttpProxyConfig.default stalled_ops))))
              Initiator (bstr "defghi")).
Proof.
  apply (drained_parser_accepts HttpProxyConfig.default stalled_ops Initiator (bstr "defghi")); vm_compute; reflexivity.
Defined.

(** ** Where the front-end and its documentation part *)

(** [max_buffered_bytes] equal to [max_head_bytes] is not enough: a longer
    head fills the buffer, is never refused, and nothing more is accepted. *)
Example full_head_stalls :
  let c := HttpProxyConfig.mk 20 16 16 16 4 Strict 20 in
  let p := fst (HttpProxyParser.events (parser (relay c [Push Initiator (bstr "GET /0123456789abcdef HTTP/1.1")]))) in
  HttpProxyParser.is_poisoned p = false /\ HttpProxyParser.is_tunnelled p = false
  /\ snd (HttpProxyParser.push p Initiator (bstr "more")) = 0.
Proof. by vm_compute. Qed.

Notation old_response :=
  [Push Initiator (wire [bstr "GET /a HTTP/1.0"; []]); Next; Next;
   Push Responder (wire [bstr "HTTP/1.0 200 OK"; []] ++ bstr "ab"); Next; Next; Next; Push Responder (bstr "cd")] (only parsing).
(** The end of a close-delimited response: the bytes not yet drained are
    dropped, no [End] is reported, and the access log has no response. *)
Example close_delimited_end :
  let r := relay HttpProxyConfig.default old_response in
  let p := HttpProxyParser.fin (parser r) Responder in
  DirMachine.buf (dir (HttpProxyParser.engine (parser r)) Response) = bstr "cd"
  /\ DirMachine.buf (dir (HttpProxyParser.engine p) Response) = []
  /\ snd (HttpProxyParser.events p) = [].
Proof. by vm_compute. Qed.
Fixpoint observe_all (l : HttpAccessLog.t) (evs : list HttpEvent.t) : HttpAccessLog.t * list HttpAccessRecord.t :=
  match evs with
  | [] => (l, [])
  | ev :: evs =>
      let (l, out) := HttpAccessLog.observe l ev in
      let (l, out') := observe_all l evs in (l, out ++ out')
  end.
Example close_delimited_unlogged :
  let p := fst (HttpProxyParser.push HttpProxyParser.new Initiator (wire [bstr "GET /a HTTP/1.0"; []])) in
  let p := fst (HttpProxyParser.push p Responder (wire [bstr "HTTP/1.0 200 OK"; []] ++ bstr "ab")) in
  let (p, evs) := HttpProxyParser.events p in
  let (p, evs') := HttpProxyParser.events (HttpProxyParser.fin p Responder) in
  let (l, out) := observe_all HttpAccessLog.new (evs ++ evs') in
  out = [] /\ HttpAccessRecord.outcome <$> snd (HttpAccessLog.finish l (HttpProxyParser.poison p)) = [HttpAccessOutcome.NoResponse].
Proof. by vm_compute. Qed.

(** A closed direction reports bytes as accepted and drops them. *)
Example closed_push_drops :
  let r := relay HttpProxyConfig.default
    [Push Initiator (wire [bstr "GET /a HTTP/1.1"; bstr "Host: h"; bstr "Connection: close"; []]); Next; Next] in
  let (p, n) := HttpProxyParser.push (parser r) Initiator (bstr "GET /b") in
  n = 6 /\ HttpProxyParser.engine p = HttpProxyParser.engine (parser r).
Proof. by vm_compute. Qed.

(** A direction may be closed while its buffer is full: neither poisoned nor
    tunnelled, and drained, it accepts nothing any more. *)
Example closed_direction_full :
  let c := HttpProxyConfig.mk 60 16 16 16 4 Strict 100 in
  let r := relay c
    [Push Initiator (wire [bstr "GET /a HTTP/1.1"; bstr "Host: h"; bstr "Connection: close"; []]); Next;
     Push Initiator (repeat 65 100); Next] in
  let p := fst (HttpProxyParser.events (parser r)) in
  HttpProxyParser.is_poisoned p = false /\ HttpProxyParser.is_tunnelled p = false
  /\ snd (HttpProxyParser.push p Initiator (bstr "GET /b")) = 0.
Proof. by vm_compute. Qed.

(** Client bytes given between a [101] head and its switch event are parsed
    as a request: they are destroyed, and the poisoned connection is no
    longer poisoned once the switch is reported. *)
Example switch_destroys_client_bytes :
  let r := relay HttpProxyConfig.default
    [Push Initiator (wire [bstr "GET /ws HTTP/1.1"; bstr "Host: h"; bstr "Upgrade: websocket"; []]); Next; Next;
     Push Responder (wire [bstr "HTTP/1.1 101 Switching"; bstr "Upgrade: websocket"; []]); Next;
     Push Initiator ([129; 10; 10])] in
  let r' := step r Next in
  HttpProxyParser.is_tunnelled (parser r') = true /\ HttpProxyParser.is_poisoned (parser r') = false
  /\ HttpProxyParser.poison (parser r') = Some MalformedHead
  /\ snd (HttpProxyParser.take_tunnel_residue (parser r') Initiator) = []
  /\ given r' Request = handed r' Request ++ [129; 10; 10].
Proof. by vm_compute. Qed.
