(* ===== verification/Http1Framing.v ===== *)
(** * Unambiguous framing (src/src/http/engine.rs, types.rs)

    Under the strict policy a message the engine frames is framed alike by
    every recipient of a family that resolves the RFC 9112 ambiguities its
    own way; and the authority to route on does not depend on case. *)

From S2P Require Import Prelude Flow Text Http1 Http1Engine.
Import HttpPoison SmugglingPolicy.

(** A recipient: does [Transfer-Encoding] win over [Content-Length], does a
    coding count anywhere in the list or only last, which of several
    [Transfer-Encoding] fields it reads, which of several lengths it takes. *)
Record Recipient := mk_recipient {
  te_first : bool; any_coding : bool; which_te : list (list Z) -> list (list Z);
  which_length : list Z -> option Z }.
Definition sound (r : Recipient) : Prop :=
  (forall v, which_te r [v] = [v]) /\ which_te r [] = []
  /\ forall n ns, exists m, which_length r (n :: ns) = Some m /\ m ∈ n :: ns.
(** The lengths it sees: empty items and what is no number are skipped. *)
Definition lengths_of (hs : list Header) : list Z :=
  omap parse_decimal (List.filter (fun t => negb (is_nil t))
    (concat (list_items <$> header_lookup hs (bstr "content-length")))).
(** How the recipient reads the body: chunked, or of that length. *)
Definition reads (r : Recipient) (hs : list Header) : bool * option Z :=
  let codings := codings_of (which_te r (header_lookup hs (bstr "transfer-encoding"))) in
  let chunked := if any_coding r then existsb is_chunked codings else is_some_and is_chunked (last codings) in
  let length := match lengths_of hs with [] => None | ns => which_length r ns end in
  if chunked && (te_first r || is_none length) then (true, None) else (false, length).

Lemma check_codings_last codings :
  check_codings codings = Ok tt -> existsb is_chunked codings = is_some_and is_chunked (last codings).
Proof.
  induction codings as [|c codings IH]; [done|]. cbn [check_codings existsb]. intros E.
  destruct (negb (is_chunked c) && _); [done|]. destruct (is_chunked c) eqn:Hc; simpl in E.
  - destruct codings; [by rewrite last_singleton; simpl; rewrite Hc|done].
  - rewrite IH by done. destruct codings; [by rewrite last_singleton; simpl; rewrite Hc|]. by rewrite last_cons_cons.
Qed.
Lemma resolve_te_strict values te :
  resolve_te false values = Ok te ->
  zlen values <= 1 /\ existsb is_chunked (codings_of values) = te /\ is_some_and is_chunked (last (codings_of values)) = te.
Proof.
  unfold resolve_te. destruct values as [|v values]; [intros [= <-]; split; [unfold zlen; simpl; lia|done]|]. cbn [is_nil].
  destruct (Z.ltb_spec 1 (zlen (v :: values))); [done|]. simpl (_ && _). cbv iota. cbn [negb].
  intros ([] & Q & R)%rbind_Ok. pose proof (check_codings_last _ Q) as L. rewrite L.
  destruct (is_some_and is_chunked _) eqn:E; simplify_eq/=. split; [lia|done].
Qed.
Lemma parse_lengths_strict items ns :
  parse_lengths false items = Ok ns -> ns = omap parse_decimal (List.filter (fun t => negb (is_nil t)) items).
Proof.
  revert ns. induction items as [|t items IH]; intros ns; simpl; [by intros [= <-]|].
  destruct (is_nil t); simpl; [apply IH|]. destruct (parse_decimal t) as [n|]; [|done].
  intros (l & Q & [= <-])%rbind_Ok. f_equal. by apply IH.
Qed.
Lemma resolve_cl_strict chunked values cl applied :
  resolve_cl false chunked values = Ok (cl, applied) ->
  let ns := omap parse_decimal (List.filter (fun t => negb (is_nil t)) (concat (list_items <$> values))) in
  match ns with [] => cl = None | n :: _ => cl = Some n /\ forall m, m ∈ ns -> m = n end.
Proof.
  unfold resolve_cl. intros (ns & Q & R)%rbind_Ok. apply parse_lengths_strict in Q. simpl. rewrite <- Q.
  destruct ns as [|n ns]; [by destruct (_ && _); simplify_eq|].
  destruct (existsb _ (n :: ns)) eqn:E; [done|]. simplify_eq. split; [done|]. intros m Hm.
  destruct (Z.eq_dec m n) as [|N]; [done|]. exfalso.
  assert (existsb (fun k => negb (k =? n)) (n :: ns) = true); [|congruence].
  apply existsb_exists. exists m. split; [by apply list_elem_of_In|]. destruct (Z.eqb_spec m n); done.
Qed.

(** C20: when the strict policy lets a message through, any two recipients
    frame it alike: whether they prefer the transfer coding or the length,
    look for [chunked] anywhere or last, and whichever of several fields or
    lengths they believe, they read the body the way the engine does.  Under
    the normalizing policy the same holds of all that prefer the coding. *)
Theorem strict_framing_unambiguous hs policy te cl applied r :
  framing_headers hs policy = Ok (te, cl, applied) -> sound r ->
  policy = Strict \/ policy = Normalize /\ te_first r = true ->
  reads r hs = (te, cl).
Proof.
  intros F (S1 & S2 & S3) P. unfold framing_headers in F.
  assert (O : bool_decide (policy = Observe) = false) by (apply bool_decide_eq_false; destruct P as [->|[-> _]]; done).
  rewrite O in F. apply rbind_Ok in F as (c & Q & F). apply rbind_Ok in F as ([k a] & Q' & F).
  apply resolve_te_strict in Q as (L & T1 & T2). apply resolve_cl_strict in Q'. fold (lengths_of hs) in Q'.
  assert (W : which_te r (header_lookup hs (bstr "transfer-encoding")) = header_lookup hs (bstr "transfer-encoding")).
  { destruct (header_lookup _ _) as [|v [|w vs]]; [done..|]. rewrite !zlen_cons in L. pose proof (zlen_nonneg vs). lia. }
  unfold reads. rewrite W, T1, T2. assert ((if any_coding r then c else c) = c) as -> by by destruct (any_coding r).
  assert (E : match lengths_of hs with [] => None | ns => which_length r ns end = k).
  { destruct (lengths_of hs) as [|n ns]; [done|]. destruct Q' as (-> & U). destruct (S3 n ns) as (m & -> & Hm).
    f_equal. by apply U. }
  rewrite E. destruct c, k as [n|]; simpl in *; rewrite ?orb_true_r; try by simplify_eq.
  destruct P as [->|[-> ->]]; [done|]. by simplify_eq.
Qed.

Notation smuggled :=
  [(bstr "Host", bstr "h"); (bstr "Content-Length", bstr "5, 5"); (bstr "content-length", bstr " 5")] (only parsing).
Lemma strict_framing_unambiguous_witness :
  reads (mk_recipient false true (fun vs => match reverse vs with v :: _ => [v] | [] => [] end) (fun ns => last ns)) smuggled
  = (false, Some 5).
Proof.
  apply (strict_framing_unambiguous smuggled Strict false (Some 5) [CollapsedContentLength]).
  - vm_compute. reflexivity.
  - split; [reflexivity|split; [reflexivity|]]. simpl. intros n ns. destruct (last (n :: ns)) as [m|] eqn:E.
    + exists m. split; [reflexivity|]. by apply last_Some_elem_of.
    + by apply last_None in E.
  - left. reflexivity.
Defined.

(** ** The routing key *)
Lemma to_lower_eqb b c : is_alpha c = false -> (to_lower b =? c) = (b =? c).
Proof.
  intros N. unfold to_lower. destruct (is_upper b) eqn:E; [|done].
  unfold is_alpha, is_upper, is_lower in *. apply orb_false_elim in N as (N1 & N2).
  apply andb_prop in E as [E1 E2]. apply andb_false_iff in N1, N2.
  destruct (Z.eqb_spec (b + 32) c), (Z.eqb_spec b c); try done; exfalso; lia.
Qed.
Lemma to_lower_digit b : is_digit (to_lower b) = is_digit b.
Proof.
  unfold to_lower. destruct (is_upper b) eqn:E; [|done]. unfold is_digit, is_upper in *. zb.
  destruct (Z.leb_spec (b + 32) 57), (Z.leb_spec b 57); try lia; by rewrite !andb_false_r.
Qed.
Lemma digit_lower b : is_digit b = true -> to_lower b = b.
Proof. unfold to_lower, is_digit, is_upper. intros E. zb. by destruct (Z.leb_spec 65 b); [lia|]. Qed.
Lemma to_lower_idem b : to_lower (to_lower b) = to_lower b.
Proof. unfold to_lower, is_upper. destruct ((65 <=? b) && (b <=? 90)) eqn:E; [|by rewrite E]. zb. destruct (Z.leb_spec (b + 32) 90); [lia|by rewrite andb_false_r]. Qed.
Lemma lowercase_idem s : lowercase (lowercase s) = lowercase s.
Proof. unfold lowercase. rewrite <- list_fmap_compose. apply list_fmap_ext. intros i b _. apply to_lower_idem. Qed.

Lemma to_lower_ascii b : (to_lower b <? 128) = (b <? 128).
Proof.
  unfold to_lower. destruct (is_upper b) eqn:E; [|done]. unfold is_upper in E. zb.
  destruct (Z.ltb_spec (b + 32) 128), (Z.ltb_spec b 128); try lia; done.
Qed.
Lemma lowercase_ascii s : is_ascii (lowercase s) = is_ascii s.
Proof.
  induction s as [|b s IH]; [done|]. change (is_ascii (lowercase (b :: s))) with ((to_lower b <? 128) && is_ascii (lowercase s)).
  by rewrite IH, to_lower_ascii.
Qed.
Lemma split_once_lowercase c s :
  is_alpha c = false -> split_once c (lowercase s) = (fun p => (lowercase p.1, lowercase p.2)) <$> split_once c s.
Proof.
  intros N. induction s as [|b s IH]; [done|]. simpl. rewrite to_lower_eqb by done. case_if; [done|].
  change (to_lower <$> s) with (lowercase s). rewrite IH. by destruct (split_once c s).
Qed.
Lemma lowercase_rev s : lowercase (rev s) = rev (lowercase s).
Proof. induction s as [|b s IH]; [done|]. simpl. unfold lowercase in *. by rewrite fmap_app, IH. Qed.
Lemma rsplit_once_lowercase c s :
  is_alpha c = false -> rsplit_once c (lowercase s) = (fun p => (lowercase p.1, lowercase p.2)) <$> rsplit_once c s.
Proof.
  intros N. unfold rsplit_once. rewrite <- lowercase_rev, split_once_lowercase by done.
  destruct (split_once c (rev s)) as [[a b]|]; [|done]. simpl. by rewrite !lowercase_rev.
Qed.
Lemma strip_lowercase c s :
  is_alpha c = false -> strip_prefix [c] (lowercase s) = lowercase <$> strip_prefix [c] s.
Proof.
  intros N. destruct s as [|b s]; [done|]. simpl. rewrite Z.eqb_sym, to_lower_eqb, (Z.eqb_sym b c) by done. by case_if.
Qed.
Lemma parse_digits_lowercase max s : forall n, parse_digits max n (lowercase s) = parse_digits max n s.
Proof.
  induction s as [|b s IH]; intros n; [done|]. simpl. rewrite to_lower_digit. destruct (is_digit b) eqn:D; [|done].
  rewrite digit_lower by done. case_if; [done|]. apply IH.
Qed.
Lemma parse_uint_other max b s : b <> 43 -> b <> 45 -> parse_uint max (b :: s) = parse_digits max 0 (b :: s).
Proof. intros N1 N2. unfold parse_uint. repeat case_match; simplify_eq; done. Qed.
Lemma parse_uint_lowercase max s : parse_uint max (lowercase s) = parse_uint max s.
Proof.
  destruct s as [|b s]; [done|]. destruct (Z.eq_dec b 43) as [->|N1]; [|destruct (Z.eq_dec b 45) as [->|N2]].
  - destruct s as [|c s]; [done|]. apply (parse_digits_lowercase max (c :: s) 0).
  - destruct s as [|c s]; [done|]. apply (parse_digits_lowercase max (45 :: c :: s) 0).
  - assert (L : forall c, is_alpha c = false -> b <> c -> to_lower b <> c).
    { intros c A N E. apply N. apply Z.eqb_eq. rewrite <- (to_lower_eqb b c A). by apply Z.eqb_eq. }
    change (lowercase (b :: s)) with (to_lower b :: lowercase s). rewrite !parse_uint_other; auto.
    apply (parse_digits_lowercase max (b :: s) 0).
Qed.
Lemma digits_lowercase s : forallb is_digit (lowercase s) = forallb is_digit s.
Proof. induction s as [|b s IH]; [done|]. simpl. rewrite to_lower_digit. f_equal. apply IH. Qed.
Lemma is_nil_lowercase s : is_nil (lowercase s) = is_nil s.
Proof. by destruct s. Qed.

(** The host and port of an authority. *)
Definition route (raw : list Z) : result HttpPoison.t (list Z * option Z) :=
  let? a := parse_authority raw in Ok (Authority.host a, Authority.port a).
Lemma route_lowercase raw : route (lowercase raw) = route raw.
Proof.
  unfold route, parse_authority. rewrite lowercase_ascii. case_if; [done|].
  rewrite rsplit_once_lowercase by done.
  assert (E : match (fun p : list Z * list Z => (lowercase p.1, lowercase p.2)) <$> rsplit_once 64 raw with
              | Some (_, after) => after | None => lowercase raw end
            = lowercase match rsplit_once 64 raw with Some (_, after) => after | None => raw end).
  { by destruct (rsplit_once 64 raw) as [[]|]. }
  rewrite E. set (s := match rsplit_once 64 raw with Some (_, after) => after | None => raw end). clearbody s.
  change (bstr "[") with [91]. rewrite strip_lowercase by done.
  destruct (strip_prefix [91] s) as [rest|]; cbn [fmap option_fmap option_map].
  - rewrite split_once_lowercase by done. destruct (split_once 93 rest) as [[inside after]|]; [|done].
    cbn [fmap option_fmap option_map fst snd].
    change (bstr ":") with [58]. rewrite strip_lowercase, lowercase_idem by done.
    destruct (strip_prefix [58] after) as [p|]; [|done]. cbn [fmap option_fmap option_map].
    rewrite is_nil_lowercase, parse_uint_lowercase. case_if; [done|]. by destruct (parse_uint _ p).
  - rewrite rsplit_once_lowercase by done.
    destruct (rsplit_once 58 s) as [[h p]|]; cbn [fmap option_fmap option_map fst snd]; [|by rewrite lowercase_idem].
    rewrite is_nil_lowercase, digits_lowercase, parse_uint_lowercase, !lowercase_idem.
    repeat case_if; try done. by destruct (parse_uint _ p).
Qed.
(** An ASCII byte that is no capital. *)
Definition lower_ascii (b : Z) : bool := (b <? 128) && negb (is_upper b).
Lemma lowercase_lower s : is_ascii s = true -> forallb lower_ascii (lowercase s) = true.
Proof.
  induction s as [|b s IH]; [done|]. unfold is_ascii in *. simpl. intros [B S]%andb_prop.
  apply andb_true_intro. split; [|by apply IH]. unfold lower_ascii, to_lower. destruct (is_upper b) eqn:U.
  - unfold is_upper in *. zb. destruct (Z.ltb_spec (b + 32) 128), (Z.leb_spec (b + 32) 90); try lia; by rewrite andb_false_r.
  - by rewrite B, U.
Qed.
Lemma is_ascii_app a b : is_ascii (a ++ b) = is_ascii a && is_ascii b.
Proof. apply forallb_app. Qed.
Lemma is_ascii_rev s : is_ascii (rev s) = is_ascii s.
Proof. unfold is_ascii. induction s as [|b s IH]; [done|]. simpl. rewrite forallb_app, IH. simpl. rewrite andb_true_r. apply andb_comm. Qed.
Lemma split_once_ascii c s a b : split_once c s = Some (a, b) -> is_ascii s = true -> is_ascii a = true /\ is_ascii b = true.
Proof.
  intros [-> _]%split_once_spec. rewrite is_ascii_app. intros [A B]%andb_prop. split; [done|].
  unfold is_ascii in *. simpl in B. by apply andb_prop in B as [_ B].
Qed.
Lemma rsplit_once_ascii c s a b : rsplit_once c s = Some (a, b) -> is_ascii s = true -> is_ascii a = true /\ is_ascii b = true.
Proof.
  unfold rsplit_once. destruct (split_once c (rev s)) as [[x y]|] eqn:E; [|done]. intros [= <- <-] A.
  rewrite !is_ascii_rev. apply split_once_ascii in E; [tauto|by rewrite is_ascii_rev].
Qed.

(** C39: a routable authority is in normal form: the host has only ASCII
    bytes and no capital letter, the port is a [u16]; and it does not depend
    on the case the client wrote: authorities equal up to ASCII case route
    alike, or are refused alike. *)
Theorem authority_normal_form raw a :
  parse_authority raw = Ok a ->
  Authority.raw a = raw /\ forallb lower_ascii (Authority.host a) = true
  /\ (forall n, Authority.port a = Some n -> 0 <= n <= U16_MAX)
  /\ forall raw', lowercase raw' = lowercase raw -> route raw' = Ok (Authority.host a, Authority.port a).
Proof.
  intros P. split_and!.
  4:{ intros raw' E. rewrite <- route_lowercase, E, route_lowercase. unfold route. by rewrite P. }
  all: revert P; unfold parse_authority; destruct (is_ascii raw) eqn:A; [|done]; cbn [negb].
  - repeat case_match; intros; simplify_eq; done.
  - set (s := match rsplit_once 64 raw with Some (_, after) => after | None => raw end).
    assert (As : is_ascii s = true).
    { unfold s. destruct (rsplit_once 64 raw) as [[x y]|] eqn:E; [|done]. by apply rsplit_once_ascii in E as (_ & ?). }
    clearbody s. change (bstr "[") with [91]. destruct (strip_prefix [91] s) as [rest|] eqn:E.
    + apply strip_prefix_spec in E as ->. rewrite is_ascii_app in As. apply andb_prop in As as [_ As].
      destruct (split_once 93 rest) as [[inside after]|] eqn:E; [|done]. apply split_once_ascii in E as [Ai _]; [|done].
      repeat case_match; intros; simplify_eq/=; by apply lowercase_lower.
    + destruct (rsplit_once 58 s) as [[h p]|] eqn:E2; [|intros [= <-]; by apply lowercase_lower].
      apply rsplit_once_ascii in E2 as [Ah _]; [|done].
      repeat case_match; intros; simplify_eq/=; by apply lowercase_lower.
  - assert (R : forall p n, parse_uint U16_MAX p = Some n -> 0 <= n <= U16_MAX) by (intros p n; apply parse_uint_range; unfold U16_MAX; lia).
    repeat case_match; intros; simplify_eq/=; by eapply R.
Qed.
Lemma authority_normal_form_witness :
  route (bstr "user@EXAMPLE.com:8080") = Ok (bstr "example.com", Some 8080)
  /\ route (bstr "User@example.COM:8080") = Ok (bstr "example.com", Some 8080).
Proof.
  split.
  - reflexivity.
  - destruct (authority_normal_form (bstr "user@EXAMPLE.com:8080")
      (Authority.mk (bstr "user@EXAMPLE.com:8080") (bstr "example.com") (Some 8080)) eq_refl) as (_ & _ & _ & G).
    apply G. reflexivity.
Defined.

(** ** Where the code and its documentation part *)

(** Every policy records a collapsed length, though [applied] is documented
    as empty unless the policy is [Normalize]. *)
Example strict_records_collapse :
  request_framing [(bstr "Content-Length", bstr "5, 5")] Strict = Ok (BodyFraming.ContentLength 5, [CollapsedContentLength]).
Proof. done. Qed.
(** A chunk size may carry a plus sign, a [Content-Length] may not. *)
Example chunk_size_plus : parse_hex (bstr "+5") = Some 5 /\ parse_decimal (bstr "+5") = None.
Proof. done. Qed.
(** What follows the bracket of an IPv6 literal is ignored, an empty port
    stays in the host, and only a bracketed host may have a signed port. *)
Example authority_oddities :
  route (bstr "[::1]evil.example") = Ok (bstr "::1", None)
  /\ route (bstr "host:") = Ok (bstr "host:", None)
  /\ route (bstr "[::1]:+80") = Ok (bstr "::1", Some 80)
  /\ route (bstr "host:+80") = Err NonAsciiAuthority.
Proof. done. Qed.
