(* ===== verification/Http1Chunked.v ===== *)
(** * Chunked bodies (src/src/http/engine.rs)

    What a sender encodes as chunks and trailer fields, the engine decodes:
    the payload, the fields, the end of the message, and nothing of what
    follows it. *)

From S2P Require Import Prelude Flow Text Http1 Http1Engine Http1Scan Http1Session Http1Facts Http1Chunk Http1Drain.
Import HttpPoison ChunkState BodyState DirState Engine.

(** ** A sender *)
Definition hex_digit (v : Z) : Z := if v <? 10 then 48 + v else 87 + v.
Fixpoint hex_of (k : nat) (n : Z) : list Z :=
  match k with
  | O => []
  | S k => (if n <? 16 then [] else hex_of k (n / 16)) ++ [hex_digit (n mod 16)]
  end.
Definition to_hex (n : Z) : list Z := hex_of 16 n.
(** A chunk: its extension and its data. *)
Definition Chunk : Type := list Z * list Z.
Definition size_line (c : Chunk) : list Z := to_hex (zlen c.2) ++ c.1.
Definition encode_chunk (c : Chunk) : list Z := size_line c ++ crlf ++ c.2 ++ crlf.
Definition field_line (f : Header) : list Z := f.1 ++ [58; 32] ++ f.2.
Definition encode_trailer (fields : list Header) : list Z :=
  [48] ++ crlf ++ wire (field_line <$> fields) ++ crlf.
Definition encode_chunked (chunks : list Chunk) (fields : list Header) : list Z :=
  concat (encode_chunk <$> chunks) ++ encode_trailer fields.

Definition chunk_ok (max : Z) (c : Chunk) : Prop :=
  (c.1 = [] \/ head c.1 = Some 59) /\ 13 ∉ c.1 /\ 0 < zlen c.2 <= U64_MAX /\ zlen (size_line c) <= max.
Definition bare (v : list Z) : Prop :=
  13 ∉ v /\ forall b, head v = Some b \/ last v = Some b -> is_ascii_ws b = false.
Definition field_ok (f : Header) : Prop := 13 ∉ f.1 /\ 58 ∉ f.1 /\ bare f.2.

(** ** Numbers *)
Lemma hex_value_digit v : 0 <= v < 16 -> hex_value (hex_digit v) = Some v.
Proof.
  intros L. unfold hex_digit, hex_value, is_digit. destruct (Z.ltb_spec v 10).
  - destruct (Z.leb_spec 48 (48 + v)), (Z.leb_spec (48 + v) 57); simpl; try lia. f_equal. lia.
  - destruct (Z.leb_spec 48 (87 + v)), (Z.leb_spec (87 + v) 57); simpl; try lia.
    destruct (Z.leb_spec 97 (87 + v)), (Z.leb_spec (87 + v) 102); simpl; try lia. f_equal. lia.
Qed.
Lemma hex_digits_snoc s d : forall n,
  hex_digits n (s ++ [d]) = (hex_digits n s ≫= fun m => hex_digits m [d]).
Proof.
  induction s as [|x s IH]; intros n; [done|]. cbn [hex_digits app]. destruct (hex_value x); [|done]. case_if; [done|]. apply IH.
Qed.
Lemma hex_of_digits k n :
  0 <= n < 16 ^ Z.of_nat k -> n <= U64_MAX -> k <> O -> hex_digits 0 (hex_of k n) = Some n.
Proof.
  revert n. induction k as [|k IH]; intros n L M K; [done|]. cbn [hex_of]. rewrite hex_digits_snoc.
  pose proof (Z.mod_pos_bound n 16 ltac:(lia)). pose proof (Z.div_mod n 16 ltac:(lia)).
  assert (E : hex_digits 0 (if n <? 16 then [] else hex_of k (n / 16)) = Some (n / 16)).
  { destruct (Z.ltb_spec n 16); [by rewrite Z.div_small by lia|].
    rewrite Nat2Z.inj_succ, Z.pow_succ_r in L by lia. apply IH; [|lia|intros ->; simpl in L; lia].
    split; [apply Z.div_pos; lia|]. apply Z.div_lt_upper_bound; lia. }
  rewrite E. simpl. rewrite hex_value_digit by lia. replace (n / 16 * 16 + n mod 16) with n by lia.
  destruct (Z.ltb_spec U64_MAX n); [lia|done].
Qed.
Lemma hex_of_bytes k n b : 0 <= n -> b ∈ hex_of k n -> 48 <= b <= 57 \/ 97 <= b <= 102.
Proof.
  revert n. induction k as [|k IH]; intros n L; cbn [hex_of]; [intros E; inversion E|].
  pose proof (Z.mod_pos_bound n 16 ltac:(lia)). rewrite elem_of_app, list_elem_of_singleton. intros [E| ->].
  - destruct (Z.ltb_spec n 16); [inversion E|]. apply (IH (n / 16)); [apply Z.div_pos; lia|done].
  - unfold hex_digit. case_if; lia.
Qed.
Lemma hex_of_nonempty k n : k <> O -> hex_of k n <> [].
Proof. destruct k; [done|]. intros _. cbn [hex_of]. by intros [_ ?]%app_eq_nil. Qed.
Lemma utf8_ascii s : Forall (fun b => 0 <= b < 128) s -> utf8_valid s = true.
Proof.
  induction 1 as [|b s B _ IH]; [done|]. simpl. destruct (Z.ltb_spec b 128); [done|lia].
Qed.

Lemma to_hex_bytes n : 0 <= n -> Forall (fun b => 48 <= b <= 57 \/ 97 <= b <= 102) (to_hex n).
Proof. intros L. apply Forall_forall. intros b Hb. by apply (hex_of_bytes 16 n). Qed.
Lemma parse_to_hex n : 0 <= n <= U64_MAX -> parse_hex (to_hex n) = Some n.
Proof.
  intros L. pose proof (to_hex_bytes n ltac:(lia)) as B.
  assert (D : hex_digits 0 (to_hex n) = Some n) by (apply hex_of_digits; [unfold U64_MAX in L; lia|lia|done]).
  assert (U : utf8_valid (to_hex n) = true) by (apply utf8_ascii; eapply Forall_impl; [exact B|simpl; lia]).
  pose proof (hex_of_nonempty 16 n ltac:(done)) as N. fold (to_hex n) in N.
  unfold parse_hex. destruct (to_hex n) as [|x s]; [done|]. rewrite U. simpl (_ || _). cbv iota.
  apply Forall_inv in B. clear N U. repeat case_match; simplify_eq; try lia; done.
Qed.
(** The white space trimmed off a chunk size. *)
Lemma drop_while_false f s : (forall b, head s = Some b -> f b = false) -> drop_while f s = s.
Proof. destruct s as [|b s]; [done|]. simpl. intros Q. by rewrite (Q b eq_refl). Qed.
Lemma trim_by_bare f s : (forall b, head s = Some b \/ last s = Some b -> f b = false) -> trim_by f s = s.
Proof.
  intros Q. unfold trim_by, drop_while_end. rewrite (drop_while_false f s) by auto.
  rewrite (drop_while_false f (rev s)); [apply rev_involutive|]. intros b E. apply Q. right.
  destruct s as [|x s _] using rev_ind; [done|]. rewrite rev_app_distr in E. simpl in E. by rewrite last_snoc.
Qed.
Lemma trim_to_hex n : 0 <= n -> trim_ascii (to_hex n) = to_hex n.
Proof.
  intros L. apply trim_by_bare. pose proof (to_hex_bytes n L) as B. rewrite Forall_forall in B.
  intros b E. assert (Hb : b ∈ to_hex n) by (destruct E; [by apply head_Some_elem_of|by apply last_Some_elem_of]).
  specialize (B b Hb). unfold is_ascii_ws; by rewrite !(proj2 (Z.eqb_neq b _)) by lia.
Qed.
Lemma index_of_app c a b : c ∉ a -> index_of c (a ++ b) = Nat.add (length a) <$> index_of c b.
Proof.
  induction a as [|x a IH]; intros N; [simpl; by destruct (index_of c b)|]. simpl.
  rewrite not_elem_of_cons in N. destruct N as (N1 & N2). destruct (Z.eqb_spec x c); [congruence|].
  rewrite IH by done. by destruct (index_of c b).
Qed.
Lemma to_hex_not n c : 0 <= n -> c < 48 \/ 57 < c < 97 -> c ∉ to_hex n.
Proof. intros L C E. pose proof (to_hex_bytes n L) as B. rewrite Forall_forall in B. specialize (B c E). lia. Qed.

(** The engine reads the size off the line. *)
Lemma size_line_parses c max :
  chunk_ok max c ->
  parse_hex (trim_ascii match index_of 59 (size_line c) with Some n => take n (size_line c) | None => size_line c end)
  = Some (zlen c.2).
Proof.
  intros (X & _ & L & _). unfold size_line. rewrite index_of_app by (apply to_hex_not; lia).
  destruct X as [->|X].
  - simpl. rewrite app_nil_r, trim_to_hex by lia. apply parse_to_hex. lia.
  - destruct c as [[|x xs] data]; [done|]. simpl in *. injection X as ->. simpl.
    rewrite Nat.add_0_r, take_app_length, trim_to_hex by lia. apply parse_to_hex. lia.
Qed.

(** ** Lines *)
Lemma position_crlf_line l k : 13 ∉ l -> position_crlf (l ++ 13 :: 10 :: k) = Some (zlen l).
Proof.
  induction l as [|x l IH]; intros N; [done|]. rewrite not_elem_of_cons in N. destruct N as (N1 & N2).
  assert (E : (x =? 13) = false) by (apply Z.eqb_neq; congruence).
  specialize (IH N2). destruct l as [|y l]; cbn [app] in *.
  - simpl. by rewrite E.
  - change (position_crlf (x :: y :: l ++ 13 :: 10 :: k)) with
      (if (x =? 13) && (y =? 10) then Some 0 else Z.succ <$> position_crlf (y :: l ++ 13 :: 10 :: k)).
    rewrite E, IH. simpl. rewrite !zlen_cons. f_equal. lia.
Qed.
Lemma find_line pre l k : 13 ∉ l -> find_crlf_from (pre ++ l ++ crlf ++ k) (zlen pre) = Some (zlen pre + zlen l).
Proof.
  intros N. unfold find_crlf_from. pose proof (zlen_nonneg l). pose proof (zlen_nonneg k). pose proof (zlen_nonneg pre).
  destruct (Z.leb_spec (zlen (pre ++ l ++ crlf ++ k)) (zlen pre)).
  { rewrite !zlen_app in *. change (zlen crlf) with 2 in *. lia. }
  rewrite zdrop_app_ge, Z.sub_diag, zdrop_0 by lia. simpl. rewrite position_crlf_line by done. simpl. f_equal. lia.
Qed.
Lemma find_first_line l k : 13 ∉ l -> find_crlf_from (l ++ crlf ++ k) 0 = Some (zlen l).
Proof. apply (find_line []). Qed.
Lemma ztake_app_exact {A} (a b : list A) : ztake (zlen a) (a ++ b) = a.
Proof. rewrite ztake_app_ge, Z.sub_diag, ztake_0 by lia. by rewrite app_nil_r. Qed.
Lemma zdrop_app_exact {A} (a b : list A) : zdrop (zlen a) (a ++ b) = b.
Proof. by rewrite zdrop_app_ge, Z.sub_diag, zdrop_0 by lia. Qed.
Lemma zslice_middle {A} (a b c : list A) : zslice (zlen a) (zlen a + zlen b) (a ++ b ++ c) = b.
Proof.
  unfold zslice. rewrite zdrop_app_exact. replace (zlen a + zlen b - zlen a) with (zlen b) by lia. apply ztake_app_exact.
Qed.

(** ** The trailer section *)
Lemma wire_cons l ls : wire (l :: ls) = l ++ crlf ++ wire ls.
Proof. unfold wire. simpl. by rewrite <- app_assoc. Qed.
Lemma trailer_end_lines ls : forall fuel pre k,
  Forall (fun l => 13 ∉ l /\ l <> []) ls -> (length ls < fuel)%nat ->
  trailer_end_from fuel (pre ++ wire ls ++ crlf ++ k) (zlen pre) = Some (zlen pre + zlen (wire ls) + 2).
Proof.
  induction ls as [|l ls IH]; intros fuel pre k F L; (destruct fuel as [|fuel]; [simpl in L; lia|]); cbn [trailer_end_from].
  - change (wire []) with (@nil Z). rewrite (find_line pre []) by (intros E; inversion E).
    change (zlen []) with 0. by rewrite Z.add_0_r, Z.eqb_refl.
  - apply Forall_cons in F as ((N1 & N2) & F). rewrite wire_cons, <- !app_assoc, find_line by done.
    apply zlen_pos in N2. rewrite (proj2 (Z.eqb_neq (zlen pre + zlen l) (zlen pre))) by lia.
    specialize (IH fuel (pre ++ l ++ crlf) k F ltac:(simpl in L; lia)).
    rewrite !zlen_app, <- !app_assoc in IH. change (zlen crlf) with 2 in IH. rewrite Z.add_assoc in IH. rewrite IH.
    rewrite !zlen_app. change (zlen crlf) with 2. f_equal. lia.
Qed.
Lemma count_while_none f v : (forall b, head v = Some b -> f b = false) -> count_while f v = 0.
Proof. destruct v as [|b v]; [done|]. simpl. intros Q. by rewrite (Q b eq_refl). Qed.
Lemma field_value v :
  bare v ->
  let value := 32 :: v in
  zslice (count_while is_ows value) (Z.max (zlen value - count_while is_ascii_ws (rev value)) (count_while is_ows value)) value = v.
Proof.
  intros (_ & B). cbn [count_while].
  rewrite (count_while_none is_ows v).
  2:{ intros b E. specialize (B b (or_introl E)). unfold is_ascii_ws in B. unfold is_ows. zb.
      by rewrite (proj2 (Z.eqb_neq b 32)), (proj2 (Z.eqb_neq b 9)) by lia. }
  destruct v as [|x v _] using rev_ind; [done|].
  cbv zeta. rewrite (count_while_none is_ascii_ws).
  2:{ intros b E. apply B. right. simpl in E. rewrite rev_app_distr in E. simpl in E. by rewrite last_snoc. }
  unfold zslice. rewrite zlen_cons. pose proof (zlen_nonneg (v ++ [x])).
  change (is_ows 32) with true. cbv iota. rewrite Z.max_l by lia.
  rewrite zdrop_cons, zdrop_0 by lia. apply ztake_ge. lia.
Qed.
Lemma trailer_fields_lines fs : forall fuel pre k,
  Forall field_ok fs -> (length fs < fuel)%nat ->
  trailer_fields_from fuel (pre ++ wire (field_line <$> fs) ++ crlf ++ k) (zlen pre) = fs.
Proof.
  induction fs as [|[n v] fs IH]; intros fuel pre k F L; (destruct fuel as [|fuel]; [simpl in L; lia|]); cbn [trailer_fields_from].
  - change (wire (field_line <$> [])) with (@nil Z). rewrite (find_line pre []) by (intros E; inversion E).
    change (zlen []) with 0. rewrite Z.add_0_r, Z.eqb_refl. by case_if.
  - apply Forall_cons in F as ((N1 & N2 & B) & F). simpl in N1, N2, B. rewrite fmap_cons, wire_cons, <- !app_assoc.
    set (line := field_line (n, v)). assert (Nl : 13 ∉ line).
    { unfold line, field_line. simpl. rewrite elem_of_app, !elem_of_cons. destruct B as (B & _).
      intros [E|[E|[E|E]]]; [done|lia|lia|done]. }
    assert (Ll : zlen line = zlen n + 2 + zlen v) by (unfold line, field_line; simpl; rewrite zlen_app, !zlen_cons; lia).
    pose proof (zlen_nonneg n). pose proof (zlen_nonneg v). pose proof (zlen_nonneg pre).
    rewrite find_line by done. destruct (Z.leb_spec (zlen (pre ++ line ++ crlf ++ wire (field_line <$> fs) ++ crlf ++ k)) (zlen pre)).
    { rewrite !zlen_app in *. change (zlen crlf) with 2 in *. pose proof (zlen_nonneg k).
      pose proof (zlen_nonneg (wire (field_line <$> fs))). lia. }
    rewrite (proj2 (Z.eqb_neq (zlen pre + zlen line) (zlen pre))) by lia.
    rewrite zslice_middle. specialize (IH fuel (pre ++ line ++ crlf) k F ltac:(simpl in L; lia)).
    rewrite !zlen_app, <- !app_assoc in IH. change (zlen crlf) with 2 in IH. rewrite Z.add_assoc in IH. rewrite IH.
    unfold line, field_line. cbn [fst snd]. rewrite index_of_app by done. simpl (index_of 58 ([58; 32] ++ v)).
    cbn [fmap option_fmap option_map]. rewrite Nat.add_0_r. change (Z.of_nat (length n)) with (zlen n).
    rewrite ztake_app_exact. replace (zdrop (zlen n + 1) (n ++ [58; 32] ++ v)) with (32 :: v).
    + by rewrite field_value.
    + rewrite <- zdrop_zdrop by lia. rewrite (zdrop_app_exact n ([58; 32] ++ v)). done.
Qed.

(** ** The engine *)
Section chunked.
Context `{Httparse.Httparse}.

Inductive polls (d : Dir) : t -> list EngineEvent.t -> t -> Prop :=
  | polls_nil e : polls d e [] e
  | polls_cons e e1 ev evs e2 : poll e d = (e1, Ok (Some ev)) -> polls d e1 evs e2 -> polls d e (ev :: evs) e2.
Lemma polls_app d e evs e1 evs' e2 : polls d e evs e1 -> polls d e1 evs' e2 -> polls d e (evs ++ evs') e2.
Proof. induction 1; [done|]. intros P. econstructor; eauto. Qed.
Lemma polls_one d e e1 ev : poll e d = (e1, Ok (Some ev)) -> polls d e [ev] e1.
Proof. intros P. econstructor; [done|constructor]. Qed.

(** The engine with [d] in a state, holding some bytes. *)
Definition machine_at (m : DirMachine.t) (st : DirState.t) (buf : list Z) : DirMachine.t :=
  DirMachine.mk buf st (DirMachine.poison m) (DirMachine.close_after_message m) 0.
Definition at_ (d : Dir) (e : t) (st : DirState.t) (buf : list Z) : t := set_dir d (machine_at (dir e d) st buf) e.
Lemma dir_at d e st buf : dir (at_ d e st buf) d = machine_at (dir e d) st buf.
Proof. apply dir_set. Qed.
Lemma state_at d e st buf : state_of (at_ d e st buf) d = st.
Proof. unfold state_of. by rewrite dir_at. Qed.
Lemma set_at d e st buf m : set_dir d m (at_ d e st buf) = set_dir d m e.
Proof. apply set_set. Qed.
Lemma limits_at d e st buf : limits (at_ d e st buf) = limits e.
Proof. apply limits_set. Qed.
(** The next [n] bytes of a direction, [s] of them scanned. *)
Lemma take_at d e st st' a k s :
  s <= zlen a ->
  let m := machine_at (dir e d) st (a ++ k) <| DirMachine.scanned := s |> in
  set_dir d (fst (DirMachine.take m (zlen a)) <| DirMachine.state := st' |>) (at_ d e st (a ++ k)) = at_ d e st' k
  /\ snd (DirMachine.take m (zlen a)) = a.
Proof.
  intros L m. split; [|apply ztake_app_exact]. rewrite set_at. unfold at_, machine_at, m. unfold_upd. simpl.
  by rewrite zdrop_app_exact, sat_sub_all.
Qed.

Lemma poll_size d e c k :
  chunk_ok (EngineLimits.max_chunk_line_bytes (limits e)) c ->
  poll (at_ d e (Body (Chunked Size)) (size_line c ++ crlf ++ k)) d
  = (at_ d e (Body (Chunked (Data (zlen c.2)))) k, Ok (Some (EngineEvent.Body [] (size_line c ++ crlf)))).
Proof.
  intros C. pose proof (size_line_parses c _ C) as P. destruct C as (_ & N & L & M).
  assert (Nl : 13 ∉ size_line c).
  { unfold size_line. rewrite elem_of_app. intros [E|E]; [|done]. revert E. apply to_hex_not; lia. }
  rewrite (poll_body_state _ _ (Chunked Size)) by apply state_at. unfold poll_body, poll_chunked.
  rewrite dir_at, limits_at. cbn [machine_at DirMachine.buf DirMachine.scanned].
  unfold scan_crlf. change (sat_sub 0 1) with 0. rewrite find_first_line by done.
  destruct (Z.ltb_spec (EngineLimits.max_chunk_line_bytes (limits e)) (zlen (size_line c))); [lia|].
  rewrite ztake_app_exact, P. rewrite (proj2 (Z.eqb_neq (zlen c.2) 0)) by lia.
  rewrite (app_assoc (size_line c)). replace (zlen (size_line c) + 2) with (zlen (size_line c ++ crlf)) by (by rewrite zlen_app).
  destruct (take_at d e (Body (Chunked Size)) (Body (Chunked (Data (zlen c.2)))) (size_line c ++ crlf) k (zlen (size_line c))) as [T1 T2];
    [rewrite zlen_app; pose proof (zlen_nonneg crlf); lia|].
  destruct (DirMachine.take _ _) as [m1 raw]. cbn [fst snd] in *. subst raw. unfold emit. by rewrite T1.
Qed.
Lemma poll_data d e c k :
  0 < zlen c ->
  poll (at_ d e (Body (Chunked (Data (zlen c)))) (c ++ k)) d
  = (at_ d e (Body (Chunked DataCrlf)) k, Ok (Some (EngineEvent.Body c c))).
Proof.
  intros L. rewrite (poll_body_state _ _ (Chunked (Data (zlen c)))) by apply state_at. unfold poll_body, poll_chunked.
  rewrite dir_at. cbn [machine_at DirMachine.buf]. pose proof (zlen_nonneg k).
  rewrite Z.min_l by (rewrite zlen_app; lia). rewrite (proj2 (Z.eqb_neq (zlen c) 0)) by lia.
  rewrite Z.sub_diag. simpl (0 =? 0). cbv iota.
  destruct (take_at d e (Body (Chunked (Data (zlen c)))) (Body (Chunked DataCrlf)) c k 0) as [T1 T2]; [lia|].
  change (machine_at (dir e d) (Body (Chunked (Data (zlen c)))) (c ++ k) <| DirMachine.scanned := 0 |>)
    with (machine_at (dir e d) (Body (Chunked (Data (zlen c)))) (c ++ k)) in *.
  destruct (DirMachine.take _ _) as [m1 raw]. cbn [fst snd] in *. subst raw. unfold emit. by rewrite T1.
Qed.
Lemma poll_crlf d e k :
  poll (at_ d e (Body (Chunked DataCrlf)) (crlf ++ k)) d
  = (at_ d e (Body (Chunked Size)) k, Ok (Some (EngineEvent.Body [] crlf))).
Proof.
  rewrite (poll_body_state _ _ (Chunked DataCrlf)) by apply state_at. unfold poll_body, poll_chunked.
  rewrite dir_at. cbn [machine_at DirMachine.buf]. pose proof (zlen_nonneg k).
  destruct (Z.ltb_spec (zlen (crlf ++ k)) 2); [rewrite zlen_app in *; change (zlen crlf) with 2 in *; lia|].
  change 2 with (zlen crlf). rewrite ztake_app_exact. rewrite bool_decide_true by done. cbn [negb].
  destruct (take_at d e (Body (Chunked DataCrlf)) (Body (Chunked Size)) crlf k 0) as [T1 T2]; [apply zlen_nonneg|].
  change (machine_at (dir e d) (Body (Chunked DataCrlf)) (crlf ++ k) <| DirMachine.scanned := 0 |>)
    with (machine_at (dir e d) (Body (Chunked DataCrlf)) (crlf ++ k)) in *.
  destruct (DirMachine.take _ _) as [m1 raw]. cbn [fst snd] in *. subst raw. unfold emit. by rewrite T1.
Qed.

Lemma scan_encoded fields k :
  Forall field_ok fields -> scan_trailer_end (encode_trailer fields ++ k) = (Some (zlen (encode_trailer fields)), 0).
Proof.
  intros F. unfold scan_trailer_end, encode_trailer. rewrite <- !app_assoc.
  rewrite find_first_line by (intros E; inversion E as [|? ? ? E']; inversion E').
  change (zlen [48]) with 1. set (ls := field_line <$> fields).
  assert (Fl : Forall (fun l => 13 ∉ l /\ l <> []) ls).
  { unfold ls. apply Forall_fmap. eapply Forall_impl; [exact F|]. intros [n v] (N1 & N2 & B & _). simpl in *.
    split; [|unfold field_line; simpl; by destruct n]. unfold field_line. simpl.
    rewrite elem_of_app, !elem_of_cons. intros [E|[E|[E|E]]]; [done|lia|lia|done]. }
  pose proof (trailer_end_lines ls (S (length ([48] ++ crlf ++ wire ls ++ crlf ++ k))) ([48] ++ crlf) k Fl) as T.
  rewrite <- !app_assoc in T. change (zlen ([48] ++ crlf)) with (1 + 2) in T. rewrite T.
  - rewrite !zlen_app. change (zlen [48]) with 1. change (zlen crlf) with 2. f_equal. f_equal. lia.
  - assert (length ls <= length (wire ls))%nat; [|rewrite !length_app; lia].
    clear. induction ls as [|l ls IH]; [done|]. rewrite wire_cons, !length_app. simpl. lia.
Qed.
Lemma fields_encoded fields : Forall field_ok fields -> parse_trailer_fields (encode_trailer fields) = fields.
Proof.
  intros F. unfold parse_trailer_fields, encode_trailer.
  rewrite find_first_line by (intros E; inversion E as [|? ? ? E']; inversion E').
  change (zlen [48] + 2) with (zlen ([48] ++ crlf)).
  pose proof (trailer_fields_lines fields (S (length ([48] ++ crlf ++ wire (field_line <$> fields) ++ crlf))) ([48] ++ crlf) [] F) as T.
  rewrite app_nil_r, <- !app_assoc in T. apply T.
  assert (length fields <= length (wire (field_line <$> fields)))%nat; [|rewrite !length_app; lia].
  clear. induction fields as [|f fields IH]; [done|]. rewrite fmap_cons, wire_cons, !length_app. simpl. lia.
Qed.
Lemma poll_trailer d e fields k :
  Forall field_ok fields -> 1 <= EngineLimits.max_chunk_line_bytes (limits e) ->
  zlen (encode_trailer fields) <= EngineLimits.max_trailer_bytes (limits e) ->
  poll (at_ d e (Body (Chunked Size)) (encode_trailer fields ++ k)) d
  = (at_ d e (Body (Length 0)) k, Ok (Some (EngineEvent.Trailers fields (encode_trailer fields)))).
Proof.
  intros F L1 L2. set (buf := encode_trailer fields ++ k).
  assert (E : poll_body (at_ d e (Body (Chunked Size)) buf) d (Chunked Size)
    = (rescanned d 1 (at_ d e (Body (Chunked Trailer)) buf), Ok Again)).
  { unfold poll_body, poll_chunked. rewrite dir_at, limits_at. cbn [machine_at DirMachine.buf DirMachine.scanned].
    unfold scan_crlf. change (sat_sub 0 1) with 0. unfold buf at 1, encode_trailer. rewrite <- !app_assoc.
    rewrite find_first_line by (intros E; inversion E as [|? ? ? E']; inversion E'). change (zlen [48]) with 1.
    destruct (Z.ltb_spec (EngineLimits.max_chunk_line_bytes (limits e)) 1); [lia|].
    assert (ztake 1 buf = [48]) as -> by done.
    change (parse_hex _) with (Some 0). cbv iota. simpl (0 =? 0). cbv iota. unfold emit, rescanned.
    rewrite set_at, dir_at. unfold at_. by rewrite set_set. }
  rewrite (poll_body_state _ _ (Chunked Size)), E by apply state_at.
  rewrite trailer_poll_eq by (by rewrite state_rescanned, state_at). rewrite poll_trailer_rescanned.
  unfold poll_chunked. rewrite dir_at, limits_at. cbn [machine_at DirMachine.buf]. unfold buf. rewrite scan_encoded by done.
  destruct (Z.ltb_spec (EngineLimits.max_trailer_bytes (limits e)) (zlen (encode_trailer fields))); [lia|].
  destruct (take_at d e (Body (Chunked Trailer)) (Body (Length 0)) (encode_trailer fields) k 0) as [T1 T2]; [apply zlen_nonneg|].
  destruct (DirMachine.take _ _) as [m1 raw]. cbn [fst snd] in *. subst raw. unfold emit. by rewrite T1, fields_encoded.
Qed.
Lemma poll_end d e k :
  pending_switch e = None ->
  poll (at_ d e (Body (Length 0)) k) d
  = (at_ d e (if DirMachine.close_after_message (dir e d) then Closed else Head) k, Ok (Some EngineEvent.End_)).
Proof.
  intros P. rewrite (poll_body_state _ _ (Length 0)) by apply state_at. unfold poll_body. simpl (0 =? 0). cbv iota.
  assert (pending_switch (at_ d e (Body (Length 0)) k) = None) as -> by (unfold at_; by rewrite switch_set).
  rewrite dir_at. unfold emit. by rewrite set_at.
Qed.

Definition decoded_of (ev : EngineEvent.t) : list Z :=
  match ev with EngineEvent.Body decoded _ => decoded | _ => [] end.
(** C22: a chunked message body that lies whole in the buffer of a
    direction, at its start, decodes to what its sender encoded: the events
    carry the data of the chunks in order and the trailer fields; their wire
    bytes are the encoded bytes; the message ends exactly there and the bytes
    behind it are left for the next one.  Each chunk has 1 to 2^64 - 1 bytes
    and a size line, with its extension, of at most [max_chunk_line_bytes]
    (which is 1 or more, for the last one);
    an extension is empty, or begins with a semicolon and has no CR; trailer
    fields have names without colon or CR and trimmed values without CR, and
    with the last size line are at most [max_trailer_bytes]; and no protocol switch is
    pending. *)
Theorem chunked_roundtrip d e chunks fields k :
  Forall (chunk_ok (EngineLimits.max_chunk_line_bytes (limits e))) chunks -> Forall field_ok fields ->
  1 <= EngineLimits.max_chunk_line_bytes (limits e) ->
  zlen (encode_trailer fields) <= EngineLimits.max_trailer_bytes (limits e) -> pending_switch e = None ->
  exists evs,
    polls d (at_ d e (Body (Chunked Size)) (encode_chunked chunks fields ++ k))
      (evs ++ [EngineEvent.Trailers fields (encode_trailer fields); EngineEvent.End_])
      (at_ d e (if DirMachine.close_after_message (dir e d) then Closed else Head) k)
    /\ concat (decoded_of <$> evs) = concat (snd <$> chunks)
    /\ concat (raw_of <$> evs) ++ encode_trailer fields = encode_chunked chunks fields.
Proof.
  intros C F L1 L2 P. unfold encode_chunked. induction C as [|c chunks Hc C IH].
  - exists []. simpl. split_and!; try done. eapply polls_cons; [by apply poll_trailer|]. by apply polls_one, poll_end.
  - destruct IH as (evs & Q & D & R).
    exists ([EngineEvent.Body [] (size_line c ++ crlf); EngineEvent.Body c.2 c.2; EngineEvent.Body [] crlf] ++ evs).
    rewrite fmap_cons. cbn [concat]. rewrite <- !app_assoc. split_and!.
    + unfold encode_chunk. rewrite <- !app_assoc.
      eapply polls_cons; [by apply poll_size|]. eapply polls_cons; [apply poll_data, Hc|].
      eapply polls_cons; [apply poll_crlf|]. by rewrite <- app_assoc in Q.
    + rewrite fmap_app, concat_app, D. simpl. by rewrite app_nil_r.
    + rewrite fmap_app, concat_app, <- R. simpl. unfold encode_chunk. by rewrite <- !app_assoc.
Qed.
End chunked.

Notation two_chunks := [(bstr ";q=1", bstr "hello "); ([], bstr "world, in sixteen+")] (only parsing).
Notation one_field := [(bstr "Digest", bstr "abc")] (only parsing).
Notation fresh_engine := (new EngineLimits.default) (only parsing).
Lemma chunked_roundtrip_witness :
  exists evs,
    polls Request (at_ Request fresh_engine (Body (Chunked Size)) (encode_chunked two_chunks one_field ++ bstr "GET"))
      (evs ++ [EngineEvent.Trailers one_field (encode_trailer one_field); EngineEvent.End_])
      (at_ Request fresh_engine Head (bstr "GET"))
    /\ concat (decoded_of <$> evs) = bstr "hello world, in sixteen+"
    /\ concat (raw_of <$> evs) ++ encode_trailer one_field = encode_chunked two_chunks one_field.
Proof.
  apply (chunked_roundtrip Request fresh_engine two_chunks one_field (bstr "GET")).
  - apply Forall_cons; split; [|apply Forall_cons; split; [|constructor]].
    + split; [right; reflexivity|]. split; [apply (bool_decide_unpack _); vm_compute; exact I|].
      split; [vm_compute; split; [reflexivity|discriminate]|vm_compute; discriminate].
    + split; [left; reflexivity|]. split; [apply (bool_decide_unpack _); vm_compute; exact I|].
      split; [vm_compute; split; [reflexivity|discriminate]|vm_compute; discriminate].
  - apply Forall_cons; split; [|constructor].
    split; [apply (bool_decide_unpack _); vm_compute; exact I|].
    split; [apply (bool_decide_unpack _); vm_compute; exact I|].
    split; [apply (bool_decide_unpack _); vm_compute; exact I|].
    intros b [E|E]; vm_compute in E; injection E as <-; reflexivity.
  - vm_compute. discriminate.
  - vm_compute. discriminate.
  - reflexivity.
Defined.
