(* ===== verification/Http1Exchange.v ===== *)
(** * One exchange per request (src/src/http/exchange.rs)

    Every request the inner parser reported is in exactly one place: an
    exchange already reported, the requests cut short by a reset, those
    awaiting a response, or the request the initiator's end of stream cut
    short, which is dropped. *)

From S2P Require Import Prelude Time Flow Text Http1 Http1Engine Http1Session Http1Drain.

Inductive Call :=
  | FeedInitiator (bytes : list Z) (ts : Timestamp.t) | FeedResponder (bytes : list Z) (ts : Timestamp.t)
  | FinInitiator | FinResponder | Rst.
Definition is_rst (c : Call) : bool := match c with Rst => true | _ => false end.

(** The parser; the exchanges it reported; every request its inner parser
    reported in a callback, with the time if it came with bytes; and how often the
    initiator's stream ended inside a request. *)
Record Trace := mk_trace {
  parser : HttpExchangeParser.t; reported : list HttpExchange.t;
  seen : list (HttpRequest.t * option Timestamp.t); cuts : nat }.
Definition heard (ts : option Timestamp.t) (msgs : list HttpMessage) : list (HttpRequest.t * option Timestamp.t) :=
  omap (fun m => match m with MRequest r => Some (r, ts) | MResponse _ => None end) msgs.
Definition timed (x : HttpRequest.t * Timestamp.t) : HttpRequest.t * option Timestamp.t := (x.1, Some x.2).
Definition stamped (x : HttpExchange.t) : HttpRequest.t * Timestamp.t := (HttpExchange.request x, HttpExchange.request_ts x).
(** The outcome says whether there is a response. *)
Definition exchange_ok (x : HttpExchange.t) : Prop :=
  (HttpExchange.outcome x = Completed <-> is_some (HttpExchange.response x) = true)
  /\ (HttpExchange.elapsed x =
      ((fun ts => Timestamp.saturating_sub ts (HttpExchange.request_ts x)) <$> HttpExchange.response_ts x)).

Section exchange.
Context `{Httparse.Httparse}.

Definition call (t : Trace) (c : Call) : Trace :=
  let p := parser t in
  match c with
  | FeedInitiator bytes ts =>
      let msgs := snd (HttpParser.feed_initiator (HttpExchangeParser.inner p) bytes) in
      let (p, out) := HttpExchangeParser.feed_initiator p bytes ts in
      mk_trace p (reported t ++ out) (seen t ++ heard (Some ts) msgs) (cuts t)
  | FeedResponder bytes ts =>
      let msgs := snd (HttpParser.feed_responder (HttpExchangeParser.inner p) bytes) in
      let (p, out) := HttpExchangeParser.feed_responder p bytes ts in
      mk_trace p (reported t ++ out) (seen t ++ heard (Some ts) msgs) (cuts t)
  | FinInitiator =>
      let msgs := snd (HttpParser.fin_initiator (HttpExchangeParser.inner p)) in
      let inside := is_some (HttpParser.request (HttpExchangeParser.inner p)) in
      let (p, out) := HttpExchangeParser.fin_initiator p in
      mk_trace p (reported t ++ out) (seen t ++ heard None msgs) (if inside then S (cuts t) else cuts t)
  | FinResponder =>
      let msgs := snd (HttpParser.fin_responder (HttpExchangeParser.inner p)) in
      let (p, out) := HttpExchangeParser.fin_responder p in
      mk_trace p (reported t ++ out) (seen t ++ heard None msgs) (cuts t)
  | Rst => mk_trace (HttpExchangeParser.rst_initiator p) (reported t) (seen t) (cuts t)
  end.
Definition calls (p : HttpExchangeParser.t) (cs : list Call) : Trace := fold_left call cs (mk_trace p [] [] 0).

(** *** Each direction reports messages of its own kind *)
Definition msg_of (d : Dir) (m : HttpMessage) : Prop :=
  match d, m with Request, MRequest _ | Response, MResponse _ => True | _, _ => False end.
Definition sided (p : HttpParser.t) : Prop :=
  forall d q, HttpParser.partial p d = Some q -> Head.dir (Partial.head q) = d.
Definition head_of (d : Dir) (ev : EngineEvent.t) : Prop :=
  match ev with EngineEvent.Head h => Head.dir h = d | _ => True end.
Definition step_of {A} (d : Dir) (r : A * result EngineError (option EngineEvent.t)) : Prop :=
  match snd r with Ok (Some ev) => head_of d ev | _ => True end.
Lemma response_head_of e h close : Head.dir h = Response -> step_of Response (Engine.finish_response_head e h close).
Proof. intros D. unfold Engine.finish_response_head, Engine.fail, Engine.emit. by repeat case_match. Qed.
Lemma poll_head_of e d : step_of d (Engine.poll_head e d).
Proof.
  unfold Engine.poll_head, Engine.fail, Engine.emit.
  repeat (case_match; try done); first [by apply response_head_of|by unfold step_of].
Qed.
Lemma poll_body_of e d b : match snd (Engine.poll_body e d b) with Ok (Http1Engine.Event ev) => head_of d ev | _ => True end.
Proof. unfold Engine.poll_body, Engine.poll_chunked, Engine.fail, Engine.emit. by repeat (case_match; simplify_eq/=; try done). Qed.
Lemma poll_of e d : step_of d (Engine.poll e d).
Proof.
  unfold Engine.poll. generalize 2%nat. intros fuel. revert e. induction fuel as [|fuel IH]; intros e; [done|]. cbn [Engine.poll_fuel].
  destruct (Engine.state_of e d) as [|b| | | |]; try done; [apply poll_head_of| |].
  - pose proof (poll_body_of e d b) as B. destruct (Engine.poll_body e d b) as [e1 [[]|]]; done.
  - destruct (Engine.find_head e d) as [e1 []]; [apply IH|done].
Qed.
Lemma finish_of d q : Head.dir (Partial.head q) = d -> msg_of d (Partial.finish q).
Proof. intros <-. unfold Partial.finish. by destruct (Head.dir (Partial.head q)). Qed.
Lemma partial_mut_sided d f p : sided p ->
  (forall q, f (HttpParser.partial p d) = Some q -> Head.dir (Partial.head q) = d) -> sided (HttpParser.partial_mut d f p).
Proof. intros S F d' q. destruct d, d'; cbn; intros E; try (by apply (S _ q)); by apply F. Qed.
Lemma engine_sided p e : sided p -> sided (p <| HttpParser.engine := e |>).
Proof. intros S d q. specialize (S d q). by destruct d. Qed.
Lemma absorb_of p d ev : sided p -> head_of d ev ->
  sided (HttpParser.absorb p d ev).1 /\ Forall (msg_of d) (HttpParser.absorb p d ev).2.
Proof.
  intros S E. destruct ev; cbn [HttpParser.absorb fst snd]; (split; [|try by constructor]).
  - apply partial_mut_sided; [done|]. by intros q [= <-].
  - apply partial_mut_sided; [done|]. intros q (q0 & E0 & ->)%fmap_Some. unfold Partial.add. apply S in E0. by repeat case_match.
  - apply partial_mut_sided; [done|]. intros q (q0 & E0 & ->)%fmap_Some. by apply S in E0.
  - by apply partial_mut_sided.
  - destruct (HttpParser.partial p d) as [q|] eqn:E0; [|constructor]. constructor; [|constructor]. by apply finish_of, S.
  - by intros [] q.
Qed.
Lemma feed_of p d bytes : sided p -> sided (HttpParser.feed p d bytes).1 /\ Forall (msg_of d) (HttpParser.feed p d bytes).2.
Proof.
  intros S. unfold HttpParser.feed. case_match; [by split|]. unfold HttpParser.drain. generalize (Datatypes.S (work
    (HttpParser.engine (p <| HttpParser.engine ::= fun e => Engine.push e d bytes |>)) d)). intros fuel.
  assert (sided (p <| HttpParser.engine ::= fun e => Engine.push e d bytes |>)) as S' by by apply engine_sided.
  revert S'. generalize (p <| HttpParser.engine ::= fun e => Engine.push e d bytes |>). clear.
  induction fuel as [|fuel IH]; intros p S; [by split|]. cbn [HttpParser.drain_fuel].
  pose proof (poll_of (HttpParser.engine p) d) as Hp. destruct (Engine.poll _ _) as [e [[ev|]|]].
  - destruct (absorb_of (p <| HttpParser.engine := e |>) d ev (engine_sided p e S) Hp) as [S1 F1].
    destruct (HttpParser.absorb _ _ _) as [p1 o1]. destruct (IH p1 S1) as [S2 F2]. destruct (HttpParser.drain_fuel fuel p1 d).
    split; [done|]. by apply Forall_app.
  - split; [by apply engine_sided|constructor].
  - split; [|constructor]. apply partial_mut_sided; [by apply engine_sided|done].
Qed.
Lemma fin_event e d : (Engine.fin e d).2 = None \/ exists raw, (Engine.fin e d).2 = Some (EngineEvent.Body raw raw).
Proof. unfold Engine.fin. repeat case_match; (by left) || (right; by eexists). Qed.
Lemma finish_at_eof_of p d : sided p ->
  sided (HttpParser.finish_at_eof p d).1 /\ Forall (msg_of d) (HttpParser.finish_at_eof p d).2.
Proof.
  intros S. unfold HttpParser.finish_at_eof. pose proof (fin_event (HttpParser.engine p) d) as Ev.
  destruct (Engine.fin _ _) as [e ev]. cbn in Ev. pose proof (engine_sided p e S) as S0.
  assert (forall (r : HttpParser.t * list HttpMessage), sided r.1 -> Forall (msg_of d) r.2 ->
    let '(p, out) := r in sided (HttpParser.partial_mut d (fun _ => None) p)
      /\ Forall (msg_of d) (out ++ match HttpParser.partial p d with Some q => [Partial.finish q] | None => [] end)) as G.
  { intros [p1 o1] S1 F1. split; [by apply partial_mut_sided|]. apply Forall_app. split; [done|].
    destruct (HttpParser.partial p1 d) as [q|] eqn:E; [|constructor]. constructor; [|constructor]. by apply finish_of, S1. }
  specialize (G match ev with Some ev => HttpParser.absorb (p <| HttpParser.engine := e |>) d ev
    | None => (p <| HttpParser.engine := e |>, []) end). destruct Ev as [->|[raw ->]].
  - by apply G.
  - destruct (absorb_of _ d (EngineEvent.Body raw raw) S0 I) as [S1 F1]. specialize (G S1 F1).
    by destruct (HttpParser.absorb _ _ _).
Qed.
Lemma heard_responses ts msgs : Forall (msg_of Response) msgs -> heard ts msgs = [].
Proof. induction 1 as [|[] msgs E _ IH]; done. Qed.

(** The end of a stream completes one message at most: the one it is in. *)
Lemma fin_messages p :
  (length (snd (HttpParser.fin_initiator p)) <= if is_some (HttpParser.request p) then 1 else 0)%nat.
Proof.
  unfold HttpParser.fin_initiator, HttpParser.finish_at_eof. pose proof (fin_event (HttpParser.engine p) Request) as Hev.
  destruct (Engine.fin _ _) as [e ev]. cbn [snd] in Hev.
  destruct Hev as [->|[raw ->]]; destruct p as [en cf [q|] rs]; cbn; lia.
Qed.
Lemma heard_none p : let cut := heard None (snd (HttpParser.fin_initiator p)) in
  Forall (fun r => r.2 = None) cut /\ (length cut <= if is_some (HttpParser.request p) then 1 else 0)%nat.
Proof.
  pose proof (fin_messages p) as L. revert L. generalize (snd (HttpParser.fin_initiator p)) (if is_some (HttpParser.request p) then 1%nat else 0%nat).
  intros msgs n. revert n. induction msgs as [|[q|q] msgs IH]; intros n L; [|destruct n as [|n]; cbn [length] in L; [lia|]; destruct (IH n ltac:(lia)) as [I1 I2]..].
  - split; [by apply Forall_nil_2|cbn; lia].
  - change (heard None (MRequest q :: msgs)) with ((q, None : option Timestamp.t) :: heard None msgs).
    split; [by apply Forall_cons_2|cbn [length]; lia].
  - change (heard None (MResponse q :: msgs)) with (heard None msgs). split; [done|lia].
Qed.
Lemma heard_requests ts msgs : heard (Some ts) msgs = timed <$> HttpExchangeParser.requests ts msgs.
Proof. induction msgs as [|[q|q] msgs IH]; cbn; [done|by f_equal|done]. Qed.

Lemma pair_up_spec ts msgs : forall q,
  q = (stamped <$> snd (HttpExchangeParser.pair_up ts q msgs)) ++ fst (HttpExchangeParser.pair_up ts q msgs)
  /\ Forall exchange_ok (snd (HttpExchangeParser.pair_up ts q msgs)).
Proof.
  induction msgs as [|[r|r] msgs IH]; intros q; simpl.
  - by split.
  - apply IH.
  - destruct q as [|[req rts] q]; [apply IH|]. destruct (IH q) as (I1 & I2).
    destruct (HttpExchangeParser.pair_up ts q msgs) as [q' out]. simpl in *. split; [by f_equal|].
    constructor; [|done]. by split.
Qed.
Lemma unanswered_stamped o (q : list (HttpRequest.t * Timestamp.t)) : stamped <$> (HttpExchangeParser.unanswered o <$> q) = q.
Proof. rewrite <- list_fmap_compose. rewrite <- (list_fmap_id q) at 2. apply list_fmap_ext. by intros i [r ts]. Qed.
Lemma unanswered_ok o (q : list (HttpRequest.t * Timestamp.t)) : o <> Completed -> Forall exchange_ok (HttpExchangeParser.unanswered o <$> q).
Proof. intros N. apply Forall_fmap, Forall_forall. intros [r ts] _. by split. Qed.

Definition accounted (t : Trace) (ledger : list (HttpRequest.t * Timestamp.t)) : Prop :=
  exists cut, (timed <$> ledger) ++ cut ≡ₚ seen t /\ Forall (fun r => r.2 = None) cut /\ (length cut <= cuts t)%nat.
Definition trace_ok (t : Trace) : Prop :=
  accounted t ((stamped <$> reported t) ++ HttpExchangeParser.reset (parser t) ++ HttpExchangeParser.pending (parser t))
  /\ Forall exchange_ok (reported t) /\ sided (HttpExchangeParser.inner (parser t)).
Definition on_time (l : list (HttpRequest.t * option Timestamp.t)) := List.filter (fun r => is_some r.2) l.
Definition trace_ordered (t : Trace) : Prop :=
  sided (HttpExchangeParser.inner (parser t)) /\ HttpExchangeParser.reset (parser t) = []
  /\ timed <$> (stamped <$> reported t) ++ HttpExchangeParser.pending (parser t) = on_time (seen t).
Lemma accounted_perm t l l' : accounted t l -> l ≡ₚ l' -> accounted t l'.
Proof. intros (cut & P & F) E. exists cut. by rewrite <- E. Qed.
Lemma call_sided t c : sided (HttpExchangeParser.inner (parser t)) -> sided (HttpExchangeParser.inner (parser (call t c))).
Proof.
  intros S. unfold call. destruct c as [b ts|b ts| | |]; [| | | |done].
  - unfold HttpExchangeParser.feed_initiator. pose proof (feed_of _ Request b S) as [G _].
    unfold HttpParser.feed_initiator. by destruct (HttpParser.feed _ _ _).
  - unfold HttpExchangeParser.feed_responder. pose proof (feed_of _ Response b S) as [G _].
    unfold HttpParser.feed_responder. destruct (HttpParser.feed _ _ _). by destruct (HttpExchangeParser.pair_up _ _ _).
  - by apply finish_at_eof_of.
  - unfold HttpExchangeParser.fin_responder. pose proof (finish_at_eof_of _ Response S) as [G _].
    unfold HttpParser.fin_responder. destruct (HttpParser.finish_at_eof _ _). by destruct (HttpExchangeParser.pair_up _ _ _).
Qed.
(** The responder's stream tells of no request. *)
Lemma responder_silent ts p bytes : sided p ->
  heard ts (snd (HttpParser.feed_responder p bytes)) = [] /\ heard ts (snd (HttpParser.fin_responder p)) = [].
Proof. intros S. split; apply heard_responses; [by apply feed_of|by apply finish_at_eof_of]. Qed.
Lemma call_ok t c : trace_ok t -> trace_ok (call t c).
Proof.
  intros (P & F & S). pose proof (call_sided t c S) as S'. destruct (responder_silent None _ [] S) as [_ Rf].
  unfold trace_ok. apply and_assoc. split; [|done]. clear S'. unfold call. set (p := parser t) in *. destruct c as [b ts|b ts| | |].
  - unfold HttpExchangeParser.feed_initiator. destruct (HttpParser.feed_initiator _ _) as [i msgs]. cbn [snd].
    destruct P as (cut & P & Fc). split; [|by rewrite app_nil_r]. exists cut. cbn. rewrite app_nil_r. split; [|done].
    rewrite <- P, heard_requests, !fmap_app, <- !app_assoc. do 3 apply Permutation_app_head. apply Permutation_app_comm.
  - destruct (responder_silent (Some ts) _ b S) as [-> _]. rewrite app_nil_r.
    unfold HttpExchangeParser.feed_responder. destruct (HttpParser.feed_responder _ _) as [i msgs].
    destruct (pair_up_spec (Some ts) msgs (HttpExchangeParser.pending p)) as (E & Fx).
    destruct (HttpExchangeParser.pair_up _ _ _) as [q out]. simpl in *. split; [|by apply Forall_app].
    apply (accounted_perm _ _ _ P). cbn. rewrite E, fmap_app, <- app_assoc. apply Permutation_app_head.
    rewrite !app_assoc. apply Permutation_app_tail, Permutation_app_comm.
  - unfold HttpExchangeParser.fin_initiator. destruct P as (cut & P & Fc & Lc).
    pose proof (heard_none (HttpExchangeParser.inner p)) as [F' L']. cbn in F', L' |- *. rewrite app_nil_r. split; [|done].
    exists (cut ++ heard None (snd (HttpParser.fin_initiator (HttpExchangeParser.inner p)))). cbn. split_and!.
    + by rewrite app_assoc, P.
    + by apply Forall_app.
    + rewrite length_app. destruct (is_some _); lia.
  - rewrite Rf, app_nil_r.
    unfold HttpExchangeParser.fin_responder. destruct (HttpParser.fin_responder _) as [i msgs].
    destruct (pair_up_spec None msgs (HttpExchangeParser.pending p)) as (E & Fx).
    destruct (HttpExchangeParser.pair_up _ _ _) as [q out]. simpl in *. split.
    + apply (accounted_perm _ _ _ P). cbn. rewrite !fmap_app, !unanswered_stamped, E, app_nil_r. apply Permutation_app_head.
      rewrite !app_assoc. apply Permutation_app_tail, Permutation_app_comm.
    + rewrite !Forall_app. split_and!; [done..| |]; by apply unanswered_ok.
  - cbn. split; [|done]. apply (accounted_perm _ _ _ P). cbn. by rewrite app_nil_r.
Qed.
Lemma on_time_app l k : on_time (l ++ k) = on_time l ++ on_time k.
Proof. apply List.filter_app. Qed.
Lemma on_time_timed l : on_time (timed <$> l) = timed <$> l.
Proof. induction l as [|x l IH]; [done|]. cbn. by f_equal. Qed.
Lemma on_time_none l : Forall (fun r => r.2 = None) l -> on_time l = [].
Proof. induction 1 as [|x l E _ IH]; [done|]. cbn. by rewrite E. Qed.
Lemma call_ordered t c : is_rst c = false -> trace_ordered t -> trace_ordered (call t c).
Proof.
  intros N (S & R & P). split; [by apply call_sided|]. destruct (responder_silent None _ [] S) as [_ Rf].
  unfold call. set (p := parser t) in *. destruct c as [b ts|b ts| | |]; [| | | |done].
  - unfold HttpExchangeParser.feed_initiator. destruct (HttpParser.feed_initiator _ _) as [i msgs]. cbn -[heard].
    rewrite app_nil_r, on_time_app, <- P, heard_requests, on_time_timed. split; [done|]. by rewrite <- fmap_app, <- app_assoc.
  - destruct (responder_silent (Some ts) _ b S) as [-> _]. rewrite app_nil_r.
    unfold HttpExchangeParser.feed_responder. destruct (HttpParser.feed_responder _ _) as [i msgs].
    destruct (pair_up_spec (Some ts) msgs (HttpExchangeParser.pending p)) as (E & _).
    destruct (HttpExchangeParser.pair_up _ _ _) as [q out]. simpl in *. split; [done|].
    by rewrite <- P, E, !fmap_app, <- app_assoc.
  - unfold HttpExchangeParser.fin_initiator. pose proof (heard_none (HttpExchangeParser.inner p)) as [F' _]. cbn in F' |- *.
    by rewrite app_nil_r, on_time_app, (on_time_none _ F'), app_nil_r.
  - rewrite Rf, app_nil_r. unfold HttpExchangeParser.fin_responder. destruct (HttpParser.fin_responder _) as [i msgs].
    destruct (pair_up_spec None msgs (HttpExchangeParser.pending p)) as (E & _).
    destruct (HttpExchangeParser.pair_up _ _ _) as [q out]. simpl in *. split; [done|].
    by rewrite R, <- P, E, !fmap_app, !unanswered_stamped, app_nil_r.
Qed.

(** C23: over any feeds, resets and ends of stream, each request that the
    inner parser reports is in exactly one exchange, or still waits for one
    (in flight or cut short by a reset), or was dropped because the
    initiator's stream ended inside it: such a request has no time, and
    there is one at most for each time the initiator's stream ended inside a
    request.  An exchange has a response just when it is completed; without
    a reset the exchanges follow the order of the requests; and after the
    responder's end of stream none is left waiting. *)
Theorem exchange_ledger c cs :
  let t := calls (HttpExchangeParser.with_config c) cs in
  let p := parser t in
  accounted t ((stamped <$> reported t) ++ HttpExchangeParser.reset p ++ HttpExchangeParser.pending p)
  /\ Forall exchange_ok (reported t)
  /\ (forallb (fun c => negb (is_rst c)) cs = true ->
      timed <$> (stamped <$> reported t) ++ HttpExchangeParser.pending p = on_time (seen t))
  /\ let t' := call t FinResponder in accounted t' (stamped <$> reported t').
Proof.
  intros t p.
  assert (G : forall t0, trace_ok t0 -> trace_ok (fold_left call cs t0)).
  { induction cs as [|k cs' IH]; [done|]. intros t0 I. apply IH. by apply call_ok. }
  assert (S0 : sided (HttpParser.with_config c)) by by intros [] q.
  destruct (G (mk_trace (HttpExchangeParser.with_config c) [] [] 0)) as (P & F & S).
  { split; [by exists []|done]. }
  fold (calls (HttpExchangeParser.with_config c) cs) in P, F, S. fold t in P, F, S.
  split_and!; [done..| |].
  - intros N. assert (O : forall t0, trace_ordered t0 -> trace_ordered (fold_left call cs t0)).
    { clear -N. induction cs as [|k cs' IH]; [done|]. intros t0 I. simpl in N. apply andb_prop in N as [N1 N2].
      apply IH; [done|]. apply call_ordered; [by apply negb_true_iff|done]. }
    by apply (O (mk_trace (HttpExchangeParser.with_config c) [] [] 0)).
  - destruct (call_ok t FinResponder) as (P' & _); [by split|]. revert P'. cbn.
    unfold HttpExchangeParser.fin_responder. destruct (HttpParser.fin_responder _) as [i msgs].
    destruct (HttpExchangeParser.pair_up _ _ _) as [q out]. cbn. by rewrite app_nil_r.
Qed.
End exchange.

Notation ts0 := (Timestamp.mk 1 0) (only parsing).
Notation pipelined :=
  [FeedInitiator (wire [bstr "GET /a HTTP/1.1"; bstr "Host: h"; []; bstr "GET /b HTTP/1.1"; bstr "Host: h"; []]) ts0;
   FeedResponder (wire [bstr "HTTP/1.1 200 OK"; bstr "Content-Length: 2"; []] ++ bstr "ok") (Timestamp.mk 3 0);
   FinInitiator; FinResponder] (only parsing).
Lemma exchange_ledger_witness :
  timed <$> (stamped <$> reported (calls (HttpExchangeParser.with_config HttpConfig.default) pipelined))
    ++ HttpExchangeParser.pending (parser (calls (HttpExchangeParser.with_config HttpConfig.default) pipelined))
  = on_time (seen (calls (HttpExchangeParser.with_config HttpConfig.default) pipelined)).
Proof. apply (exchange_ledger HttpConfig.default pipelined). reflexivity. Defined.
(** A request cut short by the end of its stream is reported by the inner
    parser and is in no exchange, although the flow is over. *)
Example cut_request_dropped :
  let t := calls (HttpExchangeParser.with_config HttpConfig.default)
    [FeedInitiator (wire [bstr "POST /a HTTP/1.1"; bstr "Host: h"; bstr "Content-Length: 10"; []] ++ bstr "abc") ts0;
     FinInitiator; FinResponder] in
  (reported t, HttpRequest.path ∘ fst <$> seen t, cuts t) = ([], [bstr "/a"], 1%nat).
Proof. by vm_compute. Qed.
Example pipelined_exchanges :
  let out := reported (calls (HttpExchangeParser.with_config HttpConfig.default) pipelined) in
  (HttpRequest.path ∘ HttpExchange.request <$> out, HttpExchange.outcome <$> out, HttpExchange.elapsed <$> out)
  = ([bstr "/a"; bstr "/b"], [Completed; NoResponse], [Some 2000000000; None]).
Proof. by vm_compute. Qed.

(** A tunnel that was granted is reported as a request without a response:
    the switch drops the response the parser was accumulating. *)
Example granted_connect_unanswered :
  let t := calls (HttpExchangeParser.with_config HttpConfig.default)
    [FeedInitiator (wire [bstr "CONNECT h:443 HTTP/1.1"; bstr "Host: h"; []]) ts0;
     FeedResponder (wire [bstr "HTTP/1.1 200 OK"; []]) ts0; FinInitiator; FinResponder] in
  (HttpExchange.outcome <$> reported t, HttpExchange.response <$> reported t) = ([NoResponse], [None]).
Proof. by vm_compute. Qed.
(** A response cut short by the end of the stream is reported complete. *)
Example truncated_completed :
  let t := calls (HttpExchangeParser.with_config HttpConfig.default)
    [FeedInitiator (wire [bstr "GET /a HTTP/1.1"; bstr "Host: h"; []]) ts0;
     FeedResponder (wire [bstr "HTTP/1.1 200 OK"; bstr "Content-Length: 10"; []] ++ bstr "abc") ts0; FinResponder] in
  (HttpExchange.outcome <$> reported t, fmap (M := option) HttpResponse.body ∘ HttpExchange.response <$> reported t)
  = ([Completed], [Some (bstr "abc")]).
Proof. by vm_compute. Qed.
