(* ===== verification/Packet.v ===== *)
(** * Packets and extraction (src/src/view.rs, src/src/extractor.rs)

    The frame-and-timestamp pair a source hands over, and what a flow
    extractor reports about it.  [usize] values are exact below 2^64. *)

From S2P Require Import Prelude Time Flow.

(** ** [PacketView]

    Of the NIC metadata only the capture leg ([rx_metadata.source_idx]) is
    read by the components modelled here. *)
Module PacketView.
Record t := mk {
  frame : list Z; timestamp : Timestamp.t; source_idx : Z; snap_cut : Z; wire_known : bool }.
#[global] Instance eta : Eta t := mk_eta (fun v =>
  mk (frame v) (timestamp v) (source_idx v) (snap_cut v) (wire_known v)).

Definition new (frame : list Z) (timestamp : Timestamp.t) : t := mk frame timestamp 0 0 false.

Definition snap_cut_of (captured wire_len : Z) : Z :=
  let cut := sat_sub wire_len captured in if cut <=? U32_MAX then cut else U32_MAX.

Definition with_wire_len (wire_len : Z) (v : t) : t :=
  v <| snap_cut := snap_cut_of (zlen (frame v)) wire_len |> <| wire_known := true |>.
Definition with_snap_cut (snap_cut : Z) (v : t) : t :=
  v <| PacketView.snap_cut := snap_cut |> <| wire_known := true |>.
Definition wire_len_known (v : t) : bool := wire_known v.
Definition wire_len (v : t) : Z := sat_add (zlen (frame v)) (snap_cut v).
Definition is_truncated (v : t) : bool := 0 <? snap_cut v.
Definition with_source_idx (source_idx : Z) (v : t) : t :=
  v <| PacketView.source_idx := source_idx |>.
Definition with_frame (frame : list Z) (v : t) : t := v <| PacketView.frame := frame |>.
End PacketView.

(** [slice.get(a..b)]: [None] when the range is not in the slice. *)
Definition get_range {A} (l : list A) (a b : Z) : option (list A) :=
  if (a <=? b) && (b <=? zlen l) then Some (zslice a b l) else None.
Definition or_empty {A} (o : option (list A)) : list A :=
  match o with Some l => l | None => [] end.

(** ** [L4Meta] *)
Module L4Meta.
Record t := mk {
  ports : option (Z * Z); payload_offset : Z; payload_len : Z; wire_payload_len : Z }.
#[global] Instance eta : Eta t := mk_eta (fun m =>
  mk (ports m) (payload_offset m) (payload_len m) (wire_payload_len m)).

Definition new (ports : option (Z * Z)) (payload_offset payload_len : Z) : t :=
  mk ports payload_offset payload_len payload_len.
Definition with_wire_payload_len (n : Z) (m : t) : t :=
  m <| wire_payload_len := Z.max n (payload_len m) |>.
Definition is_truncated (m : t) : bool := payload_len m <? wire_payload_len m.
Definition payload (frame : list Z) (m : t) : list Z :=
  let end_ := payload_offset m + payload_len m in
  if end_ <=? U64_MAX then or_empty (get_range frame (payload_offset m) end_) else [].
End L4Meta.

(** ** [Extracted] *)
Module Extracted.
Record t {K : Type} := mk {
  key : K; orientation : Orientation; l4 : option L4Proto; tcp : option TcpInfo.t;
  l4_meta : option L4Meta.t; l3_len : option Z }.
#[global] Arguments t : clear implicits.
#[global] Arguments mk {K}.
#[global] Instance eta {K} : Eta (t K) := mk_eta (fun e =>
  mk (key e) (orientation e) (l4 e) (tcp e) (l4_meta e) (l3_len e)).

Section ops.
Context {K : Type}.
Definition new (key : K) (orientation : Orientation) (l4 : option L4Proto)
    (tcp : option TcpInfo.t) : t K := mk key orientation l4 tcp None None.
Definition with_l4_meta (meta : L4Meta.t) (e : t K) : t K := e <| l4_meta := Some meta |>.
Definition with_l3_len (n : Z) (e : t K) : t K := e <| l3_len := Some n |>.
Definition is_truncated (e : t K) : bool :=
  is_some_and TcpInfo.is_truncated (tcp e) || is_some_and L4Meta.is_truncated (l4_meta e).

(** [usize::checked_add_signed]. *)
Definition checked_add_signed (o delta : Z) : option Z :=
  if (0 <=? o + delta) && (o + delta <=? U64_MAX) then Some (o + delta) else None.

Definition rebased (delta : Z) (e : t K) : t K :=
  if delta =? 0 then e
  else
    let e :=
      match tcp e with
      | Some i =>
          e <| tcp := Some
            match checked_add_signed (TcpInfo.payload_offset i) delta with
            | Some o => i <| TcpInfo.payload_offset := o |>
            | None => i <| TcpInfo.payload_len := 0 |>
            end |>
      | None => e
      end in
    match l4_meta e with
    | Some m =>
        e <| l4_meta :=
          match checked_add_signed (L4Meta.payload_offset m) delta with
          | Some o => Some (m <| L4Meta.payload_offset := o |>)
          | None => None
          end |>
    | None => e
    end.
End ops.
End Extracted.
