(* ===== verification/Welford.v ===== *)
(** * Running statistics (src/src/correlate/welford.rs)

    [f64] is IEEE 754 binary64 with round to nearest even, the
    [spec_float] of the Standard Library at precision 53 and maximal
    exponent 1024; every operation below is computed, nothing is
    approximated.  [x as f64] of an integer rounds to nearest even. *)

From S2P Require Import Prelude.
From Stdlib Require Import Floats.SpecFloat.

Definition f64 : Type := spec_float.

Module F64.
Definition prec : Z := 53.
Definition emax : Z := 1024.
Definition add : f64 -> f64 -> f64 := SFadd prec emax.
Definition sub : f64 -> f64 -> f64 := SFsub prec emax.
Definition mul : f64 -> f64 -> f64 := SFmul prec emax.
Definition div : f64 -> f64 -> f64 := SFdiv prec emax.
Definition sqrt : f64 -> f64 := SFsqrt prec emax.
Definition zero : f64 := S754_zero false.
(** [x as f64] for an integer [x]. *)
Definition of_Z (x : Z) : f64 := binary_normalize prec emax x 0 false.
Definition is_nan (x : f64) : bool := match x with S754_nan => true | _ => false end.
Definition ltb (x y : f64) : bool := SFltb x y.
(** [f64::min] and [f64::max]: a NaN is ignored. *)
Definition min (x y : f64) : f64 :=
  if is_nan x then y else if is_nan y then x else if ltb y x then y else x.
Definition max (x y : f64) : f64 :=
  if is_nan x then y else if is_nan y then x else if ltb x y then y else x.
(** [x as u64]: truncates towards zero and saturates; NaN gives 0. *)
Definition to_u64 (x : f64) : Z :=
  match x with
  | S754_zero _ | S754_nan => 0
  | S754_infinity s => if s then 0 else U64_MAX
  | S754_finite true _ _ => 0
  | S754_finite false m e => Z.min U64_MAX (Z.shiftl (Z.pos m) e)
  end.
End F64.

Module WelfordStats.
Record t := mk { count : Z; mean_ : f64; m2 : f64; min_ : option f64; max_ : option f64 }.
#[global] Instance eta : Eta t := mk_eta (fun w =>
  mk (count w) (mean_ w) (m2 w) (min_ w) (max_ w)).

Definition default : t := mk 0 F64.zero F64.zero None None.
Definition new : t := default.

Definition observe (value : f64) (w : t) : t :=
  let count := count w + 1 in
  let delta := F64.sub value (mean_ w) in
  let mean := F64.add (mean_ w) (F64.div delta (F64.of_Z count)) in
  let delta2 := F64.sub value mean in
  mk count mean (F64.add (m2 w) (F64.mul delta delta2))
     (Some (match min_ w with Some m => F64.min m value | None => value end))
     (Some (match max_ w with Some m => F64.max m value | None => value end)).

Definition mean (w : t) : f64 := if count w =? 0 then F64.zero else mean_ w.
Definition variance_population (w : t) : f64 :=
  if count w <? 2 then F64.zero else F64.div (m2 w) (F64.of_Z (count w)).
Definition variance_sample (w : t) : f64 :=
  if count w <? 2 then F64.zero else F64.div (m2 w) (F64.of_Z (count w - 1)).
Definition std (w : t) : f64 := F64.sqrt (variance_sample w).
Definition min (w : t) : f64 := match min_ w with Some m => m | None => F64.zero end.
Definition max (w : t) : f64 := match max_ w with Some m => m | None => F64.zero end.
Definition is_empty (w : t) : bool := count w =? 0.
Definition clear (w : t) : t := default.

Definition merge (w other : t) : t :=
  if count other =? 0 then w
  else if count w =? 0 then other
  else
    let n_a := F64.of_Z (count w) in
    let n_b := F64.of_Z (count other) in
    let delta := F64.sub (mean_ other) (mean_ w) in
    let total := F64.add n_a n_b in
    mk (F64.to_u64 total)
       (F64.add (mean_ w) (F64.mul delta (F64.div n_b total)))
       (F64.add (F64.add (m2 w) (m2 other))
                (F64.div (F64.mul (F64.mul (F64.mul delta delta) n_a) n_b) total))
       (match min_ w, min_ other with
        | Some a, Some b => Some (F64.min a b) | None, Some b => Some b | m, _ => m end)
       (match max_ w, max_ other with
        | Some a, Some b => Some (F64.max a b) | None, Some b => Some b | m, _ => m end).

(** A sequence of observations. *)
Definition observed (xs : list f64) : t := fold_left (fun w x => observe x w) xs new.

(** Merging is not the exact, commutative, associative union the
    documentation states: with rounding, two shards give a different mean
    in each order. *)
Theorem welford_merge_not_commutative :
  let zero := F64.of_Z 0 in let one := F64.of_Z 1 in
  let a := observed [zero] in let b := observed [zero; one] in
  count (merge a b) = 3 /\ count (merge b a) = 3 /\ mean (merge a b) <> mean (merge b a).
Proof. split_and!; vm_compute; [done..|discriminate]. Qed.
End WelfordStats.
