(* ===== verification/Event.v ===== *)
(** * Flow statistics and events (src/src/event.rs)

    [FlowStats] is the record the tracker keeps per flow and every [Ended]
    event carries; [FlowEvent] is the tracker's output.  Rates that divide
    two counters ([retransmit_rate], throughputs) are not modelled.
    Counters are exact below 2^64. *)

From S2P Require Import Prelude Time Flow Config TcpState Packet ParserKind Welford.

(** ** [FlowStats] *)
Module FlowStats.
Record t := mk {
  packets_initiator : Z; packets_responder : Z;
  bytes_initiator : Z; bytes_responder : Z;
  started : Timestamp.t; last_seen : Timestamp.t;
  reassembly_dropped_ooo_initiator : Z; reassembly_dropped_ooo_responder : Z;
  reassembly_bytes_dropped_oversize_initiator : Z;
  reassembly_bytes_dropped_oversize_responder : Z;
  reassembler_high_watermark_initiator : Z; reassembler_high_watermark_responder : Z;
  retransmits_initiator : Z; retransmits_responder : Z;
  reassembly_gaps_initiator : Z; reassembly_gaps_responder : Z;
  reassembly_gap_bytes_initiator : Z; reassembly_gap_bytes_responder : Z;
  reassembly_stop_initiator : option ReassemblyStop;
  reassembly_stop_responder : option ReassemblyStop;
  reassembly_out_of_window_initiator : Z; reassembly_out_of_window_responder : Z;
  reassembly_ack_confirmed_gaps_initiator : Z; reassembly_ack_confirmed_gaps_responder : Z;
  reassembly_origin_resets_initiator : Z; reassembly_origin_resets_responder : Z;
  last_seen_initiator : Timestamp.t; last_seen_responder : Timestamp.t;
  iat_flow : WelfordStats.t; iat_initiator : WelfordStats.t; iat_responder : WelfordStats.t;
  active_periods : WelfordStats.t; idle_periods : WelfordStats.t;
  active_period_start : option Timestamp.t;
  initiator_orientation : Orientation;
  source_idx_forward : option Z; source_idx_reverse : option Z;
  capture_leg_inconsistent : bool; direction_flipped : bool;
  fin_initiator : bool; fin_responder : bool;
  ip_bytes_initiator : Z; ip_bytes_responder : Z;
  packets_truncated_initiator : Z; packets_truncated_responder : Z }.

#[global] Instance eta : Eta t := mk_eta (fun s => mk
  (packets_initiator s) (packets_responder s) (bytes_initiator s) (bytes_responder s)
  (started s) (last_seen s)
  (reassembly_dropped_ooo_initiator s) (reassembly_dropped_ooo_responder s)
  (reassembly_bytes_dropped_oversize_initiator s)
  (reassembly_bytes_dropped_oversize_responder s)
  (reassembler_high_watermark_initiator s) (reassembler_high_watermark_responder s)
  (retransmits_initiator s) (retransmits_responder s)
  (reassembly_gaps_initiator s) (reassembly_gaps_responder s)
  (reassembly_gap_bytes_initiator s) (reassembly_gap_bytes_responder s)
  (reassembly_stop_initiator s) (reassembly_stop_responder s)
  (reassembly_out_of_window_initiator s) (reassembly_out_of_window_responder s)
  (reassembly_ack_confirmed_gaps_initiator s) (reassembly_ack_confirmed_gaps_responder s)
  (reassembly_origin_resets_initiator s) (reassembly_origin_resets_responder s)
  (last_seen_initiator s) (last_seen_responder s)
  (iat_flow s) (iat_initiator s) (iat_responder s)
  (active_periods s) (idle_periods s) (active_period_start s)
  (initiator_orientation s) (source_idx_forward s) (source_idx_reverse s)
  (capture_leg_inconsistent s) (direction_flipped s) (fin_initiator s) (fin_responder s)
  (ip_bytes_initiator s) (ip_bytes_responder s)
  (packets_truncated_initiator s) (packets_truncated_responder s)).

Definition default : t :=
  let z := WelfordStats.default in let t0 := Timestamp.default in
  mk 0 0 0 0 t0 t0 0 0 0 0 0 0 0 0 0 0 0 0 None None 0 0 0 0 0 0 t0 t0 z z z z z None
     Forward None None false false false false 0 0 0 0.

Definition total_bytes (s : t) : Z := bytes_initiator s + bytes_responder s.
Definition total_ip_bytes (s : t) : Z := ip_bytes_initiator s + ip_bytes_responder s.
Definition ip_bytes_for (side : FlowSide) (s : t) : Z :=
  match side with Initiator => ip_bytes_initiator s | Responder => ip_bytes_responder s end.
Definition total_packets_truncated (s : t) : Z :=
  packets_truncated_initiator s + packets_truncated_responder s.
Definition total_packets (s : t) : Z := packets_initiator s + packets_responder s.
Definition total_retransmits (s : t) : Z := retransmits_initiator s + retransmits_responder s.
Definition duration (s : t) : Z := Timestamp.saturating_sub (last_seen s) (started s).
Definition side_for (o : Orientation) (s : t) : FlowSide :=
  if decide (o = initiator_orientation s) then Initiator else Responder.
Definition orientation_for (side : FlowSide) (s : t) : Orientation :=
  match side with
  | Initiator => initiator_orientation s
  | Responder => flipped (initiator_orientation s)
  end.
Definition source_idx_for (o : Orientation) (s : t) : option Z :=
  match o with Forward => source_idx_forward s | Reverse => source_idx_reverse s end.
Definition bytes_for (side : FlowSide) (s : t) : Z :=
  match side with Initiator => bytes_initiator s | Responder => bytes_responder s end.
Definition pkts_for (side : FlowSide) (s : t) : Z :=
  match side with Initiator => packets_initiator s | Responder => packets_responder s end.
End FlowStats.

(** ** [EndReason] *)
Module EndReason.
Definition is_graceful (r : EndReason) : bool :=
  match r with Fin | IdleTimeout | ForceClosed | ParserDone => true | _ => false end.
Definition is_transport (r : EndReason) : bool :=
  match r with
  | Fin | Rst | IdleTimeout | Evicted | ForceClosed => true
  | BufferOverflow | ParseError | ParserDone | StreamGap => false
  end.
Definition is_parser (r : EndReason) : bool :=
  match r with
  | BufferOverflow | ParseError | ParserDone | StreamGap => true
  | Fin | Rst | IdleTimeout | Evicted | ForceClosed => false
  end.
End EndReason.

(** ** Anomalies *)

Inductive AnomalyKind :=
  | ABufferOverflow (side : FlowSide) (bytes : Z) (policy : OverflowPolicy)
  | OutOfOrderSegment (side : FlowSide) (count : Z)
  | AStreamGap (side : FlowSide) (gaps bytes : Z)
  | OutOfWindowSegment (side : FlowSide) (count : Z)
  | FlowTableEvictionPressure (evicted_in_tick evicted_total : Z)
  | SessionParseError (side : FlowSide) (reason : option (list Z)) (parser_kind : ParserKind.t)
      (slot : option SlotId.t)
  | RetransmittedSegment (side : FlowSide) (count : Z)
  | ReassemblerHighWatermark (side : FlowSide) (bytes cap threshold_pct : Z)
  | TcpRexmitInconsistency (side : FlowSide) (count : Z)
  | GlobalMemcapHit (bytes_in_flight cap : Z) (policy : MemcapPolicy.t).

Inductive Severity := Info | Warning | Error | Critical.

Definition severity (a : AnomalyKind) : Severity :=
  match a with
  | OutOfOrderSegment _ _ | RetransmittedSegment _ _ => Info
  | ReassemblerHighWatermark _ _ _ _ | ABufferOverflow _ _ _ | AStreamGap _ _ _
  | OutOfWindowSegment _ _ | FlowTableEvictionPressure _ _ => Warning
  | SessionParseError _ _ _ _ | TcpRexmitInconsistency _ _ => Error
  | GlobalMemcapHit _ _ _ => Critical
  end.

(** ** [FlowEvent] *)
Inductive FlowEvent {K : Type} :=
  | Started (key : K) (side : FlowSide) (orientation : Orientation) (ts : Timestamp.t)
      (l4 : option L4Proto)
  | Packet (key : K) (side : FlowSide) (orientation : Orientation) (len : Z)
      (ts : Timestamp.t) (source_idx : option Z)
  | Established_ (key : K) (ts : Timestamp.t) (l4 : option L4Proto)
  | StateChange (key : K) (from to : FlowState) (ts : Timestamp.t)
  | Ended (key : K) (reason : EndReason) (stats : FlowStats.t) (history : list Z)
      (l4 : option L4Proto)
  | FlowAnomaly (key : K) (kind : AnomalyKind) (ts : Timestamp.t)
  | TrackerAnomaly (kind : AnomalyKind) (ts : Timestamp.t)
  | Tick (key : K) (stats : FlowStats.t) (ts : Timestamp.t).
#[global] Arguments FlowEvent : clear implicits.

Module FlowEvent.
Section flow_event.
Context {K : Type}.
Definition key (e : FlowEvent K) : option K :=
  match e with
  | Started k _ _ _ _ | Packet k _ _ _ _ _ | Established_ k _ _ | StateChange k _ _ _
  | Ended k _ _ _ _ | FlowAnomaly k _ _ | Tick k _ _ => Some k
  | TrackerAnomaly _ _ => None
  end.
Definition anomaly_kind (e : FlowEvent K) : option AnomalyKind :=
  match e with FlowAnomaly _ kind _ | TrackerAnomaly kind _ => Some kind | _ => None end.

(** The bit of [EventMask] that stands for the event. *)
Definition variant (e : FlowEvent K) : Z :=
  match e with
  | Started _ _ _ _ _ => EventMask.STARTED
  | Packet _ _ _ _ _ _ => EventMask.PACKET
  | Established_ _ _ _ => EventMask.ESTABLISHED
  | StateChange _ _ _ _ => EventMask.STATE_CHANGE
  | Ended _ _ _ _ _ => EventMask.ENDED
  | FlowAnomaly _ _ _ => EventMask.FLOW_ANOMALY
  | TrackerAnomaly _ _ => EventMask.TRACKER_ANOMALY
  | Tick _ _ _ => EventMask.TICK
  end.
End flow_event.
End FlowEvent.
