(* ===== verification/SessionCore.v ===== *)
(** * Per-parser dispatch (src/src/session/core.rs)

    A core owns one parser type's state per flow, [Probing -> Active ->
    Closed], and turns stream chunks or datagrams into messages and parser
    closes.  The trait [Output] only receives: what a core does to its
    output is the list of calls it makes, in order ([Output.t]).

    [flows] is a [HashMap]: a [gmap], iterated by [on_tick] in an order
    that is a parameter.  The scratch vector is cleared before every
    callback and drained after it: the list the callback returns.  Metrics
    and traces are left out. *)

From stdpp Require Import gmap.
From S2P Require Import Prelude Time Flow Text ParserKind Chunks Event Parser.
Open Scope Z_scope.

Definition REASON_MAX_BYTES : Z := 256.
Definition DEFAULT_PROBE_PACKETS : Z := 4.
Definition PROBE_BUFFER_CAP : Z := 64.
Definition PROBE_REPLAY_BYTE_CAP : Z := 64 * 1024.

(** [s.is_char_boundary(i)], for [s] in UTF-8. *)
Definition is_char_boundary (s : list Z) (i : Z) : bool :=
  (i =? zlen s) || match zdrop i s with b :: _ => (0 <=? i) && negb (cont b) | [] => false end.
(** The greatest boundary from [i] down. *)
Fixpoint boundary_below (i : nat) (s : list Z) : Z :=
  if is_char_boundary s (Z.of_nat i) then Z.of_nat i
  else match i with O => 0 | S i => boundary_below i s end.
Definition truncate_reason (s : list Z) : list Z :=
  if REASON_MAX_BYTES <? zlen s then ztake (boundary_below (Z.to_nat REASON_MAX_BYTES) s) s else s.

Definition Ports : Type := option (Z * Z).

(** ** What a core is given *)
Module Stream.
Inductive t := SChunks (c : StreamChunks.t) | SBytes (b : list Z).
Definition is_empty (s : t) : bool :=
  match s with SChunks c => StreamChunks.is_empty c | SBytes b => is_nil b end.
Definition len (s : t) : Z :=
  match s with SChunks c => StreamChunks.len c | SBytes b => zlen b end.
Definition stop (s : t) : option ReassemblyStop :=
  match s with SChunks c => StreamChunks.stop c | SBytes _ => None end.
Definition iter (s : t) : list Chunk :=
  match s with SChunks c => StreamChunks.iter c | SBytes b => if is_nil b then [] else [Data b] end.
Definition to_chunks (s : t) : StreamChunks.t :=
  match s with SChunks c => c | SBytes b => StreamChunks.push_data b StreamChunks.new end.
End Stream.

Inductive SignatureMatch := Match | NoMatch | NeedMoreData.
Definition SignatureFn : Type := list Z -> SignatureMatch.

Module Selector.
Inductive t := All | Ports (set : list Z) | Signature (signature : SignatureFn) (max_probe_packets : Z).
Definition needs_ports (s : t) : bool := match s with Ports _ => true | _ => false end.
Definition mem (p : Z) (set : list Z) : bool := existsb (Z.eqb p) set.
Definition admits (ports : SessionCore.Ports) (s : t) : bool :=
  match s with
  | Ports set => match ports with Some (a, b) => mem a set || mem b set | None => false end
  | All | Signature _ _ => true
  end.
End Selector.

Module Emit.
Record t := mk { count_anomalies : bool; anomalies : bool; parser_events : bool; flow_end_closes : bool }.
#[global] Instance eta : Eta t := mk_eta (fun e =>
  mk (count_anomalies e) (anomalies e) (parser_events e) (flow_end_closes e)).
End Emit.

Module Ctx.
Record t {K : Type} := mk {
  key : K; l4 : option L4Proto; side : FlowSide; orientation : Orientation; ts : Timestamp.t; emit : Emit.t }.
#[global] Arguments t : clear implicits.
#[global] Arguments mk {K}.
End Ctx.

(** ** What a core tells its output *)
Module Output.
Inductive t {K M : Type} :=
  | Message (key : K) (side : FlowSide) (orientation : Orientation) (message : M) (ts : Timestamp.t)
      (kind : ParserKind.t)
  | ParserClosed (key : K) (kind : ParserKind.t) (reason : EndReason) (detail : option (list Z))
      (ts : Timestamp.t) (at_flow_end : bool)
  | ParserSideStopped (key : K) (kind : ParserKind.t) (side : FlowSide) (reason : EndReason)
      (detail : option (list Z)) (ts : Timestamp.t)
  | Anomaly (key : K) (kind : AnomalyKind) (ts : Timestamp.t).
#[global] Arguments t : clear implicits.
End Output.

(** Why a parser closed before the flow's end. *)
Module Close.
Inductive t := Poison (detail : option (list Z)) | Done | Gap (side : FlowSide) (n : Z) | BothSides (reason : EndReason).
Definition reason (c : t) : EndReason :=
  match c with Poison _ => ParseError | Done => ParserDone | Gap _ _ => StreamGap | BothSides r => r end.
Definition decimal (n : Z) : list Z := Timestamp.digits 20 n.
Definition detail (c : t) : option (list Z) :=
  match c with
  | Poison r => r
  | Done => None
  | Gap side n => Some (decimal n ++ bstr " bytes missing on the " ++ FlowSide.as_str side ++ bstr " side")
  | BothSides _ => Some (bstr "both sides stopped")
  end.
End Close.

Inductive FeedEnd := EndClose (c : Close.t) | EndSide (reason : EndReason) (detail : list Z).

(** [parser_closed] with what the gates let through. *)
Definition emit_close {K M} (cx : Ctx.t K) (kind : ParserKind.t) (close : Close.t) : list (Output.t K M) :=
  (match close with
   | Close.Poison detail =>
       if Emit.count_anomalies (Ctx.emit cx) && Emit.anomalies (Ctx.emit cx)
       then [Output.Anomaly (Ctx.key cx) (SessionParseError (Ctx.side cx) detail kind None) (Ctx.ts cx)]
       else []
   | _ => []
   end)
  ++ if Emit.parser_events (Ctx.emit cx)
     then [Output.ParserClosed (Ctx.key cx) kind (Close.reason close) (Close.detail close) (Ctx.ts cx) false]
     else [].

(** Two-element arrays indexed by [side_idx]. *)
Module Sides.
Record t {A : Type} := mk { initiator : A; responder : A }.
#[global] Arguments t : clear implicits.
#[global] Arguments mk {A}.
Definition get {A} (s : FlowSide) (x : t A) : A :=
  match s with Initiator => initiator x | Responder => responder x end.
Definition set {A} (s : FlowSide) (a : A) (x : t A) : t A :=
  match s with Initiator => mk a (responder x) | Responder => mk (initiator x) a end.
Definition both {A} (a : A) : t A := mk a a.
End Sides.

(** ** An active parser *)
Module Active.
Record t {P : Type} := mk { parser : P; stopped : Sides.t bool }.
#[global] Arguments t : clear implicits.
#[global] Arguments mk {P}.
Section active.
Context {K P M : Type} `{SessionParser P M}.
Notation out := (list (Output.t K M)).

Definition check_close (p : P) : option Close.t :=
  if is_poisoned p then Some (Close.Poison (truncate_reason <$> poison_reason p))
  else if is_done p then Some Close.Done
  else None.

Definition messages (cx : Ctx.t K) (kind : ParserKind.t) (ms : list M) : out :=
  (fun m => Output.Message (Ctx.key cx) (Ctx.side cx) (Ctx.orientation cx) m (Ctx.ts cx) kind) <$> ms.

(** The parser, what it pushed, and the answer to a gap. *)
Definition feed_chunk (cx : Ctx.t K) (c : Chunk) (p : P) : P * list M * option (Z * GapResponse) :=
  match c with
  | Data bytes =>
      let (p, ms) := match Ctx.side cx with
                     | Initiator => feed_initiator bytes (Ctx.ts cx) p
                     | Responder => feed_responder bytes (Ctx.ts cx) p
                     end in (p, ms, None)
  | Gap missing =>
      let '(p, ms, r) := on_gap (Ctx.side cx) missing (Ctx.ts cx) p in (p, ms, Some (missing, r))
  end.
Fixpoint feed_from (cx : Ctx.t K) (kind : ParserKind.t) (stop : option ReassemblyStop) (chunks : list Chunk) (p : P)
    : P * out * option FeedEnd :=
  match chunks with
  | [] =>
      (p, [], (fun s => EndSide BufferOverflow (bstr "reassembly stopped: " ++ ReassemblyStop.as_str s)) <$> stop)
  | c :: chunks =>
      let '(p, ms, gap) := feed_chunk cx c p in
      let ms := messages cx kind ms in
      match check_close p with
      | Some close => (p, ms, Some (EndClose close))
      | None =>
          match gap with
          | Some (missing, Stop) => (p, ms, Some (EndClose (Close.Gap (Ctx.side cx) missing)))
          | Some (missing, StopSide) =>
              (p, ms, Some (EndSide StreamGap (Close.decimal missing ++ bstr " bytes missing")))
          | _ => let '(p, out, e) := feed_from cx kind stop chunks p in (p, ms ++ out, e)
          end
      end
  end.
(** [core::feed]. *)
Definition feed_stream (cx : Ctx.t K) (s : Stream.t) (p : P) : P * out * option FeedEnd :=
  feed_from cx (parser_kind p) (Stream.stop s) (Stream.iter s) p.

Definition new (p : P) : t P := mk p (Sides.both false).

(** [Active::feed]; [true] when the parser is closed. *)
Definition feed (cx : Ctx.t K) (s : Stream.t) (a : t P) : t P * out * bool :=
  if Sides.get (Ctx.side cx) (stopped a) then (a, [], false)
  else
    let kind := parser_kind (parser a) in
    let '(p, out, e) := feed_stream cx s (parser a) in
    match e with
    | None => (mk p (stopped a), out, false)
    | Some (EndClose close) => (mk p (stopped a), out ++ emit_close cx kind close, true)
    | Some (EndSide reason detail) =>
        let stopped := Sides.set (Ctx.side cx) true (stopped a) in
        let out := out ++
          if Emit.parser_events (Ctx.emit cx)
          then [Output.ParserSideStopped (Ctx.key cx) kind (Ctx.side cx) reason (Some detail) (Ctx.ts cx)] else [] in
        if Sides.initiator stopped && Sides.responder stopped
        then (mk p stopped, out ++ emit_close cx kind (Close.BothSides reason), true)
        else (mk p stopped, out, false)
    end.
End active.
End Active.

(** ** Probing *)
Inductive Verdict := VMatch | VReject | VUndecided.

Module Probe.
Record t := mk {
  packets : Z; prefix : Sides.t (list Z); sealed : Sides.t bool;
  replay : list (FlowSide * Orientation * Timestamp.t * StreamChunks.t); replay_bytes : Z;
  kept : Sides.t bool; lost : Sides.t Z }.
#[global] Instance eta : Eta t := mk_eta (fun p =>
  mk (packets p) (prefix p) (sealed p) (replay p) (replay_bytes p) (kept p) (lost p)).
Definition default : t :=
  mk 0 (Sides.both []) (Sides.both false) [] 0 (Sides.both false) (Sides.both 0).

(** The prefix, and whether a gap ended it. *)
Fixpoint extend_prefix (prefix : list Z) (chunks : list Chunk) : list Z * bool :=
  match chunks with
  | [] => (prefix, false)
  | Data d :: chunks =>
      let room := sat_sub PROBE_BUFFER_CAP (zlen prefix) in
      extend_prefix (prefix ++ ztake (Z.min room (zlen d)) d) chunks
  | Gap _ :: _ => (prefix, true)
  end.
Definition see (side : FlowSide) (s : Stream.t) (p : t) : t :=
  if Sides.get side (sealed p) then p
  else
    let (pre, gap) := extend_prefix (Sides.get side (prefix p)) (Stream.iter s) in
    p <| prefix ::= Sides.set side pre |> <| sealed ::= Sides.set side (gap || is_some (Stream.stop s)) |>.

Definition gap_sum (chunks : list Chunk) : Z :=
  foldr (fun c n => match c with Gap m => m + n | Data _ => n end) 0 chunks.
Definition keep {K} (cx : Ctx.t K) (s : Stream.t) (p : t) : t :=
  let side := Ctx.side cx in
  let len := Stream.len s in
  if negb (Sides.get side (kept p))
     || (Sides.get side (lost p) =? 0) && (replay_bytes p + len <=? PROBE_REPLAY_BYTE_CAP)
  then
    p <| kept ::= Sides.set side true |> <| replay_bytes ::= fun n => n + len |>
      <| replay ::= fun r => r ++ [(side, Ctx.orientation cx, Ctx.ts cx, Stream.to_chunks s)] |>
  else
    p <| lost ::= fun l => Sides.set side (Sides.get side l + (len + gap_sum (Stream.iter s))) l |>.

Definition is_match (v : SignatureMatch) : bool := match v with Match => true | _ => false end.
Definition is_no_match (v : SignatureMatch) : bool := match v with NoMatch => true | _ => false end.
Definition verdict (signature : SignatureFn) (max_probe_packets : Z) (p : t) : Verdict :=
  let vi := signature (Sides.initiator (prefix p)) in
  let vr := signature (Sides.responder (prefix p)) in
  if is_match vi || is_match vr then VMatch
  else if (is_no_match vi && is_no_match vr) || (max_probe_packets <=? packets p) then VReject
  else VUndecided.

Definition step {K} (cx : Ctx.t K) (s : Stream.t) (signature : SignatureFn) (max_probe_packets : Z) (p : t)
    : t * Verdict :=
  let p := see (Ctx.side cx) s p in
  let p := p <| packets ::= fun n => Z.min 255 (n + 1) |> in
  let p := keep cx s p in
  (p, verdict signature max_probe_packets p).
End Probe.

Section pin.
Context {K P M : Type} `{SessionParser P M}.

Fixpoint replay_all (cx : Ctx.t K) (log : list (FlowSide * Orientation * Timestamp.t * StreamChunks.t))
    (a : Active.t P) : list (Output.t K M) * option (Active.t P) :=
  match log with
  | [] => ([], Some a)
  | (side, orientation, ts, chunks) :: log =>
      let rcx := Ctx.mk (Ctx.key cx) (Ctx.l4 cx) side orientation ts (Ctx.emit cx) in
      let '(a, out, closed) := Active.feed rcx (Stream.SChunks chunks) a in
      if closed : bool then (out, None)
      else let (out', r) := replay_all cx log a in (out ++ out', r)
  end.
(** What was lost past the cap, as a gap per side. *)
Definition lost_chunks (cx : Ctx.t K) (probe : Probe.t) : list (FlowSide * Orientation * Timestamp.t * StreamChunks.t) :=
  concat ((fun side =>
    let lost := Sides.get side (Probe.lost probe) in
    if lost =? 0 then []
    else [(side, (if bool_decide (side = Ctx.side cx) then Ctx.orientation cx else flipped (Ctx.orientation cx)),
           Ctx.ts cx, StreamChunks.push_gap lost StreamChunks.new)]) <$> [Initiator; Responder]).
Definition pin (p : P) (probe : Probe.t) (cx : Ctx.t K) : list (Output.t K M) * option (Active.t P) :=
  replay_all cx (Probe.replay probe ++ lost_chunks cx probe) (Active.new p).
End pin.

(** ** The stream core *)
Module SessionFlow.
Inductive t {P : Type} := Probing (p : Probe.t) | Active_ (a : Active.t P) | Closed.
#[global] Arguments t : clear implicits.
End SessionFlow.
Import SessionFlow.

Module SessionCore.
Section core.
Context {K F P M : Type} `{Countable K} `{SessionParser P M} `{!SessionParserFactory K F P}.
Variable order : gmap K (SessionFlow.t P) -> list (K * SessionFlow.t P).
Notation out := (list (Output.t K M)).

Record t := mk { factory : F; selector : Selector.t; flows : gmap K (SessionFlow.t P) }.
#[global] Instance eta : Eta t := mk_eta (fun c => mk (factory c) (selector c) (flows c)).
Definition new (f : F) (s : Selector.t) : t := mk f s ∅.
Definition wants (ports : Ports) (c : t) : bool := Selector.admits ports (selector c).
Definition set_flow (k : K) (f : SessionFlow.t P) (c : t) : t := c <| flows ::= insert k f |>.

(** A flow seen for the first time. *)
Definition admit_flow (k : K) (c : t) : t :=
  match selector c with
  | Selector.Signature _ _ => set_flow k (Probing Probe.default) c
  | Selector.All | Selector.Ports _ =>
      let (f, p) := new_parser k (factory c) in set_flow k (Active_ (Active.new p)) (c <| factory := f |>)
  end.
Definition on_stream (cx : Ctx.t K) (ports : Ports) (chunks : Stream.t) (c : t) : t * out :=
  if Stream.is_empty chunks then (c, [])
  else if is_none (flows c !! Ctx.key cx) && negb (Selector.admits ports (selector c)) then (c, [])
  else
    let k := Ctx.key cx in
    let c := if is_none (flows c !! k) then admit_flow k c else c in
    match flows c !! k with
    | None | Some Closed => (c, [])
    | Some (Active_ a) =>
        let '(a, out, closed) := Active.feed cx chunks a in
        (set_flow k (if closed : bool then Closed else Active_ a) c, out)
    | Some (Probing probe) =>
        match selector c with
        | Selector.Signature signature max_probe_packets =>
            let (probe, v) := Probe.step cx chunks signature max_probe_packets probe in
            match v with
            | VUndecided => (set_flow k (Probing probe) c, [])
            | VReject => (set_flow k Closed c, [])
            | VMatch =>
                let (f, p) := new_parser k (factory c) in
                let (out, r) := pin p probe cx in
                (set_flow k (match r with Some a => Active_ a | None => Closed end) (c <| factory := f |>), out)
            end
        | _ => (c, []) (* unreachable: only signature cores probe *)
        end
    end.

Definition streams_done (k : K) (ports : Ports) (c : t) : Sides.t bool :=
  match flows c !! k with
  | Some Closed => Sides.both true
  | Some (Active_ a) => Active.stopped a
  | Some (Probing _) => Sides.both false
  | None => Sides.both (negb (Selector.admits ports (selector c)))
  end.

(** One side's end: [fin_*] or [rst_*], or nothing when it is stopped. *)
Definition end_side (k : K) (reason : EndReason) (stats : FlowStats.t) (kind : ParserKind.t) (stopped : Sides.t bool)
    (side : FlowSide) (p : P) : P * out :=
  if Sides.get side stopped then (p, [])
  else
    let fin_seen := match side with
                    | Initiator => FlowStats.fin_initiator stats
                    | Responder => FlowStats.fin_responder stats
                    end in
    if EndReason.is_graceful reason || fin_seen then
      let (p, ms) := match side with Initiator => fin_initiator p | Responder => fin_responder p end in
      (p, (fun m => Output.Message k side (FlowStats.orientation_for side stats) m (FlowStats.last_seen stats) kind) <$> ms)
    else (match side with Initiator => rst_initiator p | Responder => rst_responder p end, []).

Definition final_stream (k : K) (stats : FlowStats.t) (ports : Ports) (emit : Emit.t) (side : FlowSide)
    (chunks : StreamChunks.t) (c : t) : t * out :=
  if StreamChunks.is_empty chunks then (c, [])
  else
    on_stream (Ctx.mk k (Some Tcp) side (FlowStats.orientation_for side stats) (FlowStats.last_seen stats) emit)
      ports (Stream.SChunks chunks) c.
Definition on_flow_end (k : K) (reason : EndReason) (stats : FlowStats.t) (finals : Sides.t StreamChunks.t)
    (ports : Ports) (emit : Emit.t) (c : t) : t * out :=
  let (c, out1) := final_stream k stats ports emit Initiator (Sides.initiator finals) c in
  let (c, out2) := final_stream k stats ports emit Responder (Sides.responder finals) c in
  let state := flows c !! k in
  let c := c <| flows ::= delete k |> in
  match state with
  | Some (Active_ a) =>
      let kind := parser_kind (Active.parser a) in
      let (p, fin1) := end_side k reason stats kind (Active.stopped a) Initiator (Active.parser a) in
      let (_, fin2) := end_side k reason stats kind (Active.stopped a) Responder p in
      (c, out1 ++ out2 ++ fin1 ++ fin2
          ++ if Emit.flow_end_closes emit
             then [Output.ParserClosed k kind reason None (FlowStats.last_seen stats) true] else [])
  | _ => (c, out1 ++ out2)
  end.

(** One iteration of [on_tick]. *)
Definition tick_flow (now stamp : Timestamp.t) (orientation_of : K -> Orientation) (emit : Emit.t) (k : K)
    (state : SessionFlow.t P) : SessionFlow.t P * out :=
  match state with
  | Active_ a =>
      let kind := parser_kind (Active.parser a) in
      let orientation := orientation_of k in
      let (p, ms) := on_tick now (Active.parser a) in
      let cx := Ctx.mk k None Initiator orientation stamp emit in
      let out := Active.messages cx kind ms in
      match Active.check_close p with
      | Some close => (Closed, out ++ emit_close cx kind close)
      | None => (Active_ (Active.mk p (Active.stopped a)), out)
      end
  | _ => (state, [])
  end.
Fixpoint tick_flows (now stamp : Timestamp.t) (orientation_of : K -> Orientation) (emit : Emit.t)
    (l : list (K * SessionFlow.t P)) (m : gmap K (SessionFlow.t P)) : gmap K (SessionFlow.t P) * out :=
  match l with
  | [] => (m, [])
  | (k, state) :: l =>
      let (state, out) := tick_flow now stamp orientation_of emit k state in
      let (m, out') := tick_flows now stamp orientation_of emit l (<[k := state]> m) in
      (m, out ++ out')
  end.
Definition on_tick (now stamp : Timestamp.t) (orientation_of : K -> Orientation) (emit : Emit.t) (c : t) : t * out :=
  let (m, out) := tick_flows now stamp orientation_of emit (order (flows c)) (flows c) in (c <| flows := m |>, out).

Definition retain (alive : K -> bool) (c : t) : t := c <| flows ::= filter (fun kf => alive kf.1 = true) |>.
End core.
#[global] Arguments t K F P {_ _}.
End SessionCore.
