(* ===== verification/DatagramCore.v ===== *)
(** * The datagram core (src/src/session/core.rs, [DatagramCore])

    One parser type's state per flow, fed whole payloads of the transports
    the parser reads. *)

From stdpp Require Import gmap.
From S2P Require Import Prelude Time Flow ParserKind Event Parser SessionCore.
Open Scope Z_scope.

Module DatagramFlow.
Inductive t {P : Type} := Probing (packets : Z) | Active_ (p : P) | Closed.
#[global] Arguments t : clear implicits.
End DatagramFlow.
Import DatagramFlow.

Module DatagramCore.
Section core.
Context {K F P M : Type} `{Countable K} `{DatagramParser P M} `{!DatagramParserFactory K F P}.
Variable order : gmap K (DatagramFlow.t P) -> list (K * DatagramFlow.t P).
Notation out := (list (Output.t K M)).

Record t := mk {
  factory : F; selector : Selector.t; transports : Z; flows : gmap K (DatagramFlow.t P) }.
#[global] Instance eta : Eta t := mk_eta (fun c => mk (factory c) (selector c) (transports c) (flows c)).
Definition new (f : F) (s : Selector.t) : t := mk f s (Parser.transports f) ∅.
Definition wants (ports : Ports) (l4 : option L4Proto) (c : t) : bool :=
  Transports.admits (transports c) l4 && Selector.admits ports (selector c).
Definition set_flow (k : K) (f : DatagramFlow.t P) (c : t) : t := c <| flows ::= insert k f |>.
Definition activate (k : K) (c : t) : t :=
  let (f, p) := new_datagram_parser k (factory c) in set_flow k (Active_ p) (c <| factory := f |>).
Definition admit_flow (k : K) (c : t) : t :=
  match selector c with
  | Selector.Signature _ _ => set_flow k (Probing 0) c
  | Selector.All | Selector.Ports _ => activate k c
  end.

Definition check_datagram_close (p : P) : option Close.t :=
  if dg_is_poisoned p then Some (Close.Poison (truncate_reason <$> dg_poison_reason p))
  else if dg_is_done p then Some Close.Done
  else None.

(** A probed payload: a match activates the parser, which reads this payload. *)
Definition probe (k : K) (packets : Z) (payload : list Z) (c : t) : t :=
  match selector c with
  | Selector.Signature signature max_probe_packets =>
      match signature payload with
      | Match => activate k c
      | verdict =>
          let packets := Z.min 255 (packets + 1) in
          set_flow k (if Probe.is_no_match verdict || (max_probe_packets <=? packets) then Closed else Probing packets) c
      end
  | _ => c (* unreachable: only signature cores probe *)
  end.
Definition parse_payload (cx : Ctx.t K) (payload : list Z) (c : t) : t * out :=
  match flows c !! Ctx.key cx with
  | Some (Active_ p) =>
      let kind := dg_parser_kind p in
      let (p, ms) := parse payload (Ctx.side cx) (Ctx.ts cx) p in
      let out := (fun m => Output.Message (Ctx.key cx) (Ctx.side cx) (Ctx.orientation cx) m (Ctx.ts cx) kind) <$> ms in
      match check_datagram_close p with
      | Some close => (set_flow (Ctx.key cx) Closed c, out ++ emit_close cx kind close)
      | None => (set_flow (Ctx.key cx) (Active_ p) c, out)
      end
  | _ => (c, [])
  end.
Definition on_datagram (cx : Ctx.t K) (ports : Ports) (payload : list Z) (c : t) : t * out :=
  let k := Ctx.key cx in
  if negb (Transports.admits (transports c) (Ctx.l4 cx)) then (c, [])
  else if is_none (flows c !! k) && negb (Selector.admits ports (selector c)) then (c, [])
  else
    let c := if is_none (flows c !! k) then admit_flow k c else c in
    let c := match flows c !! k with Some (Probing packets) => probe k packets payload c | _ => c end in
    parse_payload cx payload c.

Definition on_flow_end (k : K) (reason : EndReason) (stats : FlowStats.t) (emit : Emit.t) (c : t) : t * out :=
  (c <| flows ::= delete k |>,
   match flows c !! k with
   | Some (Active_ p) =>
       if Emit.flow_end_closes emit
       then [Output.ParserClosed k (dg_parser_kind p) reason None (FlowStats.last_seen stats) true] else []
   | _ => []
   end).

Definition tick_flow (now stamp : Timestamp.t) (orientation_of : K -> Orientation) (emit : Emit.t) (k : K)
    (state : DatagramFlow.t P) : DatagramFlow.t P * out :=
  match state with
  | Active_ p =>
      let kind := dg_parser_kind p in
      let orientation := orientation_of k in
      let (p, ms) := dg_on_tick now p in
      let out := (fun m => Output.Message k Initiator orientation m stamp kind) <$> ms in
      match check_datagram_close p with
      | Some close => (Closed, out ++ emit_close (Ctx.mk k None Initiator orientation stamp emit) kind close)
      | None => (Active_ p, out)
      end
  | _ => (state, [])
  end.
Fixpoint tick_flows (now stamp : Timestamp.t) (orientation_of : K -> Orientation) (emit : Emit.t)
    (l : list (K * DatagramFlow.t P)) (m : gmap K (DatagramFlow.t P)) : gmap K (DatagramFlow.t P) * out :=
  match l with
  | [] => (m, [])
  | (k, state) :: l =>
      let (state, out) := tick_flow now stamp orientation_of emit k state in
      let (m, out') := tick_flows now stamp orientation_of emit l (<[k := state]> m) in
      (m, out ++ out')
  end.
Definition on_tick (now stamp : Timestamp.t) (orientation_of : K -> Orientation) (emit : Emit.t) (c : t) : t * out :=
  let (m, out) := tick_flows now stamp orientation_of emit (order (flows c)) (flows c) in (c <| flows := m |>, out).
Definition retain (alive : K -> bool) (c : t) : t := c <| flows ::= filter (fun kf => alive kf.1 = true) |>.
End core.
#[global] Arguments t K F P {_ _}.
End DatagramCore.
