(* ===== verification/CoreFacts.v ===== *)
(** * A core is a family of independent flow machines (src/src/session/core.rs)

    [Flow] is the specification of what a core does for one flow: a machine
    with no map, no other flows and no iteration order.  Whatever calls are
    interleaved on a core, what it keeps for a flow and what it tells its
    output about it are what the machine of that flow alone does. *)

From stdpp Require Import gmap.
From S2P Require Import Prelude Time Flow ParserKind Chunks Event Parser SessionCore.
Open Scope Z_scope.
Import SessionFlow SessionCore.

Section machine.
Context {K P M : Type} `{EqDecision K} `{SessionParser P M}.
Notation out := (list (Output.t K M)).
Notation state := (option (SessionFlow.t P)).

(** What an owner may call. *)
Inductive Call :=
  | CStream (cx : Ctx.t K) (ports : Ports) (s : Stream.t)
  | CFlowEnd (k : K) (reason : EndReason) (stats : FlowStats.t) (finals : Sides.t StreamChunks.t) (ports : Ports) (emit : Emit.t)
  | CTick (now stamp : Timestamp.t) (orientation_of : K -> Orientation) (emit : Emit.t)
  | CRetain (alive : K -> bool).

Variable selector : Selector.t.
Variable make : K -> P.


Definition flow_admit (k : K) (ports : Ports) (st : state) : state :=
  match st with
  | Some s => Some s
  | None =>
      if Selector.admits ports selector then
        Some match selector with
             | Selector.Signature _ _ => Probing Probe.default
             | _ => Active_ (Active.new (make k))
             end
      else None
  end.
Definition flow_stream (cx : Ctx.t K) (ports : Ports) (s : Stream.t) (st : state) : state * out :=
  if Stream.is_empty s then (st, [])
  else
    match flow_admit (Ctx.key cx) ports st with
    | Some (Active_ a) =>
        let '(a, out, closed) := Active.feed cx s a in (Some (if closed : bool then Closed else Active_ a), out)
    | Some (Probing probe) =>
        match selector with
        | Selector.Signature signature max_probe_packets =>
            let (probe, v) := Probe.step cx s signature max_probe_packets probe in
            match v with
            | VUndecided => (Some (Probing probe), [])
            | VReject => (Some Closed, [])
            | VMatch =>
                let (out, r) := pin (make (Ctx.key cx)) probe cx in
                (Some match r with Some a => Active_ a | None => Closed end, out)
            end
        | _ => (Some (Probing probe), [])
        end
    | st => (st, [])
    end.
Definition flow_final (k : K) (stats : FlowStats.t) (ports : Ports) (emit : Emit.t) (side : FlowSide)
    (chunks : StreamChunks.t) (st : state) : state * out :=
  flow_stream (Ctx.mk k (Some Tcp) side (FlowStats.orientation_for side stats) (FlowStats.last_seen stats) emit)
    ports (Stream.SChunks chunks) st.
(** The end of the flow: its parser, if any, ends each side and closes. *)
Definition flow_close (k : K) (reason : EndReason) (stats : FlowStats.t) (emit : Emit.t) (st : state) : out :=
  match st with
  | Some (Active_ a) =>
      let kind := parser_kind (Active.parser a) in
      let (p, fin1) := end_side k reason stats kind (Active.stopped a) Initiator (Active.parser a) in
      let (_, fin2) := end_side k reason stats kind (Active.stopped a) Responder p in
      fin1 ++ fin2 ++ if Emit.flow_end_closes emit
                      then [Output.ParserClosed k kind reason None (FlowStats.last_seen stats) true] else []
  | _ => []
  end.
Definition flow_end (k : K) (reason : EndReason) (stats : FlowStats.t) (finals : Sides.t StreamChunks.t)
    (ports : Ports) (emit : Emit.t) (st : state) : out :=
  let (st, out1) := flow_final k stats ports emit Initiator (Sides.initiator finals) st in
  let (st, out2) := flow_final k stats ports emit Responder (Sides.responder finals) st in
  out1 ++ out2 ++ flow_close k reason stats emit st.

(** One call, as the machine of flow [k] sees it. *)
Definition flow_step (k : K) (c : Call) (st : state) : state * out :=
  match c with
  | CStream cx ports s => if decide (Ctx.key cx = k) then flow_stream cx ports s st else (st, [])
  | CFlowEnd k' reason stats finals ports emit =>
      if decide (k' = k) then (None, flow_end k reason stats finals ports emit st) else (st, [])
  | CTick now stamp orientation_of emit =>
      match st with
      | Some s => let (s, out) := tick_flow now stamp orientation_of emit k s in (Some s, out)
      | None => (None, [])
      end
  | CRetain alive => (if alive k then st else None, [])
  end.
Fixpoint flow_run (k : K) (cs : list Call) (st : state) : state * out :=
  match cs with
  | [] => (st, [])
  | c :: cs =>
      let (st, out1) := flow_step k c st in
      let (st, out2) := flow_run k cs st in (st, out1 ++ out2)
  end.
End machine.
#[global] Arguments Call : clear implicits.

Section core.
Context {K F P M : Type} `{Countable K} `{SessionParser P M} `{!SessionParserFactory K F P}.
Variable order : gmap K (SessionFlow.t P) -> list (K * SessionFlow.t P).
Notation out := (list (Output.t K M)).
Notation core := (SessionCore.t K F P).

Definition core_step (c : Call K) (x : core) : core * out :=
  match c with
  | CStream cx ports s => on_stream cx ports s x
  | CFlowEnd k reason stats finals ports emit => on_flow_end k reason stats finals ports emit x
  | CTick now stamp orientation_of emit => on_tick order now stamp orientation_of emit x
  | CRetain alive => (retain alive x, [])
  end.
Fixpoint core_run (cs : list (Call K)) (x : core) : core * out :=
  match cs with
  | [] => (x, [])
  | c :: cs =>
      let (x, out1) := core_step c x in
      let (x, out2) := core_run cs x in (x, out1 ++ out2)
  end.

Definition output_key (o : Output.t K M) : K :=
  match o with
  | Output.Message k _ _ _ _ _ | Output.ParserClosed k _ _ _ _ _ | Output.ParserSideStopped k _ _ _ _ _
  | Output.Anomaly k _ _ => k
  end.
(** What is said of one flow. *)
Definition about (k : K) (os : out) : out := List.filter (fun o => bool_decide (output_key o = k)) os.
Lemma about_app k os os' : about k (os ++ os') = about k os ++ about k os'.
Proof. apply List.filter_app. Qed.
Lemma about_all k os : Forall (fun o => output_key o = k) os -> about k os = os.
Proof. unfold about. induction 1 as [|o os E _ IH]; cbn; [done|]. by rewrite bool_decide_true, IH. Qed.
Lemma about_none k k' os : k' <> k -> Forall (fun o => output_key o = k') os -> about k os = [].
Proof. intros N. unfold about. induction 1 as [|o os E _ IH]; cbn; [done|]. by rewrite bool_decide_false, IH by congruence. Qed.
Lemma about_of k k' os : Forall (fun o => output_key o = k') os -> about k os = if decide (k' = k) then os else [].
Proof. intros Hos. case_decide as D; [subst; by apply about_all|by eapply about_none]. Qed.

(** *** Everything a core says in a call is about that call's flow *)
Notation all_about k := (Forall (fun o => output_key o = k)).
Lemma messages_about cx kind (ms : list M) : all_about (Ctx.key cx) (Active.messages cx kind ms).
Proof. unfold Active.messages. induction ms; by constructor. Qed.
Lemma emit_close_about (cx : Ctx.t K) kind close : all_about (Ctx.key cx) (emit_close (M := M) cx kind close).
Proof. unfold emit_close. apply Forall_app. split; repeat case_match; by repeat constructor. Qed.
Lemma feed_from_about cx kind stop chunks : forall p : P,
  all_about (Ctx.key cx) (Active.feed_from (M := M) cx kind stop chunks p).1.2.
Proof.
  induction chunks as [|c chunks IH]; intros p; cbn [Active.feed_from]; [constructor|].
  destruct (Active.feed_chunk cx c p) as [[p1 ms] gap]. pose proof (messages_about cx kind ms) as G.
  destruct (Active.check_close p1); [done|]. specialize (IH p1).
  destruct (Active.feed_from cx kind stop chunks p1) as [[p2 o] e]. cbn in IH.
  assert (all_about (Ctx.key cx) (Active.messages cx kind ms ++ o)) by by apply Forall_app.
  destruct gap as [[missing []]|]; done.
Qed.
Lemma feed_about cx s (a : Active.t P) : all_about (Ctx.key cx) (Active.feed (M := M) cx s a).1.2.
Proof.
  unfold Active.feed. case_if; [constructor|]. unfold Active.feed_stream.
  pose proof (feed_from_about cx (parser_kind (Active.parser a)) (Stream.stop s) (Stream.iter s) (Active.parser a)) as G.
  destruct (Active.feed_from _ _ _ _ _) as [[p o] e]. cbn in G. destruct e as [[close|reason detail]|]; cbn; [|..|done].
  - apply Forall_app. split; [done|apply emit_close_about].
  - set (o' := o ++ _). assert (all_about (Ctx.key cx) o')
      by (apply Forall_app; split; [done|case_if; by repeat constructor]).
    case_if; cbn [fst snd]; [apply Forall_app; split; [done|apply (emit_close_about cx _ (Close.BothSides reason))]|done].
Qed.
Lemma replay_about cx log : forall a : Active.t P, all_about (Ctx.key cx) (replay_all (M := M) cx log a).1.
Proof.
  induction log as [|[[[side o] ts] chunks] log IH]; intros a; cbn [replay_all]; [constructor|].
  set (rcx := Ctx.mk _ _ _ _ _ _). pose proof (feed_about rcx (Stream.SChunks chunks) a) as G.
  destruct (Active.feed rcx _ a) as [[a1 o1] closed]. cbn in G. destruct closed; [done|].
  specialize (IH a1). destruct (replay_all cx log a1). by apply Forall_app.
Qed.
Lemma end_side_about k reason stats kind stopped side (p : P) :
  all_about k (end_side (M := M) k reason stats kind stopped side p).2.
Proof.
  unfold end_side. case_if; [constructor|]. cbv zeta. case_if; [|constructor].
  destruct (match side with Initiator => fin_initiator p | Responder => fin_responder p end) as [p1 ms].
  cbn. induction ms; by constructor.
Qed.
Lemma tick_about now stamp orientation_of emit k (st : SessionFlow.t P) :
  all_about k (tick_flow (M := M) now stamp orientation_of emit k st).2.
Proof.
  destruct st as [|a|]; cbn; [constructor| |constructor]. destruct (Parser.on_tick now (Active.parser a)) as [p ms].
  set (cx := Ctx.mk k None Initiator (orientation_of k) stamp emit).
  pose proof (messages_about cx (parser_kind (Active.parser a)) ms) as G.
  destruct (Active.check_close p); [|done]. cbn. apply Forall_app. split; [done|apply (emit_close_about cx)].
Qed.

(** *** One call, on the flow it is about and on the others *)
Variable make : K -> P.
(** What the factory may remember does not show in its parsers. *)
Variable good : F -> Prop.
Hypothesis stateless : forall k f, good f -> good (new_parser k f).1 /\ (new_parser k f).2 = make k.
Hypothesis order_flows : forall m, Permutation (order m) (map_to_list m).

Notation state := (option (SessionFlow.t P)).

(** What a call that names one flow does: its machine's step there, and
    nothing anywhere else. *)
Definition steps_at (k : K) (f : state -> state * out) (r : core * out) (x : core) : Prop :=
  (selector r.1 = selector x /\ good (factory r.1))
  /\ r.1.(flows) !! k = (f (flows x !! k)).1 /\ r.2 = (f (flows x !! k)).2
  /\ forall k', k' <> k -> r.1.(flows) !! k' = flows x !! k'.
Lemma steps_at_none k f x : good (factory x) -> f (flows x !! k) = (flows x !! k, []) -> steps_at k f (x, []) x.
Proof. intros G E. unfold steps_at. by rewrite E. Qed.

(** The call after admission. *)
Lemma on_state_at cx ports s (st : SessionFlow.t P) (x x' : core) :
  let k := Ctx.key cx in
  Stream.is_empty s = false -> flow_admit (selector x) make k ports (flows x !! k) = Some st ->
  selector x' = selector x -> good (factory x') -> flows x' !! k = Some st -> (forall k', k' <> k -> flows x' !! k' = flows x !! k') ->
  steps_at k (flow_stream (selector x) make cx ports s)
    (match flows x' !! k with
     | None | Some Closed => (x', [])
     | Some (Active_ a) =>
         let '(a, out, closed) := Active.feed cx s a in
         (set_flow k (if closed : bool then Closed else Active_ a) x', out)
     | Some (Probing probe) =>
         match selector x' with
         | Selector.Signature signature max_probe_packets =>
             let (probe, v) := Probe.step cx s signature max_probe_packets probe in
             match v with
             | VUndecided => (set_flow k (Probing probe) x', [])
             | VReject => (set_flow k Closed x', [])
             | VMatch =>
                 let (f, p) := new_parser k (factory x') in
                 let (out, r) := pin p probe cx in
                 (set_flow k (match r with Some a => Active_ a | None => Closed end) (x' <| factory := f |>), out)
             end
         | _ => (x', [])
         end
     end) x.
Proof.
  intros k N A S G0 E O. rewrite E, S. set (f := flow_stream (selector x) make cx ports s).
  assert (V : f (flows x !! k) = match st with
    | Active_ a => let '(a, o, c) := Active.feed cx s a in (Some (if c : bool then Closed else Active_ a), o)
    | Probing probe => flow_stream (selector x) make cx ports s (Some (Probing probe))
    | Closed => (Some Closed, [])
    end) by (unfold f, flow_stream; fold k; rewrite N, A; by destruct st).
  assert (Q : forall st' o f', good f' -> f (flows x !! k) = (Some st', o) -> steps_at k f (set_flow k st' (x' <| factory := f' |>), o) x).
  { intros st' o f' G1 G. unfold steps_at. rewrite G. cbn. rewrite lookup_insert_eq. split_and?; try done.
    intros k' N'. rewrite lookup_insert_ne by done. by apply O. }
  assert (Q0 : f (flows x !! k) = (Some st, []) -> steps_at k f (x', []) x).
  { intros G. unfold steps_at. rewrite G. cbn [fst snd]. by rewrite E. }
  clearbody f. destruct x' as [f' sel' fl'].
  destruct st as [probe|a|]; [|destruct (Active.feed cx s a) as [[a' o] c]; by apply (Q _ _ f')|by apply Q0].
  unfold flow_stream in V. rewrite N in V. cbn [flow_admit] in V. destruct (selector x) as [| |signature mx]; [by apply Q0..|].
  destruct (Probe.step cx s signature mx probe) as [probe' []]; [|by apply (Q _ _ f')..].
  destruct (stateless k f' G0) as [G1 G2]. fold k in V. rewrite <- G2 in V. cbn [factory]. destruct (new_parser k f') as [f'' p]. cbn [fst snd] in *.
  destruct (pin p probe' cx) as [o r]. by apply (Q _ _ f'').
Qed.
Lemma on_stream_at cx ports s (x : core) : good (factory x) ->
  steps_at (Ctx.key cx) (flow_stream (selector x) make cx ports s) (on_stream cx ports s x) x.
Proof.
  intros G0. unfold on_stream. destruct (Stream.is_empty s) eqn:N; [by apply steps_at_none; [|unfold flow_stream; rewrite N]|].
  destruct (flows x !! Ctx.key cx) as [st|] eqn:E; cbn [is_none andb negb].
  - by apply (on_state_at cx ports s st x x); rewrite ?E.
  - destruct (Selector.admits ports (selector x)) eqn:A; cbn [andb negb].
    2: { apply steps_at_none; [done|]. unfold flow_stream. rewrite N, E. cbn. by rewrite A. }
    eapply (on_state_at cx ports s _ x (admit_flow (Ctx.key cx) x)); [done|..].
    + rewrite E. cbn [flow_admit]. by rewrite A.
    + unfold admit_flow. destruct (selector x) eqn:S; try destruct (new_parser _ _); cbn; congruence.
    + unfold admit_flow. destruct (stateless (Ctx.key cx) (factory x) G0) as [G _].
      by destruct (selector x); try destruct (new_parser _ _).
    + unfold admit_flow. destruct (stateless (Ctx.key cx) (factory x) G0) as [_ G].
      destruct (selector x); try destruct (new_parser _ _); cbn in *; rewrite lookup_insert_eq; congruence.
    + intros k' N'. unfold admit_flow. destruct (selector x); try destruct (new_parser _ _); cbn; by rewrite lookup_insert_ne.
Qed.

Lemma final_stream_at k stats ports emit side chunks (x : core) : good (factory x) ->
  steps_at k (flow_final (selector x) make k stats ports emit side chunks) (final_stream k stats ports emit side chunks x) x.
Proof.
  intros G0. unfold final_stream, flow_final. destruct (StreamChunks.is_empty chunks) eqn:E.
  - apply steps_at_none; [done|]. unfold flow_stream. cbn. by rewrite E.
  - by apply (on_stream_at (Ctx.mk k (Some Tcp) side (FlowStats.orientation_for side stats) (FlowStats.last_seen stats) emit)).
Qed.
Lemma on_flow_end_at k reason stats finals ports emit (x : core) : good (factory x) ->
  steps_at k (fun st => (None, flow_end (selector x) make k reason stats finals ports emit st))
    (on_flow_end k reason stats finals ports emit x) x.
Proof.
  intros G0. unfold on_flow_end, flow_end.
  pose proof (final_stream_at k stats ports emit Initiator (Sides.initiator finals) x G0) as ([S1 G1] & F1 & O1 & N1).
  destruct (final_stream k stats ports emit Initiator (Sides.initiator finals) x) as [y o1].
  pose proof (final_stream_at k stats ports emit Responder (Sides.responder finals) y G1) as ([S2 G2] & F2 & O2 & N2).
  destruct (final_stream k stats ports emit Responder (Sides.responder finals) y) as [z o2].
  cbn [fst snd] in *. rewrite S1, F1 in F2, O2. unfold steps_at.
  destruct (flow_final (selector x) make k stats ports emit Initiator _ (flows x !! k)) as [st1 oo1]. cbn [fst snd] in *.
  destruct (flow_final (selector x) make k stats ports emit Responder _ st1) as [st2 oo2]. cbn [fst snd] in *. subst oo1 oo2.
  rewrite F2. unfold flow_close.
  assert (G : forall k', k' <> k -> delete k (flows z) !! k' = flows x !! k').
  { intros k' N. by rewrite lookup_delete_ne, N2, N1. }
  destruct st2 as [[probe|a|]|]; [| |cbn; rewrite app_nil_r, lookup_delete_eq; split_and?; (done || congruence)..].
  - cbn. rewrite app_nil_r, lookup_delete_eq; split_and?; (done || congruence).
  - destruct (end_side k reason stats _ _ Initiator _) as [p f1]. destruct (end_side k reason stats _ _ Responder p) as [p' f2].
    cbn. rewrite lookup_delete_eq. split_and?; (done || congruence).
Qed.

(** *** Ticks *)
Lemma tick_flows_at now stamp orientation_of emit k (l : list (K * SessionFlow.t P)) : forall m : gmap K (SessionFlow.t P),
  NoDup l.*1 -> (forall k st, (k, st) ∈ l -> m !! k = Some st) ->
  let r := tick_flows (M := M) now stamp orientation_of emit l m in
  r.1 !! k = (if decide (k ∈ l.*1) then (fun st => (tick_flow (M := M) now stamp orientation_of emit k st).1) <$> m !! k else m !! k)
  /\ about k r.2 = if decide (k ∈ l.*1) then
                     match m !! k with Some st => (tick_flow now stamp orientation_of emit k st).2 | None => [] end
                   else [].
Proof.
  induction l as [|[k' st] l IH]; intros m N A; cbn [fmap list_fmap fst] in *.
  { rewrite decide_False by apply not_elem_of_nil. done. }
  apply NoDup_cons in N as [N1 N2]. cbn [tick_flows].
  pose proof (tick_about now stamp orientation_of emit k' st) as T.
  destruct (tick_flow now stamp orientation_of emit k' st) as [st' o] eqn:E. cbn [snd] in T.
  specialize (IH (<[k' := st']> m) N2). destruct IH as [I1 I2].
  { intros k2 st2 I. rewrite lookup_insert_ne; [apply A; by right|]. intros <-. apply N1, list_elem_of_fmap. by exists (k', st2). }
  destruct (tick_flows now stamp orientation_of emit l (<[k' := st']> m)) as [m' o']. cbn [fst snd] in *.
  rewrite about_app, I1, I2, (about_of _ _ _ T). pose proof (A k' st (list_elem_of_here _ _)) as A1. destruct (decide (k' = k)) as [<-|D].
  - rewrite !(decide_False (P := k' ∈ l.*1)) by done. rewrite !(decide_True (P := k' ∈ k' :: l.*1)) by left.
    rewrite lookup_insert_eq, A1. cbn. by rewrite E, app_nil_r.
  - rewrite lookup_insert_ne by done. destruct (decide (k ∈ l.*1)) as [D'|D'].
    + by rewrite !(decide_True (P := k ∈ k' :: l.*1)) by by right.
    + rewrite !(decide_False (P := k ∈ k' :: l.*1)); [done|..]; by intros [?|?]%elem_of_cons.
Qed.
Lemma on_tick_at now stamp orientation_of emit k (x : core) :
  let r := on_tick order now stamp orientation_of emit x in
  (selector r.1 = selector x /\ factory r.1 = factory x)
  /\ (r.1.(flows) !! k, about k r.2) = flow_step (selector x) make k (CTick now stamp orientation_of emit) (flows x !! k).
Proof.
  pose proof (order_flows (flows x)) as O. unfold on_tick.
  pose proof (tick_flows_at now stamp orientation_of emit k (order (flows x)) (flows x)) as G. cbv zeta in G.
  destruct G as [G1 G2].
  { rewrite O. apply NoDup_fst_map_to_list. }
  { intros k' st I. rewrite O in I. by apply elem_of_map_to_list. }
  destruct (tick_flows now stamp orientation_of emit (order (flows x)) (flows x)) as [m o]. cbn [fst snd] in *.
  split; [done|]. cbn. rewrite G1, G2. case_decide as D.
  - destruct (flows x !! k) as [st|]; [|done]. cbn. by destruct (tick_flow now stamp orientation_of emit k st).
  - destruct (flows x !! k) as [st|] eqn:E; [|done]. destruct D. apply elem_of_map_to_list in E. rewrite <- O in E.
    apply list_elem_of_fmap. by exists (k, st).
Qed.

(** *** The machine speaks of its flow *)
Lemma flow_stream_about sel cx ports s (st : state) :
  Forall (fun o => output_key o = Ctx.key cx) (flow_stream sel make cx ports s st).2.
Proof.
  unfold flow_stream. case_if; [constructor|]. destruct (flow_admit sel make (Ctx.key cx) ports st) as [[probe|a|]|]; try by constructor.
  - destruct sel as [| |signature mx]; try by constructor. destruct (Probe.step cx s signature mx probe) as [probe' []]; try by constructor.
    unfold pin. pose proof (replay_about cx (Probe.replay probe' ++ lost_chunks cx probe') (Active.new (make (Ctx.key cx)))) as G.
    by destruct (replay_all _ _ _).
  - pose proof (feed_about cx s a) as G. by destruct (Active.feed cx s a) as [[a' o] c].
Qed.
Lemma flow_close_about k reason stats emit (st : state) :
  Forall (fun o => output_key o = k) (flow_close (M := M) k reason stats emit st).
Proof.
  destruct st as [[|a|]|]; try by constructor. cbn [flow_close].
  pose proof (end_side_about k reason stats (parser_kind (Active.parser a)) (Active.stopped a) Initiator (Active.parser a)) as E1.
  destruct (end_side k reason stats _ _ Initiator _) as [p f1].
  pose proof (end_side_about k reason stats (parser_kind (Active.parser a)) (Active.stopped a) Responder p) as E2.
  destruct (end_side k reason stats _ _ Responder p) as [p' f2].
  rewrite !Forall_app. split_and?; try done. case_if; by repeat constructor.
Qed.
Lemma flow_end_about sel k reason stats finals ports emit (st : state) :
  Forall (fun o => output_key o = k) (flow_end sel make k reason stats finals ports emit st).
Proof.
  unfold flow_end, flow_final. set (cx := Ctx.mk k _ Initiator _ _ _). set (cx' := Ctx.mk k _ Responder _ _ _).
  pose proof (flow_stream_about sel cx ports (Stream.SChunks (Sides.initiator finals)) st) as E1.
  destruct (flow_stream sel make cx ports _ st) as [st1 o1].
  pose proof (flow_stream_about sel cx' ports (Stream.SChunks (Sides.responder finals)) st1) as E2.
  destruct (flow_stream sel make cx' ports _ st1) as [st2 o2].
  rewrite !Forall_app. split_and?; try done. apply flow_close_about.
Qed.

(** ** The refinement, call by call *)
Lemma about_step_at k (f : state -> state * out) r x k' : steps_at k f r x ->
  Forall (fun o => output_key o = k) (f (flows x !! k)).2 ->
  (r.1.(flows) !! k', about k' r.2) = if decide (k = k') then f (flows x !! k') else (flows x !! k', []).
Proof.
  intros (_ & F1 & O1 & N1) A. rewrite <- O1 in A. rewrite (about_of _ _ _ A).
  case_decide as D; [subst k'|by rewrite N1 by done]. rewrite F1, O1. by destruct (f _).
Qed.
Lemma core_step_flow c x k : good (factory x) ->
  let r := core_step c x in
  (selector r.1 = selector x /\ good (factory r.1)) /\ (r.1.(flows) !! k, about k r.2) = flow_step (selector x) make k c (flows x !! k).
Proof.
  intros G.
  destruct c as [cx ports s|k' reason stats finals ports emit|now stamp orientation_of emit|alive]; cbv zeta; cbn [core_step].
  - pose proof (on_stream_at cx ports s x G) as S. split; [apply S|].
    cbn [flow_step]. eapply about_step_at; [done|apply flow_stream_about].
  - pose proof (on_flow_end_at k' reason stats finals ports emit x G) as S. split; [apply S|].
    rewrite (about_step_at _ _ _ _ k S); [|apply flow_end_about]. cbn [flow_step]. case_decide; by subst.
  - destruct (on_tick_at now stamp orientation_of emit k x) as [[S1 ->] E]. done.
  - split; [done|]. cbn [flow_step fst snd retain]. f_equal. cbn. rewrite map_lookup_filter.
    destruct (flows x !! k) as [st|]; cbn; [|by destruct (alive k)]. destruct (alive k); case_guard; done.
Qed.
Lemma core_run_flow cs : forall x k, good (factory x) ->
  let r := core_run cs x in
  (selector r.1 = selector x /\ good (factory r.1)) /\ (r.1.(flows) !! k, about k r.2) = flow_run (selector x) make k cs (flows x !! k).
Proof.
  induction cs as [|c cs IH]; intros x k G; cbv zeta; [done|]. cbn [core_run flow_run].
  pose proof (core_step_flow c x k G) as [[S1 G1] E1]. destruct (core_step c x) as [y o1]. cbn [fst snd] in *. rewrite <- E1.
  specialize (IH y k G1) as [[S2 G2] E2]. destruct (core_run cs y) as [z o2]. cbn [fst snd] in *.
  rewrite S1 in S2, E2. rewrite <- E2, about_app. done.
Qed.
End core.
