(* ===== verification/CoreProps.v ===== *)
(** * What a parser core promises (src/src/session/core.rs) *)

From stdpp Require Import gmap.
From S2P Require Import Prelude Time Flow ParserKind Chunks Event Parser ParserProps SessionCore CoreFacts.
Open Scope Z_scope.
Import SessionFlow SessionCore.

(** ** The language of one flow's output

    From the first word about a flow to its end, or to the parser's. *)
Section language.
Context {K M : Type}.
Notation out := (list (Output.t K M)).

Inductive Phase := Talk (stopped : Sides.t bool) | Poisoned | Over.
Definition is_initiator (s : FlowSide) : bool := match s with Initiator => true | Responder => false end.
(** [ticks]: parsers speak on ticks, in the initiator's name. *)
Definition say (ticks : bool) (o : Output.t K M) (ph : Phase) : option Phase :=
  match ph, o with
  | Talk stopped, Output.Message _ side _ _ _ _ =>
      if negb (Sides.get side stopped) || (ticks && is_initiator side) then Some ph else None
  | Talk stopped, Output.ParserSideStopped _ _ side _ _ _ =>
      if Sides.get side stopped then None else Some (Talk (Sides.set side true stopped))
  | Talk _, Output.Anomaly _ _ _ => Some Poisoned
  | Talk _, Output.ParserClosed _ _ _ _ _ _ => Some Over
  | Poisoned, Output.ParserClosed _ _ ParseError _ _ false => Some Over
  | _, _ => None
  end.
Fixpoint say_all (ticks : bool) (os : out) (ph : Phase) : option Phase :=
  match os with
  | [] => Some ph
  | o :: os => match say ticks o ph with Some ph => say_all ticks os ph | None => None end
  end.
Lemma say_all_app ticks os os' ph : say_all ticks (os ++ os') ph =
  match say_all ticks os ph with Some ph => say_all ticks os' ph | None => None end.
Proof. revert ph. induction os as [|o os IH]; intros ph; cbn; [done|]. by destruct (say ticks o ph). Qed.

Definition message_of (side : FlowSide) (o : Output.t K M) : Prop :=
  match o with Output.Message _ s _ _ _ _ => s = side | _ => False end.
Lemma messages_said ticks side stopped os : Forall (message_of side) os ->
  Sides.get side stopped = false \/ (ticks = true /\ side = Initiator) -> say_all ticks os (Talk stopped) = Some (Talk stopped).
Proof.
  intros A S. induction A as [|[] os E _ IH]; cbn in *; try done. subst.
  destruct S as [->|[-> ->]]; [by destruct ticks|]. by rewrite Bool.orb_true_r.
Qed.
Lemma close_said ticks (cx : Ctx.t K) kind close stopped :
  is_Some (say_all ticks (emit_close cx kind close) (Talk stopped)).
Proof. unfold emit_close. destruct close; repeat case_if; by eexists. Qed.
End language.

Section lawful.
Context {K P M : Type} `{EqDecision K} `{SessionParser P M}.
Notation out := (list (Output.t K M)).
Notation state := (option (SessionFlow.t P)).
Variable selector : Selector.t.
Variable make : K -> P.
Variable ticks : bool.
Hypothesis quiet : ticks = false -> forall now (p : P), (Parser.on_tick now p).2 = [].

(** The parser has stopped at least the sides that were said to be. *)
Definition heard (ph : Phase) (a : Active.t P) : Prop :=
  exists said, ph = Talk said /\ forall side, Sides.get side said = true -> Sides.get side (Active.stopped a) = true.
Definition agrees (ph : Phase) (st : state) : Prop :=
  match st with
  | None | Some (Probing _) => ph = Talk (Sides.both false)
  | Some (Active_ a) => heard ph a
  | Some Closed => True
  end.
Definition speaks (o : out) (ph : Phase) (good : Phase -> Prop) : Prop :=
  exists ph', say_all ticks o ph = Some ph' /\ good ph'.

Lemma speaks_nil ph (good : Phase -> Prop) : good ph -> speaks [] ph good.
Proof. by exists ph. Qed.
Lemma speaks_app o o' ph mid good : speaks o ph mid -> (forall ph', mid ph' -> speaks o' ph' good) -> speaks (o ++ o') ph good.
Proof. intros (ph' & E & G) C. destruct (C ph' G) as (ph2 & E2 & G2). exists ph2. by rewrite say_all_app, E. Qed.
Lemma speaks_weaken o ph (good good' : Phase -> Prop) : (forall ph', good ph' -> good' ph') -> speaks o ph good -> speaks o ph good'.
Proof. intros W (ph' & E & G). exists ph'. auto. Qed.
Lemma speaks_close (cx : Ctx.t K) kind close ph a : heard ph a -> speaks (emit_close cx kind close) ph (fun _ => True).
Proof. intros (said & -> & _). destruct (close_said ticks cx kind close said (M := M)) as [ph' E]. by exists ph'. Qed.
Lemma heard_unstopped side said (a : Active.t P) :
  (forall s, Sides.get s said = true -> Sides.get s (Active.stopped a) = true) ->
  Sides.get side (Active.stopped a) = false -> Sides.get side said = false.
Proof. intros S N. destruct (Sides.get side said) eqn:E; [|done]. apply S in E. congruence. Qed.
Lemma heard_parser ph p q s : heard ph (Active.mk p s) -> heard ph (Active.mk q s).
Proof. done. Qed.

Lemma messages_side (cx : Ctx.t K) kind (ms : list M) : Forall (message_of (Ctx.side cx)) (Active.messages cx kind ms).
Proof. unfold Active.messages. induction ms; by constructor. Qed.
Lemma feed_from_messages (cx : Ctx.t K) kind stop chunks : forall p : P,
  Forall (message_of (Ctx.side cx)) (Active.feed_from (M := M) cx kind stop chunks p).1.2.
Proof.
  induction chunks as [|c chunks IH]; intros p; cbn [Active.feed_from]; [constructor|].
  destruct (Active.feed_chunk cx c p) as [[p1 ms] gap].
  pose proof (messages_side cx kind ms) as G.
  destruct (Active.check_close p1); [done|]. specialize (IH p1).
  destruct (Active.feed_from cx kind stop chunks p1) as [[p2 o] e]. cbn in IH.
  assert (Forall (message_of (Ctx.side cx)) (Active.messages cx kind ms ++ o)) by by apply Forall_app.
  destruct gap as [[missing []]|]; done.
Qed.
Lemma feed_speaks (cx : Ctx.t K) s (a : Active.t P) ph : heard ph a ->
  let '(a', o, closed) := Active.feed cx s a in speaks o ph (fun ph' => (closed : bool) = false -> heard ph' a').
Proof.
  intros HA. unfold Active.feed. destruct (Sides.get (Ctx.side cx) (Active.stopped a)) eqn:S; [by apply speaks_nil|].
  cbv zeta. unfold Active.feed_stream.
  pose proof (feed_from_messages cx (parser_kind (Active.parser a)) (Stream.stop s) (Stream.iter s) (Active.parser a)) as G.
  destruct (Active.feed_from _ _ _ _ _) as [[p o] e]. cbn in G. destruct a as [p0 st]. cbn [Active.parser Active.stopped] in *.
  assert (T : speaks o ph (fun ph' => heard ph' (Active.mk p st))).
  { destruct HA as (said & -> & A). exists (Talk said). split; [|by exists said].
    apply (messages_said _ (Ctx.side cx)); [done|]. left. by eapply heard_unstopped. }
  destruct e as [[close|reason detail]|]; cbn -[emit_close Sides.set].
  - eapply speaks_app; [done|]. intros ph' A'. eapply speaks_weaken; [|eapply speaks_close; apply A']. done.
  - set (st' := Sides.set (Ctx.side cx) true st). set (sa := if Emit.parser_events (Ctx.emit cx) then _ else _).
    assert (T' : speaks (o ++ sa) ph (fun ph' => heard ph' (Active.mk p st'))).
    { eapply speaks_app; [done|]. intros ph' (said & -> & A). subst sa. case_if.
      - pose proof (heard_unstopped (Ctx.side cx) said (Active.mk p st) A S) as N. exists (Talk (Sides.set (Ctx.side cx) true said)).
        cbn. rewrite N. split; [done|]. eexists; split; [done|]. intros side. subst st'. specialize (A side). cbn in A |- *.
        destruct (Ctx.side cx), side, said, st; cbn in *; auto.
      - apply speaks_nil. exists said. split; [done|]. intros side B. apply A in B. subst st'. cbn in *.
        destruct (Ctx.side cx), side, st; cbn in *; auto. }
    destruct (Sides.initiator st' && Sides.responder st').
    + eapply speaks_app; [done|]. intros ph' A'. eapply speaks_weaken; [|eapply (speaks_close cx _ (Close.BothSides reason)); apply A']. done.
    + eapply speaks_weaken; [|done]. done.
  - eapply speaks_weaken; [|done]. done.
Qed.
Lemma replay_speaks (cx : Ctx.t K) log : forall (a : Active.t P) ph, heard ph a ->
  let (o, r) := replay_all cx log a in speaks o ph (fun ph' => agrees ph' (Some match r with Some a => Active_ a | None => Closed end)).
Proof.
  induction log as [|[[[side o] ts] chunks] log IH]; intros a ph HA; cbn [replay_all]; [by apply speaks_nil|].
  set (rcx := Ctx.mk _ _ _ _ _ _). pose proof (feed_speaks rcx (Stream.SChunks chunks) a ph HA) as G.
  destruct (Active.feed rcx _ a) as [[a1 o1] closed]. destruct closed; [by eapply speaks_weaken|].
  specialize (IH a1). destruct (replay_all cx log a1) as [o2 r].
  eapply speaks_app; [done|]. intros ph' A'. cbn in A'. by apply IH, A'.
Qed.
Lemma heard_new (p : P) : heard (Talk (Sides.both false)) (Active.new p).
Proof. by exists (Sides.both false). Qed.
Lemma flow_stream_speaks (cx : Ctx.t K) ports s (st : state) ph : agrees ph st ->
  let (st', o) := flow_stream selector make cx ports s st in speaks o ph (fun ph' => agrees ph' st').
Proof.
  intros A. unfold flow_stream. destruct (Stream.is_empty s); [by apply speaks_nil|].
  assert (A' : agrees ph (flow_admit selector make (Ctx.key cx) ports st)).
  { destruct st as [st|]; [done|]. cbn in A |- *. subst ph. destruct (Selector.admits ports selector); [|done].
    destruct selector; try done; apply heard_new. }
  destruct (flow_admit selector make (Ctx.key cx) ports st) as [[probe|a|]|]; [..|by apply speaks_nil].
  - destruct selector as [| |signature mx]; [by apply speaks_nil..|].
    cbn in A'. subst ph. destruct (Probe.step cx s signature mx probe) as [probe' []]; [|by apply speaks_nil..].
    unfold pin. pose proof (replay_speaks cx (Probe.replay probe' ++ lost_chunks cx probe') _ _ (heard_new (make (Ctx.key cx)))) as G.
    by destruct (replay_all _ _ _).
  - pose proof (feed_speaks cx s a ph A') as G. destruct (Active.feed cx s a) as [[a' o] c].
    eapply speaks_weaken; [|done]. intros ph' G'. destruct c; [done|by apply G'].
  - by apply speaks_nil.
Qed.
Lemma tick_flow_speaks now stamp orientation_of emit (k : K) (st : SessionFlow.t P) ph : agrees ph (Some st) ->
  let (st', o) := tick_flow now stamp orientation_of emit k st in speaks o ph (fun ph' => agrees ph' (Some st')).
Proof.
  intros A. destruct st as [probe|a|]; [by apply speaks_nil| |by apply speaks_nil]. cbn [tick_flow]. pose proof (quiet) as Q.
  destruct (Parser.on_tick now (Active.parser a)) as [p ms] eqn:E. set (cx := Ctx.mk k None Initiator _ _ _).
  pose proof (messages_side cx (parser_kind (Active.parser a)) ms : Forall (message_of Initiator) _) as G.
  assert (T : speaks (Active.messages cx (parser_kind (Active.parser a)) ms) ph (fun ph' => heard ph' (Active.mk p (Active.stopped a)))).
  { destruct A as (said & -> & A). exists (Talk said). split; [|by exists said]. destruct ticks.
    - apply (messages_said _ Initiator); auto.
    - specialize (Q eq_refl now (Active.parser a)). rewrite E in Q. cbn in Q. by subst ms. }
  destruct (Active.check_close p); [|done].
  eapply speaks_app; [done|]. intros ph' A'. eapply speaks_weaken; [|eapply speaks_close; apply A']. done.
Qed.
Lemma end_side_messages (k : K) reason stats kind stopped side (p : P) :
  Forall (message_of side) (end_side (M := M) k reason stats kind stopped side p).2
  /\ (Sides.get side stopped = true -> (end_side (M := M) k reason stats kind stopped side p).2 = []).
Proof.
  unfold end_side. destruct (Sides.get side stopped); [done|]. split; [|done]. cbv zeta. case_if; [|constructor].
  destruct (match side with Initiator => fin_initiator p | Responder => fin_responder p end) as [p1 ms].
  cbn. induction ms; by constructor.
Qed.
Lemma end_side_speaks (k : K) reason stats kind a side (p : P) ph : heard ph a ->
  speaks (end_side (M := M) k reason stats kind (Active.stopped a) side p).2 ph (fun ph' => heard ph' a).
Proof.
  intros (said & -> & A). destruct (end_side_messages k reason stats kind (Active.stopped a) side p) as [G1 G2].
  exists (Talk said). split; [|by exists said]. destruct (Sides.get side (Active.stopped a)) eqn:S; [by rewrite G2|].
  apply (messages_said _ side); [done|]. left. by eapply heard_unstopped.
Qed.
Lemma flow_close_speaks k reason stats emit (st : state) ph : agrees ph st ->
  speaks (flow_close (M := M) k reason stats emit st) ph (fun _ => True).
Proof.
  intros A. destruct st as [[|a|]|]; [by apply speaks_nil| |by apply speaks_nil..]. cbn [flow_close].
  pose proof (end_side_speaks k reason stats (parser_kind (Active.parser a)) a Initiator (Active.parser a) ph A) as E1.
  destruct (end_side k reason stats _ _ Initiator _) as [p f1].
  pose proof (end_side_speaks k reason stats (parser_kind (Active.parser a)) a Responder p) as E2.
  destruct (end_side k reason stats _ _ Responder p) as [p' f2].
  eapply speaks_app; [done|]. intros ph1 H1. eapply speaks_app; [by apply E2|]. intros ph2 (said & -> & _). case_if; [|by apply speaks_nil]. by exists Over.
Qed.
Lemma flow_end_speaks k reason stats finals ports emit (st : state) ph : agrees ph st ->
  speaks (flow_end selector make k reason stats finals ports emit st) ph (fun _ => True).
Proof.
  intros A. unfold flow_end, flow_final. set (cx := Ctx.mk k _ Initiator _ _ _). set (cx' := Ctx.mk k _ Responder _ _ _).
  pose proof (flow_stream_speaks cx ports (Stream.SChunks (Sides.initiator finals)) st ph A) as E1.
  destruct (flow_stream selector make cx ports _ st) as [st1 o1].
  pose proof (flow_stream_speaks cx' ports (Stream.SChunks (Sides.responder finals)) st1) as E2.
  destruct (flow_stream selector make cx' ports _ st1) as [st2 o2].
  eapply speaks_app; [done|]. intros ph1 A1. eapply speaks_app; [by apply E2|]. intros ph2 A2.
  by apply flow_close_speaks.
Qed.

(** A call that ends the flow, or drops it. *)
Definition ends (k : K) (c : Call K) : bool :=
  match c with
  | CFlowEnd k' _ _ _ _ _ => bool_decide (k' = k)
  | CRetain alive => negb (alive k)
  | _ => false
  end.
Lemma flow_step_speaks k c (st : state) ph : agrees ph st -> ends k c = false ->
  let (st', o) := flow_step selector make k c st in speaks o ph (fun ph' => agrees ph' st').
Proof.
  intros A E. destruct c as [cx ports s|k' reason stats finals ports emit|now stamp orientation_of emit|alive]; cbn [flow_step ends] in *.
  - case_decide; [by apply flow_stream_speaks|by apply speaks_nil].
  - apply bool_decide_eq_false in E. rewrite decide_False by done. by apply speaks_nil.
  - destruct st as [st|]; [|by apply speaks_nil]. pose proof (tick_flow_speaks now stamp orientation_of emit k st ph A) as G.
    by destruct (tick_flow now stamp orientation_of emit k st).
  - destruct (alive k); [by apply speaks_nil|done].
Qed.
Lemma flow_run_speaks k cs : forall (st : state) ph, agrees ph st -> Forall (fun c => ends k c = false) cs ->
  let (st', o) := flow_run selector make k cs st in speaks o ph (fun ph' => agrees ph' st').
Proof.
  induction cs as [|c cs IH]; intros st ph A N; cbn [flow_run]; [by apply speaks_nil|]. inversion N as [|? ? N1 N2]; subst.
  pose proof (flow_step_speaks k c st ph A N1) as G. destruct (flow_step selector make k c st) as [st1 o1].
  specialize (IH st1). cbn [fst snd] in *. destruct (flow_run selector make k cs st1) as [st2 o2].
  eapply speaks_app; [done|]. intros ph' A'. by apply IH.
Qed.
End lawful.

(** ** The core *)
Section core.
Context {K F P M : Type} `{Countable K} `{SessionParser P M} `{!SessionParserFactory K F P}.
Variable order : gmap K (SessionFlow.t P) -> list (K * SessionFlow.t P).
Hypothesis order_flows : forall m, Permutation (order m) (map_to_list m).
Variable make : K -> P.
Variable good : F -> Prop.
Hypothesis stateless : forall k f, good f -> good (new_parser k f).1 /\ (new_parser k f).2 = make k.
Notation core := (SessionCore.t K F P).

(** Calls that name no flow concern them all. *)
Definition concerns (k : K) (c : Call K) : bool :=
  match c with
  | CStream cx _ _ => bool_decide (Ctx.key cx = k)
  | CFlowEnd k' _ _ _ _ _ => bool_decide (k' = k)
  | CTick _ _ _ _ | CRetain _ => true
  end.
Lemma flow_run_concerns sel k cs : forall st,
  flow_run sel make k cs st = flow_run sel make k (List.filter (concerns k) cs) st.
Proof.
  assert (N : forall c st, concerns k c = false -> flow_step sel make k c st = (st, [])).
  { intros [] st E; cbn in *; try done; apply bool_decide_eq_false in E; by rewrite decide_False. }
  induction cs as [|c cs IH]; intros st; [done|]. cbn [flow_run List.filter]. destruct (concerns k c) eqn:E.
  - cbn [flow_run]. destruct (flow_step sel make k c st) as [st1 o1]. by rewrite IH.
  - rewrite N by done. rewrite IH. by destruct (flow_run sel make k _ st).
Qed.

(** C9: a core is a family of independent flow machines, for a factory
    that gives each flow a parser fixed by the flow's key, like the template
    that a driver clones (a factory whose parsers depend on what else it
    made, through state it shares among the flows, is not covered).  Whatever
    calls are interleaved on it (streams, flow ends, ticks, drops) and in
    whatever order a tick walks the flows, what the core keeps for a flow and
    what it tells its output about that flow, in order, are what the machine
    of that flow does on the calls that concern it: the calls about other
    flows leave no trace. *)
Theorem core_flows_independent (x : core) (cs : list (Call K)) (k : K) :
  good (factory x) ->
  let r := core_run order cs x in
  (flows r.1 !! k, about k r.2) =
    flow_run (selector x) make k (List.filter (concerns k) cs) (flows x !! k).
Proof.
  intros G. rewrite <- flow_run_concerns.
  by destruct (core_run_flow order make good stateless order_flows cs x k G) as [_ <-].
Qed.

(** C10: what a core says of a flow from its first word to the
    flow's end is a word of a small language (for a factory that gives each
    flow a parser fixed by the flow's key).  Messages come from sides that
    were not stopped, a side is stopped at most once, nothing follows the
    close of the parser, a parse error is followed by its close or by
    nothing, and the flow's end adds one close at most, the last word.  If
    parsers speak on ticks, they do so in the initiator's name, whose side
    may be stopped. *)
Theorem core_flow_lawful (ticks : bool) (x : core) (cs : list (Call K)) (k : K)
    reason stats finals ports emit :
  good (factory x) -> flows x !! k = None ->
  (ticks = false -> forall now (p : P), (Parser.on_tick now p).2 = []) ->
  Forall (fun c => ends k c = false) cs ->
  let r := core_run order (cs ++ [CFlowEnd k reason stats finals ports emit]) x in
  flows r.1 !! k = None /\ is_Some (say_all ticks (about k r.2) (Talk (Sides.both false))).
Proof.
  intros G N Q E. set (c := CFlowEnd k reason stats finals ports emit).
  destruct (core_run_flow order make good stateless order_flows (cs ++ [c]) x k G) as [_ R].
  assert (A : forall st, flow_run (selector x) make k (cs ++ [c]) st =
    (None, (flow_run (selector x) make k cs st).2 ++
           flow_end (selector x) make k reason stats finals ports emit (flow_run (selector x) make k cs st).1)).
  { clear. induction cs as [|c' cs IH]; intros st; cbn [app flow_run flow_step c].
    - rewrite decide_True by done. by rewrite app_nil_r.
    - destruct (flow_step (selector x) make k c' st) as [st1 o1]. rewrite IH.
      destruct (flow_run (selector x) make k cs st1). cbn. by rewrite app_assoc. }
  rewrite A, N in R. cbv zeta. injection R as R1 R2. split; [done|]. rewrite R2.
  pose proof (flow_run_speaks (selector x) make ticks Q k cs None (Talk (Sides.both false)) eq_refl E) as S.
  destruct (flow_run (selector x) make k cs None) as [st o]. cbn [fst snd].
  destruct (speaks_app ticks o (flow_end (selector x) make k reason stats finals ports emit st) _ _ (fun _ => True) S) as (ph & W & _).
  - intros ph A'. by apply flow_end_speaks.
  - by exists ph.
Qed.
End core.

(** Two flows of length-prefixed records, on a core that takes those that
    begin with a one. *)
Section demo.
Notation parser := (AccumulatingSessionParser.t (list Z)).
Notation demo_core := (SessionCore.t Z (TemplateFactory.t parser) parser).
Definition demo_parser : parser := AccumulatingSessionParser.new ParserKind.Unspecified one_line.
Definition demo_signature : SignatureFn := fun b =>
  match b with [] => NeedMoreData | n :: _ => if n =? 1 then Match else NoMatch end.
Definition demo_emit : Emit.t := Emit.mk true true true true.
Definition demo_ctx (k : Z) (side : FlowSide) : Ctx.t Z := Ctx.mk k (Some Tcp) side Forward (Timestamp.mk 1 0) demo_emit.
Definition demo_new (sel : Selector.t) : demo_core := SessionCore.new (TemplateFactory.mk demo_parser) sel.
Definition demo_calls : list (Call Z) :=
  [CStream (demo_ctx 1 Initiator) None (Stream.SBytes [1]); CStream (demo_ctx 2 Initiator) None (Stream.SBytes [3; 1]);
   CStream (demo_ctx 1 Responder) None (Stream.SBytes [2; 7]); CStream (demo_ctx 1 Initiator) None (Stream.SBytes [5]);
   CStream (demo_ctx 1 Responder) None (Stream.SBytes [7])].
Definition demo_good (f : TemplateFactory.t parser) : Prop := f = TemplateFactory.mk demo_parser.
Lemma demo_stateless (k : Z) f : demo_good f ->
  demo_good (new_parser k f).1 /\ (new_parser (K := Z) k f).2 = demo_parser.
Proof. by intros ->. Qed.
Lemma core_flows_independent_witness :
  about 1 (core_run map_to_list demo_calls (demo_new (Selector.Signature demo_signature 4))).2
  = [Output.Message 1 Initiator Forward [5] (Timestamp.mk 1 0) ParserKind.Unspecified;
     Output.Message 1 Responder Forward [7; 7] (Timestamp.mk 1 0) ParserKind.Unspecified].
Proof.
  pose proof (core_flows_independent (P := parser) (M := list Z) map_to_list (fun _ => Permutation_refl _) (fun _ => demo_parser)
    demo_good demo_stateless (demo_new (Selector.Signature demo_signature 4)) demo_calls 1 eq_refl) as E.
  apply (f_equal snd) in E. cbn [snd] in E. rewrite E. by vm_compute.
Defined.
Lemma core_flow_lawful_witness :
  is_Some (say_all false (about 1 (core_run map_to_list
    (demo_calls ++ [CFlowEnd 1 Fin FlowStats.default (Sides.both StreamChunks.new) None demo_emit]) (demo_new Selector.All)).2)
    (Talk (Sides.both false))).
Proof.
  apply (core_flow_lawful (P := parser) (M := list Z) map_to_list (fun _ => Permutation_refl _) (fun _ => demo_parser)
    demo_good demo_stateless false (demo_new Selector.All) demo_calls 1).
  - done.
  - done.
  - done.
  - by repeat constructor.
Defined.
End demo.

(** * Probing behind a signature (src/src/session/core.rs)

    A core with a signature holds back what it sees of a flow until the
    signature decides.  Here: what it holds back, and that a flow that
    matches is parsed as if it had never been held. *)

Import SessionFlow SessionCore.

(** ** The log *)
Section log.
Context {K : Type}.
Notation item := (Ctx.t K * Stream.t)%type.
Variable signature : SignatureFn.
Variable mx : Z.

Definition total (l : list item) : Z := foldr (fun i n => Stream.len i.2 + n) 0 l.
(** What is lost with a stream that is not kept. *)
Definition size (i : item) : Z := Stream.len i.2 + Probe.gap_sum (Stream.iter i.2).
Definition entry (i : item) : FlowSide * Orientation * Timestamp.t * StreamChunks.t :=
  (Ctx.side i.1, Ctx.orientation i.1, Ctx.ts i.1, Stream.to_chunks i.2).
Definition on_side (side : FlowSide) (l : list item) : list item :=
  List.filter (fun i => bool_decide (Ctx.side i.1 = side)) l.
Definition log_side (side : FlowSide) (l : list (FlowSide * Orientation * Timestamp.t * StreamChunks.t)) :=
  List.filter (fun e => bool_decide (e.1.1.1 = side)) l.

(** The probe after some streams, whatever the verdicts. *)
Definition seen (l : list item) (p : Probe.t) : Probe.t :=
  foldl (fun p i => (Probe.step i.1 i.2 signature mx p).1) p l.
(** The first verdict, if there is one; empty streams are not probed. *)
Fixpoint probe_run (l : list item) (p : Probe.t) : Verdict :=
  match l with
  | [] => VUndecided
  | (cx, s) :: l =>
      if Stream.is_empty s then probe_run l p
      else match Probe.step cx s signature mx p with
           | (p, VUndecided) => probe_run l p
           | (_, v) => v
           end
  end.

Lemma len_nonneg s : 0 <= Stream.len s.
Proof. destruct s; cbn; [unfold StreamChunks.len|]; apply zlen_nonneg. Qed.
Lemma total_len_cons i l : total (i :: l) = Stream.len i.2 + total l.
Proof. done. Qed.
Lemma total_nonneg l : 0 <= total l.
Proof. induction l as [|i l IH]; [done|]. rewrite total_len_cons. pose proof (len_nonneg i.2). lia. Qed.
Lemma total_len_app l l' : total (l ++ l') = total l + total l'.
Proof. induction l as [|i l IH]; [done|]. cbn [app]. rewrite !total_len_cons, IH. lia. Qed.
Lemma on_side_app side l l' : on_side side (l ++ l') = on_side side l ++ on_side side l'.
Proof. apply List.filter_app. Qed.
Lemma sides_get_set {A} side side' (a : A) x :
  Sides.get side (Sides.set side' a x) = if bool_decide (side = side') then a else Sides.get side x.
Proof. by destruct side, side', x. Qed.

(** [keep] is all that [step] does to the log. *)
Lemma step_log (i : item) p :
  let p' := (Probe.step i.1 i.2 signature mx p).1 in
  let q := Probe.keep i.1 i.2 p in
  Probe.replay p' = Probe.replay q /\ Probe.replay_bytes p' = Probe.replay_bytes q
  /\ Probe.kept p' = Probe.kept q /\ Probe.lost p' = Probe.lost q.
Proof.
  unfold Probe.step, Probe.see. destruct (Sides.get _ (Probe.sealed p)); [|destruct (Probe.extend_prefix _ _)];
    unfold Probe.keep; cbn; by case_if.
Qed.

(** *** What is kept *)
Definition lost_size (l : list item) : Z := foldr (fun i n => size i + n) 0 l.
Lemma lost_size_snoc l i : lost_size (l ++ [i]) = lost_size l + size i.
Proof. unfold lost_size. induction l as [|j l IH]; cbn -[size]; [lia|]. rewrite IH. lia. Qed.
Definition full (side : FlowSide) (p : Probe.t) : Prop :=
  Sides.get side (Probe.lost p) <> 0 \/ PROBE_REPLAY_BYTE_CAP < Probe.replay_bytes p.
(** One side's log: a front part of what came, and the size of the rest. *)
Definition front (l : list item) (side : FlowSide) (p : Probe.t) : Prop :=
  exists pre post,
    on_side side l = pre ++ post /\ log_side side (Probe.replay p) = entry <$> pre
    /\ Sides.get side (Probe.lost p) = lost_size post
    /\ (Sides.get side (Probe.kept p) = bool_decide (pre <> []))
    /\ (post <> [] -> pre <> [] /\ full side p).
Definition faithful (l : list item) (p : Probe.t) : Prop :=
  (forall side, front l side p)
  /\ sublist (Probe.replay p) (entry <$> l)
  /\ Probe.replay_bytes p <= total l
  /\ (forall side, Sides.get side (Probe.lost p) <> 0 -> PROBE_REPLAY_BYTE_CAP < total l).

(** Gaps are unsigned. *)
Definition unsigned (i : item) : Prop :=
  Forall (fun c => match c with Gap n => 0 <= n | Data _ => True end) (Stream.iter i.2).
Lemma size_len i : unsigned i -> Stream.len i.2 <= size i.
Proof.
  unfold unsigned, size, Probe.gap_sum. generalize (Stream.iter i.2). intros cs A.
  enough (0 <= foldr (fun c n => match c with Gap m => m + n | Data _ => n end) 0 cs) by lia.
  induction A as [|[|m] cs ? _ IH]; cbn; lia.
Qed.
Lemma lost_size_nonneg l : Forall unsigned l -> 0 <= lost_size l.
Proof.
  induction 1 as [|i l U _ IH]; [done|]. apply size_len in U. pose proof (len_nonneg i.2).
  change (lost_size (i :: l)) with (size i + lost_size l). lia.
Qed.
Lemma on_side_unsigned side l : Forall unsigned l -> Forall unsigned (on_side side l).
Proof. unfold on_side. induction 1; cbn; [constructor|]. case_bool_decide; by try constructor. Qed.

Lemma kept_front l (i : item) p side' :
  let p' := p <| Probe.kept ::= Sides.set (Ctx.side i.1) true |>
              <| Probe.replay_bytes ::= fun n => n + Stream.len i.2 |> <| Probe.replay ::= fun r => r ++ [entry i] |> in
  (Ctx.side i.1 = side' -> on_side side' l = [] \/ ~ full side' p) -> front l side' p -> front (l ++ [i]) side' p'.
Proof.
  intros p' N (pre & post & E1 & E2 & E3 & E4 & E5). unfold front, full, log_side in *. rewrite on_side_app.
  subst p'. cbn -[total size]. rewrite List.filter_app, sides_get_set. cbn. destruct (decide (Ctx.side i.1 = side')) as [D|D].
  - assert (post = []) as ->.
    { destruct post as [|x post]; [done|]. destruct (N D) as [N'|N'].
      - rewrite E1 in N'. by destruct pre.
      - by destruct (E5 ltac:(done)). }
    exists (pre ++ [i]), []. rewrite !bool_decide_true, E1, E2, fmap_app by done. rewrite !app_nil_r. split_and!; try done.
    by destruct pre.
  - exists pre, post. rewrite !bool_decide_false, !app_nil_r by congruence. split_and!; try done.
    intros P. destruct (E5 P) as [P1 P2]. split; [done|]. pose proof (len_nonneg i.2).
    destruct P2 as [?|?]; [by left|right; lia].
Qed.
Lemma lost_front l (i : item) p side' :
  let side := Ctx.side i.1 in
  let p' := p <| Probe.lost ::= fun x => Sides.set side (Sides.get side x + size i) x |> in
  Forall unsigned (l ++ [i]) ->
  (Ctx.side i.1 = side' -> Sides.get side' (Probe.kept p) = true
    /\ (full side' p \/ PROBE_REPLAY_BYTE_CAP < Probe.replay_bytes p + Stream.len i.2)) ->
  front l side' p -> front (l ++ [i]) side' p'.
Proof.
  intros side p' U N (pre & post & E1 & E2 & E3 & E4 & E5). unfold front, full, log_side in *. rewrite on_side_app.
  subst p' side. cbn -[total size]. rewrite !sides_get_set. apply Forall_app in U as [U1 U2].
  pose proof (on_side_unsigned side' l U1) as U3. rewrite E1 in U3. apply Forall_app in U3 as [_ U3]. apply lost_size_nonneg in U3.
  inversion U2 as [|? ? U4 _]; subst. apply size_len in U4. pose proof (len_nonneg i.2) as L0.
  destruct (decide (Ctx.side i.1 = side')) as [D|D].
  - destruct (N D) as [N1 N2]. rewrite N1 in E4. symmetry in E4. apply bool_decide_eq_true in E4.
    exists pre, (post ++ [i]). rewrite D, !bool_decide_true, E1, <- app_assoc, lost_size_snoc by done. split_and!; try done.
    + by rewrite E3.
    + intros _. split; [done|]. rewrite E3. destruct N2 as [[?|?]|?]; [left; lia|by right|].
      destruct (decide (PROBE_REPLAY_BYTE_CAP < Probe.replay_bytes p)); [by right|left; lia].
  - exists pre, post. rewrite !bool_decide_false, !app_nil_r by congruence. by split_and!.
Qed.
Lemma keep_faithful l (i : item) p : Forall unsigned (l ++ [i]) -> faithful l p -> faithful (l ++ [i]) (Probe.keep i.1 i.2 p).
Proof.
  intros U (Fr & Su & To & Lo). unfold Probe.keep. set (side := Ctx.side i.1).
  pose proof (Fr side) as (pre & post & E1 & E2 & E3 & E4 & E5). pose proof (len_nonneg i.2) as L0.
  destruct (negb _ || _) eqn:C.
  - split_and!.
    + intros side'. apply (kept_front l i p side'); [|apply Fr]. intros <-. fold side.
      apply orb_true_iff in C as [C|C].
      * left. apply negb_true_iff in C. rewrite E4 in C. apply bool_decide_eq_false, dec_stable in C. subst pre.
        destruct post; [done|]. by destruct (E5 ltac:(done)).
      * right. intros [?|?]; zb; lia.
    + cbn. rewrite fmap_app. by apply sublist_app.
    + cbn. rewrite total_len_app, total_len_cons. unfold total at 2. cbn. lia.
    + intros side' L. rewrite total_len_app, total_len_cons. unfold total at 2. cbn. specialize (Lo side' L). lia.
  - apply orb_false_iff in C as [C1 C2]. apply negb_false_iff in C1.
    split_and!.
    + intros side'. apply (lost_front l i p side'); [done| |apply Fr]. intros <-. fold side. split; [done|].
      unfold full. apply andb_false_iff in C2 as [C2|C2]; zb; [by left; left|by right].
    + cbn. rewrite fmap_app. etrans; [exact Su|]. by apply sublist_inserts_r.
    + cbn. rewrite total_len_app, total_len_cons. unfold total at 2. cbn. lia.
    + intros side' L. cbn in L. rewrite sides_get_set in L. rewrite total_len_app, total_len_cons. unfold total at 2. cbn.
      case_bool_decide; [subst side'; fold side in C2|specialize (Lo side' L); lia].
      apply andb_false_iff in C2 as [C2|C2]; zb; [specialize (Lo side C2)|]; lia.
Qed.
Lemma faithful_same l p p' :
  Probe.replay p' = Probe.replay p -> Probe.replay_bytes p' = Probe.replay_bytes p -> Probe.kept p' = Probe.kept p ->
  Probe.lost p' = Probe.lost p -> faithful l p -> faithful l p'.
Proof. unfold faithful, front, full. intros -> -> -> ->. done. Qed.
Lemma seen_faithful l : forall l0 p, Forall unsigned (l0 ++ l) -> faithful l0 p -> faithful (l0 ++ l) (seen l p).
Proof.
  induction l as [|i l IH]; intros l0 p U Fa; [by rewrite app_nil_r|]. cbn [seen foldl].
  change (i :: l) with ([i] ++ l) in U |- *. rewrite app_assoc in U |- *. apply IH; [done|].
  destruct (step_log i p) as (E1 & E2 & E3 & E4). eapply faithful_same; [done..|]. apply keep_faithful; [|done].
  by apply Forall_app in U as [U _].
Qed.
(** The bytes the log holds. *)
Definition held (log : list (FlowSide * Orientation * Timestamp.t * StreamChunks.t)) : Z :=
  foldr (fun e n => StreamChunks.len e.2 + n) 0 log.
Lemma held_snoc log i : held (log ++ [entry i]) = held log + Stream.len i.2.
Proof.
  unfold held. induction log as [|e log IH]; cbn [app foldr]; [|rewrite IH; lia].
  destruct i as [cx [s|b]]; cbn; [lia|]. unfold StreamChunks.len, StreamChunks.push_data. cbn. lia.
Qed.
Lemma seen_snoc l i : seen (l ++ [i]) Probe.default = (Probe.step i.1 i.2 signature mx (seen l Probe.default)).1.
Proof. unfold seen. by rewrite foldl_app. Qed.
Lemma seen_held l : Probe.replay_bytes (seen l Probe.default) = held (Probe.replay (seen l Probe.default)).
Proof.
  induction l as [|i l IH] using rev_ind; [done|]. rewrite seen_snoc.
  destruct (step_log i (seen l Probe.default)) as (E1 & E2 & _ & _). rewrite E1, E2. unfold Probe.keep.
  case_if; [|done]. cbn. fold (entry i). by rewrite held_snoc, IH.
Qed.
Lemma default_faithful : faithful [] Probe.default.
Proof. split_and!; [intros side; exists [], []; by destruct side|done|done|intros side L; by destruct side]. Qed.
End log.

(** When a stream is kept: if it is the first of its side, or if all the
    side's earlier ones are in the log and it fits. *)
Section cut.
Context {K : Type}.
Notation item := (Ctx.t K * Stream.t)%type.
Variable signature : SignatureFn.
Variable mx : Z.
Definition fits (a : list item) (i : item) (log : list (FlowSide * Orientation * Timestamp.t * StreamChunks.t)) : Prop :=
  let side := Ctx.side i.1 in
  on_side side a = []
  \/ log_side side log = entry <$> on_side side a /\ held log + Stream.len i.2 <= PROBE_REPLAY_BYTE_CAP.
Lemma cut_at_cap (a : list item) i : Forall unsigned a ->
  let log := Probe.replay (seen signature mx a Probe.default) in
  let log' := Probe.replay (seen signature mx (a ++ [i]) Probe.default) in
  (fits a i log -> log' = log ++ [entry i]) /\ (~ fits a i log -> log' = log).
Proof.
  intros U log log'. subst log'. rewrite seen_snoc.
  destruct (step_log signature mx i (seen signature mx a Probe.default)) as (-> & _).
  destruct (seen_faithful signature mx a [] Probe.default U default_faithful) as (Fr & _).
  cbn [app] in Fr. destruct (Fr (Ctx.side i.1)) as (pre & post & E1 & E2 & E3 & E4 & E5).
  assert (C : fits a i log <-> negb (Sides.get (Ctx.side i.1) (Probe.kept (seen signature mx a Probe.default)))
     || (Sides.get (Ctx.side i.1) (Probe.lost (seen signature mx a Probe.default)) =? 0)
        && (Probe.replay_bytes (seen signature mx a Probe.default) + Stream.len i.2 <=? PROBE_REPLAY_BYTE_CAP) = true).
  { unfold fits. subst log. rewrite <- seen_held, E1, E2, E3, E4, orb_true_iff, negb_true_iff, bool_decide_eq_false, andb_true_iff.
    pose proof (len_nonneg i.2) as L0. split; (intros [A|[A B]]; [left|right]).
    - apply app_eq_nil in A as [-> _]. by intros [].
    - apply (f_equal length) in A. rewrite !length_fmap, length_app in A. destruct post; [|cbn in A; lia].
      split; [done|]. by apply Z.leb_le.
    - apply dec_stable in A as ->. destruct post; [done|]. by destruct (E5 ltac:(done)).
    - apply Z.eqb_eq in A. apply Z.leb_le in B. destruct post as [|j post]; [by rewrite app_nil_r|].
      exfalso. destruct (E5 ltac:(done)) as [_ [F|F]]; [|lia]. by rewrite E3 in F. }
  unfold Probe.keep. case_match eqn:D; split; intros N; try done; [destruct N; by apply C|].
  apply C in N. congruence.
Qed.
End cut.

(** ** Replay *)
Section replay.
Context {K P M : Type} `{EqDecision K} `{SessionParser P M}.
Notation item := (Ctx.t K * Stream.t)%type.
Notation out := (list (Output.t K M)).
Notation state := (option (SessionFlow.t P)).
Variable make : K -> P.

Lemma iter_bytes b : b <> [] -> StreamChunks.iter (StreamChunks.push_data b StreamChunks.new) = [Data b].
Proof.
  intros N. assert (0 < zlen b) by (destruct b; [done|]; rewrite zlen_cons; pose proof (zlen_nonneg b); lia).
  change (StreamChunks.iter _) with (StreamChunks.collect 2 (StreamChunks.mk b [] None) {| StreamChunks.pos := 0; StreamChunks.gap_idx := 0 |}).
  cbn [StreamChunks.collect]. unfold StreamChunks.next. cbn -[zslice lookup].
  change ([] !! Z.to_nat 0) with (@None GapMark.t). cbn -[zslice]. rewrite (proj2 (Z.leb_gt (zlen b) 0)) by lia.
  cbn -[zslice lookup]. change ([] !! Z.to_nat 0) with (@None GapMark.t). cbn -[zslice]. rewrite (proj2 (Z.leb_le (zlen b) (zlen b))) by lia.
  f_equal. f_equal. unfold zslice. rewrite zdrop_0, Z.sub_0_r by lia. apply ztake_ge. lia.
Qed.
Lemma iter_to_chunks s : Stream.is_empty s = false -> StreamChunks.iter (Stream.to_chunks s) = Stream.iter s.
Proof. destruct s as [c|[|x b]]; [done..|]. intros _. by apply iter_bytes. Qed.
Lemma stop_to_chunks s : StreamChunks.stop (Stream.to_chunks s) = Stream.stop s.
Proof. by destruct s. Qed.

(** What feeding reads of its context. *)
Definition alike (cx cx' : Ctx.t K) : Prop :=
  Ctx.key cx = Ctx.key cx' /\ Ctx.side cx = Ctx.side cx' /\ Ctx.orientation cx = Ctx.orientation cx'
  /\ Ctx.ts cx = Ctx.ts cx' /\ Ctx.emit cx = Ctx.emit cx'.
Lemma feed_from_alike cx cx' kind stop chunks : alike cx cx' -> forall p : P,
  Active.feed_from (M := M) cx kind stop chunks p = Active.feed_from cx' kind stop chunks p.
Proof.
  intros (E1 & E2 & E3 & E4 & E5). induction chunks as [|c chunks IH]; intros p; [done|]. cbn [Active.feed_from].
  assert (Active.feed_chunk cx c p = Active.feed_chunk cx' c p) as -> by (unfold Active.feed_chunk; by rewrite E2, E4).
  destruct (Active.feed_chunk cx' c p) as [[p1 ms] gap].
  assert (Active.messages cx kind ms = Active.messages cx' kind ms) as -> by (unfold Active.messages; by rewrite E1, E2, E3, E4).
  by rewrite E2, IH.
Qed.
Lemma feed_to_chunks cx cx' s (a : Active.t P) : alike cx cx' -> Stream.is_empty s = false ->
  Active.feed (M := M) cx (Stream.SChunks (Stream.to_chunks s)) a = Active.feed cx' s a.
Proof.
  intros A N. unfold Active.feed, Active.feed_stream. cbn [Stream.stop Stream.iter]. rewrite iter_to_chunks, stop_to_chunks by done.
  rewrite (feed_from_alike cx cx') by done. destruct A as (E1 & E2 & E3 & E4 & E5). unfold emit_close. by rewrite E1, E2, E4, E5.
Qed.

Definition calls (ports : item -> Ports) (l : list item) : list (Call K) := (fun i => CStream i.1 (ports i) i.2) <$> l.
Lemma flow_run_app sel k cs cs' st : flow_run (M := M) sel make k (cs ++ cs') st =
  let (st, o) := flow_run sel make k cs st in let (st, o') := flow_run sel make k cs' st in (st, o ++ o').
Proof.
  revert st. induction cs as [|c cs IH]; intros st; cbn [app flow_run]; [by destruct (flow_run sel make k cs' st)|].
  destruct (flow_step sel make k c st) as [st1 o1]. rewrite IH. destruct (flow_run sel make k cs st1) as [st2 o2].
  destruct (flow_run sel make k cs' st2) as [st3 o3]. by rewrite app_assoc.
Qed.
(** An activated flow depends on its selector no more. *)
Lemma settled_run sel sel' ports k l : forall st : SessionFlow.t P, (forall p, st <> Probing p) ->
  flow_run (M := M) sel make k (calls ports l) (Some st) = flow_run sel' make k (calls ports l) (Some st).
Proof.
  induction l as [|i l IH]; intros st N; [done|]. cbn [calls fmap list_fmap flow_run flow_step].
  destruct (decide (Ctx.key i.1 = k)); [|by fold (calls ports l); rewrite (IH st N)].
  unfold flow_stream. destruct (Stream.is_empty i.2); [fold (calls ports l); by rewrite (IH st N)|].
  cbn [flow_admit]. fold (calls ports l). destruct st as [p|a|]; [by destruct (N p)| |by rewrite (IH Closed)].
  destruct (Active.feed i.1 i.2 a) as [[a' o] []]; by rewrite IH.
Qed.
Lemma settled_end sel ports k l : forall st : SessionFlow.t P, (forall p, st <> Probing p) ->
  exists st', (flow_run (M := M) sel make k (calls ports l) (Some st)).1 = Some st' /\ forall p, st' <> Probing p.
Proof.
  induction l as [|i l IH]; intros st N; [by exists st|].
  change (calls ports (i :: l)) with (CStream i.1 (ports i) i.2 :: calls ports l). cbn [flow_run flow_step].
  assert (exists st' o, (if decide (Ctx.key i.1 = k) then flow_stream sel make i.1 (ports i) i.2 (Some st) else (Some st, []))
    = (Some st', o : out) /\ forall p, st' <> Probing p) as (st' & o & -> & N').
  { unfold flow_stream. destruct (decide _), (Stream.is_empty i.2); try by eexists _, _. cbn [flow_admit].
    destruct st as [p|a|]; [by destruct (N p)| |by eexists _, _]. destruct (Active.feed i.1 i.2 a) as [[a' o] []]; by eexists _, _. }
  destruct (IH st' N') as (st2 & E & N2). exists st2. by destruct (flow_run sel make k (calls ports l) (Some st')).
Qed.
Definition of_result (r : option (Active.t P)) : state := Some match r with Some a => Active_ a | None => Closed end.
Lemma closed_run sel ports k l : flow_run (M := M) sel make k (calls ports l) (Some Closed) = (Some Closed, []).
Proof.
  induction l as [|i l IH]; [done|]. cbn [calls fmap list_fmap flow_run flow_step].
  assert ((if decide (Ctx.key i.1 = k) then flow_stream sel make i.1 (ports i) i.2 (Some Closed) else (Some Closed, []))
    = (Some Closed, @nil (Output.t K M))) as -> by (unfold flow_stream; destruct (decide _), (Stream.is_empty i.2); done).
  fold (calls ports l). by rewrite IH.
Qed.
Lemma replay_run sel ports (cx : Ctx.t K) l : forall a : Active.t P,
  Forall (fun i => Ctx.key i.1 = Ctx.key cx /\ Ctx.emit i.1 = Ctx.emit cx /\ Stream.is_empty i.2 = false) l ->
  let (o, r) := replay_all cx (entry <$> l) a in
  flow_run (M := M) sel make (Ctx.key cx) (calls ports l) (Some (Active_ a)) = (of_result r, o).
Proof.
  induction l as [|i l IH]; intros a A; [done|]. inversion A as [|? ? (E1 & E2 & E3) A']; subst.
  change (calls ports (i :: l)) with (CStream i.1 (ports i) i.2 :: calls ports l).
  change (entry <$> i :: l) with (entry i :: (entry <$> l)).
  cbn [flow_run flow_step replay_all]. rewrite decide_True by done. unfold flow_stream. rewrite E3.
  cbn [flow_admit]. unfold entry at 1. rewrite (feed_to_chunks _ i.1) by (done || by unfold alike; split_and!).
  destruct (Active.feed i.1 i.2 a) as [[a' o] closed]. destruct closed; [by rewrite closed_run, app_nil_r|].
  specialize (IH a' A'). destruct (replay_all cx (entry <$> l) a') as [o' r]. by rewrite IH.
Qed.

(** *** While all is kept *)
Variable signature : SignatureFn.
Variable mx : Z.
Notation Sig := (Selector.Signature signature mx).
Definition all_kept (l : list item) (p : Probe.t) : Prop :=
  Probe.replay p = entry <$> l /\ Probe.lost p = Sides.both 0 /\ Probe.replay_bytes p = total l.
Lemma step_kept l (i : item) p : all_kept l p -> total (l ++ [i]) <= PROBE_REPLAY_BYTE_CAP ->
  all_kept (l ++ [i]) (Probe.step i.1 i.2 signature mx p).1.
Proof.
  intros (E1 & E2 & E3) T. destruct (step_log signature mx i p) as (R1 & R2 & _ & R4). unfold all_kept. rewrite R1, R2, R4.
  rewrite total_len_app in T |- *. change (total [i]) with (Stream.len i.2 + 0) in T |- *.
  unfold Probe.keep. rewrite E2, E3. rewrite (proj2 (Z.leb_le (total l + _) _)) by lia.
  replace (Sides.get _ (Sides.both 0) =? 0) with true by by destruct (Ctx.side i.1). rewrite orb_true_r. cbn.
  rewrite E1, E2, E3, fmap_app. split_and!; [done..|lia].
Qed.
Lemma calls_app ports (l l' : list item) : calls ports (l ++ l') = calls ports l ++ calls ports l'.
Proof. apply fmap_app. Qed.
Lemma empty_step sel ports k (i : item) (st : state) : Stream.is_empty i.2 = true ->
  flow_step (M := M) sel make k (CStream i.1 (ports i) i.2) st = (st, []).
Proof. intros N. cbn. unfold flow_stream. rewrite N. by destruct (decide _). Qed.

(** A run of probed streams up to the match, and beyond, is the run of an
    open parser on all of them. *)
Lemma probed_run ports k e l : forall p l0,
  all_kept l0 p -> total (l0 ++ l) <= PROBE_REPLAY_BYTE_CAP ->
  Forall (fun i => Ctx.key i.1 = k /\ Ctx.emit i.1 = e) (l0 ++ l) -> Forall (fun i => Stream.is_empty i.2 = false) l0 ->
  probe_run signature mx l p = VMatch ->
  flow_run (M := M) Sig make k (calls ports l) (Some (Probing p))
  = flow_run Selector.All make k (calls ports (l0 ++ l)) (Some (Active_ (Active.new (make k)))).
Proof.
  induction l as [|[cx s] l IH]; intros p l0 A T Key Ne V; [done|]. cbn [probe_run] in V.
  set (i := (cx, s)) in *. change (calls ports (i :: l)) with (CStream cx (ports i) s :: calls ports l).
  destruct (Stream.is_empty s) eqn:N.
  - cbn [flow_run]. rewrite (empty_step _ ports k i) by done. rewrite calls_app, flow_run_app.
    change (calls ports (i :: l)) with (CStream cx (ports i) s :: calls ports l).
    rewrite total_len_app, total_len_cons in T. pose proof (len_nonneg i.2).
    rewrite (IH p l0); [|done|by rewrite total_len_app; lia| |done|done].
    + rewrite calls_app, flow_run_app. destruct (flow_run Selector.All make k (calls ports l0) _) as [st o].
      cbn [flow_run]. rewrite (empty_step _ ports k i) by done.
      destruct (flow_run Selector.All make k (calls ports l) st) as [st' o']. done.
    + apply Forall_app in Key as [K1 K2]. apply Forall_app. split; [done|]. by inversion K2.
  - replace (l0 ++ i :: l) with ((l0 ++ [i]) ++ l) in T, Key |- * by by rewrite <- app_assoc.
    assert (T1 : total (l0 ++ [i]) <= PROBE_REPLAY_BYTE_CAP) by (rewrite total_len_app in T; pose proof (total_nonneg l); lia).
    pose proof (step_kept l0 i p A T1) as A'. cbn [fst snd i] in A'.
    assert (Ne' : Forall (fun i => Stream.is_empty i.2 = false) (l0 ++ [i])) by (apply Forall_app; split; [done|by constructor]).
    pose proof Key as Key'. apply Forall_app in Key' as [Key1 _]. pose proof Key1 as Key2. apply Forall_app in Key2 as [_ Key2].
    inversion Key2 as [|? ? [Kk Ke] _]; subst. cbn [fst i] in *.
    cbn [flow_run flow_step]. rewrite decide_True by done. unfold flow_stream at 1. rewrite N. cbn [flow_admit].
    destruct (Probe.step cx s signature mx p) as [p' v]. cbn [fst] in A'. destruct v; [|done|].
    + unfold pin. destruct A' as (R1 & R2 & R3). assert (lost_chunks cx p' = []) as -> by (unfold lost_chunks; by rewrite R2).
      rewrite app_nil_r, R1. rewrite (calls_app ports (l0 ++ [i]) l), flow_run_app.
      pose proof (replay_run Selector.All ports cx (l0 ++ [i]) (Active.new (make (Ctx.key cx)))) as G.
      destruct (replay_all cx (entry <$> l0 ++ [i]) _) as [o r]. rewrite G.
      2: { apply Forall_and. split; [|apply Forall_and; split]; [eapply Forall_impl; [exact Key1|]..|done]; by intros ? []. }
      unfold of_result. fold (calls ports l). rewrite (settled_run Sig Selector.All); [done|]. intros q. by destruct r.
    + rewrite (IH p' (l0 ++ [i])) by done. by destruct (flow_run _ _ _ _ _).
Qed.
Lemma fresh_run sel st0 ports k l : (forall ports, flow_admit sel make k ports None = Some st0) ->
  (exists i, i ∈ l /\ Ctx.key i.1 = k /\ Stream.is_empty i.2 = false) ->
  flow_run (M := M) sel make k (calls ports l) None = flow_run sel make k (calls ports l) (Some st0).
Proof.
  intros A. induction l as [|i l IH]; intros (j & J & Kj & Nj); [by apply elem_of_nil in J|].
  change (calls ports (i :: l)) with (CStream i.1 (ports i) i.2 :: calls ports l). cbn [flow_run flow_step].
  destruct (decide (Ctx.key i.1 = k)) as [D|D]; [destruct (Stream.is_empty i.2) eqn:N|].
  - unfold flow_stream. rewrite N. rewrite IH; [done|]. exists j. apply elem_of_cons in J as [->|J]; [congruence|done].
  - unfold flow_stream. rewrite N, D, A. done.
  - rewrite IH; [done|]. exists j. apply elem_of_cons in J as [->|J]; [congruence|done].
Qed.
Lemma match_nonempty l : forall p, probe_run signature mx l p = VMatch -> exists i : item, i ∈ l /\ Stream.is_empty i.2 = false.
Proof.
  induction l as [|[cx s] l IH]; intros p V; [done|]. cbn in V. destruct (Stream.is_empty s) eqn:N.
  - destruct (IH _ V) as (i & I & E). exists i. split; [by right|done].
  - exists (cx, s). split; [by left|done].
Qed.
End replay.

Section theorems.
Context {K F P M : Type} `{Countable K} `{SessionParser P M} `{!SessionParserFactory K F P}.
Notation item := (Ctx.t K * Stream.t)%type.

Lemma iter_gap n : n <> 0 -> StreamChunks.iter (StreamChunks.push_gap n StreamChunks.new) = [Gap n].
Proof.
  intros N. unfold StreamChunks.push_gap. rewrite (proj2 (Z.eqb_neq n 0)) by done. reflexivity.
Qed.
Lemma log_side_lost side (cx : Ctx.t K) p :
  flat_map (fun e => StreamChunks.iter e.2) (log_side side (lost_chunks cx p))
  = if Sides.get side (Probe.lost p) =? 0 then [] else [Gap (Sides.get side (Probe.lost p))].
Proof.
  unfold lost_chunks. cbn [fmap list_fmap concat]. unfold log_side. rewrite app_nil_r, List.filter_app, flat_map_app.
  destruct (Probe.lost p) as [a b]. cbn [Sides.get Sides.initiator Sides.responder].
  destruct side; cbn [Sides.get Sides.initiator Sides.responder]; destruct (a =? 0) eqn:A, (b =? 0) eqn:B; zb;
    cbn -[StreamChunks.iter StreamChunks.push_gap];
    rewrite ?(bool_decide_true (Initiator = Initiator)), ?(bool_decide_true (Responder = Responder)),
      ?(bool_decide_false (Responder = Initiator)), ?(bool_decide_false (Initiator = Responder)) by done;
    cbn -[StreamChunks.iter StreamChunks.push_gap]; rewrite ?iter_gap by done; done.
Qed.

(** C12: what a probed flow's parser is given at last.  A stream is kept
    just when it is the first of its side, or when all the earlier ones of
    its side were kept and the log, with it, holds no more bytes than the cap
    (the cap counts both sides).  So what is kept of a side is a front part
    of it, replayed unchanged and in order, and in the order of arrival with
    the other side; all that comes after it on the side is one gap of exactly
    its size, data and gaps, given to the parser after the front part. *)
Theorem probe_log_faithful (signature : SignatureFn) (mx : Z) (l : list item) (cx : Ctx.t K) (side : FlowSide) :
  Forall unsigned l -> Forall (fun i => Stream.is_empty i.2 = false) l ->
  let p := seen signature mx l Probe.default in
  (forall a i b, l = a ++ i :: b ->
     let log := Probe.replay (seen signature mx a Probe.default) in
     let log' := Probe.replay (seen signature mx (a ++ [i]) Probe.default) in
     (fits a i log -> log' = log ++ [entry i]) /\ (~ fits a i log -> log' = log)) /\
  sublist (Probe.replay p) (entry <$> l) /\
  exists pre post,
    on_side side l = pre ++ post /\ (post <> [] -> pre <> [] /\ PROBE_REPLAY_BYTE_CAP < total l)
    /\ flat_map (fun e => StreamChunks.iter e.2) (log_side side (Probe.replay p ++ lost_chunks cx p))
       = flat_map (fun i => Stream.iter i.2) pre ++ if lost_size post =? 0 then [] else [Gap (lost_size post)].
Proof.
  intros U N p. destruct (seen_faithful signature mx l [] Probe.default U default_faithful) as (Fr & Su & To & Lo).
  cbn [app] in *. fold p in Fr, Su, To, Lo. split.
  { intros a i b ->. apply cut_at_cap. by apply Forall_app in U as [U _]. }
  split; [done|]. destruct (Fr side) as (pre & post & E1 & E2 & E3 & E4 & E5).
  exists pre, post. split; [done|]. split.
  { intros Q. destruct (E5 Q) as [Q1 [Q2|Q2]]; split; try done; [by eapply Lo|lia]. }
  unfold log_side in *. rewrite List.filter_app, flat_map_app, E2. f_equal.
  - assert (Forall (fun i => Stream.is_empty i.2 = false) pre) as N'.
    { assert (Forall (fun i => Stream.is_empty i.2 = false) (on_side side l)) as N1.
      { unfold on_side. clear -N. induction N; cbn; [constructor|]. case_bool_decide; by try constructor. }
      rewrite E1 in N1. by apply Forall_app in N1 as [N1 _]. }
    clear -N'. induction N' as [|i pre Ni _ IH]; [done|]. cbn. f_equal; [|done]. by apply iter_to_chunks.
  - fold (log_side side (lost_chunks cx p)). by rewrite log_side_lost, E3.
Qed.

Variable order : gmap K (SessionFlow.t P) -> list (K * SessionFlow.t P).
Hypothesis order_flows : forall m, Permutation (order m) (map_to_list m).
Variable make : K -> P.
Variable good : F -> Prop.
Hypothesis stateless : forall k f, good f -> good (new_parser k f).1 /\ (new_parser k f).2 = make k.

(** C11: probing is transparent, for a factory that gives each flow a
    parser fixed by the flow's key.  A flow whose signature matches
    within the replay budget (and while the output gates stay as they were)
    is parsed as if there were no signature: after the match and whatever
    streams of any flow follow, the core with the signature and one that
    takes every flow are in the same state for it and have said the same
    things about it in the same order, messages, stops and closes. *)
Theorem probing_is_transparent (f : F) (signature : SignatureFn) (mx : Z) (ports : item -> Ports)
    (k : K) (e : Emit.t) (l l' : list item) :
  good f -> Forall (fun i => Ctx.key i.1 = k /\ Ctx.emit i.1 = e) l -> total l <= PROBE_REPLAY_BYTE_CAP ->
  probe_run signature mx l Probe.default = VMatch ->
  let probed := core_run order (calls ports (l ++ l')) (SessionCore.new f (Selector.Signature signature mx)) in
  let direct := core_run order (calls ports (l ++ l')) (SessionCore.new f Selector.All) in
  flows probed.1 !! k = flows direct.1 !! k /\ about k probed.2 = about k direct.2.
Proof.
  intros G A T V. cbv zeta.
  destruct (core_run_flow order make good stateless order_flows (calls ports (l ++ l'))
    (SessionCore.new f (Selector.Signature signature mx)) k G) as [_ E1].
  destruct (core_run_flow order make good stateless order_flows (calls ports (l ++ l')) (SessionCore.new f Selector.All) k G) as [_ E2].
  enough (flow_run (Selector.Signature signature mx) make k (calls ports (l ++ l')) None =
    flow_run (M := M) Selector.All make k (calls ports (l ++ l')) None) as E3.
  { cbn [selector SessionCore.new flows] in E1, E2. rewrite lookup_empty in E1, E2.
    rewrite E3, <- E2 in E1. by injection E1. }
  destruct (match_nonempty signature mx l Probe.default V) as (i & I & N).
  assert (exists i, i ∈ l /\ Ctx.key i.1 = k /\ Stream.is_empty i.2 = false) as X.
  { exists i. rewrite Forall_forall in A. destruct (A i I). done. }
  pose proof (probed_run make signature mx ports k e l Probe.default [] ltac:(done) T A ltac:(done) V) as R.
  rewrite !calls_app, !flow_run_app, (fresh_run make _ (Probing Probe.default)), R, (fresh_run make Selector.All (Active_ (Active.new (make k)))) by done.
  cbn [app]. destruct (settled_end make Selector.All ports k l (Active_ (Active.new (make k))) ltac:(done)) as (st & E & Ns).
  destruct (flow_run Selector.All make k (calls ports l) _) as [st1 o]. cbn [fst] in E. subst st1.
  by rewrite (settled_run make _ Selector.All).
Qed.
End theorems.

Section demo.
Notation parser := (AccumulatingSessionParser.t (list Z)).
(** Matches a one with a byte behind it. *)
Definition demo_signature2 : SignatureFn := fun b =>
  match b with [] | [_] => NeedMoreData | n :: _ => if n =? 1 then Match else NoMatch end.
Definition demo_streams : list (Ctx.t Z * Stream.t) :=
  [(demo_ctx 1 Initiator, Stream.SBytes [1]); (demo_ctx 1 Responder, Stream.SBytes [2; 7]);
   (demo_ctx 1 Initiator, Stream.SBytes [5])].
Definition demo_more : list (Ctx.t Z * Stream.t) := [(demo_ctx 1 Responder, Stream.SBytes [9; 0])].
Lemma probe_log_faithful_witness :
  flat_map (fun e => StreamChunks.iter e.2)
    (log_side Initiator (Probe.replay (seen demo_signature2 4 demo_streams Probe.default)
       ++ lost_chunks (demo_ctx 1 Initiator) (seen demo_signature2 4 demo_streams Probe.default)))
  = [Data [1]; Data [5]].
Proof.
  destruct (probe_log_faithful demo_signature2 4 demo_streams (demo_ctx 1 Initiator) Initiator) as (_ & _ & pre & post & E & L & R).
  - by repeat constructor.
  - by repeat constructor.
  - rewrite R. destruct post as [|i post].
    + rewrite app_nil_r in E. by rewrite <- E.
    + destruct (L ltac:(done)) as [_ L2]. by vm_compute in L2.
Defined.
(** The cap at work: the second stream does not fit, and the third, which
    would, comes after it. *)
Example cap_cuts_the_side :
  let stream n := (demo_ctx 1 Initiator, Stream.SBytes (repeat 7 n)) in
  let p := seen demo_signature2 4 [stream 40000%nat; stream 40000%nat; stream 1%nat] Probe.default in
  (held (Probe.replay p), Sides.initiator (Probe.lost p)) = (40000, 40001).
Proof. by vm_compute. Qed.
Lemma probing_is_transparent_witness :
  about 1 (core_run (P := parser) map_to_list (calls (fun _ => None) (demo_streams ++ demo_more))
    (demo_new (Selector.Signature demo_signature2 4))).2
  = [Output.Message 1 Initiator Forward [5] (Timestamp.mk 1 0) ParserKind.Unspecified;
     Output.Message 1 Responder Forward [7; 9] (Timestamp.mk 1 0) ParserKind.Unspecified;
     Output.Message 1 Responder Forward [] (Timestamp.mk 1 0) ParserKind.Unspecified].
Proof.
  destruct (probing_is_transparent (P := parser) (M := list Z) map_to_list (fun _ => Permutation_refl _) (fun _ => demo_parser)
    demo_good demo_stateless (TemplateFactory.mk demo_parser) demo_signature2 4 (fun _ => None) 1 demo_emit
    demo_streams demo_more eq_refl ltac:(by repeat constructor) ltac:(done) eq_refl) as [_ E].
  etrans; [exact E|by vm_compute].
Defined.

(** What the budget loses with a stream is its bytes and gaps, and also the
    end of its reassembly: the parser of a flow that matches is told of a gap
    and never that the reassembly stopped. *)
Lemma probing_forgets_stop {K} (cx cx' : Ctx.t K) s p :
  Sides.get (Ctx.side cx) (Probe.kept p) = true ->
  PROBE_REPLAY_BYTE_CAP < Probe.replay_bytes p + Stream.len s ->
  let p' := Probe.keep cx s p in
  Probe.replay p' = Probe.replay p /\ Forall (fun e => StreamChunks.stop e.2 = None) (lost_chunks cx' p').
Proof.
  intros E L p'. unfold p', Probe.keep. rewrite E, (proj2 (Z.leb_gt _ _)) by done. rewrite andb_false_r. split; [done|].
  unfold lost_chunks. cbn [fmap list_fmap concat]. rewrite app_nil_r, Forall_app.
  split; case_if; [constructor|constructor; [|constructor]|constructor|constructor; [|constructor]];
    unfold StreamChunks.push_gap; cbn [snd]; by case_if.
Qed.
End demo.
