(* ===== verification/Lru.v ===== *)
(** * The flow table's container

    [lru::LruCache] is a third-party crate.  The tracker is written against
    the interface [Lru]: the operations it calls, and laws that state what
    the crate documents of each of them in terms of the entries in order of
    use, most recent first.  [ListLru] is an implementation: the list of
    entries itself. *)

From stdpp Require Import sets.
From S2P Require Import Prelude.
Open Scope Z_scope.

(** ** The effect of each operation on the entries *)
Section reference.
Context {K V : Type} `{EqDecision K}.
Implicit Types (l : list (K * V)) (k : K).

Fixpoint entry (k : K) (l : list (K * V)) : option V :=
  match l with
  | [] => None
  | (k', v) :: l => if decide (k = k') then Some v else entry k l
  end.
Fixpoint without (k : K) (l : list (K * V)) : list (K * V) :=
  match l with
  | [] => []
  | (k', v) :: l => if decide (k = k') then l else (k', v) :: without k l
  end.
Fixpoint modify (k : K) (f : V -> V) (l : list (K * V)) : list (K * V) :=
  match l with
  | [] => []
  | (k', v) :: l => if decide (k = k') then (k', f v) :: l else (k', v) :: modify k f l
  end.
(** Moves the entry of [k] to the front. *)
Definition promote (k : K) (f : V -> V) (l : list (K * V)) : list (K * V) :=
  match entry k l with Some v => (k, f v) :: without k l | None => l end.
(** Inserts at the front; the entry replaced, or else the least recently
    used one when the cache is full, is returned. *)
Definition push_front (cap : Z) (k : K) (v : V) (l : list (K * V))
    : list (K * V) * option (K * V) :=
  match entry k l with
  | Some old => ((k, v) :: without k l, Some (k, old))
  | None =>
      if zlen l <? cap then ((k, v) :: l, None)
      else ((k, v) :: ztake (zlen l - 1) l, last l)
  end.
End reference.

(** ** The interface *)
Class Lru (K V C : Type) `{EqDecision K} := {
  with_hasher : Z -> C;
  cap : C -> Z;
  iter : C -> list (K * V);
  contains : K -> C -> bool;
  peek : K -> C -> option V;
  push : K -> V -> C -> C * option (K * V);
  pop : K -> C -> C * option V;
  get_mut : K -> (V -> V) -> C -> C;
  peek_mut : K -> (V -> V) -> C -> C;
  resize : Z -> C -> C;
  len : C -> Z }.

(** What the crate documents, for capacities of at least one
    ([NonZeroUsize]). *)
Class LruLaws (K V C : Type) `{EqDecision K} `{!Lru K V C} : Prop := {
  cap_new n : cap (with_hasher n) = n;
  iter_new n : iter (with_hasher n) = [];
  contains_iter k c : contains k c = is_some (entry k (iter c));
  peek_iter k c : peek k c = entry k (iter c);
  iter_push k v c : iter (push k v c).1 = (push_front (cap c) k v (iter c)).1;
  push_result k v c : (push k v c).2 = (push_front (cap c) k v (iter c)).2;
  iter_pop k c : iter (pop k c).1 = without k (iter c);
  pop_result k c : (pop k c).2 = entry k (iter c);
  iter_get_mut k f c : iter (get_mut k f c) = promote k f (iter c);
  iter_peek_mut k f c : iter (peek_mut k f c) = modify k f (iter c);
  iter_resize n c : iter (resize n c) = ztake n (iter c);
  cap_push k v c : cap (push k v c).1 = cap c;
  cap_pop k c : cap (pop k c).1 = cap c;
  cap_get_mut k f c : cap (get_mut k f c) = cap c;
  cap_peek_mut k f c : cap (peek_mut k f c) = cap c;
  cap_resize n c : cap (resize n c) = n;
  len_iter c : len c = zlen (iter c) }.

Create Rewrite HintDb lru.
#[export] Hint Rewrite @cap_new @iter_new @contains_iter @peek_iter @iter_push @push_result
  @iter_pop @pop_result @iter_get_mut @iter_peek_mut @iter_resize @cap_push @cap_pop
  @cap_get_mut @cap_peek_mut @cap_resize @len_iter using (typeclasses eauto) : lru.

(** ** The entries themselves as an implementation *)
Module ListLru.
Section list_lru.
Context {K V : Type} `{EqDecision K}.
Definition t : Type := Z * list (K * V).
#[global] Instance lru : Lru K V t := {
  with_hasher n := (n, []);
  cap c := c.1;
  iter c := c.2;
  contains k c := is_some (entry k c.2);
  peek k c := entry k c.2;
  push k v c := let p := push_front c.1 k v c.2 in ((c.1, p.1), p.2);
  pop k c := ((c.1, without k c.2), entry k c.2);
  get_mut k f c := (c.1, promote k f c.2);
  peek_mut k f c := (c.1, modify k f c.2);
  resize n c := (n, ztake n c.2);
  len c := zlen c.2 }.
#[global] Instance lru_laws : LruLaws K V t.
Proof. by split. Qed.
End list_lru.
#[global] Arguments t : clear implicits.
End ListLru.

(** ** Lemmas *)
Section lru_facts.
Context {K V : Type} `{EqDecision K}.
Implicit Types (l : list (K * V)) (k : K).
Notation keys l := ((l).*1).

Lemma entry_None l k : entry k l = None <-> k ∉ keys l.
Proof.
  induction l as [|[k' v] l IH]; cbn; [split; [intros _; apply not_elem_of_nil|done]|].
  rewrite not_elem_of_cons. destruct (decide (k = k')); naive_solver.
Qed.
Lemma entry_Some_key l k v : entry k l = Some v -> k ∈ keys l.
Proof.
  intros H. destruct (decide (k ∈ keys l)) as [|Hn]; [done|].
  apply entry_None in Hn. congruence.
Qed.
Lemma entry_elem l k v : entry k l = Some v -> (k, v) ∈ l.
Proof.
  induction l as [|[k' v'] l IH]; cbn; [done|]. rewrite elem_of_cons.
  destruct (decide (k = k')) as [->|]; [left; congruence|naive_solver].
Qed.
Lemma elem_entry l k v : NoDup (keys l) -> (k, v) ∈ l -> entry k l = Some v.
Proof.
  induction l as [|[k' v'] l IH]; [by rewrite elem_of_nil|]. cbn.
  rewrite NoDup_cons, elem_of_cons. intros [Hn Hl] [[= <- <-]|Hin].
  - by rewrite decide_True.
  - rewrite decide_False; [by apply IH|]. intros ->. apply Hn. apply list_elem_of_fmap. by exists (k', v).
Qed.

Lemma keys_without_subseteq l k : keys (without k l) ⊆ keys l.
Proof. induction l as [|[k' v] l IH]; cbn; [done|]. case_decide; set_solver. Qed.
Lemma nodup_without l k : NoDup (keys l) -> NoDup (keys (without k l)).
Proof.
  induction l as [|[k' v] l IH]; cbn; [done|]. rewrite NoDup_cons. intros [Hn Hl].
  case_decide; [done|]. cbn. rewrite NoDup_cons. split; [|auto].
  intros Hin. apply Hn. by apply (keys_without_subseteq l k).
Qed.
Lemma entry_without l k k' : NoDup (keys l) ->
  entry k' (without k l) = if decide (k' = k) then None else entry k' l.
Proof.
  induction l as [|[k1 v] l IH]; cbn; [by case_decide|]. rewrite NoDup_cons. intros [Hn Hl].
  destruct (decide (k = k1)) as [->|Hk].
  - destruct (decide (k' = k1)) as [->|]; [by apply entry_None|done].
  - cbn. destruct (decide (k' = k1)) as [->|]; [by rewrite decide_False by done|]. by apply IH.
Qed.
Lemma without_None l k : entry k l = None -> without k l = l.
Proof.
  induction l as [|[k' v] l IH]; cbn; [done|]. case_decide; [done|]. intros. by rewrite IH.
Qed.
Lemma zlen_without l k v : entry k l = Some v -> zlen (without k l) = zlen l - 1.
Proof.
  induction l as [|[k' v'] l IH]; cbn; [done|]. case_decide; intros; [zlia|].
  rewrite !zlen_cons, IH by done. lia.
Qed.
Lemma Forall_without (P : K * V -> Prop) l k : Forall P l -> Forall P (without k l).
Proof. induction 1 as [|[k' v] l]; cbn; [constructor|]. by case_decide; [|constructor]. Qed.

Lemma entry_promote l k f k' : NoDup (keys l) ->
  entry k' (promote k f l) = if decide (k' = k) then f <$> entry k l else entry k' l.
Proof.
  intros Hl. unfold promote. destruct (entry k l) as [v|] eqn:E; cbn.
  - case_decide as D; [done|]. rewrite entry_without by done. by rewrite decide_False by done.
  - case_decide as D; [by subst|done].
Qed.
Lemma nodup_promote l k f : NoDup (keys l) -> NoDup (keys (promote k f l)).
Proof.
  intros Hl. unfold promote. destruct (entry k l) as [v|] eqn:E; [|done]. cbn.
  rewrite NoDup_cons. split; [|by apply nodup_without].
  apply entry_None. rewrite entry_without by done. by rewrite decide_True by done.
Qed.
Lemma zlen_promote l k f : zlen (promote k f l) = zlen l.
Proof.
  unfold promote. destruct (entry k l) as [v|] eqn:E; [|done].
  rewrite zlen_cons, (zlen_without _ _ v) by done. lia.
Qed.
Lemma Forall_promote (P : K * V -> Prop) l k f : Forall P l ->
  (forall v, entry k l = Some v -> P (k, f v)) -> Forall P (promote k f l).
Proof.
  intros Hl Hf. unfold promote. destruct (entry k l) as [v|] eqn:E; [|done].
  constructor; [by apply Hf|by apply Forall_without].
Qed.

Lemma entry_modify l k f k' :
  entry k' (modify k f l) = if decide (k' = k) then f <$> entry k l else entry k' l.
Proof.
  induction l as [|[k1 v] l IH]; cbn; [by case_decide|].
  destruct (decide (k = k1)) as [->|]; cbn.
  - by destruct (decide (k' = k1)).
  - destruct (decide (k' = k1)) as [->|]; [by rewrite decide_False by done|done].
Qed.
Lemma keys_modify l k f : keys (modify k f l) = keys l.
Proof.
  induction l as [|[k1 v] l IH]; cbn; [done|]. case_decide; cbn; [done|]. by rewrite IH.
Qed.
Lemma Forall_modify (P : K * V -> Prop) l k f : Forall P l ->
  (forall v, P (k, v) -> P (k, f v)) -> Forall P (modify k f l).
Proof.
  intros Hl Hf. induction Hl as [|[k1 v] l]; cbn; [constructor|].
  case_decide; subst; constructor; auto.
Qed.

(** A push of a new key: the least recently used entry is evicted when the
    cache is full, and only then. *)
Inductive pushed (n : Z) (k : K) (v : V) (l : list (K * V)) :
    list (K * V) * option (K * V) -> Prop :=
  | pushed_room : zlen l < n -> pushed n k v l ((k, v) :: l, None)
  | pushed_evict k' v' l' : l = l' ++ [(k', v')] -> n <= zlen l ->
      pushed n k v l ((k, v) :: l', Some (k', v')).

Lemma push_front_spec n k v l : 1 <= n -> entry k l = None -> pushed n k v l (push_front n k v l).
Proof.
  intros Hn E. unfold push_front. rewrite E. case_if; [by constructor|].
  destruct l as [|kv l _] using rev_ind; [rewrite zlen_nil in *; lia|]. destruct kv as [k' v'].
  rewrite last_snoc. replace (zlen (l ++ [(k', v')]) - 1) with (zlen l) by (rewrite zlen_app; cbn; unfold zlen; cbn; lia).
  rewrite ztake_app_le, ztake_ge by lia. by apply pushed_evict.
Qed.

Lemma entry_snoc l k v k' : NoDup (keys (l ++ [(k, v)])) ->
  entry k' (l ++ [(k, v)]) = if decide (k' = k) then Some v else entry k' l.
Proof.
  induction l as [|[k1 v1] l IH]; cbn; [done|]. rewrite NoDup_cons. intros [Hn Hl].
  destruct (decide (k' = k1)) as [->|]; [|by apply IH].
  rewrite decide_False; [done|]. intros ->. apply Hn. rewrite fmap_app. set_solver.
Qed.
Lemma nodup_take l n : NoDup (keys l) -> NoDup (keys (ztake n l)).
Proof.
  intros Hl. rewrite <- (ztake_zdrop n l), fmap_app in Hl. by apply NoDup_app in Hl as [? _].
Qed.
End lru_facts.
