(* ===== verification/Tracker.v ===== *)
(** * The flow tracker (src/src/tracker.rs)

    A table of live flows in least-recently-used order, a TCP state machine
    per flow, an idle-timeout sweep, and the events they produce.

    [track_with] is the whole packet path: its result is the tracker, the
    events returned and the context the per-packet callback is called with.
    It is [None] where the code would panic ([expect] on the flow entry);
    TrackerFacts shows that this never happens.  The extractor, the state
    initialiser and the container are parameters.  Metrics and traces
    ([crate::obs]) are left out: they never feed back. *)

From S2P Require Import Prelude Time Flow Config TcpState Packet Welford Event Lru.

Module PacketContext.
Record t {K : Type} := mk {
  key : K; side : FlowSide; orientation : Orientation; l4 : option L4Proto;
  tcp : option TcpInfo.t; tcp_payload : list Z; ports : option (Z * Z);
  l4_payload : option (list Z); ts : Timestamp.t; len : Z; is_new : bool;
  l4_meta : option L4Meta.t; captured_len : Z; truncated : bool }.
#[global] Arguments t : clear implicits.
#[global] Arguments mk {K}.
End PacketContext.

Module FlowEntry.
Record t {S : Type} := mk {
  stats : FlowStats.t; state : FlowState; history : list Z; user : S;
  initiator_orientation : Orientation; l4 : option L4Proto;
  last_tick_at : option Timestamp.t }.
#[global] Arguments t : clear implicits.
#[global] Arguments mk {S}.
#[global] Instance eta {S} : Eta (t S) := mk_eta (fun e =>
  mk (stats e) (state e) (history e) (user e) (initiator_orientation e) (l4 e) (last_tick_at e)).
Definition side_for {S} (o : Orientation) (e : t S) : FlowSide :=
  if decide (o = initiator_orientation e) then Initiator else Responder.
End FlowEntry.

Module ActiveFlow.
Record t {K S : Type} := mk {
  key : K; stats : FlowStats.t; user : S; state : FlowState; l4 : option L4Proto }.
#[global] Arguments t : clear implicits.
#[global] Arguments mk {K S}.
End ActiveFlow.

Module FlowTrackerStats.
Record t := mk {
  flows_created : Z; flows_ended : Z; flows_evicted : Z; packets_unmatched : Z }.
#[global] Instance eta : Eta t := mk_eta (fun s =>
  mk (flows_created s) (flows_ended s) (flows_evicted s) (packets_unmatched s)).
Definition default : t := mk 0 0 0 0.
End FlowTrackerStats.

(** [Duration::as_micros() as f64]. *)
Definition micros_f64 (d : Z) : f64 := F64.of_Z (d / 1000).

(** ** One packet's effect on its flow's statistics *)

(** Capture-leg binding. *)
Definition bind_leg (orientation : Orientation) (source_idx : Z) (s : FlowStats.t) : FlowStats.t :=
  if source_idx =? 0 then s
  else
    match FlowStats.source_idx_for orientation s with
    | None =>
        match orientation with
        | Forward => s <| FlowStats.source_idx_forward := Some source_idx |>
        | Reverse => s <| FlowStats.source_idx_reverse := Some source_idx |>
        end
    | Some bound =>
        if negb (bound =? source_idx) then s <| FlowStats.capture_leg_inconsistent := true |>
        else s
    end.

(** Whole-flow inter-arrival time. *)
Definition observe_iat (is_new : bool) (ts : Timestamp.t) (s : FlowStats.t) : FlowStats.t :=
  if is_new then s
  else s <| FlowStats.iat_flow ::= WelfordStats.observe
              (micros_f64 (Timestamp.saturating_sub ts (FlowStats.last_seen s))) |>.

(** Active and idle periods. *)
Definition observe_periods (is_new : bool) (threshold : option Z) (ts : Timestamp.t)
    (s : FlowStats.t) : FlowStats.t :=
  match is_new, threshold with
  | false, Some threshold =>
      let iat_dur := Timestamp.saturating_sub ts (FlowStats.last_seen s) in
      if threshold <? iat_dur then
        let s :=
          match FlowStats.active_period_start s with
          | Some start =>
              s <| FlowStats.active_periods ::= WelfordStats.observe
                     (micros_f64 (Timestamp.saturating_sub (FlowStats.last_seen s) start)) |>
          | None => s
          end in
        s <| FlowStats.idle_periods ::= WelfordStats.observe (micros_f64 iat_dur) |>
          <| FlowStats.active_period_start := Some ts |>
      else s
  | true, _ => s <| FlowStats.active_period_start := Some ts |>
  | false, None => s
  end.

(** Per-direction counters, and [last_seen]. *)
Definition count_packet (side : FlowSide) (len ip_len : Z) (truncated : bool) (ts : Timestamp.t)
    (s : FlowStats.t) : FlowStats.t :=
  let cut := if truncated then 1 else 0 in
  let s :=
    match side with
    | Initiator =>
        let s :=
          if 0 <? FlowStats.packets_initiator s then
            s <| FlowStats.iat_initiator ::= WelfordStats.observe
                   (micros_f64 (Timestamp.saturating_sub ts (FlowStats.last_seen_initiator s))) |>
          else s in
        s <| FlowStats.packets_initiator ::= Z.add 1 |>
          <| FlowStats.bytes_initiator ::= Z.add len |>
          <| FlowStats.ip_bytes_initiator ::= Z.add ip_len |>
          <| FlowStats.packets_truncated_initiator ::= Z.add cut |>
          <| FlowStats.last_seen_initiator := ts |>
    | Responder =>
        let s :=
          if 0 <? FlowStats.packets_responder s then
            s <| FlowStats.iat_responder ::= WelfordStats.observe
                   (micros_f64 (Timestamp.saturating_sub ts (FlowStats.last_seen_responder s))) |>
          else s in
        s <| FlowStats.packets_responder ::= Z.add 1 |>
          <| FlowStats.bytes_responder ::= Z.add len |>
          <| FlowStats.ip_bytes_responder ::= Z.add ip_len |>
          <| FlowStats.packets_truncated_responder ::= Z.add cut |>
          <| FlowStats.last_seen_responder := ts |>
    end in
  s <| FlowStats.last_seen := ts |>.

(** The TCP state machine: the entry, and the transition when the state
    changed. *)
Definition tcp_step {S} (i : TcpInfo.t) (side : FlowSide) (e : FlowEntry.t S)
    : FlowEntry.t S * option Transition :=
  let e := e <| FlowEntry.history ::= fun h =>
             push_for_flags h (TcpInfo.flags i) side (0 <? TcpInfo.wire_len i) |> in
  let prev_state := FlowEntry.state e in
  let other_side_fin :=
    match side with
    | Initiator => FlowStats.fin_responder (FlowEntry.stats e)
    | Responder => FlowStats.fin_initiator (FlowEntry.stats e)
    end in
  let e :=
    if TcpFlags.contains (TcpInfo.flags i) TcpFlags.FIN then
      match side with
      | Initiator => e <| FlowEntry.stats ::= fun s => s <| FlowStats.fin_initiator := true |> |>
      | Responder => e <| FlowEntry.stats ::= fun s => s <| FlowStats.fin_responder := true |> |>
      end
    else e in
  let trans := transition prev_state (TcpInfo.flags i) side other_side_fin in
  if bool_decide (state trans = prev_state) then (e, None)
  else (e <| FlowEntry.state := state trans |>, Some trans).

(** ** The tracker *)
Module FlowTracker.
Section tracker.
Context {K S C : Type} `{EqDecision K} `{!Lru K (FlowEntry.t S) C}.
(** The owner's extractor and the per-flow state initialiser. *)
Variable extract : PacketView.t -> option (Extracted.t K).
Variable init : K -> S.

Record t := mk {
  flows : C;
  config : FlowTrackerConfig.t;
  stats : FlowTrackerStats.t;
  hot : option K;
  idle_timeout_fn : option (K -> option L4Proto -> option Z);
  last_sweep_ts : option Timestamp.t;
  events_paused : bool;
  driver_owned : bool;
  forgotten : Z }.
#[local] Instance eta : Eta t := mk_eta (fun x =>
  mk (flows x) (config x) (stats x) (hot x) (idle_timeout_fn x) (last_sweep_ts x)
     (events_paused x) (driver_owned x) (forgotten x)).

Definition with_config_and_state (config : FlowTrackerConfig.t) : t :=
  mk (with_hasher (Z.max (FlowTrackerConfig.max_flows config) 1)) config
     FlowTrackerStats.default None None None false false 0.
Definition with_state : t := with_config_and_state FlowTrackerConfig.default.

Definition set_driver_owned (owned : bool) (x : t) : t := x <| driver_owned := owned |>.
Definition auto_sweep_due (ts : Timestamp.t) (x : t) : bool :=
  match FlowTrackerConfig.auto_sweep_interval (config x), last_sweep_ts x with
  | None, _ => false
  | Some _, None => true
  | Some interval, Some last =>
      interval <=? sat_sub (Timestamp.to_duration ts) (Timestamp.to_duration last)
  end.
Definition with_auto_sweep (interval : Z) (x : t) : t :=
  x <| config ::= fun c => c <| FlowTrackerConfig.auto_sweep_interval := Some interval |> |>.
Definition pause_events (x : t) : t := x <| events_paused := true |>.
Definition resume_events (x : t) : t := x <| events_paused := false |>.
Definition emits (variant : Z) (x : t) : bool :=
  (driver_owned x && (variant =? EventMask.ENDED))
  || (negb (events_paused x)
      && negb (EventMask.contains (FlowTrackerConfig.suppress_events (config x)) variant)).
(** [if self.emits(variant) { events.push(e) }]. *)
Definition emit (e : FlowEvent K) (x : t) : list (FlowEvent K) :=
  if emits (FlowEvent.variant e) x then [e] else [].

(** [if self.hot.as_ref() == Some(key) { self.hot = None }]. *)
Definition cool (k : K) (x : t) : t :=
  if bool_decide (hot x = Some k) then x <| hot := None |> else x.
Definition ended_event (k : K) (reason : EndReason) (e : FlowEntry.t S) : FlowEvent K :=
  Ended k reason (FlowEntry.stats e) (FlowEntry.history e) (FlowEntry.l4 e).

(** *** Sweep *)
Definition timeout_of (x : t) (k : K) (e : FlowEntry.t S) : Z :=
  let default_timeout :=
    match FlowEntry.l4 e with
    | Some Tcp => FlowTrackerConfig.idle_timeout_tcp (config x)
    | Some Udp => FlowTrackerConfig.idle_timeout_udp (config x)
    | _ => FlowTrackerConfig.idle_timeout_other (config x)
    end in
  match idle_timeout_fn x with
  | Some f => match f k (FlowEntry.l4 e) with Some d => d | None => default_timeout end
  | None => default_timeout
  end.
Definition expired (x : t) (now : Timestamp.t) (k : K) (e : FlowEntry.t S) : bool :=
  timeout_of x k e <=?
    sat_sub (Timestamp.to_duration now)
      (Timestamp.to_duration (FlowStats.last_seen (FlowEntry.stats e))).
Fixpoint expired_keys (x : t) (now : Timestamp.t) (l : list (K * FlowEntry.t S)) : list K :=
  match l with
  | [] => []
  | (k, e) :: l => (if expired x now k e then [k] else []) ++ expired_keys x now l
  end.
(** The body of the second loop, for one expired key. *)
Definition end_idle (x : t) (k : K) : t * list (FlowEvent K) :=
  let '(flows', popped) := pop k (flows x) in
  let x := x <| flows := flows' |> in
  match popped with
  | None => (x, [])
  | Some e =>
      match FlowEntry.state e with
      | Closed | Reset_ => (x, [])
      | _ =>
          let x := cool k x in
          let evs := emit (ended_event k IdleTimeout e) x in
          (x <| stats ::= fun s => s <| FlowTrackerStats.flows_ended ::= Z.add 1 |> |>, evs)
      end
  end.
Fixpoint end_idle_all (x : t) (ks : list K) : t * list (FlowEvent K) :=
  match ks with
  | [] => (x, [])
  | k :: ks =>
      let '(x, evs) := end_idle x k in
      let '(x, evs') := end_idle_all x ks in
      (x, evs ++ evs')
  end.
Definition sweep (now : Timestamp.t) (x : t) : t * list (FlowEvent K) :=
  let x := x <| last_sweep_ts := Some now |> in
  end_idle_all x (expired_keys x now (iter (flows x))).
Definition finish (x : t) : t * list (FlowEvent K) := sweep Timestamp.MAX x.

Definition force_close (k : K) (now : Timestamp.t) (x : t) : t * option (FlowEvent K) :=
  let '(flows', popped) := pop k (flows x) in
  match popped with
  | None => (x <| flows := flows' |>, None)
  | Some e =>
      let x := cool k (x <| flows := flows' |>) in
      (x <| stats ::= fun s => s <| FlowTrackerStats.flows_ended ::= Z.add 1 |> |>,
       Some (ended_event k ForceClosed e))
  end.
Definition forget (k : K) (x : t) : t * bool :=
  let '(flows', popped) := pop k (flows x) in
  let x := x <| flows := flows' |> in
  match popped with
  | Some _ => (cool k (x <| forgotten ::= Z.add 1 |>), true)
  | None => (x, false)
  end.
Definition set_config (c : FlowTrackerConfig.t) (x : t) : t :=
  x <| flows ::= resize (Z.max (FlowTrackerConfig.max_flows c) 1) |>
    <| config := c |> <| hot := None |>.
Definition set_idle_timeout_fn (f : K -> option L4Proto -> option Z) (x : t) : t :=
  x <| idle_timeout_fn := Some f |>.
Definition clear_idle_timeout_fn (x : t) : t := x <| idle_timeout_fn := None |>.

(** *** Queries *)
Definition get (k : K) (x : t) : option (FlowEntry.t S) := peek k (flows x).
Definition flow_count (x : t) : Z := len (flows x).
Definition snapshot_stats (k : K) (x : t) : option FlowStats.t := FlowEntry.stats <$> peek k (flows x).
Definition snapshot_history (k : K) (x : t) : option (list Z) := FlowEntry.history <$> peek k (flows x).
Definition snapshot_l4 (k : K) (x : t) : option L4Proto := peek k (flows x) ≫= FlowEntry.l4.
Definition iter_active (x : t) : list (ActiveFlow.t K S) :=
  (fun ke => ActiveFlow.mk ke.1 (FlowEntry.stats ke.2) (FlowEntry.user ke.2)
               (FlowEntry.state ke.2) (FlowEntry.l4 ke.2)) <$> iter (flows x).
Definition mark_ticked (k : K) (now : Timestamp.t) (x : t) : t * bool :=
  match peek k (flows x) with
  | Some _ =>
      (x <| flows ::= peek_mut k (fun e => e <| FlowEntry.last_tick_at := Some now |>) |>, true)
  | None => (x, false)
  end.

(** *** The packet path *)

(** Extraction, with the snap cut applied and lying headers refused. *)
Definition admit_packet (view : PacketView.t) : option (Extracted.t K) :=
  match extract view with
  | None => None
  | Some e =>
      if 0 <? PacketView.snap_cut view then
        let cut := PacketView.snap_cut view in
        Some (e <| Extracted.tcp ::= fmap (fun i => i <| TcpInfo.wire_payload_len :=
                     Z.min (TcpInfo.wire_payload_len i) (sat_add (TcpInfo.payload_len i) cut) |>) |>
                <| Extracted.l4_meta ::= fmap (fun m => m <| L4Meta.wire_payload_len :=
                     Z.min (L4Meta.wire_payload_len m) (sat_add (L4Meta.payload_len m) cut) |>) |>)
      else if PacketView.wire_len_known view && Extracted.is_truncated e then None
      else Some e
  end.

(** What the packet contributes to the accounting. *)
Definition header_cut (e : Extracted.t K) : Z :=
  Z.max (match Extracted.tcp e with
         | Some i => TcpInfo.wire_len i - TcpInfo.payload_len i | None => 0 end)
        (match Extracted.l4_meta e with
         | Some m => sat_sub (L4Meta.wire_payload_len m) (L4Meta.payload_len m) | None => 0 end).
Definition packet_len (view : PacketView.t) (e : Extracted.t K) : Z :=
  Z.max (PacketView.wire_len view) (sat_add (zlen (PacketView.frame view)) (header_cut e)).
Definition packet_ip_len (view : PacketView.t) (e : Extracted.t K) : Z :=
  match Extracted.l3_len e with
  | Some l => Z.min l (packet_len view e)
  | None => packet_len view e
  end.
Definition packet_truncated (view : PacketView.t) (e : Extracted.t K) : bool :=
  PacketView.is_truncated view || Extracted.is_truncated e.
Definition tcp_payload_of (view : PacketView.t) (tcp : option TcpInfo.t) : list Z :=
  match tcp with
  | Some i =>
      if 0 <? TcpInfo.payload_len i then
        let start := TcpInfo.payload_offset i in
        or_empty (get_range (PacketView.frame view) start (start + TcpInfo.payload_len i))
      else []
  | None => []
  end.

(** The entry of a new flow, and the canonical direction of its
    initiator. *)
Definition initiator_of (x : t) (e : Extracted.t K) : Orientation * bool :=
  if FlowTrackerConfig.infer_tcp_initiator (config x) then
    match Extracted.tcp e with
    | Some i =>
        if TcpFlags.contains (TcpInfo.flags i) TcpFlags.SYN
           && TcpFlags.contains (TcpInfo.flags i) TcpFlags.ACK
        then (flipped (Extracted.orientation e), true)
        else (Extracted.orientation e, false)
    | None => (Extracted.orientation e, false)
    end
  else (Extracted.orientation e, false).
Definition new_entry (x : t) (e : Extracted.t K) (ts : Timestamp.t) : FlowEntry.t S :=
  let '(init_orientation, direction_flipped) := initiator_of x e in
  FlowEntry.mk
    (FlowStats.default <| FlowStats.started := ts |> <| FlowStats.last_seen := ts |>
       <| FlowStats.initiator_orientation := init_orientation |>
       <| FlowStats.direction_flipped := direction_flipped |>)
    Active [] (init (Extracted.key e)) init_orientation (Extracted.l4 e) None.

(** Creating the flow: the insertion, the eviction it may cause, and the
    events of both. *)
Definition start_flow (e : Extracted.t K) (ts : Timestamp.t) (x : t) : t * list (FlowEvent K) :=
  let k := Extracted.key e in
  let entry := new_entry x e ts in
  let '(flows', evicted) := push k entry (flows x) in
  let x := x <| flows := flows' |> in
  let '(x, evs) :=
    match evicted with
    | Some (ek, ee) =>
        if bool_decide (ek = k) then (x, [])
        else
          let x := cool ek x in
          let evs := emit (ended_event ek Evicted ee) x in
          (x <| stats ::= fun s => s <| FlowTrackerStats.flows_evicted ::= Z.add 1 |>
                                     <| FlowTrackerStats.flows_ended ::= Z.add 1 |> |>, evs)
    | None => (x, [])
    end in
  let x := x <| stats ::= fun s => s <| FlowTrackerStats.flows_created ::= Z.add 1 |> |> in
  let side :=
    if decide (Extracted.orientation e = FlowEntry.initiator_orientation entry)
    then Initiator else Responder in
  (x, evs ++ emit (Started k side (Extracted.orientation e) ts (Extracted.l4 e)) x).

(** The entry after the packet, with the transition of its TCP state. *)
Definition update_entry (x : t) (view : PacketView.t) (e : Extracted.t K) (is_new : bool)
    (entry : FlowEntry.t S) : FlowEntry.t S * option Transition :=
  let side := FlowEntry.side_for (Extracted.orientation e) entry in
  let ts := PacketView.timestamp view in
  let entry :=
    entry <| FlowEntry.stats ::= fun s =>
      count_packet side (packet_len view e) (packet_ip_len view e) (packet_truncated view e) ts
        (observe_periods is_new (FlowTrackerConfig.active_idle_threshold (config x)) ts
          (observe_iat is_new ts
            (bind_leg (Extracted.orientation e) (PacketView.source_idx view) s))) |> in
  match Extracted.tcp e with
  | Some i => tcp_step i side entry
  | None => (entry, None)
  end.

Definition transition_events (k : K) (from : FlowState) (ts : Timestamp.t) (l4 : option L4Proto)
    (tr : option Transition) (x : t) : list (FlowEvent K) :=
  match tr with
  | Some tr =>
      if became_established tr then emit (Established_ k ts l4) x
      else emit (StateChange k from (state tr) ts) x
  | None => []
  end.

(** Terminal-state cleanup. *)
Definition close_or_keep (k : K) (x : t) : t * list (FlowEvent K) :=
  match FlowEntry.state <$> peek k (flows x) with
  | Some st =>
      if is_terminal st then
        let reason := match st with Reset_ => Rst | Closed => Fin | _ => Fin end in
        let '(flows', removed) := pop k (flows x) in
        let x := x <| flows := flows' |> in
        match removed with
        | Some e =>
            let x := cool k x in
            let evs := emit (ended_event k reason e) x in
            (x <| stats ::= fun s => s <| FlowTrackerStats.flows_ended ::= Z.add 1 |> |>, evs)
        | None => (x, [])
        end
      else (x <| hot := Some k |>, [])
  | None => (x <| hot := Some k |>, [])
  end.

(** The auto-sweep at the end of the packet path. *)
Definition auto_sweep (ts : Timestamp.t) (x : t) : t * list (FlowEvent K) :=
  if negb (driver_owned x) && auto_sweep_due ts x then sweep ts x else (x, []).

Definition context_of (view : PacketView.t) (e : Extracted.t K) (side : FlowSide) (is_new : bool)
    : PacketContext.t K :=
  PacketContext.mk (Extracted.key e) side (Extracted.orientation e) (Extracted.l4 e)
    (Extracted.tcp e) (tcp_payload_of view (Extracted.tcp e))
    (Extracted.l4_meta e ≫= L4Meta.ports)
    (L4Meta.payload (PacketView.frame view) <$> Extracted.l4_meta e)
    (PacketView.timestamp view) (packet_len view e) is_new (Extracted.l4_meta e)
    (zlen (PacketView.frame view)) (packet_truncated view e).

Definition track_with (view : PacketView.t) (x : t)
    : option (t * list (FlowEvent K) * option (PacketContext.t K)) :=
  match admit_packet view with
  | None =>
      Some (x <| stats ::= fun s => s <| FlowTrackerStats.packets_unmatched ::= Z.add 1 |> |>,
            [], None)
  | Some e =>
      let k := Extracted.key e in
      let ts := PacketView.timestamp view in
      let hot_hit := bool_decide (hot x = Some k) in
      let is_new := negb hot_hit && negb (contains k (flows x)) in
      let '(x, evs1) := if is_new then start_flow e ts x else (x, []) in
      match peek k (flows x) with
      | None => None
      | Some entry =>
          let side := FlowEntry.side_for (Extracted.orientation e) entry in
          let ctx := context_of view e side is_new in
          let '(entry', tr) := update_entry x view e is_new entry in
          let x := x <| flows ::= get_mut k (fun _ => entry') |> in
          let evs2 := transition_events k (FlowEntry.state entry) ts (FlowEntry.l4 entry') tr x in
          let packet_source_idx :=
            if FlowTrackerConfig.emit_packet_source_idx (config x)
               && negb (PacketView.source_idx view =? 0)
            then Some (PacketView.source_idx view) else None in
          let evs3 :=
            emit (Packet k side (Extracted.orientation e) (packet_len view e) ts packet_source_idx) x in
          let '(x, evs4) := close_or_keep k x in
          let '(x, evs5) := auto_sweep ts x in
          Some (x, evs1 ++ evs2 ++ evs3 ++ evs4 ++ evs5, Some ctx)
      end
  end.

Definition track (view : PacketView.t) (x : t) : option (t * list (FlowEvent K)) :=
  match track_with view x with Some (x, evs, _) => Some (x, evs) | None => None end.
(** The segment [track_with_payload] hands to its callback. *)
Definition track_with_payload (view : PacketView.t) (x : t)
    : option (t * list (FlowEvent K) * option (K * FlowSide * Z * list Z)) :=
  match track_with view x with
  | Some (x, evs, ctx) =>
      Some (x, evs,
        match ctx with
        | Some c =>
            match PacketContext.tcp c with
            | Some i =>
                if negb (is_nil (PacketContext.tcp_payload c))
                then Some (PacketContext.key c, PacketContext.side c, TcpInfo.seq i,
                           PacketContext.tcp_payload c)
                else None
            | None => None
            end
        | None => None
        end)
  | None => None
  end.
End tracker.
#[global] Arguments t : clear implicits.
End FlowTracker.
