(* ===== verification/TrackerFacts.v ===== *)
(** * The tracker's invariant and its event ledger

    [Call] is everything an owner can ask of a tracker and [run] a session.
    [inv] is the invariant of every reachable tracker.  [ledger] replays an
    event stream and keeps, per live flow, what the events said about it;
    it refuses a stream that a tracker should never produce. *)

From stdpp Require Import sets.
From S2P Require Import Prelude Time Flow Config TcpState Packet Welford Event Lru Tracker.
Open Scope Z_scope.
Import FlowTracker.

(** ** The ledger *)
Module Tally.
Record t := mk {
  started : Timestamp.t; last_seen : Timestamp.t; l4 : option L4Proto;
  packets_initiator : Z; packets_responder : Z;
  bytes_initiator : Z; bytes_responder : Z }.
#[global] Instance eta : Eta t := mk_eta (fun s =>
  mk (started s) (last_seen s) (l4 s) (packets_initiator s) (packets_responder s)
     (bytes_initiator s) (bytes_responder s)).
#[global] Instance eq_dec : EqDecision t.
Proof. solve_decision. Defined.

Definition start (ts : Timestamp.t) (l4 : option L4Proto) : t := mk ts ts l4 0 0 0 0.
Definition packet (side : FlowSide) (len : Z) (ts : Timestamp.t) (s : t) : t :=
  match side with
  | Initiator =>
      s <| packets_initiator ::= Z.add 1 |> <| bytes_initiator ::= Z.add len |> <| last_seen := ts |>
  | Responder =>
      s <| packets_responder ::= Z.add 1 |> <| bytes_responder ::= Z.add len |> <| last_seen := ts |>
  end.
(** What an entry or an [Ended] event says. *)
Definition of_stats (s : FlowStats.t) (l4 : option L4Proto) : t :=
  mk (FlowStats.started s) (FlowStats.last_seen s) l4
     (FlowStats.packets_initiator s) (FlowStats.packets_responder s)
     (FlowStats.bytes_initiator s) (FlowStats.bytes_responder s).
End Tally.

Section ledger.
Context {K : Type} `{EqDecision K}.
Definition Ledger : Type := list (K * Tally.t).

Definition ledger_step (T : Ledger) (e : FlowEvent K) : option Ledger :=
  match e with
  | Started k _ _ ts l4 =>
      if is_some (entry k T) then None else Some ((k, Tally.start ts l4) :: T)
  | Packet k side _ len ts _ =>
      if is_some (entry k T) then Some (modify k (Tally.packet side len ts) T) else None
  | Established_ k _ _ | StateChange k _ _ _ => if is_some (entry k T) then Some T else None
  | Ended k reason stats _ l4 =>
      if EndReason.is_transport reason
         && bool_decide (entry k T = Some (Tally.of_stats stats l4))
      then Some (without k T) else None
  | FlowAnomaly _ _ _ | TrackerAnomaly _ _ | Tick _ _ _ => None
  end.
Fixpoint ledger (T : Ledger) (es : list (FlowEvent K)) : option Ledger :=
  match es with
  | [] => Some T
  | e :: es => match ledger_step T e with Some T => ledger T es | None => None end
  end.
Lemma ledger_app es1 es2 : forall T,
  ledger T (es1 ++ es2) = match ledger T es1 with Some T => ledger T es2 | None => None end.
Proof. induction es1 as [|e es1 IH]; intros T; cbn; [done|]. by destruct (ledger_step T e). Qed.
End ledger.
#[global] Arguments Ledger : clear implicits.

Section tracker_facts.
Context {K S C : Type} `{EqDecision K} `{!Lru K (FlowEntry.t S) C, !LruLaws K (FlowEntry.t S) C}.
Variable extract : PacketView.t -> option (Extracted.t K).
Variable init : K -> S.
Notation tracker := (FlowTracker.t K C).
Implicit Types x : tracker.
#[local] Existing Instance FlowTracker.eta.

(** ** Sessions *)
Inductive Call :=
  | CTrack (view : PacketView.t) | CSweep (now : Timestamp.t) | CFinish
  | CForceClose (k : K) (now : Timestamp.t) | CForget (k : K)
  | CPause | CResume | CSetConfig (c : FlowTrackerConfig.t) | CAutoSweep (interval : Z)
  | CSetIdleTimeout (f : K -> option L4Proto -> option Z) | CClearIdleTimeout
  | CMarkTicked (k : K) (now : Timestamp.t).

Definition step (c : Call) (x : tracker) : option (tracker * list (FlowEvent K)) :=
  match c with
  | CTrack view => track extract init view x
  | CSweep now => Some (sweep now x)
  | CFinish => Some (finish x)
  | CForceClose k now => let '(x, e) := force_close k now x in Some (x, option_list e)
  | CForget k => Some ((forget k x).1, [])
  | CPause => Some (pause_events x, [])
  | CResume => Some (resume_events x, [])
  | CSetConfig c => Some (set_config c x, [])
  | CAutoSweep i => Some (with_auto_sweep i x, [])
  | CSetIdleTimeout f => Some (set_idle_timeout_fn f x, [])
  | CClearIdleTimeout => Some (clear_idle_timeout_fn x, [])
  | CMarkTicked k now => Some ((mark_ticked k now x).1, [])
  end.
Fixpoint run (cs : list Call) (x : tracker) : option (tracker * list (FlowEvent K)) :=
  match cs with
  | [] => Some (x, [])
  | c :: cs =>
      match step c x with
      | Some (x, evs) =>
          match run cs x with Some (x, evs') => Some (x, evs ++ evs') | None => None end
      | None => None
      end
  end.

(** ** The invariant *)
Notation table x := (iter (flows x)).
Notation live x := ((table x).*1).

Record inv (x : tracker) : Prop := {
  inv_nodup : NoDup (live x);
  inv_cap : cap (flows x) = Z.max (FlowTrackerConfig.max_flows (config x)) 1;
  inv_bound : zlen (table x) <= cap (flows x);
  inv_hot k : hot x = Some k -> k ∈ live x;
  inv_running : Forall (fun ke => is_terminal (FlowEntry.state ke.2) = false) (table x) }.

(** Created flows are live, ended, forgotten or dropped by a smaller
    configuration; this counts the last. *)
Definition dropped (x : tracker) : Z :=
  FlowTrackerStats.flows_created (stats x) - FlowTrackerStats.flows_ended (stats x)
  - forgotten x - zlen (table x).

Definition unfiltered (x : tracker) : Prop :=
  events_paused x = false /\ FlowTrackerConfig.suppress_events (config x) = EventMask.empty.

(** The ledger of an event stream that describes the flows of [x]. *)
Definition describes (T : Ledger K) (x : tracker) : Prop :=
  NoDup (T.*1) /\
  forall k, entry k T = (fun e => Tally.of_stats (FlowEntry.stats e) (FlowEntry.l4 e)) <$> entry k (table x).

(** ** One stage at a time

    [core] is the invariant without the states of the flows, which the
    packet path restores only at its end.  [sound x es x'] is what every
    stage guarantees. *)
Record core (x : tracker) : Prop := {
  core_nodup : NoDup (live x);
  core_cap : cap (flows x) = Z.max (FlowTrackerConfig.max_flows (config x)) 1;
  core_bound : zlen (table x) <= cap (flows x);
  core_hot k : hot x = Some k -> k ∈ live x }.

Record sound (x : tracker) (es : list (FlowEvent K)) (x' : tracker) : Prop := {
  sound_core : core x';
  sound_config : config x' = config x;
  sound_paused : events_paused x' = events_paused x;
  sound_owned : driver_owned x' = driver_owned x;
  sound_dropped : dropped x' = dropped x;
  sound_ledger T : unfiltered x -> describes T x ->
    exists T', ledger T es = Some T' /\ describes T' x' }.

Lemma inv_core x : inv x -> core x.
Proof. by intros []; split. Qed.

Lemma sound_unfiltered x es x' : sound x es x' -> unfiltered x -> unfiltered x'.
Proof. unfold unfiltered. intros [_ Hc Hp _ _ _]. by rewrite Hc, Hp. Qed.

Lemma sound_refl x : core x -> sound x [] x.
Proof. intros H. split; try done. intros T _ HT. by exists T. Qed.
Lemma sound_trans x es1 x1 es2 x2 : sound x es1 x1 -> sound x1 es2 x2 -> sound x (es1 ++ es2) x2.
Proof.
  intros H1 H2. pose proof (sound_unfiltered _ _ _ H1) as Hu.
  destruct H1 as [C1 E1 P1 O1 D1 L1], H2 as [C2 E2 P2 O2 D2 L2].
  split; [done|congruence..|]. intros T HU HT.
  destruct (L1 T HU HT) as (T1 & R1 & HT1). destruct (L2 T1 (Hu HU) HT1) as (T2 & R2 & HT2).
  exists T2. by rewrite ledger_app, R1.
Qed.

Lemma emits_unfiltered x v : 0 < v -> unfiltered x -> emits v x = true.
Proof.
  unfold emits, unfiltered, EventMask.contains, EventMask.empty. intros Hv [-> ->].
  rewrite Z.land_0_l. destruct (Z.eqb_spec 0 v); [lia|]. apply orb_true_r.
Qed.
Lemma variant_pos (e : FlowEvent K) : 0 < FlowEvent.variant e.
Proof. by destruct e. Qed.
Lemma emit_unfiltered x e : unfiltered x -> emit e x = [e].
Proof.
  intros H. unfold emit. by rewrite emits_unfiltered by (done || apply variant_pos).
Qed.

(** An event that only refers to a live flow. *)
Lemma ledger_live x T k : describes T x -> k ∈ live x -> is_some (entry k T) = true.
Proof.
  intros [_ H] Hk. rewrite H. destruct (entry k (table x)) eqn:E; [done|].
  by apply entry_None in E.
Qed.

(** A flow ends: its entry leaves the table. *)
Lemma sound_ended x x' k e reason : core x -> entry k (table x) = Some e ->
  EndReason.is_transport reason = true -> core x' ->
  (forall k', entry k' (table x') = if decide (k' = k) then None else entry k' (table x)) ->
  zlen (table x') = zlen (table x) - 1 ->
  config x' = config x -> events_paused x' = events_paused x ->
  driver_owned x' = driver_owned x -> forgotten x' = forgotten x ->
  FlowTrackerStats.flows_created (stats x') = FlowTrackerStats.flows_created (stats x) ->
  FlowTrackerStats.flows_ended (stats x') = FlowTrackerStats.flows_ended (stats x) + 1 ->
  forall x1, (unfiltered x -> unfiltered x1) ->
  sound x (emit (ended_event k reason e) x1) x'.
Proof.
  intros _ Ek Hr Hc Ht Hz Hcf Hp Ho Hf Hcr He x1 Hx1. split; [done..| |].
  - unfold dropped. lia.
  - intros T HU [Hn HT]. rewrite emit_unfiltered by auto. exists (without k T). cbn. rewrite Hr, HT, Ek. cbn.
    rewrite bool_decide_true by done. split; [done|]. split; [by apply nodup_without|].
    intros k'. rewrite entry_without, Ht, HT by done. by case_decide.
Qed.

(** ** Ending flows *)
Lemma cool_flows k x : flows (cool k x) = flows x.
Proof. unfold cool. by case_bool_decide. Qed.
Lemma cool_config k x : config (cool k x) = config x.
Proof. unfold cool. by case_bool_decide. Qed.
Lemma cool_paused k x : events_paused (cool k x) = events_paused x.
Proof. unfold cool. by case_bool_decide. Qed.
Lemma cool_owned k x : driver_owned (cool k x) = driver_owned x.
Proof. unfold cool. by case_bool_decide. Qed.
Lemma cool_stats k x : stats (cool k x) = stats x.
Proof. unfold cool. by case_bool_decide. Qed.
Lemma cool_forgotten k x : forgotten (cool k x) = forgotten x.
Proof. unfold cool. by case_bool_decide. Qed.
Lemma cool_hot k x k' : hot (cool k x) = Some k' -> hot x = Some k' /\ k' <> k.
Proof. unfold cool. case_bool_decide; cbn; naive_solver. Qed.
Hint Rewrite cool_flows cool_config cool_paused cool_owned cool_stats cool_forgotten : cool.
Ltac tsimpl := unfold_upd; cbn; autorewrite with cool; cbn; autorewrite with lru; cbn.

(** The entry of [k] is popped and counted as ended. *)
Definition gone (k : K) x : tracker :=
  let x := cool k (x <| flows := (pop k (flows x)).1 |>) in
  x <| stats ::= fun s => s <| FlowTrackerStats.flows_ended ::= Z.add 1 |> |>.

Lemma core_gone k x e : core x -> entry k (table x) = Some e -> core (gone k x).
Proof.
  intros [Hn Hc Hb Hh] E. split; unfold gone; tsimpl; [by apply nodup_without|done| |].
  - rewrite (zlen_without _ _ e) by done. lia.
  - intros k'. unfold_upd. cbn. intros [Hk Hne]%cool_hot. cbn in Hk. apply Hh in Hk.
    destruct (entry k' (table x)) as [e'|] eqn:E'; [|by apply entry_None in E'].
    apply (entry_Some_key _ _ e'). rewrite entry_without by done. by rewrite decide_False by done.
Qed.

Lemma sound_gone k x e reason x1 : core x -> entry k (table x) = Some e ->
  EndReason.is_transport reason = true -> (unfiltered x -> unfiltered x1) ->
  sound x (emit (ended_event k reason e) x1) (gone k x).
Proof.
  intros Hc E Hr Hx. apply sound_ended; try done.
  - by eapply core_gone.
  - intros k'. unfold gone. tsimpl. apply entry_without, Hc.
  - unfold gone. tsimpl. by eapply zlen_without.
  - unfold gone. by tsimpl.
  - unfold gone. by tsimpl.
  - unfold gone. by tsimpl.
  - unfold gone. by tsimpl.
  - unfold gone. by tsimpl.
  - unfold gone. tsimpl. lia.
Qed.

(** Popping a key that is not there changes nothing that matters. *)
Lemma sound_same_table x x' : core x -> table x' = table x -> cap (flows x') = cap (flows x) ->
  config x' = config x -> events_paused x' = events_paused x -> driver_owned x' = driver_owned x ->
  (forall k, hot x' = Some k -> k ∈ live x) -> dropped x' = dropped x ->
  sound x [] x'.
Proof.
  intros [Hn Hc Hb Hh] Ht Hcap Hcf Hp Ho Hhot Hd. split; try done.
  - split; rewrite ?Ht, ?Hcap, ?Hcf; done.
  - intros T _ [HT1 HT2]. exists T. split; [done|]. split; [done|]. intros k. by rewrite Ht.
Qed.

Lemma end_idle_eq x k :
  end_idle x k =
    match entry k (table x) with
    | None => (x <| flows := (pop k (flows x)).1 |>, [])
    | Some e =>
        match FlowEntry.state e with
        | Closed | Reset_ => (x <| flows := (pop k (flows x)).1 |>, [])
        | _ => (gone k x, emit (ended_event k IdleTimeout e)
                            (cool k (x <| flows := (pop k (flows x)).1 |>)))
        end
    end.
Proof.
  unfold end_idle, gone. rewrite (surjective_pairing (pop k (flows x))), pop_result.
  destruct (entry k (table x)) as [e|]; [|done]. by destruct (FlowEntry.state e).
Qed.

Definition running x : Prop :=
  Forall (fun ke => is_terminal (FlowEntry.state ke.2) = false) (table x).

Lemma running_entry x k e : running x -> entry k (table x) = Some e ->
  is_terminal (FlowEntry.state e) = false.
Proof.
  unfold running. rewrite Forall_forall. intros H E. by apply (H (k, e)), entry_elem.
Qed.
Lemma running_gone k x : running x -> running (gone k x).
Proof. unfold running, gone. tsimpl. apply Forall_without. Qed.

Lemma end_idle_sound x k e : core x -> running x -> entry k (table x) = Some e ->
  end_idle x k = (gone k x, emit (ended_event k IdleTimeout e) x) /\
  sound x (emit (ended_event k IdleTimeout e) x) (gone k x) /\ running (gone k x).
Proof.
  intros Hc Hr E. pose proof (running_entry _ _ _ Hr E) as Ht.
  split; [|split; [by eapply sound_gone|by apply running_gone]].
  rewrite end_idle_eq, E. destruct (FlowEntry.state e); try done; f_equal;
    unfold emit, emits; by tsimpl.
Qed.

(** ** The sweep *)
Lemma emit_same e x x' : config x' = config x -> events_paused x' = events_paused x ->
  driver_owned x' = driver_owned x -> emit e x' = emit e x.
Proof. unfold emit, emits. by intros -> -> ->. Qed.

Definition idle_events x (l : list (K * FlowEntry.t S)) : list (FlowEvent K) :=
  concat ((fun ke => emit (ended_event ke.1 IdleTimeout ke.2) x) <$> l).
Definition drop_keys (ks : list K) (l : list (K * FlowEntry.t S)) := fold_left (fun l k => without k l) ks l.

Lemma idle_events_same x x' l : config x' = config x -> events_paused x' = events_paused x ->
  driver_owned x' = driver_owned x -> idle_events x' l = idle_events x l.
Proof. intros. unfold idle_events. f_equal. apply list_fmap_ext. intros. by apply emit_same. Qed.

Lemma end_idle_all_spec l : forall x, core x -> running x -> NoDup (l.*1) ->
  (forall k e, (k, e) ∈ l -> entry k (table x) = Some e) ->
  let r := end_idle_all x (l.*1) in
  sound x r.2 r.1 /\ running r.1 /\ r.2 = idle_events x l /\
  table r.1 = drop_keys (l.*1) (table x) /\ last_sweep_ts r.1 = last_sweep_ts x /\
  FlowTrackerStats.flows_ended (stats r.1) = FlowTrackerStats.flows_ended (stats x) + zlen l.
Proof.
  induction l as [|[k e] l IH]; intros x Hc Hr Hn Hl; cbn -[Z.add].
  { split_and!; try done; [by apply sound_refl|]. unfold zlen. cbn. lia. }
  apply NoDup_cons in Hn as [Hk Hn].
  assert (entry k (table x) = Some e) as E by (apply Hl; left).
  destruct (end_idle_sound x k e Hc Hr E) as (-> & Hs & Hr').
  assert (core (gone k x)) as Hc' by apply Hs.
  destruct (IH (gone k x) Hc' Hr' Hn) as (S2 & R2 & E2 & T2 & L2 & F2).
  { intros k' e' Hin. unfold gone. tsimpl. rewrite entry_without by apply Hc.
    rewrite decide_False; [apply Hl; by right|]. intros ->. apply Hk, list_elem_of_fmap. by exists (k, e'). }
  cbn in *. rewrite (surjective_pairing (end_idle_all (gone k x) (l.*1))). cbn.
  split_and!; try done.
  - by eapply sound_trans.
  - rewrite E2, (idle_events_same x) by (unfold gone; by tsimpl). done.
  - rewrite T2. unfold gone. by tsimpl.
  - rewrite L2. unfold gone. tsimpl. unfold cool. by case_bool_decide.
  - rewrite F2. unfold gone. tsimpl. rewrite zlen_cons. lia.
Qed.

Definition expired_at x now (ke : K * FlowEntry.t S) : bool := expired x now ke.1 ke.2.
Definition idle_flows x now l := List.filter (expired_at x now) l.
Definition busy_flows x now l := List.filter (fun ke => negb (expired_at x now ke)) l.

Lemma idle_cons x now ke l : idle_flows x now (ke :: l) =
  if expired_at x now ke then ke :: idle_flows x now l else idle_flows x now l.
Proof. done. Qed.
Lemma busy_cons x now ke l : busy_flows x now (ke :: l) =
  if expired_at x now ke then busy_flows x now l else ke :: busy_flows x now l.
Proof. unfold busy_flows. cbn. by destruct (expired_at x now ke). Qed.
#[local] Arguments idle_flows : simpl never.
#[local] Arguments busy_flows : simpl never.

Lemma expired_keys_eq x now l : expired_keys x now l = (idle_flows x now l).*1.
Proof.
  induction l as [|[k e] l IH]; cbn; [done|]. rewrite idle_cons, IH. unfold expired_at. cbn.
  by destruct (expired x now k e).
Qed.
Lemma drop_keys_cons ks k e l : k ∉ ks -> drop_keys ks ((k, e) :: l) = (k, e) :: drop_keys ks l.
Proof.
  revert l. induction ks as [|k' ks IH]; intros l; cbn; [done|].
  rewrite not_elem_of_cons. intros [Hk Hks]. rewrite decide_False by done. by apply IH.
Qed.
Lemma idle_flows_keys x now l : (idle_flows x now l).*1 ⊆ l.*1.
Proof.
  intros k. rewrite !list_elem_of_fmap. intros (ke & -> & Hin). exists ke. split; [done|].
  apply list_elem_of_In in Hin. apply list_elem_of_In. by apply filter_In in Hin as [].
Qed.
Lemma drop_idle x now l : NoDup (l.*1) ->
  drop_keys ((idle_flows x now l).*1) l = busy_flows x now l.
Proof.
  induction l as [|[k e] l IH]; cbn; [done|]. rewrite NoDup_cons, idle_cons, busy_cons. intros [Hk Hl].
  destruct (expired_at x now (k, e)); cbn.
  - rewrite decide_True by done. by apply IH.
  - rewrite drop_keys_cons, IH; [done..|]. intros Hin. by apply Hk, (idle_flows_keys x now).
Qed.
Lemma nodup_idle x now l : NoDup (l.*1) -> NoDup ((idle_flows x now l).*1).
Proof.
  induction l as [|[k e] l IH]; cbn; [constructor|]. rewrite NoDup_cons, idle_cons. intros [Hk Hl].
  destruct (expired_at x now (k, e)); cbn; [|by apply IH]. rewrite NoDup_cons.
  split; [|by apply IH]. intros Hin. by apply Hk, (idle_flows_keys x now).
Qed.

(** A sweep ends exactly the flows that are idle. *)
Lemma sweep_spec x now : core x -> running x ->
  let r := sweep now x in
  sound x r.2 r.1 /\ running r.1 /\
  r.2 = idle_events x (idle_flows x now (table x)) /\
  table r.1 = busy_flows x now (table x) /\ last_sweep_ts r.1 = Some now /\
  FlowTrackerStats.flows_ended (stats r.1)
    = FlowTrackerStats.flows_ended (stats x) + zlen (idle_flows x now (table x)).
Proof.
  intros Hc Hr. unfold sweep. set (x1 := x <| last_sweep_ts := Some now |>).
  assert (expired_keys x1 now (iter (flows x1)) = expired_keys x now (table x)) as ->.
  { change (iter (flows x1)) with (table x). by induction (table x) as [|[k e] l IH]; cbn; [|rewrite IH]. }
  rewrite expired_keys_eq. set (l := idle_flows x now (table x)).
  assert (sound x [] x1) as Hs.
  { apply sound_same_table; try done. intros k Hk. by apply Hc. }
  destruct (end_idle_all_spec l x1) as (S2 & R2 & E2 & T2 & L2 & F2).
  - apply Hs.
  - done.
  - apply nodup_idle, Hc.
  - intros k e Hin. apply elem_entry; [apply Hc|].
    apply list_elem_of_In in Hin. apply filter_In in Hin as [Hin _]. by apply list_elem_of_In.
  - split_and!; try done.
    + exact (sound_trans _ _ _ _ _ Hs S2).
    + rewrite T2. apply drop_idle, Hc.
Qed.

(** ** The packet path *)
Lemma side_for_new e x ts : (if decide (Extracted.orientation e = FlowEntry.initiator_orientation (new_entry init x e ts))
  then Initiator else Responder) = FlowEntry.side_for (Extracted.orientation e) (new_entry init x e ts).
Proof. done. Qed.

Lemma new_entry_tally x e ts : Tally.of_stats (FlowEntry.stats (new_entry init x e ts)) (FlowEntry.l4 (new_entry init x e ts))
  = Tally.start ts (Extracted.l4 e).
Proof. unfold new_entry. by destruct (initiator_of x e). Qed.
Lemma new_entry_state x e ts : FlowEntry.state (new_entry init x e ts) = Active.
Proof. unfold new_entry. by destruct (initiator_of x e). Qed.

(** [start_flow], one case per outcome of the insertion. *)
Definition created x : tracker :=
  x <| stats ::= fun s => s <| FlowTrackerStats.flows_created ::= Z.add 1 |> |>.
Definition evicted_one (ek : K) x : tracker :=
  (cool ek x) <| stats ::= fun s => s <| FlowTrackerStats.flows_evicted ::= Z.add 1 |>
                                      <| FlowTrackerStats.flows_ended ::= Z.add 1 |> |>.

Inductive started (k : K) (v : FlowEntry.t S) x : tracker -> list (FlowEvent K) -> Prop :=
  | started_room x' : table x' = (k, v) :: table x -> zlen (table x) < cap (flows x) ->
      x' = created (x <| flows := flows x' |>) -> cap (flows x') = cap (flows x) ->
      started k v x x' []
  | started_evict x' ek ee l : table x = l ++ [(ek, ee)] -> table x' = (k, v) :: l ->
      ek <> k -> x' = created (evicted_one ek (x <| flows := flows x' |>)) ->
      cap (flows x') = cap (flows x) ->
      started k v x x' (emit (ended_event ek Evicted ee) x).

Lemma start_flow_started e ts x : core x -> entry (Extracted.key e) (table x) = None ->
  let k := Extracted.key e in let v := new_entry init x e ts in
  let r := start_flow init e ts x in
  exists evs, started k v x r.1 evs /\
    r.2 = evs ++ emit (Started k (FlowEntry.side_for (Extracted.orientation e) v)
                         (Extracted.orientation e) ts (Extracted.l4 e)) x.
Proof.
  intros Hc E k v. unfold start_flow. fold k. fold v.
  rewrite (surjective_pairing (push k v (flows x))), push_result.
  pose proof (iter_push k v (flows x)) as Hi. pose proof (cap_push k v (flows x)) as Hcp.
  assert (1 <= cap (flows x)) as H1 by (rewrite (core_cap x) by done; lia).
  pose proof (push_front_spec (cap (flows x)) k v (table x) H1 E) as Hp.
  inversion Hp as [Hroom Heq|ek ee l Hl Hfull Heq]; rewrite <- Heq in Hi; cbn in Hi.
  - exists []. split; [|done]. apply started_room; try done.
  - assert (ek <> k) as Hne.
    { intros ->. apply entry_None in E. apply E. rewrite Hl, fmap_app. set_solver. }
    cbn. rewrite bool_decide_false by done. eexists. split.
    + set (f' := (push k v (flows x)).1) in *.
      assert (flows (created (evicted_one ek (x <| flows := f' |>))) = f') as Hf by (unfold created, evicted_one; by tsimpl).
      match goal with |- started _ _ _ ?y _ =>
        change y with (created (evicted_one ek (x <| flows := f' |>))) end.
      apply (started_evict k v x _ ek ee l); rewrite ?Hf; done.
    + cbn. f_equal; apply emit_same; by tsimpl.
Qed.

Lemma cool_swept k x : last_sweep_ts (cool k x) = last_sweep_ts x.
Proof. unfold cool. by case_bool_decide. Qed.
Hint Rewrite cool_swept : cool.

Lemma entry_app_ne (l : list (K * FlowEntry.t S)) k v k' : k' <> k -> entry k' (l ++ [(k, v)]) = entry k' l.
Proof.
  intros Hne. induction l as [|[k1 v1] l IH]; cbn; [by rewrite decide_False|]. by case_decide.
Qed.

Definition flow_started k v side o ts l4 x evs x' : Prop :=
  sound x (evs ++ emit (Started k side o ts l4) x) x' /\ running x' /\
  entry k (table x') = Some v /\ last_sweep_ts x' = last_sweep_ts x.

Section started.
Variables (k : K) (v : FlowEntry.t S) (side : FlowSide) (o : Orientation).
Variables (ts : Timestamp.t) (l4 : option L4Proto) (x x' : tracker).
Hypothesis Hc : core x.
Hypothesis Hr : running x.
Hypothesis E : entry k (table x) = None.
Hypothesis Hv : Tally.of_stats (FlowEntry.stats v) (FlowEntry.l4 v) = Tally.start ts l4.
Hypothesis Hs : is_terminal (FlowEntry.state v) = false.
Hypothesis Hcp : cap (flows x') = cap (flows x).

Lemma started_room_sound : table x' = (k, v) :: table x -> zlen (table x) < cap (flows x) ->
  x' = created (x <| flows := flows x' |>) -> flow_started k v side o ts l4 x [] x'.
Proof.
  intros Ht Hroom Hx. pose proof Hc as [Hn Hcap Hb Hh].
  assert (hot x' = hot x) as Eh by (by rewrite Hx).
  split_and!; [|unfold running; rewrite Ht; by constructor|rewrite Ht; cbn; by rewrite decide_True|by rewrite Hx].
  split; try (by rewrite Hx).
  - split.
    + rewrite Ht. cbn. rewrite NoDup_cons. split; [by apply entry_None|done].
    + rewrite Hcp, Hcap. by rewrite Hx.
    + rewrite Hcp, Ht, zlen_cons. lia.
    + rewrite Eh. intros k' Hk'. rewrite Ht. cbn. right. by apply Hh.
  - unfold dropped. rewrite Ht, zlen_cons, Hx. cbn. lia.
  - intros T HU [HT1 HT2]. cbn. rewrite emit_unfiltered by done. cbn. rewrite HT2, E. cbn.
    eexists. split; [done|]. split.
    + cbn. rewrite NoDup_cons. split; [|done]. apply entry_None. by rewrite HT2, E.
    + intros k'. rewrite Ht. cbn. case_decide; [by rewrite <- Hv|by apply HT2].
Qed.

Lemma started_evict_sound ek ee l : table x = l ++ [(ek, ee)] -> table x' = (k, v) :: l ->
  ek <> k -> x' = created (evicted_one ek (x <| flows := flows x' |>)) ->
  flow_started k v side o ts l4 x (emit (ended_event ek Evicted ee) x) x'.
Proof.
  intros Hl Ht Hne Hx. pose proof Hc as [Hn Hcap Hb Hh]. pose proof Hn as Hn'.
  rewrite Hl, fmap_app in Hn'. cbn in Hn'. apply NoDup_app in Hn' as (Hnl & Hek & _).
  assert (k ∉ l.*1) as Hkl.
  { intros Hk. apply entry_None in E. apply E. rewrite Hl, fmap_app. set_solver. }
  assert (ek ∉ l.*1) as Hekl by set_solver.
  assert (entry ek (table x) = Some ee) as Eek by (apply elem_entry; [done|rewrite Hl; set_solver]).
  assert (Ecf := f_equal config Hx). assert (Ep := f_equal events_paused Hx).
  assert (Eo := f_equal driver_owned Hx). assert (Ef := f_equal forgotten Hx).
  assert (Els := f_equal last_sweep_ts Hx). assert (Eh := f_equal hot Hx).
  unfold created, evicted_one in Ecf, Ep, Eo, Ef, Els, Eh. unfold_upd. cbn in Ecf, Ep, Eo, Ef, Els, Eh.
  autorewrite with cool in Ecf, Ep, Eo, Ef, Els. cbn in Ecf, Ep, Eo, Ef, Els.
  split_and!; [|unfold running in *; rewrite Ht; constructor; [done|]
    |rewrite Ht; cbn; by rewrite decide_True|done].
  2: { rewrite Hl in Hr. by apply Forall_app in Hr as []. }
  split; try done.
  - split; [rewrite Ht; cbn; by rewrite NoDup_cons|by rewrite Hcp, Hcap, Ecf| |].
    + rewrite Hcp, Ht, zlen_cons. rewrite Hl, zlen_app, zlen_cons, zlen_nil in Hb. lia.
    + rewrite Eh. intros k' [Hk' Hne']%cool_hot. cbn in Hk'. apply Hh in Hk'.
      rewrite Hl, fmap_app in Hk'. rewrite Ht. set_solver.
  - unfold dropped. rewrite Ht, Hl, zlen_app, !zlen_cons, zlen_nil, Ef, Hx.
    unfold created, evicted_one. tsimpl. lia.
  - intros T HU [HT1 HT2]. rewrite !emit_unfiltered by done. cbn. rewrite HT2, Eek. cbn.
    rewrite bool_decide_true by done. rewrite entry_without, decide_False, HT2, E by done. cbn.
    eexists. split; [done|]. split.
    + cbn. rewrite NoDup_cons. split; [|by apply nodup_without].
      apply entry_None. by rewrite entry_without, decide_False, HT2, E by done.
    + intros k'. rewrite Ht. cbn. case_decide as D; [by rewrite <- Hv|].
      rewrite entry_without, HT2, Hl by done. case_decide as D'; [|by rewrite entry_app_ne].
      subst. apply entry_None in Hekl. by rewrite Hekl.
Qed.
End started.

Lemma start_flow_sound e ts x : core x -> running x -> entry (Extracted.key e) (table x) = None ->
  let r := start_flow init e ts x in
  sound x r.2 r.1 /\ running r.1 /\
  entry (Extracted.key e) (table r.1) = Some (new_entry init x e ts) /\
  last_sweep_ts r.1 = last_sweep_ts x.
Proof.
  intros Hc Hr E r. destruct (start_flow_started e ts x Hc E) as (evs & Hst & Er).
  fold r in Hst, Er. rewrite Er. pose proof (new_entry_tally x e ts) as Hv.
  assert (is_terminal (FlowEntry.state (new_entry init x e ts)) = false) as Hs
    by (by rewrite new_entry_state).
  destruct Hst; [by eapply started_room_sound|by eapply started_evict_sound].
Qed.

(** *** The packet's effect on the entry *)
Lemma bind_leg_tally o i s l4 : Tally.of_stats (bind_leg o i s) l4 = Tally.of_stats s l4.
Proof. unfold bind_leg. case_if; [done|]. repeat case_match; done. Qed.
Lemma observe_iat_tally b ts s l4 : Tally.of_stats (observe_iat b ts s) l4 = Tally.of_stats s l4.
Proof. by destruct b. Qed.
Lemma observe_periods_tally b th ts s l4 :
  Tally.of_stats (observe_periods b th ts s) l4 = Tally.of_stats s l4.
Proof. unfold observe_periods. repeat case_match; done. Qed.
Lemma count_packet_tally side len ip tr ts s l4 :
  Tally.of_stats (count_packet side len ip tr ts s) l4 = Tally.packet side len ts (Tally.of_stats s l4).
Proof. unfold count_packet. destruct side, tr; cbv zeta; case_if; reflexivity. Qed.
Lemma tcp_step_tally i side (e : FlowEntry.t S) :
  Tally.of_stats (FlowEntry.stats (tcp_step i side e).1) (FlowEntry.l4 (tcp_step i side e).1)
  = Tally.of_stats (FlowEntry.stats e) (FlowEntry.l4 e).
Proof.
  unfold tcp_step. destruct (TcpFlags.contains _ _), side;
    cbn; (case_bool_decide; done).
Qed.

Lemma update_entry_tally x view (e : Extracted.t K) is_new (en : FlowEntry.t S) :
  let r := update_entry x view e is_new en in
  Tally.of_stats (FlowEntry.stats r.1) (FlowEntry.l4 r.1) =
  Tally.packet (FlowEntry.side_for (Extracted.orientation e) en) (packet_len view e)
    (PacketView.timestamp view) (Tally.of_stats (FlowEntry.stats en) (FlowEntry.l4 en)).
Proof.
  unfold update_entry. destruct (Extracted.tcp e); rewrite ?tcp_step_tally; cbn;
    by rewrite count_packet_tally, observe_periods_tally, observe_iat_tally, bind_leg_tally.
Qed.

Definition running_but (k : K) x : Prop :=
  Forall (fun ke => ke.1 <> k -> is_terminal (FlowEntry.state ke.2) = false) (table x).

Definition updated (k : K) (e : FlowEntry.t S) x : tracker := x <| flows ::= get_mut k (fun _ => e) |>.

Lemma core_updated k e e0 x : core x -> entry k (table x) = Some e0 -> core (updated k e x).
Proof.
  intros [Hn Hc Hb Hh] E. unfold updated. split; tsimpl; [by apply nodup_promote|done| |].
  - by rewrite zlen_promote.
  - intros k'. unfold_upd. cbn. intros Hk%Hh. destruct (entry k' (table x)) as [v|] eqn:E'.
    + destruct (entry k' (promote k (fun _ => e) (table x))) eqn:E2; [by eapply entry_Some_key|].
      rewrite entry_promote, E' in E2 by done. case_decide; [|done]. by rewrite E in E2.
    + by apply entry_None in E'.
Qed.
Lemma entry_updated k e e0 x k' : core x -> entry k (table x) = Some e0 ->
  entry k' (table (updated k e x)) = if decide (k' = k) then Some e else entry k' (table x).
Proof. intros [] E. unfold updated. tsimpl. rewrite entry_promote, E by done. done. Qed.

Lemma running_updated k e x : running x -> running_but k (updated k e x).
Proof.
  unfold running, running_but, updated. tsimpl. intros H. apply Forall_promote; [|done].
  eapply Forall_impl; [exact H|]. done.
Qed.

Lemma transition_events_ledger x T k from ts l4 tr : unfiltered x -> is_some (entry k T) = true ->
  ledger T (transition_events k from ts l4 tr x) = Some T.
Proof.
  intros HU Hk. unfold transition_events. destruct tr as [tr|]; [|done].
  case_if; rewrite emit_unfiltered by done; cbn; by rewrite Hk.
Qed.

Lemma updated_sound x k e0 e from ts l4 tr side o len src : core x ->
  entry k (table x) = Some e0 ->
  Tally.of_stats (FlowEntry.stats e) (FlowEntry.l4 e) =
    Tally.packet side len ts (Tally.of_stats (FlowEntry.stats e0) (FlowEntry.l4 e0)) ->
  let x' := updated k e x in
  sound x (transition_events k from ts l4 tr x' ++ emit (Packet k side o len ts src) x') x'.
Proof.
  intros Hc E Ht x'. split; try done; [by eapply core_updated| |].
  - unfold dropped, x', updated. tsimpl. rewrite zlen_promote. done.
  - intros T HU HT. pose proof (ledger_live x T k HT (entry_Some_key _ _ _ E)) as Hk.
    rewrite ledger_app, transition_events_ledger, emit_unfiltered by done.
    cbn. rewrite Hk. eexists. split; [done|]. destruct HT as [HT1 HT2]. split.
    + by rewrite keys_modify.
    + intros k'. rewrite entry_modify, HT2, E. unfold x'. rewrite (entry_updated _ _ e0) by done.
      cbn. rewrite HT2. case_decide; [|done]. cbn. by rewrite Ht.
Qed.

(** *** Cleanup and the whole packet *)
Lemma running_but_gone k x : core x -> running_but k x -> running (gone k x).
Proof.
  intros Hc H. unfold running, gone. tsimpl. unfold running_but in H.
  rewrite !Forall_forall in *. intros [k' e] Hin. cbn.
  assert (NoDup ((without k (table x)).*1)) as Hn by (apply nodup_without, Hc).
  pose proof (elem_entry _ _ _ Hn Hin) as E. rewrite entry_without in E by apply Hc.
  case_decide as D; [done|]. apply (H (k', e)); [by apply entry_elem|done].
Qed.
Lemma running_but_running k x e : running_but k x -> entry k (table x) = Some e -> core x ->
  is_terminal (FlowEntry.state e) = false -> running x.
Proof.
  unfold running_but, running. rewrite !Forall_forall. intros H E Hc He [k' e'] Hin. cbn.
  destruct (decide (k' = k)) as [->|D]; [|by apply (H (k', e'))].
  rewrite (elem_entry _ _ e') in E by (done || apply Hc). congruence.
Qed.

Lemma close_or_keep_sound k x e : core x -> running_but k x -> entry k (table x) = Some e ->
  let r := close_or_keep k x in
  sound x r.2 r.1 /\ running r.1 /\ last_sweep_ts r.1 = last_sweep_ts x.
Proof.
  intros Hc Hr E. unfold close_or_keep. rewrite peek_iter, E. cbn.
  destruct (is_terminal (FlowEntry.state e)) eqn:Et; cbn.
  - rewrite (surjective_pairing (pop k (flows x))), pop_result, E. cbn.
    fold (gone k x). split_and!; [|by apply running_but_gone|unfold gone; by tsimpl].
    apply sound_gone; try done.
    + by destruct (FlowEntry.state e).
    + unfold unfiltered. by tsimpl.
  - split_and!; [|exact (running_but_running k x e Hr E Hc Et)|done].
    apply sound_same_table; try done. cbn. intros k' [= <-]. by eapply entry_Some_key.
Qed.

Lemma auto_sweep_sound ts x : core x -> running x ->
  sound x (auto_sweep ts x).2 (auto_sweep ts x).1 /\ running (auto_sweep ts x).1.
Proof.
  intros Hc Hr. unfold auto_sweep. case_match; [|split; [by apply sound_refl|done]].
  split; by apply (sweep_spec x ts).
Qed.

Lemma first_stage_sound e ts x : core x -> running x ->
  let k := Extracted.key e in
  let is_new := negb (bool_decide (hot x = Some k)) && negb (contains k (flows x)) in
  let r := if is_new then start_flow init e ts x else (x, []) in
  is_new = is_none (entry k (table x)) /\
  sound x r.2 r.1 /\ running r.1 /\ is_some (entry k (table r.1)) = true.
Proof.
  intros Hc Hr k. rewrite contains_iter. fold k.
  assert (negb (bool_decide (hot x = Some k)) && negb (is_some (entry k (table x)))
          = is_none (entry k (table x))) as ->.
  { unfold is_none. case_bool_decide as D; [|done]. apply Hc in D. cbn.
    destruct (entry k (table x)) eqn:E; [done|]. by apply entry_None in E. }
  cbn. split; [done|]. destruct (entry k (table x)) eqn:E; cbn.
  - split_and!; [by apply sound_refl|done|by rewrite E].
  - destruct (start_flow_sound e ts x Hc Hr E) as (? & ? & E' & _).
    split_and!; try done. unfold k. by rewrite E'.
Qed.

Lemma track_with_sound view x : core x -> running x ->
  exists x' es ctx, track_with extract init view x = Some (x', es, ctx) /\
    sound x es x' /\ running x' /\ is_some ctx = is_some (admit_packet extract view).
Proof.
  intros Hc Hr. unfold track_with. destruct (admit_packet extract view) as [e|] eqn:Ea; cbn.
  2: { eexists _, _, _. split; [done|]. split; [|done]. apply sound_same_table; try done. apply Hc. }
  destruct (first_stage_sound e (PacketView.timestamp view) x Hc Hr) as (_ & S1 & R1 & E1).
  set (r := if negb _ && negb _ then _ else _) in *. rewrite (surjective_pairing r).
  set (k := Extracted.key e) in *. rewrite peek_iter.
  destruct (entry k (table r.1)) as [en|] eqn:En; [|done]. cbv zeta.
  set (is_new := negb _ && negb _). pose proof (update_entry_tally r.1 view e is_new en) as Ht.
  destruct (update_entry r.1 view e is_new en) as [en' tr]. cbv zeta in Ht. cbn [fst] in Ht.
  fold (updated k en' r.1). set (x2 := updated k en' r.1).
  set (src := if _ && _ then _ else _).
  assert (core r.1) as C1 by apply S1.
  pose proof (updated_sound r.1 k en en' (FlowEntry.state en) _ (FlowEntry.l4 en') tr _
    (Extracted.orientation e) _ src C1 En Ht) as S2.
  fold x2 in S2. assert (core x2) as C2 by apply S2.
  assert (entry k (table x2) = Some en') as E2
    by (unfold x2; rewrite (entry_updated _ _ en), decide_True by done; done).
  destruct (close_or_keep_sound k x2 en' C2 (running_updated _ _ _ R1) E2) as (S3 & R3 & _).
  rewrite (surjective_pairing (close_or_keep k x2)).
  destruct (auto_sweep_sound (PacketView.timestamp view) (close_or_keep k x2).1) as [S4 R4];
    [apply S3|done|].
  rewrite (surjective_pairing (auto_sweep _ _)). eexists _, _, _. split; [done|].
  split; [|done].
  pose proof (sound_trans _ _ _ _ _ S1 (sound_trans _ _ _ _ _ S2 (sound_trans _ _ _ _ _ S3 S4))) as H.
  by rewrite <- !app_assoc in H.
Qed.

(** ** Sessions *)
Definition dropped_le x x' : Prop := dropped x <= dropped x'.

(** Calls after which the events still tell the whole story: no live flow
    is forgotten or cut off by a smaller table, and the gates stay open. *)
Definition open (c : Call) x : bool :=
  match c with
  | CForget k => negb (contains k (flows x))
  | CPause => false
  | CSetConfig c =>
      (FlowTrackerConfig.suppress_events c =? EventMask.empty) && (flow_count x <=? Z.max (FlowTrackerConfig.max_flows c) 1)
  | _ => true
  end.
Fixpoint open_run (cs : list Call) x : bool :=
  match cs with
  | [] => true
  | c :: cs => open c x && match step c x with Some (x, _) => open_run cs x | None => true end
  end.
Definition keeps_flows (c : Call) : bool := match c with CSetConfig _ => false | _ => true end.

Record stepped (c : Call) x (es : list (FlowEvent K)) x' : Prop := {
  stepped_inv : inv x';
  stepped_dropped : dropped x <= dropped x';
  stepped_kept : keeps_flows c = true -> dropped x' = dropped x;
  stepped_ledger : open c x = true -> unfiltered x -> unfiltered x' /\
    forall T, describes T x -> exists T', ledger T es = Some T' /\ describes T' x' }.

Lemma inv_split x : inv x <-> core x /\ running x.
Proof. unfold running. split; [intros []|intros [[] ?]]; by repeat split. Qed.

Lemma sound_stepped c x es x' : sound x es x' -> running x' -> stepped c x es x'.
Proof.
  intros HS HR. pose proof (sound_unfiltered _ _ _ HS) as Hu. destruct HS as [? ? ? ? Hd HL].
  split; [by apply inv_split|lia|done|]. intros _ HU. split; [by apply Hu|].
  intros T. by apply HL.
Qed.

(** A call that only touches settings. *)
Lemma setting_stepped c x x' : inv x -> flows x' = flows x ->
  FlowTrackerConfig.max_flows (config x') = FlowTrackerConfig.max_flows (config x) ->
  hot x' = hot x -> stats x' = stats x -> forgotten x' = forgotten x ->
  (open c x = true -> unfiltered x -> unfiltered x') -> stepped c x [] x'.
Proof.
  intros [Hn Hc Hb Hh Hr] Ef Em Eh Es Eg Hu.
  assert (dropped x' = dropped x) as Hd by (unfold dropped; by rewrite Ef, Es, Eg).
  split; [|lia|done|].
  - split; rewrite ?Ef, ?Em, ?Eh; done.
  - intros Hp HU. split; [by apply Hu|]. intros T [H1 H2]. exists T. split; [done|].
    split; [done|]. intros k. by rewrite Ef.
Qed.

Lemma force_close_stepped k now x : inv x ->
  stepped (CForceClose k now) x (option_list (force_close k now x).2) (force_close k now x).1.
Proof.
  intros [Hc Hr]%inv_split. unfold force_close.
  rewrite (surjective_pairing (pop k (flows x))), pop_result.
  destruct (entry k (table x)) as [e|] eqn:E; cbn.
  - fold (gone k x). pose proof (sound_gone k x e ForceClosed x Hc E eq_refl (fun H => H)) as HS.
    destruct (sound_stepped (CForceClose k now) _ _ _ HS (running_gone k x Hr)) as [Hi Hd Hk HL].
    split; try done. intros Hp HU. destruct (HL Hp HU) as [HU' HL']. split; [done|].
    intros T HT. rewrite emit_unfiltered in HL' by done. by apply HL'.
  - set (x' := x <| flows := _ |>). assert (table x' = table x) as Ht
      by (unfold x'; tsimpl; by apply without_None).
    apply sound_stepped; [|unfold running; by rewrite Ht].
    apply sound_same_table; try done; [unfold x'; by tsimpl|apply Hc|unfold dropped; by rewrite Ht].
Qed.

Lemma forget_stepped k x : inv x -> stepped (CForget k) x [] (forget k x).1.
Proof.
  intros [Hc Hr]%inv_split. unfold forget.
  rewrite (surjective_pairing (pop k (flows x))), pop_result.
  destruct (entry k (table x)) as [e|] eqn:E; cbn.
  - pose proof (core_gone k x e Hc E) as HC. pose proof (running_gone k x Hr) as HR.
    set (x' := cool k _).
    assert (table x' = table (gone k x)) as Ht by (unfold x', gone; by tsimpl).
    assert (cap (flows x') = cap (flows (gone k x))) as Hcp by (unfold x', gone; by tsimpl).
    assert (config x' = config (gone k x)) as Hcf by (unfold x', gone; by tsimpl).
    assert (hot x' = hot (gone k x)) as Hh
      by (unfold x', gone, cool; tsimpl; case_bool_decide; done).
    assert (dropped x' = dropped x) as Hd.
    { unfold dropped, x'. tsimpl. rewrite (zlen_without _ _ e) by done. lia. }
    split; [|lia|done|cbn; by rewrite contains_iter, E]. destruct HC as [? ? ? ?].
    split; unfold running in HR; rewrite ?Ht, ?Hcp, ?Hcf; try done. by rewrite Hh.
  - set (x' := x <| flows := _ |>). assert (table x' = table x) as Ht
      by (unfold x'; tsimpl; by apply without_None).
    apply sound_stepped; [|unfold running; by rewrite Ht].
    apply sound_same_table; try done; [unfold x'; by tsimpl|apply Hc|unfold dropped; by rewrite Ht].
Qed.

Lemma set_config_stepped c x : inv x -> stepped (CSetConfig c) x [] (set_config c x).
Proof.
  intros [Hn Hc Hb Hh Hr]. unfold set_config. split; try done; cycle -1.
  { cbn. intros [Hm Hf]%andb_prop [Hg _]. unfold flow_count in Hf. rewrite len_iter in Hf. zb. split; [by split|].
    intros T [H1 H2]. exists T. split; [done|]. split; [done|]. intros k. tsimpl. by rewrite ztake_ge. }
  - split; tsimpl; [by apply nodup_take|done| |done|].
    + rewrite zlen_ztake. lia.
    + rewrite <- (ztake_zdrop (Z.max (FlowTrackerConfig.max_flows c) 1) (table x)) in Hr.
      by apply Forall_app in Hr as [].
  - unfold dropped. tsimpl. rewrite zlen_ztake. lia.
Qed.

Lemma mark_ticked_stepped k now x : inv x -> stepped (CMarkTicked k now) x [] (mark_ticked k now x).1.
Proof.
  intros Hi. pose proof Hi as [Hn Hc Hb Hh Hr]. unfold mark_ticked. rewrite peek_iter.
  destruct (entry k (table x)) as [e|] eqn:E; cbn.
  2: { apply sound_stepped; [|done]. apply sound_refl. by apply inv_core. }
  set (f := fun e : FlowEntry.t S => _). set (x' := x <| flows ::= _ |>).
  assert (table x' = modify k f (table x)) as Ht by (unfold x'; by tsimpl).
  assert (zlen (table x') = zlen (table x)) as Hz.
  { rewrite Ht. rewrite <- (zlen_fmap fst (modify k f (table x))), keys_modify. apply zlen_fmap. }
  assert (dropped x' = dropped x) as Hd by (unfold dropped; by rewrite Hz).
  split; [|lia|done|].
  - split; rewrite ?Ht, ?keys_modify; try done; [unfold x'; by tsimpl|rewrite <- Ht, Hz; unfold x'; by tsimpl|].
    by apply Forall_modify.
  - intros _ HU. split; [done|]. intros T [H1 H2]. exists T. split; [done|]. split; [done|].
    intros k'. rewrite Ht, entry_modify, H2. case_decide as D; [|done]. subst. by rewrite E.
Qed.

Lemma step_stepped c x : inv x -> exists x' es, step c x = Some (x', es) /\ stepped c x es x'.
Proof.
  intros Hi. pose proof (proj1 (inv_split x) Hi) as [Hc Hr]. destruct c; cbn.
  - destruct (track_with_sound view x Hc Hr) as (x' & es & ctx & E & HS & HR & _).
    exists x', es. unfold track. rewrite E. split; [done|]. by apply sound_stepped.
  - destruct (sweep_spec x now Hc Hr) as (HS & HR & _). eexists _, _.
    split; [by rewrite (surjective_pairing (sweep now x))|]. by apply sound_stepped.
  - unfold finish. destruct (sweep_spec x Timestamp.MAX Hc Hr) as (HS & HR & _). eexists _, _.
    split; [by rewrite (surjective_pairing (sweep _ x))|]. by apply sound_stepped.
  - rewrite (surjective_pairing (force_close k now x)). eexists _, _.
    split; [done|]. by apply force_close_stepped.
  - eexists _, _. split; [done|]. by apply forget_stepped.
  - eexists _, _. split; [done|]. by apply setting_stepped.
  - eexists _, _. split; [done|]. apply setting_stepped; try done. by intros _ [].
  - eexists _, _. split; [done|]. by apply set_config_stepped.
  - eexists _, _. split; [done|]. by apply setting_stepped.
  - eexists _, _. split; [done|]. by apply setting_stepped.
  - eexists _, _. split; [done|]. by apply setting_stepped.
  - eexists _, _. split; [done|]. by apply mark_ticked_stepped.
Qed.

Lemma run_stepped cs : forall x, inv x -> exists x' es, run cs x = Some (x', es) /\
  inv x' /\ dropped x <= dropped x' /\ (Forall (fun c => keeps_flows c = true) cs -> dropped x' = dropped x) /\
  (open_run cs x = true -> unfiltered x -> unfiltered x' /\
    forall T, describes T x -> exists T', ledger T es = Some T' /\ describes T' x').
Proof.
  induction cs as [|c cs IH]; intros x Hi; cbn.
  { exists x, []. split_and!; try done. intros _ HU. split; [done|]. intros T HT. by exists T. }
  destruct (step_stepped c x Hi) as (x1 & es1 & -> & [I1 D1 K1 L1]).
  destruct (IH x1 I1) as (x2 & es2 & -> & I2 & D2 & K2 & L2).
  exists x2, (es1 ++ es2). split_and!; try done; [lia| |].
  - intros [H1 H2]%Forall_cons. rewrite K2, K1; done.
  - intros [H1 H2]%andb_prop HU. destruct (L1 H1 HU) as [U1 L1']. destruct (L2 H2 U1) as [U2 L2'].
    split; [done|]. intros T HT. destruct (L1' T HT) as (T1 & E1 & HT1).
    destruct (L2' T1 HT1) as (T2 & E2 & HT2). exists T2. by rewrite ledger_app, E1.
Qed.

Lemma inv_new c : inv (with_config_and_state c).
Proof.
  unfold with_config_and_state. split; tsimpl; [constructor|done|rewrite zlen_nil; lia|done|constructor].
Qed.
Lemma dropped_new c : dropped (with_config_and_state c) = 0.
Proof. unfold dropped, with_config_and_state. by tsimpl. Qed.
End tracker_facts.
