(* ===== verification/TrackerMask.v ===== *)
(** * Load shedding (src/src/tracker.rs, [emits], [pause_events],
      [with_event_filter])

    A suppressed event is never built, but nothing else changes: every
    call on a tracker with a mask, or paused, acts on its state as it does
    without ([unmask]), and returns the same events less the suppressed
    ones. *)

From S2P Require Import Prelude Time Flow Config TcpState Packet Welford Event Lru Tracker TrackerFacts.
Import FlowTracker.
#[local] Existing Instance FlowTracker.eta.

Section mask.
Context {K S C : Type} `{EqDecision K} `{!Lru K (FlowEntry.t S) C}.
Variable extract : PacketView.t -> option (Extracted.t K).
Variable init : K -> S.
Notation tracker := (FlowTracker.t K C).
Implicit Types x : tracker.

Definition no_filter (c : FlowTrackerConfig.t) : FlowTrackerConfig.t :=
  c <| FlowTrackerConfig.suppress_events := EventMask.empty |>.
Definition unmask x : tracker := x <| config ::= no_filter |> <| events_paused := false |>.
Definition masked x (es : list (FlowEvent K)) : list (FlowEvent K) :=
  List.filter (fun e => emits (FlowEvent.variant e) x) es.

Definition gates_same x x' : Prop :=
  events_paused x' = events_paused x /\ driver_owned x' = driver_owned x /\
  FlowTrackerConfig.suppress_events (config x') = FlowTrackerConfig.suppress_events (config x).

(** [f] and its result without a filter. *)
Record shed x (r r0 : tracker * list (FlowEvent K)) : Prop := {
  shed_state : r0.1 = unmask r.1;
  shed_events : r.2 = masked x r0.2;
  shed_gates : gates_same x r.1 }.

Lemma masked_app x es es' : masked x (es ++ es') = masked x es ++ masked x es'.
Proof. apply List.filter_app. Qed.
Lemma masked_same x x' es : gates_same x x' -> masked x' es = masked x es.
Proof. intros (E1 & E2 & E3). unfold masked, emits. by rewrite E1, E2, E3. Qed.
Lemma gates_trans x y z : gates_same x y -> gates_same y z -> gates_same x z.
Proof. unfold gates_same. naive_solver congruence. Qed.

Lemma emit_unmask e x : emit e (unmask x) = [e].
Proof. apply emit_unfiltered. done. Qed.
Lemma emit_masked e x x' : gates_same x x' -> emit e x' = masked x [e].
Proof. intros H. rewrite <- (masked_same _ _ _ H). done. Qed.

Lemma shed_nil x x' : gates_same x x' -> shed x (x', []) (unmask x', []).
Proof. by split. Qed.

Lemma shed_seq x (r r0 : tracker * list (FlowEvent K)) f f0 :
  shed x r r0 -> shed r.1 (f r.1) (f0 (unmask r.1)) ->
  shed x ((f r.1).1, r.2 ++ (f r.1).2) ((f0 r0.1).1, r0.2 ++ (f0 r0.1).2).
Proof.
  intros [E1 E2 E3] [F1 F2 F3]. rewrite <- E1 in *. split; cbn [fst snd]; [done| |by eapply gates_trans].
  rewrite masked_app, E2, F2. f_equal. by apply masked_same.
Qed.

Lemma cool_unmask k x : cool k (unmask x) = unmask (cool k x).
Proof. unfold cool. change (hot (unmask x)) with (hot x). by case_bool_decide. Qed.
Lemma cool_gates k x : gates_same x (cool k x).
Proof. unfold cool. by case_bool_decide. Qed.

(** The three ways a flow ends share this step: the entry leaves, the
    counters move, one event is due. *)
Lemma shed_end k reason (e : FlowEntry.t S) x1 x g : gates_same x x1 ->
  (forall y, g (unmask y) = unmask (g y)) -> (forall y, gates_same y (g y)) ->
  shed x (g (cool k x1), emit (ended_event k reason e) (cool k x1))
    (g (cool k (unmask x1)), emit (ended_event k reason e) (cool k (unmask x1))).
Proof.
  intros HG Hg1 Hg2. rewrite cool_unmask, emit_unmask. split; cbn [fst snd].
  - by rewrite Hg1.
  - apply emit_masked. eapply gates_trans; [done|apply cool_gates].
  - eapply gates_trans; [done|]. eapply gates_trans; [apply cool_gates|done].
Qed.

Lemma end_idle_shed x k : shed x (end_idle x k) (end_idle (unmask x) k).
Proof.
  unfold end_idle. change (flows (unmask x)) with (flows x).
  destruct (pop k (flows x)) as [f' [e|]]; [|by apply shed_nil].
  change (unmask x <| flows := f' |>) with (unmask (x <| flows := f' |>)).
  destruct (FlowEntry.state e); try (by apply shed_nil);
    by apply (shed_end k IdleTimeout e (x <| flows := f' |>) x
      (fun y => y <| stats ::= fun s => s <| FlowTrackerStats.flows_ended ::= Z.add 1 |> |>)).
Qed.

Lemma end_idle_all_shed ks : forall x, shed x (end_idle_all x ks) (end_idle_all (unmask x) ks).
Proof.
  induction ks as [|k ks IH]; intros x; cbn [end_idle_all]; [by apply shed_nil|].
  rewrite (surjective_pairing (end_idle x k)), (surjective_pairing (end_idle (unmask x) k)).
  rewrite (surjective_pairing (end_idle_all (end_idle x k).1 ks)).
  rewrite (surjective_pairing (end_idle_all (end_idle (unmask x) k).1 ks)).
  apply (shed_seq x _ _ (fun y => end_idle_all y ks) (fun y => end_idle_all y ks));
    [apply end_idle_shed|apply IH].
Qed.

Lemma sweep_shed now x : shed x (sweep now x) (sweep now (unmask x)).
Proof.
  unfold sweep. set (x1 := x <| last_sweep_ts := Some now |>).
  change ((unmask x) <| last_sweep_ts := Some now |>) with (unmask x1).
  assert (expired_keys (unmask x1) now (iter (flows (unmask x1))) = expired_keys x1 now (iter (flows x1))) as ->.
  { change (flows (unmask x1)) with (flows x1).
    by induction (iter (flows x1)) as [|[k e] l IH]; cbn; [|rewrite IH]. }
  destruct (end_idle_all_shed (expired_keys x1 now (iter (flows x1))) x1) as [? ? ?].
  by split.
Qed.

Lemma initiator_unmask x e : initiator_of (unmask x) e = initiator_of x e.
Proof. done. Qed.

Lemma start_flow_shed e ts x : shed x (start_flow init e ts x) (start_flow init e ts (unmask x)).
Proof.
  unfold start_flow. change (flows (unmask x)) with (flows x).
  change (new_entry init (unmask x) e ts) with (new_entry init x e ts).
  destruct (push _ _ (flows x)) as [f' ev]. set (x1 := x <| flows := f' |>).
  change ((unmask x) <| flows := f' |>) with (unmask x1).
  set (st := Started _ _ _ _ _).
  set (a := match ev with Some _ => _ | None => _ end).
  set (a0 := match ev with Some _ => _ | None => _ end).
  assert (shed x a a0) as Ha.
  { unfold a, a0. destruct ev as [[ek ee]|]; [|by apply shed_nil].
    case_bool_decide; [by apply shed_nil|].
    by apply (shed_end ek Evicted ee x1 x (fun y => y <| stats ::= fun s =>
      s <| FlowTrackerStats.flows_evicted ::= Z.add 1 |>
        <| FlowTrackerStats.flows_ended ::= Z.add 1 |> |>)). }
  rewrite (surjective_pairing a), (surjective_pairing a0).
  apply (shed_seq x a a0 (fun y => (created y, emit st (created y))) (fun y => (created y, emit st (created y))));
    [done|].
  split; cbn [fst snd]; [done| |done]. change (created (unmask a.1)) with (unmask (created a.1)).
  rewrite emit_unmask. by apply emit_masked.
Qed.

Lemma close_or_keep_shed k x : shed x (close_or_keep k x) (close_or_keep k (unmask x)).
Proof.
  unfold close_or_keep. change (flows (unmask x)) with (flows x).
  destruct (FlowEntry.state <$> peek k (flows x)) as [st|]; [|by apply shed_nil].
  destruct (is_terminal st); [|by apply shed_nil].
  destruct (pop k (flows x)) as [f' [e|]]; [|by apply shed_nil].
  change (unmask x <| flows := f' |>) with (unmask (x <| flows := f' |>)).
  by apply (shed_end k _ e (x <| flows := f' |>) x
    (fun y => y <| stats ::= fun s => s <| FlowTrackerStats.flows_ended ::= Z.add 1 |> |>)).
Qed.

Lemma auto_sweep_shed ts x : shed x (auto_sweep ts x) (auto_sweep ts (unmask x)).
Proof.
  unfold auto_sweep. change (driver_owned (unmask x)) with (driver_owned x).
  change (auto_sweep_due ts (unmask x)) with (auto_sweep_due ts x).
  case_match; [apply sweep_shed|by apply shed_nil].
Qed.

Lemma transition_events_shed x x' k from ts l4 tr : gates_same x x' ->
  transition_events k from ts l4 tr x' = masked x (transition_events k from ts l4 tr (unmask x')).
Proof.
  intros H. unfold transition_events. destruct tr as [tr|]; [|done].
  case_match; rewrite emit_unmask; by apply emit_masked.
Qed.

Lemma first_stage_shed e ts x b :
  shed x (if b : bool then start_flow init e ts x else (x, []))
         (if b then start_flow init e ts (unmask x) else (unmask x, [])).
Proof. destruct b; [apply start_flow_shed|by apply shed_nil]. Qed.

Lemma shed_then x (r r0 r1 : tracker * list (FlowEvent K)) es r01 : shed x r r0 ->
  shed r.1 r1 r01 -> es = r.2 ++ r1.2 -> shed x (r1.1, es) (r01.1, r0.2 ++ r01.2).
Proof.
  intros [E1 E2 E3] [F1 F2 F3] ->. split; cbn [fst snd]; [done| |by eapply gates_trans].
  rewrite masked_app, E2, F2. f_equal. by apply masked_same.
Qed.

Inductive track_shed x : option (tracker * list (FlowEvent K) * option (PacketContext.t K)) ->
    option (tracker * list (FlowEvent K) * option (PacketContext.t K)) -> Prop :=
  | track_shed_none : track_shed x None None
  | track_shed_some x' es x0' es0 ctx : shed x (x', es) (x0', es0) ->
      track_shed x (Some (x', es, ctx)) (Some (x0', es0, ctx)).

Lemma track_with_shed view x :
  track_shed x (track_with extract init view x) (track_with extract init view (unmask x)).
Proof.
  unfold track_with. destruct (admit_packet extract view) as [e|].
  2: { constructor. by apply shed_nil. }
  set (k := Extracted.key e). set (ts := PacketView.timestamp view). cbv zeta.
  change (hot (unmask x)) with (hot x). change (flows (unmask x)) with (flows x).
  set (is_new := negb _ && negb _).
  pose proof (first_stage_shed e ts x is_new) as H1.
  destruct (if is_new then start_flow init e ts x else (x, [])) as [x1 es1].
  destruct (if is_new then start_flow init e ts (unmask x) else (unmask x, [])) as [y1 es01].
  destruct H1 as [E1 E2 E3]. cbn [fst snd] in E1, E2, E3. subst y1 es1.
  change (flows (unmask x1)) with (flows x1).
  destruct (peek k (flows x1)) as [en|]; [|constructor].
  change (update_entry (unmask x1) view e is_new en) with (update_entry x1 view e is_new en).
  destruct (update_entry x1 view e is_new en) as [en' tr].
  change (unmask x1 <| flows ::= get_mut k (fun _ => en') |>)
    with (unmask (x1 <| flows ::= get_mut k (fun _ => en') |>)).
  set (x2 := x1 <| flows ::= get_mut k (fun _ => en') |>).
  change (config (unmask x2)) with (no_filter (config x2)).
  change (FlowTrackerConfig.emit_packet_source_idx (no_filter (config x2)))
    with (FlowTrackerConfig.emit_packet_source_idx (config x2)).
  set (src := if _ && _ then _ else _).
  assert (gates_same x x2) as G2 by done.
  rewrite (transition_events_shed x x2), emit_unmask, (emit_masked _ x x2) by done.
  pose proof (close_or_keep_shed k x2) as [F1 F2 F3].
  destruct (close_or_keep k x2) as [x3 es3], (close_or_keep k (unmask x2)) as [y3 es03].
  cbn [fst snd] in F1, F2, F3. subst y3 es3.
  pose proof (auto_sweep_shed ts x3) as [D1 D2 D3].
  destruct (auto_sweep ts x3) as [x4 es4], (auto_sweep ts (unmask x3)) as [y4 es04].
  cbn [fst snd] in D1, D2, D3. subst y4 es4.
  assert (gates_same x x3) as G3 by (by eapply gates_trans).
  rewrite (masked_same x x2), (masked_same x x3) by done.
  rewrite <- !masked_app. constructor. split; [done|done|by eapply gates_trans].
Qed.

(** ** Sessions without the filter *)
Definition unmask_call (c : Call (K:=K)) : Call (K:=K) :=
  match c with
  | CPause => CResume
  | CSetConfig c => CSetConfig (no_filter c)
  | c => c
  end.
(** Calls that leave the gates as they are, and whose events the gates
    decide. *)
Definition gated (c : Call (K:=K)) : bool :=
  match c with CPause | CResume | CSetConfig _ | CForceClose _ _ => false | _ => true end.

Lemma force_close_unmask k now x :
  force_close k now (unmask x) = (unmask (force_close k now x).1, (force_close k now x).2).
Proof.
  unfold force_close. change (flows (unmask x)) with (flows x).
  destruct (pop k (flows x)) as [f' [e|]]; [|done].
  change (unmask x <| flows := f' |>) with (unmask (x <| flows := f' |>)).
  by rewrite cool_unmask.
Qed.
Lemma forget_unmask k x : forget k (unmask x) = (unmask (forget k x).1, (forget k x).2).
Proof.
  unfold forget. change (flows (unmask x)) with (flows x).
  destruct (pop k (flows x)) as [f' [e|]]; [|done].
  change (unmask x <| flows := f' |> <| forgotten ::= Z.add 1 |>)
    with (unmask (x <| flows := f' |> <| forgotten ::= Z.add 1 |>)).
  by rewrite cool_unmask.
Qed.
Lemma forget_gates k x : gates_same x (forget k x).1.
Proof.
  unfold forget. destruct (pop k (flows x)) as [f' [e|]]; [|done]. cbn.
  eapply gates_trans; [|apply cool_gates]. done.
Qed.
Lemma mark_ticked_unmask k now x :
  mark_ticked k now (unmask x) = (unmask (mark_ticked k now x).1, (mark_ticked k now x).2).
Proof. unfold mark_ticked. change (flows (unmask x)) with (flows x). by case_match. Qed.
Lemma mark_ticked_gates k now x : gates_same x (mark_ticked k now x).1.
Proof. unfold mark_ticked. by case_match. Qed.

Lemma step_unmask c x x' es : step extract init c x = Some (x', es) ->
  exists es0, step extract init (unmask_call c) (unmask x) = Some (unmask x', es0) /\
    es `sublist_of` es0 /\ (gated c = true -> es = masked x es0 /\ gates_same x x').
Proof.
  assert (forall x es0, masked x es0 `sublist_of` es0) as Hsub.
  { intros y l. unfold masked. induction l as [|e l IH]; cbn; [done|]. case_match; by constructor. }
  assert (forall (r r0 : tracker * list (FlowEvent K)), shed x r r0 -> Some r = Some (x', es) ->
    exists es0, Some r0 = Some (unmask x', es0) /\ es `sublist_of` es0 /\
      (gated c = true -> es = masked x es0 /\ gates_same x x')) as Hshed.
  { intros r [x0 es0] [E1 E2 E3] [= ->]. cbn [fst snd] in E1, E2, E3. subst. exists es0. split_and!; [done|apply Hsub|done]. }
  destruct c; cbn [step unmask_call].
  - unfold track. destruct (track_with_shed view x) as [|x1 es1 x01 es01 ctx Hs]; [done|].
    by apply Hshed.
  - apply Hshed, sweep_shed.
  - apply Hshed, sweep_shed.
  - rewrite force_close_unmask. destruct (force_close k now x) as [y e]. intros [= -> <-].
    eexists. split; [done|]. split; [done|]. done.
  - rewrite forget_unmask. intros [= <- <-]. eexists. split; [done|]. split; [done|].
    intros _. split; [done|]. apply forget_gates.
  - intros [= <- <-]. by eexists.
  - intros [= <- <-]. by eexists.
  - intros [= <- <-]. by eexists.
  - intros [= <- <-]. by eexists.
  - intros [= <- <-]. by eexists.
  - intros [= <- <-]. by eexists.
  - rewrite mark_ticked_unmask. intros [= <- <-]. eexists. split; [done|]. split; [done|].
    intros _. split; [done|]. apply mark_ticked_gates.
Qed.

Lemma run_unmask cs : forall x x' es, run extract init cs x = Some (x', es) ->
  exists es0, run extract init (unmask_call <$> cs) (unmask x) = Some (unmask x', es0) /\
    es `sublist_of` es0 /\
    (Forall (fun c => gated c = true) cs -> es = masked x es0 /\ gates_same x x').
Proof.
  induction cs as [|c cs IH]; intros x x' es; cbn [run fmap list_fmap].
  { intros [= <- <-]. by eexists. }
  destruct (step extract init c x) as [[x1 es1]|] eqn:E1; [|done].
  destruct (run extract init cs x1) as [[x2 es2]|] eqn:E2; [|done]. intros [= <- <-].
  destruct (step_unmask c x x1 es1 E1) as (es01 & -> & Hs1 & Hg1).
  destruct (IH x1 x2 es2 E2) as (es02 & -> & Hs2 & Hg2).
  eexists. split; [done|]. split; [by apply sublist_app|].
  intros [H1 H2]%Forall_cons. destruct (Hg1 H1) as [-> G1]. destruct (Hg2 H2) as [-> G2].
  split; [|by eapply gates_trans]. rewrite masked_app. f_equal. by apply masked_same.
Qed.
End mask.
