(* ===== verification/TrackerProps.v ===== *)
(** * What the tracker guarantees (src/src/tracker.rs) *)

From S2P Require Import Prelude Time Flow Config TcpState Packet Welford Event Lru Tracker TrackerFacts TrackerMask.
Import FlowTracker.

(** ** A concrete instance

    A frame is a key, a direction, TCP flags and payload. *)
Module Demo.
Definition extract (v : PacketView.t) : option (Extracted.t Z) :=
  match PacketView.frame v with
  | k :: dir :: flags :: payload =>
      Some (Extracted.new k (if dir =? 0 then Forward else Reverse) (Some Tcp)
              (Some (TcpInfo.mk flags 0 0 3 (zlen payload) 0 (zlen payload))))
  | _ => None
  end.
Definition tracker : Type := FlowTracker.t Z (ListLru.t Z (FlowEntry.t ())).
Definition init (_ : Z) : () := tt.
Definition packet (k dir flags : Z) (payload : list Z) (sec : Z) : Call (K:=Z) :=
  CTrack (PacketView.new (k :: dir :: flags :: payload) (Timestamp.mk sec 0)).
Definition config : FlowTrackerConfig.t :=
  FlowTrackerConfig.default <| FlowTrackerConfig.max_flows := 2 |>.
(** Three flows in a table of two; the second closes by RST. *)
Definition session : list (Call (K:=Z)) :=
  [packet 1 0 2 [] 0; packet 2 0 2 [] 1; packet 1 1 18 [] 2; packet 1 0 16 [7] 3;
   packet 3 0 2 [] 4; packet 3 1 4 [] 5; CAutoSweep (from_secs 1);
   packet 4 0 2 [] 100; CSweep (Timestamp.mk 310 0)].
Definition start : tracker := with_config_and_state config.
End Demo.

Section props.
Context {K S C : Type} `{EqDecision K} `{!Lru K (FlowEntry.t S) C, !LruLaws K (FlowEntry.t S) C}.
Variable extract : PacketView.t -> option (Extracted.t K).
Variable init : K -> S.
Notation tracker := (FlowTracker.t K C).
Notation table x := (iter (FlowTracker.flows x)).

(** C26: whatever an owner does with a tracker, the packet path never
    panics (its [expect] always finds the flow), no flow is in the table
    twice, the table never exceeds [max_flows], no flow in it is in a
    terminal state, and every flow ever created is live, was reported
    ended, or was given up by [forget] or by a configuration with a
    smaller table. *)
Theorem tracker_invariant c cs : exists (x : tracker) es,
  run extract init cs (with_config_and_state c) = Some (x, es) /\
  NoDup ((table x).*1) /\
  flow_count x <= Z.max (FlowTrackerConfig.max_flows (config x)) 1 /\
  Forall (fun ke => is_terminal (FlowEntry.state ke.2) = false) (table x) /\
  FlowTrackerStats.flows_ended (stats x) + forgotten x + flow_count x
    <= FlowTrackerStats.flows_created (stats x) /\
  (Forall (fun c => keeps_flows c = true) cs ->
   FlowTrackerStats.flows_ended (stats x) + forgotten x + flow_count x
    = FlowTrackerStats.flows_created (stats x)).
Proof.
  destruct (run_stepped extract init cs _ (inv_new c)) as (x & es & E & [Hn Hc Hb Hh Hr] & Hd & Hk & _).
  rewrite dropped_new in Hd, Hk. exists x, es. unfold flow_count. rewrite len_iter.
  unfold dropped in *. split_and!; try done; [lia|lia|]. intros H. specialize (Hk H). lia.
Qed.

(** C24: the event stream of a tracker whose gates stay open (neither
    masked nor paused) is a faithful account of its flows, over any packets,
    sweeps, forced closes and changes of settings, as long as the owner
    forgets no live flow and does not shrink the table below its flows.
    Replayed event by event it never starts a live flow,
    never mentions or ends one that is not live, and every [Ended] carries
    a transport reason and exactly the packets, bytes, protocol and first
    and last times of that flow's [Started] and [Packet] events since; at
    the end the flows still open are the live ones, with the same
    figures. *)
Theorem tracker_event_ledger c cs :
  FlowTrackerConfig.suppress_events c = EventMask.empty ->
  open_run extract init cs (with_config_and_state c : tracker) = true ->
  exists (x : tracker) es T,
    run extract init cs (with_config_and_state c) = Some (x, es) /\
    ledger [] es = Some T /\ NoDup (T.*1) /\
    forall k, entry k T =
      (fun e => Tally.of_stats (FlowEntry.stats e) (FlowEntry.l4 e)) <$> entry k (table x).
Proof.
  intros Hc Hcs.
  destruct (run_stepped extract init cs _ (inv_new c)) as (x & es & E & _ & _ & _ & HL).
  destruct (HL Hcs) as [_ HL']; [by split|].
  destruct (HL' []) as (T & ET & HT1 & HT2).
  { split; [constructor|]. intros k. unfold with_config_and_state. cbn. by rewrite iter_new. }
  by exists x, es, T.
Qed.

(** C25: a sweep ends exactly the flows that have been silent for their
    timeout (the owner's override if it gives one, or the protocol's
    default): they leave the table in order and each is counted and, unless
    the gates are shut, reported once with its statistics; the others stay
    as they are.  [finish] is the sweep at the end of time. *)
Theorem sweep_exact c cs x es now : 
  run extract init cs (with_config_and_state c) = Some (x, es) ->
  let idle := List.filter (fun ke => expired x now ke.1 ke.2) (table x) in
  let '(x', evs) := sweep now x in
  table x' = List.filter (fun ke => negb (expired x now ke.1 ke.2)) (table x) /\
  evs = concat ((fun ke => emit (ended_event ke.1 IdleTimeout ke.2) x) <$> idle) /\
  FlowTrackerStats.flows_ended (stats x')
    = FlowTrackerStats.flows_ended (stats x) + zlen idle.
Proof.
  destruct (run_stepped extract init cs _ (inv_new c)) as (y & es' & E & Hi & _).
  rewrite E. intros [= -> ->] idle. apply inv_split in Hi as [Hc Hr].
  destruct (sweep_spec init x now Hc Hr) as (_ & _ & E1 & E2 & _ & E3).
  by destruct (sweep now x) as [x' evs].
Qed.

(** C27: shedding events never changes what the tracker does.  A session
    under any mask, paused and resumed at any time, leaves the same state
    as the session without them, up to the mask and the pause flag; its
    events are among the events of that session; and when the session
    neither changes the gates nor closes a flow by force they are exactly the
    ones the gates let through ([force_close] reports its flow whatever the
    gates). *)
Theorem suppression_is_a_filter c cs (x : tracker) es :
  run extract init cs (with_config_and_state c) = Some (x, es) ->
  exists es0,
    run extract init (unmask_call <$> cs) (with_config_and_state (no_filter c))
      = Some (unmask x, es0) /\
    es `sublist_of` es0 /\
    (Forall (fun c => gated c = true) cs ->
     es = List.filter (fun e => emits (FlowEvent.variant e)
            (with_config_and_state (K:=K) (S:=S) (C:=C) c)) es0).
Proof.
  intros E. destruct (run_unmask extract init cs _ _ _ E) as (es0 & E0 & Hs & Hg).
  exists es0. split_and!; [done|done|]. intros H. by destruct (Hg H) as [-> _].
Qed.
End props.

Section witnesses.
Notation table x := (iter (FlowTracker.flows x)).

Lemma tracker_invariant_witness : exists (x : Demo.tracker) es,
  run Demo.extract Demo.init Demo.session Demo.start = Some (x, es) /\
  NoDup ((table x).*1) /\
  flow_count x <= Z.max (FlowTrackerConfig.max_flows (config x)) 1 /\
  Forall (fun ke => is_terminal (FlowEntry.state ke.2) = false) (table x) /\
  FlowTrackerStats.flows_ended (stats x) + forgotten x + flow_count x
    <= FlowTrackerStats.flows_created (stats x) /\
  (Forall (fun c => keeps_flows c = true) Demo.session ->
   FlowTrackerStats.flows_ended (stats x) + forgotten x + flow_count x
    = FlowTrackerStats.flows_created (stats x)).
Proof. exact (tracker_invariant Demo.extract Demo.init Demo.config Demo.session). Defined.

Lemma tracker_event_ledger_witness :
  open_run Demo.extract Demo.init (CForget 9 :: Demo.session) Demo.start = true /\
  exists (x : Demo.tracker) es T,
    run Demo.extract Demo.init (CForget 9 :: Demo.session) Demo.start = Some (x, es) /\
    ledger [] es = Some T /\ NoDup (T.*1) /\
    forall k, entry k T =
      (fun e => Tally.of_stats (FlowEntry.stats e) (FlowEntry.l4 e)) <$> entry k (table x).
Proof.
  assert (open_run Demo.extract Demo.init (CForget 9 :: Demo.session) Demo.start = true) as H by (vm_compute; reflexivity).
  split; [exact H|]. exact (tracker_event_ledger Demo.extract Demo.init Demo.config (CForget 9 :: Demo.session) eq_refl H).
Defined.

(** The session's events, by kind; two flows are evicted or reset, two end
    in the sweeps. *)
Example demo_events :
  match run Demo.extract Demo.init Demo.session Demo.start with
  | Some (_, es) => (fun e => (FlowEvent.key e, FlowEvent.variant e)) <$> es
  | None => []
  end =
  [(Some 1, EventMask.STARTED); (Some 1, EventMask.STATE_CHANGE); (Some 1, EventMask.PACKET);
   (Some 2, EventMask.STARTED); (Some 2, EventMask.STATE_CHANGE); (Some 2, EventMask.PACKET);
   (Some 1, EventMask.STATE_CHANGE); (Some 1, EventMask.PACKET);
   (Some 1, EventMask.ESTABLISHED); (Some 1, EventMask.PACKET);
   (Some 2, EventMask.ENDED);
   (Some 3, EventMask.STARTED); (Some 3, EventMask.STATE_CHANGE); (Some 3, EventMask.PACKET);
   (Some 3, EventMask.STATE_CHANGE); (Some 3, EventMask.PACKET); (Some 3, EventMask.ENDED);
   (Some 4, EventMask.STARTED); (Some 4, EventMask.STATE_CHANGE); (Some 4, EventMask.PACKET);
   (Some 1, EventMask.ENDED)].
Proof. vm_compute. reflexivity. Qed.

Lemma sweep_exact_witness :
  match run Demo.extract Demo.init (take 6 Demo.session) Demo.start with
  | Some (x, es) =>
      let now := Timestamp.mk 310 0 in
      let idle := List.filter (fun ke => expired x now ke.1 ke.2) (table x) in
      idle <> [] /\
      let '(x', evs) := sweep now x in
      table x' = List.filter (fun ke => negb (expired x now ke.1 ke.2)) (table x) /\
      evs = concat ((fun ke => emit (ended_event ke.1 IdleTimeout ke.2) x) <$> idle) /\
      FlowTrackerStats.flows_ended (stats x')
        = FlowTrackerStats.flows_ended (stats x) + zlen idle
  | None => False
  end.
Proof.
  pose proof (sweep_exact (S:=()) (C:=ListLru.t Z (FlowEntry.t ())) Demo.extract Demo.init
    Demo.config (take 6 Demo.session)) as H.
  change (with_config_and_state Demo.config) with Demo.start in H.
  destruct (run Demo.extract Demo.init (take 6 Demo.session) Demo.start) as [[x es]|] eqn:E;
    [|vm_compute in E; discriminate E].
  split; [|exact (H x es (Timestamp.mk 310 0) eq_refl)].
  intros Hnil. vm_compute in E. injection E as <- <-. vm_compute in Hnil. discriminate Hnil.
Defined.

Lemma suppression_is_a_filter_witness :
  let cs := take 8 Demo.session in
  let c := Demo.config <| FlowTrackerConfig.suppress_events :=
             Z.lor EventMask.PACKET EventMask.STATE_CHANGE |> in
  match run Demo.extract Demo.init cs (with_config_and_state (C:=ListLru.t Z (FlowEntry.t ())) c) with
  | Some (x, es) =>
      Forall (fun c => gated c = true) cs /\
      exists es0,
        run Demo.extract Demo.init (unmask_call <$> cs) (with_config_and_state (no_filter c))
          = Some (unmask x, es0) /\
        es `sublist_of` es0 /\
        (Forall (fun c => gated c = true) cs ->
         es = List.filter (fun e => emits (FlowEvent.variant e)
                (with_config_and_state (K:=Z) (S:=()) (C:=ListLru.t Z (FlowEntry.t ())) c)) es0)
  | None => False
  end.
Proof.
  intros cs c.
  pose proof (suppression_is_a_filter (S:=()) (C:=ListLru.t Z (FlowEntry.t ())) Demo.extract Demo.init
    c cs) as H.
  destruct (run Demo.extract Demo.init cs (with_config_and_state c)) as [[x es]|] eqn:E;
    [|vm_compute in E; discriminate E].
  split; [repeat constructor|exact (H x es eq_refl)].
Defined.

(** A divergence.  [finish] is documented to end every open flow,
    but a flow whose timeout is longer than the span up to
    [Timestamp::MAX], such as [Duration::MAX] for flows that should never
    be idle, survives it and no [Ended] is emitted for it. *)
Theorem finish_leaves_patient_flows :
  let x0 := set_idle_timeout_fn (fun _ _ => Some (U64_MAX * NANOS + 999999999)) Demo.start in
  match run Demo.extract Demo.init [Demo.packet 1 0 2 [] 0; CFinish] x0 with
  | Some (x, es) =>
      flow_count x = 1 /\
      (fun e => (FlowEvent.key e, FlowEvent.variant e)) <$> es =
        [(Some 1, EventMask.STARTED); (Some 1, EventMask.STATE_CHANGE); (Some 1, EventMask.PACKET)]
  | None => False
  end.
Proof. vm_compute. by split. Qed.

(** A divergence.  A paused tracker is documented to emit no event
    at all, and a masked one never to build a suppressed event;
    [force_close] consults neither gate and returns its [Ended] event. *)
Theorem force_close_ignores_the_gates {K S C} `{EqDecision K} `{!Lru K (FlowEntry.t S) C}
    (k : K) now (x : FlowTracker.t K C) :
  force_close k now (pause_events x) =
    (pause_events (force_close k now x).1, (force_close k now x).2).
Proof.
  unfold force_close, pause_events. cbn. destruct (pop k (flows x)) as [f' [e|]]; [|done].
  unfold cool. cbn. by case_bool_decide.
Qed.
End witnesses.
