(* ===== verification/Layers.v ===== *)
(** * Header slices (src/src/layers/)

    A slice is the bytes of one header and what follows it.  The accessors
    index into it; like the code's they are meant for slices that hold at
    least the fixed header ([at_] reads 0 where Rust would panic).  The
    walk over IPv6 extension headers and the TCP option iterator are the
    two loops; their theorems follow. *)

From S2P Require Import Prelude.

(** [raw[i]]. *)
Definition at_ (raw : list Z) (i : nat) : Z := nth i raw 0.
Definition be16 (raw : list Z) (i : nat) : Z := at_ raw i * 256 + at_ raw (S i).
Definition be32_at (raw : list Z) (i : nat) : Z := be16 raw i * 65536 + be16 raw (S (S i)).
(** [raw[i] >> s & m], and a flag. *)
Definition bits (raw : list Z) (i : nat) (s m : Z) : Z := Z.land (Z.shiftr (at_ raw i) s) m.
Definition flag (raw : list Z) (i : nat) (m : Z) : bool := negb (Z.land (at_ raw i) m =? 0).

Inductive LayerKind :=
  | Ethernet | Vlan | Mpls | Ipv4 | Ipv6 | Arp | LTcp | LUdp | Icmpv4 | Icmpv6 | Gre | Vxlan
  | GtpU | Payload.
Module LayerKind.
Definition layer_number (k : LayerKind) : Z :=
  match k with
  | Ethernet | Vlan | Mpls => 2
  | Ipv4 | Ipv6 | Arp => 3
  | LTcp | LUdp | Icmpv4 | Icmpv6 | Gre | Vxlan | GtpU => 4
  | Payload => 7
  end.
Definition is_l2 (k : LayerKind) : bool := match k with Ethernet | Vlan | Mpls => true | _ => false end.
Definition is_l3 (k : LayerKind) : bool := match k with Ipv4 | Ipv6 | Arp => true | _ => false end.
Definition is_l4 (k : LayerKind) : bool :=
  match k with LTcp | LUdp | Icmpv4 | Icmpv6 => true | _ => false end.
Definition is_tunnel (k : LayerKind) : bool := match k with Gre | Vxlan | GtpU => true | _ => false end.
End LayerKind.

(** ** Link layer (eth.rs) *)
Module EthernetSlice.
Definition destination (raw : list Z) : list Z := zslice 0 6 raw.
Definition source (raw : list Z) : list Z := zslice 6 12 raw.
Definition ether_type (raw : list Z) : Z := be16 raw 12.
Definition header (raw : list Z) : list Z := ztake 14 raw.
End EthernetSlice.

Module VlanSlice.
Definition vid (raw : list Z) : Z := Z.land (be16 raw 0) 0x0FFF.
Definition priority (raw : list Z) : Z := bits raw 0 5 0x07.
Definition dei (raw : list Z) : bool := bits raw 0 4 0x01 =? 1.
Definition inner_ether_type (raw : list Z) : Z := be16 raw 2.
Definition header (raw : list Z) : list Z := ztake 4 raw.
End VlanSlice.

Module MplsSlice.
Definition label (raw : list Z) : Z :=
  Z.lor (Z.lor (Z.shiftl (at_ raw 0) 12) (Z.shiftl (at_ raw 1) 4)) (Z.shiftr (at_ raw 2) 4).
Definition tc (raw : list Z) : Z := bits raw 2 1 0x07.
Definition bos (raw : list Z) : bool := Z.land (at_ raw 2) 0x01 =? 1.
Definition ttl (raw : list Z) : Z := at_ raw 3.
Definition header (raw : list Z) : list Z := ztake 4 raw.
End MplsSlice.

(** ** Network layer (ip.rs) *)
Module Ipv4Slice.
Record t := mk { raw : list Z; header_len : Z }.
Definition version (s : t) : Z := bits (raw s) 0 4 0x0F.
Definition ihl (s : t) : Z := Z.land (at_ (raw s) 0) 0x0F.
Definition dscp (s : t) : Z := bits (raw s) 1 2 0x3F.
Definition ecn (s : t) : Z := Z.land (at_ (raw s) 1) 0x03.
Definition total_length (s : t) : Z := be16 (raw s) 2.
Definition identification (s : t) : Z := be16 (raw s) 4.
Definition df (s : t) : bool := bits (raw s) 6 6 0x01 =? 1.
Definition mf (s : t) : bool := bits (raw s) 6 5 0x01 =? 1.
Definition fragment_offset (s : t) : Z := Z.land (at_ (raw s) 6) 0x1F * 256 + at_ (raw s) 7.
Definition ttl (s : t) : Z := at_ (raw s) 8.
Definition protocol (s : t) : Z := at_ (raw s) 9.
Definition checksum (s : t) : Z := be16 (raw s) 10.
(** An address is its 32-bit value. *)
Definition source (s : t) : Z := be32_at (raw s) 12.
Definition destination (s : t) : Z := be32_at (raw s) 16.
Definition header (s : t) : list Z := ztake (header_len s) (raw s).
Definition payload (s : t) : list Z := zdrop (header_len s) (raw s).
End Ipv4Slice.

Module Ipv6ExtensionWalk.
Record t := mk {
  upper_header : Z; payload_offset : Z; chain_depth : Z;
  fragment_present : bool; chain_too_deep : bool; malformed : bool }.
End Ipv6ExtensionWalk.

Definition is_extension_header (nh : Z) : bool :=
  existsb (Z.eqb nh) [0; 43; 44; 60; 51; 135; 139; 140].

Definition ext_header_len (this_header hdr_ext_len : Z) : Z :=
  if this_header =? 44 then 8
  else if this_header =? 51 then (hdr_ext_len + 2) * 4
  else 8 + hdr_ext_len * 8.

Module Ipv6Slice.
Record t := mk { raw : list Z; header_len : Z }.
Definition version (s : t) : Z := bits (raw s) 0 4 0x0F.
Definition traffic_class (s : t) : Z :=
  Z.lor (u8 (Z.shiftl (Z.land (at_ (raw s) 0) 0x0F) 4)) (Z.shiftr (at_ (raw s) 1) 4).
Definition flow_label (s : t) : Z :=
  Z.lor (Z.lor (Z.shiftl (Z.land (at_ (raw s) 1) 0x0F) 16) (Z.shiftl (at_ (raw s) 2) 8))
        (at_ (raw s) 3).
Definition payload_length (s : t) : Z := be16 (raw s) 4.
Definition next_header (s : t) : Z := at_ (raw s) 6.
Definition hop_limit (s : t) : Z := at_ (raw s) 7.
Definition source (s : t) : list Z := zslice 8 24 (raw s).
Definition destination (s : t) : list Z := zslice 24 40 (raw s).
Definition header (s : t) : list Z := ztake (header_len s) (raw s).
Definition payload (s : t) : list Z := zdrop (header_len s) (raw s).

Definition MAX_DEPTH : Z := 8.
(** The loop of [extensions]; [None] when the fuel runs out. *)
Fixpoint walk (fuel : nat) (payload : list Z) (nh offset chain_depth : Z) (fragment_present : bool)
    : option Ipv6ExtensionWalk.t :=
  match fuel with
  | O => None
  | S fuel =>
      if negb (is_extension_header nh) then
        Some (Ipv6ExtensionWalk.mk nh offset chain_depth fragment_present false false)
      else if MAX_DEPTH <=? chain_depth then
        Some (Ipv6ExtensionWalk.mk nh offset chain_depth fragment_present true false)
      else if zlen payload <? offset + 2 then
        Some (Ipv6ExtensionWalk.mk nh offset chain_depth fragment_present false true)
      else
        let hdr_next := at_ payload (Z.to_nat offset) in
        let ext_len_bytes := ext_header_len nh (at_ payload (Z.to_nat (offset + 1))) in
        if zlen payload <? offset + ext_len_bytes then
          Some (Ipv6ExtensionWalk.mk nh offset chain_depth fragment_present false true)
        else
          walk fuel payload hdr_next (offset + ext_len_bytes) (chain_depth + 1)
            (fragment_present || (nh =? 44))
  end.
Definition extensions (s : t) : option Ipv6ExtensionWalk.t :=
  walk 9 (payload s) (next_header s) 0 0 false.
End Ipv6Slice.

Module ArpSlice.
Definition htype (raw : list Z) : Z := be16 raw 0.
Definition ptype (raw : list Z) : Z := be16 raw 2.
Definition hlen (raw : list Z) : Z := at_ raw 4.
Definition plen (raw : list Z) : Z := at_ raw 5.
Definition oper (raw : list Z) : Z := be16 raw 6.
Definition sender_ha (raw : list Z) : option (list Z) :=
  if negb (hlen raw =? 6) || (zlen raw <? 14) then None else Some (zslice 8 14 raw).
Definition sender_pa (raw : list Z) : option Z :=
  if negb (plen raw =? 4) || (zlen raw <? 18) then None else Some (be32_at raw 14).
Definition target_ha (raw : list Z) : option (list Z) :=
  if negb (hlen raw =? 6) || (zlen raw <? 24) then None else Some (zslice 18 24 raw).
Definition target_pa (raw : list Z) : option Z :=
  if negb (plen raw =? 4) || (zlen raw <? 28) then None else Some (be32_at raw 24).
Definition header (raw : list Z) : list Z := ztake (Z.min (zlen raw) 28) raw.
End ArpSlice.

(** ** Transport layer (transport.rs) *)
Module TcpFlagsView.
Record t := mk { syn : bool; ack : bool; fin : bool; rst : bool; psh : bool; urg : bool;
  ece : bool; cwr : bool; ns : bool }.
Definition from_bytes (flags_hi flags_lo : Z) : t :=
  let bit f m := negb (Z.land f m =? 0) in
  mk (bit flags_lo 0x02) (bit flags_lo 0x10) (bit flags_lo 0x01) (bit flags_lo 0x04)
     (bit flags_lo 0x08) (bit flags_lo 0x20) (bit flags_lo 0x40) (bit flags_lo 0x80)
     (bit flags_hi 0x01).
End TcpFlagsView.

Inductive TcpOption :=
  | EndOfList | Nop | Mss (v : Z) | WindowScale (v : Z) | SackPermitted | Sack (data : list Z)
  | TsOption (tsval tsecr : Z) | UnknownOption (kind : Z) (data : list Z).

Module TcpOptionsIter.
(** [Iterator::next] on the remaining bytes. *)
Definition next (raw : list Z) : option TcpOption * list Z :=
  match raw with
  | [] => (None, [])
  | kind :: _ =>
      if kind =? 0 then (Some EndOfList, [])
      else if kind =? 1 then (Some Nop, zdrop 1 raw)
      else if zlen raw <? 2 then (None, [])
      else
        let len := at_ raw 1 in
        if (len <? 2) || (zlen raw <? len) then (None, [])
        else
          let data := zslice 2 len raw in
          let opt :=
            if (kind =? 2) && (zlen data =? 2) then Mss (be16 data 0)
            else if (kind =? 3) && (zlen data =? 1) then WindowScale (at_ data 0)
            else if (kind =? 4) && (zlen data =? 0) then SackPermitted
            else if kind =? 5 then Sack data
            else if (kind =? 8) && (zlen data =? 8) then TsOption (be32_at data 0) (be32_at data 4)
            else UnknownOption kind data in
          (Some opt, zdrop len raw)
  end.
(** A [for] loop over the iterator. *)
Fixpoint collect (fuel : nat) (raw : list Z) : list TcpOption :=
  match fuel with
  | O => []
  | S fuel => match next raw with (Some o, raw) => o :: collect fuel raw | (None, _) => [] end
  end.
End TcpOptionsIter.

Module TcpSlice.
Record t := mk { raw : list Z; header_len : Z }.
Definition src_port (s : t) : Z := be16 (raw s) 0.
Definition dst_port (s : t) : Z := be16 (raw s) 2.
Definition seq (s : t) : Z := be32_at (raw s) 4.
Definition ack (s : t) : Z := be32_at (raw s) 8.
Definition data_offset (s : t) : Z := bits (raw s) 12 4 0x0F.
Definition flags (s : t) : TcpFlagsView.t := TcpFlagsView.from_bytes (at_ (raw s) 12) (at_ (raw s) 13).
Definition window (s : t) : Z := be16 (raw s) 14.
Definition checksum (s : t) : Z := be16 (raw s) 16.
Definition urgent_pointer (s : t) : Z := be16 (raw s) 18.
Definition header (s : t) : list Z := ztake (header_len s) (raw s).
Definition payload (s : t) : list Z := zdrop (header_len s) (raw s).
(** The bytes [options] iterates over. *)
Definition options_raw (s : t) : list Z :=
  if 20 <? header_len s then zslice 20 (header_len s) (raw s) else [].
Definition options (s : t) : list TcpOption :=
  TcpOptionsIter.collect (S (length (options_raw s))) (options_raw s).
End TcpSlice.

Module UdpSlice.
Definition src_port (raw : list Z) : Z := be16 raw 0.
Definition dst_port (raw : list Z) : Z := be16 raw 2.
Definition length (raw : list Z) : Z := be16 raw 4.
Definition checksum (raw : list Z) : Z := be16 raw 6.
Definition header (raw : list Z) : list Z := ztake 8 raw.
Definition payload (raw : list Z) : list Z := zdrop 8 raw.
End UdpSlice.

Module Icmpv4Slice.
Definition icmp_type (raw : list Z) : Z := at_ raw 0.
Definition code (raw : list Z) : Z := at_ raw 1.
Definition checksum (raw : list Z) : Z := be16 raw 2.
Definition payload (raw : list Z) : list Z := zdrop 4 raw.
Definition header (raw : list Z) : list Z := ztake (Z.min 4 (zlen raw)) raw.
End Icmpv4Slice.

Module Icmpv6Slice.
Definition icmp_type (raw : list Z) : Z := at_ raw 0.
Definition code (raw : list Z) : Z := at_ raw 1.
Definition checksum (raw : list Z) : Z := be16 raw 2.
Definition payload (raw : list Z) : list Z := zdrop 4 raw.
Definition header (raw : list Z) : list Z := ztake (Z.min 4 (zlen raw)) raw.
End Icmpv6Slice.

(** ** Tunnels (tunnel.rs) *)
Module GreSlice.
Definition has_checksum (raw : list Z) : bool := flag raw 0 0x80.
Definition has_key (raw : list Z) : bool := flag raw 0 0x20.
Definition has_sequence (raw : list Z) : bool := flag raw 0 0x10.
Definition protocol_type (raw : list Z) : Z := be16 raw 2.
Definition header_len (raw : list Z) : Z :=
  4 + (if has_checksum raw then 4 else 0) + (if has_key raw then 4 else 0)
    + (if has_sequence raw then 4 else 0).
Definition header (raw : list Z) : list Z := ztake (Z.min (header_len raw) (zlen raw)) raw.
End GreSlice.

Module VxlanSlice.
Definition valid (raw : list Z) : bool := flag raw 0 0x08.
Definition vni (raw : list Z) : Z :=
  Z.lor (Z.lor (Z.shiftl (at_ raw 4) 16) (Z.shiftl (at_ raw 5) 8)) (at_ raw 6).
Definition header (raw : list Z) : list Z := ztake (Z.min 8 (zlen raw)) raw.
End VxlanSlice.

Module GtpUSlice.
Definition version (raw : list Z) : Z := bits raw 0 5 0x07.
Definition has_sequence (raw : list Z) : bool := flag raw 0 0x02.
Definition has_n_pdu (raw : list Z) : bool := flag raw 0 0x01.
Definition has_extension (raw : list Z) : bool := flag raw 0 0x04.
Definition msg_type (raw : list Z) : Z := at_ raw 1.
Definition teid (raw : list Z) : Z := be32_at raw 4.
Definition header_len (raw : list Z) : Z :=
  8 + (if has_sequence raw || has_n_pdu raw || has_extension raw then 4 else 0).
Definition header (raw : list Z) : list Z := ztake (Z.min (header_len raw) (zlen raw)) raw.
End GtpUSlice.

(** ** The extension-header walk *)
Module Ipv6Walk.
Import Ipv6Slice.

(** One extension header: its type, its length field and the bytes after
    its first two. *)
Record ext := Ext { ext_type : Z; ext_len : Z; ext_body : list Z }.
Definition ext_ok (e : ext) : Prop :=
  is_extension_header (ext_type e) = true /\
  2 + zlen (ext_body e) = ext_header_len (ext_type e) (ext_len e).
(** The bytes of a chain that leads to [upper]. *)
Fixpoint chain (es : list ext) (upper : Z) : list Z :=
  match es with
  | [] => []
  | e :: es =>
      (match es with [] => upper | e' :: _ => ext_type e' end) :: ext_len e :: ext_body e
      ++ chain es upper
  end.
Definition first_header (es : list ext) (upper : Z) : Z :=
  match es with [] => upper | e :: _ => ext_type e end.

Lemma chain_cons e es upper :
  chain (e :: es) upper = first_header es upper :: ext_len e :: ext_body e ++ chain es upper.
Proof. done. Qed.

Lemma zlen_chain_cons e es upper : ext_ok e ->
  zlen (chain (e :: es) upper) = ext_header_len (ext_type e) (ext_len e) + zlen (chain es upper).
Proof. intros [_ H]. rewrite chain_cons. zlia. Qed.

Lemma at_app_r l k i : at_ (l ++ k) (length l + i) = at_ k i.
Proof. unfold at_. rewrite app_nth2 by lia. f_equal. lia. Qed.
Lemma at_zlen l k i : at_ (l ++ k) (Z.to_nat (zlen l + Z.of_nat i)) = at_ k i.
Proof.
  rewrite <- (at_app_r l k i). f_equal. unfold zlen. lia.
Qed.

Lemma at_here l a k : at_ (l ++ a :: k) (Z.to_nat (zlen l)) = a.
Proof. pose proof (at_zlen l (a :: k) 0) as H. by rewrite Z.add_0_r in H. Qed.
Lemma at_next l a b k : at_ (l ++ a :: b :: k) (Z.to_nat (zlen l + 1)) = b.
Proof. exact (at_zlen l (a :: b :: k) 1). Qed.

(** The loop, started after a prefix of the chain. *)
Lemma walk_chain es upper rest : Forall ext_ok es -> is_extension_header upper = false ->
  forall fuel pre depth frag, Z.of_nat (length es) + depth <= MAX_DEPTH ->
  (length es < fuel)%nat ->
  walk fuel (pre ++ chain es upper ++ rest) (first_header es upper) (zlen pre) depth frag =
  Some (Ipv6ExtensionWalk.mk upper (zlen pre + zlen (chain es upper))
          (depth + Z.of_nat (length es)) (frag || existsb (fun e => ext_type e =? 44) es)
          false false).
Proof.
  intros Hes Hup. induction Hes as [|e es He Hes IH]; intros [|fuel] pre depth frag Hd Hf;
    cbn [length] in Hd, Hf; [lia| |lia|].
  - cbn [walk first_header chain length existsb]. rewrite Hup. cbn [negb].
    rewrite zlen_nil, orb_false_r, !Z.add_0_r. done.
  - destruct He as [Ht Hl]. cbn [walk first_header]. rewrite Ht. cbn [negb].
    assert (chain (e :: es) upper ++ rest
      = [first_header es upper; ext_len e] ++ ext_body e ++ chain es upper ++ rest) as Ec.
    { rewrite chain_cons. cbn. by rewrite <- app_assoc. }
    destruct (Z.leb_spec MAX_DEPTH depth); [lia|].
    assert (zlen (chain (e :: es) upper) =
      ext_header_len (ext_type e) (ext_len e) + zlen (chain es upper)) as Hz by by apply zlen_chain_cons.
    rewrite !zlen_app. pose proof (zlen_nonneg (chain es upper)). pose proof (zlen_nonneg rest).
    pose proof (zlen_nonneg (ext_body e)).
    destruct (Z.ltb_spec (zlen pre + (zlen (chain (e :: es) upper) + zlen rest)) (zlen pre + 2)); [lia|].
    rewrite Ec. cbn [app]. rewrite at_here, at_next.
    destruct (Z.ltb_spec (zlen pre + (zlen (chain (e :: es) upper) + zlen rest))
      (zlen pre + ext_header_len (ext_type e) (ext_len e))); [lia|].
    specialize (IH fuel (pre ++ first_header es upper :: ext_len e :: ext_body e) (depth + 1)
      (frag || (ext_type e =? 44)) ltac:(lia) ltac:(lia)).
    rewrite <- !app_assoc in IH. cbn [app] in IH.
    replace (zlen (pre ++ first_header es upper :: ext_len e :: ext_body e))
      with (zlen pre + ext_header_len (ext_type e) (ext_len e)) in IH by zlia.
    rewrite IH. f_equal. cbn [length existsb]. rewrite orb_assoc, Hz. f_equal; lia.
Qed.

(** Whatever the bytes, the walk stops within its fuel, inside the
    payload and at most eight headers deep. *)
Lemma walk_bounded payload : forall fuel nh offset depth frag,
  Forall is_byte payload -> 0 <= offset <= zlen payload -> 0 <= depth <= MAX_DEPTH ->
  MAX_DEPTH - depth < Z.of_nat fuel ->
  exists w, walk fuel payload nh offset depth frag = Some w /\
    offset <= Ipv6ExtensionWalk.payload_offset w <= zlen payload /\
    depth <= Ipv6ExtensionWalk.chain_depth w <= MAX_DEPTH /\
    (Ipv6ExtensionWalk.chain_too_deep w = true -> Ipv6ExtensionWalk.chain_depth w = MAX_DEPTH) /\
    (Ipv6ExtensionWalk.chain_too_deep w = false -> Ipv6ExtensionWalk.malformed w = false ->
     is_extension_header (Ipv6ExtensionWalk.upper_header w) = false).
Proof.
  induction fuel as [|fuel IH]; intros nh offset depth frag Hb Ho Hd Hf; [lia|]. cbn [walk].
  destruct (is_extension_header nh) eqn:En; cbn [negb].
  2: { eexists. split; [done|]. cbn. split_and!; done || lia. }
  destruct (Z.leb_spec MAX_DEPTH depth).
  { eexists. split; [done|]. cbn. split_and!; try done; lia. }
  destruct (Z.ltb_spec (zlen payload) (offset + 2)).
  { eexists. split; [done|]. cbn. split_and!; try done; lia. }
  set (l := at_ payload (Z.to_nat (offset + 1))).
  assert (0 <= l) as Hl.
  { unfold l, at_. destruct (nth_in_or_default (Z.to_nat (offset + 1)) payload 0) as [Hin| ->]; [|done].
    rewrite Forall_forall in Hb. apply list_elem_of_In in Hin. by apply Hb in Hin as []. }
  assert (0 < ext_header_len nh l) as Hpos by (unfold ext_header_len; repeat case_if; lia).
  destruct (Z.ltb_spec (zlen payload) (offset + ext_header_len nh l)).
  { eexists. split; [done|]. cbn. split_and!; try done; lia. }
  destruct (IH (at_ payload (Z.to_nat offset)) (offset + ext_header_len nh l) (depth + 1)
    (frag || (nh =? 44)) Hb) as (w & E & B1 & B2 & B3 & B4); [lia..|].
  exists w. split_and!; try done; lia.
Qed.
End Ipv6Walk.

(** ** TCP options *)
Module TcpOptions.
Import TcpOptionsIter.

Definition be16_bytes (v : Z) : list Z := [v / 256; v mod 256].
Definition be32_bytes (v : Z) : list Z := be16_bytes (v / 65536) ++ be16_bytes (v mod 65536).
Definition encode (o : TcpOption) : list Z :=
  match o with
  | EndOfList => [0]
  | Nop => [1]
  | Mss v => 2 :: 4 :: be16_bytes v
  | WindowScale v => [3; 3; v]
  | SackPermitted => [4; 2]
  | Sack data => 5 :: (2 + zlen data) :: data
  | TsOption a b => 8 :: 10 :: be32_bytes a ++ be32_bytes b
  | UnknownOption kind data => kind :: (2 + zlen data) :: data
  end.
(** Values of their widths; an unknown option is one the iterator does not
    know by another name. *)
Definition well_formed (o : TcpOption) : Prop :=
  match o with
  | EndOfList => False
  | Nop | SackPermitted | WindowScale _ => True
  | Mss v => 0 <= v
  | Sack data => zlen data <= 253
  | TsOption a b => 0 <= a /\ 0 <= b
  | UnknownOption kind data =>
      kind <> 0 /\ kind <> 1 /\ kind <> 5 /\ zlen data <= 253 /\
      ~ (kind = 2 /\ zlen data = 2) /\ ~ (kind = 3 /\ zlen data = 1) /\
      ~ (kind = 4 /\ zlen data = 0) /\ ~ (kind = 8 /\ zlen data = 8)
  end.

Lemma be16_roundtrip v k : be16 (be16_bytes v ++ k) 0 = v.
Proof. unfold be16, be16_bytes, at_. cbn. pose proof (Z.div_mod v 256). lia. Qed.
Lemma be32_roundtrip v k : be32_at (be32_bytes v ++ k) 0 = v.
Proof.
  unfold be32_at, be32_bytes, be16_bytes, be16, at_. cbn [app nth].
  pose proof (Z.div_mod v 65536). pose proof (Z.div_mod (v / 65536) 256).
  pose proof (Z.div_mod (v mod 65536) 256). lia.
Qed.
Lemma be32_roundtrip_next v w : be32_at (be32_bytes v ++ be32_bytes w) 4 = w.
Proof. rewrite <- (be32_roundtrip w []) at 2. rewrite app_nil_r. done. Qed.

(** An option of a kind above one, from its bytes. *)
Lemma next_tlv kind data rest : kind <> 0 -> kind <> 1 -> zlen data <= 253 ->
  next (kind :: (2 + zlen data) :: data ++ rest) =
  (Some (if (kind =? 2) && (zlen data =? 2) then Mss (be16 data 0)
         else if (kind =? 3) && (zlen data =? 1) then WindowScale (at_ data 0)
         else if (kind =? 4) && (zlen data =? 0) then SackPermitted
         else if kind =? 5 then Sack data
         else if (kind =? 8) && (zlen data =? 8) then TsOption (be32_at data 0) (be32_at data 4)
         else UnknownOption kind data), rest).
Proof.
  intros H0 H1 Hd. unfold next.
  destruct (Z.eqb_spec kind 0); [done|]. destruct (Z.eqb_spec kind 1); [done|].
  pose proof (zlen_nonneg data). pose proof (zlen_nonneg rest).
  change (at_ (kind :: 2 + zlen data :: data ++ rest) 1) with (2 + zlen data).
  rewrite !zlen_cons, zlen_app. destruct (Z.ltb_spec (1 + (1 + (zlen data + zlen rest))) 2); [lia|].
  destruct (Z.ltb_spec (2 + zlen data) 2); [lia|].
  destruct (Z.ltb_spec (1 + (1 + (zlen data + zlen rest))) (2 + zlen data)); [lia|]. cbn [orb].
  assert (zslice 2 (2 + zlen data) (kind :: 2 + zlen data :: data ++ rest) = data) as ->.
  { unfold zslice. rewrite !zdrop_cons, zdrop_0 by lia.
    rewrite ztake_app_le, ztake_ge by lia. done. }
  f_equal. rewrite !zdrop_cons by lia. rewrite zdrop_app_ge, zdrop_0 by lia. done.
Qed.

Lemma next_encode o rest : well_formed o -> next (encode o ++ rest) = (Some o, rest).
Proof.
  destruct o as [| |v|v| |data|a b|kind data]; intros H; cbn [encode app well_formed] in *.
  - done.
  - done.
  - change (2 :: 4 :: be16_bytes v ++ rest) with (2 :: 2 + zlen (be16_bytes v) :: be16_bytes v ++ rest).
    rewrite next_tlv by done. cbn -[be16 be16_bytes]. rewrite <- (app_nil_r (be16_bytes v)).
    by rewrite be16_roundtrip.
  - exact (next_tlv 3 [v] rest ltac:(done) ltac:(done) ltac:(done)).
  - exact (next_tlv 4 [] rest ltac:(done) ltac:(done) ltac:(done)).
  - rewrite next_tlv by done. done.
  - change (8 :: 10 :: (be32_bytes a ++ be32_bytes b) ++ rest)
      with (8 :: 2 + zlen (be32_bytes a ++ be32_bytes b) :: (be32_bytes a ++ be32_bytes b) ++ rest).
    rewrite next_tlv by done. cbn -[be32_at be32_bytes app].
    by rewrite be32_roundtrip, be32_roundtrip_next.
  - destruct H as (H0 & H1 & H5 & Hd & N2 & N3 & N4 & N8). rewrite next_tlv by done.
    destruct (Z.eqb_spec kind 5); [done|].
    destruct (Z.eqb_spec kind 2), (Z.eqb_spec kind 3), (Z.eqb_spec kind 4), (Z.eqb_spec kind 8),
      (Z.eqb_spec (zlen data) 2), (Z.eqb_spec (zlen data) 1), (Z.eqb_spec (zlen data) 0),
      (Z.eqb_spec (zlen data) 8); cbn [andb]; try done; tauto.
Qed.

Lemma encode_nonempty o : (0 < length (encode o))%nat.
Proof. destruct o; cbn; lia. Qed.

(** The iterator on well-formed options, then the end of the header or an
    end marker and anything after it. *)
Lemma collect_encode os tail : Forall well_formed os ->
  forall fuel, (length (concat (encode <$> os)) + length tail < fuel)%nat ->
  match tail with
  | [] => collect fuel (concat (encode <$> os)) = os
  | e :: pad => e = 0 -> collect fuel (concat (encode <$> os) ++ e :: pad) = os ++ [EndOfList]
  end.
Proof.
  induction 1 as [|o os Ho Hos IH]; intros fuel Hf.
  - cbn in *. destruct fuel as [|[|fuel]]; destruct tail as [|e pad]; cbn in *; try lia; try done.
    + intros ->. done.
  - cbn [fmap list_fmap concat] in *. rewrite length_app in Hf. pose proof (encode_nonempty o).
    destruct fuel as [|fuel]; [lia|]. specialize (IH fuel ltac:(lia)).
    destruct tail as [|e pad]; [|intros He]; cbn [collect]; rewrite <- ?app_assoc, next_encode by done.
    + by rewrite IH.
    + cbn [app]. by rewrite IH.
Qed.
End TcpOptions.

(** ** What the two loops guarantee *)
Module LayersProps.
Import Ipv6Walk TcpOptions.

Lemma payload_after (hdr rest : list Z) n : zlen hdr = n -> zdrop n (hdr ++ rest) = rest.
Proof. intros <-. rewrite zdrop_app_ge, zdrop_0 by lia. done. Qed.

(** The walk over IPv6 extension headers sees through any chain of at
    most eight well-formed ones, of any kinds and lengths: it returns the
    true upper-layer protocol, the offset of its header, the number of
    extensions and whether a fragment header is among them.  Hiding the
    transport protocol behind extensions does not work. *)
Theorem ipv6_extensions_exact hdr es upper rest :
  zlen hdr = 40 -> at_ hdr 6 = first_header es upper ->
  Forall ext_ok es -> Z.of_nat (length es) <= Ipv6Slice.MAX_DEPTH ->
  is_extension_header upper = false ->
  Ipv6Slice.extensions (Ipv6Slice.mk (hdr ++ chain es upper ++ rest) 40) =
  Some (Ipv6ExtensionWalk.mk upper (zlen (chain es upper)) (Z.of_nat (length es))
          (existsb (fun e => ext_type e =? 44) es) false false).
Proof.
  intros Hh H6 Hes Hn Hup. unfold Ipv6Slice.extensions, Ipv6Slice.payload, Ipv6Slice.next_header.
  cbn [Ipv6Slice.raw Ipv6Slice.header_len]. rewrite payload_after by done.
  replace (at_ (hdr ++ chain es upper ++ rest) 6) with (first_header es upper).
  2: { unfold at_ in *. rewrite app_nth1 by (unfold zlen in Hh; lia). done. }
  apply (walk_chain es upper rest Hes Hup 9 [] 0 false); unfold Ipv6Slice.MAX_DEPTH in *; lia.
Qed.
Lemma ipv6_extensions_exact_witness :
  let es := [Ext 0 0 [0;0;0;0;0;0]; Ext 44 7 [1;2;3;4;5;6]; Ext 51 1 [0;0;0;0;0;0;0;0;0;0]] in
  let hdr := replicate 6 96 ++ 0 :: replicate 33 7 in
  Ipv6Slice.extensions (Ipv6Slice.mk (hdr ++ chain es 6 ++ [80; 81]) 40) =
  Some (Ipv6ExtensionWalk.mk 6 28 3 true false false).
Proof.
  intros es hdr. apply (ipv6_extensions_exact hdr es 6 [80; 81]); try reflexivity; [|done].
  repeat constructor.
Defined.

(** Whatever the bytes of an IPv6 packet, the walk returns (its nine
    iterations of fuel are enough), never reads past the payload, goes no
    deeper than eight headers, and unless it says that the chain was too
    deep or malformed, what it returns is not an extension header. *)
Theorem ipv6_extensions_bounded raw header_len :
  Forall is_byte raw -> 0 <= header_len ->
  exists w, Ipv6Slice.extensions (Ipv6Slice.mk raw header_len) = Some w /\
    0 <= Ipv6ExtensionWalk.payload_offset w <= zlen (zdrop header_len raw) /\
    0 <= Ipv6ExtensionWalk.chain_depth w <= 8 /\
    (Ipv6ExtensionWalk.chain_too_deep w = true -> Ipv6ExtensionWalk.chain_depth w = 8) /\
    (Ipv6ExtensionWalk.chain_too_deep w = false -> Ipv6ExtensionWalk.malformed w = false ->
     is_extension_header (Ipv6ExtensionWalk.upper_header w) = false).
Proof.
  intros Hb Hl. apply (walk_bounded (zdrop header_len raw) 9).
  - unfold zdrop. by apply Forall_drop.
  - pose proof (zlen_nonneg (zdrop header_len raw)). lia.
  - unfold Ipv6Slice.MAX_DEPTH. lia.
  - unfold Ipv6Slice.MAX_DEPTH. lia.
Qed.
Lemma ipv6_extensions_bounded_witness :
  let raw := replicate 128 0 in
  Forall is_byte raw /\
  exists w, Ipv6Slice.extensions (Ipv6Slice.mk raw 40) = Some w /\
    0 <= Ipv6ExtensionWalk.payload_offset w <= zlen (zdrop 40 raw) /\
    0 <= Ipv6ExtensionWalk.chain_depth w <= 8 /\
    (Ipv6ExtensionWalk.chain_too_deep w = true -> Ipv6ExtensionWalk.chain_depth w = 8) /\
    (Ipv6ExtensionWalk.chain_too_deep w = false -> Ipv6ExtensionWalk.malformed w = false ->
     is_extension_header (Ipv6ExtensionWalk.upper_header w) = false).
Proof.
  assert (Forall is_byte (replicate 128 0)) as H.
  { apply Forall_replicate. unfold is_byte. lia. }
  split; [exact H|apply (ipv6_extensions_bounded (replicate 128 0) 40 H); lia].
Defined.

(** TCP options survive the header: any sequence of well-formed
    options, followed by the end of the header or by an end-of-list marker
    and arbitrary padding, is iterated back exactly. *)
Theorem tcp_options_roundtrip fixed os pad payload :
  zlen fixed = 20 -> Forall well_formed os ->
  (let raw := concat (encode <$> os) in
   TcpSlice.options (TcpSlice.mk (fixed ++ raw ++ payload) (20 + zlen raw)) = os) /\
  (let raw := concat (encode <$> os) ++ 0 :: pad in
   TcpSlice.options (TcpSlice.mk (fixed ++ raw ++ payload) (20 + zlen raw)) = os ++ [EndOfList]).
Proof.
  intros Hf Hos.
  assert (forall raw, TcpSlice.options_raw (TcpSlice.mk (fixed ++ raw ++ payload) (20 + zlen raw)) = raw)
    as Hraw.
  { intros raw. unfold TcpSlice.options_raw. cbn [TcpSlice.raw TcpSlice.header_len].
    pose proof (zlen_nonneg raw). destruct (Z.ltb_spec 20 (20 + zlen raw)).
    - unfold zslice. rewrite payload_after by done.
      rewrite ztake_app_le, ztake_ge by lia. done.
    - symmetry. apply zlen_zero. lia. }
  split; cbv zeta; unfold TcpSlice.options; rewrite Hraw.
  - by apply (collect_encode os []); [|cbn; lia].
  - by apply (collect_encode os (0 :: pad)); [|rewrite length_app; lia|].
Qed.
Lemma tcp_options_roundtrip_witness :
  let os := [Mss 1460; SackPermitted; TsOption 4000000000 7; Nop; WindowScale 7; Sack [1; 2];
             UnknownOption 30 [9; 9]] in
  Forall well_formed os /\
  TcpSlice.options (TcpSlice.mk (replicate 20 0 ++ concat (encode <$> os) ++ [65])
    (20 + zlen (concat (encode <$> os)))) = os.
Proof.
  intros os. assert (Forall well_formed os) as H.
  { unfold os. repeat constructor; cbn; try done; lia. }
  split; [exact H|]. exact (proj1 (tcp_options_roundtrip (replicate 20 0) os [] [65] eq_refl H)).
Defined.
End LayersProps.
