(* ===== verification/IpFragment.v ===== *)
(** * IP fragment reassembly (src/src/ip_fragment.rs)

    A [HashMap] is a [gmap]; the order in which it is iterated is not
    specified, so [drop_oldest] takes it as a parameter ([order]), of which
    nothing is assumed but that it lists the entries of the map.  A
    [BTreeMap] is the sorted association list of BTree.v. *)

From stdpp Require Import gmap.
From S2P Require Import Prelude Time BTree Layers.
Open Scope Z_scope.

(** An address is its version and its value. *)
Inductive IpAddr := V4 (a : Z) | V6 (a : Z).
#[export] Instance IpAddr_eq_dec : EqDecision IpAddr.
Proof. solve_decision. Defined.

Module FragmentKey.
Record t := mk { src : IpAddr; dst : IpAddr; protocol : Z; id : Z }.
#[global] Instance eq_dec : EqDecision t.
Proof. solve_decision. Defined.
Definition code_addr (a : IpAddr) : Z + Z := match a with V4 a => inl a | V6 a => inr a end.
Definition decode_addr (a : Z + Z) : IpAddr := match a with inl a => V4 a | inr a => V6 a end.
#[global] Instance countable : Countable t.
Proof.
  apply (inj_countable' (fun k => (code_addr (src k), code_addr (dst k), protocol k, id k))
    (fun '(s, d, p, i) => mk (decode_addr s) (decode_addr d) p i)).
  by intros [[] [] p i].
Defined.
End FragmentKey.

Module FragmentConfig.
Record t := mk { max_datagrams : Z; max_datagram_bytes : Z; timeout : Z }.
Definition default : t := mk 4096 65535 (from_secs 30).
End FragmentConfig.

Module Reassembly.
Record t := mk {
  fragments : list (Z * list Z); total_len : option Z; buffered : Z;
  first_seen : Timestamp.t; poisoned : bool }.
#[global] Instance eta : Eta t := mk_eta (fun r =>
  mk (fragments r) (total_len r) (buffered r) (first_seen r) (poisoned r)).
Definition new (now : Timestamp.t) : t := mk [] None 0 now false.
End Reassembly.

(** [is_contiguous]; the loop with its accumulator. *)
Fixpoint contiguous_from (expected : Z) (fs : list (Z * list Z)) (total : Z) : bool :=
  match fs with
  | [] => expected =? total
  | (offset, data) :: fs =>
      if offset =? expected then contiguous_from (expected + zlen data) fs total else false
  end.
Definition is_contiguous (fs : list (Z * list Z)) (total : Z) : bool := contiguous_from 0 fs total.

Module IpFragmentReassembler.
Notation Pending := (gmap FragmentKey.t Reassembly.t).
Record t := mk {
  pending : Pending; config : FragmentConfig.t;
  reassembled : Z; timed_out : Z; overlaps : Z; oversize_dropped : Z }.
#[global] Instance eta : Eta t := mk_eta (fun x =>
  mk (pending x) (config x) (reassembled x) (timed_out x) (overlaps x) (oversize_dropped x)).

Definition with_config (c : FragmentConfig.t) : t := mk ∅ c 0 0 0 0.
Definition new : t := with_config FragmentConfig.default.
Definition pending_len (x : t) : Z := Z.of_nat (size (pending x)).

Section push.
Variable order : Pending -> list (FragmentKey.t * Reassembly.t).

Definition alive (now : Timestamp.t) (timeout : Z) (r : Reassembly.t) : Prop :=
  sat_sub (Timestamp.to_duration now) (Timestamp.to_duration (Reassembly.first_seen r)) <= timeout.
#[global] Instance alive_dec now timeout r : Decision (alive now timeout r).
Proof. apply Z_le_dec. Defined.

Definition evict_expired (now : Timestamp.t) (x : t) : t * Z :=
  let before := pending_len x in
  let x := x <| pending ::= filter (fun kr => alive now (FragmentConfig.timeout (config x)) kr.2) |> in
  let dropped := before - pending_len x in
  (x <| timed_out ::= Z.add dropped |>, dropped).

(** [Iterator::min_by_key]: the first of the least entries. *)
Fixpoint min_by_first_seen (best : FragmentKey.t * Reassembly.t)
    (l : list (FragmentKey.t * Reassembly.t)) : FragmentKey.t :=
  match l with
  | [] => best.1
  | kr :: l =>
      if Timestamp.to_duration (Reassembly.first_seen kr.2)
           <? Timestamp.to_duration (Reassembly.first_seen best.2)
      then min_by_first_seen kr l else min_by_first_seen best l
  end.
Definition drop_oldest (x : t) : t :=
  match order (pending x) with
  | [] => x
  | kr :: l => x <| pending ::= delete (min_by_first_seen kr l) |>
  end.

Definition overlaps_any (offset end_ : Z) (fs : list (Z * list Z)) : bool :=
  existsb (fun '(o, data) => (offset <? o + zlen data) && (o <? end_)) fs.

(** The body of [push] once the entry exists. *)
Definition add (key : FragmentKey.t) (offset : Z) (more_fragments : bool) (payload : list Z)
    (entry : Reassembly.t) (x : t) : t * option (list Z) :=
  let cap := FragmentConfig.max_datagram_bytes (config x) in
  if Reassembly.poisoned entry then (x, None)
  else
    let end_ := sat_add offset (zlen payload) in
    if overlaps_any offset end_ (Reassembly.fragments entry) then
      (x <| overlaps ::= Z.add 1 |> <| pending ::= delete key |>, None)
    else if (cap <? Reassembly.buffered entry + zlen payload) || (cap <? end_) then
      (x <| oversize_dropped ::= Z.add 1 |> <| pending ::= delete key |>, None)
    else
      let entry :=
        entry <| Reassembly.buffered ::= Z.add (zlen payload) |>
              <| Reassembly.fragments ::= BTreeMap.insert offset payload |> in
      let entry := if more_fragments then entry else entry <| Reassembly.total_len := Some end_ |> in
      if is_some_and (is_contiguous (Reassembly.fragments entry)) (Reassembly.total_len entry) then
        (x <| pending ::= delete key |> <| reassembled ::= Z.add 1 |>,
         Some (concat (snd <$> Reassembly.fragments entry)))
      else (x <| pending ::= insert key entry |>, None).

Definition push (key : FragmentKey.t) (offset : Z) (more_fragments : bool) (payload : list Z)
    (now : Timestamp.t) (x : t) : t * option (list Z) :=
  if (offset =? 0) && negb more_fragments then (x, Some payload)
  else
    let x := (evict_expired now x).1 in
    let x :=
      if is_none (pending x !! key) && (FragmentConfig.max_datagrams (config x) <=? pending_len x)
      then drop_oldest x else x in
    match pending x !! key with
    | Some entry => add key offset more_fragments payload entry x
    | None =>
        let entry := Reassembly.new now in
        add key offset more_fragments payload entry (x <| pending ::= insert key entry |>)
    end.

Definition push_ipv4 (ip : Ipv4Slice.t) (now : Timestamp.t) (x : t) : t * option (list Z) :=
  let key := FragmentKey.mk (V4 (Ipv4Slice.source ip)) (V4 (Ipv4Slice.destination ip))
               (Ipv4Slice.protocol ip) (Ipv4Slice.identification ip) in
  push key (Ipv4Slice.fragment_offset ip * 8) (Ipv4Slice.mf ip) (Ipv4Slice.payload ip) now x.
End push.
End IpFragmentReassembler.

(** ** Lemmas *)
Module FragmentFacts.
Import IpFragmentReassembler.

Section facts.
Variable order : gmap FragmentKey.t Reassembly.t -> list (FragmentKey.t * Reassembly.t).
Hypothesis order_perm : forall m, order m ≡ₚ map_to_list m.

(** Pushed fragments, and the datagrams that come out. *)
Record Push := MkPush {
  p_key : FragmentKey.t; p_offset : Z; p_more : bool; p_payload : list Z; p_now : Timestamp.t }.
Definition push1 (p : Push) (x : t) : t * option (list Z) :=
  push order (p_key p) (p_offset p) (p_more p) (p_payload p) (p_now p) x.
Fixpoint pushes (ps : list Push) (x : t) : t * list (option (list Z)) :=
  match ps with
  | [] => (x, [])
  | p :: ps => let '(x, o) := push1 p x in let '(x, os) := pushes ps x in (x, o :: os)
  end.

(** *** Housekeeping only removes entries *)
Lemma evict_pending now x : pending (evict_expired now x).1 ⊆ pending x.
Proof. apply map_filter_subseteq. Qed.
Lemma evict_config now x : config (evict_expired now x).1 = config x.
Proof. done. Qed.
Lemma evict_size now x : pending_len (evict_expired now x).1 <= pending_len x.
Proof.
  unfold pending_len. apply Nat2Z.inj_le, map_subseteq_size, evict_pending.
Qed.
Lemma min_by_in best l : exists r, (min_by_first_seen best l, r) ∈ best :: l.
Proof.
  revert best. induction l as [|kr l IH]; intros best; cbn.
  { exists best.2. rewrite <- surjective_pairing. left. }
  case_if; [destruct (IH kr) as [r Hr]|destruct (IH best) as [r Hr]]; exists r; set_solver.
Qed.
Lemma drop_oldest_pending x : pending (drop_oldest order x) ⊆ pending x.
Proof. unfold drop_oldest. case_match; [done|]. apply delete_subseteq. Qed.
Lemma drop_oldest_config x : config (drop_oldest order x) = config x.
Proof. unfold drop_oldest. by case_match. Qed.
Lemma drop_oldest_size x : pending x <> ∅ -> pending_len (drop_oldest order x) = pending_len x - 1.
Proof.
  intros Hx. unfold drop_oldest, pending_len. pose proof (order_perm (pending x)) as Hp.
  destruct (order (pending x)) as [|kr l].
  - apply Permutation_nil in Hp. by apply map_to_list_empty_iff in Hp.
  - destruct (min_by_in kr l) as [r Hr]. rewrite Hp in Hr. apply elem_of_map_to_list in Hr. cbn.
    rewrite map_size_delete_Some by eauto.
    assert (size (pending x) <> 0%nat) by (by intros ?%map_size_empty_inv). lia.
Qed.

(** *** The two outcomes of [push]'s lookup *)
Definition prepared (p : Push) (x : t) : t :=
  let x := (evict_expired (p_now p) x).1 in
  if is_none (pending x !! p_key p) && (FragmentConfig.max_datagrams (config x) <=? pending_len x)
  then drop_oldest order x else x.
Lemma push1_eq p x :
  push1 p x =
    if (p_offset p =? 0) && negb (p_more p) then (x, Some (p_payload p))
    else
      let x := prepared p x in
      let entry := default (Reassembly.new (p_now p)) (pending x !! p_key p) in
      add (p_key p) (p_offset p) (p_more p) (p_payload p) entry
        (x <| pending ::= <[p_key p := entry]> |>).
Proof.
  unfold push1, push. case_match; [done|]. fold (prepared p x). cbv zeta.
  destruct (pending (prepared p x) !! p_key p) as [e|] eqn:E; cbn; [|done].
  f_equal. destruct (prepared p x). cbn in *. unfold_upd. cbn. f_equal.
  by rewrite insert_id.
Qed.
Lemma prepared_pending p x : pending (prepared p x) ⊆ pending x.
Proof.
  unfold prepared. case_match; [etrans; [apply drop_oldest_pending|]|]; apply evict_pending.
Qed.
Lemma prepared_config p x : config (prepared p x) = config x.
Proof. unfold prepared. case_match; [by rewrite drop_oldest_config|done]. Qed.

(** The fragments of one datagram, and what came out for them. *)
Definition is_of (k : FragmentKey.t) (p : Push) : bool := bool_decide (p_key p = k).
Definition answers (k : FragmentKey.t) (qs : list Push) (os : list (option (list Z))) : list (option (list Z)) :=
  snd <$> List.filter (fun po => is_of k po.1) (zip qs os).

(** [add] touches its own key only. *)
Lemma add_near key o m d r x : config (add key o m d r x).1 = config x /\
  (pending (add key o m d r x).1 = pending x \/ pending (add key o m d r x).1 = delete key (pending x) \/
   exists r', pending (add key o m d r x).1 = <[key := r']> (pending x)).
Proof. unfold add. repeat case_match; split; try done; cbn; eauto. Qed.
(** One push adds at most one pending datagram, and keeps the others but for
    what housekeeping removes. *)
Lemma push1_near p x : config (push1 p x).1 = config x /\ pending_len (push1 p x).1 <= pending_len x + 1 /\
  forall k, k <> p_key p -> pending (push1 p x).1 !! k = pending x !! k \/
    pending (push1 p x).1 !! k = pending (prepared p x) !! k.
Proof.
  rewrite push1_eq. case_if; [split_and!; [done|cbn; lia|by left]|]. cbv zeta. set (r := default _ _). set (y := _ <| pending ::= _ |>).
  destruct (add_near (p_key p) (p_offset p) (p_more p) (p_payload p) r y) as [Ec Ep].
  assert (pending_len (prepared p x) <= pending_len x) as Hs
    by (unfold pending_len; apply Nat2Z.inj_le, map_subseteq_size, prepared_pending).
  assert (forall (m : Pending) r', size (<[p_key p := r']> m) <= S (size m))%nat as Hi
    by (intros m r'; rewrite map_size_insert; destruct (m !! p_key p); cbn; lia).
  pose proof (Hi (pending (prepared p x)) r) as Hi1. unfold pending_len in *. split_and!.
  - rewrite Ec. apply prepared_config.
  - destruct Ep as [->|[->|[r' ->]]]; cbn [y]; [| |].
    + change (pending y) with (<[p_key p := r]> (pending (prepared p x))). lia.
    + change (pending y) with (<[p_key p := r]> (pending (prepared p x))).
      pose proof (map_subseteq_size _ _ (delete_subseteq (<[p_key p := r]> (pending (prepared p x))) (p_key p))). lia.
    + change (pending y) with (<[p_key p := r]> (pending (prepared p x))). rewrite insert_insert_eq.
      pose proof (Hi (pending (prepared p x)) r'). lia.
  - intros k Hk. right. destruct Ep as [->|[->|[r' ->]]];
      change (pending y) with (<[p_key p := r]> (pending (prepared p x)));
      rewrite ?lookup_delete_ne, ?insert_insert_eq, ?lookup_insert_ne by done; done.
Qed.

(** *** What [add] does with a live entry *)
Definition end_of (p : Push) : Z := sat_add (p_offset p) (zlen (p_payload p)).
Definition grown (p : Push) (r : Reassembly.t) : Reassembly.t :=
  let r := r <| Reassembly.buffered ::= Z.add (zlen (p_payload p)) |>
             <| Reassembly.fragments ::= BTreeMap.insert (p_offset p) (p_payload p) |> in
  if p_more p then r else r <| Reassembly.total_len := Some (end_of p) |>.
Definition complete (r : Reassembly.t) : bool :=
  is_some_and (is_contiguous (Reassembly.fragments r)) (Reassembly.total_len r).
Definition fits (p : Push) (r : Reassembly.t) (x : t) : Prop :=
  overlaps_any (p_offset p) (end_of p) (Reassembly.fragments r) = false /\
  Reassembly.buffered r + zlen (p_payload p) <= FragmentConfig.max_datagram_bytes (config x) /\
  end_of p <= FragmentConfig.max_datagram_bytes (config x).

Inductive added (p : Push) (r : Reassembly.t) (x : t) : t * option (list Z) -> Prop :=
  | added_dropped x' : pending x' = delete (p_key p) (pending x) -> config x' = config x ->
      ~ fits p r x -> added p r x (x', None)
  | added_done x' : pending x' = delete (p_key p) (pending x) -> config x' = config x ->
      fits p r x -> complete (grown p r) = true ->
      added p r x (x', Some (concat (snd <$> Reassembly.fragments (grown p r))))
  | added_kept x' : pending x' = <[p_key p := grown p r]> (pending x) -> config x' = config x ->
      fits p r x -> complete (grown p r) = false -> added p r x (x', None).

Lemma add_added p r x : Reassembly.poisoned r = false ->
  added p r x (add (p_key p) (p_offset p) (p_more p) (p_payload p) r x).
Proof.
  intros Hp. unfold add. rewrite Hp. fold (end_of p).
  destruct (overlaps_any (p_offset p) (end_of p) (Reassembly.fragments r)) eqn:Eo.
  { by apply added_dropped; [| |intros [? ?]; congruence]. }
  destruct (Z.ltb_spec (FragmentConfig.max_datagram_bytes (config x))
              (Reassembly.buffered r + zlen (p_payload p))); cbn [orb].
  { apply added_dropped; [done..|]. unfold fits. lia. }
  destruct (Z.ltb_spec (FragmentConfig.max_datagram_bytes (config x)) (end_of p)).
  { apply added_dropped; [done..|]. unfold fits. lia. }
  fold (grown p r). fold (complete (grown p r)).
  assert (fits p r x) by done.
  destruct (complete (grown p r)) eqn:Ec; [by apply added_done|by apply added_kept].
Qed.

(** *** An invariant of every pending datagram

    A property of entries that new entries have and fragments preserve
    holds of everything that is pending, whatever is evicted. *)
Section invariant.
Variable P : FragmentKey.t -> Reassembly.t -> Prop.
Variable okay : Push -> Prop.
Variable c : FragmentConfig.t.
Hypothesis P_live : forall k r, P k r -> Reassembly.poisoned r = false.
Hypothesis P_new : forall k now, P k (Reassembly.new now).
Hypothesis P_grow : forall p r x, okay p -> P (p_key p) r -> config x = c -> fits p r x ->
  P (p_key p) (grown p r).
Definition all_pending (x : t) : Prop := forall k r, pending x !! k = Some r -> P k r.

Lemma push1_invariant p x : okay p -> config x = c -> all_pending x ->
  config (push1 p x).1 = c /\ all_pending (push1 p x).1 /\
  forall d, (push1 p x).2 = Some d ->
    (p_offset p = 0 /\ p_more p = false /\ d = p_payload p) \/
    exists r, P (p_key p) r /\ complete r = true /\ d = concat (snd <$> Reassembly.fragments r).
Proof.
  intros Hok Hc HP. rewrite push1_eq. destruct ((p_offset p =? 0) && negb (p_more p)) eqn:E0; zb.
  { split_and!; try done. intros d [= <-]. by left. }
  cbv zeta. set (x1 := prepared p x). set (r := default _ _).
  assert (config x1 = c) as Hc1 by (unfold x1; by rewrite prepared_config).
  assert (all_pending x1) as HP1.
  { intros k r' Hr. apply HP. eapply lookup_weaken; [exact Hr|apply prepared_pending]. }
  assert (P (p_key p) r) as Hr.
  { unfold r. destruct (pending x1 !! p_key p) eqn:E; cbn; [by apply HP1|apply P_new]. }
  set (x2 := x1 <| pending ::= _ |>).
  pose proof (add_added p r x2 (P_live _ _ Hr)) as Ha.
  inversion Ha as [x' Hp Hcf Hf Heq|x' Hp Hcf Hf Hco Heq|x' Hp Hcf Hf Hco Heq]; cbn.
  - split_and!; [by rewrite Hcf| |done]. intros k r' Hr'. rewrite Hp in Hr'.
    apply lookup_delete_Some in Hr' as [Hk Hr']. cbn in Hr'. rewrite lookup_insert_ne in Hr' by done. by apply HP1.
  - split_and!; [by rewrite Hcf| |].
    + intros k r' Hr'. rewrite Hp in Hr'. apply lookup_delete_Some in Hr' as [Hk Hr']. cbn in Hr'.
      rewrite lookup_insert_ne in Hr' by done. by apply HP1.
    + intros d [= <-]. right. exists (grown p r). split_and!; [by apply (P_grow p r x2)|done|done].
  - split_and!; [by rewrite Hcf| |done]. intros k r' Hr'. rewrite Hp in Hr'. cbn in Hr'.
    rewrite insert_insert_eq in Hr'. apply lookup_insert_Some in Hr' as [[<- <-]|[Hk Hr']]; [|by apply HP1].
    by apply (P_grow p r x2).
Qed.

Lemma pushes_invariant ps : forall x, Forall okay ps -> config x = c -> all_pending x ->
  let r := pushes ps x in
  config r.1 = c /\ all_pending r.1 /\
  Forall2 (fun p o => forall d, o = Some d ->
    (p_offset p = 0 /\ p_more p = false /\ d = p_payload p) \/
    exists r, P (p_key p) r /\ complete r = true /\ d = concat (snd <$> Reassembly.fragments r))
    ps r.2.
Proof.
  induction ps as [|p ps IH]; intros x Hok Hc HP; cbn; [by split_and!|].
  apply Forall_cons in Hok as [Hp Hok].
  destruct (push1_invariant p x Hp Hc HP) as (H1 & H2 & H3).
  destruct (push1 p x) as [x1 o]. cbn in *. destruct (IH x1 Hok H1 H2) as (G1 & G2 & G3).
  destruct (pushes ps x1) as [x2 os]. cbn in *. split_and!; try done. by constructor.
Qed.
End invariant.

(** *** How many datagrams *)
Lemma push1_size p x (M := Z.max 1 (FragmentConfig.max_datagrams (config x))) :
  pending_len x <= M -> pending_len (push1 p x).1 <= M.
Proof.
  intros Hx. rewrite push1_eq. case_match; [done|]. cbv zeta.
  set (x1 := prepared p x). set (r := default _ _). set (x2 := x1 <| pending ::= _ |>).
  assert (pending_len x2 <= M) as H2.
  { unfold x2, pending_len. cbn. destruct (pending x1 !! p_key p) as [r'|] eqn:E.
    - rewrite map_size_insert_Some by eauto. etrans; [|exact Hx]. unfold pending_len.
      apply Nat2Z.inj_le, map_subseteq_size, prepared_pending.
    - rewrite map_size_insert_None by done. unfold x1, prepared in *. cbv zeta in *.
      pose proof (evict_size (p_now p) x) as He. set (y := (evict_expired (p_now p) x).1) in *.
      rewrite (eq_refl : config y = config x) in *. unfold M, pending_len in *.
      destruct (is_none (pending y !! p_key p)) eqn:En; cbn [andb] in *.
      2: { unfold is_none in En. by rewrite E in En. }
      destruct (Z.leb_spec (FragmentConfig.max_datagrams (config x)) (Z.of_nat (size (pending y)))); [|lia].
      destruct (decide (pending y = ∅)) as [Ey|Ey].
      + assert (size (pending (drop_oldest order y)) <= size (pending y))%nat
          by apply map_subseteq_size, drop_oldest_pending.
        rewrite Ey, map_size_empty in *. lia.
      + pose proof (drop_oldest_size y Ey) as Hd. unfold pending_len in Hd. lia. }
  assert (pending x2 !! p_key p = Some r) as Hr by (unfold x2; cbn; apply lookup_insert_eq).
  assert (forall x', pending x' = delete (p_key p) (pending x2) -> pending_len x' <= M) as Hdel.
  { intros x' Hp. etrans; [|exact H2]. unfold pending_len. rewrite Hp.
    apply Nat2Z.inj_le, map_subseteq_size, delete_subseteq. }
  unfold add. destruct (Reassembly.poisoned r); [done|]. cbv zeta.
  destruct (overlaps_any _ _ _); [by apply Hdel|]. destruct (_ || _)%bool; [by apply Hdel|].
  destruct (is_some_and _ _); [by apply Hdel|]. cbn [fst]. unfold pending_len. cbn. change (pending x2) with (<[p_key p:=r]> (pending x1)) in *.
  rewrite insert_insert_eq, map_size_insert. rewrite lookup_insert_eq in Hr.
  unfold x2, pending_len in H2. cbn in H2. by rewrite map_size_insert in H2.
Qed.
Lemma pushes_size ps : forall x (M := Z.max 1 (FragmentConfig.max_datagrams (config x))),
  pending_len x <= M -> pending_len (pushes ps x).1 <= M.
Proof.
  induction ps as [|p ps IH]; intros x M Hx; cbn; [done|].
  pose proof (push1_size p x Hx) as H1.
  assert (config (push1 p x).1 = config x) as Hc.
  { rewrite push1_eq. case_match; [done|]. cbv zeta. unfold add.
    repeat case_match; cbn; apply prepared_config. }
  destruct (push1 p x) as [x1 o]. cbn in *. specialize (IH x1). rewrite Hc in IH.
  specialize (IH H1). by destruct (pushes ps x1).
Qed.

(** *** Bytes held *)
Definition held (fs : list (Z * list Z)) : Z := foldr (fun f n => zlen f.2 + n) 0 fs.
Lemma held_cons f fs : held (f :: fs) = zlen f.2 + held fs.
Proof. done. Qed.
Lemma held_insert o d fs : held (BTreeMap.insert o d fs) <= held fs + zlen d.
Proof.
  induction fs as [|[o' d'] fs IH]; cbn [BTreeMap.insert]; [rewrite held_cons; cbn [snd held foldr]; lia|].
  pose proof (zlen_nonneg d'). repeat case_if; rewrite !held_cons; cbn [snd]; lia.
Qed.
Definition bounded (cap : Z) (r : Reassembly.t) : Prop :=
  Reassembly.poisoned r = false /\ held (Reassembly.fragments r) <= Reassembly.buffered r <= Z.max 0 cap.
Lemma bounded_grow p r x : bounded (FragmentConfig.max_datagram_bytes (config x)) r -> fits p r x ->
  bounded (FragmentConfig.max_datagram_bytes (config x)) (grown p r).
Proof.
  intros [Hp [H1 H2]] (_ & H3 & _). pose proof (held_insert (p_offset p) (p_payload p) (Reassembly.fragments r)).
  unfold bounded, grown. unfold_upd.
  destruct (p_more p); cbn [Reassembly.poisoned Reassembly.fragments Reassembly.buffered];
    split_and!; done || lia.
Qed.

(** *** Pieces of one datagram *)
Definition piece (D : list Z) (f : Z * list Z) : Prop :=
  0 <= f.1 /\ f.1 + zlen f.2 <= zlen D /\ f.2 = zslice f.1 (f.1 + zlen f.2) D.

Lemma zslice_empty {A} a b (l : list A) : b <= a -> zslice a b l = [].
Proof. intros. unfold zslice. apply ztake_0. lia. Qed.
Lemma zslice_app {A} a b c (l : list A) : 0 <= a <= b -> b <= c ->
  zslice a b l ++ zslice b c l = zslice a c l.
Proof.
  intros Ha Hb. unfold zslice, ztake, zdrop.
  replace (drop (Z.to_nat b) l) with (drop (Z.to_nat (b - a)) (drop (Z.to_nat a) l))
    by (rewrite drop_drop; f_equal; lia).
  replace (Z.to_nat (c - a)) with (Z.to_nat (b - a) + Z.to_nat (c - b))%nat by lia.
  generalize (drop (Z.to_nat a) l) (Z.to_nat (b - a)) (Z.to_nat (c - b)).
  intros k n m. revert k. induction n as [|n IH]; intros [|x k]; cbn; try done.
  - by rewrite take_nil.
  - by rewrite IH.
Qed.
Lemma contiguous_slice D fs : forall e t, Forall (piece D) fs -> 0 <= e ->
  contiguous_from e fs t = true -> e <= t /\ concat (snd <$> fs) = zslice e t D.
Proof.
  induction fs as [|[o d] fs IH]; intros e t Hf He; cbn [contiguous_from].
  - intros Ht. zb. subst. split; [done|]. cbn. by rewrite zslice_empty.
  - apply Forall_cons in Hf as [(H1 & H2 & H3) Hf]. cbn [fst snd] in *.
    destruct (Z.eqb_spec o e) as [->|]; [|done]. pose proof (zlen_nonneg d).
    intros Hc. destruct (IH (e + zlen d) t Hf ltac:(lia) Hc) as [Ht Hs].
    split; [lia|]. cbn. rewrite Hs, H3 at 1. apply zslice_app; lia.
Qed.
Lemma zslice_full {A} (l : list A) : zslice 0 (zlen l) l = l.
Proof. unfold zslice. rewrite zdrop_0, ztake_ge by lia. done. Qed.

Definition of_datagram (K0 : FragmentKey.t) (D : list Z) (k : FragmentKey.t) (r : Reassembly.t) : Prop :=
  Reassembly.poisoned r = false /\
  (k = K0 -> Forall (piece D) (Reassembly.fragments r) /\
             forall t, Reassembly.total_len r = Some t -> t = zlen D).
Lemma insert_Forall (Q : Z * list Z -> Prop) o d fs : Forall Q fs -> Q (o, d) ->
  Forall Q (BTreeMap.insert o d fs).
Proof.
  induction 1 as [|[o' d'] fs Hq Hf IH]; cbn [BTreeMap.insert]; intros H; [by constructor|].
  repeat case_if; repeat constructor; auto.
Qed.
Lemma of_datagram_complete K0 D r : of_datagram K0 D K0 r -> complete r = true ->
  concat (snd <$> Reassembly.fragments r) = D.
Proof.
  intros [_ H]. destruct (H eq_refl) as [Hf Ht]. unfold complete, is_contiguous.
  destruct (Reassembly.total_len r) as [t|]; [|done]. cbn.
  rewrite (Ht t eq_refl). intros Hc.
  destruct (contiguous_slice D _ 0 (zlen D) Hf ltac:(lia) Hc) as [_ ->]. apply zslice_full.
Qed.

(** *** A datagram cut into pieces *)
Fixpoint cut (o : Z) (ps : list (list Z)) : list (Z * list Z) :=
  match ps with [] => [] | p :: ps => (o, p) :: cut (o + zlen p) ps end.

Lemma held_perm l k : l ≡ₚ k -> held l = held k.
Proof. induction 1; rewrite ?held_cons; lia. Qed.
Lemma held_nonneg l : 0 <= held l.
Proof. induction l as [|f l IH]; [done|]. rewrite held_cons. pose proof (zlen_nonneg f.2). lia. Qed.
Lemma held_app l k : held (l ++ k) = held l + held k.
Proof. induction l as [|f l IH]; cbn [app]; rewrite ?held_cons; [done|lia]. Qed.
Lemma held_cut ps : forall o, held (cut o ps) = zlen (concat ps).
Proof.
  induction ps as [|p ps IH]; intros o; cbn [cut concat]; [done|].
  rewrite held_cons, IH, zlen_app. done.
Qed.

Lemma cut_bounds ps : Forall (fun p => p <> []) ps -> forall o f, f ∈ cut o ps ->
  o <= f.1 /\ 0 < zlen f.2 /\ f.1 + zlen f.2 <= o + zlen (concat ps).
Proof.
  induction 1 as [|p ps Hp Hps IH]; intros o f; cbn [cut concat]; [by intros ?%not_elem_of_nil|].
  pose proof (zlen_pos p Hp). rewrite zlen_app. intros [->|Hf]%elem_of_cons.
  - cbn. pose proof (zlen_nonneg (concat ps)). lia.
  - destruct (IH _ f Hf). lia.
Qed.
Lemma cut_disjoint ps : Forall (fun p => p <> []) ps -> forall o f g, f ∈ cut o ps -> g ∈ cut o ps ->
  f.1 < g.1 -> f.1 + zlen f.2 <= g.1.
Proof.
  induction 1 as [|p ps Hp Hps IH]; intros o f g; cbn [cut]; [by intros ?%not_elem_of_nil|].
  intros [->|Hf]%elem_of_cons [->|Hg]%elem_of_cons; cbn; try lia.
  - destruct (cut_bounds ps Hps _ g Hg). lia.
  - destruct (cut_bounds ps Hps _ f Hf). pose proof (zlen_nonneg p). lia.
  - by apply (IH _ f g Hf Hg).
Qed.
Lemma cut_sorted ps : Forall (fun p => p <> []) ps -> forall o lo, lo < o -> BTreeMap.sorted lo (cut o ps).
Proof.
  induction 1 as [|p ps Hp Hps IH]; intros o lo Hlo; cbn; [done|].
  split; [done|]. apply IH. pose proof (zlen_pos p Hp). lia.
Qed.
Lemma cut_contiguous ps : forall o, contiguous_from o (cut o ps) (o + zlen (concat ps)) = true.
Proof.
  induction ps as [|p ps IH]; intros o; cbn [cut contiguous_from concat].
  - rewrite zlen_nil. lia.
  - rewrite Z.eqb_refl, zlen_app, Z.add_assoc. apply IH.
Qed.
Lemma cut_concat ps : forall o, concat (snd <$> cut o ps) = concat ps.
Proof. induction ps as [|p ps IH]; intros o; cbn; [done|]. by rewrite IH. Qed.
Lemma contiguous_held fs : forall e t, contiguous_from e fs t = true -> t = e + held fs.
Proof.
  induction fs as [|[o d] fs IH]; intros e t; cbn [contiguous_from].
  - intros. zb. cbn. lia.
  - case_if; [|done]. intros H%IH. rewrite held_cons. cbn. lia.
Qed.

(** *** Sorted lists *)
Lemma sorted_keys lo l : BTreeMap.sorted lo l -> Forall (fun f : Z * list Z => lo < f.1) l.
Proof. intros H. apply Forall_forall. intros f Hf. by apply (BTreeMap.sorted_bound lo l). Qed.
Lemma sorted_nodup l : forall lo, BTreeMap.sorted lo l -> NoDup ((l : list (Z * list Z)).*1).
Proof.
  induction l as [|[o d] l IH]; intros lo; cbn; [constructor|]. intros [Hlo Hs].
  rewrite NoDup_cons. split; [|by eapply IH]. intros ([o' d'] & -> & Hin)%list_elem_of_fmap.
  apply (BTreeMap.sorted_bound _ _ _ Hs) in Hin. cbn in Hin. lia.
Qed.
Lemma sorted_perm_eq l : forall lo k, BTreeMap.sorted lo l -> BTreeMap.sorted lo k ->
  l ≡ₚ k -> l = (k : list (Z * list Z)).
Proof.
  induction l as [|[o d] l IH]; intros lo [|[o' d'] k] Hl Hk Hp.
  - done.
  - by apply Permutation_nil_l in Hp.
  - by apply Permutation_nil_r in Hp.
  - cbn in Hl, Hk. destruct Hl as [Ho Hl], Hk as [Ho' Hk].
    assert ((o, d) = (o', d')) as [= -> ->].
    { assert ((o, d) ∈ (o', d') :: k) as H1 by (rewrite <- Hp; left).
      assert ((o', d') ∈ (o, d) :: l) as H2 by (rewrite Hp; left).
      apply elem_of_cons in H1 as [?|H1]; [done|]. apply elem_of_cons in H2 as [?|H2]; [done|].
      apply (BTreeMap.sorted_bound _ _ _ Hk) in H1. apply (BTreeMap.sorted_bound _ _ _ Hl) in H2.
      cbn in *. lia. }
    f_equal. eapply (IH o'); try done. by eapply Permutation_cons_inv.
Qed.
Lemma insert_sorted o d l : forall lo, lo < o -> BTreeMap.sorted lo l ->
  BTreeMap.sorted lo (BTreeMap.insert o (d : list Z) l).
Proof.
  induction l as [|[o' d'] l IH]; intros lo Hlo; cbn; [done|]. intros [Ho' Hl].
  destruct (Z.ltb_spec o o'); [done|]. destruct (Z.eqb_spec o o'); [by subst|].
  cbn. split; [done|]. apply IH; [lia|done].
Qed.
Lemma insert_perm o d (l : list (Z * list Z)) : o ∉ l.*1 -> BTreeMap.insert o d l ≡ₚ (o, d) :: l.
Proof.
  induction l as [|[o' d'] l IH]; cbn; [done|]. rewrite not_elem_of_cons. intros [Hne Hl].
  destruct (Z.ltb_spec o o'); [done|]. destruct (Z.eqb_spec o o'); [done|].
  rewrite IH by done. apply Permutation_swap.
Qed.

Lemma cut_last ps : ps <> [] -> forall o, exists f, f ∈ cut o ps /\ f.1 + zlen f.2 = o + zlen (concat ps).
Proof.
  induction ps as [|p ps IH]; [done|]. intros _ o. cbn [cut concat]. rewrite zlen_app.
  destruct ps as [|p' ps].
  - exists (o, p). split; [left|]. cbn. rewrite zlen_nil. lia.
  - destruct (IH ltac:(done) (o + zlen p)) as (f & Hf & E). exists f. split; [by right|]. lia.
Qed.

(** *** Receiving the pieces one by one *)
Section receive.
Variables (k : FragmentKey.t) (ps : list (list Z)) (t0 : Timestamp.t) (c : FragmentConfig.t).
Let D := concat ps.
Let pieces := cut 0 ps.
Hypothesis Hps : Forall (fun p => p <> []) ps.
Hypothesis Htwo : (2 <= length ps)%nat.
Hypothesis Hcap : zlen D <= FragmentConfig.max_datagram_bytes c.
Hypothesis Hmax : zlen D <= U64_MAX.

Definition is_last (f : Z * list Z) : bool := f.1 + zlen f.2 =? zlen D.
(** The fragment as it is sent. *)
Definition sent (f : Z * list Z) (now : Timestamp.t) : Push :=
  MkPush k f.1 (negb (is_last f)) f.2 now.

(** What is pending after the pieces [A]. *)
Definition partial (A : list (Z * list Z)) (r : Reassembly.t) : Prop :=
  Reassembly.poisoned r = false /\ Reassembly.first_seen r = t0 /\
  BTreeMap.sorted (-1) (Reassembly.fragments r) /\ Reassembly.fragments r ≡ₚ A /\
  Reassembly.buffered r = held A /\
  Reassembly.total_len r = if existsb is_last A then Some (zlen D) else None.

Lemma zlen_D_pieces : held pieces = zlen D.
Proof. apply held_cut. Qed.

Section one.
Variables (A B : list (Z * list Z)) (f : Z * list Z) (now : Timestamp.t) (r : Reassembly.t).
Hypothesis Hsplit : pieces ≡ₚ f :: A ++ B.
Hypothesis Hr : partial A r.

Lemma piece_in : f ∈ pieces.
Proof. rewrite Hsplit. left. Qed.
Lemma piece_bounds : 0 <= f.1 /\ 0 < zlen f.2 /\ f.1 + zlen f.2 <= zlen D.
Proof. apply (cut_bounds ps Hps 0 f piece_in). Qed.
Lemma piece_end : end_of (sent f now) = f.1 + zlen f.2.
Proof. pose proof piece_bounds. unfold end_of, sat_add, sent. cbn. lia. Qed.
Lemma others_in g : g ∈ A -> g ∈ pieces /\ g.1 <> f.1.
Proof.
  intros Hg. assert (NoDup (pieces.*1)) as Hn.
  { eapply sorted_nodup. apply (cut_sorted ps Hps 0 (-1)). lia. }
  split; [rewrite Hsplit; set_solver|]. rewrite Hsplit in Hn. cbn in Hn.
  apply NoDup_cons in Hn as [Hn _]. intros E. apply Hn. rewrite fmap_app, <- E.
  apply elem_of_app. left. apply list_elem_of_fmap. by exists g.
Qed.

Lemma piece_fits x : config x = c -> fits (sent f now) r x.
Proof.
  intros Hx. destruct Hr as (Hp & Ht & Hs & HA & Hb & Htot). unfold fits. rewrite piece_end, Hx, Hb.
  pose proof piece_bounds as Hbd. split_and!.
  - apply not_true_is_false. unfold overlaps_any. rewrite existsb_exists.
    intros (g & Hg & Ho). apply list_elem_of_In in Hg. rewrite HA in Hg.
    destruct (others_in g Hg) as [Hgp Hne]. destruct g as [o d]. zb. cbn in *.
    destruct (Z.lt_trichotomy o f.1) as [Hl|[?|Hl]]; [|lia|].
    + pose proof (cut_disjoint ps Hps 0 (o, d) f Hgp piece_in Hl). cbn in *. lia.
    + pose proof (cut_disjoint ps Hps 0 f (o, d) piece_in Hgp Hl). cbn in *. lia.
  - cbn. pose proof zlen_D_pieces as HD. rewrite (held_perm _ _ Hsplit), held_cons, held_app in HD.
    pose proof (held_nonneg B). lia.
  - lia.
Qed.

Lemma piece_grown : partial (f :: A) (grown (sent f now) r).
Proof.
  destruct Hr as (Hp & Ht & Hs & HA & Hb & Htot). pose proof piece_bounds as Hbd.
  assert (f.1 ∉ (Reassembly.fragments r).*1) as Hn.
  { rewrite HA. intros (g & E & Hg)%list_elem_of_fmap. by destruct (others_in g Hg). }
  unfold partial, grown. rewrite piece_end. cbn [sent p_more p_offset p_payload existsb].
  destruct (is_last f) eqn:El; cbn [negb orb]; unfold_upd;
    cbn [Reassembly.poisoned Reassembly.first_seen Reassembly.fragments Reassembly.buffered
         Reassembly.total_len]; split_and!; try done.
  all: try (by apply insert_sorted; [lia|]).
  all: try (rewrite insert_perm, HA by done; by destruct f).
  all: try (rewrite Hb, held_cons; lia).
  unfold is_last in El. zb. by rewrite El.
Qed.

(** The datagram is complete with its last missing piece, not before. *)
Lemma piece_complete : complete (grown (sent f now) r) = is_nil B /\
  (B = [] -> concat (snd <$> Reassembly.fragments (grown (sent f now) r)) = D).
Proof.
  pose proof piece_grown as (Hp & Ht & Hs & HA & Hb & Htot). set (r' := grown _ _) in *.
  pose proof zlen_D_pieces as HD. unfold complete. destruct B as [|g B'] eqn:EB; cbn [is_nil].
  - rewrite app_nil_r in Hsplit.
    assert (Reassembly.fragments r' = pieces) as Ef.
    { apply (sorted_perm_eq _ (-1)); [done|apply cut_sorted; [done|lia]|].
      by rewrite HA, Hsplit. }
    assert (existsb is_last (f :: A) = true) as El.
    { rewrite existsb_exists. destruct (cut_last ps) with (o := 0) as (g & Hg & E);
        [intros E0; rewrite E0 in Htwo; cbn in Htwo; lia|].
      exists g. split; [|unfold is_last, D; zb; lia].
      apply list_elem_of_In. by rewrite <- Hsplit. }
    rewrite Htot, El, Ef. cbn. split; [|by intros _; apply cut_concat].
    apply (cut_contiguous ps 0).
  - split; [|done]. rewrite Htot. case_match; [|done]. cbn. apply not_true_is_false.
    intros Hc%contiguous_held. rewrite (held_perm _ _ HA) in Hc.
    rewrite (held_perm _ _ Hsplit) in HD. change (f :: A ++ g :: B') with ((f :: A) ++ g :: B') in HD.
    rewrite held_app, (held_cons g) in HD.
    assert (g ∈ pieces) as Hg by (rewrite Hsplit; set_solver).
    destruct (cut_bounds ps Hps 0 g Hg) as (_ & Hpos & _). pose proof (held_nonneg B'). lia.
Qed.
End one.

Definition in_time (now : Timestamp.t) : Prop :=
  sat_sub (Timestamp.to_duration now) (Timestamp.to_duration t0) <= FragmentConfig.timeout c.

Lemma not_whole f A : pieces ≡ₚ f :: A -> (f.1 =? 0) && is_last f = false.
Proof.
  intros Hp. apply not_true_is_false. intros Hf. unfold is_last in Hf. zb.
  pose proof zlen_D_pieces as HD. rewrite (held_perm _ _ Hp), held_cons in HD.
  destruct A as [|g A].
  - apply Permutation_length in Hp. unfold pieces in Hp.
    assert (forall qs o, length (cut o qs) = length qs) as Hl
      by (induction qs as [|q qs IH]; intros o; cbn; [|rewrite IH]; done).
    rewrite Hl in Hp. cbn in Hp. lia.
  - rewrite held_cons in HD. pose proof (held_nonneg A).
    assert (g ∈ pieces) as Hg by (rewrite Hp; set_solver).
    destruct (cut_bounds ps Hps 0 g Hg) as (_ & Hpos & _). lia.
Qed.

(** One piece with the pieces [A] already there, or none yet. *)
Lemma receive_one A B f now x r : pieces ≡ₚ f :: A ++ B -> config x = c ->
  partial A r -> pending (prepared (sent f now) x) !! k = Some r \/
    (pending (prepared (sent f now) x) !! k = None /\ r = Reassembly.new now) ->
  let o := push1 (sent f now) x in
  config o.1 = c /\
  (B = [] -> o.2 = Some D) /\
  (B <> [] -> o.2 = None /\ exists r', partial (f :: A) r' /\ pending o.1 !! k = Some r').
Proof.
  intros Hs Hx Hr Hk. rewrite push1_eq. cbn [sent p_offset p_more p_payload p_key p_now].
  rewrite negb_involutive, (not_whole f (A ++ B)) by done. cbv zeta.
  set (x1 := prepared (sent f now) x) in *.
  assert (default (Reassembly.new now) (pending x1 !! k) = r) as -> by (destruct Hk as [->|[-> ->]]; done).
  set (x2 := x1 <| pending ::= _ |>).
  assert (config x2 = c) as Hx2 by (unfold x2, x1; cbn; by rewrite prepared_config).
  pose proof (add_added (sent f now) r x2 (proj1 Hr)) as Ha.
  pose proof (piece_fits A B f now r Hs Hr x2 Hx2) as Hf.
  destruct (piece_complete A B f now r Hs Hr) as [Hc HD].
  pose proof (piece_grown A B f now r Hs Hr) as Hg.
  cbn [sent p_offset p_more p_payload p_key p_now] in Ha.
  inversion Ha as [x' Hp Hcf Hnf Heq|x' Hp Hcf Hf' Hco Heq|x' Hp Hcf Hf' Hco Heq]; [done| |];
    rewrite Hc in Hco; cbn [fst snd]; rewrite Hcf; (split; [done|]).
  - split; [intros HB; by rewrite HD|]. intros HB. by apply is_nil_spec in Hco.
  - split; [intros ->; done|]. intros _. split; [done|]. eexists. split; [exact Hg|].
    rewrite Hp. apply lookup_insert_eq.
Qed.

Lemma prepared_present A p x r : config x = c -> p_key p = k -> in_time (p_now p) ->
  partial A r -> pending x !! k = Some r -> pending (prepared p x) !! k = Some r.
Proof.
  intros Hx Hk Ht (_ & Hfs & _) Hr. unfold prepared. rewrite Hk.
  assert (pending (evict_expired (p_now p) x).1 !! k = Some r) as E.
  { cbn. apply map_lookup_filter_Some. split; [done|]. unfold alive. cbn. by rewrite Hfs, Hx. }
  by rewrite E.
Qed.

(** A fragment of another datagram, while there is room for one more. *)
Lemma foreign_one A p x r : config x = c -> p_key p <> k -> in_time (p_now p) ->
  pending_len x < FragmentConfig.max_datagrams c -> partial A r -> pending x !! k = Some r ->
  pending (push1 p x).1 !! k = Some r.
Proof.
  intros Hx Hk Ht Hn (_ & Hfs & _) Hr. destruct (push1_near p x) as (_ & _ & Hl).
  destruct (Hl k (not_eq_sym Hk)) as [->| ->]; [done|]. unfold prepared.
  pose proof (evict_size (p_now p) x) as He. rewrite evict_config, Hx, (proj2 (Z.leb_gt _ _)) by lia. rewrite andb_false_r.
  cbn. apply map_lookup_filter_Some. split; [done|]. unfold alive. cbn. by rewrite Hfs, Hx.
Qed.
Lemma answers_none qs os : List.filter (is_of k) qs = [] -> answers k qs os = [].
Proof.
  unfold answers. revert os. induction qs as [|q qs IH]; intros [|o os]; try done. cbn.
  destruct (is_of k q) eqn:E; [done|]. apply IH.
Qed.

Lemma receive_rest qs : forall l A x r, A <> [] -> config x = c -> partial A r ->
  pending x !! k = Some r -> pieces ≡ₚ l.*1 ++ A -> Forall (fun p => in_time (p_now p)) qs ->
  List.filter (is_of k) qs = (fun fn => sent fn.1 fn.2) <$> l ->
  forallb (is_of k) qs = true \/ pending_len x + zlen qs <= FragmentConfig.max_datagrams c ->
  answers k qs (pushes qs x).2 =
    match l with [] => [] | _ :: l' => replicate (length l') None ++ [Some D] end.
Proof.
  induction qs as [|q qs IH]; intros l A x r HA Hx Hr Hk Hp Ht El Room; [by destruct l|].
  apply Forall_cons in Ht as [Hnow Ht]. destruct (push1_near q x) as (Cq & Sq & _). rewrite zlen_cons in Room.
  cbn [List.filter forallb pushes] in *. destruct (is_of k q) eqn:Eq.
  - destruct l as [|[f now] l]; [done|]. cbn [fmap list_fmap fst snd] in *. injection El as -> El.
    assert (pieces ≡ₚ f :: A ++ l.*1) as Hs by (rewrite Hp; cbn; by rewrite (Permutation_app_comm A)).
    destruct (receive_one A (l.*1) f now x r Hs Hx Hr) as (H1 & H2 & H3).
    { left. by apply (prepared_present A). }
    destruct (push1 (sent f now) x) as [x1 o]. cbn [fst snd] in *.
    assert (Room' : forallb (is_of k) qs = true \/ pending_len x1 + zlen qs <= FragmentConfig.max_datagrams c)
      by (destruct Room as [?|?]; [by left|right; lia]).
    destruct l as [|fn l].
    + pose proof (answers_none qs (pushes qs x1).2 El) as An. destruct (pushes qs x1) as [x2 os]. unfold answers in *.
      cbn [snd zip zip_with List.filter fst]. rewrite Eq. cbn. rewrite H2 by done. by f_equal.
    + destruct H3 as [-> (r' & Hr' & Hk')]; [done|].
      assert (Hp' : pieces ≡ₚ (fn :: l).*1 ++ f :: A)
        by (rewrite Hs; by rewrite (Permutation_app_comm A), Permutation_middle).
      specialize (IH (fn :: l) (f :: A) x1 r' ltac:(done) H1 Hr' Hk' Hp' Ht El Room').
      destruct (pushes qs x1) as [x2 os]. unfold answers in *. cbn [snd zip zip_with List.filter fst]. rewrite Eq. cbn.
      by f_equal.
  - destruct Room as [?|Room]; [done|]. pose proof (zlen_nonneg qs).
    assert (p_key q <> k) as Hq by (intros E; unfold is_of in Eq; by rewrite bool_decide_true in Eq).
    pose proof (foreign_one A q x r Hx Hq Hnow ltac:(lia) Hr Hk) as Hk'.
    destruct (push1 q x) as [x1 o]. cbn [fst snd] in *.
    specialize (IH l A x1 r HA ltac:(congruence) Hr Hk' Hp Ht El ltac:(right; lia)).
    destruct (pushes qs x1) as [x2 os]. unfold answers in *. cbn [snd zip zip_with List.filter fst]. by rewrite Eq.
Qed.

Lemma receive_all qs x f rest : pieces ≡ₚ f :: rest.*1 -> config x = c ->
  in_time t0 -> Forall (fun p => in_time (p_now p)) qs -> pending x !! k = None ->
  List.filter (is_of k) qs = (fun fn => sent fn.1 fn.2) <$> rest ->
  forallb (is_of k) qs = true \/ pending_len x + zlen qs < FragmentConfig.max_datagrams c ->
  answers k (sent f t0 :: qs) (pushes (sent f t0 :: qs) x).2 = replicate (length rest) None ++ [Some D].
Proof.
  intros Hp Hx Hnow Ht Hk El Room. cbn [pushes].
  assert (partial [] (Reassembly.new t0)) as Hr0 by (unfold partial; cbn; by split_and!).
  assert (pending (prepared (sent f t0) x) !! k = None) as Hk0.
  { destruct (pending (prepared (sent f t0) x) !! k) eqn:E; [|done].
    eapply lookup_weaken in E; [|apply prepared_pending]. congruence. }
  destruct (receive_one [] (rest.*1) f t0 x _ Hp Hx Hr0) as (H1 & H2 & H3); [by right|].
  destruct (push1_near (sent f t0) x) as (_ & Sq & _).
  assert (is_of k (sent f t0) = true) as Eq by by apply bool_decide_eq_true.
  destruct (push1 (sent f t0) x) as [x1 o]. cbn [fst snd] in *. destruct rest as [|fn rest].
  - pose proof (answers_none qs (pushes qs x1).2 El) as An. destruct (pushes qs x1) as [x2 os]. unfold answers in *.
    cbn [snd zip zip_with List.filter fst]. rewrite Eq. cbn. rewrite H2 by done. by f_equal.
  - destruct H3 as [-> (r' & Hr' & Hk')]; [done|].
    assert (Hp' : pieces ≡ₚ (fn :: rest).*1 ++ [f]) by (rewrite Hp; by rewrite (Permutation_app_comm _ [f])).
    pose proof (receive_rest qs (fn :: rest) [f] x1 r' ltac:(done) H1 Hr' Hk' Hp' Ht El
      ltac:(destruct Room as [?|?]; [by left|right; lia])) as HR.
    destruct (pushes qs x1) as [x2 os]. unfold answers in *. cbn [snd zip zip_with List.filter fst]. rewrite Eq. cbn.
    by f_equal.
Qed.
End receive.
End facts.
End FragmentFacts.

(** ** What reassembly guarantees *)
Module FragmentProps.
Import IpFragmentReassembler FragmentFacts.

(** An iteration order for the examples. *)
Definition listed (m : gmap FragmentKey.t Reassembly.t) := map_to_list m.
Definition demo_key : FragmentKey.t := FragmentKey.mk (V4 1) (V4 2) 17 42.
Definition other_key : FragmentKey.t := FragmentKey.mk (V4 1) (V4 2) 17 43.

(** C32: a datagram of at most [max_datagram_bytes] (a [usize]), cut into any two or
    more non-empty fragments that are received in any order within the
    timeout of the first, is reassembled exactly: every fragment of it but
    the last received returns nothing, the last returns the original bytes.
    Nothing is pending under its key when the first is received; any other
    datagrams may be pending then, and fragments of others may come between
    its own, within the timeout, as long as there is room for all of them
    (without room the oldest datagram is evicted, which may be this one);
    if none come between, the room does not matter. *)
Theorem fragments_in_any_order order k ps f t0 rest qs x
    (D := concat ps) (c := config x) (q0 := sent k ps f t0) :
  (forall m, order m ≡ₚ map_to_list m) ->
  Forall (fun p => p <> []) ps -> (2 <= length ps)%nat ->
  zlen D <= FragmentConfig.max_datagram_bytes c -> zlen D <= U64_MAX ->
  cut 0 ps ≡ₚ f :: rest.*1 -> List.filter (is_of k) qs = (fun fn => sent k ps fn.1 fn.2) <$> rest ->
  in_time t0 c t0 -> Forall (fun p => in_time t0 c (p_now p)) qs -> pending x !! k = None ->
  forallb (is_of k) qs = true \/ pending_len x + zlen qs < FragmentConfig.max_datagrams c ->
  answers k (q0 :: qs) (pushes order (q0 :: qs) x).2 = replicate (length rest) None ++ [Some D].
Proof. intros Ho. intros. by eapply (receive_all order Ho k ps t0 c). Qed.
(** Another datagram's fragment comes between the second and the third. *)
Lemma fragments_in_any_order_witness :
  let ps := [[1;2;3;4;5;6;7;8]; [11;12;13;14;15;16;17;18]; [21;22]] in
  let t s := Timestamp.mk s 0 in
  let q o d more s := MkPush demo_key o more d (t s) in
  let qs := [q 16 [21;22] false 5; q 0 [1;2;3;4;5;6;7;8] true 6;
             MkPush other_key 0 true [9;9;9;9;9;9;9;9] (t 20); q 8 [11;12;13;14;15;16;17;18] true 30] in
  answers demo_key qs (pushes listed qs new).2 = [None; None; Some (concat ps)].
Proof.
  intros ps t q qs.
  refine (fragments_in_any_order listed demo_key ps (16, [21;22]) (t 5)
    [((0, [1;2;3;4;5;6;7;8]), t 6); ((8, [11;12;13;14;15;16;17;18]), t 30)] (tl qs) new _ _ _ _ _ _ eq_refl _ _ eq_refl _).
  - done.
  - by repeat constructor.
  - cbn. lia.
  - vm_compute. discriminate.
  - vm_compute. discriminate.
  - cbn. etrans; [|apply perm_swap]. apply perm_skip. apply perm_swap.
  - vm_compute; discriminate.
  - repeat constructor; vm_compute; discriminate.
  - right. reflexivity.
Defined.

(** Nothing foreign is ever reassembled.  If every fragment that
    carries a given key is a piece of one datagram, in any order, repeated,
    interleaved with any other traffic and evictions, then whatever is
    returned for that key is that datagram. *)
Theorem reassembled_is_the_datagram order K0 D c ps :
  zlen D <= U64_MAX ->
  Forall (fun p => p_key p = K0 ->
    piece D (p_offset p, p_payload p) /\
    (p_more p = false -> p_offset p + zlen (p_payload p) = zlen D)) ps ->
  Forall2 (fun p o => p_key p = K0 -> forall d, o = Some d -> d = D)
    ps (pushes order ps (with_config c)).2.
Proof.
  intros HD Hps.
  destruct (pushes_invariant order (of_datagram K0 D) (fun p => p_key p = K0 ->
    piece D (p_offset p, p_payload p) /\
    (p_more p = false -> p_offset p + zlen (p_payload p) = zlen D)) c) with (ps := ps)
    (x := with_config c) as (_ & _ & H); try done.
  - by intros k r [].
  - intros p r x Hok [Hp Hr] _ _. split.
    { unfold grown. by destruct (p_more p). }
    intros Hk. destruct (Hr Hk) as [Hf Ht]. destruct (Hok Hk) as [Hpc Hl].
    assert (Forall (piece D) (Reassembly.fragments (grown p r))) as Hf'.
    { unfold grown. destruct (p_more p); by apply insert_Forall. }
    split; [exact Hf'|]. intros t. unfold grown. destruct (p_more p) eqn:Em; cbn; [by apply Ht|].
    intros [= <-]. unfold end_of, sat_add. rewrite Hl by done. lia.
  - clear HD. revert Hps H. generalize (pushes order ps (with_config c)).2. intros os Hps H.
    induction H as [|p o ps os Ho H IH]; constructor.
    + intros Hk d Hd. apply Forall_cons in Hps as [Hok _].
      destruct (Hok Hk) as [(H1 & H2 & H3) Hl].
      destruct (Ho d Hd) as [(E0 & Em & ->)|(r & Hr & Hco & ->)].
      * cbn in *. rewrite E0 in *. rewrite H3, (Hl Em). apply zslice_full.
      * rewrite Hk in Hr. by eapply of_datagram_complete.
    + apply IH. by apply Forall_cons in Hps as [].
Qed.
Lemma reassembled_is_the_datagram_witness :
  let D := [1;2;3;4;5;6;7;8;9;10] in
  let ps := [MkPush demo_key 0 true [1;2;3;4;5;6;7;8] (Timestamp.mk 0 0);
             MkPush other_key 0 true [9;9;9;9;9;9;9;9] (Timestamp.mk 1 0);
             MkPush demo_key 4 true [5;6;7;8] (Timestamp.mk 1 0);
             MkPush demo_key 0 true [1;2;3;4;5;6;7;8] (Timestamp.mk 2 0);
             MkPush demo_key 8 false [9;10] (Timestamp.mk 3 0)] in
  (pushes listed ps new).2 = [None; None; None; None; Some D] /\
  Forall2 (fun p o => p_key p = demo_key -> forall d, o = Some d -> d = D) ps (pushes listed ps new).2.
Proof.
  intros D ps. split; [vm_compute; reflexivity|].
  apply (reassembled_is_the_datagram listed demo_key D FragmentConfig.default ps).
  - vm_compute. discriminate.
  - unfold ps. repeat apply Forall_cons_2; try apply Forall_nil_2; cbn [p_key p_offset p_more p_payload];
      intros Hk; try discriminate Hk; (split; [unfold piece; split_and!; vm_compute; first [reflexivity|discriminate]|]);
      try discriminate; reflexivity.
Defined.

(** Whatever is pushed, at most [max_datagrams] datagrams (at least
    one) are pending and each holds at most [max_datagram_bytes] bytes. *)
Theorem fragment_memory_bounded order c ps k r :
  (forall m, order m ≡ₚ map_to_list m) ->
  let x := (pushes order ps (with_config c)).1 in
  pending_len x <= Z.max 1 (FragmentConfig.max_datagrams c) /\
  (pending x !! k = Some r ->
   held (Reassembly.fragments r) <= Z.max 0 (FragmentConfig.max_datagram_bytes c)).
Proof.
  intros Ho x. split.
  - apply (pushes_size order Ho ps (with_config c)). unfold pending_len. cbn. rewrite map_size_empty. lia.
  - destruct (pushes_invariant order (fun _ => bounded (FragmentConfig.max_datagram_bytes c))
      (fun _ => True) c) with (ps := ps) (x := with_config c) as (_ & H & _); try done.
    + by intros _ r' [].
    + intros _ now. unfold bounded. cbn. split; [done|lia].
    + intros p r' y _ Hr <- Hf. by apply bounded_grow.
    + by apply Forall_true.
    + intros Hr. destruct (H k r Hr) as [_ ?]. lia.
Qed.
Lemma fragment_memory_bounded_witness :
  let c := FragmentConfig.mk 1 16 1000 in
  let ps := [MkPush demo_key 0 true [1;2;3;4;5;6;7;8] (Timestamp.mk 0 0);
             MkPush other_key 0 true [9;9;9;9;9;9;9;9] (Timestamp.mk 0 1)] in
  let x := (pushes listed ps (with_config c)).1 in
  pending_len x <= Z.max 1 (FragmentConfig.max_datagrams c) /\
  (pending x !! other_key = Some (Reassembly.mk [(0, [9;9;9;9;9;9;9;9])] None 8 (Timestamp.mk 0 1) false) ->
   held [(0, [9;9;9;9;9;9;9;9])] <= 16).
Proof.
  intros c ps x.
  exact (fragment_memory_bounded listed c ps other_key
    (Reassembly.mk [(0, [9;9;9;9;9;9;9;9])] None 8 (Timestamp.mk 0 1) false) ltac:(done)).
Defined.

(** A defect.  An empty fragment passes the overlap check at an
    offset that already holds data and erases it.  After it a second,
    different fragment is accepted at the same offset and the datagram is
    reassembled from the later bytes: the overlap that RFC 5722 and the
    module promise to drop goes unnoticed. *)
Theorem empty_fragment_defeats_overlap_check order :
  let p off more data := MkPush demo_key off more data (Timestamp.mk 0 0) in
  let A := [1;1;1;1;1;1;1;1] in let B := [2;2;2;2;2;2;2;2] in
  let r := pushes order [p 0 true A; p 0 true []; p 0 true B; p 8 false [3]] new in
  r.2 = [None; None; None; Some (B ++ [3])] /\ overlaps r.1 = 0.
Proof. vm_compute. split; reflexivity. Qed.

(** A divergence.  The datagram dropped for an overlap leaves no mark
    behind ([poisoned] is never set), so its later fragments start afresh
    and are reassembled, although RFC 5722, which the module cites, has the
    whole datagram discarded, fragments not yet received included. *)
Theorem overlap_leaves_no_mark order :
  let p off more data := MkPush demo_key off more data (Timestamp.mk 0 0) in
  let A := [1;1;1;1;1;1;1;1] in
  let r := pushes order [p 0 true A; p 4 true A; p 0 true A; p 8 false [3]] new in
  r.2 = [None; None; None; Some (A ++ [3])] /\ overlaps r.1 = 1.
Proof. vm_compute. split; reflexivity. Qed.
End FragmentProps.
