(* ===== verification/Dedup.v ===== *)
(** * Content-hash deduplication (src/src/dedup.rs)

    The hash is ahash with fixed seeds, a third-party crate: a parameter,
    of which nothing is assumed. *)

From S2P Require Import Prelude Time Flow Packet.

Module Entry.
Record t := mk { hash : Z; len : Z; ts : Timestamp.t }.
End Entry.

Module Dedup.
Record t := mk { window : Z; capacity : Z; ring : list Entry.t; dropped : Z; seen : Z }.
#[global] Instance eta : Eta t := mk_eta (fun d =>
  mk (window d) (capacity d) (ring d) (dropped d) (seen d)).

Definition DEFAULT_RING_SIZE : Z := 256.
Definition DEFAULT_LOOPBACK_WINDOW : Z := from_millis 1.
Definition new (window capacity : Z) : t := mk window (Z.max capacity 1) [] 0 0.
Definition loopback : t := new DEFAULT_LOOPBACK_WINDOW DEFAULT_RING_SIZE.
Definition buffered (d : t) : Z := zlen (ring d).

Definition push_entry (e : Entry.t) (d : t) : t :=
  let d := if capacity d <=? zlen (ring d) then d <| ring ::= zdrop 1 |> else d in
  d <| ring ::= fun r => r ++ [e] |>.

Section keep.
Variable hash_frame : list Z -> Z.

Definition entry_of (view : PacketView.t) : Entry.t :=
  Entry.mk (hash_frame (PacketView.frame view)) (u32 (zlen (PacketView.frame view)))
    (PacketView.timestamp view).
Definition matches (window : Z) (view : PacketView.t) (e : Entry.t) : bool :=
  (Entry.hash e =? hash_frame (PacketView.frame view))
  && (Entry.len e =? u32 (zlen (PacketView.frame view)))
  && (Timestamp.saturating_sub (PacketView.timestamp view) (Entry.ts e) <=? window).
Definition keep (view : PacketView.t) (d : t) : t * bool :=
  let d := d <| seen ::= Z.add 1 |> in
  let is_dup := existsb (matches (window d) view) (ring d) in
  let d := push_entry (entry_of view) d in
  ((if is_dup then d <| dropped ::= Z.add 1 |> else d), negb is_dup).

Fixpoint keep_all (views : list PacketView.t) (d : t) : t * list bool :=
  match views with
  | [] => (d, [])
  | v :: vs => let '(d, b) := keep v d in let '(d, bs) := keep_all vs d in (d, b :: bs)
  end.

(** ** Specification: the last [n] of everything seen *)
Definition last_n {A} (n : Z) (l : list A) : list A := zdrop (zlen l - n) l.
Definition verdict (window capacity : Z) (past : list PacketView.t) (view : PacketView.t) : bool :=
  negb (existsb (matches window view) (last_n capacity (entry_of <$> past))).
Fixpoint verdicts (window capacity : Z) (past views : list PacketView.t) : list bool :=
  match views with
  | [] => []
  | v :: vs => verdict window capacity past v :: verdicts window capacity (past ++ [v]) vs
  end.

Lemma last_n_snoc {A} n (l : list A) a : 1 <= n ->
  last_n n (l ++ [a]) = (if n <=? zlen (last_n n l) then zdrop 1 (last_n n l) else last_n n l) ++ [a].
Proof.
  intros Hn. unfold last_n. rewrite zlen_app, zlen_zdrop. change (zlen [a]) with 1.
  pose proof (zlen_nonneg l). rewrite zdrop_app_le by lia. f_equal.
  destruct (Z.leb_spec n (Z.max 0 (zlen l - Z.max 0 (zlen l - n)))).
  - rewrite zdrop_zdrop by lia. f_equal. lia.
  - rewrite !zdrop_0 by lia. done.
Qed.

Definition tracks (w c : Z) (past : list PacketView.t) (d : t) : Prop :=
  window d = w /\ capacity d = c /\ 1 <= c /\ ring d = last_n c (entry_of <$> past) /\
  seen d = zlen past.

Lemma keep_tracks w c past d v : tracks w c past d ->
  (keep v d).2 = verdict w c past v /\ tracks w c (past ++ [v]) (keep v d).1.
Proof.
  intros (Hw & Hc & H1 & Hr & Hs). unfold keep. split.
  - cbn. by rewrite Hw, Hr.
  - assert (forall d', tracks w c (past ++ [v]) d' -> forall b : bool,
      tracks w c (past ++ [v]) (if b then d' <| dropped ::= Z.add 1 |> else d')) as Hb
      by (by intros d' Hd []).
    cbv zeta. cbn [fst]. apply Hb. unfold tracks, push_entry. cbn.
    rewrite Hc, Hr, fmap_app. cbn. rewrite last_n_snoc by done.
    assert (seen d + 1 = zlen (past ++ [v])) by (rewrite Hs; zlia).
    case_if; unfold_upd; cbn; rewrite ?Hr; split_and!; done || lia.
Qed.

Lemma keep_all_tracks views : forall w c past d, tracks w c past d ->
  (keep_all views d).2 = verdicts w c past views /\ tracks w c (past ++ views) (keep_all views d).1.
Proof.
  induction views as [|v vs IH]; intros w c past d Hd; cbn [keep_all verdicts].
  { by rewrite app_nil_r. }
  destruct (keep_tracks w c past d v Hd) as [E T]. destruct (keep v d) as [d1 b]. cbn [fst snd] in E, T.
  destruct (IH w c (past ++ [v]) d1 T) as [E' T']. destruct (keep_all vs d1) as [d2 bs]. cbn [fst snd] in *.
  split; [by f_equal|by rewrite <- app_assoc in T'].
Qed.

Lemma keep_dropped v d : dropped (keep v d).1 = dropped d + (if (keep v d).2 then 0 else 1).
Proof. unfold keep, push_entry. destruct (existsb _ _); cbn; case_if; cbn; lia. Qed.
Lemma keep_all_dropped views : forall d,
  dropped (keep_all views d).1 = dropped d + zlen (List.filter negb (keep_all views d).2).
Proof.
  induction views as [|v vs IH]; intros d; cbn [keep_all]; [cbn; unfold zlen; cbn; lia|].
  pose proof (keep_dropped v d). destruct (keep v d) as [d1 b]. specialize (IH d1).
  destruct (keep_all vs d1) as [d2 bs]. cbn [fst snd List.filter] in *.
  destruct b; cbn [negb]; rewrite ?zlen_cons; lia.
Qed.
End keep.

(** The deduplicator is its specification.  Whatever frames arrive,
    a view is dropped exactly when one of the last [capacity] views offered
    (kept or not, at least one) has the same hash and length and is at most
    the window older; the ring never holds more than the capacity, every
    view is counted as seen and exactly the refused ones as dropped. *)
Theorem dedup_exact hash_frame window capacity views :
  let c := Z.max capacity 1 in
  let '(d, kept) := keep_all hash_frame views (new window capacity) in
  kept = verdicts hash_frame window c [] views /\
  buffered d <= c /\ seen d = zlen views /\ dropped d = zlen (List.filter negb kept).
Proof.
  intros c.
  assert (tracks hash_frame window c [] (new window capacity)) as H0.
  { unfold tracks, last_n. cbn. rewrite zdrop_nil. split_and!; done || lia. }
  destruct (keep_all_tracks hash_frame views window c [] _ H0) as [E (_ & _ & _ & Hr & Hs)].
  pose proof (keep_all_dropped hash_frame views (new window capacity)) as Hd.
  destruct (keep_all hash_frame views (new window capacity)) as [d kept]. cbn [fst snd app] in *.
  split_and!; [done| |done|by rewrite Hd].
  unfold buffered. rewrite Hr. unfold last_n. rewrite zlen_zdrop.
  pose proof (zlen_nonneg (entry_of hash_frame <$> views)). lia.
Qed.

(** The example of the module's documentation. *)
Example loopback_example :
  let v n := PacketView.new [1; 2; 3; 4] (Timestamp.mk 0 n) in
  let '(d, kept) := keep_all zlen [v 0; v 500000; v 1500001] (new (from_millis 1) 256) in
  kept = [true; false; true] /\ dropped d = 1 /\ seen d = 3.
Proof. by vm_compute. Qed.
End Dedup.
