(* ===== verification/Mergeable.v ===== *)
(** * Combining per-shard state (src/src/correlate/mergeable.rs)

    [Mergeable] is the trait: [merge] combines two values and panics
    ([None]) when their shapes differ.  [MergeableLaws] is the contract the
    trait documents, "commutative + associative", up to the equivalence a
    consumer can observe and for values of one shape.  [merge_all] is the
    default method; that shards may be united in any order is proved here
    once, against the interface, and each sketch discharges the laws. *)

From S2P Require Import Prelude.

Class Mergeable (A : Type) := merge : A -> A -> option A.

(** [merge_all], pairwise. *)
Fixpoint merge_all {A} `{Mergeable A} (a : A) (others : list A) : option A :=
  match others with
  | [] => Some a
  | o :: others => merge a o ≫= fun a => merge_all a others
  end.

(** The contract.  [same_shape] is what the assertions of [merge] test
    (dimensions, precision, capacity). *)
Class MergeableLaws (A : Type) `{Mergeable A} (wf : A -> Prop) (same_shape : A -> A -> Prop) : Prop := {
  shape_equiv : Equivalence same_shape;
  merge_total a b : wf a -> wf b -> same_shape a b ->
    exists c, merge a b = Some c /\ wf c /\ same_shape a c;
  merge_comm a b : wf a -> wf b -> same_shape a b -> merge a b = merge b a;
  merge_assoc a b c : wf a -> wf b -> wf c -> same_shape a b -> same_shape b c ->
    (merge a b ≫= fun ab => merge ab c) = (merge b c ≫= fun bc => merge a bc) }.

Section laws.
Context {A : Type} `{Mergeable A} {wf : A -> Prop} {same_shape : A -> A -> Prop}.
Context `{!MergeableLaws A wf same_shape}.
#[local] Existing Instance shape_equiv.

Lemma merge_all_total others : forall a, wf a -> Forall wf others -> Forall (same_shape a) others ->
  exists c, merge_all a others = Some c /\ wf c /\ same_shape a c.
Proof.
  induction others as [|o others IH]; intros a Ha Ho Hs; cbn.
  { exists a. split_and!; [done|done|reflexivity]. }
  apply Forall_cons in Ho as [Hwo Ho]. apply Forall_cons in Hs as [Hso Hs].
  destruct (merge_total a o Ha Hwo Hso) as (c & -> & Hc & Hsc). cbn.
  destruct (IH c Hc Ho) as (d & -> & Hd & Hsd).
  { eapply Forall_impl; [exact Hs|]. intros b Hb. etrans; [by symmetry|done]. }
  exists d. split_and!; [done|done|by etrans].
Qed.

(** Two neighbours may be swapped. *)
Lemma merge_all_swap a x y others : wf a -> wf x -> wf y -> same_shape a x -> same_shape a y ->
  merge_all a (x :: y :: others) = merge_all a (y :: x :: others).
Proof.
  intros Ha Hx Hy Sx Sy. cbn.
  assert (same_shape x y) as Sxy by (etrans; [by symmetry|done]).
  assert ((merge a x ≫= fun b => merge b y) = (merge a y ≫= fun b => merge b x)) as E.
  { rewrite (merge_assoc a x y), (merge_assoc a y x) by (done || by symmetry).
    by rewrite (merge_comm x y). }
  destruct (merge a x) as [ax|], (merge a y) as [ay|]; cbn in *; try done.
  - by rewrite E.
  - by rewrite E.
  - by rewrite <- E.
Qed.

Lemma merge_all_perm others others' : others ≡ₚ others' -> forall a, wf a ->
  Forall wf others -> Forall (same_shape a) others -> merge_all a others = merge_all a others'.
Proof.
  induction 1 as [|x l l' Hp IH|x y l|l1 l2 l3 H1 IH1 H2 IH2]; intros a Ha Hw Hs; [done| | |].
  - apply Forall_cons in Hw as [Hx Hw]. apply Forall_cons in Hs as [Sx Hs]. cbn.
    destruct (merge_total a x Ha Hx Sx) as (c & -> & Hc & Sc). cbn. apply IH; [done|done|].
    eapply Forall_impl; [exact Hs|]. intros b Hb. etrans; [by symmetry|done].
  - apply Forall_cons in Hw as [Hy [Hx Hw]%Forall_cons].
    apply Forall_cons in Hs as [Sy [Sx Hs]%Forall_cons]. by apply merge_all_swap.
  - rewrite IH1 by done. apply IH2; [done|by rewrite <- H1|by rewrite <- H1].
Qed.

(** A group of shards may be united on its own first. *)
Lemma merge_all_under l : forall x b, wf x -> wf b -> same_shape x b ->
  Forall wf l -> Forall (same_shape b) l ->
  merge_all x (b :: l) = (merge_all b l ≫= fun y => merge x y).
Proof.
  induction l as [|c l IH]; intros x b Hx Hb Sxb Hl Sl.
  { cbn. by destruct (merge x b). }
  apply Forall_cons in Hl as [Hc Hl]. apply Forall_cons in Sl as [Sbc Sl].
  destruct (merge_total b c Hb Hc Sbc) as (bc & Ebc & Hbc & Sbbc).
  pose proof (merge_assoc x b c Hx Hb Hc Sxb Sbc) as Ha. rewrite Ebc in Ha. cbn in Ha.
  cbn [merge_all]. rewrite Ebc. cbn [mbind option_bind].
  rewrite <- (IH x bc) by (done || (by etrans) ||
    (eapply Forall_impl; [exact Sl|]; intros ? ?; etrans; [by symmetry|done])).
  cbn [merge_all]. rewrite <- Ha. by destruct (merge x b).
Qed.
End laws.

(** ** Double hashing

    One 64-bit hash per item, split in two; the probe for row [i] is
    [h1 + i * h2] in 32-bit arithmetic, reduced modulo the table size. *)
Section probe.
Context {Item : Type}.
Variable hash_one : Item -> Z.
Definition h1_h2 (item : Item) : Z * Z :=
  let h := hash_one item in (u32 (Z.shiftr h 32), Z.lor (u32 h) 1).
Definition probe (m : Z) (item : Item) (i : Z) : Z :=
  let '(h1, h2) := h1_h2 item in u32 (h1 + u32 (u32 i * h2)) mod m.
(** The probes of [n] rows, in order. *)
Definition probes (m n : Z) (item : Item) : list Z := probe m item <$> seqZ 0 n.

Lemma probe_range m item i : 0 < m -> 0 <= probe m item i < m.
Proof. intros. unfold probe, h1_h2. by apply Z.mod_pos_bound. Qed.
Lemma probes_range m n item : 0 < m -> Forall (fun c => 0 <= c < m) (probes m n item).
Proof.
  intros. unfold probes. apply Forall_fmap, Forall_true. intros i. by apply probe_range.
Qed.
End probe.

(** ** Cell-wise operations on tables of one length *)
Section zip.
Context {A : Type} (f : A -> A -> A).
(** [for (a, b) in self.iter_mut().zip(other)]. *)
Fixpoint zip_update (l k : list A) : list A :=
  match l, k with
  | a :: l, b :: k => f a b :: zip_update l k
  | l, _ => l
  end.
Lemma zip_update_length l : forall k, length (zip_update l k) = length l.
Proof. induction l as [|a l IH]; intros [|b k]; cbn; [done..|]. by rewrite IH. Qed.
Lemma zip_update_comm : (forall a b, f a b = f b a) -> forall l k, length l = length k ->
  zip_update l k = zip_update k l.
Proof.
  intros Hf. induction l as [|a l IH]; intros [|b k]; cbn; try done. intros [= Hl].
  by rewrite Hf, IH.
Qed.
Lemma zip_update_assoc : (forall a b c, f (f a b) c = f a (f b c)) -> forall l k j,
  length l = length k -> length k = length j ->
  zip_update (zip_update l k) j = zip_update l (zip_update k j).
Proof.
  intros Hf. induction l as [|a l IH]; intros [|b k] [|c j]; cbn; try done.
  intros [= Hl] [= Hk]. by rewrite Hf, IH.
Qed.
Lemma zip_update_lookup l : forall k i a b, l !! i = Some a -> k !! i = Some b ->
  zip_update l k !! i = Some (f a b).
Proof.
  induction l as [|x l IH]; intros [|y k] [|i] a b; cbn; try done; [congruence|apply IH].
Qed.
End zip.
