(* ===== verification/Sketches.v ===== *)
(** * Mergeable sketches (src/src/correlate/)

    Count-Min, Bloom and counting Bloom filters, HyperLogLog and the bounded
    top-k counter, one module each, and the contract of [Mergeable] used
    with those that discharge it. *)

(** * Count-Min sketch (src/src/correlate/count_min.rs)

    The hasher is the caller's ([hash_one]).  The constructor from error
    bounds, which computes the dimensions with floating-point logarithms,
    is not modelled; it ends in [with_dimensions]. *)

From stdpp Require Import gmap.
From S2P Require Import Prelude Mergeable.
Open Scope Z_scope.

Module CountMinSketch.
Record t := mk { depth : Z; width : Z; grid : list Z }.
#[global] Instance eta : Eta t := mk_eta (fun s => mk (depth s) (width s) (grid s)).

Definition with_dimensions (depth width : Z) : t :=
  let depth := Z.max depth 1 in let width := Z.max width 1 in
  mk depth width (replicate (Z.to_nat (depth * width)) 0).

Section ops.
Context {Item : Type} `{EqDecision Item}.
Variable hash_one : Item -> Z.

(** The cell of an item in a row. *)
Definition cell (s : t) (item : Item) (row : Z) : nat :=
  Z.to_nat (row * width s + probe hash_one (width s) item row).

Definition add (item : Item) (count : Z) (s : t) : t :=
  s <| grid := foldl (fun g row => alter (fun c => sat_add32 c count) (cell s item row) g)
                 (grid s) (seqZ 0 (depth s)) |>.
Definition increment (item : Item) (s : t) : t := add item 1 s.
Definition estimate (item : Item) (s : t) : Z :=
  foldl (fun m row => Z.min m (default 0 (grid s !! cell s item row))) U32_MAX (seqZ 0 (depth s)).
Definition clear (s : t) : t := s <| grid ::= fmap (fun _ => 0) |>.
Definition is_empty (s : t) : bool := forallb (Z.eqb 0) (grid s).

Definition merged (s other : t) : option t :=
  if (depth s =? depth other) && (width s =? width other)
  then Some (s <| grid ::= fun g => zip_update sat_add32 g (grid other) |>)
  else None.
#[global] Instance mergeable : Mergeable t := merged.

(** ** What a sketch has seen

    [summarises s log]: [s] was built by these additions, possibly on
    several shards that were merged. *)
Inductive summarises (d w : Z) : t -> list (Item * Z) -> Prop :=
  | sum_new : summarises d w (with_dimensions d w) []
  | sum_add s log item count : summarises d w s log -> 0 <= count <= U32_MAX ->
      summarises d w (add item count s) ((item, count) :: log)
  | sum_merge s1 log1 s2 log2 s : summarises d w s1 log1 -> summarises d w s2 log2 ->
      merge s1 s2 = Some s -> summarises d w s (log1 ++ log2).

Definition total (P : Item -> bool) (log : list (Item * Z)) : Z :=
  foldr (fun ic n => (if P ic.1 then ic.2 else 0) + n) 0 log.
(** The true count of an item, and of everything. *)
Definition count_of (item : Item) (log : list (Item * Z)) : Z :=
  total (fun i => bool_decide (i = item)) log.
Definition count_all (log : list (Item * Z)) : Z := total (fun _ => true) log.

Lemma weight_cons P ic l : total P (ic :: l) = (if P ic.1 then ic.2 else 0) + total P l.
Proof. done. Qed.
Lemma weight_app P l k : total P (l ++ k) = total P l + total P k.
Proof. induction l as [|ic l IH]; cbn [app]; rewrite ?weight_cons; [done|lia]. Qed.
Lemma total_mono P Q log : Forall (fun ic => 0 <= ic.2) log -> (forall i, P i = true -> Q i = true) ->
  0 <= total P log <= total Q log.
Proof.
  intros Hl HPQ. induction Hl as [|ic log H Hl IH]; [cbn; lia|]. rewrite !weight_cons.
  specialize (HPQ ic.1). destruct (P ic.1), (Q ic.1); lia || by specialize (HPQ eq_refl).
Qed.
Lemma summarises_nonneg d w s log : summarises d w s log -> Forall (fun ic => 0 <= ic.2) log.
Proof. induction 1; [constructor|constructor; [cbn; lia|done]|by apply Forall_app]. Qed.

(** Every cell holds the saturated sum of what hashes to it. *)
Definition reflects (d w : Z) (s : t) (log : list (Item * Z)) : Prop :=
  depth s = Z.max d 1 /\ width s = Z.max w 1 /\
  length (grid s) = Z.to_nat (depth s * width s) /\
  forall r col, 0 <= r < depth s -> 0 <= col < width s ->
    grid s !! Z.to_nat (r * width s + col) =
      Some (Z.min U32_MAX (total (fun i => probe hash_one (width s) i r =? col) log)).

Lemma cell_inj w r c r' c' : 0 <= c < w -> 0 <= c' < w -> 0 <= r -> 0 <= r' ->
  Z.to_nat (r * w + c) = Z.to_nat (r' * w + c') -> r = r' /\ c = c'.
Proof.
  intros Hc Hc' Hr Hr' E. assert (r * w + c = r' * w + c') as E' by nia.
  assert (r = r') as -> by nia. split; [done|lia].
Qed.

Lemma add_rows (f : Z -> Z) w item (rows : list Z) : 0 < w -> Forall (fun r => 0 <= r) rows -> NoDup rows ->
  forall (g : list Z) r col,
  0 <= r -> 0 <= col < w ->
  foldl (fun g row => alter f (Z.to_nat (row * w + probe hash_one w item row)) g) g rows
    !! Z.to_nat (r * w + col) =
  if bool_decide (r ∈ rows) && (probe hash_one w item r =? col)
  then f <$> g !! Z.to_nat (r * w + col) else g !! Z.to_nat (r * w + col).
Proof.
  intros Hw Hrows Hn. induction Hn as [|r0 rows Hr0 Hn IH]; intros g r col Hr Hc; cbn [foldl].
  { by rewrite bool_decide_eq_false_2 by (by apply not_elem_of_nil). }
  apply Forall_cons in Hrows as [H0 Hrows]. rewrite IH by done.
  pose proof (probe_range hash_one w item r0 Hw) as Hp0.
  destruct (decide (r = r0)) as [->|Hne].
  - rewrite (bool_decide_eq_false_2 (r0 ∈ rows)) by exact Hr0.
    rewrite (bool_decide_eq_true_2 (r0 ∈ r0 :: rows)) by apply list_elem_of_here.
    cbn [andb]. destruct (Z.eqb_spec (probe hash_one w item r0) col) as [<-|Hcol].
    + apply list_lookup_alter_eq.
    + apply list_lookup_alter_ne. intros E. apply Hcol. by apply cell_inj in E as [_ E].
  - rewrite (bool_decide_ext (r ∈ r0 :: rows) (r ∈ rows)) by (rewrite elem_of_cons; tauto).
    rewrite list_lookup_alter_ne; [done|]. intros E. by apply cell_inj in E as [? _].
Qed.

Lemma cms_reflects_add d w s log item count : reflects d w s log -> 0 <= count ->
  Forall (fun ic => 0 <= ic.2) log -> reflects d w (add item count s) ((item, count) :: log).
Proof.
  intros (Hd & Hw & Hl & Hg) Hc Hlog. unfold reflects, add. cbn [depth width].
  split_and!; [done|done| |].
  - unfold_upd. cbn. rewrite <- Hl. generalize (grid s). generalize (seqZ 0 (depth s)).
    induction l as [|r rows IH]; intros g; cbn; [done|]. rewrite IH. apply length_alter.
  - intros r col Hr Hcol. unfold_upd. cbn [grid depth width]. unfold cell.
    rewrite add_rows; [|lia| |apply NoDup_seqZ|lia|done].
    2: { apply Forall_forall. intros ? ?%elem_of_seqZ. lia. }
    rewrite bool_decide_eq_true_2 by (apply elem_of_seqZ; unfold_upd; cbn in *; lia).
    unfold_upd. cbn [grid depth width] in *. rewrite Hg by done. rewrite weight_cons. cbn [andb].
    assert (0 <= total (fun i => probe hash_one (width s) i r =? col) log) as H0
      by (by apply (total_mono _ (fun _ => true))).
    cbn [fst snd]. destruct (probe hash_one (width s) item r =? col); cbn [fmap option_fmap option_map].
    + f_equal. unfold sat_add32. lia.
    + f_equal.
Qed.

Lemma cms_reflects_merge d w s1 l1 s2 l2 s : reflects d w s1 l1 -> reflects d w s2 l2 ->
  Forall (fun ic => 0 <= ic.2) l1 -> Forall (fun ic => 0 <= ic.2) l2 ->
  merge s1 s2 = Some s -> reflects d w s (l1 ++ l2).
Proof.
  intros (Hd1 & Hw1 & Hl1 & Hg1) (Hd2 & Hw2 & Hl2 & Hg2) H1 H2.
  unfold merge, mergeable, merged. case_if; [|done]. intros [= <-]. unfold reflects. unfold_upd.
  cbn [depth width grid]. split_and!; [done|done|by rewrite zip_update_length|].
  intros r col Hr Hcol.
  rewrite (zip_update_lookup _ _ _ _ _ _ (Hg1 r col Hr Hcol) ltac:(rewrite Hw1, <- Hw2; apply Hg2; lia)).
  rewrite weight_app. rewrite Hw1, Hw2 in *. f_equal. unfold sat_add32.
  destruct (total_mono (fun i => probe hash_one (Z.max w 1) i r =? col) (fun _ => true) l1 H1) as [T1 _]; [done|].
  destruct (total_mono (fun i => probe hash_one (Z.max w 1) i r =? col) (fun _ => true) l2 H2) as [T2 _]; [done|].
  unfold U32_MAX. lia.
Qed.

Lemma cms_reflects d w s log : summarises d w s log -> reflects d w s log.
Proof.
  intros H. induction H as [|s log item count H IH Hc|s1 l1 s2 l2 s H1 IH1 H2 IH2 Hm].
  - unfold reflects, with_dimensions. cbn. split_and!; [done|done|by rewrite length_replicate|].
    intros r col Hr Hc. apply lookup_replicate_2. apply Z2Nat.inj_lt; nia.
  - apply cms_reflects_add; [done|lia|by eapply summarises_nonneg].
  - eapply cms_reflects_merge; [apply IH1|apply IH2| | |done]; by eapply summarises_nonneg.
Qed.

(** A sketch is determined by the additions, in any order. *)
Lemma total_perm P log log' : log ≡ₚ log' -> total P log = total P log'.
Proof. induction 1; rewrite ?weight_cons; lia. Qed.
Lemma reflects_determined d w s1 l1 s2 l2 : reflects d w s1 l1 -> reflects d w s2 l2 -> l1 ≡ₚ l2 -> s1 = s2.
Proof.
  intros (Hd1 & Hw1 & Hl1 & Hg1) (Hd2 & Hw2 & Hl2 & Hg2) Hp.
  destruct s1 as [d1 w1 g1], s2 as [d2 w2 g2]. cbn in *. subst d1 d2 w1 w2. f_equal. apply list_eq. intros i.
  set (D := Z.max d 1) in *. set (W := Z.max w 1) in *. assert (0 < W) by lia.
  destruct (decide (i < Z.to_nat (D * W))%nat) as [Hi|Hi]; [|by rewrite !lookup_ge_None_2 by lia].
  pose proof (Z.mod_pos_bound (Z.of_nat i) W ltac:(lia)) as Hm. pose proof (Z.div_mod (Z.of_nat i) W ltac:(lia)) as E.
  assert (0 <= Z.of_nat i / W < D) as Hr by (split; [apply Z.div_pos; lia|apply Z.div_lt_upper_bound; lia]).
  replace i with (Z.to_nat (Z.of_nat i / W * W + Z.of_nat i mod W)) by lia.
  rewrite Hg1, Hg2 by done. by rewrite (total_perm _ l1 l2 Hp).
Qed.
(** The sketch of a stream of additions, the last first. *)
Definition sketch (d w : Z) (log : list (Item * Z)) : t :=
  foldr (fun ic s => add ic.1 ic.2 s) (with_dimensions d w) log.
Definition countable (ic : Item * Z) : Prop := 0 <= ic.2 <= U32_MAX.
Lemma sketch_reflects d w log : Forall countable log -> reflects d w (sketch d w log) log.
Proof.
  intros F. apply cms_reflects. induction F as [|[i c] log Hc _ IH]; [constructor|]. by apply sum_add.
Qed.
Lemma sketch_merge d w l k : Forall countable l -> Forall countable k ->
  merge (sketch d w l) (sketch d w k) = Some (sketch d w (l ++ k)).
Proof.
  intros Fl Fk. pose proof (sketch_reflects d w l Fl) as Rl. pose proof (sketch_reflects d w k Fk) as Rk.
  destruct (merge (sketch d w l) (sketch d w k)) as [s|] eqn:E.
  - f_equal. eapply reflects_determined; [|by apply sketch_reflects, Forall_app|reflexivity].
    eapply cms_reflects_merge; [exact Rl|exact Rk| | |exact E]; (eapply Forall_impl; [done|]); by intros ? [].
  - revert E. unfold merge, mergeable, merged. destruct Rl as (-> & -> & _), Rk as (-> & -> & _). by rewrite !Z.eqb_refl.
Qed.
Lemma sketch_perm d w l k : Forall countable l -> l ≡ₚ k -> sketch d w l = sketch d w k.
Proof.
  intros F P. eapply reflects_determined; [by apply sketch_reflects|apply sketch_reflects; by rewrite <- P|done].
Qed.

Lemma foldl_min (f : Z -> Z) rows : forall m0 lo hi, lo <= m0 -> Forall (fun r => lo <= f r <= hi) rows ->
  lo <= foldl (fun m r => Z.min m (f r)) m0 rows /\
  (m0 <= hi \/ rows <> [] -> foldl (fun m r => Z.min m (f r)) m0 rows <= hi).
Proof.
  induction rows as [|r rows IH]; intros m0 lo hi Hm Hr; cbn; [naive_solver|].
  apply Forall_cons in Hr as [H Hr]. destruct (IH (Z.min m0 (f r)) lo hi ltac:(lia) Hr) as [H1 H2].
  split; [done|]. intros _. apply H2. left. lia.
Qed.
End ops.

(** ** The shared contract *)
Definition shaped (s : t) : Prop :=
  0 < depth s /\ 0 < width s /\ length (grid s) = Z.to_nat (depth s * width s) /\
  Forall (fun c => 0 <= c <= U32_MAX) (grid s).
Definition same_dims (a b : t) : Prop := depth a = depth b /\ width a = width b.
#[global] Instance laws : MergeableLaws t shaped same_dims.
Proof.
  split.
  - split; unfold same_dims; [done| |]; [intros ?? []; done|intros ??? [] []; split; congruence].
  - intros a b (Hd & Hw & Hl & Hv) (Hd' & Hw' & Hl' & Hv') [E1 E2]. unfold merge, mergeable, merged.
    rewrite E1, E2, !Z.eqb_refl. cbn [andb]. eexists. split; [done|]. split; [|done].
    unfold shaped. unfold_upd. cbn. rewrite zip_update_length. split_and!; try done.
    rewrite <- E1, <- E2 in Hl'. clear - Hv Hv' Hl Hl'. revert Hv Hv'.
    assert (length (grid a) = length (grid b)) as E by congruence. revert E. clear.
    generalize (grid a) (grid b). induction l as [|x l IH]; intros [|y k]; cbn; try done.
    intros [= E] [Hx Hv]%Forall_cons [Hy Hv']%Forall_cons. constructor; [unfold sat_add32; lia|by apply IH].
  - intros a b (_ & _ & Hl & _) (_ & _ & Hl' & _) [E1 E2]. unfold merge, mergeable, merged.
    rewrite E1, E2, !Z.eqb_refl. cbn [andb]. destruct a, b. cbn in *. subst. unfold_upd. cbn. do 2 f_equal.
    apply zip_update_comm; [|congruence]. intros x y. unfold sat_add32. lia.
  - intros a b c (_ & _ & Hl & Hva) (_ & _ & Hl' & Hvb) (_ & _ & Hl'' & Hvc) [E1 E2] [E3 E4].
    unfold merge, mergeable, merged. rewrite E1, E2, E3, E4, !Z.eqb_refl. cbn [andb]. unfold_upd.
    cbn [mbind option_bind depth width grid]. rewrite E1, E2, E3, E4, !Z.eqb_refl. cbn [andb]. do 2 f_equal.
    destruct a, b, c. cbn in *. subst.
    assert (length grid0 = length grid1) as L1 by congruence.
    assert (length grid1 = length grid2) as L2 by congruence.
    clear - L1 L2 Hva Hvb Hvc. revert grid1 grid2 L1 L2 Hvb Hvc.
    induction Hva as [|x l Hx Hva IH]; intros [|y k] [|z j]; cbn; try done.
    intros [= L1] [= L2] [Hy Hk]%Forall_cons [Hz Hj]%Forall_cons.
    rewrite IH by done. f_equal. unfold sat_add32. lia.
Qed.

(** A Count-Min sketch never under-counts and never invents.
    However the additions were spread over shards and merged, the estimate
    of any item is at least its true count and at most the count of
    everything, both capped at [u32::MAX]; the hash function is
    arbitrary. *)
Theorem count_min_one_sided {Item} `{EqDecision Item} (hash_one : Item -> Z) d w s log item :
  summarises hash_one d w s log ->
  Z.min U32_MAX (count_of item log) <= estimate hash_one item s <= Z.min U32_MAX (count_all log).
Proof.
  intros Hs. destruct (cms_reflects hash_one d w s log Hs) as (Hd & Hw & Hl & Hg).
  pose proof (summarises_nonneg hash_one d w s log Hs) as Hn. unfold estimate.
  destruct (foldl_min (fun row => default 0 (grid s !! cell hash_one s item row)) (seqZ 0 (depth s))
    U32_MAX (Z.min U32_MAX (count_of item log)) (Z.min U32_MAX (count_all log))) as [H1 H2]; [lia| |].
  - apply Forall_forall. intros r Hr%elem_of_seqZ. unfold cell.
    rewrite Hg by (try apply probe_range; lia). cbn [default].
    pose proof (total_mono (fun i => bool_decide (i = item))
      (fun i => probe hash_one (width s) i r =? probe hash_one (width s) item r) log Hn) as Ha.
    pose proof (total_mono (fun i => probe hash_one (width s) i r =? probe hash_one (width s) item r)
      (fun _ => true) log Hn) as Hb.
    unfold count_of, count_all. cbn [from_option id].
    specialize (Ha ltac:(intros i ->%bool_decide_eq_true; apply Z.eqb_refl)).
    specialize (Hb ltac:(done)). lia.
  - split; [done|]. apply H2. right. intros E. apply (f_equal length) in E. rewrite length_seqZ in E. cbn in E. lia.
Qed.
Lemma count_min_one_sided_witness :
  let h := fun x : Z => x * 4294967297 in
  let a := add h 7 3 (add h 9 5 (with_dimensions 2 4)) in
  let b := add h 7 4 (with_dimensions 2 4) in
  match merge a b with
  | Some s => estimate h 7 s = 7 /\
      Z.min U32_MAX (count_of 7 [(7, 3); (9, 5); (7, 4)]) <= estimate h 7 s
        <= Z.min U32_MAX (count_all [(7, 3); (9, 5); (7, 4)])
  | None => False
  end.
Proof.
  intros h a b. destruct (merge a b) as [s|] eqn:E; [|vm_compute in E; discriminate E].
  split.
  - vm_compute in E. injection E as <-. vm_compute. reflexivity.
  - apply (count_min_one_sided h 2 4 s ([(7, 3); (9, 5)] ++ [(7, 4)]) 7).
    apply (sum_merge h 2 4 a _ b _ s); [| |exact E].
    + unfold a. repeat apply sum_add; try constructor; vm_compute; discriminate.
    + unfold b. repeat apply sum_add; try constructor; vm_compute; discriminate.
Defined.
End CountMinSketch.

(** * Bloom filters (src/src/correlate/bloom.rs, counting_bloom.rs)

    Bits are packed in 64-bit words, counting cells sixteen to a word, as
    in the source.  The hasher is the caller's ([hash_one]); the
    constructors compute their sizes with floating-point logarithms and
    are modelled from the sizes on ([with_sizes]); [saturation], a
    floating-point gauge, is not modelled. *)


(** ** Packed words *)
Module Words.
(** [n.div_ceil(k)] zero words. *)
Definition zeroed (n k : Z) : list Z := replicate (Z.to_nat ((n + k - 1) / k)) 0.
Definition get (ws : list Z) (i : Z) : Z := default 0 (ws !! Z.to_nat i).

(** The bit [bit]; [touch] sets it. *)
Definition bit_of (ws : list Z) (bit : Z) : bool :=
  negb (Z.land (get ws (bit / 64)) (Z.shiftl 1 (bit mod 64)) =? 0).
Definition touch (ws : list Z) (bit : Z) : list Z :=
  alter (fun w => Z.lor w (Z.shiftl 1 (bit mod 64))) (Z.to_nat (bit / 64)) ws.

Lemma bit_of_testbit ws bit : 0 <= bit -> bit_of ws bit = Z.testbit (get ws (bit / 64)) (bit mod 64).
Proof.
  intros Hb. unfold bit_of. set (w := get ws (bit / 64)).
  pose proof (Z.mod_pos_bound bit 64 ltac:(lia)) as Hm.
  assert (forall i, 0 <= i -> Z.testbit (Z.land w (Z.shiftl 1 (bit mod 64))) i =
    Z.testbit w (bit mod 64) && (i =? bit mod 64)) as Ht.
  { intros i Hi. rewrite Z.land_spec, Z.shiftl_mul_pow2, Z.mul_1_l, Z.pow2_bits_eqb by lia.
    destruct (Z.eqb_spec i (bit mod 64)) as [->|Hne]; [by rewrite Z.eqb_refl|].
    destruct (Z.eqb_spec (bit mod 64) i); [congruence|]. by rewrite !andb_false_r. }
  destruct (Z.testbit w (bit mod 64)) eqn:E; cbn [negb].
  - destruct (Z.eqb_spec (Z.land w (Z.shiftl 1 (bit mod 64))) 0) as [E0|]; [|done].
    specialize (Ht (bit mod 64) ltac:(lia)). rewrite E0, Z.testbit_0_l, Z.eqb_refl in Ht. done.
  - assert (Z.land w (Z.shiftl 1 (bit mod 64)) = 0) as ->; [|done].
    apply Z.bits_inj'. intros i Hi. rewrite Ht, Z.testbit_0_l by done. done.
Qed.

Lemma touch_length ws bit : length (touch ws bit) = length ws.
Proof. apply length_alter. Qed.

Lemma bit_of_touch ws bit b : 0 <= bit -> 0 <= b -> (Z.to_nat (bit / 64) < length ws)%nat ->
  bit_of (touch ws bit) b = (b =? bit) || bit_of ws b.
Proof.
  intros Hb Hb' Hl. rewrite !bit_of_testbit by done. unfold touch, get.
  pose proof (Z.mod_pos_bound bit 64 ltac:(lia)) as Hm. pose proof (Z.mod_pos_bound b 64 ltac:(lia)) as Hm'.
  pose proof (Z.div_pos bit 64 ltac:(lia) ltac:(lia)) as Hd. pose proof (Z.div_pos b 64 ltac:(lia) ltac:(lia)) as Hd'.
  destruct (decide (b / 64 = bit / 64)) as [E|E].
  - rewrite E, list_lookup_alter_eq. apply lookup_lt_is_Some_2 in Hl as [w Hw]. rewrite Hw.
    cbn [fmap option_fmap option_map default from_option id].
    rewrite Z.lor_spec, Z.shiftl_mul_pow2, Z.mul_1_l, Z.pow2_bits_eqb by lia. rewrite orb_comm. f_equal.
    destruct (Z.eqb_spec b bit) as [->|Hne]; [apply Z.eqb_refl|]. apply Z.eqb_neq. intros Em. apply Hne.
    rewrite (Z.div_mod b 64), (Z.div_mod bit 64) by lia. congruence.
  - rewrite list_lookup_alter_ne by (intros En; apply Z2Nat.inj in En; congruence).
    destruct (Z.eqb_spec b bit) as [->|]; [done|done].
Qed.

Lemma bit_of_zeroed n k bit : 0 <= bit -> bit_of (zeroed n k) bit = false.
Proof.
  intros. rewrite bit_of_testbit by done. unfold get, zeroed.
  destruct (replicate _ 0 !! _) as [w|] eqn:E; cbn [default from_option id]; [|apply Z.testbit_0_l].
  apply lookup_replicate in E as [-> _]. apply Z.testbit_0_l.
Qed.

Lemma bit_of_union ws ws' bit : 0 <= bit -> length ws = length ws' ->
  bit_of (zip_update Z.lor ws ws') bit = bit_of ws bit || bit_of ws' bit.
Proof.
  intros Hb Hl. rewrite !bit_of_testbit by done. unfold get.
  destruct (ws !! Z.to_nat (bit / 64)) as [w|] eqn:E.
  - assert (is_Some (ws' !! Z.to_nat (bit / 64))) as [w' E'].
    { apply lookup_lt_is_Some_2. rewrite <- Hl. by eapply lookup_lt_Some. }
    rewrite (zip_update_lookup _ _ _ _ _ _ E E'), E'. cbn [default from_option id]. apply Z.lor_spec.
  - assert (zip_update Z.lor ws ws' !! Z.to_nat (bit / 64) = None) as ->.
    { apply lookup_ge_None. rewrite zip_update_length. by apply lookup_ge_None. }
    assert (ws' !! Z.to_nat (bit / 64) = None) as ->.
    { apply lookup_ge_None. rewrite <- Hl. by apply lookup_ge_None. }
    cbn [default from_option id]. by rewrite Z.testbit_0_l.
Qed.
End Words.

Module BloomFilter.
Record t := mk { words : list Z; bits : Z; hashes : Z }.
#[global] Instance eta : Eta t := mk_eta (fun s => mk (words s) (bits s) (hashes s)).

Definition with_sizes (bits hashes : Z) : t :=
  let bits := Z.max bits 64 in mk (Words.zeroed bits 64) bits (Z.max 1 (Z.min hashes 64)).

Section ops.
Context {Item : Type}.
Variable hash_one : Item -> Z.

(** The loop body of [insert]. *)
Definition insert_probe (m : Z) (item : Item) (acc : list Z * bool) (i : Z) : list Z * bool :=
  let bit := probe hash_one m item i in
  if Words.bit_of acc.1 bit then acc else (Words.touch acc.1 bit, true).
Definition insert (item : Item) (s : t) : t * bool :=
  let '(ws, newly) :=
    foldl (insert_probe (bits s) item) (words s, false) (seqZ 0 (hashes s)) in
  (s <| words := ws |>, newly).
Definition contains (item : Item) (s : t) : bool :=
  forallb (fun i => Words.bit_of (words s) (probe hash_one (bits s) item i)) (seqZ 0 (hashes s)).
Definition clear (s : t) : t := s <| words ::= fmap (fun _ => 0) |>.
Definition is_empty (s : t) : bool := forallb (Z.eqb 0) (words s).

Definition merged (s other : t) : option t :=
  if (bits s =? bits other) && (hashes s =? hashes other)
  then Some (s <| words ::= fun ws => zip_update Z.lor ws (words other) |>)
  else None.
#[global] Instance mergeable : Mergeable t := merged.

(** [summarises m k s log]: [s] has [m] bits and [k] hash functions and was
    built by these insertions, possibly on several shards. *)
Inductive summarises (m k : Z) : t -> list Item -> Prop :=
  | sum_new : summarises m k (with_sizes m k) []
  | sum_insert s log item : summarises m k s log -> summarises m k (insert item s).1 (item :: log)
  | sum_merge s1 log1 s2 log2 s : summarises m k s1 log1 -> summarises m k s2 log2 ->
      merge s1 s2 = Some s -> summarises m k s (log1 ++ log2).

Definition touched_by (m k : Z) (bit : Z) (item : Item) : bool :=
  existsb (Z.eqb bit) (probes hash_one m k item).

(** The bits set are the probes of the items seen. *)
Definition reflects (m k : Z) (s : t) (log : list Item) : Prop :=
  bits s = Z.max m 64 /\ hashes s = Z.max 1 (Z.min k 64) /\
  length (words s) = Z.to_nat ((bits s + 64 - 1) / 64) /\
  forall bit, 0 <= bit < bits s ->
    Words.bit_of (words s) bit = existsb (touched_by (bits s) (hashes s) bit) log.

Lemma insert_rows m item rows : 0 < m -> forall ws newly, (Z.to_nat ((m + 64 - 1) / 64) <= length ws)%nat ->
  let r := foldl (insert_probe m item) (ws, newly) rows in
  length r.1 = length ws /\
  (forall bit, 0 <= bit -> Words.bit_of r.1 bit =
     Words.bit_of ws bit || existsb (Z.eqb bit) (probe hash_one m item <$> rows)) /\
  r.2 = newly || negb (forallb (fun i => Words.bit_of ws (probe hash_one m item i)) rows).
Proof.
  intros Hm. induction rows as [|r0 rows IH]; intros ws newly Hl; cbn [foldl fmap list_fmap existsb forallb fst snd].
  { split_and!; [done|intros; by rewrite orb_false_r|by rewrite orb_false_r]. }
  pose proof (probe_range hash_one m item r0 Hm) as Hp. unfold insert_probe at 2 4 6. cbn [fst].
  set (p := probe hash_one m item r0) in *.
  destruct (Words.bit_of ws p) eqn:E; cbn [andb].
  - destruct (IH ws newly Hl) as (H1 & H2 & H3). split_and!; [done| |done].
    intros bit Hb. rewrite H2 by done. destruct (Z.eqb_spec bit p) as [->|]; [|done].
    rewrite E. done.
  - assert (Z.to_nat (p / 64) < length ws)%nat as Hlt.
    { eapply Nat.lt_le_trans; [|exact Hl]. apply Z2Nat.inj_lt; Z.to_euclidean_division_equations; lia. }
    destruct (IH (Words.touch ws p) true) as (H1 & H2 & H3); [by rewrite Words.touch_length|].
    rewrite Words.touch_length in H1. split_and!; [done| |by rewrite H3, orb_true_r].
    intros bit Hb. rewrite H2, Words.bit_of_touch by lia.
    destruct (bit =? p), (Words.bit_of ws bit); done.
Qed.

Lemma reflects_insert m k s log item : reflects m k s log ->
  reflects m k (insert item s).1 (item :: log).
Proof.
  intros (Hm & Hk & Hl & Hg). unfold insert.
  pose proof (insert_rows (bits s) item (seqZ 0 (hashes s)) ltac:(lia) (words s) false ltac:(lia)) as H.
  destruct (foldl _ _ _) as [ws newly]. cbn [fst snd] in *. destruct H as (H1 & H2 & _).
  unfold reflects. unfold_upd. cbn [words bits hashes]. split_and!; [done|done|congruence|].
  intros bit Hb. rewrite H2, Hg by lia. cbn [existsb]. unfold touched_by at 2. unfold probes.
  by rewrite orb_comm.
Qed.

Lemma bloom_reflects_merge m k s1 l1 s2 l2 s : reflects m k s1 l1 -> reflects m k s2 l2 ->
  merge s1 s2 = Some s -> reflects m k s (l1 ++ l2).
Proof.
  intros (Hm1 & Hk1 & Hl1 & Hg1) (Hm2 & Hk2 & Hl2 & Hg2). unfold merge, mergeable, merged. case_if; [|done].
  intros [= <-]. unfold reflects. unfold_upd. cbn [words bits hashes].
  split_and!; [done|done|by rewrite zip_update_length|]. intros bit Hb.
  rewrite Words.bit_of_union, existsb_app, Hg1, Hg2 by (lia || congruence). congruence.
Qed.

Lemma bloom_reflects m k s log : summarises m k s log -> reflects m k s log.
Proof.
  induction 1 as [|s log item H IH|s1 l1 s2 l2 s H1 IH1 H2 IH2 Hm].
  - unfold reflects, with_sizes. cbn [words bits hashes]. split_and!; [done|done|apply length_replicate|].
    intros bit Hb. apply Words.bit_of_zeroed. lia.
  - by apply reflects_insert.
  - by eapply bloom_reflects_merge.
Qed.

Lemma insert_newly m k s log item : reflects m k s log -> (insert item s).2 = negb (contains item s).
Proof.
  intros (Hm & Hk & Hl & Hg). unfold insert, contains.
  pose proof (insert_rows (bits s) item (seqZ 0 (hashes s)) ltac:(lia) (words s) false ltac:(lia)) as H.
  destruct (foldl _ _ _) as [ws newly]. cbn [fst snd] in *. by destruct H as (_ & _ & ->).
Qed.
(** *** Uniting filters *)
Lemma zip_alter (f : Z -> Z -> Z) (g : Z -> Z) i : (forall a b, f (g a) b = g (f a b)) ->
  forall ws ws', length ws = length ws' -> zip_update f (alter g i ws) ws' = alter g i (zip_update f ws ws').
Proof.
  intros Hg. revert i. induction i as [|i IH]; intros [|w ws] [|w' ws']; cbn; try done; intros [= L]; f_equal; [apply Hg|by apply IH].
Qed.
Lemma touch_set ws bit : 0 <= bit -> Words.bit_of ws bit = true -> Words.touch ws bit = ws.
Proof.
  intros Hb Ht. rewrite Words.bit_of_testbit in Ht by done. unfold Words.touch, Words.get in *.
  destruct (ws !! Z.to_nat (bit / 64)) as [w|] eqn:E; [|apply list_eq; intros i; destruct (decide (i = Z.to_nat (bit / 64))) as [->|];
    [by rewrite list_lookup_alter_eq, E|by rewrite list_lookup_alter_ne]].
  apply list_eq. intros i. destruct (decide (Z.to_nat (bit / 64) = i)) as [<-|N]; [|by rewrite list_lookup_alter_ne].
  rewrite list_lookup_alter_eq, E. cbn in *. f_equal. apply Z.bits_inj'. intros j Hj.
  rewrite Z.lor_spec, Z.shiftl_mul_pow2, Z.mul_1_l by (apply Z.mod_pos_bound; lia).
  rewrite Z.pow2_bits_eqb by (apply Z.mod_pos_bound; lia).
  destruct (Z.eqb_spec (bit mod 64) j) as [<-|]; [by rewrite Ht|by rewrite orb_false_r].
Qed.
Lemma insert_words item s : 0 < bits s ->
  (insert item s).1 = s <| words ::= fun ws => foldl Words.touch ws (probes hash_one (bits s) (hashes s) item) |>.
Proof.
  intros Hb. unfold insert, probes. generalize (seqZ 0 (hashes s)) false. unfold_upd. destruct s as [ws m k]. cbn [words bits hashes] in *.
  intros rows. revert ws. induction rows as [|r rows IH]; intros ws newly; [done|]. cbn [foldl fmap list_fmap].
  unfold insert_probe at 2. cbn [fst]. pose proof (probe_range hash_one m item r Hb).
  destruct (Words.bit_of ws _) eqn:E; [rewrite touch_set by (done || lia)|]; apply IH.
Qed.
Lemma union_touches cs : forall ws ws', length ws = length ws' ->
  zip_update Z.lor (foldl Words.touch ws cs) ws' = foldl Words.touch (zip_update Z.lor ws ws') cs.
Proof.
  induction cs as [|c cs IH]; intros ws ws' L; [done|]. cbn [foldl]. rewrite IH by (by rewrite Words.touch_length).
  f_equal. apply zip_alter; [|done]. intros a b. rewrite <- !Z.lor_assoc. f_equal. apply Z.lor_comm.
Qed.
Lemma union_zeroed ws n : length ws = n -> zip_update Z.lor (replicate n 0) ws = ws.
Proof. intros <-. induction ws as [|w ws IH]; [done|]. cbn. by rewrite IH, Z.lor_0_l. Qed.

(** The filter of a stream of items, the last first. *)
Definition filter_of (m k : Z) (log : list Item) : t := foldr (fun item s => (insert item s).1) (with_sizes m k) log.
Lemma filter_reflects m k log : reflects m k (filter_of m k log) log.
Proof. apply bloom_reflects. induction log as [|item log IH]; by constructor. Qed.
Lemma merge_same (s other : t) : bits s = bits other -> hashes s = hashes other ->
  merge s other = Some (s <| words ::= fun ws => zip_update Z.lor ws (words other) |>).
Proof. unfold merge, mergeable, merged. intros -> ->. by rewrite !Z.eqb_refl. Qed.
Lemma filter_merge m k l l' : merge (filter_of m k l) (filter_of m k l') = Some (filter_of m k (l ++ l')).
Proof.
  destruct (filter_reflects m k l') as (Hb & Hk & Hl & _).
  induction l as [|item l IH].
  - rewrite merge_same by (rewrite ?Hb, ?Hk; done). cbn [app filter_of foldr].
    destruct (foldr _ _ l') as [ws b h] eqn:E. fold (filter_of m k l') in E. rewrite E in Hb, Hk, Hl. cbn [words bits hashes] in *.
    unfold with_sizes, Words.zeroed. unfold_upd. cbn [words bits hashes]. subst b h. rewrite E. cbn [words]. by rewrite union_zeroed.
  - pose proof (filter_reflects m k l) as (Hb1 & Hk1 & Hl1 & _). rewrite merge_same in IH by congruence. injection IH as IH.
    change (filter_of m k ((item :: l) ++ l')) with (insert item (filter_of m k (l ++ l'))).1.
    change (filter_of m k (item :: l)) with (insert item (filter_of m k l)).1.
    rewrite <- IH. rewrite !insert_words by (unfold_upd; cbn; lia).
    rewrite merge_same by (unfold_upd; cbn; congruence). unfold_upd. cbn [words bits hashes].
    do 2 f_equal. by rewrite union_touches by congruence.
Qed.
Lemma filter_perm m k l l' : l ≡ₚ l' -> filter_of m k l = filter_of m k l'.
Proof.
  assert (C : forall a b, filter_of m k (a ++ b) = filter_of m k (b ++ a)).
  { intros a b. pose proof (filter_merge m k a b) as E1. pose proof (filter_merge m k b a) as E2.
    pose proof (filter_reflects m k a) as (Ha & Ka & La & _). pose proof (filter_reflects m k b) as (Hb & Kb & Lb & _).
    rewrite merge_same in E1, E2 by congruence. injection E1 as <-. injection E2 as <-.
    destruct (filter_of m k a), (filter_of m k b). unfold_upd. cbn in *. f_equal; [|congruence..].
    apply zip_update_comm; [apply Z.lor_comm|congruence]. }
  induction 1 as [|x j j' _ IH|x y j|? ? ? _ IH1 _ IH2]; [done|unfold filter_of in *; cbn; by rewrite IH| |congruence].
  pose proof (filter_merge m k [y; x] j) as E1. pose proof (filter_merge m k [x; y] j) as E2.
  rewrite (C [y] [x] : filter_of m k [y; x] = _) in E1. cbn [app] in E1, E2. rewrite E2 in E1. by injection E1.
Qed.
End ops.

(** ** The shared contract *)
Definition shaped (s : t) : Prop := length (words s) = Z.to_nat ((bits s + 64 - 1) / 64).
Definition same_sizes (a b : t) : Prop := bits a = bits b /\ hashes a = hashes b.
#[global] Instance laws : MergeableLaws t shaped same_sizes.
Proof.
  split.
  - split; unfold same_sizes; [done|intros ?? []; done|intros ??? [] []; split; congruence].
  - intros a b Ha Hb [E1 E2]. unfold merge, mergeable, merged. rewrite E1, E2, !Z.eqb_refl. eexists.
    split; [done|]. split; [|done]. unfold shaped. unfold_upd. cbn. by rewrite zip_update_length.
  - intros a b Ha Hb [E1 E2]. unfold merge, mergeable, merged, shaped in *. rewrite E1, E2, !Z.eqb_refl.
    destruct a, b. cbn in *. subst. unfold_upd. cbn. do 2 f_equal.
    apply zip_update_comm; [apply Z.lor_comm|congruence].
  - intros a b c Ha Hb Hc [E1 E2] [E3 E4]. unfold merge, mergeable, merged, shaped in *.
    rewrite E1, E2, E3, E4, !Z.eqb_refl. unfold_upd. cbn. rewrite E1, E2, E3, E4, !Z.eqb_refl.
    destruct a, b, c. cbn in *. subst. do 2 f_equal.
    apply zip_update_assoc; [intros; symmetry; apply Z.lor_assoc|congruence|congruence].
Qed.

(** A Bloom filter's answers are exactly the probes of what it saw,
    however the insertions were spread over shards and merged.  An item
    that was inserted is always reported; an item is reported only when
    each of its probes is a probe of some inserted item; and [insert]
    says "new" exactly when [contains] would have said no.  The hash
    function is arbitrary. *)
Theorem bloom_exact {Item} (hash_one : Item -> Z) m k s log item :
  summarises hash_one m k s log ->
  (item ∈ log -> contains hash_one item s = true) /\
  (contains hash_one item s = true <->
    forall bit, bit ∈ probes hash_one (bits s) (hashes s) item ->
      exists seen, seen ∈ log /\ bit ∈ probes hash_one (bits s) (hashes s) seen) /\
  (insert hash_one item s).2 = negb (contains hash_one item s).
Proof.
  intros Hs. pose proof (bloom_reflects hash_one m k s log Hs) as Hr.
  destruct Hr as (Hm & Hk & Hl & Hg) eqn:EHr. clear EHr.
  assert (contains hash_one item s = true <->
    forall bit, bit ∈ probes hash_one (bits s) (hashes s) item ->
      exists seen, seen ∈ log /\ bit ∈ probes hash_one (bits s) (hashes s) seen) as Hc.
  { unfold contains. rewrite forallb_forall. split.
    - intros H bit (i & -> & Hi)%list_elem_of_fmap. specialize (H i (proj1 (list_elem_of_In _ _) Hi)).
      rewrite Hg in H by (apply probe_range; lia). apply existsb_exists in H as (x & Hx & Ht).
      exists x. split; [by apply list_elem_of_In|]. apply existsb_exists in Ht as (b & Hb & ->%Z.eqb_eq).
      by apply list_elem_of_In.
    - intros H i Hi. rewrite Hg by (apply probe_range; lia).
      destruct (H (probe hash_one (bits s) item i)) as (x & Hx & Hb).
      { apply list_elem_of_fmap. exists i. split; [done|]. by apply list_elem_of_In. }
      apply existsb_exists. exists x. split; [by apply list_elem_of_In|]. apply existsb_exists.
      eexists. split; [by apply list_elem_of_In|]. apply Z.eqb_refl. }
  split_and!; [|done|by eapply insert_newly].
  intros Hi. apply Hc. intros bit Hb. by exists item.
Qed.
Lemma bloom_exact_witness :
  let h := fun x : Z => x * 4294967297 in
  let a := (insert h 7 (with_sizes 64 3)).1 in
  let b := (insert h 9 (with_sizes 64 3)).1 in
  match merge a b with
  | Some s => contains h 9 s = true /\ contains h 8 s = false
  | None => False
  end.
Proof.
  intros h a b. destruct (merge a b) as [s|] eqn:E; [|vm_compute in E; discriminate E]. split.
  - refine (proj1 (bloom_exact h 64 3 s ([7] ++ [9]) 9 _) _).
    + apply (sum_merge h 64 3 a _ b _ s); [apply sum_insert, sum_new|apply sum_insert, sum_new|exact E].
    + cbn. right. left.
  - vm_compute in E. injection E as <-. vm_compute. reflexivity.
Defined.
End BloomFilter.

(** * Counting Bloom filter (src/src/correlate/counting_bloom.rs)

    Four-bit cells, sixteen to a 64-bit word, saturating stickily at 15.
    Arithmetic is that of a release build: [v - 1] on a [u64] wraps.  The
    hasher is the caller's; the constructor is modelled from the sizes on;
    [saturation], a floating-point gauge, is not modelled. *)


(** ** Cells *)
Module Cell4.
Definition CELL_BITS : Z := 4.
Definition CELLS_PER_WORD : Z := 16.
Definition CELL_MAX : Z := 15.

Definition shift_of (cell : Z) : Z := cell mod CELLS_PER_WORD * CELL_BITS.
Definition word_of (ws : list Z) (cell : Z) : Z := default 0 (ws !! Z.to_nat (cell / CELLS_PER_WORD)).
Definition cell_get (ws : list Z) (cell : Z) : Z :=
  Z.land (Z.shiftr (word_of ws cell) (shift_of cell)) CELL_MAX.
(** [w = (w & !(CELL_MAX << shift)) | (value << shift)]. *)
Definition put (ws : list Z) (cell value : Z) : list Z :=
  alter (fun w => Z.lor (Z.land w (Z.lxor U64_MAX (Z.shiftl CELL_MAX (shift_of cell))))
                        (u64 (Z.shiftl value (shift_of cell))))
    (Z.to_nat (cell / CELLS_PER_WORD)) ws.
Definition cell_set (ws : list Z) (cell value : Z) : list Z := put ws cell (Z.land value CELL_MAX).

(** The word of a cell exists. *)
Definition room (ws : list Z) (cell : Z) : Prop :=
  0 <= cell /\ (Z.to_nat (cell / CELLS_PER_WORD) < length ws)%nat.

Lemma shift_range cell : 0 <= shift_of cell <= 60 .
Proof.
  unfold shift_of, CELLS_PER_WORD, CELL_BITS. pose proof (Z.mod_pos_bound cell 16 ltac:(lia)). lia.
Qed.

Lemma land_max x : Z.land x CELL_MAX = x mod 16.
Proof. change CELL_MAX with (Z.ones 4). by rewrite Z.land_ones. Qed.

Lemma cell_get_range ws cell : 0 <= cell_get ws cell <= 15.
Proof. unfold cell_get. rewrite land_max. pose proof (Z.mod_pos_bound (Z.shiftr (word_of ws cell) (shift_of cell)) 16). lia. Qed.

Lemma cell_get_bit ws cell j : 0 <= j ->
  Z.testbit (cell_get ws cell) j = Z.testbit (word_of ws cell) (j + shift_of cell) && (j <? 4).
Proof.
  intros Hj. unfold cell_get. rewrite Z.land_spec, Z.shiftr_spec by done.
  change CELL_MAX with (Z.ones 4). by rewrite Z.testbit_ones_nonneg by lia.
Qed.

Lemma put_word_bit w cell v i : 0 <= v <= 15 -> 0 <= i < 64 ->
  Z.testbit (Z.lor (Z.land w (Z.lxor U64_MAX (Z.shiftl CELL_MAX (shift_of cell))))
                        (u64 (Z.shiftl v (shift_of cell)))) i =
  if (shift_of cell <=? i) && (i <? shift_of cell + 4) then Z.testbit v (i - shift_of cell)
  else Z.testbit w i.
Proof.
  intros Hv Hi. pose proof (shift_range cell) as Hs. set (sh := shift_of cell) in *.
  unfold u64. rewrite Z.lor_spec, Z.land_spec, Z.lxor_spec, Z.mod_pow2_bits_low by lia.
  change U64_MAX with (Z.ones 64). change CELL_MAX with (Z.ones 4).
  rewrite Z.testbit_ones_nonneg, !Z.shiftl_spec by lia.
  destruct (Z.ltb_spec i 64); [|lia].
  destruct (Z.leb_spec sh i) as [Hle|Hlt]; cbn [andb].
  - rewrite Z.testbit_ones_nonneg by lia. destruct (Z.ltb_spec i (sh + 4)) as [H4|H4].
    + destruct (Z.ltb_spec (i - sh) 4); [|lia]. cbn. by rewrite andb_false_r.
    + destruct (Z.ltb_spec (i - sh) 4); [lia|]. cbn. rewrite andb_true_r.
      assert (Z.testbit v (i - sh) = false) as ->; [|by rewrite orb_false_r].
      destruct (decide (v = 0)) as [->|]; [apply Z.testbit_0_l|].
      apply Z.bits_above_log2; [lia|]. apply Z.log2_lt_pow2; [lia|].
      enough (2 ^ 4 <= 2 ^ (i - sh)) by lia. apply Z.pow_le_mono_r; lia.
  - rewrite !(Z.testbit_neg_r _ (i - sh)) by lia. cbn. by rewrite andb_true_r, orb_false_r.
Qed.

Lemma put_length ws cell v : length (put ws cell v) = length ws.
Proof. apply length_alter. Qed.

Lemma get_put ws cell v c : room ws cell -> 0 <= c -> 0 <= v <= 15 ->
  cell_get (put ws cell v) c = if c =? cell then v else cell_get ws c.
Proof.
  intros [Hcell Hl] Hc Hv. apply Z.bits_inj'. intros j Hj.
  assert (Hgoal : forall b, Z.testbit (word_of (put ws cell v) c) (j + shift_of c) && (j <? 4) = b ->
    Z.testbit (cell_get (put ws cell v) c) j = b) by (intros b <-; by apply cell_get_bit).
  apply Hgoal. clear Hgoal. destruct (Z.ltb_spec j 4) as [Hj4|Hj4]; cycle 1.
  { rewrite andb_false_r. symmetry. destruct (c =? cell).
    - destruct (decide (v = 0)) as [->|]; [apply Z.testbit_0_l|].
      apply Z.bits_above_log2; [lia|]. apply Z.log2_lt_pow2; [lia|].
      enough (2 ^ 4 <= 2 ^ j) by lia. apply Z.pow_le_mono_r; lia.
    - rewrite cell_get_bit by done. destruct (Z.ltb_spec j 4); [lia|]. apply andb_false_r. }
  rewrite andb_true_r. pose proof (shift_range c) as Hsc. pose proof (shift_range cell) as Hsl.
  unfold word_of, put. destruct (decide (c / CELLS_PER_WORD = cell / CELLS_PER_WORD)) as [E|E].
  - rewrite E, list_lookup_alter_eq. apply lookup_lt_is_Some_2 in Hl as [w Hw]. rewrite Hw.
    cbn [fmap option_fmap option_map default from_option id]. rewrite put_word_bit by lia.
    destruct (Z.eqb_spec c cell) as [->|Hne].
    + destruct (Z.leb_spec (shift_of cell) (j + shift_of cell)); [|lia].
      destruct (Z.ltb_spec (j + shift_of cell) (shift_of cell + 4)); [|lia]. cbn [andb]. f_equal. lia.
    + assert (c mod 16 <> cell mod 16) as Hmod.
      { intros Em. apply Hne. rewrite (Z.div_mod c 16), (Z.div_mod cell 16) by lia.
        unfold CELLS_PER_WORD in E. congruence. }
      unfold shift_of, CELLS_PER_WORD, CELL_BITS in *.
      replace ((_ <=? _) && (_ <? _)) with false; cycle 1.
      { symmetry. destruct (Z.leb_spec (cell mod 16 * 4) (j + c mod 16 * 4)); [|done].
        destruct (Z.ltb_spec (j + c mod 16 * 4) (cell mod 16 * 4 + 4)); [lia|done]. }
      rewrite cell_get_bit by done. unfold word_of. unfold shift_of, CELLS_PER_WORD, CELL_BITS in *.
      rewrite E, Hw. destruct (Z.ltb_spec j 4); [|lia]. by rewrite andb_true_r.
  - rewrite list_lookup_alter_ne; cycle 1.
    { unfold CELLS_PER_WORD in *. pose proof (Z.div_pos c 16). pose proof (Z.div_pos cell 16).
      intros En. apply Z2Nat.inj in En; [congruence|lia|lia]. }
    destruct (Z.eqb_spec c cell) as [->|]; [done|]. rewrite cell_get_bit by done.
    destruct (Z.ltb_spec j 4); [|lia]. by rewrite andb_true_r.
Qed.

Lemma land_small v : 0 <= v <= 15 -> Z.land v CELL_MAX = v.
Proof. intros. rewrite land_max. apply Z.mod_small. lia. Qed.

Lemma room_put ws cell v c : room ws c -> room (put ws cell v) c.
Proof. unfold room. by rewrite put_length. Qed.
End Cell4.

Module CountingBloomFilter.
Import Cell4.
Record t := mk { words : list Z; cells : Z; hashes : Z }.
#[global] Instance eta : Eta t := mk_eta (fun s => mk (words s) (cells s) (hashes s)).

Definition with_sizes (cells hashes : Z) : t :=
  let cells := Z.max cells 64 in
  mk (replicate (Z.to_nat ((cells + CELLS_PER_WORD - 1) / CELLS_PER_WORD)) 0) cells
     (Z.max 1 (Z.min hashes 64)).

(** The loop bodies: of [insert], of the second pass of [remove], of
    [merge]. *)
Definition bump (ws : list Z) (cell : Z) : list Z :=
  let v := cell_get ws cell in if v <? CELL_MAX then cell_set ws cell (v + 1) else ws.
Definition unbump (ws : list Z) (cell : Z) : list Z :=
  let v := cell_get ws cell in if v <? CELL_MAX then cell_set ws cell (u64 (v - 1)) else ws.
Definition merge_cell (other : list Z) (ws : list Z) (cell : Z) : list Z :=
  put ws cell (Z.min (cell_get ws cell + cell_get other cell) CELL_MAX).

Section ops.
Context {Item : Type}.
Variable hash_one : Item -> Z.

Definition cell_index (item : Item) (s : t) : list Z := probes hash_one (cells s) (hashes s) item.

(** The flag of [insert]: some cell was zero when the loop reached it. *)
Definition insert_cell (acc : list Z * bool) (cell : Z) : list Z * bool :=
  (bump acc.1 cell, (cell_get acc.1 cell =? 0) || acc.2).
Definition insert (item : Item) (s : t) : t * bool :=
  let '(ws, newly) := foldl insert_cell (words s, false) (cell_index item s) in
  (s <| words := ws |>, newly).
Definition contains (item : Item) (s : t) : bool :=
  forallb (fun cell => negb (cell_get (words s) cell =? 0)) (cell_index item s).
Definition remove (item : Item) (s : t) : t * bool :=
  if existsb (fun cell => cell_get (words s) cell =? 0) (cell_index item s) then (s, false)
  else (s <| words := foldl unbump (words s) (cell_index item s) |>, true).
Definition clear (s : t) : t := s <| words ::= fmap (fun _ => 0) |>.
Definition is_empty (s : t) : bool := forallb (Z.eqb 0) (words s).

#[global] Instance mergeable : Mergeable t := fun s other =>
  if (cells s =? cells other) && (hashes s =? hashes other)
  then Some (s <| words := foldl (merge_cell (words other)) (words s) (seqZ 0 (cells s)) |>)
  else None.

(** [holds n k s log]: [s] was built by insertions, removals of items then
    present, and merges; [log] is what is still outstanding. *)
Inductive holds (n k : Z) : t -> list Item -> Prop :=
  | holds_new : holds n k (with_sizes n k) []
  | holds_insert s log item : holds n k s log -> holds n k (insert item s).1 (item :: log)
  | holds_remove s log log' item : holds n k s log -> log ≡ₚ item :: log' ->
      holds n k (remove item s).1 log'
  | holds_merge s1 log1 s2 log2 s : holds n k s1 log1 -> holds n k s2 log2 ->
      merge s1 s2 = Some s -> holds n k s (log1 ++ log2).

(** How many probes of the outstanding items fall on a cell. *)
Definition hits (cell : Z) (cs : list Z) : Z := Z.of_nat (length (filter (eq cell) cs)).
Definition load (n k cell : Z) (log : list Item) : Z :=
  foldr (fun item a => hits cell (probes hash_one n k item) + a) 0 log.

Lemma hits_cons cell c cs : hits cell (c :: cs) = (if cell =? c then 1 else 0) + hits cell cs.
Proof.
  unfold hits. rewrite filter_cons. destruct (decide (cell = c)) as [->|Hne].
  - rewrite Z.eqb_refl. cbn [length]. lia.
  - destruct (Z.eqb_spec cell c); [done|]. lia.
Qed.
Lemma hits_nonneg cell cs : 0 <= hits cell cs.
Proof. unfold hits. lia. Qed.
Lemma hits_elem cell cs : cell ∈ cs -> 1 <= hits cell cs.
Proof.
  induction cs as [|c cs IH]; [by intros ?%not_elem_of_nil|]. rewrite hits_cons.
  pose proof (hits_nonneg cell cs). intros [->|H']%elem_of_cons; [rewrite Z.eqb_refl; lia|].
  specialize (IH H'). case_if; lia.
Qed.
Lemma load_cons n k cell i log :
  load n k cell (i :: log) = hits cell (probes hash_one n k i) + load n k cell log.
Proof. done. Qed.
Lemma load_nonneg n k cell log : 0 <= load n k cell log.
Proof. induction log as [|i log IH]; [done|]. rewrite load_cons. pose proof (hits_nonneg cell (probes hash_one n k i)). lia. Qed.
Lemma load_app n k cell l1 l2 : load n k cell (l1 ++ l2) = load n k cell l1 + load n k cell l2.
Proof. unfold load. induction l1 as [|i l IH]; cbn; [done|]. lia. Qed.
#[local] Instance load_perm n k cell : Proper ((≡ₚ) ==> eq) (load n k cell).
Proof. induction 1; rewrite ?load_cons; lia. Qed.
Lemma load_elem n k cell item log : item ∈ log -> cell ∈ probes hash_one n k item -> 1 <= load n k cell log.
Proof.
  intros Hi Hc. apply hits_elem in Hc.
  apply elem_of_Permutation in Hi as [log' ->]. rewrite load_cons. pose proof (load_nonneg n k cell log'). lia.
Qed.

(** Closed forms of the loops. *)
Lemma bump_get ws cell c : room ws cell -> 0 <= c ->
  cell_get (bump ws cell) c = if c =? cell then Z.min 15 (cell_get ws c + 1) else cell_get ws c.
Proof.
  intros Hr Hc. unfold bump. pose proof (cell_get_range ws cell) as Hg.
  destruct (Z.ltb_spec (cell_get ws cell) CELL_MAX) as [Hlt|Hge]; unfold CELL_MAX in *.
  - unfold cell_set. rewrite land_small, get_put by (done || lia).
    destruct (Z.eqb_spec c cell) as [->|]; lia.
  - destruct (Z.eqb_spec c cell) as [->|]; lia.
Qed.
Lemma unbump_get ws cell c : room ws cell -> 0 <= c -> cell_get ws cell <> 0 ->
  cell_get (unbump ws cell) c =
    if (c =? cell) && (cell_get ws c <? 15) then cell_get ws c - 1 else cell_get ws c.
Proof.
  intros Hr Hc Hz. unfold unbump. pose proof (cell_get_range ws cell) as Hg.
  destruct (Z.ltb_spec (cell_get ws cell) CELL_MAX) as [Hlt|Hge]; unfold CELL_MAX in *.
  - unfold cell_set, u64. rewrite Z.mod_small, land_small, get_put by (done || lia).
    destruct (Z.eqb_spec c cell) as [->|]; [|done].
    destruct (Z.ltb_spec (cell_get ws cell) 15); [done|lia].
  - destruct (Z.eqb_spec c cell) as [->|]; [|done].
    destruct (Z.ltb_spec (cell_get ws cell) 15); [lia|done].
Qed.
Lemma bump_room ws cell c : room ws c -> room (bump ws cell) c.
Proof. unfold bump. case_match; [apply room_put|done]. Qed.
Lemma unbump_room ws cell c : room ws c -> room (unbump ws cell) c.
Proof. unfold unbump. case_match; [apply room_put|done]. Qed.

Lemma bumps_get cs : forall ws, Forall (room ws) cs ->
  length (foldl bump ws cs) = length ws /\
  forall c, 0 <= c -> cell_get (foldl bump ws cs) c = Z.min 15 (cell_get ws c + hits c cs).
Proof.
  induction cs as [|c0 cs IH]; intros ws Hr; cbn [foldl].
  { split; [done|]. intros c Hc. pose proof (cell_get_range ws c). change (hits c []) with 0. lia. }
  apply Forall_cons in Hr as [Hr0 Hr]. destruct (IH (bump ws c0)) as [Hl Hg].
  { eapply Forall_impl; [exact Hr|]. intros c. apply bump_room. }
  split.
  - rewrite Hl. unfold bump. case_match; [apply put_length|done].
  - intros c Hc. rewrite Hg, bump_get, hits_cons by done. pose proof (hits_nonneg c cs).
    pose proof (cell_get_range ws c). destruct (c =? c0); lia.
Qed.

Lemma unbumps_get cs : forall ws, Forall (room ws) cs ->
  (forall c, 0 <= c -> cell_get ws c = 15 \/ hits c cs <= cell_get ws c) ->
  length (foldl unbump ws cs) = length ws /\
  forall c, 0 <= c -> cell_get (foldl unbump ws cs) c =
    if cell_get ws c =? 15 then 15 else cell_get ws c - hits c cs.
Proof.
  induction cs as [|c0 cs IH]; intros ws Hr Hge; cbn [foldl].
  { split; [done|]. intros c Hc. change (hits c []) with 0. destruct (Z.eqb_spec (cell_get ws c) 15); lia. }
  apply Forall_cons in Hr as [Hr0 Hr].
  assert (cell_get ws c0 <> 0) as Hnz.
  { destruct (Hge c0 ltac:(by destruct Hr0)) as [H|H]; [lia|]. rewrite hits_cons, Z.eqb_refl in H.
    pose proof (hits_nonneg c0 cs). lia. }
  destruct (IH (unbump ws c0)) as [Hl Hg].
  { eapply Forall_impl; [exact Hr|]. intros c. apply unbump_room. }
  { intros c Hc. rewrite unbump_get by done. destruct (Hge c Hc) as [H|H]; rewrite ?hits_cons in H.
    - rewrite H. cbn. rewrite andb_false_r. by left.
    - revert H. destruct (Z.eqb_spec c c0) as [->|]; cbn [andb]; intros H; [|right; lia].
      destruct (Z.ltb_spec (cell_get ws c0) 15); [right; lia|].
      pose proof (cell_get_range ws c0). left; lia. }
  split.
  - rewrite Hl. unfold unbump. case_match; [apply put_length|done].
  - intros c Hc. rewrite Hg, unbump_get, hits_cons by done. pose proof (cell_get_range ws c).
    destruct (Z.eqb_spec c c0) as [->|Hne]; cbn [andb].
    + destruct (Z.ltb_spec (cell_get ws c0) 15).
      * destruct (Z.eqb_spec (cell_get ws c0) 15); [lia|].
        destruct (Z.eqb_spec (cell_get ws c0 - 1) 15); lia.
      * destruct (Z.eqb_spec (cell_get ws c0) 15); lia.
    + destruct (Z.eqb_spec (cell_get ws c) 15); lia.
Qed.

(** ** What the cells hold *)
Definition tracks (n k : Z) (s : t) (log : list Item) : Prop :=
  cells s = Z.max n 64 /\ hashes s = Z.max 1 (Z.min k 64) /\
  length (words s) = Z.to_nat ((cells s + CELLS_PER_WORD - 1) / CELLS_PER_WORD) /\
  forall c, 0 <= c < cells s ->
    cell_get (words s) c = 15 \/ cell_get (words s) c = load (cells s) (hashes s) c log.

Lemma in_room ws n c : length ws = Z.to_nat ((n + CELLS_PER_WORD - 1) / CELLS_PER_WORD) ->
  0 <= c < n -> room ws c.
Proof.
  intros Hl Hc. split; [lia|]. rewrite Hl. unfold CELLS_PER_WORD.
  apply Z2Nat.inj_lt; Z.to_euclidean_division_equations; lia.
Qed.
Lemma probes_room ws n k item : 0 < n ->
  length ws = Z.to_nat ((n + CELLS_PER_WORD - 1) / CELLS_PER_WORD) -> Forall (room ws) (probes hash_one n k item).
Proof.
  intros Hn Hl. eapply Forall_impl; [by apply probes_range|]. intros c Hc. by eapply in_room.
Qed.
Lemma hits_outside cell n k item : 0 < n -> ~ 0 <= cell < n -> hits cell (probes hash_one n k item) = 0.
Proof.
  intros Hn Hc. unfold hits. destruct (filter _ _) as [|x l] eqn:E; [done|].
  assert (x ∈ filter (eq cell) (probes hash_one n k item)) as [-> Hx]%list_elem_of_filter
    by (rewrite E; left).
  pose proof (probes_range hash_one n k item Hn) as H. rewrite Forall_forall in H. by apply H in Hx.
Qed.

Lemma insert_fst item s : (insert item s).1 = s <| words := foldl bump (words s) (cell_index item s) |>.
Proof.
  unfold insert. generalize (cell_index item s), (words s), false.
  induction l as [|c cs IH]; intros ws b; cbn [foldl]; [done|]. apply IH.
Qed.

Lemma tracks_insert n k s log item : tracks n k s log -> tracks n k (insert item s).1 (item :: log).
Proof.
  intros (Hn & Hk & Hl & Hg). rewrite insert_fst.
  destruct (bumps_get (cell_index item s) (words s)) as [Hl' Hg']; [apply probes_room; [lia|done]|].
  unfold tracks. unfold_upd. cbn [words cells hashes]. split_and!; [done|done|congruence|].
  intros c Hc. rewrite Hg', load_cons by lia. fold (cell_index item s).
  pose proof (hits_nonneg c (cell_index item s)). pose proof (load_nonneg (cells s) (hashes s) c log).
  destruct (Hg c Hc) as [->| ->]; lia.
Qed.

Lemma tracks_present n k s log item : tracks n k s log -> item ∈ log ->
  Forall (fun c => cell_get (words s) c <> 0) (cell_index item s).
Proof.
  intros (Hn & Hk & Hl & Hg) Hi. apply Forall_forall. intros c Hc.
  pose proof (probes_range hash_one (cells s) (hashes s) item ltac:(lia)) as Hr.
  rewrite Forall_forall in Hr. destruct (Hg c (Hr c Hc)) as [->| ->]; [done|].
  pose proof (load_elem (cells s) (hashes s) c item log Hi Hc). lia.
Qed.

Lemma present_remove s item : Forall (fun c => cell_get (words s) c <> 0) (cell_index item s) ->
  contains item s = true /\
  remove item s = (s <| words := foldl unbump (words s) (cell_index item s) |>, true).
Proof.
  intros H. unfold contains, remove. induction H as [|c cs Hc Hcs [IH1 IH2]] in |- *; [done|]. cbn.
  apply Z.eqb_neq in Hc. rewrite Hc. cbn. split; [done|].
  destruct (existsb _ cs); [|done]. discriminate IH2.
Qed.

Lemma tracks_remove n k s log log' item : tracks n k s log -> log ≡ₚ item :: log' ->
  tracks n k (remove item s).1 log'.
Proof.
  intros Ht Hp. assert (item ∈ log) as Hi by (rewrite Hp; left).
  destruct (present_remove s item (tracks_present _ _ _ _ _ Ht Hi)) as [_ ->]. cbn [fst].
  destruct Ht as (Hn & Hk & Hl & Hg).
  assert (forall c, 0 <= c < cells s -> load (cells s) (hashes s) c log =
    hits c (cell_index item s) + load (cells s) (hashes s) c log') as Hload.
  { intros c _. by rewrite Hp. }
  destruct (unbumps_get (cell_index item s) (words s)) as [Hl' Hg']; [apply probes_room; [lia|done]| |].
  { intros c Hc. destruct (decide (c < cells s)) as [Hlt|Hge].
    - destruct (Hg c ltac:(lia)) as [?|E]; [by left|right]. rewrite E, Hload by lia.
      pose proof (load_nonneg (cells s) (hashes s) c log'). lia.
    - right. unfold cell_index. rewrite hits_outside by lia. apply cell_get_range. }
  unfold tracks. unfold_upd. cbn [words cells hashes]. split_and!; [done|done|congruence|].
  intros c Hc. rewrite Hg' by lia. destruct (Z.eqb_spec (cell_get (words s) c) 15); [by left|right].
  destruct (Hg c Hc) as [?|E]; [done|]. rewrite E, Hload by lia. lia.
Qed.

Lemma merge_cells_get other cs : NoDup cs -> forall ws, Forall (room ws) cs ->
  length (foldl (merge_cell other) ws cs) = length ws /\
  forall c, 0 <= c -> cell_get (foldl (merge_cell other) ws cs) c =
    if bool_decide (c ∈ cs) then Z.min (cell_get ws c + cell_get other c) 15 else cell_get ws c.
Proof.
  induction 1 as [|c0 cs Hc0 Hn IH]; intros ws Hr; cbn [foldl]; [done|].
  apply Forall_cons in Hr as [Hr0 Hr].
  destruct (IH (merge_cell other ws c0)) as [Hl Hg].
  { eapply Forall_impl; [exact Hr|]. intros c. apply room_put. }
  split; [rewrite Hl; apply put_length|]. intros c Hc. rewrite Hg by done.
  pose proof (cell_get_range ws c0). pose proof (cell_get_range other c0).
  unfold merge_cell, CELL_MAX. rewrite get_put by (done || lia).
  destruct (Z.eqb_spec c c0) as [->|Hne].
  - rewrite (bool_decide_eq_false_2 (c0 ∈ cs)) by done.
    by rewrite (bool_decide_eq_true_2 (c0 ∈ c0 :: cs)) by apply list_elem_of_here.
  - rewrite (bool_decide_ext (c ∈ c0 :: cs) (c ∈ cs)); [done|]. rewrite elem_of_cons. tauto.
Qed.

Lemma tracks_merge n k s1 l1 s2 l2 s : tracks n k s1 l1 -> tracks n k s2 l2 ->
  merge s1 s2 = Some s -> tracks n k s (l1 ++ l2).
Proof.
  intros (Hn1 & Hk1 & Hl1 & Hg1) (Hn2 & Hk2 & Hl2 & Hg2). unfold merge, mergeable. case_if; [|done].
  intros [= <-]. destruct (merge_cells_get (words s2) (seqZ 0 (cells s1)) (NoDup_seqZ _ _) (words s1)) as [Hl Hg].
  { apply Forall_forall. intros c Hc%elem_of_seqZ. eapply in_room; [done|lia]. }
  unfold tracks. unfold_upd. cbn [words cells hashes]. split_and!; [done|done|congruence|].
  intros c Hc. rewrite Hg, load_app by lia. rewrite bool_decide_eq_true_2 by (apply elem_of_seqZ; lia).
  pose proof (load_nonneg (cells s1) (hashes s1) c l1). pose proof (load_nonneg (cells s1) (hashes s1) c l2).
  pose proof (cell_get_range (words s1) c). pose proof (cell_get_range (words s2) c).
  specialize (Hg1 c Hc). specialize (Hg2 c ltac:(lia)).
  replace (cells s2) with (cells s1) in Hg2 by lia. replace (hashes s2) with (hashes s1) in Hg2 by lia. lia.
Qed.

Lemma holds_tracks n k s log : holds n k s log -> tracks n k s log.
Proof.
  induction 1 as [|s log item H IH|s log log' item H IH Hp|s1 l1 s2 l2 s H1 IH1 H2 IH2 Hm].
  - unfold tracks, with_sizes. cbn [words cells hashes]. split_and!; [done|done|apply length_replicate|].
    intros c Hc. right. unfold cell_get, word_of.
    destruct (replicate _ 0 !! _) as [w|] eqn:E; cbn [default from_option id];
      [apply lookup_replicate in E as [-> _]|]; by rewrite Z.shiftr_0_l.
  - by apply tracks_insert.
  - by eapply tracks_remove.
  - by eapply tracks_merge.
Qed.
End ops.

(** Deletions create no false negatives, as long as only items that
    are present are removed.  Over any history of insertions, merges of
    shards and such removals, every outstanding item is reported present
    and can itself be removed; and each cell holds exactly the number of
    probes of outstanding items that fall on it, or is stuck at 15.  The
    hash function is arbitrary. *)
Theorem counting_bloom_no_false_negative {Item} (hash_one : Item -> Z) n k s log :
  holds hash_one n k s log ->
  (forall item, item ∈ log ->
     contains hash_one item s = true /\ (remove hash_one item s).2 = true) /\
  (forall c, 0 <= c < cells s ->
     cell_get (words s) c = 15 \/ cell_get (words s) c = load hash_one (cells s) (hashes s) c log).
Proof.
  intros H. pose proof (holds_tracks hash_one n k s log H) as Ht. split.
  - intros item Hi. destruct (present_remove hash_one s item (tracks_present hash_one _ _ _ _ _ Ht Hi)) as [Hc Hr].
    split; [exact Hc|]. by rewrite Hr.
  - by destruct Ht as (_ & _ & _ & Hg).
Qed.
Lemma counting_bloom_no_false_negative_witness :
  let h := fun x : Z => x * 4294967297 in
  let s := (insert h 9 (insert h 7 (with_sizes 64 3)).1).1 in
  contains h 7 (remove h 9 s).1 = true /\ contains h 9 (remove h 9 s).1 = false.
Proof.
  intros h s. split; [|vm_compute; reflexivity].
  assert (holds h 64 3 (remove h 9 s).1 [7]) as H.
  { eapply holds_remove; [|reflexivity]. apply holds_insert, holds_insert, holds_new. }
  refine (proj1 (proj1 (counting_bloom_no_false_negative h 64 3 _ [7] H) 7 _)). left.
Defined.

(** Removing an item that was never inserted is not always the no-op
    the documentation promises.  With three items whose hashes are all
    different but whose probes overlap, removing the absent one succeeds
    and makes an inserted item vanish; and when two probes of the absent
    item fall on one cell, that cell is decremented below zero. *)
Theorem counting_bloom_removes_the_absent :
  let h := fun x : Z => x in
  let A := 1 in let B := 2 * 2 ^ 32 + 1 in let C := 1 * 2 ^ 32 + 1 in let D := 65 in
  let s := (insert h B (insert h A (with_sizes 65 2)).1).1 in
  (contains h A s = true /\ (remove h C s).2 = true /\ contains h A (remove h C s).1 = false) /\
  (cell_get (words s) 0 = 1 /\ (remove h D s).2 = true /\ cell_get (words (remove h D s).1) 0 = 15).
Proof. vm_compute. repeat split; reflexivity. Qed.
End CountingBloomFilter.

(** * HyperLogLog (src/src/correlate/hyperloglog.rs)

    Items enter as 64-bit hashes ([add_hash]; [add] hashes first).  The
    estimator [count] takes a logarithm of a float and is not modelled. *)


Module HyperLogLog.
Record t := mk { precision : Z; registers : list Z }.
#[global] Instance eta : Eta t := mk_eta (fun s => mk (precision s) (registers s)).

(** [Err] is [InvalidPrecision]. *)
Definition with_hasher (precision : Z) : result unit t :=
  if negb ((4 <=? precision) && (precision <=? 18)) then Err tt
  else Ok (mk precision (replicate (Z.to_nat (Z.shiftl 1 precision)) 0)).

(** [u64::leading_zeros] of a non-zero word. *)
Definition leading_zeros (w : Z) : Z := 63 - Z.log2 w.
(** The register of a hash, and the value it offers. *)
Definition index_of (p h : Z) : Z := Z.shiftr h (64 - p).
Definition rank_of (p h : Z) : Z :=
  let w := u64 (Z.shiftl h p) in
  u8 (if w =? 0 then 64 - p + 1 else leading_zeros w + 1).

Definition add_hash (h : Z) (s : t) : t :=
  s <| registers ::= alter (fun r => if r <? rank_of (precision s) h then rank_of (precision s) h else r)
         (Z.to_nat (index_of (precision s) h)) |>.
Definition add {Item} (hash_one : Item -> Z) (item : Item) (s : t) : t := add_hash (hash_one item) s.
Definition register_count (s : t) : Z := zlen (registers s).
Definition clear (s : t) : t := s <| registers ::= fmap (fun _ => 0) |>.
Definition is_empty (s : t) : bool := forallb (Z.eqb 0) (registers s).

Definition merged (s other : t) : option t :=
  if precision s =? precision other
  then Some (s <| registers ::= fun rs => zip_update (fun a b => if a <? b then b else a) rs (registers other) |>)
  else None.
#[global] Instance mergeable : Mergeable t := merged.

Inductive summarises (p : Z) : t -> list Z -> Prop :=
  | sum_new s : with_hasher p = Ok s -> summarises p s []
  | sum_add s log h : summarises p s log -> 0 <= h <= U64_MAX -> summarises p (add_hash h s) (h :: log)
  | sum_merge s1 log1 s2 log2 s : summarises p s1 log1 -> summarises p s2 log2 ->
      merge s1 s2 = Some s -> summarises p s (log1 ++ log2).

(** The largest rank among the hashes of a register. *)
Definition best (p idx : Z) (log : list Z) : Z :=
  foldr (fun h m => if index_of p h =? idx then Z.max (rank_of p h) m else m) 0 log.

Lemma best_cons p idx h log :
  best p idx (h :: log) = if index_of p h =? idx then Z.max (rank_of p h) (best p idx log) else best p idx log.
Proof. done. Qed.
Lemma best_nonneg p idx log : 0 <= best p idx log.
Proof. induction log as [|h log IH]; [done|]. rewrite best_cons. case_if; lia. Qed.
Lemma best_app p idx l1 l2 : best p idx (l1 ++ l2) = Z.max (best p idx l1) (best p idx l2).
Proof.
  induction l1 as [|h l1 IH]; cbn [app].
  - change (best p idx []) with 0. pose proof (best_nonneg p idx l2). lia.
  - rewrite !best_cons. case_if; lia.
Qed.
Lemma best_ge p idx log : (forall h, h ∈ log -> index_of p h = idx -> rank_of p h <= best p idx log).
Proof.
  induction log as [|h log IH]; [by intros ? ?%not_elem_of_nil|].
  intros h' [->|H]%elem_of_cons E; rewrite best_cons; [rewrite (proj2 (Z.eqb_eq _ _) E); lia|].
  specialize (IH h' H E). case_if; lia.
Qed.
Lemma best_le p idx log m : 0 <= m -> (forall h, h ∈ log -> index_of p h = idx -> rank_of p h <= m) ->
  best p idx log <= m.
Proof.
  intros Hm. induction log as [|h log IH]; intros H; [done|]. rewrite best_cons.
  assert (best p idx log <= m) by (apply IH; intros; apply H; [by right|done]).
  destruct (Z.eqb_spec (index_of p h) idx) as [E|]; [|done].
  specialize (H h ltac:(left) E). lia.
Qed.
(** The ranks of a register depend on the set of hashes only. *)
Lemma best_set p idx l1 l2 : (forall h, h ∈ l1 <-> h ∈ l2) -> best p idx l1 = best p idx l2.
Proof.
  intros H. apply Z.le_antisymm; (apply best_le; [apply best_nonneg|]); intros h Hh E;
    (apply best_ge; [by apply H|done]).
Qed.

Definition reflects (p : Z) (s : t) (log : list Z) : Prop :=
  4 <= p <= 18 /\ precision s = p /\ length (registers s) = Z.to_nat (2 ^ p) /\
  forall i, 0 <= i < 2 ^ p -> registers s !! Z.to_nat i = Some (best p i log).

Lemma index_range p h : 4 <= p <= 18 -> 0 <= h <= U64_MAX -> 0 <= index_of p h < 2 ^ p.
Proof.
  intros Hp Hh. unfold index_of. rewrite Z.shiftr_div_pow2 by lia.
  assert (2 ^ 64 = 2 ^ (64 - p) * 2 ^ p) as E by (rewrite <- Z.pow_add_r by lia; f_equal; lia).
  assert (0 < 2 ^ (64 - p)) by (apply Z.pow_pos_nonneg; lia).
  split; [apply Z.div_pos; lia|]. apply Z.div_lt_upper_bound; [done|]. unfold U64_MAX in *. lia.
Qed.

Lemma hll_reflects p s log : summarises p s log -> reflects p s log.
Proof.
  induction 1 as [s Hs|s log h H (Hp & Hq & Hl & Hg) Hh
    |s1 l1 s2 l2 s H1 (Hp & Hq1 & Hl1 & Hg1) H2 (_ & Hq2 & Hl2 & Hg2) Hm].
  - revert Hs. unfold with_hasher. case_if; [done|]. intros [= <-]. unfold reflects. cbn.
    rewrite Z.shiftl_mul_pow2, Z.mul_1_l by lia.
    split_and!; [lia|lia|done|apply length_replicate|].
    intros i Hi. apply lookup_replicate_2. lia.
  - pose proof (index_range p h Hp Hh) as Hi. unfold reflects, add_hash. unfold_upd.
    cbn [precision registers]. rewrite Hq. split_and!; [lia|lia|done|by rewrite length_alter|].
    intros i Hir. destruct (decide (i = index_of p h)) as [->|Hne].
    + rewrite list_lookup_alter_eq, Hg, best_cons, Z.eqb_refl by done. cbn. f_equal. case_if; lia.
    + rewrite list_lookup_alter_ne, Hg, best_cons by (done || lia). f_equal.
      destruct (Z.eqb_spec (index_of p h) i); [congruence|done].
  - revert Hm. unfold merge, mergeable, merged. case_if; [|done]. intros [= <-]. unfold reflects. unfold_upd. cbn.
    split_and!; [lia|lia|congruence|by rewrite zip_update_length|]. intros i Hi.
    rewrite (zip_update_lookup _ _ _ _ _ _ (Hg1 i Hi) (Hg2 i Hi)), best_app. f_equal. case_if; lia.
Qed.

Lemma reflects_unique p s1 l1 s2 l2 : reflects p s1 l1 -> reflects p s2 l2 ->
  (forall h, h ∈ l1 <-> h ∈ l2) -> s1 = s2.
Proof.
  intros (Hp & Hq1 & Hl1 & Hg1) (_ & Hq2 & Hl2 & Hg2) Hset.
  destruct s1 as [q1 r1], s2 as [q2 r2]. cbn in *. subst q1 q2. f_equal. apply list_eq. intros i.
  destruct (decide (i < Z.to_nat (2 ^ p))%nat) as [Hi|Hi].
  - specialize (Hg1 (Z.of_nat i) ltac:(lia)). specialize (Hg2 (Z.of_nat i) ltac:(lia)).
    rewrite Nat2Z.id in Hg1, Hg2. rewrite Hg1, Hg2. f_equal. by apply best_set.
  - rewrite !lookup_ge_None_2 by lia. done.
Qed.

(** The registers after a stream of hashes. *)
Definition registers_of (s0 : t) (log : list Z) : t := foldr add_hash s0 log.
Definition hash_ok (h : Z) : Prop := 0 <= h <= U64_MAX.
Lemma registers_summarise p s0 log : with_hasher p = Ok s0 -> Forall hash_ok log -> summarises p (registers_of s0 log) log.
Proof. intros E F. induction F; by constructor. Qed.
Lemma registers_merge p s0 l k : with_hasher p = Ok s0 -> Forall hash_ok l -> Forall hash_ok k ->
  merge (registers_of s0 l) (registers_of s0 k) = Some (registers_of s0 (l ++ k)).
Proof.
  intros E Fl Fk. pose proof (registers_summarise p s0 l E Fl) as Sl. pose proof (registers_summarise p s0 k E Fk) as Sk.
  assert (exists s, merge (registers_of s0 l) (registers_of s0 k) = Some s) as [s Es].
  { unfold merge, mergeable, merged. apply hll_reflects in Sl as (_ & -> & _), Sk as (_ & -> & _). rewrite Z.eqb_refl. by eexists. }
  rewrite Es. f_equal. apply (reflects_unique p _ (l ++ k) _ (l ++ k)); [|by apply hll_reflects, registers_summarise, Forall_app|done].
  apply hll_reflects. by eapply sum_merge.
Qed.
Lemma registers_set p s0 l k : with_hasher p = Ok s0 -> Forall hash_ok l -> Forall hash_ok k ->
  (forall h, h ∈ l <-> h ∈ k) -> registers_of s0 l = registers_of s0 k.
Proof. intros E Fl Fk. by apply (reflects_unique p); apply hll_reflects, registers_summarise. Qed.

(** ** The shared contract *)
Lemma later_max a b : (if a <? b then b else a) = Z.max a b.
Proof. case_if; lia. Qed.
Definition shaped (s : t) : Prop := length (registers s) = Z.to_nat (2 ^ precision s).
Definition same_precision (a b : t) : Prop := precision a = precision b.
#[global] Instance laws : MergeableLaws t shaped same_precision.
Proof.
  split.
  - split; unfold same_precision; [done|intros ?? ?; done|intros ??? ??; congruence].
  - intros a b Ha Hb E. unfold merge, mergeable, merged, same_precision in *. rewrite E, Z.eqb_refl. eexists.
    split; [done|]. split; [|done]. unfold shaped. unfold_upd. cbn. by rewrite zip_update_length.
  - intros a b Ha Hb E. unfold merge, mergeable, merged, shaped, same_precision in *. rewrite E, Z.eqb_refl.
    destruct a, b. cbn in *. subst. unfold_upd. cbn. do 2 f_equal.
    apply zip_update_comm; [intros; cbv beta; rewrite !later_max; lia|congruence].
  - intros a b c Ha Hb Hc E1 E2. unfold merge, mergeable, merged, shaped, same_precision in *.
    rewrite E1, E2, !Z.eqb_refl. unfold_upd. cbn. rewrite E1, E2, !Z.eqb_refl.
    destruct a, b, c. cbn in *. subst. do 2 f_equal.
    apply zip_update_assoc; [intros; cbv beta; rewrite !later_max; lia|congruence|congruence].
Qed.

(** A HyperLogLog is determined by the set of hashes it saw: order,
    repetition and the way they were spread over shards and merged leave
    no trace, so [count] is a function of the set.  Each register holds the
    largest rank offered to it. *)
Theorem hyperloglog_set_sketch p s1 log1 s2 log2 :
  summarises p s1 log1 -> summarises p s2 log2 ->
  (forall i, 0 <= i < register_count s1 -> registers s1 !! Z.to_nat i = Some (best p i log1)) /\
  ((forall h, h ∈ log1 <-> h ∈ log2) -> s1 = s2).
Proof.
  intros H1%hll_reflects H2%hll_reflects. split; [|by apply (reflects_unique p)].
  destruct H1 as (Hp & _ & Hl & Hg). intros i Hi. apply Hg. unfold register_count, zlen in Hi. lia.
Qed.
Lemma hyperloglog_set_sketch_witness :
  let new := mk 4 (replicate 16 0) in
  let a := add_hash (2 ^ 63) (add_hash 5 new) in
  let b := add_hash 5 (add_hash (2 ^ 63) (add_hash 5 new)) in
  a = b /\ registers a !! 8%nat = Some 61.
Proof.
  intros new a b.
  assert (summarises 4 a [2 ^ 63; 5]) as Ha.
  { repeat apply sum_add; try (vm_compute; split; discriminate). by apply sum_new. }
  assert (summarises 4 b [5; 2 ^ 63; 5]) as Hb.
  { repeat apply sum_add; try (vm_compute; split; discriminate). by apply sum_new. }
  split; [|vm_compute; reflexivity].
  apply (hyperloglog_set_sketch 4 a _ b _ Ha Hb). intros h. rewrite !elem_of_cons. tauto.
Defined.
End HyperLogLog.

(** * Bounded top-k counter (src/src/correlate/topk.rs)

    The [HashMap] is a finite map; [top] takes the map's iteration order,
    which Rust leaves open, as an argument.  Counts are exact integers
    (the code's [u64] additions are unchecked below 2^64). *)


Module TopK.
Section ops.
Context {K : Type} `{Countable K}.

Record t := mk { k : Z; counts : gmap K Z }.
#[global] Instance eta : Eta t := mk_eta (fun s => mk (k s) (counts s)).

(** [new] asserts [k > 0]. *)
Definition new (k : Z) : option t := if 0 <? k then Some (mk k ∅) else None.
Definition len (s : t) : Z := Z.of_nat (size (counts s)).

(** Every counter gives up [count]; those that reach zero are evicted. *)
Definition decrement_all (count : Z) (m : gmap K Z) : gmap K Z :=
  omap (fun c => if c <=? count then None else Some (c - count)) m.

Definition observe_n (key : K) (count : Z) (s : t) : t :=
  if count =? 0 then s else
  match counts s !! key with
  | Some c => s <| counts ::= <[key := c + count]> |>
  | None =>
      if len s <? k s then s <| counts ::= <[key := count]> |>
      else
        let s := s <| counts ::= decrement_all count |> in
        if len s <? k s then s <| counts ::= <[key := count]> |> else s
  end.
Definition observe (key : K) (s : t) : t := observe_n key 1 s.
Definition estimate (key : K) (s : t) : Z := default 0 (counts s !! key).
Definition clear (s : t) : t := s <| counts := ∅ |>.
Definition is_empty (s : t) : bool := bool_decide (counts s = ∅).

(** Stable insertion, largest count first. *)
Fixpoint place (e : K * Z) (l : list (K * Z)) : list (K * Z) :=
  match l with
  | [] => [e]
  | e' :: l => if e'.2 <? e.2 then e :: e' :: l else e' :: place e l
  end.
Definition sort_desc (l : list (K * Z)) : list (K * Z) := foldl (fun acc e => place e acc) [] l.
Definition top (order : list K) (s : t) : list (K * Z) :=
  sort_desc (omap (fun key => pair key <$> counts s !! key) order).

Definition sum_counts (a b : gmap K Z) : gmap K Z := union_with (fun x y => Some (x + y)) a b.
#[global] Instance mergeable : Mergeable t := fun s other =>
  if negb (k s =? k other) then None else
  let s := s <| counts ::= fun m => sum_counts m (counts other) |> in
  if len s <=? k s then Some s else
  let pivot := default 0 ((sort_desc (map_to_list (counts s))).*2 !! Z.to_nat (k s)) in
  Some (s <| counts ::= omap (fun c => if c <=? pivot then None else Some (sat_sub c pivot)) |>).

(** ** Accuracy on a stream of single observations *)
Definition observed (k0 : Z) (l : list K) : t := foldl (fun s x => observe x s) (mk k0 ∅) l.
Definition occurrences (key : K) (l : list K) : Z := Z.of_nat (length (filter (eq key) l)).
(** The sum of the retained counts. *)
Definition mass (m : gmap K Z) : Z := map_fold (fun _ c a => c + a) 0 m.

Lemma mass_insert m key c : m !! key = None -> mass (<[key := c]> m) = c + mass m.
Proof. intros. unfold mass. rewrite map_fold_insert_L; [done|lia|done]. Qed.
Lemma mass_update m key c c' : m !! key = Some c -> mass (<[key := c']> m) = c' - c + mass m.
Proof.
  intros Hk. rewrite <- (insert_delete_id m key c) at 2 by done. rewrite <- insert_delete_eq.
  rewrite !mass_insert by apply lookup_delete_eq. lia.
Qed.
Definition positive (m : gmap K Z) : Prop := map_Forall (fun _ c => 1 <= c) m.

Lemma decrement_lookup n m key :
  decrement_all n m !! key = m !! key ≫= (fun c => if c <=? n then None else Some (c - n)).
Proof. apply lookup_omap. Qed.
Lemma decrement_positive m : positive (decrement_all 1 m).
Proof.
  intros key c. rewrite decrement_lookup. destruct (m !! key) as [c0|]; cbn; [|done].
  case_if; [done|]. intros [= <-]. lia.
Qed.
Lemma mass_decrement m : positive m ->
  mass (decrement_all 1 m) = mass m - Z.of_nat (size m) /\ (size (decrement_all 1 m) <= size m)%nat.
Proof.
  unfold positive. induction m as [|key c m Hk IH] using map_ind; [done|].
  intros [Hc Hm]%map_Forall_insert; [|done]. destruct (IH Hm) as [E1 E2].
  rewrite mass_insert, map_size_insert_None by done. unfold decrement_all in *.
  destruct (c <=? 1) eqn:Ec.
  - rewrite omap_insert_None by (by rewrite Ec).
    rewrite delete_id by (by rewrite lookup_omap, Hk). zb. lia.
  - rewrite (omap_insert_Some _ _ _ _ (c - 1)) by (by rewrite Ec).
    rewrite mass_insert, map_size_insert_None by (by rewrite lookup_omap, Hk). lia.
Qed.

Lemma occurrences_snoc key l x :
  occurrences key (l ++ [x]) = occurrences key l + if bool_decide (key = x) then 1 else 0.
Proof.
  unfold occurrences. rewrite filter_app, length_app. rewrite filter_cons, filter_nil.
  destruct (decide (key = x)) as [->|Hne].
  - rewrite bool_decide_eq_true_2 by done. cbn [length]. lia.
  - rewrite bool_decide_eq_false_2 by done. cbn [length]. lia.
Qed.

(** [D] bounds what any key has lost so far. *)
Definition accurate (s : t) (l : list K) (D : Z) : Prop :=
  0 < k s /\ 0 <= D /\ len s <= k s /\ positive (counts s) /\ k s * D + mass (counts s) <= zlen l /\
  forall key, estimate key s <= occurrences key l <= estimate key s + D.

Lemma accurate_observe s l D x : accurate s l D -> exists D', accurate (observe x s) (l ++ [x]) D'.
Proof.
  intros (Hk & HD & Hlen & Hpos & Hm & He). unfold observe, observe_n. cbn [Z.eqb].
  destruct (counts s !! x) as [c|] eqn:Ex; [|case_if; [|unfold len; unfold_upd; cbn [k counts];
    set (m := decrement_all 1 (counts s)); case_if]].
  - exists D. unfold accurate, len, estimate in *. unfold_upd. cbn [k counts].
    rewrite (mass_update _ _ c), zlen_app by done. change (zlen [x]) with 1.
    rewrite map_size_insert_Some by done. split_and!; try lia.
    + apply map_Forall_insert_2; [|done]. specialize (Hpos x c Ex). cbn in *. lia.
    + intros key. specialize (He key). rewrite occurrences_snoc. destruct (decide (key = x)) as [->|Hne].
      * rewrite lookup_insert_eq, bool_decide_eq_true_2 by done. rewrite Ex in He. cbn in *. lia.
      * rewrite lookup_insert_ne, bool_decide_eq_false_2 by done. lia.
  - exists D. unfold accurate, len, estimate in *. unfold_upd. cbn [k counts].
    rewrite mass_insert, zlen_app by done. change (zlen [x]) with 1.
    rewrite map_size_insert_None by done. split_and!; try lia.
    + by apply map_Forall_insert_2.
    + intros key. specialize (He key). rewrite occurrences_snoc. destruct (decide (key = x)) as [->|Hne].
      * rewrite lookup_insert_eq, bool_decide_eq_true_2 by done. rewrite Ex in He. cbn in *. lia.
      * rewrite lookup_insert_ne, bool_decide_eq_false_2 by done. lia.
  - exists (D + 1). destruct (mass_decrement _ Hpos) as [Em Es]. fold m in Em, Es.
    assert (m !! x = None) as Emx by (unfold m; by rewrite decrement_lookup, Ex).
    unfold accurate, len, estimate in *. unfold_upd. cbn [k counts] in *. fold m.
    rewrite mass_insert, zlen_app by done. change (zlen [x]) with 1.
    rewrite map_size_insert_None by done. split_and!; try lia.
    + apply map_Forall_insert_2; [done|apply decrement_positive].
    + intros key. specialize (He key). rewrite occurrences_snoc. destruct (decide (key = x)) as [->|Hne].
      * rewrite lookup_insert_eq, bool_decide_eq_true_2 by done. rewrite Ex in He. cbn in *. lia.
      * rewrite lookup_insert_ne, bool_decide_eq_false_2 by done. unfold m. rewrite decrement_lookup.
        destruct (counts s !! key) as [c|] eqn:Ec; cbn in *; [|lia].
        specialize (Hpos key c Ec). cbn in Hpos. case_if; cbn; lia.
  - exists (D + 1). destruct (mass_decrement _ Hpos) as [Em Es]. fold m in Em, Es.
    unfold accurate, len, estimate in *. unfold_upd. cbn [k counts] in *. fold m.
    rewrite zlen_app. change (zlen [x]) with 1. split_and!; try lia.
    + apply decrement_positive.
    + intros key. specialize (He key). rewrite occurrences_snoc. unfold m. rewrite decrement_lookup.
      destruct (decide (key = x)) as [->|Hne].
      * rewrite Ex in *. rewrite bool_decide_eq_true_2 by done. cbn in *. lia.
      * rewrite bool_decide_eq_false_2 by done.
        destruct (counts s !! key) as [c|] eqn:Ec; cbn in *; [|lia].
        specialize (Hpos key c Ec). cbn in Hpos. case_if; cbn; lia.
Qed.

Lemma observed_accurate k0 l : 0 < k0 -> exists D, accurate (observed k0 l) l D.
Proof.
  intros Hk. induction l as [|x l IH] using rev_ind.
  - exists 0. unfold accurate, observed, len, estimate. cbn [foldl k counts].
    rewrite map_size_empty. change (mass ∅) with 0. split_and!; try (cbn; lia).
    + apply map_Forall_empty.
    + change (zlen []) with 0. lia.
    + intros key. rewrite lookup_empty. done.
  - destruct IH as [D HD]. unfold observed. rewrite foldl_app. by eapply accurate_observe.
Qed.
Lemma observed_k k0 l : k (observed k0 l) = k0.
Proof.
  unfold observed. induction l as [|x l IH] using rev_ind; [done|]. rewrite foldl_app. cbn.
  unfold observe, observe_n. cbn [Z.eqb]. repeat case_match; done.
Qed.
End ops.
#[global] Arguments t K {_ _}.

(** On single observations the table keeps the Misra-Gries promise.
    It never holds more than [k] keys, never over-counts a key, and
    under-counts none by more than [N / k]: the loss times [k], plus
    everything still counted, fits in the stream.  A key seen more than
    [N / k] times is therefore in the table. *)
Theorem topk_frequent_keys_kept {K} `{Countable K} k0 (l : list K) key : 0 < k0 ->
  let s := observed k0 l in
  len s <= k0 /\ estimate key s <= occurrences key l /\
  k0 * (occurrences key l - estimate key s) + mass (counts s) <= zlen l /\
  (zlen l < k0 * occurrences key l -> is_Some (counts s !! key)).
Proof.
  intros Hk s. destruct (observed_accurate k0 l Hk) as (D & _ & HD & Hlen & Hpos & Hm & He).
  fold s in Hlen, Hpos, Hm, He. assert (TopK.k s = k0) as Ek by apply observed_k. rewrite Ek in *.
  specialize (He key). assert (0 <= mass (counts s)) as Hmass.
  { clear - Hpos. unfold positive in Hpos. induction (counts s) as [|x c m Hx IH] using map_ind; [done|].
    apply map_Forall_insert in Hpos as [Hc Hp]; [|done]. rewrite mass_insert by done. specialize (IH Hp). lia. }
  assert (k0 * (occurrences key l - estimate key s) + mass (counts s) <= zlen l) as Hb by nia.
  split_and!; [done|lia|done|]. intros Hfreq. unfold estimate in *.
  destruct (counts s !! key) as [c|]; [done|]. cbn in Hb. lia.
Qed.
Lemma topk_frequent_keys_kept_witness :
  let l := [7; 1; 7; 2; 7; 3; 7; 4; 7] in
  is_Some (counts (observed 2 l) !! 7) /\ estimate 7 (observed 2 l) = 2.
Proof.
  intros l. split; [|vm_compute; reflexivity].
  apply (topk_frequent_keys_kept 2 l 7); [lia|]. vm_compute. reflexivity.
Defined.

(** Weighted observations lose the Misra-Gries promise.  The
    documentation says a full table decrements every counter by one and inserts the new key
    with the residual count; the code decrements by the whole weight and
    inserts the whole weight, so one heavy observation evicts a key that
    is half of the stream. *)
Theorem topk_weighted_evicts_heavy :
  let s := observe_n 3 1000 (observe_n 2 1 (observe_n 1 1 (observe_n 0 1000 (mk 3 ∅)))) in
  estimate 0 s = 0 /\ estimate 3 s = 1000 /\ 1000 > (1000 + 1 + 1 + 1000) / 3.
Proof. vm_compute. repeat split; reflexivity. Qed.

(** The documented contract of [Mergeable], that shards may be united
    in any order, fails for this table: one order keeps a key the other
    drops. *)
Theorem topk_merge_order_matters :
  let a := observe 1 (mk 1 ∅) in let b := observe 2 (mk 1 ∅) in let c := observe 3 (mk 1 ∅) in
  match merge_all a [b; c], merge_all a [c; b] with
  | Some s, Some s' => estimate 3 s = 1 /\ estimate 3 s' = 0
  | _, _ => False
  end.
Proof. vm_compute. split; reflexivity. Qed.
End TopK.

(** * Uniting shards

    The contract of [Mergeable], proved once against the interface and used
    with the sketches that discharge it (Count-Min, Bloom, HyperLogLog). *)


(** Shards may be united in any order and in any grouping.  For every
    primitive that meets the documented contract of [Mergeable], folding
    well-formed shards of one shape never panics, gives the same value
    whatever the order, and the same value when some of them are united
    among themselves first. *)
Theorem shards_merge_in_any_order {A} `{MergeableLaws A wf same_shape} a others others' b group :
  others ≡ₚ others' -> wf a -> wf b -> same_shape a b ->
  Forall wf (others ++ group) -> Forall (same_shape a) (others ++ group) ->
  (exists c, merge_all a others = Some c /\ merge_all a others' = Some c) /\
  merge_all a (others ++ b :: group) =
    (merge_all a others ≫= fun x => merge_all b group ≫= fun y => merge x y).
Proof.
  intros Hp Ha Hb Sab [Ho Hg]%Forall_app [So Sg]%Forall_app. pose proof shape_equiv as Heq.
  destruct (merge_all_total others a Ha Ho So) as (c & E & Hc & Sc). split.
  - exists c. split; [done|]. by rewrite <- (merge_all_perm others others' Hp a Ha Ho So).
  - rewrite E. cbn [mbind option_bind]. rewrite <- (merge_all_under group c b).
    + clear - E. revert a E. induction others as [|o others IH]; intros a; cbn; [by intros [= ->]|].
      destruct (merge a o); cbn; [apply IH|done].
    + done.
    + done.
    + etrans; [by symmetry|done].
    + done.
    + eapply Forall_impl; [exact Sg|]. intros g Sag. etrans; [by symmetry|done].
Qed.
Lemma shards_merge_in_any_order_witness :
  let h := fun x : Z => x * 4294967297 in
  let shard x := (BloomFilter.insert h x (BloomFilter.with_sizes 64 2)).1 in
  (exists s, merge_all (shard 1) [shard 2; shard 3] = Some s /\
             merge_all (shard 1) [shard 3; shard 2] = Some s) /\
  match merge_all (shard 1) [shard 2; shard 3; shard 4] with
  | Some s => BloomFilter.contains h 4 s = true /\ BloomFilter.contains h 5 s = false
  | None => False
  end.
Proof.
  intros h shard. split; [|vm_compute; split; reflexivity].
  apply (shards_merge_in_any_order (shard 1) [shard 2; shard 3] [shard 3; shard 2] (shard 4) []).
  - constructor.
  - vm_compute. reflexivity.
  - vm_compute. reflexivity.
  - vm_compute. split; reflexivity.
  - repeat constructor; vm_compute; reflexivity.
  - repeat constructor; vm_compute; reflexivity.
Defined.

(** *** Shards of one stream *)
Section whole.
Context {A I : Type} `{Mergeable A} (build : list I -> A) (valid : I -> Prop).
Hypothesis build_app : forall l k, Forall valid l -> Forall valid k -> merge (build l) (build k) = Some (build (l ++ k)).
Lemma merge_all_whole ls : forall l, Forall valid (l ++ concat ls) ->
  merge_all (build l) (build <$> ls) = Some (build (l ++ concat ls)).
Proof.
  induction ls as [|k ls IH]; intros l F; cbn; [by rewrite app_nil_r|]. pose proof F as G. cbn in F. apply Forall_app in F as [F1 [F2 F3]%Forall_app].
  rewrite build_app by done. cbn. rewrite app_assoc. apply IH. by rewrite <- app_assoc.
Qed.
End whole.

(** C38: a sketch may be built in shards.  Cut a stream into any number of
    parts in any way and order, give each part to a sketch of its own, and
    unite the sketches: the result is, to the last cell, the sketch that saw
    the whole stream.  This holds of Bloom filters, of Count-Min sketches
    whose counts are [u32]s (saturated cells included), and of HyperLogLogs,
    where repetitions across the parts make no difference either; the hash
    function is arbitrary. *)
Theorem sharded_sketch_is_whole {Item} (hash_one : Item -> Z) :
  (forall m k part parts whole, part ++ concat parts ≡ₚ whole ->
     merge_all (BloomFilter.filter_of hash_one m k part) (BloomFilter.filter_of hash_one m k <$> parts)
     = Some (BloomFilter.filter_of hash_one m k whole)) /\
  (forall d w part parts whole, Forall CountMinSketch.countable whole -> part ++ concat parts ≡ₚ whole ->
     merge_all (CountMinSketch.sketch hash_one d w part) (CountMinSketch.sketch hash_one d w <$> parts)
     = Some (CountMinSketch.sketch hash_one d w whole)) /\
  (forall p empty part parts whole, HyperLogLog.with_hasher p = Ok empty ->
     Forall HyperLogLog.hash_ok (part ++ concat parts) -> (forall h, h ∈ part ++ concat parts <-> h ∈ whole) ->
     merge_all (HyperLogLog.registers_of empty part) (HyperLogLog.registers_of empty <$> parts)
     = Some (HyperLogLog.registers_of empty whole)).
Proof.
  split_and!.
  - intros m k part parts whole P. rewrite (merge_all_whole _ (fun _ => True)); [|by intros; apply BloomFilter.filter_merge|by apply Forall_true].
    f_equal. by apply BloomFilter.filter_perm.
  - intros d w part parts whole F P. rewrite <- P in F.
    rewrite (merge_all_whole _ CountMinSketch.countable); [|apply CountMinSketch.sketch_merge|done].
    f_equal. by apply CountMinSketch.sketch_perm.
  - intros p empty part parts whole E F S.
    rewrite (merge_all_whole _ HyperLogLog.hash_ok); [|intros; by apply (HyperLogLog.registers_merge p)|done].
    f_equal. apply (HyperLogLog.registers_set p); [done..| |done]. rewrite !Forall_forall in *. intros h Hh. by apply F, S.
Qed.
Lemma sharded_sketch_is_whole_witness :
  let h := fun x : Z => x * 4294967297 in
  let f := BloomFilter.filter_of h 64 2 in
  let s := CountMinSketch.sketch h 2 4 in
  merge_all (f [1; 2]) (f <$> [[3]; [2; 4]]) = Some (f [4; 3; 2; 2; 1]) /\
  merge_all (s [(1, 5)]) (s <$> [[(2, U32_MAX)]; [(2, 1)]]) = Some (s [(2, 1); (1, 5); (2, U32_MAX)]).
Proof.
  intros h f s. destruct (sharded_sketch_is_whole h) as (B & C & _). split.
  - apply B. apply (bool_decide_unpack _). vm_compute. exact I.
  - apply C; [repeat constructor; vm_compute; discriminate|apply (bool_decide_unpack _); vm_compute; exact I].
Defined.
