(* ===== verification/Factory.v ===== *)
(** * What the flow driver needs of a reassembler (src/src/reassembler.rs,
      src/src/segment_reassembler.rs)

    [Diagnostics] are the counters of the [Reassembler] trait that the
    driver turns into anomalies and folds into a flow's statistics, and
    [ReassemblerFactory] the trait that builds a reassembler per side.
    [FactoryLaws] is what a factory promises the driver: a new reassembler
    has delivered nothing yet, and one that lets a payload through skips no
    more than the payload.  The hooks [fin] and [rst], which the
    built-in reassemblers leave empty and after which the driver drops the
    reassembler, have no counterpart. *)

From S2P Require Import Prelude Time Flow Config Cells Chunks Ledger Track Reassembler Buffered BTree Ooo Runs Pieces Segment SegmentFacts.

Class Diagnostics (R : Type) := {
  dropped_segments : R -> Z;
  gaps : R -> Z;
  retransmits : R -> Z;
  rexmit_inconsistencies : R -> Z;
  out_of_window_segments : R -> Z;
  ack_confirmed_gaps : R -> Z;
  origin_resets : R -> Z;
  high_watermark : R -> Z;
  high_watermark_crossings : R -> Z;
  high_watermark_threshold : R -> option (Z * Z) }.

(** [&mut self] is threaded: the factory may keep state. *)
Class ReassemblerFactory (K F R : Type) := {
  new_reassembler : K -> FlowSide -> F -> F * R;
  apply_config : FlowTrackerConfig.t -> F -> F }.

Class FactoryLaws (K F R : Type) `{ReassemblerLaws R} `{!ReassemblerFactory K F R} := {
  factory_ok : F -> Prop;
  law_new f k side : factory_ok f ->
    factory_ok (new_reassembler k side f).1 /\ forall wire, sound wire [] (new_reassembler k side f).2;
  law_config f c : factory_ok f ->
    (forall cap, FlowTrackerConfig.max_reassembler_buffer c = Some cap -> 0 <= cap) ->
    factory_ok (apply_config c f);
  law_skip s p t (r r' : R) k : segment_into s p t r = (r', Passthrough k) -> 0 <= k <= zlen p }.

(** ** [NoopReassembler] *)
Module NoopReassembler.
Inductive t := NoopReassembler.

#[global] Instance reassembler : Reassembler t := {
  segment _ _ _ r := r;
  segment_into _ _ _ r := (r, Reassembler.Buffered);
  set_origin _ r := r;
  peer_ack _ _ r := r;
  fin_seen _ _ r := r;
  missing_bytes _ _ _ r := r;
  drain_into r out := (r, out);
  flush_pending r := r;
  advance_time _ r := r;
  release r := r;
  gap_bytes _ := 0;
  bytes_dropped_oversize _ := 0;
  stop_reason _ := None;
  bytes_in_flight _ := 0;
  current_bytes _ := 0 }.
#[global] Instance diagnostics : Diagnostics t := {
  dropped_segments _ := 0; gaps _ := 0; retransmits _ := 0; rexmit_inconsistencies _ := 0;
  out_of_window_segments _ := 0; ack_confirmed_gaps _ := 0; origin_resets _ := 0;
  high_watermark _ := 0; high_watermark_crossings _ := 0; high_watermark_threshold _ := None }.
End NoopReassembler.

Module NoopReassemblerFactory.
Inductive t := NoopReassemblerFactory.
#[global] Instance factory {K} : ReassemblerFactory K t NoopReassembler.t := {
  new_reassembler _ _ f := (f, NoopReassembler.NoopReassembler);
  apply_config _ f := f }.
End NoopReassemblerFactory.

(** ** [BufferedReassemblerFactory] *)
#[global] Instance buffered_diagnostics : Diagnostics BufferedReassembler.t := {
  dropped_segments := BufferedReassembler.dropped_segments;
  gaps := BufferedReassembler.gaps;
  retransmits := BufferedReassembler.retransmits;
  rexmit_inconsistencies _ := 0;
  out_of_window_segments r := Track.out_of_window (BufferedReassembler.track r);
  ack_confirmed_gaps := BufferedReassembler.ack_confirmed_gaps;
  origin_resets r := Track.origin_resets (BufferedReassembler.track r);
  high_watermark := BufferedReassembler.high_watermark;
  high_watermark_crossings := BufferedReassembler.high_watermark_crossings;
  high_watermark_threshold := BufferedReassembler.high_watermark_threshold }.

Module Pinned.
Record t := mk { max_buffer : bool; overflow_policy : bool; high_watermark : bool }.
#[global] Instance eta : Eta t := mk_eta (fun p =>
  mk (max_buffer p) (overflow_policy p) (high_watermark p)).
Definition default : t := mk false false false.
End Pinned.

Module BufferedReassemblerFactory.
Record t := mk {
  max_buffer : option Z; overflow_policy : OverflowPolicy;
  high_watermark_threshold_pct : option Z; pinned : Pinned.t }.
#[global] Instance eta : Eta t := mk_eta (fun f =>
  mk (max_buffer f) (overflow_policy f) (high_watermark_threshold_pct f) (pinned f)).

Definition default : t := mk None SlidingWindow None Pinned.default.

Definition apply_config (config : FlowTrackerConfig.t) (f : t) : t :=
  let f := if Pinned.max_buffer (pinned f) then f
           else f <| max_buffer := FlowTrackerConfig.max_reassembler_buffer config |> in
  let f := if Pinned.overflow_policy (pinned f) then f
           else f <| overflow_policy := FlowTrackerConfig.overflow_policy config |> in
  if Pinned.high_watermark (pinned f) then f
  else f <| high_watermark_threshold_pct := FlowTrackerConfig.reassembler_high_watermark_pct config |>.

Definition from_config (config : FlowTrackerConfig.t) : t := apply_config config default.
Definition with_max_buffer (max_bytes : Z) (f : t) : t :=
  f <| max_buffer := Some max_bytes |> <| pinned ::= fun p => p <| Pinned.max_buffer := true |> |>.
Definition unbounded (f : t) : t :=
  f <| max_buffer := None |> <| pinned ::= fun p => p <| Pinned.max_buffer := true |> |>.
Definition with_overflow_policy (policy : OverflowPolicy) (f : t) : t :=
  f <| overflow_policy := policy |> <| pinned ::= fun p => p <| Pinned.overflow_policy := true |> |>.
Definition with_high_watermark_threshold (percent : Z) (f : t) : t :=
  f <| high_watermark_threshold_pct := Some (BufferedReassembler.clamp 1 100 percent) |>
    <| pinned ::= fun p => p <| Pinned.high_watermark := true |> |>.

Definition build (f : t) : BufferedReassembler.t :=
  let r := BufferedReassembler.new in
  let r :=
    match max_buffer f with
    | Some cap => BufferedReassembler.with_overflow_policy (overflow_policy f)
                    (BufferedReassembler.with_max_buffer cap r)
    | None => r
    end in
  match high_watermark_threshold_pct f with
  | Some pct => BufferedReassembler.with_high_watermark_threshold pct r
  | None => r
  end.

#[global] Instance factory {K} : ReassemblerFactory K t BufferedReassembler.t := {
  new_reassembler _ _ f := (f, build f);
  Factory.apply_config := apply_config }.
End BufferedReassemblerFactory.

(** ** [SegmentBufferReassemblerFactory] *)
#[global] Instance segment_diagnostics : Diagnostics SegmentBufferReassembler.t := {
  dropped_segments := SegmentBufferReassembler.dropped_segments;
  gaps := SegmentBufferReassembler.gaps;
  retransmits := SegmentBufferReassembler.retransmits;
  rexmit_inconsistencies := SegmentBufferReassembler.rexmit_inconsistencies;
  out_of_window_segments r := Track.out_of_window (SegmentBufferReassembler.track r);
  ack_confirmed_gaps := SegmentBufferReassembler.ack_confirmed_gaps;
  origin_resets r := Track.origin_resets (SegmentBufferReassembler.track r);
  high_watermark := SegmentBufferReassembler.high_watermark;
  high_watermark_crossings := SegmentBufferReassembler.high_watermark_crossings;
  high_watermark_threshold := SegmentBufferReassembler.high_watermark_threshold }.

Module SegmentBufferReassemblerFactory.
Record t := mk {
  max_buffer : option Z; max_ooo_buffer : Z;
  overflow_policy : OverflowPolicy; overlap_policy : TcpOverlapPolicy;
  high_watermark_threshold_pct : option Z; rules : StreamRules.t;
  pinned_max_buffer : bool; pinned_ooo : bool; pinned_overlap : bool; pinned_rules : bool }.
#[global] Instance eta : Eta t := mk_eta (fun f =>
  mk (max_buffer f) (max_ooo_buffer f) (overflow_policy f) (overlap_policy f)
     (high_watermark_threshold_pct f) (rules f) (pinned_max_buffer f) (pinned_ooo f)
     (pinned_overlap f) (pinned_rules f)).

Definition apply_config (config : FlowTrackerConfig.t) (f : t) : t :=
  let f :=
    if pinned_max_buffer f then f
    else f <| max_buffer := FlowTrackerConfig.max_reassembler_buffer config |>
           <| overflow_policy := FlowTrackerConfig.overflow_policy config |> in
  let f :=
    if pinned_ooo f then f
    else f <| max_ooo_buffer := FlowTrackerConfig.reassembly_ooo_buffer config |>
           <| rules ::= fun u => u <| StreamRules.deadline := FlowTrackerConfig.reassembly_ooo_deadline config |> |> in
  let f :=
    if pinned_rules f then f
    else f <| rules ::= fun u =>
               u <| StreamRules.max_ahead := FlowTrackerConfig.reassembly_max_ahead config |>
                 <| StreamRules.ack_grace := FlowTrackerConfig.reassembly_ack_grace config |> |> in
  let f :=
    if pinned_overlap f then f
    else f <| overlap_policy := FlowTrackerConfig.tcp_overlap_policy config |> in
  f <| high_watermark_threshold_pct := FlowTrackerConfig.reassembler_high_watermark_pct config |>.

Definition from_config (config : FlowTrackerConfig.t) : t :=
  apply_config config
    (mk None DEFAULT_OOO_BUFFER SlidingWindow First None StreamRules.default
        false false false false).
Definition default : t := from_config FlowTrackerConfig.default.
Definition with_max_buffer (cap : option Z) (policy : OverflowPolicy) (f : t) : t :=
  f <| max_buffer := cap |> <| overflow_policy := policy |> <| pinned_max_buffer := true |>.
Definition with_ooo (max_ooo_buffer deadline : Z) (f : t) : t :=
  f <| SegmentBufferReassemblerFactory.max_ooo_buffer := max_ooo_buffer |>
    <| rules ::= fun u => u <| StreamRules.deadline := deadline |> |> <| pinned_ooo := true |>.
Definition with_window (max_ahead ack_grace : Z) (f : t) : t :=
  f <| rules ::= fun u => u <| StreamRules.max_ahead := max_ahead |>
                            <| StreamRules.ack_grace := ack_grace |> |>
    <| pinned_rules := true |>.
Definition with_tcp_overlap_policy (policy : TcpOverlapPolicy) (f : t) : t :=
  f <| overlap_policy := policy |> <| pinned_overlap := true |>.

Definition build (f : t) : SegmentBufferReassembler.t :=
  let r :=
    SegmentBufferReassembler.with_tcp_overlap_policy (overlap_policy f)
      (SegmentBufferReassembler.with_overflow_policy (overflow_policy f)
        (SegmentBufferReassembler.with_ack_grace (StreamRules.ack_grace (rules f))
          (SegmentBufferReassembler.with_max_ahead (StreamRules.max_ahead (rules f))
            (SegmentBufferReassembler.with_ooo_deadline (StreamRules.deadline (rules f))
              (SegmentBufferReassembler.with_max_ooo_buffer (max_ooo_buffer f)
                SegmentBufferReassembler.new))))) in
  let r :=
    match max_buffer f with
    | Some cap => SegmentBufferReassembler.with_max_buffer cap r
    | None => r
    end in
  match high_watermark_threshold_pct f with
  | Some pct => SegmentBufferReassembler.with_high_watermark_threshold pct r
  | None => r
  end.

#[global] Instance factory {K} : ReassemblerFactory K t SegmentBufferReassembler.t := {
  new_reassembler _ _ f := (f, build f);
  Factory.apply_config := apply_config }.
End SegmentBufferReassemblerFactory.

(** ** The built-in factories keep their promise *)
Definition cap_ok (o : option Z) : Prop := forall cap, o = Some cap -> 0 <= cap.

#[export] Program Instance noop_laws : ReassemblerLaws NoopReassembler.t := {
  position _ := 0; origin _ := 0; sound _ d _ := d = [] }.
Next Obligation. intros wire d r e _ ->. by destruct e. Qed.
Next Obligation. intros wire d r -> _. split; [apply cells_at_nil|done]. Qed.
Next Obligation. intros wire d r -> _ _. done. Qed.
#[export] Program Instance noop_factory_laws {K} :
  FactoryLaws K NoopReassemblerFactory.t NoopReassembler.t := { factory_ok _ := True }.
Next Obligation. done. Qed.
Next Obligation. done. Qed.
Next Obligation. done. Qed.

Lemma buffered_skip fuel : forall s p t pass r r' k,
  BufferedReassembler.feed_fuel fuel s p t pass r = (r', Passthrough k) -> 0 <= k <= zlen p.
Proof.
  induction fuel as [|fuel IH]; intros s p t pass r r' k; cbn [BufferedReassembler.feed_fuel]; [done|].
  case_if; [done|]. cbv zeta. case_if.
  - destruct (Track.far_ahead _ _ _ _ _) as [[|c] kk]; [done|apply IH].
  - case_if; [done|]. case_if; cbn beta iota; (case_if; [case_if; [apply IH|done]|]);
      (case_if; [|done]); intros [= _ <-]; unfold_upd; cbn in *; zlen_facts; lia.
Qed.

Lemma segment_skip fuel : forall s p t pass r r' k,
  SegmentBufferReassembler.feed_fuel fuel s p t pass r = (r', Passthrough k) -> 0 <= k <= zlen p.
Proof.
  induction fuel as [|fuel IH]; intros s p t pass r r' k; cbn [SegmentBufferReassembler.feed_fuel]; [done|].
  case_if; [done|]. cbv zeta. case_if.
  - destruct (Track.far_ahead _ _ _ _ _) as [[|c] kk]; [done|apply IH].
  - case_if; [done|]. case_if; cbn beta iota; (case_if; [|done]); (case_if; [|done]);
      intros [= _ <-]; unfold_upd; cbn in *; zlen_facts; lia.
Qed.


Section buffered.
Import BufferedReassemblerFactory.

Lemma buffered_build_settings f :
  let r := build f in BufferedReassembler.max_buffer r = max_buffer f /\
  BufferedFacts.fresh r.
Proof.
  unfold build. destruct (max_buffer f), (high_watermark_threshold_pct f); by repeat split.
Qed.

#[export] Program Instance buffered_factory_laws {K} : FactoryLaws K t BufferedReassembler.t := {
  factory_ok f := cap_ok (max_buffer f) }.
Next Obligation.
  intros K f k side Hf. split; [done|]. intros wire. destruct (buffered_build_settings f) as [E Hr].
  apply BufferedProps.fresh_sound; [done|]. cbn. by rewrite E.
Qed.
Next Obligation.
  intros K f c Hf Hc. cbn. unfold apply_config.
  destruct f as [m o w [[] [] []]]; cbn; done.
Qed.
Next Obligation. intros K s p t r r' k. apply buffered_skip. Qed.
End buffered.

Section segment.
Import SegmentBufferReassemblerFactory.

Lemma segment_build_settings f : cap_ok (max_buffer f) ->
  let r := build f in fresh r.
Proof.
  intros Hf. unfold build. destruct (max_buffer f) as [cap|], (high_watermark_threshold_pct f);
    repeat split; intros cap' [=]; subst; by apply Hf.
Qed.

#[export] Program Instance segment_factory_laws {K} : FactoryLaws K t SegmentBufferReassembler.t := {
  factory_ok f := cap_ok (max_buffer f) }.
Next Obligation.
  intros K f k side Hf. split; [done|]. intros wire. cbn.
  apply seg_fresh_sound. by apply segment_build_settings.
Qed.
Next Obligation.
  intros K f c Hf Hc. cbn. unfold apply_config.
  destruct f as [m n o p w u [] [] [] []]; cbn; done.
Qed.
Next Obligation. intros K s p t r r' k. apply segment_skip. Qed.
End segment.
