(* ===== verification/StreamState.v ===== *)
(** * Per-flow stream state (src/src/flow_driver.rs)

    One slot per side of a flow: empty, a live reassembler with the bytes
    it contributes to the driver's memory pool, or done with its final
    counters.  [feed_tcp] is the whole path of a TCP packet through the
    stream state of its flow.

    A flow's two-element arrays are a pair of fields read by side.  The
    scratch vectors of the code ([kinds], [anomalies]) are the lists the
    functions return; metrics are left out.  The caller's predicate [want]
    is a function of the packet, which its documentation asks for. *)

From S2P Require Import Prelude Time Flow Config Chunks Packet Event Tracker Track Reassembler Factory.

(** ** Diagnostic counters *)
Module Counters.
Record t := mk {
  dropped : Z; oversize : Z; crossings : Z; retransmits : Z; inconsistencies : Z; gaps : Z;
  gap_bytes : Z; out_of_window : Z; ack_gaps : Z; origin_resets : Z; high_watermark : Z }.
#[global] Instance eq_dec : EqDecision t.
Proof. solve_decision. Defined.
Definition default : t := mk 0 0 0 0 0 0 0 0 0 0 0.

Section counters.
Context {R : Type} `{Reassembler R} `{Diagnostics R}.

Definition of_ (r : R) : t := {|
  dropped := dropped_segments r;
  oversize := bytes_dropped_oversize r;
  crossings := high_watermark_crossings r;
  retransmits := Factory.retransmits r;
  inconsistencies := rexmit_inconsistencies r;
  gaps := Factory.gaps r;
  gap_bytes := Reassembler.gap_bytes r;
  out_of_window := out_of_window_segments r;
  ack_gaps := ack_confirmed_gaps r;
  origin_resets := Factory.origin_resets r;
  high_watermark := Factory.high_watermark r |}.

Definition diff (before : t) (r : R) (side : FlowSide) : list AnomalyKind :=
  let now := of_ r in
  let oversize := sat_sub (oversize now) (oversize before) in
  let new_gaps := sat_sub (gaps now) (gaps before) in
  let dropped := sat_sub (dropped now) (dropped before) in
  let oow := sat_sub (out_of_window now) (out_of_window before) in
  let retransmits := sat_sub (retransmits now) (retransmits before) in
  let inconsistencies := sat_sub (inconsistencies now) (inconsistencies before) in
  (if 0 <? oversize then
     [ABufferOverflow side oversize
        (if bool_decide (stop_reason r = Some Overflow) then DropFlow else SlidingWindow)]
   else [])
  ++ (if 0 <? new_gaps then
        [AStreamGap side new_gaps (sat_sub (gap_bytes now) (gap_bytes before))] else [])
  ++ (if 0 <? dropped then [OutOfOrderSegment side dropped] else [])
  ++ (if 0 <? oow then [OutOfWindowSegment side oow] else [])
  ++ (if crossings before <? crossings now then
        match high_watermark_threshold r with
        | Some (cap, threshold_pct) =>
            [ReassemblerHighWatermark side (bytes_in_flight r) cap threshold_pct]
        | None => []
        end
      else [])
  ++ (if 0 <? retransmits then [RetransmittedSegment side retransmits] else [])
  ++ (if 0 <? inconsistencies then [TcpRexmitInconsistency side inconsistencies] else []).

(** [let before = emit.then(|| Counters::of(r)); ..; if let Some(before) = before
    { before.diff(r') }]. *)
Definition diff_if (emit : bool) (r r' : R) (side : FlowSide) : list AnomalyKind :=
  if emit then diff (of_ r) r' side else [].
End counters.
End Counters.

(** ** One side of a flow *)
Module Live.
Record t {R : Type} := mk { r : R; accounted : Z }.
#[global] Arguments t : clear implicits.
#[global] Arguments mk {R}.
End Live.

Module SideSlot.
Inductive t {R : Type} :=
  | Empty
  | Live (l : Live.t R)
  | Done (stats : option Counters.t) (stop : option ReassemblyStop) (reported : bool).
#[global] Arguments t : clear implicits.
End SideSlot.

Module StreamFlow.
Record t {R : Type} := mk {
  initiator : SideSlot.t R; responder : SideSlot.t R;
  origin_initiator : option Z; origin_responder : option Z;
  ports : option (Z * Z) }.
#[global] Arguments t : clear implicits.
#[global] Arguments mk {R}.
#[global] Instance eta {R} : Eta (t R) := mk_eta (fun f =>
  mk (initiator f) (responder f) (origin_initiator f) (origin_responder f) (ports f)).

Section stream_flow.
Context {R : Type}.
Definition new (ports : option (Z * Z)) : t R := mk SideSlot.Empty SideSlot.Empty None None ports.
Definition side (s : FlowSide) (f : t R) : SideSlot.t R :=
  match s with Initiator => initiator f | Responder => responder f end.
Definition set_side (s : FlowSide) (v : SideSlot.t R) (f : t R) : t R :=
  match s with Initiator => f <| initiator := v |> | Responder => f <| responder := v |> end.
Definition origin (s : FlowSide) (f : t R) : option Z :=
  match s with Initiator => origin_initiator f | Responder => origin_responder f end.
Definition set_origin (s : FlowSide) (v : option Z) (f : t R) : t R :=
  match s with
  | Initiator => f <| origin_initiator := v |>
  | Responder => f <| origin_responder := v |>
  end.
End stream_flow.
End StreamFlow.

Definition SIDES : list FlowSide := [Initiator; Responder].

Definition fold_counters (stats : FlowStats.t) (side : FlowSide) (c : Counters.t)
    (stop : option ReassemblyStop) : FlowStats.t :=
  match side with
  | Initiator =>
      stats <| FlowStats.reassembly_dropped_ooo_initiator := Counters.dropped c |>
        <| FlowStats.reassembly_bytes_dropped_oversize_initiator := Counters.oversize c |>
        <| FlowStats.reassembler_high_watermark_initiator := Counters.high_watermark c |>
        <| FlowStats.retransmits_initiator := Counters.retransmits c |>
        <| FlowStats.reassembly_gaps_initiator := Counters.gaps c |>
        <| FlowStats.reassembly_gap_bytes_initiator := Counters.gap_bytes c |>
        <| FlowStats.reassembly_stop_initiator := stop |>
        <| FlowStats.reassembly_out_of_window_initiator := Counters.out_of_window c |>
        <| FlowStats.reassembly_ack_confirmed_gaps_initiator := Counters.ack_gaps c |>
        <| FlowStats.reassembly_origin_resets_initiator := Counters.origin_resets c |>
  | Responder =>
      stats <| FlowStats.reassembly_dropped_ooo_responder := Counters.dropped c |>
        <| FlowStats.reassembly_bytes_dropped_oversize_responder := Counters.oversize c |>
        <| FlowStats.reassembler_high_watermark_responder := Counters.high_watermark c |>
        <| FlowStats.retransmits_responder := Counters.retransmits c |>
        <| FlowStats.reassembly_gaps_responder := Counters.gaps c |>
        <| FlowStats.reassembly_gap_bytes_responder := Counters.gap_bytes c |>
        <| FlowStats.reassembly_stop_responder := stop |>
        <| FlowStats.reassembly_out_of_window_responder := Counters.out_of_window c |>
        <| FlowStats.reassembly_ack_confirmed_gaps_responder := Counters.ack_gaps c |>
        <| FlowStats.reassembly_origin_resets_responder := Counters.origin_resets c |>
  end.

(** Settings [feed_tcp] reads. *)
Module TcpFeed.
Record t := mk {
  passthrough : bool; emit_anomalies : bool;
  memcap_cap : option Z; memcap_policy : MemcapPolicy.t }.
End TcpFeed.

Section slots.
Context {R : Type} `{Reassembler R} `{Diagnostics R}.
Import SideSlot.

Definition fold_slot (stats : FlowStats.t) (side : FlowSide) (slot : SideSlot.t R) : FlowStats.t :=
  match slot with
  | Empty => stats
  | Live l => fold_counters stats side (Counters.of_ (Live.r l)) (stop_reason (Live.r l))
  | Done (Some counters) stop _ => fold_counters stats side counters stop
  | Done None stop _ => fold_counters stats side Counters.default stop
  end.

(** Whether the final counters are worth keeping. *)
Definition nonzero (c : Counters.t) : bool :=
  negb (Z.lor (Counters.gaps c) (Z.lor (Counters.dropped c) (Z.lor (Counters.oversize c)
    (Z.lor (Counters.retransmits c) (Z.lor (Counters.high_watermark c)
      (Z.lor (Counters.out_of_window c) (Counters.inconsistencies c)))))) =? 0).

(** The slot left behind and the bytes it had contributed. *)
Definition tombstone (slot : SideSlot.t R) (stop : option ReassemblyStop) : SideSlot.t R * Z :=
  match slot with
  | Live l =>
      let counters := Counters.of_ (Live.r l) in
      let stop := match stop with Some s => Some s | None => stop_reason (Live.r l) end in
      (Done (if nonzero counters then Some counters else None) stop (is_none stop),
       Live.accounted l)
  | Empty => (Done None stop (is_none stop), 0)
  | Done _ _ _ => (slot, 0)
  end.

Definition resync (global : Z) (l : Live.t R) : Z * Live.t R :=
  let current := current_bytes (Live.r l) in
  (sat_add (sat_sub global (Live.accounted l)) current, Live.mk (Live.r l) current).

(** A call on a live reassembler, re-synced with the pool: the pool, the
    slot and the anomalies. *)
Definition on_live (emit : bool) (side : FlowSide) (f : R -> R) (global : Z) (l : Live.t R)
    : Z * SideSlot.t R * list AnomalyKind :=
  let r' := f (Live.r l) in
  let '(global, l') := resync global (Live.mk r' (Live.accounted l)) in
  (global, Live l', Counters.diff_if emit (Live.r l) r' side).
End slots.

(** ** The path of a TCP packet *)
Section feed.
Context {K F R : Type} `{Reassembler R} `{Diagnostics R} `{!ReassemblerFactory K F R}.
Implicit Types (p : PacketContext.t K) (i : TcpInfo.t).

(** What the packet means for the stream: where its data starts, the data
    captured, and its length on the wire. *)
Definition is_syn i : bool := TcpFlags.contains (TcpInfo.flags i) TcpFlags.SYN.
Definition is_rst i : bool := TcpFlags.contains (TcpInfo.flags i) TcpFlags.RST.
Definition is_ack i : bool := TcpFlags.contains (TcpInfo.flags i) TcpFlags.ACK.
Definition is_fin i : bool := TcpFlags.contains (TcpInfo.flags i) TcpFlags.FIN.
Definition data_seq i : Z := if is_syn i then wadd32 (TcpInfo.seq i) 1 else TcpInfo.seq i.
Definition stream_payload p i : list Z := if is_rst i then [] else PacketContext.tcp_payload p.
Definition wire_of p i : Z :=
  if is_rst i then 0 else Z.max (TcpInfo.wire_payload_len i) (zlen (stream_payload p i)).
Definition fin_end p i : option Z :=
  if is_fin i then Some (wadd32 (data_seq i) (u32 (wire_of p i))) else None.

(** The variables [feed_tcp] threads. *)
Record Feeding := feeding {
  fd_factory : F; fd_flow : StreamFlow.t R; fd_global : Z; fd_tripped : option Z;
  fd_anomalies : list (K * AnomalyKind) }.
#[local] Instance feeding_eta : Eta Feeding := mk_eta (fun s =>
  feeding (fd_factory s) (fd_flow s) (fd_global s) (fd_tripped s) (fd_anomalies s)).

Definition set_slot (side : FlowSide) (v : SideSlot.t R) (s : Feeding) : Feeding :=
  s <| fd_flow ::= StreamFlow.set_side side v |>.

(** Applies a call to the reassembler of [side], if it is live. *)
Definition call_side (emit : bool) (k : K) (side : FlowSide) (f : R -> R) (s : Feeding) : Feeding :=
  match StreamFlow.side side (fd_flow s) with
  | SideSlot.Live l =>
      let '(global, slot, kinds) := on_live emit side f (fd_global s) l in
      set_slot side slot (s <| fd_global := global |>)
        <| fd_anomalies ::= fun a => a ++ (pair k <$> kinds) |>
  | _ => s
  end.

Definition note_origin p i (s : Feeding) : Feeding :=
  if is_syn i
  then s <| fd_flow ::= StreamFlow.set_origin (PacketContext.side p) (Some (data_seq i)) |>
  else s.

Definition ack_peer (cfg : TcpFeed.t) p i (s : Feeding) : Feeding :=
  if is_ack i then
    call_side (TcpFeed.emit_anomalies cfg) (PacketContext.key p) (opposite (PacketContext.side p))
      (peer_ack (TcpInfo.ack i) (PacketContext.ts p)) s
  else s.

(** A packet without data: only its FIN matters, and no anomaly is
    reported. *)
Definition bare_fin p i (s : Feeding) : Feeding :=
  match fin_end p i with
  | Some end_ =>
      call_side false (PacketContext.key p) (PacketContext.side p) (fin_seen end_ (PacketContext.ts p)) s
  | None => s
  end.

Definition ensure_slot p (s : Feeding) : Feeding :=
  let side := PacketContext.side p in
  match StreamFlow.side side (fd_flow s) with
  | SideSlot.Empty =>
      let '(factory, r) := new_reassembler (PacketContext.key p) side (fd_factory s) in
      let r := match StreamFlow.origin side (fd_flow s) with
               | Some o => set_origin o r | None => r end in
      set_slot side (SideSlot.Live (Live.mk r 0)) (s <| fd_factory := factory |>)
  | _ => s
  end.

(** [DropPacket] refuses before the reassembler sees the segment. *)
Definition refuses (cfg : TcpFeed.t) (len global : Z) : bool :=
  match TcpFeed.memcap_policy cfg with
  | MemcapPolicy.DropPacket =>
      is_some_and (fun cap => cap <? sat_add global len) (TcpFeed.memcap_cap cfg)
  | _ => false
  end.

(** The segment itself, with its outcome. *)
Definition feed_segment (cfg : TcpFeed.t) p i (r : R) : R * SegmentOutcome :=
  let payload := stream_payload p i in
  let truncated := zlen payload <? wire_of p i in
  let ts := PacketContext.ts p in
  let '(r, outcome) :=
    if TcpFeed.passthrough cfg && negb truncated then segment_into (data_seq i) payload ts r
    else
      let r := if is_nil payload then r else segment (data_seq i) payload ts r in
      let r :=
        if truncated then
          let cut := wire_of p i - zlen payload in
          missing_bytes (wadd32 (data_seq i) (u32 (zlen payload)))
            (if cut <=? U32_MAX then cut else U32_MAX) ts r
        else r in
      (r, Buffered) in
  (match fin_end p i with Some end_ => fin_seen end_ ts r | None => r end, outcome).

(** After the segment: a side that pushed the pool over its cap. *)
Definition enforce_memcap (cfg : TcpFeed.t) (side : FlowSide) (s : Feeding) : Feeding :=
  let release side s :=
    let '(slot, refund) := tombstone (StreamFlow.side side (fd_flow s)) (Some Memcap) in
    set_slot side slot (s <| fd_global ::= fun g => sat_sub g refund |>) in
  match TcpFeed.memcap_cap cfg with
  | Some cap =>
      if cap <? fd_global s then
        let s := s <| fd_tripped ::= get_or_insert (fd_global s) |> in
        match TcpFeed.memcap_policy cfg with
        | MemcapPolicy.Ignore | MemcapPolicy.DropPacket => s
        | MemcapPolicy.PassThrough => release side s
        | MemcapPolicy.DropFlow => release (opposite side) (release side s)
        end
      else s
  | None => s
  end.

(** The rest of the path for a packet with data. *)
Definition feed_data (cfg : TcpFeed.t) p i (s : Feeding) : Feeding * option Z :=
  let side := PacketContext.side p in
  let s := ensure_slot p s in
  match StreamFlow.side side (fd_flow s) with
  | SideSlot.Live l =>
      let '(global, l) := resync (fd_global s) l in
      let s := set_slot side (SideSlot.Live l) (s <| fd_global := global |>) in
      if refuses cfg (zlen (stream_payload p i)) global
      then (s <| fd_tripped ::= get_or_insert global |>, None)
      else
        let '(_, outcome) := feed_segment cfg p i (Live.r l) in
        let s := call_side (TcpFeed.emit_anomalies cfg) (PacketContext.key p) side
                   (fun r => (feed_segment cfg p i r).1) s in
        (enforce_memcap cfg side s,
         match outcome with Passthrough skip => Some skip | Buffered => None end)
  | _ => (s, None)
  end.

Definition feed_flow (cfg : TcpFeed.t) p i (s : Feeding) : Feeding * option Z :=
  let s := ack_peer cfg p i (note_origin p i s) in
  if wire_of p i =? 0 then (bare_fin p i s, None) else feed_data cfg p i s.
End feed.
#[global] Arguments Feeding : clear implicits.
