(* ===== verification/FlowDriver.v ===== *)
(** * The flow driver (src/src/flow_driver.rs, [FlowDriver])

    The tracker, a reassembler per flow side and the tracker-wide memory
    pool, behind one call per packet.  A call returns the driver and its
    events; it is [None] where the tracker would panic, which
    DriverFacts shows never happens.

    [streams] is a [HashMap]: a [gmap], iterated in an order that is a
    parameter.  The extractor, the state initialiser, the hash of the
    deduplicator and the caller's predicate are parameters too. *)

From stdpp Require Import gmap.
From S2P Require Import Prelude Time Flow Config Chunks Packet Event Lru Tracker Dedup Track Reassembler Factory StreamState.
Open Scope Z_scope.

Module PacketInfo.
Record t {K : Type} := mk {
  key : K; side : FlowSide; orientation : Orientation; l4 : option L4Proto;
  tcp : option TcpInfo.t; l4_meta : option L4Meta.t; ts : Timestamp.t; is_new : bool;
  passthrough : option Z }.
#[global] Arguments t : clear implicits.
#[global] Arguments mk {K}.

Definition checked_add (a b : Z) : option Z := if a + b <=? U64_MAX then Some (a + b) else None.
Definition passthrough_bytes {K} (frame : list Z) (p : t K) : option (list Z) :=
  match passthrough p, tcp p with
  | Some skip, Some i =>
      match checked_add (TcpInfo.payload_offset i) skip,
            checked_add (TcpInfo.payload_offset i) (TcpInfo.payload_len i) with
      | Some start, Some end_ => get_range frame start end_
      | _, _ => None
      end
  | _, _ => None
  end.
End PacketInfo.

(** One side's output of a sweep. *)
Module Released.
Record t {K : Type} := mk {
  key : K; side : FlowSide; orientation : Orientation; ports : option (Z * Z);
  anomalies : list (FlowEvent K); data : option StreamChunks.t }.
#[global] Arguments t : clear implicits.
#[global] Arguments mk {K}.
End Released.

Module FlowDriver.
Section driver.
Context {K S C F R : Type} `{Countable K} `{!Lru K (FlowEntry.t S) C}.
Context `{Reassembler R} `{Diagnostics R} `{!ReassemblerFactory K F R}.
Variable extract : PacketView.t -> option (Extracted.t K).
Variable init : K -> S.
Variable hash_frame : list Z -> Z.
Variable order : gmap K (StreamFlow.t R) -> list (K * StreamFlow.t R).

Record t := mk {
  tracker : FlowTracker.t K C;
  factory : F;
  streams : gmap K (StreamFlow.t R);
  emit_anomalies : bool;
  dedup : option Dedup.t;
  monotonic_ts : option Timestamp.t;
  max_ts : Timestamp.t;
  global_memcap_bytes : Z;
  last_packet : option (PacketInfo.t K);
  last_tick_scan : option Timestamp.t;
  passthrough : bool;
  seen_gone : Z }.
#[local] Instance eta : Eta t := mk_eta (fun x =>
  mk (tracker x) (factory x) (streams x) (emit_anomalies x) (dedup x) (monotonic_ts x) (max_ts x)
     (global_memcap_bytes x) (last_packet x) (last_tick_scan x) (passthrough x) (seen_gone x)).
Notation config x := (FlowTracker.config (tracker x)).
Notation events := (list (FlowEvent K)).

(** ** Construction and settings *)
Definition gone_count (tr : FlowTracker.t K C) : Z :=
  FlowTrackerStats.flows_ended (FlowTracker.stats tr) + FlowTracker.forgotten tr.
Definition from_tracker (tr : FlowTracker.t K C) (f : F) : t :=
  let f := apply_config (FlowTracker.config tr) f in
  let tr := FlowTracker.set_driver_owned true tr in
  mk tr f ∅ false None None Timestamp.default 0 None None false (gone_count tr).
Definition with_state_init_and_config (f : F) (c : FlowTrackerConfig.t) : t :=
  from_tracker (FlowTracker.with_config_and_state c) f.
Definition with_state_init (f : F) : t := with_state_init_and_config f FlowTrackerConfig.default.

Definition with_idle_timeout_fn (f : K -> option L4Proto -> option Z) (x : t) : t :=
  x <| tracker ::= FlowTracker.set_idle_timeout_fn f |>.
Definition set_emit_anomalies (enable : bool) (x : t) : t := x <| emit_anomalies := enable |>.
Definition set_dedup (d : option Dedup.t) (x : t) : t := x <| dedup := d |>.
Definition set_monotonic_timestamps (enable : bool) (x : t) : t :=
  x <| monotonic_ts := if enable then Some Timestamp.default else None |>.
Definition set_config (c : FlowTrackerConfig.t) (x : t) : t :=
  x <| factory ::= apply_config c |> <| tracker ::= FlowTracker.set_config c |>.
Definition pause_events (x : t) : t := x <| tracker ::= FlowTracker.pause_events |>.
Definition resume_events (x : t) : t := x <| tracker ::= FlowTracker.resume_events |>.
Definition set_passthrough (on : bool) (x : t) : t := x <| passthrough := on |>.

(** ** Clocks *)
Definition clamp_view (view : PacketView.t) (x : t) : t * PacketView.t :=
  match monotonic_ts x with
  | None => (x, view)
  | Some last =>
      let last := Timestamp.max last (PacketView.timestamp view) in
      (x <| monotonic_ts := Some last |>, view <| PacketView.timestamp := last |>)
  end.
Definition clamp_now (now : Timestamp.t) (x : t) : t * Timestamp.t :=
  match monotonic_ts x with
  | None => (x, now)
  | Some last =>
      let last := Timestamp.max last now in (x <| monotonic_ts := Some last |>, last)
  end.

(** ** Gates *)
Definition emits_mask (bit : Z) (x : t) : bool :=
  negb (FlowTracker.events_paused (tracker x))
  && negb (EventMask.contains (FlowTrackerConfig.suppress_events (config x)) bit).
Definition emits (ev : FlowEvent K) (x : t) : bool :=
  match ev with
  | Ended _ _ _ _ _ => emits_mask EventMask.ENDED x
  | FlowAnomaly _ _ _ => emits_mask EventMask.FLOW_ANOMALY x
  | TrackerAnomaly _ _ => emits_mask EventMask.TRACKER_ANOMALY x
  | Tick _ _ _ => emits_mask EventMask.TICK x
  | _ => true
  end.

(** ** Giving stream state up *)
Definition refund_slot (slot : SideSlot.t R) (global : Z) : Z :=
  match slot with SideSlot.Live l => sat_sub global (Live.accounted l) | _ => global end.
Definition refund (flow : StreamFlow.t R) (global : Z) : Z :=
  refund_slot (StreamFlow.responder flow) (refund_slot (StreamFlow.initiator flow) global).
(** Removes the stream state of [k], if there is any. *)
Definition drop_flow (k : K) (x : t) : t :=
  match streams x !! k with
  | Some flow => x <| streams := delete k (streams x) |> <| global_memcap_bytes ::= refund flow |>
  | None => x
  end.
(** The hooks [fin] and [rst] run on reassemblers about to be dropped:
    [reason] leaves no trace. *)
Definition finalize_flow (k : K) (reason : EndReason) (x : t) : t := drop_flow k x.
Fixpoint finalize (evs : events) (x : t) : t :=
  match evs with
  | [] => x
  | Ended k reason _ _ _ :: evs => finalize evs (finalize_flow k reason x)
  | _ :: evs => finalize evs x
  end.

(** ** A packet *)
Definition feed_tcp (cfg : TcpFeed.t) (want : PacketContext.t K -> bool) (p : PacketContext.t K)
    (i : TcpInfo.t) (x : t) : t * option Z * list (K * AnomalyKind) * option Z :=
  let k := PacketContext.key p in
  let flow :=
    match streams x !! k with
    | Some f => Some f
    | None =>
        if negb (is_syn i || (0 <? wire_of p i)) || negb (want p) then None
        else Some (StreamFlow.new (PacketContext.ports p))
    end in
  match flow with
  | None => (x, None, [], None)
  | Some f =>
      let '(s, pass) := feed_flow cfg p i (feeding (factory x) f (global_memcap_bytes x) None []) in
      (x <| factory := fd_factory s |> <| streams := <[k := fd_flow s]> (streams x) |>
         <| global_memcap_bytes := fd_global s |>,
       fd_tripped s, fd_anomalies s, pass)
  end.

(** The callback [track_raw] gives the tracker. *)
Definition on_packet (want : PacketContext.t K -> bool) (p : PacketContext.t K) (x : t)
    : t * option Z * list (K * AnomalyKind) :=
  let cfg := TcpFeed.mk (passthrough x) (emit_anomalies x)
               (FlowTrackerConfig.reassembly_memcap (config x))
               (FlowTrackerConfig.reassembly_memcap_policy (config x)) in
  let x := if PacketContext.is_new p then drop_flow (PacketContext.key p) x else x in
  let '(x, tripped, anomalies, pass) :=
    match PacketContext.tcp p with
    | Some i => feed_tcp cfg want p i x
    | None => (x, None, [], None)
    end in
  (x <| last_packet := Some (PacketInfo.mk (PacketContext.key p) (PacketContext.side p)
          (PacketContext.orientation p) (PacketContext.l4 p) (PacketContext.tcp p)
          (PacketContext.l4_meta p) (PacketContext.ts p) (PacketContext.is_new p) pass) |>,
   tripped, anomalies).

Definition is_ended (ev : FlowEvent K) : bool :=
  match ev with Ended _ _ _ _ _ => true | _ => false end.
Definition note_gone (evs : events) (x : t) : t :=
  x <| seen_gone ::= Z.add (zlen (List.filter is_ended evs)) |>.

Definition eviction_pressure (evicted_before : Z) (ts : Timestamp.t) (x : t) : events :=
  let evicted_total := FlowTrackerStats.flows_evicted (FlowTracker.stats (tracker x)) in
  let evicted_in_tick := sat_sub evicted_total evicted_before in
  if 0 <? evicted_in_tick
  then [TrackerAnomaly (FlowTableEvictionPressure evicted_in_tick evicted_total) ts] else [].

(** Inserts [extra] before the first [Ended] of [k], or at the end. *)
Fixpoint place (k : option K) (extra evs : events) : events :=
  match evs with
  | [] => extra
  | ev :: evs' =>
      match ev with
      | Ended k' _ _ _ _ =>
          if bool_decide (k = Some k') then extra ++ evs else ev :: place k extra evs'
      | _ => ev :: place k extra evs'
      end
  end.

Definition live_stats (k : K) (base : FlowStats.t) (x : t) : FlowStats.t :=
  match streams x !! k with
  | Some flow => fold_left (fun st side => fold_slot st side (StreamFlow.side side flow)) SIDES base
  | None => base
  end.

Fixpoint tick_all (l : list (K * FlowStats.t)) (now : Timestamp.t) (x : t) : t * events :=
  match l with
  | [] => (x, [])
  | (k, stats) :: l =>
      let x := x <| tracker ::= fun tr => (FlowTracker.mark_ticked k now tr).1 |> in
      let '(x, evs) := tick_all l now x in (x, Tick k stats now :: evs)
  end.
Definition tick_due (now : Timestamp.t) (interval : Z) (e : FlowEntry.t S) : bool :=
  match FlowEntry.last_tick_at e with
  | None => true
  | Some last => interval <=? Timestamp.saturating_sub now last
  end.
Definition emit_ticks (now : Timestamp.t) (interval : Z) (x : t) : t * events :=
  if is_some_and (fun last => Timestamp.saturating_sub now last <? interval / 4) (last_tick_scan x)
  then (x, [])
  else
    let x := x <| last_tick_scan := Some now |> in
    let to_tick :=
      (fun ke => (ke.1, live_stats ke.1 (FlowEntry.stats ke.2) x)) <$>
        List.filter (fun ke => tick_due now interval ke.2) (iter (FlowTracker.flows (tracker x))) in
    tick_all to_tick now x.

(** The packet's anomalies, as events. *)
Definition extra_events (ts : Timestamp.t) (evicted_before : Z) (tripped : option Z)
    (anomalies : list (K * AnomalyKind)) (x : t) : events :=
  if emit_anomalies x then
    ((fun a => FlowAnomaly a.1 a.2 ts) <$> anomalies)
    ++ match tripped, FlowTrackerConfig.reassembly_memcap (config x) with
       | Some bytes_in_flight, Some cap =>
           [TrackerAnomaly (GlobalMemcapHit bytes_in_flight cap
              (FlowTrackerConfig.reassembly_memcap_policy (config x))) ts]
       | _, _ => []
       end
    ++ eviction_pressure evicted_before ts x
  else [].

(** After deduplication and clamping. *)
Definition track_view (view : PacketView.t) (want : PacketContext.t K -> bool) (x : t)
    : option (t * events) :=
  let ts := PacketView.timestamp view in
  let x := x <| max_ts ::= fun m => Timestamp.max m ts |> in
  let evicted_before := FlowTrackerStats.flows_evicted (FlowTracker.stats (tracker x)) in
  match FlowTracker.track_with extract init view (tracker x) with
  | None => None
  | Some (tr, evs, ctx) =>
      let x := x <| tracker := tr |> in
      let '(x, tripped, anomalies) :=
        match ctx with Some p => on_packet want p x | None => (x, None, []) end in
      let extra := extra_events ts evicted_before tripped anomalies x in
      let evs := place (PacketInfo.key <$> last_packet x) extra evs in
      let x := note_gone evs x in
      match FlowTrackerConfig.flow_tick_interval (config x) with
      | Some interval =>
          if emits_mask EventMask.TICK x then
            let '(x, ticks) := emit_ticks ts interval x in Some (x, evs ++ ticks)
          else Some (x, evs)
      | None => Some (x, evs)
      end
  end.

Definition track_raw (view : PacketView.t) (want : PacketContext.t K -> bool) (x : t)
    : option (t * events) :=
  let x := x <| last_packet := None |> in
  let '(x, keep) :=
    match dedup x with
    | Some d => let '(d, keep) := Dedup.keep hash_frame view d in (x <| dedup := Some d |>, keep)
    | None => (x, true)
    end in
  if keep then let '(x, view) := clamp_view view x in track_view view want x
  else Some (x, []).

(** ** Ended flows *)
Definition close_side (emit : bool) (k : K) (ts : Timestamp.t) (side : FlowSide)
    (st : StreamFlow.t R * FlowStats.t * events) : StreamFlow.t R * FlowStats.t * events :=
  let '(flow, stats, out) := st in
  match StreamFlow.side side flow with
  | SideSlot.Live l =>
      let r' := flush_pending (Live.r l) in
      let slot := SideSlot.Live (Live.mk r' (Live.accounted l)) in
      (StreamFlow.set_side side slot flow, fold_slot stats side slot,
       out ++ ((fun kind => FlowAnomaly k kind ts) <$> Counters.diff_if emit (Live.r l) r' side))
  | slot => (flow, fold_slot stats side slot, out)
  end.
Definition close_flow (k : K) (stats : FlowStats.t) (x : t) : t * FlowStats.t * events :=
  match streams x !! k with
  | Some flow =>
      let '(flow, stats, out) :=
        fold_left (fun st side => close_side (emit_anomalies x) k (FlowStats.last_seen stats) side st)
          SIDES (flow, stats, []) in
      (x <| streams ::= insert k flow |>, stats, out)
  | None => (x, stats, [])
  end.

Definition close_event (ev : FlowEvent K) (x : t) : t * events :=
  match ev with
  | Ended k reason stats history l4 =>
      let '(x, stats, flush) := close_flow k stats x in
      let ev := Ended k reason stats history l4 in
      let flush := List.filter (fun a => emits a x) flush in
      if emits ev x then (x, flush ++ [ev]) else (finalize_flow k reason x, flush)
  | _ => (x, if emits ev x then [ev] else [])
  end.
Fixpoint close_all (evs : events) (x : t) : t * events :=
  match evs with
  | [] => (x, [])
  | ev :: evs =>
      let '(x, out) := close_event ev x in
      let '(x, out') := close_all evs x in
      (x, out ++ out')
  end.

Definition track_pending_with (view : PacketView.t) (want : PacketContext.t K -> bool) (x : t)
    : option (t * events) :=
  match track_raw view want x with
  | Some (x, evs) => Some (close_all evs x)
  | None => None
  end.
Definition track_pending (view : PacketView.t) (x : t) : option (t * events) :=
  track_pending_with view (fun _ => true) x.

(** ** Sweeps *)
Definition reconcile (x : t) : t :=
  let gone := gone_count (tracker x) in
  if gone =? seen_gone x then x
  else
    let live kf := is_some (FlowTracker.get kf.1 (tracker x)) in
    let global := fold_left (fun g kf => if live kf then g else refund kf.2 g)
                    (order (streams x)) (global_memcap_bytes x) in
    x <| seen_gone := gone |> <| global_memcap_bytes := global |>
      <| streams ::= filter (fun kf => live kf = true) |>.

Definition advance_side (now : Timestamp.t) (drain : bool) (k : K) (e : FlowEntry.t S)
    (side : FlowSide) (x : t) : t * list (Released.t K) :=
  match streams x !! k with
  | None => (x, [])
  | Some flow =>
      match StreamFlow.side side flow with
      | SideSlot.Live l =>
          let r' := advance_time now (Live.r l) in
          let anomalies := (fun kind => FlowAnomaly k kind now) <$>
            Counters.diff_if (emit_anomalies x) (Live.r l) r' side in
          let l := Live.mk r' (Live.accounted l) in
          let '(global, l, data) :=
            if drain then
              let '(r'', buf) := drain_into r' StreamChunks.new in
              let '(global, l) := resync (global_memcap_bytes x) (Live.mk r'' (Live.accounted l)) in
              (global, l, Some buf)
            else (global_memcap_bytes x, l, None) in
          let x := x <| global_memcap_bytes := global |>
                     <| streams ::= insert k (StreamFlow.set_side side (SideSlot.Live l) flow) |> in
          (x, if is_nil anomalies && is_none_or StreamChunks.is_empty data then []
              else
                [Released.mk k side
                   (match side with
                    | Initiator => FlowEntry.initiator_orientation e
                    | Responder => flipped (FlowEntry.initiator_orientation e)
                    end) (StreamFlow.ports flow) anomalies data])
      | _ => (x, [])
      end
  end.
Definition advance_flow (now : Timestamp.t) (drain : bool) (k : K) (x : t)
    : t * list (Released.t K) :=
  match FlowTracker.get k (tracker x) with
  | Some e =>
      let '(x, out1) := advance_side now drain k e Initiator x in
      let '(x, out2) := advance_side now drain k e Responder x in
      (x, out1 ++ out2)
  | None => (x, [])
  end.
Fixpoint advance_flows (now : Timestamp.t) (drain : bool) (ks : list K) (x : t)
    : t * list (Released.t K) :=
  match ks with
  | [] => (x, [])
  | k :: ks =>
      let '(x, out) := advance_flow now drain k x in
      let '(x, out') := advance_flows now drain ks x in
      (x, out ++ out')
  end.
Definition advance_streams (now : Timestamp.t) (drain : bool) (x : t) : t * list (Released.t K) :=
  let x := reconcile x in
  advance_flows now drain (order (streams x)).*1 x.

Definition sweep_tracker (at_ ts : Timestamp.t) (x : t) : t * events :=
  let evicted_before := FlowTrackerStats.flows_evicted (FlowTracker.stats (tracker x)) in
  let '(tr, evs) := FlowTracker.sweep at_ (tracker x) in
  let x := x <| tracker := tr |> in
  let evs := evs ++ if emit_anomalies x then eviction_pressure evicted_before ts x else [] in
  (note_gone evs x, evs).
Definition sweep_raw (now : Timestamp.t) (x : t) : t * events := sweep_tracker now now x.

Definition released_anomalies (out : list (Released.t K)) : events := concat (Released.anomalies <$> out).
Definition sweep_pending (now : Timestamp.t) (x : t) : t * events :=
  let '(x, now) := clamp_now now x in
  let '(x, out) := advance_streams now false x in
  let '(x, evs) := sweep_raw now x in
  close_all (released_anomalies out ++ evs) x.
(** Also what the callback is given, in order. *)
Definition released_data (out : list (Released.t K)) : list (K * FlowSide * StreamChunks.t) :=
  concat ((fun r => match Released.data r with
                    | Some data => if StreamChunks.is_empty data then []
                                   else [(Released.key r, Released.side r, data)]
                    | None => []
                    end) <$> out).
Definition sweep_pending_drain (now : Timestamp.t) (x : t)
    : t * events * list (K * FlowSide * StreamChunks.t) :=
  let '(x, now) := clamp_now now x in
  let '(x, out) := advance_streams now true x in
  let '(x, evs) := sweep_raw now x in
  (close_all (released_anomalies out ++ evs) x, released_data out).
Definition sweep (now : Timestamp.t) (x : t) : t * events :=
  let '(x, evs) := sweep_pending now x in (finalize evs x, evs).

Definition auto_sweep_due (ts : Timestamp.t) (x : t) : bool :=
  FlowTracker.auto_sweep_due ts (tracker x).
Definition track (view : PacketView.t) (x : t) : option (t * events) :=
  match track_pending view x with
  | Some (x, evs) =>
      let x := finalize evs x in
      match PacketInfo.ts <$> last_packet x with
      | Some ts =>
          if auto_sweep_due ts x
          then let '(x, evs') := sweep ts x in Some (x, evs ++ evs')
          else Some (x, evs)
      | None => Some (x, evs)
      end
  | None => None
  end.

(** ** The end of input, and of one flow *)
Definition finish_raw (x : t) : t * events := sweep_tracker Timestamp.MAX (max_ts x) x.
Definition finish (x : t) : t * events :=
  let '(x, evs) := finish_raw x in
  let '(x, evs) := close_all evs x in
  (finalize evs x, evs).

Definition force_close_raw (k : K) (now : Timestamp.t) (x : t) : t * events :=
  let '(x, now) := clamp_now now x in
  let '(tr, ended) := FlowTracker.force_close k now (tracker x) in
  let x := x <| tracker := tr |> in
  match ended with
  | None => (x, [])
  | Some ev => (x <| seen_gone ::= Z.add 1 |>, [ev])
  end.
Definition force_close_pending (k : K) (now : Timestamp.t) (x : t) : t * events :=
  let '(x, evs) := force_close_raw k now x in close_all evs x.
Definition force_close (k : K) (now : Timestamp.t) (x : t) : t * events :=
  let '(x, evs) := force_close_pending k now x in (finalize evs x, evs).

(** ** Consuming streams *)
Definition drain_stream (k : K) (side : FlowSide) (out : StreamChunks.t) (x : t)
    : t * StreamChunks.t * bool :=
  match streams x !! k with
  | None => (x, out, false)
  | Some flow =>
      match StreamFlow.side side flow with
      | SideSlot.Empty => (x, out, false)
      | SideSlot.Live l =>
          let '(r, out) := drain_into (Live.r l) out in
          let '(global, l) := resync (global_memcap_bytes x) (Live.mk r (Live.accounted l)) in
          (x <| global_memcap_bytes := global |>
             <| streams ::= insert k (StreamFlow.set_side side (SideSlot.Live l) flow) |>, out, true)
      | SideSlot.Done stats stop reported =>
          if reported then (x, out, false)
          else
            (x <| streams ::= insert k (StreamFlow.set_side side (SideSlot.Done stats stop true) flow) |>,
             match stop with Some st => StreamChunks.set_stop st out | None => out end, true)
      end
  end.

(** [if let SideSlot::Done { reported, .. } = slot { *reported = true; }] *)
Definition mark_reported (slot : SideSlot.t R) : SideSlot.t R :=
  match slot with SideSlot.Done stats stop _ => SideSlot.Done stats stop true | _ => slot end.
Definition discard_side (k : K) (side : FlowSide) (x : t) : t :=
  let flow := match streams x !! k with Some f => f | None => StreamFlow.new None end in
  let slot := StreamFlow.side side flow in
  let '(slot, back) :=
    match slot with SideSlot.Done _ _ _ => (slot, 0) | _ => tombstone slot None end in
  x <| streams ::= insert k (StreamFlow.set_side side (mark_reported slot) flow) |>
    <| global_memcap_bytes ::= fun g => sat_sub g back |>.
Definition discard_stream (k : K) (x : t) : t :=
  fold_left (fun x side => discard_side k side x) SIDES x.

(** ** Queries *)
Definition max_timestamp (x : t) : Timestamp.t := max_ts x.
Definition reassembly_memcap_bytes (x : t) : Z := global_memcap_bytes x.
Definition stream_ports (k : K) (x : t) : option (Z * Z) :=
  match streams x !! k with Some f => StreamFlow.ports f | None => None end.
Definition stream_count (x : t) : Z := Z.of_nat (size (streams x)).
Definition reassembler (k : K) (side : FlowSide) (x : t) : option R :=
  match StreamFlow.side side <$> streams x !! k with
  | Some (SideSlot.Live l) => Some (Live.r l)
  | _ => None
  end.
Definition emits_anomalies (x : t) : bool := emit_anomalies x.
Definition snapshot_flow_stats (x : t) : list (K * FlowStats.t) :=
  (fun ke => (ke.1, live_stats ke.1 (FlowEntry.stats ke.2) x)) <$>
    iter (FlowTracker.flows (tracker x)).
Definition flow_stats (k : K) (x : t) : option FlowStats.t :=
  (fun e => live_stats k (FlowEntry.stats e) x) <$> FlowTracker.get k (tracker x).
End driver.
#[global] Arguments t K C F R {_ _}.
End FlowDriver.
