(* ===== verification/SessionEngine.v ===== *)
(** * The engine (src/src/session/engine.rs)

    One flow driver feeding parser cores through a [Dispatch].  A call
    returns the engine, the dispatch and what it appended to the output;
    it is [None] where the tracker would panic, as in FlowDriver.

    The engine's reassembler is [SegmentBufferReassembler]; the definitions
    take any, and SessionDriver fixes it.  The fallback parser of frames,
    [extract::parse::parse_eth], reads them with the etherparse crate: a
    parameter.  The scratch buffers are cleared before every use. *)

From stdpp Require Import gmap.
From S2P Require Import Prelude Time Flow Config Chunks Packet Event Lru Tracker Track Reassembler Factory StreamState FlowDriver Parser SessionCore.
Open Scope Z_scope.

(** ** What an engine drives *)
Class Dispatch (K D O : Type) := {
  needs_ports : D -> bool;
  wants_stream : Ports -> D -> bool;
  wants_datagram : Ports -> option L4Proto -> D -> bool;
  on_stream : Ctx.t K -> Ports -> Stream.t -> D -> D * list O;
  streams_done : K -> Ports -> D -> Sides.t bool;
  on_datagram : Ctx.t K -> Ports -> list Z -> D -> D * list O;
  on_flow_end : K -> EndReason -> FlowStats.t -> Sides.t StreamChunks.t -> Ports -> Emit.t -> D -> D * list O;
  dispatch_tick : Timestamp.t -> Timestamp.t -> (K -> Orientation) -> Emit.t -> D -> D * list O;
  retain : (K -> bool) -> D -> D;
  lifecycle : FlowEvent K -> option TcpInfo.t -> D -> D * list O }.
#[global] Hint Mode Dispatch - ! - : typeclass_instances.

(** ** Frames of extractors that report no [L4Meta] *)
Module ParsedL4.
Record tcp := mk_tcp { tcp_src_port : Z; tcp_dst_port : Z }.
Record udp := mk_udp {
  src_port : Z; dst_port : Z; payload_offset : Z; payload_len : Z; wire_payload_len : Z }.
Inductive t := Tcp (x : tcp) | Udp (x : udp) | Other.
End ParsedL4.
Module ParsedIp.
Record t := mk { proto : Z; l4_payload : list Z; l4_wire_len : Z }.
End ParsedIp.
Module ParsedFrame.
Record t := mk { ip : option ParsedIp.t; l4 : option ParsedL4.t }.
End ParsedFrame.
(** [parse::parse_eth]. *)
Class FrameParser := parse_eth : list Z -> option ParsedFrame.t.

Section frames.
Context `{FrameParser}.
Definition ports_of (frame : list Z) : Ports :=
  parsed ← parse_eth frame;
  l4 ← ParsedFrame.l4 parsed;
  match l4 with
  | ParsedL4.Tcp t => Some (ParsedL4.tcp_src_port t, ParsedL4.tcp_dst_port t)
  | ParsedL4.Udp u => Some (ParsedL4.src_port u, ParsedL4.dst_port u)
  | ParsedL4.Other => None
  end.
(** [Err] when the capture cut the datagram short. *)
Definition datagram_payload (frame : list Z) : result unit (option (list Z)) :=
  match parse_eth frame with
  | None => Ok None
  | Some parsed =>
      match ParsedFrame.ip parsed with
      | None => Ok None
      | Some ip =>
          let icmp := (ParsedIp.proto ip =? 1) || (ParsedIp.proto ip =? 58) in
          let cut := zlen (ParsedIp.l4_payload ip) <? ParsedIp.l4_wire_len ip in
          match ParsedFrame.l4 parsed with
          | Some (ParsedL4.Udp u) =>
              if ParsedL4.payload_len u <? ParsedL4.wire_payload_len u then Err tt
              else
                Ok match PacketInfo.checked_add (ParsedL4.payload_offset u) (ParsedL4.payload_len u) with
                   | Some end_ => get_range frame (ParsedL4.payload_offset u) end_
                   | None => None
                   end
          | Some ParsedL4.Other =>
              if icmp && cut then Err tt else if icmp then Ok (Some (ParsedIp.l4_payload ip)) else Ok None
          | None => if icmp && cut then Err tt else Ok None
          | Some (ParsedL4.Tcp _) => Ok None
          end
      end
  end.
End frames.

Module Engine.
Section engine.
Context {K C F R D O : Type} `{Countable K} `{!Lru K (FlowEntry.t unit) C}.
Context `{Reassembler R} `{Diagnostics R} `{!ReassemblerFactory K F R} `{!Dispatch K D O} `{FrameParser}.
Variable extract : PacketView.t -> option (Extracted.t K).
Variable hash_frame : list Z -> Z.
Variable order : gmap K (StreamFlow.t R) -> list (K * StreamFlow.t R).
Notation driver := (FlowDriver.t K C F R).
Notation out := (list O).

Record t := mk { flow : driver }.
#[global] Instance eta : Eta t := mk_eta (fun e => mk (flow e)).

Definition from_tracker (tracker : FlowTracker.t K C) (f : F) : t :=
  mk (FlowDriver.set_passthrough true (FlowDriver.from_tracker tracker f)).
Definition new (f : F) (config : FlowTrackerConfig.t) : t :=
  from_tracker (FlowTracker.with_config_and_state config) f.

(** [FlowDriver::emit_gate]. *)
Definition emit_gate (x : driver) : Emit.t :=
  Emit.mk (FlowDriver.emit_anomalies x)
    (FlowDriver.emit_anomalies x && FlowDriver.emits_mask EventMask.FLOW_ANOMALY x)
    (negb (FlowTracker.events_paused (FlowDriver.tracker x)))
    (FlowDriver.emits_mask EventMask.ENDED x).

(** Forwards the events that [shown] lets through. *)
Fixpoint show (shown : FlowEvent K -> bool) (evs : list (FlowEvent K)) (d : D) : D * out :=
  match evs with
  | [] => (d, [])
  | a :: evs =>
      let (d, out) := if shown a then lifecycle a None d else (d, []) in
      let (d, out') := show shown evs d in (d, out ++ out')
  end.

(** The part of [forward] for an [Ended]: flush, last bytes, parser closes,
    release.  The statistics carry the diagnostics of the reassemblers. *)
Definition end_flow (k : K) (reason : EndReason) (stats : FlowStats.t) (visible : bool) (gate : Emit.t)
    (x : driver) (d : D) : driver * D * FlowStats.t * out :=
  let '(x, stats, anomalies) := FlowDriver.close_flow k stats x in
  let (d, out1) := show (fun a => FlowDriver.emits a x) anomalies d in
  let '(x, init, _) := FlowDriver.drain_stream k Initiator StreamChunks.new x in
  let '(x, resp, _) := FlowDriver.drain_stream k Responder StreamChunks.new x in
  let ports := FlowDriver.stream_ports k x in
  let emit := gate <| Emit.flow_end_closes := visible |> in
  let (d, out2) := on_flow_end k reason stats (Sides.mk init resp) ports emit d in
  (FlowDriver.finalize_flow k reason x, d, stats, out1 ++ out2).

(** Also what is left of [packet_tcp]. *)
Definition forward (ev : FlowEvent K) (packet_tcp : option TcpInfo.t) (gate : Emit.t) (x : driver) (d : D)
    : driver * D * option TcpInfo.t * out :=
  let visible := FlowDriver.emits ev x in
  let '(ev, x, d, out1) :=
    match ev with
    | Ended k reason stats history l4 =>
        let '(x, d, stats, out) := end_flow k reason stats visible gate x d in
        (Ended k reason stats history l4, x, d, out)
    | _ => (ev, x, d, [])
    end in
  if negb visible then (x, d, packet_tcp, out1)
  else
    let '(tcp, packet_tcp) := match ev with Packet _ _ _ _ _ _ => (packet_tcp, None) | _ => (None, packet_tcp) end in
    let (d, out2) := lifecycle ev tcp d in
    (x, d, packet_tcp, out1 ++ out2).
Fixpoint forward_all (evs : list (FlowEvent K)) (gate : Emit.t) (x : driver) (d : D) : driver * D * out :=
  match evs with
  | [] => (x, d, [])
  | ev :: evs =>
      let '(x, d, _, out) := forward ev None gate x d in
      let '(x, d, out') := forward_all evs gate x d in
      (x, d, out ++ out')
  end.

(** Sides no core reads any more are not reassembled further. *)
Definition discard_done (k : K) (done : Sides.t bool) (x : driver) : driver :=
  match done with
  | Sides.mk true true => FlowDriver.discard_stream k x
  | Sides.mk true false => FlowDriver.discard_side k Initiator x
  | Sides.mk false true => FlowDriver.discard_side k Responder x
  | Sides.mk false false => x
  end.
Definition packet_ctx (p : PacketInfo.t K) (gate : Emit.t) : Ctx.t K :=
  Ctx.mk (PacketInfo.key p) (PacketInfo.l4 p) (PacketInfo.side p) (PacketInfo.orientation p) (PacketInfo.ts p) gate.
Definition dispatch_packet (p : PacketInfo.t K) (view : PacketView.t) (ports : Ports) (gate : Emit.t)
    (x : driver) (d : D) : driver * D * out :=
  let cx := packet_ctx p gate in
  let k := PacketInfo.key p in
  let stream s x :=
    let (d, out) := on_stream cx ports s d in (discard_done k (streams_done k ports d) x, d, out) in
  match PacketInfo.l4 p with
  | Some Tcp =>
      match PacketInfo.passthrough_bytes (PacketView.frame view) p with
      | Some bytes => if is_nil bytes then (x, d, []) else stream (Stream.SBytes bytes) x
      | None =>
          let '(x, scratch, drained) := FlowDriver.drain_stream k (PacketInfo.side p) StreamChunks.new x in
          if negb drained || StreamChunks.is_empty scratch then (x, d, [])
          else stream (Stream.SChunks scratch) x
      end
  | l4 =>
      if wants_datagram ports l4 d then
        let payload :=
          match PacketInfo.l4_meta p with
          | Some m => if L4Meta.is_truncated m then Err tt else Ok (Some (L4Meta.payload (PacketView.frame view) m))
          | None => datagram_payload (PacketView.frame view)
          end in
        match payload with
        | Ok (Some payload) => let (d, out) := on_datagram cx ports payload d in (x, d, out)
        | Ok None | Err _ => (x, d, [])
        end
      else (x, d, [])
  end.

Definition ends_key (p : PacketInfo.t K) (ev : FlowEvent K) : bool :=
  match ev with Ended k _ _ _ _ => bool_decide (k = PacketInfo.key p) | _ => false end.
(** The loop over the packet's events: the packet is dispatched right
    before its flow's end, or after the last event. *)
Fixpoint forward_packet (packet : option (PacketInfo.t K)) (view : PacketView.t) (ports : Ports) (gate : Emit.t)
    (evs : list (FlowEvent K)) (packet_tcp : option TcpInfo.t) (x : driver) (d : D) : driver * D * out :=
  match evs with
  | [] =>
      match packet with
      | Some p => dispatch_packet p view ports gate x d
      | None => (x, d, [])
      end
  | ev :: evs =>
      let '(packet, x, d, out1) :=
        match packet with
        | Some p =>
            if ends_key p ev
            then let '(x, d, out) := dispatch_packet p view ports gate x d in (None, x, d, out)
            else (packet, x, d, [])
        | None => (None, x, d, [])
        end in
      let '(x, d, packet_tcp, out2) := forward ev packet_tcp gate x d in
      let '(x, d, out3) := forward_packet packet view ports gate evs packet_tcp x d in
      (x, d, out1 ++ out2 ++ out3)
  end.

(** ** Ticks and sweeps *)
Definition orientation_of (x : driver) (k : K) : Orientation :=
  match FlowTracker.get k (FlowDriver.tracker x) with
  | Some e => FlowEntry.initiator_orientation e
  | None => Forward
  end.
Definition tick (now stamp : Timestamp.t) (gate : Emit.t) (x : driver) (d : D) : D * out :=
  dispatch_tick now stamp (orientation_of x) gate d.

(** The callback of [advance_streams]. *)
Fixpoint dispatch_released (now : Timestamp.t) (gate : Emit.t) (emit_flow_anomalies : bool)
    (rs : list (Released.t K)) (d : D) : D * out :=
  match rs with
  | [] => (d, [])
  | r :: rs =>
      let (d, out1) := show (fun _ => emit_flow_anomalies) (Released.anomalies r) d in
      let (d, out2) :=
        match Released.data r with
        | Some data =>
            if StreamChunks.is_empty data then (d, [])
            else
              on_stream (Ctx.mk (Released.key r) (Some Tcp) (Released.side r) (Released.orientation r) now gate)
                (Released.ports r) (Stream.SChunks data) d
        | None => (d, [])
        end in
      let (d, out3) := dispatch_released now gate emit_flow_anomalies rs d in
      (d, out1 ++ out2 ++ out3)
  end.
Definition sweep (now : Timestamp.t) (e : t) (d : D) : t * D * out :=
  let (x, now) := FlowDriver.clamp_now now (flow e) in
  let gate := emit_gate x in
  let (d, out1) := tick now now gate x d in
  let emit_flow_anomalies := FlowDriver.emits_mask EventMask.FLOW_ANOMALY x in
  let (x, released) := FlowDriver.advance_streams order now true x in
  let (d, out2) := dispatch_released now gate emit_flow_anomalies released d in
  let (x, evs) := FlowDriver.sweep_raw now x in
  let '(x, d, out3) := forward_all evs gate x d in
  let d := retain (fun k => is_some (FlowTracker.get k (FlowDriver.tracker x))) d in
  (mk x, d, out1 ++ out2 ++ out3).

(** ** A packet *)
Definition packet_ports (needs_ports : bool) (frame : list Z) (m : option L4Meta.t) : Ports :=
  match m with
  | Some m => L4Meta.ports m
  | None => if needs_ports then ports_of frame else None
  end.
Definition track (view : PacketView.t) (e : t) (d : D) : option (t * D * out) :=
  let ports m := packet_ports (needs_ports d) (PacketView.frame view) m in
  match FlowDriver.track_raw extract (fun _ => tt) hash_frame view
          (fun p => wants_stream (ports (PacketContext.l4_meta p)) d) (flow e) with
  | None => None
  | Some (x, evs) =>
      let packet := FlowDriver.last_packet x in
      let pp := match packet with Some p => ports (PacketInfo.l4_meta p) | None => None end in
      let gate := emit_gate x in
      let '(x, d, out1) :=
        forward_packet packet view pp gate evs (match packet with Some p => PacketInfo.tcp p | None => None end) x d in
      match packet with
      | Some p =>
          if FlowDriver.auto_sweep_due (PacketInfo.ts p) x then
            let '(e, d, out2) := sweep (PacketInfo.ts p) (mk x) d in Some (e, d, out1 ++ out2)
          else Some (mk x, d, out1)
      | None => Some (mk x, d, out1)
      end
  end.

(** ** The end of input, and of one flow *)
Definition finish (e : t) (d : D) : t * D * out :=
  let stamp := FlowDriver.max_timestamp (flow e) in
  let gate := emit_gate (flow e) in
  let (d, out1) := tick Timestamp.MAX stamp gate (flow e) d in
  let (x, evs) := FlowDriver.finish_raw (flow e) in
  let '(x, d, out2) := forward_all evs gate x d in
  (mk x, d, out1 ++ out2).
Definition force_close (k : K) (now : Timestamp.t) (e : t) (d : D) : t * D * out :=
  let gate := emit_gate (flow e) in
  let (x, evs) := FlowDriver.force_close_raw k now (flow e) in
  let '(x, d, out) := forward_all evs gate x d in
  (mk x, d, out).
End engine.
#[global] Arguments t K C F R {_ _}.
End Engine.
