(* ===== verification/SessionDriver.v ===== *)
(** * Session and datagram drivers (src/src/session/driver.rs, mod.rs)

    [SessionEvent], the ordered output; the cores as [Dispatch]es; and the
    drivers, an engine with one core, with the API the macro
    [shared_driver_api] gives both. *)

From stdpp Require Import gmap.
From S2P Require Import Prelude Time Flow Config ParserKind Chunks Packet Event Lru Tracker Dedup Reassembler Segment Factory StreamState FlowDriver Parser SessionCore DatagramCore SessionEngine.
Open Scope Z_scope.

Module SessionEvent.
Section session_event.
Context {K M : Type}.
Inductive t :=
  | Started (key : K) (side : FlowSide) (orientation : Orientation) (ts : Timestamp.t) (l4 : option L4Proto)
  | Application (key : K) (side : FlowSide) (orientation : Orientation) (message : M) (ts : Timestamp.t)
      (kind : ParserKind.t)
  | ParserClosed (key : K) (kind : ParserKind.t) (reason : EndReason) (detail : option (list Z)) (ts : Timestamp.t)
  | ParserSideStopped (key : K) (kind : ParserKind.t) (side : FlowSide) (reason : EndReason)
      (detail : option (list Z)) (ts : Timestamp.t)
  | Closed (key : K) (reason : EndReason) (stats : FlowStats.t) (l4 : option L4Proto) (ts : Timestamp.t)
  | FlowAnomaly (key : K) (kind : AnomalyKind) (ts : Timestamp.t)
  | TrackerAnomaly (kind : AnomalyKind) (ts : Timestamp.t)
  | Tick (key : K) (stats : FlowStats.t) (ts : Timestamp.t).

Definition from_flow_event (ev : FlowEvent K) : option t :=
  match ev with
  | Event.Started key side orientation ts l4 => Some (Started key side orientation ts l4)
  | Event.Ended key reason stats _ l4 => Some (Closed key reason stats l4 (FlowStats.last_seen stats))
  | Event.FlowAnomaly key kind ts => Some (FlowAnomaly key kind ts)
  | Event.TrackerAnomaly kind ts => Some (TrackerAnomaly kind ts)
  | Event.Tick key stats ts => Some (Tick key stats ts)
  | Packet _ _ _ _ _ _ | Established_ _ _ _ | StateChange _ _ _ _ => None
  end.
Definition key (e : t) : option K :=
  match e with
  | Started k _ _ _ _ | Application k _ _ _ _ _ | ParserClosed k _ _ _ _ | ParserSideStopped k _ _ _ _ _
  | Closed k _ _ _ _ | FlowAnomaly k _ _ | Tick k _ _ => Some k
  | TrackerAnomaly _ _ => None
  end.
Definition timestamp (e : t) : Timestamp.t :=
  match e with
  | Started _ _ _ ts _ | Application _ _ _ _ ts _ | ParserClosed _ _ _ _ ts | ParserSideStopped _ _ _ _ _ ts
  | Closed _ _ _ _ ts | FlowAnomaly _ _ ts | TrackerAnomaly _ ts | Tick _ _ ts => ts
  end.
Definition anomaly_kind (e : t) : option AnomalyKind :=
  match e with FlowAnomaly _ kind _ | TrackerAnomaly kind _ => Some kind | _ => None end.

(** [Output] for a vector of events. *)
Definition of_output (o : Output.t K M) : list t :=
  match o with
  | Output.Message key side orientation message ts kind => [Application key side orientation message ts kind]
  | Output.ParserClosed key kind reason detail ts at_flow_end =>
      if at_flow_end : bool then [] else [ParserClosed key kind reason detail ts]
  | Output.ParserSideStopped key kind side reason detail ts => [ParserSideStopped key kind side reason detail ts]
  | Output.Anomaly key kind ts => [FlowAnomaly key kind ts]
  end.
Definition of_outputs (os : list (Output.t K M)) : list t := concat (of_output <$> os).
Definition lifecycle (ev : FlowEvent K) : list t :=
  match from_flow_event ev with Some e => [e] | None => [] end.
End session_event.
#[global] Arguments t : clear implicits.
End SessionEvent.

(** The iteration order of a hash map. *)
Class IterOrder (K V : Type) `{Countable K} := iter_order : gmap K V -> list (K * V).

Section dispatch.
Context {K F P M : Type} `{Countable K}.

Definition send {D} (r : D * list (Output.t K M)) : D * list (SessionEvent.t K M) :=
  (r.1, SessionEvent.of_outputs r.2).

#[global] Instance session_dispatch `{SessionParser P M} `{!SessionParserFactory K F P}
    `{!IterOrder K (SessionFlow.t P)} : Dispatch K (SessionCore.t K F P) (SessionEvent.t K M) := {
  needs_ports c := Selector.needs_ports (SessionCore.selector c);
  wants_stream := SessionCore.wants;
  wants_datagram _ _ _ := false;
  on_stream cx ports s c := send (SessionCore.on_stream cx ports s c);
  streams_done := SessionCore.streams_done;
  on_datagram _ _ _ c := (c, []);
  on_flow_end k reason stats finals ports emit c := send (SessionCore.on_flow_end k reason stats finals ports emit c);
  dispatch_tick now stamp orientation_of emit c :=
    send (SessionCore.on_tick iter_order now stamp orientation_of emit c);
  retain := SessionCore.retain;
  lifecycle ev _ c := (c, SessionEvent.lifecycle ev) }.

#[global] Instance datagram_dispatch `{DatagramParser P M} `{!DatagramParserFactory K F P}
    `{!IterOrder K (DatagramFlow.t P)} : Dispatch K (DatagramCore.t K F P) (SessionEvent.t K M) := {
  needs_ports c := Selector.needs_ports (DatagramCore.selector c);
  wants_stream _ _ := false;
  wants_datagram := DatagramCore.wants;
  on_stream _ _ _ c := (c, []);
  streams_done _ _ _ := Sides.both true;
  on_datagram cx ports payload c := send (DatagramCore.on_datagram cx ports payload c);
  on_flow_end k reason stats _ _ emit c := send (DatagramCore.on_flow_end k reason stats emit c);
  dispatch_tick now stamp orientation_of emit c :=
    send (DatagramCore.on_tick iter_order now stamp orientation_of emit c);
  retain := DatagramCore.retain;
  lifecycle ev _ c := (c, SessionEvent.lifecycle ev) }.
End dispatch.

(** ** The API both drivers share *)
Module Driver.
Section driver.
Context {K C D O : Type} `{Countable K} `{!Lru K (FlowEntry.t unit) C} `{!Dispatch K D O} `{FrameParser}.
Notation F := SegmentBufferReassemblerFactory.t.
Notation R := SegmentBufferReassembler.t.
Variable extract : PacketView.t -> option (Extracted.t K).
Variable hash_frame : list Z -> Z.
Variable order : gmap K (StreamFlow.t R) -> list (K * StreamFlow.t R).

Record t := mk { engine : Engine.t K C F R; core : D }.
#[global] Instance eta : Eta t := mk_eta (fun d => mk (engine d) (core d)).
Definition on_flow (f : FlowDriver.t K C F R -> FlowDriver.t K C F R) (d : t) : t :=
  d <| engine ::= fun e => e <| Engine.flow ::= f |> |>.
Definition from_tracker (tracker : FlowTracker.t K C) (core : D) : t :=
  mk (Engine.from_tracker tracker SegmentBufferReassemblerFactory.default) core.
Definition with_config (core : D) (config : FlowTrackerConfig.t) : t :=
  from_tracker (FlowTracker.with_config_and_state config) core.
Definition new (core : D) : t := with_config core FlowTrackerConfig.default.

Definition set_emit_anomalies (enable : bool) : t -> t := on_flow (FlowDriver.set_emit_anomalies enable).
Definition set_dedup (d : option Dedup.t) : t -> t := on_flow (FlowDriver.set_dedup d).
Definition dedup (d : t) : option Dedup.t := FlowDriver.dedup (Engine.flow (engine d)).
Definition set_monotonic_timestamps (enable : bool) : t -> t := on_flow (FlowDriver.set_monotonic_timestamps enable).
Definition set_idle_timeout_fn (f : K -> option L4Proto -> option Z) : t -> t := on_flow (FlowDriver.with_idle_timeout_fn f).
Definition set_config (c : FlowTrackerConfig.t) : t -> t := on_flow (FlowDriver.set_config c).
Definition config (d : t) : FlowTrackerConfig.t := FlowTracker.config (FlowDriver.tracker (Engine.flow (engine d))).
Definition tracker (d : t) : FlowTracker.t K C := FlowDriver.tracker (Engine.flow (engine d)).
Definition pause_events : t -> t := on_flow FlowDriver.pause_events.
Definition resume_events : t -> t := on_flow FlowDriver.resume_events.
Definition flow_driver (d : t) : FlowDriver.t K C F R := Engine.flow (engine d).
Definition snapshot_flow_stats (d : t) : list (K * FlowStats.t) := FlowDriver.snapshot_flow_stats (flow_driver d).
Definition flow_stats (k : K) (d : t) : option FlowStats.t := FlowDriver.flow_stats k (flow_driver d).

Definition track (view : PacketView.t) (d : t) : option (t * list O) :=
  match Engine.track extract hash_frame order view (engine d) (core d) with
  | Some (e, c, out) => Some (mk e c, out)
  | None => None
  end.
Definition sweep (now : Timestamp.t) (d : t) : t * list O :=
  let '(e, c, out) := Engine.sweep order now (engine d) (core d) in (mk e c, out).
Definition finish (d : t) : t * list O :=
  let '(e, c, out) := Engine.finish (engine d) (core d) in (mk e c, out).
Definition force_close (k : K) (now : Timestamp.t) (d : t) : t * list O :=
  let '(e, c, out) := Engine.force_close k now (engine d) (core d) in (mk e c, out).
End driver.
#[global] Arguments t K C D {_ _}.
End Driver.

(** One parser on every flow. *)
Module SessionDriver.
Section driver.
Context {K C F P M : Type} `{Countable K} `{!Lru K (FlowEntry.t unit) C}.
Context `{SessionParser P M} `{!SessionParserFactory K F P}.
Definition from_tracker (tracker : FlowTracker.t K C) (factory : F) : Driver.t K C (SessionCore.t K F P) :=
  Driver.from_tracker tracker (SessionCore.new factory Selector.All).
Definition with_config (factory : F) (config : FlowTrackerConfig.t) : Driver.t K C (SessionCore.t K F P) :=
  from_tracker (FlowTracker.with_config_and_state config) factory.
Definition new (factory : F) : Driver.t K C (SessionCore.t K F P) := with_config factory FlowTrackerConfig.default.
End driver.
End SessionDriver.
Module DatagramDriver.
Section driver.
Context {K C F P M : Type} `{Countable K} `{!Lru K (FlowEntry.t unit) C}.
Context `{DatagramParser P M} `{!DatagramParserFactory K F P}.
Definition from_tracker (tracker : FlowTracker.t K C) (factory : F) : Driver.t K C (DatagramCore.t K F P) :=
  Driver.from_tracker tracker (DatagramCore.new factory Selector.All).
Definition with_config (factory : F) (config : FlowTrackerConfig.t) : Driver.t K C (DatagramCore.t K F P) :=
  from_tracker (FlowTracker.with_config_and_state config) factory.
Definition new (factory : F) : Driver.t K C (DatagramCore.t K F P) := with_config factory FlowTrackerConfig.default.
End driver.
End DatagramDriver.
