(* ===== verification/StreamFacts.v ===== *)
(** * What the stream state of a flow preserves (src/src/flow_driver.rs)

    [flow_good]: every live reassembler of a flow satisfies what its
    implementation promises ([ReassemblerLaws.sound]) of the wire of its
    own side, for the cells its consumer was given.  [held] is what a flow
    contributes to the memory pool.  Each stage of [feed_tcp] preserves
    both, up to the cells it lets through and the pool it returns. *)

From S2P Require Import Prelude Time Flow Config Cells Chunks Packet Event Tracker Track Reassembler Factory StreamState.
Import Track TrackFacts.

(** ** A property of every side's reassembler

    [holds k side d r]: [r] is the reassembler of a side of flow [k] whose
    consumer was given the cells [d].  Every call the driver makes
    preserves it; only the segments carry an obligation ([allowed]).
    [sized] is what the property says of the bytes a reassembler holds. *)
Record SideInv (K F R : Type) `{Reassembler R} `{!ReassemblerFactory K F R} := {
  allowed : K -> FlowSide -> Event -> Prop;
  holds : K -> FlowSide -> list (option Z) -> R -> Prop;
  factory_holds : F -> Prop;
  sized : Z -> Prop;
  allowed_quiet k side e :
    match e with
    | Segment _ _ _ | SegmentInto _ _ _ => False | Missing _ n _ => 0 <= n | _ => True
    end -> allowed k side e;
  holds_step k side d r e : allowed k side e -> holds k side d r ->
    holds k side (d ++ (deliver r e).2) (deliver r e).1;
  holds_new f k side : factory_holds f ->
    factory_holds (new_reassembler k side f).1 /\ holds k side [] (new_reassembler k side f).2;
  holds_size k side d r : holds k side d r -> sized (current_bytes r);
  size_zero : sized 0 }.
#[global] Arguments allowed {_ _ _ _ _} _ _ _ _.
#[global] Arguments holds {_ _ _ _ _} _ _ _ _ _.
#[global] Arguments factory_holds {_ _ _ _ _} _ _.
#[global] Arguments sized {_ _ _ _ _} _ _.

(** What the implementation promises of its own side's wire. *)
Program Definition wire_inv {K F R} `{FactoryLaws K F R} (wire : K -> FlowSide -> Z -> Z -> Prop)
    : SideInv K F R := {|
  allowed k side := event_ok (wire k side);
  holds k side := sound (wire k side);
  factory_holds := factory_ok;
  sized _ := True |}.
Next Obligation. intros K F R H H0 H1 H2 wire k side e He. by destruct e. Qed.
Next Obligation. intros. by apply law_step. Qed.
Next Obligation. intros. destruct (law_new f k side) as [? ?]; auto. Qed.
Next Obligation. done. Qed.
Next Obligation. done. Qed.

Section calls.
Context {K F R : Type} `{Reassembler R} `{!ReassemblerFactory K F R} (I : SideInv K F R).
Context (k : K) (side : FlowSide).
Implicit Types (d : list (option Z)) (r : R).
Notation P := (holds I k side).

(** A call that delivers nothing. *)
Lemma holds_quiet d r e : allowed I k side e -> P d r -> (deliver r e).2 = [] -> P d (deliver r e).1.
Proof. intros He Hr Hd. pose proof (holds_step _ _ _ I k side d r e He Hr) as Hs. by rewrite Hd, app_nil_r in Hs. Qed.

Lemma holds_segment d r s p t : allowed I k side (Segment s p t) -> P d r -> P d (segment s p t r).
Proof. intros He Hr. by apply (holds_quiet d r (Segment s p t)). Qed.
Lemma holds_set_origin d r s : P d r -> P d (set_origin s r).
Proof. intros Hr. apply (holds_quiet d r (SetOrigin s)); [|done..]. by apply allowed_quiet. Qed.
Lemma holds_peer_ack d r a t : P d r -> P d (peer_ack a t r).
Proof. intros Hr. apply (holds_quiet d r (PeerAck a t)); [|done..]. by apply allowed_quiet. Qed.
Lemma holds_fin_seen d r e t : P d r -> P d (fin_seen e t r).
Proof. intros Hr. apply (holds_quiet d r (FinSeen e t)); [|done..]. by apply allowed_quiet. Qed.
Lemma holds_missing d r s n t : 0 <= n -> P d r -> P d (missing_bytes s n t r).
Proof. intros He Hr. apply (holds_quiet d r (Missing s n t)); [|done..]. by apply allowed_quiet. Qed.
Lemma holds_flush d r : P d r -> P d (flush_pending r).
Proof. intros Hr. apply (holds_quiet d r FlushPending); [|done..]. by apply allowed_quiet. Qed.
Lemma holds_advance d r t : P d r -> P d (advance_time t r).
Proof. intros Hr. apply (holds_quiet d r (AdvanceTime t)); [|done..]. by apply allowed_quiet. Qed.
Lemma holds_drain d r : P d r ->
  P (d ++ StreamChunks.content (drain_into r StreamChunks.new).2)
    (drain_into r StreamChunks.new).1.
Proof.
  intros Hr. pose proof (holds_step _ _ _ I k side d r Drain) as Hs. cbn in Hs.
  destruct (drain_into r StreamChunks.new). apply Hs; [by apply allowed_quiet|done].
Qed.
Definition let_through (p : list Z) (o : SegmentOutcome) : list (option Z) :=
  match o with Passthrough n => data_cells (zdrop n p) | Buffered => [] end.
Lemma holds_segment_into d r s p t : allowed I k side (SegmentInto s p t) -> P d r ->
  P (d ++ let_through p (segment_into s p t r).2) (segment_into s p t r).1.
Proof.
  intros He Hr. pose proof (holds_step _ _ _ I k side d r (SegmentInto s p t) He Hr) as Hs. cbn in Hs.
  by destruct (segment_into s p t r).
Qed.
End calls.

Create HintDb stream.
#[export] Hint Resolve holds_set_origin holds_peer_ack holds_fin_seen holds_flush holds_advance
  holds_size size_zero : stream.

(** ** Slots *)
Section slots.
Context {R : Type}.
Implicit Types (slot : SideSlot.t R) (f : StreamFlow.t R).

Lemma side_set_side s s' v f :
  StreamFlow.side s (StreamFlow.set_side s' v f) = if decide (s = s') then v else StreamFlow.side s f.
Proof. by destruct s, s'. Qed.
Lemma side_set_origin s s' o f : StreamFlow.side s (StreamFlow.set_origin s' o f) = StreamFlow.side s f.
Proof. by destruct s, s'. Qed.
Lemma opposite_ne s : opposite s <> s.
Proof. by destruct s. Qed.
Lemma opposite_eq s s' : s <> s' -> s = opposite s'.
Proof. by destruct s, s'. Qed.

(** What a slot, and a flow, contributed to the pool. *)
Definition held_slot slot : Z :=
  match slot with SideSlot.Live l => Live.accounted l | _ => 0 end.
Definition held f : Z := held_slot (StreamFlow.initiator f) + held_slot (StreamFlow.responder f).
Lemma held_sides s f :
  held f = held_slot (StreamFlow.side s f) + held_slot (StreamFlow.side (opposite s) f).
Proof. unfold held. destruct s; cbn; lia. Qed.
Lemma held_set_side s v f :
  held (StreamFlow.set_side s v f) = held f - held_slot (StreamFlow.side s f) + held_slot v.
Proof. unfold held. destruct s; cbn; lia. Qed.
Lemma held_set_origin s o f : held (StreamFlow.set_origin s o f) = held f.
Proof. by destruct s. Qed.
Lemma held_new ports : held (StreamFlow.new (R:=R) ports) = 0.
Proof. done. Qed.
End slots.

Section feed.
Context {K F R : Type} `{Reassembler R} `{!ReassemblerFactory K F R} `{Diagnostics R}.
Context (I : SideInv K F R) (k : K).
Implicit Types (p : PacketContext.t K) (i : TcpInfo.t) (s : Feeding K F R).
#[local] Existing Instance feeding_eta.
Notation sides := (FlowSide -> list (option Z)).

(** The consumer of [side] has been given [d]. *)
Definition slot_good (side : FlowSide) (d : list (option Z)) (slot : SideSlot.t R) : Prop :=
  match slot with
  | SideSlot.Empty => d = []
  | SideSlot.Live l => holds I k side d (Live.r l) /\ sized I (Live.accounted l)
  | SideSlot.Done _ _ _ => True
  end.
Definition flow_good (hd : sides) (f : StreamFlow.t R) : Prop :=
  forall side, slot_good side (hd side) (StreamFlow.side side f).

Definition hear (side : FlowSide) (d : list (option Z)) (hd : sides) : sides :=
  fun sd => if decide (sd = side) then hd sd ++ d else hd sd.

Lemma flow_good_new ports : flow_good (fun _ => []) (StreamFlow.new ports).
Proof. by intros []. Qed.
Lemma flow_good_ext hd hd' f : (forall sd, hd sd = hd' sd) -> flow_good hd f -> flow_good hd' f.
Proof. intros E Hf side. rewrite <- E. apply Hf. Qed.
Lemma flow_good_set hd side d v f : flow_good hd f -> slot_good side (hd side ++ d) v ->
  flow_good (hear side d hd) (StreamFlow.set_side side v f).
Proof.
  intros Hf Hv sd. rewrite side_set_side. unfold hear. case_decide as D; [by subst|apply Hf].
Qed.
Lemma flow_good_set_quiet hd side v f : flow_good hd f -> slot_good side (hd side) v ->
  flow_good hd (StreamFlow.set_side side v f).
Proof. intros Hf Hv sd. rewrite side_set_side. case_decide as D; [by subst|apply Hf]. Qed.
Lemma flow_good_origin hd side o f : flow_good hd f -> flow_good hd (StreamFlow.set_origin side o f).
Proof. intros Hf sd. rewrite side_set_origin. apply Hf. Qed.

(** ** Stages *)

(** The obligation for the packet's own segment. *)
Definition takes (side : FlowSide) p i : Prop :=
  forall t, allowed I k side (Segment (data_seq i) (stream_payload p i) t) /\
            allowed I k side (SegmentInto (data_seq i) (stream_payload p i) t).
Definition state_good (hd : sides) s : Prop :=
  factory_holds I (fd_factory s) /\ flow_good hd (fd_flow s).

Lemma call_side_good hd emit k0 side f s :
  (forall d r, holds I k side d r -> holds I k side d (f r)) ->
  state_good hd s -> state_good hd (call_side emit k0 side f s).
Proof.
  intros Hf [Hk Hs]. unfold call_side. destruct (StreamFlow.side side (fd_flow s)) eqn:E; try by split.
  cbn. split; [done|]. apply flow_good_set_quiet; [done|]. specialize (Hs side). rewrite E in Hs. destruct Hs as [Hr _].
  split; [by apply Hf|]. cbn. by eapply holds_size, Hf.
Qed.

Lemma note_origin_good hd p i s : state_good hd s -> state_good hd (note_origin p i s).
Proof. intros [Hk Hs]. unfold note_origin. case_if; split; try done. by apply flow_good_origin. Qed.
Lemma ack_peer_good hd cfg p i s : state_good hd s -> state_good hd (ack_peer cfg p i s).
Proof. intros Hs. unfold ack_peer. case_if; [|done]. apply call_side_good; eauto with stream. Qed.
Lemma bare_fin_good hd p i s : state_good hd s -> state_good hd (bare_fin p i s).
Proof. intros Hs. unfold bare_fin. case_match; [|done]. apply call_side_good; eauto with stream. Qed.

Lemma ensure_slot_good hd p s : PacketContext.key p = k ->
  state_good hd s -> state_good hd (ensure_slot p s).
Proof.
  intros Ek [Hk Hs]. unfold ensure_slot.
  destruct (StreamFlow.side _ (fd_flow s)) eqn:E; try by split.
  destruct (holds_new _ _ _ I (fd_factory s) (PacketContext.key p) (PacketContext.side p) Hk) as [Hk' Hr].
  destruct (new_reassembler _ _ _) as [f' r]. cbn in *. split; [done|].
  apply flow_good_set_quiet; [done|]. cbn. specialize (Hs (PacketContext.side p)). rewrite E in Hs.
  cbn in Hs. rewrite Hs. rewrite Ek in *. split; [|apply size_zero]. cbn. destruct (StreamFlow.origin _ _); [by apply holds_set_origin|done].
Qed.

Lemma tombstone_good side d (slot : SideSlot.t R) st : slot_good side d (tombstone slot st).1.
Proof. by destruct slot. Qed.

Lemma enforce_memcap_good hd cfg side s : state_good hd s -> state_good hd (enforce_memcap cfg side s).
Proof.
  intros [Hk Hs]. unfold enforce_memcap. destruct (TcpFeed.memcap_cap cfg); [|by split].
  case_if; [|by split]. unfold set_slot. destruct (TcpFeed.memcap_policy cfg); try by split.
  - set (slot := StreamFlow.side side _). pose proof (tombstone_good side (hd side) slot (Some Memcap)) as G1.
    destruct (tombstone slot _) as [v1 g1]. cbn in G1 |- *.
    set (f1 := StreamFlow.set_side side v1 _). set (slot2 := StreamFlow.side _ f1).
    pose proof (tombstone_good (opposite side) (hd (opposite side)) slot2 (Some Memcap)) as G2.
    destruct (tombstone slot2 _) as [v2 g2]. cbn. split; [done|].
    apply flow_good_set_quiet; [|done]. by apply flow_good_set_quiet.
  - set (slot := StreamFlow.side side _). pose proof (tombstone_good side (hd side) slot (Some Memcap)) as G1.
    destruct (tombstone slot _) as [v1 g1]. cbn in G1 |- *. split; [done|]. by apply flow_good_set_quiet.
Qed.

Lemma feed_segment_holds cfg p i side d r :
  takes side p i -> holds I k side d r ->
  holds I k side (d ++ let_through (stream_payload p i) (feed_segment cfg p i r).2)
    (feed_segment cfg p i r).1.
Proof.
  intros Hw Hr. unfold feed_segment. set (truncated := _ <? wire_of p i).
  destruct (TcpFeed.passthrough cfg && negb truncated).
  - pose proof (holds_segment_into I k side d r _ _ (PacketContext.ts p) (proj2 (Hw _)) Hr) as Hs.
    destruct (segment_into _ _ _ r) as [r' o]. cbn in *. case_match; [by apply holds_fin_seen|done].
  - cbn. rewrite app_nil_r. set (r1 := if is_nil _ then r else _).
    assert (holds I k side d r1) as G1 by (unfold r1; case_if; [done|apply holds_segment; [apply Hw|done]]).
    clearbody r1. set (r2 := if truncated then _ else r1).
    assert (holds I k side d r2) as G2.
    { unfold r2. destruct truncated eqn:E; [|done]. apply holds_missing; [|done].
      unfold truncated in E. zb. case_if; unfold U32_MAX; lia. }
    clearbody r2. case_match; [by apply holds_fin_seen|done].
Qed.

(** The cells a packet lets through. *)
Definition passed p i (pass : option Z) : list (option Z) :=
  match pass with Some k => data_cells (zdrop k (stream_payload p i)) | None => [] end.

Lemma feed_data_good hd cfg p i s :
  PacketContext.key p = k -> takes (PacketContext.side p) p i -> state_good hd s ->
  let '(s', pass) := feed_data cfg p i s in
  state_good (hear (PacketContext.side p) (passed p i pass) hd) s'.
Proof.
  intros Ek Hw Hs%(ensure_slot_good hd p); [|done]. unfold feed_data.
  set (side := PacketContext.side p) in *. set (s1 := ensure_slot p s) in *. clearbody s1.
  assert (forall s', state_good hd s' -> state_good (hear side [] hd) s') as Hquiet.
  { intros s' [? Hg]. split; [done|]. eapply flow_good_ext; [|done].
    intros sd. unfold hear. case_decide; by rewrite ?app_nil_r. }
  destruct Hs as [Hk Hf]. pose proof (Hf side) as Hl.
  destruct (StreamFlow.side side (fd_flow s1)) as [|l|] eqn:E; try (by apply Hquiet).
  destruct Hl as [Hl Hz]. cbn [resync]. set (l' := Live.mk (Live.r l) _). set (g := sat_add _ _).
  set (s2 := set_slot side (SideSlot.Live l') _).
  assert (state_good hd s2) as G2 by (split; [done|]; apply flow_good_set_quiet; [done|]; split; [done|by eapply holds_size]).
  case_if; [by apply Hquiet|].
  pose proof (feed_segment_holds cfg p i side (hd side) (Live.r l) Hw Hl) as Hr.
  change (Live.r l') with (Live.r l).
  destruct (feed_segment cfg p i (Live.r l)) as [r' o] eqn:Ef. cbn in Hr.
  set (s3 := call_side _ _ _ _ s2).
  assert (state_good (hear side (let_through (stream_payload p i) o) hd) s3) as G3.
  { unfold s3, call_side. unfold s2 at 1, set_slot. cbn. rewrite side_set_side, decide_True by done.
    cbn. rewrite Ef. cbn. destruct G2 as [? G2]. split; [done|]. apply flow_good_set; [done|].
    split; [done|by eapply holds_size]. }
  clearbody s3. apply (enforce_memcap_good _ cfg side) in G3. by destruct o.
Qed.

Lemma feed_flow_good hd cfg p i s :
  PacketContext.key p = k -> takes (PacketContext.side p) p i -> state_good hd s ->
  let '(s', pass) := feed_flow cfg p i s in
  state_good (hear (PacketContext.side p) (passed p i pass) hd) s'.
Proof.
  intros Ek Hw Hs. unfold feed_flow. apply (note_origin_good hd p i), (ack_peer_good hd cfg p i) in Hs.
  case_if; [|by apply feed_data_good].
  apply (bare_fin_good hd p i) in Hs. destruct Hs as [? Hg]. split; [done|].
  eapply flow_good_ext; [|done]. intros sd. unfold hear. case_decide; by rewrite ?app_nil_r.
Qed.

(** ** The pool

    [paid]: the pool is what the other flows contribute plus what this one
    does.  It stays exact when every contribution is bounded and their sum
    fits the counter. *)
Section pool.
Context (M B : Z) (Hsize : forall z, sized I z -> 0 <= z <= M) (HB : 0 <= B) (Hfit : B + 2 * M <= U64_MAX).
Definition paid s : Prop := fd_global s = B + held (fd_flow s).

Lemma slot_bound hd side f : flow_good hd f -> 0 <= held_slot (StreamFlow.side side f) <= M.
Proof.
  intros Hf. specialize (Hf side). pose proof (Hsize 0 (size_zero _ _ _ I)).
  destruct (StreamFlow.side side f) as [|l|]; cbn; [lia| |lia]. destruct Hf as [_ Hl]. by apply Hsize.
Qed.

(** Re-syncing, or emptying, one slot. *)
Lemma resync_exact hd side f g l r' : flow_good hd f -> StreamFlow.side side f = SideSlot.Live l ->
  g = B + held f -> sized I (current_bytes r') ->
  sat_add (sat_sub g (Live.accounted l)) (current_bytes r')
    = B + held (StreamFlow.set_side side (SideSlot.Live (Live.mk r' (current_bytes r'))) f).
Proof.
  intros Hf E -> Hr%Hsize. rewrite held_set_side, (held_sides side), E. cbn.
  pose proof (slot_bound hd (opposite side) f Hf). pose proof (slot_bound hd side f Hf) as Hl.
  rewrite E in Hl. cbn in Hl. unfold sat_add, sat_sub. lia.
Qed.

Lemma call_side_paid hd emit k0 side f s :
  (forall d r, holds I k side d r -> holds I k side d (f r)) ->
  state_good hd s -> paid s -> paid (call_side emit k0 side f s).
Proof.
  intros Hf [_ Hs] Hp. unfold call_side. destruct (StreamFlow.side side (fd_flow s)) as [|l|] eqn:E; try done.
  pose proof (Hs side) as Hl. rewrite E in Hl. destruct Hl as [Hl _].
  unfold paid, set_slot. cbn. eapply (resync_exact hd side _ _ l); [done|done|done|].
  by eapply holds_size, Hf.
Qed.

Lemma note_origin_paid p i s : paid s -> paid (note_origin p i s).
Proof. unfold paid, note_origin. case_if; [|done]. cbn. by rewrite held_set_origin. Qed.
Lemma ack_peer_paid hd cfg p i s : state_good hd s -> paid s -> paid (ack_peer cfg p i s).
Proof. intros Hs Hp. unfold ack_peer. case_if; [|done]. eapply call_side_paid; eauto with stream. Qed.
Lemma bare_fin_paid hd p i s : state_good hd s -> paid s -> paid (bare_fin p i s).
Proof. intros Hs Hp. unfold bare_fin. case_match; [|done]. eapply call_side_paid; eauto with stream. Qed.
Lemma ensure_slot_paid p s : paid s -> paid (ensure_slot p s).
Proof.
  unfold paid, ensure_slot. destruct (StreamFlow.side _ (fd_flow s)) eqn:E; try done.
  destruct (new_reassembler _ _ _). cbn. rewrite held_set_side, E. cbn. lia.
Qed.

(** Dropping a side refunds exactly its contribution. *)
Lemma tombstone_exact hd side f g st : flow_good hd f -> g = B + held f ->
  sat_sub g (tombstone (StreamFlow.side side f) st).2
    = B + held (StreamFlow.set_side side (tombstone (StreamFlow.side side f) st).1 f).
Proof.
  intros Hf ->. rewrite held_set_side, (held_sides side).
  pose proof (slot_bound hd (opposite side) f Hf). pose proof (slot_bound hd side f Hf) as Hl.
  unfold sat_sub. destruct (StreamFlow.side side f); cbn in *; lia.
Qed.

Lemma enforce_memcap_paid hd cfg side s : state_good hd s -> paid s -> paid (enforce_memcap cfg side s).
Proof.
  intros [_ Hs] Hp. unfold enforce_memcap. destruct (TcpFeed.memcap_cap cfg); [|done].
  case_if; [|done]. unfold set_slot. pose proof (tombstone_exact hd side _ _ (Some Memcap) Hs Hp) as E1.
  pose proof (tombstone_good side (hd side) (StreamFlow.side side (fd_flow s)) (Some Memcap)) as G1.
  destruct (TcpFeed.memcap_policy cfg); try done; unfold paid; unfold_upd; cbn;
    destruct (tombstone (StreamFlow.side side (fd_flow s)) (Some Memcap)) as [v1 g1]; cbn in *; [|done].
  pose proof (flow_good_set_quiet _ side v1 _ Hs G1) as Hs1.
  pose proof (tombstone_exact hd (opposite side) _ _ (Some Memcap) Hs1 E1) as E2.
  destruct (tombstone (StreamFlow.side (opposite side) _) (Some Memcap)) as [v2 g2]. exact E2.
Qed.

Lemma feed_data_paid hd cfg p i s :
  PacketContext.key p = k -> takes (PacketContext.side p) p i -> state_good hd s -> paid s ->
  paid (feed_data cfg p i s).1.
Proof.
  intros Ek Hw Hs Hp. pose proof (ensure_slot_good hd p s Ek Hs) as [Hk Hf].
  apply (ensure_slot_paid p) in Hp. unfold feed_data.
  set (side := PacketContext.side p) in *. set (s1 := ensure_slot p s) in *. clearbody s1. clear s Hs.
  pose proof (Hf side) as Hl. destruct (StreamFlow.side side (fd_flow s1)) as [|l|] eqn:E; try done.
  destruct Hl as [Hl Hz]. cbn [resync]. set (l' := Live.mk (Live.r l) _). set (g := sat_add _ _).
  set (s2 := set_slot side (SideSlot.Live l') _).
  assert (paid s2) as P2 by (unfold paid; cbn; eapply (resync_exact hd side _ _ l); eauto using holds_size).
  case_if; [done|]. destruct (feed_segment cfg p i (Live.r l')) as [r' o] eqn:Ef. cbn [fst].
  assert (StreamFlow.side side (fd_flow s2) = SideSlot.Live l') as E2
    by (unfold s2; cbn; by rewrite side_set_side, decide_True).
  assert (flow_good hd (fd_flow s2)) as F2
    by (apply flow_good_set_quiet; [done|]; split; [done|by eapply holds_size]).
  pose proof (feed_segment_holds cfg p i side (hd side) (Live.r l) Hw Hl) as Hr.
  change (Live.r l') with (Live.r l) in Ef. rewrite Ef in Hr. cbn in Hr.
  eapply (enforce_memcap_paid (hear side (let_through (stream_payload p i) o) hd)).
  - unfold call_side. rewrite E2. cbn. rewrite Ef. cbn. split; [done|].
    apply flow_good_set; [done|]. split; [done|by eapply holds_size].
  - unfold call_side. rewrite E2. unfold paid, set_slot. cbn. rewrite Ef. cbn.
    eapply (resync_exact hd side _ _ l'); [done|done|exact P2|by eapply holds_size].
Qed.

Lemma feed_flow_paid hd cfg p i s :
  PacketContext.key p = k -> takes (PacketContext.side p) p i -> state_good hd s -> paid s ->
  paid (feed_flow cfg p i s).1.
Proof.
  intros Ek Hw Hs Hp. unfold feed_flow.
  apply (note_origin_good hd p i) in Hs. apply (note_origin_paid p i) in Hp.
  apply (ack_peer_paid hd cfg p i _ Hs) in Hp. apply (ack_peer_good hd cfg p i) in Hs.
  case_if; [by eapply bare_fin_paid|by eapply feed_data_paid].
Qed.
End pool.

(** ** What is let through

    Only a complete, non-empty payload, and never more than it holds. *)
Lemma feed_flow_pass cfg p i s s' n :
  (forall q pl t (r r' : R) n, segment_into q pl t r = (r', Passthrough n) -> 0 <= n <= zlen pl) ->
  feed_flow cfg p i s = (s', Some n) ->
  is_rst i = false /\ PacketContext.tcp_payload p <> [] /\ 0 <= n <= zlen (PacketContext.tcp_payload p).
Proof.
  intros Hskip. unfold feed_flow. case_if; [done|]. unfold feed_data.
  destruct (StreamFlow.side _ _) as [|l|]; [done| |done]. cbn [resync]. case_if; [done|].
  cbn [Live.r]. unfold feed_segment. destruct (TcpFeed.passthrough cfg && negb _) eqn:Ep; [|done].
  apply andb_true_iff in Ep as [_ Ep]. zb.
  destruct (segment_into _ _ _ _) as [r' [|n']] eqn:Es; [done|]. intros [= _ <-].
  apply Hskip in Es. unfold wire_of, stream_payload in *.
  assert (is_rst i = false) as Er by (destruct (is_rst i); [lia|done]). rewrite Er in *.
  split; [done|]. split; [|done]. intros E. rewrite E, zlen_nil in *. lia.
Qed.
End feed.
