(* ===== verification/DriverSession.v ===== *)
(** * Sessions of a flow driver, and what its streams preserve
      (src/src/flow_driver.rs)

    [Call] is what an owner may do with a driver; [run] a session, with a
    record of what went in ([sent], every segment accepted, by flow and
    side) and what came out ([reported], the events, and [heard], the cells
    handed out for each live flow side: bytes let through, drained or
    released by a sweep).

    DriverFacts proves what sessions preserve, DriverEvents what they
    report. *)

From stdpp Require Import gmap.
From S2P Require Import Prelude Time Flow Config Cells Chunks Packet Event Lru Tracker Dedup Track Reassembler Factory StreamState StreamFacts FlowDriver.
Open Scope Z_scope.
Import FlowDriver.

Section session.
Context {K S C F R : Type} `{Countable K} `{!Lru K (FlowEntry.t S) C}.
Context `{Reassembler R} `{Diagnostics R} `{!ReassemblerFactory K F R}.
Variable extract : PacketView.t -> option (Extracted.t K).
Variable init : K -> S.
Variable hash_frame : list Z -> Z.
Variable order : gmap K (StreamFlow.t R) -> list (K * StreamFlow.t R).
Notation driver := (FlowDriver.t K C F R).
Notation events := (list (FlowEvent K)).
Notation ears := (K -> FlowSide -> list (option Z)).
Implicit Types (x : driver) (h : ears).
#[local] Existing Instance FlowDriver.eta.

Inductive Call :=
  | CTrackPending (view : PacketView.t) (want : PacketContext.t K -> bool)
  | CSweepPending (now : Timestamp.t) | CSweepPendingDrain (now : Timestamp.t)
  | CForceClosePending (k : K) (now : Timestamp.t) | CFinish
  | CFinalize
  | CDrain (k : K) (side : FlowSide) | CDiscardSide (k : K) (side : FlowSide)
  | CSetConfig (c : FlowTrackerConfig.t) | CPause | CResume
  | CSetEmit (b : bool) | CSetDedup (d : option Dedup.t) | CSetMonotonic (b : bool)
  | CSetPassthrough (b : bool) | CSetIdleTimeout (f : K -> option L4Proto -> option Z).

(** [pending]: the events returned since the last [finalize]. *)
Record Trace := mkTrace {
  driver_of : driver; pending : events; reported : events;
  sent : list (K * FlowSide * Z * list Z); heard : ears }.

Definition hear_at (k : K) (side : FlowSide) (d : list (option Z)) h : ears :=
  fun k' => if decide (k' = k) then hear side d (h k') else h k'.
Definition forget_at (k : K) h : ears := fun k' => if decide (k' = k) then fun _ => [] else h k'.
(** A flow without stream state has been given nothing. *)
Definition settle x h : ears :=
  fun k => if is_some (streams x !! k) then h k else fun _ => [].

Definition segment_of (view : PacketView.t) (p : PacketInfo.t K) : list (K * FlowSide * Z * list Z) :=
  match PacketInfo.tcp p with
  | Some i =>
      if is_rst i then []
      else [(PacketInfo.key p, PacketInfo.side p, data_seq i,
             FlowTracker.tcp_payload_of view (Some i))]
  | None => []
  end.
(** What the consumer hears of a packet: a new flow starts afresh; bytes
    let through are sliced from the frame. *)
Definition hear_packet (view : PacketView.t) (p : PacketInfo.t K) h : ears :=
  let h := if PacketInfo.is_new p then forget_at (PacketInfo.key p) h else h in
  match PacketInfo.passthrough_bytes (PacketView.frame view) p with
  | Some bs => hear_at (PacketInfo.key p) (PacketInfo.side p) (data_cells bs) h
  | None => h
  end.
Definition hear_released (out : list (K * FlowSide * StreamChunks.t)) h : ears :=
  fold_left (fun h o => hear_at o.1.1 o.1.2 (StreamChunks.content o.2) h) out h.

(** A call that returns events, keeps [sent] and may deliver. *)
Definition returned (T : Trace) x (evs : events) (sent' : list (K * FlowSide * Z * list Z)) h : Trace :=
  mkTrace x (pending T ++ evs) (reported T ++ evs) (sent T ++ sent') (settle x h).
Definition quiet (T : Trace) x : Trace := returned T x [] [] (heard T).

Definition step (c : Call) (T : Trace) : option Trace :=
  let x := driver_of T in
  match c with
  | CTrackPending view want =>
      match track_pending_with extract init hash_frame view want x with
      | Some (x', evs) =>
          Some match last_packet x' with
               | Some p => returned T x' evs (segment_of view p) (hear_packet view p (heard T))
               | None => returned T x' evs [] (heard T)
               end
      | None => None
      end
  | CSweepPending now =>
      let '(x', evs) := sweep_pending order now x in Some (returned T x' evs [] (heard T))
  | CSweepPendingDrain now =>
      let '(x', evs, out) := sweep_pending_drain order now x in
      Some (returned T x' evs [] (hear_released out (heard T)))
  | CForceClosePending k now =>
      let '(x', evs) := force_close_pending k now x in Some (returned T x' evs [] (heard T))
  | CFinish => let '(x', evs) := finish x in Some (returned T x' evs [] (heard T))
  | CFinalize =>
      let x' := finalize (pending T) x in
      Some (mkTrace x' [] (reported T) (sent T) (settle x' (heard T)))
  | CDrain k side =>
      let '(x', out, _) := drain_stream k side StreamChunks.new x in
      Some (returned T x' [] [] (hear_at k side (StreamChunks.content out) (heard T)))
  | CDiscardSide k side => Some (quiet T (discard_side k side x))
  | CSetConfig c => Some (quiet T (set_config c x))
  | CPause => Some (quiet T (pause_events x))
  | CResume => Some (quiet T (resume_events x))
  | CSetEmit b => Some (quiet T (set_emit_anomalies b x))
  | CSetDedup d => Some (quiet T (set_dedup d x))
  | CSetMonotonic b => Some (quiet T (set_monotonic_timestamps b x))
  | CSetPassthrough b => Some (quiet T (set_passthrough b x))
  | CSetIdleTimeout f => Some (quiet T (with_idle_timeout_fn f x))
  end.
Fixpoint run (cs : list Call) (T : Trace) : option Trace :=
  match cs with
  | [] => Some T
  | c :: cs => match step c T with Some T => run cs T | None => None end
  end.
Definition start x : Trace := mkTrace x [] [] [] (fun _ _ => []).

Lemma step_sent c T T' : step c T = Some T' -> exists more, sent T' = sent T ++ more.
Proof.
  destruct c; cbn [step]; repeat case_match; intros [= <-]; cbn; eauto; exists []; by rewrite app_nil_r.
Qed.
Lemma run_sent cs : forall T T', run cs T = Some T' -> exists more, sent T' = sent T ++ more.
Proof.
  induction cs as [|c cs IH]; intros T T'; cbn; [intros [= <-]; exists []; by rewrite app_nil_r|].
  destruct (step c T) as [T1|] eqn:E; [|done]. intros E'.
  destruct (step_sent _ _ _ E) as [m1 E1]. destruct (IH _ _ E') as [m2 E2].
  exists (m1 ++ m2). by rewrite E2, E1, app_assoc.
Qed.
End session.
#[global] Arguments Trace K C F R {_ _}.
#[global] Arguments Call : clear implicits.
