(* ===== verification/DriverFacts.v ===== *)
(** * What a driver preserves of its streams (src/src/flow_driver.rs)

    [inv n h x]: at most [n] flows have stream state, every reassembler
    satisfies the chosen property ([SideInv]) for the cells [h] its consumer
    was given, and the pool is exactly the sum of the contributions.  One
    lemma per operation; [session_inv] is the session. *)

From stdpp Require Import gmap.
From S2P Require Import Prelude Time Flow Config Cells Chunks Packet Event Lru Tracker Dedup Track Reassembler Factory StreamState StreamFacts FlowDriver DriverSession.
Open Scope Z_scope.
Import FlowDriver.

(** ** The sum of the contributions *)
Section total.
Context {K R : Type} `{Countable K}.
Implicit Types (m : gmap K (StreamFlow.t R)).
Definition add_held (_ : K) (f : StreamFlow.t R) (acc : Z) : Z := held f + acc.
Definition total m : Z := map_fold add_held 0 m.

Lemma total_empty : total ∅ = 0.
Proof. apply map_fold_empty. Qed.
Lemma total_insert_new k f m : m !! k = None -> total (<[k := f]> m) = held f + total m.
Proof. intros E. unfold total. rewrite (map_fold_insert_L (M:=gmap K)); [done| |done]. unfold add_held. intros. lia. Qed.
Lemma total_delete k f m : m !! k = Some f -> total m = held f + total (delete k m).
Proof. intros E. unfold total. rewrite (map_fold_delete_L (M:=gmap K) _ _ k f); [done| |done]. unfold add_held. intros. lia. Qed.
Lemma total_insert k f f' m : m !! k = Some f -> total (<[k := f']> m) = total m - held f + held f'.
Proof.
  intros E. rewrite (total_delete k f m E), <- (insert_delete_eq m k f').
  rewrite total_insert_new by apply lookup_delete_eq. lia.
Qed.
Lemma total_bound M m : 0 <= M -> (forall k f, m !! k = Some f -> 0 <= held f <= M) ->
  0 <= total m <= M * Z.of_nat (size m).
Proof.
  intros HM. induction m as [|k f m Hk IH] using map_ind; intros Hm; [rewrite total_empty, map_size_empty; lia|].
  rewrite total_insert_new, map_size_insert_None by done.
  specialize (Hm k f) as Hf. rewrite lookup_insert_eq in Hf. specialize (Hf eq_refl).
  assert (0 <= total m <= M * Z.of_nat (size m)); [|lia].
  apply IH. intros k' f' E'. apply (Hm k'). rewrite lookup_insert_ne; [done|]. by intros ->; rewrite Hk in E'.
Qed.

(** The same sum over a list. *)
Definition sum_held (l : list (K * StreamFlow.t R)) : Z := foldr (fun kf acc => held kf.2 + acc) 0 l.
Lemma sum_held_perm l l' : l ≡ₚ l' -> sum_held l = sum_held l'.
Proof. unfold sum_held. induction 1; cbn; lia. Qed.
Lemma total_sum m : total m = sum_held (map_to_list m).
Proof.
  unfold total. rewrite map_fold_foldr. unfold sum_held.
  induction (map_to_list m) as [|[k f] l IH]; cbn -[Z.add]; [done|]. cbn in IH. by rewrite <- IH.
Qed.
Lemma sum_held_nonneg l : (forall k f, (k, f) ∈ l -> 0 <= held f) -> 0 <= sum_held l.
Proof.
  unfold sum_held. induction l as [|[k f] l IH]; intros Hl; cbn -[Z.add]; [done|].
  specialize (Hl k f) as Hf. assert (0 <= held f) by (apply Hf; left).
  specialize (IH ltac:(intros k' f' E; apply (Hl k'); by right)). cbn in *. lia.
Qed.
Lemma to_list_filter (P : K * StreamFlow.t R -> Prop) `{forall kf, Decision (P kf)} m :
  map_to_list (filter P m) ≡ₚ filter P (map_to_list m).
Proof.
  apply NoDup_Permutation; [apply NoDup_map_to_list|apply NoDup_filter, NoDup_map_to_list|].
  intros [k f]. rewrite elem_of_map_to_list, map_lookup_filter_Some, list_elem_of_filter, elem_of_map_to_list. tauto.
Qed.
End total.

Section facts.
Context {K S C F R : Type} `{Countable K} `{!Lru K (FlowEntry.t S) C}.
Context `{Reassembler R} `{Diagnostics R} `{!ReassemblerFactory K F R}.
Context (I : SideInv K F R).
Notation driver := (FlowDriver.t K C F R).
Notation events := (list (FlowEvent K)).
Notation ears := (K -> FlowSide -> list (option Z)).
Implicit Types (x : driver) (h : ears) (k : K).
#[local] Existing Instance FlowDriver.eta.
#[local] Existing Instance feeding_eta.

(** The pool is claimed exact when the contributions of [N] flows fit the
    counter. *)
Context (exact : Prop) (N : Z).
Hypothesis exact_fits : exact ->
  exists M, (forall z, sized I z -> 0 <= z <= M) /\ 2 * M * N <= U64_MAX.

Definition streams_good h x : Prop :=
  factory_holds I (factory x) /\
  forall k f, streams x !! k = Some f -> flow_good I k (h k) f.
Definition n_streams x : Z := Z.of_nat (base.size (streams x)).
Record inv (n : Z) h x : Prop := {
  inv_good : streams_good h x;
  inv_size : n_streams x <= n;
  inv_pool : exact -> global_memcap_bytes x = total (streams x) }.
Definition clean h x : Prop := forall k, streams x !! k = None -> forall side, h k side = [].

Lemma inv_same n h x x' : factory x' = factory x -> streams x' = streams x ->
  global_memcap_bytes x' = global_memcap_bytes x -> inv n h x -> inv n h x'.
Proof.
  intros E1 E2 E3 [[G1 G2] G3 G4]. split; unfold streams_good, n_streams; rewrite ?E1, ?E2, ?E3; by try split.
Qed.
Lemma inv_hears n h h' x : (forall k, is_some (streams x !! k) = true -> forall side, h' k side = h k side) ->
  inv n h x -> inv n h' x.
Proof.
  intros E [[G1 G2] G3 G4]. split; try done. split; [done|]. intros k f Ek.
  eapply flow_good_ext; [|by apply G2]. intros sd. symmetry. apply E. by rewrite Ek.
Qed.
Lemma inv_settle n h x : inv n h x -> inv n (settle x h) x.
Proof. apply inv_hears. intros k E side. unfold settle. by rewrite E. Qed.
Lemma settle_clean h x : clean (settle x h) x.
Proof. intros k E side. unfold settle. by rewrite E. Qed.
Lemma inv_more n n' h x : n <= n' -> inv n h x -> inv n' h x.
Proof. intros Hn [G1 G2 G3]. split; [done|lia|done]. Qed.

Lemma held_bound M hk k (f : StreamFlow.t R) : (forall z, sized I z -> 0 <= z <= M) ->
  flow_good I k hk f -> 0 <= held f <= 2 * M.
Proof.
  intros HM Hf. rewrite (held_sides Initiator).
  pose proof (slot_bound I k M HM hk Initiator f Hf). pose proof (slot_bound I k M HM hk (opposite Initiator) f Hf). lia.
Qed.
(** What the other flows contribute leaves room for one more. *)
Definition with_flow (n : Z) k x : Z := match streams x !! k with Some _ => n | None => n + 1 end.
Lemma others_fit n h k x : inv n h x -> with_flow n k x <= N -> exact ->
  exists M, (forall z, sized I z -> 0 <= z <= M) /\
    0 <= total (delete k (streams x)) /\ total (delete k (streams x)) + 2 * M <= U64_MAX.
Proof.
  intros [[_ Hg] Hs _] Hn He. destruct (exact_fits He) as (M & HM & HN). exists M. split; [done|].
  pose proof (HM 0 (size_zero _ _ _ I)) as H0M.
  assert (0 <= total (delete k (streams x)) <= 2 * M * Z.of_nat (base.size (delete k (streams x)))) as Hb.
  { apply total_bound; [lia|]. intros k' f E. apply lookup_delete_Some in E as [_ E].
    by apply (held_bound M (h k') k'), Hg. }
  unfold with_flow, n_streams in *. rewrite map_size_delete in Hb.
  destruct (streams x !! k) as [f|] eqn:E; cbn in Hb; [|nia].
  assert (base.size (streams x) <> 0%nat); [|nia]. intros E0%map_size_empty_inv. by rewrite E0 in E.
Qed.
Lemma total_split k x : total (streams x) =
  total (delete k (streams x)) + match streams x !! k with Some f => held f | None => 0 end.
Proof.
  destruct (streams x !! k) eqn:E; [rewrite (total_delete _ _ _ E); lia|]. by rewrite delete_id, Z.add_0_r.
Qed.

(** *** Replacing the stream state of a flow *)
Definition put k (f : StreamFlow.t R) (g : Z) (fa : F) x : driver :=
  x <| factory := fa |> <| streams ::= insert k f |> <| global_memcap_bytes := g |>.

Lemma put_inv n h hk k f g fa x : inv n h x -> factory_holds I fa -> flow_good I k hk f ->
  (exact -> g = total (delete k (streams x)) + held f) ->
  inv (with_flow n k x)
    (fun k' => if decide (k' = k) then hk else h k') (put k f g fa x).
Proof.
  intros [[Hf Hg] Hs Hp] Hfa Hk Hex. split.
  - split; [done|]. intros k' f'. cbn. case_decide as D.
    + subst. rewrite lookup_insert_eq. by intros [= <-].
    + rewrite lookup_insert_ne by done. apply Hg.
  - unfold with_flow, n_streams in *. cbn. rewrite map_size_insert. destruct (streams x !! k); cbn; lia.
  - intros He. cbn. rewrite (Hex He), <- insert_delete_eq, total_insert_new by apply lookup_delete_eq. lia.
Qed.

(** *** Dropping one *)
Lemma refund_exact hk k f B : exact -> flow_good I k hk f -> 0 <= B -> refund f (B + held f) = B.
Proof.
  intros He Hf HB. destruct (exact_fits He) as (M & HM & _).
  pose proof (slot_bound I k M HM hk Initiator f Hf) as G1. pose proof (slot_bound I k M HM hk Responder f Hf) as G2.
  cbn in G1, G2. unfold refund, refund_slot, held, sat_sub.
  destruct (StreamFlow.initiator f), (StreamFlow.responder f); cbn in *; lia.
Qed.

Lemma drop_flow_inv n h k x : inv n h x -> inv n h (drop_flow k x).
Proof.
  intros Hi. pose proof Hi as [[Hf Hg] Hs Hp]. unfold drop_flow.
  destruct (streams x !! k) as [f|] eqn:E; [|done]. split.
  - split; [done|]. intros k' f'. cbn. intros [_ E']%lookup_delete_Some. by apply Hg.
  - unfold n_streams in *. cbn. rewrite map_size_delete, E. cbn. lia.
  - intros He. cbn. rewrite (Hp He), (total_split k x), E.
    apply (refund_exact (h k) k); [done|by apply Hg|].
    destruct (exact_fits He) as (M & HM & _). pose proof (HM 0 (size_zero _ _ _ I)).
    apply (total_bound (2 * M)); [lia|].
    intros k' f' E'. apply lookup_delete_Some in E' as [_ E']. by apply (held_bound M (h k') k'), Hg.
Qed.
Lemma finalize_inv n h evs : forall x, inv n h x -> inv n h (finalize evs x).
Proof.
  induction evs as [|ev evs IH]; intros x Hx; cbn; [done|]. destruct ev; try by apply IH.
  by apply IH, drop_flow_inv.
Qed.

(** A flow that is there already, whose consumer hears [d]. *)
Lemma put_known n h k f f' g d side x : inv n h x -> streams x !! k = Some f ->
  flow_good I k (hear side d (h k)) f' ->
  (exact -> g = total (delete k (streams x)) + held f') ->
  inv n (hear_at k side d h) (put k f' g (factory x) x).
Proof.
  intros Hi E Hf Hg. pose proof (put_inv n h (hear side d (h k)) k f' g (factory x) x Hi) as Hp.
  unfold with_flow in Hp. rewrite E in Hp. eapply inv_hears; [|apply Hp; [apply Hi|done|done]].
  intros k' _ sd. unfold hear_at. case_decide; by subst.
Qed.
Lemma flow_good_quiet k side hk (f : StreamFlow.t R) : flow_good I k hk f -> flow_good I k (hear side [] hk) f.
Proof. apply flow_good_ext. intros sd. unfold hear. case_decide; by rewrite ?app_nil_r. Qed.
Lemma inv_heard_nothing n h k side x : inv n (hear_at k side [] h) x -> inv n h x.
Proof.
  apply inv_hears. intros k' _ sd. unfold hear_at, hear. by repeat case_decide; rewrite ?app_nil_r.
Qed.
Lemma inv_hear_nothing n h k side x : inv n h x -> inv n (hear_at k side [] h) x.
Proof.
  apply inv_hears. intros k' _ sd. unfold hear_at, hear. by repeat case_decide; rewrite ?app_nil_r.
Qed.

(** *** Re-syncing one side of a known flow *)
Lemma resync_known n h k side d (f : StreamFlow.t R) l r' x : n <= N -> inv n h x ->
  streams x !! k = Some f -> StreamFlow.side side f = SideSlot.Live l ->
  holds I k side (h k side ++ d) r' ->
  let c := current_bytes r' in
  inv n (hear_at k side d h)
    (put k (StreamFlow.set_side side (SideSlot.Live (Live.mk r' c)) f)
       (sat_add (sat_sub (global_memcap_bytes x) (Live.accounted l)) c) (factory x) x).
Proof.
  intros Hn Hi E El Hr c. assert (flow_good I k (h k) f) as Hf by by apply Hi.
  pose proof (holds_size _ _ _ I _ _ _ _ Hr) as Hc.
  apply (put_known n h k f); [done|done| |].
  - by apply flow_good_set.
  - intros He. rewrite (inv_pool _ _ _ Hi He), (total_split k x), E.
    destruct (others_fit n h k x Hi) as (M & HM & HB & Hfit); [unfold with_flow; by rewrite E|done|].
    by eapply (resync_exact I k M _ HM HB Hfit (h k)).
Qed.

Lemma drain_stream_inv n h k side x : n <= N -> inv n h x ->
  let '(x', out, _) := drain_stream k side StreamChunks.new x in
  inv n (hear_at k side (StreamChunks.content out) h) x'.
Proof.
  intros Hn Hi. unfold drain_stream.
  assert (inv n (hear_at k side (StreamChunks.content StreamChunks.new) h) x) as Hsame by by apply inv_hear_nothing.
  destruct (streams x !! k) as [f|] eqn:E; [|done].
  assert (flow_good I k (h k) f) as Hf by by apply Hi. pose proof (Hf side) as Hl.
  destruct (StreamFlow.side side f) as [|l|st sp rep] eqn:El; [done| |].
  - destruct Hl as [Hl _]. apply holds_drain in Hl.
    destruct (drain_into (Live.r l) StreamChunks.new) as [r' out]. cbn in *.
    by apply (resync_known n h k side _ f l r' x).
  - destruct rep; [done|]. set (out := match sp with Some _ => _ | None => _ end).
    assert (StreamChunks.content out = []) as -> by by destruct sp.
    eapply (inv_same _ _ (put k _ (global_memcap_bytes x) (factory x) x)); [done..|].
    apply (put_known n h k f); [done|done| |].
    + by apply flow_good_set.
    + intros He. rewrite held_set_side, El. cbn.
      rewrite (inv_pool _ _ _ Hi He), (total_split k x), E. lia.
Qed.

Lemma discard_side_inv n h k side x : with_flow n k x <= N -> inv n h x -> clean h x ->
  inv (with_flow n k x) h (discard_side k side x).
Proof.
  intros Hn Hi Hc. set (f := match streams x !! k with Some f => f | None => StreamFlow.new None end).
  assert (flow_good I k (h k) f) as Hf.
  { unfold f. destruct (streams x !! k) eqn:E; [by apply Hi|].
    eapply flow_good_ext; [|apply flow_good_new]. intros sd. symmetry. by apply Hc. }
  assert (total (streams x) = total (delete k (streams x)) + held f) as Ht.
  { rewrite (total_split k x). unfold f. by destruct (streams x !! k). }
  set (r := match StreamFlow.side side f with SideSlot.Done _ _ _ => (StreamFlow.side side f, 0)
            | _ => tombstone (StreamFlow.side side f) None end).
  set (f' := StreamFlow.set_side side (mark_reported r.1) f).
  assert (discard_side k side x = put k f' (sat_sub (global_memcap_bytes x) r.2) (factory x) x) as ->.
  { unfold discard_side. fold f. fold r. destruct r. done. }
  assert (is_done : match r.1 with SideSlot.Done _ _ _ => True | _ => False end)
    by (unfold r; by destruct (StreamFlow.side side f)).
  eapply inv_hears; [|apply (put_inv n h (h k)); [done|apply Hi| |]].
  - intros k' _ sd. cbn. case_decide; by subst.
  - apply flow_good_set_quiet; [done|]. by destruct r as [[] ?].
  - intros He. destruct (others_fit n h k x Hi Hn He) as (M & HM & HB & _).
    rewrite (inv_pool _ _ _ Hi He), Ht. unfold f'. rewrite held_set_side, (held_sides side f).
    pose proof (slot_bound I k M HM (h k) side f Hf). pose proof (slot_bound I k M HM (h k) (opposite side) f Hf).
    assert (held_slot (mark_reported r.1) = 0) as -> by by destruct r as [[] ?].
    assert (r.2 = held_slot (StreamFlow.side side f)) as -> by (unfold r; by destruct (StreamFlow.side side f)).
    unfold sat_sub. lia.
Qed.

(** *** A packet *)
Lemma feed_tcp_inv n h cfg want p i x : let k := PacketContext.key p in
  with_flow n k x <= N -> inv n h x -> (streams x !! k = None -> forall side, h k side = []) ->
  takes I k (PacketContext.side p) p i ->
  let '(x', _, _, pass) := feed_tcp cfg want p i x in
  inv (with_flow n k x) (hear_at k (PacketContext.side p) (passed p i pass) h) x'.
Proof.
  intros k Hn Hi Hc Hw. unfold feed_tcp. fold k.
  assert (n <= with_flow n k x) as Hle by (unfold with_flow; case_match; lia).
  set (flow := match streams x !! k with Some f => Some f | None => _ end).
  destruct flow as [f|] eqn:Ef.
  2: { apply inv_hear_nothing. by eapply inv_more. }
  assert (flow_good I k (h k) f) as Hf.
  { unfold flow in Ef. destruct (streams x !! k) eqn:E; [by apply Hi; simplify_eq|].
    destruct (_ || _); simplify_eq. eapply flow_good_ext; [|apply flow_good_new]. intros sd. symmetry. by apply Hc. }
  set (s := feeding (factory x) f (global_memcap_bytes x) None []).
  pose proof (feed_flow_good I k (h k) cfg p i s eq_refl Hw) as Hg.
  assert (state_good I k (h k) s) as Hs by (split; [apply Hi|done]). specialize (Hg Hs).
  pose proof (fun M B H1 H2 H3 => feed_flow_paid I k M B H1 H2 H3 (h k) cfg p i s eq_refl Hw Hs) as Hpaid.
  destruct (feed_flow cfg p i s) as [s' pass]. destruct Hg as [Hfa Hg]. cbn [fst] in Hpaid.
  eapply inv_same; [..|eapply inv_hears; [|apply (put_inv n h _ k (fd_flow s') (fd_global s') (fd_factory s') x Hi Hfa Hg)]];
    [done..| |].
  - intros k' _ sd. unfold hear_at. case_decide; by subst.
  - intros He. destruct (others_fit n h k x Hi Hn He) as (M & HM & HB & Hfit).
    apply (Hpaid M _ HM HB Hfit). unfold paid. cbn. rewrite (inv_pool _ _ _ Hi He), (total_split k x).
    unfold flow in Ef. destruct (streams x !! k); simplify_eq; [done|]. case_match; by simplify_eq.
Qed.

(** *** What the consumer slices from the frame *)
Variable extract : PacketView.t -> option (Extracted.t K).
Variable init : K -> S.
Variable hash_frame : list Z -> Z.
(** An offset is a [usize]. *)
Hypothesis extract_usize : forall view e i,
  extract view = Some e -> Extracted.tcp e = Some i -> 0 <= TcpInfo.payload_offset i.
Hypothesis skips : forall s p t (r r' : R) n, segment_into s p t r = (r', Passthrough n) -> 0 <= n <= zlen p.

Lemma track_with_context view tr tr' evs p :
  FlowTracker.track_with extract init view tr = Some (tr', evs, Some p) ->
  PacketContext.tcp_payload p = FlowTracker.tcp_payload_of view (PacketContext.tcp p) /\
  (forall i, PacketContext.tcp p = Some i -> 0 <= TcpInfo.payload_offset i).
Proof.
  unfold FlowTracker.track_with. destruct (FlowTracker.admit_packet extract view) as [e|] eqn:Ea; [|done].
  cbv zeta. destruct (if negb _ && negb _ then _ else _) as [tr1 evs1].
  destruct (peek _ _) as [en|]; [|done].
  destruct (FlowTracker.update_entry _ _ _ _ _) as [en' t]. destruct (FlowTracker.close_or_keep _ _) as [tr2 e2].
  destruct (FlowTracker.auto_sweep _ _) as [tr3 e3]. intros [= _ _ <-]. cbn. split; [done|].
  intros i Ei. unfold FlowTracker.admit_packet in Ea. destruct (extract view) as [e0|] eqn:Ex; [|done].
  revert Ea. case_if; [|case_if; [done|]]; intros Ea; simplify_eq; [|by eapply extract_usize].
  destruct (Extracted.tcp e0) as [i0|] eqn:E0; [|unfold_upd; cbn in Ei; by rewrite E0 in Ei].
  unfold_upd. cbn in Ei. rewrite E0 in Ei. cbn in Ei. simplify_eq. cbn. by eapply extract_usize.
Qed.

Lemma zslice_zdrop {A} a b n (l : list A) : 0 <= a -> 0 <= n -> a + n <= b ->
  zslice (a + n) b l = zdrop n (zslice a b l).
Proof.
  intros Ha Hn Hb. unfold zslice, ztake, zdrop.
  replace (Z.to_nat (a + n)) with (Z.to_nat a + Z.to_nat n)%nat by lia.
  rewrite <- drop_drop, take_drop_commute. do 2 f_equal. lia.
Qed.

Lemma passthrough_payload view i n :
  zlen (PacketView.frame view) <= U64_MAX -> 0 <= TcpInfo.payload_offset i ->
  let payload := FlowTracker.tcp_payload_of view (Some i) in
  payload <> [] -> 0 <= n <= zlen payload ->
  forall (p : PacketInfo.t K), PacketInfo.tcp p = Some i -> PacketInfo.passthrough p = Some n ->
  PacketInfo.passthrough_bytes (PacketView.frame view) p = Some (zdrop n payload).
Proof.
  intros Hfr Ho. cbv zeta. unfold FlowTracker.tcp_payload_of. case_if; [|done]. unfold get_range. case_if; [|done]. cbn. intros _ Hn p Et Ep.
    unfold PacketInfo.passthrough_bytes. rewrite Et, Ep. unfold PacketInfo.checked_add.
  assert (zlen (zslice (TcpInfo.payload_offset i) (TcpInfo.payload_offset i + TcpInfo.payload_len i)
            (PacketView.frame view)) <= TcpInfo.payload_len i) as Hl.
  { unfold zslice. rewrite zlen_ztake. zlen_facts. lia. }
  rewrite !(proj2 (Z.leb_le _ _)) by lia. unfold get_range.
  rewrite (proj2 (andb_true_iff _ _)) by (split; apply Z.leb_le; lia).
  f_equal. apply zslice_zdrop; lia.
Qed.

(** *** The packet path

    The obligations of a packet, as [sent] records them. *)
Definition sent_ok (l : list (K * FlowSide * Z * list Z)) : Prop :=
  forall k side q pl, (k, side, q, pl) ∈ l -> forall t,
    allowed I k side (Segment q pl t) /\ allowed I k side (SegmentInto q pl t).
Lemma allowed_empty_takes p i side : is_rst i = true ->
  (forall k q t, allowed I k side (Segment q [] t) /\ allowed I k side (SegmentInto q [] t)) ->
  takes I (PacketContext.key p) side p i.
Proof. intros Er Ha t. unfold stream_payload. rewrite Er. apply Ha. Qed.
(** An RST's text never reaches the reassembler. *)
Hypothesis allowed_nothing : forall k side q t,
  allowed I k side (Segment q [] t) /\ allowed I k side (SegmentInto q [] t).

Definition forget_new (p : PacketContext.t K) h : ears :=
  if PacketContext.is_new p then forget_at (PacketContext.key p) h else h.

Lemma on_packet_inv n h want view p x :
  zlen (PacketView.frame view) <= U64_MAX -> n + 1 <= N -> inv n h x -> clean h x ->
  PacketContext.tcp_payload p = FlowTracker.tcp_payload_of view (PacketContext.tcp p) ->
  (forall i, PacketContext.tcp p = Some i -> 0 <= TcpInfo.payload_offset i) ->
  let '(x', _, _) := on_packet want p x in
  exists info, last_packet x' = Some info /\ (sent_ok (segment_of view info) ->
    inv (n + 1) (hear_packet view info h) x') /\ tracker x' = tracker x.
Proof.
  intros Hfr Hn Hi Hc Hpl Hoff. unfold on_packet. set (k := PacketContext.key p).
  set (cfg := TcpFeed.mk _ _ _ _). set (x1 := if PacketContext.is_new p then drop_flow k x else x).
  assert (inv n (forget_new p h) x1 /\ (streams x1 !! k = None -> forall side, forget_new p h k side = [])
    /\ tracker x1 = tracker x) as (Hi1 & Hc1 & Ht1).
  { unfold x1, forget_new. fold k. destruct (PacketContext.is_new p); [|split_and!; [done|apply Hc|done]].
    split_and!.
    - eapply inv_hears; [|by apply drop_flow_inv]. intros k' E sd. unfold forget_at. case_decide; [|done]. subst.
      unfold drop_flow in E. destruct (streams x !! k) eqn:Ek; cbn in E; [|by rewrite Ek in E].
      by rewrite lookup_delete_eq in E.
    - intros _ side. unfold forget_at. by rewrite decide_True.
    - unfold drop_flow. by case_match. }
  clearbody x1. destruct (PacketContext.tcp p) as [i|] eqn:Ei.
  2: { eexists. split; [done|]. split; [|done]. intros _. unfold hear_packet. cbn.
       apply (inv_same _ _ x1); [done..|]. apply (inv_more n); [lia|done]. }
  pose proof (feed_tcp_inv n (forget_new p h) cfg want p i x1) as Hfeed. cbv zeta in Hfeed. fold k in Hfeed.
  destruct (feed_tcp cfg want p i x1) as [[[x2 trip] an] pass] eqn:Ef.
  eexists. split; [done|]. split.
  2: { unfold feed_tcp in Ef. repeat case_match; by simplify_eq. }
  intros Hsent. assert (with_flow n k x1 <= n + 1) as Hle by (unfold with_flow; case_match; lia).
  assert (takes I k (PacketContext.side p) p i) as Hw.
  { destruct (is_rst i) eqn:Er; [by apply allowed_empty_takes|]. intros t. unfold stream_payload. rewrite Er, Hpl.
    apply (Hsent k (PacketContext.side p)). unfold segment_of. cbn. rewrite Er. by apply list_elem_of_singleton. }
  specialize (Hfeed ltac:(lia) Hi1 Hc1 Hw). apply (inv_same _ _ x2); [done..|].
  apply (inv_more (with_flow n k x1)); [done|]. eapply inv_hears; [|exact Hfeed].
  intros k' _ sd. unfold hear_packet. cbn. fold k. fold (forget_new p h).
  destruct pass as [m|]; [|unfold hear_at, hear; by repeat case_decide; rewrite ?app_nil_r].
  assert (is_rst i = false /\ PacketContext.tcp_payload p <> [] /\ 0 <= m <= zlen (PacketContext.tcp_payload p))
    as (Er & Hne & Hm).
  { unfold feed_tcp in Ef. case_match; [|done]. destruct (feed_flow _ _ _ _) as [s' ps] eqn:Eff.
    simplify_eq. by eapply feed_flow_pass. }
  rewrite Hpl in Hne, Hm.
  rewrite (passthrough_payload view i m Hfr (Hoff i eq_refl) Hne Hm) by done.
  unfold passed, stream_payload. by rewrite Er, Hpl.
Qed.

Lemma note_gone_inv n h evs x : inv n h x -> inv n h (note_gone evs x).
Proof. by apply inv_same. Qed.
Lemma tick_all_same l now : forall x, let x' := (tick_all l now x).1 in
  factory x' = factory x /\ streams x' = streams x /\ global_memcap_bytes x' = global_memcap_bytes x /\
  last_packet x' = last_packet x.
Proof.
  induction l as [|[k st] l IH]; intros x; cbn; [done|]. specialize (IH (x <| tracker ::= fun tr => (FlowTracker.mark_ticked k now tr).1 |>)).
  destruct (tick_all l now _) as [x' evs]. exact IH.
Qed.
Lemma emit_ticks_same now i x : let x' := (emit_ticks now i x).1 in
  factory x' = factory x /\ streams x' = streams x /\ global_memcap_bytes x' = global_memcap_bytes x /\
  last_packet x' = last_packet x.
Proof.
  unfold emit_ticks. case_if; [done|]. cbv zeta. set (x1 := x <| last_tick_scan := Some now |>). set (l := _ <$> _).
  exact (tick_all_same l now x1).
Qed.

(** A packet that was not accepted is heard by nobody. *)
Definition heard_of view h (p : option (PacketInfo.t K)) : ears :=
  match p with Some p => hear_packet view p h | None => h end.
Definition sent_of view (p : option (PacketInfo.t K)) : list (K * FlowSide * Z * list Z) :=
  match p with Some p => segment_of view p | None => [] end.

Lemma track_view_inv n h want view x x' evs :
  zlen (PacketView.frame view) <= U64_MAX -> n + 1 <= N -> inv n h x -> clean h x -> last_packet x = None ->
  track_view extract init view want x = Some (x', evs) -> sent_ok (sent_of view (last_packet x')) ->
  inv (n + 1) (heard_of view h (last_packet x')) x'.
Proof.
  intros Hfr Hn Hi Hc Hl. unfold track_view. cbv zeta.
  destruct (FlowTracker.track_with _ _ _ _) as [[[tr evs0] ctx]|] eqn:Et; [|done].
  set (x0 := x <| max_ts ::= fun m => Timestamp.max m (PacketView.timestamp view) |>).
  set (x1 := x0 <| tracker := tr |>).
  assert (inv n h x1 /\ clean h x1) as [Hi1 Hc1] by (split; [by apply (inv_same _ _ x)|done]).
  set (y := match ctx with Some p => _ | None => _ end).
  assert (sent_ok (sent_of view (last_packet y.1.1)) -> inv (n + 1) (heard_of view h (last_packet y.1.1)) y.1.1) as Hy.
  { unfold y in *. destruct ctx as [p|].
    - destruct (track_with_context _ _ _ _ _ Et) as [Hpl Hoff].
      pose proof (on_packet_inv n h want view p x1 Hfr Hn Hi1 Hc1 Hpl Hoff) as Ho.
      destruct (on_packet want p x1) as [[x2 trip] an]. destruct Ho as (info & El & Ho & _). cbn. by rewrite El.
    - intros _. unfold x1. cbn. rewrite Hl. apply (inv_more n); [lia|done]. }
  clearbody y. destruct y as [[x2 trip] an]. cbn [fst] in Hy.
  destruct (FlowTrackerConfig.flow_tick_interval _) as [iv|].
  - case_if.
    + pose proof (emit_ticks_same (PacketView.timestamp view) iv (note_gone (place (PacketInfo.key <$> last_packet x2)
        (extra_events (PacketView.timestamp view) (FlowTrackerStats.flows_evicted (FlowTracker.stats (tracker x0))) trip an x2) evs0) x2)) as Hs.
      destruct (emit_ticks _ _ _) as [x3 tk]. intros [= <- _] Hsent. destruct Hs as (E1 & E2 & E3 & E4).
      cbn in E1, E2, E3, E4. rewrite E4 in *. apply (inv_same _ _ x2); [done..|]. by apply Hy.
    + intros [= <- _] Hsent. apply (inv_same _ _ x2); [done..|]. by apply Hy.
  - intros [= <- _] Hsent. apply (inv_same _ _ x2); [done..|]. by apply Hy.
Qed.

Lemma track_raw_inv n h want view x x' evs :
  zlen (PacketView.frame view) <= U64_MAX -> n + 1 <= N -> inv n h x -> clean h x ->
  track_raw extract init hash_frame view want x = Some (x', evs) -> sent_ok (sent_of view (last_packet x')) ->
  inv (n + 1) (heard_of view h (last_packet x')) x'.
Proof.
  intros Hfr Hn Hi Hc. unfold track_raw. cbv zeta. set (x0 := x <| last_packet := None |>).
  set (y := match dedup x0 with Some _ => _ | None => _ end).
  assert (inv n h y.1 /\ clean h y.1 /\ last_packet y.1 = None) as (Hi1 & Hc1 & Hl1).
  { unfold y. destruct (dedup x0) as [d|]; [destruct (Dedup.keep hash_frame view d)|];
      (split_and!; [by apply (inv_same _ _ x)|done|done]). }
  clearbody y. destruct y as [x1 keep]. cbn [fst] in *. destruct keep.
  - unfold clamp_view. destruct (monotonic_ts x1) as [last|]; [|by apply track_view_inv].
    intros Et Hs. eapply (track_view_inv _ _ _ (view <| PacketView.timestamp := _ |>)) in Et;
      [exact Et|done|done|by apply (inv_same _ _ x1)|done|done|done].
  - intros [= <- _] _. rewrite Hl1. apply (inv_more n); [lia|done].
Qed.

(** *** Ended flows *)
Lemma close_side_good emit k ts side hk (st : StreamFlow.t R * FlowStats.t * events) :
  let st' := close_side emit k ts side st in
  flow_good I k hk st.1.1 -> flow_good I k hk st'.1.1 /\ held st'.1.1 = held st.1.1.
Proof.
  destruct st as [[f stats] out]. unfold close_side. cbn. intros Hf. pose proof (Hf side) as Hl.
  destruct (StreamFlow.side side f) as [|l|] eqn:E; [done| |done]. cbn. destruct Hl as [Hl Hz].
  split; [|rewrite held_set_side, E; cbn; lia].
  apply flow_good_set_quiet; [done|]. split; [by apply holds_flush|done].
Qed.

Lemma close_flow_inv n h k stats x : inv n h x -> inv n h (close_flow k stats x).1.1.
Proof.
  intros Hi. unfold close_flow. destruct (streams x !! k) as [f|] eqn:E; [|done].
  cbn [SIDES fold_left]. set (st1 := close_side _ _ _ Initiator _). set (st2 := close_side _ _ _ Responder st1).
  assert (flow_good I k (h k) f) as Hf by by apply Hi.
  destruct (close_side_good (emit_anomalies x) k (FlowStats.last_seen stats) Initiator (h k) (f, stats, []) Hf) as [G1 E1].
  destruct (close_side_good (emit_anomalies x) k (FlowStats.last_seen stats) Responder (h k) st1 G1) as [G2 E2].
  fold st1 in E1. fold st2 in G2, E2. clearbody st2. destruct st2 as [[f' s'] out']. cbn in *.
  apply (inv_same _ _ (put k f' (global_memcap_bytes x) (factory x) x)); [done..|].
  apply (inv_heard_nothing n h k Initiator). apply (put_known n h k f); [done|done| |].
  - by apply flow_good_quiet.
  - intros He. rewrite (inv_pool _ _ _ Hi He), (total_split k x), E. lia.
Qed.

Lemma close_event_inv n h ev x : inv n h x -> inv n h (close_event ev x).1.
Proof.
  intros Hi. unfold close_event. destruct ev; try done.
  pose proof (close_flow_inv n h key stats x Hi) as Hc. destruct (close_flow key stats x) as [[x' st] fl]. cbn in Hc |- *.
  case_if; [done|]. by apply drop_flow_inv.
Qed.
Lemma close_all_inv n h evs : forall x, inv n h x -> inv n h (close_all evs x).1.
Proof.
  induction evs as [|ev evs IH]; intros x Hi; cbn; [done|]. apply (close_event_inv n h ev) in Hi.
  destruct (close_event ev x) as [x1 o1]. cbn in Hi. apply IH in Hi. by destruct (close_all evs x1).
Qed.
Lemma drop_flow_last k x : last_packet (drop_flow k x) = last_packet x.
Proof. unfold drop_flow. by case_match. Qed.
Lemma close_flow_last k stats x : last_packet (close_flow k stats x).1.1 = last_packet x.
Proof.
  unfold close_flow. destruct (streams x !! k); [|done]. by destruct (fold_left _ _ _) as [[f st] o].
Qed.
Lemma close_all_last evs : forall x, last_packet (close_all evs x).1 = last_packet x.
Proof.
  induction evs as [|ev evs IH]; intros x; cbn; [done|].
  assert (last_packet (close_event ev x).1 = last_packet x) as E.
  { unfold close_event. destruct ev; try done. pose proof (close_flow_last key stats x) as E.
    destruct (close_flow key stats x) as [[x' st] fl]. cbn in *. case_if; cbn; [done|]. unfold finalize_flow. by rewrite drop_flow_last. }
  destruct (close_event ev x) as [x1 o1]. specialize (IH x1). destruct (close_all evs x1). cbn in *. congruence.
Qed.

(** *** Sweeps *)
Variable order : gmap K (StreamFlow.t R) -> list (K * StreamFlow.t R).
Hypothesis order_perm : forall m, order m ≡ₚ map_to_list m.

Lemma refund_all (live : K * StreamFlow.t R -> bool) l h : exact ->
  (forall k f, (k, f) ∈ l -> flow_good I k (h k) f) -> forall B, 0 <= B ->
  fold_left (fun g kf => if live kf then g else refund kf.2 g) l (B + sum_held l)
    = B + sum_held (filter (fun kf => live kf = true) l).
Proof.
  intros He. destruct (exact_fits He) as (M & HM & _). pose proof (HM 0 (size_zero _ _ _ I)).
  induction l as [|[k f] l IH]; intros Hl B HB; [done|].
  assert (flow_good I k (h k) f) as Hf by (apply Hl; by left).
  pose proof (held_bound M (h k) k f HM Hf) as Hh.
  assert (0 <= sum_held l) as Hs.
  { apply sum_held_nonneg. intros k' f' E. eapply (held_bound M (h k') k'); [done|]. apply Hl. by right. }
  assert (forall k f, (k, f) ∈ l -> flow_good I k (h k) f) as Hl' by (intros; apply Hl; by right).
  cbn [fold_left]. rewrite filter_cons. change (sum_held ((k, f) :: l)) with (held f + sum_held l).
  destruct (live (k, f)) eqn:E.
  - rewrite decide_True by done. change (sum_held ((k, f) :: ?l)) with (held f + sum_held l).
    replace (B + (held f + sum_held l)) with ((B + held f) + sum_held l) by lia.
    rewrite (IH Hl') by lia. cbn. lia.
  - rewrite decide_False by done. cbn [snd].
    replace (B + (held f + sum_held l)) with ((B + sum_held l) + held f) by lia.
    rewrite (refund_exact (h k) k f) by (done || lia). by apply IH.
Qed.

Lemma reconcile_inv n h x : inv n h x -> inv n h (reconcile order x).
Proof.
  intros Hi. pose proof Hi as [[Hf Hg] Hs Hp]. unfold reconcile. case_if; [done|]. cbv zeta.
  set (live := fun kf : K * StreamFlow.t R => is_some (FlowTracker.get kf.1 (tracker x))).
  split.
  - split; [done|]. intros k f. cbn. intros [E _]%map_lookup_filter_Some. by apply Hg.
  - unfold n_streams in *. cbn. etrans; [|exact Hs]. apply inj_le, map_subseteq_size, map_filter_subseteq.
  - intros He. cbn. rewrite (Hp He), total_sum, <- (sum_held_perm _ _ (order_perm (streams x))).
    rewrite (total_sum (filter _ _)).
    rewrite (sum_held_perm _ _ (to_list_filter (fun kf => live kf = true) (streams x))).
    rewrite <- (sum_held_perm _ _ (filter_Permutation (fun kf => live kf = true) _ _ (order_perm (streams x)))).
    apply (refund_all live (order (streams x)) h He) with (B := 0); [|lia].
    intros k f Hin. apply Hg. rewrite (order_perm _) in Hin. by apply elem_of_map_to_list in Hin.
Qed.

Lemma released_app (a b : list (Released.t K)) h :
  hear_released (released_data (a ++ b)) h = hear_released (released_data b) (hear_released (released_data a) h).
Proof. unfold released_data, hear_released. by rewrite fmap_app, concat_app, fold_left_app. Qed.
Lemma content_empty s : StreamChunks.is_empty s = true -> StreamChunks.content s = [].
Proof.
  unfold StreamChunks.is_empty. intros [[Hb%is_nil_spec Hg%is_nil_spec]%andb_true_iff _]%andb_true_iff.
  unfold StreamChunks.content. by rewrite Hb, Hg.
Qed.

Lemma advance_side_inv n h now drain k (e : FlowEntry.t S) side x : n <= N -> inv n h x ->
  let '(x', out) := advance_side now drain k e side x in
  inv n (hear_released (released_data out) h) x'.
Proof.
  intros Hn Hi. unfold advance_side. destruct (streams x !! k) as [f|] eqn:E; [|done].
  assert (flow_good I k (h k) f) as Hf by by apply Hi. pose proof (Hf side) as Hl.
  destruct (StreamFlow.side side f) as [|l|] eqn:El; [done| |done]. destruct Hl as [Hl Hz].
  apply (holds_advance I k side _ _ now) in Hl. cbv zeta. set (an := _ <$> _).
  destruct drain.
  - apply holds_drain in Hl. destruct (drain_into (advance_time now (Live.r l)) StreamChunks.new) as [r' buf].
    cbn in Hl |- *. pose proof (resync_known n h k side _ f l r' x Hn Hi E El Hl) as Hr. cbv zeta in Hr.
    apply (inv_same _ _ _ _ eq_refl eq_refl eq_refl) in Hr. clearbody an.
    destruct (StreamChunks.is_empty buf) eqn:Eb.
    + rewrite (content_empty _ Eb) in Hr. apply inv_heard_nothing in Hr.
      destruct an; cbn; [exact Hr|]. unfold released_data. cbn. rewrite Eb. exact Hr.
    + rewrite andb_false_r. unfold released_data. cbn. rewrite Eb. exact Hr.
  - cbn. match goal with |- inv _ (hear_released (released_data ?o) h) ?y => set (out := o); set (x' := y) end.
    assert (released_data out = []) as -> by (unfold out; by destruct an).
    cbn. apply (inv_same _ _ (put k (StreamFlow.set_side side (SideSlot.Live
      (Live.mk (advance_time now (Live.r l)) (Live.accounted l))) f) (global_memcap_bytes x) (factory x) x)); [done..|].
    apply (inv_heard_nothing n h k side). apply (put_known n h k f); [done|done| |].
    + apply flow_good_set; [done|]. rewrite app_nil_r. by split.
    + intros He. rewrite held_set_side, El. cbn. rewrite (inv_pool _ _ _ Hi He), (total_split k x), E. lia.
Qed.
Lemma advance_flow_inv n h now drain k x : n <= N -> inv n h x ->
  let '(x', out) := advance_flow now drain k x in inv n (hear_released (released_data out) h) x'.
Proof.
  intros Hn Hi. unfold advance_flow. destruct (FlowTracker.get k (tracker x)) as [e|]; [|done].
  apply (advance_side_inv n h now drain k e Initiator) in Hi; [|done].
  destruct (advance_side now drain k e Initiator x) as [x1 o1].
  apply (advance_side_inv n _ now drain k e Responder) in Hi; [|done].
  destruct (advance_side now drain k e Responder x1) as [x2 o2]. by rewrite released_app.
Qed.
Lemma advance_flows_inv n now drain ks : n <= N -> forall h x, inv n h x ->
  let '(x', out) := advance_flows now drain ks x in inv n (hear_released (released_data out) h) x'.
Proof.
  intros Hn. induction ks as [|k ks IH]; intros h x Hi; cbn; [done|].
  apply (advance_flow_inv n h now drain k) in Hi; [|done]. destruct (advance_flow now drain k x) as [x1 o1].
  apply IH in Hi. destruct (advance_flows now drain ks x1) as [x2 o2]. by rewrite released_app.
Qed.

(** Without a buffer to drain into nothing is handed over. *)
Lemma advance_side_silent now k (e : FlowEntry.t S) side x :
  released_data (advance_side now false k e side x).2 = [].
Proof.
  unfold advance_side. destruct (streams x !! k) as [f|]; [|done].
  destruct (StreamFlow.side side f); try done. cbn. by case_if.
Qed.
Lemma released_data_app (a b : list (Released.t K)) : released_data (a ++ b) = released_data a ++ released_data b.
Proof. unfold released_data. by rewrite fmap_app, concat_app. Qed.
Lemma advance_flows_silent now ks : forall x, released_data (advance_flows now false ks x).2 = [].
Proof.
  induction ks as [|k ks IH]; intros x; cbn; [done|]. unfold advance_flow.
  destruct (FlowTracker.get k (tracker x)) as [e|].
  - pose proof (advance_side_silent now k e Initiator x) as E1. destruct (advance_side now false k e Initiator x) as [x1 o1].
    pose proof (advance_side_silent now k e Responder x1) as E2. destruct (advance_side now false k e Responder x1) as [x2 o2].
    specialize (IH x2). destruct (advance_flows now false ks x2) as [x3 o3]. cbn [fst snd] in *.
    by rewrite !released_data_app, E1, E2, IH.
  - specialize (IH x). by destruct (advance_flows now false ks x).
Qed.

Lemma clamp_now_same now x : let x' := (clamp_now now x).1 in
  factory x' = factory x /\ streams x' = streams x /\ global_memcap_bytes x' = global_memcap_bytes x.
Proof. unfold clamp_now. by destruct (monotonic_ts x). Qed.
Lemma clamp_now_inv n h now x : inv n h x -> inv n h (clamp_now now x).1.
Proof. destruct (clamp_now_same now x) as (E1 & E2 & E3). exact (inv_same n h x _ E1 E2 E3). Qed.
Lemma sweep_tracker_inv n h a b x : inv n h x -> inv n h (sweep_tracker a b x).1.
Proof. intros Hi. unfold sweep_tracker. destruct (FlowTracker.sweep a (tracker x)). by apply (inv_same _ _ x). Qed.

Lemma advance_sweep_inv n h now drain x : n <= N -> inv n h x ->
  let '(x1, now) := clamp_now now x in
  let '(x2, out) := advance_streams order now drain x1 in
  let '(x3, evs) := sweep_raw now x2 in
  forall evs, inv n (hear_released (released_data out) h) (close_all evs x3).1.
Proof.
  intros Hn Hi. apply (clamp_now_inv n h now) in Hi. destruct (clamp_now now x) as [x1 now']. cbn in Hi.
  apply reconcile_inv in Hi. unfold advance_streams.
  apply (advance_flows_inv n now' drain (order (streams (reconcile order x1))).*1) in Hi; [|done].
  destruct (advance_flows now' drain _ _) as [x2 out].
  apply (sweep_tracker_inv n _ now' now') in Hi. unfold sweep_raw. destruct (sweep_tracker now' now' x2) as [x3 evs].
  intros evs'. by apply close_all_inv.
Qed.

(** ** Sessions *)
Notation trace := (Trace K C F R).
Implicit Types (T : trace).
Hypothesis factory_config : forall c f, factory_holds I f ->
  (forall cap, FlowTrackerConfig.max_reassembler_buffer c = Some cap -> 0 <= cap) -> factory_holds I (apply_config c f).

(** Buffer caps and frame lengths are [usize]s. *)
Definition call_ok (c : Call K) : Prop :=
  match c with
  | CTrackPending view _ => zlen (PacketView.frame view) <= U64_MAX
  | CSetConfig c => forall cap, FlowTrackerConfig.max_reassembler_buffer c = Some cap -> 0 <= cap
  | _ => True
  end.

Definition trace_inv (n : Z) T : Prop := inv n (heard T) (driver_of T) /\ clean (heard T) (driver_of T).
Lemma returned_inv n T x evs l h : inv n h x -> trace_inv n (returned T x evs l h).
Proof. intros Hi. split; [by apply inv_settle|apply settle_clean]. Qed.

Lemma step_inv n c T T' : call_ok c -> n + 1 <= N -> trace_inv n T ->
  step extract init hash_frame order c T = Some T' -> sent_ok (sent T') -> trace_inv (n + 1) T'.
Proof.
  intros Hc Hn [Hi Hcl]. assert (n <= n + 1) as Hle by lia. assert (n <= N) as HnN by lia.
  assert (forall x', inv n (heard T) x' -> trace_inv (n + 1) (quiet T x')) as Hq.
  { intros x' Hx'. by apply returned_inv, (inv_more n). }
  destruct c; cbn [step].
  - destruct (track_pending_with _ _ _ view want _) as [[x' evs]|] eqn:E; [|done].
    unfold track_pending_with in E. destruct (track_raw _ _ _ _ _ _) as [[x1 evs1]|] eqn:Er; [|done].
    assert (last_packet x' = last_packet x1) as El.
    { rewrite <- (close_all_last evs1 x1). simplify_eq. by rewrite E. }
    pose proof (track_raw_inv n _ want view _ _ _ Hc Hn Hi Hcl Er) as Ht. rewrite <- El in Ht.
    pose proof (fun Hs => close_all_inv _ _ evs1 _ (Ht Hs)) as Hx. simplify_eq. rewrite E in Hx. cbn in Hx.
    destruct (last_packet x') as [p|]; intros [= <-] Hs; apply returned_inv, Hx; [|by intros ???? ?%elem_of_nil].
    cbn. intros k side q pl Hin. apply (Hs k side). cbn. rewrite elem_of_app. by right.
  - pose proof (advance_sweep_inv n _ now false _ HnN Hi) as Hx. unfold sweep_pending, advance_streams in *.
    destruct (clamp_now now _) as [x1 now']. set (ks := (order _).*1) in *.
    pose proof (advance_flows_silent now' ks (reconcile order x1)) as Hs.
    destruct (advance_flows now' false ks _) as [x2 out]. cbn [snd] in Hs. rewrite Hs in Hx.
    destruct (sweep_raw now' x2) as [x3 evs]. specialize (Hx (released_anomalies out ++ evs)).
    destruct (close_all _ x3) as [x4 evs']. intros [= <-] _. by apply returned_inv, (inv_more n).
  - pose proof (advance_sweep_inv n _ now true _ HnN Hi) as Hx. unfold sweep_pending_drain.
    destruct (clamp_now now _) as [x1 now']. destruct (advance_streams order now' true x1) as [x2 out].
    destruct (sweep_raw now' x2) as [x3 evs]. specialize (Hx (released_anomalies out ++ evs)).
    destruct (close_all _ x3) as [x4 evs']. intros [= <-] _. by apply returned_inv, (inv_more n).
  - unfold force_close_pending, force_close_raw. apply (clamp_now_inv n _ now) in Hi.
    destruct (clamp_now now _) as [x1 now']. cbn in Hi. destruct (FlowTracker.force_close k now' (tracker x1)) as [tr ev].
    set (y := match ev with Some _ => _ | None => _ end).
    assert (inv n (heard T) y.1) as Hy by (unfold y; destruct ev; by apply (inv_same _ _ x1)).
    clearbody y. destruct y as [x2 evs]. cbn in Hy. apply (close_all_inv n _ evs) in Hy.
    destruct (close_all evs x2) as [x3 evs']. intros [= <-] _. by apply returned_inv, (inv_more n).
  - unfold finish, finish_raw. apply (sweep_tracker_inv n _ Timestamp.MAX (max_ts (driver_of T))) in Hi.
    destruct (sweep_tracker _ _ _) as [x1 evs]. cbn in Hi. apply (close_all_inv n _ evs) in Hi.
    destruct (close_all evs x1) as [x2 evs']. intros [= <-] _. by apply returned_inv, finalize_inv, (inv_more n).
  - intros [= <-] _. split; [|apply settle_clean]. by apply inv_settle, finalize_inv, (inv_more n).
  - pose proof (drain_stream_inv n _ k side _ HnN Hi) as Hx. destruct (drain_stream k side _ _) as [[x' out] b].
    intros [= <-] _. by apply returned_inv, (inv_more n).
  - intros [= <-] _. apply returned_inv. pose proof (discard_side_inv n (heard T) k side (driver_of T)) as Hx.
    assert (with_flow n k (driver_of T) <= n + 1) as Hw by (unfold with_flow; case_match; lia).
    apply (inv_more (with_flow n k (driver_of T))); [done|]. apply Hx; [lia|done..].
  - intros [= <-] _. apply Hq. destruct Hi as [[Hf Hg] Hs Hp]. split; [split|..]; try done. by apply factory_config.
  - intros [= <-] _. apply Hq. by apply (inv_same _ _ (driver_of T)).
  - intros [= <-] _. apply Hq. by apply (inv_same _ _ (driver_of T)).
  - intros [= <-] _. apply Hq. by apply (inv_same _ _ (driver_of T)).
  - intros [= <-] _. apply Hq. by apply (inv_same _ _ (driver_of T)).
  - intros [= <-] _. apply Hq. by apply (inv_same _ _ (driver_of T)).
  - intros [= <-] _. apply Hq. by apply (inv_same _ _ (driver_of T)).
  - intros [= <-] _. apply Hq. by apply (inv_same _ _ (driver_of T)).
Qed.

Lemma session_inv cs : forall n T T', Forall call_ok cs -> n + zlen cs <= N -> trace_inv n T ->
  run extract init hash_frame order cs T = Some T' -> sent_ok (sent T') -> trace_inv (n + zlen cs) T'.
Proof.
  induction cs as [|c cs IH]; intros n T T' Hcs Hn Hi; cbn.
  { intros [= <-] _. by rewrite zlen_nil, Z.add_0_r. }
  apply Forall_cons in Hcs as [Hc Hcs]. rewrite zlen_cons in *.
  destruct (step extract init hash_frame order c T) as [T1|] eqn:E; [|done]. intros Er Hs.
  assert (sent_ok (sent T1)) as Hs1.
  { destruct (run_sent _ _ _ _ _ _ _ Er) as [more Em]. intros k side q pl Hin. apply (Hs k side). rewrite Em.
    rewrite elem_of_app. by left. }
  pose proof (zlen_nonneg cs).
  replace (n + (1 + zlen cs)) with ((n + 1) + zlen cs) by lia.
  eapply (IH _ T1); [done|lia| |done|done]. by eapply step_inv; [|lia|..].
Qed.

Lemma inv_start x : streams x = ∅ -> global_memcap_bytes x = 0 -> factory_holds I (factory x) ->
  trace_inv 0 (start x).
Proof.
  intros E1 E2 Hf. split; [|done]. cbn. split; unfold streams_good, n_streams.
  - split; [done|]. intros k f. by rewrite E1, lookup_empty.
  - cbn. by rewrite E1, map_size_empty.
  - intros _. cbn. rewrite E1, E2. symmetry. exact (total_empty (K:=K)).
Qed.
End facts.
