(* ===== verification/DriverEvents.v ===== *)
(** * The events of a driver (src/src/flow_driver.rs)

    A driver owns its tracker: whatever the event mask, the tracker reports
    every flow that leaves its table ([owned_track], [owned_sweep]).  From
    that: no stream state outlives its flow ([covers]), and the driver's
    events are the tracker's, with anomalies and ticks added and each
    [Ended] carrying the final diagnostics of its reassemblers. *)

From stdpp Require Import gmap sets.
From S2P Require Import Prelude Time Flow Config Cells Chunks TcpState Packet Welford Event Lru Tracker TrackerFacts TrackerMask Dedup Track Reassembler Factory StreamState FlowDriver DriverSession.
Open Scope Z_scope.

(** ** What leaves the table of an owned tracker is reported *)
Section owned.
Context {K S C : Type} `{EqDecision K} `{!Lru K (FlowEntry.t S) C, !LruLaws K (FlowEntry.t S) C}.
Variable extract : PacketView.t -> option (Extracted.t K).
Variable init : K -> S.
Notation tracker := (FlowTracker.t K C).
Implicit Types (tr : tracker) (es : list (FlowEvent K)) (T : Ledger K).
#[local] Existing Instance FlowTracker.eta.
Notation live tr := ((iter (FlowTracker.flows tr)).*1).

Fixpoint ended_keys (es : list (FlowEvent K)) : list K :=
  match es with
  | [] => []
  | Ended k _ _ _ _ :: es => k :: ended_keys es
  | _ :: es => ended_keys es
  end.
Lemma ended_keys_app es es' : ended_keys (es ++ es') = ended_keys es ++ ended_keys es'.
Proof. induction es as [|[] es IH]; cbn; by rewrite ?IH. Qed.

Lemma elem_entry_some T k : k ∈ T.*1 -> exists v, entry k T = Some v.
Proof. intros Hk. destruct (entry k T) as [v|] eqn:E; [by exists v|]. by apply entry_None in E. Qed.
(** The events a tracker emits; the driver adds the others. *)
Definition is_own (e : FlowEvent K) : bool :=
  match e with FlowAnomaly _ _ _ | TrackerAnomaly _ _ | Tick _ _ _ => false | _ => true end.
Definition own (es : list (FlowEvent K)) : list (FlowEvent K) := List.filter is_own es.
Lemma own_app es es' : own (es ++ es') = own es ++ own es'.
Proof. apply List.filter_app. Qed.
Lemma own_all es : Forall (fun e => is_own e = true) es -> own es = es.
Proof. unfold own. induction 1 as [|e es He _ IH]; cbn; [done|]. by rewrite He, IH. Qed.
Lemma own_none es : Forall (fun e => is_own e = false) es -> own es = [] /\ ended_keys es = [].
Proof. unfold own. induction 1 as [|e es He _ [E1 E2]]; cbn; [done|]. rewrite He. by destruct e. Qed.
Lemma ledger_own es : forall T T', ledger T es = Some T' -> Forall (fun e => is_own e = true) es.
Proof.
  induction es as [|e es IH]; intros T T'; cbn; [by constructor|].
  destruct (ledger_step T e) as [T1|] eqn:E; [|done]. intros El. constructor; [by destruct e|by eapply IH].
Qed.
Lemma ledger_step_keeps T e T' k : ledger_step T e = Some T' -> k ∈ T.*1 -> k ∉ ended_keys [e] -> k ∈ T'.*1.
Proof.
  destruct e; cbn; repeat case_match; try done; intros [= <-]; try done.
  - intros Hk _. by right.
  - by rewrite keys_modify.
  - intros [v E]%elem_entry_some Hne.
    rewrite not_elem_of_cons in Hne. destruct Hne as [Hne _].
    clear -E Hne. induction T as [|[k1 v1] T IH]; [done|]. cbn in *.
    repeat case_decide; simplify_eq; cbn; first [by eapply entry_Some_key|by left|right; by apply IH].
Qed.
Lemma ledger_gone es : forall T T' k, ledger T es = Some T' -> k ∈ T.*1 -> k ∉ T'.*1 -> k ∈ ended_keys es.
Proof.
  induction es as [|e es IH]; intros T T' k; cbn [ledger]; [intros [= <-]; done|].
  destruct (ledger_step T e) as [T1|] eqn:E; [|done]. intros El Hk Hk'.
  change (e :: es) with ([e] ++ es). rewrite ended_keys_app, elem_of_app.
  destruct (decide (k ∈ ended_keys [e])) as [|Hn]; [by left|right].
  eapply IH; [done| |done]. by eapply ledger_step_keeps.
Qed.
Lemma ledger_mentioned es : forall T T' k side o len ts src, ledger T es = Some T' ->
  Packet k side o len ts src ∈ es -> k ∉ T'.*1 -> k ∈ ended_keys es.
Proof.
  induction es as [|e es IH]; intros T T' k side o len ts src; cbn [ledger]; [by intros _ ?%elem_of_nil|].
  destruct (ledger_step T e) as [T1|] eqn:E; [|done]. intros El Hin Hk.
  change (e :: es) with ([e] ++ es). rewrite ended_keys_app, elem_of_app. right.
  apply elem_of_cons in Hin as [<-|Hin]; [|by eapply IH].
  eapply ledger_gone; [done| |done]. cbn in E. destruct (entry k T) as [v|] eqn:Ek; [|done].
  injection E as <-. rewrite keys_modify. by eapply entry_Some_key.
Qed.

(** The events behind the gates. *)
Lemma masked_ended tr es : FlowTracker.driver_owned tr = true -> ended_keys (masked tr es) = ended_keys es.
Proof.
  intros Ho. assert (FlowTracker.emits EventMask.ENDED tr = true) as He by (unfold FlowTracker.emits; by rewrite Ho).
  unfold masked. induction es as [|e es IH]; [done|]. cbn [List.filter ended_keys].
  destruct e; cbn [FlowEvent.variant ended_keys]; try (case_match; exact IH). rewrite He. cbn. by rewrite IH.
Qed.

(** The table as a ledger. *)
Definition tallies tr : Ledger K :=
  (fun ke => (ke.1, Tally.of_stats (FlowEntry.stats ke.2) (FlowEntry.l4 ke.2))) <$> iter (FlowTracker.flows tr).
Lemma tallies_keys tr : (tallies tr).*1 = live tr.
Proof. unfold tallies. rewrite <- list_fmap_compose. by apply list_fmap_ext. Qed.
Lemma tallies_describe tr : NoDup (live tr) -> describes (tallies tr) tr.
Proof.
  intros Hn. split; [by rewrite tallies_keys|]. intros k. unfold tallies.
  induction (iter (FlowTracker.flows tr)) as [|[k1 e1] l IH]; cbn; [done|]. case_decide; [done|]. apply IH.
  by apply NoDup_cons in Hn as [_ ?].
Qed.
Lemma described_keys T tr k : describes T tr -> k ∈ T.*1 <-> k ∈ live tr.
Proof.
  intros [_ Hd]. specialize (Hd k).
  destruct (decide (k ∈ live tr)) as [Hk|Hk]; destruct (decide (k ∈ T.*1)) as [HT|HT]; try done; exfalso.
  - apply entry_None in HT. rewrite HT in Hd. destruct (entry k (iter _)) eqn:E; [done|]. by apply entry_None in E.
  - apply entry_None in Hk. rewrite Hk in Hd. by apply entry_None in Hd.
Qed.

(** What one step of an owned tracker guarantees. *)
Record owned tr es tr' : Prop := {
  owned_inv : inv tr';
  owned_owned : FlowTracker.driver_owned tr' = true;
  owned_own : Forall (fun e => is_own e = true) es;
  owned_gone k : k ∈ live tr -> k ∉ live tr' -> k ∈ ended_keys es;
  owned_ledger : unfiltered tr -> unfiltered tr' /\
    forall T, describes T tr -> exists T', ledger T es = Some T' /\ describes T' tr' }.

Lemma owned_refl tr : inv tr -> FlowTracker.driver_owned tr = true -> owned tr [] tr.
Proof. intros Hi Ho. split; try done. intros Hu. split; [done|]. intros T HT. by exists T. Qed.
Lemma owned_trans tr es tr1 es1 tr2 : owned tr es tr1 -> owned tr1 es1 tr2 -> owned tr (es ++ es1) tr2.
Proof.
  intros [I1 O1 W1 G1 L1] [I2 O2 W2 G2 L2]. split; [done|done|by apply Forall_app| |].
  - intros k Hk Hk2. rewrite ended_keys_app, elem_of_app.
    destruct (decide (k ∈ live tr1)); [right; by apply G2|left; by apply G1].
  - intros HU. destruct (L1 HU) as [HU1 L1']. destruct (L2 HU1) as [HU2 L2']. split; [done|].
    intros T HT. destruct (L1' T HT) as (T1 & E1 & HT1). destruct (L2' T1 HT1) as (T2 & E2 & HT2).
    exists T2. by rewrite ledger_app, E1.
Qed.

Lemma unmask_inv tr : inv tr -> inv (unmask tr).
Proof. by intros []. Qed.
Lemma unmask_unfiltered tr : unfiltered (unmask tr).
Proof. done. Qed.

(** From the tracker's own theorem, with the gates taken away and put
    back. *)
Lemma owned_step tr es tr' es0 : inv tr -> FlowTracker.driver_owned tr = true ->
  TrackerFacts.sound (unmask tr) es0 (unmask tr') -> running (unmask tr') -> gates_same tr tr' -> es = masked tr es0 ->
  (unfiltered tr -> TrackerFacts.sound tr es tr') -> owned tr es tr'.
Proof.
  intros Hi Ho Hs Hr Hg -> Hu.
  assert (inv (unmask tr')) as [Hn Hc Hb Hh Hrn] by (apply inv_split; split; [apply Hs|done]).
  destruct (sound_ledger _ _ _ Hs (tallies tr) (unmask_unfiltered tr)) as (T' & E & Hd).
  { destruct (tallies_describe tr) as [? ?]; [apply Hi|]. by split. }
  split.
  - by split.
  - by rewrite <- Ho; destruct Hg as (_ & -> & _).
  - apply ledger_own in E. rewrite List.Forall_forall in *. intros e He. apply E.
    by apply List.filter_In in He as [He _].
  - intros k Hk Hk'. rewrite masked_ended by done. eapply ledger_gone; [done|by rewrite tallies_keys|]. by rewrite (described_keys T' _ k Hd).
  - intros HU. split; [by eapply sound_unfiltered; [apply Hu|]|]. intros T. by apply (Hu HU).
Qed.

Lemma owned_sweep now tr : inv tr -> FlowTracker.driver_owned tr = true ->
  owned tr (FlowTracker.sweep now tr).2 (FlowTracker.sweep now tr).1.
Proof.
  intros Hi Ho. pose proof (sweep_shed now tr) as [E1 E2 E3].
  apply inv_split in Hi as [Hc Hr]. destruct (sweep_spec init tr now Hc Hr) as (Hs & _).
  pose proof (unmask_inv tr) as Hu. rewrite !inv_split in Hu. destruct (Hu (conj Hc Hr)) as [Hc' Hr'].
  destruct (sweep_spec init (unmask tr) now Hc' Hr') as (Hs' & Hr'' & _). rewrite E1 in *.
  apply (owned_step _ _ _ (FlowTracker.sweep now (unmask tr)).2); try done. by apply inv_split.
Qed.

Lemma track_packet view tr tr' es p : unfiltered tr ->
  FlowTracker.track_with extract init view tr = Some (tr', es, Some p) ->
  exists side o len ts src, Packet (PacketContext.key p) side o len ts src ∈ es.
Proof.
  intros Hu. unfold FlowTracker.track_with. destruct (FlowTracker.admit_packet extract view) as [e|]; [|done].
  cbv zeta. destruct (if negb _ && negb _ then _ else _) as [tr1 evs1] eqn:E1.
  destruct (peek _ _) as [en|]; [|done].
  destruct (FlowTracker.update_entry _ _ _ _ _) as [en' t].
  set (tr2 := _ <| FlowTracker.flows ::= _ |>).
  assert (unfiltered tr2) as Hu2.
  { pose proof (first_stage_shed init e (PacketView.timestamp view) tr) as Hsh.
    specialize (Hsh (negb (bool_decide (FlowTracker.hot tr = Some (Extracted.key e)))
                     && negb (contains (Extracted.key e) (FlowTracker.flows tr)))).
    destruct Hsh as [_ _ (G1 & _ & G3)]. rewrite E1 in G1, G3. cbn in G1, G3.
    destruct Hu as [U1 U2]. split; cbn; congruence. }
  destruct (FlowTracker.close_or_keep _ _) as [tr3 e3]. destruct (FlowTracker.auto_sweep _ _) as [tr4 e4].
  intros [= _ <- <-]. eexists _, _, _, _, _. rewrite !elem_of_app. right. right. left.
  rewrite (emit_unfiltered tr2) by exact Hu2. by apply list_elem_of_singleton.
Qed.

Lemma owned_track view tr : inv tr -> FlowTracker.driver_owned tr = true ->
  exists tr' es ctx, FlowTracker.track_with extract init view tr = Some (tr', es, ctx) /\ owned tr es tr' /\
    forall p, ctx = Some p -> PacketContext.key p ∈ live tr' \/ PacketContext.key p ∈ ended_keys es.
Proof.
  intros Hi Ho. pose proof (track_with_shed extract init view tr) as Hsh.
  pose proof (proj1 (inv_split tr) Hi) as [Hc Hr].
  destruct (proj1 (inv_split (unmask tr)) (unmask_inv tr Hi)) as [Hc' Hr'].
  destruct (track_with_sound extract init view tr Hc Hr) as (tr' & es & ctx & E & Hs & Hr1 & _).
  destruct (track_with_sound extract init view (unmask tr) Hc' Hr') as (tr0 & es0 & ctx0 & E0 & Hs0 & Hr0 & _).
  rewrite E, E0 in Hsh. inversion Hsh as [|? ? ? ? ? [F1 F2 F3]]; subst. cbn in F1, F2, F3. subst tr0.
  rewrite F2 in *. exists tr', (masked tr es0), ctx0. split; [exact E|].
  split; [by apply (owned_step _ _ _ es0)|]. intros p ->. rewrite masked_ended by done.
  destruct (decide (PacketContext.key p ∈ live tr')) as [|Hk]; [by left|right].
  destruct (sound_ledger _ _ _ Hs0 (tallies tr) (unmask_unfiltered tr)) as (T' & El & Hd).
  { destruct (tallies_describe tr) as [? ?]; [apply Hi|]. by split. }
  destruct (track_packet view _ _ _ _ (unmask_unfiltered tr) E0) as (? & ? & ? & ? & ? & Hin).
  eapply ledger_mentioned; [done|done|]. by rewrite (described_keys T' _ _ Hd).
Qed.

Lemma owned_force_close k now tr : inv tr -> FlowTracker.driver_owned tr = true ->
  owned tr (option_list (FlowTracker.force_close k now tr).2) (FlowTracker.force_close k now tr).1.
Proof.
  intros Hi Ho. destruct (force_close_stepped init k now tr Hi) as [Hi' _ _ Hl].
  split; [done| | | |].
  - unfold FlowTracker.force_close. destruct (pop k _) as [f' [e|]]; [|done]. cbn. by rewrite cool_owned.
  - unfold FlowTracker.force_close. destruct (pop k _) as [f' [e|]]; by repeat constructor.
  - intros k' Hk Hk'.
    unfold FlowTracker.force_close in *. rewrite (surjective_pairing (pop k (FlowTracker.flows tr))), pop_result in *.
    destruct (entry k _) as [e|] eqn:E; cbn in *.
    + destruct (decide (k' = k)) as [->|Hne]; [by left|]. exfalso. apply Hk'.
      rewrite cool_flows. cbn. rewrite iter_pop.
      destruct (entry k' (iter (FlowTracker.flows tr))) as [e'|] eqn:E'; [|by apply entry_None in E'].
      apply (entry_Some_key _ _ e'). rewrite entry_without by apply Hi. by rewrite decide_False.
    + exfalso. apply Hk'. rewrite iter_pop, without_None by done. done.
  - intros HU. by apply Hl.
Qed.

(** A call that only touches settings. *)
Lemma owned_setting tr tr' : inv tr -> FlowTracker.driver_owned tr = true ->
  FlowTracker.flows tr' = FlowTracker.flows tr ->
  FlowTrackerConfig.max_flows (FlowTracker.config tr') = FlowTrackerConfig.max_flows (FlowTracker.config tr) ->
  FlowTracker.hot tr' = FlowTracker.hot tr -> FlowTracker.driver_owned tr' = FlowTracker.driver_owned tr ->
  (unfiltered tr -> unfiltered tr') -> owned tr [] tr'.
Proof.
  intros [Hn Hc Hb Hh Hr] Ho Ef Em Eh Eo Hu. split; [|congruence|done| |].
  - split; rewrite ?Ef, ?Em, ?Eh; done.
  - intros k. rewrite Ef. done.
  - intros HU. split; [by apply Hu|]. intros T [H1 H2]. exists T. split; [done|]. split; [done|].
    intros k. by rewrite Ef.
Qed.
Lemma owned_ticked k now tr : inv tr -> FlowTracker.driver_owned tr = true ->
  owned tr [] (FlowTracker.mark_ticked k now tr).1.
Proof.
  intros Hi Ho. destruct (mark_ticked_stepped k now tr Hi) as [Hi' _ _ Hl].
  split; [done| |done| |by intros HU; apply Hl].
  - unfold FlowTracker.mark_ticked. by case_match.
  - intros k' Hk Hk'. exfalso. apply Hk'. unfold FlowTracker.mark_ticked. case_match; [|done]. cbn.
    by rewrite iter_peek_mut, keys_modify.
Qed.
End owned.

(** ** The driver *)
Section driver.
Context {K S C F R : Type} `{Countable K} `{!Lru K (FlowEntry.t S) C, !LruLaws K (FlowEntry.t S) C}.
Context `{Reassembler R} `{Diagnostics R} `{!ReassemblerFactory K F R}.
Variable extract : PacketView.t -> option (Extracted.t K).
Variable init : K -> S.
Variable hash_frame : list Z -> Z.
Variable order : gmap K (StreamFlow.t R) -> list (K * StreamFlow.t R).
Notation driver := (FlowDriver.t K C F R).
Notation events := (list (FlowEvent K)).
Implicit Types (x : driver) (es : events).
Import FlowDriver.
#[local] Existing Instance FlowDriver.eta.
Notation live x := ((iter (FlowTracker.flows (tracker x))).*1).

Definition tracker_ok x : Prop := inv (tracker x) /\ FlowTracker.driver_owned (tracker x) = true.
(** Every flow with stream state is tracked, or about to be finalized. *)
Definition covers x (ks : list K) : Prop :=
  forall k, is_Some (streams x !! k) -> k ∈ live x \/ k ∈ ks.

(** One operation before its ended flows are closed: the tracker's events,
    with others of the driver among them. *)
Record raw x es x' : Prop := {
  raw_owned : owned (tracker x) (own es) (tracker x');
  raw_streams k : is_Some (streams x' !! k) ->
    is_Some (streams x !! k) \/ k ∈ live x' \/ k ∈ ended_keys es }.

Lemma own_ended es : ended_keys (own es) = ended_keys es.
Proof. unfold own. induction es as [|e es IH]; [done|]. destruct e; cbn; by rewrite ?IH. Qed.

Lemma raw_covers x es x' ks : raw x es x' -> covers x ks -> covers x' (ended_keys es ++ ks).
Proof.
  intros [Ho Hs] Hc k [Hk|[Hk|Hk]]%Hs; rewrite elem_of_app; [|by left|by right; left].
  destruct (Hc k Hk) as [Hl|Hl]; [|by right; right].
  destruct (decide (k ∈ live x')) as [|Hn]; [by left|]. right. left. rewrite <- own_ended. by eapply owned_gone.
Qed.
Lemma raw_ok x es x' : raw x es x' -> tracker_ok x'.
Proof. intros [[] _]. by split. Qed.
Lemma raw_seq x es x1 es' x2 : raw x es x1 -> raw x1 es' x2 -> raw x (es ++ es') x2.
Proof.
  intros [O1 S1] [O2 S2]. split.
  - rewrite own_app. by eapply owned_trans.
  - intros k [[Hk|[Hk|Hk]]%S1|[Hk|Hk]]%S2; rewrite ended_keys_app, elem_of_app; [by left| | |by right; left|by right; right; right].
    + destruct (decide (k ∈ live x2)) as [|Hn]; [by right; left|]. right. right. right.
      rewrite <- own_ended. by eapply owned_gone.
    + by right; right; left.
Qed.
(** Other events may be placed among them. *)
Lemma raw_others x es es' x' : own es = own es' -> raw x es x' -> raw x es' x'.
Proof.
  intros E [Ho Hs]. split; [by rewrite <- E|]. intros k. rewrite <- (own_ended es'), <- E, own_ended. apply Hs.
Qed.
Lemma raw_quiet x x' : tracker_ok x -> tracker x' = tracker x ->
  (forall k, is_Some (streams x' !! k) -> is_Some (streams x !! k)) -> raw x [] x'.
Proof. intros [Hi Ho] E Hs. split; [rewrite E; by apply owned_refl|]. intros k Hk. left. by apply Hs. Qed.

Lemma place_own k extra es : Forall (fun e => is_own e = false) extra -> own (place k extra es) = own es.
Proof.
  intros He. induction es as [|e es IH]; cbn [place]; [by apply own_none|].
  assert (own (e :: place k extra es) = own (e :: es)) as E by (unfold own in *; cbn; by rewrite IH).
  destruct e; try exact E. case_bool_decide; [|exact E]. rewrite own_app, (proj1 (own_none _ He)). done.
Qed.
Lemma extra_others ts n trip an x : Forall (fun e => is_own e = false) (extra_events ts n trip an x).
Proof.
  unfold extra_events, eviction_pressure. case_if; [|done]. rewrite !Forall_app. split_and!.
  - apply Forall_fmap, Forall_true. by intros [].
  - destruct trip; [|done]. case_match; [|done]. by repeat constructor.
  - case_if; by repeat constructor.
Qed.

(** *** A packet *)
Lemma drop_flow_streams k x k' : is_Some (streams (drop_flow k x) !! k') -> is_Some (streams x !! k').
Proof.
  unfold drop_flow. destruct (streams x !! k); [|done]. cbn. intros [f Hf].
  apply lookup_delete_Some in Hf as [_ Hf]. by exists f.
Qed.
Lemma on_packet_streams want p x : let x' := (on_packet want p x).1.1 in
  tracker x' = tracker x /\
  forall k, is_Some (streams x' !! k) -> is_Some (streams x !! k) \/ k = PacketContext.key p.
Proof.
  unfold on_packet. set (x1 := if PacketContext.is_new p then _ else x).
  assert (tracker x1 = tracker x /\ forall k, is_Some (streams x1 !! k) -> is_Some (streams x !! k)) as [E1 G1].
  { unfold x1. case_if; [|done]. split; [unfold drop_flow; by case_match|]. apply drop_flow_streams. }
  clearbody x1. destruct (PacketContext.tcp p) as [i|]; cbn; [|split; [done|auto]].
  unfold feed_tcp. destruct (match streams x1 !! PacketContext.key p with Some _ => _ | None => _ end) as [f|];
    [|cbn; split; [done|auto]].
  destruct (feed_flow _ _ _ _) as [s pass]. cbn. split; [done|]. intros k.
  destruct (decide (k = PacketContext.key p)) as [->|Hk]; [by right|]. rewrite lookup_insert_ne by done. auto.
Qed.

Lemma tick_all_raw l now : forall x, tracker_ok x ->
  let '(x', es) := tick_all l now x in raw x es x' /\ own es = [].
Proof.
  induction l as [|[k st] l IH]; intros x Hx; cbn; [split; [by apply raw_quiet|done]|].
  set (x1 := x <| tracker ::= fun tr => (FlowTracker.mark_ticked k now tr).1 |>).
  assert (raw x [] x1) as Q1.
  { split; [cbn; destruct Hx; by apply owned_ticked|]. intros k'. cbn. by left. }
  specialize (IH x1 (raw_ok _ _ _ Q1)). destruct (tick_all l now x1) as [x2 es]. destruct IH as [IH E].
  split; [|done]. eapply (raw_others _ es); [done|]. by apply (raw_seq _ [] _ es _ Q1).
Qed.
Lemma emit_ticks_raw now iv x : tracker_ok x ->
  let '(x', es) := emit_ticks now iv x in raw x es x' /\ own es = [].
Proof.
  intros Hx. unfold emit_ticks. case_if; [split; [by apply raw_quiet|done]|]. cbv zeta.
  set (x1 := x <| last_tick_scan := Some now |>). set (l := _ <$> _).
  pose proof (tick_all_raw l now x1) as Ht. destruct (tick_all l now x1) as [x2 es].
  destruct (Ht Hx) as [Hr E]. split; [|done].
  apply (raw_seq x [] x1 es x2); [by apply raw_quiet|done].
Qed.

Lemma track_view_raw view want x : tracker_ok x ->
  exists x' es, track_view extract init view want x = Some (x', es) /\ raw x es x'.
Proof.
  intros [Hi Ho]. unfold track_view. cbv zeta.
  destruct (owned_track extract init view (tracker x) Hi Ho) as (tr & es & ctx & E & Hw & Hctx).
  set (x0 := x <| max_ts ::= fun m => Timestamp.max m (PacketView.timestamp view) |>).
  change (tracker x0) with (tracker x). rewrite E. set (x1 := x0 <| tracker := tr |>).
  set (y := match ctx with Some _ => _ | None => _ end).
  assert (tracker y.1.1 = tr /\ forall k, is_Some (streams y.1.1 !! k) ->
    is_Some (streams x !! k) \/ k ∈ (iter (FlowTracker.flows tr)).*1 \/ k ∈ ended_keys es) as [Et Hy].
  { unfold y. destruct ctx as [p|]; [|split; [done|by left]].
    destruct (on_packet_streams want p x1) as [E1 G1]. split; [done|].
    intros k [Hk| ->]%G1; [by left|right]. by apply Hctx. }
  clearbody y. destruct y as [[x2 trip] an]. cbn [fst] in Et, Hy.
  set (extra := extra_events _ _ trip an x2). set (es' := place _ extra es). set (x3 := note_gone es' x2).
  assert (raw x es' x3) as Q3.
  { apply (raw_others x es).
    - symmetry. apply place_own, extra_others.
    - split; [|cbn; rewrite Et; done]. cbn. rewrite Et, own_all; [done|by apply Hw]. }
  destruct (FlowTrackerConfig.flow_tick_interval _) as [iv|]; [|by eexists _, _].
  case_if; [|by eexists _, _]. pose proof (emit_ticks_raw (PacketView.timestamp view) iv x3 (raw_ok _ _ _ Q3)) as Ht.
  destruct (emit_ticks _ _ x3) as [x4 tk]. eexists _, _. split; [done|]. destruct Ht as [Ht _]. by eapply raw_seq.
Qed.

Lemma track_raw_raw view want x : tracker_ok x ->
  exists x' es, track_raw extract init hash_frame view want x = Some (x', es) /\ raw x es x'.
Proof.
  intros Hx. unfold track_raw. cbv zeta. set (x0 := x <| last_packet := None |>).
  set (y := match dedup x0 with Some _ => _ | None => _ end).
  assert (raw x [] y.1) as Hy.
  { unfold y. destruct (dedup x0) as [d|]; [destruct (Dedup.keep hash_frame view d)|]; by apply raw_quiet. }
  clearbody y. destruct y as [x1 keep]. cbn [fst] in Hy. destruct keep; [|by eexists _, _].
  set (z := clamp_view view x1). assert (raw x [] z.1) as Hz.
  { unfold z, clamp_view. destruct (monotonic_ts x1); [|done]. apply (raw_seq x [] x1 []); [done|].
    apply raw_quiet; [by eapply raw_ok|done..]. }
  clearbody z. destruct z as [x2 v]. cbn [fst] in Hz.
  destruct (track_view_raw v want x2 (raw_ok _ _ _ Hz)) as (x3 & es & E & Hr).
  exists x3, es. split; [done|]. by apply (raw_seq x [] x2 es).
Qed.

(** *** Sweeps and forced closes *)
Lemma sweep_tracker_raw at_ ts x : tracker_ok x ->
  raw x (sweep_tracker at_ ts x).2 (sweep_tracker at_ ts x).1.
Proof.
  intros [Hi Ho]. pose proof (owned_sweep init at_ (tracker x) Hi Ho) as Hw.
  unfold sweep_tracker. destruct (FlowTracker.sweep at_ (tracker x)) as [tr evs]. cbn [fst snd] in *.
  split; [|cbn; by left]. cbn. rewrite own_app, own_all by apply Hw.
  destruct (own_none (if emit_anomalies x
    then eviction_pressure (FlowTrackerStats.flows_evicted (FlowTracker.stats (tracker x))) ts (x <| tracker := tr |>) else []))
    as [-> _]; [|by rewrite app_nil_r].
  unfold eviction_pressure. repeat case_if; by repeat constructor.
Qed.
Lemma force_close_raw_raw k now x : tracker_ok x -> raw x (force_close_raw k now x).2 (force_close_raw k now x).1.
Proof.
  intros [Hi Ho]. unfold force_close_raw.
  assert (tracker (clamp_now now x).1 = tracker x /\ streams (clamp_now now x).1 = streams x) as [Et Es]
    by (unfold clamp_now; by destruct (monotonic_ts x)).
  destruct (clamp_now now x) as [x1 now']. cbn [fst snd] in *. rewrite Et.
  pose proof (owned_force_close init k now' (tracker x) Hi Ho) as Hw.
  destruct (FlowTracker.force_close k now' (tracker x)) as [tr ev]. cbn [fst snd] in Hw.
  pose proof (own_all _ (owned_own _ _ _ Hw)) as Eo. rewrite <- Eo in Hw.
  destruct ev as [ev|]; (split; [exact Hw|intros k'; cbn; rewrite Es; by left]).
Qed.

(** Advancing the streams changes no tracker and adds no flow. *)
Definition tame_stage x x' : Prop :=
  tracker x' = tracker x /\ forall k, is_Some (streams x' !! k) -> is_Some (streams x !! k).
Lemma tame_trans x x1 x2 : tame_stage x x1 -> tame_stage x1 x2 -> tame_stage x x2.
Proof. intros [E1 G1] [E2 G2]. split; [congruence|auto]. Qed.
Lemma tame_raw x x' : tracker_ok x -> tame_stage x x' -> raw x [] x'.
Proof. intros Hx [E G]. by apply raw_quiet. Qed.
Lemma insert_known {A} (m : gmap K A) k k' v : is_Some (m !! k) -> is_Some (<[k:=v]> m !! k') -> is_Some (m !! k').
Proof. intros Hk. destruct (decide (k = k')) as [->|]; [done|]. by rewrite lookup_insert_ne. Qed.
Lemma clamp_now_tame now x : tame_stage x (clamp_now now x).1.
Proof. unfold clamp_now. by destruct (monotonic_ts x). Qed.
Lemma reconcile_tame x : tame_stage x (reconcile order x).
Proof.
  unfold reconcile. case_if; [done|]. split; [done|]. intros k. cbn.
  intros [f [Hf _]%map_lookup_filter_Some]. by exists f.
Qed.
Lemma advance_side_tame now drain k (e : FlowEntry.t S) side x : tame_stage x (advance_side now drain k e side x).1.
Proof.
  unfold advance_side. destruct (streams x !! k) as [f|] eqn:E; [|done].
  destruct (StreamFlow.side side f); [done| |done]. cbv zeta.
  destruct (if drain then _ else _) as [[g l'] d]. split; [done|]. intros k'. cbn. apply insert_known. by rewrite E.
Qed.
Lemma advance_flow_tame now drain k x : tame_stage x (advance_flow now drain k x).1.
Proof.
  unfold advance_flow. destruct (FlowTracker.get k (tracker x)) as [e|]; [|done].
  pose proof (advance_side_tame now drain k e Initiator x) as Q1. destruct (advance_side now drain k e Initiator x) as [x1 o1].
  pose proof (advance_side_tame now drain k e Responder x1) as Q2. destruct (advance_side now drain k e Responder x1) as [x2 o2].
  by eapply tame_trans.
Qed.
Lemma advance_flows_tame now drain ks : forall x, tame_stage x (advance_flows now drain ks x).1.
Proof.
  induction ks as [|k ks IH]; intros x; cbn; [done|].
  pose proof (advance_flow_tame now drain k x) as Q1. destruct (advance_flow now drain k x) as [x1 o1].
  specialize (IH x1). destruct (advance_flows now drain ks x1) as [x2 o2]. by eapply tame_trans.
Qed.
Lemma advance_streams_tame now drain x : tame_stage x (advance_streams order now drain x).1.
Proof. eapply tame_trans; [apply reconcile_tame|apply advance_flows_tame]. Qed.
Lemma drain_stream_tame k side out x : tame_stage x (drain_stream k side out x).1.1.
Proof.
  unfold drain_stream. destruct (streams x !! k) as [f|] eqn:E; [|done].
  destruct (StreamFlow.side side f) as [|l|st sp rep]; [done| |].
  - destruct (drain_into (Live.r l) out) as [r o]. split; [done|]. intros k'. cbn. apply insert_known. by rewrite E.
  - destruct rep; [done|]. split; [done|]. intros k'. cbn. apply insert_known. by rewrite E.
Qed.

(** Anomalies of the advanced reassemblers are the driver's. *)
Lemma advance_side_others now drain k (e : FlowEntry.t S) side x :
  Forall (fun e => is_own e = false) (released_anomalies (advance_side now drain k e side x).2).
Proof.
  unfold advance_side. destruct (streams x !! k) as [f|]; [|by constructor].
  destruct (StreamFlow.side side f); [by constructor| |by constructor]. cbv zeta.
  destruct (if drain then _ else _) as [[g l'] d]. cbn [snd]. case_if; [by constructor|].
  unfold released_anomalies. cbn. rewrite app_nil_r. apply Forall_fmap, Forall_true. done.
Qed.
Lemma released_anomalies_app (a b : list (Released.t K)) :
  released_anomalies (a ++ b) = released_anomalies a ++ released_anomalies b.
Proof. unfold released_anomalies. by rewrite fmap_app, concat_app. Qed.
Lemma advance_flow_others now drain k x :
  Forall (fun e => is_own e = false) (released_anomalies (advance_flow now drain k x).2).
Proof.
  unfold advance_flow. destruct (FlowTracker.get k (tracker x)) as [e|]; [|by constructor].
  pose proof (advance_side_others now drain k e Initiator x) as Q1. destruct (advance_side now drain k e Initiator x) as [x1 o1].
  pose proof (advance_side_others now drain k e Responder x1) as Q2. destruct (advance_side now drain k e Responder x1) as [x2 o2].
  cbn [snd] in *. rewrite released_anomalies_app. by apply Forall_app.
Qed.
Lemma advance_flows_others now drain ks : forall x,
  Forall (fun e => is_own e = false) (released_anomalies (advance_flows now drain ks x).2).
Proof.
  induction ks as [|k ks IH]; intros x; cbn; [by constructor|].
  pose proof (advance_flow_others now drain k x) as Q1. destruct (advance_flow now drain k x) as [x1 o1].
  specialize (IH x1). destruct (advance_flows now drain ks x1) as [x2 o2].
  cbn [snd] in *. rewrite released_anomalies_app. by apply Forall_app.
Qed.

(** *** Closing the ended flows *)
Lemma covers_more x ks ks' : (forall k, k ∈ ks -> k ∈ ks') -> covers x ks -> covers x ks'.
Proof. intros Hk Hc k [Hl|Hl]%Hc; [by left|right; by apply Hk]. Qed.
Lemma covers_stage x x' ks : tame_stage x x' -> covers x ks -> covers x' ks.
Proof. intros [E G] Hc k Hk. rewrite E. by apply Hc, G. Qed.
Lemma drop_flow_tame k x : tame_stage x (drop_flow k x).
Proof. split; [unfold drop_flow; by case_match|]. apply drop_flow_streams. Qed.
Lemma drop_flow_gone k x : streams (drop_flow k x) !! k = None.
Proof. unfold drop_flow. destruct (streams x !! k) eqn:E; [apply lookup_delete_eq|done]. Qed.
Lemma drop_covers k x ks : covers x (k :: ks) -> covers (drop_flow k x) ks.
Proof.
  intros Hc k' Hk. destruct (drop_flow_tame k x) as [E G]. rewrite E.
  destruct (Hc k' (G k' Hk)) as [|[->|]%elem_of_cons]; [by left| |by right].
  rewrite drop_flow_gone in Hk. by destruct Hk.
Qed.
Lemma finalize_covers evs : forall x ks, covers x (ended_keys evs ++ ks) -> covers (finalize evs x) ks.
Proof.
  induction evs as [|ev evs IH]; intros x ks Hc; cbn; [done|]. destruct ev; try by apply IH.
  by apply IH, drop_covers.
Qed.
Lemma finalize_tame evs : forall x, tame_stage x (finalize evs x).
Proof.
  induction evs as [|ev evs IH]; intros x; cbn; [done|]. destruct ev; try apply IH.
  eapply tame_trans; [apply drop_flow_tame|apply IH].
Qed.

Lemma close_side_others emit k ts side (st : StreamFlow.t R * FlowStats.t * events) :
  Forall (fun e => is_own e = false) st.2 -> Forall (fun e => is_own e = false) (close_side emit k ts side st).2.
Proof.
  destruct st as [[f stats] out]. unfold close_side. cbn [snd]. intros Ho.
  destruct (StreamFlow.side side f); [done| |done]. cbn. apply Forall_app. split; [done|]. by apply Forall_fmap, Forall_true.
Qed.
Lemma fold_slot_tally stats side (slot : SideSlot.t R) l4 :
  Tally.of_stats (fold_slot stats side slot) l4 = Tally.of_stats stats l4.
Proof. destruct slot as [|l|[c|] stop rep], side; done. Qed.
Lemma close_side_tally emit k ts side (st : StreamFlow.t R * FlowStats.t * events) l4 :
  Tally.of_stats (close_side emit k ts side st).1.2 l4 = Tally.of_stats st.1.2 l4.
Proof.
  destruct st as [[f stats] out]. unfold close_side.
  destruct (StreamFlow.side side f) as [|l|]; cbn [fst snd]; apply fold_slot_tally.
Qed.
Lemma close_flow_spec k stats x : let '(x', stats', out) := close_flow k stats x in
  tame_stage x x' /\ (forall l4, Tally.of_stats stats' l4 = Tally.of_stats stats l4) /\
  Forall (fun e => is_own e = false) out.
Proof.
  unfold close_flow. destruct (streams x !! k) as [f|] eqn:E; [|by split_and!].
  cbn [SIDES fold_left]. set (st1 := close_side _ _ _ Initiator _). set (st2 := close_side _ _ _ Responder st1).
  assert (Forall (fun e => is_own e = false) st2.2) as Ho by by apply close_side_others, close_side_others.
  assert (forall l4, Tally.of_stats st2.1.2 l4 = Tally.of_stats stats l4) as Ht.
  { intros l4. unfold st2. rewrite close_side_tally. unfold st1. by rewrite close_side_tally. }
  clearbody st2. destruct st2 as [[f' s'] out']. cbn in Ho, Ht. split_and!; [|done|done].
  split; [done|]. intros k'. cbn. apply insert_known. by rewrite E.
Qed.

Lemma others_filter (g : FlowEvent K -> bool) es : Forall (fun e => is_own e = false) es ->
  Forall (fun e => is_own e = false) (List.filter g es).
Proof. induction 1; cbn; [by constructor|]. case_if; [by constructor|done]. Qed.
Lemma others_ended es es' : Forall (fun e => is_own e = false) es ->
  own (es ++ es') = own es' /\ ended_keys (es ++ es') = ended_keys es'.
Proof. intros [E1 E2]%own_none. by rewrite own_app, ended_keys_app, E1, E2. Qed.
Lemma close_event_covers ev x ks : covers x (ended_keys [ev] ++ ks) ->
  let '(x', out) := close_event ev x in tracker x' = tracker x /\ covers x' (ended_keys out ++ ks).
Proof.
  unfold close_event. destruct ev; try (intros Hc; split; [done|]; case_if; exact Hc).
  pose proof (close_flow_spec key stats x) as Hs. destruct (close_flow key stats x) as [[x' st'] fl].
  destruct Hs as (Ht & _ & Hf). intros Hc. cbv zeta. set (ev := Ended _ _ st' _ _).
  pose proof (others_filter (fun a => emits a x') fl Hf) as Hf'.
  apply (covers_stage x x' _ Ht) in Hc. destruct Ht as [Et _]. case_if.
  - destruct (others_ended _ [ev] Hf') as [_ ->]. by split.
  - destruct (others_ended _ [] Hf') as [_ E]. rewrite app_nil_r in E. rewrite E. split.
    + unfold finalize_flow. by destruct (drop_flow_tame key x') as [-> _].
    + by apply drop_covers.
Qed.
Lemma close_all_covers es : forall x ks, covers x (ended_keys es ++ ks) ->
  let '(x', out) := close_all es x in tracker x' = tracker x /\ covers x' (ended_keys out ++ ks).
Proof.
  induction es as [|ev es IH]; intros x ks Hc; cbn; [done|].
  change (ev :: es) with ([ev] ++ es) in Hc. rewrite ended_keys_app, <- app_assoc in Hc.
  apply close_event_covers in Hc. destruct (close_event ev x) as [x1 o1]. destruct Hc as [E1 Hc].
  specialize (IH x1 (ended_keys o1 ++ ks)). destruct (close_all es x1) as [x2 o2].
  destruct IH as [E2 IH]; [|split; [congruence|]].
  - eapply covers_more; [|exact Hc]. intros k. rewrite !elem_of_app. tauto.
  - eapply covers_more; [|exact IH]. intros k. rewrite ended_keys_app, !elem_of_app. tauto.
Qed.
Lemma close_all_tracker es x : tracker (close_all es x).1 = tracker x.
Proof.
  pose proof (close_all_covers es x (map_to_list (streams x)).*1) as Hc. destruct (close_all es x) as [x' out].
  apply Hc. intros k [f Hf]. right. rewrite elem_of_app. right. apply list_elem_of_fmap. exists (k, f).
  by split; [|apply elem_of_map_to_list].
Qed.

Lemma unfiltered_emits ev x : unfiltered (tracker x) -> emits ev x = true.
Proof.
  intros [E1 E2]. destruct ev; try done; unfold emits, emits_mask; rewrite E1, E2; done.
Qed.
Lemma close_event_ledger ev x L : unfiltered (tracker x) ->
  ledger L (own (close_event ev x).2) = ledger L (own [ev]).
Proof.
  intros Hu. unfold close_event. destruct ev; try (rewrite unfiltered_emits by done; done).
  pose proof (close_flow_spec key stats x) as Hs. destruct (close_flow key stats x) as [[x' st'] fl].
  destruct Hs as ((Et & _) & Ht & Hf). cbv zeta. rewrite unfiltered_emits by by rewrite Et.
  cbn [snd]. destruct (others_ended _ [Ended key reason st' history l4] (others_filter (fun a => emits a x') fl Hf)) as [-> _].
  cbn. by rewrite Ht.
Qed.
Lemma close_all_ledger es : forall x L, unfiltered (tracker x) -> ledger L (own (close_all es x).2) = ledger L (own es).
Proof.
  induction es as [|ev es IH]; intros x L Hu; cbn [close_all]; [done|].
  change (ev :: es) with ([ev] ++ es). rewrite own_app, ledger_app, <- (close_event_ledger ev x L Hu).
  assert (tracker (close_event ev x).1 = tracker x) as E.
  { pose proof (close_all_tracker [ev] x) as E. cbn in E. by destruct (close_event ev x). }
  destruct (close_event ev x) as [x1 o1]. cbn [fst snd] in *. specialize (IH x1).
  destruct (close_all es x1) as [x2 o2]. cbn [snd] in *. rewrite own_app, ledger_app.
  destruct (ledger L (own o1)); [|done]. apply IH. by rewrite E.
Qed.

(** *** One call

    What a call that returns [out] guarantees. *)
Record closed x out x' : Prop := {
  closed_ok : tracker_ok x';
  closed_covers ks : covers x ks -> covers x' (ended_keys out ++ ks);
  closed_ledger L : unfiltered (tracker x) -> describes L (tracker x) ->
    unfiltered (tracker x') /\ exists L', ledger L (own out) = Some L' /\ describes L' (tracker x') }.

Lemma raw_closed x es x1 : raw x es x1 -> closed x (close_all es x1).2 (close_all es x1).1.
Proof.
  intros Hr. pose proof (raw_ok _ _ _ Hr) as Hok. pose proof (close_all_tracker es x1) as Et. split.
  - unfold tracker_ok. by rewrite Et.
  - intros ks Hc. pose proof (close_all_covers es x1 ks (raw_covers _ _ _ _ Hr Hc)) as Hx.
    by destruct (close_all es x1), Hx.
  - intros L Hu Hd. rewrite Et. destruct (owned_ledger _ _ _ (raw_owned _ _ _ Hr) Hu) as [Hu1 HL]. split; [done|].
    rewrite close_all_ledger by done. by apply HL.
Qed.
Lemma closed_stage x x' : tracker_ok x -> tame_stage x x' -> closed x [] x'.
Proof.
  intros Hx Ht. pose proof Ht as [Et _]. split.
  - unfold tracker_ok. by rewrite Et.
  - intros ks. by apply covers_stage.
  - intros L Hu Hd. rewrite Et. split; [done|]. by exists L.
Qed.
Lemma closed_trans x x1 x2 out : tame_stage x x1 -> closed x1 out x2 -> closed x out x2.
Proof.
  intros Ht [G1 G2 G3]. pose proof Ht as [Et _]. split; [done| |by rewrite <- Et].
  intros ks Hc. apply G2. by eapply covers_stage.
Qed.
Lemma closed_then x x1 x2 out : closed x out x1 -> tame_stage x1 x2 -> closed x out x2.
Proof.
  intros [G1 G2 G3] Ht. pose proof Ht as [Et _]. split.
  - unfold tracker_ok. by rewrite Et.
  - intros ks Hc. by eapply covers_stage, G2.
  - rewrite Et. done.
Qed.

Lemma track_pending_closed view want x : tracker_ok x ->
  exists x' out, track_pending_with extract init hash_frame view want x = Some (x', out) /\ closed x out x'.
Proof.
  intros Hx. destruct (track_raw_raw view want x Hx) as (x1 & es & E & Hr). unfold track_pending_with. rewrite E.
  rewrite (surjective_pairing (close_all es x1)). eexists _, _. split; [done|]. by apply raw_closed.
Qed.
(** The common part of the sweeps. *)
Lemma sweep_closed now drain x : tracker_ok x ->
  let '(x1, now) := clamp_now now x in
  let '(x2, out) := advance_streams order now drain x1 in
  let '(x3, evs) := sweep_raw now x2 in
  let '(x4, evs) := close_all (released_anomalies out ++ evs) x3 in closed x evs x4.
Proof.
  intros Hx. pose proof (clamp_now_tame now x) as Q1. destruct (clamp_now now x) as [x1 now'].
  pose proof (advance_streams_tame now' drain x1) as Q2. unfold advance_streams in *.
  set (y := reconcile order x1) in *. set (ks := (order (streams y)).*1) in *.
  pose proof (advance_flows_others now' drain ks y) as Qo.
  destruct (advance_flows now' drain ks y) as [x2 out]. cbn [fst snd] in *.
  pose proof (tame_trans _ _ _ Q1 Q2) as Q. assert (tracker_ok x2) as Hx2 by (unfold tracker_ok; by destruct Q as [-> _]).
  pose proof (sweep_tracker_raw now' now' x2 Hx2) as Hr. unfold sweep_raw.
  destruct (sweep_tracker now' now' x2) as [x3 evs]. cbn [fst snd] in Hr.
  assert (raw x2 (released_anomalies out ++ evs) x3) as Hr'.
  { eapply raw_others; [|exact Hr]. symmetry. by apply others_ended. }
  pose proof (raw_closed _ _ _ Hr') as Hc. destruct (close_all _ x3) as [x4 evs']. by eapply closed_trans.
Qed.
Lemma sweep_pending_closed now x : tracker_ok x ->
  closed x (sweep_pending order now x).2 (sweep_pending order now x).1.
Proof.
  intros Hx. pose proof (sweep_closed now false x Hx) as Hc. unfold sweep_pending.
  destruct (clamp_now now x) as [x1 now']. destruct (advance_streams order now' false x1) as [x2 out].
  destruct (sweep_raw now' x2) as [x3 evs]. by destruct (close_all _ x3).
Qed.
Lemma sweep_pending_drain_closed now x : tracker_ok x ->
  let '(x', evs, _) := sweep_pending_drain order now x in closed x evs x'.
Proof.
  intros Hx. pose proof (sweep_closed now true x Hx) as Hc. unfold sweep_pending_drain.
  destruct (clamp_now now x) as [x1 now']. destruct (advance_streams order now' true x1) as [x2 out].
  destruct (sweep_raw now' x2) as [x3 evs]. by destruct (close_all _ x3).
Qed.
Lemma force_close_pending_closed k now x : tracker_ok x ->
  closed x (force_close_pending k now x).2 (force_close_pending k now x).1.
Proof.
  intros Hx. pose proof (force_close_raw_raw k now x Hx) as Hr. unfold force_close_pending.
  destruct (force_close_raw k now x) as [x1 evs]. by apply raw_closed.
Qed.
Lemma finish_closed x : tracker_ok x -> closed x (finish x).2 (finish x).1.
Proof.
  intros Hx. pose proof (sweep_tracker_raw Timestamp.MAX (max_ts x) x Hx) as Hr. unfold finish, finish_raw.
  destruct (sweep_tracker _ _ x) as [x1 evs]. cbn [fst snd] in Hr. apply raw_closed in Hr.
  destruct (close_all evs x1) as [x2 evs']. eapply closed_then; [exact Hr|apply finalize_tame].
Qed.

(** *** Settings *)
Lemma setting_closed x x' : tracker_ok x -> owned (tracker x) [] (tracker x') ->
  (forall k, is_Some (streams x' !! k) -> is_Some (streams x !! k)) -> closed x [] x'.
Proof.
  intros Hx Hw Hs. apply (raw_closed x [] x'). split; [done|]. intros k Hk. left. by apply Hs.
Qed.
(** What a call needs to leave no stream state behind: not to discard a
    side of a flow the driver does not know, and not to shrink the table
    below the flows in it. *)
Definition tame x (c : Call K) : bool :=
  match c with
  | CDiscardSide k _ => is_some (streams x !! k) || contains k (FlowTracker.flows (tracker x))
  | CSetConfig c => FlowTracker.flow_count (tracker x) <=? Z.max (FlowTrackerConfig.max_flows c) 1
  | _ => true
  end.
(** The calls that keep the gates open, and all the flows. *)
Definition open x (c : Call K) : bool :=
  match c with
  | CPause => false
  | CSetConfig s => (FlowTrackerConfig.suppress_events s =? EventMask.empty) && tame x c
  | _ => true
  end.

Lemma discard_covers k side x ks : tracker_ok x -> tame x (CDiscardSide k side) = true ->
  covers x ks -> covers (discard_side k side x) ks.
Proof.
  intros Hx Ht Hc. unfold discard_side. set (f := match streams x !! k with Some f => f | None => _ end).
  destruct (match StreamFlow.side side f with SideSlot.Done _ _ _ => _ | _ => _ end) as [slot back].
  intros k'. cbn. destruct (decide (k' = k)) as [->|Hk]; [|rewrite lookup_insert_ne by done; apply Hc].
  intros _. cbn in Ht. apply orb_true_iff in Ht as [Ht|Ht]; [apply Hc; by destruct (streams x !! k)|].
  left. rewrite contains_iter in Ht. destruct (entry k _) as [v|] eqn:E; [|done]. by eapply entry_Some_key.
Qed.
Lemma set_config_covers c x ks : tracker_ok x -> tame x (CSetConfig c) = true ->
  covers x ks -> covers (set_config c x) ks.
Proof.
  intros Hx Ht Hc k Hk. cbn in Hk. cbn in Ht. unfold FlowTracker.flow_count in Ht. rewrite len_iter in Ht. zb.
  cbn. rewrite iter_resize, ztake_ge by done. by apply Hc.
Qed.
Lemma set_config_open c x L : open x (CSetConfig c) = true -> unfiltered (tracker x) -> describes L (tracker x) ->
  unfiltered (tracker (set_config c x)) /\ describes L (tracker (set_config c x)).
Proof.
  cbn. intros [Hm Ht]%andb_prop [Hp _] [Hd He]. unfold FlowTracker.flow_count in Ht. rewrite len_iter in Ht. zb.
  split; [by split|]. split; [done|]. intros k. cbn. by rewrite iter_resize, ztake_ge.
Qed.
Lemma set_config_ok c x : tracker_ok x -> tracker_ok (set_config c x).
Proof. intros [Hi Ho]. split; [|done]. cbn. by apply (set_config_stepped c (tracker x) Hi). Qed.

(** *** Sessions *)
Notation trace := (Trace K C F R).
Implicit Types (T : trace).
Definition swept T : Prop := covers (driver_of T) (ended_keys (pending T)).
Definition accounted T : Prop := unfiltered (tracker (driver_of T)) /\
  exists L, ledger [] (own (reported T)) = Some L /\ describes L (tracker (driver_of T)).
Definition advances T T' (tidy open : bool) : Prop :=
  tracker_ok (driver_of T') /\ (tidy = true -> swept T -> swept T') /\
  (open = true -> accounted T -> accounted T').

Lemma returned_advances T x evs l h a b : closed (driver_of T) evs x -> advances T (returned T x evs l h) a b.
Proof.
  intros [G1 G2 G3]. split_and!; [done| |].
  - intros _ Hs. specialize (G2 _ Hs). unfold swept. cbn. rewrite ended_keys_app.
    eapply covers_more; [|exact G2]. intros k. rewrite !elem_of_app. tauto.
  - intros _ (Hu & L & EL & Hd). destruct (G3 L Hu Hd) as (Hu' & L' & EL' & Hd'). split; [done|].
    exists L'.
    change (reported (returned T x evs l h)) with (reported T ++ evs). by rewrite own_app, ledger_app, EL.
Qed.
Lemma quiet_advances T x (a b : bool) : tracker_ok x ->
  (a = true -> forall ks, covers (driver_of T) ks -> covers x ks) ->
  (forall L, b = true -> unfiltered (tracker (driver_of T)) -> describes L (tracker (driver_of T)) ->
   unfiltered (tracker x) /\ describes L (tracker x)) -> advances T (quiet T x) a b.
Proof.
  intros Hx Ha Hb. split_and!; [done| |].
  - intros Ea Hs. unfold swept. cbn. rewrite app_nil_r. by apply Ha.
  - intros Eb (Hu & L & EL & Hd). destruct (Hb L Eb Hu Hd) as [Hu' Hd']. unfold accounted, quiet.
    cbn [driver_of returned reported]. rewrite app_nil_r. split; [done|]. by exists L.
Qed.
Lemma resume_owned x : tracker_ok x -> owned (tracker x) [] (tracker (resume_events x)).
Proof. intros [Hi Ho]. apply owned_setting; try done. by intros [_ Hu]. Qed.
Lemma timeouts_owned f x : tracker_ok x -> owned (tracker x) [] (tracker (with_idle_timeout_fn f x)).
Proof. intros [Hi Ho]. by apply owned_setting. Qed.
Lemma discard_tracker k side x : tracker (discard_side k side x) = tracker x.
Proof. unfold discard_side. by destruct (match StreamFlow.side side _ with SideSlot.Done _ _ _ => _ | _ => _ end). Qed.

Lemma step_events c T : tracker_ok (driver_of T) ->
  exists T', step extract init hash_frame order c T = Some T' /\ advances T T' (tame (driver_of T) c) (open (driver_of T) c).
Proof.
  intros Hx. assert (forall x' (a b : bool), closed (driver_of T) [] x' -> advances T (quiet T x') a b) as Hq
    by (intros; by apply returned_advances).
  assert (forall x', tame_stage (driver_of T) x' -> closed (driver_of T) [] x') as Hs by (intros; by apply closed_stage).
  destruct c; cbn [step].
  - destruct (track_pending_closed view want _ Hx) as (x' & out & -> & Hc).
    eexists. split; [done|]. case_match; by apply returned_advances.
  - pose proof (sweep_pending_closed now _ Hx) as Hc. destruct (sweep_pending order now _).
    eexists. split; [done|]. by apply returned_advances.
  - pose proof (sweep_pending_drain_closed now _ Hx) as Hc. destruct (sweep_pending_drain order now _) as [[x' evs] out].
    eexists. split; [done|]. by apply returned_advances.
  - pose proof (force_close_pending_closed k now _ Hx) as Hc. destruct (force_close_pending k now _).
    eexists. split; [done|]. by apply returned_advances.
  - pose proof (finish_closed _ Hx) as Hc. destruct (finish _).
    eexists. split; [done|]. by apply returned_advances.
  - eexists. split; [done|]. pose proof (finalize_tame (pending T) (driver_of T)) as Ht. pose proof Ht as [Et _].
    split_and!; cbn.
    + unfold tracker_ok. by rewrite Et.
    + intros _ Hsw. unfold swept. cbn. apply finalize_covers. by rewrite app_nil_r.
    + intros _ (Hu & L & EL & Hd). split; cbn; rewrite Et; [done|]. by exists L.
  - pose proof (drain_stream_tame k side StreamChunks.new (driver_of T)) as Ht.
    destruct (drain_stream k side _ _) as [[x' out] b]. eexists. split; [done|].
    by apply returned_advances, Hs.
  - eexists. split; [done|]. pose proof (discard_tracker k side (driver_of T)) as Et.
    apply quiet_advances; [unfold tracker_ok; by rewrite Et|by intros; apply discard_covers|by rewrite Et].
  - eexists. split; [done|]. apply quiet_advances; [by apply set_config_ok|by intros; apply set_config_covers|]. intros L. by apply set_config_open.
  - eexists. split; [done|]. apply quiet_advances; [|by intros _ ks|done].
    destruct Hx as [Hi Ho]. split; [|done]. by destruct Hi.
  - eexists. split; [done|]. apply Hq, setting_closed; [done|by apply resume_owned|done].
  - eexists. split; [done|]. by apply Hq, Hs.
  - eexists. split; [done|]. by apply Hq, Hs.
  - eexists. split; [done|]. by apply Hq, Hs.
  - eexists. split; [done|]. by apply Hq, Hs.
  - eexists. split; [done|]. apply Hq, setting_closed; [done|by apply timeouts_owned|done].
Qed.

(** Whether every call of a session is tame, or open, where it is made. *)
Fixpoint tame_run (cs : list (Call K)) T : bool :=
  match cs with
  | [] => true
  | c :: cs =>
      tame (driver_of T) c
      && match step extract init hash_frame order c T with Some T => tame_run cs T | None => true end
  end.
Fixpoint open_run (cs : list (Call K)) T : bool :=
  match cs with
  | [] => true
  | c :: cs =>
      open (driver_of T) c
      && match step extract init hash_frame order c T with Some T => open_run cs T | None => true end
  end.
Lemma run_events cs : forall T, tracker_ok (driver_of T) ->
  exists T', run extract init hash_frame order cs T = Some T' /\ advances T T' (tame_run cs T) (open_run cs T).
Proof.
  induction cs as [|c cs IH]; intros T Hx; cbn; [by exists T; split_and!|].
  destruct (step_events c T Hx) as (T1 & -> & Hx1 & S1 & L1). destruct (IH T1 Hx1) as (T2 & -> & Hx2 & S2 & L2).
  exists T2. split; [done|]. split_and!; [done| |].
  - intros [Ea Eb]%andb_true_iff Hs. auto.
  - intros [Ea Eb]%andb_true_iff Hs. auto.
Qed.

Lemma driver_new_ok f c : tracker_ok (with_state_init_and_config f c).
Proof.
  split; [|done]. unfold with_state_init_and_config, from_tracker. cbn [tracker].
  destruct (inv_new (K:=K) (S:=S) (C:=C) c). by split.
Qed.
Lemma new_swept f c : swept (start (with_state_init_and_config f c)).
Proof. intros k. cbn. rewrite lookup_empty. by intros []. Qed.
Lemma new_accounted f c : FlowTrackerConfig.suppress_events c = EventMask.empty ->
  accounted (start (with_state_init_and_config f c)).
Proof.
  intros Hc. split; [by split|]. exists []. split; [done|]. split; [constructor|]. intros k. cbn. by rewrite iter_new.
Qed.
End driver.
