(* ===== verification/DriverProps.v ===== *)
(** * What the flow driver guarantees (src/src/flow_driver.rs) *)

From stdpp Require Import gmap.
From S2P Require Import Prelude Time Flow Config Cells Chunks Packet Event Lru Tracker TrackerFacts TrackerProps Dedup Track Reassembler Buffered Segment SegmentFacts SegmentTerm Factory StreamState StreamFacts FlowDriver DriverSession DriverFacts DriverEvents.
Open Scope Z_scope.
Import FlowDriver Track TrackFacts.

(** What the accepted segments of a flow side carry: byte [b] at sequence
    number [s]. *)
Definition carried {K} (sent : list (K * FlowSide * Z * list Z)) (k : K) (side : FlowSide) (s b : Z) : Prop :=
  exists q p i, (k, side, q, p) ∈ sent /\ p !! i = Some b /\ s = u32 (q + Z.of_nat i).

(** ** A driver of segment buffers whose caps are pinned *)
Module SegmentPool.
Import SegmentBufferReassemblerFactory.
Section pool.
Context {K : Type} (B O L : Z) (B_nonneg : 0 <= B) (O_nonneg : 0 <= O) (L_nonneg : 0 <= L).

Definition capped (f : t) : Prop :=
  pinned_max_buffer f = true /\ pinned_ooo f = true /\
  (exists cap, max_buffer f = Some cap /\ 0 <= cap <= B) /\ 0 <= max_ooo_buffer f <= O.
(** All one reassembler can contribute to the pool. *)
Definition largest : Z := B + O + (Candidate.size_of + L).
Definition settled (st : Settings) : Prop :=
  exists cap ooo pol ov rl, st = (Some cap, ooo, pol, ov, rl) /\ cap <= B /\ 0 <= ooo <= O.
Definition bounded (r : SegmentBufferReassembler.t) : Prop :=
  stray (small L) r /\ exists st d, SegmentFacts.inv any_wire st d r /\ settled st.
Definition fed (e : Event) : Prop := payload_fits L e /\ event_ok any_wire e.

Lemma bounded_step r e : fed e -> bounded r -> bounded (deliver r e).1.
Proof.
  intros [He Hw] [Hs (st & d & Hi & Hst)]. split; [by apply deliver_small|].
  exists st, (d ++ (deliver r e).2). split; [|done]. by apply seg_deliver_inv.
Qed.
Lemma bounded_new f : capped f -> bounded (build f).
Proof.
  intros (_ & _ & (cap & Ec & Hc) & Ho).
  assert (fresh (build f)) as Hf by (apply segment_build_settings; rewrite Ec; intros ? [= <-]; lia).
  split.
  - unfold stray, small, fresh in *. destruct Hf as (_ & -> & _). unfold Candidate.size_of. cbn. lia.
  - exists (settings (build f)), []. split; [by apply seg_fresh_inv|].
    unfold settings, build. rewrite Ec. destruct (high_watermark_threshold_pct f); cbn;
      (do 5 eexists; split_and!; [done|lia|lia|lia]).
Qed.
Lemma bounded_size r : bounded r -> 0 <= SegmentBufferReassembler.current_bytes r <= largest.
Proof.
  intros [Hs (st & d & Hi & (cap & ooo & pol & ov & rl & -> & Hc & Ho))].
  pose proof (i_settings _ _ _ _ _ (proj1 Hi)) as E. unfold settings in E.
  injection E as E1 E2 _ _ _.
  destruct (size_bounded L _ _ _ _ cap Hi Hs E1) as [? ?]; [lia|]. unfold largest. lia.
Qed.
Lemma capped_config c f : capped f -> capped (apply_config c f).
Proof.
  destruct f as [m n o p w u pm po pv pr]. unfold capped. cbn. intros (-> & -> & Hc & Ho).
  unfold apply_config. cbn. by destruct pr, pv.
Qed.

Program Definition pool_inv : SideInv K t SegmentBufferReassembler.t := {|
  allowed _ _ := fed;
  holds _ _ _ := bounded;
  factory_holds := capped;
  sized z := 0 <= z <= largest |}.
Next Obligation. intros k side e He. by destruct e. Qed.
Next Obligation. intros. by apply bounded_step. Qed.
Next Obligation. intros f k side Hf. split; [done|]. by apply bounded_new. Qed.
Next Obligation. intros. by apply bounded_size. Qed.
Next Obligation. unfold largest, Candidate.size_of. lia. Qed.
End pool.
End SegmentPool.

Section props.
Context {K S C F R : Type} `{Countable K} `{!Lru K (FlowEntry.t S) C, !LruLaws K (FlowEntry.t S) C}.
Context `{Reassembler R} `{Diagnostics R} `{!ReassemblerFactory K F R}.
Variable extract : PacketView.t -> option (Extracted.t K).
Variable init : K -> S.
Variable hash_frame : list Z -> Z.
Variable order : gmap K (StreamFlow.t R) -> list (K * StreamFlow.t R).
Notation start_with f c := (start (with_state_init_and_config (S := S) (C := C) (R := R) f c)).
Notation session cs f c := (run (C := C) extract init hash_frame order cs (start_with f c)).

(** C7: a driver never panics and keeps no stream state of a flow that is
    gone.  Any session runs; and if it never discards a side of an unknown
    flow nor shrinks the flow table below its flows, then once the events
    returned so far are finalized every flow with stream state is in the
    tracker's table, and with an empty table no stream state is left. *)
Theorem driver_streams_tracked f c cs : exists T : Trace K C F R,
  session cs f c = Some T /\
  (tame_run extract init hash_frame order cs (start_with f c) = true ->
   let x := finalize (pending T) (driver_of T) in
   (forall k, is_Some (streams x !! k) -> contains k (FlowTracker.flows (tracker x)) = true) /\
   (FlowTracker.flow_count (tracker x) = 0 -> stream_count x = 0)).
Proof.
  destruct (run_events extract init hash_frame order cs (start_with f c) (driver_new_ok f c)) as (T & E & _ & Hs & _).
  exists T. split; [done|]. intros Ht x. specialize (Hs Ht (new_swept f c)).
  assert (covers x []) as Hc by (apply finalize_covers; rewrite app_nil_r; exact Hs).
  assert (forall k, is_Some (streams x !! k) -> contains k (FlowTracker.flows (tracker x)) = true) as Hall.
  { intros k [Hk|Hk%elem_of_nil]%Hc; [|done]. rewrite contains_iter.
    destruct (entry k _) eqn:Ek; [done|]. by apply entry_None in Ek. }
  split; [exact Hall|]. intros H0'. unfold stream_count. rewrite (proj2 (map_size_empty_iff (streams x))); [done|].
  apply map_empty. intros k. destruct (streams x !! k) as [fl|] eqn:Ek; [|done]. exfalso.
  specialize (Hall k ltac:(by exists fl)). unfold FlowTracker.flow_count in H0'. rewrite contains_iter in Hall. rewrite len_iter in H0'.
  destruct (iter (FlowTracker.flows (tracker x))); [done|]. rewrite zlen_cons in H0'.
  match goal with H : 1 + zlen ?l = 0 |- _ => pose proof (zlen_nonneg l) end. lia.
Qed.

(** C6: the driver's event stream refines the tracker's contract.  With
    the gates open (events neither masked nor paused, though every other
    setting may change) and as long as no [set_config] shrinks the flow
    table below its flows, the events a session reports, the driver's own
    anomalies and ticks set aside, are a faithful account of the flows, over
    any packets, sweeps, drains, forced closes and discards: each [Ended], with its final diagnostics merged
    in, carries exactly the packets, bytes, protocol and times of the
    [Started] and [Packet] events of that flow, and the flows left open
    are the live ones with the same figures. *)
Theorem driver_event_ledger f c cs :
  FlowTrackerConfig.suppress_events c = EventMask.empty ->
  open_run extract init hash_frame order cs (start_with f c) = true ->
  exists (T : Trace K C F R) L,
    session cs f c = Some T /\
    ledger [] (own (reported T)) = Some L /\ NoDup (L.*1) /\
    forall k, entry k L =
      (fun e => Tally.of_stats (FlowEntry.stats e) (FlowEntry.l4 e)) <$>
        entry k (iter (FlowTracker.flows (tracker (driver_of T)))).
Proof.
  intros Hc Hp. destruct (run_events extract init hash_frame order cs (start_with f c) (driver_new_ok f c)) as (T & E & _ & _ & Hl).
  destruct (Hl Hp (new_accounted f c Hc)) as (_ & L & EL & Hd1 & Hd2). by exists T, L.
Qed.

(** Hypotheses on what the driver is given: the map is iterated over its
    entries, and an extractor's offsets are [usize]s. *)
Definition ordered : Prop := forall m, order m ≡ₚ map_to_list m.
Definition usize_offsets : Prop := forall view e i,
  extract view = Some e -> Extracted.tcp e = Some i -> 0 <= TcpInfo.payload_offset i.

(** C4: what a consumer hears of a flow side is what its segments carried.
    For any reassembler that keeps its contract, after any session, each
    byte delivered for a side (let through, drained, or released by a
    sweep) was carried by an accepted segment of that side at the sequence
    number of its place in the stream, and no more was delivered than the
    stream's position; and draining a side that has not stopped completes
    it: delivered bytes and gaps add up to the position, and the gaps are
    exactly the bytes reported as lost. *)
Theorem driver_streams_sound `{!ReassemblerLaws R} `{!FactoryLaws K F R} f c cs (T : Trace K C F R) k side r :
  ordered -> usize_offsets -> factory_ok f -> cap_ok (FlowTrackerConfig.max_reassembler_buffer c) ->
  Forall call_ok cs ->
  session cs f c = Some T ->
  reassembler k side (driver_of T) = Some r -> position r <= U64_MAX ->
  cells_at (at_seq (carried (sent T) k side) (origin r)) 0 (heard T k side) /\
  zlen (heard T k side) <= position r /\
  (stop_reason r = None ->
   let '(_, out, _) := drain_stream k side StreamChunks.new (driver_of T) in
   let d := heard T k side ++ StreamChunks.content out in
   zlen d = position r /\ n_missing d = gap_bytes r + bytes_dropped_oversize r).
Proof.
  intros Ho Hu Hf Hc Hcs E Er Hp. set (I := wire_inv (carried (sent T))).
  assert (trace_inv I False 0 (start_with f c)) as H0'.
  { apply inv_start; [done|done|]. by apply law_config. }
  assert (sent_ok I (sent T)) as Hs.
  { intros k' sd q p Hin t. split; cbn; intros i b Hb; exists q, p, i; [|].
    all: split_and!; [done|done|done]. }
  apply (session_inv I False (zlen cs) ltac:(done) extract init hash_frame Hu law_skip
    ltac:(intros; split; apply bytes_at_nil) order Ho (fun c f => law_config f c) cs 0 _ _ Hcs) in E; [|lia|exact H0'|exact Hs].
  destruct E as [[[_ Hg] _ _] _]. unfold reassembler in Er.
  destruct (streams (driver_of T) !! k) as [fl|] eqn:Ek; [|done]. cbn in Er.
  specialize (Hg k fl Ek side). destruct (StreamFlow.side side fl) as [|l|] eqn:El; try done.
  injection Er as <-. destruct Hg as [Hr _]. destruct (law_prefix _ _ _ Hr Hp) as [Hpre Hle].
  split_and!; [exact Hpre|exact Hle|]. intros Hst. pose proof (law_complete _ _ _ Hr Hp Hst) as Hd. unfold drain_stream. rewrite Ek, El. cbn in Hd.
  destruct (drain_into (Live.r l) StreamChunks.new) as [r' out]. exact Hd.
Qed.

(** ** The memory cap *)
Definition releases (policy : MemcapPolicy.t) : bool :=
  match policy with MemcapPolicy.PassThrough | MemcapPolicy.DropFlow => true | _ => false end.
Definition live_side (side : FlowSide) (f : StreamFlow.t R) : bool :=
  match StreamFlow.side side f with SideSlot.Live _ => true | _ => false end.

Lemma tombstone_done side side' (f : StreamFlow.t R) stop :
  live_side side (StreamFlow.set_side side (tombstone (StreamFlow.side side' f) stop).1 f) = false.
Proof. unfold live_side. rewrite side_set_side, decide_True by done. by destruct (StreamFlow.side side' f). Qed.
Lemma live_set_other side v (f : StreamFlow.t R) :
  live_side side (StreamFlow.set_side (opposite side) v f) = live_side side f.
Proof. unfold live_side. by destruct side. Qed.
Lemma enforce_memcap_live cfg side cap (s : Feeding K F R) :
  TcpFeed.memcap_cap cfg = Some cap -> releases (TcpFeed.memcap_policy cfg) = true ->
  live_side side (fd_flow (enforce_memcap cfg side s)) = true -> fd_global (enforce_memcap cfg side s) <= cap.
Proof.
  intros Ec Ep. unfold enforce_memcap. rewrite Ec. case_if; [|zb; intros _; lia]. cbv zeta beta. cbn [fd_flow].
  pose proof (tombstone_done side side (fd_flow s) (Some Memcap)) as Ht.
  destruct (TcpFeed.memcap_policy cfg); try done; cbn.
  all: destruct (tombstone (StreamFlow.side side (fd_flow s)) (Some Memcap)) as [slot back]; cbn in Ht |- *.
  - destruct (tombstone (StreamFlow.side (opposite side) _) _) as [slot' back']. cbn. by rewrite live_set_other, Ht.
  - by rewrite Ht.
Qed.
Lemma feed_flow_live cfg p i cap (s : Feeding K F R) : let s' := (feed_flow cfg p i s).1 in
  TcpFeed.memcap_cap cfg = Some cap -> releases (TcpFeed.memcap_policy cfg) = true -> 0 < wire_of p i ->
  live_side (PacketContext.side p) (fd_flow s') = true -> fd_global s' <= cap.
Proof.
  intros s' Ec Ep Hw. unfold s', feed_flow. cbv zeta. rewrite (proj2 (Z.eqb_neq _ 0)) by lia.
  unfold feed_data. cbv zeta. set (s1 := ensure_slot p _). clearbody s1.
  destruct (StreamFlow.side (PacketContext.side p) (fd_flow s1)) as [|l|] eqn:El; cbn [fst];
    [unfold live_side; by rewrite El| |unfold live_side; by rewrite El].
  destruct (resync (fd_global s1) l) as [g l'].
  assert (refuses cfg (zlen (stream_payload p i)) g = false) as ->.
  { unfold refuses. by destruct (TcpFeed.memcap_policy cfg). }
  destruct (feed_segment cfg p i (Live.r l')) as [r out]. cbn [fst]. by apply enforce_memcap_live.
Qed.

(** The bytes on the wire of the stream segment a packet carried. *)
Definition segment_len (view : PacketView.t) (p : PacketInfo.t K) : Z :=
  match PacketInfo.tcp p with
  | Some i => if is_rst i then 0
              else Z.max (TcpInfo.wire_payload_len i) (zlen (FlowTracker.tcp_payload_of view (Some i)))
  | None => 0
  end.
#[local] Existing Instance FlowDriver.eta.
Lemma on_packet_live view want p (x : FlowDriver.t K C F R) cap : let '(x', _, _) := on_packet want p x in
  PacketContext.tcp_payload p = FlowTracker.tcp_payload_of view (PacketContext.tcp p) ->
  FlowTrackerConfig.reassembly_memcap (FlowTracker.config (tracker x)) = Some cap ->
  releases (FlowTrackerConfig.reassembly_memcap_policy (FlowTracker.config (tracker x))) = true ->
  tracker x' = tracker x /\ exists info, last_packet x' = Some info /\ (0 < segment_len view info ->
  reassembly_memcap_bytes x' <= cap \/ reassembler (PacketInfo.key info) (PacketInfo.side info) x' = None).
Proof.
  unfold on_packet. set (cfg := TcpFeed.mk _ _ _ _). set (k := PacketContext.key p).
  set (x1 := if PacketContext.is_new p then drop_flow k x else x).
  assert (tracker x1 = tracker x) as Et by (unfold x1, drop_flow; by repeat case_match).
  clearbody x1. destruct (PacketContext.tcp p) as [i|].
  2: { intros _ _ _. split; [done|]. eexists. split; [done|]. done. }
  unfold feed_tcp. fold k. set (flow := match streams x1 !! k with Some f => Some f | None => _ end).
  destruct flow as [f|] eqn:Ef.
  2: { intros _ _ _. split; [done|]. eexists. split; [done|]. intros _. right. unfold reassembler. cbn.
       fold k. unfold flow in Ef. by destruct (streams x1 !! k). }
  set (s := feeding (factory x1) f (global_memcap_bytes x1) None []).
  pose proof (feed_flow_live cfg p i cap s) as Hl. destruct (feed_flow cfg p i s) as [s' pass]. cbn [fst] in Hl.
  intros Hpl Ec Ep. specialize (Hl Ec Ep).
  split; [done|]. eexists. split; [done|]. unfold segment_len. cbn [PacketInfo.tcp]. intros Hw.
  unfold reassembler, reassembly_memcap_bytes. cbn. fold k. rewrite lookup_insert_eq. cbn.
  unfold live_side, wire_of, stream_payload in Hl. rewrite Hpl in Hl.
  destruct (is_rst i); [lia|]. specialize (Hl Hw).
  destruct (StreamFlow.side (PacketContext.side p) (fd_flow s')); [by right|left; by apply Hl|by right].
Qed.
Lemma tick_all_config l now : forall x : FlowDriver.t K C F R,
  FlowTracker.config (tracker (tick_all l now x).1) = FlowTracker.config (tracker x).
Proof.
  induction l as [|[k st] l IH]; intros x; cbn; [done|].
  specialize (IH (x <| tracker ::= fun tr => (FlowTracker.mark_ticked k now tr).1 |>)).
  destruct (tick_all l now _) as [x' evs]. cbn in *. rewrite IH. unfold FlowTracker.mark_ticked. by case_match.
Qed.

Lemma ticked_same ts evs out (x x' : FlowDriver.t K C F R) :
  match FlowTrackerConfig.flow_tick_interval (FlowTracker.config (tracker x)) with
  | Some interval =>
      if emits_mask EventMask.TICK x
      then let '(x, ticks) := emit_ticks ts interval x in Some (x, evs ++ ticks) else Some (x, evs)
  | None => Some (x, evs)
  end = Some (x', out) ->
  FlowTracker.config (tracker x') = FlowTracker.config (tracker x) /\ streams x' = streams x /\
  global_memcap_bytes x' = global_memcap_bytes x /\ last_packet x' = last_packet x.
Proof.
  destruct (FlowTrackerConfig.flow_tick_interval _) as [iv|]; [|by intros [= <- _]].
  case_if; [|by intros [= <- _]]. destruct (emit_ticks_same ts iv x) as (_ & E1 & E2 & E3).
  assert (FlowTracker.config (tracker (emit_ticks ts iv x).1) = FlowTracker.config (tracker x)) as E0.
  { unfold emit_ticks. case_if; [done|]. cbv zeta. by rewrite tick_all_config. }
  destruct (emit_ticks ts iv x) as [y tk]. by intros [= <- _].
Qed.
Lemma track_with_payload view tr tr' evs p :
  FlowTracker.track_with extract init view tr = Some (tr', evs, Some p) ->
  PacketContext.tcp_payload p = FlowTracker.tcp_payload_of view (PacketContext.tcp p).
Proof.
  unfold FlowTracker.track_with. destruct (FlowTracker.admit_packet extract view) as [e|]; [|done].
  cbv zeta. destruct (if negb _ && negb _ then _ else _) as [tr1 evs1].
  destruct (peek _ _) as [en|]; [|done].
  destruct (FlowTracker.update_entry _ _ _ _ _) as [en' t]. destruct (FlowTracker.close_or_keep _ _) as [tr2 e2].
  destruct (FlowTracker.auto_sweep _ _) as [tr3 e3]. by intros [= _ _ <-].
Qed.

(** C8: a memory cap with a releasing policy is enforced at every segment.
    When the packet path returns from a segment of at least one byte, either
    the pool is within the cap or the side that was fed holds nothing: no
    reassembler of that side is left. *)
Theorem memcap_enforced view want (x x' : FlowDriver.t K C F R) evs p cap :
  track_raw extract init hash_frame view want x = Some (x', evs) ->
  last_packet x' = Some p -> 0 < segment_len view p ->
  FlowTrackerConfig.reassembly_memcap (FlowTracker.config (tracker x')) = Some cap ->
  releases (FlowTrackerConfig.reassembly_memcap_policy (FlowTracker.config (tracker x'))) = true ->
  reassembly_memcap_bytes x' <= cap \/
  reassembler (PacketInfo.key p) (PacketInfo.side p) x' = None.
Proof.
  intros E El Hw Ec Ep. revert E. unfold track_raw. cbv zeta.
  set (y := match dedup _ with Some _ => _ | None => _ end). destruct y as [x1 keep] eqn:Ey.
  assert (last_packet x1 = None) as Hn.
  { unfold y in Ey. destruct (dedup _) as [d|]; [destruct (Dedup.keep hash_frame view d)|]; by simplify_eq. }
  destruct keep; [|intros [= <- _]; by rewrite Hn in El].
  destruct (clamp_view view x1) as [x2 view2] eqn:Ev.
  assert (PacketView.frame view2 = PacketView.frame view /\ last_packet x2 = None) as [Efr Hn2].
  { unfold clamp_view in Ev. destruct (monotonic_ts x1); by simplify_eq. }
  assert (segment_len view p = segment_len view2 p) as Esl.
  { unfold segment_len, FlowTracker.tcp_payload_of. by rewrite Efr. }
  rewrite Esl in Hw. clear Esl Ev Efr Ey y Hn. unfold track_view. cbv zeta.
  set (x3 := x2 <| max_ts ::= _ |>). assert (last_packet x3 = None) as Hn3 by done.
  destruct (FlowTracker.track_with _ _ view2 _) as [[[tr evs0] ctx]|] eqn:Et; [|done].
  set (x4 := x3 <| tracker := tr |>). destruct ctx as [pc|].
  - pose proof (on_packet_live view2 want pc x4 cap) as Ho.
    pose proof (proj1 (on_packet_streams want pc x4)) as Et5. destruct (on_packet want pc x4) as [[x5 trip] an].
    intros (E1 & E2 & E3 & E4)%ticked_same. cbn in E1, E2, E3, E4.
    cbn in Et5. rewrite E1, Et5 in Ec, Ep. destruct (Ho (track_with_payload _ _ _ _ _ Et) Ec Ep) as (_ & info & Ei & Hi).
    rewrite E4, Ei in El. injection El as <-. unfold reassembly_memcap_bytes, reassembler in *.
    rewrite E2, E3. by apply Hi.
  - intros (_ & _ & _ & E4)%ticked_same. cbn in E4. by rewrite E4, Hn2 in El.
Qed.
End props.

(** ** The memory pool of a driver of segment buffers *)
Section pool.
Context {K S C : Type} `{Countable K} `{!Lru K (FlowEntry.t S) C}.
Notation R := SegmentBufferReassembler.t.
Variable extract : PacketView.t -> option (Extracted.t K).
Variable init : K -> S.
Variable hash_frame : list Z -> Z.
Variable order : gmap K (StreamFlow.t R) -> list (K * StreamFlow.t R).
Notation start_with f c := (start (with_state_init_and_config (S := S) (C := C) (R := R) f c)).
Notation session cs f c := (run (C := C) extract init hash_frame order cs (start_with f c)).

(** C5: the memory pool never drifts.  Whatever calls a session makes, as
    long as the contributions fit the counter (capped reassemblers,
    payloads of at most [L] bytes, and twice the largest contribution times
    the number of calls below 2^64), the tracker-wide counter of the driver
    is exactly the sum of what the live reassemblers were accounted for:
    no packet, loss, drain, sweep, discard, memory-cap release, eviction or
    end of a flow leaks or double-refunds a byte. *)
Theorem driver_pool_exact B O L f c cs (T : Trace K C SegmentBufferReassemblerFactory.t R) :
  ordered order -> usize_offsets extract -> SegmentPool.capped B O f -> 0 <= L ->
  Forall call_ok cs ->
  2 * SegmentPool.largest B O L * zlen cs <= U64_MAX ->
  session cs f c = Some T ->
  Forall (fun s => zlen s.2 <= L) (sent T) ->
  reassembly_memcap_bytes (driver_of T) = total (streams (driver_of T)).
Proof.
  intros Ho Hu Hf HL Hcs Hfit E Hs.
  assert (0 <= B /\ 0 <= O) as [HB HO] by (destruct Hf as (_ & _ & (cap & _ & ?) & ?); lia).
  set (I := SegmentPool.pool_inv (K := K) B O L HB HO HL).
  assert (trace_inv I True 0 (start_with f c)) as H0'.
  { apply inv_start; [done|done|]. by apply SegmentPool.capped_config. }
  assert (forall p q t, zlen p <= L -> SegmentPool.fed L (Segment q p t) /\ SegmentPool.fed L (SegmentInto q p t)) as Hfed
    by (intros; split; (split; [done|by intros ? ?])).
  assert (True -> exists M, (forall z, sized I z -> 0 <= z <= M) /\ 2 * M * zlen cs <= U64_MAX) as Hex
    by (intros _; by exists (SegmentPool.largest B O L)).
  apply (session_inv I True (zlen cs) Hex extract init hash_frame Hu (law_skip (K := K) (F := SegmentBufferReassemblerFactory.t))
    (fun k side q t => Hfed [] q t HL) order Ho (fun c f Hc _ => SegmentPool.capped_config B O c f Hc) cs 0 _ _ Hcs) in E;
    [|lia|exact H0'|].
  - destruct E as [[_ _ Hp] _]. by apply Hp.
  - intros k side q p Hin t. apply Hfed.
    exact (proj1 (Forall_forall _ _) Hs (k, side, q, p) Hin).
Qed.
End pool.

(** ** A concrete driver

    A frame is a key, a direction, TCP flags, a sequence number and
    payload. *)
Module Demo.
Definition extract (v : PacketView.t) : option (Extracted.t Z) :=
  match PacketView.frame v with
  | k :: dir :: flags :: seq :: payload =>
      Some (Extracted.new k (if dir =? 0 then Forward else Reverse) (Some Tcp)
              (Some (TcpInfo.mk flags seq 0 4 (zlen payload) 0 (zlen payload))))
  | _ => None
  end.
Definition init (_ : Z) : () := tt.
Definition hash (f : list Z) : Z := zlen f.
Definition R : Type := SegmentBufferReassembler.t.
Definition order : gmap Z (StreamFlow.t R) -> list (Z * StreamFlow.t R) := map_to_list.
Definition factory : SegmentBufferReassemblerFactory.t :=
  SegmentBufferReassemblerFactory.with_ooo 1000 (from_secs 1)
    (SegmentBufferReassemblerFactory.with_max_buffer (Some 100) SlidingWindow SegmentBufferReassemblerFactory.default).
Definition config : FlowTrackerConfig.t :=
  FlowTrackerConfig.default <| FlowTrackerConfig.max_flows := 2 |>.
Definition packet (k dir flags seq : Z) (payload : list Z) (sec : Z) : Call Z :=
  CTrackPending (PacketView.new (k :: dir :: flags :: seq :: payload) (Timestamp.mk sec 0)) (fun _ => true).
Definition trace : Type := Trace Z (ListLru.t Z (FlowEntry.t ())) SegmentBufferReassemblerFactory.t R.
Notation start := (DriverSession.start
  (with_state_init_and_config (S := ()) (C := ListLru.t Z (FlowEntry.t ())) (R := R) factory config)).
Notation session cs := (run (C := ListLru.t Z (FlowEntry.t ())) extract init hash order cs start).

(** Flow 1 delivers out of order, is drained, loses bytes 109 and 110;
    flow 2 holds data behind a hole; flow 3 evicts it. *)
Definition calls : list (Call Z) :=
  [packet 1 0 2 99 [] 0; packet 1 0 16 104 [5; 6] 0; packet 1 0 16 100 [1; 2; 3; 4] 0; CFinalize;
   CDrain 1 Initiator; packet 1 0 16 106 [7; 8; 9] 1; packet 1 0 16 111 [12; 13] 1;
   packet 2 0 2 999 [] 1; packet 2 0 16 1003 [4; 5] 1; CFinalize;
   packet 1 0 16 113 [14] 4; packet 3 0 2 0 [] 4; CFinalize; CSweepPendingDrain (Timestamp.mk 5 0); CFinalize].
End Demo.

Section witnesses.
Notation keys T := ((fun kf => kf.1) <$> map_to_list (streams (driver_of T))).

Lemma demo_ordered : ordered Demo.order.
Proof. by intros m. Qed.
Lemma demo_offsets : usize_offsets Demo.extract.
Proof.
  intros v e i. unfold Demo.extract. destruct (PacketView.frame v) as [|k [|dir [|fl [|sq pl]]]]; try done.
  intros [= <-] [= <-]. cbn. lia.
Qed.
Lemma demo_capped : SegmentPool.capped 100 1000 Demo.factory.
Proof. split_and!; [done|done|exists 100; split; [done|lia]|done|done]. Qed.
(** Every frame of a session is of a moderate length. *)
Definition short (c : Call Z) : bool :=
  match c with
  | CTrackPending view _ => zlen (PacketView.frame view) <=? U64_MAX
  | CSetConfig _ => false
  | _ => true
  end.
Lemma short_ok cs : forallb short cs = true -> Forall call_ok cs.
Proof.
  induction cs as [|c cs IH]; cbn; [by constructor|]. intros [Hc Hcs]%andb_true_iff.
  constructor; [|by apply IH]. destruct c; try done. cbn in Hc |- *. lia.
Qed.

Lemma driver_streams_tracked_witness :
  tame_run Demo.extract Demo.init Demo.hash Demo.order Demo.calls Demo.start = true /\
  exists T : Demo.trace, Demo.session Demo.calls = Some T /\
  let x := finalize (pending T) (driver_of T) in
  forall k, is_Some (streams x !! k) -> contains k (FlowTracker.flows (tracker x)) = true.
Proof.
  assert (tame_run Demo.extract Demo.init Demo.hash Demo.order Demo.calls Demo.start = true) as Ht
    by (vm_compute; reflexivity).
  split; [exact Ht|].
  destruct (driver_streams_tracked (C := ListLru.t Z (FlowEntry.t ())) Demo.extract Demo.init Demo.hash Demo.order
    Demo.factory Demo.config Demo.calls) as (T & E & H).
  exists T. split; [exact E|]. apply (H Ht).
Defined.

Lemma driver_event_ledger_witness :
  let cs := CSetConfig (Demo.config <| FlowTrackerConfig.max_flows := 3 |>) :: Demo.calls in
  open_run Demo.extract Demo.init Demo.hash Demo.order cs Demo.start = true /\
  exists (T : Demo.trace) L,
    Demo.session cs = Some T /\ ledger [] (own (reported T)) = Some L /\ NoDup (L.*1) /\
    forall k, entry k L =
      (fun e => Tally.of_stats (FlowEntry.stats e) (FlowEntry.l4 e)) <$>
        entry k (iter (FlowTracker.flows (tracker (driver_of T)))).
Proof.
  intros cs. assert (open_run Demo.extract Demo.init Demo.hash Demo.order cs Demo.start = true) as Ho
    by (vm_compute; reflexivity).
  split; [exact Ho|].
  exact (driver_event_ledger (C := ListLru.t Z (FlowEntry.t ())) Demo.extract Demo.init Demo.hash Demo.order
    Demo.factory Demo.config cs eq_refl Ho).
Defined.

(** Fourteen bytes of flow 1 were heard, two of them lost. *)
Lemma driver_streams_sound_witness :
  match Demo.session Demo.calls with
  | Some T =>
      heard T 1 Initiator = [Some 1; Some 2; Some 3; Some 4; Some 5; Some 6; Some 7; Some 8; Some 9;
                             None; None; Some 12; Some 13; Some 14] /\
      match reassembler 1 Initiator (driver_of T) with
      | Some r =>
          cells_at (at_seq (carried (sent T) 1 Initiator) (origin r)) 0 (heard T 1 Initiator) /\
          zlen (heard T 1 Initiator) <= position r
      | None => False
      end
  | None => False
  end.
Proof.
  assert (match Demo.session Demo.calls with
          | Some T => match reassembler 1 Initiator (driver_of T) with
                      | Some r => position r <=? U64_MAX | None => false end
          | None => false end = true) as Hp by (vm_compute; reflexivity).
  assert (option_map (fun T : Demo.trace => heard T 1 Initiator) (Demo.session Demo.calls)
    = Some [Some 1; Some 2; Some 3; Some 4; Some 5; Some 6; Some 7; Some 8; Some 9;
            None; None; Some 12; Some 13; Some 14]) as Hh by (vm_compute; reflexivity).
  pose proof (short_ok Demo.calls eq_refl) as Hc.
  destruct (Demo.session Demo.calls) as [T|] eqn:E; [|discriminate Hp].
  split; [by injection Hh|].
  destruct (reassembler 1 Initiator (driver_of T)) as [r|] eqn:Er; [|discriminate Hp].
  destruct (driver_streams_sound (C := ListLru.t Z (FlowEntry.t ())) Demo.extract Demo.init Demo.hash Demo.order
    Demo.factory Demo.config Demo.calls T 1 Initiator r demo_ordered demo_offsets) as (H1 & H2 & _);
    [intros cap [= <-]; lia|intros cap Hcap; vm_compute in Hcap; injection Hcap as <-; lia|exact Hc|exact E|exact Er|by apply Z.leb_le|].
  split; [exact H1|exact H2].
Defined.

(** In the middle of the session the pool holds 135 bytes of two flows. *)
Lemma driver_pool_exact_witness :
  match Demo.session (take 9 Demo.calls) with
  | Some T => reassembly_memcap_bytes (driver_of T) = 135 /\
              reassembly_memcap_bytes (driver_of T) = total (streams (driver_of T))
  | None => False
  end.
Proof.
  assert (option_map (fun T : Demo.trace => (reassembly_memcap_bytes (driver_of T),
      forallb (fun s => zlen s.2 <=? 8) (sent T))) (Demo.session (take 9 Demo.calls)) = Some (135, true)) as Hp
    by (vm_compute; reflexivity).
  pose proof (short_ok (take 9 Demo.calls) eq_refl) as Hc.
  destruct (Demo.session (take 9 Demo.calls)) as [T|] eqn:E; [|discriminate Hp].
  injection Hp as Hb Hs. split; [exact Hb|].
  apply (driver_pool_exact (C := ListLru.t Z (FlowEntry.t ())) Demo.extract Demo.init Demo.hash Demo.order 100 1000 8
    Demo.factory Demo.config (take 9 Demo.calls) T demo_ordered demo_offsets demo_capped); [lia|exact Hc|vm_compute; discriminate|exact E|].
  rewrite List.forallb_forall in Hs. apply List.Forall_forall. intros s Hin. by apply Z.leb_le, Hs.
Defined.

(** A segment behind a hole takes 133 bytes; the cap is 50. *)
Lemma memcap_enforced_witness :
  let c := Demo.config <| FlowTrackerConfig.reassembly_memcap := Some 50 |>
             <| FlowTrackerConfig.reassembly_memcap_policy := MemcapPolicy.PassThrough |> in
  let x := with_state_init_and_config (K := Z) (S := ()) (C := ListLru.t Z (FlowEntry.t ())) (R := Demo.R) Demo.factory c in
  let view q := PacketView.new [1; 0; 16; q; 4; 5] (Timestamp.mk 1 0) in
  match track_raw Demo.extract Demo.init Demo.hash (view 100) (fun _ => true) x with
  | Some (x1, _) =>
      match track_raw Demo.extract Demo.init Demo.hash (view 200) (fun _ => true) x1 with
      | Some (x2, _) =>
          match last_packet x2 with
          | Some p => 0 < segment_len (view 200) p /\ reassembler 1 Initiator x1 <> None /\
              (reassembly_memcap_bytes x2 <= 50 \/ reassembler (PacketInfo.key p) (PacketInfo.side p) x2 = None)
          | None => False
          end
      | None => False
      end
  | None => False
  end.
Proof.
  intros c x view.
  assert (match track_raw Demo.extract Demo.init Demo.hash (view 100) (fun _ => true) x with
    | Some (x1, _) => is_some (reassembler 1 Initiator x1) &&
        match track_raw Demo.extract Demo.init Demo.hash (view 200) (fun _ => true) x1 with
        | Some (x2, _) =>
            match last_packet x2 with
            | Some p => (0 <? segment_len (view 200) p)
                && bool_decide (FlowTrackerConfig.reassembly_memcap (FlowTracker.config (tracker x2)) = Some 50)
                && releases (FlowTrackerConfig.reassembly_memcap_policy (FlowTracker.config (tracker x2)))
            | None => false
            end
        | None => false
        end
    | None => false end = true) as Hp by (vm_compute; reflexivity).
  destruct (track_raw _ _ _ (view 100) _ x) as [[x1 o1]|]; [|discriminate Hp].
  apply andb_true_iff in Hp as [Hl Hp].
  destruct (track_raw _ _ _ (view 200) _ x1) as [[x2 o2]|] eqn:E; [|discriminate Hp].
  destruct (last_packet x2) as [p|] eqn:El; [|discriminate Hp].
  apply andb_true_iff in Hp as [Hp H3]. apply andb_true_iff in Hp as [H1 H2].
  apply Z.ltb_lt in H1. apply bool_decide_eq_true in H2. split; [exact H1|]. split.
  - intros Hn. rewrite Hn in Hl. discriminate Hl.
  - exact (memcap_enforced Demo.extract Demo.init Demo.hash (view 200) (fun _ => true) x1 x2 o2 p 50 E El H1 H2 H3).
Defined.

(** A flaw.  A configuration with a smaller table drops flows from the
    tracker without an [Ended] event, and [reconcile] compares only the
    flows ended and forgotten: their stream state stays, the pool still
    counts it, and no sweep, finish or finalize ever takes it back. *)
Lemma shrinking_leaks_streams :
  let shrunk := FlowTrackerConfig.default <| FlowTrackerConfig.max_flows := 1 |> in
  let calls := take 9 Demo.calls ++ [CSetConfig shrunk; CSweepPendingDrain (Timestamp.mk 1000 0); CFinalize;
                                     CFinish; CFinalize; CSweepPendingDrain (Timestamp.mk 9000 0)] in
  tame_run Demo.extract Demo.init Demo.hash Demo.order calls Demo.start = false /\
  match Demo.session calls with
  | Some T => FlowTracker.flow_count (tracker (driver_of T)) = 0 /\
              keys T = [1] /\ 0 < reassembly_memcap_bytes (driver_of T)
  | None => False
  end.
Proof. vm_compute. by split_and!. Qed.
(** A flaw.  Discarding a side of a flow the driver does not know creates
    stream state for it, which nothing removes. *)
Lemma discarding_unknown_leaks :
  let calls := [CDiscardSide 7 Initiator; CSweepPendingDrain (Timestamp.mk 1000 0); CFinish; CFinalize] in
  match Demo.session calls with
  | Some T => FlowTracker.flow_count (tracker (driver_of T)) = 0 /\ keys T = [7]
  | None => False
  end.
Proof. vm_compute. by split. Qed.
End witnesses.
