(* ===== verification/EngineProps.v ===== *)
(** * The engine keeps no state of a flow that is gone
      (src/src/session/engine.rs)

    [DispatchLaws] is what the engine relies on: a dispatch keeps state only
    of flows it was handed something of, and gives it up when the flow ends
    or is dropped.  Both cores meet it. *)

From stdpp Require Import gmap.
From S2P Require Import Prelude Time Flow Config Chunks Packet Event Lru Tracker TrackerFacts Dedup Track Reassembler Factory StreamState FlowDriver DriverSession DriverEvents Parser SessionCore DatagramCore SessionEngine SessionDriver.
Open Scope Z_scope.

Class DispatchLaws (K D O : Type) `{!Dispatch K D O} := {
  has : D -> K -> Prop;
  law_on_stream cx ports s d k : has (on_stream cx ports s d).1 k -> has d k \/ k = Ctx.key cx;
  law_on_datagram cx ports payload d k : has (on_datagram cx ports payload d).1 k -> has d k \/ k = Ctx.key cx;
  law_on_flow_end k reason stats finals ports emit d k' :
    has (on_flow_end k reason stats finals ports emit d).1 k' -> has d k' /\ k' <> k;
  law_tick now stamp orientation_of emit d k : has (dispatch_tick now stamp orientation_of emit d).1 k -> has d k;
  law_retain alive d k : has (retain alive d) k -> has d k /\ alive k = true;
  law_lifecycle ev tcp d k : has (lifecycle ev tcp d).1 k -> has d k }.

Section engine.
Context {K C F R D O : Type} `{Countable K} `{!Lru K (FlowEntry.t unit) C, !LruLaws K (FlowEntry.t unit) C}.
Context `{Reassembler R} `{Diagnostics R} `{!ReassemblerFactory K F R} `{!Dispatch K D O, !DispatchLaws K D O} `{FrameParser}.
Notation driver := (FlowDriver.t K C F R).
Notation events := (list (FlowEvent K)).
Implicit Types (x : driver) (d : D) (evs : events).
Import FlowDriver Engine.
#[local] Existing Instance FlowDriver.eta.
Notation live x := ((iter (FlowTracker.flows (tracker x))).*1).
Notation known x k := (is_Some (streams x !! k)).

(** The dispatch's state is about tracked flows, flows in [ks], or [excused]
    ones. *)
Variable excused : K -> Prop.
Definition owns x d (ks : list K) : Prop := forall k, has d k -> k ∈ live x \/ k ∈ ks \/ excused k.
(** Stream state of other flows stays. *)
Definition stays_but (ks : list K) x x' : Prop :=
  tame_stage x x' /\ forall k, k ∉ ks -> known x k -> known x' k.

Lemma stays_refl ks x : stays_but ks x x.
Proof. done. Qed.
Lemma stays_trans ks x x1 x2 : stays_but ks x x1 -> stays_but ks x1 x2 -> stays_but ks x x2.
Proof. intros [T1 S1] [T2 S2]. split; [by eapply tame_trans|auto]. Qed.
Lemma insert_stays ks k f x x' : tracker x' = tracker x -> streams x' = <[k := f]> (streams x) -> known x k -> stays_but ks x x'.
Proof.
  intros Et Es Hk. split; [split; [done|]|]; intros k'; rewrite Es; [by apply insert_known|].
  intros _ Hk'. destruct (decide (k = k')) as [->|]; [by rewrite lookup_insert_eq|by rewrite lookup_insert_ne].
Qed.
Lemma close_flow_stays ks k stats x : stays_but ks x (close_flow k stats x).1.1.
Proof.
  unfold close_flow. destruct (streams x !! k) as [f|] eqn:E; [|done].
  destruct (fold_left _ SIDES _) as [[f' st] out]. by eapply (insert_stays _ k); [..|rewrite E].
Qed.
Lemma drain_stream_stays ks k side out x : stays_but ks x (drain_stream k side out x).1.1.
Proof.
  unfold drain_stream. destruct (streams x !! k) as [f|] eqn:E; [|done].
  destruct (StreamFlow.side side f) as [|l|st sp rep]; [done| |].
  - destruct (drain_into (Live.r l) out) as [r o]. destruct (resync _ _) as [g l'].
    by eapply (insert_stays _ k); [..|rewrite E].
  - destruct rep; [done|]. by eapply (insert_stays _ k); [..|rewrite E].
Qed.
Lemma drained_known k side out x : (drain_stream k side out x).2 = true -> known x k.
Proof. unfold drain_stream. by destruct (streams x !! k). Qed.
Lemma discard_side_stays ks k side x : known x k -> stays_but ks x (discard_side k side x).
Proof.
  intros Hk. unfold discard_side. destruct (match StreamFlow.side side _ with SideSlot.Done _ _ _ => _ | _ => _ end) as [slot back].
  by eapply (insert_stays _ k).
Qed.
Lemma discard_done_stays ks k done x : known x k -> stays_but ks x (discard_done k done x).
Proof.
  intros Hk. destruct done as [[] []]; cbn; [|by apply discard_side_stays..|done].
  unfold discard_stream. cbn. eapply stays_trans; [by apply (discard_side_stays ks k Initiator)|]. apply discard_side_stays.
  unfold discard_side. destruct (match StreamFlow.side Initiator _ with SideSlot.Done _ _ _ => _ | _ => _ end) as [slot back].
  cbn. by rewrite lookup_insert_eq.
Qed.

Lemma show_has shown evs : forall d k, has (show (O := O) shown evs d).1 k -> has d k.
Proof.
  induction evs as [|a evs IH]; intros d k; cbn; [done|].
  assert (forall k, has (if shown a then lifecycle a None d else (d, [])).1 k -> has d k) as G.
  { intros k'. case_if; [apply law_lifecycle|done]. }
  destruct (if shown a then lifecycle a None d else (d, [])) as [d1 o1]. specialize (IH d1 k).
  destruct (show shown evs d1) as [d2 o2]. cbn in *. auto.
Qed.

(** *** Ended flows *)
Lemma stays_covers ks ks' x x' : stays_but ks x x' -> covers x ks' -> covers x' ks'.
Proof. intros [T _]. by apply covers_stage. Qed.
Lemma stays_owns ks ks' x x' d : stays_but ks x x' -> owns x d ks' -> owns x' d ks'.
Proof. intros [[E _] _] Ho k Hk. rewrite E. by apply Ho. Qed.
Lemma drop_flow_stays k x : stays_but [k] x (drop_flow k x).
Proof.
  split; [apply drop_flow_tame|]. intros k' N Hk. unfold drop_flow. destruct (streams x !! k); [|done]. cbn.
  rewrite lookup_delete_ne; [done|]. intros <-. apply N. by left.
Qed.
Lemma end_flow_spec k reason stats visible gate x d ks :
  covers x (k :: ks) -> owns x d (k :: ks) ->
  let '(x', d', _, _) := end_flow (O := O) k reason stats visible gate x d in
  stays_but [k] x x' /\ covers x' ks /\ owns x' d' ks.
Proof.
  intros Hc Ho. unfold end_flow. pose proof (close_flow_stays [k] k stats x) as S1.
  destruct (close_flow k stats x) as [[x1 stats1] an]. cbn [fst] in S1.
  pose proof (show_has (fun a => emits a x1) an d) as G1. destruct (show (fun a => emits a x1) an d) as [d1 o1]. cbn [fst] in G1.
  pose proof (drain_stream_stays [k] k Initiator StreamChunks.new x1) as S2.
  destruct (drain_stream k Initiator StreamChunks.new x1) as [[x2 init] b2]. cbn [fst] in S2.
  pose proof (drain_stream_stays [k] k Responder StreamChunks.new x2) as S3.
  destruct (drain_stream k Responder StreamChunks.new x2) as [[x3 resp] b3]. cbn [fst] in S3.
  assert (S : stays_but [k] x x3) by (eapply stays_trans; [|done]; by eapply stays_trans).
  pose proof (law_on_flow_end k reason stats1 (Sides.mk init resp) (stream_ports k x3) (gate <| Emit.flow_end_closes := visible |>) d1) as G2.
  destruct (on_flow_end _ _ _ _ _ _ d1) as [d2 o2]. cbn [fst] in G2.
  split_and!.
  - eapply stays_trans; [done|apply drop_flow_stays].
  - apply drop_covers. by eapply stays_covers.
  - intros k' [Hk' N]%G2. apply G1 in Hk'. destruct (drop_flow_tame k x3) as [E _]. destruct S as [[E3 _] _].
    unfold finalize_flow. rewrite E, E3. destruct (Ho k' Hk') as [?|[[?|?]%elem_of_cons|?]]; [by left|done|by right; left|by right; right].
Qed.
Lemma forward_spec ev tcp gate x d ks :
  covers x (ended_keys [ev] ++ ks) -> owns x d (ended_keys [ev] ++ ks) ->
  let '(x', d', _, _) := forward (O := O) ev tcp gate x d in
  stays_but (ended_keys [ev]) x x' /\ covers x' ks /\ owns x' d' ks.
Proof.
  intros Hc Ho. unfold forward. cbv zeta.
  assert (let '(_, x', d', _) := match ev with
    | Ended k reason stats history l4 =>
        let '(x, d, stats, out) := end_flow k reason stats (emits ev x) gate x d in (Ended k reason stats history l4, x, d, out)
    | _ => (ev, x, d, @nil O)
    end in stays_but (ended_keys [ev]) x x' /\ covers x' ks /\ owns x' d' ks) as G.
  { destruct ev; try by split_and!. cbn [ended_keys app] in *. pose proof (end_flow_spec key reason stats (emits (Ended key reason stats history l4) x) gate x d ks Hc Ho) as G.
    by destruct (end_flow key reason stats _ gate x d) as [[[x' d'] st] o]. }
  destruct (match ev with Ended _ _ _ _ _ => _ | _ => _ end) as [[[ev' x'] d'] o1].
  destruct (negb _); [done|]. destruct (match ev' with Packet _ _ _ _ _ _ => _ | _ => _ end) as [tcp' tcp''].
  pose proof (law_lifecycle ev' tcp' d') as L. destruct (lifecycle ev' tcp' d') as [d2 o2]. cbn [fst] in L.
  destruct G as (G1 & G2 & G3). split_and!; [done|done|]. intros k Hk. by apply G3, L.
Qed.
Lemma forward_all_spec evs gate : forall x d ks,
  covers x (ended_keys evs ++ ks) -> owns x d (ended_keys evs ++ ks) ->
  let '(x', d', _) := forward_all (O := O) evs gate x d in tracker x' = tracker x /\ covers x' ks /\ owns x' d' ks.
Proof.
  induction evs as [|ev evs IH]; intros x d ks Hc Ho; [done|]. cbn [forward_all].
  change (ev :: evs) with ([ev] ++ evs) in Hc, Ho. rewrite ended_keys_app, <- app_assoc in Hc, Ho.
  pose proof (forward_spec ev None gate x d _ Hc Ho) as G. destruct (forward ev None gate x d) as [[[x1 d1] t1] o1].
  destruct G as ([[E1 _] _] & G1 & G2). specialize (IH x1 d1 ks G1 G2). destruct (forward_all evs gate x1 d1) as [[x2 d2] o2].
  destruct IH as (E2 & ? & ?). split_and!; [congruence|done..].
Qed.

(** *** The packet *)
Definition packet_known (view : PacketView.t) x (p : PacketInfo.t K) : Prop :=
  is_Some (PacketInfo.passthrough_bytes (PacketView.frame view) p) -> known x (PacketInfo.key p).
Lemma dispatch_packet_spec p view ports gate x d ks :
  packet_known view x p -> covers x ks -> owns x d ks -> PacketInfo.key p ∈ live x \/ PacketInfo.key p ∈ ks ->
  let '(x', d', _) := dispatch_packet (O := O) p view ports gate x d in
  stays_but [] x x' /\ covers x' ks /\ owns x' d' ks.
Proof.
  intros Hp Hc Ho Hk. unfold dispatch_packet. set (cx := packet_ctx p gate). set (k := PacketInfo.key p).
  assert (St : forall s x1, stays_but [] x x1 -> known x1 k ->
    let '(x', d', _) := let (d1, o) := on_stream cx ports s d in (discard_done k (streams_done k ports d1) x1, d1, o) in
    stays_but [] x x' /\ covers x' ks /\ owns x' d' ks).
  { intros s x1 S1 K1. pose proof (law_on_stream cx ports s d) as L. destruct (on_stream cx ports s d) as [d1 o]. cbn [fst] in L.
    assert (S : stays_but [] x (discard_done k (streams_done k ports d1) x1)) by (eapply stays_trans; [done|by apply discard_done_stays]).
    split_and!; [done|by eapply stays_covers|]. eapply stays_owns; [done|].
    intros k' [Hk'|Hk']%L; [by apply Ho|]. rewrite Hk'. tauto. }
  assert (Dg : let '(x', d', _) :=
    (if wants_datagram ports (PacketInfo.l4 p) d then
       match (match PacketInfo.l4_meta p with
              | Some m => if L4Meta.is_truncated m then Err tt else Ok (Some (L4Meta.payload (PacketView.frame view) m))
              | None => datagram_payload (PacketView.frame view)
              end) with
       | Ok (Some payload) => let (d, out) := on_datagram cx ports payload d in (x, d, out)
       | Ok None | Err _ => (x, d, [])
       end
     else (x, d, [])) in stays_but [] x x' /\ covers x' ks /\ owns x' d' ks).
  { destruct (wants_datagram _ _ d); [|done]. destruct (match PacketInfo.l4_meta p with Some _ => _ | None => _ end) as [[payload|]|]; try done.
    pose proof (law_on_datagram cx ports payload d) as L. destruct (on_datagram cx ports payload d) as [d1 o]. cbn [fst] in L.
    split_and!; [done|done|]. intros k' [Hk'|Hk']%L; [by apply Ho|]. rewrite Hk'. tauto. }
  destruct (PacketInfo.l4 p) as [[]|]; try exact Dg. clear Dg.
  unfold packet_known in Hp. destruct (PacketInfo.passthrough_bytes (PacketView.frame view) p) as [bytes|].
  - destruct (is_nil bytes); [done|]. apply St; [done|]. by apply Hp.
  - pose proof (drain_stream_stays [] k (PacketInfo.side p) StreamChunks.new x) as S1.
    pose proof (drained_known k (PacketInfo.side p) StreamChunks.new x) as K1.
    destruct (drain_stream k (PacketInfo.side p) StreamChunks.new x) as [[x1 scratch] drained]. cbn [fst snd] in *.
    destruct (negb drained || _) eqn:E.
    + split_and!; [done|by eapply stays_covers|by eapply stays_owns].
    + apply orb_false_iff in E as [E _]. apply negb_false_iff in E. apply St; [done|]. by apply S1, K1; [apply not_elem_of_nil|].
Qed.

Lemma forward_packet_spec view ports gate evs : forall packet tcp x d,
  (forall p, packet = Some p -> packet_known view x p /\ (PacketInfo.key p ∈ live x \/ PacketInfo.key p ∈ ended_keys evs)) ->
  covers x (ended_keys evs) -> owns x d (ended_keys evs) ->
  let '(x', d', _) := forward_packet (O := O) packet view ports gate evs tcp x d in
  tracker x' = tracker x /\ covers x' [] /\ owns x' d' [].
Proof.
  induction evs as [|ev evs IH]; intros packet tcp x d Hp Hc Ho; cbn [forward_packet].
  - destruct packet as [p|]; [|done]. destruct (Hp p eq_refl) as [P1 P2].
    pose proof (dispatch_packet_spec p view ports gate x d [] P1 Hc Ho P2) as G.
    destruct (dispatch_packet p view ports gate x d) as [[x' d'] o]. destruct G as ([[E _] _] & ? & ?). done.
  - change (ev :: evs) with ([ev] ++ evs) in Hc, Ho, Hp. rewrite ended_keys_app in Hc, Ho.
    assert (let '(packet', x1, d1, _) := match packet with
      | Some p => if ends_key p ev
                  then let '(x, d, out) := dispatch_packet p view ports gate x d in (None, x, d, out)
                  else (packet, x, d, @nil O)
      | None => (None, x, d, [])
      end in stays_but [] x x1 /\ covers x1 (ended_keys [ev] ++ ended_keys evs) /\ owns x1 d1 (ended_keys [ev] ++ ended_keys evs)
        /\ forall p, packet' = Some p -> packet = Some p /\ ends_key p ev = false) as G.
    { destruct packet as [p|]; [|by split_and!]. destruct (Hp p eq_refl) as [P1 P2]. rewrite ended_keys_app in P2.
      destruct (ends_key p ev) eqn:Ek; [|split_and!; try done; by intros p' [= <-]].
      pose proof (dispatch_packet_spec p view ports gate x d _ P1 Hc Ho P2) as G.
      destruct (dispatch_packet p view ports gate x d) as [[x' d'] o]. destruct G as (? & ? & ?). by split_and!. }
    destruct (match packet with Some _ => _ | None => _ end) as [[[packet' x1] d1] o1].
    destruct G as (S1 & C1 & O1 & P1). pose proof (forward_spec ev tcp gate x1 d1 _ C1 O1) as G.
    destruct (forward ev tcp gate x1 d1) as [[[x2 d2] tcp'] o2]. destruct G as (S2 & C2 & O2).
    assert (E2 : tracker x2 = tracker x) by (destruct S1 as [[? _] _], S2 as [[? _] _]; congruence).
    specialize (IH packet' tcp' x2 d2). destruct (forward_packet packet' view ports gate evs tcp' x2 d2) as [[x3 d3] o3].
    destruct IH as (E3 & C3 & O3); [|done|done|split_and!; [congruence|done..]].
    intros p [-> Ek]%P1. destruct (Hp p eq_refl) as [K1 K2]. rewrite ended_keys_app in K2.
    assert (N : PacketInfo.key p ∉ ended_keys [ev]).
    { destruct ev; cbn in *; try apply not_elem_of_nil. apply bool_decide_eq_false in Ek. intros [E|[]%elem_of_nil]%elem_of_cons. congruence. }
    split.
    + intros Q. apply S2; [done|]. apply S1; [apply not_elem_of_nil|]. by apply K1.
    + rewrite E2. destruct K2 as [?|[?|?]%elem_of_app]; [by left|by destruct N|by right].
Qed.

End engine.

Section calls.
Context {K C F R D O : Type} `{Countable K} `{!Lru K (FlowEntry.t unit) C, !LruLaws K (FlowEntry.t unit) C}.
Context `{Reassembler R} `{Diagnostics R} `{!ReassemblerFactory K F R} `{!Dispatch K D O, !DispatchLaws K D O} `{FrameParser}.
Variable extract : PacketView.t -> option (Extracted.t K).
Variable hash_frame : list Z -> Z.
Variable order : gmap K (StreamFlow.t R) -> list (K * StreamFlow.t R).
Notation driver := (FlowDriver.t K C F R).
Notation events := (list (FlowEvent K)).
Implicit Types (x : driver) (d : D) (evs : events).
Import FlowDriver Engine.
#[local] Existing Instance FlowDriver.eta.
Notation live x := ((iter (FlowTracker.flows (tracker x))).*1).
Notation known x k := (is_Some (streams x !! k)).

(** What [track_raw] says of its packet. *)
Lemma passthrough_fed want p x : let x' := (on_packet want p x).1.1 in
  exists info, last_packet x' = Some info /\ PacketInfo.key info = PacketContext.key p /\
  (is_Some (PacketInfo.passthrough info) -> known x' (PacketContext.key p)).
Proof.
  unfold on_packet. set (x1 := if PacketContext.is_new p then _ else x). clearbody x1.
  destruct (PacketContext.tcp p) as [i|]; [|cbn; eexists; split_and!; [done..|by intros []]].
  unfold feed_tcp. destruct (match streams x1 !! PacketContext.key p with Some _ => _ | None => _ end) as [f|].
  - destruct (feed_flow _ _ _ _) as [s pass]. cbn. eexists; split_and!; [done..|]. intros _. by rewrite lookup_insert_eq.
  - cbn. eexists; split_and!; [done..|by intros []].
Qed.
Lemma tick_all_quiet l now : forall x, live (tick_all l now x).1 = live x /\ streams (tick_all l now x).1 = streams x
  /\ last_packet (tick_all l now x).1 = last_packet x /\ ended_keys (tick_all l now x).2 = [].
Proof.
  induction l as [|[k st] l IH]; intros x; cbn; [done|].
  set (x1 := x <| tracker ::= fun tr => (FlowTracker.mark_ticked k now tr).1 |>).
  specialize (IH x1). destruct (tick_all l now x1) as [x2 es]. cbn in *. destruct IH as (-> & -> & -> & E).
  split_and!; [|done..]. unfold FlowTracker.mark_ticked. case_match; [|done]. cbn.
  by rewrite iter_peek_mut, keys_modify.
Qed.
Lemma emit_ticks_quiet now iv x : live (emit_ticks now iv x).1 = live x /\ streams (emit_ticks now iv x).1 = streams x
  /\ last_packet (emit_ticks now iv x).1 = last_packet x /\ ended_keys (emit_ticks now iv x).2 = [].
Proof. unfold emit_ticks. case_if; [done|]. cbv zeta.
  set (x1 := x <| last_tick_scan := Some now |>). set (l := _ <$> List.filter _ _). exact (tick_all_quiet l now x1).
Qed.

Lemma place_ended k extra evs : Forall (fun e => is_own e = false) extra -> ended_keys (place k extra evs) = ended_keys evs.
Proof. intros N. rewrite <- (own_ended (place k extra evs)), place_own, own_ended by done. done. Qed.
Lemma track_view_packet view want x x' evs : tracker_ok x -> last_packet x = None ->
  track_view extract (fun _ => tt) view want x = Some (x', evs) ->
  forall p, last_packet x' = Some p ->
    (PacketInfo.key p ∈ live x' \/ PacketInfo.key p ∈ ended_keys evs)
    /\ (is_Some (PacketInfo.passthrough p) -> known x' (PacketInfo.key p)).
Proof.
  intros [Hi Ho] L. unfold track_view. cbv zeta.
  destruct (owned_track extract (fun _ => tt) view (tracker x) Hi Ho) as (tr & es & ctx & E & Hw & Hctx).
  set (x0 := x <| max_ts ::= fun m => Timestamp.max m (PacketView.timestamp view) |>).
  change (tracker x0) with (tracker x). rewrite E. set (x1 := x0 <| tracker := tr |>).
  set (y := match ctx with Some _ => _ | None => _ end).
  assert (tracker y.1.1 = tr /\ forall p, last_packet y.1.1 = Some p ->
    (PacketInfo.key p ∈ (iter (FlowTracker.flows tr)).*1 \/ PacketInfo.key p ∈ ended_keys es)
    /\ (is_Some (PacketInfo.passthrough p) -> known y.1.1 (PacketInfo.key p))) as [Et Hy].
  { unfold y. destruct ctx as [p|]; [|split; [done|]; cbn; rewrite L; done].
    destruct (on_packet_streams want p x1) as [E1 _]. split; [done|]. intros info Hl.
    destruct (passthrough_fed want p x1) as (info' & Hl' & Hk & Hp). rewrite Hl in Hl'. injection Hl' as <-.
    rewrite Hk. split; [by apply Hctx|done]. }
  clearbody y. destruct y as [[x2 trip] an]. cbn [fst] in Et, Hy.
  set (extra := extra_events _ _ trip an x2). set (es' := place _ extra es). set (x3 := note_gone es' x2).
  assert (Hy3 : forall p, last_packet x3 = Some p -> (PacketInfo.key p ∈ live x3 \/ PacketInfo.key p ∈ ended_keys es')
    /\ (is_Some (PacketInfo.passthrough p) -> known x3 (PacketInfo.key p))).
  { intros p Hl. unfold es'. rewrite place_ended by apply extra_others. cbn. rewrite Et. by apply Hy. }
  destruct (FlowTrackerConfig.flow_tick_interval _) as [iv|]; [|by intros [= <- <-]].
  case_if; [|by intros [= <- <-]]. destruct (emit_ticks_quiet (PacketView.timestamp view) iv x3) as (T1 & T2 & T3 & T4).
  destruct (emit_ticks _ _ x3) as [x4 tk]. cbn [fst snd] in *. intros [= <- <-] p. rewrite T1, T2, T3, ended_keys_app, T4, app_nil_r. apply Hy3.
Qed.
Lemma track_raw_packet view want x x' evs : tracker_ok x ->
  track_raw extract (fun _ => tt) hash_frame view want x = Some (x', evs) ->
  forall p, last_packet x' = Some p ->
    packet_known view x' p /\ (PacketInfo.key p ∈ live x' \/ PacketInfo.key p ∈ ended_keys evs).
Proof.
  intros Hx. unfold track_raw. cbv zeta. set (x0 := x <| last_packet := None |>).
  set (y := match dedup x0 with Some _ => _ | None => _ end).
  assert (tracker_ok y.1 /\ last_packet y.1 = None) as [Hy Ly].
  { unfold y. destruct (dedup x0) as [d|]; [destruct (Dedup.keep hash_frame view d)|]; done. }
  clearbody y. destruct y as [x1 keep]. cbn [fst] in *. destruct keep; [|intros [= <- <-] p; by rewrite Ly].
  assert (tracker_ok (clamp_view view x1).1 /\ last_packet (clamp_view view x1).1 = None) as [Hz Lz]
    by (unfold clamp_view; by destruct (monotonic_ts x1)).
  destruct (clamp_view view x1) as [x2 v]. cbn [fst] in *. intros E p Hp.
  destruct (track_view_packet v want x2 x' evs Hz Lz E p Hp) as [G1 G2]. split; [|done].
  intros Q. apply G2. unfold PacketInfo.passthrough_bytes in Q. by destruct (PacketInfo.passthrough p), (PacketInfo.tcp p); destruct Q.
Qed.

(** ** The calls of an owner *)
Notation owned_by x d ks := (owns (fun _ => False) x d ks).
Definition settled x d : Prop := tracker_ok x /\ covers x [] /\ forall k, has d k -> k ∈ live x.
Lemma settled_owns x d : (forall k, has d k -> k ∈ live x) <-> owned_by x d [].
Proof.
  split; intros G k Hk; [left; by apply G|]. by destruct (G k Hk) as [?|[?%elem_of_nil|?]].
Qed.
Lemma raw_owns x evs x' d : raw x evs x' -> (forall k, has d k -> k ∈ live x) -> owned_by x' d (ended_keys evs).
Proof.
  intros [Hw _] Ho k Hk%Ho. destruct (decide (k ∈ live x')); [by left|right; left]. rewrite <- own_ended. by eapply owned_gone.
Qed.
Lemma forwarded x evs x' d' gate : tracker_ok x' -> covers x' (ended_keys evs) -> owned_by x' d' (ended_keys evs) ->
  let '(x2, d2, _) := forward_all (O := O) evs gate x' d' in settled x2 d2.
Proof.
  intros Hx Hc Ho. rewrite <- (app_nil_r (ended_keys evs)) in Hc, Ho.
  pose proof (forward_all_spec (fun _ => False) evs gate x' d' [] Hc Ho) as G. destruct (forward_all evs gate x' d') as [[x2 d2] o].
  destruct G as (E & G1 & G2). split_and!; [unfold tracker_ok; by rewrite E|done|]. by apply settled_owns.
Qed.
Lemma raw_forwarded x evs x' d d' gate : settled x d -> raw x evs x' -> (forall k, has d' k -> has d k) ->
  let '(x2, d2, _) := forward_all (O := O) evs gate x' d' in settled x2 d2.
Proof.
  intros (_ & Hc & Ho) Hr Hd. apply (forwarded x); [by eapply raw_ok| |].
  - rewrite <- (app_nil_r (ended_keys evs)). by eapply raw_covers.
  - eapply raw_owns; [done|]. auto.
Qed.
Lemma finish_settled x d : settled x d ->
  let '(e, d', _) := Engine.finish (O := O) (Engine.mk x) d in settled (flow e) d'.
Proof.
  intros S. unfold Engine.finish. cbn [flow].
  pose proof (law_tick Timestamp.MAX (max_timestamp x) (orientation_of x) (emit_gate x) d) as T. unfold tick.
  destruct (dispatch_tick _ _ _ _ d) as [d1 o1]. cbn [fst] in T.
  pose proof (sweep_tracker_raw (fun _ => tt) Timestamp.MAX (max_ts x) x (proj1 S)) as Hr. unfold finish_raw.
  destruct (sweep_tracker _ _ x) as [x1 evs]. cbn [fst snd] in Hr.
  pose proof (raw_forwarded x evs x1 d d1 (emit_gate x) S Hr T) as G. by destruct (forward_all evs (emit_gate x) x1 d1) as [[x2 d2] o2].
Qed.
Lemma force_close_settled k now x d : settled x d ->
  let '(e, d', _) := Engine.force_close (O := O) k now (Engine.mk x) d in settled (flow e) d'.
Proof.
  intros S. unfold Engine.force_close. cbn [flow]. pose proof (force_close_raw_raw (fun _ => tt) k now x (proj1 S)) as Hr.
  destruct (force_close_raw k now x) as [x1 evs]. cbn [fst snd] in Hr.
  pose proof (raw_forwarded x evs x1 d d (emit_gate x) S Hr ltac:(done)) as G. by destruct (forward_all evs (emit_gate x) x1 d) as [[x2 d2] o2].
Qed.
Lemma sweep_settled now x d : settled x d ->
  let '(e, d', _) := Engine.sweep (O := O) order now (Engine.mk x) d in settled (flow e) d'.
Proof.
  intros (Hx & Hc & Ho). unfold Engine.sweep. cbn [flow]. pose proof (clamp_now_tame now x) as T1.
  destruct (clamp_now now x) as [x1 now1]. cbn [fst] in T1. destruct (tick now1 now1 _ x1 d) as [d1 o1].
  pose proof (advance_streams_tame order now1 true x1) as T2. destruct (advance_streams order now1 true x1) as [x2 rs]. cbn [fst] in T2.
  destruct (dispatch_released now1 _ _ rs d1) as [d2 o2].
  assert (T : tame_stage x x2) by by eapply tame_trans.
  assert (Hx2 : tracker_ok x2) by (unfold tracker_ok; by rewrite (proj1 T)).
  pose proof (sweep_tracker_raw (fun _ => tt) now1 now1 x2 Hx2) as Hr. unfold sweep_raw. destruct (sweep_tracker now1 now1 x2) as [x3 evs]. cbn [fst snd] in Hr.
  assert (Hc3 : covers x3 (ended_keys evs ++ [])) by (eapply raw_covers; [done|by eapply covers_stage]).
  pose proof (forward_all_spec (fun _ => True) evs (emit_gate x1) x3 d2 [] Hc3 ltac:(intros k _; right; right; done)) as G.
  destruct (forward_all evs (emit_gate x1) x3 d2) as [[x4 d3] o3]. destruct G as (E & G & _). cbn [flow]. split_and!.
  - unfold tracker_ok. rewrite E. by eapply raw_ok.
  - done.
  - intros k [_ Hk]%law_retain. unfold FlowTracker.get in Hk. rewrite peek_iter in Hk.
    destruct (entry k _) as [e|] eqn:Ek; [|done]. by eapply entry_Some_key.
Qed.
Lemma track_settled view x d : settled x d ->
  exists e d' o, Engine.track (O := O) extract hash_frame order view (Engine.mk x) d = Some (e, d', o) /\ settled (flow e) d'.
Proof.
  intros (Hx & Hc & Ho). unfold Engine.track. cbn [flow]. set (want := fun p => wants_stream _ d).
  destruct (track_raw_raw extract (fun _ => tt) hash_frame view want x Hx) as (x1 & evs & E & Hr). rewrite E.
  pose proof (track_raw_packet view want x x1 evs Hx E) as Hp. cbv zeta. set (gate := emit_gate x1).
  set (pp := match last_packet x1 with Some _ => _ | None => _ end). set (tcp := match last_packet x1 with Some _ => _ | None => _ end).
  assert (Hc1 : covers x1 (ended_keys evs)) by (rewrite <- (app_nil_r (ended_keys evs)); by eapply raw_covers).
  pose proof (forward_packet_spec (fun _ => False) view pp gate evs (last_packet x1) tcp x1 d) as G.
  destruct (forward_packet (last_packet x1) view pp gate evs tcp x1 d) as [[x2 d2] o2].
  destruct G as (E2 & C2 & O2); [exact Hp|done|by eapply raw_owns|].
  assert (S2 : settled x2 d2).
  { split_and!; [unfold tracker_ok; rewrite E2; by eapply raw_ok|done|by apply settled_owns]. }
  destruct (last_packet x1) as [p|]; [|by eexists _, _, _]. destruct (auto_sweep_due (PacketInfo.ts p) x2); [|by eexists _, _, _].
  pose proof (sweep_settled (PacketInfo.ts p) x2 d2 S2) as S3. destruct (Engine.sweep order (PacketInfo.ts p) (Engine.mk x2) d2) as [[e d3] o3].
  by eexists _, _, _.
Qed.
Lemma new_settled f c d : (forall k, ~ has d k) -> settled (set_passthrough true (with_state_init_and_config f c)) d.
Proof.
  intros N. split_and!; [apply (driver_new_ok f c)| |intros k Hk; by destruct (N k)].
  intros k. cbn. rewrite lookup_empty. by intros [].
Qed.
(** What a settled engine keeps, in terms of its table. *)
Lemma settled_clean x d : settled x d ->
  (forall k, is_Some (streams x !! k) \/ has d k -> contains k (FlowTracker.flows (tracker x)) = true) /\
  (FlowTracker.flow_count (tracker x) = 0 -> FlowDriver.stream_count x = 0 /\ forall k, ~ has d k).
Proof.
  intros (Hx & Hc & Hd).
  assert (A : forall k, is_Some (streams x !! k) \/ has d k -> contains k (FlowTracker.flows (tracker x)) = true).
  { intros k Hk. rewrite contains_iter. destruct (entry k _) eqn:Ek; [done|]. apply entry_None in Ek.
    destruct Hk as [[Hk|Hk%elem_of_nil]%Hc|Hk%Hd]; done. }
  split; [exact A|]. intros H0'. assert (B : forall k, ~ (is_Some (streams x !! k) \/ has d k)).
  { intros k Hk%A. revert Hk. unfold FlowTracker.flow_count in H0'. rewrite contains_iter. rewrite len_iter in H0'.
    destruct (iter _) as [|e l]; [done|]. rewrite zlen_cons in H0'. pose proof (zlen_nonneg l). lia. }
  split; [|intros k Hk; apply (B k); by right]. unfold FlowDriver.stream_count.
  rewrite (proj2 (map_size_empty_iff (streams x))); [done|]. apply map_empty. intros k. apply eq_None_not_Some. intros Hk. apply (B k). by left.
Qed.
End calls.

(** * What the session drivers promise (src/src/session/driver.rs) *)

From S2P Require Import Segment.

(** ** The cores keep what the engine asks of a dispatch *)
Class IterOrderLaw (K V : Type) `{Countable K} `{!IterOrder K V} :=
  iter_order_flows : forall m : gmap K V, Permutation (iter_order m) (map_to_list m).

Section stream_core.
Context {K F P M : Type} `{Countable K} `{SessionParser P M} `{!SessionParserFactory K F P}.
Context `{!IterOrder K (SessionFlow.t P), !IterOrderLaw K (SessionFlow.t P)}.
Notation core := (SessionCore.t K F P).
Implicit Types c : core.
Import SessionCore.

Lemma set_flow_has k f c k' : is_Some (flows (set_flow k f c) !! k') -> is_Some (flows c !! k') \/ k' = k.
Proof. cbn. destruct (decide (k' = k)) as [->|N]; [by right|]. rewrite lookup_insert_ne by done. by left. Qed.
Lemma on_stream_has cx ports s c k : is_Some (flows (on_stream cx ports s c).1 !! k) -> is_Some (flows c !! k) \/ k = Ctx.key cx.
Proof.
  unfold on_stream. case_if; [by left|]. case_if; [by left|]. set (c1 := if is_none _ then _ else c).
  assert (G : is_Some (flows c1 !! k) -> is_Some (flows c !! k) \/ k = Ctx.key cx).
  { unfold c1. case_if; [|by left]. unfold admit_flow. destruct (selector c); try destruct (new_parser _ _); (intros [Hk|Hk]%set_flow_has; [by left|by right]). }
  clearbody c1. assert (S : forall f c2, flows c2 = flows c1 -> is_Some (flows (set_flow (Ctx.key cx) f c2) !! k) -> is_Some (flows c !! k) \/ k = Ctx.key cx).
  { intros f c2 E [Hk|Hk]%set_flow_has; [|by right]. rewrite E in Hk. by apply G. }
  destruct (flows c1 !! Ctx.key cx) as [[probe|a|]|]; [|destruct (Active.feed cx s a) as [[a1 o] cl]; by apply S|by apply G..].
  destruct (selector c1) as [| |sg mx]; [by apply G..|]. destruct (Probe.step cx s sg mx probe) as [p' []]; [|by apply S..].
  destruct (new_parser _ _) as [f p]. destruct (pin p p' cx) as [o r]. by apply S.
Qed.
Lemma on_flow_end_has k reason stats finals ports emit c k' :
  is_Some (flows (on_flow_end k reason stats finals ports emit c).1 !! k') -> is_Some (flows c !! k') /\ k' <> k.
Proof.
  assert (Fs : forall side chunks c, is_Some (flows (final_stream k stats ports emit side chunks c).1 !! k') -> is_Some (flows c !! k') \/ k' = k).
  { intros side chunks c0. unfold final_stream. case_if; [by left|]. apply on_stream_has. }
  unfold on_flow_end. pose proof (Fs Initiator (Sides.initiator finals) c) as G1.
  destruct (final_stream k stats ports emit Initiator _ c) as [c1 o1]. cbn [fst] in G1.
  pose proof (Fs Responder (Sides.responder finals) c1) as G2. destruct (final_stream k stats ports emit Responder _ c1) as [c2 o2]. cbn [fst] in G2.
  assert (G : is_Some (delete k (flows c2) !! k') -> is_Some (flows c !! k') /\ k' <> k).
  { destruct (decide (k' = k)) as [->|N]; [rewrite lookup_delete_eq; by intros []|]. rewrite lookup_delete_ne by done. naive_solver. }
  destruct (flows c2 !! k) as [[probe|a|]|]; cbn; try exact G.
  destruct (end_side k reason stats _ _ Initiator _) as [p f1]. by destruct (end_side k reason stats _ _ Responder p) as [p' f2].
Qed.
Lemma tick_flows_has now stamp orientation_of emit (l : list (K * SessionFlow.t P)) k : forall m,
  (forall k', k' ∈ l.*1 -> is_Some (m !! k')) ->
  is_Some ((tick_flows (M := M) now stamp orientation_of emit l m).1 !! k) -> is_Some (m !! k).
Proof.
  induction l as [|[k' st] l IH]; intros m A; cbn; [done|].
  destruct (tick_flow now stamp orientation_of emit k' st) as [st' o]. specialize (IH (<[k' := st']> m)).
  destruct (tick_flows now stamp orientation_of emit l _) as [m' o']. cbn in *. intros Hk. apply IH in Hk.
  - destruct (decide (k = k')) as [->|N]; [apply A; by left|by rewrite lookup_insert_ne in Hk].
  - intros k2 I. destruct (decide (k2 = k')) as [->|N]; [by rewrite lookup_insert_eq|]. rewrite lookup_insert_ne by done. apply A. by right.
Qed.
#[global] Program Instance session_dispatch_laws : DispatchLaws K core (SessionEvent.t K M) := {
  has c k := is_Some (flows c !! k) }.
Next Obligation. intros cx ports s c k. apply on_stream_has. Qed.
Next Obligation. intros cx ports b c k. by left. Qed.
Next Obligation. intros k reason stats finals ports emit c k'. apply on_flow_end_has. Qed.
Next Obligation.
  intros now stamp orientation_of emit c k. cbn. unfold on_tick.
  pose proof (tick_flows_has now stamp orientation_of emit (iter_order (flows c)) k (flows c)) as G.
  destruct (tick_flows now stamp orientation_of emit (iter_order (flows c)) (flows c)) as [m o]. cbn in *. apply G.
  intros k' I. rewrite iter_order_flows in I. apply list_elem_of_fmap in I as ([k2 st] & -> & I). apply elem_of_map_to_list in I. by eexists.
Qed.
Next Obligation.
  intros alive c k. cbn. intros [st I]. apply map_lookup_filter_Some in I as [I A]. split; [by eexists|done].
Qed.
Next Obligation. intros ev tcp c k. done. Qed.
End stream_core.

Section datagram_core.
Context {K F P M : Type} `{Countable K} `{DatagramParser P M} `{!DatagramParserFactory K F P}.
Context `{!IterOrder K (DatagramFlow.t P), !IterOrderLaw K (DatagramFlow.t P)}.
Notation core := (DatagramCore.t K F P).
Implicit Types c : core.
Import DatagramCore.

Lemma dg_set_flow_has k f c k' : is_Some (flows (set_flow k f c) !! k') -> is_Some (flows c !! k') \/ k' = k.
Proof. cbn. destruct (decide (k' = k)) as [->|N]; [by right|]. rewrite lookup_insert_ne by done. by left. Qed.
Definition grows (k : K) c c' : Prop := forall k', is_Some (flows c' !! k') -> is_Some (flows c !! k') \/ k' = k.
Lemma grows_refl k c : grows k c c.
Proof. intros k'. by left. Qed.
Lemma grows_trans k c c1 c2 : grows k c c1 -> grows k c1 c2 -> grows k c c2.
Proof. intros G1 G2 k' [Hk|Hk]%G2; [by apply G1|by right]. Qed.
Lemma set_flow_grows k f c c' : flows c' = flows c -> grows k c (set_flow k f c').
Proof. intros E k' [Hk|Hk]%dg_set_flow_has; [left; by rewrite <- E|by right]. Qed.
Lemma activate_grows k c : grows k c (activate k c).
Proof. unfold activate. destruct (new_datagram_parser _ _). by apply set_flow_grows. Qed.
Lemma admit_flow_grows k c : grows k c (admit_flow k c).
Proof. unfold admit_flow. destruct (selector c); [apply activate_grows..|by apply set_flow_grows]. Qed.
Lemma probe_grows k packets payload c : grows k c (probe k packets payload c).
Proof.
  unfold probe. destruct (selector c) as [| |sg mx]; [apply grows_refl..|].
  destruct (sg payload); [apply activate_grows|by apply set_flow_grows..].
Qed.
Lemma parse_payload_grows cx payload c : grows (Ctx.key cx) c (parse_payload cx payload c).1.
Proof.
  unfold parse_payload. destruct (flows c !! Ctx.key cx) as [[n|p|]|]; try apply grows_refl.
  destruct (parse payload _ _ p) as [p' ms]. destruct (check_datagram_close p'); by apply set_flow_grows.
Qed.
Lemma on_datagram_grows cx ports payload c : grows (Ctx.key cx) c (on_datagram cx ports payload c).1.
Proof.
  unfold on_datagram. case_if; [apply grows_refl|]. case_if; [apply grows_refl|]. set (c1 := if is_none _ then _ else c).
  assert (G1 : grows (Ctx.key cx) c c1) by (unfold c1; case_if; [apply admit_flow_grows|apply grows_refl]). clearbody c1.
  set (c2 := match flows c1 !! _ with Some (DatagramFlow.Probing _) => _ | _ => c1 end).
  assert (G2 : grows (Ctx.key cx) c1 c2).
  { unfold c2. destruct (flows c1 !! Ctx.key cx) as [[n|p|]|]; try apply grows_refl. apply probe_grows. }
  eapply grows_trans; [done|]. eapply grows_trans; [done|apply parse_payload_grows].
Qed.
Lemma dg_tick_flows_has now stamp orientation_of emit (l : list (K * DatagramFlow.t P)) k : forall m,
  (forall k', k' ∈ l.*1 -> is_Some (m !! k')) ->
  is_Some ((tick_flows (M := M) now stamp orientation_of emit l m).1 !! k) -> is_Some (m !! k).
Proof.
  induction l as [|[k' st] l IH]; intros m A; cbn; [done|].
  destruct (tick_flow now stamp orientation_of emit k' st) as [st' o]. specialize (IH (<[k' := st']> m)).
  destruct (tick_flows now stamp orientation_of emit l _) as [m' o']. cbn in *. intros Hk. apply IH in Hk.
  - destruct (decide (k = k')) as [->|N]; [apply A; by left|by rewrite lookup_insert_ne in Hk].
  - intros k2 I. destruct (decide (k2 = k')) as [->|N]; [by rewrite lookup_insert_eq|]. rewrite lookup_insert_ne by done. apply A. by right.
Qed.
#[global] Program Instance datagram_dispatch_laws : DispatchLaws K core (SessionEvent.t K M) := {
  has c k := is_Some (flows c !! k) }.
Next Obligation. intros cx ports s c k. by left. Qed.
Next Obligation. intros cx ports b c k. apply on_datagram_grows. Qed.
Next Obligation.
  intros k reason stats finals ports emit c k'. cbn. destruct (decide (k' = k)) as [->|N]; [rewrite lookup_delete_eq; by intros []|].
  by rewrite lookup_delete_ne.
Qed.
Next Obligation.
  intros now stamp orientation_of emit c k. cbn. unfold on_tick.
  pose proof (dg_tick_flows_has now stamp orientation_of emit (iter_order (flows c)) k (flows c)) as G.
  destruct (tick_flows now stamp orientation_of emit (iter_order (flows c)) (flows c)) as [m o]. cbn in *. apply G.
  intros k' I. rewrite iter_order_flows in I. apply list_elem_of_fmap in I as ([k2 st] & -> & I). apply elem_of_map_to_list in I. by eexists.
Qed.
Next Obligation. intros alive c k. cbn. intros [st I]. apply map_lookup_filter_Some in I as [I A]. split; [by eexists|done]. Qed.
Next Obligation. intros ev tcp c k. done. Qed.
End datagram_core.

(** ** Sessions of a driver *)
Section driver.
Context {K C D O : Type} `{Countable K} `{!Lru K (FlowEntry.t unit) C, !LruLaws K (FlowEntry.t unit) C}.
Context `{!Dispatch K D O, !DispatchLaws K D O} `{FrameParser}.
Notation R := SegmentBufferReassembler.t.
Variable extract : PacketView.t -> option (Extracted.t K).
Variable hash_frame : list Z -> Z.
Variable order : gmap K (StreamFlow.t R) -> list (K * StreamFlow.t R).
Notation driver := (Driver.t K C D).
Import Driver.

Inductive DriverCall :=
  | DTrack (view : PacketView.t) | DSweep (now : Timestamp.t) | DFinish | DForceClose (k : K) (now : Timestamp.t)
  | DSetConfig (c : FlowTrackerConfig.t) | DSetIdleTimeout (f : K -> option L4Proto -> option Z)
  | DSetEmit (b : bool) | DSetDedup (d : option Dedup.t) | DSetMonotonic (b : bool) | DPause | DResume.
Definition driver_step (c : DriverCall) (d : driver) : option (driver * list O) :=
  match c with
  | DTrack view => track extract hash_frame order view d
  | DSweep now => Some (sweep order now d)
  | DFinish => Some (finish d)
  | DForceClose k now => Some (force_close k now d)
  | DSetConfig c => Some (set_config c d, [])
  | DSetIdleTimeout f => Some (set_idle_timeout_fn f d, [])
  | DSetEmit b => Some (set_emit_anomalies b d, [])
  | DSetDedup x => Some (set_dedup x d, [])
  | DSetMonotonic b => Some (set_monotonic_timestamps b d, [])
  | DPause => Some (pause_events d, [])
  | DResume => Some (resume_events d, [])
  end.
Fixpoint driver_run (cs : list DriverCall) (d : driver) : option (driver * list O) :=
  match cs with
  | [] => Some (d, [])
  | c :: cs =>
      match driver_step c d with
      | Some (d, out) => match driver_run cs d with Some (d, out') => Some (d, out ++ out') | None => None end
      | None => None
      end
  end.
(** The flow table is never shrunk below the flows in it. *)
Definition roomy (c : DriverCall) (d : driver) : bool :=
  match c with
  | DSetConfig c => FlowTracker.flow_count (tracker d) <=? Z.max (FlowTrackerConfig.max_flows c) 1
  | _ => true
  end.
Fixpoint roomy_run (cs : list DriverCall) (d : driver) : bool :=
  match cs with
  | [] => true
  | c :: cs => roomy c d && match driver_step c d with Some (d, _) => roomy_run cs d | None => true end
  end.

Notation sound d := (settled (flow_driver d) (core d)).
Lemma setting_sound (f : FlowDriver.t K C SegmentBufferReassemblerFactory.t R -> FlowDriver.t K C SegmentBufferReassemblerFactory.t R) d :
  (tracker_ok (flow_driver d) -> tracker_ok (f (flow_driver d))) ->
  (iter (FlowTracker.flows (FlowDriver.tracker (f (flow_driver d))))).*1 = (iter (FlowTracker.flows (tracker d))).*1 ->
  FlowDriver.streams (f (flow_driver d)) = FlowDriver.streams (flow_driver d) ->
  sound d -> sound (on_flow f d).
Proof.
  intros E1 E2 E3 (S1 & S2 & S3). destruct d as [[x] c]. cbn in *. split_and!; [by apply E1|..].
  - intros k. rewrite E2, E3. apply S2.
  - intros k. rewrite E2. apply S3.
Qed.
Lemma driver_step_sound c d : sound d -> roomy c d = true ->
  exists d' out, driver_step c d = Some (d', out) /\ sound d'.
Proof.
  intros S Rm. destruct d as [[x] cr]. destruct c; cbn [driver_step].
  - destruct (track_settled extract hash_frame order view x cr S) as (e & c' & o & E & S'). unfold track. cbn [engine core]. rewrite E.
    by eexists _, _.
  - pose proof (sweep_settled order now x cr S) as G. unfold sweep. cbn [engine core].
    destruct (Engine.sweep order now (Engine.mk x) cr) as [[e c'] o]. by eexists _, _.
  - pose proof (finish_settled x cr S) as G. unfold finish. cbn [engine core].
    destruct (Engine.finish (Engine.mk x) cr) as [[e c'] o]. by eexists _, _.
  - pose proof (force_close_settled k now x cr S) as G. unfold force_close. cbn [engine core].
    destruct (Engine.force_close k now (Engine.mk x) cr) as [[e c'] o]. by eexists _, _.
  - eexists _, _. split; [done|]. apply setting_sound; [apply set_config_ok| |done|done]. cbn in Rm |- *.
    unfold FlowTracker.flow_count in Rm. rewrite len_iter in Rm. zb. rewrite iter_resize, ztake_ge; done.
  - eexists _, _. split; [done|]. apply setting_sound; try done. intros Hx.
    pose proof (timeouts_owned f _ Hx) as []. by split.
  - eexists _, _. split; [done|]. by apply setting_sound.
  - eexists _, _. split; [done|]. by apply setting_sound.
  - eexists _, _. split; [done|]. by apply setting_sound.
  - eexists _, _. split; [done|]. apply setting_sound; try done. intros [Hi Ho]. split; [|done]. by destruct Hi.
  - eexists _, _. split; [done|]. apply setting_sound; try done. intros Hx. pose proof (resume_owned _ Hx) as []. by split.
Qed.
Lemma driver_run_sound cs : forall d, sound d -> roomy_run cs d = true ->
  exists d' out, driver_run cs d = Some (d', out) /\ sound d'.
Proof.
  induction cs as [|c cs IH]; intros d S Rm; cbn in *; [by eexists _, _|]. apply andb_true_iff in Rm as [Rc Rs].
  destruct (driver_step_sound c d S Rc) as (d1 & o1 & E & S1). rewrite E in *.
  destruct (IH d1 S1 Rs) as (d2 & o2 & E2 & S2). rewrite E2. by eexists _, _.
Qed.
(** A session driver keeps no state of a flow that is gone.
    Whatever the owner calls (packets, sweeps, closes, finishes, every
    setting, pauses), as long as the flow table is not shrunk under the
    flows in it, no call panics, and afterwards each flow with a
    reassembled stream or with a parser is a flow of the table; with the
    table empty nothing is kept.  It holds of any core that gives up a flow
    that ends or is dropped, as the session and the datagram core do. *)
Theorem driver_keeps_no_dead_state (cr : D) config cs :
  (forall k, ~ has cr k) ->
  roomy_run cs (with_config cr config) = true ->
  exists d out,
    driver_run cs (with_config cr config) = Some (d, out) /\
    (forall k, is_Some (FlowDriver.streams (flow_driver d) !! k) \/ has (core d) k ->
       contains k (FlowTracker.flows (tracker d)) = true) /\
    (FlowTracker.flow_count (tracker d) = 0 ->
       FlowDriver.stream_count (flow_driver d) = 0 /\ forall k, ~ has (core d) k).
Proof.
  intros N Rm. destruct (driver_run_sound cs (with_config cr config) (new_settled SegmentBufferReassemblerFactory.default config cr N) Rm) as (d & out & E & S).
  exists d, out. split; [exact E|]. by apply settled_clean.
Qed.
End driver.

From S2P Require Import ParserProps CoreProps DriverProps.

(** Two flows of one-line messages on a table of one: the second evicts the
    first, and an ended flow leaves nothing. *)
Section demo.
Notation parser := (AccumulatingSessionParser.t (list Z)).
Notation demo_core := (SessionCore.t Z (TemplateFactory.t parser) parser).
Notation cache := (ListLru.t Z (FlowEntry.t ())).
#[local] Instance demo_order : IterOrder Z (SessionFlow.t parser) := map_to_list.
#[local] Instance demo_order_law : IterOrderLaw Z (SessionFlow.t parser) := fun _ => Permutation_refl _.
#[local] Instance demo_frames : FrameParser := fun _ => None.
Definition demo_config : FlowTrackerConfig.t := FlowTrackerConfig.default <| FlowTrackerConfig.max_flows := 1 |>.
Definition demo_packet (k dir flags seq : Z) (payload : list Z) (sec : Z) : DriverCall (K := Z) :=
  DTrack (PacketView.new (k :: dir :: flags :: seq :: payload) (Timestamp.mk sec 0)).
Definition demo_session : list (DriverCall (K := Z)) :=
  [demo_packet 1 0 2 99 [] 0; demo_packet 1 0 16 100 [1; 2; 0] 0; DPause; demo_packet 2 0 2 9 [] 1; DResume;
   demo_packet 2 0 16 10 [1; 5] 1; DSetMonotonic true; demo_packet 2 1 16 20 [2; 7; 8] 2;
   DSetConfig (demo_config <| FlowTrackerConfig.max_flows := 2 |>); DSweep (Timestamp.mk 3 0); DFinish].
Notation start := (Driver.with_config (K := Z) (C := cache) (demo_new Selector.All : demo_core) demo_config).
Notation run cs := (driver_run (O := SessionEvent.t Z (list Z)) Demo.extract Demo.hash Demo.order cs start).
Notation messages := (fun e : SessionEvent.t Z (list Z) => match e with SessionEvent.Application k _ _ m _ _ => Some (k, m) | _ => None end).
Example demo_heard : option_map (fun r => omap messages r.2) (run demo_session) = Some [(1, [2]); (1, []); (2, [5]); (2, [7; 8])].
Proof. vm_compute. reflexivity. Qed.
Lemma driver_keeps_no_dead_state_witness :
  match run demo_session with
  | Some (d, _) => FlowTracker.flow_count (Driver.tracker d) = 0 /\ FlowDriver.stream_count (Driver.flow_driver d) = 0
  | None => False
  end.
Proof.
  assert (option_map (fun r => FlowTracker.flow_count (Driver.tracker r.1)) (run demo_session) = Some 0) as E0 by (vm_compute; reflexivity).
  destruct (driver_keeps_no_dead_state (C := cache) (O := SessionEvent.t Z (list Z)) Demo.extract Demo.hash Demo.order
    (demo_new Selector.All : demo_core) demo_config demo_session) as (d & out & E & _ & H0).
  - intros k [st Hk]. discriminate Hk.
  - vm_compute. reflexivity.
  - rewrite E in E0 |- *. injection E0 as E0. split; [exact E0|]. by apply H0.
Defined.
End demo.
