(* ===== verification/Window.v ===== *)
(** * Sliding windows over packet time (src/src/correlate/)

    The windowed reducers (bucketed.rs, set.rs, rolling_rate.rs) divide time
    into aligned buckets held in a [VecDeque] of buckets, oldest first; each
    has its own copies of the two private helpers modelled here.  A
    [Duration] is its nanoseconds. *)

From S2P Require Import Prelude Time.
Open Scope Z_scope.

(** The derived [<] of [Timestamp]. *)
Definition before (a b : Timestamp.t) : bool := negb (Timestamp.leb b a).

(** [Timestamp::new(d.as_secs() as u32, d.subsec_nanos())]. *)
Definition of_duration (d : Z) : Timestamp.t := Timestamp.mk (u32 (d / NANOS)) (d mod NANOS).
Definition bucket_start_for (bucket_width : Z) (ts : Timestamp.t) : Timestamp.t :=
  let nanos := Timestamp.to_duration ts in
  of_duration (u64 (nanos / bucket_width * bucket_width)).
Definition cutoff_for (window : Z) (now : Timestamp.t) : Timestamp.t :=
  of_duration (sat_sub (Timestamp.to_duration now) window).

(** ** Queues of buckets *)
Section queue.
Context {B : Type}.
Implicit Types (p : B -> bool) (l : list B).

(** [while front is Some(b) and p(b) { pop_front() }]. *)
Fixpoint pop_front_while p l : list B :=
  match l with b :: l' => if p b then pop_front_while p l' else l | [] => [] end.
(** [while back is Some(b) and p(b) { pop_back() }]. *)
Definition pop_back_while p l : list B := rev (pop_front_while p (rev l)).
(** [Iterator::position] and [rposition]. *)
Fixpoint position_of p l : option nat :=
  match l with
  | [] => None
  | b :: l => if p b then Some 0%nat else S <$> position_of p l
  end.
Fixpoint rposition_of p l : option nat :=
  match l with
  | [] => None
  | b :: l => match rposition_of p l with Some i => Some (S i) | None => if p b then Some 0%nat else None end
  end.
(** [VecDeque::insert]. *)
Definition insert_at (i : nat) (b : B) l : list B := take i l ++ b :: drop i l.
End queue.

(** ** Facts *)

(** A timestamp of a capture: the nanoseconds are below a second. *)
Definition proper (ts : Timestamp.t) : Prop :=
  0 <= Timestamp.sec ts <= U32_MAX /\ 0 <= Timestamp.nsec ts < NANOS.
Definition HORIZON : Z := (U32_MAX + 1) * NANOS.
Notation dur := Timestamp.to_duration.

Lemma dur_range ts : proper ts -> 0 <= dur ts < HORIZON.
Proof. unfold proper, HORIZON, Timestamp.to_duration, NANOS. lia. Qed.
Lemma of_duration_proper d : proper (of_duration d).
Proof.
  unfold proper, of_duration, U32_MAX. cbn [Timestamp.sec Timestamp.nsec]. pose proof (u32_range (d / NANOS)).
  pose proof (Z.mod_pos_bound d NANOS eq_refl). lia.
Qed.
Lemma of_duration_dur d : 0 <= d < HORIZON -> dur (of_duration d) = d.
Proof.
  intros Hd. unfold of_duration, Timestamp.to_duration. cbn [Timestamp.sec Timestamp.nsec].
  rewrite u32_small; [pose proof (Z.div_mod d NANOS ltac:(done)); lia|].
  unfold HORIZON, U32_MAX in Hd. split; [apply Z.div_pos; [lia|done]|]. apply Z.div_lt_upper_bound; [done|lia].
Qed.
Lemma dur_inj a b : proper a -> proper b -> dur a = dur b -> a = b.
Proof.
  destruct a as [s n], b as [s' n']. unfold proper, Timestamp.to_duration, NANOS. cbn. intros. f_equal; lia.
Qed.
Lemma leb_dur a b : proper a -> proper b -> Timestamp.leb a b = (dur a <=? dur b).
Proof.
  destruct a as [s n], b as [s' n']. unfold proper, Timestamp.leb, Timestamp.to_duration, NANOS. cbn. intros [? ?] [? ?].
  destruct (Z.ltb_spec s s'), (Z.eqb_spec s s'), (Z.leb_spec n n'), (Z.leb_spec (s * 1000000000 + n) (s' * 1000000000 + n'));
    cbn; try lia; done.
Qed.
Lemma before_dur a b : proper a -> proper b -> before a b = (dur a <? dur b).
Proof. intros. unfold before. rewrite leb_dur by done. by rewrite Z.leb_antisym, negb_involutive. Qed.

(** The bucket of a time: aligned, and the last one not after it. *)
Lemma bucket_start_dur bw ts : 0 < bw -> proper ts -> dur (bucket_start_for bw ts) = dur ts / bw * bw.
Proof.
  intros Hb Ht. pose proof (dur_range ts Ht). unfold bucket_start_for.
  assert (0 <= dur ts / bw * bw <= dur ts).
  { pose proof (Z.div_mod (dur ts) bw ltac:(lia)). pose proof (Z.mod_pos_bound (dur ts) bw Hb).
    split; [apply Z.mul_nonneg_nonneg; [apply Z.div_pos; lia|lia]|lia]. }
  unfold u64. rewrite Z.mod_small by (unfold HORIZON, U32_MAX, NANOS in *; lia). apply of_duration_dur. lia.
Qed.
Lemma bucket_start_proper bw ts : proper (bucket_start_for bw ts).
Proof. apply of_duration_proper. Qed.
Lemma bucket_start_le bw ts : 0 < bw -> proper ts -> dur ts - bw < dur (bucket_start_for bw ts) <= dur ts.
Proof.
  intros Hb Ht. rewrite bucket_start_dur by done. pose proof (Z.div_mod (dur ts) bw ltac:(lia)).
  pose proof (Z.mod_pos_bound (dur ts) bw Hb). lia.
Qed.
Lemma cutoff_dur w now : 0 <= w -> proper now -> dur (cutoff_for w now) = sat_sub (dur now) w.
Proof. intros Hw Hn. apply of_duration_dur. pose proof (dur_range now Hn). unfold sat_sub. lia. Qed.
Lemma cutoff_proper w now : proper (cutoff_for w now).
Proof. apply of_duration_proper. Qed.

Section queue_facts.
Context {B : Type}.
Implicit Types (p : B -> bool) (l : list B).
Lemma pop_front_split p l : exists l0, l = l0 ++ pop_front_while p l /\ Forall (fun b => p b = true) l0 /\
  match pop_front_while p l with b :: _ => p b = false | [] => True end.
Proof.
  induction l as [|b l (l0 & E & F & Hd)]; [by exists []|]. cbn. destruct (p b) eqn:Hp.
  - exists (b :: l0). cbn. rewrite <- E. by auto.
  - exists []. by rewrite Hp.
Qed.
Lemma pop_front_app p l k : Forall (fun b => p b = true) l -> pop_front_while p (l ++ k) = pop_front_while p k.
Proof. induction 1 as [|b l Hb _ IH]; [done|]. cbn. by rewrite Hb. Qed.
(** On a queue whose popped buckets come first, popping is filtering. *)
Lemma pop_front_filter p l l0 l1 : l = l0 ++ l1 ->
  Forall (fun b => p b = true) l0 -> Forall (fun b => p b = false) l1 ->
  pop_front_while p l = List.filter (fun b => negb (p b)) l.
Proof.
  intros -> H0 H1. rewrite pop_front_app by done. rewrite List.filter_app.
  assert (E0 : List.filter (fun b => negb (p b)) l0 = []) by (induction H0 as [|b l Hb _ IH]; [done|cbn; by rewrite Hb]).
  rewrite E0. clear E0 H0. destruct H1 as [|b l Hb H1]; [done|]. cbn. rewrite Hb. cbn. f_equal.
  induction H1 as [|b' l Hb' _ IH]; [done|]. cbn. rewrite Hb'. cbn. by f_equal.
Qed.
End queue_facts.

(** Buckets in the order of their starts. *)
Section ordered.
Context {B : Type} (start : B -> Timestamp.t).
Fixpoint ascending (l : list B) : Prop :=
  match l with
  | [] => True
  | b :: l => proper (start b) /\ Forall (fun b' => dur (start b) < dur (start b')) l /\ ascending l
  end.
Lemma ascending_app l k : ascending (l ++ k) <->
  ascending l /\ ascending k /\ Forall (fun b => Forall (fun b' => dur (start b) < dur (start b')) k) l.
Proof.
  induction l as [|b l IH]; cbn [app ascending]; [pose proof (Forall_nil_2 (fun b => Forall (fun b' => dur (start b) < dur (start b')) k)); tauto|].
  rewrite Forall_app, Forall_cons, IH. tauto.
Qed.
Lemma ascending_proper l : ascending l -> Forall (fun b => proper (start b)) l.
Proof. induction l as [|b l IH]; [done|]. intros (P & _ & A). constructor; auto. Qed.

(** Popping at a threshold is filtering. *)
Lemma split_threshold l c : ascending l -> exists l0 l1, l = l0 ++ l1 /\
  Forall (fun b => dur (start b) < c) l0 /\ Forall (fun b => c <= dur (start b)) l1.
Proof.
  induction l as [|b l IH]; [by exists [], []|]. intros (P & L & A). destruct (Z_lt_le_dec (dur (start b)) c) as [Hc|Hc].
  - destruct (IH A) as (l0 & l1 & -> & F0 & F1). exists (b :: l0), l1. by auto.
  - exists [], (b :: l). split_and!; [done|done|]. constructor; [done|]. eapply Forall_impl; [exact L|]. cbn. lia.
Qed.
Lemma pop_before_filter l c : proper c -> ascending l ->
  pop_front_while (fun b => before (start b) c) l = List.filter (fun b => dur c <=? dur (start b)) l.
Proof.
  intros Hc A. destruct (split_threshold l (dur c) A) as (l0 & l1 & E & F0 & F1). pose proof (ascending_proper l A) as Hp.
  rewrite (pop_front_filter _ l l0 l1 E); subst l.
  - apply List.filter_ext_in. intros b Hb%list_elem_of_In. rewrite Forall_forall in Hp. rewrite before_dur by auto.
    by rewrite Z.ltb_antisym, negb_involutive.
  - apply Forall_app in Hp as [Hp _]. eapply Forall_impl; [apply Forall_and; split; [exact F0|exact Hp]|]. cbn. intros b [? ?].
    rewrite before_dur by done. by apply Z.ltb_lt.
  - apply Forall_app in Hp as [_ Hp]. eapply Forall_impl; [apply Forall_and; split; [exact F1|exact Hp]|]. cbn. intros b [? ?].
    rewrite before_dur by done. by apply Z.ltb_ge.
Qed.
Lemma pop_after_filter l c : ascending l ->
  pop_back_while (fun b => c <? dur (start b)) l = List.filter (fun b => dur (start b) <=? c) l.
Proof.
  intros A. destruct (split_threshold l (c + 1) A) as (l0 & l1 & E & F0 & F1). unfold pop_back_while.
  assert (R : forall (l : list B) f, List.filter f (rev l) = rev (List.filter f l)).
  { intros k f. induction k as [|b k IH]; [done|]. cbn. rewrite List.filter_app, IH. cbn. destruct (f b); cbn; by rewrite ?app_nil_r. }
  rewrite (pop_front_filter _ (rev l) (rev l1) (rev l0)).
  - rewrite R, rev_involutive. apply List.filter_ext. intros b. by rewrite Z.leb_antisym.
  - by rewrite E, rev_app_distr.
  - apply Forall_rev. eapply Forall_impl; [exact F1|]. cbn. intros. apply Z.ltb_lt. lia.
  - apply Forall_rev. eapply Forall_impl; [exact F0|]. cbn. intros. apply Z.ltb_ge. lia.
Qed.
Lemma ascending_filter l (p : B -> bool) : ascending l -> ascending (List.filter p l).
Proof.
  induction l as [|b l IH]; [done|]. intros (P & L & A). cbn. destruct (p b); [|by apply IH]. cbn. split_and!; [done| |by apply IH].
  rewrite Forall_forall in L |- *. intros b' Hb'%list_elem_of_In%filter_In. apply L, list_elem_of_In. tauto.
Qed.
End ordered.
