(* ===== verification/RollingRate.v ===== *)
(** * Rolling rates (src/src/correlate/rolling_rate.rs)

    A value is added to the bucket of its own time; buckets outside a window
    of it on either side are dropped, and a bucket that holds [max_keys]
    keys sums what further keys bring into one overflow total.  [HashMap]s
    are finite maps.  [+=] on the integer values wraps, as in a release
    build. *)

From stdpp Require Import gmap sorting.
From S2P Require Import Prelude Time Welford Mergeable Window.
From Stdlib Require Import Floats.SpecFloat.
Open Scope Z_scope.

(** The [RateValue] trait, and its implementations. *)
Class RateValue (V : Type) := { zero_value : V; add_assign : V -> V -> V; as_f64 : V -> f64 }.
Definition rate_u64 : RateValue Z := {| zero_value := 0; add_assign a b := u64 (a + b); as_f64 := F64.of_Z |}.
Definition rate_u32 : RateValue Z := {| zero_value := 0; add_assign a b := u32 (a + b); as_f64 := F64.of_Z |}.
Definition rate_i64 : RateValue Z := {| zero_value := 0; add_assign a b := i64 (a + b); as_f64 := F64.of_Z |}.
Definition rate_i32 : RateValue Z := {| zero_value := 0; add_assign a b := i32 (a + b); as_f64 := F64.of_Z |}.
Definition rate_f64 : RateValue f64 := {| zero_value := F64.zero; add_assign := F64.add; as_f64 v := v |}.
Definition rate_f32 : RateValue f64 := {| zero_value := F64.zero; add_assign := SFadd 24 128; as_f64 v := v |}.

(** [Duration::as_secs_f64], and the sum of an iterator of [f64]s, which
    starts from negative zero. *)
Definition as_secs_f64 (d : Z) : f64 :=
  F64.add (F64.of_Z (d / NANOS)) (F64.div (F64.of_Z (d mod NANOS)) (F64.of_Z NANOS)).
Definition sum_f64 (l : list f64) : f64 := fold_left F64.add l (S754_zero true).

Module Bucket.
Section bucket.
Context {K V : Type} `{Countable K} `{RateValue V}.
Record t := mk { start : Timestamp.t; sums : gmap K V; other : option V }.
#[global] Instance eta : Eta t := mk_eta (fun b => mk (start b) (sums b) (other b)).
Definition new (start : Timestamp.t) : t := mk start ∅ None.
(** Also whether the value overflowed. *)
Definition add (k : K) (v : V) (max_keys : Z) (b : t) : t * bool :=
  match sums b !! k with
  | Some sum => (b <| sums ::= <[k := add_assign sum v]> |>, false)
  | None =>
      if Z.of_nat (size (sums b)) <? max_keys then (b <| sums ::= <[k := v]> |>, false)
      else (b <| other ::= fun o => Some (add_assign (default zero_value o) v) |>, true)
  end.
End bucket.
#[global] Arguments t _ _ {_ _}.
End Bucket.

Module RollingRate.
Section ops.
Context {K V : Type} `{Countable K} `{RateValue V}.
Notation bucket := (Bucket.t K V).

Record t := mk { window : Z; bucket_width : Z; buckets : list bucket; max_keys : Z; overflowed : Z }.
#[global] Instance eta : Eta t := mk_eta (fun r =>
  mk (window r) (bucket_width r) (buckets r) (max_keys r) (overflowed r)).

(** [new] asserts both conditions. *)
Definition new (window bucket_width max_keys : Z) : option t :=
  if (bucket_width =? 0) || (window <? bucket_width) then None
  else Some (mk window bucket_width [] max_keys 0).
Definition new_unbounded (window bucket_width : Z) : option t := new window bucket_width U64_MAX.

Definition start_for (ts : Timestamp.t) (r : t) : Timestamp.t := bucket_start_for (bucket_width r) ts.
Definition cutoff (now : Timestamp.t) (r : t) : Timestamp.t := cutoff_for (window r) now.
Definition evict_expired (now : Timestamp.t) (r : t) : t :=
  r <| buckets ::= pop_front_while (fun b => before (Bucket.start b) (cutoff now r)) |>.

(** The bucket that starts at [s], found or made, and its place. *)
Definition bucket_at (s : Timestamp.t) (bs : list bucket) : list bucket * nat :=
  match last bs with
  | Some b =>
      if bool_decide (Bucket.start b = s) then (bs, (length bs - 1)%nat)
      else if before (Bucket.start b) s then (bs ++ [Bucket.new s], length bs)
      else
        match rposition_of (fun b => Timestamp.leb (Bucket.start b) s) bs with
        | Some i =>
            if bool_decide (Bucket.start <$> bs !! i = Some s) then (bs, i)
            else (insert_at (S i) (Bucket.new s) bs, S i)
        | None => (Bucket.new s :: bs, 0%nat)
        end
  | None => (bs ++ [Bucket.new s], 0%nat)
  end.
(** [self.buckets[pos].add(k, v, max_keys)], with the count. *)
Definition add_at (pos : nat) (k : K) (v : V) (r : t) : t :=
  match buckets r !! pos with
  | Some b =>
      let (b, over) := Bucket.add k v (max_keys r) b in
      let r := r <| buckets ::= <[pos := b]> |> in
      if over then r <| overflowed ::= fun n => sat_add n 1 |> else r
  | None => r
  end.
Definition record (k : K) (v : V) (now : Timestamp.t) (r : t) : t :=
  let r := evict_expired now r in
  let future := Timestamp.to_duration now + window r in
  let r := r <| buckets ::= pop_back_while (fun b => future <? Timestamp.to_duration (Bucket.start b)) |> in
  let (bs, pos) := bucket_at (start_for now r) (buckets r) in
  add_at pos k v (r <| buckets := bs |>).

(** The buckets a query looks at. *)
Definition active (now : Timestamp.t) (r : t) : list bucket :=
  List.filter (fun b => Timestamp.leb (cutoff now r) (Bucket.start b)) (buckets r).
Definition rate (k : K) (now : Timestamp.t) (r : t) : f64 :=
  F64.div (sum_f64 (as_f64 <$> omap (fun b => Bucket.sums b !! k) (active now r))) (as_secs_f64 (window r)).
Definition other_rate (now : Timestamp.t) (r : t) : f64 :=
  F64.div (sum_f64 (as_f64 <$> omap Bucket.other (active now r))) (as_secs_f64 (window r)).
Definition other_sum (now : Timestamp.t) (r : t) : V :=
  fold_left add_assign (omap Bucket.other (active now r)) zero_value.
Definition sum (k : K) (now : Timestamp.t) (r : t) : V :=
  fold_left add_assign (omap (fun b => Bucket.sums b !! k) (active now r)) zero_value.
(** The map a snapshot collects, and the pairs it yields of it. *)
Definition totals (now : Timestamp.t) (r : t) : gmap K V :=
  fold_left (fun m kv => <[kv.1 := add_assign (default zero_value (m !! kv.1)) kv.2]> m)
    (active now r ≫= fun b => map_to_list (Bucket.sums b)) ∅.
Definition snapshot (now : Timestamp.t) (r : t) : list (K * f64) :=
  (fun kv => (kv.1, F64.div (as_f64 kv.2) (as_secs_f64 (window r)))) <$> map_to_list (totals now r).
(** The calls [for_each_bucket] makes of its closure. *)
Definition for_each_bucket (now : Timestamp.t) (r : t) : list (K * V) :=
  active now r ≫= fun b => map_to_list (Bucket.sums b).
Definition clear (r : t) : t := r <| buckets := [] |> <| overflowed := 0 |>.
Definition is_empty (r : t) : bool :=
  forallb (fun b => bool_decide (Bucket.sums b = ∅) && negb (is_some (Bucket.other b))) (buckets r).
Definition len (now : Timestamp.t) (r : t) : Z :=
  Z.of_nat (size (list_to_set (C := gset K) (for_each_bucket now r).*1)).
Definition bucket_count (r : t) : Z := zlen (buckets r).
Definition stored_entries (r : t) : Z :=
  foldr Z.add 0 ((fun b => Z.of_nat (size (Bucket.sums b))) <$> buckets r).

(** One bucket of the other table: its place here, its keys in the order
    its map is walked, its overflow total. *)
Definition merge_bucket (order : gmap K V -> list (K * V)) (b : bucket) (r : t) : t :=
  let (bs, pos) :=
    match position_of (fun mine => Timestamp.leb (Bucket.start b) (Bucket.start mine)) (buckets r) with
    | Some i =>
        if bool_decide (Bucket.start <$> buckets r !! i = Some (Bucket.start b)) then (buckets r, i)
        else (insert_at i (Bucket.new (Bucket.start b)) (buckets r), i)
    | None => (buckets r ++ [Bucket.new (Bucket.start b)], length (buckets r))
    end in
  let r := fold_left (fun r kv => add_at pos kv.1 kv.2 r) (order (Bucket.sums b)) (r <| buckets := bs |>) in
  match Bucket.other b with
  | Some v => r <| buckets ::= alter (fun m => m <| Bucket.other ::= fun o => Some (add_assign (default zero_value o) v) |>) pos |>
  | None => r
  end.
Definition merge (order : gmap K V -> list (K * V)) (r other : t) : option t :=
  if negb ((window r =? window other) && (bucket_width r =? bucket_width other)) then None
  else
    let r := r <| overflowed ::= fun n => sat_add n (overflowed other) |> in
    Some (fold_left (fun r b => merge_bucket order b r) (buckets other) r).
End ops.
#[global] Arguments t _ _ {_ _}.
End RollingRate.

(** * What a rolling rate reports (src/src/correlate/rolling_rate.rs)

    The specification is the log of the values recorded, each with the start
    of its bucket; a record strikes out what is more than a window away from
    it on either side. *)

Import RollingRate.

(** What the values promise: the wrapping integers do, the floats do not. *)
Class RateLaws (V : Type) `{!RateValue V} : Prop := {
  add_assign_comm (a b : V) : add_assign a b = add_assign b a;
  add_assign_assoc (a b c : V) : add_assign (add_assign a b) c = add_assign a (add_assign b c);
  add_assign_zero : add_assign zero_value zero_value = zero_value :> V }.
Lemma rate_u64_laws : RateLaws Z (RateValue0 := rate_u64).
Proof.
  split; intros; cbn; unfold u64; [by rewrite Z.add_comm| |done].
  rewrite Zplus_mod_idemp_l, Zplus_mod_idemp_r. f_equal. lia.
Qed.

(** ** Places in the queue *)
Section places.
Context {B : Type} (start : B -> Timestamp.t).
Implicit Types l : list B.
Lemma rposition_app (p : B -> bool) l k :
  rposition_of p (l ++ k) = match rposition_of p k with Some i => Some (length l + i)%nat | None => rposition_of p l end.
Proof. induction l as [|b l IH]; cbn; [by destruct (rposition_of p k)|]. rewrite IH. by destruct (rposition_of p k). Qed.
Lemma rposition_none (p : B -> bool) l : Forall (fun b => p b = false) l -> rposition_of p l = None.
Proof. induction 1 as [|b l E _ IH]; [done|]. cbn. by rewrite IH, E. Qed.
Lemma rposition_last (p : B -> bool) l b : p b = true -> rposition_of p (l ++ [b]) = Some (length l).
Proof. intros E. rewrite rposition_app. cbn. rewrite E. f_equal. lia. Qed.
End places.

Section rate.
Context {K V : Type} `{Countable K} `{RateValue V}.
Notation bucket := (Bucket.t K V).
Notation start := (@Bucket.start K V _ _).
Implicit Types (bs : list bucket) (b : bucket).

Lemma bucket_at_here l0 l1 b : ascending start (l0 ++ b :: l1) ->
  bucket_at (start b) (l0 ++ b :: l1) = (l0 ++ b :: l1, length l0).
Proof.
  intros (A0 & (Pb & Lb & A1) & F)%ascending_app. unfold bucket_at. destruct l1 as [|b1 l1 _] using rev_ind.
  { rewrite last_snoc. rewrite bool_decide_eq_true_2 by done. rewrite length_app. cbn. f_equal. lia. }
  rewrite app_comm_cons, app_assoc, last_snoc, <- app_assoc, <- app_comm_cons.
  pose proof (ascending_proper _ _ A1) as P1. apply Forall_app in Lb as [Lb [L1 _]%Forall_cons], P1 as [P1 [Pb1 _]%Forall_cons].
  rewrite bool_decide_eq_false_2 by (intros E; rewrite E in L1; lia). rewrite before_dur by done. destruct (Z.ltb_spec (dur (start b1)) (dur (start b))); [lia|].
  rewrite rposition_app. cbn [rposition_of]. rewrite rposition_none.
  - rewrite leb_dur, Z.leb_refl by done. rewrite Nat.add_0_r, lookup_app_r, Nat.sub_diag by lia. cbn. by rewrite bool_decide_eq_true_2.
  - apply Forall_app. split; [|constructor; [|done]].
    + eapply Forall_impl; [apply Forall_and; split; [exact Lb|exact P1]|]. cbn. intros c [? ?]. rewrite leb_dur by done. by apply Z.leb_gt.
    + rewrite leb_dur by done. by apply Z.leb_gt.
Qed.
Lemma bucket_at_new l0 l1 s : proper s -> ascending start (l0 ++ l1) ->
  Forall (fun b => dur (start b) < dur s) l0 -> Forall (fun b => dur s < dur (start b)) l1 ->
  bucket_at s (l0 ++ l1) = (l0 ++ Bucket.new s :: l1, length l0).
Proof.
  intros Ps A F0 F1. pose proof (ascending_proper _ _ A) as [P0 P1]%Forall_app. unfold bucket_at.
  assert (N1 : rposition_of (fun b => Timestamp.leb (start b) s) l1 = None).
  { apply rposition_none. eapply Forall_impl; [apply Forall_and; split; [exact F1|exact P1]|]. cbn. intros c [? ?].
    rewrite leb_dur by done. by apply Z.leb_gt. }
  assert (G0 : forall b, start b = s -> dur (start b) < dur s -> False) by (intros b ->; lia).
  destruct l1 as [|b1 l1 _] using rev_ind.
  - rewrite app_nil_r. destruct l0 as [|b0 l0 _] using rev_ind; [done|]. rewrite last_snoc.
    apply Forall_app in F0 as [_ [F0 _]%Forall_cons], P0 as [_ [P0 _]%Forall_cons].
    rewrite bool_decide_eq_false_2 by (intros E; by eapply G0). rewrite before_dur by done. by rewrite (proj2 (Z.ltb_lt _ _) F0).
  - rewrite app_assoc, last_snoc, <- app_assoc. rewrite rposition_app, N1.
    apply Forall_app in F1 as [_ [F1 _]%Forall_cons], P1 as [_ [P1 _]%Forall_cons].
    rewrite bool_decide_eq_false_2 by (intros E; rewrite E in F1; lia). rewrite before_dur by done. destruct (Z.ltb_spec (dur (start b1)) (dur s)); [lia|].
    destruct l0 as [|b0 l0 _] using rev_ind; [done|].
    apply Forall_app in F0 as [_ [F0 _]%Forall_cons], P0 as [_ [P0 _]%Forall_cons].
    rewrite rposition_last by (rewrite leb_dur by done; apply Z.leb_le; lia).
    rewrite <- app_assoc, lookup_app_r, Nat.sub_diag by lia. cbn [app lookup list_lookup fmap option_fmap option_map].
    rewrite bool_decide_eq_false_2 by (intros [= E]; by eapply G0). unfold insert_at.
    set (k := l1 ++ [b1]). rewrite length_app. cbn [length]. rewrite Nat.add_1_r. f_equal.
    rewrite (app_assoc l0 [b0] k : l0 ++ b0 :: k = _). rewrite take_app_length', drop_app_length' by (rewrite length_app; cbn; lia). done.
Qed.

(** ** The log *)
Notation log := (list (Timestamp.t * (K * V))).
Definition survives (window : Z) (now : Timestamp.t) (e : Timestamp.t * (K * V)) : bool :=
  (sat_sub (dur now) window <=? dur e.1) && (dur e.1 <=? dur now + window).
Definition log_record (window bw : Z) (k : K) (v : V) (now : Timestamp.t) (l : log) : log :=
  List.filter (survives window now) l ++ [(bucket_start_for bw now, (k, v))].
Definition logged (window bw : Z) (rs : list (K * V * Timestamp.t)) : log :=
  fold_left (fun l r => log_record window bw r.1.1 r.1.2 r.2 l) rs [].
Definition record_all (rs : list (K * V * Timestamp.t)) (r : RollingRate.t K V) : RollingRate.t K V :=
  fold_left (fun r e => record e.1.1 e.1.2 e.2 r) rs r.
(** What the log has of one bucket, and the bucket it makes. *)
Definition entries (s : Timestamp.t) (l : log) : list (K * V) := (List.filter (fun e => bool_decide (e.1 = s)) l).*2.
Definition build (n : Z) (s : Timestamp.t) (l : list (K * V)) : bucket :=
  fold_left (fun b kv => (Bucket.add kv.1 kv.2 n b).1) l (Bucket.new s).
Definition represents (n : Z) (l : log) bs : Prop :=
  ascending start bs /\
  (forall b, b ∈ bs -> entries (start b) l <> [] /\ b = build n (start b) (entries (start b) l)) /\
  (forall e, e ∈ l -> exists b, b ∈ bs /\ start b = e.1).

Lemma add_start k v n b : start (Bucket.add k v n b).1 = start b.
Proof. unfold Bucket.add. destruct (Bucket.sums b !! k); [done|]. by case_if. Qed.
Lemma build_start n s l : start (build n s l) = s.
Proof. unfold build. induction l as [|kv l IH] using rev_ind; [done|]. rewrite fold_left_app. cbn. by rewrite add_start. Qed.
Lemma build_snoc n s l kv : build n s (l ++ [kv]) = (Bucket.add kv.1 kv.2 n (build n s l)).1.
Proof. unfold build. by rewrite fold_left_app. Qed.
Lemma build_size n s l : 0 <= n -> Z.of_nat (size (Bucket.sums (build n s l))) <= n.
Proof.
  intros Hn. induction l as [|kv l IH] using rev_ind; [done|]. rewrite build_snoc. unfold Bucket.add.
  destruct (Bucket.sums _ !! kv.1) as [v|] eqn:E; [|case_if]; cbn -[size]; [|rewrite map_size_insert_None by done; lia|done].
  rewrite map_size_insert_Some; [done|by exists v].
Qed.
Lemma entries_app s l l' : entries s (l ++ l') = entries s l ++ entries s l'.
Proof. unfold entries. by rewrite List.filter_app, fmap_app. Qed.
Lemma entries_filter (f : Timestamp.t -> bool) s l :
  entries s (List.filter (fun e => f e.1) l) = if f s then entries s l else [].
Proof.
  unfold entries. induction l as [|e l IH]; cbn; [by destruct (f s)|]. destruct (decide (e.1 = s)) as [E|N].
  - rewrite E in *. destruct (f s) eqn:Hs; cbn; rewrite ?E, ?bool_decide_eq_true_2 by done; cbn; by rewrite IH.
  - rewrite (bool_decide_eq_false_2 (e.1 = s)) by done. destruct (f e.1); cbn; [by rewrite bool_decide_eq_false_2|done].
Qed.
Lemma represents_filter (f : Timestamp.t -> bool) n l bs : represents n l bs ->
  represents n (List.filter (fun e => f e.1) l) (List.filter (fun b => f (start b)) bs).
Proof.
  intros (A & B & C). split_and!; [by apply ascending_filter| |].
  - intros b [I Fb]%list_elem_of_In%filter_In. rewrite entries_filter, Fb. by apply B, list_elem_of_In.
  - intros e [I Fe]%list_elem_of_In%filter_In. destruct (C e) as (b & Ib & E); [by apply list_elem_of_In|].
    exists b. split; [|done]. apply list_elem_of_In, filter_In. rewrite E. split; [by apply list_elem_of_In|done].
Qed.
Lemma represents_new n l bs s : represents n l bs -> proper s ->
  exists l0 b l1, bucket_at s bs = (l0 ++ b :: l1, length l0) /\ ascending start (l0 ++ b :: l1) /\
    b = build n s (entries s l) /\ (forall b', b' ∈ l0 ++ l1 -> b' ∈ bs /\ start b' <> s) /\
    (forall b', b' ∈ bs -> b' ∈ l0 ++ b :: l1).
Proof.
  intros (A & B & C) Ps. destruct (split_threshold start bs (dur s) A) as (l0 & l1 & -> & F0 & F1).
  assert (N0 : forall b', b' ∈ l0 -> start b' <> s).
  { rewrite Forall_forall in F0. intros b' I E. specialize (F0 b' I). rewrite E in F0. lia. }
  assert (Hnew : Forall (fun b => dur s < dur (start b)) l1 \/ exists b l1', l1 = b :: l1' /\ start b = s).
  { pose proof A as A'. apply ascending_app in A' as (_ & A1 & _). destruct l1 as [|b l1]; [by left|].
    destruct A1 as (Pb & Lb & A1). apply Forall_cons in F1 as [F1 _]. destruct (decide (dur s = dur (start b))) as [E|N].
    - right. exists b, l1. split; [done|]. symmetry. by apply dur_inj.
    - left. constructor; [lia|]. eapply Forall_impl; [exact Lb|]. cbn. lia. }
  destruct Hnew as [F|(b & l1' & -> & <-)].
  - assert (Es : entries s l = []).
    { destruct (entries s l) as [|kv k] eqn:E; [done|]. exfalso. assert (I : kv ∈ entries s l) by (rewrite E; left).
      unfold entries in I. apply list_elem_of_fmap in I as (e & -> & I). apply list_elem_of_In, filter_In in I as [I D].
      apply bool_decide_eq_true in D. destruct (C e) as (b & Ib & Eb); [by apply list_elem_of_In|]. rewrite D in Eb.
      apply elem_of_app in Ib as [Ib|Ib]; [by apply (N0 b)|]. rewrite Forall_forall in F. specialize (F b Ib). rewrite Eb in F. lia. }
    exists l0, (Bucket.new s), l1. rewrite (bucket_at_new l0 l1 s Ps A F0 F), Es. split_and!; [done| |done| |].
    + apply ascending_app in A as (A0 & A1 & F2). apply ascending_app. cbn. split_and!; [done|done|done|done|].
      eapply Forall_impl; [apply Forall_and; split; [exact F0|exact F2]|]. cbn. intros b [? ?]. by constructor.
    + intros b' I. split; [done|]. apply elem_of_app in I as [I|I]; [by apply N0|]. rewrite Forall_forall in F. intros E.
      specialize (F b' I). rewrite E in F. lia.
    + intros b'. rewrite !elem_of_app, elem_of_cons. tauto.
  - exists l0, b, l1'. rewrite (bucket_at_here l0 l1' b A). split_and!; [done|done| | |done].
    + apply B. rewrite elem_of_app, elem_of_cons. tauto.
    + intros b' I. split; [rewrite elem_of_app in I |- *; rewrite elem_of_cons; tauto|].
      apply ascending_app in A as (_ & (_ & Lb & _) & F2). apply elem_of_app in I as [I|I]; [by apply N0|].
      rewrite Forall_forall in Lb. intros E. specialize (Lb b' I). rewrite E in Lb. lia.
Qed.
Lemma represents_snoc n l bs s k v : represents n l bs -> proper s ->
  let (bs', pos) := bucket_at s bs in
  exists b, bs' !! pos = Some b /\ represents n (l ++ [(s, (k, v))]) (<[pos := (Bucket.add k v n b).1]> bs').
Proof.
  intros Rp Ps. destruct (represents_new n l bs s Rp Ps) as (l0 & b & l1 & -> & A & Eb & Hold & Hall).
  assert (Sb : start b = s) by (rewrite Eb; apply build_start).
  exists b. rewrite lookup_app_r, Nat.sub_diag by lia. split; [done|].
  rewrite <- (Nat.add_0_r (length l0)), insert_app_r. cbn [insert list_insert].
  assert (Es : entries s [(s, (k, v))] = [(k, v)]) by (unfold entries; cbn; by rewrite bool_decide_eq_true_2).
  destruct Rp as (_ & B & C). split_and!.
  - apply ascending_app in A as (A0 & (Pb & Lb & A1) & F). apply ascending_app. cbn [ascending]. rewrite add_start. split_and!; [done..|].
    eapply Forall_impl; [exact F|]. cbn. intros c [? ?]%Forall_cons. constructor; [by rewrite add_start|done].
  - intros b' I. assert (b' = (Bucket.add k v n b).1 \/ b' ∈ l0 ++ l1) as [->|N] by (rewrite elem_of_app, elem_of_cons in I; rewrite elem_of_app; tauto).
    + rewrite add_start, Sb, entries_app, Es. split; [by destruct (entries s l)|]. by rewrite build_snoc, <- Eb.
    + destruct (Hold b' N) as [I' N'].
      assert (E0 : entries (start b') [(s, (k, v))] = []) by (unfold entries; cbn; by rewrite bool_decide_eq_false_2 by congruence).
      rewrite entries_app, E0, app_nil_r. by apply B.
  - assert (G : exists b', b' ∈ l0 ++ (Bucket.add k v n b).1 :: l1 /\ start b' = s).
    { exists (Bucket.add k v n b).1. rewrite add_start. split; [|done]. rewrite elem_of_app, elem_of_cons. tauto. }
    intros e [I|I]%elem_of_app; [|apply list_elem_of_singleton in I as ->; exact G]. destruct (decide (e.1 = s)) as [->|N]; [exact G|].
    destruct (C e I) as (b' & Ib & E). exists b'. split; [|done]. apply Hall in Ib. rewrite elem_of_app, elem_of_cons in Ib |- *.
    destruct Ib as [|[->|]]; [by left|congruence|by right; right].
Qed.

Definition shaped (w bw n : Z) (r : RollingRate.t K V) : Prop := window r = w /\ bucket_width r = bw /\ max_keys r = n.
Lemma filter_filter_and {A} (f g : A -> bool) (l : list A) :
  List.filter f (List.filter g l) = List.filter (fun a => g a && f a) l.
Proof. induction l as [|a l IH]; [done|]. cbn. destruct (g a); cbn; by rewrite IH. Qed.
Lemma record_represents w bw n k v now r l : 0 < bw <= w -> proper now -> shaped w bw n r ->
  represents n l (buckets r) ->
  shaped w bw n (record k v now r) /\ represents n (log_record w bw k v now l) (buckets (record k v now r)).
Proof.
  intros Hb Pn (<- & <- & <-) Rp. unfold record. set (r1 := evict_expired now r).
  set (r2 := r1 <| buckets ::= _ |>).
  assert (R2 : represents (max_keys r) (List.filter (survives (window r) now) l) (buckets r2)).
  { pose proof Rp as (A & _).
    change (buckets r2) with (pop_back_while (fun b => dur now + window r <? dur (start b))
      (pop_front_while (fun b => before (start b) (cutoff_for (window r) now)) (buckets r))).
    rewrite (pop_before_filter start (buckets r) _ (cutoff_proper _ _) A). rewrite cutoff_dur by (done || lia).
    rewrite pop_after_filter by by apply ascending_filter.
    pose proof (represents_filter (fun s => dur s <=? dur now + window r) _ _ _
      (represents_filter (fun s => sat_sub (dur now) (window r) <=? dur s) _ _ _ Rp)) as G. cbn in G.
    by rewrite (filter_filter_and _ (fun e : Timestamp.t * (K * V) => sat_sub (dur now) (window r) <=? dur e.1)) in G. }
  pose proof (represents_snoc _ _ _ (bucket_start_for (bucket_width r) now) k v R2 (bucket_start_proper _ _)) as G.
  change (start_for now r2) with (bucket_start_for (bucket_width r) now).
  destruct (bucket_at _ (buckets r2)) as [bs pos]. destruct G as (b & Eb & G). unfold add_at. cbn [buckets upd]. cbn. rewrite Eb.
  change (max_keys r2) with (max_keys r). destruct (Bucket.add k v (max_keys r) b) as [b' over] eqn:Ea. cbn [fst] in G.
  destruct over; (split; [by split_and!|exact G]).
Qed.
Lemma record_all_represents w bw n rs : forall r l, 0 < bw <= w -> Forall (fun e => proper e.2) rs -> shaped w bw n r ->
  represents n l (buckets r) ->
  shaped w bw n (record_all rs r) /\
  represents n (fold_left (fun l r => log_record w bw r.1.1 r.1.2 r.2 l) rs l) (buckets (record_all rs r)).
Proof.
  induction rs as [|[[k v] now] rs IH]; intros r l Hb Pr S Rp; [done|]. apply Forall_cons in Pr as [Pn Pr].
  destruct (record_represents w bw n k v now r l Hb Pn S Rp). by apply IH.
Qed.

(** ** Sums *)
Definition tally (l : list V) : V := fold_left add_assign l zero_value.
Definition values (l : list (K * V)) : list V := l.*2.
Context `{!RateLaws V}.
Lemma fold_left_add l : forall a : V, fold_left add_assign l a = foldr add_assign a l.
Proof.
  induction l as [|v l IH]; intros a; [done|]. cbn. rewrite IH. clear IH. induction l as [|u l IH]; cbn; [apply add_assign_comm|].
  rewrite IH, <- !add_assign_assoc. f_equal. apply add_assign_comm.
Qed.
Lemma tally_foldr l : tally l = foldr add_assign zero_value l.
Proof. apply fold_left_add. Qed.
Lemma tally_cons v l : tally (v :: l) = add_assign v (tally l).
Proof. by rewrite !tally_foldr. Qed.
Lemma tally_zero l : add_assign zero_value (tally l) = tally l.
Proof.
  induction l as [|v l IH]; [apply add_assign_zero|]. rewrite tally_cons.
  by rewrite <- add_assign_assoc, (add_assign_comm zero_value v), add_assign_assoc, IH.
Qed.
Lemma tally_app l k : tally (l ++ k) = add_assign (tally l) (tally k).
Proof. induction l as [|v l IH]; cbn [app]; [by rewrite tally_zero|]. by rewrite !tally_cons, IH, add_assign_assoc. Qed.
Lemma tally_snoc l v : tally (l ++ [v]) = add_assign (tally l) v.
Proof. unfold tally. by rewrite fold_left_app. Qed.
Lemma tally_perm l k : l ≡ₚ k -> tally l = tally k.
Proof.
  induction 1 as [|v l k _ IH|u v l|l k m _ IH1 _ IH2]; rewrite ?tally_cons; [done|by rewrite IH| |by rewrite IH1].
  by rewrite <- !add_assign_assoc, (add_assign_comm u v).
Qed.
Lemma tally_omap {A} (f : A -> option V) (g : A -> list V) (l : list A) :
  (forall a, a ∈ l -> match f a with Some x => add_assign zero_value x = tally (g a) | None => g a = [] end) ->
  tally (omap f l) = tally (l ≫= g).
Proof.
  induction l as [|a l IH]; intros G; [done|]. rewrite bind_cons, tally_app, <- IH by (intros; apply G; by right).
  specialize (G a ltac:(left)). change (omap f (a :: l)) with (match f a with Some x => x :: omap f l | None => omap f l end).
  destruct (f a) as [x|].
  - rewrite tally_cons, <- G, (add_assign_comm zero_value x), add_assign_assoc. by rewrite tally_zero.
  - rewrite G. by rewrite tally_zero.
Qed.
(** A list, by the classes of its elements. *)
Lemma grouped {A B} `{EqDecision B} (f : A -> B) (ss : list B) (l : list A) : NoDup ss ->
  (forall a, a ∈ l -> f a ∈ ss) -> l ≡ₚ ss ≫= (fun s => List.filter (fun a => bool_decide (f a = s)) l).
Proof.
  intros N. induction l as [|a l IH]; intros C.
  { clear. induction ss as [|s ss IH]; [done|]. by cbn. }
  specialize (IH ltac:(intros; apply C; by right)). destruct (list_elem_of_split ss (f a) (C a ltac:(left))) as (s1 & s2 & ->).
  apply NoDup_app in N as (_ & N1 & [N2 _]%NoDup_cons).
  assert (Same : forall ss, f a ∉ ss ->
    ss ≫= (fun s => List.filter (fun a => bool_decide (f a = s)) (a :: l)) = ss ≫= (fun s => List.filter (fun a => bool_decide (f a = s)) l)).
  { clear. induction ss as [|s ss IH]; intros N; [done|]. cbn. apply not_elem_of_cons in N as [N1 N2].
    rewrite bool_decide_eq_false_2 by done. by rewrite <- IH. }
  rewrite bind_app, bind_cons, !Same in * by (try done; intros I; apply (N1 (f a) I); left).
  cbn. rewrite bool_decide_eq_true_2 by done. cbn. rewrite <- Permutation_middle. constructor. exact IH.
Qed.

(** ** A bucket *)

(** The keys of a list in the order they first appear, and those a bucket of
    [n] keys takes. *)
Definition firsts (l : list (K * V)) : list K := reverse (remove_dups (reverse l.*1)).
Definition admitted (n : Z) (l : list (K * V)) : list K := ztake n (firsts l).
Definition of_key (k : K) (l : list (K * V)) : list V := (List.filter (fun kv => bool_decide (kv.1 = k)) l).*2.
Definition refused (n : Z) (l : list (K * V)) : list V := (List.filter (fun kv => negb (bool_decide (kv.1 ∈ admitted n l))) l).*2.

Lemma firsts_in k l : k ∈ firsts l <-> k ∈ l.*1.
Proof. unfold firsts. by rewrite elem_of_reverse, elem_of_remove_dups, elem_of_reverse. Qed.
Lemma firsts_snoc l kv : firsts (l ++ [kv]) = if decide (kv.1 ∈ l.*1) then firsts l else firsts l ++ [kv.1].
Proof.
  unfold firsts. rewrite fmap_app. cbn [fmap list_fmap]. rewrite reverse_snoc. cbn [remove_dups]. destruct (decide_rel _ _ _) as [I|I]; rewrite elem_of_reverse in I.
  - by rewrite decide_True.
  - rewrite decide_False by done. by rewrite reverse_cons.
Qed.
Lemma firsts_NoDup l : NoDup (firsts l).
Proof. unfold firsts. rewrite reverse_Permutation. apply NoDup_remove_dups. Qed.
Lemma of_key_none k l : k ∉ l.*1 -> of_key k l = [].
Proof.
  unfold of_key. induction l as [|kv l IH]; intros N; [done|]. cbn in *. apply not_elem_of_cons in N as [N1 N2].
  rewrite bool_decide_eq_false_2 by congruence. by apply IH.
Qed.
Lemma of_key_snoc k l kv : of_key k (l ++ [kv]) = of_key k l ++ (if decide (kv.1 = k) then [kv.2] else []).
Proof. unfold of_key. rewrite List.filter_app, fmap_app. cbn. destruct (decide (kv.1 = k)); [by rewrite bool_decide_eq_true_2|by rewrite bool_decide_eq_false_2]. Qed.
Definition bucket_spec (n : Z) (l : list (K * V)) (b : bucket) : Prop :=
  (forall k, is_Some (Bucket.sums b !! k) <-> k ∈ admitted n l) /\
  size (Bucket.sums b) = length (admitted n l) /\
  (forall k x, Bucket.sums b !! k = Some x -> add_assign zero_value x = tally (of_key k l)) /\
  match Bucket.other b with Some y => y = tally (refused n l) | None => refused n l = [] end.
Lemma refused_same n l kv : admitted n (l ++ [kv]) = admitted n l ->
  refused n (l ++ [kv]) = refused n l ++ (if decide (kv.1 ∈ admitted n l) then [] else [kv.2]).
Proof.
  intros E. unfold refused. rewrite E, List.filter_app, fmap_app. cbn.
  destruct (decide (kv.1 ∈ admitted n l)); [by rewrite bool_decide_eq_true_2|by rewrite bool_decide_eq_false_2].
Qed.
Lemma refused_none n l : admitted n l = firsts l -> refused n l = [].
Proof.
  intros E. unfold refused. assert (G : Forall (fun kv => kv.1 ∈ admitted n l) l).
  { rewrite E. apply Forall_forall. intros kv I. apply firsts_in, list_elem_of_fmap. by eexists. }
  revert G. clear E. generalize (admitted n l). intros ks. induction 1 as [|kv k I _ IH]; [done|]. cbn. rewrite bool_decide_eq_true_2 by done. exact IH.
Qed.
Lemma build_spec n s l : 0 <= n -> bucket_spec n l (build n s l).
Proof.
  intros Hn. induction l as [|[k v] l IH] using rev_ind.
  { unfold bucket_spec, admitted, firsts. cbn. rewrite ztake_nil. split_and!; [|done| |done].
    - intros k. rewrite lookup_empty. split; [by intros []|by intros ?%elem_of_nil].
    - intros k x. by rewrite lookup_empty. }
  rewrite build_snoc. destruct IH as (D & Sz & Su & Ot). generalize dependent (build n s l). intros b D Sz Su Ot.
  unfold Bucket.add. cbn [fst snd]. assert (Hin : k ∈ admitted n l -> k ∈ l.*1).
  { intros I. apply firsts_in. unfold admitted, ztake in I. rewrite <- (take_drop (Z.to_nat n) (firsts l)), elem_of_app. by left. }
  destruct (Bucket.sums b !! k) as [x|] eqn:Ek.
  - assert (I : k ∈ admitted n l) by (apply D; by eexists).
    assert (Ea : admitted n (l ++ [(k, v)]) = admitted n l) by (unfold admitted; rewrite firsts_snoc, decide_True by auto; done).
    unfold bucket_spec. rewrite refused_same, Ea, decide_True, app_nil_r by done. cbn [fst Bucket.sums upd]. cbn. split_and!; [| | |done].
    + intros k'. rewrite lookup_insert_is_Some'. rewrite <- D. split; [intros [->|]; [by eexists|done]|by right].
    + by rewrite map_size_insert_Some by by eexists.
    + intros k' y. rewrite of_key_snoc. cbn. destruct (decide (k = k')) as [->|N].
      * rewrite lookup_insert_eq. intros [= <-]. by rewrite tally_snoc, <- add_assign_assoc, (Su _ _ Ek).
      * rewrite lookup_insert_ne, app_nil_r by done. apply Su.
  - assert (I : k ∉ admitted n l) by (rewrite <- D, Ek; by intros []).
    destruct (Z.ltb_spec (Z.of_nat (size (Bucket.sums b))) n) as [Hlt|Hge].
    + assert (Ea : admitted n l = firsts l).
      { apply ztake_ge. rewrite Sz in Hlt. unfold admitted, ztake, zlen in *. rewrite length_take in Hlt. lia. }
      assert (Ik : k ∉ l.*1) by (by rewrite <- firsts_in, <- Ea).
      assert (Ea' : admitted n (l ++ [(k, v)]) = firsts (l ++ [(k, v)])).
      { apply ztake_ge. rewrite firsts_snoc, decide_False by done. rewrite zlen_app, zlen_cons, zlen_nil. rewrite Sz, Ea in Hlt. unfold zlen. lia. }
      unfold bucket_spec. rewrite refused_none, Ea', firsts_snoc, decide_False by done. cbn [fst Bucket.sums upd]. cbn. rewrite <- Ea. split_and!.
      * intros k'. rewrite lookup_insert_is_Some', elem_of_app, list_elem_of_singleton, <- D. naive_solver.
      * rewrite map_size_insert_None by done. rewrite length_app, Sz. cbn. lia.
      * intros k' y. rewrite of_key_snoc. cbn. destruct (decide (k = k')) as [->|N].
        -- rewrite lookup_insert_eq. intros [= <-]. by rewrite of_key_none.
        -- rewrite lookup_insert_ne, app_nil_r by done. apply Su.
      * rewrite refused_none in Ot by done. done.
    + assert (Ea : admitted n (l ++ [(k, v)]) = admitted n l).
      { unfold admitted. rewrite firsts_snoc. case_decide; [done|]. apply ztake_app_le. rewrite Sz in Hge.
        unfold admitted, ztake, zlen in *. rewrite length_take in Hge. lia. }
      unfold bucket_spec. rewrite refused_same, Ea, decide_False by done. cbn [fst Bucket.other Bucket.sums upd]. cbn. split_and!; [done|done| |].
      * intros k' y Hy. rewrite of_key_snoc. cbn. destruct (decide (k = k')) as [->|N]; [congruence|]. rewrite app_nil_r. by apply Su.
      * rewrite tally_snoc. destruct (Bucket.other b) as [y|]; [by subst y|by rewrite Ot].
Qed.

(** ** A table *)
(** A bucket that starts at [s] is summed: it does not start before the
    window.  There is no upper bound: see [later_values_count]. *)
Definition unexpired (w : Z) (now s : Timestamp.t) : bool := sat_sub (dur now) w <=? dur s.
(** The values of the log that pass a test on start and pair. *)
Definition picked (q : Timestamp.t -> K * V -> bool) (l : log) : list V := (List.filter (fun e => q e.1 e.2) l).*2.*2.
Lemma active_filter w bw n now r l : 0 <= w -> proper now -> shaped w bw n r -> represents n l (buckets r) ->
  active now r = List.filter (fun b => unexpired w now (start b)) (buckets r).
Proof.
  intros Hw Pn (<- & _) (A & _). apply List.filter_ext_in. intros b I%list_elem_of_In.
  pose proof (ascending_proper _ _ A) as P. rewrite Forall_forall in P. unfold cutoff, unexpired.
  rewrite leb_dur by (try apply cutoff_proper; by apply P). by rewrite cutoff_dur.
Qed.
Lemma ascending_NoDup bs : ascending start bs -> NoDup (start <$> bs).
Proof.
  induction bs as [|b bs IH]; [constructor|]. intros (P & L & A). cbn. constructor; [|by apply IH].
  rewrite Forall_forall in L. intros (b' & E & I)%list_elem_of_fmap. specialize (L b' I). rewrite E in L. lia.
Qed.
Lemma entries_picked (win : Timestamp.t -> bool) q s l : win s = true ->
  (List.filter (fun e => bool_decide (e.1 = s)) (List.filter (fun e : Timestamp.t * (K * V) => win e.1 && q e.1 e.2) l)).*2.*2
  = (List.filter (q s) (entries s l)).*2.
Proof.
  intros W. unfold entries. induction l as [|[s' kv] l IH]; [done|]. cbn. destruct (decide (s' = s)) as [->|N].
  - rewrite W. cbn. rewrite (bool_decide_eq_true_2 (s = s)) by done. cbn. destruct (q s kv); cbn; [|done].
    rewrite bool_decide_eq_true_2 by done. cbn. by f_equal.
  - rewrite (bool_decide_eq_false_2 (s' = s)) by done. destruct (win s' && q s' kv); cbn; [|done]. by rewrite bool_decide_eq_false_2.
Qed.
Lemma picked_by_bucket (win : Timestamp.t -> bool) q n l bs : represents n l bs ->
  tally (picked (fun s kv => win s && q s kv) l) =
  tally (List.filter (fun b => win (start b)) bs ≫= fun b => (List.filter (q (start b)) (entries (start b) l)).*2).
Proof.
  intros (A & _ & C). set (a := List.filter _ bs). set (lf := List.filter (fun e : Timestamp.t * (K * V) => win e.1 && q e.1 e.2) l).
  assert (G : lf ≡ₚ (start <$> a) ≫= fun s => List.filter (fun e => bool_decide (e.1 = s)) lf).
  { apply grouped; [by apply ascending_NoDup, ascending_filter|]. intros e [I W]%list_elem_of_In%filter_In.
    destruct (C e) as (b & Ib & E); [by apply list_elem_of_In|]. apply list_elem_of_fmap. exists b. split; [done|].
    apply andb_true_iff in W as [W _]. apply list_elem_of_In, filter_In. rewrite E. split; [by apply list_elem_of_In|done]. }
  unfold picked. fold lf. rewrite (tally_perm _ (((start <$> a) ≫= fun s => List.filter (fun e => bool_decide (e.1 = s)) lf).*2.*2)) by by rewrite <- G.
  f_equal. clear G. assert (W : Forall (fun b => win (start b) = true) a).
  { apply Forall_forall. by intros b [_ W]%list_elem_of_In%filter_In. }
  clearbody a. induction W as [|b a Wb _ IH]; [done|]. rewrite fmap_cons, !bind_cons, !fmap_app, IH. f_equal. by apply entries_picked.
Qed.
(** A key's sum is that of its values in the buckets that took it. *)
Definition counted (n : Z) (l : log) (k : K) (s : Timestamp.t) (kv : K * V) : bool :=
  bool_decide (kv.1 = k) && bool_decide (k ∈ admitted n (entries s l)).
Lemma sum_log w bw n now k r l : 0 <= w -> 0 <= n -> proper now -> shaped w bw n r -> represents n l (buckets r) ->
  sum k now r = tally (picked (fun s kv => unexpired w now s && counted n l k s kv) l).
Proof.
  intros Hw Hn Pn Sh Rp. rewrite (picked_by_bucket (unexpired w now) _ n l (buckets r) Rp), <- (active_filter w bw n now r l) by done.
  unfold sum. change (fold_left add_assign ?l zero_value) with (tally l). apply tally_omap.
  intros b I. unfold active in I. apply list_elem_of_In, filter_In in I as [I%list_elem_of_In _]. destruct Rp as (_ & B & _).
  apply B in I as [_ Eb]. pose proof (build_spec n (start b) (entries (start b) l) Hn) as (D & _ & Su & _). rewrite <- Eb in *.
  unfold counted. destruct (Bucket.sums b !! k) as [x|] eqn:Ek.
  - rewrite (Su k x Ek). unfold of_key. rewrite (bool_decide_eq_true_2 (k ∈ _)) by (apply D; by eexists).
    do 2 f_equal. apply List.filter_ext. intros kv. by rewrite andb_true_r.
  - rewrite (bool_decide_eq_false_2 (k ∈ _)) by (rewrite <- D, Ek; by intros []).
    rewrite (List.filter_ext _ (fun _ => false)); [clear; by induction (entries (start b) l)|].
    intros kv. apply andb_false_r.
Qed.
Lemma bucket_total n l b : bucket_spec n l b ->
  add_assign (tally (map_to_list (Bucket.sums b)).*2) (tally (match Bucket.other b with Some y => [y] | None => [] end)) = tally l.*2.
Proof.
  intros (D & _ & Su & Ot). set (ad := fun kv : K * V => bool_decide (kv.1 ∈ admitted n l)). set (m := Bucket.sums b) in *.
  assert (E1 : tally (map_to_list m).*2 = tally (List.filter ad l).*2).
  { rewrite (tally_perm (List.filter ad l).*2 (map_to_list m ≫= fun kx => of_key kx.1 l)).
    - rewrite <- (tally_omap (fun kx : K * V => Some kx.2)); [f_equal; clear; by induction (map_to_list m) as [|kx k IH]; [|cbn; f_equal]|].
      intros [k x] I%elem_of_map_to_list. by apply Su.
    - rewrite (grouped fst (map_to_list m).*1 (List.filter ad l)).
      + assert (F : Forall (fun k => k ∈ admitted n l) (map_to_list m).*1).
        { apply Forall_forall. intros k ([k' x] & -> & I%elem_of_map_to_list)%list_elem_of_fmap. apply D. by eexists. }
        generalize dependent (map_to_list m). intros ks F. clear -F. induction ks as [|[k x] ks IH]; [done|]. apply Forall_cons in F as [Fk F].
        cbn [fmap list_fmap fst]. rewrite !bind_cons, fmap_app, IH by done. f_equiv. cbn [fst]. unfold of_key. apply reflexive_eq. f_equal.
        rewrite filter_filter_and. apply List.filter_ext. intros kv. unfold ad. destruct (decide (kv.1 = k)) as [->|N].
        * by rewrite !bool_decide_eq_true_2.
        * rewrite (bool_decide_eq_false_2 (kv.1 = k)) by done. apply andb_false_r.
      + apply NoDup_fst_map_to_list.
      + intros kv [_ I]%list_elem_of_In%filter_In. apply bool_decide_eq_true, D in I as [x I]. apply list_elem_of_fmap.
        exists (kv.1, x). split; [done|]. by apply elem_of_map_to_list. }
  rewrite E1. assert (E2 : tally (match Bucket.other b with Some y => [y] | None => [] end) = tally (refused n l)).
  { destruct (Bucket.other b) as [y|]; [|by rewrite Ot]. rewrite Ot, tally_cons, add_assign_comm. apply tally_zero. }
  rewrite E2, <- tally_app. apply tally_perm. unfold refused. rewrite <- fmap_app. f_equiv. clear.
  fold ad. change (fun kv : K * V => negb (bool_decide (kv.1 ∈ admitted n l))) with (fun kv => negb (ad kv)). clearbody ad.
  induction l as [|kv l IH]; [done|]. cbn. destruct (ad kv); cbn; [by constructor|]. by rewrite <- Permutation_middle, IH.
Qed.
Lemma tally_bind_add {A} (f g h : A -> list V) (a : list A) :
  (forall c, c ∈ a -> add_assign (tally (f c)) (tally (g c)) = tally (h c)) ->
  add_assign (tally (a ≫= f)) (tally (a ≫= g)) = tally (a ≫= h).
Proof.
  induction a as [|c a IH]; intros G; [apply add_assign_zero|]. rewrite !bind_cons, !tally_app.
  rewrite <- (G c) by left. rewrite <- IH by (intros; apply G; by right). rewrite !add_assign_assoc. f_equal.
  rewrite <- !add_assign_assoc. f_equal. apply add_assign_comm.
Qed.
Lemma conserved_log w bw n now r l : 0 <= w -> 0 <= n -> proper now -> shaped w bw n r -> represents n l (buckets r) ->
  add_assign (tally (for_each_bucket now r).*2) (other_sum now r) = tally (picked (fun s _ => unexpired w now s) l).
Proof.
  intros Hw Hn Pn Sh Rp.
  assert (E : picked (fun s _ => unexpired w now s) l = picked (fun s _ => unexpired w now s && true) l).
  { unfold picked. do 2 f_equal. apply List.filter_ext. intros e. by rewrite andb_true_r. }
  rewrite E, (picked_by_bucket (unexpired w now) (fun _ _ => true) n l (buckets r) Rp), <- (active_filter w bw n now r l) by done.
  assert (B : forall b, b ∈ active now r -> bucket_spec n (entries (start b) l) b).
  { intros b I. apply list_elem_of_In, filter_In in I as [I%list_elem_of_In _]. destruct Rp as (_ & B & _). apply B in I as [_ Eb].
    pose proof (build_spec n (start b) (entries (start b) l) Hn) as G. by rewrite <- Eb in G. }
  assert (F : (for_each_bucket now r).*2 = active now r ≫= fun b => (map_to_list (Bucket.sums b)).*2).
  { unfold for_each_bucket. clear. induction (active now r) as [|b a IH]; [done|]. by rewrite !bind_cons, fmap_app, IH. }
  assert (O : other_sum now r = tally (active now r ≫= fun b => match Bucket.other b with Some y => [y] | None => [] end)).
  { unfold other_sum. change (fold_left add_assign ?l zero_value) with (tally l). f_equal. clear. induction (active now r) as [|b a IH]; [done|].
    rewrite bind_cons, <- IH. cbn. by destruct (Bucket.other b). }
  rewrite F, O. apply tally_bind_add. intros b I. rewrite (bucket_total n (entries (start b) l) b) by auto.
  do 2 f_equal. clear. induction (entries (start b) l) as [|kv l' IH]; [done|]. cbn. by rewrite <- IH.
Qed.

(** ** Sizes *)
Definition spaced (bw lo hi : Z) (s : Timestamp.t) : Prop := (exists q, dur s = q * bw) /\ lo <= dur s <= hi.
Lemma spaced_count bw hi bs : 0 < bw -> ascending start bs -> forall lo, Forall (fun b => spaced bw lo hi (start b)) bs -> bs <> [] ->
  (zlen bs - 1) * bw <= hi - lo.
Proof.
  intros Hb. induction bs as [|b bs IH]; intros A lo F N; [done|clear N]. destruct A as (_ & L & A). apply Forall_cons in F as [((q & Eq) & Hl) F].
  destruct bs as [|b' bs]; [change (zlen [b]) with 1; lia|]. specialize (IH A (dur (start b) + bw)). rewrite zlen_cons.
  assert ((zlen (b' :: bs) - 1) * bw <= hi - (dur (start b) + bw)); [|lia]. apply IH; [|done].
  eapply Forall_impl; [apply Forall_and; split; [exact L|exact F]|]. cbn. intros c (Hc & (q' & Eq') & Hr). split; [by exists q'|].
  assert (q < q') by nia. nia.
Qed.
Lemma logged_snoc w bw rs e : logged w bw (rs ++ [e]) = log_record w bw e.1.1 e.1.2 e.2 (logged w bw rs).
Proof. unfold logged. by rewrite fold_left_app. Qed.
Lemma logged_aligned w bw rs : 0 < bw <= w -> Forall (fun e => proper e.2) rs ->
  Forall (fun e => (exists q, dur e.1 = q * bw) /\ exists r, r ∈ rs /\ dur e.1 <= dur r.2) (logged w bw rs).
Proof.
  intros Hb. induction rs as [|e rs IH] using rev_ind; intros F; [constructor|]. apply Forall_app in F as [F [Pe _]%Forall_cons].
  rewrite logged_snoc. apply Forall_app. split.
  - apply Forall_forall. intros e' [I _]%list_elem_of_In%filter_In. specialize (IH F). rewrite Forall_forall in IH.
    destruct (IH e') as (Q & r & Ir & Hr); [by apply list_elem_of_In|]. split; [done|]. exists r. split; [|done]. apply elem_of_app. by left.
  - constructor; [|constructor]. cbn. pose proof (bucket_start_le bw e.2 ltac:(lia) Pe). split.
    + exists (dur e.2 / bw). apply bucket_start_dur; [lia|done].
    + exists e. split; [apply elem_of_app; right; left|lia].
Qed.
Lemma logged_near w bw rs e : 0 < bw <= w -> Forall (fun e => proper e.2) (rs ++ [e]) ->
  Forall (fun x => dur e.2 - w <= dur x.1 <= dur e.2 + w) (logged w bw (rs ++ [e])).
Proof.
  intros Hb [_ [Pe _]%Forall_cons]%Forall_app. rewrite logged_snoc. apply Forall_app. split.
  - apply Forall_forall. intros x [_ S]%list_elem_of_In%filter_In. unfold survives, sat_sub in S. zb. lia.
  - constructor; [|constructor]. cbn. pose proof (bucket_start_le bw e.2 ltac:(lia) Pe). lia.
Qed.
Lemma count_log w bw n rs e hi r : 0 < bw <= w -> Forall (fun e => proper e.2) (rs ++ [e]) ->
  represents n (logged w bw (rs ++ [e])) (buckets r) -> Forall (fun x => dur x.1 <= hi) (logged w bw (rs ++ [e])) ->
  bucket_count r <= (hi - (dur e.2 - w)) / bw + 1.
Proof.
  intros Hb F (A & B & C) Hhi.
  assert (S : Forall (fun b => spaced bw (dur e.2 - w) hi (start b)) (buckets r)).
  { apply Forall_forall. intros b I. destruct (B b I) as [N _]. destruct (entries (start b) _) as [|kv es] eqn:E; [done|].
    assert (Ik : kv ∈ entries (start b) (logged w bw (rs ++ [e]))) by (rewrite E; left). apply list_elem_of_fmap in Ik as (x & _ & Ix).
    apply list_elem_of_In, filter_In in Ix as [Ix D%bool_decide_eq_true]. apply list_elem_of_In in Ix. rewrite <- D.
    pose proof (logged_aligned w bw _ Hb F) as G1. pose proof (logged_near w bw rs e Hb F) as G2.
    rewrite Forall_forall in G1, G2, Hhi. destruct (G1 x Ix) as [Q _]. specialize (G2 x Ix). specialize (Hhi x Ix). split; [done|lia]. }
  assert (N : buckets r <> []).
  { destruct (C (bucket_start_for bw e.2, e.1)) as (b & I & _); [|intros E; rewrite E in I; by apply elem_of_nil in I].
    rewrite logged_snoc. apply elem_of_app. right. destruct e as [[k v] now]. left. }
  pose proof (spaced_count bw hi (buckets r) ltac:(lia) A _ S N) as G. unfold bucket_count.
  assert (zlen (buckets r) - 1 <= (hi - (dur e.2 - w)) / bw); [|lia]. apply Z.div_le_lower_bound; lia.
Qed.
Lemma stored_log n l r : 0 <= n -> represents n l (buckets r) -> stored_entries r <= n * bucket_count r.
Proof.
  intros Hn (_ & B & _). unfold stored_entries, bucket_count. assert (S : Forall (fun b => Z.of_nat (size (Bucket.sums b)) <= n) (buckets r)).
  { apply Forall_forall. intros b I. destruct (B b I) as [_ E].
    rewrite E. by apply build_size. }
  induction S as [|b bs Hs _ IH]; [by rewrite Z.mul_0_r|]. cbn. rewrite zlen_cons. specialize (IH ltac:(intros; apply B; by right)). lia.
Qed.
(** Time that does not go back. *)
Fixpoint forward (t : Timestamp.t) (rs : list (K * V * Timestamp.t)) : Prop :=
  match rs with [] => True | e :: rs => dur t <= dur e.2 /\ forward e.2 rs end.
Lemma forward_snoc rs : forall t e, forward t (rs ++ [e]) -> Forall (fun r => dur r.2 <= dur e.2) rs /\ dur t <= dur e.2.
Proof.
  induction rs as [|r rs IH]; intros t e; cbn; [by intros [? _]|]. intros [H1 H2]. destruct (IH _ _ H2) as [F L]. split; [by constructor|lia].
Qed.

Context (w bw n : Z) (r0 : RollingRate.t K V).
Hypothesis made : new w bw n = Some r0.
Hypothesis widths : 0 <= bw /\ 0 <= n.
Lemma made_shape : 0 < bw <= w /\ shaped w bw n r0 /\ represents n [] (buckets r0).
Proof.
  unfold new in made. destruct ((bw =? 0) || (w <? bw)) eqn:E; [done|]. zb. injection made as <-. split; [lia|]. split; [done|]. split; [done|]. split.
  - intros b I. by apply elem_of_nil in I.
  - intros e I. by apply elem_of_nil in I.
Qed.
Lemma made_run rs : Forall (fun e => proper e.2) rs ->
  shaped w bw n (record_all rs r0) /\ represents n (logged w bw rs) (buckets (record_all rs r0)).
Proof. intros F. destruct made_shape as (Hb & S & Rp). by apply record_all_represents. Qed.

(** With nothing recorded after [now], a bucket that has not expired starts
    in the window. *)
Lemma past_picked rs now (q : Timestamp.t -> K * V -> bool) : Forall (fun e => proper e.2) rs ->
  Forall (fun e => dur e.2 <= dur now) rs ->
  picked (fun s kv => unexpired w now s && q s kv) (logged w bw rs) =
  picked (fun s kv => (sat_sub (dur now) w <=? dur s) && (dur s <=? dur now) && q s kv) (logged w bw rs).
Proof.
  intros F P. unfold picked. do 2 f_equal. apply List.filter_ext_in. intros e I%list_elem_of_In.
  pose proof (logged_aligned w bw rs (proj1 made_shape) F) as A. apply (proj1 (Forall_forall _ _)) with (x := e) in A as (_ & r & Ir & L); [|done].
  pose proof (proj1 (Forall_forall _ _) P r Ir) as Pr. cbn in Pr. unfold unexpired. rewrite (proj2 (Z.leb_le (dur e.1) (dur now))) by lia. by rewrite andb_true_r.
Qed.

(** C35: a rolling rate sums what it still holds.  For values whose
    addition commutes and associates (the integers, wrap-around included;
    not floats), whatever was recorded at whatever times, the sum of a key is
    that of the values the log still holds of it in the buckets that do not
    start before [now - window] and that took the key among their first
    [max_keys]; and nothing is lost to the cap, for the sums of the keys and
    the overflow total make up the total of all the values of those buckets.
    With room for the keys of each bucket the sum is of all the key's values.
    Buckets after [now] are summed too; when nothing was recorded after
    [now], the buckets summed are those that start in [now - window, now]. *)
Theorem rolling_rate_exact rs now k :
  Forall (fun e => proper e.2) rs -> proper now ->
  let r := record_all rs r0 in
  let l := logged w bw rs in
  sum k now r = tally (picked (fun s kv => unexpired w now s && counted n l k s kv) l) /\
  add_assign (tally (for_each_bucket now r).*2) (other_sum now r) = tally (picked (fun s _ => unexpired w now s) l) /\
  ((forall s, zlen (firsts (entries s l)) <= n) ->
     sum k now r = tally (picked (fun s kv => unexpired w now s && bool_decide (kv.1 = k)) l)) /\
  (Forall (fun e => dur e.2 <= dur now) rs ->
     sum k now r = tally (picked (fun s kv =>
       (sat_sub (dur now) w <=? dur s) && (dur s <=? dur now) && counted n l k s kv) l)).
Proof.
  intros F Pn r l. destruct (made_run rs F) as [S Rp]. destruct made_shape as (Hb & _).
  assert (E : sum k now r = tally (picked (fun s kv => unexpired w now s && counted n l k s kv) l)) by (apply (sum_log w bw); [lia|lia|done..]).
  split; [exact E|]. split; [apply (conserved_log w bw n); [lia|lia|done..]|]. split; [|by intros Past; rewrite E; f_equal; apply past_picked].
  intros Fit. rewrite E. f_equal. unfold picked. do 2 f_equal.
  apply List.filter_ext_in. intros [s kv] I%list_elem_of_In. cbn. f_equal. unfold counted. destruct (decide (kv.1 = k)) as [<-|N].
  - rewrite bool_decide_eq_true_2 by done. apply bool_decide_eq_true_2. unfold admitted. rewrite ztake_ge by apply Fit.
    apply firsts_in, list_elem_of_fmap. exists kv. split; [done|]. unfold entries. apply list_elem_of_fmap. exists (s, kv). split; [done|].
    apply list_elem_of_In, filter_In. split; [by apply list_elem_of_In|by apply bool_decide_eq_true_2].
  - by rewrite (bool_decide_eq_false_2 (kv.1 = k)).
Qed.

(** C36: the table is as small as documented: [2 window /
    bucket_width + 1] buckets at most for any order of times, [window /
    bucket_width + 1] for time that does not go back, and [max_keys] entries
    for each. *)
Theorem rolling_rate_bounded rs :
  Forall (fun e => proper e.2) rs ->
  let r := record_all rs r0 in
  bucket_count r <= 2 * w / bw + 1 /\
  (forward Timestamp.default rs -> bucket_count r <= w / bw + 1) /\
  stored_entries r <= n * bucket_count r.
Proof.
  intros F r. destruct (made_run rs F) as [S Rp]. destruct made_shape as (Hb & _).
  split_and!; [| |apply (stored_log n (logged w bw rs)); [lia|done]].
  - destruct rs as [|e rs _] using rev_ind; [|].
    + assert (E : bucket_count r = 0) by (unfold r, bucket_count; cbn; pose proof made as M; unfold new in M; case_match; [done|by injection M as <-]).
      rewrite E. assert (0 <= 2 * w / bw) by (apply Z.div_pos; lia). lia.
    + pose proof (count_log w bw n rs e (dur e.2 + w) r Hb F Rp) as G. replace (2 * w) with (dur e.2 + w - (dur e.2 - w)) by lia.
      apply G. eapply Forall_impl; [by apply logged_near|]. cbn. lia.
  - intros Fw. destruct rs as [|e rs _] using rev_ind; [|].
    + assert (E : bucket_count r = 0) by (unfold r, bucket_count; cbn; pose proof made as M; unfold new in M; case_match; [done|by injection M as <-]).
      rewrite E. assert (0 <= w / bw) by (apply Z.div_pos; lia). lia.
    + pose proof (count_log w bw n rs e (dur e.2) r Hb F Rp) as G. replace w with (dur e.2 - (dur e.2 - w)) at 1 by lia.
      apply G. pose proof (logged_aligned w bw _ Hb F) as Al. eapply Forall_impl; [exact Al|]. cbn. intros x (_ & t & I & L).
      destruct (forward_snoc _ _ _ Fw) as [Ff _]. apply elem_of_app in I as [I|I].
      * rewrite Forall_forall in Ff. specialize (Ff t I). lia.
      * by apply list_elem_of_singleton in I as ->.
Qed.
End rate.

(** A window of ten seconds in buckets of one, two keys each: the third key
    of a bucket overflows, a wild time takes the window with it and gives it
    back. *)
Section demo.
#[local] Existing Instance rate_u64.
#[local] Existing Instance rate_u64_laws.
Definition secs (s : Z) : Timestamp.t := Timestamp.mk s 5.
Definition demo_records : list (Z * Z * Timestamp.t) :=
  [(1, 100, secs 20); (2, 7, secs 20); (3, 50, secs 20); (1, 1, secs 25); (2, 9, secs 23); (1, 30, secs 90);
   (1, 4, secs 24); (1, 6, secs 26); (3, 8, secs 25)].
Definition demo_rate : RollingRate.t Z Z := RollingRate.mk (from_secs 10) (from_secs 1) [] 2 0.
Lemma demo_proper : Forall (fun e => proper e.2) demo_records.
Proof. unfold proper, U32_MAX, NANOS. repeat constructor; cbn; lia. Qed.
Lemma rolling_rate_exact_witness :
  sum 1 (secs 27) (record_all demo_records demo_rate) = 10 /\ other_sum (secs 20) (record_all (take 3 demo_records) demo_rate) = 50.
Proof.
  pose proof (rolling_rate_exact (from_secs 10) (from_secs 1) 2 demo_rate eq_refl ltac:(unfold from_secs, NANOS; lia)) as G.
  destruct (G demo_records (secs 27) 1 demo_proper) as (E1 & _); [unfold proper, U32_MAX, NANOS; cbn; lia|].
  destruct (G (take 3 demo_records) (secs 20) 1) as (_ & E2 & _); [apply Forall_take, demo_proper|unfold proper, U32_MAX, NANOS; cbn; lia|].
  split; [rewrite E1; vm_compute; reflexivity|].
  assert (E3 : tally (for_each_bucket (secs 20) (record_all (take 3 demo_records) demo_rate)).*2 = 107) by (vm_compute; reflexivity).
  assert (E4 : tally (picked (fun s _ => unexpired (from_secs 10) (secs 20) s) (logged (from_secs 10) (from_secs 1) (take 3 demo_records))) = 157)
    by (vm_compute; reflexivity).
  rewrite E3, E4 in E2. vm_compute. reflexivity.
Defined.
Lemma rolling_rate_bounded_witness : bucket_count (record_all demo_records demo_rate) <= 21.
Proof.
  destruct (rolling_rate_bounded (from_secs 10) (from_secs 1) 2 demo_rate eq_refl ltac:(unfold from_secs, NANOS; lia)
    demo_records demo_proper) as (B & _). exact B.
Defined.
(** A value recorded at 90 s is part of the ten seconds before 27 s. *)
Example later_values_count :
  sum 1 (secs 27) (record_all [(1, 30, secs 90)] demo_rate) = 30.
Proof. reflexivity. Qed.
End demo.
