(* ===== verification/Bucketed.v ===== *)
(** * Counters and sets over a window (src/src/correlate/bucketed.rs, set.rs)

    Both keep a queue of buckets, appended to whenever the time is not that
    of the last bucket, and a soft cap on the keys held.  [HashMap]s and
    [HashSet]s are finite maps and sets; the order in which one is drained is
    a parameter. *)

From stdpp Require Import gmap sorting.
From S2P Require Import Prelude Time Mergeable Window.
Open Scope Z_scope.

(** [sort_by_key]. *)
Definition by_key {A} (f : A -> Z) (a b : A) : Prop := f a <= f b.
#[global] Instance by_key_dec {A} (f : A -> Z) : RelDecision (by_key f).
Proof. intros a b. unfold by_key. apply _. Defined.
Definition sort_by_key {A} (f : A -> Z) (l : list A) : list A := merge_sort (by_key f) l.

Module TimeBucketedCounter.
Section ops.
Context {K : Type} `{Countable K}.
Variable order : gmap K Z -> list (K * Z).
Notation bucket := (Timestamp.t * gmap K Z)%type.

Record t := mk { window : Z; bucket_width : Z; capacity : Z; buckets : list bucket }.
#[global] Instance eta : Eta t := mk_eta (fun c => mk (window c) (bucket_width c) (capacity c) (buckets c)).

(** [new] asserts a width. *)
Definition new (window bucket_width capacity : Z) : option t :=
  if bucket_width =? 0 then None else Some (mk window bucket_width capacity []).
Definition new_unbounded (window bucket_width : Z) : option t := new window bucket_width U64_MAX.

Definition start_for (ts : Timestamp.t) (c : t) : Timestamp.t := bucket_start_for (bucket_width c) ts.
Definition cutoff (now : Timestamp.t) (c : t) : Timestamp.t := cutoff_for (window c) now.
Definition len (c : t) : Z := foldr Z.add 0 ((fun b => Z.of_nat (size b.2)) <$> buckets c).
Definition is_empty (c : t) : bool := forallb (fun b => bool_decide (b.2 = ∅)) (buckets c).

(** The least frequent [n] keys are left out. *)
Definition shed (n : Z) (m : gmap K Z) : gmap K Z := list_to_map (zdrop n (sort_by_key snd (order m))).
Definition evict_expired (now : Timestamp.t) (c : t) : t :=
  let c := c <| buckets ::= pop_front_while (fun b => before b.1 (cutoff now c)) |> in
  let total_keys := len c in
  match buckets c with
  | (ts, oldest) :: rest =>
      if capacity c <? total_keys then c <| buckets := (ts, shed (sat_sub total_keys (capacity c)) oldest) :: rest |> else c
  | [] => c
  end.
Definition add_one (key : K) (m : gmap K Z) : gmap K Z := <[key := default 0 (m !! key) + 1]> m.
Definition bump (key : K) (now : Timestamp.t) (c : t) : t :=
  let c := evict_expired now c in
  let bucket_start := start_for now c in
  match last (buckets c) with
  | Some (ts, m) =>
      if bool_decide (ts = bucket_start) then
        c <| buckets ::= alter (fun b => (b.1, add_one key b.2)) (length (buckets c) - 1)%nat |>
      else c <| buckets ::= fun bs => bs ++ [(bucket_start, {[key := 1]})] |>
  | None => c <| buckets ::= fun bs => bs ++ [(bucket_start, {[key := 1]})] |>
  end.

Definition active (now : Timestamp.t) (c : t) : list bucket :=
  List.filter (fun b => negb (before b.1 (cutoff now c))) (buckets c).
Definition count (key : K) (now : Timestamp.t) (c : t) : Z :=
  foldr Z.add 0 (omap (fun b : bucket => b.2 !! key) (active now c)).
Definition add_counts (counts m : gmap K Z) : gmap K Z :=
  fold_left (fun m kc => <[kc.1 := default 0 (m !! kc.1) + kc.2]> m) (map_to_list counts) m.
Definition entries_above (threshold : Z) (now : Timestamp.t) (c : t) : gmap K Z :=
  filter (fun kc => threshold <= kc.2) (fold_left (fun m b => add_counts b.2 m) (active now c) ∅).

Definition merge_bucket (b : bucket) (bs : list bucket) : list bucket :=
  match position_of (fun mine => bool_decide (mine.1 = b.1)) bs with
  | Some i => alter (fun mine => (mine.1, add_counts b.2 mine.2)) i bs
  | None => insert_at (default (length bs) (position_of (fun mine => before b.1 mine.1) bs)) b bs
  end.
#[global] Instance mergeable : Mergeable t := fun c other =>
  if (window c =? window other) && (bucket_width c =? bucket_width other) && (capacity c =? capacity other)
  then Some (c <| buckets ::= fun bs => fold_left (fun bs b => merge_bucket b bs) (buckets other) bs |>)
  else None.
End ops.
#[global] Arguments t _ {_ _}.
End TimeBucketedCounter.

Module TimeBucketedSet.
Section ops.
Context {K V : Type} `{Countable K} `{Countable V}.
Variable order : gmap K (gset V) -> list (K * gset V).
Notation bucket := (Timestamp.t * gmap K (gset V))%type.

Record t := mk { window : Z; bucket_width : Z; capacity : Z; buckets : list bucket }.
#[global] Instance eta : Eta t := mk_eta (fun c => mk (window c) (bucket_width c) (capacity c) (buckets c)).
Definition new (window bucket_width capacity : Z) : option t :=
  if bucket_width =? 0 then None else Some (mk window bucket_width capacity []).
Definition new_unbounded (window bucket_width : Z) : option t := new window bucket_width U64_MAX.

Definition start_for (ts : Timestamp.t) (c : t) : Timestamp.t := bucket_start_for (bucket_width c) ts.
Definition cutoff (now : Timestamp.t) (c : t) : Timestamp.t := cutoff_for (window c) now.
Definition len (c : t) : Z := foldr Z.add 0 ((fun b => Z.of_nat (size b.2)) <$> buckets c).
Definition is_empty (c : t) : bool := forallb (fun b => bool_decide (b.2 = ∅)) (buckets c).
Definition shed (n : Z) (m : gmap K (gset V)) : gmap K (gset V) :=
  list_to_map (zdrop n (sort_by_key (fun kv => Z.of_nat (size kv.2)) (order m))).
Definition evict_expired (now : Timestamp.t) (c : t) : t :=
  let c := c <| buckets ::= pop_front_while (fun b => before b.1 (cutoff now c)) |> in
  let total_keys := len c in
  match buckets c with
  | (ts, oldest) :: rest =>
      if capacity c <? total_keys then c <| buckets := (ts, shed (sat_sub total_keys (capacity c)) oldest) :: rest |> else c
  | [] => c
  end.
Definition add_value (key : K) (value : V) (m : gmap K (gset V)) : gmap K (gset V) :=
  <[key := {[value]} ∪ default ∅ (m !! key)]> m.
Definition insert (key : K) (value : V) (now : Timestamp.t) (c : t) : t :=
  let c := evict_expired now c in
  let bucket_start := start_for now c in
  match last (buckets c) with
  | Some (ts, m) =>
      if bool_decide (ts = bucket_start) then
        c <| buckets ::= alter (fun b => (b.1, add_value key value b.2)) (length (buckets c) - 1)%nat |>
      else c <| buckets ::= fun bs => bs ++ [(bucket_start, add_value key value ∅)] |>
  | None => c <| buckets ::= fun bs => bs ++ [(bucket_start, add_value key value ∅)] |>
  end.
Definition active (now : Timestamp.t) (c : t) : list bucket :=
  List.filter (fun b => negb (before b.1 (cutoff now c))) (buckets c).
Definition seen (key : K) (now : Timestamp.t) (c : t) : gset V :=
  fold_left (fun s b => default ∅ (b.2 !! key) ∪ s) (active now c) ∅.
Definition cardinality (key : K) (now : Timestamp.t) (c : t) : Z := Z.of_nat (size (seen key now c)).
Definition add_sets (sets m : gmap K (gset V)) : gmap K (gset V) :=
  fold_left (fun m kv => <[kv.1 := kv.2 ∪ default ∅ (m !! kv.1)]> m) (map_to_list sets) m.
Definition entries_above (threshold : Z) (now : Timestamp.t) (c : t) : gmap K Z :=
  filter (fun kc => threshold <= kc.2)
    ((fun s : gset V => Z.of_nat (size s)) <$> fold_left (fun m b => add_sets b.2 m) (active now c) ∅).
Definition merge_bucket (b : bucket) (bs : list bucket) : list bucket :=
  match position_of (fun mine => bool_decide (mine.1 = b.1)) bs with
  | Some i => alter (fun mine => (mine.1, add_sets b.2 mine.2)) i bs
  | None => insert_at (default (length bs) (position_of (fun mine => before b.1 mine.1) bs)) b bs
  end.
#[global] Instance mergeable : Mergeable t := fun c other =>
  if (window c =? window other) && (bucket_width c =? bucket_width other) && (capacity c =? capacity other)
  then Some (c <| buckets ::= fun bs => fold_left (fun bs b => merge_bucket b bs) (buckets other) bs |>)
  else None.
End ops.
#[global] Arguments t _ _ {_ _ _ _}.
End TimeBucketedSet.

(** * What the windowed counters and sets report (src/src/correlate/bucketed.rs, set.rs)

    The specification is the list of the calls; what a call's time says of
    the window is the start of its bucket. *)


(** ** What both share *)
Lemma pop_front_parts {B} (p : B -> bool) (l : list B) : exists l0, l = l0 ++ pop_front_while p l /\ Forall (fun b => p b = true) l0.
Proof. destruct (pop_front_split p l) as (l0 & E & F & _). by exists l0. Qed.
(** A bucket before the window of an earlier time is before that of a later
    one. *)
Lemma before_cutoff_mono w s t now : 0 <= w -> proper s -> proper t -> proper now -> dur t <= dur now ->
  before s (cutoff_for w t) = true -> before s (cutoff_for w now) = true.
Proof.
  intros Hw Ps Pt Pn L. rewrite !before_dur by (done || apply cutoff_proper). rewrite !cutoff_dur by done. unfold sat_sub. intros ?. zb.
  apply Z.ltb_lt. lia.
Qed.
Lemma last_alter {B} (f : B -> B) (l : list B) b : last l = Some b -> exists l0, l = l0 ++ [b] /\ alter f (length l - 1)%nat l = l0 ++ [f b].
Proof.
  intros E. apply last_Some in E as (l0 & ->). exists l0. split; [done|]. rewrite length_app. cbn. rewrite Nat.add_sub.
  rewrite <- (Nat.add_0_r (length l0)). by rewrite alter_app_r.
Qed.
Lemma list_to_map_some {K A} `{Countable K} (l : list (K * A)) k x : (list_to_map l : gmap K A) !! k = Some x -> (k, x) ∈ l.
Proof. apply elem_of_list_to_map_2. Qed.

Module CounterProps.
Import TimeBucketedCounter.
Section counter.
Context {K : Type} `{Countable K}.
Variable order : gmap K Z -> list (K * Z).
Hypothesis order_entries : forall m, order m ≡ₚ map_to_list m.
Notation bucket := (Timestamp.t * gmap K Z)%type.
Implicit Types (bs : list bucket) (m : gmap K Z).

Definition bump_all (rs : list (K * Timestamp.t)) (c : t K) : t K := fold_left (fun c r => bump order r.1 r.2 c) rs c.
(** A key's figure over the buckets that pass a test. *)
Definition total (win : Timestamp.t -> bool) (k : K) bs : Z :=
  foldr Z.add 0 ((fun b => if win b.1 then default 0 (b.2 !! k) else 0) <$> bs).
#[local] Arguments total : simpl never.
Definition sane bs : Prop := Forall (fun b => proper b.1 /\ map_Forall (fun _ x => 0 <= x) b.2) bs.

Lemma figure_app win k bs bs' : total win k (bs ++ bs') = total win k bs + total win k bs'.
Proof. unfold total. induction bs as [|b bs IH]; [done|]. cbn in *. lia. Qed.
Lemma figure_cons win k b bs : total win k (b :: bs) = (if win b.1 then default 0 (b.2 !! k) else 0) + total win k bs.
Proof. done. Qed.
Lemma count_total k now c : count k now c = total (fun s => negb (before s (cutoff_for (window c) now))) k (buckets c).
Proof.
  unfold count, active. change (cutoff now c) with (cutoff_for (window c) now). induction (buckets c) as [|b bs IH]; [done|]. rewrite figure_cons, <- IH. cbn.
  destruct (negb (before b.1 (cutoff_for (window c) now))); [|done]. cbn. by destruct (b.2 !! k).
Qed.
Lemma at_nonneg k m : map_Forall (fun _ x => 0 <= x) m -> 0 <= default 0 (m !! k).
Proof. intros F. destruct (m !! k) as [x|] eqn:E; [by apply (F k)|done]. Qed.
Lemma figure_nonneg win k bs : sane bs -> 0 <= total win k bs.
Proof.
  induction 1 as [|b bs [_ F] _ IH]; [done|]. rewrite figure_cons. pose proof (at_nonneg k _ F). destruct (win b.1); lia.
Qed.
Lemma shed_sub n m k x : shed order n m !! k = Some x -> m !! k = Some x.
Proof.
  intros I%list_to_map_some. apply elem_of_map_to_list. rewrite <- order_entries, <- (merge_sort_Permutation (by_key snd) (order m)).
  apply list_elem_of_lookup in I as (i & I). unfold zdrop in I. rewrite lookup_drop in I. apply list_elem_of_lookup. by eexists.
Qed.
Lemma evict_sound c now win k : sane (buckets c) ->
  sane (buckets (evict_expired order now c)) /\ total win k (buckets (evict_expired order now c)) <= total win k (buckets c).
Proof.
  intros S. unfold evict_expired. set (c1 := c <| buckets ::= _ |>).
  destruct (pop_front_parts (fun b : bucket => before b.1 (cutoff now c)) (buckets c)) as (l0 & E & _).
  assert (S1 : sane (buckets c1) /\ total win k (buckets c1) <= total win k (buckets c)).
  { rewrite E in S. apply Forall_app in S as [S0 S1]. split; [exact S1|]. rewrite E, figure_app. pose proof (figure_nonneg win k l0 S0).
    change (buckets c1) with (pop_front_while (fun b : bucket => before b.1 (cutoff now c)) (buckets c)). lia. }
  clearbody c1. destruct (buckets c1) as [|[ts m] rest] eqn:E1; [by rewrite E1|]. case_if; [|by rewrite E1]. cbn [buckets upd]. cbn.
  destruct S1 as [[(P & F) S1]%Forall_cons T]. cbn in *. split.
  - constructor; [|done]. split; [done|]. intros k' x Hx%shed_sub. by apply (F k').
  - rewrite !figure_cons in *. cbn in *. set (n := sat_sub _ _). assert (default 0 (shed order n m !! k) <= default 0 (m !! k)).
    { destruct (shed order n m !! k) as [x|] eqn:Ex; [by rewrite (shed_sub _ _ _ _ Ex)|]. by apply at_nonneg. }
    destruct (win ts); lia.
Qed.
Lemma len_app bs bs' : foldr Z.add 0 ((fun b : bucket => Z.of_nat (size b.2)) <$> bs ++ bs') =
  foldr Z.add 0 ((fun b : bucket => Z.of_nat (size b.2)) <$> bs) + foldr Z.add 0 ((fun b : bucket => Z.of_nat (size b.2)) <$> bs').
Proof. induction bs as [|b bs IH]; cbn in *; [lia|]. lia. Qed.
Lemma evict_exact c now later k : 0 <= window c -> sane (buckets c) -> proper now -> proper later -> dur now <= dur later -> len c <= capacity c ->
  total (fun s => negb (before s (cutoff_for (window c) later))) k (buckets (evict_expired order now c)) =
    total (fun s => negb (before s (cutoff_for (window c) later))) k (buckets c) /\ len (evict_expired order now c) <= len c.
Proof.
  intros Hw S Pn Pl L Fit. unfold evict_expired. set (c1 := c <| buckets ::= _ |>).
  destruct (pop_front_parts (fun b : bucket => before b.1 (cutoff now c)) (buckets c)) as (l0 & E & F).
  assert (B1 : buckets c = l0 ++ buckets c1) by exact E.
  assert (Hl : len c1 <= len c).
  { unfold len. rewrite B1, len_app. assert (0 <= foldr Z.add 0 ((fun b : bucket => Z.of_nat (size b.2)) <$> l0)); [|lia].
    clear. induction l0 as [|b l0 IH]; cbn; lia. }
  assert (T1 : total (fun s => negb (before s (cutoff_for (window c) later))) k (buckets c1) = total (fun s => negb (before s (cutoff_for (window c) later))) k (buckets c)).
  { rewrite B1, figure_app. unfold sane in S. rewrite B1 in S. apply Forall_app in S as [S _].
    assert (total (fun s => negb (before s (cutoff_for (window c) later))) k l0 = 0); [|lia]. clear -S F Hw Pn Pl L.
    induction F as [|b l0 Fb _ IH]; [done|]. apply Forall_cons in S as [[P _] S]. rewrite figure_cons, IH by done.
    by rewrite (before_cutoff_mono (window c) b.1 now later). }
  destruct (buckets c1) as [|[ts m] rest] eqn:E1; [by rewrite E1|]. change (capacity c1) with (capacity c).
  destruct (Z.ltb_spec (capacity c) (len c1)); [lia|]. by rewrite E1.
Qed.
Lemma bump_total c key now win k : sane (buckets c) -> proper now ->
  sane (buckets (bump order key now c)) /\
  total win k (buckets (bump order key now c)) = total win k (buckets (evict_expired order now c)) +
    (if win (bucket_start_for (bucket_width c) now) && bool_decide (key = k) then 1 else 0) /\
  len (bump order key now c) <= len (evict_expired order now c) + 1.
Proof.
  intros S Pn. destruct (evict_sound c now win k S) as [S1 _]. unfold bump. cbv zeta.
  assert (Es : start_for now (evict_expired order now c) = start_for now c) by (unfold evict_expired; repeat case_match; done).
  rewrite Es. set (c1 := evict_expired order now c) in *. clearbody c1. change (start_for now c) with (bucket_start_for (bucket_width c) now). set (s := bucket_start_for (bucket_width c) now).
  assert (Ps : proper s) by apply bucket_start_proper.
  assert (N : sane (buckets c1 ++ [(s, {[key := 1]})]) /\
    total win k (buckets c1 ++ [(s, {[key := 1]})]) = total win k (buckets c1) + (if win s && bool_decide (key = k) then 1 else 0) /\
    foldr Z.add 0 ((fun b : bucket => Z.of_nat (size b.2)) <$> buckets c1 ++ [(s, {[key := 1]})]) <= len c1 + 1).
  { split_and!.
    - apply Forall_app. split; [done|]. constructor; [|constructor]. split; [done|]. cbn. apply map_Forall_singleton. lia.
    - rewrite figure_app, figure_cons. change (total win k []) with 0. cbn. destruct (win s); cbn; [|lia]. destruct (decide (key = k)) as [->|Nk].
      + rewrite lookup_singleton_eq, bool_decide_eq_true_2 by done. cbn. lia.
      + rewrite lookup_singleton_ne, bool_decide_eq_false_2 by done. cbn. lia.
    - rewrite len_app. unfold len. cbn. rewrite map_size_singleton. lia. }
  destruct (last (buckets c1)) as [[ts m]|] eqn:El; [|exact N]. destruct (decide (ts = s)) as [->|Et]; [|by rewrite (bool_decide_eq_false_2 (ts = s))].
  rewrite (bool_decide_eq_true_2 (s = s)) by done. destruct (last_alter (fun b => (b.1, add_one key b.2)) (buckets c1) _ El) as (l0 & E0 & E1).
  unfold len. cbn [buckets upd]. cbn. rewrite E1. unfold sane in S1. rewrite E0 in S1 |- *. apply Forall_app in S1 as [S1 [(P & F) _]%Forall_cons]. cbn in *.
  split_and!.
  - apply Forall_app. split; [done|]. constructor; [|constructor]. split; [done|]. cbn. apply map_Forall_insert_2; [|done].
    pose proof (at_nonneg key _ F). lia.
  - rewrite !figure_app, !figure_cons. change (total win k []) with 0. cbn. destruct (win s); cbn; [|lia]. unfold add_one. destruct (decide (key = k)) as [->|Nk].
    + rewrite lookup_insert_eq, bool_decide_eq_true_2 by done. cbn. lia.
    + rewrite lookup_insert_ne, bool_decide_eq_false_2 by done. lia.
  - rewrite !len_app. cbn. unfold add_one. destruct (m !! key) eqn:Em; [rewrite map_size_insert_Some by (by eexists)|rewrite map_size_insert_None by done]; lia.
Qed.
Lemma bump_shape c key now : window (bump order key now c) = window c /\ bucket_width (bump order key now c) = bucket_width c /\
  capacity (bump order key now c) = capacity c.
Proof. unfold bump, evict_expired. repeat case_match; done. Qed.

(** The calls for [k] whose bucket starts in the window. *)
Definition hits (w bw : Z) (k : K) (now : Timestamp.t) (rs : list (K * Timestamp.t)) : Z :=
  zlen (List.filter (fun r => negb (before (bucket_start_for bw r.2) (cutoff_for w now)) && bool_decide (r.1 = k)) rs).
Lemma bump_hits_cons w bw k now r rs : hits w bw k now (r :: rs) =
  (if negb (before (bucket_start_for bw r.2) (cutoff_for w now)) && bool_decide (r.1 = k) then 1 else 0) + hits w bw k now rs.
Proof. unfold hits. cbn. case_match; [by rewrite zlen_cons|done]. Qed.
Lemma bump_all_sound rs : forall c k now, sane (buckets c) -> Forall (fun r => proper r.2) rs ->
  sane (buckets (bump_all rs c)) /\ count k now (bump_all rs c) <= count k now c + hits (window c) (bucket_width c) k now rs.
Proof.
  induction rs as [|[key ts] rs IH]; intros c k now S F; [cbn; unfold hits; cbn; rewrite zlen_nil; split; [done|lia]|].
  apply Forall_cons in F as [P F]. cbn in P. destruct (bump_shape c key ts) as (E1 & E2 & E3).
  set (win := fun s => negb (before s (cutoff_for (window c) now))).
  destruct (bump_total c key ts win k S P) as (S1 & T1 & _). destruct (evict_sound c ts win k S) as [_ T0].
  destruct (IH (bump order key ts c) k now S1 F) as [S2 T2]. split; [done|]. rewrite bump_hits_cons.
  rewrite E1, E2, (count_total k now (bump order key ts c)), E1 in T2. fold win in T2. rewrite (count_total k now c). fold win. cbn [fst snd].
  change (negb (before (bucket_start_for (bucket_width c) ts) (cutoff_for (window c) now))) with (win (bucket_start_for (bucket_width c) ts)).
  change (bump_all ((key, ts) :: rs) c) with (bump_all rs (bump order key ts c)). lia.
Qed.
Lemma bump_all_exact rs : forall c k now, 0 <= window c -> sane (buckets c) -> proper now ->
  Forall (fun r => proper r.2 /\ dur r.2 <= dur now) rs -> len c + zlen rs <= capacity c ->
  count k now (bump_all rs c) = count k now c + hits (window c) (bucket_width c) k now rs.
Proof.
  induction rs as [|[key ts] rs IH]; intros c k now Hw S Pn F Fit; [cbn; unfold hits; cbn; rewrite zlen_nil; lia|].
  apply Forall_cons in F as [[P L] F]. cbn in P, L. rewrite zlen_cons in Fit. destruct (bump_shape c key ts) as (E1 & E2 & E3).
  pose proof (zlen_nonneg rs).
  set (win := fun s => negb (before s (cutoff_for (window c) now))).
  destruct (bump_total c key ts win k S P) as (S1 & T1 & L1). destruct (evict_exact c ts now k Hw S P Pn L ltac:(lia)) as [T0 L0].
  change (bump_all ((key, ts) :: rs) c) with (bump_all rs (bump order key ts c)). rewrite IH; [|by rewrite E1|done|done|done|rewrite E3; lia].
  rewrite bump_hits_cons, E1, E2, (count_total k now (bump order key ts c)), E1, (count_total k now c). fold win. fold win in T0.
  change (negb (before (bucket_start_for (bucket_width c) (key, ts).2) (cutoff_for (window c) now))) with (win (bucket_start_for (bucket_width c) ts)).
  cbn [fst]. lia.
Qed.

(** Merging adds. *)
Lemma add_list_at (l : list (K * Z)) : NoDup l.*1 -> forall m k,
  default 0 (fold_left (fun m kc => <[kc.1 := default 0 (m !! kc.1) + kc.2]> m) l m !! k) =
  default 0 (m !! k) + default 0 ((list_to_map l : gmap K Z) !! k).
Proof.
  induction l as [|[k' x] l IH]; intros N m k; [cbn; rewrite lookup_empty; cbn; lia|]. apply NoDup_cons in N as [N1 N2]. cbn. rewrite IH by done.
  destruct (decide (k' = k)) as [->|Nk].
  - rewrite !lookup_insert_eq. cbn. rewrite (not_elem_of_list_to_map_1 l k) by done. cbn. lia.
  - by rewrite !lookup_insert_ne.
Qed.
Lemma add_counts_at counts m k : default 0 (add_counts counts m !! k) = default 0 (m !! k) + default 0 (counts !! k).
Proof. unfold add_counts. rewrite add_list_at by apply NoDup_fst_map_to_list. by rewrite list_to_map_to_list. Qed.
Lemma position_split {B} (p : B -> bool) (l : list B) i : position_of p l = Some i ->
  exists l0 b l1, l = l0 ++ b :: l1 /\ length l0 = i /\ p b = true.
Proof.
  revert i. induction l as [|b l IH]; intros i; cbn; [done|]. destruct (p b) eqn:E.
  - intros [= <-]. by exists [], b, l.
  - destruct (position_of p l) as [j|]; [|done]. intros [= <-]. destruct (IH j eq_refl) as (l0 & b' & l1 & -> & <- & Eb). by exists (b :: l0), b', l1.
Qed.
Lemma total_merge_bucket win k b bs : total win k (merge_bucket b bs) = total win k bs + total win k [b].
Proof.
  unfold merge_bucket. destruct (position_of _ bs) as [i|] eqn:E.
  - destruct (position_split _ _ _ E) as (l0 & b' & l1 & -> & <- & Eb). apply bool_decide_eq_true in Eb.
    rewrite <- (Nat.add_0_r (length l0)), alter_app_r. cbn [alter list_alter]. rewrite !figure_app, !figure_cons. cbn [fst snd]. rewrite Eb, add_counts_at.
    change (total win k []) with 0. destruct (win b.1); lia.
  - unfold insert_at. set (i := default _ _). trans (total win k (take i bs ++ drop i bs) + total win k [b]); [|by rewrite take_drop].
    rewrite !figure_app, !figure_cons. change (total win k []) with 0. lia.
Qed.
Lemma counter_merge_adds (c other c' : t K) k now : merge c other = Some c' -> count k now c' = count k now c + count k now other.
Proof.
  unfold merge, mergeable. destruct (_ && _) eqn:E; [|done]. intros [= <-]. zb. rewrite !count_total. cbn [window buckets upd]. cbn.
  match goal with H : window c = _ |- _ => rewrite <- H end. generalize (fun s => negb (before s (cutoff_for (window c) now))). intros win.
  generalize (buckets c). induction (buckets other) as [|b bs IH]; intros bs0; cbn [fold_left]; [change (total win k []) with 0; lia|].
  rewrite IH, total_merge_bucket, (figure_cons win k b bs), (figure_cons win k b []). change (total win k []) with 0. lia.
Qed.

(** A bucketed counter never over-reports.  For calls at any
    times, what it says of a key is at most the number of calls whose
    buckets start in the window; and exactly that number, if the calls fit
    under the capacity and none is later than the query, whatever their
    order. *)
Theorem counter_one_sided w bw cap c rs k now :
  new w bw cap = Some c -> 0 <= w -> proper now ->
  Forall (fun r => proper r.2) rs ->
  count k now (bump_all rs c) <= hits w bw k now rs /\
  (zlen rs <= cap -> Forall (fun r => dur r.2 <= dur now) rs -> count k now (bump_all rs c) = hits w bw k now rs).
Proof.
  unfold new. case_match; [done|]. intros [= <-] Hw Pn F. split.
  - apply (bump_all_sound rs (mk w bw cap []) k now); [constructor|done].
  - intros Fit L. apply (bump_all_exact rs (mk w bw cap []) k now); [done|constructor|done|by apply Forall_and|cbn; lia].
Qed.
End counter.
End CounterProps.

Module SetProps.
Import TimeBucketedSet.
Section set.
Context {K V : Type} `{Countable K} `{Countable V}.
Variable order : gmap K (gset V) -> list (K * gset V).
Hypothesis order_sets : forall m, order m ≡ₚ map_to_list m.
Notation bucket := (Timestamp.t * gmap K (gset V))%type.
Implicit Types (bs : list bucket) (m : gmap K (gset V)).

Definition insert_all (rs : list (K * V * Timestamp.t)) (c : t K V) : t K V :=
  fold_left (fun c r => TimeBucketedSet.insert order r.1.1 r.1.2 r.2 c) rs c.
(** A key's values over the buckets that pass a test. *)
Definition within (win : Timestamp.t -> bool) (k : K) bs : gset V :=
  ⋃ ((fun b : bucket => if win b.1 then default ∅ (b.2 !! k) else ∅) <$> bs).
#[local] Arguments within : simpl never.
Definition starts_proper bs : Prop := Forall (fun b => proper b.1) bs.

Lemma union_step (A B C D X : gset V) : A ⊆ B -> X ⊆ A ∪ C ∪ D -> X ⊆ B ∪ (C ∪ D).
Proof. set_solver. Qed.
Lemma within_app win k bs bs' : within win k (bs ++ bs') = within win k bs ∪ within win k bs'.
Proof. unfold within. rewrite fmap_app. apply union_list_app_L. Qed.
Lemma within_cons win k b bs : within win k (b :: bs) = (if win b.1 then default ∅ (b.2 !! k) else ∅) ∪ within win k bs.
Proof. done. Qed.
Lemma seen_within k now c : seen k now c = within (fun s => negb (before s (cutoff_for (window c) now))) k (buckets c).
Proof.
  unfold seen, active. change (cutoff now c) with (cutoff_for (window c) now). generalize (cutoff_for (window c) now). intros c0.
  assert (G : forall l (s : gset V), fold_left (fun s b => default ∅ (b.2 !! k) ∪ s) l s =
    s ∪ ⋃ ((fun b : bucket => default ∅ (b.2 !! k)) <$> l)).
  { induction l as [|b l IH]; intros s; cbn; [set_solver|]. rewrite IH. set_solver. }
  rewrite G, left_id_L by apply _. unfold within. induction (buckets c) as [|b bs IH]; [done|]. cbn [List.filter].
  destruct (negb (before b.1 c0)) eqn:E; cbn; rewrite E, IH; [done|set_solver].
Qed.
Lemma set_shed_sub n m k x : shed order n m !! k = Some x -> m !! k = Some x.
Proof.
  intros I%list_to_map_some. apply elem_of_map_to_list.
  rewrite <- order_sets, <- (merge_sort_Permutation (by_key (fun kv : K * gset V => Z.of_nat (size kv.2))) (order m)).
  apply list_elem_of_lookup in I as (i & I). unfold zdrop in I. rewrite lookup_drop in I. apply list_elem_of_lookup. by eexists.
Qed.
Lemma set_evict_sound c now win k : starts_proper (buckets c) ->
  starts_proper (buckets (evict_expired order now c)) /\ within win k (buckets (evict_expired order now c)) ⊆ within win k (buckets c).
Proof.
  intros S. unfold evict_expired. set (c1 := c <| buckets ::= _ |>).
  destruct (pop_front_parts (fun b : bucket => before b.1 (cutoff now c)) (buckets c)) as (l0 & E & _).
  assert (B1 : buckets c = l0 ++ buckets c1) by exact E.
  assert (S1 : starts_proper (buckets c1) /\ within win k (buckets c1) ⊆ within win k (buckets c)).
  { unfold starts_proper in S. rewrite B1 in S |- *. apply Forall_app in S as [_ S1]. split; [exact S1|]. rewrite within_app. set_solver. }
  clearbody c1. destruct (buckets c1) as [|[ts m] rest] eqn:E1; [by rewrite E1|]. case_if; [|by rewrite E1]. cbn [buckets upd]. cbn.
  destruct S1 as [[P S1]%Forall_cons T]. cbn in *. split; [by constructor|].
  rewrite !within_cons in *. cbn [fst snd] in *. set (n := sat_sub _ _).
  assert (default ∅ (shed order n m !! k) ⊆ default ∅ (m !! k)).
  { destruct (shed order n m !! k) as [x|] eqn:Ex; [by rewrite (set_shed_sub _ _ _ _ Ex)|set_solver]. }
  destruct (win ts); set_solver.
Qed.
Lemma set_len_app bs bs' : foldr Z.add 0 ((fun b : bucket => Z.of_nat (size b.2)) <$> bs ++ bs') =
  foldr Z.add 0 ((fun b : bucket => Z.of_nat (size b.2)) <$> bs) + foldr Z.add 0 ((fun b : bucket => Z.of_nat (size b.2)) <$> bs').
Proof. induction bs as [|b bs IH]; cbn in *; [lia|]. lia. Qed.
Lemma set_evict_exact c now later k : 0 <= window c -> starts_proper (buckets c) -> proper now -> proper later -> dur now <= dur later -> len c <= capacity c ->
  within (fun s => negb (before s (cutoff_for (window c) later))) k (buckets (evict_expired order now c)) =
    within (fun s => negb (before s (cutoff_for (window c) later))) k (buckets c) /\ len (evict_expired order now c) <= len c.
Proof.
  intros Hw S Pn Pl L Fit. unfold evict_expired. set (c1 := c <| buckets ::= _ |>).
  destruct (pop_front_parts (fun b : bucket => before b.1 (cutoff now c)) (buckets c)) as (l0 & E & F).
  assert (B1 : buckets c = l0 ++ buckets c1) by exact E.
  assert (Hl : len c1 <= len c).
  { unfold len. rewrite B1, set_len_app. assert (0 <= foldr Z.add 0 ((fun b : bucket => Z.of_nat (size b.2)) <$> l0)); [|lia].
    clear. induction l0 as [|b l0 IH]; cbn; lia. }
  assert (T1 : within (fun s => negb (before s (cutoff_for (window c) later))) k (buckets c1) = within (fun s => negb (before s (cutoff_for (window c) later))) k (buckets c)).
  { rewrite B1, within_app. unfold starts_proper in S. rewrite B1 in S. apply Forall_app in S as [S _].
    assert (within (fun s => negb (before s (cutoff_for (window c) later))) k l0 = ∅) as ->; [|set_solver]. clear -S F Hw Pn Pl L.
    induction F as [|b l0 Fb _ IH]; [done|]. apply Forall_cons in S as [P S]. rewrite within_cons, IH by done.
    rewrite (before_cutoff_mono (window c) b.1 now later) by done. cbn. set_solver. }
  destruct (buckets c1) as [|[ts m] rest] eqn:E1; [by rewrite E1|]. change (capacity c1) with (capacity c).
  destruct (Z.ltb_spec (capacity c) (len c1)); [lia|]. by rewrite E1.
Qed.
Lemma add_value_at key v m k : default ∅ (add_value key v m !! k) = (if bool_decide (key = k) then {[v]} else ∅) ∪ default ∅ (m !! k).
Proof.
  unfold add_value. destruct (decide (key = k)) as [->|N].
  - by rewrite lookup_insert_eq, bool_decide_eq_true_2.
  - rewrite lookup_insert_ne, bool_decide_eq_false_2 by done. set_solver.
Qed.
Lemma add_value_size key v m : Z.of_nat (size (add_value key v m)) <= Z.of_nat (size m) + 1.
Proof.
  unfold add_value. destruct (m !! key) eqn:Em; [rewrite map_size_insert_Some by (by eexists)|rewrite map_size_insert_None by done]; lia.
Qed.
Lemma insert_within c key v now win k : starts_proper (buckets c) -> proper now ->
  starts_proper (buckets (TimeBucketedSet.insert order key v now c)) /\
  within win k (buckets (TimeBucketedSet.insert order key v now c)) =
    within win k (buckets (evict_expired order now c)) ∪
      (if win (bucket_start_for (bucket_width c) now) && bool_decide (key = k) then {[v]} else ∅) /\
  len (TimeBucketedSet.insert order key v now c) <= len (evict_expired order now c) + 1.
Proof.
  intros S Pn. destruct (set_evict_sound c now win k S) as [S1 _]. unfold TimeBucketedSet.insert. cbv zeta.
  assert (Es : start_for now (evict_expired order now c) = start_for now c) by (unfold evict_expired; repeat case_match; done).
  rewrite Es. set (c1 := evict_expired order now c) in *. clearbody c1. change (start_for now c) with (bucket_start_for (bucket_width c) now).
  set (s := bucket_start_for (bucket_width c) now). assert (Ps : proper s) by apply bucket_start_proper.
  assert (N : starts_proper (buckets c1 ++ [(s, add_value key v ∅)]) /\
    within win k (buckets c1 ++ [(s, add_value key v ∅)]) = within win k (buckets c1) ∪ (if win s && bool_decide (key = k) then {[v]} else ∅) /\
    foldr Z.add 0 ((fun b : bucket => Z.of_nat (size b.2)) <$> buckets c1 ++ [(s, add_value key v ∅)]) <= len c1 + 1).
  { split_and!.
    - apply Forall_app. split; [done|]. constructor; [done|constructor].
    - rewrite within_app, within_cons. change (within win k []) with (∅ : gset V). cbn [fst snd]. rewrite add_value_at, lookup_empty.
      destruct (win s); cbn; set_solver.
    - rewrite set_len_app. unfold len. cbn [fmap list_fmap foldr snd]. pose proof (add_value_size key v ∅) as G. rewrite map_size_empty in G. lia. }
  destruct (last (buckets c1)) as [[ts m]|] eqn:El; [|exact N]. destruct (decide (ts = s)) as [->|Et]; [|by rewrite (bool_decide_eq_false_2 (ts = s))].
  rewrite (bool_decide_eq_true_2 (s = s)) by done.
  destruct (last_alter (fun b : bucket => (b.1, add_value key v b.2)) (buckets c1) _ El) as (l0 & E0 & E1).
  unfold len. cbn [buckets upd]. cbn. rewrite E1. unfold starts_proper in S1. rewrite E0 in S1 |- *. apply Forall_app in S1 as [S1 _]. cbn in *.
  split_and!.
  - apply Forall_app. split; [done|]. constructor; [done|constructor].
  - rewrite !within_app, !within_cons. change (within win k []) with (∅ : gset V). cbn [fst snd]. rewrite add_value_at. destruct (win s); cbn; set_solver.
  - rewrite !set_len_app. cbn. pose proof (add_value_size key v m). lia.
Qed.
Lemma insert_shape c key v now : let c' := TimeBucketedSet.insert order key v now c in
  window c' = window c /\ bucket_width c' = bucket_width c /\ capacity c' = capacity c.
Proof. unfold TimeBucketedSet.insert, evict_expired. repeat case_match; done. Qed.

(** The values given to [k] in the window. *)
Definition given (w bw : Z) (k : K) (now : Timestamp.t) (rs : list (K * V * Timestamp.t)) : gset V :=
  list_to_set (List.filter (fun r => negb (before (bucket_start_for bw r.2) (cutoff_for w now)) && bool_decide (r.1.1 = k)) rs).*1.*2.
Lemma given_cons w bw k now r rs : given w bw k now (r :: rs) =
  (if negb (before (bucket_start_for bw r.2) (cutoff_for w now)) && bool_decide (r.1.1 = k) then {[r.1.2]} else ∅) ∪ given w bw k now rs.
Proof. unfold given. cbn. case_match; [done|set_solver]. Qed.
Lemma insert_all_sound rs : forall c k now, starts_proper (buckets c) -> Forall (fun r => proper r.2) rs ->
  seen k now (insert_all rs c) ⊆ seen k now c ∪ given (window c) (bucket_width c) k now rs.
Proof.
  induction rs as [|[[key v] ts] rs IH]; intros c k now S F; [cbn; set_solver|].
  apply Forall_cons in F as [P F]. cbn in P. destruct (insert_shape c key v ts) as (E1 & E2 & E3).
  set (win := fun s => negb (before s (cutoff_for (window c) now))).
  destruct (insert_within c key v ts win k S P) as (S1 & T1 & _). destruct (set_evict_sound c ts win k S) as [_ T0].
  pose proof (IH (TimeBucketedSet.insert order key v ts c) k now S1 F) as T2. rewrite given_cons.
  rewrite E1, E2, (seen_within k now (TimeBucketedSet.insert order key v ts c)), E1 in T2. fold win in T2. rewrite (seen_within k now c). fold win. cbn [fst snd].
  change (negb (before (bucket_start_for (bucket_width c) ts) (cutoff_for (window c) now))) with (win (bucket_start_for (bucket_width c) ts)).
  change (insert_all ((key, v, ts) :: rs) c) with (insert_all rs (TimeBucketedSet.insert order key v ts c)). rewrite T1 in T2.
  exact (union_step _ _ _ _ _ T0 T2).
Qed.
Lemma insert_all_exact rs : forall c k now, 0 <= window c -> starts_proper (buckets c) -> proper now ->
  Forall (fun r => proper r.2 /\ dur r.2 <= dur now) rs -> len c + zlen rs <= capacity c ->
  seen k now (insert_all rs c) = seen k now c ∪ given (window c) (bucket_width c) k now rs.
Proof.
  induction rs as [|[[key v] ts] rs IH]; intros c k now Hw S Pn F Fit; [cbn; set_solver|].
  apply Forall_cons in F as [[P L] F]. cbn in P, L. rewrite zlen_cons in Fit. destruct (insert_shape c key v ts) as (E1 & E2 & E3).
  pose proof (zlen_nonneg rs). set (win := fun s => negb (before s (cutoff_for (window c) now))).
  destruct (insert_within c key v ts win k S P) as (S1 & T1 & L1). destruct (set_evict_exact c ts now k Hw S P Pn L ltac:(lia)) as [T0 L0].
  change (insert_all ((key, v, ts) :: rs) c) with (insert_all rs (TimeBucketedSet.insert order key v ts c)).
  rewrite IH; [|by rewrite E1|done|done|done|rewrite E3; lia].
  rewrite given_cons, E1, E2, (seen_within k now (TimeBucketedSet.insert order key v ts c)), E1, (seen_within k now c). fold win. fold win in T0.
  change (negb (before (bucket_start_for (bucket_width c) (key, v, ts).2) (cutoff_for (window c) now))) with (win (bucket_start_for (bucket_width c) ts)).
  cbn [fst snd]. by rewrite T1, T0, assoc_L by apply _.
Qed.

(** A bucketed set never over-reports.  For insertions at any times
    the values it has of a key are among those inserted in buckets that
    start in the window; and they are exactly those, and [cardinality] their
    number, if the insertions fit under the capacity and none is later than
    the query, whatever their order. *)
Theorem set_one_sided w bw cap c rs k now :
  new w bw cap = Some c -> 0 <= w -> proper now ->
  Forall (fun r => proper r.2) rs ->
  cardinality k now (insert_all rs c) <= Z.of_nat (size (given w bw k now rs)) /\
  (zlen rs <= cap -> Forall (fun r => dur r.2 <= dur now) rs ->
     cardinality k now (insert_all rs c) = Z.of_nat (size (given w bw k now rs))).
Proof.
  unfold new. case_match; [done|]. intros [= <-] Hw Pn F. unfold cardinality. split.
  - apply inj_le, subseteq_size. pose proof (insert_all_sound rs (mk w bw cap []) k now ltac:(constructor) F) as G. cbn in G. set_solver.
  - intros Fit L. do 2 f_equal. rewrite (insert_all_exact rs (mk w bw cap []) k now); [cbn; set_solver|done|constructor|done|by apply Forall_and|cbn; lia].
Qed.
End set.
End SetProps.

(** Windows of ten seconds in buckets of two. *)
Section demo.
Notation at_sec s := (Timestamp.mk s 7).
Definition counter_calls : list (Z * Timestamp.t) :=
  [(1, at_sec 20); (2, at_sec 21); (1, at_sec 25); (1, at_sec 22); (1, at_sec 31); (1, at_sec 29)].
Definition set_calls : list (Z * Z * Timestamp.t) :=
  [(1, 80, at_sec 20); (2, 22, at_sec 21); (1, 443, at_sec 25); (1, 80, at_sec 22); (1, 53, at_sec 31); (1, 443, at_sec 29)].
Lemma counter_calls_proper : Forall (fun r => proper r.2) counter_calls.
Proof. unfold proper, U32_MAX, NANOS. repeat constructor; cbn; lia. Qed.
Lemma set_calls_proper : Forall (fun r => proper r.2) set_calls.
Proof. unfold proper, U32_MAX, NANOS. repeat constructor; cbn; lia. Qed.
Lemma late_proper : proper (at_sec 33).
Proof. unfold proper, U32_MAX, NANOS. cbn. lia. Qed.
Notation counter := (TimeBucketedCounter.mk (K := Z) (from_secs 10) (from_secs 2) 8 []).
Notation set := (TimeBucketedSet.mk (K := Z) (V := Z) (from_secs 10) (from_secs 2) 8 []).
Lemma counter_one_sided_witness :
  TimeBucketedCounter.count 1 (at_sec 33) (CounterProps.bump_all map_to_list counter_calls counter) = 3.
Proof.
  destruct (CounterProps.counter_one_sided map_to_list (fun _ => Permutation_refl _) (from_secs 10) (from_secs 2) 8 counter counter_calls 1 (at_sec 33))
    as [_ E]; [reflexivity|unfold from_secs, NANOS; lia|exact late_proper|exact counter_calls_proper|].
  rewrite E; [vm_compute; reflexivity|unfold zlen; cbn; lia|]. repeat (apply Forall_cons_2; [unfold Timestamp.to_duration, NANOS; cbn; lia|]). apply Forall_nil_2.
Defined.
Lemma set_one_sided_witness :
  TimeBucketedSet.cardinality 1 (at_sec 33) (SetProps.insert_all map_to_list set_calls set) = 2.
Proof.
  destruct (SetProps.set_one_sided map_to_list (fun _ => Permutation_refl _) (from_secs 10) (from_secs 2) 8 set set_calls 1 (at_sec 33))
    as [_ E]; [reflexivity|unfold from_secs, NANOS; lia|exact late_proper|exact set_calls_proper|].
  rewrite E; [vm_compute; reflexivity|unfold zlen; cbn; lia|]. repeat (apply Forall_cons_2; [unfold Timestamp.to_duration, NANOS; cbn; lia|]). apply Forall_nil_2.
Defined.
(** [count] is documented to sum the buckets in [[now - window, now]]; those
    after [now] count too. *)
Lemma later_buckets_count :
  TimeBucketedCounter.count 1 (at_sec 2) (CounterProps.bump_all map_to_list counter_calls counter) = 4.
Proof. vm_compute. reflexivity. Qed.
(** A time that goes back opens a bucket on every change, and an old bucket
    behind a newer one is kept. *)
Lemma alternating_times_grow :
  zlen (TimeBucketedCounter.buckets (CounterProps.bump_all map_to_list
    [(1, at_sec 50); (1, at_sec 20); (1, at_sec 50); (1, at_sec 20); (1, at_sec 50); (1, at_sec 20)] counter)) = 6.
Proof. vm_compute. reflexivity. Qed.
End demo.
