(* ===== verification/Indexed.v ===== *)
(** * Tables with a time to live (src/src/correlate/)

    [KeyIndexed] (indexed.rs) and what is built on it, [FlowStateMap]
    (flow_state_map.rs) and [NeighborTable] (neighbor_table.rs); [FirstSeen]
    (first_seen.rs), over the same LRU cache; [BitStore] (xbits.rs), over
    maps; [BurstDetector] (burst.rs), over queues of times.  The cache is the
    interface [Lru]; an unbounded one has the capacity [usize::MAX]. *)

From stdpp Require Import gmap.
From S2P Require Import Prelude Time Event Lru Mergeable Window.
Open Scope Z_scope.

Notation dur := Timestamp.to_duration.

(** [LruCache::pop_lru]: the entry least recently used. *)
Definition pop_lru {K V C} `{Lru K V C} (c : C) : C * option (K * V) :=
  match last (iter c) with Some (k, v) => ((pop k c).1, Some (k, v)) | None => (c, None) end.

Module KeyIndexed.
Section ops.
Context {K V C : Type} `{EqDecision K} `{!Lru K (V * Timestamp.t) C}.

Record t := mk { ttl : Z; inner : C }.
#[global] Instance eta : Eta t := mk_eta (fun x => mk (ttl x) (inner x)).
Definition new (ttl capacity : Z) : t := mk ttl (with_hasher (Z.max capacity 1)).
Definition new_unbounded (ttl : Z) : t := mk ttl (with_hasher U64_MAX).

Definition aged (now : Timestamp.t) (x : t) (e : V * Timestamp.t) : bool := ttl x <? sat_sub (dur now) (dur e.2).
Definition insert (key : K) (value : V) (ts : Timestamp.t) (x : t) : t := x <| inner ::= fun c => (push key (value, ts) c).1 |>.
(** A hit counts as a use, an expired one too. *)
Definition get (key : K) (now : Timestamp.t) (x : t) : t * option V :=
  match peek key (inner x) with
  | Some e => (x <| inner ::= Lru.get_mut key (fun e => e) |>, if aged now x e then None else Some e.1)
  | None => (x, None)
  end.
(** [f] is what the caller does with the reference. *)
Definition get_mut (key : K) (now : Timestamp.t) (f : V -> V) (x : t) : t * option V :=
  match peek key (inner x) with
  | Some e =>
      if aged now x e then (x <| inner ::= Lru.get_mut key (fun e => e) |>, None)
      else (x <| inner ::= Lru.get_mut key (fun e => (f e.1, e.2)) |>, Some e.1)
  | None => (x, None)
  end.
Definition peek (key : K) (now : Timestamp.t) (x : t) : option V :=
  match Lru.peek key (inner x) with Some e => if aged now x e then None else Some e.1 | None => None end.
Definition remove (key : K) (x : t) : t * option V :=
  let (c, e) := pop key (inner x) in (x <| inner := c |>, fst <$> e).
Definition len (x : t) : Z := Lru.len (inner x).
Definition is_empty (x : t) : bool := Lru.len (inner x) =? 0.
Definition expired_keys (now : Timestamp.t) (x : t) : list K := (List.filter (fun kv => aged now x kv.2) (iter (inner x))).*1.
Definition evict_expired (now : Timestamp.t) (x : t) : t :=
  x <| inner ::= fun c => fold_left (fun c k => (pop k c).1) (expired_keys now x) c |>.
Definition drain_expired_into (now : Timestamp.t) (out : list (K * V)) (x : t) : t * list (K * V) * Z :=
  let '(c, out') :=
    fold_left (fun '(c, out) k =>
      let (c, e) := pop k c in (c, match e with Some (v, _) => out ++ [(k, v)] | None => out end))
      (expired_keys now x) (inner x, out) in
  (x <| inner := c |>, out', zlen out' - zlen out).
Definition drain_expired (now : Timestamp.t) (x : t) : t * list (K * V) :=
  let '(x, out, _) := drain_expired_into now [] x in (x, out).
End ops.
#[global] Arguments t : clear implicits.
End KeyIndexed.

Module FlowStateMap.
Section ops.
Context {K T C : Type} `{EqDecision K} `{!Lru K (T * Timestamp.t) C}.
(** [T::default()]. *)
Variable init : T.

Record t := mk { inner : KeyIndexed.t C; idle_timeout : Z }.
#[global] Instance eta : Eta t := mk_eta (fun x => mk (inner x) (idle_timeout x)).
Definition new (idle_timeout : Z) : t := mk (KeyIndexed.new_unbounded idle_timeout) idle_timeout.
(** What [get_or_default] does before it lends the slot out. *)
Definition refresh (key : K) (ts : Timestamp.t) (x : t) : t :=
  let (c, v) := KeyIndexed.remove key (inner x) in
  match v with
  | Some value => x <| inner := KeyIndexed.insert key value ts c |>
  | None => x <| inner := c |>
  end.
(** [f] is what the caller does with the slot; the [expect] panics. *)
Definition get_or_default (key : K) (now : Timestamp.t) (f : T -> T) (x : t) : option t :=
  let x :=
    match KeyIndexed.peek key now (inner x) with
    | None => x <| inner ::= KeyIndexed.insert key init now |>
    | Some _ => refresh key now x
    end in
  let (c, v) := KeyIndexed.get_mut key now f (inner x) in
  match v with Some _ => Some (x <| inner := c |>) | None => None end.
Definition get (key : K) (now : Timestamp.t) (x : t) : option T := KeyIndexed.peek key now (inner x).
Definition feed (event : FlowEvent K) (x : t) : t :=
  match event with
  | Ended key _ _ _ _ => x <| inner ::= fun c => (KeyIndexed.remove key c).1 |>
  | Started key _ _ ts _ | Packet key _ _ _ ts _ | Established_ key ts _ | Tick key _ ts | FlowAnomaly key _ ts => refresh key ts x
  | TrackerAnomaly _ _ | StateChange _ _ _ _ => x
  end.
Definition sweep (now : Timestamp.t) (x : t) : t := x <| inner ::= KeyIndexed.evict_expired now |>.
Definition len (x : t) : Z := KeyIndexed.len (inner x).
Definition is_empty (x : t) : bool := KeyIndexed.is_empty (inner x).
End ops.
#[global] Arguments t : clear implicits.
End FlowStateMap.

Module NeighborTable.
Module NeighborBinding.
Record t {L4 : Type} := mk { addr : L4; first_seen : Timestamp.t; last_seen : Timestamp.t; seen_count : Z;
  change_count : Z; prior_addr : option L4 }.
#[global] Arguments t : clear implicits.
#[global] Instance eta {L4} : Eta (t L4) := mk_eta (fun b =>
  mk _ (addr b) (first_seen b) (last_seen b) (seen_count b) (change_count b) (prior_addr b)).
End NeighborBinding.
Inductive NeighborEvent {L4 : Type} := NewBinding (addr : L4) | Refresh | Changed (prior new : L4).
#[global] Arguments NeighborEvent : clear implicits.
Section ops.
Context {L3 L4 C : Type} `{EqDecision L3} `{EqDecision L4} `{!Lru L3 (NeighborBinding.t L4 * Timestamp.t) C}.
Import NeighborBinding.

Definition t : Type := KeyIndexed.t C.
Definition new (ttl capacity : Z) : t := KeyIndexed.new ttl capacity.
Definition new_unbounded (ttl : Z) : t := KeyIndexed.new_unbounded ttl.
Definition sighted (a : L4) (now : Timestamp.t) (b : NeighborBinding.t L4) : NeighborBinding.t L4 :=
  if bool_decide (addr b = a) then b <| last_seen := now |> <| seen_count ::= fun n => sat_add32 n 1 |>
  else b <| prior_addr := Some (addr b) |> <| addr := a |> <| last_seen := now |>
         <| change_count ::= fun n => sat_add32 n 1 |> <| seen_count ::= fun n => sat_add32 n 1 |>.
Definition observe (ip : L3) (a : L4) (now : Timestamp.t) (x : t) : t * NeighborEvent L4 :=
  let (x, found) := KeyIndexed.get_mut ip now (sighted a now) x in
  match found with
  | Some b => (x, if bool_decide (addr b = a) then Refresh else Changed (addr b) a)
  | None => (KeyIndexed.insert ip (NeighborBinding.mk _ a now now 1 0 None) now x, NewBinding a)
  end.
Definition peek (ip : L3) (now : Timestamp.t) (x : t) : option (NeighborBinding.t L4) := KeyIndexed.peek ip now x.
Definition evict_expired (now : Timestamp.t) (x : t) : t := KeyIndexed.evict_expired now x.
Definition len (x : t) : Z := KeyIndexed.len x.
Definition is_empty (x : t) : bool := KeyIndexed.is_empty x.
End ops.
#[global] Arguments t : clear implicits.
End NeighborTable.

Module FirstSeen.
Module Seen.
Record t := mk { first_seen : Timestamp.t; last_seen : Timestamp.t }.
#[global] Instance eta : Eta t := mk_eta (fun s => mk (first_seen s) (last_seen s)).
End Seen.
Section ops.
Context {K C : Type} `{EqDecision K} `{!Lru K Seen.t C}.

Record t := mk { ttl : Z; inner : C }.
#[global] Instance eta : Eta t := mk_eta (fun x => mk (ttl x) (inner x)).
(** [new] and [with_hasher]. *)
Definition new (ttl capacity : Z) : t := mk ttl (with_hasher (Z.max capacity 1)).
Definition new_unbounded (ttl : Z) : t := mk ttl (with_hasher U64_MAX).

Definition expired (s : Seen.t) (now : Timestamp.t) (x : t) : bool :=
  ttl x <? Timestamp.saturating_sub now (Seen.last_seen s).
Definition observe (key : K) (now : Timestamp.t) (x : t) : t * bool :=
  match peek key (inner x) with
  | Some s =>
      if ttl x <? Timestamp.saturating_sub now (Seen.last_seen s) then
        (x <| inner ::= get_mut key (fun _ => Seen.mk now now) |>, true)
      else (x <| inner ::= get_mut key (fun s => s <| Seen.last_seen := now |>) |>, false)
  | None => (x <| inner ::= fun c => (push key (Seen.mk now now) c).1 |>, true)
  end.
Definition seen (key : K) (now : Timestamp.t) (x : t) : bool :=
  match peek key (inner x) with Some s => negb (expired s now x) | None => false end.
Definition first_seen (key : K) (now : Timestamp.t) (x : t) : option Timestamp.t :=
  match peek key (inner x) with Some s => if negb (expired s now x) then Some (Seen.first_seen s) else None | None => None end.
Definition remove (key : K) (x : t) : t * option Timestamp.t :=
  let (c, s) := pop key (inner x) in (x <| inner := c |>, Seen.first_seen <$> s).
Definition evict_expired (now : Timestamp.t) (x : t) : t :=
  x <| inner ::= fun c =>
    fold_left (fun c k => (pop k c).1) (List.filter (fun ks => expired ks.2 now x) (iter c)).*1 c |>.
Definition len (x : t) : Z := Lru.len (inner x).
Definition is_empty (x : t) : bool := Lru.len (inner x) =? 0.

Definition unite (o s : Seen.t) : Seen.t :=
  let s := if before (Seen.first_seen o) (Seen.first_seen s) then s <| Seen.first_seen := Seen.first_seen o |> else s in
  if before (Seen.last_seen s) (Seen.last_seen o) then s <| Seen.last_seen := Seen.last_seen o |> else s.
Fixpoint merge_from (fuel : nat) (other c : C) : C :=
  match fuel with
  | O => c
  | S fuel =>
      match pop_lru other with
      | (other, Some (k, o)) =>
          merge_from fuel other
            (match peek k c with Some _ => get_mut k (unite o) c | None => (push k o c).1 end)
      | (_, None) => c
      end
  end.
(** One round per entry of the other set. *)
#[global] Instance mergeable : Mergeable t := fun x other =>
  if (ttl x =? ttl other) && (cap (inner x) =? cap (inner other))
  then Some (x <| inner ::= merge_from (S (Z.to_nat (Lru.len (inner other)))) (inner other) |>) else None.
End ops.
#[global] Arguments t : clear implicits.
End FirstSeen.

Module BitStore.
Module Bit.
Record t := mk { value : Z; deadline : Z }.
End Bit.
Section ops.
Context {K N : Type} `{Countable K} `{Countable N}.
Record t := mk { max_keys : Z; map : gmap K (gmap N Bit.t) }.
#[global] Instance eta : Eta t := mk_eta (fun s => mk (max_keys s) (map s)).
Definition with_capacity (max_keys : Z) : t := mk max_keys ∅.
Definition unbounded : t := with_capacity U64_MAX.
Definition set_checked (key : K) (name : N) (value ttl : Z) (now : Timestamp.t) (s : t) : t * bool :=
  let bit := Bit.mk value (dur now + ttl) in
  match map s !! key with
  | Some entry => (s <| map ::= <[key := <[name := bit]> entry]> |>, true)
  | None =>
      if max_keys s <=? Z.of_nat (size (map s)) then (s, false)
      else (s <| map ::= <[key := {[name := bit]}]> |>, true)
  end.
Definition set (key : K) (name : N) (value ttl : Z) (now : Timestamp.t) (s : t) : t := (set_checked key name value ttl now s).1.
Definition set_flag (key : K) (name : N) (ttl : Z) (now : Timestamp.t) (s : t) : t := set key name 1 ttl now s.
Definition get (key : K) (name : N) (now : Timestamp.t) (s : t) : option Z :=
  match map s !! key with
  | Some entry =>
      match entry !! name with
      | Some bit => if Bit.deadline bit <=? dur now then None else Some (Bit.value bit)
      | None => None
      end
  | None => None
  end.
Definition is_set (key : K) (name : N) (now : Timestamp.t) (s : t) : bool := is_some (get key name now s).
Definition unset (key : K) (name : N) (s : t) : t * option Z :=
  match map s !! key with
  | Some entry =>
      let removed := Bit.value <$> entry !! name in
      let entry := delete name entry in
      (if bool_decide (entry = ∅) then s <| map ::= delete key |> else s <| map ::= <[key := entry]> |>, removed)
  | None => (s, None)
  end.
Definition len (s : t) : Z := Z.of_nat (size (map s)).
Definition is_empty (s : t) : bool := bool_decide (map s = ∅).
Definition live_bits (now : Timestamp.t) (entry : gmap N Bit.t) : gmap N Bit.t :=
  filter (fun nb => dur now < Bit.deadline nb.2) entry.
Definition expire (now : Timestamp.t) (s : t) : t :=
  s <| map ::= fun m => filter (fun ke => ke.2 <> ∅) (live_bits now <$> m) |>.
End ops.
#[global] Arguments t _ _ {_ _ _ _}.
End BitStore.

Module BurstDetector.
Module BurstHit.
Record t {K : Type} := mk { key : K; burst_count : Z; trigger_ts : Timestamp.t }.
#[global] Arguments t : clear implicits.
End BurstHit.
Section ops.
Context {K E : Type} `{Countable K} `{EqDecision E}.
Record t := mk { burst_kind : E; threshold : Z; window : Z; trigger_kind : option E; state : gmap K (list Timestamp.t) }.
#[global] Instance eta : Eta t := mk_eta (fun b =>
  mk (burst_kind b) (threshold b) (window b) (trigger_kind b) (state b)).
Definition new (burst_kind : E) (threshold window : Z) (trigger_kind : option E) : t :=
  mk burst_kind threshold window trigger_kind ∅.
Definition drop_expired (q : list Timestamp.t) (now : Timestamp.t) (window : Z) : list Timestamp.t :=
  pop_front_while (fun t => before t (cutoff_for window now)) q.
(** The queue is cleared and the hit reported. *)
Definition fire (key : K) (q : list Timestamp.t) (now : Timestamp.t) (b : t) : t * option (BurstHit.t K) :=
  (b <| state ::= <[key := []]> |>, Some (BurstHit.mk _ key (u32 (zlen q)) now)).
Definition observe (key : K) (event : E) (now : Timestamp.t) (b : t) : t * option (BurstHit.t K) :=
  let b := match state b !! key with Some q => b <| state ::= <[key := drop_expired q now (window b)]> |> | None => b end in
  if bool_decide (event = burst_kind b) then
    let q := default [] (state b !! key) ++ [now] in
    let b := b <| state ::= <[key := q]> |> in
    if negb (is_some (trigger_kind b)) && (u32 (zlen q) =? threshold b) then fire key q now b else (b, None)
  else if bool_decide (trigger_kind b = Some event) then
    match state b !! key with
    | Some q => if threshold b <=? u32 (zlen q) then fire key q now b else (b, None)
    | None => (b, None)
    end
  else (b, None).
Definition evict_expired (now : Timestamp.t) (b : t) : t :=
  b <| state ::= fun m => filter (fun kq => kq.2 <> []) ((fun q => drop_expired q now (window b)) <$> m) |>.
End ops.
#[global] Arguments t _ _ {_ _}.
End BurstDetector.

(** * What the tables with a time to live promise (src/src/correlate/)

    Each bounded table is compared with the unbounded one, a function from
    keys to what the calls made of them: the bound may only make a table
    forget. *)

From S2P Require Import Flow.

(** ** The cache *)
Section cache.
Context {K A C : Type} `{EqDecision K} `{!Lru K A C, !LruLaws K A C}.
Implicit Types (l : list (K * A)) (c : C) (k : K).

Lemma push_front_facts n k a l : 1 <= n -> NoDup (l.*1) -> zlen l <= n ->
  let l' := (push_front n k a l).1 in
  NoDup (l'.*1) /\ zlen l' <= n /\ entry k l' = Some a /\
  (forall k', k' <> k -> entry k' l' = entry k' l \/ entry k' l' = None) /\
  (is_Some (entry k l) \/ zlen l < n -> forall k', k' <> k -> entry k' l' = entry k' l).
Proof.
  intros Hn N L. cbv zeta. destruct (entry k l) as [old|] eqn:E.
  - unfold push_front. rewrite E. cbn [fst]. assert (Ek : entry k ((k, a) :: without k l) = Some a) by (cbn; by rewrite decide_True).
    assert (Eo : forall k', k' <> k -> entry k' ((k, a) :: without k l) = entry k' l).
    { intros k' Nk. cbn. rewrite decide_False, entry_without by done. by rewrite decide_False. }
    split_and!; [|rewrite zlen_cons, (zlen_without l k old) by done; lia|done|auto|auto].
    cbn. apply NoDup_cons. split; [|by apply nodup_without]. apply entry_None. rewrite entry_without by done. by rewrite decide_True.
  - assert (Nk : k ∉ l.*1) by by apply entry_None. pose proof (push_front_spec n k a l Hn E) as P.
    destruct (push_front n k a l) as [l' e]. cbn [fst]. inversion P as [Hl|k' v' l0 El Hl]; subst.
    + cbn. rewrite decide_True by done. split_and!; [by constructor|rewrite zlen_cons; lia|done| |]; intros; by rewrite decide_False; auto.
    + cbn. rewrite decide_True by done. rewrite fmap_app in N, Nk. pose proof N as N'. apply NoDup_app in N' as (N1 & _ & _). split_and!.
      * constructor; [set_solver|done].
      * rewrite zlen_app in L. unfold zlen in *. cbn in *. lia.
      * done.
      * intros k1 N2. rewrite decide_False by done. rewrite entry_snoc by by rewrite fmap_app. destruct (decide (k1 = k')) as [->|]; [|by left].
        right. apply entry_None. cbn in N. apply NoDup_app in N as (_ & N & _). intros I. apply (N k' I). left.
      * intros [[]|]; [done|lia].
Qed.
Lemma pop_all_entry ks : forall c, NoDup ((iter c).*1) ->
  let c' := fold_left (fun c k => (pop k c).1) ks c in
  NoDup ((iter c').*1) /\ zlen (iter c') <= zlen (iter c) /\ cap c' = cap c /\
  forall k, entry k (iter c') = if decide (k ∈ ks) then None else entry k (iter c).
Proof.
  induction ks as [|k0 ks IH]; intros c N; cbn.
  { split_and!; [done|lia|done|]. intros k. rewrite decide_False; [done|by intros ?%elem_of_nil]. }
  destruct (IH (pop k0 c).1) as (N1 & L1 & C1 & E1); [rewrite iter_pop; by apply nodup_without|]. rewrite C1, cap_pop. split_and!; [done| |done|].
  - rewrite iter_pop in L1. destruct (entry k0 (iter c)) eqn:E; [rewrite (zlen_without _ _ _ E) in L1; lia|by rewrite without_None in L1].
  - intros k. rewrite E1, iter_pop, entry_without by done. destruct (decide (k ∈ ks)) as [I|I]; [by rewrite decide_True by by right|].
    destruct (decide (k = k0)) as [->|Nk]; [by rewrite decide_True by by left|]. rewrite decide_False; [done|]. by intros [|]%elem_of_cons.
Qed.
(** Popping what passes a test. *)
Lemma in_filtered (p : A -> bool) l k : NoDup (l.*1) ->
  k ∈ (List.filter (fun kv : K * A => p kv.2) l).*1 <-> exists a, entry k l = Some a /\ p a = true.
Proof.
  intros N. rewrite list_elem_of_fmap. split.
  - intros ([k' a] & -> & I). apply list_elem_of_In, filter_In in I as [I P]. exists a. split; [|done]. apply elem_entry; [done|by apply list_elem_of_In].
  - intros (a & E & P). exists (k, a). split; [done|]. apply list_elem_of_In, filter_In. split; [by apply list_elem_of_In, entry_elem|done].
Qed.
Lemma sweep_entry (p : A -> bool) c : NoDup ((iter c).*1) ->
  let c' := fold_left (fun c k => (pop k c).1) (List.filter (fun kv : K * A => p kv.2) (iter c)).*1 c in
  NoDup ((iter c').*1) /\ zlen (iter c') <= zlen (iter c) /\ cap c' = cap c /\
  forall k, entry k (iter c') = match entry k (iter c) with Some a => if p a then None else Some a | None => None end.
Proof.
  intros N. cbv zeta. destruct (pop_all_entry (List.filter (fun kv : K * A => p kv.2) (iter c)).*1 c N) as (N1 & L1 & C1 & E1).
  split_and!; [done..|]. intros k. rewrite E1. destruct (decide (k ∈ (List.filter (fun kv : K * A => p kv.2) (iter c)).*1)) as [I|I]; rewrite in_filtered in I by done.
  - by destruct I as (a & -> & ->).
  - destruct (entry k (iter c)) as [a|]; [|done]. destruct (p a) eqn:P; [|done]. exfalso. apply I. by exists a.
Qed.
(** Keys drawn from a short list leave room for one more of it. *)
Lemma room_for ks l k : NoDup (l.*1) -> l.*1 ⊆ ks -> k ∈ ks -> k ∉ l.*1 -> zlen l < zlen ks.
Proof.
  intros N S I Nk. assert (G : (length (k :: l.*1) <= length ks)%nat).
  { apply submseteq_length, NoDup_submseteq; [by constructor|]. intros k' [->|?]%elem_of_cons; auto. }
  cbn in G. rewrite length_fmap in G. unfold zlen. lia.
Qed.
End cache.

(** ** First sightings *)
Module FirstSeenProps.
Import FirstSeen.
Section first_seen.
Context {K C : Type} `{EqDecision K} `{!Lru K Seen.t C, !LruLaws K Seen.t C}.
Implicit Types (x : FirstSeen.t C) (k : K).

Inductive Call := CObserve (key : K) (now : Timestamp.t) | CRemove (key : K) | CEvict (now : Timestamp.t).
Definition step (c : Call) x : FirstSeen.t C :=
  match c with
  | CObserve key now => (observe key now x).1
  | CRemove key => (remove key x).1
  | CEvict now => evict_expired now x
  end.
Definition run (cs : list Call) x : FirstSeen.t C := fold_left (fun x c => step c x) cs x.

(** The set without a bound. *)
Definition lapsed (ttl : Z) (now : Timestamp.t) (s : Seen.t) : bool := ttl <? Timestamp.saturating_sub now (Seen.last_seen s).
Definition recall (ttl : Z) (k : K) (c : Call) (h : option Seen.t) : option Seen.t :=
  match c with
  | CObserve key now =>
      if decide (key = k) then
        match h with
        | Some s => Some (if lapsed ttl now s then Seen.mk now now else Seen.mk (Seen.first_seen s) now)
        | None => Some (Seen.mk now now)
        end
      else h
  | CRemove key => if decide (key = k) then None else h
  | CEvict now => match h with Some s => if lapsed ttl now s then None else h | None => None end
  end.
Definition history (ttl : Z) (k : K) (cs : list Call) : option Seen.t := fold_left (fun h c => recall ttl k c h) cs None.
Definition touched (c : Call) : list K := match c with CObserve key _ => [key] | _ => [] end.

(** What a table has of a key is what the unbounded one has, as far as the
    time of the last sighting goes. *)
Definition forgets (ttl : Z) (h : K -> option Seen.t) x : Prop :=
  FirstSeen.ttl x = ttl /\ NoDup ((iter (inner x)).*1) /\ 1 <= cap (inner x) /\ zlen (iter (inner x)) <= cap (inner x) /\
  forall k s, entry k (iter (inner x)) = Some s -> exists s', h k = Some s' /\ Seen.last_seen s' = Seen.last_seen s.
Definition exact (h : K -> option Seen.t) x : Prop := forall k, entry k (iter (inner x)) = h k.

Lemma step_cap c x : cap (inner (step c x)) = cap (inner x).
Proof.
  destruct c as [key now|key|now]; cbn [step].
  - unfold observe. destruct (peek key (inner x)) as [s|]; [case_if|]; cbn; by autorewrite with lru.
  - unfold remove. pose proof (cap_pop (C := C) key (inner x)) as E. by destruct (pop key (inner x)).
  - unfold evict_expired. cbn. generalize (List.filter (fun ks : K * Seen.t => expired ks.2 now x) (iter (inner x))).*1. intros ks.
    generalize (inner x). induction ks as [|k ks IH]; intros c0; cbn; [done|]. by rewrite IH, cap_pop.
Qed.
Lemma step_forgets ttl h c x : forgets ttl h x -> forgets ttl (fun k => recall ttl k c (h k)) (step c x).
Proof.
  intros (Et & N & H1 & L & F). unfold forgets. rewrite step_cap. destruct c as [key now|key|now]; cbn [step recall].
  - unfold observe. rewrite peek_iter. destruct (entry key (iter (inner x))) as [s|] eqn:E.
    + destruct (F _ _ E) as (s' & Eh & El). rewrite Et. change (ttl <? Timestamp.saturating_sub now (Seen.last_seen s)) with (lapsed ttl now s).
      assert (G : forall f, let x' := x <| inner ::= get_mut key f |> in Seen.last_seen (f s) = now ->
        FirstSeen.ttl x' = ttl /\ NoDup ((iter (inner x')).*1) /\ 1 <= cap (inner x) /\ zlen (iter (inner x')) <= cap (inner x) /\
        forall k s0, entry k (iter (inner x')) = Some s0 -> exists s', (if decide (key = k) then
          match h k with Some s => Some (if lapsed ttl now s then Seen.mk now now else Seen.mk (Seen.first_seen s) now) | None => Some (Seen.mk now now) end
          else h k) = Some s' /\ Seen.last_seen s' = Seen.last_seen s0).
      { intros f x' Hf. unfold x'. cbn. rewrite iter_get_mut. split_and!; [done|by apply nodup_promote|done|by rewrite zlen_promote|].
        intros k s0. rewrite entry_promote by done. destruct (decide (k = key)) as [->|Nk].
        - rewrite E. intros [= <-]. rewrite decide_True, Eh by done. eexists. split; [done|]. by destruct (lapsed ttl now s').
        - rewrite decide_False by done. apply F. }
      destruct (lapsed ttl now s); by apply G.
    + cbn. destruct (push_front_facts (cap (inner x)) key (Seen.mk now now) (iter (inner x)) H1 N L) as (N' & L' & Ek & Eo & _).
      rewrite iter_push. split_and!; [done..|]. intros k s0 E0. destruct (decide (key = k)) as [->|Nk].
      * rewrite Ek in E0. injection E0 as <-. destruct (h k) as [s|]; [|by eexists]. eexists. split; [done|]. by destruct (lapsed ttl now s).
      * destruct (Eo k) as [E1|E1]; [done| |congruence]. rewrite E1 in E0. by apply F.
  - unfold remove. pose proof (iter_pop (C := C) key (inner x)) as Ei. destruct (pop key (inner x)) as [c' o]. cbn in *. rewrite Ei.
    split_and!; [done|by apply nodup_without|done| |].
    + destruct (entry key (iter (inner x))) eqn:E; [rewrite (zlen_without _ _ _ E); lia|by rewrite without_None].
    + intros k s. rewrite entry_without by done. destruct (decide (k = key)) as [->|Nk]; [done|]. rewrite decide_False by done. apply F.
  - unfold evict_expired. cbn. destruct (sweep_entry (fun s => expired s now x) (inner x) N) as (N' & L' & _ & E').
    split_and!; [done|done|done|lia|]. intros k s. rewrite E'. destruct (entry k (iter (inner x))) as [s0|] eqn:E; [|done].
    destruct (F _ _ E) as (s' & Eh & El). rewrite Eh. unfold expired. rewrite Et. unfold lapsed. rewrite El. case_if; [done|]. intros [= <-]. by exists s'.
Qed.
Lemma step_exact ttl h c x ks : forgets ttl h x -> exact h x -> (iter (inner x)).*1 ⊆ ks -> touched c ⊆ ks -> zlen ks <= cap (inner x) ->
  exact (fun k => recall ttl k c (h k)) (step c x) /\ (iter (inner (step c x))).*1 ⊆ ks.
Proof.
  intros (Et & N & H1 & L & _) X S T R.
  assert (G : forall x', exact (fun k => recall ttl k c (h k)) x' -> exact (fun k => recall ttl k c (h k)) x' /\ (iter (inner x')).*1 ⊆ ks).
  { intros x' X'. split; [done|]. intros k I. destruct (entry k (iter (inner x'))) as [s|] eqn:E; [|by apply entry_None in E].
    rewrite X' in E. destruct (h k) as [s0|] eqn:Eh.
    - apply S. rewrite <- X in Eh. by eapply entry_Some_key.
    - destruct c as [key now|key|now]; cbn in E; [|by case_decide|done]. case_decide; [|done]. subst. apply T. left. }
  apply G. clear G. intros k. destruct c as [key now|key|now]; cbn [step recall].
  - unfold observe. rewrite peek_iter. destruct (entry key (iter (inner x))) as [s|] eqn:E.
    + rewrite Et. change (ttl <? Timestamp.saturating_sub now (Seen.last_seen s)) with (lapsed ttl now s).
      destruct (lapsed ttl now s) eqn:Lp; cbn; rewrite iter_get_mut, entry_promote by done; rewrite E, <- X;
        (destruct (decide (k = key)) as [->|Nk]; [rewrite decide_True, E by done; cbn; by rewrite Lp|by rewrite decide_False]).
    + cbn. rewrite iter_push. destruct (push_front_facts (cap (inner x)) key (Seen.mk now now) (iter (inner x)) H1 N L) as (_ & _ & Ek & _ & Eo).
      destruct (decide (key = k)) as [<-|Nk]; [by rewrite Ek, <- X, E|]. rewrite Eo; [by rewrite X| |done]. right.
      assert (zlen (iter (inner x)) < zlen ks); [|lia]. apply (room_for ks _ key); [done|done|apply T; left|by apply entry_None].
  - unfold remove. pose proof (iter_pop (C := C) key (inner x)) as Ei. destruct (pop key (inner x)) as [c' o]. cbn in *.
    rewrite Ei, entry_without by done. destruct (decide (k = key)) as [->|Nk]; [by rewrite decide_True|]. by rewrite decide_False.
  - unfold evict_expired. cbn. destruct (sweep_entry (fun s => expired s now x) (inner x) N) as (_ & _ & _ & E'). rewrite E', X.
    destruct (h k); [|done]. unfold expired. by rewrite Et.
Qed.
Lemma run_forgets ttl cs : forall h x, forgets ttl h x ->
  forgets ttl (fun k => fold_left (fun h c => recall ttl k c h) cs (h k)) (run cs x) /\ cap (inner (run cs x)) = cap (inner x).
Proof.
  induction cs as [|c cs IH]; intros h x F; [done|]. destruct (IH _ _ (step_forgets ttl h c x F)) as [F' C']. split; [exact F'|].
  cbn [run fold_left] in *. unfold run in C'. rewrite C'. apply step_cap.
Qed.
Lemma run_exact ttl ks cs : forall h x, forgets ttl h x -> exact h x -> (iter (inner x)).*1 ⊆ ks -> (cs ≫= touched) ⊆ ks -> zlen ks <= cap (inner x) ->
  exact (fun k => fold_left (fun h c => recall ttl k c h) cs (h k)) (run cs x).
Proof.
  induction cs as [|c cs IH]; intros h x F X S T R; [done|]. rewrite bind_cons in T. destruct (step_exact ttl h c x ks F X S) as [X' S']; [set_solver|done|].
  apply (IH _ (step c x)); [by apply step_forgets|done|done|set_solver|by rewrite step_cap].
Qed.

(** C37: a first-seen set errs on the side of "new".  Whatever is
    observed, removed and swept, it never holds more than its capacity; a key
    it says it has seen is one the set without a bound has seen within the
    time to live; and with room for the keys that occur, it answers every
    question, when the streak of sightings began included, as that one does.
    [observe] answers "new" exactly when the key was not seen. *)
Theorem first_seen_one_sided ttl capacity cs :
  let x := run cs (FirstSeen.new ttl capacity) in
  len x <= Z.max capacity 1 /\
  (forall k now, seen k now x = true -> exists s, history ttl k cs = Some s /\ lapsed ttl now s = false) /\
  (forall ks, cs ≫= touched ⊆ ks -> zlen ks <= Z.max capacity 1 -> forall k now,
     seen k now x = match history ttl k cs with Some s => negb (lapsed ttl now s) | None => false end /\
     first_seen k now x = match history ttl k cs with Some s => if lapsed ttl now s then None else Some (Seen.first_seen s) | None => None end) /\
  (forall k now, (observe k now x).2 = negb (seen k now x)).
Proof.
  intros x. set (x0 := FirstSeen.new ttl capacity) in *.
  assert (I0 : iter (inner x0) = [] /\ cap (inner x0) = Z.max capacity 1) by (cbn; by autorewrite with lru). destruct I0 as [I0 C0].
  assert (F0 : forgets ttl (fun _ => None) x0).
  { unfold forgets. rewrite I0, C0, zlen_nil. split_and!; [done|constructor|lia|lia|done]. }
  destruct (run_forgets ttl cs _ _ F0) as [(Et & N & H1 & L & F) Cp]. fold x in Et, N, H1, L, F, Cp. split_and!.
  - unfold len. rewrite len_iter. lia.
  - intros k now. unfold seen. rewrite peek_iter. destruct (entry k (iter (inner x))) as [s|] eqn:E; [|done].
    destruct (F _ _ E) as (s' & Eh & El). intros Q. exists s'. split; [exact Eh|]. apply negb_true_iff in Q. unfold lapsed. rewrite El, <- Et. exact Q.
  - intros ks T R k now. assert (X : exact (fun k => history ttl k cs) x).
    { apply (run_exact ttl ks cs (fun _ => None) x0 F0); [intros k'; by rewrite I0|rewrite I0; set_solver|done|by rewrite C0]. }
    unfold seen, first_seen. rewrite peek_iter, X. destruct (history ttl k cs) as [s|]; [|done]. unfold expired. rewrite Et.
    change (ttl <? Timestamp.saturating_sub now (Seen.last_seen s)) with (lapsed ttl now s). by destruct (lapsed ttl now s).
  - intros k now. unfold observe, seen. rewrite peek_iter. destruct (entry k (iter (inner x))) as [s|]; [|done]. unfold expired.
    by case_if.
Qed.
End first_seen.
End FirstSeenProps.

(** ** Values with a time to live *)
Module KeyIndexedProps.
Import KeyIndexed.
Section key_indexed.
Context {K V C : Type} `{EqDecision K} `{!Lru K (V * Timestamp.t) C, !LruLaws K (V * Timestamp.t) C}.
Implicit Types (x : KeyIndexed.t C) (k : K).

Inductive Call := CInsert (key : K) (value : V) (ts : Timestamp.t) | CGet (key : K) (now : Timestamp.t)
  | CGetMut (key : K) (now : Timestamp.t) (f : V -> V) | CRemove (key : K) | CEvict (now : Timestamp.t).
Definition step (c : Call) x : KeyIndexed.t C :=
  match c with
  | CInsert key value ts => insert key value ts x
  | CGet key now => (get key now x).1
  | CGetMut key now f => (get_mut key now f x).1
  | CRemove key => (remove key x).1
  | CEvict now => evict_expired now x
  end.
Definition run (cs : list Call) x : KeyIndexed.t C := fold_left (fun x c => step c x) cs x.
(** The index without a bound. *)
Definition stale (ttl : Z) (now : Timestamp.t) (e : V * Timestamp.t) : bool := ttl <? sat_sub (dur now) (dur e.2).
Definition recall (ttl : Z) (k : K) (c : Call) (h : option (V * Timestamp.t)) : option (V * Timestamp.t) :=
  match c with
  | CInsert key value ts => if decide (key = k) then Some (value, ts) else h
  | CGet _ _ => h
  | CGetMut key now f =>
      if decide (key = k) then (fun e => if stale ttl now e then e else (f e.1, e.2)) <$> h else h
  | CRemove key => if decide (key = k) then None else h
  | CEvict now => match h with Some e => if stale ttl now e then None else h | None => None end
  end.
Definition stored (ttl : Z) (k : K) (cs : list Call) : option (V * Timestamp.t) := fold_left (fun h c => recall ttl k c h) cs None.
Definition touched (c : Call) : list K := match c with CInsert key _ _ => [key] | _ => [] end.

Definition within (ttl n : Z) x : Prop := KeyIndexed.ttl x = ttl /\ NoDup ((iter (inner x)).*1) /\ 1 <= n /\ cap (inner x) = n /\ zlen (iter (inner x)) <= n.
Definition part_of (h : K -> option (V * Timestamp.t)) x : Prop :=
  forall k e, entry k (iter (inner x)) = Some e -> h k = Some e.
Definition exactly (h : K -> option (V * Timestamp.t)) x : Prop := forall k, entry k (iter (inner x)) = h k.

(** A step, in terms of the entries. *)
Lemma promoted ttl n key f x : within ttl n x -> within ttl n (x <| inner ::= Lru.get_mut key f |>).
Proof.
  intros (Et & N & H1 & Cp & L). unfold within. cbn. rewrite iter_get_mut, cap_get_mut, zlen_promote. split_and!; [done|by apply nodup_promote|done..].
Qed.
Lemma step_within ttl n c x : within ttl n x -> within ttl n (step c x).
Proof.
  intros W. pose proof W as (Et & N & H1 & Cp & L). destruct c as [key v ts|key now|key now f|key|now]; cbn [step].
  - unfold insert, within. cbn. rewrite iter_push, cap_push, Cp. destruct (push_front_facts n key (v, ts) (iter (inner x)) H1 N L) as (? & ? & _). by split_and!.
  - unfold get. destruct (Lru.peek key (inner x)) as [e|]; [|done]. by apply promoted.
  - unfold get_mut. destruct (Lru.peek key (inner x)) as [e|]; [|done]. case_if; by apply promoted.
  - unfold remove, within. pose proof (iter_pop (C := C) key (inner x)) as Ei. pose proof (cap_pop (C := C) key (inner x)) as Ec.
    destruct (pop key (inner x)) as [c' o]. cbn in *. rewrite Ei, Ec. split_and!; [done|by apply nodup_without|done|done|].
    destruct (entry key (iter (inner x))) eqn:E; [rewrite (zlen_without _ _ _ E); lia|by rewrite without_None].
  - unfold evict_expired, expired_keys, within. cbn. destruct (sweep_entry (aged now x) (inner x) N) as (N' & L' & C' & _). rewrite C'. split_and!; [done..|lia].
Qed.
(** Apart from a push that evicts, a step does what the index without a
    bound does. *)
Lemma step_entry ttl n c x k : within ttl n x ->
  let e' := entry k (iter (inner (step c x))) in
  let want := recall ttl k c (entry k (iter (inner x))) in
  (e' = want \/ e' = None) /\ ((forall key, key ∈ touched c -> is_Some (entry key (iter (inner x))) \/ zlen (iter (inner x)) < n) -> e' = want).
Proof.
  intros (Et & N & H1 & Cp & L). cbv zeta.
  assert (G : entry k (iter (inner (step c x))) = recall ttl k c (entry k (iter (inner x))) ->
    (entry k (iter (inner (step c x))) = recall ttl k c (entry k (iter (inner x))) \/ entry k (iter (inner (step c x))) = None) /\
    ((forall key, key ∈ touched c -> is_Some (entry key (iter (inner x))) \/ zlen (iter (inner x)) < n) ->
      entry k (iter (inner (step c x))) = recall ttl k c (entry k (iter (inner x))))) by (intros ->; split; [by left|done]).
  destruct c as [key v ts|key now|key now f|key|now]; cbn [step recall] in *.
  - clear G. unfold insert. cbn. rewrite iter_push, Cp. destruct (push_front_facts n key (v, ts) (iter (inner x)) H1 N L) as (_ & _ & Ek & Eo & Ex).
    destruct (decide (key = k)) as [<-|Nk]; [by split; [left|]|]. split; [by apply Eo|]. intros R. apply Ex; [|done]. apply R. left.
  - apply G. unfold get. rewrite peek_iter. destruct (entry key (iter (inner x))) as [e|] eqn:E; [|done]. cbn. rewrite iter_get_mut, entry_promote by done.
    destruct (decide (k = key)) as [->|]; [by rewrite E|done].
  - apply G. unfold get_mut. rewrite peek_iter. destruct (entry key (iter (inner x))) as [e|] eqn:E.
    + unfold aged, stale. rewrite Et. destruct (ttl <? sat_sub (dur now) (dur e.2)) eqn:A; cbn; rewrite iter_get_mut, entry_promote by done; rewrite E;
        (destruct (decide (k = key)) as [->|Nk]; [rewrite decide_True, E by done; cbn; by rewrite A|by rewrite decide_False]).
    + cbn. destruct (decide (key = k)) as [->|]; [by rewrite E|done].
  - apply G. unfold remove. pose proof (iter_pop (C := C) key (inner x)) as Ei. destruct (pop key (inner x)) as [c' o]. cbn in *.
    rewrite Ei, entry_without by done. destruct (decide (k = key)) as [->|Nk]; [by rewrite decide_True|by rewrite decide_False].
  - apply G. unfold evict_expired, expired_keys. cbn. destruct (sweep_entry (aged now x) (inner x) N) as (_ & _ & _ & E'). rewrite E'.
    destruct (entry k (iter (inner x))) as [e|]; [|done]. unfold aged, stale. by rewrite Et.
Qed.
Lemma recall_mono ttl k c h e : (recall ttl k c h = Some e -> h = None -> exists v ts, c = CInsert k v ts).
Proof.
  intros E ->. destruct c as [key v ts|key now|key now f|key|now]; cbn in E; try done.
  - case_decide; [subst; by eexists _, _|done].
  - by case_decide.
  - by case_decide.
Qed.
Lemma run_part ttl n cs : forall h x, within ttl n x -> part_of h x ->
  within ttl n (run cs x) /\ part_of (fun k => fold_left (fun h c => recall ttl k c h) cs (h k)) (run cs x).
Proof.
  induction cs as [|c cs IH]; intros h x W P; [done|]. apply (IH (fun k => recall ttl k c (h k)) (step c x)); [by apply step_within|].
  intros k e E. destruct (step_entry ttl n c x k W) as [[E'|E'] _]; rewrite E in E'; [|done].
  destruct (entry k (iter (inner x))) as [e0|] eqn:E0; [by rewrite (P k e0 E0)|].
  symmetry in E'. destruct (recall_mono _ _ _ _ _ E' eq_refl) as (v & ts & ->). cbn in *. by rewrite decide_True in *.
Qed.
Lemma run_exactly ttl n ks cs : forall h x, within ttl n x -> exactly h x -> (iter (inner x)).*1 ⊆ ks -> cs ≫= touched ⊆ ks -> zlen ks <= n ->
  exactly (fun k => fold_left (fun h c => recall ttl k c h) cs (h k)) (run cs x).
Proof.
  induction cs as [|c cs IH]; intros h x W X S T R; [done|]. rewrite bind_cons in T.
  assert (E : forall k, entry k (iter (inner (step c x))) = recall ttl k c (entry k (iter (inner x)))).
  { intros k. apply (step_entry ttl n c x k W). intros key I. destruct (entry key (iter (inner x))) eqn:Ek; [left; by eexists|right].
    destruct W as (_ & N & _). assert (zlen (iter (inner x)) < zlen ks); [|lia].
    apply (room_for ks _ key); [done|done|apply T; apply elem_of_app; by left|by apply entry_None]. }
  apply (IH (fun k => recall ttl k c (h k)) (step c x)); [by apply step_within| | |set_solver|done].
  - intros k. by rewrite E, X.
  - intros k I. destruct (entry k (iter (inner (step c x)))) as [e|] eqn:Ee; [|by apply entry_None in Ee]. rewrite E in Ee.
    destruct (entry k (iter (inner x))) as [e0|] eqn:E0; [apply S; by eapply entry_Some_key|].
    destruct (recall_mono _ _ _ _ _ Ee eq_refl) as (v & ts & ->). apply T, elem_of_app. left. left.
Qed.

(** A key index is a bounded view of the plain one.  After any calls
    it holds at most its capacity; what [peek] gives is the value last put
    for the key, as edited since, and within its time to live; [get] and
    [get_mut] give the same; and with room for the keys that are inserted,
    it gives every value the plain index has. *)
Theorem key_index_sound ttl capacity cs :
  let x := run cs (KeyIndexed.new ttl capacity) in
  len x <= Z.max capacity 1 /\
  (forall k now v, peek k now x = Some v -> exists ts, stored ttl k cs = Some (v, ts) /\ stale ttl now (v, ts) = false) /\
  (forall k now f, (get k now x).2 = peek k now x /\ (get_mut k now f x).2 = peek k now x) /\
  (forall ks, cs ≫= touched ⊆ ks -> zlen ks <= Z.max capacity 1 -> forall k now,
     peek k now x = match stored ttl k cs with Some e => if stale ttl now e then None else Some e.1 | None => None end).
Proof.
  intros x. set (x0 := KeyIndexed.new ttl capacity) in *.
  assert (I0 : iter (inner x0) = [] /\ cap (inner x0) = Z.max capacity 1) by (cbn; by autorewrite with lru). destruct I0 as [I0 C0].
  assert (W0 : within ttl (Z.max capacity 1) x0).
  { unfold within. rewrite I0, C0, zlen_nil. split_and!; [done|constructor|lia|done|lia]. }
  destruct (run_part ttl _ cs (fun _ => None) x0 W0) as [(Et & N & H1 & Cp & L) P]; [intros k e; by rewrite I0|]. fold x in Et, N, H1, Cp, L, P. split_and!.
  - unfold len. rewrite len_iter. lia.
  - intros k now v. unfold peek, aged. rewrite peek_iter. destruct (entry k (iter (inner x))) as [[v' ts]|] eqn:E; [|done]. rewrite Et.
    change (ttl <? sat_sub (dur now) (dur (v', ts).2)) with (stale ttl now (v', ts)). destruct (stale ttl now (v', ts)) eqn:St; [done|].
    intros [= <-]. exists ts. split; [|done]. by apply (P k _ E).
  - intros k now f. unfold get, get_mut, peek. destruct (Lru.peek k (inner x)) as [e|]; [|done]. split; [done|]. by destruct (aged now x e).
  - intros ks T R k now. assert (X : exactly (fun k => stored ttl k cs) x).
    { apply (run_exactly ttl (Z.max capacity 1) ks cs (fun _ => None) x0 W0); [intros k'; by rewrite I0|rewrite I0; set_solver|done|done]. }
    unfold peek, aged. rewrite peek_iter, X. destruct (stored ttl k cs) as [e|]; [|done]. by rewrite Et.
Qed.

(** What is drained is what the time to live has run out for. *)
Lemma drained_spec now x : NoDup ((iter (inner x)).*1) ->
  (drain_expired now x).2 = (fun kv => (kv.1, kv.2.1)) <$> List.filter (fun kv => aged now x kv.2) (iter (inner x)) /\
  inner (drain_expired now x).1 = inner (evict_expired now x).
Proof.
  intros N. unfold drain_expired, drain_expired_into.
  assert (G : forall ks (c : C) out, (forall k e, (k, e) ∈ ks -> entry k (iter c) = Some e) -> NoDup ks.*1 -> NoDup ((iter c).*1) ->
    fold_left (fun '(c, out) k => let (c, e) := pop k c in (c, match e with Some (v, _) => out ++ [(k, v)] | None => out end)) ks.*1 (c, out)
    = (fold_left (fun c k => (pop k c).1) ks.*1 c, out ++ ((fun kv : K * (V * Timestamp.t) => (kv.1, kv.2.1)) <$> ks))).
  { induction ks as [|[k [v ts]] ks IH]; intros c out In Nk Nc; [by rewrite app_nil_r|]. apply NoDup_cons in Nk as [Nk1 Nk2].
    pose proof (pop_result (C := C) k c) as Er. rewrite (In k (v, ts)) in Er by left. pose proof (iter_pop (C := C) k c) as Ei.
    cbn [fmap list_fmap fold_left fst snd]. destruct (pop k c) as [c' o] eqn:Ep. cbn [fst snd] in *. subst o.
    change (pop k c) with (pop k c) in *. rewrite IH; [by rewrite <- app_assoc| |done|rewrite Ei; by apply nodup_without].
    intros k' e I. rewrite Ei, entry_without by done. rewrite decide_False; [apply In; by right|]. intros ->. apply Nk1, list_elem_of_fmap. by exists (k, e). }
  unfold expired_keys. rewrite G; [done| | |done].
  - intros k e I. apply list_elem_of_In, filter_In in I as [I _]. apply elem_entry; [done|by apply list_elem_of_In].
  - generalize dependent (iter (inner x)). intros l N. clear -N. induction l as [|kv l IH]; [constructor|]. apply NoDup_cons in N as [N1 N2]. cbn.
    destruct (aged now x kv.2); [|by apply IH]. cbn. constructor; [|by apply IH]. intros I. apply N1. apply list_elem_of_fmap in I as (kv' & -> & I).
    apply list_elem_of_In, filter_In in I as [I _]. apply list_elem_of_fmap. exists kv'. split; [done|by apply list_elem_of_In].
Qed.
End key_indexed.
End KeyIndexedProps.

(** ** State per flow *)
Module FlowStateProps.
Import FlowStateMap.
Section flow_state.
Context {K T C : Type} `{EqDecision K} `{!Lru K (T * Timestamp.t) C, !LruLaws K (T * Timestamp.t) C}.
Variable init : T.
Implicit Types (x : FlowStateMap.t C) (k : K).

Inductive Call := CSlot (key : K) (now : Timestamp.t) (f : T -> T) | CFeed (event : FlowEvent K) | CSweep (now : Timestamp.t).
Definition step (c : Call) x : option (FlowStateMap.t C) :=
  match c with
  | CSlot key now f => get_or_default init key now f x
  | CFeed event => Some (feed event x)
  | CSweep now => Some (sweep now x)
  end.
Fixpoint run (cs : list Call) x : option (FlowStateMap.t C) :=
  match cs with [] => Some x | c :: cs => match step c x with Some x => run cs x | None => None end end.
Notation within ttl x := (KeyIndexedProps.within ttl U64_MAX (inner x)).

Lemma inserted_within ttl key (v : T) ts (c : KeyIndexed.t C) : KeyIndexedProps.within ttl U64_MAX c ->
  KeyIndexedProps.within ttl U64_MAX (KeyIndexed.insert key v ts c) /\
  entry key (iter (KeyIndexed.inner (KeyIndexed.insert key v ts c))) = Some (v, ts).
Proof.
  intros W. split; [by apply (KeyIndexedProps.step_within ttl U64_MAX (KeyIndexedProps.CInsert key v ts))|].
  destruct W as (Et & N & H1 & Cp & L). unfold KeyIndexed.insert. cbn. rewrite iter_push, Cp.
  by destruct (push_front_facts U64_MAX key (v, ts) (iter (KeyIndexed.inner c)) H1 N L) as (_ & _ & E & _).
Qed.
Lemma removed_within ttl key (c : KeyIndexed.t C) : KeyIndexedProps.within ttl U64_MAX c ->
  KeyIndexedProps.within ttl U64_MAX (KeyIndexed.remove key c).1 /\
  (KeyIndexed.remove key c).2 = fst <$> entry key (iter (KeyIndexed.inner c)) /\
  entry key (iter (KeyIndexed.inner (KeyIndexed.remove key c).1)) = None.
Proof.
  intros W. split; [by apply (KeyIndexedProps.step_within ttl U64_MAX (KeyIndexedProps.CRemove key))|]. destruct W as (_ & N & _).
  unfold KeyIndexed.remove. pose proof (pop_result (C := C) key (KeyIndexed.inner c)) as Er. pose proof (iter_pop (C := C) key (KeyIndexed.inner c)) as Ei.
  destruct (pop key (KeyIndexed.inner c)) as [c' o]. cbn in *. rewrite Er, Ei, entry_without by done. by rewrite decide_True.
Qed.
Lemma refresh_within ttl key ts x : within ttl x -> within ttl (refresh key ts x) /\
  entry key (iter (KeyIndexed.inner (inner (refresh key ts x)))) = (fun e => (e.1, ts)) <$> entry key (iter (KeyIndexed.inner (inner x))).
Proof.
  intros W. unfold refresh. destruct (removed_within ttl key (inner x) W) as (W' & Er & E').
  destruct (KeyIndexed.remove key (inner x)) as [c v]. cbn [fst snd] in *. subst v.
  destruct (entry key (iter (KeyIndexed.inner (inner x)))) as [e|]; cbn; [by apply inserted_within|done].
Qed.
Lemma slot_spec ttl key now f x : 0 <= ttl -> within ttl x ->
  exists x', get_or_default init key now f x = Some x' /\ within ttl x' /\ get key now x' = Some (f (default init (get key now x))).
Proof.
  intros Ht W. unfold get_or_default. set (x1 := match KeyIndexed.peek key now (inner x) with Some _ => _ | None => _ end).
  assert (within ttl x1 /\ entry key (iter (KeyIndexed.inner (inner x1))) = Some (default init (get key now x), now)) as [W1 E1].
  { unfold x1, get. destruct (KeyIndexed.peek key now (inner x)) as [v|] eqn:P; cbn [default]; [|by apply inserted_within].
    destruct (refresh_within ttl key now x W) as [W1 E1]. split; [done|]. rewrite E1. unfold KeyIndexed.peek in P. rewrite peek_iter in P.
    destruct (entry key (iter (KeyIndexed.inner (inner x)))) as [e|]; [|done]. destruct (KeyIndexed.aged now (inner x) e); [done|]. injection P as <-. by destruct e. }
  clearbody x1. pose proof W1 as (Et & N & _). unfold KeyIndexed.get_mut. rewrite peek_iter, E1.
  assert (A : forall v : T, KeyIndexed.aged now (inner x1) (v, now) = false).
  { intros v. unfold KeyIndexed.aged, sat_sub. cbn [snd]. rewrite Z.sub_diag, Et. apply Z.ltb_ge. lia. }
  rewrite A. eexists. split; [done|]. split; [by apply KeyIndexedProps.promoted|]. unfold get, KeyIndexed.peek. cbn [inner KeyIndexed.inner upd]. cbn.
  rewrite peek_iter, iter_get_mut, entry_promote by done. rewrite decide_True, E1 by done. cbn.
  match goal with |- context [KeyIndexed.aged now ?c ?e] => change (KeyIndexed.aged now c e) with (KeyIndexed.aged now (inner x1) e) end. by rewrite A.
Qed.
Lemma flow_step_within ttl c x : 0 <= ttl -> within ttl x -> exists x', step c x = Some x' /\ within ttl x'.
Proof.
  intros Ht W. destruct c as [key now f|event|now]; cbn [step].
  - destruct (slot_spec ttl key now f x Ht W) as (x' & E & W' & _). by exists x'.
  - eexists. split; [done|]. destruct event; cbn [feed]; try (by apply refresh_within); try done. by apply removed_within.
  - eexists. split; [done|]. by apply (KeyIndexedProps.step_within ttl U64_MAX (KeyIndexedProps.CEvict now)).
Qed.

(** The slot of a flow is always there.  Whatever slots are
    taken, events fed and sweeps made, no call panics; [get_or_default] lends
    the slot's live value, or the default one, and what the caller makes of
    it is what [get] then finds; and an ended flow has no slot. *)
Theorem flow_state_total idle_timeout cs : 0 <= idle_timeout ->
  exists x, run cs (FlowStateMap.new idle_timeout) = Some x /\
  (forall key now f, exists x', get_or_default init key now f x = Some x' /\
     get key now x' = Some (f (default init (get key now x)))) /\
  (forall key now reason stats history l4, get key now (feed (Ended key reason stats history l4) x) = None).
Proof.
  intros Ht. assert (R : exists x, run cs (FlowStateMap.new idle_timeout) = Some x /\ within idle_timeout x).
  { assert (W0 : within idle_timeout (FlowStateMap.new (C := C) idle_timeout)).
    { unfold KeyIndexedProps.within. cbn. autorewrite with lru. rewrite zlen_nil. unfold U64_MAX. split_and!; [done|constructor|lia|done|lia]. }
    revert W0. generalize (FlowStateMap.new (C := C) idle_timeout). induction cs as [|c cs IH]; intros x W; [by exists x|].
    destruct (flow_step_within idle_timeout c x Ht W) as (x' & E & W'). cbn [run]. rewrite E. by apply IH. }
  destruct R as (x & E & W). exists x. split; [done|]. split.
  - intros key now f. destruct (slot_spec idle_timeout key now f x Ht W) as (x' & E' & _ & G). by exists x'.
  - intros key now reason stats history l4. destruct (removed_within idle_timeout key (inner x) W) as (_ & _ & E').
    unfold get, KeyIndexed.peek, feed. cbn. by rewrite peek_iter, E'.
Qed.
End flow_state.
End FlowStateProps.

(** ** Bursts *)
Module BurstProps.
Import BurstDetector.
Section burst.
Context {K E : Type} `{Countable K} `{EqDecision E}.
Implicit Types (b : BurstDetector.t K E) (k : K) (q : list Timestamp.t).
Notation event := (K * E * Timestamp.t)%type.

Definition run (es : list event) b : BurstDetector.t K E := fold_left (fun b e => (observe e.1.1 e.1.2 e.2 b).1) es b.
(** The times of the burst events of a key. *)
Definition bursts (kind : E) (k : K) (es : list event) : list Timestamp.t :=
  (List.filter (fun e => bool_decide (e.1.1 = k) && bool_decide (e.1.2 = kind)) es).*2.
Fixpoint no_earlier (t : Timestamp.t) (es : list event) : Prop :=
  match es with [] => True | e :: es => proper e.2 /\ dur t <= dur e.2 /\ no_earlier e.2 es end.
Fixpoint in_order q : Prop := match q with [] => True | t :: q => proper t /\ Forall (fun t' => dur t <= dur t') q /\ in_order q end.

Lemma in_order_drop (p : Timestamp.t -> bool) q : in_order q -> in_order (pop_front_while p q).
Proof. induction q as [|t q IH]; [done|]. intros (P & F & I). cbn. case_if; [by apply IH|by split_and!]. Qed.
Lemma in_order_snoc q t : in_order q -> proper t -> Forall (fun t' => dur t' <= dur t) q -> in_order (q ++ [t]).
Proof.
  induction q as [|t' q IH]; intros I P F; cbn; [by split_and!; [|constructor|]|]. destruct I as (P' & F' & I). apply Forall_cons in F as [L F].
  split_and!; [done| |by apply IH]. apply Forall_app. split; [done|]. by constructor.
Qed.
Lemma dropped_in_window w now q : 0 <= w -> proper now -> in_order q -> Forall (fun t => before t (cutoff_for w now) = false) (drop_expired q now w).
Proof.
  intros Hw Pn. unfold drop_expired. induction q as [|t q IH]; intros I; [constructor|]. destruct I as (P & F & I). cbn.
  destruct (before t (cutoff_for w now)) eqn:B; [by apply IH|]. constructor; [done|]. rewrite before_dur in B by (done || apply cutoff_proper).
  assert (Q : Forall proper q).
  { clear -I. induction q as [|t q IH]; [constructor|]. destruct I as (P & _ & I). constructor; auto. }
  eapply Forall_impl; [apply Forall_and; split; [exact F|exact Q]|]. cbn. intros t' [L P']. rewrite before_dur by (done || apply cutoff_proper).
  apply Z.ltb_ge in B. apply Z.ltb_ge. lia.
Qed.
Lemma dropped_sublist w now q l : q `sublist_of` l -> drop_expired q now w `sublist_of` l.
Proof.
  intros S. unfold drop_expired. destruct (pop_front_split (fun t => before t (cutoff_for w now)) q) as (l0 & Eq & _).
  etrans; [|exact S]. rewrite Eq at 2. by apply sublist_inserts_l.
Qed.
(** Each queue is part of the burst events of its key, in the order of time. *)
Definition tracks (es : list event) (t : Timestamp.t) b : Prop :=
  forall k q, state b !! k = Some q -> q `sublist_of` bursts (burst_kind b) k es /\ in_order q /\ Forall (fun t' => dur t' <= dur t) q.
Lemma bursts_snoc kind k es e : bursts kind k (es ++ [e]) =
  bursts kind k es ++ (if bool_decide (e.1.1 = k) && bool_decide (e.1.2 = kind) then [e.2] else []).
Proof. unfold bursts. rewrite List.filter_app, fmap_app. cbn. by case_match. Qed.
Lemma observe_shape k e now b : let b' := (observe k e now b).1 in
  burst_kind b' = burst_kind b /\ threshold b' = threshold b /\ window b' = window b /\ trigger_kind b' = trigger_kind b.
Proof. unfold observe, fire. repeat case_match; done. Qed.
(** The queue of the key an event is about, once stale times are dropped. *)
Definition fresh k now b : list Timestamp.t := match state b !! k with Some q => drop_expired q now (window b) | None => [] end.
Lemma observe_queue k e now b : state (observe k e now b).1 !! k =
    (if bool_decide (e = burst_kind b) then
       let q := fresh k now b ++ [now] in
       Some (if negb (is_some (trigger_kind b)) && (u32 (zlen q) =? threshold b) then [] else q)
     else if bool_decide (trigger_kind b = Some e) then
       (fun q => if threshold b <=? u32 (zlen q) then [] else q) <$> ((fun _ => fresh k now b) <$> state b !! k)
     else (fun _ => fresh k now b) <$> state b !! k) /\
  (forall k', k' <> k -> state (observe k e now b).1 !! k' = state b !! k') /\
  (forall hit, (observe k e now b).2 = Some hit -> BurstHit.key hit = k /\
     let q := fresh k now b ++ (if bool_decide (e = burst_kind b) then [now] else []) in
     BurstHit.burst_count hit = u32 (zlen q) /\ threshold b <= u32 (zlen q)).
Proof.
  unfold observe, fresh, fire. destruct (state b !! k) as [q|] eqn:Es; cbn [burst_kind threshold window trigger_kind state upd]; cbn;
    destruct (bool_decide (e = burst_kind b)); cbn; rewrite ?lookup_insert_eq, ?Es; cbn.
  all: repeat match goal with |- context [if ?c then _ else _] => let E := fresh "E" in destruct c eqn:E; cbn end.
  all: rewrite ?lookup_insert_eq, ?Es, ?app_nil_r; cbn.
  all: split_and!; try done; try (intros k' Nk; by rewrite ?lookup_insert_ne); intros hit; try done; intros [= <-]; zb; cbn; split_and!; try done; try lia.
Qed.
Lemma fresh_tracks es t k now b : 0 <= window b -> proper now -> dur t <= dur now -> tracks es t b ->
  fresh k now b `sublist_of` bursts (burst_kind b) k es /\ in_order (fresh k now b) /\ Forall (fun t' => dur t' <= dur now) (fresh k now b).
Proof.
  intros Hw Pn L Tr. unfold fresh. destruct (state b !! k) as [q|] eqn:Ek; [|split_and!; [apply sublist_nil_l|done|constructor]].
  destruct (Tr k q Ek) as (S & I & F). split_and!; [by apply dropped_sublist|by apply in_order_drop|].
  destruct (pop_front_split (fun t => before t (cutoff_for (window b) now)) q) as (l0 & Eq & _). unfold drop_expired. rewrite Eq in F.
  apply Forall_app in F as [_ F]. eapply Forall_impl; [exact F|]. cbn. lia.
Qed.
Lemma observe_tracks es t k e now b : 0 <= window b -> proper now -> dur t <= dur now -> tracks es t b ->
  tracks (es ++ [(k, e, now)]) now (observe k e now b).1.
Proof.
  intros Hw Pn L Tr k' q. destruct (observe_shape k e now b) as (Ek & _). rewrite Ek, bursts_snoc. cbn [fst snd].
  destruct (observe_queue k e now b) as (Q1 & Q2 & _). destruct (fresh_tracks es t k now b Hw Pn L Tr) as (S & I & F).
  destruct (decide (k' = k)) as [->|Nk].
  - rewrite Q1. rewrite (bool_decide_eq_true_2 (k = k)) by done. cbn [andb]. destruct (bool_decide (e = burst_kind b)) eqn:Eb.
    + intros [= <-]. destruct (negb _ && _); [split_and!; [apply sublist_nil_l|done|constructor]|].
      split_and!; [by apply sublist_app|by apply in_order_snoc|]. apply Forall_app. split; [done|]. by constructor.
    + rewrite app_nil_r. assert (G : forall q', q' = fresh k now b \/ q' = [] ->
        q' `sublist_of` bursts (burst_kind b) k es /\ in_order q' /\ Forall (fun t' => dur t' <= dur now) q').
      { intros q' [->| ->]; [done|]. split_and!; [apply sublist_nil_l|done|constructor]. }
      destruct (bool_decide (trigger_kind b = Some e)); destruct (state b !! k); cbn; try done; intros [= <-]; apply G; [|by left].
      destruct (_ <=? _); [by right|by left].
  - rewrite Q2 by done. rewrite (bool_decide_eq_false_2 (k = k')) by done. cbn [andb]. rewrite app_nil_r. intros Hq.
    destruct (Tr k' q Hq) as (S' & I' & F'). split_and!; [done|done|]. eapply Forall_impl; [exact F'|]. cbn. lia.
Qed.
Lemma run_tracks l : forall es t b, 0 <= window b -> no_earlier t l -> tracks es t b ->
  exists t', tracks (es ++ l) t' (run l b) /\ (forall e, no_earlier t (l ++ [e]) -> proper e.2 /\ dur t' <= dur e.2) /\
    window (run l b) = window b /\ burst_kind (run l b) = burst_kind b /\ threshold (run l b) = threshold b.
Proof.
  induction l as [|[[k e] now] l IH]; intros es t b Hw N Tr.
  - exists t. rewrite app_nil_r. split_and!; [done| |done|done|done]. intros e (P & L & _). done.
  - destruct N as (P & L & N). destruct (observe_shape k e now b) as (E1 & E2 & E3 & E4).
    destruct (IH (es ++ [(k, e, now)]) now (observe k e now b).1) as (t' & Tr' & G & F1 & F2 & F3); [by rewrite E3|done|by apply (observe_tracks es t)|].
    exists t'. rewrite <- app_assoc in Tr'. change (run ((k, e, now) :: l) b) with (run l (observe k e now b).1). rewrite F1, F2, F3.
    split_and!; [done| |done..]. intros e' (_ & _ & N'). by apply G.
Qed.

(** A burst detector never cries wolf.  For events in the order of
    time, a hit names the key of the event and counts at least the threshold,
    and that many events of the burst kind for that key lie within the window
    that ends at the hit, the event itself included. *)
Theorem burst_hit_sound kind n w trigger (es : list event) k e now hit :
  0 <= w -> no_earlier Timestamp.default (es ++ [(k, e, now)]) ->
  (observe k e now (run es (BurstDetector.new kind n w trigger))).2 = Some hit ->
  BurstHit.key hit = k /\ n <= BurstHit.burst_count hit /\
  BurstHit.burst_count hit <=
    zlen (List.filter (fun t => negb (before t (cutoff_for w now))) (bursts kind k (es ++ [(k, e, now)]))).
Proof.
  intros Hw N Hh. set (b0 := BurstDetector.new kind n w trigger) in *.
  assert (T0 : tracks [] Timestamp.default b0) by (intros k' q; cbn; by rewrite lookup_empty).
  assert (N0 : no_earlier Timestamp.default es).
  { revert N. clear. generalize Timestamp.default. induction es as [|e' es IH]; intros t; [done|]. cbn. intros (? & ? & ?). split_and!; [done|done|by apply IH]. }
  destruct (run_tracks es [] Timestamp.default b0 Hw N0 T0) as (t' & Tr & G & E1 & E2 & E3). destruct (G _ N) as [Pn L]. cbn [snd] in Pn, L.
  set (b := run es b0) in *. change (window b0) with w in E1. change (burst_kind b0) with kind in E2. change (threshold b0) with n in E3.
  destruct (observe_queue k e now b) as (_ & _ & Q). destruct (Q hit Hh) as (K1 & K2 & K3). cbv zeta in K2, K3. rewrite E3 in K3.
  split; [done|]. rewrite K2. split; [done|]. destruct (fresh_tracks es t' k now b) as (S & I & F); [by rewrite E1|done|done|done|].
  set (q := fresh k now b ++ (if bool_decide (e = burst_kind b) then [now] else [])) in *.
  assert (Sq : q `sublist_of` bursts kind k (es ++ [(k, e, now)])).
  { rewrite bursts_snoc. cbn [fst snd]. rewrite (bool_decide_eq_true_2 (k = k)) by done. rewrite <- E2. by apply sublist_app. }
  assert (Fq : Forall (fun t => negb (before t (cutoff_for w now)) = true) q).
  { assert (Pt : negb (before now (cutoff_for w now)) = true).
    { rewrite before_dur by (done || apply cutoff_proper). rewrite cutoff_dur by done. apply negb_true_iff, Z.ltb_ge. unfold sat_sub.
      pose proof (dur_range now Pn). lia. }
    apply Forall_app. split; [|destruct (bool_decide _); repeat constructor; exact Pt].
    unfold fresh. destruct (state b !! k) as [q0|] eqn:E0; [|constructor]. destruct (Tr k q0 E0) as (_ & I0 & _).
    eapply Forall_impl; [apply (dropped_in_window (window b) now q0); [by rewrite E1|done|done]|]. cbn. rewrite E1. by intros t ->. }
  assert (zlen q <= zlen (List.filter (fun t => negb (before t (cutoff_for w now))) (bursts kind k (es ++ [(k, e, now)])))).
  { clear -Sq Fq. revert Fq. induction Sq as [|t l1 l2 _ IH|t l1 l2 _ IH]; intros Fq; [done| |].
    - apply Forall_cons in Fq as [Et Fq]. cbn. rewrite Et, !zlen_cons. specialize (IH Fq). lia.
    - specialize (IH Fq). cbn. case_match; rewrite ?zlen_cons; lia. }
  assert (u32 (zlen q) <= zlen q); [|lia]. unfold u32. apply Z.mod_le; [apply zlen_nonneg|done].
Qed.
End burst.
End BurstProps.

(** ** On concrete calls *)
Section demo.
Notation at_sec s := (Timestamp.mk s 0).
Notation seen_cache := (ListLru.t Z FirstSeen.Seen.t).
Import FirstSeenProps.

(** A set of two keys with a time to live of ten seconds. *)
Definition sightings : list (Call (K := Z)) :=
  [CObserve 1 (at_sec 0); CObserve 2 (at_sec 4); CObserve 1 (at_sec 9); CEvict (at_sec 11); CObserve 2 (at_sec 30); CObserve 1 (at_sec 18)].
Notation seen_set := (run (C := seen_cache) sightings (FirstSeen.new (from_secs 10) 2)).
Lemma first_seen_one_sided_witness :
  FirstSeen.first_seen 1 (at_sec 20) seen_set = Some (at_sec 0) /\ FirstSeen.seen 2 (at_sec 50) seen_set = false.
Proof.
  destruct (first_seen_one_sided (C := seen_cache) (from_secs 10) 2 sightings) as (_ & _ & X & _).
  destruct (X [1; 2] ltac:(cbn; set_solver) ltac:(done) 1 (at_sec 20)) as [_ E1].
  destruct (X [1; 2] ltac:(cbn; set_solver) ltac:(done) 2 (at_sec 50)) as [E2 _].
  rewrite E1, E2. split; vm_compute; reflexivity.
Defined.

Notation index_cache := (ListLru.t Z (Z * Timestamp.t)).
Definition index_calls : list (KeyIndexedProps.Call (K := Z) (V := Z)) :=
  [KeyIndexedProps.CInsert 1 10 (at_sec 0); KeyIndexedProps.CInsert 2 20 (at_sec 3); KeyIndexedProps.CGetMut 1 (at_sec 4) (Z.add 1);
   KeyIndexedProps.CGet 2 (at_sec 5); KeyIndexedProps.CEvict (at_sec 12)].
Lemma key_index_sound_witness :
  KeyIndexed.peek 2 (at_sec 12) (KeyIndexedProps.run (C := index_cache) index_calls (KeyIndexed.new (from_secs 10) 2)) = Some 20.
Proof.
  destruct (KeyIndexedProps.key_index_sound (C := index_cache) (from_secs 10) 2 index_calls) as (_ & _ & _ & X).
  rewrite (X [1; 2] ltac:(cbn; set_solver) ltac:(done)). vm_compute. reflexivity.
Defined.

Lemma flow_state_total_witness :
  exists x, FlowStateProps.run (C := index_cache) 0
    [FlowStateProps.CSlot 1 (at_sec 0) (Z.add 5); FlowStateProps.CFeed (Tick 1 FlowStats.default (at_sec 8));
     FlowStateProps.CSlot 1 (at_sec 15) (Z.add 6)] (FlowStateMap.new (from_secs 10)) = Some x.
Proof.
  destruct (FlowStateProps.flow_state_total (C := index_cache) 0 (from_secs 10)
    [FlowStateProps.CSlot 1 (at_sec 0) (Z.add 5); FlowStateProps.CFeed (Tick 1 FlowStats.default (at_sec 8));
     FlowStateProps.CSlot 1 (at_sec 15) (Z.add 6)]) as (x & E & _); [unfold from_secs, NANOS; lia|]. by exists x.
Defined.

(** Three failures in ten seconds. *)
Definition failures : list (Z * Z * Timestamp.t) :=
  [(7, 1, at_sec 0); (7, 1, at_sec 4); (8, 1, at_sec 5); (7, 1, at_sec 12)].
Lemma burst_hit_sound_witness :
  3 <= zlen (List.filter (fun t => negb (before t (cutoff_for (from_secs 10) (at_sec 13)))) (BurstProps.bursts 1 7 (failures ++ [(7, 1, at_sec 13)]))).
Proof.
  destruct (BurstProps.burst_hit_sound 1 3 (from_secs 10) None failures 7 1 (at_sec 13) (BurstDetector.BurstHit.mk _ 7 3 (at_sec 13)))
    as (_ & L1 & L2); [unfold from_secs, NANOS; lia| |vm_compute; reflexivity|].
  - unfold failures, proper, U32_MAX, Timestamp.to_duration, NANOS. cbn. split_and!; (lia || done).
  - cbn in L1, L2. etrans; [exact L1|exact L2].
Defined.

(** A binding seen again keeps the age of its first sighting: a host that
    answers every five seconds is forgotten after ten, and the change of its
    address right after passes for a new binding. *)
Lemma neighbor_forgotten :
  let x0 := NeighborTable.new (C := ListLru.t Z (NeighborTable.NeighborBinding.t Z * Timestamp.t)) (from_secs 10) 8 in
  let x1 := (NeighborTable.observe 1 100 (at_sec 0) x0).1 in
  let x2 := (NeighborTable.observe 1 100 (at_sec 6) x1).1 in
  (NeighborTable.observe 1 200 (at_sec 7) x2).2 = NeighborTable.Changed 100 200 /\
  (NeighborTable.observe 1 200 (at_sec 11) x2).2 = NeighborTable.NewBinding 200.
Proof. vm_compute. done. Qed.
(** [StateChange] names its flow and its time and refreshes nothing. *)
Lemma state_change_not_refreshed :
  let x0 := FlowStateMap.new (C := index_cache) (from_secs 10) in
  option_map (fun x => FlowStateMap.get 1 (at_sec 12) (FlowStateMap.feed (StateChange 1 Established FinWait (at_sec 9)) x))
    (FlowStateMap.get_or_default 0 1 (at_sec 0) (Z.add 5) x0) = Some None.
Proof. vm_compute. reflexivity. Qed.
End demo.
