(* ===== verification/Http2Session.v ===== *)
(** * HTTP/2 as a session parser, and gRPC (src/src/http2/session.rs, grpc.rs)

    [Http2Session] feeds the parser in a loop, as much as it accepts at a
    time, and polls its events after each push.  Here too: how the bytes of
    a direction are cut has no effect at all, whatever the parser's caps. *)

From stdpp Require Import gmap.
From S2P Require Import Prelude Time Flow Text ParserKind Http2Error Hpack Http2Frame Http2Stream Http2StreamFacts Http2Props HpackEncode Parser.
Import Http2Parser HpackFacts FrameFacts.
Open Scope Z_scope.

(** [while let Some(ev) = next_event() { out.push(ev) }], one round per
    queued event and the last one. *)
Fixpoint poll (fuel : nat) (p : Http2Parser.t) (out : list Http2Event) : Http2Parser.t * list Http2Event :=
  match fuel with
  | O => (p, out)
  | S fuel => match next_event p with (p, Some ev) => poll fuel p (out ++ [ev]) | (p, None) => (p, out) end
  end.
Definition poll_all (p : Http2Parser.t) : Http2Parser.t * list Http2Event := poll (S (length (events p))) p [].

Module Http2Session.
Record t := mk { inner : Http2Parser.t }.
#[global] Instance eta : Eta t := mk_eta (fun s => mk (inner s)).
Definition with_config (c : Http2Config.t) : t := mk (Http2Parser.with_config c).
Definition new : t := with_config (Http2Config.with_require_preface false Http2Config.default).

(** A round accepts a byte at least, or is the last. *)
Fixpoint feed_loop (fuel : nat) (dir : FlowSide) (data : list Z) (p : Http2Parser.t) (out : list Http2Event)
    : Http2Parser.t * list Http2Event :=
  match fuel with
  | O => (p, out)
  | S fuel =>
      let (p, accepted) := push dir data p in
      let (p, evs) := poll_all p in
      let out := out ++ evs in
      if accepted =? zlen data then (p, out)
      else if accepted =? 0 then (p, out)
      else feed_loop fuel dir (zdrop accepted data) p out
  end.
Definition feed (dir : FlowSide) (bytes : list Z) (s : t) : t * list Http2Event :=
  if is_nil bytes then (s, [])
  else let (p, out) := feed_loop (length bytes) dir bytes (inner s) [] in (s <| inner := p |>, out).
Definition rebuild (s : t) : t := s <| inner ::= fun p => Http2Parser.with_config (config p) |>.
Definition fin_side (dir : FlowSide) (s : t) : t * list Http2Event :=
  let (p, out) := poll_all (fin dir (inner s)) in (s <| inner := p |>, out).
#[global] Instance session_parser : SessionParser t Http2Event := {
  feed_initiator bytes _ s := feed Initiator bytes s;
  feed_responder bytes _ s := feed Responder bytes s;
  fin_initiator := fin_side Initiator; fin_responder := fin_side Responder;
  rst_initiator := rebuild; rst_responder := rebuild;
  on_tick := SessionParserDefaults.on_tick;
  on_gap _ _ _ s := (s, [], Parser.Stop);
  is_poisoned s := is_failed (inner s);
  poison_reason s := (fun e => bstr (Http2Error.as_str e)) <$> error (inner s);
  is_done s := Http2Parser.is_done (inner s);
  parser_kind _ := ParserKind.Http2 }.
End Http2Session.

(** ** gRPC *)
Module GrpcCall.
Record t := mk { service : list Z; method : list Z }.
(** ['/'] is 47. *)
Definition parse_path (path : list Z) : option t :=
  match strip_prefix [47] path with
  | Some rest =>
      match split_once 47 rest with
      | Some (service, method) =>
          if is_nil service || is_nil method || bool_decide (47 ∈ method) then None else Some (mk service method)
      | None => None
      end
  | None => None
  end.
End GrpcCall.
(** ['+'] is 43 and [';'] is 59. *)
Definition is_grpc_content_type (value : list Z) : bool :=
  match strip_prefix (bstr "application/grpc") value with
  | Some [] => true
  | Some (b :: _) => (b =? 43) || (b =? 59)
  | None => false
  end.
Definition grpc_call (h : StreamHead.t) : option GrpcCall.t :=
  match StreamHead.field (bstr "content-type") h with
  | Some content_type =>
      if negb (is_grpc_content_type content_type) then None
      else match StreamHead.path h with Some path => GrpcCall.parse_path path | None => None end
  | None => None
  end.

(** [str::trim]: [White_Space] in UTF-8, one to three bytes each. *)
Definition is_space2 (b c : Z) : bool := (b =? 0xC2) && ((c =? 0x85) || (c =? 0xA0)).
Definition is_space3 (b c d : Z) : bool :=
  ((b =? 0xE1) && (c =? 0x9A) && (d =? 0x80))
  || ((b =? 0xE2) && (c =? 0x80) && (((0x80 <=? d) && (d <=? 0x8A)) || (d =? 0xA8) || (d =? 0xA9) || (d =? 0xAF)))
  || ((b =? 0xE2) && (c =? 0x81) && (d =? 0x9F)) || ((b =? 0xE3) && (c =? 0x80) && (d =? 0x80)).
Definition is_space1 (b : Z) : bool := ((9 <=? b) && (b <=? 13)) || (b =? 32).
Fixpoint trim_start (s : list Z) : list Z :=
  match s with
  | [] => []
  | b :: s1 =>
      if is_space1 b then trim_start s1
      else
        match s1 with
        | c :: s2 =>
            if is_space2 b c then trim_start s2
            else match s2 with d :: s3 => if is_space3 b c d then trim_start s3 else s | [] => s end
        | [] => s
        end
  end.
(** The same on the reversed string. *)
Fixpoint trim_start_rev (s : list Z) : list Z :=
  match s with
  | [] => []
  | b :: s1 =>
      if is_space1 b then trim_start_rev s1
      else
        match s1 with
        | c :: s2 =>
            if is_space2 c b then trim_start_rev s2
            else match s2 with d :: s3 => if is_space3 d c b then trim_start_rev s3 else s | [] => s end
        | [] => s
        end
  end.
Definition trim (s : list Z) : list Z := rev (trim_start_rev (rev (trim_start s))).

Module GrpcStatus.
Record t := mk { code : Z; message : option (list Z) }.
Definition is_ok (s : t) : bool := code s =? 0.
Definition NAMES : list String.string :=
  ["OK"; "CANCELLED"; "UNKNOWN"; "INVALID_ARGUMENT"; "DEADLINE_EXCEEDED"; "NOT_FOUND"; "ALREADY_EXISTS";
   "PERMISSION_DENIED"; "RESOURCE_EXHAUSTED"; "FAILED_PRECONDITION"; "ABORTED"; "OUT_OF_RANGE"; "UNIMPLEMENTED";
   "INTERNAL"; "UNAVAILABLE"; "DATA_LOSS"; "UNAUTHENTICATED"]%string.
Definition name (s : t) : option String.string := NAMES !! Z.to_nat (code s).
End GrpcStatus.
Definition grpc_status (fields : list Field) : option GrpcStatus.t :=
  match find_field (bstr "grpc-status") fields with
  | Some code =>
      if utf8_valid code then
        match parse_uint U32_MAX (trim code) with
        | Some code => Some (GrpcStatus.mk code (find_field (bstr "grpc-message") fields))
        | None => None
        end
      else None
  | None => None
  end.
Definition grpc_status_of (h : StreamHead.t) : option GrpcStatus.t := grpc_status (StreamHead.fields h).

(** ** Facts *)
(** A gRPC path is a slash, a service and a method with a slash between
    them, neither empty and neither with a slash of its own. *)
Lemma grpc_path_exact path service method :
  GrpcCall.parse_path path = Some (GrpcCall.mk service method) <->
  path = 47 :: service ++ 47 :: method /\ service <> [] /\ method <> [] /\ 47 ∉ service /\ 47 ∉ method.
Proof.
  unfold GrpcCall.parse_path. split.
  - destruct path as [|b path]; [done|]. cbn [strip_prefix]. destruct (Z.eqb_spec 47 b) as [<-|N]; [|done].
    destruct (split_once 47 path) as [[sv me]|] eqn:E; [|done]. apply split_once_spec in E as [-> Ns].
    destruct (is_nil sv) eqn:E1; [done|]. destruct (is_nil me) eqn:E2; [done|]. cbn [orb]. case_bool_decide as I; [done|].
    intros [= <- <-]. split_and!; try done; by intros ->.
  - intros (-> & Hs & Hm & Ns & Nm). cbn [strip_prefix]. rewrite Z.eqb_refl, (proj2 (split_once_spec 47 _ service method)) by done.
    rewrite bool_decide_false by done. by destruct service, method.
Qed.

(** ** Events are write-only *)
Definition pre (evs : list Http2Event) (p : Http2Parser.t) : Http2Parser.t := p <| events ::= app evs |>.
Lemma lift_then g o k : (forall p, k (g p) = lift g (k p)) -> then_ (lift g o) k = lift g (then_ o k).
Proof. intros H. destruct o as [p [e|]]; [done|]. apply H. Qed.
Lemma event_pre evs e p : push_event e (pre evs p) = pre evs (push_event e p).
Proof. destruct p. unfold push_event, pre, upd. cbn. f_equal. symmetry. apply app_assoc. Qed.
Lemma finish_pre evs id side p : finish_stream id side (pre evs p) = pre evs (finish_stream id side p).
Proof. unfold finish_stream. rewrite event_pre. by destruct side. Qed.
Lemma mut_pre evs side g p : dir_mut side g (pre evs p) = pre evs (dir_mut side g p).
Proof. by destruct side. Qed.
Lemma complete_pre evs side id block e p :
  complete_block side id block e (pre evs p) = lift (pre evs) (complete_block side id block e p).
Proof.
  unfold complete_block. assert (dir side (pre evs p) = dir side p) as -> by by destruct side.
  destruct (HpackDecoder.decode _ block) as [res table]. cbv zeta. rewrite mut_pre.
  generalize (dir_mut side (fun d => d <| DirState.hpack := table |>) p). intros q. destruct res as [fs|err]; [|done].
  change (streams (pre evs q)) with (streams q). change (config (pre evs q)) with (config q). case_if; [done|].
  destruct (StreamState.mark_head _ _) as [st tr].
  change (pre evs q <| streams ::= <[id:=st]> |>) with (pre evs (q <| streams ::= <[id:=st]> |>)).
  rewrite event_pre. unfold lift. cbn [fst snd]. case_if; [|done]. by rewrite finish_pre.
Qed.
Lemma settings_pre evs side f p : handle_settings side f (pre evs p) = lift (pre evs) (handle_settings side f p).
Proof.
  unfold handle_settings. case_if; [done|]. destruct (parse_settings _) as [[[h|] [m|] l]|]; [..|done];
    unfold lift; cbn [fst snd Settings.header_table_size Settings.max_frame_size is_some orb];
    change (config (pre evs p)) with (config p); rewrite ?mut_pre, ?event_pre; try done.
Qed.
Lemma handle_pre evs side f p : handle_frame side f (pre evs p) = lift (pre evs) (handle_frame side f p).
Proof.
  unfold handle_frame. assert (DirState.partial (dir side (pre evs p)) = DirState.partial (dir side p)) as Epa by by destruct side.
  change (config (pre evs p)) with (config p). rewrite Epa. case_if; [done|]. destruct (Frame.kind f); try done.
  - unfold lift, handle_data. cbn [fst snd]. f_equal. repeat case_if; rewrite ?event_pre, ?finish_pre; done.
  - unfold begin_block. change (config (pre evs p)) with (config p). case_if; [done|]. cbv zeta. case_if; [apply complete_pre|].
    unfold lift. cbn [fst snd]. by rewrite mut_pre.
  - unfold handle_rst. cbv zeta. case_if; [done|]. unfold lift. cbn [fst snd]. by rewrite <- event_pre.
  - apply settings_pre.
  - unfold begin_block. change (config (pre evs p)) with (config p). case_if; [done|]. cbv zeta. case_if; [apply complete_pre|].
    unfold lift. cbn [fst snd]. by rewrite mut_pre.
  - unfold handle_goaway. cbv zeta. case_if; [done|]. unfold lift. cbn [fst snd]. by rewrite <- event_pre.
  - unfold continue_block. change (config (pre evs p)) with (config p). rewrite Epa.
    destruct (DirState.partial (dir side p)) as [pb|]; [|done]. case_if; [done|]. cbv zeta. case_if.
    + unfold lift. cbn [fst snd]. by rewrite mut_pre.
    + by rewrite mut_pre, complete_pre.
Qed.
Lemma frames_pre evs side n : forall p, frames n side (pre evs p) = lift (pre evs) (frames n side p).
Proof.
  induction n as [|n IH]; intros p; [done|]. cbn [frames]. cbv zeta.
  assert (dir side (pre evs p) = dir side p) as -> by by destruct side.
  destruct (peek_frame_len _ _) as [[total|]|]; [|done|done]. rewrite mut_pre.
  destruct (parse_frame _ _) as [[[f u]|]|]; [|done|done]. rewrite handle_pre. by apply lift_then.
Qed.
Lemma open_pre evs side p : open_preface side (pre evs p) =
  match open_preface side p with Ok (Some q) => Ok (Some (pre evs q)) | Ok None => Ok None | Err e => Err e end.
Proof.
  unfold open_preface. change (request (pre evs p)) with (request p). destruct side; [|done].
  destruct (DirState.preface (request p)); [..|done]; repeat case_if; done.
Qed.
Lemma drive_pre evs side p : drive side (pre evs p) = pre evs (drive side p).
Proof.
  unfold drive, drive_inner. rewrite open_pre. destruct (open_preface side p) as [[q|]|]; [|done|done].
  assert (dir side (pre evs q) = dir side q) as -> by by destruct side. rewrite frames_pre.
  by destruct (frames _ side q) as [? [?|]].
Qed.
Lemma poll_spec fuel : forall p out, (length (events p) < fuel)%nat ->
  poll fuel p out = (p <| events := [] |>, out ++ events p).
Proof.
  induction fuel as [|fuel IH]; intros p out Hf; [lia|]. cbn [poll]. unfold next_event.
  destruct (events p) as [|e es] eqn:E; cbv iota beta.
  - rewrite app_nil_r. f_equal. destruct p. cbn in E. by subst.
  - rewrite IH by (cbn in *; lia). cbn. by rewrite <- app_assoc.
Qed.
Lemma poll_all_spec p : poll_all p = (p <| events := [] |>, events p).
Proof. unfold poll_all. by rewrite poll_spec by lia. Qed.

(** ** Reading without a bound

    What a parser makes of bytes when nothing is refused for want of
    room. *)
Definition absorb (side : FlowSide) (data : list Z) (p : Http2Parser.t) : Http2Parser.t :=
  if is_some (error p) || DirState.done (dir side p) then p else drive side (more side data p).
Lemma absorb_dead side data p : is_some (error p) || DirState.done (dir side p) = true -> absorb side data p = p.
Proof. unfold absorb. by intros ->. Qed.
Lemma absorb_pre evs side data p : absorb side data (pre evs p) = pre evs (absorb side data p).
Proof.
  unfold absorb. assert (dir side (pre evs p) = dir side p) as -> by by destruct side. change (error (pre evs p)) with (error p).
  case_if; [done|]. rewrite <- drive_pre. unfold more. by rewrite mut_pre.
Qed.

Section session.
Context (c : Http2Config.t) (Hc : config_ok c) (Hroom : 24 <= Http2Config.max_buffered_bytes c).

Lemma absorb_app side a b p : good c p -> Forall is_byte a -> Forall is_byte b ->
  absorb side (a ++ b) p = absorb side b (absorb side a p).
Proof.
  intros G Ha Hb. unfold absorb at 1 3. destruct (is_some (error p) || _) eqn:E; [by rewrite absorb_dead|].
  assert (more side (a ++ b) p = more side b (more side a p)) as ->.
  { unfold more, dir_mut, upd. destruct side; cbn; by rewrite app_assoc. }
  pose proof (good_more c side a p G Ha) as G1. unfold drive.
  rewrite (drive_more side b (more side a p) (g_bytes _ _ G1 side) Hb).
  destruct (drive_inner side (more side a p)) as [q [e|]] eqn:Ed.
  - rewrite absorb_dead; [by destruct side|]. change (is_some (get_or_insert e (error q)) || DirState.done (dir side (fail e q)) = true).
    by destruct (error q).
  - destruct (drive_rest c (proj1 Hc) side _ q G1 Ed) as (R1 & R2 & _ & _). unfold absorb.
    assert (error (more side a p) = error p /\ DirState.done (dir side (more side a p)) = DirState.done (dir side p)) as [E1 E2]
      by by destruct side.
    by rewrite R1, R2, E1, E2, E.
Qed.
(** One [push] absorbs a piece of what it is offered, and a piece that is
    not empty unless the parser has failed or the direction has ended. *)
Lemma push_absorbs side data p : steady c p -> data <> [] ->
  exists n, push side data p = (absorb side (ztake n data) p, n) /\ 0 <= n <= zlen data /\
    (n = 0 -> is_some (error p) || DirState.done (dir side p) = true).
Proof.
  intros [G _ L _] Hd. apply zlen_pos in Hd. unfold push, absorb. destruct (is_some (error p) || _) eqn:E.
  - exists 0. split_and!; [done|lia|lia|done].
  - apply orb_false_iff in E as [E1 E2]. assert (error p = None) as En by by destruct (error p). specialize (L En side E2).
    rewrite (g_config _ _ G). cbv zeta. set (room := sat_sub _ _).
    assert (0 < room) as Hr.
    { unfold room, Http2Config.effective_max_frame_size, sat_sub, buf_of in *. change FRAME_HEADER_LEN with 9 in L. lia. }
    exists (Z.min room (zlen data)). rewrite (proj2 (Z.eqb_neq room 0)), (proj2 (Z.ltb_lt 0 (Z.min room (zlen data)))) by lia.
    split_and!; try done; lia.
Qed.
Lemma steady_events evs p : steady c p -> steady c (p <| events := evs |>).
Proof.
  intros [[G1 G2 G3 G4] F L E]. split; [split| | |]; try done; try (intros s; apply (G2 s)); try (intros s; apply (G3 s));
    try (intros s; apply (F s)).
Qed.
Lemma refill p : pre (events p) (p <| events := [] |>) = p.
Proof. destruct p. unfold pre, upd. cbn. by rewrite app_nil_r. Qed.
Lemma feed_loop_spec side fuel : forall data p out, (length data <= fuel)%nat -> data <> [] -> Forall is_byte data ->
  steady c p ->
  Http2Session.feed_loop fuel side data p out =
    (absorb side data p <| events := [] |>, out ++ events (absorb side data p)) /\ steady c (absorb side data p).
Proof.
  induction fuel as [|fuel IH]; intros data p out Hf Hd Hb S; [destruct data; [done|cbn in Hf; lia]|]. cbn [Http2Session.feed_loop].
  pose proof (steady_push c (proj1 Hc) side data p S Hb) as S1. destruct (push_absorbs side data p S Hd) as (n & E & Hn & H0).
  rewrite E in *. rewrite poll_all_spec. cbn [fst] in S1. case_if.
  { rewrite ztake_ge in * by lia. done. }
  case_if.
  { subst n. rewrite (ztake_0 0) in * by done. by rewrite (absorb_dead side [] p (H0 eq_refl)), (absorb_dead side data p (H0 eq_refl)). }
  set (q := absorb side (ztake n data) p) in *.
  assert (absorb side data p = pre (events q) (absorb side (zdrop n data) (q <| events := [] |>))) as ->.
  { rewrite <- absorb_pre, refill. unfold q. rewrite <- absorb_app, ztake_zdrop; [done|apply S|by apply Forall_take|by apply Forall_drop]. }
  destruct (IH (zdrop n data) (q <| events := [] |>) (out ++ events q)) as [-> S2].
  - unfold zdrop. rewrite length_drop. unfold zlen in *. lia.
  - intros E0. apply (f_equal zlen) in E0. rewrite zlen_zdrop in E0. change (zlen []) with 0 in E0. lia.
  - by apply Forall_drop.
  - by apply steady_events.
  - split; [|by apply steady_events]. cbn. by rewrite <- app_assoc.
Qed.
(** Between calls a session's parser holds no event. *)
Definition session_ok (s : Http2Session.t) : Prop := steady c (Http2Session.inner s) /\ events (Http2Session.inner s) = [].
Lemma session_feed_spec side data s : Forall is_byte data -> session_ok s -> data <> [] ->
  Http2Session.feed side data s =
    (Http2Session.mk (absorb side data (Http2Session.inner s) <| events := [] |>), events (absorb side data (Http2Session.inner s))).
Proof.
  intros Hb [S _] Hd. unfold Http2Session.feed. destruct data as [|b data]; [done|]. cbn [is_nil].
  by rewrite (proj1 (feed_loop_spec side _ (b :: data) _ [] (le_n _) Hd Hb S)).
Qed.
Lemma session_feed_ok side data s : Forall is_byte data -> session_ok s -> session_ok (Http2Session.feed side data s).1.
Proof.
  intros Hb S. destruct data as [|b data]; [done|]. rewrite session_feed_spec by done. split; [|done]. cbn.
  apply steady_events. by eapply (feed_loop_spec side _ (b :: data) _ [] (le_n _)), S.
Qed.
Lemma session_feed_app side a b s : Forall is_byte a -> Forall is_byte b -> session_ok s ->
  Http2Session.feed side (a ++ b) s =
  ((Http2Session.feed side b (Http2Session.feed side a s).1).1,
   (Http2Session.feed side a s).2 ++ (Http2Session.feed side b (Http2Session.feed side a s).1).2).
Proof.
  intros Ha Hb S. destruct a as [|x a]; [cbn [app Http2Session.feed is_nil fst snd]; by rewrite <- surjective_pairing|]. destruct b as [|y b].
  { rewrite app_nil_r. generalize (Http2Session.feed side (x :: a) s). intros [? ?]. cbn. by rewrite app_nil_r. }
  pose proof (session_feed_ok side (x :: a) s Ha S) as S1.
  rewrite (session_feed_spec side ((x :: a) ++ (y :: b))); [|by apply Forall_app|exact S|by intros E0]. rewrite (session_feed_spec side (y :: b)) by done.
  rewrite (session_feed_spec side (x :: a)) by done. cbn [fst snd]. rewrite absorb_app by (done || apply S).
  set (q := absorb side (x :: a) _). cbn [Http2Session.inner].
  assert (absorb side (y :: b) q = pre (events q) (absorb side (y :: b) (q <| events := [] |>))) as ->; [|done].
  by rewrite <- absorb_pre, refill.
Qed.
Lemma session_fin_ok side s : session_ok s -> session_ok (Http2Session.fin_side side s).1.
Proof.
  intros [S _]. unfold Http2Session.fin_side. rewrite poll_all_spec. split; [|done]. by apply steady_events, steady_fin.
Qed.
Lemma session_new_ok : session_ok (Http2Session.with_config c).
Proof. split; [|done]. by apply steady_with_config; apply Hc. Qed.
Lemma rebuild_ok s : session_ok s -> session_ok (Http2Session.rebuild s).
Proof. intros [S _]. unfold Http2Session.rebuild, session_ok, upd. cbn. rewrite (g_config _ _ (s_good _ _ S)). apply session_new_ok. Qed.
End session.

(** ** Sessions *)
Inductive SessionCall := Feed (side : FlowSide) (bytes : list Z) | FinSide (side : FlowSide) | RstSide (side : FlowSide).
Definition session_call_ok (x : SessionCall) : Prop := match x with Feed _ bytes => Forall is_byte bytes | _ => True end.
Definition session_call (x : SessionCall) (s : Http2Session.t) : Http2Session.t * list Http2Event :=
  match x with
  | Feed side bytes => Http2Session.feed side bytes s
  | FinSide side => Http2Session.fin_side side s
  | RstSide side => (Http2Session.rebuild s, [])
  end.
(** The session after the calls, and all they reported. *)
Fixpoint session_calls (xs : list SessionCall) (s : Http2Session.t) : Http2Session.t * list Http2Event :=
  match xs with
  | [] => (s, [])
  | x :: xs => let (s, evs) := session_call x s in let (s, evs') := session_calls xs s in (s, evs ++ evs')
  end.
Lemma session_calls_ok c xs : config_ok c -> 24 <= Http2Config.max_buffered_bytes c -> Forall session_call_ok xs ->
  forall s, session_ok c s -> session_ok c (session_calls xs s).1.
Proof.
  intros Hc Hr Hx. induction Hx as [|x xs Hx _ IH]; intros s S; [done|]. cbn [session_calls].
  assert (session_ok c (session_call x s).1) as S1.
  { destruct x; cbn [session_call]; [by apply session_feed_ok|by apply session_fin_ok|by apply rebuild_ok]. }
  destruct (session_call x s) as [s1 evs]. specialize (IH s1 S1). by destruct (session_calls xs s1).
Qed.

(** C29: once a session exists, all that counts of a direction's
    bytes is their sequence: whatever came before, and however the bytes are
    cut into segments (empty ones too), the session ends in the state that
    one call with all of them leaves, and reports the same events in the same
    order.  The parser's buffer holds 24 bytes or more, the length of the
    connection preface (in a smaller one what the parser waits for may not
    fit, and a push that finds no room fails); its other caps are any. *)
Theorem http2_session_chunking c history side chunks :
  config_ok c -> 24 <= Http2Config.max_buffered_bytes c -> Forall session_call_ok history ->
  Forall (Forall is_byte) chunks ->
  let s := (session_calls history (Http2Session.with_config c)).1 in
  session_calls (map (Feed side) chunks) s = Http2Session.feed side (concat chunks) s.
Proof.
  intros Hc Hr Hh Hb s. assert (session_ok c s) as S by by apply session_calls_ok; [..|apply session_new_ok]. clearbody s.
  revert s S. induction Hb as [|d chunks Hd Hb IH]; intros s S; [done|]. cbn [map session_calls session_call concat].
  rewrite (session_feed_app c) by (try apply Forall_concat; done). pose proof (session_feed_ok c Hc Hr side d s Hd S) as S1.
  destruct (Http2Session.feed side d s) as [s1 evs]. rewrite IH by done. cbn [fst snd]. by destruct (Http2Session.feed side _ s1).
Qed.

(** A head and its body, over a parser of 32 bytes: whole, and cut inside
    both frame headers. *)
Definition tiny : Http2Config.t :=
  Http2Config.with_require_preface false (Http2Config.with_max_buffered_bytes 32 Http2Config.default).
Definition demo_chunks : list (list Z) :=
  [[0; 0; 1; 1]; [4; 0; 0; 0; 1; 0x82; 0; 0; 20]; []; [0; 1; 0; 0; 0; 1] ++ repeat 7 20 ++ [0; 0; 0; 4]].
Lemma demo_chunks_ok : Forall (Forall is_byte) demo_chunks.
Proof. repeat (apply Forall_cons; split; [apply HpackProps.bytes_ok; reflexivity|]). by apply Forall_nil. Qed.
Lemma tiny_ok : config_ok tiny.
Proof. split_and!; vm_compute; discriminate. Qed.
Example session_demo_events : length (Http2Session.feed Initiator (concat demo_chunks) (Http2Session.with_config tiny)).2 = 3%nat.
Proof. reflexivity. Qed.
Lemma http2_session_chunking_witness :
  session_calls (map (Feed Initiator) demo_chunks) (Http2Session.with_config tiny) =
  Http2Session.feed Initiator (concat demo_chunks) (Http2Session.with_config tiny).
Proof.
  apply (http2_session_chunking tiny [] Initiator demo_chunks tiny_ok); [vm_compute; discriminate|by apply Forall_nil|].
  exact demo_chunks_ok.
Defined.
