(* ===== verification/SlotQueue.v ===== *)
(** * Slot queues (src/src/driver/slot.rs, broadcast.rs)

    What a parser of the typed driver says reaches its readers through a
    queue: one queue shared by all the clones of a [SlotHandle], or one per
    clone of a [BroadcastSlotHandle].  [crossbeam_queue::SegQueue] is a
    third-party crate: the handles are written against the interface
    [Queue], with the laws the crate documents, a FIFO.  Every operation on
    a queue is atomic, so what several threads do is a sequence of them.
    Wakers are values; waking one is reported. *)

From stdpp Require Import gmap.
From S2P Require Import Prelude Time Flow ParserKind.
Open Scope Z_scope.

Module SlotMessage.
Section slot_message.
Context {K M : Type}.
Record t := mk {
  key : K; side : FlowSide; orientation : Orientation; message : M; ts : Timestamp.t;
  lifecycle_pos : Z; seq : Z }.
#[global] Instance eta : Eta t := mk_eta (fun m =>
  mk (key m) (side m) (orientation m) (message m) (ts m) (lifecycle_pos m) (seq m)).
Definition new (key : K) (side : FlowSide) (orientation : Orientation) (message : M) (ts : Timestamp.t) : t :=
  mk key side orientation message ts 0 0.
Definition with_order (lifecycle_pos' seq' : Z) (m : t) : t :=
  m <| lifecycle_pos := lifecycle_pos' |> <| seq := seq' |>.
End slot_message.
#[global] Arguments t : clear implicits.
End SlotMessage.

(** ** The queue *)
Class Queue (A Q : Type) := {
  q_new : Q; q_push : A -> Q -> Q; q_pop : Q -> Q * option A; q_len : Q -> Z }.
#[global] Hint Mode Queue - ! : typeclass_instances.
Class QueueLaws (A Q : Type) `{!Queue A Q} := {
  contents : Q -> list A;
  contents_new : contents q_new = [];
  contents_push a q : contents (q_push a q) = contents q ++ [a];
  contents_pop q : contents (q_pop q).1 = tail (contents q);
  pop_head q : (q_pop q).2 = head (contents q);
  len_contents q : q_len q = zlen (contents q) }.
#[global] Hint Mode QueueLaws - ! - : typeclass_instances.

(** A list does it. *)
#[global] Instance list_queue A : Queue A (list A) := {
  q_new := []; q_push a q := q ++ [a]; q_pop q := (tail q, head q); q_len q := zlen q }.
#[global] Program Instance list_queue_laws A : QueueLaws A (list A) := { contents q := q }.
Solve Obligations with done.

Section queue.
Context {A Q : Type} `{!Queue A Q}.

(** [while let Some(msg) = pop() { out.push(msg) }], a round per message
    and the last one. *)
Fixpoint pop_loop (fuel : nat) (q : Q) : Q * list A :=
  match fuel with
  | O => (q, [])
  | S fuel =>
      match q_pop q with
      | (q, Some a) => let (q, out) := pop_loop fuel q in (q, a :: out)
      | (q, None) => (q, [])
      end
  end.
Definition pop_all (q : Q) : Q * list A := pop_loop (S (Z.to_nat (q_len q))) q.
(** [while n < max && let Some(msg) = pop()]: at most [max] rounds, and no
    more than there are messages and one. *)
Definition pop_n (max : Z) (q : Q) : Q * list A := pop_loop (Z.to_nat (Z.min max (q_len q + 1))) q.

Section laws.
Context `{!QueueLaws A Q}.
Lemma pop_loop_spec fuel : forall q,
  contents (pop_loop fuel q).1 = drop fuel (contents q) /\ (pop_loop fuel q).2 = take fuel (contents q).
Proof.
  induction fuel as [|fuel IH]; intros q; [done|]. cbn [pop_loop].
  pose proof (contents_pop q) as E. pose proof (pop_head q) as Eh. destruct (q_pop q) as [q1 r]. cbn [fst snd] in *. specialize (IH q1).
  destruct (contents q) as [|a l]; cbn in E, Eh; subst r; cbn [fst snd]; [by rewrite E|]. destruct (pop_loop fuel q1) as [q2 out].
  cbn [fst snd drop take] in *. destruct IH as [-> ->]. by rewrite E.
Qed.
Lemma pop_all_spec q : contents (pop_all q).1 = [] /\ (pop_all q).2 = contents q.
Proof.
  unfold pop_all. destruct (pop_loop_spec (S (Z.to_nat (q_len q))) q) as [-> ->]. rewrite len_contents. unfold zlen.
  split; [apply drop_ge|apply take_ge]; lia.
Qed.
Lemma pop_n_spec max q : 0 <= max -> contents (pop_n max q).1 = zdrop max (contents q) /\ (pop_n max q).2 = ztake max (contents q).
Proof.
  intros Hm. unfold pop_n. destruct (pop_loop_spec (Z.to_nat (Z.min max (q_len q + 1))) q) as [-> ->]. rewrite len_contents. unfold ztake, zdrop, zlen.
  destruct (Z.le_gt_cases max (Z.of_nat (length (contents q)))); [by rewrite Z.min_l by lia|].
  split; [rewrite !drop_ge by lia|rewrite !take_ge by lia]; done.
Qed.
End laws.
End queue.

(** ** Handles that share a queue *)
Module SlotHandle.
(** [inner] names the queue in the store of queues. *)
Record t := mk { inner : Z; parser_kind : ParserKind.t; slot : SlotId.t }.
Definition slot_id (h : t) : SlotId.t := slot h.
Definition clone (h : t) : t := mk (inner h) (parser_kind h) (slot h).
Section ops.
Context {A Q : Type} `{!Queue A Q}.
Notation store := (gmap Z Q).
Definition deref (h : t) (st : store) : Q := default q_new (st !! inner h).
Definition assign (h : t) (q : Q) (st : store) : store := <[inner h := q]> st.
(** The store, [out] after the call, and the count. *)
Definition drain (h : t) (out : list A) (st : store) : store * list A * Z :=
  let (q, ms) := pop_all (deref h st) in (assign h q st, out ++ ms, zlen ms).
Definition drain_n (h : t) (out : list A) (max : Z) (st : store) : store * list A * Z :=
  let (q, ms) := pop_n max (deref h st) in (assign h q st, out ++ ms, zlen ms).
Definition drain_replacing (h : t) (out : list A) (st : store) : store * list A * Z := drain h [] st.
Definition pending (h : t) (st : store) : Z := q_len (deref h st).
Definition clear (h : t) (st : store) : store := assign h (pop_all (deref h st)).1 st.
End ops.
End SlotHandle.

(** ** Handles with a queue each *)

(** [inner] names the set, [my_queue] the subscriber in it. *)
Module BroadcastSlotHandle.
Record t := mk { inner : Z; my_queue : Z; parser_kind : ParserKind.t; slot : SlotId.t }.
Definition slot_id (h : t) : SlotId.t := slot h.
End BroadcastSlotHandle.

Module Broadcast.
Section broadcast.
Context {A Q W : Type} `{!Queue A Q}.
Record Subscriber := mk_sub { queue : Q; waker : option W }.
#[global] Instance sub_eta : Eta Subscriber := mk_eta (fun s => mk_sub (queue s) (waker s)).
Definition sub_new : Subscriber := mk_sub q_new None.
(** The subscriber, and the waker that was woken. *)
Definition sub_push (a : A) (s : Subscriber) : Subscriber * list W :=
  (s <| queue ::= q_push a |> <| waker := None |>, match waker s with Some w => [w] | None => [] end).

(** [subscribers] are weak pointers; a subscriber is in [arcs] as long as
    the one handle that owns it exists. *)
Record t := mk { subscribers : list Z; arcs : gmap Z Subscriber; fresh : Z }.
#[global] Instance eta : Eta t := mk_eta (fun b => mk (subscribers b) (arcs b) (fresh b)).
(** [BroadcastInner::new]. *)
Definition empty : t := mk [] ∅ 0.
Definition upgrade (p : Z) (b : t) : option Subscriber := arcs b !! p.

Definition subscribe (b : t) : t * Z :=
  let p := fresh b in
  (b <| subscribers ::= fun l => l ++ [p] |> <| arcs ::= insert p sub_new |> <| fresh ::= Z.add 1 |>, p).
(** The closure of [retain]. *)
Fixpoint push_live (a : A) (ps : list Z) (m : gmap Z Subscriber) : list Z * gmap Z Subscriber * list W :=
  match ps with
  | [] => ([], m, [])
  | p :: ps =>
      match m !! p with
      | Some s =>
          let (s, woken) := sub_push a s in
          let '(ps, m, woken') := push_live a ps (<[p := s]> m) in (p :: ps, m, woken ++ woken')
      | None => push_live a ps m
      end
  end.
Definition push (a : A) (b : t) : t * list W :=
  let '(ps, m, woken) := push_live a (subscribers b) (arcs b) in (b <| subscribers := ps |> <| arcs := m |>, woken).

(** The handle of subscriber [p]. *)
Definition new (b : t) : t * Z := subscribe b.
Definition clone (p : Z) (b : t) : t * Z := new b.
Definition drop (p : Z) (b : t) : t := b <| arcs ::= delete p |>.
Definition deref (p : Z) (b : t) : Subscriber := default sub_new (arcs b !! p).
Definition assign (p : Z) (s : Subscriber) (b : t) : t := b <| arcs ::= insert p s |>.
Definition drain (p : Z) (b : t) : t * list A :=
  let s := deref p b in let (q, ms) := pop_all (queue s) in (assign p (s <| queue := q |>) b, ms).
Definition drain_n (p : Z) (max : Z) (b : t) : t * list A :=
  let s := deref p b in let (q, ms) := pop_n max (queue s) in (assign p (s <| queue := q |>) b, ms).
Definition try_recv (p : Z) (b : t) : t * option A :=
  let s := deref p b in let (q, r) := q_pop (queue s) in (assign p (s <| queue := q |>) b, r).
(** [None] is [Poll::Pending]. *)
Definition poll_recv (p : Z) (w : W) (b : t) : t * option A :=
  let (b, r) := try_recv p b in
  match r with
  | Some a => (b, Some a)
  | None => let s := deref p b in try_recv p (assign p (s <| waker := Some w |>) b)
  end.
Definition pending (p : Z) (b : t) : Z := q_len (queue (deref p b)).
Definition live_subscribers (b : t) : Z := zlen (List.filter (fun p => is_some (arcs b !! p)) (subscribers b)).
End broadcast.
#[global] Arguments Subscriber : clear implicits.
#[global] Arguments t : clear implicits.
End Broadcast.

(** Where a slot's messages go. *)
Module MessageSink.
Section sink.
Context {A Q W : Type} `{!Queue A Q}.
Inductive t := Shared (q : Q) | Fanout (b : Broadcast.t Q W).
Definition push (a : A) (s : t) : t :=
  match s with Shared q => Shared (q_push a q) | Fanout b => Fanout (Broadcast.push a b).1 end.
End sink.
#[global] Arguments t : clear implicits.
End MessageSink.

(** ** What readers get *)
Module SlotQueueProps.
Section shared.
Context {A Q : Type} `{!Queue A Q, !QueueLaws A Q}.
Implicit Types st : gmap Z Q.

(** Pushes, and reads through any of the clones of a handle. *)
Inductive SharedOp := SPush (a : A) | SDrain (h : SlotHandle.t) | SDrainN (h : SlotHandle.t) (max : Z).
Definition shared_ok (p : Z) (o : SharedOp) : Prop :=
  match o with SPush _ => True | SDrain h => SlotHandle.inner h = p | SDrainN h max => SlotHandle.inner h = p /\ 0 <= max end.
Definition shared_step (p : Z) (o : SharedOp) st : gmap Z Q * list A :=
  match o with
  | SPush a => (<[p := q_push a (default q_new (st !! p))]> st, [])
  | SDrain h => (SlotHandle.drain h [] st).1
  | SDrainN h max => (SlotHandle.drain_n h [] max st).1
  end.
Fixpoint shared_run (p : Z) (os : list SharedOp) st : gmap Z Q * list A :=
  match os with
  | [] => (st, [])
  | o :: os => let (st, ms) := shared_step p o st in let (st, ms') := shared_run p os st in (st, ms ++ ms')
  end.
Definition shared_pushed (os : list SharedOp) : list A := omap (fun o => match o with SPush a => Some a | _ => None end) os.
Definition shared_held (p : Z) st : list A := contents (default q_new (st !! p)).

(** All the clones of a slot handle read one queue.  However their
    reads and the parser's messages interleave, the reads together get every
    message once, in the order of the pushes; what they have not got is
    still there. *)
Theorem slot_handles_share p os st : Forall (shared_ok p) os ->
  (shared_run p os st).2 ++ shared_held p (shared_run p os st).1 = shared_held p st ++ shared_pushed os.
Proof.
  intros Hok. revert st. induction Hok as [|o os Ho _ IH]; intros st; cbn [shared_run shared_pushed omap list_omap].
  { by rewrite app_nil_r. }
  assert (E : let (st1, ms) := shared_step p o st in
    ms ++ shared_held p st1 = shared_held p st ++ match o with SPush a => [a] | _ => [] end).
  { unfold shared_held. destruct o as [a|h|h max]; cbn in *.
    - rewrite lookup_insert_eq. cbn. by rewrite contents_push.
    - unfold SlotHandle.drain, SlotHandle.deref, SlotHandle.assign. rewrite Ho. pose proof (pop_all_spec (default q_new (st !! p))) as [E1 E2].
      destruct (pop_all _) as [q ms]. cbn in *. rewrite lookup_insert_eq. cbn. by rewrite E1, E2.
    - destruct Ho as [Ho Hm]. unfold SlotHandle.drain_n, SlotHandle.deref, SlotHandle.assign. rewrite Ho.
      pose proof (pop_n_spec max (default q_new (st !! p)) Hm) as [E1 E2]. destruct (pop_n max _) as [q ms]. cbn in *.
      rewrite lookup_insert_eq. cbn. by rewrite E1, E2, ztake_zdrop, app_nil_r. }
  destruct (shared_step p o st) as [st1 ms]. specialize (IH st1). destruct (shared_run p os st1) as [st2 ms']. cbn [fst snd] in *.
  rewrite <- app_assoc, IH, app_assoc, E. destruct o; cbn; by rewrite <- ?app_assoc, ?app_nil_r.
Qed.
End shared.
Definition demo_handle : SlotHandle.t := SlotHandle.mk 3 ParserKind.Unspecified 3.
Definition demo_shared : list (SharedOp (A := Z)) :=
  [SPush 1; SPush 2; SDrainN (SlotHandle.clone demo_handle) 1; SPush 3; SDrain demo_handle; SPush 4].
Lemma slot_handles_share_witness :
  let r := shared_run (A := Z) (Q := list Z) 3 demo_shared ∅ in
  r.2 = [1; 2; 3] /\ r.2 ++ shared_held (A := Z) 3 r.1 = shared_held (A := Z) (Q := list Z) 3 ∅ ++ shared_pushed demo_shared.
Proof.
  intros r. split; [reflexivity|]. apply (slot_handles_share (A := Z) (Q := list Z) 3 demo_shared ∅).
  repeat apply Forall_cons_2; cbn; try done.
Defined.

Section broadcast.
Context {A Q W : Type} `{!Queue A Q, !QueueLaws A Q}.
Import Broadcast.
Notation broadcast := (Broadcast.t Q W).
Implicit Types b : broadcast.

Inductive Op := OPush (a : A) | OClone (p : Z) | ODrop (p : Z) | ODrain (p : Z) | ODrainN (p max : Z) | ORecv (p : Z)
  | OPoll (p : Z) (w : W).
Definition user (o : Op) : option Z :=
  match o with OPush _ => None | OClone p | ODrop p | ODrain p | ODrainN p _ | ORecv p | OPoll p _ => Some p end.
Definition op_ok (o : Op) : Prop := match o with ODrainN _ max => 0 <= max | _ => True end.
Definition received {X} (p : Z) (r : X * list A) : X * list (Z * list A) := (r.1, [(p, r.2)]).
Definition one {X} (r : X * option A) : X * list A := (r.1, match r.2 with Some a => [a] | None => [] end).
(** [None] where a handle is used that does not exist. *)
Definition step (o : Op) b : option (broadcast * list (Z * list A)) :=
  match user o with
  | Some p =>
      if is_none (arcs b !! p) then None
      else
        Some match o with
             | OPush _ => (b, [])
             | OClone p => ((clone p b).1, [])
             | ODrop p => (drop p b, [])
             | ODrain p => received p (drain p b)
             | ODrainN p max => received p (drain_n p max b)
             | ORecv p => received p (one (try_recv p b))
             | OPoll p w => received p (one (poll_recv p w b))
             end
  | None => match o with OPush a => Some ((push a b).1, []) | _ => None end
  end.
Fixpoint run (os : list Op) b : option (broadcast * list (Z * list A)) :=
  match os with
  | [] => Some (b, [])
  | o :: os =>
      match step o b with
      | Some (b, out) => match run os b with Some (b, out') => Some (b, out ++ out') | None => None end
      | None => None
      end
  end.
Definition got (p : Z) (out : list (Z * list A)) : list A := concat (omap (fun r => if r.1 =? p then Some r.2 else None) out).
(** What subscriber [p] is to get, when [n] handles have been made. *)
Fixpoint owed (p n : Z) (os : list Op) : list A :=
  match os with
  | [] => []
  | OPush a :: os => (if p <? n then [a] else []) ++ owed p n os
  | OClone _ :: os => owed p (n + 1) os
  | _ :: os => owed p n os
  end.

Lemma got_app p out out' : got p (out ++ out') = got p out ++ got p out'.
Proof. unfold got. by rewrite omap_app, concat_app. Qed.
Definition held p b : list A := match arcs b !! p with Some s => contents (queue s) | None => [] end.
Record wf b : Prop := {
  wf_nodup : NoDup (subscribers b);
  wf_live p : is_Some (arcs b !! p) -> p ∈ subscribers b;
  wf_fresh p : p ∈ subscribers b -> p < fresh b }.
Lemma push_live_spec a ps : forall m : gmap Z (Subscriber Q W), NoDup ps ->
  let '(ps', m', _) := push_live a ps m in
  ps' ⊆ ps /\ NoDup ps' /\ (forall p, p ∈ ps -> is_Some (m !! p) -> p ∈ ps') /\
  forall p, m' !! p = if decide (p ∈ ps) then (fun s => (sub_push a s).1) <$> m !! p else m !! p.
Proof.
  induction ps as [|q ps IH]; intros m N; cbn [push_live]; [split_and!; done|]. apply NoDup_cons in N as [Nq N].
  destruct (m !! q) as [s|] eqn:Eq.
  - destruct (sub_push a s) as [s' w] eqn:Es. specialize (IH (<[q := s']> m) N). destruct (push_live a ps _) as [[ps' m'] w'].
    destruct IH as (I1 & I2 & I3 & I4). split_and!.
    + intros p [->|H]%elem_of_cons; [by left|right; by apply I1].
    + apply NoDup_cons. split; [|done]. intros H. apply Nq. by apply I1.
    + intros p [->|H]%elem_of_cons Hp; [by left|]. right. apply I3; [done|]. rewrite lookup_insert_ne; [done|]. by intros ->.
    + intros p. rewrite I4. destruct (decide (p = q)) as [->|Npq].
      * rewrite decide_False by done. rewrite decide_True by by left. rewrite lookup_insert_eq, Eq. cbn [fmap option_fmap option_map]. by rewrite Es.
      * rewrite lookup_insert_ne by done. destruct (decide (p ∈ ps)) as [H|H].
        -- by rewrite decide_True by (by right).
        -- rewrite decide_False; [done|]. by intros [?|?]%elem_of_cons.
  - specialize (IH m N). destruct (push_live a ps m) as [[ps' m'] w']. destruct IH as (I1 & I2 & I3 & I4). split_and!; [|done|..].
    + intros p H. right. by apply I1.
    + intros p [->|H]%elem_of_cons Hp; [by rewrite Eq in Hp; destruct Hp|by apply I3].
    + intros p. rewrite I4. destruct (decide (p = q)) as [->|Npq].
      * rewrite decide_False by done. rewrite decide_True by by left. by rewrite Eq.
      * destruct (decide (p ∈ ps)) as [H|H]; [by rewrite decide_True by (by right)|]. rewrite decide_False; [done|]. by intros [?|?]%elem_of_cons.
Qed.
Lemma push_spec a b : wf b -> wf (push a b).1 /\ fresh (push a b).1 = fresh b /\
  forall p, arcs (push a b).1 !! p = (fun s => (sub_push a s).1) <$> arcs b !! p.
Proof.
  intros [N L F]. unfold push. pose proof (push_live_spec a (subscribers b) (arcs b) N) as G.
  destruct (push_live a _ _) as [[ps m] w]. destruct G as (G1 & G2 & G3 & G4).
  assert (Em : forall p, m !! p = (fun s => (sub_push a s).1) <$> arcs b !! p).
  { intros p. rewrite G4. case_decide; [done|]. destruct (arcs b !! p) eqn:E; [|done]. destruct H. apply L. by rewrite E. }
  split_and!; [|done|done]. split; [done|..]; cbn.
  - intros p. rewrite Em, fmap_is_Some. intros Hp. by apply G3; [apply L|].
  - intros p Hp. by apply F, G1.
Qed.
Lemma assign_wf p s b : wf b -> is_Some (arcs b !! p) -> wf (assign p s b).
Proof.
  intros [N L F] Hp. split; [done| |done]. intros q. cbn. destruct (decide (q = p)) as [->|Nq]; [intros _; by apply L|].
  rewrite lookup_insert_ne by done. apply L.
Qed.
(** A read by the owner of [p]. *)
Lemma read_spec p b b' ms : wf b -> is_Some (arcs b !! p) ->
  (exists s, b' = assign p s b /\ ms ++ contents (queue s) = held p b) ->
  wf b' /\ fresh b' = fresh b /\ (forall q, is_Some (arcs b' !! q) <-> is_Some (arcs b !! q)) /\
  forall q, got q [(p, ms)] ++ held q b' = held q b.
Proof.
  intros Hw Hp (s & -> & E). split_and!; [by apply assign_wf|done|..].
  - intros q. cbn. destruct (decide (q = p)) as [->|Nq]; [rewrite lookup_insert_eq; split; [done|by eexists]|by rewrite lookup_insert_ne].
  - intros q. unfold got. cbn. unfold held at 1. cbn. destruct (Z.eqb_spec p q) as [->|Nq].
    + rewrite lookup_insert_eq. cbn. by rewrite app_nil_r.
    + by rewrite lookup_insert_ne.
Qed.
Lemma deref_held p b : is_Some (arcs b !! p) -> contents (queue (deref p b)) = held p b.
Proof. unfold deref, held. by intros [s ->]. Qed.
Lemma try_recv_spec p b : is_Some (arcs b !! p) -> exists s, (try_recv p b).1 = assign p s b /\
  (one (try_recv p b)).2 ++ contents (queue s) = held p b.
Proof.
  intros Hp. unfold try_recv. rewrite <- (deref_held p b Hp). pose proof (contents_pop (queue (deref p b))) as E1.
  pose proof (pop_head (queue (deref p b))) as E2. destruct (q_pop _) as [q r]. cbn in *. eexists. split; [done|]. cbn. rewrite E1, E2.
  by destruct (contents (queue (deref p b))).
Qed.
Lemma poll_recv_spec p w b : is_Some (arcs b !! p) -> exists s, (poll_recv p w b).1 = assign p s b /\
  (one (poll_recv p w b)).2 ++ contents (queue s) = held p b.
Proof.
  intros Hp. unfold poll_recv. destruct (try_recv_spec p b Hp) as (s & E1 & E2). destruct (try_recv p b) as [b1 r]. cbn in E1. subst b1.
  destruct r as [a|]; cbn in E2 |- *; [by eexists|].
  set (b2 := assign p (deref p (assign p s b) <| waker := Some w |>) (assign p s b)).
  assert (is_Some (arcs b2 !! p)) as H2 by (cbn; rewrite lookup_insert_eq; by eexists).
  destruct (try_recv_spec p b2 H2) as (s' & E3 & E4).
  assert (G : (try_recv p b2).1 = assign p s' b /\ (one (try_recv p b2)).2 ++ contents (queue s') = held p b); [|by exists s'].
  rewrite E3. split.
  { unfold b2, assign, upd. cbn. by rewrite !insert_insert_eq. }
  rewrite E4, <- E2. unfold held, b2. cbn. rewrite lookup_insert_eq. cbn. unfold deref. cbn. by rewrite lookup_insert_eq.
Qed.
Definition live b p : Prop := is_Some (arcs b !! p).
(** What a step leaves of a subscriber and hands it, if it exists. *)
Lemma step_spec o b b' out : op_ok o -> wf b -> step o b = Some (b', out) ->
  wf b' /\ fresh b' = fresh b + (match o with OClone _ => 1 | _ => 0 end) /\
  (forall q, live b' q -> live b q \/ q = fresh b) /\
  (forall q, live b' q -> got q out ++ held q b' = held q b ++ match o with OPush a => [a] | _ => [] end) /\
  forall q, got q out `prefix_of` held q b.
Proof.
  intros Hok Hw. unfold step.
  assert (Rd : forall p s ms, op_ok o -> live b p -> ms ++ contents (queue s) = held p b ->
    (match o with OClone _ | OPush _ => False | _ => True end) ->
    let b' := assign p s b in
    wf b' /\ fresh b' = fresh b + (match o with OClone _ => 1 | _ => 0 end) /\ (forall q, live b' q -> live b q \/ q = fresh b) /\
    (forall q, live b' q -> got q [(p, ms)] ++ held q b' = held q b ++ match o with OPush a => [a] | _ => [] end) /\
    forall q, got q [(p, ms)] `prefix_of` held q b).
  { intros p s ms _ Hp E Ho b1. destruct (read_spec p b b1 ms Hw Hp) as (R1 & R2 & R3 & R4); [by exists s|].
    split_and!; [done|destruct o; done || lia| | |].
    - intros q Hq. left. by apply R3.
    - intros q _. rewrite R4. by destruct o; try done; rewrite app_nil_r.
    - intros q. eexists. symmetry. apply R4. }
  destruct o as [a|p|p|p|p max|p|p w]; cbn [user].
  - intros [= <- <-]. destruct (push_spec a b Hw) as (P1 & P2 & P3). split_and!; [done|lia| | |].
    + intros q. unfold live. rewrite P3, fmap_is_Some. by left.
    + intros q. unfold live, held. rewrite P3, fmap_is_Some. intros [s ->]. cbn. by rewrite contents_push.
    + intros q. apply prefix_nil.
  - destruct (arcs b !! p) as [s|] eqn:E; [|done]. cbn. intros [= <- <-]. destruct Hw as [N L F]. split_and!.
    + split; cbn.
      * apply NoDup_app. split_and!; [done| |apply NoDup_singleton]. intros q Hq%F [->|[]%elem_of_nil]%elem_of_cons. lia.
      * intros q Hq. apply elem_of_app. destruct (decide (q = fresh b)) as [->|Nq]; [right; by left|].
        rewrite lookup_insert_ne in Hq by done. left. by apply L.
      * intros q [Hq|[->|[]%elem_of_nil]%elem_of_cons]%elem_of_app; [apply F in Hq; lia|lia].
    + cbn. lia.
    + intros q. unfold live. cbn. destruct (decide (q = fresh b)) as [->|Nq]; [by right|]. rewrite lookup_insert_ne by done. by left.
    + intros q _. unfold held. cbn. destruct (decide (q = fresh b)) as [->|Nq].
      * rewrite lookup_insert_eq. cbn. rewrite contents_new. destruct (arcs b !! fresh b) eqn:Ef; [|done].
        exfalso. assert (fresh b ∈ subscribers b) as Hq%F by (apply L; by eexists). lia.
      * rewrite lookup_insert_ne by done. by rewrite app_nil_r.
    + intros q. apply prefix_nil.
  - destruct (arcs b !! p) as [s|] eqn:E; [|done]. cbn. intros [= <- <-]. destruct Hw as [N L F]. split_and!.
    + split; cbn; [done| |done]. intros q Hq. apply L. destruct (decide (q = p)) as [->|Nq]; [by rewrite E|]. by rewrite lookup_delete_ne in Hq.
    + cbn. lia.
    + intros q. unfold live. cbn. destruct (decide (q = p)) as [->|Nq]; [rewrite lookup_delete_eq; by intros []|]. rewrite lookup_delete_ne by done. by left.
    + intros q. unfold live, held. cbn. destruct (decide (q = p)) as [->|Nq]; [rewrite lookup_delete_eq; by intros []|].
      rewrite lookup_delete_ne by done. by rewrite app_nil_r.
    + intros q. apply prefix_nil.
  - destruct (arcs b !! p) as [s|] eqn:E; [|done]. cbn [is_none]. intros [= <- <-]. assert (live b p) as Hp by by eexists.
    pose proof (pop_all_spec (queue (deref p b))) as [E1 E2]. unfold drain. destruct (pop_all _) as [q ms]. cbn in *.
    apply Rd; [done..| |done]. cbn. by rewrite E1, E2, app_nil_r, deref_held.
  - destruct (arcs b !! p) as [s|] eqn:E; [|done]. cbn [is_none]. intros [= <- <-]. assert (live b p) as Hp by by eexists.
    pose proof (pop_n_spec max (queue (deref p b)) Hok) as [E1 E2]. unfold drain_n. destruct (pop_n max _) as [q ms]. cbn in *.
    apply Rd; [done..| |done]. cbn. by rewrite E1, E2, ztake_zdrop, deref_held.
  - destruct (arcs b !! p) as [s|] eqn:E; [|done]. cbn [is_none]. intros [= <- <-]. assert (live b p) as Hp by by eexists.
    destruct (try_recv_spec p b Hp) as (s' & E1 & E2). cbn. rewrite E1. by apply Rd.
  - destruct (arcs b !! p) as [s|] eqn:E; [|done]. cbn [is_none]. intros [= <- <-]. assert (live b p) as Hp by by eexists.
    destruct (poll_recv_spec p w b Hp) as (s' & E1 & E2). unfold received. cbn [fst snd one]. rewrite E1. by apply Rd.
Qed.
Lemma gone_stays os : forall b b' out p, Forall op_ok os -> wf b -> run os b = Some (b', out) ->
  p < fresh b -> ~ live b p -> got p out = [] /\ ~ live b' p.
Proof.
  induction os as [|o os IH]; intros b b' out p Hok Hw; cbn [run]; [by intros [= <- <-]|].
  inversion Hok as [|? ? Ho Hos]; subst. destruct (step o b) as [[b1 o1]|] eqn:E; [|done].
  destruct (run os b1) as [[b2 o2]|] eqn:E2; [|done]. intros [= <- <-] Hp Hl.
  destruct (step_spec o b b1 o1 Ho Hw E) as (S1 & S2 & S3 & _ & S5).
  destruct (IH b1 b2 o2 p Hos S1 E2) as [I1 I2]; [destruct o; lia|intros [?| ->]%S3; [done|lia]|].
  split; [|done]. rewrite got_app, I1, app_nil_r. specialize (S5 p). unfold held in S5.
  destruct (arcs b !! p) eqn:Ep; [destruct Hl; by eexists|]. by apply prefix_nil_inv in S5.
Qed.
Lemma run_spec os : forall b b' out p, Forall op_ok os -> wf b -> run os b = Some (b', out) -> live b p \/ fresh b <= p ->
  (live b' p -> got p out ++ held p b' = held p b ++ owed p (fresh b) os) /\ got p out `prefix_of` held p b ++ owed p (fresh b) os.
Proof.
  induction os as [|o os IH]; intros b b' out p Hok Hw; cbn [run owed].
  { intros [= <- <-] _. rewrite app_nil_r. split; [done|apply prefix_nil]. }
  inversion Hok as [|? ? Ho Hos]; subst. destruct (step o b) as [[b1 o1]|] eqn:E; [|done].
  destruct (run os b1) as [[b2 o2]|] eqn:E2; [|done]. intros [= <- <-] Hp. rewrite !got_app.
  destruct (step_spec o b b1 o1 Ho Hw E) as (S1 & S2 & S3 & S4 & S5).
  set (more := match o with OPush a => if p <? fresh b then [a] else [] | _ => [] end).
  assert (Ow : match o with OPush a => (if p <? fresh b then [a] else []) ++ owed p (fresh b) os
    | OClone _ => owed p (fresh b + 1) os | ODrop _ | ODrain _ | ODrainN _ _ | ORecv _ | OPoll _ _ => owed p (fresh b) os end
    = more ++ owed p (fresh b1) os).
  { unfold more. rewrite S2. destruct o; cbn; by rewrite ?Z.add_0_r. }
  rewrite Ow. clear Ow. specialize (IH b1 b2 o2 p Hos S1 E2).
  assert (Lt : forall b q, wf b -> live b q -> q < fresh b) by (intros b0 q [_ L F] Hq; by apply F, L).
  assert (Eq : live b1 p \/ fresh b1 <= p -> got p o1 ++ held p b1 = held p b ++ more).
  { intros [Hl|Hl].
    - rewrite (S4 p Hl). f_equal. unfold more. destruct o; try done. rewrite (proj2 (Z.ltb_lt p (fresh b))); [done|].
      pose proof (Lt b1 p S1 Hl). lia.
    - assert (fresh b <= p) as Hf by (rewrite S2 in Hl; destruct o; lia).
      assert (D : forall b, wf b -> fresh b <= p -> held p b = []).
      { intros b0 W0 F0. unfold held. destruct (arcs b0 !! p) eqn:Ep; [|done]. assert (p < fresh b0) by (apply Lt; [done|by eexists]). lia. }
      specialize (S5 p). rewrite (D b Hw Hf) in *. rewrite (D b1 S1 Hl), app_nil_r. apply prefix_nil_inv in S5 as ->. unfold more.
      destruct o; try done. by rewrite (proj2 (Z.ltb_ge p (fresh b))). }
  destruct (decide (live b1 p \/ fresh b1 <= p)) as [Hn|Hn].
  - specialize (Eq Hn). destruct (IH Hn) as [I1 I2]. rewrite (assoc_L (++)), <- Eq, <- !(assoc_L (++)). split.
    + intros Hl. by rewrite I1.
    + by apply prefix_app.
  - destruct (gone_stays os b1 b2 o2 p Hos S1 E2) as [G1 G2]; [lia|tauto|]. rewrite G1, app_nil_r. split; [done|].
    apply prefix_app_r. apply S5.
Qed.

(** C17: every clone of a broadcast handle gets every message.
    Whatever is pushed, cloned, dropped and read in whatever order, by
    whichever of the reading methods: a handle gets the messages pushed
    since it was made, each once and in order, the rest being in its queue;
    one that was dropped got a front part of them. *)
Theorem broadcast_to_each os b out p : Forall op_ok os ->
  run os (new empty).1 = Some (b, out) -> 0 <= p ->
  got p out `prefix_of` owed p 1 os /\
  forall s, upgrade p b = Some s -> got p out ++ contents (queue s) = owed p 1 os.
Proof.
  intros Hok E Hp.
  assert (Hw : wf (new (empty : broadcast)).1).
  { split; cbn; [apply NoDup_singleton| |].
    - intros q. destruct (decide (q = 0)) as [->|Nq]; [intros _; by left|]. rewrite lookup_insert_ne by done. rewrite lookup_empty. by intros [].
    - intros q [->|[]%elem_of_nil]%elem_of_cons. lia. }
  assert (H0 : held p (new (empty : broadcast)).1 = []).
  { unfold held. cbn. destruct (decide (p = 0)) as [->|Nq]; [rewrite lookup_insert_eq; cbn; by rewrite contents_new|].
    by rewrite lookup_insert_ne. }
  destruct (run_spec os _ b out p Hok Hw E) as [R1 R2].
  { destruct (decide (p = 0)) as [->|Nq]; [left; unfold live; cbn; rewrite lookup_insert_eq; by eexists|right; cbn; lia]. }
  rewrite H0 in *. split; [exact R2|]. intros s Es. unfold held in R1. unfold upgrade in Es. rewrite Es in R1. apply R1. unfold live. rewrite Es. by eexists.
Qed.
End broadcast.

(** Two handles, the second made after the first message, the first
    dropped before the last. *)
Definition demo_ops : list (Op (A := Z) (W := Z)) :=
  [OPush 1; OClone 0; OPush 2; ODrainN 0 1; OPoll 1 7; OPush 3; ODrain 0; ODrop 0; OPush 4; ORecv 1].
Definition demo_out : list (Z * list Z) := match run (Q := list Z) demo_ops (Broadcast.new Broadcast.empty).1 with Some (_, out) => out | None => [] end.
Example demo_readers : (got 0 demo_out, got 1 demo_out) = ([1; 2; 3], [2; 3]).
Proof. vm_compute. reflexivity. Qed.
Lemma broadcast_to_each_witness : owed 1 1 demo_ops = [2; 3; 4] /\ got 1 demo_out `prefix_of` owed 1 1 demo_ops.
Proof.
  split; [reflexivity|]. unfold demo_out. destruct (run (Q := list Z) demo_ops _) as [[b out]|] eqn:E; [|apply prefix_nil].
  apply (broadcast_to_each (Q := list Z) demo_ops b out 1); [|exact E|lia]. repeat apply Forall_cons_2; cbn; try done.
Defined.
End SlotQueueProps.
