(* ===== verification/TypedDriver.v ===== *)
(** * The typed driver (src/src/driver/typed.rs, typed_slot.rs)

    One engine, any number of slots: a slot is a parser core and the queue
    its messages go to.  Lifecycle events are appended to the caller's
    vector and messages pushed on queues; what a call does to the outside is
    the list of both, in order ([Item]), each message under its slot.  Slots
    have different message types: [M] stands for their sum, and a slot's
    [sink] is the injection of its own. *)

From stdpp Require Import gmap sorting.
From S2P Require Import Prelude Time Flow Config ParserKind Chunks Packet Event Lru Tracker Dedup Reassembler Segment Factory StreamState FlowDriver Parser SessionCore DatagramCore SessionEngine SessionDriver DriverSession DriverEvents EngineProps SlotQueue.
Open Scope Z_scope.

(** ** [driver::Event] *)
Module DriverEvent.
Section driver_event.
Context {K : Type}.
Inductive t :=
  | Started (key : K) (orientation : Orientation) (ts : Timestamp.t) (l4 : option L4Proto)
  | Established (key : K) (ts : Timestamp.t) (l4 : option L4Proto)
  | StateChange (key : K) (from to : FlowState) (ts : Timestamp.t)
  | Packet (key : K) (side : FlowSide) (orientation : Orientation) (len : Z) (ts : Timestamp.t)
      (tcp : option TcpInfo.t) (source_idx : option Z)
  | Ended (key : K) (reason : EndReason) (stats : FlowStats.t) (history : list Z) (l4 : option L4Proto) (ts : Timestamp.t)
  | Tick (key : K) (stats : FlowStats.t) (ts : Timestamp.t)
  | ParserClosed (key : K) (slot : SlotId.t) (kind : ParserKind.t) (reason : EndReason) (detail : option (list Z))
      (ts : Timestamp.t)
  | ParserSideStopped (key : K) (slot : SlotId.t) (kind : ParserKind.t) (side : FlowSide) (reason : EndReason)
      (detail : option (list Z)) (ts : Timestamp.t)
  | FlowAnomaly (key : K) (kind : AnomalyKind) (ts : Timestamp.t)
  | TrackerAnomaly (kind : AnomalyKind) (ts : Timestamp.t).

Definition key (e : t) : option K :=
  match e with
  | Started k _ _ _ | Established k _ _ | StateChange k _ _ _ | Packet k _ _ _ _ _ _ | Ended k _ _ _ _ _ | Tick k _ _
  | ParserClosed k _ _ _ _ _ | ParserSideStopped k _ _ _ _ _ _ | FlowAnomaly k _ _ => Some k
  | TrackerAnomaly _ _ => None
  end.
Definition tcp (e : t) : option TcpInfo.t := match e with Packet _ _ _ _ _ i _ => i | _ => None end.
Definition timestamp (e : t) : Timestamp.t :=
  match e with
  | Started _ _ ts _ | Established _ ts _ | StateChange _ _ _ ts | Packet _ _ _ _ ts _ _ | Ended _ _ _ _ _ ts | Tick _ _ ts
  | ParserClosed _ _ _ _ _ ts | ParserSideStopped _ _ _ _ _ _ ts | FlowAnomaly _ _ ts | TrackerAnomaly _ ts => ts
  end.
Definition into_flow_event (e : t) : option (FlowEvent K) :=
  match e with
  | Started key orientation ts l4 => Some (Event.Started key Initiator orientation ts l4)
  | Established key ts l4 => Some (Established_ key ts l4)
  | StateChange key from to ts => Some (Event.StateChange key from to ts)
  | Packet key side orientation len ts _ source_idx => Some (Event.Packet key side orientation len ts source_idx)
  | Ended key reason stats history l4 _ => Some (Event.Ended key reason stats history l4)
  | Tick key stats ts => Some (Event.Tick key stats ts)
  | FlowAnomaly key kind ts => Some (Event.FlowAnomaly key kind ts)
  | TrackerAnomaly kind ts => Some (Event.TrackerAnomaly kind ts)
  | ParserClosed _ _ _ _ _ _ | ParserSideStopped _ _ _ _ _ _ _ => None
  end.
Definition to_flow_event (e : t) : option (FlowEvent K) := into_flow_event e.
(** [impl From<FlowEvent<K>> for Event<K>]. *)
Definition from (ev : FlowEvent K) : t :=
  match ev with
  | Event.Started key side orientation ts l4 =>
      Started key (match side with Initiator => orientation | Responder => flipped orientation end) ts l4
  | Established_ key ts l4 => Established key ts l4
  | Event.StateChange key from to ts => StateChange key from to ts
  | Event.Packet key side orientation len ts source_idx => Packet key side orientation len ts None source_idx
  | Event.Ended key reason stats history l4 => Ended key reason stats history l4 (FlowStats.last_seen stats)
  | Event.Tick key stats ts => Tick key stats ts
  | Event.FlowAnomaly key kind ts => FlowAnomaly key kind ts
  | Event.TrackerAnomaly kind ts => TrackerAnomaly kind ts
  end.
End driver_event.
#[global] Arguments t : clear implicits.
End DriverEvent.

Definition map_flow_event {K} (ev : FlowEvent K) (tcp : option TcpInfo.t) : option (DriverEvent.t K) :=
  match ev with
  | StateChange _ _ _ _ => None
  | _ =>
      Some match DriverEvent.from ev with
           | DriverEvent.Packet key side orientation len ts _ source_idx =>
               DriverEvent.Packet key side orientation len ts tcp source_idx
           | e => e
           end
  end.

(** ** What a call does *)
Inductive Item {K M : Type} := Lifecycle (e : DriverEvent.t K) | Pushed (slot : SlotId.t) (m : SlotMessage.t K M).
#[global] Arguments Item : clear implicits.

(** [len] is [events.len()], the length of the vector the call appends to. *)
Module Order.
Record t := mk { base : Z; start : Z; len : Z; seq : Z }.
#[global] Instance eta : Eta t := mk_eta (fun o => mk (base o) (start o) (len o) (seq o)).
Definition default : t := mk 0 0 0 0.
End Order.

(** [SlotOut], the [Output] of a slot. *)
Module SlotOut.
Section slot_out.
Context {K M0 M : Type} (sink : M0 -> M) (slot : SlotId.t).
Definition event (e : DriverEvent.t K) (o : Order.t) : Order.t * Item K M := (o <| Order.len ::= Z.add 1 |>, Lifecycle e).
Definition receive (x : Output.t K M0) (o : Order.t) : Order.t * Item K M :=
  match x with
  | Output.Message key side orientation message ts _ =>
      let pos := Order.base o + (Order.len o - Order.start o) in
      let seq := Order.seq o in
      (o <| Order.seq ::= Z.add 1 |>,
       Pushed slot (SlotMessage.with_order pos seq (SlotMessage.new key side orientation (sink message) ts)))
  | Output.ParserClosed key kind reason detail ts _ => event (DriverEvent.ParserClosed key slot kind reason detail ts) o
  | Output.ParserSideStopped key kind side reason detail ts =>
      event (DriverEvent.ParserSideStopped key slot kind side reason detail ts) o
  | Output.Anomaly key kind ts =>
      let kind := match kind with
                  | SessionParseError side reason parser_kind _ => SessionParseError side reason parser_kind (Some slot)
                  | _ => kind
                  end in
      event (DriverEvent.FlowAnomaly key kind ts) o
  end.
Fixpoint receive_all (xs : list (Output.t K M0)) (o : Order.t) : Order.t * list (Item K M) :=
  match xs with
  | [] => (o, [])
  | x :: xs => let (o, i) := receive x o in let (o, l) := receive_all xs o in (o, i :: l)
  end.
End slot_out.
End SlotOut.

(** ** Slots *)
Module ErasedSlot.
Class t (K M S : Type) := {
  id : S -> SlotId.t;
  needs_ports : S -> bool;
  wants_stream : Ports -> S -> bool;
  wants_datagram : Ports -> option L4Proto -> S -> bool;
  on_stream : Ctx.t K -> Ports -> Stream.t -> Order.t -> S -> S * Order.t * list (Item K M);
  streams_done : K -> Ports -> S -> Sides.t bool;
  on_datagram : Ctx.t K -> Ports -> list Z -> Order.t -> S -> S * Order.t * list (Item K M);
  on_flow_end : K -> EndReason -> FlowStats.t -> Sides.t StreamChunks.t -> Ports -> Emit.t -> Order.t -> S ->
    S * Order.t * list (Item K M);
  on_tick : Timestamp.t -> Timestamp.t -> (K -> Orientation) -> Emit.t -> Order.t -> S -> S * Order.t * list (Item K M);
  retain : (K -> bool) -> S -> S }.
#[global] Hint Mode t - - ! : typeclass_instances.
End ErasedSlot.

Module SessionSlot.
Section slot.
Context {K F P M0 M : Type} `{Countable K} `{SessionParser P M0} `{!SessionParserFactory K F P} `{!IterOrder K (SessionFlow.t P)}.
Record t := mk { core : SessionCore.t K F P; sink : M0 -> M; id : SlotId.t }.
#[global] Instance eta : Eta t := mk_eta (fun s => mk (core s) (sink s) (id s)).
Definition send (s : t) (o : Order.t) (r : SessionCore.t K F P * list (Output.t K M0)) : t * Order.t * list (Item K M) :=
  let (o, items) := SlotOut.receive_all (sink s) (id s) r.2 o in (s <| core := r.1 |>, o, items).
#[global] Instance erased : ErasedSlot.t K M t := {
  ErasedSlot.id := id;
  ErasedSlot.needs_ports s := Selector.needs_ports (SessionCore.selector (core s));
  ErasedSlot.wants_stream ports s := SessionCore.wants ports (core s);
  ErasedSlot.wants_datagram _ _ _ := false;
  ErasedSlot.on_stream cx ports chunks o s := send s o (SessionCore.on_stream cx ports chunks (core s));
  ErasedSlot.streams_done k ports s := SessionCore.streams_done k ports (core s);
  ErasedSlot.on_datagram _ _ _ o s := (s, o, []);
  ErasedSlot.on_flow_end k reason stats finals ports emit o s :=
    send s o (SessionCore.on_flow_end k reason stats finals ports emit (core s));
  ErasedSlot.on_tick now stamp orientation_of emit o s :=
    send s o (SessionCore.on_tick iter_order now stamp orientation_of emit (core s));
  ErasedSlot.retain alive s := s <| core ::= SessionCore.retain alive |> }.
End slot.
#[global] Arguments t K F P M0 M {_ _}.
End SessionSlot.

Module DatagramSlot.
Section slot.
Context {K F P M0 M : Type} `{Countable K} `{DatagramParser P M0} `{!DatagramParserFactory K F P} `{!IterOrder K (DatagramFlow.t P)}.
Record t := mk { core : DatagramCore.t K F P; sink : M0 -> M; id : SlotId.t }.
#[global] Instance eta : Eta t := mk_eta (fun s => mk (core s) (sink s) (id s)).
Definition send (s : t) (o : Order.t) (r : DatagramCore.t K F P * list (Output.t K M0)) : t * Order.t * list (Item K M) :=
  let (o, items) := SlotOut.receive_all (sink s) (id s) r.2 o in (s <| core := r.1 |>, o, items).
#[global] Instance erased : ErasedSlot.t K M t := {
  ErasedSlot.id := id;
  ErasedSlot.needs_ports s := Selector.needs_ports (DatagramCore.selector (core s));
  ErasedSlot.wants_stream _ _ := false;
  ErasedSlot.wants_datagram ports l4 s := DatagramCore.wants ports l4 (core s);
  ErasedSlot.on_stream _ _ _ o s := (s, o, []);
  ErasedSlot.streams_done _ _ _ := Sides.both true;
  ErasedSlot.on_datagram cx ports payload o s := send s o (DatagramCore.on_datagram cx ports payload (core s));
  ErasedSlot.on_flow_end k reason stats _ _ emit o s :=
    send s o (DatagramCore.on_flow_end k reason stats emit (core s));
  ErasedSlot.on_tick now stamp orientation_of emit o s :=
    send s o (DatagramCore.on_tick iter_order now stamp orientation_of emit (core s));
  ErasedSlot.retain alive s := s <| core ::= DatagramCore.retain alive |> }.
End slot.
#[global] Arguments t K F P M0 M {_ _}.
End DatagramSlot.

(** ** Slots behind pointers *)

(** What a dispatch is asked to do. *)
Inductive DispatchCall {K : Type} :=
  | CStream (cx : Ctx.t K) (ports : Ports) (s : Stream.t)
  | CDatagram (cx : Ctx.t K) (ports : Ports) (payload : list Z)
  | CFlowEnd (k : K) (reason : EndReason) (stats : FlowStats.t) (finals : Sides.t StreamChunks.t) (ports : Ports) (emit : Emit.t)
  | CTick (now stamp : Timestamp.t) (orientation_of : K -> Orientation) (emit : Emit.t)
  | CRetain (alive : K -> bool)
  | CLifecycle (ev : FlowEvent K) (tcp : option TcpInfo.t).
#[global] Arguments DispatchCall : clear implicits.
Definition slot_call {K M S} `{!ErasedSlot.t K M S} (c : DispatchCall K) (o : Order.t) (s : S) : S * Order.t * list (Item K M) :=
  match c with
  | CStream cx ports b => ErasedSlot.on_stream cx ports b o s
  | CDatagram cx ports b => ErasedSlot.on_datagram cx ports b o s
  | CFlowEnd k reason stats finals ports emit => ErasedSlot.on_flow_end k reason stats finals ports emit o s
  | CTick now stamp orientation_of emit => ErasedSlot.on_tick now stamp orientation_of emit o s
  | CRetain alive => (ErasedSlot.retain (M := M) alive s, o, [])
  | CLifecycle _ _ => (s, o, [])
  end.

Section contract.
Context {K M : Type}.
Notation items := (list (Item K M)).
(** Whether state of [k] may be there after a call, when [had] says it was. *)
Definition keeps (c : DispatchCall K) (had : Prop) (k : K) : Prop :=
  match c with
  | CStream cx _ _ | CDatagram cx _ _ => had \/ k = Ctx.key cx
  | CFlowEnd k' _ _ _ _ _ => had /\ k <> k'
  | CTick _ _ _ _ | CLifecycle _ _ => had
  | CRetain alive => had /\ alive k = true
  end.
(** The marks of each message count what was said before it. *)
Fixpoint marked (o : Order.t) (l : items) (o' : Order.t) : Prop :=
  match l with
  | [] => o' = o
  | Lifecycle _ :: l => marked (o <| Order.len ::= Z.add 1 |>) l o'
  | Pushed _ m :: l =>
      SlotMessage.lifecycle_pos m = Order.base o + (Order.len o - Order.start o) /\ SlotMessage.seq m = Order.seq o /\
      marked (o <| Order.seq ::= Z.add 1 |>) l o'
  end.
(** Whose item it is, where it says. *)
Definition tag (i : Item K M) : option SlotId.t :=
  match i with
  | Pushed slot _ => Some slot
  | Lifecycle (DriverEvent.ParserClosed _ slot _ _ _ _) | Lifecycle (DriverEvent.ParserSideStopped _ slot _ _ _ _ _) => Some slot
  | Lifecycle (DriverEvent.FlowAnomaly _ (SessionParseError _ _ _ slot) _) => slot
  | Lifecycle _ => None
  end.
Definition unmark (i : Item K M) : Item K M :=
  match i with Pushed slot m => Pushed slot (SlotMessage.with_order 0 0 m) | Lifecycle e => Lifecycle e end.
(** What a slot says, marks aside. *)
Definition said (slot : SlotId.t) (l : items) : items :=
  unmark <$> List.filter (fun i => bool_decide (tag i = Some slot)) l.
End contract.

(** What the driver relies on: a slot keeps state only of flows it was
    handed something of, speaks under its own name, marks its messages, and
    does not look at the marks. *)
Class ErasedSlotLaws (K M S : Type) `{!ErasedSlot.t K M S} := {
  slot_has : S -> K -> Prop;
  slot_keeps (c : DispatchCall K) o (s : S) k : slot_has (slot_call (M := M) c o s).1.1 k -> keeps c (slot_has s k) k;
  slot_id (c : DispatchCall K) o (s : S) :
    ErasedSlot.id (K := K) (M := M) (slot_call (M := M) c o s).1.1 = ErasedSlot.id (K := K) (M := M) s;
  slot_marks (c : DispatchCall K) o (s : S) : marked (M := M) o (slot_call c o s).2 (slot_call (M := M) c o s).1.2;
  slot_tags (c : DispatchCall K) o (s : S) :
    Forall (fun i : Item K M => tag i = None \/ tag i = Some (ErasedSlot.id (K := K) (M := M) s)) (slot_call c o s).2;
  slot_blind (c : DispatchCall K) o o' (s : S) :
    (slot_call (M := M) c o s).1.1 = (slot_call (M := M) c o' s).1.1 /\
    unmark (M := M) <$> (slot_call c o s).2 = unmark <$> (slot_call c o' s).2 }.

(** [Box<dyn ErasedSlot<K>>]: a slot of any type. *)
Module Boxed.
Section boxed.
Context {K M : Type}.
Record t := box { carrier : Type; methods : ErasedSlot.t K M carrier; contract : ErasedSlotLaws K M carrier; slot : carrier }.
Definition back (b : t) (r : carrier b * Order.t * list (Item K M)) : t * Order.t * list (Item K M) :=
  (box (carrier b) (methods b) (contract b) r.1.1, r.1.2, r.2).
#[global] Instance erased : ErasedSlot.t K M t := {
  ErasedSlot.id b := @ErasedSlot.id _ _ _ (methods b) (slot b);
  ErasedSlot.needs_ports b := @ErasedSlot.needs_ports _ _ _ (methods b) (slot b);
  ErasedSlot.wants_stream ports b := @ErasedSlot.wants_stream _ _ _ (methods b) ports (slot b);
  ErasedSlot.wants_datagram ports l4 b := @ErasedSlot.wants_datagram _ _ _ (methods b) ports l4 (slot b);
  ErasedSlot.on_stream cx ports chunks o b := back b (@ErasedSlot.on_stream _ _ _ (methods b) cx ports chunks o (slot b));
  ErasedSlot.streams_done k ports b := @ErasedSlot.streams_done _ _ _ (methods b) k ports (slot b);
  ErasedSlot.on_datagram cx ports payload o b := back b (@ErasedSlot.on_datagram _ _ _ (methods b) cx ports payload o (slot b));
  ErasedSlot.on_flow_end k reason stats finals ports emit o b :=
    back b (@ErasedSlot.on_flow_end _ _ _ (methods b) k reason stats finals ports emit o (slot b));
  ErasedSlot.on_tick now stamp orientation_of emit o b :=
    back b (@ErasedSlot.on_tick _ _ _ (methods b) now stamp orientation_of emit o (slot b));
  ErasedSlot.retain alive b := box (carrier b) (methods b) (contract b) (@ErasedSlot.retain _ _ _ (methods b) alive (slot b)) }.
End boxed.
#[global] Arguments t : clear implicits.
End Boxed.

(** ** [Slots], the dispatch of the typed driver *)
Module Slots.
Section slots.
Context {K M : Type}.
Notation boxed := (Boxed.t K M).
Notation items := (list (Item K M)).
Record t := mk { list : list boxed; needs_ports : bool; emit_packet_details : bool; order : Order.t }.
#[global] Instance eta : Eta t := mk_eta (fun s => mk (list s) (needs_ports s) (emit_packet_details s) (order s)).

(** [for slot in &mut self.list]. *)
Fixpoint each (f : Order.t -> boxed -> boxed * Order.t * items) (l : Datatypes.list boxed) (o : Order.t)
    : Datatypes.list boxed * Order.t * items :=
  match l with
  | [] => ([], o, [])
  | b :: l =>
      let '(b, o, out) := f o b in
      let '(l, o, out') := each f l o in
      (b :: l, o, out ++ out')
  end.
Definition each_slot (f : Order.t -> boxed -> boxed * Order.t * items) (s : t) : t * items :=
  let '(l, o, out) := each f (list s) (order s) in (s <| list := l |> <| order := o |>, out).
Fixpoint all_done (k : K) (ports : Ports) (done : Sides.t bool) (l : Datatypes.list boxed) : Sides.t bool :=
  match l with
  | [] => done
  | b :: l =>
      let d := ErasedSlot.streams_done k ports b in
      let done := Sides.mk (Sides.initiator done && Sides.initiator d) (Sides.responder done && Sides.responder d) in
      if negb (Sides.initiator done) && negb (Sides.responder done) then done else all_done k ports done l
  end.
Definition on_lifecycle (ev : FlowEvent K) (tcp : option TcpInfo.t) (s : t) : t * items :=
  let tcp := if emit_packet_details s then tcp else None in
  match map_flow_event ev tcp with
  | Some e => (s <| order ::= fun o => o <| Order.len ::= Z.add 1 |> |>, [Lifecycle e])
  | None => (s, [])
  end.
#[global] Instance dispatch : Dispatch K t (Item K M) := {
  SessionEngine.needs_ports := needs_ports;
  SessionEngine.wants_stream ports s := existsb (ErasedSlot.wants_stream ports) (list s);
  SessionEngine.wants_datagram ports l4 s := existsb (ErasedSlot.wants_datagram ports l4) (list s);
  SessionEngine.on_stream cx ports chunks := each_slot (ErasedSlot.on_stream cx ports chunks);
  SessionEngine.streams_done k ports s := all_done k ports (Sides.both true) (list s);
  SessionEngine.on_datagram cx ports payload := each_slot (ErasedSlot.on_datagram cx ports payload);
  SessionEngine.on_flow_end k reason stats finals ports emit := each_slot (ErasedSlot.on_flow_end k reason stats finals ports emit);
  dispatch_tick now stamp orientation_of emit := each_slot (ErasedSlot.on_tick now stamp orientation_of emit);
  SessionEngine.retain alive s := s <| list ::= fmap (ErasedSlot.retain (M := M) alive) |>;
  SessionEngine.lifecycle := on_lifecycle }.
End slots.
#[global] Arguments t : clear implicits.
End Slots.

(** ** [Driver] *)
Module TypedDriver.
Section driver.
Context {K M C : Type} `{Countable K} `{!Lru K (FlowEntry.t unit) C} `{FrameParser}.
Notation F := SegmentBufferReassemblerFactory.t.
Notation R := SegmentBufferReassembler.t.
Notation items := (list (Item K M)).
Notation flow_driver_t := (FlowDriver.t K C F R).
Variable extract : PacketView.t -> option (Extracted.t K).
Variable hash_frame : list Z -> Z.
Variable order : gmap K (StreamFlow.t R) -> list (K * StreamFlow.t R).

Record t := mk { engine : Engine.t K C F R; slots : Slots.t K M; lifecycle_seq : Z }.
#[global] Instance eta : Eta t := mk_eta (fun d => mk (engine d) (slots d) (lifecycle_seq d)).
(** The events among the items: what the caller's vector grows by. *)
Definition lifecycles (l : items) : list (DriverEvent.t K) := omap (fun i => match i with Lifecycle e => Some e | _ => None end) l.
(** [len] is the length of the vector [out]. *)
Definition begin (len : Z) (d : t) : t :=
  d <| slots ::= fun s => s <| Slots.order ::= fun o =>
         o <| Order.base := lifecycle_seq d |> <| Order.start := len |> <| Order.len := len |> |> |>.
Definition end_ (out : items) (d : t) : t := d <| lifecycle_seq ::= Z.add (zlen (lifecycles out)) |>.

Definition track_into (view : PacketView.t) (len : Z) (d : t) : option (t * items) :=
  let d := begin len d in
  match Engine.track extract hash_frame order view (engine d) (slots d) with
  | Some (e, s, out) => Some (end_ out (d <| engine := e |> <| slots := s |>), out)
  | None => None
  end.
Definition sweep_into (now : Timestamp.t) (len : Z) (d : t) : t * items :=
  let d := begin len d in
  let '(e, s, out) := Engine.sweep order now (engine d) (slots d) in (end_ out (d <| engine := e |> <| slots := s |>), out).
Definition finish_into (len : Z) (d : t) : t * items :=
  let d := begin len d in
  let '(e, s, out) := Engine.finish (engine d) (slots d) in (end_ out (d <| engine := e |> <| slots := s |>), out).
Definition force_close_into (k : K) (now : Timestamp.t) (len : Z) (d : t) : t * items :=
  let d := begin len d in
  let '(e, s, out) := Engine.force_close k now (engine d) (slots d) in (end_ out (d <| engine := e |> <| slots := s |>), out).
Definition track (view : PacketView.t) : t -> option (t * items) := track_into view 0.
Definition sweep (now : Timestamp.t) : t -> t * items := sweep_into now 0.
Definition finish : t -> t * items := finish_into 0.
Definition force_close (k : K) (now : Timestamp.t) : t -> t * items := force_close_into k now 0.

Definition on_flow (f : flow_driver_t -> flow_driver_t) (d : t) : t := d <| engine ::= fun e => e <| Engine.flow ::= f |> |>.
Definition flow_driver (d : t) : flow_driver_t := Engine.flow (engine d).
Definition tracker (d : t) : FlowTracker.t K C := FlowDriver.tracker (flow_driver d).
Definition set_idle_timeout_fn (f : K -> option L4Proto -> option Z) : t -> t := on_flow (FlowDriver.with_idle_timeout_fn f).
Definition set_config (c : FlowTrackerConfig.t) : t -> t := on_flow (FlowDriver.set_config c).
Definition dedup (d : t) : option Dedup.t := FlowDriver.dedup (flow_driver d).
Definition set_dedup (x : option Dedup.t) : t -> t := on_flow (FlowDriver.set_dedup x).
Definition pause_events : t -> t := on_flow FlowDriver.pause_events.
Definition resume_events : t -> t := on_flow FlowDriver.resume_events.
Definition snapshot_flow_stats (d : t) : list (K * FlowStats.t) := FlowDriver.snapshot_flow_stats (flow_driver d).
End driver.
#[global] Arguments t K M C {_ _}.
End TypedDriver.

(** ** The two slots keep the contract *)
Section slot_out.
Context {K M0 M : Type} (sink : M0 -> M) (slot : SlotId.t).
Notation receive_all := (SlotOut.receive_all (K := K) sink slot).
Implicit Types (xs : list (Output.t K M0)) (o : Order.t).
Lemma receive_all_marked xs : forall o, marked o (receive_all xs o).2 (receive_all xs o).1.
Proof.
  induction xs as [|x xs IH]; intros o; [done|]. cbn [SlotOut.receive_all].
  destruct x as [k sd orn m ts kd|k kd rs dt ts fe|k kd sd rs dt ts|k an ts]; cbn [SlotOut.receive SlotOut.event];
    match goal with |- context[receive_all xs ?o'] => specialize (IH o'); destruct (receive_all xs o') as [o2 l] end; cbn; [|exact IH..].
  split_and!; [done|done|exact IH].
Qed.
Lemma receive_all_tags xs : forall o, Forall (fun i : Item K M => tag i = None \/ tag i = Some slot) (receive_all xs o).2.
Proof.
  induction xs as [|x xs IH]; intros o; [by apply Forall_nil|]. cbn [SlotOut.receive_all].
  destruct x as [k sd orn m ts kd|k kd rs dt ts fe|k kd sd rs dt ts|k an ts]; cbn [SlotOut.receive SlotOut.event];
    match goal with |- context[receive_all xs ?o'] => specialize (IH o'); destruct (receive_all xs o') as [o2 l] end;
    (apply Forall_cons; split; [|exact IH]); [by right..|]. destruct an; cbn; auto.
Qed.
Lemma receive_all_blind xs : forall o o', unmark <$> (receive_all xs o).2 = unmark <$> (receive_all xs o').2.
Proof.
  induction xs as [|x xs IH]; intros o o'; [done|]. cbn [SlotOut.receive_all].
  destruct x as [k sd orn m ts kd|k kd rs dt ts fe|k kd sd rs dt ts|k an ts]; cbn [SlotOut.receive SlotOut.event];
    match goal with |- context[receive_all xs ?a] => match goal with |- context[receive_all xs ?b] => lazymatch a with b => fail | _ =>
      specialize (IH a b); destruct (receive_all xs a) as [o1 l1], (receive_all xs b) as [o2 l2] end end end; cbn in *; by f_equal.
Qed.
End slot_out.

Section session_slot.
Context {K F P M0 M : Type} `{Countable K} `{SessionParser P M0} `{!SessionParserFactory K F P}.
Context `{!IterOrder K (SessionFlow.t P), !IterOrderLaw K (SessionFlow.t P)}.
Notation slot := (SessionSlot.t K F P M0 M).
Implicit Types s : slot.
Lemma session_send_facts s o r :
  (SessionSlot.send s o r).1.1 = s <| SessionSlot.core := r.1 |> /\
  marked o (SessionSlot.send s o r).2 (SessionSlot.send s o r).1.2 /\
  Forall (fun i => tag i = None \/ tag i = Some (SessionSlot.id s)) (SessionSlot.send s o r).2 /\
  forall o', unmark <$> (SessionSlot.send s o r).2 = unmark <$> (SessionSlot.send s o' r).2.
Proof.
  unfold SessionSlot.send. pose proof (receive_all_marked (SessionSlot.sink s) (SessionSlot.id s) r.2 o) as G1.
  pose proof (receive_all_tags (SessionSlot.sink s) (SessionSlot.id s) r.2 o) as G2.
  pose proof (receive_all_blind (SessionSlot.sink s) (SessionSlot.id s) r.2 o) as G3. destruct (SlotOut.receive_all _ _ r.2 o) as [o1 l].
  split_and!; [done..|]. intros o'. specialize (G3 o'). by destruct (SlotOut.receive_all _ _ r.2 o').
Qed.
#[global] Program Instance session_slot_laws : ErasedSlotLaws K M slot := {
  slot_has s k := is_Some (SessionCore.flows (SessionSlot.core s) !! k) }.
Next Obligation.
  intros c o s k. destruct c; cbn [slot_call ErasedSlot.on_stream ErasedSlot.on_datagram ErasedSlot.on_flow_end ErasedSlot.on_tick ErasedSlot.retain SessionSlot.erased keeps];
    rewrite ?(proj1 (session_send_facts _ _ _)).
  - exact (law_on_stream (D := SessionCore.t K F P) (O := SessionEvent.t K M0) cx ports s0 (SessionSlot.core s) k).
  - by left.
  - exact (law_on_flow_end (D := SessionCore.t K F P) (O := SessionEvent.t K M0) k0 reason stats finals ports emit (SessionSlot.core s) k).
  - exact (law_tick (D := SessionCore.t K F P) (O := SessionEvent.t K M0) now stamp orientation_of emit (SessionSlot.core s) k).
  - exact (law_retain (D := SessionCore.t K F P) (O := SessionEvent.t K M0) alive (SessionSlot.core s) k).
  - done.
Qed.
Next Obligation.
  intros c o s. destruct c; cbn [slot_call ErasedSlot.on_stream ErasedSlot.on_datagram ErasedSlot.on_flow_end ErasedSlot.on_tick SessionSlot.erased];
    rewrite ?(proj1 (session_send_facts _ _ _)); done.
Qed.
Next Obligation. intros c o s. destruct c; cbn; try done; apply session_send_facts. Qed.
Next Obligation. intros c o s. destruct c; cbn; try apply session_send_facts; by apply Forall_nil. Qed.
Next Obligation.
  intros c o o' s. destruct c; cbn [slot_call ErasedSlot.on_stream ErasedSlot.on_datagram ErasedSlot.on_flow_end ErasedSlot.on_tick SessionSlot.erased];
    try done; rewrite !(proj1 (session_send_facts _ _ _)); (split; [done|apply session_send_facts]).
Qed.
End session_slot.

Section datagram_slot.
Context {K F P M0 M : Type} `{Countable K} `{DatagramParser P M0} `{!DatagramParserFactory K F P}.
Context `{!IterOrder K (DatagramFlow.t P), !IterOrderLaw K (DatagramFlow.t P)}.
Notation slot := (DatagramSlot.t K F P M0 M).
Implicit Types s : slot.
Lemma datagram_send_facts s o r :
  (DatagramSlot.send s o r).1.1 = s <| DatagramSlot.core := r.1 |> /\
  marked o (DatagramSlot.send s o r).2 (DatagramSlot.send s o r).1.2 /\
  Forall (fun i => tag i = None \/ tag i = Some (DatagramSlot.id s)) (DatagramSlot.send s o r).2 /\
  forall o', unmark <$> (DatagramSlot.send s o r).2 = unmark <$> (DatagramSlot.send s o' r).2.
Proof.
  unfold DatagramSlot.send. pose proof (receive_all_marked (DatagramSlot.sink s) (DatagramSlot.id s) r.2 o) as G1.
  pose proof (receive_all_tags (DatagramSlot.sink s) (DatagramSlot.id s) r.2 o) as G2.
  pose proof (receive_all_blind (DatagramSlot.sink s) (DatagramSlot.id s) r.2 o) as G3. destruct (SlotOut.receive_all _ _ r.2 o) as [o1 l].
  split_and!; [done..|]. intros o'. specialize (G3 o'). by destruct (SlotOut.receive_all _ _ r.2 o').
Qed.
#[global] Program Instance datagram_slot_laws : ErasedSlotLaws K M slot := {
  slot_has s k := is_Some (DatagramCore.flows (DatagramSlot.core s) !! k) }.
Next Obligation.
  intros c o s k. destruct c; cbn [slot_call ErasedSlot.on_stream ErasedSlot.on_datagram ErasedSlot.on_flow_end ErasedSlot.on_tick ErasedSlot.retain DatagramSlot.erased keeps];
    rewrite ?(proj1 (datagram_send_facts _ _ _)).
  - by left.
  - exact (law_on_datagram (D := DatagramCore.t K F P) (O := SessionEvent.t K M0) cx ports payload (DatagramSlot.core s) k).
  - exact (law_on_flow_end (D := DatagramCore.t K F P) (O := SessionEvent.t K M0) k0 reason stats finals ports emit (DatagramSlot.core s) k).
  - exact (law_tick (D := DatagramCore.t K F P) (O := SessionEvent.t K M0) now stamp orientation_of emit (DatagramSlot.core s) k).
  - exact (law_retain (D := DatagramCore.t K F P) (O := SessionEvent.t K M0) alive (DatagramSlot.core s) k).
  - done.
Qed.
Next Obligation.
  intros c o s. destruct c; cbn [slot_call ErasedSlot.on_stream ErasedSlot.on_datagram ErasedSlot.on_flow_end ErasedSlot.on_tick DatagramSlot.erased];
    rewrite ?(proj1 (datagram_send_facts _ _ _)); done.
Qed.
Next Obligation. intros c o s. destruct c; cbn; try done; apply datagram_send_facts. Qed.
Next Obligation. intros c o s. destruct c; cbn; try apply datagram_send_facts; by apply Forall_nil. Qed.
Next Obligation.
  intros c o o' s. destruct c; cbn [slot_call ErasedSlot.on_stream ErasedSlot.on_datagram ErasedSlot.on_flow_end ErasedSlot.on_tick DatagramSlot.erased];
    try done; rewrite !(proj1 (datagram_send_facts _ _ _)); (split; [done|apply datagram_send_facts]).
Qed.
End datagram_slot.

(** A boxed slot keeps the contract of what is in the box. *)
#[global] Program Instance boxed_laws {K M} : ErasedSlotLaws K M (Boxed.t K M) := {
  slot_has b k := @slot_has _ _ _ _ (Boxed.contract b) (Boxed.slot b) k }.
Next Obligation. intros K M c o [S m L s] k. pose proof (slot_keeps c o s k) as G. destruct c; exact G. Qed.
Next Obligation. intros K M c o [S m L s]. pose proof (slot_id c o s) as G. destruct c; exact G. Qed.
Next Obligation. intros K M c o [S m L s]. pose proof (slot_marks c o s) as G. destruct c; exact G. Qed.
Next Obligation. intros K M c o [S m L s]. pose proof (slot_tags c o s) as G. destruct c; exact G. Qed.
Next Obligation.
  intros K M c o o' [S m L s]. destruct (slot_blind c o o' s) as [G1 G2].
  destruct c; cbn in *; (split; [|exact G2]); unfold Boxed.back; cbn; first [done|by rewrite G1].
Qed.

(** ** [DriverBuilder] *)
Module DriverBuilder.
Section builder.
Context {K M C : Type} `{Countable K} `{!Lru K (FlowEntry.t unit) C}.
Notation F := SegmentBufferReassemblerFactory.t.
Notation boxed := (Boxed.t K M).
Record t := mk {
  config_ : FlowTrackerConfig.t; monotonic : bool; anomalies : bool; packet_details : bool;
  packet_source_idx : option bool; dedup_ : option Dedup.t;
  timeouts : option (K -> option L4Proto -> option Z); slots : list boxed }.
#[global] Instance eta : Eta t := mk_eta (fun b =>
  mk (config_ b) (monotonic b) (anomalies b) (packet_details b) (packet_source_idx b) (dedup_ b) (timeouts b) (slots b)).
(** [Driver::builder]. *)
Definition builder : t := mk FlowTrackerConfig.default false false false None None None [].
Definition config (c : FlowTrackerConfig.t) (b : t) : t := b <| config_ := c |>.
Definition monotonic_timestamps (on : bool) (b : t) : t := b <| monotonic := on |>.
Definition emit_packet_details (on : bool) (b : t) : t := b <| packet_details := on |>.
Definition emit_packet_source_idx (on : bool) (b : t) : t := b <| packet_source_idx := Some on |>.
Definition emit_anomalies (on : bool) (b : t) : t := b <| anomalies := on |>.
Definition dedup (d : Dedup.t) (b : t) : t := b <| dedup_ := Some d |>.
Definition idle_timeout_fn (f : K -> option L4Proto -> option Z) (b : t) : t := b <| timeouts := Some f |>.
Definition next_slot_id (b : t) : SlotId.t := u32 (zlen (slots b)).

Definition push_slot {S} `{!ErasedSlot.t K M S, !ErasedSlotLaws K M S} (s : S) (b : t) : t :=
  b <| slots ::= fun l => l ++ [Boxed.box S _ _ s] |>.

Section session.
Context {G P M0 : Type} `{SessionParser P M0} `{!SessionParserFactory K G P}.
Context `{!IterOrder K (SessionFlow.t P), !IterOrderLaw K (SessionFlow.t P)}.
Definition push_session (factory : G) (selector : Selector.t) (sink : M0 -> M) (b : t) : t :=
  push_slot (SessionSlot.mk (SessionCore.new factory selector) sink (next_slot_id b) : SessionSlot.t K G P M0 M) b.
Definition add_session_factory (factory : G) (selector : Selector.t) (sink : M0 -> M) (b : t) : t * SlotHandle.t :=
  let id := next_slot_id b in (push_session factory selector sink b, SlotHandle.mk id ParserKind.Unspecified id).
Definition session_factory_on_ports (factory : G) (ports : list Z) : (M0 -> M) -> t -> t * SlotHandle.t :=
  add_session_factory factory (Selector.Ports ports).
Definition session_factory_broadcast (factory : G) : (M0 -> M) -> t -> t * SlotHandle.t :=
  add_session_factory factory Selector.All.
End session.
Section datagram.
Context {G P M0 : Type} `{DatagramParser P M0} `{!DatagramParserFactory K G P}.
Context `{!IterOrder K (DatagramFlow.t P), !IterOrderLaw K (DatagramFlow.t P)}.
Definition push_datagram (factory : G) (selector : Selector.t) (sink : M0 -> M) (b : t) : t :=
  push_slot (DatagramSlot.mk (DatagramCore.new factory selector) sink (next_slot_id b) : DatagramSlot.t K G P M0 M) b.
Definition add_datagram_factory (factory : G) (selector : Selector.t) (sink : M0 -> M) (b : t) : t * SlotHandle.t :=
  let id := next_slot_id b in (push_datagram factory selector sink b, SlotHandle.mk id ParserKind.Unspecified id).
Definition datagram_factory_on_ports (factory : G) (ports : list Z) : (M0 -> M) -> t -> t * SlotHandle.t :=
  add_datagram_factory factory (Selector.Ports ports).
Definition datagram_factory_broadcast (factory : G) : (M0 -> M) -> t -> t * SlotHandle.t :=
  add_datagram_factory factory Selector.All.
End datagram.
(** Parsers that are cloned for each flow. *)
Section session_template.
Context {P M0 : Type} `{SessionParser P M0} `{Clone P}.
Context `{!IterOrder K (SessionFlow.t P), !IterOrderLaw K (SessionFlow.t P)}.
Notation add := ((M0 -> M) -> t -> t * SlotHandle.t).
Definition add_session (parser : P) (selector : Selector.t) : add := fun sink b =>
  let id := next_slot_id b in
  (push_session (TemplateFactory.mk parser) selector sink b, SlotHandle.mk id (parser_kind parser) id).
Definition session_on_ports (parser : P) (ports : list Z) : add := add_session parser (Selector.Ports ports).
Definition session_broadcast (parser : P) : add := add_session parser Selector.All.
Definition session_heuristic_with_budget (parser : P) (signature : SignatureFn) (max_probe_packets : Z) : add :=
  add_session parser (Selector.Signature signature max_probe_packets).
Definition session_heuristic (parser : P) (signature : SignatureFn) : add :=
  session_heuristic_with_budget parser signature DEFAULT_PROBE_PACKETS.
(** The handle is the first subscriber of the slot's set. *)
Definition session_on_ports_broadcast_each (parser : P) (ports : list Z) (sink : M0 -> M) (b : t) : t * BroadcastSlotHandle.t :=
  let id := next_slot_id b in
  (push_session (TemplateFactory.mk parser) (Selector.Ports ports) sink b, BroadcastSlotHandle.mk id 0 (parser_kind parser) id).
End session_template.
Section datagram_template.
Context {P M0 : Type} `{DatagramParser P M0} `{Clone P}.
Context `{!IterOrder K (DatagramFlow.t P), !IterOrderLaw K (DatagramFlow.t P)}.
Notation add := ((M0 -> M) -> t -> t * SlotHandle.t).
Definition add_datagram (parser : P) (selector : Selector.t) : add := fun sink b =>
  let id := next_slot_id b in
  (push_datagram (TemplateFactory.mk parser) selector sink b, SlotHandle.mk id (dg_parser_kind parser) id).
Definition datagram_on_ports (parser : P) (ports : list Z) : add := add_datagram parser (Selector.Ports ports).
Definition datagram_broadcast (parser : P) : add := add_datagram parser Selector.All.
Definition datagram_heuristic_with_budget (parser : P) (signature : SignatureFn) (max_probe_packets : Z) : add :=
  add_datagram parser (Selector.Signature signature max_probe_packets).
Definition datagram_heuristic (parser : P) (signature : SignatureFn) : add :=
  datagram_heuristic_with_budget parser signature DEFAULT_PROBE_PACKETS.
End datagram_template.

Definition built_config (b : t) : FlowTrackerConfig.t :=
  match packet_source_idx b with
  | Some on => config_ b <| FlowTrackerConfig.emit_packet_source_idx := on |>
  | None => config_ b
  end.
Definition build (b : t) : TypedDriver.t K M C :=
  let set_flow (x : FlowDriver.t K C F SegmentBufferReassembler.t) :=
    let x := FlowDriver.set_emit_anomalies (anomalies b) x in
    let x := FlowDriver.set_monotonic_timestamps (monotonic b) x in
    let x := FlowDriver.set_dedup (dedup_ b) x in
    match timeouts b with Some f => FlowDriver.with_idle_timeout_fn f x | None => x end in
  let engine := Engine.new SegmentBufferReassemblerFactory.default (built_config b) in
  TypedDriver.mk (engine <| Engine.flow ::= set_flow |>)
    (Slots.mk (slots b) (existsb (ErasedSlot.needs_ports (K := K) (M := M)) (slots b)) (packet_details b) Order.default) 0.
End builder.
#[global] Arguments t : clear implicits.
End DriverBuilder.

(** ** What an engine makes of its dispatch

    Every call of an engine comes down to a sequence of dispatch calls. *)
Section serve.
Context {K D O : Type} `{!Dispatch K D O}.
Implicit Types d : D.
Definition serve1 (c : DispatchCall K) d : D * list O :=
  match c with
  | CStream cx ports s => on_stream cx ports s d
  | CDatagram cx ports payload => on_datagram cx ports payload d
  | CFlowEnd k reason stats finals ports emit => on_flow_end k reason stats finals ports emit d
  | CTick now stamp orientation_of emit => dispatch_tick now stamp orientation_of emit d
  | CRetain alive => (retain alive d, [])
  | CLifecycle ev tcp => lifecycle ev tcp d
  end.
Fixpoint serve (cs : list (DispatchCall K)) d : D * list O :=
  match cs with
  | [] => (d, [])
  | c :: cs => let (d, out) := serve1 c d in let (d, out') := serve cs d in (d, out ++ out')
  end.
Definition served d (r : D * list O) : Prop := exists cs, serve cs d = r.
Lemma serve_app cs cs' d : serve (cs ++ cs') d = ((serve cs' (serve cs d).1).1, (serve cs d).2 ++ (serve cs' (serve cs d).1).2).
Proof.
  revert d. induction cs as [|c cs IH]; intros d; cbn; [by destruct (serve cs' d)|]. destruct (serve1 c d) as [d1 o1]. rewrite IH.
  destruct (serve cs d1) as [d2 o2]. cbn. by rewrite app_assoc.
Qed.
Lemma served_refl d : served d (d, []).
Proof. by exists []. Qed.
Lemma served_one c d : served d (serve1 c d).
Proof. exists [c]. cbn. destruct (serve1 c d) as [d1 o]. by rewrite app_nil_r. Qed.
Lemma served_trans d d1 d2 o1 o2 : served d (d1, o1) -> served d1 (d2, o2) -> served d (d2, o1 ++ o2).
Proof. intros [cs E1] [cs' E2]. exists (cs ++ cs'). rewrite serve_app, E1. cbn [fst snd]. by rewrite E2. Qed.

Section engine.
Context {C F R : Type} `{Countable K} `{!Lru K (FlowEntry.t unit) C}.
Context `{Reassembler R} `{Diagnostics R} `{!ReassemblerFactory K F R} `{FrameParser}.
Variable extract : PacketView.t -> option (Extracted.t K).
Variable hash_frame : list Z -> Z.
Variable order : gmap K (StreamFlow.t R) -> list (K * StreamFlow.t R).
Implicit Types (x : FlowDriver.t K C F R).
Import Engine.

Lemma show_served shown evs : forall d, served d (show shown evs d).
Proof.
  induction evs as [|a evs IH]; intros d; cbn; [apply served_refl|].
  assert (served d (if shown a then lifecycle a None d else (d, []))) as G.
  { case_if; [apply (served_one (CLifecycle a None))|apply served_refl]. }
  destruct (if shown a then lifecycle a None d else (d, [])) as [d1 o1]. specialize (IH d1).
  destruct (show shown evs d1) as [d2 o2]. by eapply served_trans.
Qed.
Lemma end_flow_served k reason stats visible gate x d :
  let '(_, d', _, out) := end_flow k reason stats visible gate x d in served d (d', out).
Proof.
  unfold end_flow. destruct (FlowDriver.close_flow k stats x) as [[x1 stats1] an].
  pose proof (show_served (fun a => FlowDriver.emits a x1) an d) as G1. destruct (show _ an d) as [d1 o1].
  destruct (FlowDriver.drain_stream k Initiator _ x1) as [[x2 init] b1]. destruct (FlowDriver.drain_stream k Responder _ x2) as [[x3 resp] b2].
  set (c := CFlowEnd k reason stats1 (Sides.mk init resp) (FlowDriver.stream_ports k x3) (gate <| Emit.flow_end_closes := visible |>)).
  pose proof (served_one c d1) as G2. cbn in G2. destruct (on_flow_end _ _ _ _ _ _ d1) as [d2 o2]. by eapply served_trans.
Qed.
Lemma forward_served ev tcp gate x d : let '(_, d', _, out) := forward ev tcp gate x d in served d (d', out).
Proof.
  unfold forward. cbv zeta.
  assert (let '(_, _, d', o) := match ev with
    | Ended k reason stats history l4 =>
        let '(x, d, stats, out) := end_flow k reason stats (FlowDriver.emits ev x) gate x d in (Ended k reason stats history l4, x, d, out)
    | _ => (ev, x, d, @nil O)
    end in served d (d', o)) as G.
  { destruct ev; try apply served_refl. pose proof (end_flow_served key reason stats (FlowDriver.emits (Ended key reason stats history l4) x) gate x d) as G.
    by destruct (end_flow key reason stats _ gate x d) as [[[x' d'] st] o]. }
  destruct (match ev with Ended _ _ _ _ _ => _ | _ => _ end) as [[[ev' x'] d'] o1]. destruct (negb _); [done|].
  destruct (match ev' with Packet _ _ _ _ _ _ => _ | _ => _ end) as [tcp' tcp''].
  pose proof (served_one (CLifecycle ev' tcp') d') as G2. cbn in G2. destruct (lifecycle ev' tcp' d') as [d2 o2]. by eapply served_trans.
Qed.
Lemma forward_all_served evs gate : forall x d, let '(_, d', out) := forward_all evs gate x d in served d (d', out).
Proof.
  induction evs as [|ev evs IH]; intros x d; cbn [forward_all]; [apply served_refl|].
  pose proof (forward_served ev None gate x d) as G. destruct (forward ev None gate x d) as [[[x1 d1] t1] o1].
  specialize (IH x1 d1). destruct (forward_all evs gate x1 d1) as [[x2 d2] o2]. by eapply served_trans.
Qed.
Lemma dispatch_packet_served p view ports gate x d : let '(_, d', out) := dispatch_packet p view ports gate x d in served d (d', out).
Proof.
  unfold dispatch_packet. set (cx := packet_ctx p gate). set (k := PacketInfo.key p).
  assert (St : forall s x1, let '(_, d', out) := let (d1, o) := on_stream cx ports s d in (discard_done k (streams_done k ports d1) x1, d1, o) in
    served d (d', out)).
  { intros s x1. pose proof (served_one (CStream cx ports s) d) as G. cbn in G. by destruct (on_stream cx ports s d). }
  assert (Dg : let '(_, d', out) :=
    (if wants_datagram ports (PacketInfo.l4 p) d then
       match (match PacketInfo.l4_meta p with
              | Some m => if L4Meta.is_truncated m then Err tt else Ok (Some (L4Meta.payload (PacketView.frame view) m))
              | None => datagram_payload (PacketView.frame view)
              end) with
       | Ok (Some payload) => let (d, out) := on_datagram cx ports payload d in (x, d, out)
       | Ok None | Err _ => (x, d, [])
       end
     else (x, d, [])) in served d (d', out)).
  { destruct (wants_datagram _ _ d); [|apply served_refl].
    destruct (match PacketInfo.l4_meta p with Some _ => _ | None => _ end) as [[payload|]|]; try apply served_refl.
    pose proof (served_one (CDatagram cx ports payload) d) as G. cbn in G. by destruct (on_datagram cx ports payload d). }
  destruct (PacketInfo.l4 p) as [[]|]; try exact Dg. clear Dg.
  destruct (PacketInfo.passthrough_bytes (PacketView.frame view) p) as [bytes|].
  - destruct (is_nil bytes); [apply served_refl|]. apply St.
  - destruct (FlowDriver.drain_stream k _ _ x) as [[x1 scratch] drained]. destruct (negb drained || _); [apply served_refl|apply St].
Qed.
Lemma forward_packet_served view ports gate evs : forall packet tcp x d,
  let '(_, d', out) := forward_packet packet view ports gate evs tcp x d in served d (d', out).
Proof.
  induction evs as [|ev evs IH]; intros packet tcp x d; cbn [forward_packet].
  { destruct packet as [p|]; [apply dispatch_packet_served|apply served_refl]. }
  assert (let '(_, _, d1, o) := match packet with
    | Some p => if ends_key p ev
                then let '(x, d, out) := dispatch_packet p view ports gate x d in (None, x, d, out)
                else (packet, x, d, @nil O)
    | None => (None, x, d, [])
    end in served d (d1, o)) as G.
  { destruct packet as [p|]; [|apply served_refl]. case_if; [|apply served_refl].
    pose proof (dispatch_packet_served p view ports gate x d) as G. by destruct (dispatch_packet p view ports gate x d) as [[? ?] ?]. }
  destruct (match packet with Some _ => _ | None => _ end) as [[[packet' x1] d1] o1].
  pose proof (forward_served ev tcp gate x1 d1) as G2. destruct (forward ev tcp gate x1 d1) as [[[x2 d2] tcp'] o2].
  specialize (IH packet' tcp' x2 d2). destruct (forward_packet packet' view ports gate evs tcp' x2 d2) as [[x3 d3] o3].
  eapply served_trans; [exact G|]. by eapply served_trans.
Qed.
Lemma dispatch_released_served now gate b rs : forall d, served d (dispatch_released now gate b rs d).
Proof.
  induction rs as [|r rs IH]; intros d; cbn [dispatch_released]; [apply served_refl|].
  pose proof (show_served (fun _ => b) (Released.anomalies r) d) as G1. destruct (show _ _ d) as [d1 o1].
  assert (served d1 match Released.data r with
    | Some data =>
        if StreamChunks.is_empty data then (d1, [])
        else on_stream (Ctx.mk (Released.key r) (Some Tcp) (Released.side r) (Released.orientation r) now gate) (Released.ports r) (Stream.SChunks data) d1
    | None => (d1, [])
    end) as G2.
  { destruct (Released.data r) as [data|]; [|apply served_refl]. case_if; [apply served_refl|].
    exact (served_one (CStream (Ctx.mk (Released.key r) (Some Tcp) (Released.side r) (Released.orientation r) now gate) (Released.ports r) (Stream.SChunks data)) d1). }
  destruct (match Released.data r with Some _ => _ | None => _ end) as [d2 o2]. specialize (IH d2).
  destruct (dispatch_released now gate b rs d2) as [d3 o3]. eapply served_trans; [exact G1|]. by eapply served_trans.
Qed.
Lemma sweep_served now (e : Engine.t K C F R) d : let '(_, d', out) := sweep order now e d in served d (d', out).
Proof.
  unfold sweep, tick. destruct (FlowDriver.clamp_now now (flow e)) as [x1 now1].
  pose proof (served_one (CTick now1 now1 (orientation_of x1) (emit_gate x1)) d) as G1. cbn in G1. destruct (dispatch_tick _ _ _ _ d) as [d1 o1].
  destruct (FlowDriver.advance_streams order now1 true x1) as [x2 rs].
  match goal with |- context[dispatch_released now1 ?g ?b rs d1] => pose proof (dispatch_released_served now1 g b rs d1) as G2;
    destruct (dispatch_released now1 g b rs d1) as [d2 o2] end.
  destruct (FlowDriver.sweep_raw now1 x2) as [x3 evs]. pose proof (forward_all_served evs (emit_gate x1) x3 d2) as G3.
  destruct (forward_all evs (emit_gate x1) x3 d2) as [[x4 d3] o3].
  pose proof (served_one (CRetain (fun k => is_some (FlowTracker.get k (FlowDriver.tracker x4)))) d3) as G4. cbn in G4.
  rewrite <- (app_nil_r o3). eapply served_trans; [exact G1|]. eapply served_trans; [exact G2|]. by eapply served_trans.
Qed.
Lemma track_served view (e : Engine.t K C F R) d e' d' out :
  Engine.track extract hash_frame order view e d = Some (e', d', out) -> served d (d', out).
Proof.
  unfold Engine.track. cbv zeta. destruct (FlowDriver.track_raw _ _ _ _ _ _) as [[x1 evs]|]; [|done].
  set (pp := match FlowDriver.last_packet x1 with Some _ => _ | None => _ end). set (tcp := match FlowDriver.last_packet x1 with Some _ => _ | None => _ end).
  pose proof (forward_packet_served view pp (emit_gate x1) evs (FlowDriver.last_packet x1) tcp x1 d) as G1.
  destruct (forward_packet _ view pp _ evs tcp x1 d) as [[x2 d2] o2]. destruct (FlowDriver.last_packet x1) as [p|]; [|by intros [= <- <- <-]].
  destruct (FlowDriver.auto_sweep_due _ x2); [|by intros [= <- <- <-]].
  pose proof (sweep_served (PacketInfo.ts p) (Engine.mk x2) d2) as G2. destruct (sweep order _ (Engine.mk x2) d2) as [[e3 d3] o3].
  intros [= <- <- <-]. by eapply served_trans.
Qed.
Lemma finish_served (e : Engine.t K C F R) d : let '(_, d', out) := finish e d in served d (d', out).
Proof.
  unfold finish, tick. pose proof (served_one (CTick Timestamp.MAX (FlowDriver.max_timestamp (flow e)) (orientation_of (flow e)) (emit_gate (flow e))) d) as G1.
  cbn in G1. destruct (dispatch_tick _ _ _ _ d) as [d1 o1]. destruct (FlowDriver.finish_raw (flow e)) as [x evs].
  pose proof (forward_all_served evs (emit_gate (flow e)) x d1) as G2. destruct (forward_all evs _ x d1) as [[x2 d2] o2]. by eapply served_trans.
Qed.
Lemma force_close_served k now (e : Engine.t K C F R) d : let '(_, d', out) := force_close k now e d in served d (d', out).
Proof.
  unfold force_close. destruct (FlowDriver.force_close_raw k now (flow e)) as [x evs].
  pose proof (forward_all_served evs (emit_gate (flow e)) x d) as G2. by destruct (forward_all evs _ x d) as [[x2 d2] o2].
Qed.
End engine.
End serve.

(** ** The slots, under any dispatch calls *)
Section slots.
Context {K M : Type}.
Notation boxed := (Boxed.t K M).
Notation items := (list (Item K M)).
Implicit Types (l : list boxed) (s : Slots.t K M) (b : boxed) (o : Order.t) (c : DispatchCall K) (its : items).
Notation bid := (ErasedSlot.id (K := K) (M := M)).
Import Slots.

Lemma serve1_slots c s : serve1 c s =
  match c with CLifecycle ev tcp => on_lifecycle ev tcp s | _ => each_slot (slot_call c) s end.
Proof.
  destruct c; try reflexivity. cbn. unfold each_slot.
  assert (forall l o, each (slot_call (CRetain alive)) l o = (ErasedSlot.retain (M := M) alive <$> l, o, [])) as E.
  { induction l as [|b l IH]; intros o; [done|]. cbn [each slot_call]. by rewrite IH. }
  rewrite E. by destruct s.
Qed.

(** *** State *)
Lemma each_lookup c l : forall o i b, l !! i = Some b -> (each (slot_call c) l o).1.1 !! i = Some (slot_call c o b).1.1.
Proof.
  induction l as [|a l IH]; intros o i b; [done|]. cbn [each]. destruct (slot_call c o a) as [[a' o1] out] eqn:Ea.
  specialize (IH o1). destruct (each (slot_call c) l o1) as [[l' o2] out'] eqn:El. destruct i as [|i]; cbn.
  - intros [= <-]. by rewrite Ea.
  - intros Hb. apply IH in Hb. transitivity (Some (slot_call c o1 b).1.1); [exact Hb|]. f_equal. apply slot_blind.
Qed.
Lemma each_ids c l : forall o, bid <$> (each (slot_call c) l o).1.1 = bid <$> l.
Proof.
  induction l as [|a l IH]; intros o; [done|]. cbn [each]. pose proof (slot_id c o a) as E. destruct (slot_call c o a) as [[a' o1] out]. specialize (IH o1).
  destruct (each (slot_call c) l o1) as [[l' o2] out']. cbn in *. by f_equal.
Qed.
Lemma serve1_ids c s : bid <$> list (serve1 c s).1 = bid <$> list s.
Proof.
  rewrite serve1_slots. assert (bid <$> list (each_slot (slot_call c) s).1 = bid <$> list s) as E.
  { unfold each_slot. pose proof (each_ids c (list s) (order s)) as G. by destruct (each _ _ _) as [[l o] out]. }
  destruct c; try exact E. cbn. unfold on_lifecycle. by destruct (map_flow_event _ _).
Qed.
Lemma serve1_details c s : emit_packet_details (serve1 c s).1 = emit_packet_details s.
Proof.
  rewrite serve1_slots. assert (emit_packet_details (each_slot (slot_call c) s).1 = emit_packet_details s) as E.
  { unfold each_slot. by destruct (each _ _ _) as [[l o] out]. }
  destruct c; try exact E. cbn. unfold on_lifecycle. by destruct (map_flow_event _ _).
Qed.

(** *** What one slot says *)
Lemma said_app slot its its' : said slot (its ++ its') = said slot its ++ said slot its'.
Proof. unfold said. by rewrite List.filter_app, fmap_app. Qed.
Lemma said_blind slot its : forall its', unmark <$> its = unmark <$> its' -> said slot its = said slot its'.
Proof.
  induction its as [|i its IH]; intros [|i' its']; cbn; try done. intros [= E E']. apply IH in E'. unfold said in *. cbn.
  assert (tag i = tag i') as ->.
  { destruct i, i'; cbn in E; try done; [by injection E as ->|by injection E as ->]. }
  case_bool_decide; cbn; [by f_equal|done].
Qed.
Lemma said_other slot slot' its : Forall (fun i => tag i = None \/ tag i = Some slot') its -> slot <> slot' -> said slot its = [].
Proof.
  intros F N. unfold said. induction F as [|i its Hi _ IH]; [done|]. cbn. rewrite bool_decide_false; [done|]. intros E. destruct Hi; congruence.
Qed.
Lemma each_others c l : forall o slot, slot ∉ bid <$> l -> said slot (each (slot_call c) l o).2 = [].
Proof.
  induction l as [|a l IH]; intros o slot Hn; [done|]. cbn [each]. pose proof (slot_tags c o a) as T.
  destruct (slot_call c o a) as [[a' o2] out]. specialize (IH o2 slot). destruct (each (slot_call c) l o2) as [[l' o3] out'].
  cbn [fst snd] in *. rewrite fmap_cons in Hn. apply not_elem_of_cons in Hn as [N1 N2]. by rewrite said_app, (said_other slot (bid a) out T N1), (IH N2).
Qed.
Lemma each_said c l : forall o o' i b, NoDup (bid <$> l) -> l !! i = Some b ->
  said (bid b) (each (slot_call c) l o).2 = said (bid b) (slot_call c o' b).2.
Proof.
  induction l as [|a l IH]; intros o o' i b N; [done|]. cbn [each]. rewrite fmap_cons in N. apply NoDup_cons in N as [Na N].
  pose proof (slot_tags c o a) as T. destruct (slot_call c o a) as [[a' o1] out] eqn:Ea. specialize (IH o1 o').
  pose proof (each_others c l o1) as R.
  destruct (each (slot_call c) l o1) as [[l' o2] out'] eqn:El. cbn [fst snd] in *. rewrite said_app. destruct i as [|i].
  - intros [= <-]. rewrite (R (bid a) Na), app_nil_r. destruct (slot_blind c o o' a) as [_ B]. rewrite Ea in B. by apply said_blind.
  - intros Hb. change (l !! i = Some b) in Hb. rewrite (said_other (bid b) (bid a) out T); [by apply (IH i)|]. intros E. apply Na. rewrite <- E.
    apply list_elem_of_fmap. exists b. split; [done|]. by eapply list_elem_of_lookup_2.
Qed.
Lemma serve1_alone c s s1 i b :
  NoDup (bid <$> list s) -> list s !! i = Some b -> list s1 = [b] -> emit_packet_details s1 = emit_packet_details s ->
  said (bid b) (serve1 c s).2 = said (bid b) (serve1 c s1).2 /\
  exists b', list (serve1 c s).1 !! i = Some b' /\ list (serve1 c s1).1 = [b'] /\ bid b' = bid b.
Proof.
  intros N Hb H1 Hd. rewrite !serve1_slots.
  assert (E : said (bid b) (each_slot (slot_call c) s).2 = said (bid b) (each_slot (slot_call c) s1).2 /\
    exists b', list (each_slot (slot_call c) s).1 !! i = Some b' /\ list (each_slot (slot_call c) s1).1 = [b'] /\ bid b' = bid b).
  { unfold each_slot. rewrite H1. pose proof (each_said c (list s) (order s) (order s1) i b N Hb) as G1.
    pose proof (each_lookup c (list s) (order s) i b Hb) as G2. destruct (each _ (list s) _) as [[l o] out]. cbn [each fst snd] in *.
    pose proof (slot_id c (order s1) b) as G3. destruct (slot_blind c (order s) (order s1) b) as [G4 _].
    destruct (slot_call c (order s1) b) as [[b1 o1] out1]. cbn in *. rewrite app_nil_r. split; [done|]. exists b1. rewrite G2. by split_and!; f_equal. }
  destruct c; try exact E. cbn. unfold on_lifecycle. rewrite Hd. destruct (map_flow_event _ _); cbn; (split; [done|]; by exists b).
Qed.
Lemma serve_alone cs : forall s s1 i b,
  NoDup (bid <$> list s) -> list s !! i = Some b -> list s1 = [b] -> emit_packet_details s1 = emit_packet_details s ->
  said (bid b) (serve cs s).2 = said (bid b) (serve cs s1).2 /\
  exists b', list (serve cs s).1 !! i = Some b' /\ list (serve cs s1).1 = [b'].
Proof.
  induction cs as [|c cs IH]; intros s s1 i b N Hb H1 Hd; cbn [serve]; [split; [done|by exists b]|].
  destruct (serve1_alone c s s1 i b N Hb H1 Hd) as (E1 & b' & E2 & E3 & E4).
  pose proof (serve1_ids c s) as Ei. pose proof (serve1_details c s) as D1. pose proof (serve1_details c s1) as D2.
  destruct (serve1 c s) as [s' out], (serve1 c s1) as [s1' out1]. cbn [fst snd] in *.
  destruct (IH s' s1' i b') as [F1 F2]; [by rewrite Ei|done|done|congruence|]. rewrite E4 in F1.
  destruct (serve cs s') as [s2 out2], (serve cs s1') as [s3 out3]. cbn [fst snd] in *. rewrite !said_app. by rewrite E1, F1.
Qed.

(** *** Marks do not matter *)
Lemma each_blind c l : forall o o', (each (slot_call c) l o).1.1 = (each (slot_call c) l o').1.1 /\
  unmark <$> (each (slot_call c) l o).2 = unmark <$> (each (slot_call c) l o').2.
Proof.
  induction l as [|a l IH]; intros o o'; [done|]. cbn [each]. destruct (slot_blind c o o' a) as [B1 B2].
  destruct (slot_call c o a) as [[a1 o1] out1], (slot_call c o' a) as [[a2 o2] out2]. cbn in B1, B2. subst a2.
  destruct (IH o1 o2) as [I1 I2]. destruct (each _ l o1) as [[l1 p1] q1], (each _ l o2) as [[l2 p2] q2]. cbn in *.
  rewrite !fmap_app. by split; f_equal.
Qed.
Lemma serve1_blind c s s' : list s = list s' -> emit_packet_details s = emit_packet_details s' ->
  list (serve1 c s).1 = list (serve1 c s').1 /\ unmark <$> (serve1 c s).2 = unmark <$> (serve1 c s').2.
Proof.
  intros El Ed. rewrite !serve1_slots.
  assert (E : list (each_slot (slot_call c) s).1 = list (each_slot (slot_call c) s').1 /\
    unmark <$> (each_slot (slot_call c) s).2 = unmark <$> (each_slot (slot_call c) s').2).
  { unfold each_slot. rewrite <- El. destruct (each_blind c (list s) (order s) (order s')) as [B1 B2].
    by destruct (each _ (list s) (order s)) as [[l1 o1] p1], (each _ (list s) (order s')) as [[l2 o2] p2]. }
  destruct c; try exact E. cbn. unfold on_lifecycle. rewrite Ed. by destruct (map_flow_event _ _).
Qed.
Lemma serve_blind cs : forall s s', list s = list s' -> emit_packet_details s = emit_packet_details s' ->
  list (serve cs s).1 = list (serve cs s').1 /\ unmark <$> (serve cs s).2 = unmark <$> (serve cs s').2 /\
  emit_packet_details (serve cs s).1 = emit_packet_details s.
Proof.
  induction cs as [|c cs IH]; intros s s' El Ed; cbn [serve]; [by split_and!|].
  destruct (serve1_blind c s s' El Ed) as [B1 B2]. pose proof (serve1_details c s) as D1. pose proof (serve1_details c s') as D2.
  destruct (serve1 c s) as [s1 o1], (serve1 c s') as [s2 o2]. cbn [fst snd] in *.
  destruct (IH s1 s2 B1) as (I1 & I2 & I3); [congruence|]. destruct (serve cs s1) as [s3 o3], (serve cs s2) as [s4 o4]. cbn [fst snd] in *.
  rewrite !fmap_app. split_and!; [done|by f_equal|congruence].
Qed.

(** *** Marks *)
Lemma marked_app its its' : forall o o1 o2, marked o its o1 -> marked o1 its' o2 -> marked o (its ++ its') o2.
Proof.
  induction its as [|[e|slot m] its IH]; intros o o1 o2; cbn; [by intros ->|by apply IH|]. intros (E1 & E2 & E3) E. split_and!; [done|done|]. by eapply IH.
Qed.
Lemma each_marks c l : forall o, marked o (each (slot_call c) l o).2 (each (slot_call c) l o).1.2.
Proof.
  induction l as [|a l IH]; intros o; [done|]. cbn [each]. pose proof (slot_marks c o a) as G. destruct (slot_call c o a) as [[a1 o1] out1].
  specialize (IH o1). destruct (each _ l o1) as [[l1 p1] q1]. cbn in *. by eapply marked_app.
Qed.
Lemma serve1_marks c s : marked (order s) (serve1 c s).2 (order (serve1 c s).1).
Proof.
  rewrite serve1_slots. assert (E : marked (order s) (each_slot (slot_call c) s).2 (order (each_slot (slot_call c) s).1)).
  { unfold each_slot. pose proof (each_marks c (list s) (order s)) as G. by destruct (each _ (list s) (order s)) as [[l1 o1] p1]. }
  destruct c; try exact E. cbn. unfold on_lifecycle. by destruct (map_flow_event _ _).
Qed.
Lemma serve_marks cs : forall s, marked (order s) (serve cs s).2 (order (serve cs s).1).
Proof.
  induction cs as [|c cs IH]; intros s; cbn [serve]; [done|]. pose proof (serve1_marks c s) as G. destruct (serve1 c s) as [s1 o1].
  specialize (IH s1). destruct (serve cs s1) as [s2 o2]. cbn in *. by eapply marked_app.
Qed.

(** *** Flows *)
Lemma each_has c l k : forall o b', b' ∈ (each (slot_call c) l o).1.1 -> slot_has b' k -> exists b, b ∈ l /\ keeps c (slot_has b k) k.
Proof.
  induction l as [|a l IH]; intros o b'; cbn [each]; [by intros ?%elem_of_nil|]. pose proof (slot_keeps c o a k) as G.
  destruct (slot_call c o a) as [[a1 o1] out1]. specialize (IH o1 b'). destruct (each _ l o1) as [[l1 p1] q1]. cbn in *.
  intros [->|Hb]%elem_of_cons Hk; [exists a; split; [by left|by apply G]|]. destruct (IH Hb Hk) as (b & B1 & B2). exists b. split; [by right|done].
Qed.
Definition slots_has s k : Prop := exists b, b ∈ list s /\ slot_has b k.
Lemma serve1_has c s k : slots_has (serve1 c s).1 k -> exists b, b ∈ list s /\ keeps c (slot_has b k) k.
Proof.
  rewrite serve1_slots. assert (E : slots_has (each_slot (slot_call c) s).1 k -> exists b, b ∈ list s /\ keeps c (slot_has b k) k).
  { unfold each_slot. pose proof (each_has c (list s) k (order s)) as G. destruct (each _ (list s) (order s)) as [[l1 o1] p1]. cbn in *.
    intros (b' & B1 & B2). by eapply G. }
  destruct c; try exact E. cbn. unfold on_lifecycle. by destruct (map_flow_event _ _).
Qed.
#[global] Program Instance slots_laws : DispatchLaws K (Slots.t K M) (Item K M) := { has := slots_has }.
Next Obligation. intros cx ports b s k (x & X1 & X2)%(serve1_has (CStream cx ports b)). destruct X2 as [?| ->]; [left; by exists x|by right]. Qed.
Next Obligation. intros cx ports b s k (x & X1 & X2)%(serve1_has (CDatagram cx ports b)). destruct X2 as [?| ->]; [left; by exists x|by right]. Qed.
Next Obligation.
  intros k reason stats finals ports emit s k' (x & X1 & X2 & X3)%(serve1_has (CFlowEnd k reason stats finals ports emit)). split; [by exists x|done].
Qed.
Next Obligation. intros now stamp orn emit s k (x & X1 & X2)%(serve1_has (CTick now stamp orn emit)). by exists x. Qed.
Next Obligation. intros alive s k (x & X1 & X2 & X3)%(serve1_has (CRetain alive)). split; [by exists x|done]. Qed.
Next Obligation. intros ev tcp s k (x & X1 & X2)%(serve1_has (CLifecycle ev tcp)). by exists x. Qed.
End slots.

(** ** Conversions *)

(** Back and forth keeps every event but the start of a flow whose first
    packet came from the responder. *)
Lemma into_from {K} (ev : FlowEvent K) :
  match ev with Event.Started _ Responder _ _ _ => True | _ => DriverEvent.into_flow_event (DriverEvent.from ev) = Some ev end.
Proof. by destruct ev as [? []| | | | | | |]. Qed.
Lemma responder_start_lost {K} (k : K) orientation ts l4 :
  DriverEvent.into_flow_event (DriverEvent.from (Event.Started k Responder orientation ts l4)) =
  Some (Event.Started k Initiator (flipped orientation) ts l4).
Proof. done. Qed.

(** ** Rebuilding the order *)
Section order.
Context {K M : Type}.
Notation items := (list (Item K M)).
Notation message := (SlotId.t * SlotMessage.t K M)%type.
Implicit Types (l : items) (ms : list message) (evs : list (DriverEvent.t K)).
Definition pushes l : list message := omap (fun i => match i with Pushed slot m => Some (slot, m) | _ => None end) l.
Notation lifecycles := (TypedDriver.lifecycles (K := K) (M := M)).
Definition pushed (m : message) : Item K M := Pushed m.1 m.2.

(** Messages and events, woven: a message with [lifecycle_pos] [p] goes
    before event number [p], the first event being number [n]. *)
Fixpoint due (n : Z) ms : list message * list message :=
  match ms with
  | [] => ([], [])
  | m :: ms' => if SlotMessage.lifecycle_pos m.2 <=? n then let (now, later) := due n ms' in (m :: now, later) else ([], ms)
  end.
Fixpoint weave (n : Z) evs ms : items :=
  let (now, later) := due n ms in
  (pushed <$> now) ++ match evs with [] => pushed <$> later | e :: evs => Lifecycle e :: weave (n + 1) evs later end.

(** Each mark is the number of events, or of messages, before. *)
Fixpoint marks (n q : Z) l : Prop :=
  match l with
  | [] => True
  | Lifecycle _ :: l => marks (n + 1) q l
  | Pushed _ m :: l => SlotMessage.lifecycle_pos m = n /\ SlotMessage.seq m = q /\ marks n (q + 1) l
  end.
Lemma marked_marks l : forall o o', marked o l o' ->
  marks (Order.base o + (Order.len o - Order.start o)) (Order.seq o) l /\
  Order.seq o' = Order.seq o + zlen (pushes l).
Proof.
  induction l as [|[e|slot m] l IH]; intros o o'; cbn.
  - intros ->. change (zlen []) with 0. split; [done|lia].
  - intros (I1 & I2)%IH. cbn in *. split; [|done].
    by replace (Order.base o + (Order.len o - Order.start o) + 1) with (Order.base o + (1 + Order.len o - Order.start o)) by lia.
  - intros (E1 & E2 & (I1 & I2)%IH). cbn in *. split_and!; [done|done| |].
    + by rewrite (Z.add_comm (Order.seq o) 1).
    + change (omap _ l) with (pushes l). rewrite I2, zlen_cons. lia.
Qed.
Lemma marks_app n q l l' : marks n q (l ++ l') <-> marks n q l /\ marks (n + zlen (lifecycles l)) (q + zlen (pushes l)) l'.
Proof.
  revert n q. induction l as [|[e|slot m] l IH]; intros n q; cbn [marks app].
  - change (zlen (lifecycles [])) with 0. change (zlen (pushes [])) with 0. rewrite !Z.add_0_r. tauto.
  - change (lifecycles (Lifecycle e :: l)) with (e :: lifecycles l). change (pushes (Lifecycle e :: l)) with (pushes l).
    rewrite IH, zlen_cons. by replace (n + 1 + zlen (lifecycles l)) with (n + (1 + zlen (lifecycles l))) by lia.
  - change (lifecycles (Pushed slot m :: l)) with (lifecycles l). change (pushes (Pushed slot m :: l)) with ((slot, m) :: pushes l).
    rewrite IH, zlen_cons. replace (q + 1 + zlen (pushes l)) with (q + (1 + zlen (pushes l))) by lia. tauto.
Qed.
Definition earlier (a b : message) : Prop := SlotMessage.seq a.2 < SlotMessage.seq b.2.
#[local] Instance earlier_antisym : AntiSymm (=) earlier.
Proof. unfold earlier. intros a b. lia. Qed.
Lemma marks_sorted l : forall n q, marks n q l ->
  StronglySorted earlier (pushes l) /\ Forall (fun m => q <= SlotMessage.seq m.2 /\ n <= SlotMessage.lifecycle_pos m.2) (pushes l).
Proof.
  induction l as [|[e|slot m] l IH]; intros n q; cbn.
  - split; [constructor|by apply Forall_nil].
  - intros [I1 I2]%IH. split; [done|]. eapply Forall_impl; [exact I2|]. cbn. lia.
  - intros (E1 & E2 & [I1 I2]%IH). split.
    + constructor; [done|]. eapply List.Forall_impl; [|exact I2]. unfold earlier. cbn. lia.
    + apply Forall_cons. split; [cbn; lia|]. eapply Forall_impl; [exact I2|]. cbn. lia.
Qed.
Lemma weave_due n evs m ms : SlotMessage.lifecycle_pos m.2 <= n -> weave n evs (m :: ms) = pushed m :: weave n evs ms.
Proof.
  intros H. destruct evs as [|e evs]; cbn; rewrite (proj2 (Z.leb_le _ _) H); by destruct (due n ms).
Qed.
Lemma weave_marks l : forall n q, marks n q l -> weave n (lifecycles l) (pushes l) = l.
Proof.
  induction l as [|[e|slot m] l IH]; intros n q; [done| |].
  - intros H. cbn in H. destruct (marks_sorted l _ _ H) as [_ F]. change (lifecycles (Lifecycle e :: l)) with (e :: lifecycles l).
    change (pushes (Lifecycle e :: l)) with (pushes l). cbn [weave].
    assert (due n (pushes l) = ([], pushes l)) as ->.
    { destruct F as [|m ms [_ Hm] _]; [done|]. cbn. rewrite (proj2 (Z.leb_gt _ _)) by lia. done. }
    cbn. f_equal. by eapply IH.
  - cbn [marks]. intros (E1 & E2 & H). change (lifecycles (Pushed slot m :: l)) with (lifecycles l).
    change (pushes (Pushed slot m :: l)) with ((slot, m) :: pushes l). rewrite weave_due by (cbn; lia). unfold pushed at 1. cbn. f_equal. by eapply IH.
Qed.
Lemma weave_sorted l n q ms : marks n q l -> ms ≡ₚ pushes l -> StronglySorted earlier ms -> weave n (lifecycles l) ms = l.
Proof.
  intros Hm Hp Hs. rewrite (StronglySorted_unique earlier ms (pushes l) Hs (proj1 (marks_sorted l n q Hm)) Hp). by eapply weave_marks.
Qed.
End order.

(** ** Sessions of a typed driver *)
Section session.
Context {K M C : Type} `{Countable K} `{!Lru K (FlowEntry.t unit) C, !LruLaws K (FlowEntry.t unit) C} `{FrameParser}.
Notation R := SegmentBufferReassembler.t.
Notation items := (list (Item K M)).
Notation driver := (TypedDriver.t K M C).
Notation bid := (ErasedSlot.id (K := K) (M := M)).
Variable extract : PacketView.t -> option (Extracted.t K).
Variable hash_frame : list Z -> Z.
Variable order : gmap K (StreamFlow.t R) -> list (K * StreamFlow.t R).
Implicit Types (d : driver) (log : items).
Import TypedDriver.

(** [len] is the length of the vector a call appends to. *)
Inductive TypedCall :=
  | TTrack (view : PacketView.t) (len : Z) | TSweep (now : Timestamp.t) (len : Z) | TFinish (len : Z)
  | TForceClose (k : K) (now : Timestamp.t) (len : Z) | TSetConfig (c : FlowTrackerConfig.t)
  | TSetIdleTimeout (f : K -> option L4Proto -> option Z) | TSetDedup (x : option Dedup.t) | TPause | TResume.
Definition typed_step (c : TypedCall) d : option (driver * items) :=
  match c with
  | TTrack view len => track_into extract hash_frame order view len d
  | TSweep now len => Some (sweep_into order now len d)
  | TFinish len => Some (finish_into len d)
  | TForceClose k now len => Some (force_close_into k now len d)
  | TSetConfig c => Some (set_config c d, [])
  | TSetIdleTimeout f => Some (set_idle_timeout_fn f d, [])
  | TSetDedup x => Some (set_dedup x d, [])
  | TPause => Some (pause_events d, [])
  | TResume => Some (resume_events d, [])
  end.
Fixpoint typed_run (cs : list TypedCall) d : option (driver * items) :=
  match cs with
  | [] => Some (d, [])
  | c :: cs =>
      match typed_step c d with
      | Some (d, out) => match typed_run cs d with Some (d, out') => Some (d, out ++ out') | None => None end
      | None => None
      end
  end.

(** A call is a sequence of dispatch calls on the slots, from [begin]. *)
Lemma typed_step_served c d d' out : typed_step c d = Some (d', out) ->
  exists cs len, serve cs (slots (begin len d)) = (slots d', out) /\ lifecycle_seq d' = lifecycle_seq d + zlen (lifecycles out) \/
    out = [] /\ slots d' = slots d /\ lifecycle_seq d' = lifecycle_seq d.
Proof.
  assert (En : forall s len e (o : items), served (slots (begin len d)) (s, o) ->
    forall d1, d1 = end_ o (begin len d <| engine := e |> <| slots := s |>) ->
    exists cs len, serve cs (slots (begin len d)) = (slots d1, o) /\ lifecycle_seq d1 = lifecycle_seq d + zlen (lifecycles o) \/
    o = [] /\ slots d1 = slots d /\ lifecycle_seq d1 = lifecycle_seq d).
  { intros s len e o [cs E] d1 ->. exists cs, len. left. split; [exact E|]. cbn. lia. }
  destruct c; cbn [typed_step].
  - unfold track_into. pose proof (track_served extract hash_frame order view (engine (begin len d)) (slots (begin len d))) as G.
    destruct (Engine.track _ _ _ _ _ _) as [[[e s] o]|]; [|done]. intros [= <- <-]. by eapply En; [apply (G e s o)|].
  - unfold sweep_into. pose proof (sweep_served order now (engine (begin len d)) (slots (begin len d))) as G.
    destruct (Engine.sweep _ _ _ _) as [[e s] o]. intros [= <- <-]. by eapply En; [exact G|].
  - unfold finish_into. pose proof (finish_served (engine (begin len d)) (slots (begin len d))) as G.
    destruct (Engine.finish _ _) as [[e s] o]. intros [= <- <-]. by eapply En; [exact G|].
  - unfold force_close_into. pose proof (force_close_served k now (engine (begin len d)) (slots (begin len d))) as G.
    destruct (Engine.force_close _ _ _ _) as [[e s] o]. intros [= <- <-]. by eapply En; [exact G|].
  - intros [= <- <-]. exists [], 0. by right.
  - intros [= <- <-]. exists [], 0. by right.
  - intros [= <- <-]. exists [], 0. by right.
  - intros [= <- <-]. exists [], 0. by right.
  - intros [= <- <-]. exists [], 0. by right.
Qed.
Lemma typed_step_marks c d d' out : typed_step c d = Some (d', out) ->
  marks (lifecycle_seq d) (Order.seq (Slots.order (slots d))) out /\
  lifecycle_seq d' = lifecycle_seq d + zlen (lifecycles out) /\
  Order.seq (Slots.order (slots d')) = Order.seq (Slots.order (slots d)) + zlen (pushes out).
Proof.
  intros (cs & len & [(E1 & E2)|(-> & -> & ->)])%typed_step_served.
  - pose proof (serve_marks cs (slots (begin len d))) as G. rewrite E1 in G. cbn [fst snd] in G. apply marked_marks in G as [G1 G2].
    cbn in G1, G2. rewrite Z.sub_diag, Z.add_0_r in G1. by split_and!.
  - change (zlen (lifecycles [])) with 0. change (zlen (pushes [])) with 0. split_and!; [done|lia|lia].
Qed.
Lemma typed_run_marks cs : forall d d' log, typed_run cs d = Some (d', log) ->
  marks (lifecycle_seq d) (Order.seq (Slots.order (slots d))) log /\ lifecycle_seq d' = lifecycle_seq d + zlen (lifecycles log).
Proof.
  induction cs as [|c cs IH]; intros d d' log; cbn [typed_run].
  - intros [= <- <-]. change (zlen (lifecycles [])) with 0. split; [done|lia].
  - destruct (typed_step c d) as [[d1 o1]|] eqn:E; [|done]. destruct (typed_run cs d1) as [[d2 o2]|] eqn:E2; [|done].
    intros [= <- <-]. destruct (typed_step_marks c d d1 o1 E) as (S1 & S2 & S3). destruct (IH d1 d2 o2 E2) as [I1 I2].
    split; [apply marks_app; split; [done|]; by rewrite <- S2, <- S3|]. rewrite I2, S2. unfold lifecycles. rewrite omap_app, zlen_app. lia.
Qed.

(** C15: the events and messages of a typed driver can be put back in
    the order they happened in.  Readers drain the slots' queues whenever
    they like; with all the messages, sorted by [seq], and the lifecycle
    events the calls appended, [lifecycle_pos] tells where each message goes,
    and the result is exactly what the driver did, in order.
    [lifecycle_seq] is the number of events. *)
Theorem typed_order_recoverable (b : DriverBuilder.t K M) cs d log ms :
  typed_run cs (DriverBuilder.build b) = Some (d, log) ->
  ms ≡ₚ pushes log -> StronglySorted earlier ms ->
  weave 0 (lifecycles log) ms = log /\ lifecycle_seq d = zlen (lifecycles log).
Proof.
  intros E Hp Hs. destruct (typed_run_marks cs _ d log E) as [G1 G2]. split; [|exact G2]. by eapply weave_sorted.
Qed.

(** C14: the parsers registered with a driver do not disturb each
    other.  The engine makes one sequence of calls on the slots; what each
    slot has said after any session (its messages, in order, its parser
    closes, stops and parse errors) and the state it is in are those of the
    slot alone given those calls. *)
Theorem slots_do_not_interfere cs d d' log :
  NoDup (bid <$> Slots.list (slots d)) -> typed_run cs d = Some (d', log) ->
  exists calls, forall i b, Slots.list (slots d) !! i = Some b ->
    let alone := serve calls (slots d <| Slots.list := [b] |>) in
    said (bid b) log = said (bid b) alone.2 /\
    exists b', Slots.list (slots d') !! i = Some b' /\ Slots.list alone.1 = [b'].
Proof.
  intros N E.
  assert (G : exists calls, unmark <$> log = unmark <$> (serve calls (slots d)).2 /\
    Slots.list (slots d') = Slots.list (serve calls (slots d)).1 /\
    Slots.emit_packet_details (slots d') = Slots.emit_packet_details (slots d)).
  { clear N. revert d log E. induction cs as [|c cs IH]; intros d log; cbn [typed_run].
    { intros [= <- <-]. by exists []. }
    destruct (typed_step c d) as [[d1 o1]|] eqn:E; [|done]. destruct (typed_run cs d1) as [[d2 o2]|] eqn:E2; [|done].
    intros [= <- <-]. destruct (IH d1 o2 E2) as (calls & I1 & I2 & I3).
    apply typed_step_served in E as (c1 & len & [(S1 & _)|(-> & S1 & _)]).
    - destruct (serve_blind c1 (slots (begin len d)) (slots d) eq_refl eq_refl) as (B1 & B2 & B3). rewrite S1 in B1, B2, B3. cbn [fst snd] in *.
      destruct (serve_blind c1 (slots d) (slots d) eq_refl eq_refl) as (_ & _ & B4).
      destruct (serve_blind calls (slots d1) (serve c1 (slots d)).1 B1) as (F1 & F2 & _); [by rewrite B3, B4|].
      exists (c1 ++ calls). rewrite serve_app. cbn [fst snd].
      split_and!; [by rewrite !fmap_app, B2, I1, F2|by rewrite I2|by rewrite I3, B3].
    - exists calls. rewrite <- S1. by split_and!. }
  destruct G as (calls & G1 & G2 & G3). exists calls. intros i b Hb alone.
  destruct (serve_alone calls (slots d) (slots d <| Slots.list := [b] |>) i b N Hb) as (A1 & b' & A2 & A3); [done|done|].
  split; [rewrite (said_blind (bid b) log (serve calls (slots d)).2 G1); exact A1|]. exists b'. by rewrite G2.
Qed.

(** *** No dead state *)
Definition typed_roomy (c : TypedCall) d : bool :=
  match c with
  | TSetConfig c => FlowTracker.flow_count (tracker d) <=? Z.max (FlowTrackerConfig.max_flows c) 1
  | _ => true
  end.
Fixpoint typed_roomy_run (cs : list TypedCall) d : bool :=
  match cs with
  | [] => true
  | c :: cs => typed_roomy c d && match typed_step c d with Some (d, _) => typed_roomy_run cs d | None => true end
  end.
Notation sound d := (settled (flow_driver d) (slots d)).
Lemma begin_sound len d : sound d -> sound (begin len d).
Proof. done. Qed.
Lemma begin_engine len d : engine (begin len d) = Engine.mk (flow_driver (begin len d)).
Proof. by destruct d as [[x] sl n]. Qed.
Lemma typed_setting_sound (f : FlowDriver.t K C SegmentBufferReassemblerFactory.t R -> FlowDriver.t K C SegmentBufferReassemblerFactory.t R) d :
  (tracker_ok (flow_driver d) -> tracker_ok (f (flow_driver d))) ->
  (iter (FlowTracker.flows (FlowDriver.tracker (f (flow_driver d))))).*1 = (iter (FlowTracker.flows (tracker d))).*1 ->
  FlowDriver.streams (f (flow_driver d)) = FlowDriver.streams (flow_driver d) ->
  sound d -> sound (on_flow f d).
Proof.
  intros E1 E2 E3 (S1 & S2 & S3). destruct d as [[x] sl n]. cbn in *. split_and!; [by apply E1|..].
  - intros k. rewrite E2, E3. apply S2.
  - intros k. rewrite E2. apply S3.
Qed.
Lemma typed_step_sound c d : sound d -> typed_roomy c d = true ->
  exists d' out, typed_step c d = Some (d', out) /\ sound d'.
Proof.
  intros S Rm. destruct c; cbn [typed_step].
  - destruct (track_settled extract hash_frame order view _ _ (begin_sound len d S)) as (e & s & o & E & S').
    unfold track_into. rewrite (begin_engine len d). rewrite E. by eexists _, _.
  - pose proof (sweep_settled order now _ _ (begin_sound len d S)) as G. unfold sweep_into.
    rewrite (begin_engine len d). destruct (Engine.sweep order now _ _) as [[e s] o]. by eexists _, _.
  - pose proof (finish_settled _ _ (begin_sound len d S)) as G. unfold finish_into.
    rewrite (begin_engine len d). destruct (Engine.finish _ _) as [[e s] o]. by eexists _, _.
  - pose proof (force_close_settled k now _ _ (begin_sound len d S)) as G. unfold force_close_into.
    rewrite (begin_engine len d). destruct (Engine.force_close k now _ _) as [[e s] o]. by eexists _, _.
  - eexists _, _. split; [done|]. apply typed_setting_sound; [apply set_config_ok| |done|done]. cbn in Rm |- *.
    unfold FlowTracker.flow_count in Rm. rewrite len_iter in Rm. zb. rewrite iter_resize, ztake_ge; done.
  - eexists _, _. split; [done|]. apply typed_setting_sound; try done. intros Hx. pose proof (timeouts_owned f _ Hx) as []. by split.
  - eexists _, _. split; [done|]. by apply typed_setting_sound.
  - eexists _, _. split; [done|]. apply typed_setting_sound; try done. intros [Hi Ho]. split; [|done]. by destruct Hi.
  - eexists _, _. split; [done|]. apply typed_setting_sound; try done. intros Hx. pose proof (resume_owned _ Hx) as []. by split.
Qed.
Lemma typed_run_sound cs : forall d, sound d -> typed_roomy_run cs d = true ->
  exists d' out, typed_run cs d = Some (d', out) /\ sound d'.
Proof.
  induction cs as [|c cs IH]; intros d S Rm; cbn in *; [by eexists _, _|]. apply andb_true_iff in Rm as [Rc Rs].
  destruct (typed_step_sound c d S Rc) as (d1 & o1 & E & S1). rewrite E in *.
  destruct (IH d1 S1 Rs) as (d2 & o2 & E2 & S2). rewrite E2. by eexists _, _.
Qed.
Lemma build_sound (b : DriverBuilder.t K M) :
  (forall s k, s ∈ DriverBuilder.slots b -> ~ slot_has s k) -> sound (DriverBuilder.build (C := C) b).
Proof.
  intros N. pose proof (new_settled SegmentBufferReassemblerFactory.default (DriverBuilder.built_config b) (slots (DriverBuilder.build (C := C) b))) as G.
  destruct G as (G1 & G2 & G3); [intros k (s & S1 & S2); by eapply N|].
  unfold DriverBuilder.build. destruct (DriverBuilder.timeouts b) as [f|]; [|by split_and!].
  split_and!; [|done|done]. pose proof (timeouts_owned f _ G1) as []. by split.
Qed.

(** C16: a typed driver neither panics nor leaks.  With any parsers
    registered and whatever the owner calls, as long as the flow table is
    not shrunk under the flows in it, every call returns, and afterwards
    each flow with a reassembled stream, or with state in any slot, is a flow
    of the table; with the table empty nothing is kept. *)
Theorem typed_driver_keeps_no_dead_state (b : DriverBuilder.t K M) cs :
  (forall s k, s ∈ DriverBuilder.slots b -> ~ slot_has s k) ->
  typed_roomy_run cs (DriverBuilder.build b) = true ->
  exists d log,
    typed_run cs (DriverBuilder.build b) = Some (d, log) /\
    (forall k, is_Some (FlowDriver.streams (flow_driver d) !! k) \/ slots_has (slots d) k ->
       contains k (FlowTracker.flows (tracker d)) = true) /\
    (FlowTracker.flow_count (tracker d) = 0 ->
       FlowDriver.stream_count (flow_driver d) = 0 /\ forall k, ~ slots_has (slots d) k).
Proof.
  intros N Rm. destruct (typed_run_sound cs _ (build_sound b N) Rm) as (d & out & E & S). exists d, out. split; [exact E|].
  exact (settled_clean (flow_driver d) (slots d) S).
Qed.
End session.

(** ** From the log to the queues *)
Section deliver.
Context {K M Q W : Type} `{!Queue (SlotMessage.t K M) Q, !QueueLaws (SlotMessage.t K M) Q}.
Notation sink := (MessageSink.t Q W).
(** A [Pushed] item is a push on the sink of its slot. *)
Definition deliver (l : list (Item K M)) (st : gmap Z sink) : gmap Z sink :=
  fold_left (fun st m => alter (MessageSink.push m.2) m.1 st) (pushes l) st.
Definition messages_of (slot : SlotId.t) (l : list (Item K M)) : list (SlotMessage.t K M) :=
  omap (fun m => if m.1 =? slot then Some m.2 else None) (pushes l).
(** A handle's queue gets the messages of its slot, in order. *)
Lemma deliver_shared slot l : forall st q, st !! slot = Some (MessageSink.Shared q) ->
  exists q', deliver l st !! slot = Some (MessageSink.Shared q') /\ contents q' = contents q ++ messages_of slot l.
Proof.
  unfold deliver, messages_of. induction (pushes l) as [|[id m] ms IH]; intros st q Hq; cbn.
  { exists q. by rewrite app_nil_r. }
  destruct (Z.eqb_spec id slot) as [->|N].
  - destruct (IH (alter (MessageSink.push m) slot st) (q_push m q)) as (q' & E1 & E2); [by rewrite lookup_alter_eq, Hq|].
    exists q'. split; [exact E1|]. by rewrite E2, contents_push, <- app_assoc.
  - apply IH. by rewrite lookup_alter_ne.
Qed.
End deliver.

From S2P Require Import ParserProps CoreProps DriverProps.

(** Two slots on one driver: one reads every flow, the other takes
    those that begin with a one. *)
Section demo.
Notation parser := (AccumulatingSessionParser.t (list Z)).
Notation cache := (ListLru.t Z (FlowEntry.t ())).
#[local] Instance demo_order : IterOrder Z (SessionFlow.t parser) := map_to_list.
#[local] Instance demo_order_law : IterOrderLaw Z (SessionFlow.t parser) := fun _ => Permutation_refl _.
#[local] Instance demo_frames : FrameParser := fun _ => None.
Notation builder := (DriverBuilder.t Z (list Z)).
Definition typed_builder : builder :=
  let b := (DriverBuilder.session_broadcast demo_parser (fun m => m) DriverBuilder.builder).1 in
  let b := (DriverBuilder.session_heuristic demo_parser demo_signature (fun m => m) b).1 in
  DriverBuilder.config demo_config (DriverBuilder.emit_packet_details true b).
Definition typed_packet (k dir flags seq : Z) (payload : list Z) (sec : Z) : TypedCall (K := Z) :=
  TTrack (PacketView.new (k :: dir :: flags :: seq :: payload) (Timestamp.mk sec 0)) sec.
Definition typed_session : list (TypedCall (K := Z)) :=
  [typed_packet 1 0 2 99 [] 0; typed_packet 1 0 16 100 [2; 3; 4] 0; typed_packet 2 0 2 9 [] 1;
   typed_packet 2 0 16 10 [1; 5] 1; typed_packet 2 1 16 20 [2; 7; 8; 0; 5] 2; TSweep (Timestamp.mk 3 0) 7; TFinish 0].
Notation start := (DriverBuilder.build (C := cache) typed_builder).
Notation run cs := (typed_run Demo.extract Demo.hash Demo.order cs start).
Definition typed_out : option (TypedDriver.t Z (list Z) cache * list (Item Z (list Z))) := run typed_session.
Definition typed_log : list (Item Z (list Z)) := match typed_out with Some (_, log) => log | None => [] end.
Example typed_heard : (fun m => (m.1, SlotMessage.message m.2, SlotMessage.lifecycle_pos m.2)) <$> pushes typed_log =
  [(0, [3; 4], 3); (0, [5], 8); (1, [5], 8); (0, [7; 8], 9); (0, [], 9); (1, [7; 8], 9); (1, [], 9)].
Proof. vm_compute. reflexivity. Qed.
Lemma typed_fresh s k : s ∈ DriverBuilder.slots typed_builder -> ~ slot_has s k.
Proof. intros [->|[->|[]%elem_of_nil]%elem_of_cons]%elem_of_cons [st Hst]; discriminate Hst. Qed.
Lemma typed_ran : exists d, run typed_session = Some (d, typed_log).
Proof.
  destruct (typed_run_sound Demo.extract Demo.hash Demo.order typed_session start (build_sound typed_builder typed_fresh)) as (d & log & E & _);
    [vm_compute; reflexivity|]. exists d. unfold typed_log, typed_out. by rewrite E.
Qed.
Lemma typed_order_recoverable_witness :
  length (pushes typed_log) = 7%nat /\ weave 0 (TypedDriver.lifecycles typed_log) (pushes typed_log) = typed_log.
Proof.
  split; [vm_compute; reflexivity|]. destruct typed_ran as [d E].
  apply (typed_order_recoverable (C := cache) Demo.extract Demo.hash Demo.order typed_builder typed_session d typed_log (pushes typed_log) E); [done|].
  exact (proj1 (marks_sorted typed_log _ _ (proj1 (typed_run_marks Demo.extract Demo.hash Demo.order typed_session start d typed_log E)))).
Defined.
Lemma slots_do_not_interfere_witness :
  length (said 1 typed_log) = 4%nat /\ exists d calls b, Slots.list (TypedDriver.slots start) !! 1%nat = Some b /\
    run typed_session = Some (d, typed_log) /\
    said 1 typed_log = said 1 (serve calls (TypedDriver.slots start <| Slots.list := [b] |>)).2.
Proof.
  split; [vm_compute; reflexivity|]. destruct typed_ran as [d E].
  destruct (slots_do_not_interfere (C := cache) Demo.extract Demo.hash Demo.order typed_session start d typed_log) as [calls G]; [|exact E|].
  - apply (bool_decide_unpack (NoDup [0; 1])). reflexivity.
  - exists d, calls. eexists. split; [reflexivity|]. split; [exact E|]. exact (proj1 (G 1%nat _ eq_refl)).
Defined.
Lemma typed_driver_keeps_no_dead_state_witness :
  match run typed_session with
  | Some (d, _) => FlowTracker.flow_count (TypedDriver.tracker d) = 0 /\ FlowDriver.stream_count (TypedDriver.flow_driver d) = 0
  | None => False
  end.
Proof.
  assert (option_map (fun r => FlowTracker.flow_count (TypedDriver.tracker r.1)) (run typed_session) = Some 0) as E0 by (vm_compute; reflexivity).
  destruct (typed_driver_keeps_no_dead_state (C := cache) Demo.extract Demo.hash Demo.order typed_builder typed_session typed_fresh) as (d & out & E & _ & H0).
  - vm_compute. reflexivity.
  - rewrite E in E0 |- *. injection E0 as E0. split; [exact E0|]. by apply H0.
Defined.
End demo.
